(* ===== verification/_CoqProject ===== *)
-Q . S2P
Prelude.v
Span.v
Types.v
BTree.v
Adts.v
Unify.v
UnifyComplete.v
Unifier.v
UnifierSound.v
Syntax.v
TypedExprs.v
Errors.v
Heap.v
HeapStress.v
HeapTrace.v
HeapCollect.v
HeapSafety.v
Env.v
Scope.v
Lists.v
Values.v
ValueSafety.v
ValueExport.v
Token.v
Peg.v
Grammar.v
GrammarSem.v
GrammarTerm.v
RexGrammar.v
Ast.v
TypeEnv.v
TypeClasses.v
LetRec.v
Infer.v
InferExpr.v
Typing.v
InferRuns.v
InferPattern.v
InferAnswers.v
InferCases.v
InferApps.v
InferLets.v
InferSound.v
InferType.v
InferCopies.v
AdtFamily.v
TypeDecls.v
ClassDecls.v
FnDecls.v
Keeps.v
DeclStates.v
DeclsSound.v
DeclSpec.v
Modules.v
Qualify.v
Rewrite.v
Tarjan.v
Operators.v
AstBuilder.v
Derives.v
BuilderSafety.v
DeclSafety.v
EvalScheduler.v
Calls.v
NativeTask.v
HostScheduler.v
HostSafety.v
Frames.v
Registry.v
TypeCheck.v
ModuleLoad.v
EvalOps.v
Eval.v
Machine.v
MachineGC.v
ValueFaults.v
TaskSafety.v
FrameSafety.v
MachineSafety.v
Arrivals.v
