(* ===== verification/Prelude.v ===== *)
(** Rex: a statically typed functional workflow language, in Rust.

    * The program

    A source text goes through a lexer ([rex-parser/src/lexer.rs]), a token-level
    PEG parser ([peg.rs], [grammar.rs], [rex.rs], [ast_builder.rs]), type inference
    with records, ADTs and type classes ([rex-typesystem]), a compiler and a module
    loader, and an evaluator ([rex-engine]) whose values live in a copying,
    stress-testable garbage-collected heap ([rex-engine/src/memory]). On top of it
    are workflow tools, storage, a language server and command-line programs.

    This development models the parts that everything else relies on: the parser from
    tokens to syntax trees; the type system with its unifiers, type classes, declarations
    and inference; the heap with the values that are built on it and their conversions;
    and the evaluator: its frames, native tasks, registries, schedulers and loop.

    * Files, and the code they model

    - [Prelude]: results, the two bind notations, machine words, list lemmas, the
      hint database [rex].
    - [Span]: [rex-ast/src/span.rs].
    - [BTree]: ordered maps with string keys, as the lists of their entries.
    - [Types]: [rex-typesystem/src/types.rs]: types ([ty] is [TypeKind], [TVar] its
      [Var]), predicates, schemes, substitutions ([Subst] is [BTreeMap<u32, Type>],
      a [gmap]), [apply_with_change], [ftv], printing. The explicit-stack
      traversals of the code are compared with recursive references.
    - [Unify], [UnifyComplete]: [rex-typesystem/src/unification.rs], the pure
      [unify] with [bind], [record_elem_type] and [compose_subst], and the fuel that is
      enough as a function, so that the evaluator can call [unify_types].
      [Unifier], [UnifierSound]: the unifier that updates its substitution in place, with
      its depth limit.
    - [Adts]: ADT declarations of [types.rs], and the supply of type variables and
      instantiation of [typesystem.rs].
    - [Syntax]: the parts of [rex-ast/src/ast.rs] and of typed expressions that
      cells contain. [TypedExprs]: the substitution into typed expressions
      ([TypedExpr::apply] of [types.rs]) with its loops over chains.
    - [TypeEnv]: environments, and the reading of annotations with the expansion of
      aliases ([types.rs], [typesystem.rs]). [TypeClasses]: the class environment,
      superclasses, entailment and the kinds of predicates ([typesystem.rs]).
      [LetRec]: the check of recursive groups, [Infer]: the helpers of inference
      (schemes, defaulting, widening, projections, record updates, patterns and their
      exhaustiveness), [InferExpr]: [infer_expr], which elaborates, [InferType]:
      [infer_expr_type], which does not ([inference.rs]). Inference is a state monad
      over the unifier and the supply of variables.
    - [Typing]: the typing relation of elaborated expressions, and the elaboration of
      patterns. [InferRuns], [InferPattern], [InferAnswers], [InferCases], [InferApps],
      [InferLets], [InferSound]: what each case of inference answers, and programs that inference
      should refuse. [InferCopies]: the two copies of inference side by side.
    - [AdtFamily]: shapes, documentation and order of ADT declarations ([types.rs]).
      [TypeDecls]: [TypeSystem], values, ADTs and aliases. [ClassDecls]: classes and
      instances. [FnDecls]: [infer_typed] and [infer] ([inference.rs]), functions,
      forward declarations, methods of instances and [register_decls] ([typesystem.rs]).
      [Keeps]: what computations on a state leave in place. [DeclStates], [DeclsSound]:
      the invariant of the type system and the declarations one after the other;
      [DeclSpec]: batches of functions, and declarations that should be refused.
    - [Modules]: identifiers, keys, export tables, packages and the bindings of imports
      ([rex-engine/src/modules]). [Qualify]: the renaming of a package to the prefix of
      its module, and its exports ([builder/qualify.rs], [modules/mod.rs]). [Rewrite]:
      the check and the rewriting of imported names, [Tarjan]: the groups of modules
      that import one another ([builder/rewrite.rs]). [ModuleLoad]: importers and their
      cache ([modules/system.rs]), modules written in Rust and [inject_module]
      ([builder/builder.rs]), the loading of modules ([builder/rewrite.rs]), the entry
      points of the compiler ([compiler/mod.rs]) and of tooling ([module_semantics.rs]).
      The [Builder] or [Compiler] that declarations are injected into is the class
      [LoadEngine], and what loading relies on is [LoadEngineLaws]; loading is a state monad
      over it, the tables of a load, and the state of the importers.
    - [Errors]: [rex-engine/src/error.rs], the three ways an operation fails
      ([Raised] an error value, [Panic], [Diverges] for an inner loop that does not
      end), and the state monad of heap operations.
    - [Heap]: [rex-engine/src/memory/heap.rs]: [Cell], slots, generations, the root
      table, [map_pointers] and [trace_pointers], [get_slot_checked], [push_cell],
      [overwrite]. [HeapStress]: [randomized_gc_destinations]. [HeapTrace]: the
      marking loop of [Heap::collect]. [HeapCollect]: the rest of [collect],
      [verify_after_collection], [alloc_reference]. [HeapSafety]: the invariant
      [heap_inv] and what it gives.
    - [Env]: [rex-engine/src/env.rs]. [Scope]: [RootScope] of [heap.rs]: allocation
      and reading of every kind of value, the collection point
      [collect_if_needed], closures. [Lists]: [rex-engine/src/memory/lists.rs] and
      the list operations of [RootScope].
    - [Values]: [rex-engine/src/memory/value.rs], the two conversions between owned
      values and heap values as loops over a stack of work, and [infer_cell_type] of
      [heap.rs]. [ValueSafety]: a typing of owned values, their representation on the
      heap, and the conversion to the heap. [ValueExport]: the conversion back.
    - [Token]: tokens of [lexer.rs] and terminals of [grammar.rs]. [Peg]: comments,
      failures and the cursor engine of [peg.rs]. [Grammar]: the grammar type and the
      interpreter of [grammar.rs]. [GrammarSem]: a recursive semantics of grammars
      and the proof that the interpreter implements it. [GrammarTerm]: what a parse
      consumes, and a check of a grammar that makes its parser total.
      [RexGrammar]: the grammar value of [rex.rs].
    - [Ast]: expressions, patterns, types and declarations of [rex-ast/src/ast.rs].
      [Operators]: the folding of operator sequences in [ast_builder.rs].
      [AstBuilder]: the rest of that file, a state monad over the builder's depth
      counters and errors; its mutually recursive methods are bodies that take the
      recursive calls as parameters, tied with one unit of fuel per nested node.
      [Derives]: the trees a grammar can produce, and what can be computed from a
      grammar rule about the children of its nodes. [BuilderSafety], [DeclSafety]:
      the builder on such trees.
    - [EvalScheduler]: the ready queues of [rex-engine/src/evaluator/scheduler.rs].
      [HostScheduler]: the queues of host calls in that file, [poll_pending_native],
      and the admission control of [rex-engine/src/config.rs]. A host future is a
      parameter that is polled; [await] is polling until it is ready. [HostSafety]:
      runs of the host scheduler, and what holds in each of them.
    - [Calls]: how an application of a function value to values becomes an expression
      ([eval.rs], [util.rs]). [NativeTask]: [evaluator/native_functions.rs], the twenty
      tasks by which natives such as [map], [foldl] or [mean] call functions.
    - [Frames]: [rex-engine/src/stack.rs]: frames, their states and the frame store.
      [Registry]: [builder/registry.rs], [evaluator/context.rs], [native_fn.rs],
      [handlers.rs]: native functions, type class instances, how a name is resolved,
      and host calls. [TypeCheck]: the check of an expression
      before it runs ([compiler/type_check.rs]). [EvalOps]: literals, pattern matching, projections, record updates
      and applications ([eval.rs]). [Eval]: entering frames and receiving results.
      [Machine]: the collection point, a cycle, the loop with its host calls, and
      [Evaluator::run] ([eval.rs], [evaluator/mod.rs]).
    - [MachineGC]: the tokens that a machine holds. [ValueFaults]: the faults of
      operations on values. [TaskSafety], [FrameSafety], [MachineSafety]: what a task, a
      frame and the machine wait for, and that every step keeps it. [Arrivals]: results
      that arrive in any order, and when a native function is called.

    * How the code is represented

    A method that mutates [self] is a function on the state, [S -> exec A * S] in
    the monad of [Errors], so that what an early return leaves behind is visible:
    [failed_collection_releases_roots] is about exactly that. A machine word is a [Z]
    or [N] and its overflow checks are written out ([checked_add] answers [None],
    [wrapping_mul] reduces modulo 2^64). A [Vec] is a list, indexing it is
    [index_vec], which panics out of range. A [BTreeMap] is a [gmap], or a sorted
    association list where the order is observable (record fields, dictionary
    cells, environments). The heap's pointers are indices with a generation and a heap
    identity, as in the code. Traits that one component promises to another are
    classes: [EngineToken] and [Terminal] for the parsing engine, whose theorems hold
    for every instance, [ParallelismController] for the host scheduler, and [LoadEngine] for
    the loading of modules.

    * Fuel

    [unify] recurses on substituted types: its fuel bounds the depth, [None] is "no
    answer yet", and [unify_terminates] gives a fuel that is enough for every pair of
    types. The marking loop gets one step per reachable edge and root, which
    [marking_terminates] shows to be enough on every heap. The loops that follow
    list cells are followed for as many steps as the heap has slots;
    [list_walk_decides] shows that a walk that does not end by then does not end
    at all (the code loops on a cyclic list), which the model answers with [Diverges].
    Inference, entailment and the declarations take any fuel; [infer_typed_sound] gives
    one that is enough after declarations whose classes repeat no parameter, [alias_expansion_normalises] one for
    aliases, [order_adt_family_spec] one for ADT families and [import_groups_in_order]
    one for groups of modules. Loading takes any fuel, for the modules that it visits and
    the calls within calls, and [compile_program_ends] says that some is enough when the
    importers name finitely many modules. Entailment and superclass
    closures end under conditions on classes and instances, which
    [entails_decides_entailment] and [superclass_closure_ends_iff_acyclic] state.
    The grammar interpreter takes any fuel: [interpreter_implements_grammar] says
    that it halts exactly when the grammar has an outcome, and [rex_parser_halts] that
    the Rex grammar always has. The conversion of an owned value takes as many rounds
    as [import_rounds] counts; a heap value may be cyclic, so the conversion back takes
    any fuel, and [value_roundtrip] gives one that is enough. The evaluation loop takes
    fuel for its rounds, which programs that do not terminate use up: [None] is "no answer
    yet"; its theorems are about every state that rounds reach ([reached]). Waiting for
    the host and the export of the arguments of a host call take the same fuel. The loop
    over the arguments of an application has as many rounds as arguments are left, and
    one; it does not use them up ([evaluation_fails_for_a_reason]).

    * What the theorems show

    - Inference: after declarations whose classes repeat no parameter it ends, and what it
      answers is well typed ([infer_typed_sound]). The expressions are those whose [let]s declare no type
      parameters: with them the code generalises variables that are in scope
      ([scoped_parameter_quantified]). The typing relation coerces records and
      dictionaries, which the unifier identifies, and its rule for recursive groups
      follows the code, which does not hand the predicates of one member to another
      ([recursive_group_loses_predicates]). The copy of inference that does not
      elaborate agrees with the other one ([infer_type_agrees]). Recursive groups are
      checked as the order of evaluation requires ([validate_let_rec_bindings_spec]).
    - The check before a run: what is accepted is well typed after defaulting, its closed
      predicates are entailed, and the runtime knows its names ([type_check_sound]). It
      ends if the search for instances does.
    - Declarations: they keep the type system well formed, accepted or not
      ([register_decls_well_formed]); a class may not repeat a parameter for that
      ([repeated_class_parameter]), and ADTs that a host registers with [register_adt]
      on its own are outside of it ([merged_record_escapes_parameters]). A batch of
      functions is registered as a whole, each with the scheme its signature declares, or
      not at all ([register_fn_decls_atomic]), ADT families that do not disagree in the order
      of their dependencies ([order_adt_family_spec]),
      aliases expand ([alias_expansion_normalises]), and class resolution decides
      entailment ([entails_decides_entailment]).
    - Modules: identifiers read back as they are printed ([module_id_roundtrip]);
      qualification renames the declarations of a module and their free uses, and
      nothing else, and the exports are what is public ([qualify_package_spec]); that holds
      for bodies in which no binder shadows another, as the code forgets the outer one
      ([shadowing_ends_outer_scope]). For such bodies too, rewriting resolves every use of
      an imported name as an independent resolution says, and what passed the validation
      uses no alias then ([import_uses_resolved]). Modules are loaded after what they import, those that
      import one another together ([import_groups_in_order]). Where type
      checking answers, compiling does, and the loader's bookkeeping does not fail ([compile_program_ends]); modules are found first,
      then linked without asking an importer ([modules_linked_after_imports]), and a
      request is answered once ([imports_answered_once]).
      [injected_module_linked_again] and [inferred_module_linked_again] are inputs on
      which a module is injected twice.
    - Unification: sound ([unify_sound]), complete and most general
      ([unify_most_general]), total ([unify_terminates]). The unifier in place refines
      it ([unifier_refines_unify]), keeps all equations solved ([unifier_sound]), and
      differs on records ([unifiers_disagree]). [unify_var_head_unsound] is an input on
      which the code is wrong, outside the hypotheses of the soundness theorem.
    - The heap: a collection keeps every reachable object up to a renaming
      of pointers and keeps tokens standing for their objects
      ([collect_preserves_objects]), keeps nothing else
      ([collect_frees_exactly_garbage]), rejects pointers of before
      ([collect_rejects_old_pointers]), and passes its own verification
      ([verification_never_fails]); an allocation may collect at any moment
      ([alloc_reference_preserves]) and cleans up when that fails; the stress mode
      moves every object ([gc_destinations_move_every_object],
      [stress_collection_moves_everything]).
    - Values: data, closures and lists read back as they were built, across collections
      ([data_roundtrip], [closure_roundtrip], [list_roundtrip],
      [collection_preserves_lists], [collect_if_needed_keeps_live]); the list walks
      agree with an abstract list ([list_elements_iff_list],
      [list_head_tail_spec]).
    - Conversions: to the heap, the well-typed owned values are accepted, and others only if
      they hold constructors of an ADT with the name of a built-in type
      ([alloc_value_typed]); back from the heap, they are what they were, across a
      collection ([value_roundtrip]). [list_constructor_imported] is an input on which
      the code is wrong.
    - Parsing: the machine with its explicit stack and packrat memo refines the
      recursive semantics ([interpreter_implements_grammar]); trees are lossless
      ([parse_tree_is_lossless], [rex_parse_covers_input]); grammars without left
      recursion are total ([checked_grammar_total]) and the Rex grammar is one
      ([rex_parser_halts], [rex_grammar_complete]); comments
      ([strip_comments_spec]). Operator sequences fold in order,
      and into the parse of the stratified operator grammar exactly on some sequences
      ([fold_binary_expr_spec], with inputs on which the code is wrong in
      [fold_binary_expr_misparses]). The builder answers on every tree the grammar
      can produce, with user errors only ([builder_answers]), so that parsing a
      program is total ([parse_program_total]); [grouped_tail_splits_record] is an
      input on which two of its paths disagree.
    - Scheduling: the two ready queues are one stack ([scheduler_refines_stack]);
      host calls are delivered once, to their own frame
      ([host_calls_answered_once]), no more of them run at a time than the bound
      ([async_calls_bounded]), and waiting ends ([host_work_drains]).
    - Evaluation: the machine knows what each of its frames waits for
      ([machine_invariant]), so that it fails only for reasons outside its own
      bookkeeping ([evaluation_fails_for_a_reason]); its collection point declares every
      token that it holds ([machine_collection_keeps_tokens]); the results of children
      may arrive in any order, and their frame waits for the last
      ([sequence_results_in_order]); types are substituted
      into bodies as the recursive definition says ([typed_apply_is_structural]).
      [native_arity_ignored] is about natives that the code calls with the wrong number of
      arguments.

    * What is not modelled

    Floating-point arithmetic (an [f64] is its bits); pointer identity of [Arc]s
    where it only saves copying (the sharing flag of [apply_with_change] is modelled);
    the memory of the Rust program itself. Host functions and their futures, and the
    bodies of native functions, are parameters of the evaluator; wakers are not modelled,
    a waiting future is polled again. Of the components: the lexer's regular
    expressions and the conversion to JSON, which are calls to libraries; the bodies of
    the prelude's natives, mostly one call of a standard library each; the importers that
    read files, storage, the workflow executor and the command lines, which read files and
    run processes; the registration of Rust functions and the closures that the builder
    makes of declared functions; and the editors' and tools'
    crates, which use what is modelled here through its public functions. *)

From stdpp Require Export base gmap sets list strings pretty.
From Stdlib Require Export Lia.

(** * Results *)

(** Rust's [Result<A, E>]. *)
Inductive result (E A : Type) : Type :=
  | Ok (a : A)
  | Err (e : E).
Arguments Ok {E A} a.
Arguments Err {E A} e.

Definition rbind {E A B} (m : result E A) (k : A -> result E B) : result E B :=
  match m with Ok a => k a | Err e => Err e end.

(** A computation that may run out of fuel: [None] is "no answer yet". *)
Abbreviation fueled E A := (option (result E A)).

Definition fret {E A} (a : A) : fueled E A := Some (Ok a).
Definition ferr {E A} (e : E) : fueled E A := Some (Err e).
Definition fbind {E A B} (m : fueled E A) (k : A -> fueled E B) : fueled E B :=
  match m with
  | None => None
  | Some (Err e) => Some (Err e)
  | Some (Ok a) => k a
  end.

Declare Scope rex_scope.
Delimit Scope rex_scope with rex.
Notation "'let?' x ':=' m 'in' k" := (rbind m (fun x => k))
  (at level 10, x pattern, m at level 100, k at level 200) : rex_scope.
Notation "'let!' x ':=' m 'in' k" := (fbind m (fun x => k))
  (at level 10, x pattern, m at level 100, k at level 200) : rex_scope.
#[global] Open Scope rex_scope.

Lemma rbind_Ok {E A B} (m : result E A) (k : A -> result E B) b :
  rbind m k = Ok b <-> exists a, m = Ok a /\ k a = Ok b.
Proof. destruct m; simpl; naive_solver. Qed.

Lemma fbind_Ok {E A B} (m : fueled E A) (k : A -> fueled E B) b :
  fbind m k = Some (Ok b) <-> exists a, m = Some (Ok a) /\ k a = Some (Ok b).
Proof. destruct m as [[]|]; simpl; naive_solver. Qed.

Lemma fbind_Some {E A B} (m : fueled E A) (k : A -> fueled E B) r :
  fbind m k = Some r <->
  (exists e, m = Some (Err e) /\ r = Err e) \/ (exists a, m = Some (Ok a) /\ k a = Some r).
Proof. destruct m as [[]|]; simpl; naive_solver. Qed.

Create HintDb rex.

(** * Lists *)

Lemma Forall_snd_impl {A B} (P Q : B -> Prop) (l : list (A * B)) :
  (forall x, P x -> Q x) -> Forall (fun p => P p.2) l -> Forall (fun p => Q p.2) l.
Proof. intros HPQ HP. apply (Forall_impl _ _ _ HP). naive_solver. Qed.

Lemma existsb_map {A B} (f : A -> B) (p : B -> bool) (l : list A) :
  existsb p (map f l) = existsb (fun x => p (f x)) l.
Proof. induction l; simpl; congruence. Qed.

Lemma union_list_elem {A B} `{Countable B} (f : A -> gset B) (l : list A) x :
  x ∈ ⋃ (map f l) <-> exists a, a ∈ l /\ x ∈ f a.
Proof. rewrite elem_of_union_list. setoid_rewrite list_elem_of_fmap. naive_solver. Qed.

(** Equal images are equal position by position. *)
Lemma zip_map_eq {A B C} (f : A -> C) (g : B -> C) l k :
  map f l = map g k -> forall p, p ∈ zip l k -> f p.1 = g p.2.
Proof.
  revert k. induction l as [|x l IH]; intros [|y k]; simpl; try done.
  - by intros _ p ?%elem_of_nil.
  - intros [= Hxy Hlk] p [->|Hp]%elem_of_cons; [done|]. by apply (IH k).
Qed.

(** * Machine words *)

Definition u64_max : Z := 18446744073709551615.
Definition u64_modulus : Z := 18446744073709551616.
Definition u32_modulus : Z := 4294967296.

(** [wrapping_add] and [wrapping_mul] of a [u64]. *)
Definition wrapping_add64 (a b : Z) : Z := (a + b) mod u64_modulus.
Definition wrapping_mul64 (a b : Z) : Z := (a * b) mod u64_modulus.

(** * Boolean quantifiers *)

Lemma forallb_Forall {A} (f : A -> bool) (l : list A) :
  forallb f l = true <-> Forall (fun x => f x = true) l.
Proof.
  induction l as [|x l IH]; simpl; [split; [constructor|done]|].
  by rewrite andb_true_iff, Forall_cons, IH.
Qed.

(** [iter().map(f).collect::<Result<Vec<_>, _>>()]. *)
Fixpoint map_result {E A B} (f : A -> result E B) (l : list A) : result E (list B) :=
  match l with
  | [] => Ok []
  | x :: l =>
      let? y := f x in
      let? ys := map_result f l in
      Ok (y :: ys)
  end.
