(* ===== verification/Span.v ===== *)
(** Source positions and spans: [rex-ast/src/span.rs]. *)

From S2P Require Import Prelude.

(** [usize::MAX] on the 64-bit targets the project builds for. *)
Definition usize_max : N := 18446744073709551615%N.

Record Position : Type := Position_new { line : N; column : N }.

Record Span : Type := mkSpan { begin : Position; end_ : Position }.

#[global] Instance Position_eq_dec : EqDecision Position.
Proof. solve_decision. Defined.
#[global] Instance Span_eq_dec : EqDecision Span.
Proof. solve_decision. Defined.

Definition Span_new (begin_line begin_column end_line end_column : N) : Span :=
  mkSpan (Position_new begin_line begin_column) (Position_new end_line end_column).

Definition from_begin_end (b e : Position) : Span := mkSpan b e.

Definition Span_merge (self other : Span) : Span := mkSpan (begin self) (end_ other).

Definition Span_default : Span :=
  mkSpan (Position_new 0 0) (Position_new usize_max usize_max).
