(* ===== verification/Types.v ===== *)
(** Rex types, substitutions and schemes: [rex-typesystem/src/types.rs] and the
    error type of [rex-typesystem/src/error.rs].

    [ty] is [TypeKind] ([Type] is an [Arc] around it), a [Symbol] is its text
    (equal live symbols share one allocation, so pointer equality is text
    equality), a [Subst] is the persistent map [HashTrieMapSync<TypeVarId, Type>]
    seen as a finite map. *)

From S2P Require Import Prelude Span.

Abbreviation Symbol := string.
Abbreviation TypeVarId := nat.

(** * Built-in type constructors *)

Inductive BuiltinTypeId : Type :=
  | U8 | U16 | U32 | U64 | I8 | I16 | I32 | I64 | F32 | F64
  | Bool | Char | String_ | Uuid | Hash | DateTime
  | List | Dict | Option_ | Promise | Result_.

#[global] Instance BuiltinTypeId_eq_dec : EqDecision BuiltinTypeId.
Proof. solve_decision. Defined.

Definition as_str (b : BuiltinTypeId) : string :=
  match b with
  | U8 => "u8" | U16 => "u16" | U32 => "u32" | U64 => "u64"
  | I8 => "i8" | I16 => "i16" | I32 => "i32" | I64 => "i64"
  | F32 => "f32" | F64 => "f64"
  | Bool => "Bool" | Char => "Char" | String_ => "String"
  | Uuid => "UUID" | Hash => "Hash" | DateTime => "DateTime"
  | List => "List" | Dict => "Dict" | Option_ => "Option"
  | Promise => "Promise" | Result_ => "Result"
  end.

Definition builtin_arity (b : BuiltinTypeId) : nat :=
  match b with
  | List | Dict | Option_ | Promise => 1
  | Result_ => 2
  | _ => 0
  end.

(** The match of [from_name], its arms in the source's order. *)
Definition from_name_arms : list (string * BuiltinTypeId) :=
  [("u8", U8); ("u16", U16); ("u32", U32); ("u64", U64);
   ("i8", I8); ("i16", I16); ("i32", I32); ("i64", I64);
   ("f32", F32); ("f64", F64); ("Bool", Bool); ("Char", Char);
   ("String", String_); ("UUID", Uuid); ("Hash", Hash); ("DateTime", DateTime);
   ("List", List); ("Dict", Dict); ("Option", Option_); ("Promise", Promise);
   ("Result", Result_)].

Definition from_name (name : string) : option BuiltinTypeId :=
  (fun found => found.2.2) <$> list_find (fun arm => arm.1 = name) from_name_arms.

(** * Type variables, constants and types *)

Record TypeVar : Type := TypeVar_new { tv_id : TypeVarId; tv_name : option Symbol }.

#[global] Instance TypeVar_eq_dec : EqDecision TypeVar.
Proof. solve_decision. Defined.

Inductive TypeConst : Type :=
  | Builtin (id : BuiltinTypeId)
  | User (name : Symbol) (arity : nat).

#[global] Instance TypeConst_eq_dec : EqDecision TypeConst.
Proof. solve_decision. Defined.

Definition builtin_id (c : TypeConst) : option BuiltinTypeId :=
  match c with Builtin id => Some id | User _ _ => None end.

Definition is_builtin (c : TypeConst) (id : BuiltinTypeId) : bool :=
  bool_decide (builtin_id c = Some id).

Definition name_str (c : TypeConst) : string :=
  match c with Builtin id => as_str id | User name _ => name end.

Definition user_name (c : TypeConst) : option Symbol :=
  match c with Builtin _ => None | User name _ => Some name end.

Definition const_arity (c : TypeConst) : nat :=
  match c with Builtin id => builtin_arity id | User _ arity => arity end.

Inductive ty : Type :=
  | TVar (tv : TypeVar)
  | TCon (c : TypeConst)
  | TApp (f arg : ty)
  | TFun (a b : ty)
  | TTuple (elems : list ty)
  | TRecord (fields : list (Symbol * ty)).

(** The generated principle says nothing about the elements of tuples and
    records; this one does. *)
Fixpoint ty_ind' (P : ty -> Prop)
    (Hvar : forall tv, P (TVar tv))
    (Hcon : forall c, P (TCon c))
    (Happ : forall l r, P l -> P r -> P (TApp l r))
    (Hfun : forall a b, P a -> P b -> P (TFun a b))
    (Htuple : forall ts, Forall P ts -> P (TTuple ts))
    (Hrecord : forall fs, Forall (fun f => P f.2) fs -> P (TRecord fs))
    (t : ty) : P t :=
  let go := ty_ind' P Hvar Hcon Happ Hfun Htuple Hrecord in
  match t with
  | TVar tv => Hvar tv
  | TCon c => Hcon c
  | TApp l r => Happ l r (go l) (go r)
  | TFun a b => Hfun a b (go a) (go b)
  | TTuple ts =>
      Htuple ts ((fix all ts : Forall P ts :=
                    match ts with
                    | [] => Forall_nil_2 P
                    | t :: ts => Forall_cons_2 P t ts (go t) (all ts)
                    end) ts)
  | TRecord fs =>
      Hrecord fs ((fix all fs : Forall (fun f => P f.2) fs :=
                     match fs with
                     | [] => Forall_nil_2 _
                     | f :: fs => Forall_cons_2 _ f fs (go f.2) (all fs)
                     end) fs)
  end.

#[global] Instance ty_eq_dec : EqDecision ty.
Proof.
  refine (fix go (t1 t2 : ty) : Decision (t1 = t2) :=
    let eqd : EqDecision ty := go in
    match t1, t2 with
    | TVar a, TVar b => cast_if (decide (a = b))
    | TCon a, TCon b => cast_if (decide (a = b))
    | TApp a b, TApp c d => cast_if_and (decide (a = c)) (decide (b = d))
    | TFun a b, TFun c d => cast_if_and (decide (a = c)) (decide (b = d))
    | TTuple a, TTuple b => cast_if (decide (a = b))
    | TRecord a, TRecord b => cast_if (decide (a = b))
    | _, _ => right _
    end); clear eqd go; abstract congruence.
Defined.

Definition ty_builtin (id : BuiltinTypeId) : ty := TCon (Builtin id).

(** [Type::con]: a built-in when the name and the arity are a built-in's. *)
Definition Type_con (name : string) (arity : nat) : ty :=
  match from_name name with
  | Some id => if decide (builtin_arity id = arity) then ty_builtin id
               else TCon (User name arity)
  | None => TCon (User name arity)
  end.

(** Rust's [str] order, and the stable [sort_by] on it. *)
Definition str_le (a b : string) : bool :=
  match String.compare a b with Gt => false | _ => true end.

Fixpoint insert_by {A} (key : A -> string) (x : A) (l : list A) : list A :=
  match l with
  | [] => [x]
  | y :: l' => if str_le (key x) (key y) then x :: y :: l' else y :: insert_by key x l'
  end.

Definition sort_by_key {A} (key : A -> string) (l : list A) : list A :=
  foldr (insert_by key) [] l.

Definition Type_record (fields : list (Symbol * ty)) : ty := TRecord (sort_by_key fst fields).

Definition Type_list (elem : ty) : ty := TApp (ty_builtin List) elem.
Definition Type_dict (elem : ty) : ty := TApp (ty_builtin Dict) elem.
Definition Type_option (elem : ty) : ty := TApp (ty_builtin Option_) elem.
Definition Type_promise (elem : ty) : ty := TApp (ty_builtin Promise) elem.
Definition Type_result (ok err : ty) : ty := TApp (TApp (ty_builtin Result_) err) ok.

(** * Printing *)

Fixpoint join (sep : string) (l : list string) : string :=
  match l with
  | [] => ""
  | [x] => x
  | x :: l' => x +:+ sep +:+ join sep l'
  end.

(** [Display for Type]. A fully applied [Result err ok] prints as
    [Result ok err]. *)
Fixpoint show_ty (t : ty) : string :=
  match t with
  | TVar tv =>
      match tv_name tv with
      | Some name => "'" +:+ name
      | None => "t" +:+ pretty (tv_id tv)
      end
  | TCon c => name_str c
  | TApp l r =>
      match l with
      | TApp (TCon c) err =>
          if is_builtin c Result_ && Nat.eqb (const_arity c) 2
          then "(Result " +:+ show_ty r +:+ " " +:+ show_ty err +:+ ")"
          else "(" +:+ show_ty l +:+ " " +:+ show_ty r +:+ ")"
      | _ => "(" +:+ show_ty l +:+ " " +:+ show_ty r +:+ ")"
      end
  | TFun a b => "(" +:+ show_ty a +:+ " -> " +:+ show_ty b +:+ ")"
  | TTuple elems => "(" +:+ join ", " (map show_ty elems) +:+ ")"
  | TRecord fields =>
      "{" +:+ join ", " (map (fun f => f.1 +:+ ": " +:+ show_ty f.2) fields) +:+ "}"
  end.

Example show_result :
  show_ty (Type_result (ty_builtin I32) (TVar (TypeVar_new 3 None))) = "(Result i32 t3)".
Proof. reflexivity. Qed.

(** * Errors: [TypeError], its payloads as in the source *)

Inductive TypeError : Type :=
  | Unification (a b : string)
  | Occurs (id : TypeVarId) (t : string)
  | UnknownClass (c : Symbol)
  | NoInstance (c : Symbol) (t : string)
  | UnknownTypeName (n : Symbol)
  | DuplicateTypeParameter (n : Symbol)
  | ReservedTypeName (n : Symbol)
  | DuplicateValue (n : Symbol)
  | DuplicateType (n : Symbol)
  | CyclicTypeAlias (n : Symbol)
  | DuplicateClass (n : Symbol)
  | InvalidClassArity (class : Symbol) (got : nat)
  | DuplicateClassMethod (n : Symbol)
  | UnknownInstanceMethod (class method : Symbol)
  | MissingInstanceMethod (class method : Symbol)
  | MissingInstanceConstraint (method class : Symbol) (typ : string)
  | UnknownVar (n : Symbol)
  | AmbiguousOverload (n : Symbol)
  | AmbiguousTypeVars (vars : list TypeVarId) (constraints : string)
  | KindMismatch (class : Symbol) (expected got : nat) (typ : string)
  | MissingConstraints (constraints : string)
  | UnsupportedExpr (what : string)
  | UnknownField (field : Symbol) (typ : string)
  | FieldNotKnown (field : Symbol) (typ : string)
  | PartialRecordConstructorRequiresSingleVariant (constructor : Symbol) (typ : string)
  | NonExhaustiveMatch (typ : string) (missing : list Symbol)
  | InvalidLetRecValueDependency (binding dependency : Symbol)
  | Spanned (span : Span) (error : TypeError)
  | Internal (message : string).

Definition with_span (self : TypeError) (span : Span) : TypeError :=
  match self with
  | Spanned _ _ => self
  | other => Spanned span other
  end.

(** * Substitutions *)

Abbreviation Subst := (gmap TypeVarId ty).

(** The loop of [Type::apply_with_change] over a chain of arrows
    [a1 -> a2 -> ... -> ret]: it collects the new arguments, the new result and
    whether anything changed. [f] is [apply_with_change] itself. *)
Definition apply_chain (f : ty -> ty * bool) : ty -> list ty -> bool -> list ty * ty * bool :=
  fix chain (cur : ty) (args : list ty) (changed : bool) {struct cur} :=
    match cur with
    | TFun a b =>
        let '(a_new, a_changed) := f a in
        chain b (args ++ [a_new]) (changed || a_changed)
    | _ =>
        let '(ret_new, ret_changed) := f cur in
        (args, ret_new, changed || ret_changed)
    end.

(** [Type::apply_with_change]: the new type and whether any variable was
    replaced. In the arrow case the first round of the loop is unrolled; the
    arrows are rebuilt from the last argument. *)
Fixpoint apply_with_change (s : Subst) (t : ty) {struct t} : ty * bool :=
  match t with
  | TVar tv =>
      match s !! tv_id tv with
      | Some u => (u, true)
      | None => (t, false)
      end
  | TCon _ => (t, false)
  | TApp l r =>
      let '(l_new, l_changed) := apply_with_change s l in
      let '(r_new, r_changed) := apply_with_change s r in
      if l_changed || r_changed then (TApp l_new r_new, true) else (t, false)
  | TFun a b =>
      let '(a_new, a_changed) := apply_with_change s a in
      let '(args, ret_new, changed) :=
        apply_chain (apply_with_change s) b [a_new] (false || a_changed) in
      if changed
      then (foldl (fun out a_new => TFun a_new out) ret_new (rev args), true)
      else (t, false)
  | TTuple ts =>
      let out := map (apply_with_change s) ts in
      if existsb snd out then (TTuple (map fst out), true) else (t, false)
  | TRecord fields =>
      let out := map (fun f => (f.1, apply_with_change s f.2)) fields in
      if existsb (fun f => f.2.2) out
      then (TRecord (map (fun f => (f.1, f.2.1)) out), true)
      else (t, false)
  end.

Definition apply (s : Subst) (t : ty) : ty := fst (apply_with_change s t).

(** Size of a type, in nodes; it bounds the loops below. *)
Fixpoint ty_size (t : ty) : nat :=
  match t with
  | TVar _ | TCon _ => 1
  | TApp l r => S (ty_size l + ty_size r)
  | TFun a b => S (ty_size a + ty_size b)
  | TTuple ts => S (sum_list_with ty_size ts)
  | TRecord fs => S (sum_list_with (fun f => ty_size f.2) fs)
  end.

(** [Type::ftv]: a worklist of types, last pushed first popped. The fuel is the
    number of nodes left on the stack. *)
Fixpoint ftv_loop (fuel : nat) (stack : list ty) (out : gset TypeVarId) : gset TypeVarId :=
  match fuel, stack with
  | _, [] => out
  | O, _ => out
  | S fuel, t :: stack =>
      match t with
      | TVar tv => ftv_loop fuel stack ({[tv_id tv]} ∪ out)
      | TCon _ => ftv_loop fuel stack out
      | TApp l r => ftv_loop fuel (r :: l :: stack) out
      | TFun a b => ftv_loop fuel (b :: a :: stack) out
      | TTuple ts => ftv_loop fuel (rev ts ++ stack) out
      | TRecord fs => ftv_loop fuel (rev (map snd fs) ++ stack) out
      end
  end.

Definition ftv (t : ty) : gset TypeVarId := ftv_loop (ty_size t) [t] ∅.

(** * Predicates and schemes *)

Record Predicate : Type := mkPredicate { pred_class : Symbol; pred_typ : ty }.

#[global] Instance Predicate_eq_dec : EqDecision Predicate.
Proof. solve_decision. Defined.

Record Scheme : Type := mkScheme {
  scheme_vars : list TypeVar;
  scheme_preds : list Predicate;
  scheme_typ : ty
}.

#[global] Instance Scheme_eq_dec : EqDecision Scheme.
Proof. solve_decision. Defined.

Definition Predicate_apply (s : Subst) (p : Predicate) : Predicate :=
  mkPredicate (pred_class p) (apply s (pred_typ p)).

Definition Predicate_ftv (p : Predicate) : gset TypeVarId := ftv (pred_typ p).

(** [Scheme::apply]: the quantified variables are dropped from the substitution. *)
Definition Scheme_apply (s : Subst) (sc : Scheme) : Scheme :=
  let s_pruned := filter (fun kv => kv.1 ∉ map tv_id (scheme_vars sc)) s in
  mkScheme (scheme_vars sc) (map (Predicate_apply s_pruned) (scheme_preds sc))
    (apply s_pruned (scheme_typ sc)).

Definition Scheme_ftv (sc : Scheme) : gset TypeVarId :=
  foldl (fun acc v => acc ∖ {[tv_id v]})
    (foldl (fun acc p => acc ∪ Predicate_ftv p) (ftv (scheme_typ sc)) (scheme_preds sc))
    (scheme_vars sc).

(** * Reference definitions and their laws *)

(** Homomorphic substitution and the free variables by recursion: what
    [apply] and [ftv] are to compute. *)
Fixpoint subst (s : Subst) (t : ty) : ty :=
  match t with
  | TVar tv => default t (s !! tv_id tv)
  | TCon _ => t
  | TApp l r => TApp (subst s l) (subst s r)
  | TFun a b => TFun (subst s a) (subst s b)
  | TTuple ts => TTuple (map (subst s) ts)
  | TRecord fs => TRecord (map (fun f => (f.1, subst s f.2)) fs)
  end.

Fixpoint vars (t : ty) : gset TypeVarId :=
  match t with
  | TVar tv => {[tv_id tv]}
  | TCon _ => ∅
  | TApp l r => vars l ∪ vars r
  | TFun a b => vars a ∪ vars b
  | TTuple ts => ⋃ (map vars ts)
  | TRecord fs => ⋃ (map (fun f => vars f.2) fs)
  end.

Lemma subst_empty t : subst ∅ t = t.
Proof.
  induction t as [| | | |ts IH|fs IH] using ty_ind'; simpl; rewrite ?lookup_empty; try done.
  - congruence.
  - congruence.
  - f_equal. induction IH; simpl; congruence.
  - f_equal. induction IH as [|[k u] ? Hu _ IHl]; simpl in *; congruence.
Qed.

(** What one call of [apply_with_change] has to establish. *)
Definition change_ok (s : Subst) (t : ty) (r : ty * bool) : Prop :=
  r.1 = subst s t /\ (r.2 = false -> subst s t = t).

Lemma map_change_ok {A} (s : Subst) (f : A -> ty) (l : list A) :
  Forall (fun x => change_ok s (f x) (apply_with_change s (f x))) l ->
  map (fun x => (apply_with_change s (f x)).1) l = map (fun x => subst s (f x)) l /\
  (existsb (fun x => (apply_with_change s (f x)).2) l = false ->
   Forall (fun x => subst s (f x) = f x) l).
Proof.
  induction 1 as [|x l [Hx Hc] _ [IH IHc]]; simpl; [done|].
  split; [congruence|]. intros [??]%orb_false_iff. constructor; auto.
Qed.

Definition rebuild (ret : ty) (args : list ty) : ty :=
  foldl (fun out a => TFun a out) ret (rev args).

Definition chain_ok (s : Subst) (t : ty) : Prop :=
  forall args changed,
  let '(args', ret, changed') := apply_chain (apply_with_change s) t args changed in
  rebuild ret args' = rebuild (subst s t) args /\
  (changed' = false -> changed = false /\ subst s t = t).

Lemma apply_chain_fun f a b args changed :
  apply_chain f (TFun a b) args changed =
  apply_chain f b (args ++ [(f a).1]) (changed || (f a).2).
Proof. simpl. by destruct (f a). Qed.

Lemma apply_chain_leaf f t args changed :
  (forall a b, t <> TFun a b) ->
  apply_chain f t args changed = (args, (f t).1, changed || (f t).2).
Proof.
  intros Hleaf. destruct t; simpl; try (by destruct (f _)).
  by destruct (Hleaf _ _ eq_refl).
Qed.

Lemma chain_ok_leaf s t :
  (forall a b, t <> TFun a b) -> change_ok s t (apply_with_change s t) -> chain_ok s t.
Proof.
  intros Hleaf [Hu Hc] args changed. rewrite apply_chain_leaf by done.
  destruct (apply_with_change _ _) as [u c]; simpl in *; subst u.
  split; [done|]. intros [??]%orb_false_iff; auto.
Qed.

Lemma chain_ok_fun s a b :
  change_ok s a (apply_with_change s a) -> chain_ok s b -> chain_ok s (TFun a b).
Proof.
  intros [Ha Hac] Hb args changed. rewrite apply_chain_fun.
  destruct (apply_with_change s a) as [a' ac]; simpl in *; subst a'.
  specialize (Hb (args ++ [subst s a]) (changed || ac)).
  destruct (apply_chain _ b _ _) as [[args' ret] changed'].
  destruct Hb as [-> Hb]. split.
  - unfold rebuild. by rewrite rev_app_distr.
  - intros H. destruct (Hb H) as [[??]%orb_false_iff ?]. split; [done|].
    f_equal; auto.
Qed.

Lemma apply_with_change_spec s t :
  change_ok s t (apply_with_change s t) /\ chain_ok s t.
Proof.
  assert (forall l r, change_ok s l (apply_with_change s l) ->
          chain_ok s r -> change_ok s (TFun l r) (apply_with_change s (TFun l r))) as Hfun.
  { intros l r [Hl Hlc] Hr. unfold change_ok. simpl apply_with_change.
    destruct (apply_with_change s l) as [l' lc]; simpl in Hl, Hlc; subst l'.
    specialize (Hr [subst s l] (false || lc)).
    destruct (apply_chain _ r _ _) as [[args ret] ch]. destruct Hr as [Hr Hrc].
    unfold rebuild in Hr. simpl in Hr. destruct ch; simpl; [by rewrite Hr|].
    destruct (Hrc eq_refl) as [Hlf Hrr]. simpl in Hlf. rewrite Hlc, Hrr by done. done. }
  induction t as [tv|c|l r [IHl _] [IHr _]|a b [IHa _] [IHb IHb']|ts IH|fs IH] using ty_ind'.
  - assert (change_ok s (TVar tv) (apply_with_change s (TVar tv))) as H.
    { unfold change_ok; simpl. by destruct (s !! tv_id tv). }
    split; [done|]. by apply chain_ok_leaf.
  - split; [done|]. by apply chain_ok_leaf.
  - assert (change_ok s (TApp l r) (apply_with_change s (TApp l r))) as H.
    { destruct IHl as [IHl ?], IHr as [IHr ?]. unfold change_ok. simpl.
      destruct (apply_with_change s l) as [l' []], (apply_with_change s r) as [r' []];
        simpl in *; subst; (split; [|intros ?]); try done; f_equal; auto;
        symmetry; auto. }
    split; [done|]. by apply chain_ok_leaf.
  - split; [by apply Hfun|]. by apply chain_ok_fun.
  - assert (change_ok s (TTuple ts) (apply_with_change s (TTuple ts))) as H.
    { destruct (map_change_ok s id ts) as [Hm Hc].
      { apply (Forall_impl _ _ _ IH). by intros ? []. }
      unfold id in Hm, Hc. unfold change_ok. simpl. rewrite existsb_map, map_map.
      destruct (existsb _ ts) eqn:E; simpl.
      - by rewrite Hm.
      - assert (map (subst s) ts = ts) as Heq; [|by rewrite Heq].
        rewrite <- (map_id ts) at 2. apply map_ext_Forall, Hc, eq_refl. }
    split; [done|]. by apply chain_ok_leaf.
  - assert (change_ok s (TRecord fs) (apply_with_change s (TRecord fs))) as H.
    { destruct (map_change_ok s snd fs) as [Hm Hc].
      { apply (Forall_impl _ _ _ IH). by intros ? []. }
      unfold change_ok. simpl. rewrite existsb_map, map_map. simpl.
      assert (map (fun f => (f.1, (apply_with_change s f.2).1)) fs
              = map (fun f => (f.1, subst s f.2)) fs) as Hmap.
      { clear -Hm. induction fs as [|[] fs IHfs]; simpl in *; [done|].
        injection Hm as ? ?. f_equal; [congruence|auto]. }
      destruct (existsb _ fs) eqn:E; simpl.
      - by rewrite Hmap.
      - assert (map (fun f => (f.1, subst s f.2)) fs = fs) as Heq; [|by rewrite Heq].
        rewrite <- (map_id fs) at 2. apply map_ext_Forall.
        apply (Forall_impl _ _ _ (Hc eq_refl)). intros [] ?; simpl in *; congruence. }
    split; [done|]. by apply chain_ok_leaf.
Qed.

Lemma apply_subst s t : apply s t = subst s t.
Proof. apply apply_with_change_spec. Qed.

Lemma union_map_app {A} (f : A -> gset nat) l1 l2 :
  ⋃ (map f (l1 ++ l2)) = ⋃ (map f l1) ∪ ⋃ (map f l2).
Proof. apply set_eq; intros x. rewrite elem_of_union, !union_list_elem. set_solver. Qed.

Lemma union_map_rev {A} (f : A -> gset nat) l : ⋃ (map f (rev l)) = ⋃ (map f l).
Proof.
  apply set_eq; intros x. rewrite !union_list_elem.
  setoid_rewrite list_elem_of_In. setoid_rewrite <- in_rev. done.
Qed.

Lemma ty_size_pos t : 1 <= ty_size t.
Proof. destruct t; simpl; lia. Qed.

Lemma sum_list_with_rev {A} (f : A -> nat) l : sum_list_with f (rev l) = sum_list_with f l.
Proof. induction l as [|x l IH]; simpl; [done|]. rewrite sum_list_with_app; simpl; lia. Qed.

Lemma sum_list_with_map {A B} (g : A -> B) (f : B -> nat) l :
  sum_list_with f (map g l) = sum_list_with (fun x => f (g x)) l.
Proof. induction l; simpl; lia. Qed.

Lemma ftv_loop_vars fuel stack out :
  sum_list_with ty_size stack <= fuel ->
  ftv_loop fuel stack out = out ∪ ⋃ (map vars stack).
Proof.
  revert stack out. induction fuel as [|fuel IH]; intros [|t stack] out Hf; simpl in *;
    rewrite ?union_empty_r_L; try done.
  { pose proof (ty_size_pos t); lia. }
  destruct t as [tv|c|l r|a b|ts|fs]; simpl in *;
    rewrite IH by (rewrite ?sum_list_with_app, ?sum_list_with_rev, ?sum_list_with_map; simpl; lia);
    rewrite ?union_map_app, ?union_map_rev, ?map_map; simpl; set_solver.
Qed.

Lemma ftv_vars t : ftv t = vars t.
Proof.
  unfold ftv. rewrite ftv_loop_vars by (simpl; lia). simpl. set_solver.
Qed.

(** ** Substitution and variables *)

Lemma elem_of_vars_subst s t x :
  x ∈ vars (subst s t) <->
  exists y, y ∈ vars t /\ match s !! y with Some u => x ∈ vars u | None => x = y end.
Proof.
  induction t as [tv|c|l r IHl IHr|a b IHa IHb|ts IH|fs IH] using ty_ind'; simpl.
  - setoid_rewrite elem_of_singleton.
    destruct (s !! tv_id tv) eqn:E; simpl; split.
    + intros Hx. exists (tv_id tv). by rewrite E.
    + intros (y & -> & Hy). by rewrite E in Hy.
    + intros ->%elem_of_singleton. exists (tv_id tv). by rewrite E.
    + intros (y & -> & Hy). rewrite E in Hy. set_solver.
  - set_solver.
  - rewrite elem_of_union, IHl, IHr. set_solver.
  - rewrite elem_of_union, IHa, IHb. set_solver.
  - rewrite map_map, union_list_elem. setoid_rewrite union_list_elem.
    rewrite Forall_forall in IH. naive_solver.
  - rewrite map_map, union_list_elem. setoid_rewrite union_list_elem. simpl.
    rewrite Forall_forall in IH. naive_solver.
Qed.

Lemma subst_ext s1 s2 t :
  (forall x, x ∈ vars t -> s1 !! x = s2 !! x) -> subst s1 t = subst s2 t.
Proof.
  induction t as [tv|c|l r IHl IHr|a b IHa IHb|ts IH|fs IH] using ty_ind'; simpl; intros Hs.
  - by rewrite Hs by set_solver.
  - done.
  - rewrite IHl, IHr; [done|set_solver..].
  - rewrite IHa, IHb; [done|set_solver..].
  - f_equal. apply map_ext_Forall. rewrite Forall_forall in IH |- *. intros t Ht.
    apply IH; [done|]. intros x Hx. apply Hs. rewrite union_list_elem.
    by exists t.
  - f_equal. apply map_ext_Forall. rewrite Forall_forall in IH |- *. intros f Hf.
    f_equal. apply IH; [done|]. intros x Hx. apply Hs. rewrite union_list_elem.
    by exists f.
Qed.

Lemma subst_disjoint s t : vars t ## dom s -> subst s t = t.
Proof.
  intros H. rewrite <- (subst_empty t) at 2. apply subst_ext. intros x Hx.
  rewrite lookup_empty. apply not_elem_of_dom. set_solver.
Qed.

(** Substitutions compose pointwise. *)
Lemma subst_subst s1 s2 s t :
  (forall tv, tv_id tv ∈ vars t -> subst s (TVar tv) = subst s2 (subst s1 (TVar tv))) ->
  subst s t = subst s2 (subst s1 t).
Proof.
  induction t as [tv|c|l r IHl IHr|a b IHa IHb|ts IH|fs IH] using ty_ind'; intros Hs.
  - apply Hs. simpl. set_solver.
  - done.
  - simpl in *. rewrite IHl, IHr; [done|intros; apply Hs; set_solver..].
  - simpl in *. rewrite IHa, IHb; [done|intros; apply Hs; set_solver..].
  - simpl in *. f_equal. rewrite map_map. apply map_ext_Forall.
    rewrite Forall_forall in IH |- *. intros t Ht. apply IH; [done|].
    intros tv Hx. apply Hs. rewrite union_list_elem. by exists t.
  - simpl in *. f_equal. rewrite map_map. apply map_ext_Forall.
    rewrite Forall_forall in IH |- *. intros f Hf. simpl. f_equal. apply IH; [done|].
    intros tv Hx. apply Hs. rewrite union_list_elem. by exists f.
Qed.

(** ** Equality up to the names of variables

    A [TypeVar] carries a debugging name; two variables with the same identifier
    are the same variable, whatever their names. *)
Fixpoint erase (t : ty) : ty :=
  match t with
  | TVar tv => TVar (TypeVar_new (tv_id tv) None)
  | TCon c => TCon c
  | TApp l r => TApp (erase l) (erase r)
  | TFun a b => TFun (erase a) (erase b)
  | TTuple ts => TTuple (map erase ts)
  | TRecord fs => TRecord (map (fun f => (f.1, erase f.2)) fs)
  end.

Definition teq (t1 t2 : ty) : Prop := erase t1 = erase t2.
Infix "≈" := teq (at level 70) : rex_scope.

#[global] Instance teq_equiv : Equivalence teq.
Proof. split; unfold teq; congruence. Qed.

#[global] Instance TApp_proper : Proper (teq ==> teq ==> teq) TApp.
Proof. intros ?? H1 ?? H2. unfold teq in *; simpl; congruence. Qed.

#[global] Instance TFun_proper : Proper (teq ==> teq ==> teq) TFun.
Proof. intros ?? H1 ?? H2. unfold teq in *; simpl; congruence. Qed.

Lemma vars_erase t : vars (erase t) = vars t.
Proof.
  induction t as [tv|c|l r IHl IHr|a b IHa IHb|ts IH|fs IH] using ty_ind'; simpl;
    rewrite ?map_map; simpl; try congruence.
  - f_equal. by apply map_ext_Forall.
  - f_equal. by apply map_ext_Forall.
Qed.

(** Substitutions that agree up to names give types that agree up to names. *)
Definition seq_on (X : gset TypeVarId) (s1 s2 : Subst) : Prop :=
  forall tv, tv_id tv ∈ X -> subst s1 (TVar tv) ≈ subst s2 (TVar tv).

Lemma subst_erase s t : erase (subst s t) = erase (subst s (erase t)).
Proof.
  induction t as [tv|c|l r IHl IHr|a b IHa IHb|ts IH|fs IH] using ty_ind'; simpl;
    rewrite ?map_map; simpl; try congruence.
  - by destruct (s !! tv_id tv).
  - f_equal. by apply map_ext_Forall.
  - f_equal. apply map_ext_Forall. apply (Forall_impl _ _ _ IH). intros f Hf. by rewrite Hf.
Qed.

#[global] Instance subst_proper s : Proper (teq ==> teq) (subst s).
Proof. intros t1 t2 H. unfold teq in *. rewrite (subst_erase s t1), H. symmetry. apply subst_erase. Qed.
