(* ===== verification/BTree.v ===== *)
(** [BTreeMap]s whose keys are strings, where the order of the entries is
    observable: the list of the entries in the order of the keys. *)

From S2P Require Import Prelude Span Types.
From Stdlib Require Import Sorted.

(** * The order of keys *)

Definition str_lt (a b : string) : Prop := String.compare a b = Lt.

#[export] Instance str_lt_strict : StrictOrder str_lt.
Proof.
  assert (Hc : forall a b, Ascii.compare a b = (Ascii.N_of_ascii a ?= Ascii.N_of_ascii b)%N) by done.
  split.
  - intros a Ha. unfold str_lt in Ha. induction a as [|c a IH]; simpl in Ha; [done|].
    by rewrite Hc, N.compare_refl in Ha.
  - intros a. induction a as [|x a IH]; intros [|y b] [|z c]; unfold str_lt; simpl; try done.
    rewrite !Hc. specialize (IH b c).
    destruct (N.compare_spec (Ascii.N_of_ascii x) (Ascii.N_of_ascii y));
      destruct (N.compare_spec (Ascii.N_of_ascii y) (Ascii.N_of_ascii z)); try done; intros H1 H2;
      destruct (N.compare_spec (Ascii.N_of_ascii x) (Ascii.N_of_ascii z)); try done; try lia.
    by apply IH.
Qed.

Lemma str_lt_irrefl a : ~ str_lt a a.
Proof. exact (StrictOrder_Irreflexive a). Qed.

Lemma str_le_lt a b : str_le a b = true -> a <> b -> str_lt a b.
Proof.
  unfold str_le, str_lt. destruct (String.compare a b) eqn:Hab; try done.
  by apply String.compare_eq_iff in Hab.
Qed.

Lemma str_le_false a b : str_le a b = false -> str_lt b a.
Proof.
  unfold str_le, str_lt. rewrite (String.compare_antisym a b). by destruct (String.compare b a).
Qed.

(** * Operations *)

(** [BTreeMap::get]. *)
Fixpoint btree_get {V} (m : list (Symbol * V)) (name : Symbol) : option V :=
  match m with
  | [] => None
  | (k, v) :: m => if decide (k = name) then Some v else btree_get m name
  end.

(** [BTreeMap::insert]. *)
Fixpoint btree_insert {A} (key : Symbol) (value : A) (entries : list (Symbol * A)) : list (Symbol * A) :=
  match entries with
  | [] => [(key, value)]
  | (k, v) :: entries =>
      if decide (key = k) then (key, value) :: entries
      else if str_le key k then (key, value) :: (k, v) :: entries
      else (k, v) :: btree_insert key value entries
  end.

(** [BTreeMap::remove]: the value, and the map without it. *)
Fixpoint btree_remove {A} (key : Symbol) (entries : list (Symbol * A)) : option (A * list (Symbol * A)) :=
  match entries with
  | [] => None
  | (k, v) :: entries =>
      if decide (k = key) then Some (v, entries)
      else match btree_remove key entries with
           | Some (x, entries) => Some (x, (k, v) :: entries)
           | None => None
           end
  end.

(** [BTreeMap::extend] and [collect]: the later of two equal keys wins. *)
Definition btree_extend {A} (m l : list (Symbol * A)) : list (Symbol * A) :=
  foldl (fun m e => btree_insert e.1 e.2 m) m l.
Definition btree_collect {A} (l : list (Symbol * A)) : list (Symbol * A) := btree_extend [] l.

(** * Maps *)

(** The keys of a [BTreeMap] are in strict order. *)
Definition btree {A} (m : list (Symbol * A)) : Prop := StronglySorted str_lt (map fst m).

Section laws.
Context {A : Type}.
Implicit Types m l : list (Symbol * A).

Lemma btree_nil : btree (A := A) [].
Proof. constructor. Qed.

Lemma btree_cons_inv k (v : A) m : btree ((k, v) :: m) -> btree m /\ Forall (str_lt k) (map fst m).
Proof. intros H. by inversion H. Qed.

Lemma Forall_fst_insert (P : Symbol -> Prop) k (v : A) m :
  P k -> Forall P (map fst m) -> Forall P (map fst (btree_insert k v m)).
Proof.
  intros Hk. induction m as [|[k' v'] m IH]; simpl; intros Hm; [by constructor|].
  apply Forall_cons in Hm as [Hk' Hm]. destruct (decide (k = k')); [by constructor|].
  destruct (str_le k k'); by repeat constructor; auto.
Qed.

Lemma btree_insert_btree k (v : A) m : btree m -> btree (btree_insert k v m).
Proof.
  unfold btree. induction m as [|[k' v'] m IH]; simpl; intros Hm.
  { constructor; constructor. }
  inversion Hm as [|? ? Hm' Hk']; subst. destruct (decide (k = k')) as [->|Hne]; [by constructor|].
  destruct (str_le k k') eqn:Hle; simpl.
  - apply str_le_lt in Hle; [|done]. constructor; [done|]. constructor; [done|].
    apply (Forall_impl _ _ _ Hk'). intros x ?. by trans k'.
  - constructor; [by apply IH|]. apply Forall_fst_insert; [by apply str_le_false|done].
Qed.

Lemma btree_extend_btree m l : btree m -> btree (btree_extend m l).
Proof.
  revert m. induction l as [|[k v] l IH]; intros m Hm; simpl; [done|].
  apply IH. by apply btree_insert_btree.
Qed.

Lemma btree_collect_btree l : btree (btree_collect l).
Proof. apply btree_extend_btree, btree_nil. Qed.

Lemma btree_get_insert k (v : A) m n :
  btree_get (btree_insert k v m) n = if decide (k = n) then Some v else btree_get m n.
Proof.
  induction m as [|[k' v'] m IH]; simpl; [done|].
  destruct (decide (k = k')) as [->|Hne]; simpl; [by destruct (decide (k' = n))|].
  destruct (str_le k k'); simpl; [done|]. rewrite IH.
  destruct (decide (k' = n)), (decide (k = n)); congruence.
Qed.

Lemma btree_get_None m n : btree_get m n = None <-> n ∉ map fst m.
Proof.
  induction m as [|[k v] m IH]; simpl; [split; [intros _; apply not_elem_of_nil|done]|].
  rewrite not_elem_of_cons, <- IH. destruct (decide (k = n)); naive_solver.
Qed.

Lemma btree_NoDup m : btree m -> NoDup (map fst m).
Proof.
  unfold btree. induction 1 as [|k l _ IH Hk]; constructor; [|done].
  intros Hin. rewrite Forall_forall in Hk. specialize (Hk _ Hin). by apply str_lt_irrefl in Hk.
Qed.

Lemma btree_get_elem m n v : NoDup (map fst m) -> btree_get m n = Some v <-> (n, v) ∈ m.
Proof.
  induction m as [|[k w] m IH]; simpl; intros Hnd; [split; [done|by intros ?%elem_of_nil]|].
  apply NoDup_cons in Hnd as [Hk Hnd]. rewrite elem_of_cons. specialize (IH Hnd).
  destruct (decide (k = n)) as [->|Hne]; [|rewrite IH; naive_solver].
  split; [intros [= ->]; by left|]. intros [[= ->]|Hin]; [done|]. destruct Hk.
  apply list_elem_of_fmap. by exists (n, v).
Qed.

Lemma btree_get_snd m name v : btree_get m name = Some v -> v ∈ map snd m.
Proof.
  induction m as [|[k w] m IH]; simpl; [done|]. case_decide; [intros [= ->]; by left|].
  intros Hget. right. auto.
Qed.

(** Maps with equal lookups are equal. *)
Lemma btree_ext m l : btree m -> btree l -> (forall n, btree_get m n = btree_get l n) -> m = l.
Proof.
  revert l. induction m as [|[k v] m IH]; intros [|[k' v'] l] Hm Hl Hget; [done|..].
  - specialize (Hget k'). simpl in Hget. by rewrite decide_True in Hget.
  - specialize (Hget k). simpl in Hget. by rewrite decide_True in Hget.
  - apply btree_cons_inv in Hm as [Hm Hk], Hl as [Hl Hk']. rewrite Forall_forall in Hk, Hk'.
    assert (Hnk : forall k (m : list (Symbol * A)),
              (forall x, x ∈ map fst m -> str_lt k x) -> btree_get m k = None).
    { intros k0 m0 H0. apply btree_get_None. intros Hin. apply H0 in Hin. by apply str_lt_irrefl in Hin. }
    assert (k = k') as ->.
    { destruct (decide (k = k')) as [|Hne]; [done|]. exfalso.
      pose proof (Hget k) as H1. pose proof (Hget k') as H2. simpl in H1, H2.
      rewrite decide_True in H1 by done. rewrite decide_False in H1 by done.
      rewrite decide_False in H2 by done. rewrite decide_True in H2 by done.
      assert (k ∈ map fst l) as Hin1.
      { destruct (decide (k ∈ map fst l)) as [|Hn]; [done|]. apply btree_get_None in Hn. congruence. }
      assert (k' ∈ map fst m) as Hin2.
      { destruct (decide (k' ∈ map fst m)) as [|Hn]; [done|]. apply btree_get_None in Hn. congruence. }
      apply Hk' in Hin1. apply Hk in Hin2. apply (str_lt_irrefl k). by trans k'. }
    pose proof (Hget k') as Hv. simpl in Hv. rewrite !decide_True in Hv by done.
    injection Hv as ->. f_equal. apply IH; [done|done|]. intros n.
    destruct (decide (k' = n)) as [<-|Hne]; [by rewrite !Hnk|].
    specialize (Hget n). simpl in Hget. by rewrite !decide_False in Hget.
Qed.

Lemma btree_get_extend m l n : NoDup (map fst l) ->
  btree_get (btree_extend m l) n = match btree_get l n with Some v => Some v | None => btree_get m n end.
Proof.
  revert m. induction l as [|[k v] l IH]; intros m Hnd; [done|].
  apply NoDup_cons in Hnd as [Hk Hnd]. simpl. rewrite (IH (btree_insert k v m) Hnd), btree_get_insert.
  destruct (decide (k = n)) as [->|Hne]; [|done]. by rewrite (proj2 (btree_get_None l n)).
Qed.

(** Collecting the entries of a map, in any order, gives the map. *)
Lemma btree_collect_perm m l : btree m -> l ≡ₚ m -> btree_collect l = m.
Proof.
  intros Hm Hp. apply btree_ext; [apply btree_collect_btree|done|]. intros n.
  pose proof (btree_NoDup _ Hm) as Hnd. assert (Hnd' : NoDup (map fst l)) by (by rewrite Hp).
  unfold btree_collect. rewrite btree_get_extend by done.
  destruct (btree_get m n) as [v|] eqn:Hmn.
  - apply btree_get_elem in Hmn; [|done]. rewrite <- Hp in Hmn. by apply btree_get_elem in Hmn as ->.
  - apply btree_get_None in Hmn. rewrite (proj2 (btree_get_None l n)); [done|]. by rewrite Hp.
Qed.

Lemma btree_remove_perm k m v m' : btree_remove k m = Some (v, m') -> m ≡ₚ (k, v) :: m'.
Proof.
  revert m'. induction m as [|[k' w] m IH]; intros m'; simpl; [done|]. case_decide as Hk.
  - intros [= -> ->]. by subst.
  - destruct (btree_remove k m) as [[x r]|]; [|done]. intros [= -> <-].
    rewrite (IH r) by done. constructor.
Qed.

Lemma btree_remove_None k m : btree_remove k m = None <-> k ∉ map fst m.
Proof.
  induction m as [|[k' w] m IH]; simpl; [split; [intros _; apply not_elem_of_nil|done]|].
  rewrite not_elem_of_cons. case_decide; [naive_solver|].
  destruct (btree_remove k m) as [[]|]; naive_solver.
Qed.
End laws.
