(* ===== verification/Adts.v ===== *)
(** ADT declarations ([rex-typesystem/src/types.rs]), the supply of type
    variables and the parts of [TypeSystem] ([typesystem.rs]) that the engine
    reads while a program runs. *)

From S2P Require Import Prelude Span Types BTree.

(** * Names *)

Definition is_dot (c : Ascii.ascii) : bool := bool_decide (String c "" = ".").

Fixpoint has_dot (s : string) : bool :=
  match s with
  | EmptyString => false
  | String c s => is_dot c || has_dot s
  end.

(** [s.rsplit('.').next()]: what follows the last dot. *)
Fixpoint local_name (s : string) : string :=
  match s with
  | EmptyString => EmptyString
  | String c s' => if has_dot s' then local_name s' else if is_dot c then s' else s
  end.

(** [s.rsplit_once('.')]: the part before the last dot, if there is a dot. *)
Fixpoint before_last_dot (s : string) : option string :=
  match s with
  | EmptyString => None
  | String c s' =>
      match before_last_dot s' with
      | Some prefix => Some (String c prefix)
      | None => if is_dot c then Some EmptyString else None
      end
  end.

Lemma local_name_no_dot s : has_dot s = false -> local_name s = s.
Proof.
  destruct s as [|c s]; simpl; [done|]. rewrite orb_false_iff. intros [Hc Hs]. by rewrite Hs, Hc.
Qed.

Lemma has_dot_local_name s : has_dot (local_name s) = false.
Proof.
  induction s as [|c s IH]; simpl; [done|]. destruct (has_dot s) eqn:Hs; [done|].
  destruct (is_dot c) eqn:Hc; simpl; [done|by rewrite Hc, Hs].
Qed.

Lemma local_name_idemp s : local_name (local_name s) = local_name s.
Proof. apply local_name_no_dot, has_dot_local_name. Qed.

(** * Numbers *)

(** [str::parse::<usize>]: an optional [+], digits, within the range. *)
Definition digit (c : Ascii.ascii) : option N :=
  let n := Ascii.N_of_ascii c in if ((48 <=? n) && (n <=? 57))%N then Some (n - 48)%N else None.
Fixpoint parse_digits (s : string) (n : N) : option N :=
  match s with
  | "" => Some n
  | String c s =>
      match digit c with
      | Some d => let n := (10 * n + d)%N in if (n <=? usize_max)%N then parse_digits s n else None
      | None => None
      end
  end.
Definition parse_usize (s : string) : option N :=
  let digits := match s with String c rest => if decide (String c "" = "+") then rest else s | "" => "" end in
  if decide (digits = "") then None else parse_digits digits 0.

(** * Type variables *)

Record TypeVarSupply : Type := mkSupply { counter : TypeVarId }.

Definition TypeVarSupply_new : TypeVarSupply := mkSupply 0.

Definition fresh (name_hint : option Symbol) (s : TypeVarSupply) : TypeVar * TypeVarSupply :=
  (TypeVar_new (counter s) name_hint, mkSupply (counter s + 1)).

(** The loop of [instantiate]: each quantified variable gets a fresh one. *)
Fixpoint instantiate_vars (vars : list TypeVar) (subst : Subst) (supply : TypeVarSupply)
  : Subst * TypeVarSupply :=
  match vars with
  | [] => (subst, supply)
  | v :: vars =>
      let '(tv, supply) := fresh (tv_name v) supply in
      instantiate_vars vars (<[tv_id v := TVar tv]> subst) supply
  end.

Definition instantiate (scheme : Scheme) (supply : TypeVarSupply) : list Predicate * ty * TypeVarSupply :=
  let '(subst, supply) := instantiate_vars (scheme_vars scheme) ∅ supply in
  (map (Predicate_apply subst) (scheme_preds scheme), apply subst (scheme_typ scheme), supply).

(** * Declarations *)

Record AdtParam : Type := mkAdtParam {
  param_name : Symbol; param_var : TypeVar; param_docs : option string }.

Record AdtField : Type := mkAdtField {
  field_name : Symbol; field_typ : ty; field_docs : option string }.

Inductive AdtArgument : Type :=
  | Positional (typ : ty) (docs : option string)
  | RecordArgument (fields : list AdtField) (docs : option string).

Definition AdtArgument_positional (typ : ty) : AdtArgument := Positional typ None.

Definition AdtArgument_typ (a : AdtArgument) : ty :=
  match a with
  | Positional typ _ => typ
  | RecordArgument fields _ => Type_record (map (fun f => (field_name f, field_typ f)) fields)
  end.

Record AdtVariant : Type := mkAdtVariant {
  variant_name : Symbol; variant_args : list AdtArgument; variant_docs : option string }.

Record AdtDecl : Type := mkAdtDecl {
  adt_name : Symbol;
  adt_params : list AdtParam;
  adt_variants : list AdtVariant;
  adt_docs : option string }.

Fixpoint fresh_params (param_names : list Symbol) (supply : TypeVarSupply) : list AdtParam * TypeVarSupply :=
  match param_names with
  | [] => ([], supply)
  | p :: param_names =>
      let '(tv, supply) := fresh (Some p) supply in
      let '(params, supply) := fresh_params param_names supply in
      (mkAdtParam p tv None :: params, supply)
  end.

Definition AdtDecl_new (name : Symbol) (param_names : list Symbol) (supply : TypeVarSupply)
  : AdtDecl * TypeVarSupply :=
  let '(params, supply) := fresh_params param_names supply in
  (mkAdtDecl name params [] None, supply).

Definition param_type (adt : AdtDecl) (name : Symbol) : option ty :=
  option_map (fun p => TVar (param_var p)) (find (fun p => bool_decide (param_name p = name)) (adt_params adt)).

Definition add_variant (name : Symbol) (args : list AdtArgument) (docs : option string) (adt : AdtDecl) : AdtDecl :=
  mkAdtDecl (adt_name adt) (adt_params adt) (adt_variants adt ++ [mkAdtVariant name args docs]) (adt_docs adt).

Definition result_type (adt : AdtDecl) : ty :=
  foldl (fun t p => TApp t (TVar (param_var p))) (Type_con (adt_name adt) (length (adt_params adt))) (adt_params adt).

Definition constructor_schemes (adt : AdtDecl) : list (Symbol * Scheme) :=
  let result_ty := result_type adt in
  let vars := map param_var (adt_params adt) in
  map (fun variant =>
    let typ := foldr (fun arg t => TFun (AdtArgument_typ arg) t) result_ty (variant_args variant) in
    (adt_name adt +:+ "." +:+ local_name (variant_name variant), mkScheme vars [] typ)) (adt_variants adt).

Definition compatibility_constructor_name (adt variant : Symbol) : Symbol :=
  match before_last_dot adt with
  | Some prefix => prefix +:+ "." +:+ local_name variant
  | None => local_name variant
  end.

(** * The type system at run time *)

Record ClassMethodInfo : Type := mkClassMethodInfo {
  method_class : Symbol; method_scheme : Scheme; method_docs : option string }.

(** The fields of [TypeSystem] that the engine reads. *)
Record TypeSystem : Type := mkTypeSystem {
  adts : gmap Symbol AdtDecl;
  class_methods : gmap Symbol ClassMethodInfo }.

(** ** The prelude's list type, as [rex-engine/src/prelude/type_system.rs] declares it *)

Definition list_adt : AdtDecl :=
  let '(adt, _) := AdtDecl_new "List" ["a"] TypeVarSupply_new in
  let a := TVar (TypeVar_new 0 (Some "a")) in
  let list_a := result_type adt in
  add_variant "Cons" [AdtArgument_positional a; AdtArgument_positional list_a] None
    (add_variant "Empty" [] None adt).

Example list_schemes : map fst (constructor_schemes list_adt) = ["List.Empty"; "List.Cons"].
Proof. reflexivity. Qed.
