(* ===== verification/Unify.v ===== *)
(** The pure unifier: [unify], [bind], [record_elem_type] and [compose_subst] of
    [rex-typesystem/src/unification.rs].

    [unify] recurses on types it has just substituted into, so the recursion is
    on fuel; [unify_terminates] shows that enough fuel always exists, for every
    pair of types. *)

From S2P Require Import Prelude Types.

Definition subst_is_empty (s : Subst) : bool := bool_decide (s = ∅).

(** [compose_subst]: all bindings of [b] with [a] applied, then all bindings of
    [a], the later insertions winning. *)
Definition compose_subst (a b : Subst) : Subst :=
  if subst_is_empty a then b
  else if subst_is_empty b then a
  else a ∪ (apply a <$> b).

Definition bind (tv : TypeVar) (t : ty) : result TypeError Subst :=
  match t with
  | TVar var =>
      if decide (tv_id var = tv_id tv) then Ok ∅
      else if decide (tv_id tv ∈ ftv t) then Err (Occurs (tv_id tv) (show_ty t))
      else Ok {[ tv_id tv := t ]}
  | _ =>
      if decide (tv_id tv ∈ ftv t) then Err (Occurs (tv_id tv) (show_ty t))
      else Ok {[ tv_id tv := t ]}
  end.

Definition mismatch {A} (t1 t2 : ty) : fueled TypeError A :=
  ferr (Unification (show_ty t1) (show_ty t2)).

Definition lift {E A} (r : result E A) : fueled E A := Some r.

(** The cases of [unify], with the recursive calls as the parameter [rec]. *)
Section UnifyBody.
Variable rec : ty -> ty -> fueled TypeError Subst.

(** The loop over the fields of two records of the same length. The error of
    a name clash prints the two field types. *)
Fixpoint unify_fields (fs : list ((Symbol * ty) * (Symbol * ty))) (subst : Subst)
    : fueled TypeError Subst :=
  match fs with
  | [] => fret subst
  | ((n1, t1), (n2, t2)) :: fs =>
      if decide (n1 = n2)
      then let! s_next := rec (apply subst t1) (apply subst t2) in
           unify_fields fs (compose_subst s_next subst)
      else mismatch t1 t2
  end.

(** The loop over the elements of two tuples of the same length. *)
Fixpoint unify_elems (ts : list (ty * ty)) (s : Subst) : fueled TypeError Subst :=
  match ts with
  | [] => fret s
  | (a, b) :: ts =>
      let! s_next := rec (apply s a) (apply s b) in
      unify_elems ts (compose_subst s_next s)
  end.

(** The loop of [record_elem_type] over the fields after the first. *)
Fixpoint elem_type_loop (fs : list (Symbol * ty)) (subst : Subst) (current : ty)
    : fueled TypeError (Subst * ty) :=
  match fs with
  | [] => fret (subst, apply subst current)
  | (_, t) :: fs =>
      let! s_next := rec (apply subst current) (apply subst t) in
      let subst := compose_subst s_next subst in
      elem_type_loop fs subst (apply subst current)
  end.

Definition record_elem_type (fields : list (Symbol * ty)) : fueled TypeError (Subst * ty) :=
  match fields with
  | [] => ferr (UnsupportedExpr "empty record")
  | (_, first) :: rest => elem_type_loop rest ∅ first
  end.

Definition unify_body (t1 t2 : ty) : fueled TypeError Subst :=
  match t1, t2 with
  | TFun l1 r1, TFun l2 r2 =>
      let! s1 := rec l1 l2 in
      let! s2 := rec (apply s1 r1) (apply s1 r2) in
      fret (compose_subst s2 s1)
  | TRecord f1, TRecord f2 =>
      if decide (length f1 = length f2) then unify_fields (zip f1 f2) ∅
      else mismatch t1 t2
  | TRecord fields, TApp head arg | TApp head arg, TRecord fields =>
      match head with
      | TCon c =>
          if is_builtin c Dict then
            let! (s_fields, elem_ty) := record_elem_type fields in
            let! s_arg := rec (apply s_fields arg) elem_ty in
            fret (compose_subst s_arg s_fields)
          else mismatch t1 t2
      | TVar tv =>
          let! s_head := lift (bind tv (ty_builtin Dict)) in
          let arg := apply s_head arg in
          let! (s_fields, elem_ty) := record_elem_type fields in
          let! s_arg := rec (apply s_fields arg) elem_ty in
          fret (compose_subst s_arg (compose_subst s_fields s_head))
      | _ => mismatch t1 t2
      end
  | TApp l1 r1, TApp l2 r2 =>
      let! s1 := rec l1 l2 in
      let! s2 := rec (apply s1 r1) (apply s1 r2) in
      fret (compose_subst s2 s1)
  | TTuple ts1, TTuple ts2 =>
      if decide (length ts1 = length ts2) then unify_elems (zip ts1 ts2) ∅
      else mismatch t1 t2
  | TVar tv, t | t, TVar tv => lift (bind tv t)
  | TCon c1, TCon c2 => if decide (c1 = c2) then fret ∅ else mismatch t1 t2
  | _, _ => mismatch t1 t2
  end.
End UnifyBody.

Fixpoint unify (fuel : nat) (t1 t2 : ty) : fueled TypeError Subst :=
  match fuel with
  | O => None
  | S fuel => unify_body (unify fuel) t1 t2
  end.

Example unify_dict :
  unify 5 (TRecord [("a", ty_builtin I32); ("b", TVar (TypeVar_new 0 None))])
          (Type_dict (TVar (TypeVar_new 1 None)))
  = Some (Ok {[ 0 := ty_builtin I32; 1 := ty_builtin I32 ]}).
Proof. vm_compute. reflexivity. Qed.

#[local] Arguments bind : simpl never.
#[local] Arguments mismatch : simpl never.

(** * Compatibility: what a successful unification establishes

    [unify] treats a record whose fields share a type and a [Dict] of that type
    as equal, so its result does not make the two types equal in general. The
    relation below is equality up to the names of variables, plus that one
    coercion; on types without records it is [≈]. *)
Inductive compat : ty -> ty -> Prop :=
  | compat_var tv1 tv2 : tv_id tv1 = tv_id tv2 -> compat (TVar tv1) (TVar tv2)
  | compat_con c : compat (TCon c) (TCon c)
  | compat_app l1 r1 l2 r2 : compat l1 l2 -> compat r1 r2 -> compat (TApp l1 r1) (TApp l2 r2)
  | compat_fun a1 b1 a2 b2 : compat a1 a2 -> compat b1 b2 -> compat (TFun a1 b1) (TFun a2 b2)
  | compat_tuple ts1 ts2 :
      length ts1 = length ts2 ->
      (forall p, p ∈ zip ts1 ts2 -> compat p.1 p.2) ->
      compat (TTuple ts1) (TTuple ts2)
  | compat_record (fs1 fs2 : list (Symbol * ty)) :
      length fs1 = length fs2 ->
      (forall p, p ∈ zip fs1 fs2 -> p.1.1 = p.2.1) ->
      (forall p, p ∈ zip fs1 fs2 -> compat p.1.2 p.2.2) ->
      compat (TRecord fs1) (TRecord fs2)
  | compat_record_dict n first rest arg :
      (forall f, f ∈ rest -> compat first f.2) ->
      compat arg first ->
      compat (TRecord ((n, first) :: rest)) (Type_dict arg)
  | compat_dict_record n first rest arg :
      (forall f, f ∈ rest -> compat first f.2) ->
      compat arg first ->
      compat (Type_dict arg) (TRecord ((n, first) :: rest)).

#[export] Hint Constructors compat : rex.

Lemma elem_of_zip_map {A B C D} (f : A -> C) (g : B -> D) l k p :
  p ∈ zip (map f l) (map g k) <-> exists q, q ∈ zip l k /\ p = (f q.1, g q.2).
Proof.
  revert k. induction l as [|x l IH]; intros [|y k]; simpl; set_solver.
Qed.

Lemma compat_refl t : compat t t.
Proof.
  induction t as [tv|c|l r|a b|ts IH|fs IH] using ty_ind'; eauto with rex.
  - apply compat_tuple; [done|]. intros p Hp.
    induction IH as [|t ts Ht _ IHts]; simpl in Hp; [set_solver|].
    apply elem_of_cons in Hp as [->|?]; auto.
  - assert (forall p, p ∈ zip fs fs -> p.1 = p.2 /\ compat p.1.2 p.2.2) as Hz.
    { intros p Hp. induction IH as [|f fs Hf _ IHfs]; simpl in Hp; [set_solver|].
      apply elem_of_cons in Hp as [->|?]; auto. }
    apply compat_record; [done|..]; intros p Hp; destruct (Hz p Hp) as [? ?]; congruence.
Qed.

Lemma compat_sym t1 t2 : compat t1 t2 -> compat t2 t1.
Proof.
  assert (forall {A} (l k : list A) p, p ∈ zip k l -> (p.2, p.1) ∈ zip l k) as Hzip.
  { intros A l. induction l as [|x l IH]; intros [|y k] p; simpl; set_solver. }
  induction 1; eauto with rex.
  - apply compat_tuple; [done|]. intros p Hp. apply (H1 (p.2, p.1)), Hzip, Hp.
  - apply compat_record; [done|..]; intros p Hp.
    + symmetry. apply (H0 (p.2, p.1)), Hzip, Hp.
    + apply (H2 (p.2, p.1)), Hzip, Hp.
Qed.

Lemma compat_subst s t1 t2 : compat t1 t2 -> compat (subst s t1) (subst s t2).
Proof.
  induction 1 as [tv1 tv2 Hid| | | |ts1 ts2 Hlen _ IH|fs1 fs2 Hlen Hn _ IH
                 |n first rest arg _ IH _ IHa|n first rest arg _ IH _ IHa]; simpl; eauto with rex.
  - rewrite Hid. destruct (s !! tv_id tv2); [apply compat_refl|]. by constructor.
  - apply compat_tuple; [by rewrite !length_map|].
    intros p (q & Hq & ->)%elem_of_zip_map. by apply IH.
  - apply compat_record; [by rewrite !length_map|..];
      intros p (q & Hq & ->)%elem_of_zip_map; simpl; [by apply Hn|by apply IH].
  - apply compat_record_dict; [|done]. intros f (g & -> & Hg)%list_elem_of_fmap. by apply IH.
  - apply compat_dict_record; [|done]. intros f (g & -> & Hg)%list_elem_of_fmap. by apply IH.
Qed.

(** * Substitutions that solve equations *)

(** [wf V s]: [s] binds variables of [V] only, to types over the variables of
    [V] it does not bind. Such a substitution is idempotent. *)
Definition wf (V : gset TypeVarId) (s : Subst) : Prop :=
  forall x u, s !! x = Some u -> x ∈ V /\ forall y, y ∈ vars u -> y ∈ V /\ s !! y = None.

Lemma wf_mono V1 V2 s : V1 ⊆ V2 -> wf V1 s -> wf V2 s.
Proof. unfold wf. set_solver. Qed.

Lemma wf_empty V : wf V ∅.
Proof. intros x u. by rewrite lookup_empty. Qed.

Lemma wf_vars V s t y :
  wf V s -> y ∈ vars (subst s t) -> (y ∈ vars t \/ y ∈ V) /\ s !! y = None.
Proof.
  intros Hs (x & Hx & Hy)%elem_of_vars_subst.
  destruct (s !! x) as [u|] eqn:E; [|by subst; auto].
  destruct (Hs x u E) as [? Hu]. destruct (Hu y Hy). auto.
Qed.

Lemma wf_idem V s t : wf V s -> subst s (subst s t) = subst s t.
Proof.
  intros Hs. apply subst_disjoint. intros y Hy Hd.
  apply (wf_vars V) in Hy as [_ Hy]; [|done]. apply elem_of_dom in Hd as [? ?]. congruence.
Qed.

Lemma lookup_compose a b x :
  compose_subst a b !! x =
  match a !! x with Some u => Some u | None => subst a <$> (b !! x) end.
Proof.
  unfold compose_subst, subst_is_empty. repeat case_bool_decide; subst.
  - rewrite lookup_empty. destruct (b !! x); simpl; [by rewrite subst_empty|done].
  - rewrite lookup_empty. by destruct (a !! x).
  - rewrite lookup_union, lookup_fmap. destruct (a !! x), (b !! x); simpl;
      rewrite ?apply_subst; done.
Qed.

Lemma compose_subst_disjoint a b t :
  dom a ## dom b -> subst (compose_subst a b) t = subst a (subst b t).
Proof.
  intros Hd. apply subst_subst. intros tv _. simpl. rewrite lookup_compose.
  destruct (a !! tv_id tv) eqn:Ea, (b !! tv_id tv) eqn:Eb; simpl; rewrite ?Ea; try done.
  destruct (Hd (tv_id tv)); apply elem_of_dom; eauto.
Qed.

Lemma wf_compose V s s0 :
  wf V s0 -> wf (V ∖ dom s0) s ->
  wf V (compose_subst s s0) /\
  (forall t, subst (compose_subst s s0) t = subst s (subst s0 t)).
Proof.
  intros H0 H. split.
  - intros x u. rewrite lookup_compose. destruct (s !! x) as [u'|] eqn:E.
    + intros [= <-]. destruct (H x u' E) as [Hx Hu]. split; [set_solver|].
      intros y Hy. destruct (Hu y Hy) as [Hy1 Hy2]. rewrite lookup_compose, Hy2.
      split; [set_solver|]. apply elem_of_difference in Hy1 as [_ Hy1].
      apply not_elem_of_dom in Hy1. by rewrite Hy1.
    + intros (u0 & E0 & ->)%fmap_Some. destruct (H0 x u0 E0) as [Hx Hu0].
      split; [done|]. intros y Hy. rewrite lookup_compose.
      apply elem_of_vars_subst in Hy as (z & Hz & Hy). destruct (Hu0 z Hz) as [HzV Hz0].
      destruct (s !! z) as [w|] eqn:Ez.
      * destruct (H z w Ez) as [_ Hw]. destruct (Hw y Hy) as [Hy1 Hy2]. rewrite Hy2.
        split; [set_solver|]. apply elem_of_difference in Hy1 as [_ Hy1].
        apply not_elem_of_dom in Hy1. by rewrite Hy1.
      * subst z. by rewrite Ez, Hz0.
  - intros t. apply compose_subst_disjoint. intros x Hx Hx0.
    apply elem_of_dom in Hx as [u Hu]. destruct (H x u Hu). set_solver.
Qed.

(** ** Success of the loops, as success of [unify_elems] *)

Lemma unify_fields_elems rec fs s s' :
  unify_fields rec fs s = Some (Ok s') ->
  unify_elems rec (map (fun p => (p.1.2, p.2.2)) fs) s = Some (Ok s') /\
  (forall p, p ∈ fs -> p.1.1 = p.2.1).
Proof.
  revert s. induction fs as [|[[n1 t1] [n2 t2]] fs IH]; simpl; intros s.
  - intros H. split; [done|]. set_solver.
  - destruct (decide (n1 = n2)) as [->|]; [|done].
    destruct (rec _ _) as [[]|]; try done. simpl. intros [? ?]%IH. split; [done|].
    intros p [->|?]%elem_of_cons; auto.
Qed.

Lemma unify_pair rec a1 b1 a2 b2 :
  (let! s1 := rec a1 a2 in
   let! s2 := rec (apply s1 b1) (apply s1 b2) in
   fret (compose_subst s2 s1)) = unify_elems rec [(a1, a2); (b1, b2)] ∅.
Proof.
  simpl. rewrite !apply_subst, !subst_empty. destruct (rec a1 a2) as [[s1|]|]; try done.
  simpl. assert (compose_subst s1 ∅ = s1) as ->; [|done].
  apply map_eq; intros x. rewrite lookup_compose, lookup_empty. by destruct (s1 !! x).
Qed.

Lemma unify_elems_app rec ps qs s :
  unify_elems rec (ps ++ qs) s = let! s1 := unify_elems rec ps s in unify_elems rec qs s1.
Proof.
  revert s. induction ps as [|[a b] ps IH]; intros s; simpl; [done|].
  destruct (rec _ _) as [[]|]; simpl; auto.
Qed.

(** ** Classes of types on which the unifier is correct

    Nothing unifies a record with an application whose head is a variable: such
    a clash is resolved incorrectly (see [unify_var_head_unsound]). *)
Class Unifiable (ok : ty -> Prop) : Prop := {
  ok_app l r : ok (TApp l r) -> ok l /\ ok r;
  ok_fun a b : ok (TFun a b) -> ok a /\ ok b;
  ok_tuple ts t : ok (TTuple ts) -> t ∈ ts -> ok t;
  ok_record fs f : ok (TRecord fs) -> f ∈ fs -> ok f.2;
  ok_subst s t : ok t -> (forall x u, s !! x = Some u -> ok u) -> ok (subst s t);
  ok_no_clash fs tv a : ok (TRecord fs) -> ok (TApp (TVar tv) a) -> False
}.

Definition ok_range (ok : ty -> Prop) (s : Subst) : Prop := forall x u, s !! x = Some u -> ok u.

Lemma ok_range_empty ok : ok_range ok ∅.
Proof. intros x u. by rewrite lookup_empty. Qed.

Lemma ok_range_compose `{Unifiable ok} s s0 :
  ok_range ok s -> ok_range ok s0 -> ok_range ok (compose_subst s s0).
Proof.
  intros Hs H0 x u. rewrite lookup_compose. destruct (s !! x) eqn:E.
  - intros [= <-]. eauto.
  - intros (u0 & E0 & ->)%fmap_Some. apply ok_subst; eauto.
Qed.

Lemma bind_cases tv t s :
  bind tv t = Ok s ->
  (exists v, t = TVar v /\ tv_id v = tv_id tv /\ s = ∅) \/
  (tv_id tv ∉ vars t /\ s = {[tv_id tv := t]}).
Proof.
  intros Hb. rewrite <- ftv_vars. destruct t; unfold bind in Hb; repeat case_decide; try done;
    try (right; naive_solver). left. eexists. naive_solver.
Qed.

Lemma bind_solves `{Unifiable ok} tv t s :
  ok t -> bind tv t = Ok s ->
  wf ({[tv_id tv]} ∪ vars t) s /\ ok_range ok s /\ compat (subst s (TVar tv)) (subst s t).
Proof.
  intros Hok [(v & -> & Hid & ->)|[Hn ->]]%bind_cases.
  - split_and!; [apply wf_empty|apply ok_range_empty|]. rewrite !subst_empty. by constructor.
  - split_and!.
    + intros x u [<- <-]%lookup_singleton_Some. split; [set_solver|]. intros y Hy.
      split; [set_solver|]. apply lookup_singleton_ne. set_solver.
    + by intros x u [<- <-]%lookup_singleton_Some.
    + simpl. rewrite lookup_singleton_eq. simpl.
      rewrite subst_disjoint; [apply compat_refl|]. rewrite dom_singleton. set_solver.
Qed.

(** [s] is a correct answer for the equation [a = b]. *)
Definition solves (ok : ty -> Prop) (a b : ty) (s : Subst) : Prop :=
  wf (vars a ∪ vars b) s /\ ok_range ok s /\ compat (subst s a) (subst s b).

Section Soundness.
Context (ok : ty -> Prop) `{!Unifiable ok}.
Variable rec : ty -> ty -> fueled TypeError Subst.
Hypothesis rec_solves : forall a b s,
  ok a -> ok b -> rec a b = Some (Ok s) -> solves ok a b s.

Definition eqs_in (V : gset TypeVarId) (ps : list (ty * ty)) : Prop :=
  forall p, p ∈ ps -> (ok p.1 /\ ok p.2) /\ vars p.1 ∪ vars p.2 ⊆ V.

Lemma rec_step V a b s0 s :
  wf V s0 -> ok_range ok s0 -> ok a -> ok b -> vars a ∪ vars b ⊆ V ->
  rec (subst s0 a) (subst s0 b) = Some (Ok s) ->
  wf (V ∖ dom s0) s /\ ok_range ok s /\ compat (subst s (subst s0 a)) (subst s (subst s0 b)).
Proof using rec_solves Unifiable0.
  intros Hw Hr Ha Hb HV Hs. apply rec_solves in Hs as (Hsw & Hsr & Hc); [|by apply ok_subst..].
  split; [|done]. eapply wf_mono; [|exact Hsw]. intros y Hy. apply elem_of_union in Hy as [Hy|Hy];
    apply (wf_vars V) in Hy as [? Hn]; try done; apply elem_of_difference;
    (split; [set_solver|by apply not_elem_of_dom]).
Qed.

(** [s'] solves every equation [s] does. *)
Definition extends (s s' : Subst) : Prop :=
  forall a b, compat (subst s a) (subst s b) -> compat (subst s' a) (subst s' b).

Lemma elems_sound V ps : forall s s',
  eqs_in V ps -> wf V s -> ok_range ok s ->
  unify_elems rec ps s = Some (Ok s') ->
  (wf V s' /\ ok_range ok s') /\ extends s s' /\
  (forall p, p ∈ ps -> compat (subst s' p.1) (subst s' p.2)).
Proof using rec_solves Unifiable0.
  induction ps as [|[a b] ps IH]; intros s s' Hps Hw Hr; simpl.
  { intros [= <-]. split_and!; [done..|by intros ??|set_solver]. }
  rewrite !apply_subst. intros (sn & Hn & Hrest)%fbind_Ok.
  destruct (Hps (a, b)) as [[Ha Hb] HV]; [by left|].
  apply (rec_step V) in Hn as (Hnw & Hnr & Hnc); try done.
  destruct (wf_compose V sn s Hw Hnw) as [Hcw Hcs].
  apply IH in Hrest as (Hw' & Hext & Hall); try done.
  - split; [done|split].
    + intros c d Hcd. apply Hext. rewrite !Hcs. by apply compat_subst.
    + intros p [->|Hp]%elem_of_cons; [|by apply Hall]. apply Hext. by rewrite !Hcs.
  - intros p Hp. apply Hps. by right.
  - by apply ok_range_compose.
Qed.

(** The loop of [record_elem_type] solves the equations [first = field], and
    its result type is [first] under the solution. *)
Lemma elem_type_loop_elems V first fs : forall s cur s' e,
  ok first -> vars first ⊆ V ->
  (forall f, f ∈ fs -> ok f.2 /\ vars f.2 ⊆ V) -> wf V s -> ok_range ok s ->
  subst s cur = subst s first ->
  elem_type_loop rec fs s cur = Some (Ok (s', e)) ->
  unify_elems rec (map (fun f => (first, f.2)) fs) s = Some (Ok s') /\ e = subst s' first.
Proof using rec_solves Unifiable0.
  induction fs as [|[n t] fs IH]; intros s cur s' e Hok HV Hfs Hw Hr Hcur; simpl.
  { rewrite apply_subst. intros [= <- <-]. auto. }
  rewrite !apply_subst, Hcur. intros (sn & Hn & Hrest)%fbind_Ok. rewrite Hn. simpl.
  destruct (Hfs (n, t)) as [Ht Hf]; [by left|]. simpl in *.
  apply (rec_step V) in Hn as (Hnw & Hnr & _); [|done..|set_solver].
  destruct (wf_compose V sn s Hw Hnw) as [Hcw Hcs].
  eapply IH; [done..|by intros f ?; apply Hfs; right|done|by apply ok_range_compose| |done].
  rewrite apply_subst, (wf_idem V) by done. by rewrite !Hcs, Hcur.
Qed.

Lemma record_elem_type_elems V fields s' e :
  (forall f, f ∈ fields -> ok f.2 /\ vars f.2 ⊆ V) ->
  record_elem_type rec fields = Some (Ok (s', e)) ->
  exists n first rest, fields = (n, first) :: rest /\
    unify_elems rec (map (fun f => (first, f.2)) rest) ∅ = Some (Ok s') /\
    e = subst s' first.
Proof using rec_solves Unifiable0.
  destruct fields as [|[n first] rest]; simpl; [done|]. intros Hfs H.
  destruct (Hfs (n, first)) as [??]; [by left|]. simpl in *.
  exists n, first, rest. split; [done|].
  eapply (elem_type_loop_elems V); eauto using wf_empty, ok_range_empty.
  intros f ?; apply Hfs; by right.
Qed.

Lemma elems_solve t1 t2 ps s :
  eqs_in (vars t1 ∪ vars t2) ps ->
  unify_elems rec ps ∅ = Some (Ok s) ->
  ((forall p, p ∈ ps -> compat (subst s p.1) (subst s p.2)) -> compat (subst s t1) (subst s t2)) ->
  solves ok t1 t2 s.
Proof using rec_solves Unifiable0.
  intros Hps Hs Hc.
  apply (elems_sound (vars t1 ∪ vars t2)) in Hs as ([Hw Hr] & _ & Hall);
    eauto using wf_empty, ok_range_empty. split_and!; auto.
Qed.

Lemma solves_sym a b s : solves ok a b s -> solves ok b a s.
Proof using Type. intros (? & ? & ?%compat_sym). split_and!; [|done..]. by rewrite (comm_L union). Qed.

Lemma record_dict_solves fields arg s :
  ok (TRecord fields) -> ok arg ->
  (let! (s_fields, elem_ty) := record_elem_type rec fields in
   let! s_arg := rec (apply s_fields arg) elem_ty in
   fret (compose_subst s_arg s_fields)) = Some (Ok s) ->
  solves ok (TRecord fields) (Type_dict arg) s.
Proof using rec_solves Unifiable0.
  intros Hf Ha ([sf e] & He & Hs)%fbind_Ok.
  apply (record_elem_type_elems (vars (TRecord fields))) in He
    as (n & first & rest & -> & Hrest & ->).
  2:{ intros f Hin. split; [by eapply ok_record|]. simpl. intros x Hx.
      rewrite union_list_elem. eauto. }
  assert (unify_elems rec (map (fun f => (first, f.2)) rest ++ [(arg, first)]) ∅ = Some (Ok s)) as H.
  { rewrite unify_elems_app, Hrest. simpl. by rewrite !apply_subst in *. }
  assert (forall f, f ∈ (n, first) :: rest -> ok f.2) as Hok by (intros; by eapply ok_record).
  eapply elems_solve; [|exact H|].
  - intros p [(f & -> & Hin)%list_elem_of_fmap| ->%list_elem_of_singleton]%elem_of_app; simpl.
    + split; [split; [apply (Hok (n, first))|apply Hok]; set_solver|].
      intros x Hx. rewrite elem_of_union in Hx |- *. left.
      rewrite elem_of_union, union_list_elem. destruct Hx; eauto.
    + split; [split; [done|apply (Hok (n, first))]; set_solver|]. set_solver.
  - intros Hall. simpl. apply compat_record_dict.
    + intros f (g & -> & Hg)%list_elem_of_fmap. simpl.
      apply (Hall (first, g.2)). apply elem_of_app. left. apply list_elem_of_fmap. eauto.
    + apply (Hall (arg, first)). set_solver.
Qed.

Lemma unify_body_solves t1 t2 s :
  ok t1 -> ok t2 -> unify_body rec t1 t2 = Some (Ok s) -> solves ok t1 t2 s.
Proof using rec_solves Unifiable0.
  assert (forall a1 b1 a2 b2, (ok a1 /\ ok b1) -> (ok a2 /\ ok b2) ->
    eqs_in ((vars a1 ∪ vars b1) ∪ (vars a2 ∪ vars b2)) [(a1, a2); (b1, b2)]) as Hpair.
  { intros a1 b1 a2 b2 [??] [??] p.
    intros [->|[->|[]%not_elem_of_nil]%elem_of_cons]%elem_of_cons; simpl; set_solver. }
  assert (forall tv t u, ok t -> lift (bind tv t) = Some (Ok u) -> solves ok (TVar tv) t u) as Hvar.
  { intros tv t u Ht [= Hb]. by apply bind_solves. }
  intros H1 H2. destruct t1 as [tv|c|l r|a b|ts|fs], t2 as [tv'|c'|l' r'|a' b'|ts'|fs'];
    simpl; try done; try (apply Hvar; done); try (intros Hs; apply solves_sym, Hvar; done).
  - case_decide; [|done]. intros [= <-]. subst. unfold solves; split_and!; [apply wf_empty|apply ok_range_empty|].
    apply compat_refl.
  - rewrite unify_pair. intros Hs. eapply elems_solve; [|exact Hs|].
    + by apply Hpair; apply ok_app.
    + intros Hall. apply compat_app; [apply (Hall (l, l'))|apply (Hall (r, r'))]; set_solver.
  - destruct l as [tv|c| | | |]; try done.
    { destruct (ok_no_clash _ _ _ H2 H1). }
    destruct (is_builtin c Dict) eqn:Hc; [|done]. apply bool_decide_eq_true in Hc.
    destruct c; [|done]. injection Hc as ->. intros Hs.
    apply solves_sym, record_dict_solves; [done|by apply ok_app in H1 as []|done].
  - rewrite unify_pair. intros Hs. eapply elems_solve; [|exact Hs|].
    + by apply Hpair; apply ok_fun.
    + intros Hall. apply compat_fun; [apply (Hall (a, a'))|apply (Hall (b, b'))]; set_solver.
  - case_decide as Hlen; [|done]. intros Hs. eapply elems_solve; [|exact Hs|].
    + intros [u u'] Hp. pose proof (elem_of_zip_l _ _ _ _ Hp).
      pose proof (elem_of_zip_r _ _ _ _ Hp). split; [by split; [apply (ok_tuple ts)|apply (ok_tuple ts')]|].
      simpl. intros x. rewrite !elem_of_union, !union_list_elem. naive_solver.
    + intros Hall. simpl. apply compat_tuple; [by rewrite !length_map|].
      intros p (q & Hq & ->)%elem_of_zip_map. by apply Hall.
  - destruct l' as [tv|c| | | |]; try done.
    { destruct (ok_no_clash _ _ _ H1 H2). }
    destruct (is_builtin c Dict) eqn:Hc; [|done]. apply bool_decide_eq_true in Hc.
    destruct c; [|done]. injection Hc as ->. intros Hs.
    apply record_dict_solves; [done|by apply ok_app in H2 as []|done].
  - case_decide as Hlen; [|done]. intros [Hs Hn]%unify_fields_elems.
    eapply elems_solve; [|exact Hs|].
    + intros p ([f f'] & -> & Hp)%list_elem_of_fmap. pose proof (elem_of_zip_l _ _ _ _ Hp).
      pose proof (elem_of_zip_r _ _ _ _ Hp). simpl. split; [by split; [apply (ok_record fs)|apply (ok_record fs')]|].
      simpl. intros x. rewrite !elem_of_union, !union_list_elem. naive_solver.
    + intros Hall. simpl. apply compat_record; [by rewrite !length_map|..];
        intros p (q & Hq & ->)%elem_of_zip_map; simpl; [by apply Hn|].
      apply (Hall (q.1.2, q.2.2)), list_elem_of_fmap. eauto.
Qed.
End Soundness.

Lemma unify_solves `{Unifiable ok} n : forall t1 t2 s,
  ok t1 -> ok t2 -> unify n t1 t2 = Some (Ok s) -> solves ok t1 t2 s.
Proof.
  induction n as [|n IH]; intros t1 t2 s H1 H2; [done|].
  simpl. apply (unify_body_solves ok (unify n)); eauto.
Qed.

(** ** Two classes the unifier is correct on *)

(** Types without records, with applications of any head. *)
Fixpoint record_free (t : ty) : bool :=
  match t with
  | TVar _ | TCon _ => true
  | TApp l r => record_free l && record_free r
  | TFun a b => record_free a && record_free b
  | TTuple ts => forallb record_free ts
  | TRecord _ => false
  end.

(** Types with records, in which no type variable is applied. *)
Fixpoint no_var_app (t : ty) : bool :=
  match t with
  | TVar _ | TCon _ => true
  | TApp (TVar _) r => false
  | TApp l r => no_var_app l && no_var_app r
  | TFun a b => no_var_app a && no_var_app b
  | TTuple ts => forallb no_var_app ts
  | TRecord fs => forallb (fun f => no_var_app f.2) fs
  end.

Lemma forallb_elem {A} (p : A -> bool) l : forallb p l = true <-> forall x, x ∈ l -> p x = true.
Proof. rewrite forallb_forall. by setoid_rewrite list_elem_of_In. Qed.

#[export] Instance record_free_ok : Unifiable (fun t => record_free t = true).
Proof.
  split; simpl; try done.
  - by intros l r ?%andb_true_iff.
  - by intros a b ?%andb_true_iff.
  - intros ts t. rewrite forallb_elem. auto.
  - intros s t Ht Hs. revert Ht.
    induction t as [tv|c|l r IHl IHr|a b IHa IHb|ts IH|fs IH] using ty_ind'; simpl; try done.
    + destruct (s !! tv_id tv) eqn:E; simpl; eauto.
    + rewrite !andb_true_iff. naive_solver.
    + rewrite !andb_true_iff. naive_solver.
    + rewrite Forall_forall in IH. rewrite !forallb_elem.
      intros Hts u (v & -> & Hv)%list_elem_of_fmap. auto.
Qed.

Lemma no_var_app_app l r :
  no_var_app (TApp l r) = true <->
  (forall tv, l <> TVar tv) /\ no_var_app l = true /\ no_var_app r = true.
Proof.
  destruct l; simpl; rewrite ?andb_true_iff; split; try done; naive_solver.
Qed.

#[export] Instance no_var_app_ok : Unifiable (fun t => no_var_app t = true).
Proof.
  split; try done.
  - by intros l r (_ & ?)%no_var_app_app.
  - simpl. by intros a b ?%andb_true_iff.
  - simpl. intros ts t. rewrite forallb_elem. auto.
  - simpl. intros fs f. rewrite forallb_elem. auto.
  - intros s t Ht Hs. revert Ht.
    induction t as [tv|c|l r IHl IHr|a b IHa IHb|ts IH|fs IH] using ty_ind'; try done.
    + simpl. destruct (s !! tv_id tv) eqn:E; simpl; eauto.
    + simpl subst. rewrite !no_var_app_app. intros (Hl & ? & ?).
      split; [|naive_solver]. intros tv. destruct l; try done. by destruct (Hl tv0).
    + simpl. rewrite !andb_true_iff. naive_solver.
    + simpl. rewrite Forall_forall in IH. rewrite !forallb_elem.
      intros Hts u (v & -> & Hv)%list_elem_of_fmap. auto.
    + simpl. rewrite Forall_forall in IH. rewrite !forallb_elem.
      intros Hts u (v & -> & Hv)%list_elem_of_fmap. simpl. auto.
Qed.

Lemma compat_teq t1 t2 : compat t1 t2 -> record_free t1 = true -> record_free t2 = true -> t1 ≈ t2.
Proof.
  induction 1 as [tv1 tv2 Hid| | | |ts1 ts2 Hlen _ IH| | |]; simpl; try done;
    rewrite ?andb_true_iff.
  - unfold teq; simpl; congruence.
  - intros [??] [??]. apply TApp_proper; auto.
  - intros [??] [??]. apply TFun_proper; auto.
  - rewrite !forallb_elem. intros H1 H2. unfold teq. simpl. f_equal.
    revert ts2 Hlen IH H2. induction ts1 as [|t ts1 IHts]; intros [|t2 ts2]; simpl; try done.
    intros [= Hlen] IH H2. f_equal.
    + apply (IH (t, t2)); set_solver.
    + apply IHts; [set_solver|done|..]; intros; try apply IH; set_solver.
Qed.

(** * Soundness *)

(** C16. On types without records (type constructors and applications of type
    variables included), a successful [unify] returns a substitution that makes
    the two types equal up to the names of variables. *)
Theorem unify_sound n t1 t2 s :
  record_free t1 = true -> record_free t2 = true ->
  unify n t1 t2 = Some (Ok s) -> apply s t1 ≈ apply s t2.
Proof.
  intros H1 H2 Hs. pose proof (unify_solves (ok := fun t => record_free t = true) n t1 t2 s H1 H2 Hs)
    as (_ & Hr & Hc). rewrite !apply_subst.
  apply compat_teq; [done|by apply (ok_subst (ok := fun t => record_free t = true))..].
Qed.

Lemma unify_sound_witness :
  let t1 := TApp (TVar (TypeVar_new 0 None)) (ty_builtin I32) in
  let t2 := Type_list (TVar (TypeVar_new 1 None)) in
  exists s, unify 9 t1 t2 = Some (Ok s) /\ apply s t1 ≈ apply s t2.
Proof.
  intros t1 t2. eexists. split; [vm_compute; reflexivity|].
  apply (unify_sound 9 t1 t2); vm_compute; reflexivity.
Defined.

(** On types with records in which no type variable is applied, a successful
    [unify] returns a substitution under which the two types are compatible:
    equal up to the names of variables and the coercion between a record of
    [a]-typed fields and [Dict a]. *)
Theorem unify_sound_records n t1 t2 s :
  no_var_app t1 = true -> no_var_app t2 = true ->
  unify n t1 t2 = Some (Ok s) -> compat (apply s t1) (apply s t2).
Proof.
  intros H1 H2 Hs. rewrite !apply_subst.
  by apply (unify_solves (ok := fun t => no_var_app t = true) n t1 t2 s H1 H2 Hs).
Qed.

Lemma unify_sound_records_witness :
  let t1 := TRecord [("a", ty_builtin I32); ("b", TVar (TypeVar_new 0 None))] in
  let t2 := Type_dict (TVar (TypeVar_new 1 None)) in
  exists s, unify 9 t1 t2 = Some (Ok s) /\ compat (apply s t1) (apply s t2).
Proof.
  intros t1 t2. eexists. split; [vm_compute; reflexivity|].
  apply (unify_sound_records 9 t1 t2); vm_compute; reflexivity.
Defined.

(** The answer of [unify] binds only variables of the two types, never to a
    type that mentions a bound variable, so applying it twice is applying it
    once. *)
Theorem unify_idempotent n t1 t2 s t :
  record_free t1 && record_free t2 || no_var_app t1 && no_var_app t2 = true ->
  unify n t1 t2 = Some (Ok s) ->
  dom s ⊆ ftv t1 ∪ ftv t2 /\ apply s (apply s t) = apply s t.
Proof.
  intros Hok Hs. rewrite !apply_subst, !ftv_vars.
  assert (wf (vars t1 ∪ vars t2) s) as Hw.
  { apply orb_true_iff in Hok as [[H1 H2]%andb_true_iff|[H1 H2]%andb_true_iff].
    - by destruct (unify_solves (ok := fun t => record_free t = true) n t1 t2 s H1 H2 Hs).
    - by destruct (unify_solves (ok := fun t => no_var_app t = true) n t1 t2 s H1 H2 Hs). }
  split; [|by eapply wf_idem]. intros x [u Hu]%elem_of_dom. by destruct (Hw x u Hu).
Qed.

Lemma unify_idempotent_witness :
  let t1 := TApp (TVar (TypeVar_new 0 None)) (ty_builtin I32) in
  let t2 := Type_list (TVar (TypeVar_new 1 None)) in
  exists s, unify 9 t1 t2 = Some (Ok s) /\ dom s ⊆ ftv t1 ∪ ftv t2 /\ apply s (apply s t1) = apply s t1.
Proof.
  intros t1 t2. eexists. split; [vm_compute; reflexivity|].
  apply (unify_idempotent 9 t1 t2 _ t1); vm_compute; reflexivity.
Defined.

(** [compose_subst a b] is "apply [b], then [a]", as its comment says, when
    no variable is bound by both. *)
Theorem compose_subst_spec a b t :
  dom a ## dom b -> apply (compose_subst a b) t = apply a (apply b t).
Proof. rewrite !apply_subst. apply compose_subst_disjoint. Qed.

Lemma compose_subst_spec_witness :
  let a := {[ 1 := ty_builtin I32 ]} in
  let b := {[ 0 := Type_list (TVar (TypeVar_new 1 None)) ]} in
  let t := TVar (TypeVar_new 0 None) in
  dom a ## dom b /\ apply (compose_subst a b) t = apply a (apply b t).
Proof.
  intros a b t. assert (dom a ## dom b) as H.
  { unfold a, b. rewrite !dom_singleton. set_solver. }
  split; [exact H|]. exact (compose_subst_spec a b t H).
Defined.

(** Without that condition the comment's equation fails: the bindings of [a]
    replace those of [b] instead of being applied to them. *)
Lemma compose_subst_overlap :
  exists a b t, apply (compose_subst a b) t <> apply a (apply b t).
Proof.
  exists {[ 0 := ty_builtin I32 ]}, {[ 0 := ty_builtin Bool ]}, (TVar (TypeVar_new 0 None)).
  vm_compute. discriminate.
Qed.

(** A record against an application of a type variable is resolved
    incorrectly: the variable is bound to [Dict] and then bound again by the
    fields. Here [{x: f i32, y: List i32}] "unifies" with [f a], and the result
    makes the second type [List (List i32)], which no record is compatible with. *)
Theorem unify_var_head_unsound :
  let f := TVar (TypeVar_new 0 None) in
  let a := TVar (TypeVar_new 1 None) in
  let t1 := TRecord [("x", TApp f (ty_builtin I32)); ("y", Type_list (ty_builtin I32))] in
  let t2 := TApp f a in
  exists s, unify 9 t1 t2 = Some (Ok s) /\
    apply s t2 = Type_list (Type_list (ty_builtin I32)) /\
    ~ compat (apply s t1) (apply s t2).
Proof.
  intros f a t1 t2. eexists. split; [vm_compute; reflexivity|].
  split; [vm_compute; reflexivity|]. intros H. vm_compute in H. inversion H.
Qed.
