(* ===== verification/UnifyComplete.v ===== *)
(** Completeness and termination of the pure unifier ([Unify]): on types without
    records it finds a most general unifier whenever one exists, and on all
    types it terminates. *)

From Stdlib Require Import ConstructiveEpsilon.
From S2P Require Import Prelude Span Types Unify.

#[local] Arguments bind : simpl never.
#[local] Arguments mismatch : simpl never.
#[local] Arguments ty_size : simpl nomatch.

(** * Most general unifiers *)

(** [u] factors through [s]: applying [s] first does not change what [u] does. *)
Definition absorbs (u s : Subst) : Prop := forall t, subst u (subst s t) ≈ subst u t.

Lemma teq_list ts1 ts2 : TTuple ts1 ≈ TTuple ts2 <-> map erase ts1 = map erase ts2.
Proof. unfold teq; simpl. split; congruence. Qed.

Lemma absorbs_pointwise u s :
  (forall tv, subst u (subst s (TVar tv)) ≈ subst u (TVar tv)) -> absorbs u s.
Proof.
  intros Hs t. unfold teq.
  induction t as [tv|c|l r IHl IHr|a b IHa IHb|ts IH|fs IH] using ty_ind'; simpl;
    rewrite ?map_map; try congruence.
  - apply Hs.
  - f_equal. by apply map_ext_Forall.
  - f_equal. apply map_ext_Forall. apply (Forall_impl _ _ _ IH). intros f Hf. simpl. by rewrite Hf.
Qed.

Lemma absorbs_empty u : absorbs u ∅.
Proof. intros t. by rewrite subst_empty. Qed.

Lemma absorbs_compose u s s0 :
  (forall t, subst (compose_subst s s0) t = subst s (subst s0 t)) ->
  absorbs u s -> absorbs u s0 -> absorbs u (compose_subst s s0).
Proof. intros Hc Hs H0 t. rewrite Hc. rewrite (Hs _). apply H0. Qed.

Lemma erase_size t : ty_size (erase t) = ty_size t.
Proof.
  induction t as [tv|c|l r IHl IHr|a b IHa IHb|ts IH|fs IH] using ty_ind'; simpl; try lia.
  - rewrite sum_list_with_map. f_equal. induction IH; simpl; lia.
  - rewrite sum_list_with_map. f_equal. simpl. induction IH; simpl; lia.
Qed.

Lemma sum_list_with_elem {A} (f : A -> nat) l x : x ∈ l -> f x <= sum_list_with f l.
Proof. induction 1; simpl; lia. Qed.

(** A variable is smaller, under any substitution, than a type it occurs in. *)
Lemma occurs_size u tv t :
  tv_id tv ∈ vars t ->
  ty_size (subst u (TVar tv)) <= ty_size (subst u t) /\
  ((forall v, t <> TVar v) -> ty_size (subst u (TVar tv)) < ty_size (subst u t)).
Proof.
  induction t as [tv'|c|l r IHl IHr|a b IHa IHb|ts IH|fs IH] using ty_ind'; simpl vars; intros Hx.
  - apply elem_of_singleton in Hx. split; [|intros H; by destruct (H tv')].
    simpl. rewrite Hx. by destruct (u !! tv_id tv').
  - set_solver.
  - simpl. apply elem_of_union in Hx as [?%IHl|?%IHr]; simpl in *; lia.
  - simpl. apply elem_of_union in Hx as [?%IHa|?%IHb]; simpl in *; lia.
  - apply union_list_elem in Hx as (t & Ht & Hx). rewrite Forall_forall in IH.
    destruct (IH t Ht Hx) as [H _]. simpl in *. rewrite sum_list_with_map.
    pose proof (sum_list_with_elem (fun t => ty_size (subst u t)) ts t Ht). simpl in *. lia.
  - apply union_list_elem in Hx as (f & Hf & Hx). rewrite Forall_forall in IH.
    destruct (IH f Hf Hx) as [H _]. simpl in *. rewrite sum_list_with_map.
    pose proof (sum_list_with_elem (fun f => ty_size (subst u f.2)) fs f Hf). simpl in *. lia.
Qed.

Lemma bind_complete u tv t :
  subst u (TVar tv) ≈ subst u t -> exists s, bind tv t = Ok s /\ absorbs u s.
Proof.
  intros Hu.
  assert ((exists v, t = TVar v /\ tv_id v = tv_id tv) \/ tv_id tv ∉ vars t) as Hcase.
  { destruct (decide (tv_id tv ∈ vars t)) as [Hin|]; [|by right]. left.
    destruct (occurs_size u tv t Hin) as [_ Hlt].
    assert (ty_size (subst u (TVar tv)) = ty_size (subst u t)) as Heq.
    { rewrite <- (erase_size (subst u (TVar tv))), <- (erase_size (subst u t)). by rewrite Hu. }
    destruct t as [v| | | | |]; try (exfalso; assert (ty_size (subst u (TVar tv)) < _) by
      (apply Hlt; by intros ?); simpl in *; lia).
    exists v. simpl in Hin. set_solver. }
  destruct Hcase as [(v & -> & Hid)|Hn].
  - exists ∅. unfold bind. rewrite decide_True by done. split; [done|apply absorbs_empty].
  - exists {[tv_id tv := t]}. split.
    + unfold bind. rewrite ftv_vars. destruct t; rewrite ?decide_False; try done.
      simpl in Hn. set_solver.
    + apply absorbs_pointwise. intros v. simpl.
      destruct (decide (tv_id tv = tv_id v)) as [E|E].
      * rewrite <- E, lookup_singleton_eq. simpl. rewrite <- Hu. simpl. rewrite E.
        unfold teq. destruct (u !! tv_id v); simpl; congruence.
      * by rewrite lookup_singleton_ne by done.
Qed.

Abbreviation rf := (fun t => record_free t = true).

(** [u] is a unifier of the equations [ps]. *)
Definition unifies (u : Subst) (ps : list (ty * ty)) : Prop :=
  forall p, p ∈ ps -> (rf p.1 /\ rf p.2) /\ subst u p.1 ≈ subst u p.2.

Section Complete.
Variable rec : ty -> ty -> fueled TypeError Subst.
Variable u : Subst.
Hypothesis rec_solves : forall a b s,
  rf a -> rf b -> rec a b = Some (Ok s) -> solves rf a b s.
Hypothesis rec_complete : forall a b r,
  rf a -> rf b -> subst u a ≈ subst u b -> rec a b = Some r -> exists s, r = Ok s /\ absorbs u s.

Lemma elems_complete V ps : forall s r,
  unifies u ps -> eqs_in rf V ps -> wf V s -> ok_range rf s -> absorbs u s ->
  unify_elems rec ps s = Some r -> exists s', r = Ok s' /\ absorbs u s'.
Proof using rec_solves rec_complete.
  induction ps as [|[a b] ps IH]; intros s r Hu Hin Hw Hr Ha; simpl.
  { intros [= <-]. eauto. }
  rewrite !apply_subst. destruct (Hu (a, b)) as [[Hfa Hfb] Hab]; [by left|].
  destruct (Hin (a, b)) as [_ HV]; [by left|]. simpl in *.
  assert (subst u (subst s a) ≈ subst u (subst s b)) as Hab' by by rewrite (Ha a), (Ha b).
  assert (rf (subst s a) /\ rf (subst s b)) as [Hsa Hsb].
  { split; by apply (ok_subst (ok := rf)). }
  intros [(e & He & ->)|(sn & Hn & Hrest)]%fbind_Some.
  { by apply rec_complete in He as (? & ? & ?). }
  pose proof (rec_step rf rec rec_solves V a b s sn Hw Hr Hfa Hfb HV Hn) as (Hnw & Hnr & _).
  destruct (wf_compose V sn s Hw Hnw) as [Hcw Hcs].
  apply rec_complete in Hn as (? & [= <-] & Hna); try done.
  eapply IH; [| |done| | |exact Hrest].
  - intros p Hp. apply Hu. by right.
  - intros p Hp. apply Hin. by right.
  - by apply (ok_range_compose (ok := rf)).
  - by apply absorbs_compose.
Qed.

Lemma unify_body_complete t1 t2 r :
  rf t1 -> rf t2 -> subst u t1 ≈ subst u t2 -> unify_body rec t1 t2 = Some r ->
  exists s, r = Ok s /\ absorbs u s.
Proof using rec_solves rec_complete.
  assert (forall ps r, unifies u ps -> unify_elems rec ps ∅ = Some r ->
    exists s, r = Ok s /\ absorbs u s) as Helems.
  { intros ps r' Hps. apply (elems_complete (⋃ (map (fun p => vars p.1 ∪ vars p.2) ps)));
      [done| |apply wf_empty|apply ok_range_empty|apply absorbs_empty].
    intros p Hp. split; [by apply Hps|]. intros x Hx. rewrite union_list_elem. eauto. }
  assert (forall tv t, subst u (TVar tv) ≈ subst u t -> lift (bind tv t) = Some r ->
    exists s, r = Ok s /\ absorbs u s) as Hvar.
  { intros tv t (s & Hb & Ha)%bind_complete [= <-]. eauto. }
  intros H1 H2 Hu. destruct t1 as [tv|c|l r1|a b|ts|fs], t2 as [tv'|c'|l' r1'|a' b'|ts'|fs'];
    try (by simpl in H1); try (by simpl in H2); try (by apply Hvar);
    try (symmetry in Hu; by apply Hvar); try (by unfold teq in Hu; simpl in Hu); simpl.
  - case_decide as Hc; [intros [= <-]; eauto using absorbs_empty|].
    unfold teq in Hu; simpl in Hu. congruence.
  - rewrite unify_pair. apply Helems. simpl in H1, H2. rewrite !andb_true_iff in *.
    unfold teq in Hu; simpl in Hu. injection Hu as Hl Hr'.
    intros p [->|[->|[]%not_elem_of_nil]%elem_of_cons]%elem_of_cons; simpl; naive_solver.
  - rewrite unify_pair. apply Helems. simpl in H1, H2. rewrite !andb_true_iff in *.
    unfold teq in Hu; simpl in Hu. injection Hu as Hl Hr'.
    intros p [->|[->|[]%not_elem_of_nil]%elem_of_cons]%elem_of_cons; simpl; naive_solver.
  - simpl in H1, H2. rewrite forallb_elem in H1, H2.
    unfold teq in Hu; simpl in Hu. injection Hu as Hu. rewrite !map_map in Hu.
    case_decide as Hlen.
    + apply Helems. intros [t t'] Hp. simpl.
      pose proof (elem_of_zip_l _ _ _ _ Hp). pose proof (elem_of_zip_r _ _ _ _ Hp).
      split; [auto|]. exact (zip_map_eq _ _ _ _ Hu _ Hp).
    + destruct Hlen. apply (f_equal length) in Hu. by rewrite !length_map in Hu.
Qed.
End Complete.

Lemma unify_complete_absorbs n u : forall t1 t2 r,
  rf t1 -> rf t2 -> subst u t1 ≈ subst u t2 -> unify n t1 t2 = Some r ->
  exists s, r = Ok s /\ absorbs u s.
Proof.
  induction n as [|n IH]; intros t1 t2 r H1 H2 Hu; [done|]. simpl.
  apply unify_body_complete; try done. intros a b s Ha Hb.
  by apply (unify_solves (ok := rf)).
Qed.

(** * More fuel, same answer *)

Definition le_rec (rec rec' : ty -> ty -> fueled TypeError Subst) : Prop :=
  forall a b r, rec a b = Some r -> rec' a b = Some r.

Section Mono.
Context (rec rec' : ty -> ty -> fueled TypeError Subst) (Hle : le_rec rec rec').

Ltac step :=
  let He := fresh "He" in let Hk := fresh "Hk" in
  intros [(? & He & ->)|(? & He & Hk)]%fbind_Some; apply Hle in He; rewrite He;
  [done|simpl; clear He; revert Hk].

Lemma unify_elems_mono ps s r :
  unify_elems rec ps s = Some r -> unify_elems rec' ps s = Some r.
Proof using Hle. revert s. induction ps as [|[a b] ps IH]; intros s; simpl; [done|]. step. auto. Qed.

Lemma unify_fields_mono fs s r :
  unify_fields rec fs s = Some r -> unify_fields rec' fs s = Some r.
Proof using Hle.
  revert s. induction fs as [|[[n1 t1] [n2 t2]] fs IH]; intros s; simpl; [done|].
  case_decide; [|done]. step. auto.
Qed.

Lemma elem_type_loop_mono fs s cur r :
  elem_type_loop rec fs s cur = Some r -> elem_type_loop rec' fs s cur = Some r.
Proof using Hle. revert s cur. induction fs as [|[n t] fs IH]; intros s cur; simpl; [done|]. step. auto. Qed.

Lemma record_elem_type_mono fs r :
  record_elem_type rec fs = Some r -> record_elem_type rec' fs = Some r.
Proof using Hle. destruct fs as [|[]]; simpl; [done|apply elem_type_loop_mono]. Qed.

Lemma record_arg_mono fields arg (k : Subst -> Subst -> fueled TypeError Subst) r :
  (let! (sf, e) := record_elem_type rec fields in let! sa := rec (apply sf arg) e in k sa sf) = Some r ->
  (let! (sf, e) := record_elem_type rec' fields in let! sa := rec' (apply sf arg) e in k sa sf) = Some r.
Proof using Hle.
  intros [(e & He & ->)|([sf e] & He & Hk)]%fbind_Some; apply record_elem_type_mono in He;
    rewrite He; simpl; [done|]. revert Hk. step. done.
Qed.

Lemma unify_body_mono : le_rec (unify_body rec) (unify_body rec').
Proof using Hle.
  intros t1 t2 r. destruct t1 as [|c|[] ?| |?|?], t2 as [|c'|[] ?| |?|?];
    simpl; try done; rewrite ?unify_pair; try apply unify_elems_mono;
    repeat (case_match; try done); try apply record_arg_mono;
    try apply unify_elems_mono; try apply unify_fields_mono; try done.
  all: intros [(e & He & ->)|(sh & Hh & Hk)]%fbind_Some; [by rewrite He|rewrite Hh; simpl].
  all: by apply (record_arg_mono _ _ (fun sa sf => fret (compose_subst sa (compose_subst sf sh)))) in Hk.
Qed.
End Mono.

Lemma unify_mono n m : n <= m -> le_rec (unify n) (unify m).
Proof.
  revert m. induction n as [|n IH]; intros m Hnm; [by intros ???|].
  destruct m as [|m]; [lia|]. simpl. apply unify_body_mono, IH. lia.
Qed.

(** * Termination, on all types *)

(** [eliminates s x]: [s] removes the variable [x] from every type. *)
Definition eliminates (s : Subst) (x : TypeVarId) : Prop := forall t, x ∉ vars (subst s t).

(** What every answer of [unify] satisfies, records against applied variables
    included: it stays within the variables [V] of the problem, and unless it is
    empty it removes one of them for good. *)
Definition progress (V : gset TypeVarId) (s : Subst) : Prop :=
  (forall x u, s !! x = Some u -> x ∈ V /\ vars u ⊆ V) /\
  (s = ∅ \/ exists x, x ∈ V /\ eliminates s x).

Lemma progress_empty V : progress V ∅.
Proof. split; [|by left]. intros x u. by rewrite lookup_empty. Qed.

Lemma progress_mono V1 V2 s : V1 ⊆ V2 -> progress V1 s -> progress V2 s.
Proof. intros HV [H1 H2]. split; [|set_solver]. intros x u Hu. destruct (H1 x u Hu). set_solver. Qed.

Lemma progress_vars V s t : progress V s -> vars t ⊆ V -> vars (subst s t) ⊆ V.
Proof.
  intros [H _] Ht x (y & Hy & Hx)%elem_of_vars_subst.
  destruct (s !! y) as [u|] eqn:E; [|set_solver]. destruct (H y u E). set_solver.
Qed.

Lemma eliminates_iff s x :
  eliminates s x <-> is_Some (s !! x) /\ forall y u, s !! y = Some u -> x ∉ vars u.
Proof.
  split.
  - intros H. split.
    + specialize (H (TVar (TypeVar_new x None))). simpl in H.
      destruct (s !! x); [by eauto|]. simpl in H. set_solver.
    + intros y u Hy. specialize (H (TVar (TypeVar_new y None))). simpl in H. by rewrite Hy in H.
  - intros [[w Hw] H] t (y & Hy & Hx)%elem_of_vars_subst.
    destruct (s !! y) as [u|] eqn:E; [by eapply H|]. congruence.
Qed.

Lemma progress_compose V a b : progress V a -> progress V b -> progress V (compose_subst a b).
Proof.
  intros Ha Hb. split.
  - intros x u. rewrite lookup_compose. destruct (a !! x) eqn:Ea.
    + intros [= <-]. by apply Ha.
    + intros (w & Hw & ->)%fmap_Some. destruct (proj1 Hb x w Hw).
      split; [done|]. by apply progress_vars.
  - destruct Ha as [_ [->|(x & Hx & He)]].
    { destruct Hb as [_ Hb]. unfold compose_subst, subst_is_empty. by rewrite bool_decide_true. }
    right. exists x. split; [done|]. apply eliminates_iff in He as He'.
    destruct He' as [[w Hw] Hr]. apply eliminates_iff. split.
    + rewrite lookup_compose, Hw. eauto.
    + intros y u. rewrite lookup_compose. destruct (a !! y) eqn:Ey.
      * intros [= <-]. by eapply Hr.
      * intros (v & Hv & ->)%fmap_Some. apply He.
Qed.

Lemma progress_bind tv t s : bind tv t = Ok s -> progress ({[tv_id tv]} ∪ vars t) s.
Proof.
  intros [(v & -> & Hid & ->)|[Hn ->]]%bind_cases; [apply progress_empty|]. split.
  - intros x u [<- <-]%lookup_singleton_Some. set_solver.
  - right. exists (tv_id tv). split; [set_solver|]. apply eliminates_iff.
    rewrite lookup_singleton_eq. split; [eauto|]. by intros y u [<- <-]%lookup_singleton_Some.
Qed.

#[local] Hint Resolve progress_empty progress_compose : rex.

Section Progress.
Variable rec : ty -> ty -> fueled TypeError Subst.
Variable V : gset TypeVarId.
Hypothesis rec_progress : forall a b s,
  rec a b = Some (Ok s) -> progress (vars a ∪ vars b) s.

Lemma rec_progress_in a b s :
  vars a ⊆ V -> vars b ⊆ V -> rec a b = Some (Ok s) -> progress V s.
Proof using rec_progress. intros Ha Hb H. eapply progress_mono; [|by apply rec_progress]. set_solver. Qed.

Lemma elems_progress ps : forall s s',
  (forall p, p ∈ ps -> vars p.1 ∪ vars p.2 ⊆ V) -> progress V s ->
  unify_elems rec ps s = Some (Ok s') -> progress V s'.
Proof using rec_progress.
  induction ps as [|[a b] ps IH]; intros s s' HV Hs; simpl; [by intros [= <-]|].
  rewrite !apply_subst. intros (sn & Hn & Hrest)%fbind_Ok.
  assert (vars a ∪ vars b ⊆ V) by (apply (HV (a, b)); by left).
  apply rec_progress_in in Hn; [|apply progress_vars; [done|set_solver]..].
  eapply IH; [..|exact Hrest]; [|by apply progress_compose]. intros p Hp. apply HV. by right.
Qed.

Lemma elem_type_loop_progress fs : forall s cur s' e,
  (forall f, f ∈ fs -> vars f.2 ⊆ V) -> vars cur ⊆ V -> progress V s ->
  elem_type_loop rec fs s cur = Some (Ok (s', e)) -> progress V s' /\ vars e ⊆ V.
Proof using rec_progress.
  induction fs as [|[n t] fs IH]; intros s cur s' e HV Hcur Hs; simpl.
  { intros [= <- <-]. rewrite apply_subst. split; [done|]. by apply progress_vars. }
  rewrite !apply_subst. intros (sn & Hn & Hrest)%fbind_Ok.
  assert (vars t ⊆ V) by (apply (HV (n, t)); by left).
  apply rec_progress_in in Hn; [|by apply progress_vars..].
  rewrite apply_subst in Hrest. eapply IH; [..|exact Hrest].
  - intros f Hf. apply HV. by right.
  - apply progress_vars; auto with rex.
  - auto with rex.
Qed.

Lemma record_elem_type_progress fields s' e :
  vars (TRecord fields) ⊆ V ->
  record_elem_type rec fields = Some (Ok (s', e)) -> progress V s' /\ vars e ⊆ V.
Proof using rec_progress.
  intros HV. destruct fields as [|[n first] rest]; simpl; [done|].
  apply elem_type_loop_progress; simpl in HV; [|set_solver|apply progress_empty].
  intros f Hf x Hx. apply HV, elem_of_union. right. apply union_list_elem. eauto.
Qed.

Lemma record_arg_progress fields arg sh s :
  vars (TRecord fields) ⊆ V -> vars arg ⊆ V -> progress V sh ->
  (let! (sf, e) := record_elem_type rec fields in
   let! sa := rec (apply sf arg) e in
   fret (compose_subst sa (compose_subst sf sh))) = Some (Ok s) -> progress V s.
Proof using rec_progress.
  intros HV Ha Hsh ([sf e] & He & (sa & Hsa & [= <-])%fbind_Ok)%fbind_Ok.
  apply record_elem_type_progress in He as [??]; [|done].
  rewrite apply_subst in Hsa. apply rec_progress_in in Hsa; auto using progress_vars with rex.
Qed.
End Progress.

Lemma zip_vars_tuple ts ts' p :
  p ∈ zip ts ts' -> vars p.1 ∪ vars p.2 ⊆ vars (TTuple ts) ∪ vars (TTuple ts').
Proof.
  destruct p as [t t']. intros Hp x. pose proof (elem_of_zip_l _ _ _ _ Hp).
  pose proof (elem_of_zip_r _ _ _ _ Hp). simpl.
  rewrite !elem_of_union, !union_list_elem. naive_solver.
Qed.

Lemma zip_vars_record (fs fs' : list (Symbol * ty)) p :
  p ∈ zip fs fs' -> vars p.1.2 ∪ vars p.2.2 ⊆ vars (TRecord fs) ∪ vars (TRecord fs').
Proof.
  destruct p as [f f']. intros Hp x. pose proof (elem_of_zip_l _ _ _ _ Hp).
  pose proof (elem_of_zip_r _ _ _ _ Hp). simpl.
  rewrite !elem_of_union, !union_list_elem. naive_solver.
Qed.

Lemma compose_empty_r s : compose_subst s ∅ = s.
Proof. apply map_eq; intros x. rewrite lookup_compose, lookup_empty. by destruct (s !! x). Qed.

(** The record-against-application cases of [unify_body], as one equation. *)
Lemma record_app_cases rec fields head arg t1 t2 r :
  match head with
  | TCon c =>
      if is_builtin c Dict then
        let! (sf, e) := record_elem_type rec fields in
        let! sa := rec (apply sf arg) e in fret (compose_subst sa sf)
      else mismatch t1 t2
  | TVar tv =>
      let! sh := lift (bind tv (ty_builtin Dict)) in
      let arg := apply sh arg in
      let! (sf, e) := record_elem_type rec fields in
      let! sa := rec (apply sf arg) e in fret (compose_subst sa (compose_subst sf sh))
  | _ => mismatch t1 t2
  end = r ->
  r = mismatch t1 t2 \/
  exists sh, (sh = ∅ \/ exists tv, head = TVar tv /\ sh = {[tv_id tv := ty_builtin Dict]}) /\
    r = let! (sf, e) := record_elem_type rec fields in
        let! sa := rec (apply sf (subst sh arg)) e in
        fret (compose_subst sa (compose_subst sf sh)).
Proof.
  destruct head as [tv|c| | | |]; intros <-; auto.
  - right. exists {[tv_id tv := ty_builtin Dict]}. split; [eauto|].
    unfold bind, ty_builtin. rewrite ftv_vars. rewrite decide_False by (simpl; set_solver).
    simpl. by rewrite apply_subst.
  - destruct (is_builtin c Dict); auto. right. exists ∅. split; [auto|].
    destruct (record_elem_type rec fields) as [[[sf e]|]|]; simpl; try done.
    by rewrite subst_empty, compose_empty_r.
Qed.

Lemma unify_body_progress rec t1 t2 s :
  (forall a b s, rec a b = Some (Ok s) -> progress (vars a ∪ vars b) s) ->
  unify_body rec t1 t2 = Some (Ok s) -> progress (vars t1 ∪ vars t2) s.
Proof.
  intros Hrec.
  assert (forall tv t, lift (bind tv t) = Some (Ok s) -> progress (vars (TVar tv) ∪ vars t) s) as Hvar.
  { intros tv t [= Hb]. by apply progress_bind. }
  assert (forall tv t, lift (bind tv t) = Some (Ok s) -> progress (vars t ∪ vars (TVar tv)) s) as Hvar'.
  { intros tv t Hb. rewrite (comm_L union). by apply Hvar. }
  assert (forall V fields head arg sh,
    vars (TRecord fields) ⊆ V -> vars (TApp head arg) ⊆ V ->
    (sh = ∅ \/ exists tv, head = TVar tv /\ sh = {[tv_id tv := ty_builtin Dict]}) ->
    (let! (sf, e) := record_elem_type rec fields in
     let! sa := rec (apply sf (subst sh arg)) e in
     fret (compose_subst sa (compose_subst sf sh))) = Some (Ok s) -> progress V s) as Happ.
  { intros V fields head arg sh HV Ha Hsh. simpl in Ha.
    assert (progress V sh) as Hps.
    { destruct Hsh as [->|(tv & -> & ->)]; [apply progress_empty|]. simpl in Ha. split.
      - intros x u [<- <-]%lookup_singleton_Some. set_solver.
      - right. exists (tv_id tv). split; [set_solver|]. apply eliminates_iff.
        rewrite lookup_singleton_eq. split; [eauto|]. by intros y u [<- <-]%lookup_singleton_Some. }
    apply record_arg_progress; auto. apply progress_vars; [done|set_solver]. }
  destruct t1 as [tv|c|l r1|a b|ts|fs], t2 as [tv'|c'|l' r1'|a' b'|ts'|fs'];
    try done; try apply Hvar; try apply Hvar'; simpl unify_body.
  - case_decide; [|done]. intros [= <-]. apply progress_empty.
  - rewrite unify_pair. apply elems_progress; [done| |apply progress_empty].
    intros p [->|[->|[]%not_elem_of_nil]%elem_of_cons]%elem_of_cons; simpl; set_solver.
  - intros Hr. apply record_app_cases in Hr as [Hr|(sh & Hsh & Hr)]; [done|].
    symmetry in Hr. revert Hr. apply (Happ _ _ l); [set_solver..|done].
  - rewrite unify_pair. apply elems_progress; [done| |apply progress_empty].
    intros p [->|[->|[]%not_elem_of_nil]%elem_of_cons]%elem_of_cons; simpl; set_solver.
  - case_decide; [|done]. apply elems_progress; [done|apply zip_vars_tuple|apply progress_empty].
  - intros Hr. apply record_app_cases in Hr as [Hr|(sh & Hsh & Hr)]; [done|].
    symmetry in Hr. revert Hr. apply (Happ _ _ l'); [set_solver..|done].
  - case_decide; [|done]. intros [Hs _]%unify_fields_elems. revert Hs.
    apply elems_progress; [done| |apply progress_empty].
    intros p (q & -> & Hq)%list_elem_of_fmap. by apply zip_vars_record.
Qed.

Lemma unify_progress n : forall t1 t2 s,
  unify n t1 t2 = Some (Ok s) -> progress (vars t1 ∪ vars t2) s.
Proof.
  induction n as [|n IH]; intros t1 t2 s; [done|]. simpl. by apply unify_body_progress.
Qed.

(** [halts m]: the fuelled computation [m] has an answer once the fuel is large. *)
Definition halts {A} (m : nat -> fueled TypeError A) : Prop := exists n r, m n = Some r.

Definition monotone {A} (m : nat -> fueled TypeError A) : Prop :=
  forall n n' r, n <= n' -> m n = Some r -> m n' = Some r.

Lemma halts_ret {A} (r : result TypeError A) : halts (fun _ => Some r).
Proof. by exists 0, r. Qed.

Lemma halts_bind {A B} (m : nat -> fueled TypeError A) (k : nat -> A -> fueled TypeError B) :
  monotone m -> (forall a, monotone (fun n => k n a)) -> halts m ->
  (forall n a, m n = Some (Ok a) -> halts (fun n => k n a)) ->
  halts (fun n => let! a := m n in k n a).
Proof.
  intros Hm Hk (n1 & [a|e] & H1) Hk'; [|exists n1, (Err e); by rewrite H1].
  destruct (Hk' n1 a H1) as (n2 & r & H2). exists (max n1 n2), r.
  rewrite (Hm n1 _ (Ok a)) by (done || lia). simpl. by apply (Hk a n2); [lia|].
Qed.

Lemma monotone_unify t1 t2 : monotone (fun n => unify n t1 t2).
Proof. intros n n' r Hn. by apply unify_mono. Qed.

Lemma monotone_bind {A B} (m : nat -> fueled TypeError A) (k : nat -> A -> fueled TypeError B) :
  monotone m -> (forall a, monotone (fun n => k n a)) ->
  monotone (fun n => let! a := m n in k n a).
Proof.
  intros Hm Hk n n' r Hn [(e & He & ->)|(a & Ha & Hr)]%fbind_Some.
  - by rewrite (Hm _ _ _ Hn He).
  - rewrite (Hm _ _ _ Hn Ha). simpl. by apply (Hk a n).
Qed.

Lemma monotone_ret {A} (r : fueled TypeError A) : monotone (fun _ => r).
Proof. by intros n n' r'. Qed.

Lemma monotone_elems ps s : monotone (fun n => unify_elems (unify n) ps s).
Proof. intros n n' r Hn. by apply unify_elems_mono, unify_mono. Qed.

Lemma monotone_fields fs s : monotone (fun n => unify_fields (unify n) fs s).
Proof. intros n n' r Hn. by apply unify_fields_mono, unify_mono. Qed.

Lemma monotone_elem_loop fs s cur : monotone (fun n => elem_type_loop (unify n) fs s cur).
Proof. intros n n' r Hn. by apply elem_type_loop_mono, unify_mono. Qed.

#[local] Hint Resolve monotone_unify monotone_bind monotone_ret monotone_elems
  monotone_fields monotone_elem_loop : rex.

Abbreviation unify_halts a b := (halts (fun n => unify n a b)).

Section Termination.
(** The problem at hand: its variables [V] and a bound [K] on its size. *)
Variable V : gset TypeVarId.
Variable K : nat.
Hypothesis fewer_vars : forall a b, size (vars a ∪ vars b) < size V -> unify_halts a b.
Hypothesis smaller : forall a b,
  vars a ∪ vars b ⊆ V -> ty_size a + ty_size b < K -> unify_halts a b.

(** A recursive call on types under the current substitution [s]: either [s] is
    still empty and the types are smaller, or a variable has gone. *)
Lemma call_halts s a b :
  progress V s -> vars a ⊆ V -> vars b ⊆ V -> ty_size a + ty_size b < K ->
  unify_halts (subst s a) (subst s b).
Proof using fewer_vars smaller.
  intros Hs Ha Hb HK. destruct (proj2 Hs) as [->|(x & Hx & He)].
  - rewrite !subst_empty. apply smaller; [set_solver|done].
  - apply fewer_vars. apply subset_size.
    pose proof (progress_vars V s a Hs Ha). pose proof (progress_vars V s b Hs Hb).
    pose proof (He a). pose proof (He b). set_solver.
Qed.

Lemma answer_progress n a b s :
  vars a ⊆ V -> vars b ⊆ V -> unify n a b = Some (Ok s) -> progress V s.
Proof using Type.
  clear fewer_vars smaller K. intros. eapply progress_mono; [|by eapply unify_progress]. set_solver.
Qed.

Lemma elems_halt ps : forall s,
  (forall p, p ∈ ps -> vars p.1 ∪ vars p.2 ⊆ V /\ ty_size p.1 + ty_size p.2 < K) ->
  progress V s -> halts (fun n => unify_elems (unify n) ps s).
Proof using fewer_vars smaller.
  induction ps as [|[a b] ps IH]; intros s Hps Hs; simpl; [apply halts_ret|].
  destruct (Hps (a, b)) as [HV HK]; [by left|]. simpl in *.
  apply halts_bind; auto with rex; rewrite !apply_subst.
  - apply call_halts; [done|set_solver|set_solver|done].
  - intros n sn Hn. apply IH; [intros p Hp; apply Hps; by right|].
    apply progress_compose; [|done].
    apply answer_progress in Hn; [done|apply progress_vars; [done|set_solver]..].
Qed.

Lemma fields_halt fs : forall s,
  (forall p, p ∈ fs -> vars p.1.2 ∪ vars p.2.2 ⊆ V /\ ty_size p.1.2 + ty_size p.2.2 < K) ->
  progress V s -> halts (fun n => unify_fields (unify n) fs s).
Proof using fewer_vars smaller.
  induction fs as [|[[n1 t1] [n2 t2]] fs IH]; intros s Hfs Hs; simpl; [apply halts_ret|].
  case_decide; [|apply halts_ret].
  destruct (Hfs ((n1, t1), (n2, t2))) as [HV HK]; [by left|]. simpl in *.
  apply halts_bind; auto with rex; rewrite !apply_subst.
  - apply call_halts; [done|set_solver|set_solver|done].
  - intros n sn Hn. apply IH; [intros p Hp; apply Hfs; by right|].
    apply progress_compose; [|done].
    apply answer_progress in Hn; [done|apply progress_vars; [done|set_solver]..].
Qed.

(** [cur] is [first] until the substitution binds something. *)
Definition current_ok (first : ty) (s : Subst) (cur : ty) : Prop :=
  vars cur ⊆ V /\ (s = ∅ -> cur = first).

Lemma current_halts first s cur t :
  current_ok first s cur -> progress V s -> vars first ⊆ V -> vars t ⊆ V ->
  ty_size first + ty_size t < K ->
  unify_halts (subst s cur) (subst s t) /\ unify_halts (subst s t) (subst s cur).
Proof using fewer_vars smaller.
  intros [Hc Hf] Hs HVf HVt HK. destruct (decide (s = ∅)) as [Hs0|Hs0].
  - rewrite Hf by done. split; apply call_halts; (done || lia).
  - destruct (proj2 Hs) as [->|(x & Hx & He)]; [done|].
    pose proof (progress_vars V s cur Hs Hc). pose proof (progress_vars V s t Hs HVt).
    pose proof (He cur). pose proof (He t).
    split; apply fewer_vars, subset_size; set_solver.
Qed.

Lemma current_step first s cur :
  current_ok first s cur -> progress V s -> forall sn, progress V sn ->
  current_ok first (compose_subst sn s) (subst (compose_subst sn s) cur).
Proof using Type.
  clear fewer_vars smaller K. intros [Hc Hf] Hs sn Hn. split; [by apply progress_vars; [apply progress_compose|]|].
  intros He. rewrite He, subst_empty. apply Hf. apply map_eq. intros x.
  pose proof (f_equal (lookup x) He) as Hx. rewrite lookup_compose, lookup_empty in Hx.
  rewrite lookup_empty. destruct (sn !! x), (s !! x); done.
Qed.

Lemma elem_type_loop_halts first fs : forall s cur,
  vars first ⊆ V ->
  (forall f, f ∈ fs -> vars f.2 ⊆ V /\ ty_size first + ty_size f.2 < K) ->
  current_ok first s cur -> progress V s ->
  halts (fun n => elem_type_loop (unify n) fs s cur).
Proof using fewer_vars smaller.
  induction fs as [|[n t] fs IH]; intros s cur HVf Hfs Hc Hs; simpl; [apply halts_ret|].
  destruct (Hfs (n, t)) as [HV HK]; [by left|]. simpl in *.
  apply halts_bind; auto with rex; rewrite !apply_subst.
  - by apply (current_halts first s cur t).
  - intros m sn Hn. destruct Hc as [Hc1 Hc2].
    apply answer_progress in Hn; [|by apply progress_vars..].
    rewrite apply_subst. apply IH; auto with rex.
    + intros f Hf. apply Hfs. by right.
    + by apply current_step.
Qed.

Lemma elem_type_loop_answer n first fs : forall s cur sf e,
  (forall f, f ∈ fs -> vars f.2 ⊆ V) -> current_ok first s cur -> progress V s ->
  elem_type_loop (unify n) fs s cur = Some (Ok (sf, e)) ->
  progress V sf /\ exists cur', current_ok first sf cur' /\ e = subst sf cur'.
Proof using Type.
  clear fewer_vars smaller K.
  induction fs as [|[m t] fs IH]; intros s cur sf e Hfs Hc Hs; simpl.
  { intros [= <- <-]. rewrite apply_subst. eauto. }
  rewrite !apply_subst. intros (sn & Hn & Hrest)%fbind_Ok. rewrite apply_subst in Hrest.
  assert (vars t ⊆ V) by (apply (Hfs (m, t)); by left).
  apply answer_progress in Hn; [|apply progress_vars; [done|by apply Hc]|by apply progress_vars].
  eapply IH; [..|exact Hrest]; auto with rex.
  - intros f Hf. apply Hfs. by right.
  - by apply current_step.
Qed.

Lemma record_arg_halts fields arg sh :
  vars (TRecord fields) ∪ vars arg ⊆ V -> ty_size (TRecord fields) + ty_size arg < K ->
  progress V sh ->
  halts (fun n => let! (sf, e) := record_elem_type (unify n) fields in
                  let! sa := unify n (apply sf arg) e in
                  fret (compose_subst sa (compose_subst sf sh))).
Proof using fewer_vars smaller.
  intros HV HK Hsh. destruct fields as [|[m first] rest]; simpl; [apply halts_ret|].
  assert (vars first ⊆ V) as HVf by (simpl in HV; set_solver).
  assert (forall f, f ∈ rest -> vars f.2 ⊆ V /\ ty_size first + ty_size f.2 < K) as Hrest.
  { intros f Hf. split.
    - intros x Hx. apply HV. simpl. rewrite !elem_of_union, union_list_elem. eauto.
    - pose proof (sum_list_with_elem (fun f => ty_size f.2) rest f Hf). simpl in *. lia. }
  assert (current_ok first ∅ first) as Hc0 by (split; done).
  apply halts_bind.
  - apply monotone_elem_loop.
  - intros [sf e]. auto with rex.
  - by eapply elem_type_loop_halts; auto with rex.
  - intros n [sf e] He.
    apply (elem_type_loop_answer _ first) in He as (Hsf & cur & Hcur & ->); auto with rex;
      [|by intros f ?; apply Hrest].
    apply halts_bind; auto with rex.
    + rewrite apply_subst. apply (current_halts first sf cur arg); auto;
        [set_solver|simpl in HK; lia].
    + intros k sa _. apply halts_ret.
Qed.
End Termination.

Lemma singleton_con_size id c t : ty_size (subst {[id := TCon c]} t) = ty_size t.
Proof.
  induction t as [tv|c'|l r IHl IHr|a b IHa IHb|ts IH|fs IH] using ty_ind'; simpl; try lia.
  - destruct (decide (id = tv_id tv)) as [->|].
    + by rewrite lookup_singleton_eq.
    + by rewrite lookup_singleton_ne.
  - rewrite sum_list_with_map. f_equal. induction IH; simpl; lia.
  - rewrite sum_list_with_map. f_equal. simpl. induction IH; simpl; lia.
Qed.

Lemma halts_S (m m' : nat -> fueled TypeError Subst) :
  (forall n, m (S n) = m' n) -> halts m' -> halts m.
Proof. intros Heq (n & r & H). exists (S n), r. by rewrite Heq. Qed.

Lemma head_progress V head arg sh :
  vars (TApp head arg) ⊆ V ->
  (sh = ∅ \/ exists tv, head = TVar tv /\ sh = {[tv_id tv := ty_builtin Dict]}) ->
  progress V sh /\ vars (subst sh arg) ⊆ V /\ ty_size (subst sh arg) = ty_size arg.
Proof.
  simpl. intros HV Hsh.
  assert (progress V sh) as Hp.
  { destruct Hsh as [->|(tv & -> & ->)]; [apply progress_empty|].
    eapply progress_mono; [|apply (progress_bind tv (ty_builtin Dict))].
    - simpl in *. set_solver.
    - unfold bind. simpl. rewrite ftv_vars, decide_False; [done|]. simpl. set_solver. }
  split; [done|]. split; [apply progress_vars; [done|set_solver]|].
  destruct Hsh as [->|(tv & -> & ->)]; [by rewrite subst_empty|apply singleton_con_size].
Qed.

Section Body.
Variable V : gset TypeVarId.
Variable K : nat.
Hypothesis fewer_vars : forall a b, size (vars a ∪ vars b) < size V -> unify_halts a b.
Hypothesis smaller : forall a b,
  vars a ∪ vars b ⊆ V -> ty_size a + ty_size b < K -> unify_halts a b.

Lemma record_app_halts fields head arg :
  vars (TRecord fields) ∪ vars (TApp head arg) ⊆ V ->
  ty_size (TRecord fields) + ty_size (TApp head arg) <= K ->
  unify_halts (TRecord fields) (TApp head arg) /\ unify_halts (TApp head arg) (TRecord fields).
Proof using fewer_vars smaller.
  intros HV HK.
  assert (forall sh,
    (sh = ∅ \/ exists tv, head = TVar tv /\ sh = {[tv_id tv := ty_builtin Dict]}) ->
    halts (fun n => let! (sf, e) := record_elem_type (unify n) fields in
                    let! sa := unify n (apply sf (subst sh arg)) e in
                    fret (compose_subst sa (compose_subst sf sh)))) as H.
  { intros sh Hsh. destruct (head_progress V head arg sh) as (Hp & Hva & Hsz); [set_solver|done|].
    apply (record_arg_halts V K); try done; [set_solver|]. simpl in *. lia. }
  split.
  - apply (halts_S _ (fun n => unify_body (unify n) (TRecord fields) (TApp head arg))); [done|].
    destruct head as [tv|c| | | |]; simpl; try apply halts_ret.
    + unfold bind, ty_builtin. rewrite ftv_vars, decide_False by (simpl; set_solver). simpl.
      rewrite apply_subst. apply H. eauto.
    + destruct (is_builtin c Dict); [|apply halts_ret].
      destruct (H ∅) as (n & r & Hr); [by left|]. exists n, r. rewrite <- Hr.
      destruct (record_elem_type _ _) as [[[]|]|]; simpl; try done.
      by rewrite subst_empty, compose_empty_r.
  - apply (halts_S _ (fun n => unify_body (unify n) (TApp head arg) (TRecord fields))); [done|].
    destruct head as [tv|c| | | |]; simpl; try apply halts_ret.
    + unfold bind, ty_builtin. rewrite ftv_vars, decide_False by (simpl; set_solver). simpl.
      rewrite apply_subst. apply H. eauto.
    + destruct (is_builtin c Dict); [|apply halts_ret].
      destruct (H ∅) as (n & r & Hr); [by left|]. exists n, r. rewrite <- Hr.
      destruct (record_elem_type _ _) as [[[]|]|]; simpl; try done.
      by rewrite subst_empty, compose_empty_r.
Qed.

Lemma unify_halts_step t1 t2 :
  vars t1 ∪ vars t2 ⊆ V -> ty_size t1 + ty_size t2 <= K -> unify_halts t1 t2.
Proof using fewer_vars smaller.
  intros HV HK.
  assert (forall a1 b1 a2 b2, vars (TFun a1 b1) ∪ vars (TFun a2 b2) ⊆ V ->
    ty_size (TFun a1 b1) + ty_size (TFun a2 b2) <= K ->
    halts (fun n => unify_elems (unify n) [(a1, a2); (b1, b2)] ∅)) as Hpair.
  { intros a1 b1 a2 b2 HVp HKp. simpl in HVp, HKp. apply (elems_halt V K); auto with rex.
    intros p [->|[->|[]%not_elem_of_nil]%elem_of_cons]%elem_of_cons; simpl;
      (split; [set_solver|lia]). }
  destruct t1 as [tv|c|l r1|a b|ts|fs], t2 as [tv'|c'|l' r1'|a' b'|ts'|fs'];
    try (apply record_app_halts; done || (simpl in *; lia));
    try (apply (record_app_halts fs'); [set_solver|simpl in *; lia]);
    (eapply halts_S; [intros n; simpl; reflexivity|]); try apply halts_ret.
  - case_decide; apply halts_ret.
  - destruct (Hpair l r1 l' r1' HV HK) as (n & r & H). exists n, r. by rewrite unify_pair.
  - destruct (Hpair a b a' b' HV HK) as (n & r & H). exists n, r. by rewrite unify_pair.
  - case_decide; [|apply halts_ret]. apply (elems_halt V K); auto with rex.
    intros [t t'] Hp. split; [etrans; [by eapply zip_vars_tuple|done]|].
    pose proof (sum_list_with_elem ty_size ts t (elem_of_zip_l _ _ _ _ Hp)).
    pose proof (sum_list_with_elem ty_size ts' t' (elem_of_zip_r _ _ _ _ Hp)).
    simpl in *. lia.
  - case_decide; [|apply halts_ret]. apply (fields_halt V K); auto with rex.
    intros [f f'] Hp. split; [etrans; [by eapply zip_vars_record|done]|].
    pose proof (sum_list_with_elem (fun f => ty_size f.2) fs f (elem_of_zip_l _ _ _ _ Hp)).
    pose proof (sum_list_with_elem (fun f => ty_size f.2) fs' f' (elem_of_zip_r _ _ _ _ Hp)).
    simpl in *. lia.
Qed.
End Body.

Lemma unify_halts_all t1 t2 : unify_halts t1 t2.
Proof.
  remember (size (vars t1 ∪ vars t2)) as N eqn:HN. revert t1 t2 HN.
  induction (lt_wf N) as [N _ IHN]. intros t1 t2 HN.
  remember (vars t1 ∪ vars t2) as V eqn:HV.
  assert (forall K a b, vars a ∪ vars b ⊆ V -> ty_size a + ty_size b <= K -> unify_halts a b) as H.
  { induction K as [|K IHK]; intros a b Hab HK.
    - pose proof (ty_size_pos a). lia.
    - apply (unify_halts_step V (S K)); try done.
      + intros c d Hcd. eapply IHN; [|reflexivity]. lia.
      + intros c d ? ?. apply IHK; [done|lia]. }
  apply (H (ty_size t1 + ty_size t2)); [set_solver|done].
Qed.

(** * The properties *)

(** C18. [unify] terminates on every pair of types: some amount of fuel gives an
    answer, a substitution or an error, and every larger amount gives the same. *)
Theorem unify_terminates t1 t2 :
  exists n r, forall m, n <= m -> unify m t1 t2 = Some r.
Proof.
  destruct (unify_halts_all t1 t2) as (n & r & H). exists n, r.
  intros m Hm. by apply (unify_mono n m Hm).
Qed.

(** C17. On types without records [unify] is complete and most general: if some
    substitution [u] makes the types equal up to names, then with enough fuel
    [unify] succeeds, and [u] factors through its answer. *)
Theorem unify_most_general t1 t2 u :
  record_free t1 = true -> record_free t2 = true -> apply u t1 ≈ apply u t2 ->
  exists n s, (forall m, n <= m -> unify m t1 t2 = Some (Ok s)) /\
    forall t, apply u (apply s t) ≈ apply u t.
Proof.
  rewrite !apply_subst. intros H1 H2 Hu. destruct (unify_halts_all t1 t2) as (n & r & H).
  destruct (unify_complete_absorbs n u t1 t2 r H1 H2 Hu H) as (s & -> & Ha).
  exists n, s. split; [intros m Hm; by apply (unify_mono n m Hm)|].
  intros t. rewrite !apply_subst. apply Ha.
Qed.

Lemma unify_most_general_witness :
  let t1 := TApp (TVar (TypeVar_new 0 None)) (TVar (TypeVar_new 2 None)) in
  let t2 := Type_list (TVar (TypeVar_new 1 None)) in
  exists n s, (forall m, n <= m -> unify m t1 t2 = Some (Ok s)) /\
    forall t, apply {[0 := ty_builtin List; 1 := ty_builtin I32; 2 := ty_builtin I32]} (apply s t)
      ≈ apply {[0 := ty_builtin List; 1 := ty_builtin I32; 2 := ty_builtin I32]} t.
Proof. intros t1 t2. apply (unify_most_general t1 t2); vm_compute; reflexivity. Defined.

(** * The unifier as a total function *)

(** Fuel that is enough in practice; beyond it, the least that is enough is searched. *)
Definition unify_depth : nat := 2000.

Definition answers (t1 t2 : ty) (n : nat) : Prop := is_Some (unify n t1 t2).

Definition answers_dec t1 t2 n : {answers t1 t2 n} + {~ answers t1 t2 n} := decide (answers t1 t2 n).

Lemma answers_some t1 t2 : exists n, answers t1 t2 n.
Proof. destruct (unify_halts_all t1 t2) as (n & r & H). exists n. by exists r. Qed.

Definition searched_fuel (t1 t2 : ty) : nat :=
  proj1_sig (constructive_indefinite_ground_description_nat _ (answers_dec t1 t2) (answers_some t1 t2)).

(** [unify] of the code. *)
Definition unify_types (t1 t2 : ty) : result TypeError Subst :=
  match unify unify_depth t1 t2 with
  | Some r => r
  | None => match unify (searched_fuel t1 t2) t1 t2 with Some r => r | None => Ok ∅ end
  end.

Lemma unify_types_spec t1 t2 : exists n, forall m, n <= m -> unify m t1 t2 = Some (unify_types t1 t2).
Proof.
  unfold unify_types. destruct (unify unify_depth t1 t2) as [r|] eqn:Hd.
  - exists unify_depth. intros m Hm. by apply (unify_mono unify_depth m Hm).
  - unfold searched_fuel. destruct (constructive_indefinite_ground_description_nat _ _ _) as [n [r Hn]]. simpl.
    rewrite Hn. exists n. intros m Hm. by apply (unify_mono n m Hm).
Qed.

(** The answers of [unify] with fuel are the answers of [unify_types]. *)
Lemma unify_types_iff t1 t2 r : (exists n, unify n t1 t2 = Some r) <-> unify_types t1 t2 = r.
Proof.
  destruct (unify_types_spec t1 t2) as [n Hn]. split.
  - intros [m Hm]. specialize (Hn (n + m) ltac:(lia)).
    rewrite (unify_mono m (n + m) ltac:(lia) _ _ _ Hm) in Hn. by simplify_eq.
  - intros <-. exists n. by apply Hn.
Qed.

Example unify_types_example :
  unify_types (TFun (TVar (TypeVar_new 0 None)) (TVar (TypeVar_new 0 None))) (TFun (ty_builtin I32) (TVar (TypeVar_new 1 None)))
  = Ok (<[0 := ty_builtin I32]> {[1 := ty_builtin I32]}).
Proof. reflexivity. Qed.
