(* ===== verification/Unifier.v ===== *)
(** The in-place unifier that type inference runs on: [Unifier] of
    [rex-typesystem/src/unification.rs].

    Its state is a dense vector of bindings. [prune] replaces the bound variables
    of a type and writes the pruned types back (path compression); [occurs] and
    [unify] are written on top of it. The recursion is on fuel.

    [closure_of st σ] says that [st] stands for the substitution [σ]. Under it
    [prune] is [apply σ], and [unify] refines the pure [Unify.unify] on the pruned
    types: the same errors, and on success the composed substitution. *)

From S2P Require Import Prelude Types Unify UnifyComplete.

(** * A state and error monad with fuel *)

Definition stateful (S A : Type) : Type := S -> option (result TypeError A * S).

Definition rret {S A} (a : A) : stateful S A := fun s => Some (Ok a, s).
Definition rthrow {S A} (e : TypeError) : stateful S A := fun s => Some (Err e, s).
Definition rthen {S A B} (m : stateful S A) (k : A -> stateful S B) : stateful S B :=
  fun s =>
    match m s with
    | None => None
    | Some (Ok a, s) => k a s
    | Some (Err e, s) => Some (Err e, s)
    end.
Definition no_fuel {S A} : stateful S A := fun _ => None.

Notation "'let~' x ':=' m 'in' k" := (rthen m (fun x => k))
  (at level 10, x pattern, m at level 100, k at level 200) : rex_scope.

Fixpoint run_map {S A B} (f : A -> stateful S B) (l : list A) : stateful S (list B) :=
  match l with
  | [] => rret []
  | x :: l =>
      let~ y := f x in
      let~ ys := run_map f l in
      rret (y :: ys)
  end.

Fixpoint run_iter {S A} (f : A -> stateful S unit) (l : list A) : stateful S unit :=
  match l with
  | [] => rret tt
  | x :: l => let~ _ := f x in run_iter f l
  end.

(** [iter().any(f)]: stops at the first element that holds. *)
Fixpoint run_any {S A} (f : A -> stateful S bool) (l : list A) : stateful S bool :=
  match l with
  | [] => rret false
  | x :: l => let~ b := f x in if b : bool then rret true else run_any f l
  end.

(** [a || b]. *)
Definition run_or {S} (a b : stateful S bool) : stateful S bool :=
  let~ x := a in if x : bool then rret true else b.

(** * The unifier *)

Record Unifier : Type := mkUnifier {
  subs : list (option ty);
  max_infer_depth : option nat;
  infer_depth : nat
}.

Definition Unifier_new (max_infer_depth : option nat) : Unifier := mkUnifier [] max_infer_depth 0.

Definition set_subs (f : list (option ty) -> list (option ty)) (u : Unifier) : Unifier :=
  mkUnifier (f (subs u)) (max_infer_depth u) (infer_depth u).
Definition set_depth (f : nat -> nat) (u : Unifier) : Unifier :=
  mkUnifier (subs u) (max_infer_depth u) (f (infer_depth u)).

(** [with_infer_depth]: the depth is counted around the call, whether it fails
    or not. *)
Definition with_infer_depth {A} (span : Span.Span) (f : stateful Unifier A) : stateful Unifier A :=
  fun u =>
    match max_infer_depth u with
    | Some max =>
        if max <=? infer_depth u
        then Some (Err (Spanned span (Internal ("maximum inference depth exceeded (max "
                                                +:+ pretty max +:+ ")"))), u)
        else match f (set_depth S u) with
             | Some (res, u) => Some (res, set_depth pred u)
             | None => None
             end
    | None =>
        match f (set_depth S u) with
        | Some (res, u) => Some (res, set_depth pred u)
        | None => None
        end
    end.

(** [Vec::resize] with [None], for a longer length. *)
Definition grow (len : nat) (l : list (option ty)) : list (option ty) :=
  l ++ replicate (len - length l) None.

Definition bind_var (id : TypeVarId) (t : ty) : stateful Unifier unit :=
  fun u => Some (Ok tt, set_subs (fun l =>
    let l := if length l <=? id then grow (id + 1) l else l in
    <[id := Some t]> l) u).

(** [self.subs.get(id).and_then(|t| t.clone())]. *)
Definition bound (id : TypeVarId) : stateful Unifier (option ty) :=
  fun u => Some (Ok (mjoin (subs u !! id)), u).

Fixpoint prune (fuel : nat) (t : ty) : stateful Unifier ty :=
  match fuel with
  | O => no_fuel
  | S fuel =>
      match t with
      | TVar tv =>
          let~ bound := bound (tv_id tv) in
          match bound with
          | Some bound =>
              let~ pruned := prune fuel bound in
              let~ _ := bind_var (tv_id tv) pruned in
              rret pruned
          | None => rret t
          end
      | TCon _ => rret t
      | TApp l r =>
          let~ l := prune fuel l in
          let~ r := prune fuel r in
          rret (TApp l r)
      | TFun a b =>
          let~ a := prune fuel a in
          let~ b := prune fuel b in
          rret (TFun a b)
      | TTuple ts =>
          let~ ts := run_map (prune fuel) ts in
          rret (TTuple ts)
      | TRecord fields =>
          let~ fields := run_map (fun f => let~ t := prune fuel f.2 in rret (f.1, t)) fields in
          rret (TRecord fields)
      end
  end.

Definition apply_type (fuel : nat) (t : ty) : stateful Unifier ty := prune fuel t.

Fixpoint occurs (fuel : nat) (id : TypeVarId) (t : ty) : stateful Unifier bool :=
  match fuel with
  | O => no_fuel
  | S fuel =>
      let~ t := prune fuel t in
      match t with
      | TVar tv => rret (bool_decide (tv_id tv = id))
      | TCon _ => rret false
      | TApp l r => run_or (occurs fuel id l) (occurs fuel id r)
      | TFun a b => run_or (occurs fuel id a) (occurs fuel id b)
      | TTuple ts => run_any (occurs fuel id) ts
      | TRecord fields => run_any (fun f => occurs fuel id f.2) fields
      end
  end.

Definition clash {A} (t1 t2 : ty) : stateful Unifier A :=
  rthrow (Unification (show_ty t1) (show_ty t2)).

Section UnifierBody.
Variable fuel : nat.
Variable rec : ty -> ty -> stateful Unifier unit.

Definition record_elem_type_unifier (fields : list (Symbol * ty)) : stateful Unifier ty :=
  match fields with
  | [] => rthrow (UnsupportedExpr "empty record")
  | (_, first) :: rest =>
      let~ _ := run_iter (fun f => rec first f.2) rest in
      apply_type fuel first
  end.

(** The arm of a variable against [other]. *)
Definition unify_var (tv : TypeVar) (other : ty) : stateful Unifier unit :=
  let~ occ := occurs fuel (tv_id tv) other in
  if occ : bool then rthrow (Occurs (tv_id tv) (show_ty other)) else bind_var (tv_id tv) other.

(** The arms of [unify], on two pruned types, in the source's order. *)
Definition unify_arms (t1 t2 : ty) : stateful Unifier unit :=
  match t1, t2 with
  | TVar a, TVar b =>
      if decide (tv_id a = tv_id b) then rret tt else unify_var a t2
  | TVar tv, other | other, TVar tv => unify_var tv other
  | TCon c1, TCon c2 => if decide (c1 = c2) then rret tt else clash t1 t2
  | TApp l1 r1, TApp l2 r2 => let~ _ := rec l1 l2 in rec r1 r2
  | TFun a1 b1, TFun a2 b2 => let~ _ := rec a1 a2 in rec b1 b2
  | TTuple ts1, TTuple ts2 =>
      if decide (length ts1 = length ts2)
      then run_iter (fun p => rec p.1 p.2) (zip ts1 ts2)
      else clash t1 t2
  | TRecord f1, TRecord f2 =>
      if decide (length f1 = length f2)
      then run_iter (fun p => if decide (p.1.1 = p.2.1) then rec p.1.2 p.2.2 else clash p.1.2 p.2.2)
             (zip f1 f2)
      else clash t1 t2
  | TRecord fields, TApp head arg | TApp head arg, TRecord fields =>
      match head with
      | TCon c =>
          if is_builtin c Dict then
            let~ elem_ty := record_elem_type_unifier fields in
            rec arg elem_ty
          else clash t1 t2
      | TVar tv =>
          let~ _ := rec (TVar tv) (ty_builtin Dict) in
          let~ elem_ty := record_elem_type_unifier fields in
          rec arg elem_ty
      | _ => clash t1 t2
      end
  | _, _ => clash t1 t2
  end.
End UnifierBody.

Fixpoint unifier_unify (fuel : nat) (t1 t2 : ty) : stateful Unifier unit :=
  match fuel with
  | O => no_fuel
  | S fuel =>
      let~ t1 := prune fuel t1 in
      let~ t2 := prune fuel t2 in
      unify_arms fuel (unifier_unify fuel) t1 t2
  end.

(** [into_subst]: the loop over the identifiers below the length of the vector. *)
Fixpoint into_subst_loop (fuel : nat) (ids : list TypeVarId) (out : Subst) : stateful Unifier Subst :=
  match ids with
  | [] => rret out
  | id :: ids =>
      let~ bound := bound id in
      match bound with
      | Some t =>
          let~ pruned := prune fuel t in
          into_subst_loop fuel ids (<[id := pruned]> out)
      | None => into_subst_loop fuel ids out
      end
  end.

Definition into_subst (fuel : nat) : stateful Unifier Subst :=
  fun u => into_subst_loop fuel (seq 0 (length (subs u))) ∅ u.

Example unifier_unify_example :
  (let~ _ := unifier_unify 9 (TFun (TVar (TypeVar_new 0 None)) (TVar (TypeVar_new 1 None)))
               (TFun (TVar (TypeVar_new 1 None)) (ty_builtin I32)) in
   into_subst 9) (Unifier_new None)
  = Some (Ok {[ 0 := ty_builtin I32; 1 := ty_builtin I32 ]},
          mkUnifier [Some (TVar (TypeVar_new 1 None)); Some (ty_builtin I32)] None 0).
Proof. vm_compute. reflexivity. Qed.

(** * Runs with enough fuel *)

(** [steps m st r st']: with enough fuel [m] answers [r] and ends in [st']. *)
Definition steps {S A} (m : nat -> stateful S A) (st : S) (r : result TypeError A) (st' : S) : Prop :=
  exists N, forall n, N <= n -> m n st = Some (r, st').

Section Steps.
Context {S : Type}.

Lemma steps_ret {A} (a : A) (st : S) : steps (fun _ => rret a) st (Ok a) st.
Proof. by exists 0. Qed.

Lemma steps_throw {A} e (st : S) : steps (fun _ => rthrow (A := A) e) st (Err e) st.
Proof. by exists 0. Qed.

Lemma steps_then {A B} (m : nat -> stateful S A) (k : nat -> A -> stateful S B) st a st1 r st2 :
  steps m st (Ok a) st1 -> steps (fun n => k n a) st1 r st2 ->
  steps (fun n => let~ a := m n in k n a) st r st2.
Proof.
  intros [N1 H1] [N2 H2]. exists (N1 + N2). intros n Hn. unfold rthen.
  rewrite H1 by lia. apply H2. lia.
Qed.

Lemma steps_then_err {A B} (m : nat -> stateful S A) (k : nat -> A -> stateful S B) st e st1 :
  steps m st (Err e) st1 -> steps (fun n => let~ a := m n in k n a) st (Err e) st1.
Proof. intros [N1 H1]. exists N1. intros n Hn. unfold rthen. by rewrite H1 by lia. Qed.

Lemma steps_S {A} (m m' : nat -> stateful S A) st r st' :
  (forall n, m (Datatypes.S n) = m' n) -> steps m' st r st' -> steps m st r st'.
Proof.
  intros Hm [N HN]. exists (Datatypes.S N). intros [|n] Hn; [lia|]. rewrite Hm. apply HN. lia.
Qed.
End Steps.

(** * The substitution a state stands for *)

Definition binding (st : Unifier) (id : TypeVarId) : option ty := mjoin (subs st !! id).

(** [rank] decreases from a bound variable to the bound variables of its type. *)
Definition ranked (rank : TypeVarId -> nat) (st : Unifier) (σ : Subst) : Prop :=
  forall id t y, binding st id = Some t -> y ∈ vars t -> is_Some (σ !! y) -> rank y < rank id.

(** The bindings are acyclic, and [σ] is their closure. *)
Record closure_of (st : Unifier) (σ : Subst) : Prop := {
  closure_none id : binding st id = None -> σ !! id = None;
  closure_some id t : binding st id = Some t -> σ !! id = Some (subst σ t);
  closure_rank : exists rank, ranked rank st σ
}.

(** No variable of [t] is bound. *)
Definition unbound (σ : Subst) (t : ty) : Prop := forall y, y ∈ vars t -> σ !! y = None.

Definition same_depth (st st' : Unifier) : Prop :=
  max_infer_depth st' = max_infer_depth st /\ infer_depth st' = infer_depth st.

#[global] Instance same_depth_preorder : PreOrder same_depth.
Proof. split; [done|]. intros ??? [??] [??]. split; congruence. Qed.

Lemma closure_bound st σ id u :
  closure_of st σ -> σ !! id = Some u -> exists t, binding st id = Some t /\ u = subst σ t.
Proof.
  intros Hc Hid. destruct (binding st id) as [t|] eqn:E.
  - exists t. split; [done|]. apply (closure_some _ _ Hc) in E. congruence.
  - apply (closure_none _ _ Hc) in E. congruence.
Qed.

Lemma closure_unbound st σ t : closure_of st σ -> unbound σ (subst σ t).
Proof.
  intros Hc. destruct (closure_rank _ _ Hc) as [rank Hrank].
  assert (forall k id u, rank id < k -> σ !! id = Some u -> unbound σ u) as Hb.
  { induction k as [|k IH]; [lia|]. intros id u Hk Hu.
    destruct (closure_bound _ _ _ _ Hc Hu) as (t' & Ht' & ->).
    intros y (x & Hx & Hy)%elem_of_vars_subst.
    destruct (σ !! x) as [w|] eqn:Ex; [|by subst].
    refine (IH x w _ Ex y Hy). specialize (Hrank id t' x Ht' Hx ltac:(eauto)). lia. }
  intros y (x & Hx & Hy)%elem_of_vars_subst.
  destruct (σ !! x) as [w|] eqn:Ex; [|by subst].
  exact (Hb (S (rank x)) x w ltac:(lia) Ex y Hy).
Qed.

Lemma unbound_subst σ t : unbound σ t -> subst σ t = t.
Proof.
  intros Hu. apply subst_disjoint. intros y Hy [u Hd]%elem_of_dom. rewrite (Hu y Hy) in Hd. done.
Qed.

Lemma closure_idem st σ t : closure_of st σ -> subst σ (subst σ t) = subst σ t.
Proof. intros Hc. by eapply unbound_subst, closure_unbound. Qed.

Lemma closure_new max : closure_of (Unifier_new max) ∅.
Proof.
  split; unfold binding; simpl; [by intros; rewrite lookup_empty|done|].
  exists (fun _ => 0). done.
Qed.

(** ** Writing a binding *)

Definition bound_state (id : TypeVarId) (t : ty) (st : Unifier) : Unifier :=
  set_subs (fun l => <[id := Some t]> (if length l <=? id then grow (id + 1) l else l)) st.

Lemma bind_var_run id t st : bind_var id t st = Some (Ok tt, bound_state id t st).
Proof. done. Qed.

Lemma lookup_grow len l i : length l < len -> mjoin (grow len l !! i) = mjoin (l !! i).
Proof.
  intros Hl. unfold grow. destruct (decide (i < length l)).
  - by rewrite lookup_app_l.
  - rewrite lookup_app_r by lia. rewrite (lookup_ge_None_2 l i) by lia.
    destruct (replicate _ _ !! _) as [o|] eqn:E; [|done].
    apply lookup_replicate in E as [-> _]. done.
Qed.

Lemma binding_bound_state id t st y :
  binding (bound_state id t st) y = if decide (y = id) then Some t else binding st y.
Proof.
  unfold binding, bound_state, set_subs. simpl.
  set (l := if length (subs st) <=? id then _ else _).
  assert (id < length l /\ forall i, mjoin (l !! i) = mjoin (subs st !! i)) as [Hlen Hl].
  { subst l. destruct (length (subs st) <=? id) eqn:E.
    - apply Nat.leb_le in E. split; [|intros; apply lookup_grow; lia].
      unfold grow. rewrite length_app, length_replicate. lia.
    - apply Nat.leb_gt in E. done. }
  case_decide as Hy.
  - subst y. by rewrite list_lookup_insert_eq.
  - rewrite list_lookup_insert_ne by done. apply Hl.
Qed.

(** Path compression does not change the closure. *)
Lemma ranked_compress rank st σ id t :
  closure_of st σ -> ranked rank st σ -> ranked rank (bound_state id (subst σ t) st) σ.
Proof.
  intros Hc Hrank y u z. rewrite binding_bound_state. case_decide; [|apply Hrank].
  intros [= <-] Hz [w Hw]. by rewrite (closure_unbound st σ t Hc z Hz) in Hw.
Qed.

Lemma closure_compress st σ id t :
  closure_of st σ -> σ !! id = Some (subst σ t) -> closure_of (bound_state id (subst σ t) st) σ.
Proof.
  intros Hc Hid. split.
  - intros y. rewrite binding_bound_state. case_decide; [done|]. apply Hc.
  - intros y u. rewrite binding_bound_state. case_decide.
    + intros [= <-]. subst. by rewrite (closure_idem st).
    + apply Hc.
  - destruct (closure_rank _ _ Hc) as [rank Hrank]. exists rank. by apply ranked_compress.
Qed.

Lemma singleton_compose_lookup id t σ y :
  compose_subst {[id := t]} σ !! y =
    if decide (y = id) then Some t else subst {[id := t]} <$> (σ !! y).
Proof.
  rewrite lookup_compose. case_decide; subst.
  - by rewrite lookup_singleton_eq.
  - by rewrite lookup_singleton_ne.
Qed.

(** Binding a free variable composes. *)
Lemma closure_bind st σ id t :
  closure_of st σ -> σ !! id = None -> unbound σ t -> id ∉ vars t ->
  closure_of (bound_state id t st) (compose_subst {[id := t]} σ).
Proof.
  intros Hc Hid Ht Hocc.
  assert (forall u, subst (compose_subst {[id := t]} σ) u = subst {[id := t]} (subst σ u)) as Hs.
  { intros u. apply compose_subst_disjoint. rewrite dom_singleton. intros x ->%elem_of_singleton [w Hw]%elem_of_dom.
    congruence. }
  split.
  - intros y. rewrite binding_bound_state, singleton_compose_lookup. case_decide; [done|].
    intros Hy%(closure_none _ _ Hc). by rewrite Hy.
  - intros y u. rewrite binding_bound_state, singleton_compose_lookup, Hs. case_decide.
    + intros [= <-]. f_equal. rewrite (unbound_subst σ) by done. rewrite subst_disjoint; [done|].
      rewrite dom_singleton. set_solver.
    + intros Hy%(closure_some _ _ Hc). by rewrite Hy.
  - destruct (closure_rank _ _ Hc) as [rank Hrank].
    exists (fun y => if decide (y = id) then 0 else S (rank y)). intros y u z.
    rewrite binding_bound_state, singleton_compose_lookup.
    destruct (decide (y = id)) as [->|Hy], (decide (z = id)) as [->|Hz]; try lia.
    + intros [= <-] Hz. done.
    + intros [= <-] Hin [w Hw]. rewrite (Ht z Hin) in Hw. done.
    + intros Hb Hin [w [w' [Hw _]]%fmap_Some].
      specialize (Hrank y u z Hb Hin ltac:(eauto)). lia.
Qed.

(** * Pruning is substitution *)

(** [st'] is [st] with some bindings compressed. *)
Definition compressed (σ : Subst) (st st' : Unifier) : Prop :=
  closure_of st' σ /\ same_depth st st' /\ forall rank, ranked rank st σ -> ranked rank st' σ.

Lemma compressed_refl σ st : closure_of st σ -> compressed σ st st.
Proof. done. Qed.

Lemma compressed_trans σ st1 st2 st3 :
  compressed σ st1 st2 -> compressed σ st2 st3 -> compressed σ st1 st3.
Proof. intros (? & ? & ?) (? & ? & ?). split_and!; [done|by etrans|auto]. Qed.

(** [m] answers [a] in every state with closure [σ] that satisfies [I], and only
    compresses bindings. *)
Definition reads {A} (I : Unifier -> Prop) (σ : Subst) (m : nat -> stateful Unifier A) (a : A) : Prop :=
  forall st, closure_of st σ -> I st -> exists st', steps m st (Ok a) st' /\ compressed σ st st'.

Section Reads.
Context (I : Unifier -> Prop) (σ : Subst).
Hypothesis I_compressed : forall st st', compressed σ st st' -> I st -> I st'.

Lemma reads_ret {A} (a : A) : reads I σ (fun _ => rret a) a.
Proof using Type. intros st Hc _. exists st. split; [apply steps_ret|by apply compressed_refl]. Qed.

Lemma reads_then {A B} (m : nat -> stateful Unifier A) (k : nat -> A -> stateful Unifier B) a b :
  reads I σ m a -> reads I σ (fun n => k n a) b -> reads I σ (fun n => let~ a := m n in k n a) b.
Proof using I_compressed.
  intros Hm Hk st Hc HI. destruct (Hm st Hc HI) as (st1 & H1 & Hc1).
  destruct (Hk st1) as (st2 & H2 & Hc2); [by destruct Hc1|by eapply I_compressed|].
  exists st2. split; [by eapply steps_then|by eapply compressed_trans].
Qed.

Lemma reads_map {A B} (f : nat -> A -> stateful Unifier B) (g : A -> B) l :
  Forall (fun x => reads I σ (fun n => f n x) (g x)) l ->
  reads I σ (fun n => run_map (f n) l) (map g l).
Proof using I_compressed.
  induction 1 as [|x l Hx _ IH]; simpl; [apply reads_ret|].
  eapply reads_then; [done|]. eapply reads_then; [done|]. apply reads_ret.
Qed.

Lemma reads_any {A} (f : nat -> A -> stateful Unifier bool) (g : A -> bool) l :
  Forall (fun x => reads I σ (fun n => f n x) (g x)) l ->
  reads I σ (fun n => run_any (f n) l) (existsb g l).
Proof using I_compressed.
  induction 1 as [|x l Hx _ IH]; simpl; [apply reads_ret|].
  eapply reads_then; [done|]. simpl. destruct (g x); [apply reads_ret|done].
Qed.

Lemma reads_or (f1 f2 : nat -> stateful Unifier bool) b1 b2 :
  reads I σ f1 b1 -> reads I σ f2 b2 -> reads I σ (fun n => run_or (f1 n) (f2 n)) (b1 || b2).
Proof using I_compressed.
  intros H1 H2. unfold run_or. eapply reads_then; [done|]. simpl. destruct b1; [apply reads_ret|done].
Qed.

Lemma reads_S {A} (m m' : nat -> stateful Unifier A) a :
  (forall n, m (Datatypes.S n) = m' n) -> reads I σ m' a -> reads I σ m a.
Proof using Type.
  intros Hm Hr st Hc HI. destruct (Hr st Hc HI) as (st' & H & ?).
  exists st'. split; [by eapply steps_S|done].
Qed.
End Reads.

Lemma ranked_compressed rank σ st st' :
  compressed σ st st' -> ranked rank st σ -> ranked rank st' σ.
Proof. intros (_ & _ & Hr). auto. Qed.

(** A type whose bound variables have rank below [k] is pruned to its closure. *)
Lemma prune_below σ rank k : forall t,
  (forall y, y ∈ vars t -> is_Some (σ !! y) -> rank y < k) ->
  reads (fun st => ranked rank st σ) σ (fun n => prune n t) (subst σ t).
Proof.
  pose proof (ranked_compressed rank σ) as HI.
  induction k as [k IHk] using lt_wf_ind. intros t.
  induction t as [tv|c|l r IHl IHr|a b IHa IHb|ts IH|fs IH] using ty_ind'; simpl; intros Hk;
    (eapply reads_S; [intros n; simpl; reflexivity|]).
  - intros st Hc Hr. simpl. destruct (binding st (tv_id tv)) as [t|] eqn:E.
    + pose proof (closure_some _ _ Hc _ _ E) as Ht.
      assert (rank (tv_id tv) < k) as Hlt by (apply Hk; [set_solver|eauto]).
      destruct (IHk _ Hlt t (fun y Hy Hb => Hr _ t y E Hy Hb) st Hc Hr) as (st1 & H1 & Hc1).
      exists (bound_state (tv_id tv) (subst σ t) st1). rewrite Ht. simpl. split.
      * eapply steps_then with (st1 := st) (a := Some t).
        { exists 0. intros n _. unfold bound. by rewrite <- E. }
        eapply steps_then; [done|]. eapply steps_then; [|apply steps_ret].
        exists 0. intros n _. apply bind_var_run.
      * eapply compressed_trans; [done|]. destruct Hc1 as (Hc1 & _ & _).
        split_and!; [by apply closure_compress|done|]. intros r' Hr'. by apply ranked_compress.
    + pose proof (closure_none _ _ Hc _ E) as Ht. rewrite Ht. simpl.
      exists st. split; [|by apply compressed_refl].
      eapply steps_then with (st1 := st) (a := None); [|apply steps_ret].
      exists 0. intros n _. unfold bound. by rewrite <- E.
  - apply reads_ret.
  - eapply reads_then; [done|apply IHl; set_solver|]. eapply reads_then; [done|apply IHr; set_solver|].
    apply reads_ret.
  - eapply reads_then; [done|apply IHa; set_solver|]. eapply reads_then; [done|apply IHb; set_solver|].
    apply reads_ret.
  - eapply reads_then; [done|eapply (reads_map _ _ HI _ (subst σ))|apply reads_ret].
    rewrite Forall_forall in IH |- *. intros t Ht. apply IH; [done|]. intros y Hy.
    apply Hk. apply union_list_elem. eauto.
  - eapply reads_then; [done|eapply (reads_map _ _ HI _ (fun f => (f.1, subst σ f.2)))|apply reads_ret].
    rewrite Forall_forall in IH |- *. intros f Hf.
    eapply reads_then; [done| |apply reads_ret]. apply IH; [done|].
    intros y Hy. apply Hk. apply union_list_elem. eauto.
Qed.

Definition anywhere (_ : Unifier) : Prop := True.

Lemma anywhere_compressed σ st st' : compressed σ st st' -> anywhere st -> anywhere st'.
Proof. done. Qed.

Lemma prune_reads σ t : reads anywhere σ (fun n => prune n t) (subst σ t).
Proof.
  intros st Hc _. destruct (closure_rank _ _ Hc) as [rank Hr].
  set (k := S (set_fold (fun y m => rank y `max` m) 0 (vars t))).
  apply (prune_below σ rank k); [|done..]. intros y Hy _. subst k.
  enough (rank y <= set_fold (fun y m => rank y `max` m) 0 (vars t)) by lia.
  revert Hy. apply (set_fold_ind_L (fun m X => y ∈ X -> rank y <= m)); [set_solver|].
  intros x X m _ IH [->%elem_of_singleton|Hy]%elem_of_union; [lia|]. specialize (IH Hy). lia.
Qed.

(** [apply_type] is [apply] of the closure. *)
Lemma apply_type_reads σ t : reads anywhere σ (fun n => apply_type n t) (apply σ t).
Proof. rewrite apply_subst. apply prune_reads. Qed.

(** * The occurs check *)

Lemma elem_of_union_bool id (l : list (gset TypeVarId)) :
  bool_decide (id ∈ ⋃ l) = existsb (fun X => bool_decide (id ∈ X)) l.
Proof.
  induction l as [|X l IH]; simpl; [apply bool_decide_eq_false; set_solver|].
  rewrite <- IH, <- bool_decide_or. apply bool_decide_ext. set_solver.
Qed.

Lemma unbound_app σ l r : unbound σ (TApp l r) -> unbound σ l /\ unbound σ r.
Proof. unfold unbound. simpl. set_solver. Qed.
Lemma unbound_fun σ a b : unbound σ (TFun a b) -> unbound σ a /\ unbound σ b.
Proof. unfold unbound. simpl. set_solver. Qed.
Lemma unbound_tuple σ ts t : unbound σ (TTuple ts) -> t ∈ ts -> unbound σ t.
Proof. intros Hu Ht y Hy. apply Hu. simpl. apply union_list_elem. eauto. Qed.
Lemma unbound_record σ (fs : list (Symbol * ty)) f : unbound σ (TRecord fs) -> f ∈ fs -> unbound σ f.2.
Proof. intros Hu Hf y Hy. apply Hu. simpl. apply union_list_elem. eauto. Qed.

Lemma occurs_reads σ id t' : forall t, unbound σ t' -> subst σ t = t' ->
  reads anywhere σ (fun n => occurs n id t) (bool_decide (id ∈ vars t')).
Proof.
  induction t' as [tv|c|l r IHl IHr|a b IHa IHb|ts IH|fs IH] using ty_ind'; intros t Hu Ht;
    (eapply reads_S; [intros n; simpl; reflexivity|]);
    (eapply reads_then; [done|apply prune_reads|]); rewrite Ht; simpl.
  - rewrite (bool_decide_ext (id ∈ {[tv_id tv]}) (tv_id tv = id)) by set_solver. apply reads_ret.
  - rewrite bool_decide_eq_false_2 by set_solver. apply reads_ret.
  - apply unbound_app in Hu as [Hl Hr]. rewrite (bool_decide_ext _ (id ∈ vars l \/ id ∈ vars r)) by set_solver.
    rewrite bool_decide_or. apply reads_or; [done|apply IHl|apply IHr]; auto using unbound_subst.
  - apply unbound_fun in Hu as [Hl Hr]. rewrite (bool_decide_ext _ (id ∈ vars a \/ id ∈ vars b)) by set_solver.
    rewrite bool_decide_or. apply reads_or; [done|apply IHa|apply IHb]; auto using unbound_subst.
  - rewrite elem_of_union_bool, existsb_map. apply (reads_any _ _ (anywhere_compressed σ)).
    rewrite Forall_forall in IH |- *. intros t1 Ht1. pose proof (unbound_tuple _ _ _ Hu Ht1).
    apply IH; auto using unbound_subst.
  - rewrite elem_of_union_bool, existsb_map. apply (reads_any _ _ (anywhere_compressed σ)).
    rewrite Forall_forall in IH |- *. intros f Hf. pose proof (unbound_record _ _ _ Hu Hf).
    apply IH; auto using unbound_subst.
Qed.

(** * Unification *)

(** The composed substitution of a state that has been extended by [s]. *)
Lemma compose_assoc V (s1 s σ : Subst) :
  wf V s -> wf (V ∖ dom s) s1 -> compose_subst s1 (compose_subst s σ) = compose_subst (compose_subst s1 s) σ.
Proof.
  intros Hs Hs1. destruct (wf_compose V s1 s Hs Hs1) as [_ Hc]. apply map_eq. intros x.
  rewrite !lookup_compose. destruct (s1 !! x); [done|]. destruct (s !! x); simpl; [done|].
  destruct (σ !! x); simpl; [|done]. by rewrite Hc.
Qed.

Section Refine.
Context (ok : ty -> Prop) `{!Unifiable ok}.

(** The outcome [r] of the pure unifier and that of the in-place one, from a
    state with closure [σ]. *)
Definition agrees (σ : Subst) (st : Unifier) (r : result TypeError Subst)
    (r' : result TypeError unit) (st' : Unifier) : Prop :=
  same_depth st st' /\
  match r, r' with
  | Ok s, Ok _ => closure_of st' (compose_subst s σ)
  | Err e, Err e' => e = e' /\ exists σ', closure_of st' σ'
  | _, _ => False
  end.

(** [m] refines the answer [r] from every state with closure [σ]. *)
Definition refines (σ : Subst) (m : nat -> stateful Unifier unit) (r : result TypeError Subst) : Prop :=
  forall st, closure_of st σ -> exists r' st', steps m st r' st' /\ agrees σ st r r' st'.

Lemma empty_compose_l σ : compose_subst ∅ σ = σ.
Proof using Type.
  apply map_eq. intros x. rewrite lookup_compose, lookup_empty.
  destruct (σ !! x); simpl; [by rewrite subst_empty|done].
Qed.

Lemma refines_S σ (m m' : nat -> stateful Unifier unit) r :
  (forall n, m (Datatypes.S n) = m' n) -> refines σ m' r -> refines σ m r.
Proof using Type.
  intros Hm Hr st Hc. destruct (Hr st Hc) as (r' & st' & H & ?).
  exists r', st'. split; [by eapply steps_S|done].
Qed.

Lemma refines_err σ e : refines σ (fun _ => rthrow e) (Err e).
Proof using Type.
  intros st Hc. exists (Err e), st. split; [apply steps_throw|]. split; [done|].
  split; [done|]. by exists σ.
Qed.

Lemma refines_ok σ : refines σ (fun _ => rret tt) (Ok ∅).
Proof using Type.
  intros st Hc. exists (Ok tt), st. split; [apply steps_ret|]. split; [done|].
  by rewrite empty_compose_l.
Qed.

Lemma refines_reads {A} σ (m : nat -> stateful Unifier A) k a r :
  reads anywhere σ m a -> refines σ (fun n => k n a) r ->
  refines σ (fun n => let~ a := m n in k n a) r.
Proof using Type.
  intros Hm Hk st Hc. destruct (Hm st Hc I) as (st1 & H1 & Hc1 & Hd1 & _).
  destruct (Hk st1 Hc1) as (r' & st2 & H2 & Hd2 & Ha). exists r', st2.
  split; [by eapply steps_then|]. split; [by etrans|done].
Qed.

(** A variable against a type. *)
Lemma unify_var_refines σ tv other :
  σ !! tv_id tv = None -> unbound σ other -> (forall v, other = TVar v -> tv_id v <> tv_id tv) ->
  refines σ (fun n => unify_var n tv other) (bind tv other).
Proof using Type.
  intros Htv Hu Hne. unfold unify_var.
  eapply refines_reads; [by apply occurs_reads; [|apply unbound_subst]|].
  assert (bind tv other = if decide (tv_id tv ∈ vars other) then Err (Occurs (tv_id tv) (show_ty other))
                          else Ok {[tv_id tv := other]}) as ->.
  { rewrite <- ftv_vars. destruct other; try done. unfold bind. rewrite decide_False; [done|eauto]. }
  case_bool_decide; case_decide; try done; [apply refines_err|].
  intros st Hc. exists (Ok tt). eexists. split; [by exists 0; intros; apply bind_var_run|].
  split; [done|]. by apply closure_bind.
Qed.

(** The in-place computation goes on from the closure extended by [s]; the pure
    one has accumulated [s]. *)
Definition continues (σ s : Subst) (m : nat -> stateful Unifier unit) (r : result TypeError Subst) : Prop :=
  forall st, closure_of st (compose_subst s σ) ->
    exists r' st', steps m st r' st' /\ agrees σ st r r' st'.

Lemma continues_refines σ m r : continues σ ∅ m r -> refines σ m r.
Proof using Type. intros H st Hc. apply H. by rewrite empty_compose_l. Qed.

Lemma continues_ret σ s : continues σ s (fun _ => rret tt) (Ok s).
Proof using Type. intros st Hc. exists (Ok tt), st. split; [apply steps_ret|by split]. Qed.

Lemma continues_err σ s e : continues σ s (fun _ => rthrow e) (Err e).
Proof using Type.
  intros st Hc. exists (Err e), st. split; [apply steps_throw|]. split; [done|]. split; [done|].
  by eexists.
Qed.

(** What the loops keep: the equations are over [V], which [σ] leaves alone, and
    [s] solves the ones before. *)
Record solving (V : gset TypeVarId) (σ s : Subst) : Prop := {
  solving_free x : x ∈ V -> σ !! x = None;
  solving_wf : wf V s;
  solving_ok : ok_range ok s;
  solving_ok_closure : ok_range ok σ
}.

Definition in_scope (V : gset TypeVarId) (t : ty) : Prop := ok t /\ vars t ⊆ V.

Lemma solving_compose V σ s t :
  solving V σ s -> subst (compose_subst s σ) t = subst s (subst σ t).
Proof using Type.
  intros [Hf Hw _ _]. apply compose_subst_disjoint.
  intros x [u Hx]%elem_of_dom [w Hx']%elem_of_dom. destruct (Hw x u Hx) as [HV _].
  rewrite (Hf x HV) in Hx'. done.
Qed.

Lemma solving_in_scope V σ s t : solving V σ s -> in_scope V t -> subst (compose_subst s σ) t = subst s t.
Proof using Unifiable0.
  intros Hs [_ Hv]. rewrite (solving_compose V) by done. f_equal. apply unbound_subst.
  intros y Hy. apply (solving_free _ _ _ Hs). set_solver.
Qed.

Lemma in_scope_subst V σ s t : solving V σ s -> in_scope V t -> in_scope V (subst s t).
Proof using Unifiable0.
  intros Hs [Ho Hv]. split; [apply ok_subst; [done|apply Hs]|].
  intros y Hy. apply (wf_vars V) in Hy as [[?|?] _]; [set_solver|done|apply Hs].
Qed.

Section Step.
Variable n : nat.
Hypothesis IH : forall t1 t2 σ r,
  ok t1 -> ok t2 -> ok_range ok σ -> unify n (subst σ t1) (subst σ t2) = Some r ->
  refines σ (fun m => unifier_unify m t1 t2) r.

Lemma solving_step V σ s a b sn :
  solving V σ s -> in_scope V a -> in_scope V b ->
  unify n (subst s a) (subst s b) = Some (Ok sn) ->
  wf (V ∖ dom s) sn /\ solving V σ (compose_subst sn s).
Proof using IH Unifiable0.
  intros Hs [Ha HVa] [Hb HVb] Hn. pose proof Hs as [Hf Hw Ho Hoσ].
  apply (rec_step ok (unify n) (fun a b s' => unify_solves n a b s') V) in Hn as (Hnw & Hno & _);
    [|done..|set_solver].
  split; [done|]. destruct (wf_compose V sn s Hw Hnw) as [? _]. split; try done.
  by apply ok_range_compose.
Qed.

Lemma continues_unify V σ s a b k (kp : Subst -> fueled TypeError Subst) r :
  solving V σ s -> in_scope V a -> in_scope V b ->
  (forall sn, solving V σ (compose_subst sn s) -> kp sn = Some r -> continues σ (compose_subst sn s) k r) ->
  fbind (unify n (subst s a) (subst s b)) kp = Some r ->
  continues σ s (fun m => let~ _ := unifier_unify m a b in k m) r.
Proof using IH Unifiable0.
  intros Hs Ha Hb Hk Hr. pose proof Hs as [Hf Hw Ho Hoσ].
  apply fbind_Some in Hr as [(e & He & ->)|(sn & Hn & Hr)].
  - intros st Hc. rewrite <- (solving_in_scope V σ s a), <- (solving_in_scope V σ s b) in He by done.
    apply IH in He; [|by apply Ha|by apply Hb|by apply ok_range_compose].
    destruct (He st Hc) as ([[]|e'] & st' & H & Hd & Ha'); [done|]. destruct Ha' as [<- Hv].
    exists (Err e), st'. split; [by eapply steps_then_err|]. by split.
  - destruct (solving_step V σ s a b sn Hs Ha Hb Hn) as [Hnw Hsn].
    intros st Hc. rewrite <- (solving_in_scope V σ s a), <- (solving_in_scope V σ s b) in Hn by done.
    apply IH in Hn; [|by apply Ha|by apply Hb|by apply ok_range_compose].
    destruct (Hn st Hc) as ([[]|e'] & st1 & H1 & Hd1 & Ha1); [|done].
    rewrite (compose_assoc V) in Ha1 by done.
    destruct (Hk sn Hsn Hr st1 Ha1) as (r' & st2 & H2 & Hd2 & Ha2).
    exists r', st2. split; [by eapply (steps_then _ (fun m _ => k m))|]. split; [by etrans|done].
Qed.

Lemma fields_continue V σ (fs : list ((Symbol * ty) * (Symbol * ty))) : forall s r,
  solving V σ s -> (forall p, p ∈ fs -> in_scope V p.1.2 /\ in_scope V p.2.2) ->
  unify_fields (unify n) fs s = Some r ->
  continues σ s (fun m => run_iter (fun p => if decide (p.1.1 = p.2.1) then unifier_unify m p.1.2 p.2.2
                                             else clash p.1.2 p.2.2) fs) r.
Proof using IH Unifiable0.
  induction fs as [|[[n1 t1] [n2 t2]] fs IHfs]; intros s r Hs Hfs; simpl.
  { intros [= <-]. apply continues_ret. }
  destruct (Hfs ((n1, t1), (n2, t2))) as [H1 H2]; [by left|]. simpl in H1, H2.
  destruct (decide (n1 = n2)).
  - rewrite !apply_subst. apply (continues_unify V); [done..|].
    intros sn Hsn. apply IHfs; [done|]. intros p Hp. apply Hfs. by right.
  - intros [= <-]. intros st Hc. destruct (continues_err σ s (Unification (show_ty t1) (show_ty t2)) st Hc)
      as (r' & st' & H & Ha). exists r', st'. split; [|done].
    destruct r' as [|e]; [by destruct Ha|]. by apply steps_then_err.
Qed.

Definition unlabelled (p : ty * ty) : (Symbol * ty) * (Symbol * ty) := (("", p.1), ("", p.2)).

Lemma elems_unlabelled rec ps s : unify_elems rec ps s = unify_fields rec (map unlabelled ps) s.
Proof using Type.
  revert s. induction ps as [|[a b] ps IHps]; intros s; simpl; [done|].
  destruct (rec _ _) as [[]|]; simpl; auto.
Qed.

Lemma iter_unlabelled m ps :
  run_iter (fun p => unifier_unify m p.1 p.2) ps =
  run_iter (fun p => if decide (p.1.1 = p.2.1) then unifier_unify m p.1.2 p.2.2
                     else clash p.1.2 p.2.2) (map unlabelled ps).
Proof using Type. induction ps as [|p ps IHps]; simpl; [done|]. by rewrite IHps. Qed.

Lemma elems_continue V σ ps s r :
  solving V σ s -> (forall p, p ∈ ps -> in_scope V p.1 /\ in_scope V p.2) ->
  unify_elems (unify n) ps s = Some r ->
  continues σ s (fun m => run_iter (fun p => unifier_unify m p.1 p.2) ps) r.
Proof using IH Unifiable0.
  intros Hs Hps. rewrite elems_unlabelled. intros Hr st Hc.
  destruct (fields_continue V σ (map unlabelled ps) s r Hs) with (st := st)
    as (r' & st' & [N H] & Ha); [|done..|].
  { intros q (p & -> & Hp)%list_elem_of_fmap. by apply Hps. }
  exists r', st'. split; [|done]. exists N. intros m Hm. rewrite iter_unlabelled. by apply H.
Qed.

(** ** The arms *)

Lemma continues_eventually σ s (m m' : nat -> stateful Unifier unit) r :
  (forall n st, m n st = m' n st) -> continues σ s m' r -> continues σ s m r.
Proof using Type.
  intros Hm H st Hc. destruct (H st Hc) as (r' & st' & [N HN] & Ha).
  exists r', st'. split; [|done]. exists N. intros k Hk. rewrite Hm. by apply HN.
Qed.

Lemma solving_start V σ : ok_range ok σ -> (forall x, x ∈ V -> σ !! x = None) -> solving V σ ∅.
Proof using Type. intros Ho Hf. split; [done|apply wf_empty|apply ok_range_empty|done]. Qed.

Lemma elems_refine V σ ps r :
  ok_range ok σ -> (forall x, x ∈ V -> σ !! x = None) ->
  (forall p, p ∈ ps -> in_scope V p.1 /\ in_scope V p.2) ->
  unify_elems (unify n) ps ∅ = Some r ->
  refines σ (fun m => run_iter (fun p => unifier_unify m p.1 p.2) ps) r.
Proof using IH Unifiable0.
  intros Ho Hf Hps Hr. apply continues_refines. apply (elems_continue V); [|done..].
  by apply solving_start.
Qed.

(** The two components of an application or of an arrow. *)
Lemma pair_refine V σ a1 b1 a2 b2 r :
  ok_range ok σ -> (forall x, x ∈ V -> σ !! x = None) ->
  in_scope V a1 -> in_scope V b1 -> in_scope V a2 -> in_scope V b2 ->
  (let! s1 := unify n a1 a2 in
   let! s2 := unify n (apply s1 b1) (apply s1 b2) in
   fret (compose_subst s2 s1)) = Some r ->
  refines σ (fun m => let~ _ := unifier_unify m a1 a2 in unifier_unify m b1 b2) r.
Proof using IH Unifiable0.
  rewrite unify_pair. intros Ho Hf Ha1 Hb1 Ha2 Hb2 Hr.
  apply continues_refines. eapply continues_eventually; [|eapply (elems_continue V); [by apply solving_start| |exact Hr]].
  - intros k st. simpl. unfold rthen, rret. destruct (unifier_unify k a1 a2 st) as [[[[]|] st1]|]; try done.
    by destruct (unifier_unify k b1 b2 st1) as [[[[]|] ?]|].
  - intros p [->|[->|[]%not_elem_of_nil]%elem_of_cons]%elem_of_cons; simpl; done.
Qed.

(** The loop of [record_elem_type] is the loop over the equations of the first
    field with the others. *)
Lemma elem_type_loop_pairs V σ first (fs : list (Symbol * ty)) : forall s cur,
  solving V σ s -> in_scope V first -> (forall f, f ∈ fs -> in_scope V f.2) ->
  subst s cur = subst s first ->
  elem_type_loop (unify n) fs s cur =
    let! s' := unify_elems (unify n) (map (fun f => (first, f.2)) fs) s in
    fret (s', subst s' first).
Proof using IH Unifiable0.
  induction fs as [|[k t] fs IHfs]; intros s cur Hs Hf Hfs Hcur; simpl.
  { rewrite apply_subst. by rewrite Hcur. }
  rewrite !apply_subst, Hcur.
  destruct (unify n (subst s first) (subst s t)) as [[sn|e]|] eqn:Hn; [|done..]. simpl.
  destruct (solving_step V σ s first t sn Hs Hf (Hfs _ ltac:(by left)) Hn) as [Hnw Hsn].
  destruct (wf_compose V sn s (solving_wf _ _ _ Hs) Hnw) as [_ Hc].
  apply IHfs; [done..|intros f Hfin; apply Hfs; by right|].
  rewrite apply_subst, (wf_idem V) by apply Hsn. by rewrite !Hc, Hcur.
Qed.

Lemma dict_refine V σ fields arg r :
  ok_range ok σ -> (forall x, x ∈ V -> σ !! x = None) ->
  in_scope V arg -> (forall f, f ∈ fields -> in_scope V f.2) ->
  (let! (s_fields, elem_ty) := record_elem_type (unify n) fields in
   let! s_arg := unify n (apply s_fields arg) elem_ty in
   fret (compose_subst s_arg s_fields)) = Some r ->
  refines σ (fun m => let~ elem_ty := record_elem_type_unifier m (unifier_unify m) fields in
                      unifier_unify m arg elem_ty) r.
Proof using IH Unifiable0.
  intros Ho Hf Ha Hfs Hr. pose proof (solving_start V σ Ho Hf) as Hs0.
  destruct fields as [|[k first] rest]; simpl in *.
  { injection Hr as <-. intros st Hc. exists (Err (UnsupportedExpr "empty record")), st.
    split; [by exists 0|]. split; [done|]. split; [done|]. by exists σ. }
  pose proof (Hfs (k, first) ltac:(by left)) as Hfirst. simpl in Hfirst.
  rewrite (elem_type_loop_pairs V σ first) in Hr; [|done..|intros; apply Hfs; by right|done].
  set (ps := map (fun f : Symbol * ty => (first, f.2)) rest) in *.
  assert (forall p, p ∈ ps -> in_scope V p.1 /\ in_scope V p.2) as Hps.
  { intros p (f & -> & Hin)%list_elem_of_fmap. split; [done|]. apply Hfs. by right. }
  apply continues_refines. intros st Hc.
  assert (forall m, run_iter (fun f : Symbol * ty => unifier_unify m first f.2) rest =
                    run_iter (fun p => unifier_unify m p.1 p.2) ps) as Hiter.
  { intros m. subst ps. clear. induction rest as [|f rest IHr]; simpl; [done|]. by rewrite IHr. }
  destruct (unify_elems (unify n) ps ∅) as [[s'|e]|] eqn:Hn; simpl in Hr; [..|done].
  - destruct (elems_continue V σ ps ∅ _ Hs0 Hps Hn st Hc) as ([[]|] & st1 & H1 & Hd1 & Hc1); [|done].
    pose proof (elems_sound ok (unify n) (fun a b s' => unify_solves n a b s') V ps ∅ s'
      (fun p Hp => match Hps p Hp with conj (conj o1 v1) (conj o2 v2) =>
         conj (conj o1 o2) (union_least _ _ _ v1 v2) end)
      (wf_empty V) (ok_range_empty ok) Hn) as ([Hw' Ho'] & _).
    assert (solving V σ s') as Hs' by (by split).
    destruct (apply_type_reads (compose_subst s' σ) first st1 Hc1 I) as (st2 & H2 & Hc2 & Hd2 & _).
    rewrite apply_subst, (solving_in_scope V) in H2 by done.
    pose proof (in_scope_subst V σ s' first Hs' Hfirst) as He.
    rewrite apply_subst in Hr.
    assert (subst s' (subst s' first) = subst s' first) as Hidem by (by eapply wf_idem).
    rewrite <- Hidem in Hr.
    assert (continues σ s' (fun m => let~ _ := unifier_unify m arg (subst s' first) in rret tt) r) as Hk.
    { eapply (continues_unify V σ s' arg (subst s' first) (fun _ => rret tt)
        (fun sn => fret (compose_subst sn s'))); [done..| |exact Hr].
      intros sn _ [= <-]. apply continues_ret. }
    destruct (Hk st2 Hc2) as (r' & st3 & [N H3] & Hd3 & Hc3).
    exists r', st3. split; [|split; [exact (transitivity Hd1 (transitivity Hd2 Hd3))|done]].
    eapply steps_then with (a := subst s' first) (st1 := st2).
    + eapply steps_then; [|done]. destruct H1 as [N1 H1]. exists N1. intros m Hm. rewrite Hiter. by apply H1.
    + exists N. intros m Hm. specialize (H3 m Hm). unfold rthen, rret in H3.
      destruct (unifier_unify m arg (subst s' first) st2) as [[[[]|] ?]|]; naive_solver.
  - injection Hr as <-.
    destruct (elems_continue V σ ps ∅ _ Hs0 Hps Hn st Hc) as ([|e'] & st1 & [N1 H1] & Hd1 & Hc1); [done|].
    destruct Hc1 as [<- Hv]. exists (Err e), st1. split; [|split; [done|by split]].
    apply steps_then_err, steps_then_err. exists N1. intros m Hm. rewrite Hiter. by apply H1.
Qed.

Lemma arms_refine t1 t2 σ r :
  ok t1 -> ok t2 -> ok_range ok σ -> unbound σ t1 -> unbound σ t2 ->
  unify_body (unify n) t1 t2 = Some r ->
  refines σ (fun m => unify_arms m (unifier_unify m) t1 t2) r.
Proof using IH Unifiable0.
  intros H1 H2 Ho Hu1 Hu2.
  assert (forall x, x ∈ vars t1 ∪ vars t2 -> σ !! x = None) as Hf by set_solver.
  assert (forall t, ok t -> vars t ⊆ vars t1 ∪ vars t2 -> in_scope (vars t1 ∪ vars t2) t) as Hin by done.
  assert (forall tv t, unbound σ (TVar tv) -> unbound σ t -> (forall v, t = TVar v -> tv_id v <> tv_id tv) ->
    lift (bind tv t) = Some r -> refines σ (fun m => unify_var m tv t) r) as Hvar.
  { intros tv t Htv Ht Hne [= <-]. apply unify_var_refines; [|done|done].
    apply Htv. simpl. set_solver. }
  assert (forall a b, refines σ (fun m => clash (A := unit) a b) (Err (Unification (show_ty a) (show_ty b)))) as Hclash.
  { intros a b. apply refines_err. }
  destruct t1 as [tv|c|l a|a b|ts|fs], t2 as [tv'|c'|l' a'|a' b'|ts'|fs']; cbn [unify_body unify_arms];
    try (by intros [= <-]; apply Hclash); try (by apply Hvar).
  - destruct (decide (tv_id tv = tv_id tv')) as [Heq|Hne].
    + cbn [bind]. rewrite decide_True by done. intros [= <-]. apply refines_ok.
    + apply Hvar; [done..|]. congruence.
  - case_decide; intros [= <-]; [apply refines_ok|apply Hclash].
  - apply ok_app in H1 as [??], H2 as [??].
    apply (pair_refine (vars (TApp l a) ∪ vars (TApp l' a'))); try done; apply Hin; set_solver.
  - destruct l as [tv|c| | | |]; try (by intros [= <-]; apply Hclash).
    { by destruct (ok_no_clash _ _ _ H2 H1). }
    destruct (is_builtin c Dict); [|by intros [= <-]; apply Hclash].
    apply (dict_refine (vars (TApp (TCon c) a) ∪ vars (TRecord fs'))); [done..| |].
    + apply ok_app in H1 as [??]. apply Hin; set_solver.
    + intros f Hfin. apply Hin; [by eapply ok_record|]. simpl. intros x Hx.
      apply elem_of_union_r, union_list_elem. eauto.
  - apply ok_fun in H1 as [??], H2 as [??].
    apply (pair_refine (vars (TFun a b) ∪ vars (TFun a' b'))); try done; apply Hin; set_solver.
  - case_decide; [|by intros [= <-]; apply Hclash].
    apply (elems_refine (vars (TTuple ts) ∪ vars (TTuple ts'))); [done..|].
    intros [u u'] Hp. pose proof (elem_of_zip_l _ _ _ _ Hp). pose proof (elem_of_zip_r _ _ _ _ Hp).
    split; cbn [fst snd]; (apply Hin; [first [by apply (ok_tuple ts)|by apply (ok_tuple ts')]|]); simpl; intros x Hx;
      [apply elem_of_union_l|apply elem_of_union_r]; apply union_list_elem; eauto.
  - destruct l' as [tv|c| | | |]; try (by intros [= <-]; apply Hclash).
    { by destruct (ok_no_clash _ _ _ H1 H2). }
    destruct (is_builtin c Dict); [|by intros [= <-]; apply Hclash].
    apply (dict_refine (vars (TRecord fs) ∪ vars (TApp (TCon c) a'))); [done..| |].
    + apply ok_app in H2 as [??]. apply Hin; set_solver.
    + intros f Hfin. apply Hin; [by eapply ok_record|]. simpl. intros x Hx.
      apply elem_of_union_l, union_list_elem. eauto.
  - case_decide; [|by intros [= <-]; apply Hclash]. intros Hr.
    apply continues_refines. apply (fields_continue (vars (TRecord fs) ∪ vars (TRecord fs'))); [by apply solving_start| |done].
    intros [u u'] Hp. pose proof (elem_of_zip_l _ _ _ _ Hp). pose proof (elem_of_zip_r _ _ _ _ Hp).
    split; cbn [fst snd]; (apply Hin; [first [by apply (ok_record fs u)|by apply (ok_record fs' u')]|]); simpl; intros x Hx;
      [apply elem_of_union_l|apply elem_of_union_r]; apply union_list_elem; eauto.
Qed.
End Step.

Lemma unify_refines n : forall t1 t2 σ r,
  ok t1 -> ok t2 -> ok_range ok σ -> unify n (subst σ t1) (subst σ t2) = Some r ->
  refines σ (fun m => unifier_unify m t1 t2) r.
Proof using Unifiable0.
  induction n as [|n IH]; intros t1 t2 σ r H1 H2 Ho; [done|]. intros Hr st Hc.
  pose proof (closure_unbound st σ t1 Hc) as Hu1. pose proof (closure_unbound st σ t2 Hc) as Hu2.
  revert st Hc. change (refines σ (fun m => unifier_unify m t1 t2) r).
  eapply refines_S; [intros m; simpl; reflexivity|].
  eapply refines_reads; [apply prune_reads|]. eapply refines_reads; [apply prune_reads|].
  apply (arms_refine n IH); [by apply ok_subst..|done|done|done|done].
Qed.

(** The in-place unifier refines [unify_types] on the pruned types. *)
Lemma unifier_refines σ t1 t2 :
  ok t1 -> ok t2 -> ok_range ok σ ->
  refines σ (fun m => unifier_unify m t1 t2) (unify_types (subst σ t1) (subst σ t2)).
Proof using Unifiable0.
  intros H1 H2 Ho. destruct (unify_types_spec (subst σ t1) (subst σ t2)) as [n Hn].
  by apply (unify_refines n), Hn.
Qed.
End Refine.

(** * Reading the closure back *)

(** The entries of [σ] at [ids], added to [out]. *)
Definition collect_entries (σ : Subst) (ids : list TypeVarId) (out : Subst) : Subst :=
  foldl (fun out id => match σ !! id with Some t => <[id := t]> out | None => out end) out ids.

Lemma into_subst_loop_reads σ ids : forall out,
  reads anywhere σ (fun n => into_subst_loop n ids out) (collect_entries σ ids out).
Proof.
  induction ids as [|id ids IH]; intros out; simpl; [apply reads_ret|].
  intros st Hc _. destruct (binding st id) as [t|] eqn:E.
  - rewrite (closure_some _ _ Hc _ _ E).
    destruct (prune_reads σ t st Hc I) as (st1 & H1 & Hc1).
    destruct (IH (<[id := subst σ t]> out) st1) as (st2 & H2 & Hc2); [by destruct Hc1|done|].
    exists st2. split; [|by eapply compressed_trans].
    eapply steps_then with (a := Some t) (st1 := st); [exists 0; intros; unfold bound; by rewrite <- E|].
    eapply steps_then; [exact H1|exact H2].
  - rewrite (closure_none _ _ Hc _ E). destruct (IH out st Hc I) as (st2 & H2 & Hc2).
    exists st2. split; [|done].
    eapply steps_then with (a := None) (st1 := st); [exists 0; intros; unfold bound; by rewrite <- E|done].
Qed.

Lemma collect_entries_lookup σ ids : forall out y,
  collect_entries σ ids out !! y =
  if decide (y ∈ ids) then match σ !! y with Some t => Some t | None => out !! y end else out !! y.
Proof.
  induction ids as [|id ids IH]; intros out y; simpl.
  - done.
  - rewrite IH. destruct (decide (y = id)) as [->|Hne].
    + rewrite (decide_True _ _ (P := id ∈ id :: ids)) by set_solver.
      destruct (σ !! id) eqn:E; rewrite ?lookup_insert_eq; by case_decide.
    + rewrite (decide_ext (y ∈ id :: ids) (y ∈ ids)) by set_solver.
      destruct (σ !! id) eqn:E; [rewrite lookup_insert_ne by done|]; done.
Qed.

Lemma into_subst_closure st σ :
  closure_of st σ -> exists st', steps into_subst st (Ok σ) st'.
Proof.
  intros Hc. destruct (into_subst_loop_reads σ (seq 0 (length (subs st))) ∅ st Hc I) as (st' & H & _).
  exists st'. assert (collect_entries σ (seq 0 (length (subs st))) ∅ = σ) as <-; [|done].
  apply map_eq. intros y. rewrite collect_entries_lookup, lookup_empty. case_decide as Hy; [by destruct (σ !! y)|].
  symmetry. apply (closure_none _ _ Hc). unfold binding.
  rewrite lookup_ge_None_2; [done|]. rewrite elem_of_seq in Hy. lia.
Qed.

(** * A run on a list of equations *)

(** The equations of [ps] one after the other with the pure unifier, its
    substitution applied to each before it is unified. *)
Fixpoint solve_all (ps : list (ty * ty)) (s : Subst) : result TypeError Subst :=
  match ps with
  | [] => Ok s
  | (a, b) :: ps =>
      let? s_next := unify_types (apply s a) (apply s b) in
      solve_all ps (compose_subst s_next s)
  end.

(** The equations of [ps] with a unifier that starts empty, and its answer. *)
Definition solve_in_place (max : option nat) (fuel : nat) (ps : list (ty * ty)) : option (result TypeError Subst) :=
  fst <$> (let~ _ := run_iter (fun p => unifier_unify fuel p.1 p.2) ps in into_subst fuel) (Unifier_new max).

Lemma solve_all_refines ok `{!Unifiable ok} (ps : list (ty * ty)) : forall σ st,
  (forall p, p ∈ ps -> ok p.1 /\ ok p.2) -> ok_range ok σ -> closure_of st σ ->
  exists r' st', steps (fun m => run_iter (fun p => unifier_unify m p.1 p.2) ps) st r' st' /\
    match solve_all ps σ, r' with
    | Ok s, Ok _ => closure_of st' s
    | Err e, Err e' => e = e'
    | _, _ => False
    end.
Proof.
  induction ps as [|[a b] ps IH]; intros σ st Hps Ho Hc; simpl.
  { exists (Ok tt), st. split; [apply steps_ret|done]. }
  destruct (Hps (a, b) ltac:(by left)) as [Ha Hb]. simpl in Ha, Hb. rewrite !apply_subst.
  destruct (unifier_refines ok σ a b Ha Hb Ho st Hc) as (r1 & st1 & H1 & _ & Ha1).
  destruct (unify_types (subst σ a) (subst σ b)) as [s|e] eqn:Hs, r1 as [[]|e']; try done; simpl.
  - destruct (IH (compose_subst s σ) st1) as (r' & st' & H' & Hr'); [|
      |done|exists r', st'; split; [by eapply (steps_then _ (fun m _ => run_iter _ ps))|done]].
    + intros p Hp. apply Hps. by right.
    + apply ok_range_compose; [|done]. destruct (unify_types_spec (subst σ a) (subst σ b)) as [n Hn].
      specialize (Hn n (le_n _)). rewrite Hs in Hn.
      apply (unify_solves (ok := ok)) in Hn as (_ & ? & _); [done|by apply ok_subst..].
  - destruct Ha1 as [-> _]. exists (Err e'), st1. split; [|done].
    by apply (steps_then_err _ (fun m _ => run_iter _ ps)).
Qed.

Lemma solve_in_place_ok ok `{!Unifiable ok} max ps :
  (forall p, p ∈ ps -> ok p.1 /\ ok p.2) ->
  exists N, forall n, N <= n -> solve_in_place max n ps = Some (solve_all ps ∅).
Proof.
  intros Hps. destruct (solve_all_refines ok ps ∅ (Unifier_new max) Hps (ok_range_empty ok) (closure_new max))
    as (r' & st' & H & Hr).
  destruct (solve_all ps ∅) as [s|e], r' as [[]|e']; try done.
  - destruct (into_subst_closure st' s Hr) as (st2 & H2).
    destruct (steps_then _ (fun m _ => into_subst m) _ _ _ _ _ H H2) as [N HN].
    exists N. intros n Hn. unfold solve_in_place. by rewrite HN.
  - subst e'. destruct (steps_then_err _ (fun m _ => into_subst m) _ _ _ H) as [N HN].
    exists N. intros n Hn. unfold solve_in_place. by rewrite HN.
Qed.

(** C15. The in-place unifier of inference and the pure unifier are the same
    function on types without records, and on types without applied type variables: from
    an empty unifier, a list of equations none of which has a record, or none of which
    applies a type variable, ends (enough fuel exists), fails exactly when the pure
    unifier does and with the same error, and otherwise its dense vector of half-resolved,
    path-compressed bindings reads back as the very substitution the pure unifier
    composes. Where records and applied variables meet, the two may part
    ([unifiers_disagree]). *)
Theorem unifier_refines_unify max ps :
  forallb (fun p => record_free p.1 && record_free p.2) ps = true \/
  forallb (fun p => no_var_app p.1 && no_var_app p.2) ps = true ->
  exists N, forall n, N <= n -> solve_in_place max n ps = Some (solve_all ps ∅).
Proof.
  intros [H|H]; rewrite forallb_elem in H.
  - apply (solve_in_place_ok (fun t => record_free t = true)).
    intros p Hp. apply andb_true_iff, H, Hp.
  - apply (solve_in_place_ok (fun t => no_var_app t = true)).
    intros p Hp. apply andb_true_iff, H, Hp.
Qed.

Lemma unifier_refines_unify_witness :
  let v n := TVar (TypeVar_new n None) in
  let ps := [(TFun (v 0) (v 1), TFun (Type_list (v 2)) (v 0)); (v 1, Type_list (ty_builtin I32));
             (TTuple [v 2; v 3], TTuple [v 3; ty_builtin Bool])] in
  forallb (fun p => record_free p.1 && record_free p.2) ps = true /\
  solve_in_place None 20 ps = Some (Err (Unification "i32" "Bool")) /\
  exists N, forall n, N <= n -> solve_in_place None n ps = Some (solve_all ps ∅).
Proof.
  intros v ps. assert (forallb (fun p => record_free p.1 && record_free p.2) ps = true) as H by reflexivity.
  split; [exact H|]. split; [vm_compute; reflexivity|].
  apply (unifier_refines_unify None ps). left. exact H.
Defined.

(** A record and an application of the type variable that occurs in it. *)
Definition clash_record : ty :=
  TRecord [("x", TApp (TVar (TypeVar_new 0 None)) (ty_builtin I32)); ("y", Type_list (ty_builtin I32))].
Definition clash_app : ty := TApp (TVar (TypeVar_new 0 None)) (TVar (TypeVar_new 1 None)).

(** The two unifiers part where a record meets an application of a type
    variable: on [{x: f i32, y: List i32}] and [f a] the pure unifier binds [f] to
    [Dict] and then again to [List], and its answer makes the second type
    [List (List i32)], which no record is compatible with; the in-place unifier
    reads [f = Dict] back before it compares the fields and rejects the pair. *)
Theorem unifiers_disagree :
  exists s, unify 9 clash_record clash_app = Some (Ok s) /\
    apply s clash_app = Type_list (Type_list (ty_builtin I32)) /\
    ~ compat (apply s clash_record) (apply s clash_app) /\
    solve_in_place None 9 [(clash_record, clash_app)] = Some (Err (Unification "Dict" "List")).
Proof.
  eexists. split; [vm_compute; reflexivity|].
  split; [vm_compute; reflexivity|]. split; [|vm_compute; reflexivity].
  intros H. vm_compute in H. inversion H.
Qed.
