(* ===== verification/UnifierSound.v ===== *)
(** What a run of the in-place unifier establishes, on all types: it ends, and when
    it succeeds the two types are compatible, every earlier equation stays solved
    and only variables of the two types have been bound. Type inference is proved
    correct on top of this. *)

From S2P Require Import Prelude Types Unify UnifyComplete Unifier.

(** * Moves of the closure *)

(** [σ'] instantiates what [σ] left open. *)
Definition extends (σ σ' : Subst) : Prop := forall t, subst σ' (subst σ t) = subst σ' t.

(** No substituted type has a bound variable. *)
Definition settled (σ : Subst) : Prop := forall t, unbound σ (subst σ t).

Lemma closure_settled st σ : closure_of st σ -> settled σ.
Proof. intros Hc t. by eapply closure_unbound. Qed.

Lemma settled_idem σ t : settled σ -> subst σ (subst σ t) = subst σ t.
Proof. intros Hs. by apply unbound_subst. Qed.

Lemma extends_trans σ1 σ2 σ3 : extends σ1 σ2 -> extends σ2 σ3 -> extends σ1 σ3.
Proof. intros H12 H23 t. by rewrite <- (H23 (subst σ1 t)), H12, H23. Qed.

Lemma extends_compat σ σ' a b :
  extends σ σ' -> compat (subst σ a) (subst σ b) -> compat (subst σ' a) (subst σ' b).
Proof. intros He Hc. rewrite <- (He a), <- (He b). by apply compat_subst. Qed.

Lemma extends_eq σ σ' a b : extends σ σ' -> subst σ a = subst σ b -> subst σ' a = subst σ' b.
Proof. intros He Hab. by rewrite <- (He a), <- (He b), Hab. Qed.

(** The variables of [t] that are open under [σ] are in [V]. *)
Definition within (V : gset TypeVarId) (σ : Subst) (t : ty) : Prop := vars (subst σ t) ⊆ V.

Definition open_vars (V : gset TypeVarId) (σ : Subst) : gset TypeVarId := filter (fun x => σ !! x = None) V.

(** From [σ] to [σ'] only variables of [V] have been bound, to types over [V]; if
    any was bound, fewer are open. *)
Record moves (V : gset TypeVarId) (σ σ' : Subst) : Prop := {
  moves_extends : extends σ σ';
  moves_settled : settled σ';
  moves_only x : x ∉ V -> σ !! x = None -> σ' !! x = None;
  moves_within t : within V σ t -> within V σ' t;
  moves_progress : σ' = σ \/ size (open_vars V σ') < size (open_vars V σ)
}.

Lemma moves_refl V σ : settled σ -> moves V σ σ.
Proof. intros Hs. split; [|done..|by left]. intros t. by apply settled_idem. Qed.

Lemma moves_trans V σ1 σ2 σ3 : moves V σ1 σ2 -> moves V σ2 σ3 -> moves V σ1 σ3.
Proof.
  intros [E1 S1 O1 W1 P1] [E2 S2 O2 W2 P2]. split; [by eapply extends_trans|done|auto..|].
  destruct P1 as [->|P1]; [done|]. destruct P2 as [->|P2]; [by right|]. right. lia.
Qed.

(** Binding one open variable. *)
Lemma moves_bind V σ tv other :
  settled σ -> tv ∈ V -> σ !! tv = None -> unbound σ other -> vars other ⊆ V -> tv ∉ vars other ->
  settled (compose_subst {[tv := other]} σ) -> moves V σ (compose_subst {[tv := other]} σ).
Proof.
  intros Hs HtvV Htv Hu HV Hocc Hs'.
  assert (forall u, subst (compose_subst {[tv := other]} σ) u = subst {[tv := other]} (subst σ u)) as Hc.
  { intros u. apply compose_subst_disjoint. rewrite dom_singleton.
    intros x ->%elem_of_singleton [w Hw]%elem_of_dom. congruence. }
  split; [|done|..].
  - intros t. by rewrite !Hc, settled_idem.
  - intros x Hx Hn. rewrite singleton_compose_lookup, decide_False by set_solver. by rewrite Hn.
  - intros t Ht y. rewrite Hc. intros (z & Hz & Hy)%elem_of_vars_subst.
    destruct (decide (z = tv)) as [->|Hne].
    + rewrite lookup_singleton_eq in Hy. set_solver.
    + rewrite lookup_singleton_ne in Hy by done. subst. by apply Ht.
  - right. apply subset_size. split.
    + intros x [Hx HxV]%elem_of_filter. apply elem_of_filter. split; [|done].
      rewrite singleton_compose_lookup in Hx. destruct (decide (x = tv)); [done|].
      by apply fmap_None in Hx.
    + intros Hsub. assert (tv ∈ open_vars V (compose_subst {[tv := other]} σ)) as [Ho _]%elem_of_filter.
      { apply Hsub. by apply elem_of_filter. }
      rewrite singleton_compose_lookup, decide_True in Ho by done. done.
Qed.

(** * Runs *)

(** From a state with closure [σ], [m] ends; if it succeeds, in a state whose
    closure is moved over [V] and satisfies [Q] with the answer. *)
Definition leads {A} (V : gset TypeVarId) (σ : Subst) (m : nat -> stateful Unifier A) (Q : Subst -> A -> Prop) : Prop :=
  forall st, closure_of st σ -> exists r st', steps m st r st' /\
    match r with
    | Ok a => exists σ', closure_of st' σ' /\ moves V σ σ' /\ Q σ' a
    | Err _ => True
    end.

Section Leads.
Context (V : gset TypeVarId).

Lemma leads_ret {A} σ (a : A) (Q : Subst -> A -> Prop) : Q σ a -> leads V σ (fun _ => rret a) Q.
Proof using Type.
  intros HQ st Hc. exists (Ok a), st. split; [apply steps_ret|].
  exists σ. eauto using moves_refl, closure_settled.
Qed.

Lemma leads_throw {A} σ e (Q : Subst -> A -> Prop) : leads V σ (fun _ => rthrow e) Q.
Proof using Type. intros st Hc. exists (Err e), st. split; [apply steps_throw|done]. Qed.

Lemma leads_then {A B} σ (m : nat -> stateful Unifier A) (k : nat -> A -> stateful Unifier B)
    (Q1 : Subst -> A -> Prop) (Q : Subst -> B -> Prop) :
  leads V σ m Q1 ->
  (forall σ' a, moves V σ σ' -> Q1 σ' a -> leads V σ' (fun n => k n a) Q) ->
  leads V σ (fun n => let~ a := m n in k n a) Q.
Proof using Type.
  intros Hm Hk st Hc. destruct (Hm st Hc) as ([a|e] & st1 & H1 & Hr).
  - destruct Hr as (σ1 & Hc1 & Hmv & HQ1). destruct (Hk σ1 a Hmv HQ1 st1 Hc1) as (r & st2 & H2 & Hr).
    exists r, st2. split; [by eapply steps_then|]. destruct r as [b|]; [|done].
    destruct Hr as (σ2 & ? & ? & ?). exists σ2. eauto using moves_trans.
  - exists (Err e), st1. split; [by eapply steps_then_err|done].
Qed.

Lemma leads_weaken {A} σ m (Q Q' : Subst -> A -> Prop) :
  leads V σ m Q -> (forall σ' a, moves V σ σ' -> Q σ' a -> Q' σ' a) -> leads V σ m Q'.
Proof using Type.
  intros Hm HQ st Hc. destruct (Hm st Hc) as ([a|e] & st' & H & Hr); [|by exists (Err e), st'].
  exists (Ok a), st'. split; [done|]. destruct Hr as (σ' & ? & ? & ?). eauto 6.
Qed.

Lemma leads_reads {A B} σ m (k : nat -> A -> stateful Unifier B) a (Q : Subst -> B -> Prop) :
  reads anywhere σ m a -> leads V σ (fun n => k n a) Q -> leads V σ (fun n => let~ a := m n in k n a) Q.
Proof using Type.
  intros Hm Hk st Hc. destruct (Hm st Hc I) as (st1 & H1 & Hc1 & _).
  destruct (Hk st1 Hc1) as (r & st2 & H2 & Hr). exists r, st2. split; [by eapply steps_then|done].
Qed.

Lemma leads_S {A} σ (m m' : nat -> stateful Unifier A) Q :
  (forall n, m (Datatypes.S n) = m' n) -> leads V σ m' Q -> leads V σ m Q.
Proof using Type.
  intros Hm Hl st Hc. destruct (Hl st Hc) as (r & st' & H & ?). exists r, st'.
  split; [by eapply steps_S|done].
Qed.
End Leads.

Lemma leads_settled {A} V σ m (Q : Subst -> A -> Prop) : (settled σ -> leads V σ m Q) -> leads V σ m Q.
Proof. intros Hl st Hc. apply Hl; [by eapply closure_settled|done]. Qed.

(** * Unification solves its equation *)

Definition solved (t1 t2 : ty) (σ : Subst) (_ : unit) : Prop := compat (subst σ t1) (subst σ t2).

Lemma compat_con_r t c : compat t (TCon c) -> t = TCon c.
Proof. by inversion 1. Qed.

Lemma within_unbound V σ t : unbound σ t -> within V σ t <-> vars t ⊆ V.
Proof. intros Hu. unfold within. by rewrite unbound_subst. Qed.

Lemma within_app V σ l r : within V σ (TApp l r) <-> within V σ l /\ within V σ r.
Proof. unfold within. simpl. set_solver. Qed.
Lemma within_fun V σ a b : within V σ (TFun a b) <-> within V σ a /\ within V σ b.
Proof. unfold within. simpl. set_solver. Qed.
Lemma within_tuple V σ ts : within V σ (TTuple ts) <-> forall t, t ∈ ts -> within V σ t.
Proof.
  unfold within. simpl. split.
  - intros H t Ht y Hy. apply H, union_list_elem. exists (subst σ t). split; [|done]. by apply list_elem_of_fmap_2.
  - intros H y Hy%union_list_elem. destruct Hy as (u & Hu & Hy). apply list_elem_of_fmap in Hu as (t & -> & Ht). by eapply H.
Qed.
Lemma within_record V σ (fs : list (Symbol * ty)) :
  within V σ (TRecord fs) <-> forall f, f ∈ fs -> within V σ f.2.
Proof.
  unfold within. simpl. split.
  - intros H f Hf y Hy. apply H, union_list_elem. exists (f.1, subst σ f.2).
    split; [|done]. apply list_elem_of_fmap. eauto.
  - intros H y Hy%union_list_elem. destruct Hy as (u & Hu & Hy). apply list_elem_of_fmap in Hu as (f & -> & Hf).
    by eapply H.
Qed.

Lemma zip_sizes (ts1 ts2 : list ty) p :
  p ∈ zip ts1 ts2 -> ty_size p.1 + ty_size p.2 <= sum_list_with ty_size ts1 + sum_list_with ty_size ts2.
Proof.
  revert ts2. induction ts1 as [|t1 ts1 IH]; intros [|t2 ts2]; simpl; try (intros []%not_elem_of_nil).
  intros [->|Hp]%elem_of_cons; simpl; [lia|]. specialize (IH _ Hp). lia.
Qed.

Lemma zip_field_sizes (fs1 fs2 : list (Symbol * ty)) p :
  p ∈ zip fs1 fs2 ->
  ty_size p.1.2 + ty_size p.2.2 <=
  sum_list_with (fun f => ty_size f.2) fs1 + sum_list_with (fun f => ty_size f.2) fs2.
Proof.
  revert fs2. induction fs1 as [|t1 fs1 IH]; intros [|t2 fs2]; simpl; try (intros []%not_elem_of_nil).
  intros [->|Hp]%elem_of_cons; simpl; [lia|]. specialize (IH _ Hp). lia.
Qed.

Lemma field_size (fs : list (Symbol * ty)) f :
  f ∈ fs -> ty_size f.2 <= sum_list_with (fun f => ty_size f.2) fs.
Proof. induction fs as [|g fs IH]; [intros []%not_elem_of_nil|]. intros [->|Hf]%elem_of_cons; simpl; [lia|].
  specialize (IH Hf). lia. Qed.

Lemma unify_var_leads V σ tv other :
  settled σ -> unbound σ (TVar tv) -> unbound σ other -> tv_id tv ∈ V -> vars other ⊆ V ->
  leads V σ (fun n => unify_var n tv other) (solved (TVar tv) other).
Proof.
  intros Hs Htv Hu HtvV HV. unfold unify_var.
  eapply leads_reads; [by apply occurs_reads; [|apply unbound_subst]|]. simpl.
  destruct (bool_decide_reflect (tv_id tv ∈ vars other)) as [|Hocc]; [apply leads_throw|].
  intros st Hc. exists (Ok tt), (bound_state (tv_id tv) other st). split; [by exists 0|].
  assert (σ !! tv_id tv = None) as Hid by (apply Htv; simpl; set_solver).
  pose proof (closure_bind st σ (tv_id tv) other Hc Hid Hu Hocc) as Hc'.
  exists (compose_subst {[tv_id tv := other]} σ). split; [done|].
  assert (forall u, subst (compose_subst {[tv_id tv := other]} σ) u = subst {[tv_id tv := other]} (subst σ u)) as Hsub.
  { intros u. apply compose_subst_disjoint. rewrite dom_singleton.
    intros x ->%elem_of_singleton [w Hw]%elem_of_dom. congruence. }
  split; [by apply moves_bind; try done; eapply closure_settled|].
  unfold solved. rewrite !Hsub, !(unbound_subst σ) by done. simpl. rewrite lookup_singleton_eq. simpl.
  rewrite subst_disjoint; [apply compat_refl|]. intros y Hy. rewrite dom_singleton. by intros ->%elem_of_singleton.
Qed.

Section Arms.
Variables (V : gset TypeVarId) (σ : Subst) (s : nat).

(** Recursive calls may be made later, or at once on smaller types. *)
Hypothesis calls : forall σ' a b,
  moves V σ σ' -> within V σ' a -> within V σ' b ->
  (σ' = σ -> ty_size (subst σ a) + ty_size (subst σ b) < s) ->
  leads V σ' (fun n => unifier_unify n a b) (solved a b).

(** [a] and [b] may be unified at once. *)
Definition callable (a b : ty) : Prop :=
  within V σ a /\ within V σ b /\ ty_size (subst σ a) + ty_size (subst σ b) < s.

Lemma call_now a b σ' :
  callable a b -> moves V σ σ' -> leads V σ' (fun n => unifier_unify n a b) (solved a b).
Proof using calls. intros (Ha & Hb & Hs) Hm. apply calls; [done|by eapply moves_within..|done]. Qed.

Lemma iter_leads {A} (f : nat -> A -> stateful Unifier unit) (eqs : A -> ty * ty) l : forall σ',
  moves V σ σ' ->
  (forall x σ', x ∈ l -> moves V σ σ' -> leads V σ' (fun n => f n x) (solved (eqs x).1 (eqs x).2)) ->
  leads V σ' (fun n => run_iter (f n) l)
    (fun σ'' _ => forall x, x ∈ l -> compat (subst σ'' (eqs x).1) (subst σ'' (eqs x).2)).
Proof using Type.
  induction l as [|x l IHl]; intros σ' Hm Hf; simpl.
  { apply leads_ret. intros x []%not_elem_of_nil. }
  eapply (leads_then V σ' (fun n => f n x) (fun n _ => run_iter (f n) l)); [apply Hf; [by left|done]|].
  intros σ1 a Hm1 H1. eapply leads_weaken.
  - apply IHl; [by eapply moves_trans|]. intros y σ2 Hy. apply Hf. by right.
  - intros σ2 ? Hm2 Hl y [->|Hy]%elem_of_cons; [eapply extends_compat; [apply Hm2|done]|by apply Hl].
Qed.

Lemma pair_leads a1 b1 a2 b2 :
  callable a1 a2 -> callable b1 b2 ->
  leads V σ (fun n => let~ _ := unifier_unify n a1 a2 in unifier_unify n b1 b2)
    (fun σ' _ => compat (subst σ' a1) (subst σ' a2) /\ compat (subst σ' b1) (subst σ' b2)).
Proof using calls.
  intros Ha Hb. apply leads_settled. intros Hs.
  eapply (leads_then V σ (fun n => unifier_unify n a1 a2) (fun n _ => unifier_unify n b1 b2)).
  { by apply call_now; [|apply moves_refl]. }
  intros σ1 ? Hm H1. eapply leads_weaken; [by apply call_now|].
  intros σ2 ? Hm2 H2. split; [eapply extends_compat; [apply Hm2|done]|done].
Qed.

(** The fields of a record among each other, then against the argument of a
    dictionary type. *)
Lemma record_leads fields arg σ' :
  moves V σ σ' -> within V σ arg -> within V σ (TRecord fields) ->
  ty_size (subst σ (TRecord fields)) + ty_size (subst σ arg) < s ->
  leads V σ' (fun n => let~ elem_ty := record_elem_type_unifier n (unifier_unify n) fields in unifier_unify n arg elem_ty)
    (fun σ' _ => compat (subst σ' (TRecord fields)) (subst σ' (Type_dict arg))).
Proof using calls.
  intros Hm Harg Hfs Hs. destruct fields as [|[k first] rest]; simpl.
  { eapply (leads_then V σ' (fun _ => rthrow _) (fun n e => unifier_unify n arg e) (fun _ _ => False)); [apply leads_throw|done]. }
  rewrite within_record in Hfs. simpl in Hs.
  assert (within V σ first) as Hfirst by (apply (Hfs (k, first)); by left).
  apply (leads_then V σ' (fun n => let~ _ := run_iter (fun f : Symbol * ty => unifier_unify n first f.2) rest in apply_type n first)
    (fun n e => unifier_unify n arg e) (fun σ1 e =>
    (forall f, f ∈ rest -> compat (subst σ1 first) (subst σ1 f.2)) /\ e = subst σ1 first)).
  { eapply (leads_then V σ' (fun n => run_iter (fun f : Symbol * ty => unifier_unify n first f.2) rest) (fun n _ => apply_type n first)).
    - apply (iter_leads (fun n (f : Symbol * ty) => unifier_unify n first f.2) (fun f => (first, f.2))); [done|].
      intros f σ1 Hf Hm1. apply call_now; [|done]. split_and!; [done|apply Hfs; by right|].
      pose proof (field_size (map (fun f => (f.1, subst σ f.2)) rest) (f.1, subst σ f.2)
        ltac:(by apply (list_elem_of_fmap_2 (fun f => (f.1, subst σ f.2))))). simpl in *. lia.
    - intros σ1 ? Hm1 H1 st Hc. destruct (apply_type_reads σ1 first st Hc I) as (st1 & H & Hc1 & _).
      exists (Ok (apply σ1 first)), st1. split; [done|]. exists σ1. split; [done|].
      split; [by apply moves_refl, Hm1|]. split; [done|by rewrite apply_subst]. }
  intros σ1 e Hm1 [H1 ->]. assert (moves V σ σ1) as Hm01 by by eapply moves_trans.
  eapply leads_weaken.
  { apply calls; [done|by eapply moves_within|..].
    - unfold within. rewrite settled_idem by apply Hm01. by eapply moves_within.
    - intros ->. rewrite settled_idem by apply Hm01. lia. }
  intros σ2 ? Hm2 H2. unfold solved in H2. rewrite (moves_extends _ _ _ Hm2) in H2.
  apply compat_record_dict; [|done]. intros f (g & -> & Hg)%list_elem_of_fmap. simpl.
  eapply extends_compat; [apply Hm2|]. by apply H1.
Qed.

Lemma arms_leads t1 t2 :
  unbound σ t1 -> unbound σ t2 -> vars t1 ⊆ V -> vars t2 ⊆ V -> ty_size t1 + ty_size t2 <= s ->
  leads V σ (fun n => unify_arms n (unifier_unify n) t1 t2) (solved t1 t2).
Proof using calls.
  intros Hu1 Hu2 HV1 HV2 Hs. apply leads_settled. intros Hset.
  assert (moves V σ σ) as Hm by by apply moves_refl.
  rewrite <- (within_unbound _ _ _ Hu1) in HV1. rewrite <- (within_unbound _ _ _ Hu2) in HV2.
  rewrite <- (unbound_subst _ _ Hu1), <- (unbound_subst _ _ Hu2) in Hs.
  assert (forall tv t, unbound σ (TVar tv) -> unbound σ t -> within V σ (TVar tv) -> within V σ t ->
    leads V σ (fun n => unify_var n tv t) (solved (TVar tv) t)) as Hvar.
  { intros tv t Htv Ht H1 H2. rewrite within_unbound in H1, H2 by done. apply unify_var_leads; try done.
    apply H1. simpl. set_solver. }
  assert (forall (m : nat -> stateful Unifier unit) a b, leads V σ m (solved a b) -> leads V σ m (solved b a)) as Hsym.
  { intros m a b Hl. eapply leads_weaken; [exact Hl|]. intros σ' ? _ H. by apply compat_sym. }
  assert (forall fields head arg, within V σ (TRecord fields) -> within V σ (TApp head arg) ->
    ty_size (subst σ (TRecord fields)) + ty_size (subst σ (TApp head arg)) <= s ->
    leads V σ (fun n => match head with
    | TCon c => if is_builtin c Dict then
        let~ elem_ty := record_elem_type_unifier n (unifier_unify n) fields in unifier_unify n arg elem_ty
        else clash t1 t2
    | TVar tv =>
        let~ _ := unifier_unify n (TVar tv) (ty_builtin Dict) in
        let~ elem_ty := record_elem_type_unifier n (unifier_unify n) fields in unifier_unify n arg elem_ty
    | _ => clash t1 t2
    end) (solved (TRecord fields) (TApp head arg))) as Hdict.
  { intros fields head arg Hf [Hh Ha]%within_app Hsz.
    assert (ty_size (subst σ (TRecord fields)) + ty_size (subst σ arg) < s) as Hlt by (simpl in *; lia).
    assert (ty_size (subst σ head) + 1 < s) as Hlt2.
    { pose proof (ty_size_pos (subst σ arg)). simpl in Hsz. lia. }
    destruct head as [tv|c| | | |]; try apply leads_throw.
    - eapply (leads_then V σ (fun n => unifier_unify n (TVar tv) (ty_builtin Dict))
        (fun n _ => let~ elem_ty := record_elem_type_unifier n (unifier_unify n) fields in unifier_unify n arg elem_ty)).
      { apply call_now; [|done]. split_and!; [done|unfold within; simpl; set_solver|simpl in *; lia]. }
      intros σ1 ? Hm1 H1. eapply leads_weaken; [by apply record_leads|].
      intros σ2 ? Hm2 H2. unfold solved in *. pose proof (extends_compat _ _ _ _ (moves_extends _ _ _ Hm2) H1) as Htv.
      apply compat_con_r in Htv. cbn [subst]. cbn [subst] in Htv. rewrite Htv. exact H2.
    - destruct (is_builtin c Dict) eqn:Hc; [|apply leads_throw].
      apply bool_decide_eq_true in Hc. destruct c; [|done]. injection Hc as ->. by apply record_leads. }
  destruct t1 as [tv|c|l a|a b|ts|fs], t2 as [tv'|c'|l' a'|a' b'|ts'|fs']; cbn [unify_arms];
    try (by apply leads_throw); try (by apply Hvar); try (by apply Hsym, Hvar).
  - case_decide; [|by apply Hvar]. apply leads_ret. unfold solved.
    rewrite !(unbound_subst σ) by done. by constructor.
  - case_decide; [|apply leads_throw]. subst. apply leads_ret, compat_refl.
  - apply within_app in HV1 as [? ?], HV2 as [? ?]. simpl in Hs.
    eapply leads_weaken; [apply pair_leads; split_and!; try done; lia|]. intros σ' ? _ [? ?]. by apply compat_app.
  - apply Hsym, Hdict; [done..|lia].
  - apply within_fun in HV1 as [? ?], HV2 as [? ?]. simpl in Hs.
    eapply leads_weaken; [apply pair_leads; split_and!; try done; lia|]. intros σ' ? _ [? ?]. by apply compat_fun.
  - case_decide as Hlen; [|apply leads_throw]. rewrite within_tuple in HV1. rewrite within_tuple in HV2.
    eapply leads_weaken.
    + apply (iter_leads (fun n (p : ty * ty) => unifier_unify n p.1 p.2) (fun p => p)); [done|].
      intros p σ1 Hp Hm1. apply call_now; [|done].
      pose proof (zip_sizes (map (subst σ) ts) (map (subst σ) ts') (subst σ p.1, subst σ p.2)
        ltac:(apply elem_of_zip_map; eauto)). apply elem_of_zip_with in Hp as (? & ? & -> & ? & ?).
      split_and!; [by apply HV1|by apply HV2|simpl in *; lia].
    + intros σ' ? _ H. unfold solved. cbn [subst]. apply compat_tuple; [by rewrite !length_map|].
      intros p (q & Hq & ->)%elem_of_zip_map. by apply H.
  - by apply Hdict.
  - case_decide as Hlen; [|apply leads_throw]. rewrite within_record in HV1. rewrite within_record in HV2.
    assert (forall p, p ∈ zip fs fs' -> callable p.1.2 p.2.2) as Hcall.
    { intros p Hp.
      pose proof (zip_field_sizes (map (fun f => (f.1, subst σ f.2)) fs) (map (fun f => (f.1, subst σ f.2)) fs')
        ((p.1.1, subst σ p.1.2), (p.2.1, subst σ p.2.2)) ltac:(apply elem_of_zip_map; eauto)).
      apply elem_of_zip_with in Hp as (? & ? & -> & ? & ?). split_and!; [by apply HV1|by apply HV2|simpl in *; lia]. }
    assert (forall l σ1, moves V σ σ1 -> (forall p, p ∈ l -> callable p.1.2 p.2.2) ->
      leads V σ1 (fun n => run_iter (fun p : (Symbol * ty) * (Symbol * ty) =>
        if decide (p.1.1 = p.2.1) then unifier_unify n p.1.2 p.2.2 else clash p.1.2 p.2.2) l)
      (fun σ' _ => forall p, p ∈ l -> p.1.1 = p.2.1 /\ compat (subst σ' p.1.2) (subst σ' p.2.2))) as Hl.
    { clear -calls. induction l as [|p l IHl]; intros σ1 Hm1 Hc; simpl.
      { apply leads_ret. intros p []%not_elem_of_nil. }
      case_decide as Hn.
      - eapply (leads_then V σ1 (fun n => unifier_unify n p.1.2 p.2.2)
          (fun n _ => run_iter (fun p : (Symbol * ty) * (Symbol * ty) =>
             if decide (p.1.1 = p.2.1) then unifier_unify n p.1.2 p.2.2 else clash p.1.2 p.2.2) l)).
        { apply call_now; [|done]. apply Hc. by left. }
        intros σ2 ? Hm2 H2. eapply leads_weaken.
        { apply IHl; [by eapply moves_trans|]. intros q Hq. apply Hc. by right. }
        intros σ3 ? Hm3 Hl q [->|Hq]%elem_of_cons; [|by apply Hl].
        split; [done|]. eapply extends_compat; [apply Hm3|done].
      - eapply (leads_then V σ1 (fun _ => clash p.1.2 p.2.2) (fun n _ => run_iter _ l) (fun _ _ => False));
          [apply leads_throw|done]. }
    eapply leads_weaken; [by apply Hl|]. intros σ' ? _ H. unfold solved. cbn [subst].
    apply compat_record; [by rewrite !length_map|..];
      intros p (q & Hq & ->)%elem_of_zip_map; simpl; by apply H.
Qed.
End Arms.

Lemma unify_leads V k : forall s σ t1 t2,
  size (open_vars V σ) <= k -> within V σ t1 -> within V σ t2 ->
  ty_size (subst σ t1) + ty_size (subst σ t2) <= s ->
  leads V σ (fun n => unifier_unify n t1 t2) (solved t1 t2).
Proof.
  induction k as [k IHk] using lt_wf_ind. induction s as [s IHs] using lt_wf_ind.
  intros σ t1 t2 Hk H1 H2 Hs. apply leads_settled. intros Hset.
  eapply leads_S; [intros n; cbn [unifier_unify]; reflexivity|].
  apply (leads_reads V σ (fun n => prune n t1) (fun n t1 => let~ t2 := prune n t2 in unify_arms n (unifier_unify n) t1 t2)
    (subst σ t1)); [apply prune_reads|].
  apply (leads_reads V σ (fun n => prune n t2) (fun n t2 => unify_arms n (unifier_unify n) (subst σ t1) t2)
    (subst σ t2)); [apply prune_reads|].
  eapply leads_weaken.
  - apply (arms_leads V σ s); try done. intros σ' a b Hm Ha Hb Hlt.
    destruct (moves_progress _ _ _ Hm) as [->|Hp].
    + eapply (IHs (ty_size (subst σ a) + ty_size (subst σ b))); [by apply Hlt|done..].
    + eapply (IHk (size (open_vars V σ'))); [lia|done..].
  - intros σ' ? Hm H. unfold solved in *. by rewrite !(moves_extends _ _ _ Hm) in H.
Qed.

(** C10. Unification ends on all types, and is sound on them, records against
    dictionaries and applied type variables included: whatever equations a
    unifier has solved before, with enough fuel it answers; if it succeeds, the
    two types are compatible under what its bindings now stand for, every earlier
    equation is still solved, and only open variables of the two types have been
    bound. *)
Theorem unifier_sound t1 t2 st σ :
  closure_of st σ ->
  exists r st', steps (fun n => unifier_unify n t1 t2) st r st' /\
    match r with
    | Ok _ => exists σ', closure_of st' σ' /\ compat (apply σ' t1) (apply σ' t2) /\
        (forall a b, compat (apply σ a) (apply σ b) -> compat (apply σ' a) (apply σ' b)) /\
        (forall x, x ∉ ftv (apply σ t1) -> x ∉ ftv (apply σ t2) -> σ !! x = None -> σ' !! x = None)
    | Err _ => True
    end.
Proof.
  intros Hc. set (V := vars (subst σ t1) ∪ vars (subst σ t2)).
  destruct (unify_leads V (size (open_vars V σ)) _ σ t1 t2 ltac:(lia)
    ltac:(unfold within; set_solver) ltac:(unfold within; set_solver) ltac:(reflexivity) st Hc) as (r & st' & H & Hr).
  exists r, st'. split; [done|]. destruct r as [u|]; [|done]. destruct Hr as (σ' & Hc' & Hm & Hs).
  exists σ'. rewrite !apply_subst. split_and!; [done|exact Hs|..].
  - intros a b. rewrite !apply_subst. apply extends_compat, Hm.
  - intros x. rewrite !ftv_vars. intros ?? Hx. apply (moves_only _ _ _ Hm); [set_solver|done].
Qed.

Lemma unifier_sound_witness :
  let v n := TVar (TypeVar_new n None) in
  let t1 := TRecord [("a", ty_builtin I32); ("b", v 0)] in
  let t2 := TApp (v 1) (v 2) in
  closure_of (Unifier_new None) ∅ /\
  (exists st', unifier_unify 9 t1 t2 (Unifier_new None) = Some (Ok tt, st')) /\
  exists r st', steps (fun n => unifier_unify n t1 t2) (Unifier_new None) r st' /\
    match r with
    | Ok _ => exists σ', closure_of st' σ' /\ compat (apply σ' t1) (apply σ' t2) /\
        (forall a b, compat (apply ∅ a) (apply ∅ b) -> compat (apply σ' a) (apply σ' b)) /\
        (forall x, x ∉ ftv (apply ∅ t1) -> x ∉ ftv (apply ∅ t2) -> (∅ : Subst) !! x = None -> σ' !! x = None)
    | Err _ => True
    end.
Proof.
  intros v t1 t2. assert (closure_of (Unifier_new None) ∅) as Hc by apply closure_new.
  split; [exact Hc|]. split; [eexists; vm_compute; reflexivity|].
  exact (unifier_sound t1 t2 _ ∅ Hc).
Defined.
