(* ===== verification/Syntax.v ===== *)
(** The parts of the syntax tree ([rex-ast/src/ast.rs]) that the type system and
    the engine carry: variables, names, patterns, and the typed expressions of
    [rex-typesystem/src/types.rs]. Payloads of external types are their values:
    an [f64] is its bit pattern, a [Uuid] its 128-bit value, a [DateTime<Utc>]
    its offset from the epoch in nanoseconds, a [char] its code point. *)

From S2P Require Import Prelude Span Types.

Record Var : Type := mkVar { var_span : Span; var_name : Symbol }.

Inductive NameRef : Type :=
  | Unqualified (s : Symbol)
  | Qualified (dotted : Symbol) (segments : list Symbol).

Definition to_dotted_symbol (n : NameRef) : Symbol :=
  match n with Unqualified s => s | Qualified dotted _ => dotted end.

Definition as_segments (n : NameRef) : list Symbol :=
  match n with Unqualified s => [s] | Qualified _ segments => segments end.

Definition from_segments (segments : list Symbol) : NameRef :=
  match segments with
  | [s] => Unqualified s
  | _ => Qualified (join "." segments) segments
  end.

Inductive Pattern : Type :=
  | PWildcard (span : Span)
  | PVar (v : Var)
  | PNamed (span : Span) (name : NameRef) (args : list Pattern)
  | PTuple (span : Span) (ps : list Pattern)
  | PList (span : Span) (ps : list Pattern)
  | PCons (span : Span) (head tail : Pattern)
  | PDict (span : Span) (fields : list (Symbol * Pattern)).

Definition Pattern_span (p : Pattern) : Span :=
  match p with
  | PWildcard span => span
  | PVar v => var_span v
  | PNamed span _ _ | PTuple span _ | PList span _ | PCons span _ _ | PDict span _ => span
  end.

(** Induction on patterns. *)

Fixpoint Pattern_ind' (P : Pattern -> Prop) (Hw : forall s, P (PWildcard s)) (Hv : forall v, P (PVar v))
    (Hn : forall s n ps, Forall P ps -> P (PNamed s n ps)) (Ht : forall s ps, Forall P ps -> P (PTuple s ps))
    (Hl : forall s ps, Forall P ps -> P (PList s ps)) (Hc : forall s p q, P p -> P q -> P (PCons s p q))
    (Hd : forall s fs, Forall (fun f => P f.2) fs -> P (PDict s fs)) (p : Pattern) : P p :=
  let rec := Pattern_ind' P Hw Hv Hn Ht Hl Hc Hd in
  let all := fix all (ps : list Pattern) : Forall P ps :=
    match ps with [] => List.Forall_nil _ | q :: ps => List.Forall_cons _ _ _ (rec q) (all ps) end in
  let all_fields := fix all (fs : list (Symbol * Pattern)) : Forall (fun f => P f.2) fs :=
    match fs with [] => List.Forall_nil _ | f :: fs => List.Forall_cons _ _ _ (rec f.2) (all fs) end in
  match p with
  | PWildcard s => Hw s
  | PVar v => Hv v
  | PNamed s n ps => Hn s n ps (all ps)
  | PTuple s ps => Ht s ps (all ps)
  | PList s ps => Hl s ps (all ps)
  | PCons s p q => Hc s p q (rec p) (rec q)
  | PDict s fs => Hd s fs (all_fields fs)
  end.

(** A [BTreeMap] inside a typed expression is the list of its entries in key
    order. *)
Inductive TypedExpr : Type :=
  | mkTypedExpr (typ : ty) (kind : TypedExprKind)
with TypedExprKind : Type :=
  | EBool (b : bool)
  | EUint (n : N)
  | EInt (z : Z)
  | EFloat (bits : N)
  | EChar (c : N)
  | EString (s : string)
  | EUuid (u : N)
  | EDateTime (nanos : Z)
  | EHole
  | ETuple (elems : list TypedExpr)
  | EList (elems : list TypedExpr)
  | EDict (entries : list (Symbol * TypedExpr))
  | ERecordUpdate (base : TypedExpr) (updates : list (Symbol * TypedExpr))
  | EClassMethod (name : Symbol)
  | EVar (name : Symbol) (overloads : list ty)
  | EApp (f x : TypedExpr)
  | EProject (expr : TypedExpr) (field : Symbol)
  | ELam (param : Symbol) (body : TypedExpr)
  | ELet (name : Symbol) (def body : TypedExpr)
  | ELetRec (bindings : list (Symbol * TypedExpr)) (body : TypedExpr)
  | EIte (cond then_expr else_expr : TypedExpr)
  | EMatch (scrutinee : TypedExpr) (arms : list (Pattern * TypedExpr)).
