(* ===== verification/TypedExprs.v ===== *)
(** Substitution on typed expressions: [TypedExpr::apply] of
    [rex-typesystem/src/types.rs], whose loops over chains of applications and
    lambdas save stack, and the structural function it computes. *)

From S2P Require Import Prelude Span Types Syntax.

Definition te_typ (e : TypedExpr) : ty := let 'mkTypedExpr t _ := e in t.
Definition te_kind (e : TypedExpr) : TypedExprKind := let 'mkTypedExpr _ k := e in k.

(** The direct subexpressions. *)
Definition te_children (e : TypedExpr) : list TypedExpr :=
  match te_kind e with
  | ETuple elems | EList elems => elems
  | EDict entries => map snd entries
  | ERecordUpdate base updates => base :: map snd updates
  | EApp f x => [f; x]
  | EProject expr _ => [expr]
  | ELam _ body => [body]
  | ELet _ def body => [def; body]
  | ELetRec bindings body => map snd bindings ++ [body]
  | EIte cond then_expr else_expr => [cond; then_expr; else_expr]
  | EMatch scrutinee arms => scrutinee :: map snd arms
  | _ => []
  end.

Fixpoint te_size (e : TypedExpr) : nat :=
  let 'mkTypedExpr _ k := e in
  S match k with
    | ETuple elems | EList elems => sum_list_with te_size elems
    | EDict entries => sum_list_with (fun f => te_size f.2) entries
    | ERecordUpdate base updates => te_size base + sum_list_with (fun f => te_size f.2) updates
    | EApp f x => te_size f + te_size x
    | EProject expr _ => te_size expr
    | ELam _ body => te_size body
    | ELet _ def body => te_size def + te_size body
    | ELetRec bindings body => sum_list_with (fun f => te_size f.2) bindings + te_size body
    | EIte cond then_expr else_expr => te_size cond + te_size then_expr + te_size else_expr
    | EMatch scrutinee arms => te_size scrutinee + sum_list_with (fun f => te_size f.2) arms
    | _ => 0
    end.

(** ** The chains *)

(** The loop of [collect_typed_app_chain]; [args] is reversed at its end. *)
Fixpoint app_chain (cur : TypedExpr) (args : list (ty * TypedExpr)) : TypedExpr * list (ty * TypedExpr) :=
  match cur with
  | mkTypedExpr typ (EApp f x) => app_chain f ((typ, x) :: args)
  | _ => (cur, args)
  end.
Definition collect_typed_app_chain (expr : TypedExpr) : TypedExpr * list (ty * TypedExpr) := app_chain expr [].

Record TypedTailAppFrame : Type := mkTailFrame {
  frame_head : TypedExpr; prefix_args : list (ty * TypedExpr); tail_result_type : ty }.

Definition is_app (e : TypedExpr) : bool := match te_kind e with EApp _ _ => true | _ => false end.

(** [Vec::pop]. *)
Definition pop {A} (l : list A) : option (A * list A) :=
  match rev l with [] => None | x :: l => Some (x, rev l) end.

(** The loop of [collect_typed_tail_app_chain]; each round goes to a subexpression. *)
Fixpoint tail_chain (fuel : nat) (cur : TypedExpr) (frames : list TypedTailAppFrame)
  : TypedExpr * list TypedTailAppFrame :=
  match fuel with
  | 0 => (cur, frames)
  | S fuel =>
      if is_app cur then
        let '(head, args) := collect_typed_app_chain cur in
        match pop args with
        | None => (cur, frames)
        | Some ((result_type, tail), args) =>
            if is_app tail then tail_chain fuel tail (frames ++ [mkTailFrame head args result_type]) else (cur, frames)
        end
      else (cur, frames)
  end.
Definition collect_typed_tail_app_chain (expr : TypedExpr) : option (TypedExpr * list TypedTailAppFrame) :=
  let '(cur, frames) := tail_chain (te_size expr) expr [] in
  if decide (frames = []) then None else Some (cur, frames).

(** The loop over nested lambdas. *)
Fixpoint lam_chain (s : Subst) (cur : TypedExpr) (params : list (Symbol * ty)) : TypedExpr * list (Symbol * ty) :=
  match cur with
  | mkTypedExpr typ (ELam param body) => lam_chain s body (params ++ [(param, apply s typ)])
  | _ => (cur, params)
  end.

(** The loop over the functions of applications. *)
Fixpoint apps_chain (s : Subst) (cur : TypedExpr) (apps : list (ty * TypedExpr)) : TypedExpr * list (ty * TypedExpr) :=
  match cur with
  | mkTypedExpr typ (EApp f x) => apps_chain s f (apps ++ [(apply s typ, x)])
  | _ => (cur, apps)
  end.

(** ** [TypedExpr::apply] *)

Section body.
Context (rec : TypedExpr -> TypedExpr) (s : Subst).

Definition apply_args (typed : TypedExpr) (args : list (ty * TypedExpr)) : TypedExpr :=
  foldl (fun typed a => mkTypedExpr (apply s a.1) (EApp typed (rec a.2))) typed args.

(** [kvs] are inserted in the order of their keys, which keeps it. *)
Definition apply_kind (k : TypedExprKind) : TypedExprKind :=
  let values {K} := map (fun f : K * TypedExpr => (f.1, rec f.2)) in
  match k with
  | ETuple elems => ETuple (map rec elems)
  | EList elems => EList (map rec elems)
  | EDict entries => EDict (values entries)
  | ERecordUpdate base updates => ERecordUpdate (rec base) (values updates)
  | EVar name overloads => EVar name (map (apply s) overloads)
  | EApp f x => EApp (rec f) (rec x)
  | EProject expr field => EProject (rec expr) field
  | ELam param body => ELam param (rec body)
  | ELet name def body => ELet name (rec def) (rec body)
  | ELetRec bindings body => ELetRec (values bindings) (rec body)
  | EIte cond then_expr else_expr => EIte (rec cond) (rec then_expr) (rec else_expr)
  | EMatch scrutinee arms => EMatch (rec scrutinee) (values arms)
  | k => k
  end.

Definition apply_body (e : TypedExpr) : TypedExpr :=
  match te_kind e with
  | ELam _ _ =>
      let '(cur, params) := lam_chain s e [] in
      foldr (fun p out => mkTypedExpr p.2 (ELam p.1 out)) (rec cur) params
  | EApp _ _ =>
      match collect_typed_tail_app_chain e with
      | Some (leaf, frames) =>
          foldr (fun frame out =>
                   mkTypedExpr (apply s (tail_result_type frame))
                     (EApp (apply_args (rec (frame_head frame)) (prefix_args frame)) out))
            (rec leaf) frames
      | None =>
          let '(cur, apps) := apps_chain s e [] in
          foldr (fun a out => mkTypedExpr a.1 (EApp out (rec a.2))) (rec cur) apps
      end
  | k => mkTypedExpr (apply s (te_typ e)) (apply_kind k)
  end.
End body.

(** Each call is on a smaller expression: one unit of fuel per node is enough. *)
Fixpoint apply_fuel (fuel : nat) (s : Subst) (e : TypedExpr) : TypedExpr :=
  match fuel with
  | 0 => e
  | S fuel => apply_body (apply_fuel fuel s) s e
  end.
Definition TypedExpr_apply (s : Subst) (e : TypedExpr) : TypedExpr := apply_fuel (te_size e) s e.

(** * The structural substitution *)

Fixpoint subst_expr (s : Subst) (e : TypedExpr) : TypedExpr :=
  let 'mkTypedExpr t k := e in mkTypedExpr (apply s t) (apply_kind (subst_expr s) s k).

(** * [TypedExpr::apply] is the structural substitution *)

Section reference.
Context (s : Subst).

Abbreviation subst := (subst_expr s).
Definition subst_args (typed : TypedExpr) (args : list (ty * TypedExpr)) : TypedExpr := apply_args subst s typed args.
Abbreviation args_size := (sum_list_with (fun a : ty * TypedExpr => te_size a.2)).

Lemma te_size_pos e : 1 <= te_size e.
Proof using. destruct e as [t k]. simpl. lia. Qed.

Lemma app_chain_spec : forall e args, exists l,
  app_chain e args = ((app_chain e []).1, l ++ args) /\ (app_chain e []).2 = l /\
  subst e = subst_args (subst (app_chain e []).1) l /\
  te_size (app_chain e []).1 + args_size l <= te_size e /\
  (forall t f x, e = mkTypedExpr t (EApp f x) ->
     exists l', l = l' ++ [(t, x)] /\ te_size (app_chain e []).1 + args_size l < te_size e).
Proof using.
  fix IH 1. intros [t k] args. destruct k; try (exists []; simpl; split_and!; try done; lia).
  destruct (IH f ((t, x) :: args)) as (l & H1 & H2 & H3 & H4 & _).
  destruct (IH f [(t, x)]) as (l' & H1' & H2' & _).
  assert (l' = l) as -> by congruence. clear H2'.
  exists (l ++ [(t, x)]). simpl. rewrite H1', H1. simpl.
  split_and!; [by rewrite <- app_assoc|done| | |].
  - unfold subst_args, apply_args. rewrite foldl_app. simpl. unfold subst_args, apply_args in H3. by rewrite <- H3.
  - rewrite sum_list_with_app. simpl. lia.
  - intros t' f' x' [= -> -> ->]. exists l. split; [done|]. rewrite sum_list_with_app. simpl. lia.
Qed.

Lemma pop_snoc {A} (l : list A) x : pop (l ++ [x]) = Some (x, l).
Proof using. unfold pop. rewrite rev_app_distr. simpl. by rewrite rev_involutive. Qed.

(** The expression that frames around a leaf stand for, and the number of its nodes. *)
Definition plug (frames : list TypedTailAppFrame) (leaf : TypedExpr) : TypedExpr :=
  foldr (fun frame out => mkTypedExpr (apply s (tail_result_type frame))
           (EApp (subst_args (subst (frame_head frame)) (prefix_args frame)) out)) leaf frames.
Definition frames_size (frames : list TypedTailAppFrame) : nat :=
  sum_list_with (fun f => te_size (frame_head f) + args_size (prefix_args f)) frames.

Lemma tail_chain_spec fuel : forall e frames, exists fs,
  tail_chain fuel e frames = ((tail_chain fuel e []).1, frames ++ fs) /\ (tail_chain fuel e []).2 = fs /\
  subst e = plug fs (subst (tail_chain fuel e []).1) /\
  te_size (tail_chain fuel e []).1 + frames_size fs <= te_size e /\
  (fs <> [] -> te_size (tail_chain fuel e []).1 + frames_size fs < te_size e).
Proof using.
  induction fuel as [|fuel IH]; intros e frames; simpl.
  { exists []. rewrite app_nil_r. split_and!; [done..|simpl; lia|done]. }
  destruct (is_app e) eqn:Happ; [|exists []; rewrite app_nil_r; split_and!; [done..|simpl; lia|done]].
  destruct e as [t k]. destruct k; try discriminate Happ. unfold collect_typed_app_chain.
  destruct (app_chain_spec (mkTypedExpr t (EApp f x)) []) as (l & _ & H2 & H3 & H4 & H5).
  destruct (H5 t f x eq_refl) as (l' & -> & H6). clear H5.
  destruct (app_chain (mkTypedExpr t (EApp f x)) []) as [head args]. cbn [fst snd] in *. subst args.
  rewrite pop_snoc. rewrite sum_list_with_app in H6. simpl in H6.
  destruct (is_app x); [|exists []; rewrite app_nil_r; split_and!; [done..|simpl; lia|done]].
  destruct (IH x (frames ++ [mkTailFrame head l' t])) as (fs & E1 & E2 & E3 & E4 & _).
  destruct (IH x [mkTailFrame head l' t]) as (fs' & E1' & E2' & _). simpl in E1'.
  assert (fs' = fs) as -> by congruence. clear E2'.
  exists (mkTailFrame head l' t :: fs). simpl. rewrite E1', E1. simpl.
  assert (Hsize : te_size (tail_chain fuel x []).1 + (te_size head + args_size l' + frames_size fs) < te_size (mkTypedExpr t (EApp f x)))
    by (simpl; lia).
  split_and!; [by rewrite <- app_assoc|done| |simpl in Hsize; lia|simpl in Hsize; lia].
  transitivity (subst (mkTypedExpr t (EApp f x))); [done|]. rewrite H3.
  unfold subst_args, apply_args. rewrite foldl_app. simpl. by rewrite <- E3.
Qed.

(** The rounds of [tail_chain] end before its fuel does. *)
Lemma tail_chain_enough fuel fuel' e frames :
  te_size e <= fuel -> te_size e <= fuel' -> tail_chain fuel e frames = tail_chain fuel' e frames.
Proof using s.
  revert fuel' e frames. induction fuel as [|fuel IH]; intros fuel' e frames; [pose proof (te_size_pos e); lia|].
  destruct fuel' as [|fuel']; [pose proof (te_size_pos e); lia|]. intros H1 H2. simpl.
  destruct (is_app e) eqn:Happ; [|done]. destruct e as [t k]. destruct k; try discriminate Happ.
  unfold collect_typed_app_chain.
  destruct (app_chain_spec (mkTypedExpr t (EApp f x)) []) as (l & _ & E2 & _ & _ & E5).
  destruct (E5 t f x eq_refl) as (l' & -> & E6). destruct (app_chain _ []) as [head args]. cbn [fst snd] in *.
  subst args. rewrite pop_snoc. destruct (is_app x); [|done]. simpl in H1, H2. apply IH; lia.
Qed.

Lemma lam_chain_spec : forall e params, exists ps,
  lam_chain s e params = ((lam_chain s e []).1, params ++ ps) /\ (lam_chain s e []).2 = ps /\
  subst e = foldr (fun p out => mkTypedExpr p.2 (ELam p.1 out)) (subst (lam_chain s e []).1) ps /\
  te_size (lam_chain s e []).1 + length ps <= te_size e.
Proof using.
  fix IH 1. intros [t k] params. destruct k; try (exists []; simpl; rewrite app_nil_r; split_and!; try done; lia).
  destruct (IH body (params ++ [(param, apply s t)])) as (ps & H1 & H2 & H3 & H4).
  destruct (IH body [(param, apply s t)]) as (ps' & H1' & H2' & _). assert (ps' = ps) as -> by congruence. clear H2'.
  exists ((param, apply s t) :: ps). simpl. rewrite H1', H1. simpl.
  split_and!; [by rewrite <- app_assoc|done|by rewrite <- H3|lia].
Qed.

Lemma apps_chain_spec : forall e apps, exists l,
  apps_chain s e apps = ((apps_chain s e []).1, apps ++ l) /\ (apps_chain s e []).2 = l /\
  subst e = foldr (fun a out => mkTypedExpr a.1 (EApp out (subst a.2))) (subst (apps_chain s e []).1) l /\
  te_size (apps_chain s e []).1 + args_size l + length l <= te_size e.
Proof using.
  fix IH 1. intros [t k] apps. destruct k; try (exists []; simpl; rewrite app_nil_r; split_and!; try done; lia).
  destruct (IH f (apps ++ [(apply s t, x)])) as (l & H1 & H2 & H3 & H4).
  destruct (IH f [(apply s t, x)]) as (l' & H1' & H2' & _). assert (l' = l) as -> by congruence. clear H2'.
  exists ((apply s t, x) :: l). simpl. rewrite H1', H1. simpl.
  split_and!; [by rewrite <- app_assoc|done|by rewrite <- H3|lia].
Qed.

Lemma in_sum {A} (f : A -> nat) l x : x ∈ l -> f x <= sum_list_with f l.
Proof using. induction 1; simpl; lia. Qed.

Lemma foldr_ext_in {A B} (f g : A -> B -> B) b l :
  (forall a b, a ∈ l -> f a b = g a b) -> foldr f b l = foldr g b l.
Proof using.
  induction l as [|a l IH]; intros H; simpl; [done|]. rewrite IH by (intros; apply H; by right). apply H. by left.
Qed.

(** One round of [apply], when the calls inside it do what they should. *)
Lemma apply_body_spec rec e :
  (forall e', te_size e' < te_size e -> rec e' = subst e') -> apply_body rec s e = subst e.
Proof using.
  intros Hrec. unfold apply_body.
  assert (Hargs : forall n args, args_size args + n < te_size e -> forall typed, apply_args rec s typed args = subst_args typed args).
  { intros n args Hn. unfold subst_args, apply_args. induction args as [|a args IH]; intros typed; simpl in *; [done|].
    rewrite Hrec by lia. apply IH. lia. }
  assert (Hvals : forall K (l : list (K * TypedExpr)), sum_list_with (fun f => te_size f.2) l < te_size e ->
            map (fun f => (f.1, rec f.2)) l = map (fun f => (f.1, subst f.2)) l).
  { intros K l. induction l as [|f l IH]; simpl; intros H; [done|]. rewrite Hrec, IH by lia. done. }
  assert (Hmap : forall l, sum_list_with te_size l < te_size e -> map rec l = map subst l).
  { induction l as [|x l IH]; simpl; intros H; [done|]. rewrite Hrec, IH by lia. done. }
  destruct e as [t k].
  destruct k; simpl te_kind; simpl te_typ; simpl in Hargs, Hvals, Hmap; simpl;
    try (rewrite ?Hvals, ?Hmap, ?Hrec by (simpl; lia); reflexivity).
  - (* applications *)
    unfold collect_typed_tail_app_chain.
    destruct (tail_chain_spec (te_size (mkTypedExpr t (EApp f x))) (mkTypedExpr t (EApp f x)) []) as (fs & E1 & E2 & E3 & _ & E5).
    rewrite E1. simpl. case_decide as Hnil.
    + destruct (apps_chain_spec (mkTypedExpr t (EApp f x)) []) as (l & A1 & A2 & A3 & A4).
      change (apps_chain s f [(apply s t, x)]) with (apps_chain s (mkTypedExpr t (EApp f x)) []).
      destruct (apps_chain s (mkTypedExpr t (EApp f x)) []) as [cur apps] eqn:Hc. cbn [fst snd] in *. subst apps.
      assert (Hl : l <> []).
      { intros ->. simpl in Hc. destruct (apps_chain_spec f [(apply s t, x)]) as (l' & B1 & _). by rewrite B1 in Hc. }
      rewrite Hrec by (destruct l; [done|]; simpl in A4; simpl; lia).
      transitivity (subst (mkTypedExpr t (EApp f x))); [|done]. rewrite A3. apply foldr_ext_in. intros a b Ha.
      apply (in_sum (fun a => te_size a.2)) in Ha. rewrite Hrec; [done|].
      destruct l; [done|]. simpl in A4, Ha |- *. lia.
    + transitivity (subst (mkTypedExpr t (EApp f x))); [|done]. rewrite E3. specialize (E5 Hnil). unfold plug.
      rewrite Hrec by (eapply Nat.le_lt_trans; [apply Nat.le_add_r|exact E5]). apply foldr_ext_in. intros frame out Hf.
      apply (in_sum (fun f => te_size (frame_head f) + args_size (prefix_args f))) in Hf.
      fold (frames_size fs) in Hf. rewrite Hrec by lia.
      rewrite (Hargs 0); [done|]. simpl in E5. lia.
  - (* lambdas *)
    destruct (lam_chain_spec (mkTypedExpr t (ELam param body)) []) as (ps & L1 & L2 & L3 & L4).
    change (lam_chain s body [(param, apply s t)]) with (lam_chain s (mkTypedExpr t (ELam param body)) []).
    assert (Hps : ps <> []).
    { intros ->. simpl in L1. destruct (lam_chain_spec body [(param, apply s t)]) as (ps' & B1 & _).
      simpl in L2. by rewrite B1 in L2. }
    rewrite L1, Hrec by (destruct ps; [done|]; simpl in L4; simpl; lia).
    transitivity (subst (mkTypedExpr t (ELam param body))); [by rewrite L3|done].
Qed.

Lemma apply_fuel_spec fuel e : te_size e <= fuel -> apply_fuel fuel s e = subst e.
Proof using.
  revert e. induction fuel as [|fuel IH]; intros e H; [pose proof (te_size_pos e); lia|]. simpl.
  apply apply_body_spec. intros e' He. apply IH. lia.
Qed.
End reference.

(** Substituting in a typed expression, with its loops over chains of lambdas and
    applications, is the structural substitution. *)
Theorem typed_apply_is_structural s e : TypedExpr_apply s e = subst_expr s e.
Proof. by apply apply_fuel_spec. Qed.

Lemma TypedExpr_apply_eq s e : TypedExpr_apply s e = subst_expr s e.
Proof. by apply apply_fuel_spec. Qed.
