(* ===== verification/Errors.v ===== *)
(** The engine's errors: [EngineError] of [rex-engine/src/error.rs]. The two
    variants that wrap a module error or a module identifier error are left out:
    no modelled code raises them. *)

From S2P Require Import Prelude Span Types.

Inductive EngineError : Type :=
  | UnknownVar (n : Symbol)
  | NotCallable (what : string)
  | NativeArity (name : Symbol) (expected got : nat)
  | NativeType (expected got : string)
  | ValueConversion (path expected got : string)
  | MatchFailure
  | ExpectedBool (got : string)
  | Type_ (e : TypeError)
  | AmbiguousOverload (name : Symbol)
  | MissingImpl (name : Symbol) (typ : string)
  | AmbiguousImpl (name : Symbol) (typ : string)
  | DuplicateImpl (name : Symbol) (typ : string)
  | MissingTypeclassImpl (class : Symbol) (typ : string)
  | AmbiguousTypeclassImpl (class : Symbol) (typ : string)
  | DuplicateTypeclassImpl (class : Symbol) (typ : string)
  | InvalidInjection (name : Symbol) (typ : string)
  | UnknownType (n : Symbol)
  | UnknownField (field : Symbol) (value : string)
  | UnsupportedExpr
  | MissingBody (context : string)
  | MissingMain
  | MainWithFinalExpression
  | DuplicateMainInput (name : string)
  | MainArityMismatch (declared inferred : nat)
  | MainInputMismatch (missing extra : list string)
  | EmptySequence
  | IndexOutOfBounds (name : Symbol) (index : Z) (len : nat)
  | Internal (message : string)
  | HeapStatePoisoned
  | Custom (message : string)
  | Suspended.

(** * Messages

    The texts of the [#[error(...)]] attributes. A [{:?}] of a string is
    Rust's debug form; [debug_char] covers the ASCII escapes, other bytes
    stand for themselves. *)

Definition debug_char (c : Ascii.ascii) : string :=
  match Ascii.nat_of_ascii c with
  | 0 => "\0" | 9 => "\t" | 10 => "\n" | 13 => "\r"
  | 34 => "\" +:+ String c "" | 92 => "\\"
  | _ => String c ""
  end.

Fixpoint debug_chars (s : string) : string :=
  match s with
  | EmptyString => ""
  | String c s' => debug_char c +:+ debug_chars s'
  end.

Definition quote : string := String (Ascii.ascii_of_nat 34) "".

Definition debug_string (s : string) : string := quote +:+ debug_chars s +:+ quote.

Definition debug_symbol (s : Symbol) : string := "Symbol(" +:+ debug_string s +:+ ")".

Definition debug_vec {A} (show : A -> string) (l : list A) : string :=
  "[" +:+ join ", " (map show l) +:+ "]".

Definition Position_show (p : Position) : string := pretty (line p) +:+ ":" +:+ pretty (column p).
Definition Span_show (s : Span) : string :=
  Position_show (begin s) +:+ " - " +:+ Position_show (end_ s).

Fixpoint TypeError_show (e : TypeError) : string :=
  match e with
  | Types.Unification a b => "types do not unify: " +:+ a +:+ " vs " +:+ b
  | Types.Occurs id t => "occurs check failed for " +:+ pretty id +:+ " in " +:+ t
  | Types.UnknownClass c => "unknown class " +:+ c
  | Types.NoInstance c t => "no instance for " +:+ c +:+ " " +:+ t
  | Types.UnknownTypeName n => "unknown type " +:+ n
  | Types.DuplicateTypeParameter n => "duplicate type parameter `" +:+ n +:+ "`"
  | Types.ReservedTypeName n => "cannot redefine reserved builtin type `" +:+ n +:+ "`"
  | Types.DuplicateValue n => "duplicate value definition `" +:+ n +:+ "`"
  | Types.DuplicateType n => "duplicate type definition `" +:+ n +:+ "`"
  | Types.CyclicTypeAlias n => "cyclic type alias involving `" +:+ n +:+ "`"
  | Types.DuplicateClass n => "duplicate class definition `" +:+ n +:+ "`"
  | Types.InvalidClassArity c got =>
      "class `" +:+ c +:+ "` must have at least one type parameter (got " +:+ pretty got +:+ ")"
  | Types.DuplicateClassMethod n => "duplicate class method `" +:+ n +:+ "`"
  | Types.UnknownInstanceMethod c m =>
      "unknown method `" +:+ m +:+ "` in instance of class `" +:+ c +:+ "`"
  | Types.MissingInstanceMethod c m =>
      "missing implementation of `" +:+ m +:+ "` for instance of class `" +:+ c +:+ "`"
  | Types.MissingInstanceConstraint m c t =>
      "instance method `" +:+ m +:+ "` requires constraint " +:+ c +:+ " " +:+ t +:+
      ", but it is not in the instance context"
  | Types.UnknownVar n => "unbound variable " +:+ n
  | Types.AmbiguousOverload n => "ambiguous overload for " +:+ n
  | Types.AmbiguousTypeVars vars cs =>
      "ambiguous type variable(s) " +:+ debug_vec pretty vars +:+ " in constraints: " +:+ cs
  | Types.KindMismatch c expected got t =>
      "kind mismatch for class `" +:+ c +:+ "`: expected " +:+ pretty expected +:+
      " type argument(s) remaining, got " +:+ pretty got +:+ " for " +:+ t
  | Types.MissingConstraints cs => "missing type class constraint(s): " +:+ cs
  | Types.UnsupportedExpr what => "unsupported expression " +:+ what
  | Types.UnknownField f t => "unknown field `" +:+ f +:+ "` on " +:+ t
  | Types.FieldNotKnown f t => "field `" +:+ f +:+ "` is not definitely available on " +:+ t
  | Types.PartialRecordConstructorRequiresSingleVariant c t =>
      "partial record constructor `" +:+ c +:+ "` requires a single-variant ADT, but " +:+ t +:+
      " has multiple variants"
  | Types.NonExhaustiveMatch t missing =>
      "non-exhaustive match for " +:+ t +:+ ": missing " +:+ debug_vec debug_symbol missing
  | Types.InvalidLetRecValueDependency b d =>
      "let rec value binding `" +:+ b +:+ "` cannot depend on `" +:+ d +:+
      "` before it is initialized"
  | Types.Spanned span error => "at " +:+ Span_show span +:+ ": " +:+ TypeError_show error
  | Types.Internal m => "internal error: " +:+ m
  end.

Definition EngineError_show (e : EngineError) : string :=
  match e with
  | UnknownVar n => "unknown variable `" +:+ n +:+ "`"
  | NotCallable what => "value is not callable: " +:+ what
  | NativeArity n expected got =>
      "native `" +:+ n +:+ "` expected " +:+ pretty expected +:+ " args, got " +:+ pretty got
  | NativeType expected got => "expected " +:+ expected +:+ ", got " +:+ got
  | ValueConversion path expected got =>
      "cannot convert Rex value at " +:+ path +:+ ": expected " +:+ expected +:+ ", got " +:+ got
  | MatchFailure => "pattern match failure"
  | ExpectedBool got => "expected boolean, got " +:+ got
  | Type_ e => "type error: " +:+ TypeError_show e
  | AmbiguousOverload n => "ambiguous overload for `" +:+ n +:+ "`"
  | MissingImpl n t => "no native implementation for `" +:+ n +:+ "` with type " +:+ t
  | AmbiguousImpl n t => "ambiguous native implementation for `" +:+ n +:+ "` with type " +:+ t
  | DuplicateImpl n t => "duplicate native implementation for `" +:+ n +:+ "` with type " +:+ t
  | MissingTypeclassImpl c t => "no type class instance for `" +:+ c +:+ "` with type " +:+ t
  | AmbiguousTypeclassImpl c t =>
      "ambiguous type class instance for `" +:+ c +:+ "` with type " +:+ t
  | DuplicateTypeclassImpl c t =>
      "duplicate type class instance for `" +:+ c +:+ "` with type " +:+ t
  | InvalidInjection n t => "injected `" +:+ n +:+ "` has incompatible type " +:+ t
  | UnknownType n => "unknown type for value in `" +:+ n +:+ "`"
  | UnknownField f v => "unknown field `" +:+ f +:+ "` on " +:+ v
  | UnsupportedExpr => "unsupported expression"
  | MissingBody context => context +:+ " must contain a final expression"
  | MissingMain => "program must define `main` or contain a final expression"
  | MainWithFinalExpression =>
      "program defines `main` and also has a final expression; remove one entry point"
  | DuplicateMainInput n => "duplicate `main` parameter `" +:+ n +:+ "`"
  | MainArityMismatch declared inferred =>
      "`main` declares " +:+ pretty declared +:+ " parameter(s), but its inferred type has " +:+
      pretty inferred +:+ " argument(s)"
  | MainInputMismatch missing extra =>
      "inputs do not match `main` parameters (missing: " +:+ debug_vec debug_string missing +:+
      ", extra: " +:+ debug_vec debug_string extra +:+ ")"
  | EmptySequence => "empty sequence"
  | IndexOutOfBounds n i len =>
      "index " +:+ pretty i +:+ " out of bounds in `" +:+ n +:+ "` (len " +:+ pretty len +:+ ")"
  | Internal m => "internal error: " +:+ m
  | HeapStatePoisoned => "heap state poisoned"
  | Custom m => m
  | Suspended => "Evaluation suspended"
  end.

(** * Computations that can fail or panic

    An engine operation returns an [EngineError], or panics where Rust does:
    an index out of range, an [expect] or a [debug_assert!] that does not
    hold. [Diverges] is the outcome of a loop that never ends; a definition
    that answers it is accompanied by a theorem that no number of rounds is
    enough. *)

Inductive fault : Type :=
  | Raised (e : EngineError)
  | Panic
  | Diverges.

Abbreviation exec A := (result fault A).

Definition raise {A} (e : EngineError) : exec A := Err (Raised e).
Definition panic {A} : exec A := Err Panic.

(** A loop that has run [fuel] rounds, [fuel] being enough for it to end if it
    ever does. *)
Definition from_fueled {A} (m : fueled fault A) : exec A :=
  match m with Some r => r | None => Err Diverges end.

(** [v[i]] and [v[i] = x]. *)
Definition index_vec {A} (v : list A) (i : nat) : exec A :=
  match v !! i with Some x => Ok x | None => panic end.
Definition store_vec {A} (v : list A) (i : nat) (x : A) : exec (list A) :=
  if decide (i < length v) then Ok (<[i := x]> v) else panic.

(** [v.swap(i, j)]. *)
Definition vec_swap {A} (v : list A) (i j : nat) : exec (list A) :=
  let? x := index_vec v i in
  let? y := index_vec v j in
  let? v' := store_vec v i y in
  store_vec v' j x.

(** A method that takes [&mut self] is a function from the object's state to its
    answer and the state it leaves, on errors too. *)
Definition ST (S A : Type) : Type := S -> exec A * S.

Section state.
Context {S : Type}.

Definition mret {A} (a : A) : ST S A := fun s => (Ok a, s).
Definition mlift {A} (f : S -> exec A) : ST S A := fun s => (f s, s).
Definition mthen {A B} (m : ST S A) (k : A -> ST S B) : ST S B := fun s =>
  match m s with
  | (Ok a, s') => k a s'
  | (Err e, s') => (Err e, s')
  end.

(** A loop that runs an operation on each element and collects the answers. *)
Fixpoint mapM_st {A B} (f : A -> ST S B) (l : list A) : ST S (list B) :=
  match l with
  | [] => mret []
  | x :: l' => mthen (f x) (fun y => mthen (mapM_st f l') (fun ys => mret (y :: ys)))
  end.
End state.

Notation "'let*' x ':=' m 'in' k" := (mthen m (fun x => k))
  (at level 10, x pattern, m at level 100, k at level 200) : rex_scope.

Lemma index_vec_Ok {A} (v : list A) i x : index_vec v i = Ok x <-> v !! i = Some x.
Proof. unfold index_vec. case_match; naive_solver. Qed.

Lemma store_vec_Ok {A} (v : list A) i x v' :
  store_vec v i x = Ok v' <-> i < length v /\ v' = <[i := x]> v.
Proof. unfold store_vec. case_decide; naive_solver. Qed.

Lemma vec_swap_Ok {A} (v : list A) i j x y :
  v !! i = Some x -> v !! j = Some y -> vec_swap v i j = Ok (<[j := x]> (<[i := y]> v)).
Proof.
  intros Hi Hj. unfold vec_swap, index_vec, store_vec. rewrite Hi, Hj; simpl.
  apply lookup_lt_Some in Hi, Hj. rewrite decide_True by done; simpl.
  by rewrite decide_True by (by rewrite length_insert).
Qed.
