(* ===== verification/Heap.v ===== *)
(** The heap of the engine: [rex-engine/src/memory/heap.rs].

    Data: pointers, cells, slots, root tokens and the collector's state; the
    traversal of a cell's edges; the checked accessors; the root table. The
    collector itself is in HeapCollect.

    Representation: an identifier, generation or epoch ([u64]) is a [Z]; a slot
    index ([u32] or [usize]) is a [nat] whose bounds the operations check where
    the code does; a [BTreeMap] is the list of its entries in key order; an
    [Arc<TypedExpr>] is its tree. *)

From S2P Require Import Prelude Span Types Syntax Errors.

(** * Data *)

Record InternalPtr : Type := mkPtr { ptr_heap_id : Z; ptr_index : nat; ptr_generation : Z }.
Record RootedPtr : Type := mkRoot { root_heap_id : Z; root_slot : nat; root_generation : Z }.

#[global] Instance InternalPtr_eq_dec : EqDecision InternalPtr.
Proof. solve_decision. Defined.
#[global] Instance RootedPtr_eq_dec : EqDecision RootedPtr.
Proof. solve_decision. Defined.

(** [pointer_key], an injective key. *)
Definition pointer_key (p : InternalPtr) : Z * nat * Z :=
  (ptr_heap_id p, ptr_index p, ptr_generation p).

#[global] Instance InternalPtr_countable : Countable InternalPtr.
Proof.
  apply (inj_countable' pointer_key (fun k => mkPtr k.1.1 k.1.2 k.2)). by intros [].
Defined.
#[global] Instance RootedPtr_countable : Countable RootedPtr.
Proof.
  apply (inj_countable' (fun r => (root_heap_id r, root_slot r, root_generation r))
           (fun k => mkRoot k.1.1 k.1.2 k.2)). by intros [].
Defined.

Inductive InternalEnvironment : Type :=
  | mkEnv (env_parent : option InternalEnvironment) (env_bindings : list (Symbol * InternalPtr)).

Record Closure : Type := mkClosure {
  clo_env : InternalEnvironment;
  clo_param : Symbol;
  clo_param_ty : ty;
  clo_typ : ty;
  clo_body : TypedExpr }.

Record NativeFn (P : Type) : Type := mkNativeFn {
  nat_id : Z;
  nat_name : Symbol;
  nat_arity : nat;
  nat_typ : ty;
  nat_applied : list P;
  nat_applied_types : list ty }.
Arguments mkNativeFn {P}. Arguments nat_id {P}. Arguments nat_name {P}. Arguments nat_arity {P}.
Arguments nat_typ {P}. Arguments nat_applied {P}. Arguments nat_applied_types {P}.

Record OverloadedFn (P : Type) : Type := mkOverloadedFn {
  ov_name : Symbol;
  ov_typ : ty;
  ov_applied : list P;
  ov_applied_types : list ty }.
Arguments mkOverloadedFn {P}. Arguments ov_name {P}. Arguments ov_typ {P}.
Arguments ov_applied {P}. Arguments ov_applied_types {P}.

(** Floats are their bit patterns, a [Uuid] and a [Hash] their numbers, a
    [DateTime] its nanoseconds from the epoch. *)
Inductive Cell : Type :=
  | CBool (b : bool)
  | CU8 (n : Z) | CU16 (n : Z) | CU32 (n : Z) | CU64 (n : Z)
  | CI8 (n : Z) | CI16 (n : Z) | CI32 (n : Z) | CI64 (n : Z)
  | CF32 (bits : N) | CF64 (bits : N)
  | CChar (c : N)
  | CString (s : string)
  | CUuid (u : N)
  | CHash (h : N)
  | CDateTime (nanos : Z)
  | CTuple (values : list InternalPtr)
  | CEmpty
  | CCons (head tail : InternalPtr)
  | CListSlice (start end_ : nat) (elements : InternalPtr)
  | CData (values : list InternalPtr)
  | CBinaryData (bytes : list Z)
  | CDict (values : list (string * InternalPtr))
  | CAdt (name : Symbol) (args : list InternalPtr)
  | CUninitialized (name : Symbol)
  | CClosure (c : Closure)
  | CNative (n : NativeFn InternalPtr)
  | COverloaded (o : OverloadedFn InternalPtr).

Record HeapSlot : Type := mkSlot { slot_generation : Z; slot_cell : option Cell }.
Record RootSlot : Type := mkRootSlot { rslot_generation : Z; rslot_pointer : option InternalPtr }.

Record Heap : Type := mkHeap {
  h_id : Z;
  slots : list HeapSlot;
  runtime_roots : list RootSlot;
  free_runtime_root_list : list nat;
  next_gc_slot_count : Z;
  extreme_stress : bool;
  collection_epoch : Z;
  defer_collection : bool }.

(** * Edges of a cell *)

Section traverse.
Context {S E : Type}.

(** A closure [FnMut(InternalPtr) -> Result<InternalPtr, E>] with captured state
    [S], applied to the pointers of a vector from the first to the last. *)
Fixpoint traverse (f : InternalPtr -> S -> result E (InternalPtr * S))
    (l : list InternalPtr) (s : S) : result E (list InternalPtr * S) :=
  match l with
  | [] => Ok ([], s)
  | p :: l' =>
      let? ps := f p s in
      let? rest := traverse f l' ps.2 in
      Ok (ps.1 :: rest.1, rest.2)
  end.

(** The values of a [BTreeMap], in key order. *)
Fixpoint traverse_fields {K} (f : InternalPtr -> S -> result E (InternalPtr * S))
    (l : list (K * InternalPtr)) (s : S) : result E (list (K * InternalPtr) * S) :=
  match l with
  | [] => Ok ([], s)
  | (k, p) :: l' =>
      let? ps := f p s in
      let? rest := traverse_fields f l' ps.2 in
      Ok ((k, ps.1) :: rest.1, rest.2)
  end.

(** The loop of [InternalEnvironment::map_pointers] from the innermost frame
    outwards; [entries] are the mapped frames. *)
Fixpoint traverse_frames (f : InternalPtr -> S -> result E (InternalPtr * S))
    (env : InternalEnvironment) (s : S) : result E (list (list (Symbol * InternalPtr)) * S) :=
  match env with
  | mkEnv parent bindings =>
      let? bs := traverse_fields f bindings s in
      match parent with
      | None => Ok ([bs.1], bs.2)
      | Some env' =>
          let? rest := traverse_frames f env' bs.2 in
          Ok (bs.1 :: rest.1, rest.2)
      end
  end.

(** The frames put back, from the outermost inwards. *)
Definition rebuild_frames (entries : list (list (Symbol * InternalPtr))) : InternalEnvironment :=
  default (mkEnv None [])
    (foldl (fun rebuilt bindings => Some (mkEnv rebuilt bindings)) None (rev entries)).

Definition env_map_pointers (f : InternalPtr -> S -> result E (InternalPtr * S))
    (env : InternalEnvironment) (s : S) : result E (InternalEnvironment * S) :=
  let? entries := traverse_frames f env s in
  Ok (rebuild_frames entries.1, entries.2).

(** [Cell::map_pointers]. *)
Definition map_pointers (f : InternalPtr -> S -> result E (InternalPtr * S))
    (c : Cell) (s : S) : result E (Cell * S) :=
  match c with
  | CTuple values => let? vs := traverse f values s in Ok (CTuple vs.1, vs.2)
  | CData values => let? vs := traverse f values s in Ok (CData vs.1, vs.2)
  | CAdt name values => let? vs := traverse f values s in Ok (CAdt name vs.1, vs.2)
  | CCons head tail =>
      let? h := f head s in
      let? t := f tail h.2 in
      Ok (CCons h.1 t.1, t.2)
  | CListSlice start end_ elements =>
      let? e := f elements s in Ok (CListSlice start end_ e.1, e.2)
  | CDict values => let? vs := traverse_fields f values s in Ok (CDict vs.1, vs.2)
  | CClosure c =>
      let? env := env_map_pointers f (clo_env c) s in
      Ok (CClosure (mkClosure env.1 (clo_param c) (clo_param_ty c) (clo_typ c) (clo_body c)), env.2)
  | CNative n =>
      let? vs := traverse f (nat_applied n) s in
      Ok (CNative (mkNativeFn (nat_id n) (nat_name n) (nat_arity n) (nat_typ n) vs.1
                     (nat_applied_types n)), vs.2)
  | COverloaded o =>
      let? vs := traverse f (ov_applied o) s in
      Ok (COverloaded (mkOverloadedFn (ov_name o) (ov_typ o) vs.1 (ov_applied_types o)), vs.2)
  | CBool _ | CU8 _ | CU16 _ | CU32 _ | CU64 _ | CI8 _ | CI16 _ | CI32 _ | CI64 _
  | CF32 _ | CF64 _ | CChar _ | CString _ | CUuid _ | CHash _ | CDateTime _
  | CBinaryData _ | CEmpty | CUninitialized _ => Ok (c, s)
  end.
End traverse.

(** [Collection::trace_pointers]: a [map_pointers] whose closure records each
    pointer and cannot fail. *)
Definition trace_pointers (c : Cell) : list InternalPtr :=
  match map_pointers (E:=Empty_set) (fun p out => Ok (p, out ++ [p])) c [] with
  | Ok (_, out) => out
  | Err never => match never with end
  end.

(** ** Reference: the pointers of a cell, and a cell with its pointers renamed *)

Fixpoint env_pointers (env : InternalEnvironment) : list InternalPtr :=
  match env with
  | mkEnv parent bindings =>
      map snd bindings ++ match parent with None => [] | Some env' => env_pointers env' end
  end.

Definition pointers (c : Cell) : list InternalPtr :=
  match c with
  | CTuple values | CData values | CAdt _ values => values
  | CCons head tail => [head; tail]
  | CListSlice _ _ elements => [elements]
  | CDict values => map snd values
  | CClosure c => env_pointers (clo_env c)
  | CNative n => nat_applied n
  | COverloaded o => ov_applied o
  | _ => []
  end.

Fixpoint env_rename (g : InternalPtr -> InternalPtr) (env : InternalEnvironment)
  : InternalEnvironment :=
  match env with
  | mkEnv parent bindings =>
      mkEnv (match parent with None => None | Some env' => Some (env_rename g env') end)
        (map (fun b => (b.1, g b.2)) bindings)
  end.

Definition rename (g : InternalPtr -> InternalPtr) (c : Cell) : Cell :=
  match c with
  | CTuple values => CTuple (map g values)
  | CData values => CData (map g values)
  | CAdt name values => CAdt name (map g values)
  | CCons head tail => CCons (g head) (g tail)
  | CListSlice start end_ elements => CListSlice start end_ (g elements)
  | CDict values => CDict (map (fun b => (b.1, g b.2)) values)
  | CClosure c =>
      CClosure (mkClosure (env_rename g (clo_env c)) (clo_param c) (clo_param_ty c) (clo_typ c)
                  (clo_body c))
  | CNative n =>
      CNative (mkNativeFn (nat_id n) (nat_name n) (nat_arity n) (nat_typ n) (map g (nat_applied n))
                 (nat_applied_types n))
  | COverloaded o =>
      COverloaded (mkOverloadedFn (ov_name o) (ov_typ o) (map g (ov_applied o)) (ov_applied_types o))
  | _ => c
  end.

(** * Errors of the heap *)

Definition invalid_pointer (heap_id : Z) (index : nat) (generation : Z) : EngineError :=
  Internal ("invalid heap pointer (heap_id=" +:+ pretty heap_id +:+ ", index=" +:+ pretty index +:+
            ", generation=" +:+ pretty generation +:+ ")").

Definition wrong_heap_pointer (pointer_heap_id heap_id : Z) (index : nat) (generation : Z)
  : EngineError :=
  Internal ("heap pointer belongs to different heap (pointer_heap_id=" +:+ pretty pointer_heap_id +:+
            ", heap_id=" +:+ pretty heap_id +:+ ", index=" +:+ pretty index +:+ ", generation=" +:+
            pretty generation +:+ ")").

Definition too_many_slots : EngineError := Internal "heap exhausted: too many slots".

(** [u32::try_from(i)] with the error the heap gives it. *)
Definition u32_try_from (i : nat) : exec nat :=
  if (Z.of_nat i <? u32_modulus)%Z then Ok i else raise too_many_slots.

(** * State and pure accessors *)

(** [Heap::new]; the process-wide counter's next value is the argument. *)
Definition DEFAULT_GC_SLOT_THRESHOLD : Z := 4096.
Definition GC_SLOT_GROWTH_NUMERATOR : Z := 3.
Definition GC_SLOT_GROWTH_DENOMINATOR : Z := 2.
Definition GC_EXTREME_STRESS : bool := false.

Definition Heap_new (id : Z) : Heap :=
  mkHeap id [] [] [] DEFAULT_GC_SLOT_THRESHOLD false 0 false.

Definition set_slots (f : list HeapSlot -> list HeapSlot) (h : Heap) : Heap :=
  mkHeap (h_id h) (f (slots h)) (runtime_roots h) (free_runtime_root_list h)
    (next_gc_slot_count h) (extreme_stress h) (collection_epoch h) (defer_collection h).
Definition set_roots (roots : list RootSlot) (free : list nat) (h : Heap) : Heap :=
  mkHeap (h_id h) (slots h) roots free
    (next_gc_slot_count h) (extreme_stress h) (collection_epoch h) (defer_collection h).
Definition set_defer_collection (b : bool) (h : Heap) : Heap :=
  mkHeap (h_id h) (slots h) (runtime_roots h) (free_runtime_root_list h)
    (next_gc_slot_count h) (extreme_stress h) (collection_epoch h) b.
Definition set_extreme_stress (b : bool) (h : Heap) : Heap :=
  mkHeap (h_id h) (slots h) (runtime_roots h) (free_runtime_root_list h)
    (next_gc_slot_count h) b (collection_epoch h) (defer_collection h).

Definition extreme_stress_enabled (h : Heap) : bool := GC_EXTREME_STRESS || extreme_stress h.

Definition collect_needed (h : Heap) : bool :=
  extreme_stress_enabled h || (next_gc_slot_count h <=? Z.of_nat (length (slots h)))%Z.

(** [usize] arithmetic that saturates. *)
Definition usize_saturating_add (a b : Z) : Z := Z.min (a + b) u64_max.
Definition usize_saturating_mul (a b : Z) : Z := Z.min (a * b) u64_max.

Definition gc_slot_count_after (live : Z) : Z :=
  let grown :=
    usize_saturating_add live
      (usize_saturating_mul live (GC_SLOT_GROWTH_NUMERATOR - GC_SLOT_GROWTH_DENOMINATOR)
       / GC_SLOT_GROWTH_DENOMINATOR)%Z in
  let with_slack := usize_saturating_add live DEFAULT_GC_SLOT_THRESHOLD in
  Z.max (Z.max grown with_slack) DEFAULT_GC_SLOT_THRESHOLD.

(** [finish_collection], with [update_next_gc_slot_count]. *)
Definition finish_collection (new_slots : list HeapSlot) (next_epoch : Z) (h : Heap) : Heap :=
  mkHeap (h_id h) new_slots (runtime_roots h) (free_runtime_root_list h)
    (gc_slot_count_after (Z.of_nat (length new_slots))) (extreme_stress h) next_epoch
    (defer_collection h).

Definition get_slot_checked (h : Heap) (p : InternalPtr) : exec HeapSlot :=
  if negb (ptr_heap_id p =? h_id h)%Z
  then raise (wrong_heap_pointer (ptr_heap_id p) (h_id h) (ptr_index p) (ptr_generation p))
  else
    match slots h !! ptr_index p with
    | None => raise (invalid_pointer (h_id h) (ptr_index p) (ptr_generation p))
    | Some slot =>
        if negb (slot_generation slot =? ptr_generation p)%Z || negb (bool_decide (is_Some (slot_cell slot)))
        then raise (invalid_pointer (h_id h) (ptr_index p) (ptr_generation p))
        else Ok slot
    end.

Definition get_cell_from_pointer (h : Heap) (p : InternalPtr) : exec Cell :=
  if negb (ptr_heap_id p =? h_id h)%Z
  then raise (wrong_heap_pointer (ptr_heap_id p) (h_id h) (ptr_index p) (ptr_generation p))
  else
    match slots h !! ptr_index p with
    | None => raise (invalid_pointer (h_id h) (ptr_index p) (ptr_generation p))
    | Some slot =>
        if negb (slot_generation slot =? ptr_generation p)%Z
        then raise (invalid_pointer (h_id h) (ptr_index p) (ptr_generation p))
        else
          match slot_cell slot with
          | Some c => Ok c
          | None => raise (invalid_pointer (h_id h) (ptr_index p) (ptr_generation p))
          end
    end.

(** * Operations that change the heap

    A method that takes [&mut self] is a function from the heap to its answer
    and the heap it leaves, on errors too: [ST] of Errors. *)

Abbreviation M A := (ST Heap A).

(** [push_cell] and [Reference::into_pointer]. *)
Definition push_cell (c : Cell) : M InternalPtr := fun h =>
  match u32_try_from (length (slots h)) with
  | Err e => (Err e, h)
  | Ok index =>
      (Ok (mkPtr (h_id h) index (collection_epoch h)),
       set_slots (fun s => s ++ [mkSlot (collection_epoch h) (Some c)]) h)
  end.

Definition overwrite (p : InternalPtr) (c : Cell) : M unit := fun h =>
  if negb (ptr_heap_id p =? h_id h)%Z
  then (raise (wrong_heap_pointer (ptr_heap_id p) (h_id h) (ptr_index p) (ptr_generation p)), h)
  else
    match slots h !! ptr_index p with
    | None => (raise (invalid_pointer (h_id h) (ptr_index p) (ptr_generation p)), h)
    | Some slot =>
        if negb (slot_generation slot =? ptr_generation p)%Z
        then (raise (invalid_pointer (h_id h) (ptr_index p) (ptr_generation p)), h)
        else (Ok tt, set_slots (<[ptr_index p := mkSlot (slot_generation slot) (Some c)]>) h)
    end.

(** ** The root table. [debug_assertions] says whether [debug_assert!] is
    compiled in. *)

Section roots.
Context (debug_assertions : bool).

Definition register_runtime_root (p : InternalPtr) : M RootedPtr := fun h =>
  match last (free_runtime_root_list h) with
  | Some slot =>
      match runtime_roots h !! slot with
      | None => (panic, h)
      | Some root =>
          if debug_assertions && bool_decide (is_Some (rslot_pointer root)) then (panic, h)
          else
            (Ok (mkRoot (h_id h) slot (rslot_generation root)),
             set_roots (<[slot := mkRootSlot (rslot_generation root) (Some p)]> (runtime_roots h))
               (removelast (free_runtime_root_list h)) h)
      end
  | None =>
      (Ok (mkRoot (h_id h) (length (runtime_roots h)) 0),
       set_roots (runtime_roots h ++ [mkRootSlot 0 (Some p)]) (free_runtime_root_list h) h)
  end.

Definition unregister_runtime_root (root : RootedPtr) : M unit := fun h =>
  if negb (root_heap_id root =? h_id h)%Z then (Ok tt, h)
  else
    match runtime_roots h !! root_slot root with
    | None => (Ok tt, h)
    | Some slot =>
        if negb (rslot_generation slot =? root_generation root)%Z
           || negb (bool_decide (is_Some (rslot_pointer slot)))
        then (Ok tt, h)
        else
          (Ok tt,
           set_roots
             (<[root_slot root := mkRootSlot (wrapping_add64 (rslot_generation slot) 1) None]>
                (runtime_roots h))
             (free_runtime_root_list h ++ [root_slot root]) h)
    end.

(** [resolve_runtime_root], and [RootScope::pointer], which has the same body. *)
Definition resolve_runtime_root (h : Heap) (root : RootedPtr) : exec InternalPtr :=
  if debug_assertions && negb (root_heap_id root =? h_id h)%Z then panic
  else
    let? slot := index_vec (runtime_roots h) (root_slot root) in
    if debug_assertions && negb (rslot_generation slot =? root_generation root)%Z then panic
    else match rslot_pointer slot with Some p => Ok p | None => panic end.
End roots.

(** * Reading a cell *)

Definition cell_type_name (c : Cell) : string :=
  match c with
  | CBool _ => "Bool" | CU8 _ => "u8" | CU16 _ => "u16" | CU32 _ => "u32" | CU64 _ => "u64"
  | CI8 _ => "i8" | CI16 _ => "i16" | CI32 _ => "i32" | CI64 _ => "i64"
  | CF32 _ => "f32" | CF64 _ => "f64" | CChar _ => "Char" | CString _ => "String"
  | CUuid _ => "UUID" | CHash _ => "Hash" | CDateTime _ => "DateTime" | CTuple _ => "tuple"
  | CEmpty | CCons _ _ | CListSlice _ _ _ => "list"
  | CData _ => "data" | CBinaryData _ => "binary_data" | CDict _ => "dict" | CAdt _ _ => "adt"
  | CUninitialized _ => "uninitialized" | CClosure _ => "closure" | CNative _ => "native"
  | COverloaded _ => "overloaded"
  end.

Definition cell_type_error (c : Cell) (expected : string) : EngineError :=
  NativeType expected (cell_type_name c).

Definition cell_as_bool (c : Cell) : exec bool :=
  match c with CBool v => Ok v | _ => raise (cell_type_error c "Bool") end.
Definition cell_as_u8 (c : Cell) : exec Z :=
  match c with CU8 v => Ok v | _ => raise (cell_type_error c "u8") end.
Definition cell_as_u16 (c : Cell) : exec Z :=
  match c with CU16 v => Ok v | _ => raise (cell_type_error c "u16") end.
Definition cell_as_u32 (c : Cell) : exec Z :=
  match c with CU32 v => Ok v | _ => raise (cell_type_error c "u32") end.
Definition cell_as_u64 (c : Cell) : exec Z :=
  match c with CU64 v => Ok v | _ => raise (cell_type_error c "u64") end.
Definition cell_as_i8 (c : Cell) : exec Z :=
  match c with CI8 v => Ok v | _ => raise (cell_type_error c "i8") end.
Definition cell_as_i16 (c : Cell) : exec Z :=
  match c with CI16 v => Ok v | _ => raise (cell_type_error c "i16") end.
Definition cell_as_i32 (c : Cell) : exec Z :=
  match c with CI32 v => Ok v | _ => raise (cell_type_error c "i32") end.
Definition cell_as_i64 (c : Cell) : exec Z :=
  match c with CI64 v => Ok v | _ => raise (cell_type_error c "i64") end.
Definition cell_as_f32 (c : Cell) : exec N :=
  match c with CF32 v => Ok v | _ => raise (cell_type_error c "f32") end.
Definition cell_as_f64 (c : Cell) : exec N :=
  match c with CF64 v => Ok v | _ => raise (cell_type_error c "f64") end.
Definition cell_as_char (c : Cell) : exec N :=
  match c with CChar v => Ok v | _ => raise (cell_type_error c "Char") end.
Definition cell_as_string (c : Cell) : exec string :=
  match c with CString v => Ok v | _ => raise (cell_type_error c "String") end.
Definition cell_as_uuid (c : Cell) : exec N :=
  match c with CUuid v => Ok v | _ => raise (cell_type_error c "UUID") end.
Definition cell_as_hash (c : Cell) : exec N :=
  match c with CHash v => Ok v | _ => raise (cell_type_error c "Hash") end.
Definition cell_as_datetime (c : Cell) : exec Z :=
  match c with CDateTime v => Ok v | _ => raise (cell_type_error c "DateTime") end.
Definition cell_as_tuple (c : Cell) : exec (list InternalPtr) :=
  match c with CTuple v => Ok v | _ => raise (cell_type_error c "tuple") end.
Definition cell_as_data (c : Cell) : exec (list InternalPtr) :=
  match c with CData v => Ok v | _ => raise (cell_type_error c "data") end.
Definition cell_as_dict (c : Cell) : exec (list (string * InternalPtr)) :=
  match c with CDict v => Ok v | _ => raise (cell_type_error c "dict") end.
Definition cell_as_adt (c : Cell) : exec (Symbol * list InternalPtr) :=
  match c with CAdt name args => Ok (name, args) | _ => raise (cell_type_error c "adt") end.

(** * Lemmas: traversals *)

Section traverse_lemmas.
Context {S E : Type} (f : InternalPtr -> S -> result E (InternalPtr * S)).

Lemma traverse_app l k s :
  traverse f (l ++ k) s =
    let? a := traverse f l s in
    let? b := traverse f k a.2 in
    Ok (a.1 ++ b.1, b.2).
Proof.
  revert s. induction l as [|p l IH]; intros s; simpl.
  { by destruct (traverse f k s) as [[]|]. }
  destruct (f p s) as [[q s']|e]; simpl; [|done]. rewrite IH.
  destruct (traverse f l s') as [[l' s'']|e]; simpl; [|done].
  by destruct (traverse f k s'') as [[]|].
Qed.

Lemma traverse_length l s r : traverse f l s = Ok r -> length r.1 = length l.
Proof.
  revert s r. induction l as [|p l IH]; intros s r; simpl; [by intros [= <-]|].
  intros ([q s'] & _ & ([l' s''] & Hl & [= <-])%rbind_Ok)%rbind_Ok. simpl. f_equal. by apply (IH _ _ Hl).
Qed.

Lemma traverse_fields_eq {K} (l : list (K * InternalPtr)) s :
  traverse_fields f l s =
    let? r := traverse f (map snd l) s in Ok (zip (map fst l) r.1, r.2).
Proof.
  revert s. induction l as [|[k p] l IH]; intros s; simpl; [done|].
  destruct (f p s) as [[q s']|e]; simpl; [|done]. rewrite IH.
  by destruct (traverse f (map snd l) s') as [[]|].
Qed.
End traverse_lemmas.

Fixpoint env_frames (env : InternalEnvironment) : list (list (Symbol * InternalPtr)) :=
  match env with
  | mkEnv parent bindings =>
      bindings :: match parent with None => [] | Some env' => env_frames env' end
  end.

Fixpoint InternalEnvironment_ind' (P : InternalEnvironment -> Prop)
    (Hnone : forall b, P (mkEnv None b)) (Hsome : forall e b, P e -> P (mkEnv (Some e) b))
    (env : InternalEnvironment) : P env :=
  match env with
  | mkEnv None b => Hnone b
  | mkEnv (Some e) b => Hsome e b (InternalEnvironment_ind' P Hnone Hsome e)
  end.

Lemma rebuild_env_frames env : rebuild_frames (env_frames env) = env.
Proof.
  unfold rebuild_frames.
  enough (foldl (fun rebuilt bindings => Some (mkEnv rebuilt bindings)) None (rev (env_frames env))
          = Some env) as -> by done.
  induction env as [b|e b IH] using InternalEnvironment_ind'; [done|].
  simpl. rewrite foldl_app. by rewrite IH.
Qed.

Lemma env_frames_rebuild b es : env_frames (rebuild_frames (b :: es)) = b :: es.
Proof.
  unfold rebuild_frames. revert b. induction es as [|b' es IH]; intros b; [done|].
  simpl. rewrite foldl_app. simpl. f_equal. specialize (IH b'). simpl in IH.
  destruct (foldl _ None (rev es ++ [b'])) as [env|] eqn:Henv; [exact IH|].
  rewrite foldl_app in Henv. done.
Qed.

Lemma env_pointers_frames env : env_pointers env = concat (map (map snd) (env_frames env)).
Proof. induction env as [b|e b IH] using InternalEnvironment_ind'; simpl; by rewrite ?IH. Qed.

Lemma zip_fst_map_snd {K} (g : InternalPtr -> InternalPtr) (l : list (K * InternalPtr)) :
  zip (map fst l) (map g (map snd l)) = map (fun b => (b.1, g b.2)) l.
Proof. induction l as [|[k p] l IH]; simpl; congruence. Qed.

Section map_pointers.
Context {S E : Type} (f : InternalPtr -> S -> result E (InternalPtr * S)).

Lemma traverse_frames_Ok g env s s' :
  traverse f (env_pointers env) s = Ok (map g (env_pointers env), s') ->
  traverse_frames f env s = Ok (env_frames (env_rename g env), s').
Proof.
  revert s. induction env as [b|e b IH] using InternalEnvironment_ind'; intros s; simpl.
  - rewrite app_nil_r, traverse_fields_eq. intros ->. simpl. by rewrite zip_fst_map_snd.
  - rewrite traverse_app, traverse_fields_eq.
    intros ([l s1] & Hl & ([k s2] & Hk & [= Heq ->])%rbind_Ok)%rbind_Ok. rewrite Hl. simpl in *.
    rewrite map_app in Heq. apply app_inj_1 in Heq as [-> ->].
    2:{ rewrite length_map. by apply (traverse_length f) in Hl. }
    rewrite (IH s1) by done. simpl. by rewrite zip_fst_map_snd.
Qed.

Lemma traverse_frames_Err env s e :
  traverse f (env_pointers env) s = Err e -> traverse_frames f env s = Err e.
Proof.
  revert s. induction env as [b|env b IH] using InternalEnvironment_ind'; intros s; simpl.
  - rewrite app_nil_r, traverse_fields_eq. by intros ->.
  - rewrite traverse_app, traverse_fields_eq.
    destruct (traverse f (map snd b) s) as [[l s1]|e1]; simpl; [|by intros [= ->]].
    destruct (traverse f (env_pointers env) s1) as [[]|] eqn:Ht; simpl; [done|].
    intros [= ->]. by rewrite (IH s1) by done.
Qed.

(** [map_pointers] visits exactly the pointers of a cell, in order, and puts the
    answers back in their places. *)
Lemma map_pointers_Ok g c s s' :
  traverse f (pointers c) s = Ok (map g (pointers c), s') ->
  map_pointers f c s = Ok (rename g c, s').
Proof.
  destruct c; simpl; try (by intros [= ->]); try (by intros ->).
  - destruct (f head s) as [[h s1]|]; simpl; [|done].
    destruct (f tail s1) as [[t s2]|]; simpl; [|done]. by intros [= <- <- ->].
  - destruct (f elements s) as [[e s1]|]; simpl; [|done]. by intros [= <- ->].
  - rewrite traverse_fields_eq. intros ->. simpl. by rewrite zip_fst_map_snd.
  - intros H. unfold env_map_pointers. rewrite (traverse_frames_Ok g) with (s' := s') by done.
    simpl. by rewrite rebuild_env_frames.
Qed.

Lemma map_pointers_Err c s e :
  traverse f (pointers c) s = Err e -> map_pointers f c s = Err e.
Proof.
  destruct c; simpl; try done; try (by intros ->).
  - destruct (f head s) as [[h s1]|e1]; simpl; [|by intros [= ->]].
    destruct (f tail s1) as [[t s2]|e1]; simpl; [done|by intros [= ->]].
  - destruct (f elements s) as [[]|]; simpl; [done|by intros [= ->]].
  - rewrite traverse_fields_eq. by intros ->.
  - intros H. unfold env_map_pointers. by rewrite (traverse_frames_Err _ _ e).
Qed.
End map_pointers.

Lemma trace_pointers_eq c : trace_pointers c = pointers c.
Proof.
  unfold trace_pointers.
  assert (H : forall l s, traverse (E:=Empty_set) (fun p out => Ok (p, out ++ [p])) l s
                          = Ok (map id l, s ++ l)).
  { induction l as [|p l IH]; intros s; simpl; [by rewrite app_nil_r|].
    rewrite IH. simpl. by rewrite <- app_assoc. }
  rewrite (map_pointers_Ok _ id c [] (pointers c)); [done|]. by rewrite H.
Qed.

Lemma env_pointers_rename g env : env_pointers (env_rename g env) = map g (env_pointers env).
Proof.
  induction env as [b|e b IH] using InternalEnvironment_ind'; simpl;
    rewrite ?map_app, ?IH, !map_map; done.
Qed.

Lemma pointers_rename g c : pointers (rename g c) = map g (pointers c).
Proof. destruct c; simpl; rewrite ?map_map; auto using env_pointers_rename. Qed.

Lemma map_ext_snd {K} (g g' : InternalPtr -> InternalPtr) (l : list (K * InternalPtr)) :
  Forall (fun p => g p = g' p) (map snd l) ->
  map (fun b => (b.1, g b.2)) l = map (fun b => (b.1, g' b.2)) l.
Proof. induction l as [|[k p] l IH]; [done|]. simpl. intros [-> ?]%Forall_cons. f_equal. auto. Qed.

Lemma map_ext_Forall (g g' : InternalPtr -> InternalPtr) l :
  Forall (fun p => g p = g' p) l -> map g l = map g' l.
Proof. induction 1; simpl; congruence. Qed.

Lemma env_rename_ext g g' env :
  Forall (fun p => g p = g' p) (env_pointers env) -> env_rename g env = env_rename g' env.
Proof.
  induction env as [b|e b IH] using InternalEnvironment_ind'; simpl.
  - rewrite app_nil_r. intros H. f_equal. by apply map_ext_snd.
  - intros [H1 H2]%Forall_app. rewrite (map_ext_snd g g') by done. by rewrite IH.
Qed.

Lemma rename_ext g g' c : Forall (fun p => g p = g' p) (pointers c) -> rename g c = rename g' c.
Proof.
  destruct c; simpl; intros H; try done.
  all: rewrite ?(map_ext_Forall g g') by done; try done.
  - by apply Forall_cons in H as [-> [-> _]%Forall_cons].
  - by apply Forall_cons in H as [-> _].
  - by rewrite (map_ext_snd g g').
  - by rewrite (env_rename_ext g g').
Qed.

Lemma env_rename_rename g g' env : env_rename g (env_rename g' env) = env_rename (fun p => g (g' p)) env.
Proof.
  induction env as [b|e b IH] using InternalEnvironment_ind'; simpl; by rewrite ?IH, map_map.
Qed.

Lemma rename_rename g g' c : rename g (rename g' c) = rename (fun p => g (g' p)) c.
Proof. destruct c; simpl; rewrite ?map_map, ?env_rename_rename; done. Qed.
