(* ===== verification/HeapStress.v ===== *)
(** The destinations of a copying collection: [randomized_gc_destinations] of
    [rex-engine/src/memory/heap.rs], which the collector uses under extreme
    stress. It must be a permutation, and, as its comment claims, must move
    every object when there are at least two. *)

From S2P Require Import Prelude Errors.

(** * Definitions *)

(** The 64-bit mixing steps on the random state. *)
Definition gc_random (random_state : Z) : Z :=
  let random := wrapping_mul64 (Z.lxor random_state (Z.shiftr random_state 30))
                  13787848793156543929 in
  let random := wrapping_mul64 (Z.lxor random (Z.shiftr random 27)) 10723151780598845931 in
  Z.lxor random (Z.shiftr random 31).

Definition gc_random_seed (completed_collections : Z) (len : nat) : Z :=
  Z.lxor (wrapping_mul64 (wrapping_add64 completed_collections 1) 11400714819323198485)
         (wrapping_mul64 (Z.of_nat len) 13787848793156543929).

(** The loop [for index in (1..len).rev()], from [index] down. *)
Fixpoint gc_shuffle (index : nat) (random_state : Z) (destinations : list nat)
  : exec (list nat) :=
  match index with
  | 0 => Ok destinations
  | S index' =>
      let random_state := wrapping_add64 random_state 11400714819323198485 in
      let random := gc_random random_state in
      let swap_index := Z.to_nat (random mod (Z.of_nat index + 1)) in
      let? destinations := vec_swap destinations index swap_index in
      gc_shuffle index' random_state destinations
  end.

(** The live positions whose destination is their old slot. *)
Fixpoint gc_fixed (live_index : nat) (destinations old_indices : list nat) : exec (list nat) :=
  match destinations with
  | [] => Ok []
  | destination :: destinations' =>
      let? old := index_vec old_indices live_index in
      let? rest := gc_fixed (S live_index) destinations' old_indices in
      Ok (if decide (destination = old) then live_index :: rest else rest)
  end.

Fixpoint index_all {A} (v : list A) (l : list nat) : exec (list A) :=
  match l with
  | [] => Ok []
  | i :: l' =>
      let? x := index_vec v i in
      let? xs := index_all v l' in
      Ok (x :: xs)
  end.

Fixpoint store_all {A} (v : list A) (l : list nat) (xs : list A) : exec (list A) :=
  match l, xs with
  | i :: l', x :: xs' =>
      let? v' := store_vec v i x in
      store_all v' l' xs'
  | _, _ => Ok v
  end.

(** [v.rotate_left(1)] of a non-empty vector. *)
Definition rotate_left1 {A} (v : list A) : list A :=
  match v with [] => [] | x :: v' => v' ++ [x] end.

Definition gc_repair (destinations fixed : list nat) : exec (list nat) :=
  match fixed with
  | [f] =>
      if decide (1 < length destinations)
      then vec_swap destinations f ((f + 1) mod length destinations)
      else Ok destinations
  | _ :: _ :: _ =>
      let? fixed_destinations := index_all destinations fixed in
      store_all destinations fixed (rotate_left1 fixed_destinations)
  | [] => Ok destinations
  end.

Definition randomized_gc_destinations (old_indices : list nat) (completed_collections : Z)
  : exec (list nat) :=
  let len := length old_indices in
  let? destinations :=
    gc_shuffle (len - 1) (gc_random_seed completed_collections len) (seq 0 len) in
  let? fixed := gc_fixed 0 destinations old_indices in
  gc_repair destinations fixed.

(** * Swaps and stores permute *)

Lemma vec_swap_perm {A} (v : list A) i j :
  i < length v -> j < length v -> exists v', vec_swap v i j = Ok v' /\ v' ≡ₚ v.
Proof.
  intros [x Hx]%lookup_lt_is_Some [y Hy]%lookup_lt_is_Some.
  exists (<[j := x]> (<[i := y]> v)). split; [by apply vec_swap_Ok|].
  by apply Permutation_insert_swap.
Qed.

Lemma gc_random_index (random : Z) (index : nat) :
  Z.to_nat (random mod (Z.of_nat index + 1)) <= index.
Proof. pose proof (Z.mod_pos_bound random (Z.of_nat index + 1)). lia. Qed.

Lemma gc_shuffle_perm index state d :
  index < length d \/ index = 0 -> exists d', gc_shuffle index state d = Ok d' /\ d' ≡ₚ d.
Proof.
  revert state d. induction index as [|index IH]; intros state d Hlen; cbn [gc_shuffle]; [eauto|].
  cbv zeta. pose proof (gc_random_index (gc_random (wrapping_add64 state 11400714819323198485)) (S index)).
  edestruct (vec_swap_perm d (S index)) as (d1 & -> & Hd1); [lia| |].
  2:{ cbn [rbind].
      edestruct (IH (wrapping_add64 state 11400714819323198485) d1) as (d' & -> & Hd');
        [rewrite Hd1; lia|]. exists d'. split; [done|]. by rewrite Hd'. }
  lia.
Qed.

(** The entries of a vector outside a set of positions. *)
Definition entries_at {A} (v : list A) (l : list nat) : list A := omap (fun i => v !! i) l.

Lemma entries_at_seq_app {A} (l v : list A) :
  entries_at (l ++ v) (seq (length l) (length v)) = v.
Proof.
  revert l. induction v as [|x v IH]; intros l; [done|]. simpl.
  rewrite (list_lookup_middle l v x) by done. f_equal.
  specialize (IH (l ++ [x])). rewrite <- app_assoc, length_app, Nat.add_1_r in IH. exact IH.
Qed.

Lemma entries_at_seq {A} (v : list A) : entries_at v (seq 0 (length v)) = v.
Proof. exact (entries_at_seq_app [] v). Qed.

Lemma entries_at_ext {A} (v w : list A) l :
  (forall i, i ∈ l -> v !! i = w !! i) -> entries_at v l = entries_at w l.
Proof.
  intros Hvw. induction l as [|i l IH]; [done|]. simpl.
  rewrite (Hvw i) by left. destruct (w !! i); [f_equal|]; apply IH; set_solver.
Qed.

Lemma entries_at_perm {A} (v : list A) l k : l ≡ₚ k -> entries_at v l ≡ₚ entries_at v k.
Proof. intros H. unfold entries_at. by rewrite H. Qed.

(** A vector is its entries at [l] and its entries elsewhere. *)
Lemma split_entries {A} (v : list A) l :
  NoDup l -> Forall (fun i => i < length v) l ->
  v ≡ₚ entries_at v l ++ entries_at v (filter (.∉ l) (seq 0 (length v))).
Proof.
  intros Hnd Hlt. rewrite Forall_forall in Hlt.
  rewrite <- (entries_at_seq v) at 1. unfold entries_at. rewrite <- omap_app.
  apply entries_at_perm. apply NoDup_Permutation.
  - apply NoDup_seq.
  - apply NoDup_app. split; [done|]. split; [|apply NoDup_filter, NoDup_seq].
    intros i Hi. rewrite list_elem_of_filter. naive_solver.
  - intros i. rewrite elem_of_app, list_elem_of_filter, elem_of_seq.
    destruct (decide (i ∈ l)); naive_solver lia.
Qed.

Lemma store_all_spec {A} (v : list A) l xs :
  NoDup l -> Forall (fun i => i < length v) l -> length xs = length l ->
  exists v', store_all v l xs = Ok v' /\ length v' = length v /\
    (forall k i, l !! k = Some i -> v' !! i = xs !! k) /\
    (forall i, i ∉ l -> v' !! i = v !! i).
Proof.
  revert v xs. induction l as [|i l IH]; intros v [|x xs]; simpl; try done.
  { intros _ _ _. exists v. split_and!; auto. intros k i. by rewrite lookup_nil. }
  intros [Hi Hnd]%NoDup_cons [Hlt Hall]%Forall_cons [= Hlen].
  unfold store_vec. rewrite decide_True by done; simpl.
  destruct (IH (<[i:=x]> v) xs) as (v' & -> & Hlen' & Hin & Hout); [done| |done|].
  { rewrite length_insert. done. }
  rewrite length_insert in Hlen'. exists v'. split_and!; [done|done| |].
  - intros [|k] j; simpl; [intros [= ->]|eauto].
    rewrite Hout by done. by rewrite list_lookup_insert_eq.
  - intros j [Hji Hj]%not_elem_of_cons. rewrite Hout by done. by rewrite list_lookup_insert_ne.
Qed.

Lemma entries_at_lookup {A} (v w : list A) l xs :
  (forall k i, l !! k = Some i -> v !! i = xs !! k) -> length xs = length l -> entries_at v l = xs.
Proof.
  revert xs. induction l as [|i l IH]; intros [|x xs]; try done.
  intros Hv [= Hlen]. simpl. rewrite (Hv 0 i eq_refl). simpl. f_equal.
  apply IH; [|done]. intros k j Hk. exact (Hv (S k) j Hk).
Qed.

Lemma store_all_perm {A} (v v' : list A) l xs :
  NoDup l -> Forall (fun i => i < length v) l -> xs ≡ₚ entries_at v l -> length xs = length l ->
  store_all v l xs = Ok v' -> v' ≡ₚ v.
Proof.
  intros Hnd Hlt Hxs Hlen Hv'.
  destruct (store_all_spec v l xs Hnd Hlt Hlen) as (w & Hw & Hlw & Hin & Hout).
  rewrite Hv' in Hw. injection Hw as ->.
  rewrite (split_entries w l), (split_entries v l); [|done..|by rewrite Hlw].
  rewrite (entries_at_lookup w w l xs), Hxs, Hlw by done. f_equiv.
  apply reflexive_eq, entries_at_ext. intros i [Hi _]%list_elem_of_filter. auto.
Qed.

Lemma index_all_Ok {A} (v : list A) l :
  Forall (fun i => i < length v) l ->
  exists xs, index_all v l = Ok xs /\ length xs = length l /\
    forall k i, l !! k = Some i -> v !! i = xs !! k.
Proof.
  induction 1 as [|i l Hi _ IH]; simpl.
  { exists []. split_and!; [done..|]. intros k i. by rewrite lookup_nil. }
  apply lookup_lt_is_Some in Hi as [x Hx]. unfold index_vec. rewrite Hx.
  destruct IH as (xs & -> & Hlen & Hxs). simpl. exists (x :: xs). split_and!; [done|simpl; lia|].
  intros [|k] j; simpl; [by intros [= ->]|eauto].
Qed.

Lemma rotate_left1_perm {A} (v : list A) : rotate_left1 v ≡ₚ v.
Proof. destruct v; [done|]. simpl. by rewrite Permutation_app_comm. Qed.

Lemma rotate_left1_lookup {A} (v : list A) k :
  k < length v -> rotate_left1 v !! k = v !! (if decide (S k = length v) then 0 else S k).
Proof.
  destruct v as [|x v]; simpl; [lia|]. intros Hk. case_decide.
  - rewrite list_lookup_middle; [done|]. lia.
  - by rewrite lookup_app_l by lia.
Qed.

(** * The fixed points *)

Lemma gc_fixed_Ok d old i :
  length old = i + length d ->
  exists l, gc_fixed i d old = Ok l /\ NoDup l /\
    forall k, k ∈ l <-> exists j x, k = i + j /\ d !! j = Some x /\ old !! k = Some x.
Proof.
  revert i. induction d as [|x d IH]; intros i Hlen; simpl in *.
  { exists []. split_and!; [done|constructor|]. intros k. split; [by intros ?%elem_of_nil|naive_solver]. }
  destruct (lookup_lt_is_Some_2 old i) as [o Ho]; [lia|].
  unfold index_vec. rewrite Ho. cbn [rbind].
  destruct (IH (S i)) as (l & -> & Hnd & Hl); [lia|]. cbn [rbind].
  assert (Hk : forall k, k ∈ l <-> exists j y, k = i + S j /\ d !! j = Some y /\ old !! k = Some y).
  { intros k. rewrite Hl. setoid_rewrite (Nat.add_succ_r i). done. }
  assert (Hi : i ∉ l) by (rewrite Hk; intros (j & y & ? & _); lia).
  eexists; split; [done|]. split; [case_decide; [by constructor|done]|].
  intros k. transitivity (k = i /\ x = o \/ k ∈ l); [case_decide; set_solver|].
  rewrite Hk. split.
  - intros [[-> ->]|(j & y & ? & ? & ?)]; [exists 0, o; by rewrite Nat.add_0_r|by exists (S j), y].
  - intros ([|j] & y & -> & Hd & Hy); [|right; by exists j, y].
    rewrite Nat.add_0_r in *. simpl in Hd. left. split; congruence.
Qed.

Definition no_fixed_point (destinations old_indices : list nat) : Prop :=
  forall i x, destinations !! i = Some x -> old_indices !! i = Some x -> False.

Definition is_fixed (d old : list nat) (i : nat) : Prop :=
  exists x, d !! i = Some x /\ old !! i = Some x.

Lemma is_fixed_lt d old i : is_fixed d old i -> i < length d.
Proof. intros (x & ?%lookup_lt_Some & _). done. Qed.

(** A lone fixed object trades its destination with another one. *)
Lemma gc_repair_one d old f :
  NoDup d -> NoDup old -> length old = length d -> 1 < length d ->
  (forall k, is_fixed d old k <-> k = f) ->
  exists d', gc_repair d [f] = Ok d' /\ d' ≡ₚ d /\ no_fixed_point d' old.
Proof.
  intros Hd Hold Hlen Hn Hf. destruct (proj2 (Hf f) eq_refl) as (x & Hx & Ho).
  pose proof (lookup_lt_Some _ _ _ Hx) as Hlt.
  assert (Hg : (f + 1) mod length d < length d) by (apply Nat.mod_upper_bound; lia).
  assert (Hgf : (f + 1) mod length d <> f).
  { destruct (decide (f + 1 = length d)) as [Heq|?]; [rewrite Heq, Nat.Div0.mod_same; lia|].
    rewrite Nat.mod_small; lia. }
  unfold gc_repair. rewrite decide_True by done.
  set (g := (f + 1) mod length d) in *. clearbody g.
  destruct (lookup_lt_is_Some_2 d g Hg) as [y Hy].
  rewrite (vec_swap_Ok d f g x y) by done.
  eexists; split; [done|]. split; [by apply Permutation_insert_swap|].
  intros i z Hi Hoi. destruct (decide (i = g)) as [->|Hig].
  - rewrite list_lookup_insert_eq in Hi by (by rewrite length_insert). simplify_eq.
    apply Hgf. by eapply (NoDup_lookup old).
  - rewrite list_lookup_insert_ne in Hi by done.
    destruct (decide (i = f)) as [->|Hif].
    + rewrite list_lookup_insert_eq in Hi by done. simplify_eq.
      apply Hgf. by eapply (NoDup_lookup d).
    + rewrite list_lookup_insert_ne in Hi by done. apply Hif, Hf. by exists z.
Qed.

(** Two or more fixed objects rotate their destinations. *)
Lemma gc_repair_many d old l :
  NoDup d -> NoDup old -> length old = length d -> NoDup l -> 1 < length l ->
  (forall k, is_fixed d old k <-> k ∈ l) ->
  exists d', gc_repair d l = Ok d' /\ d' ≡ₚ d /\ no_fixed_point d' old.
Proof.
  intros Hd Hold Hlen Hnd Hl Hf.
  assert (Hlt : Forall (fun i => i < length d) l).
  { apply Forall_forall. intros i Hi. by eapply is_fixed_lt, Hf. }
  destruct (index_all_Ok d l Hlt) as (xs & Hxs & Hlxs & Hlk).
  assert (Hrot : length (rotate_left1 xs) = length l) by (by rewrite rotate_left1_perm).
  destruct (store_all_spec d l (rotate_left1 xs) Hnd Hlt Hrot) as (d' & Hd' & Hld' & Hin & Hout).
  exists d'. split.
  { destruct l as [|f1 [|f2 l]]; simpl in Hl; [lia|lia|]. cbn [gc_repair].
    by rewrite Hxs; cbn [rbind]. }
  split.
  { eapply store_all_perm; [done|done| |done|done].
    rewrite rotate_left1_perm. by rewrite (entries_at_lookup d d l xs) by done. }
  intros i x Hi Hoi. destruct (decide (i ∈ l)) as [Hil|Hil].
  - apply list_elem_of_lookup in Hil as [k Hk]. pose proof (lookup_lt_Some _ _ _ Hk) as Hkl.
    rewrite (Hin k i Hk), rotate_left1_lookup in Hi by lia.
    set (k' := if decide (S k = length xs) then 0 else S k) in *.
    assert (Hk' : k' < length l /\ k' <> k) by (subst k'; case_decide; lia).
    destruct (lookup_lt_is_Some_2 l k') as [i' Hi']; [lia|].
    rewrite <- (Hlk k' i' Hi') in Hi.
    assert (Hfix : is_fixed d old i') by (apply Hf; by eapply list_elem_of_lookup_2).
    destruct Hfix as (y & Hy1 & Hy2). simplify_eq.
    assert (i = i') as <- by (by eapply (NoDup_lookup old)).
    apply (proj2 Hk'). by eapply (NoDup_lookup l).
  - rewrite Hout in Hi by done. apply Hil, Hf. by exists x.
Qed.

(** The destinations are a permutation of the new slots, for any old slots of
    distinct index; with two or more objects none stays in its slot. *)
Lemma randomized_gc_destinations_spec old epoch :
  NoDup old ->
  exists d, randomized_gc_destinations old epoch = Ok d /\ d ≡ₚ seq 0 (length old) /\
    (1 < length old -> no_fixed_point d old).
Proof.
  intros Hold. unfold randomized_gc_destinations.
  destruct (gc_shuffle_perm (length old - 1) (gc_random_seed epoch (length old)) (seq 0 (length old)))
    as (d & -> & Hd); [rewrite length_seq; lia|]. cbn [rbind].
  assert (Hlen : length d = length old) by (by rewrite Hd, length_seq).
  assert (Hnd : NoDup d) by (rewrite Hd; apply NoDup_seq).
  destruct (gc_fixed_Ok d old 0) as (l & -> & Hl & Hfix); [lia|]. cbn [rbind].
  assert (Hf : forall k, is_fixed d old k <-> k ∈ l).
  { intros k. rewrite Hfix. unfold is_fixed. split; [naive_solver|].
    intros (j & x & -> & ?). naive_solver. }
  destruct (decide (1 < length l)) as [Hmany|Hfew].
  { destruct (gc_repair_many d old l) as (d' & -> & Hp & Hno); [done..|].
    exists d'. split; [done|]. split; [by rewrite Hp|auto]. }
  destruct l as [|f [|? ?]]; simpl in Hfew; [..|lia].
  - exists d. split_and!; [done|done|]. intros _ i x Hi Ho.
    apply (not_elem_of_nil i), Hf. by exists x.
  - destruct (decide (1 < length d)) as [Hn|Hn].
    + destruct (gc_repair_one d old f) as (d' & -> & Hp & Hno);
        [done|done|lia|done| |exists d'; split; [done|]; split; [by rewrite Hp|auto]].
      intros k. rewrite Hf. set_solver.
    + exists d. unfold gc_repair. rewrite decide_False by done. split_and!; [done|done|lia].
Qed.

(** Under extreme stress the collector's destinations always exist, are a
    permutation of the new slots, and move every object as soon as there are
    two, whatever the old slots and the epoch. *)
Theorem gc_destinations_move_every_object old epoch (Hold : NoDup old) :
  exists d, randomized_gc_destinations old epoch = Ok d /\ d ≡ₚ seq 0 (length old) /\
    (1 < length old -> forall i x, d !! i = Some x -> old !! i <> Some x).
Proof.
  destruct (randomized_gc_destinations_spec old epoch Hold) as (d & Hd & Hp & Hno).
  exists d. split_and!; [done..|]. intros Hn i x Hi Ho. by apply (Hno Hn i x).
Qed.

Lemma gc_destinations_move_every_object_witness :
  NoDup [2; 0; 5; 1] /\
  exists d, randomized_gc_destinations [2; 0; 5; 1] 7 = Ok d /\ d ≡ₚ [0; 1; 2; 3] /\
    (1 < 4 -> forall i x, d !! i = Some x -> [2; 0; 5; 1] !! i <> Some x).
Proof.
  assert (H : NoDup [2; 0; 5; 1]) by (apply (bool_decide_unpack _); reflexivity).
  split; [exact H|]. exact (gc_destinations_move_every_object [2; 0; 5; 1] 7 H).
Defined.
