(* ===== verification/HeapTrace.v ===== *)
(** The marking phase of [Heap::collect] ([rex-engine/src/memory/heap.rs]): a
    breadth-first walk over the cells that the root table reaches. It always
    stops, and on a heap without dangling reachable edges it lists exactly the
    reachable cells, each once. *)

From S2P Require Import Prelude Span Types Syntax Errors Heap.

(** * Definitions *)

(** [self.runtime_roots.iter().filter_map(|slot| slot.pointer)]. *)
Definition root_pointers (h : Heap) : list InternalPtr :=
  omap rslot_pointer (runtime_roots h).

(** The [while let Some(pointer) = work.pop_front()] loop. *)
Fixpoint trace_loop (fuel : nat) (h : Heap) (work : list InternalPtr) (seen : list bool)
    (live : list (InternalPtr * Cell)) : fueled fault (list (InternalPtr * Cell)) :=
  match fuel with
  | 0 => None
  | S fuel =>
      match work with
      | [] => fret live
      | pointer :: work =>
          let! slot := Some (get_slot_checked h pointer) in
          let! seen_before := Some (index_vec seen (ptr_index pointer)) in
          if (seen_before : bool) then trace_loop fuel h work seen live
          else
            let! seen := Some (store_vec seen (ptr_index pointer) true) in
            match slot_cell slot with
            | None =>
                ferr (Raised (invalid_pointer (h_id h) (ptr_index pointer)
                                (ptr_generation pointer)))
            | Some cell =>
                trace_loop fuel h (work ++ trace_pointers cell) seen (live ++ [(pointer, cell)])
            end
      end
  end.

(** Each pointer enters the work list once as a root or once as an edge of a
    cell, and a cell's edges enter once. *)
Definition slot_edges (s : HeapSlot) : nat :=
  match slot_cell s with None => 0 | Some c => length (pointers c) end.

Definition trace_fuel (h : Heap) : nat :=
  S (length (root_pointers h) + sum_list_with slot_edges (slots h)).

(** ** Reference: reachability *)

Definition cell_at (h : Heap) (p : InternalPtr) : option Cell :=
  match get_slot_checked h p with Ok s => slot_cell s | Err _ => None end.

Inductive reach (h : Heap) : InternalPtr -> Prop :=
  | reach_root p : p ∈ root_pointers h -> reach h p
  | reach_edge p c q : reach h p -> cell_at h p = Some c -> q ∈ pointers c -> reach h q.

(** No reachable pointer dangles. *)
Definition closed (h : Heap) : Prop := forall p, reach h p -> is_Some (cell_at h p).

(** * Lemmas: checked access *)

Lemma get_slot_checked_Ok h p s :
  get_slot_checked h p = Ok s <->
  ptr_heap_id p = h_id h /\ slots h !! ptr_index p = Some s /\
  slot_generation s = ptr_generation p /\ is_Some (slot_cell s).
Proof.
  unfold get_slot_checked. destruct (Z.eqb_spec (ptr_heap_id p) (h_id h)); simpl; [|naive_solver].
  destruct (slots h !! ptr_index p) as [s'|]; [|naive_solver].
  destruct (Z.eqb_spec (slot_generation s') (ptr_generation p)); simpl; [|naive_solver].
  case_bool_decide; simpl; naive_solver.
Qed.

Lemma cell_at_Some h p c :
  cell_at h p = Some c <->
  ptr_heap_id p = h_id h /\ slots h !! ptr_index p = Some (mkSlot (ptr_generation p) (Some c)).
Proof.
  unfold cell_at. destruct (get_slot_checked h p) as [s|e] eqn:Hs.
  - apply get_slot_checked_Ok in Hs as (-> & -> & Hg & [c' Hc]). destruct s; simpl in *; naive_solver.
  - split; [done|]. intros [Hid Hsl].
    assert (get_slot_checked h p = Ok (mkSlot (ptr_generation p) (Some c))) as Ht.
    { apply get_slot_checked_Ok. eauto. }
    congruence.
Qed.

Lemma cell_at_get h p c :
  cell_at h p = Some c -> get_slot_checked h p = Ok (mkSlot (ptr_generation p) (Some c)).
Proof. intros [? ?]%cell_at_Some. apply get_slot_checked_Ok. eauto. Qed.

Lemma get_cell_from_pointer_Ok h p c :
  get_cell_from_pointer h p = Ok c <-> cell_at h p = Some c.
Proof.
  rewrite cell_at_Some. unfold get_cell_from_pointer.
  destruct (Z.eqb_spec (ptr_heap_id p) (h_id h)); simpl; [|naive_solver].
  destruct (slots h !! ptr_index p) as [[g c']|]; simpl; [|naive_solver].
  destruct (Z.eqb_spec g (ptr_generation p)); simpl; [|naive_solver].
  destruct c'; naive_solver.
Qed.

(** Two valid pointers to one slot are equal. *)
Lemma cell_at_index_inj h p q c d :
  cell_at h p = Some c -> cell_at h q = Some d -> ptr_index p = ptr_index q -> p = q.
Proof.
  rewrite !cell_at_Some. intros [Hp1 Hp2] [Hq1 Hq2] Hpq. rewrite Hpq in Hp2.
  destruct p, q; simpl in *; simplify_eq. done.
Qed.

Lemma cell_at_lt h p c : cell_at h p = Some c -> ptr_index p < length (slots h).
Proof. intros [_ ?%lookup_lt_Some]%cell_at_Some. done. Qed.

(** * Termination *)

(** The edges of the slots not yet seen. *)
Fixpoint unseen_edges (sl : list HeapSlot) (seen : list bool) : nat :=
  match sl, seen with
  | s :: sl, b :: seen => (if b then 0 else slot_edges s) + unseen_edges sl seen
  | _, _ => 0
  end.

Lemma unseen_edges_start sl :
  unseen_edges sl (replicate (length sl) false) = sum_list_with slot_edges sl.
Proof. induction sl; simpl; congruence. Qed.

Lemma unseen_edges_step sl seen i s :
  sl !! i = Some s -> seen !! i = Some false ->
  unseen_edges sl (<[i:=true]> seen) + slot_edges s = unseen_edges sl seen.
Proof.
  revert seen i. induction sl as [|s' sl IH]; intros [|b seen] [|i]; simpl; try done.
  - intros [= ->] [= ->]. lia.
  - intros Hs Hb. rewrite <- (IH seen i) by done. lia.
Qed.

Lemma trace_loop_total fuel h work seen live :
  length work + unseen_edges (slots h) seen < fuel ->
  is_Some (trace_loop fuel h work seen live).
Proof.
  revert work seen live. induction fuel as [|fuel IH]; intros work seen live; [lia|].
  destruct work as [|p work]; simpl; [eauto|]. intros Hf.
  destruct (get_slot_checked h p) as [s|] eqn:Hs; simpl; [|eauto].
  unfold index_vec. destruct (seen !! ptr_index p) as [[]|] eqn:Hb; simpl; [..|eauto].
  { apply IH. lia. }
  destruct (store_vec seen (ptr_index p) true) as [seen'|] eqn:Hst; simpl; [|eauto].
  apply store_vec_Ok in Hst as [_ ->].
  destruct (slot_cell s) as [c|] eqn:Hc; [|eauto].
  apply get_slot_checked_Ok in Hs as (_ & Hs & _).
  apply IH. rewrite trace_pointers_eq, length_app.
  pose proof (unseen_edges_step _ _ _ _ Hs Hb) as Hstep. unfold slot_edges in Hstep at 1.
  rewrite Hc in Hstep. lia.
Qed.

Lemma trace_total h :
  is_Some (trace_loop (trace_fuel h) h (root_pointers h) (replicate (length (slots h)) false) []).
Proof. apply trace_loop_total. rewrite unseen_edges_start. unfold trace_fuel. lia. Qed.

(** The marking phase: the live pointers with their cells, in the order of the
    walk. *)
Definition trace (h : Heap) : exec (list (InternalPtr * Cell)) := is_Some_proj (trace_total h).

(** * The walk finds the reachable cells *)

Record trace_inv (h : Heap) (work : list InternalPtr) (seen : list bool)
    (live : list (InternalPtr * Cell)) : Prop := {
  ti_length : length seen = length (slots h);
  ti_seen : forall i, seen !! i = Some true <-> i ∈ map (fun x => ptr_index x.1) live;
  ti_nodup : NoDup (map (fun x => ptr_index x.1) live);
  ti_live : forall p c, (p, c) ∈ live -> reach h p /\ cell_at h p = Some c;
  ti_work : forall p, p ∈ work -> reach h p;
  ti_roots : forall p, p ∈ root_pointers h -> p ∈ work \/ p ∈ map fst live;
  ti_edges : forall p c q, (p, c) ∈ live -> q ∈ pointers c -> q ∈ work \/ q ∈ map fst live }.

Lemma trace_inv_start h :
  trace_inv h (root_pointers h) (replicate (length (slots h)) false) [].
Proof.
  split; simpl.
  - apply length_replicate.
  - intros i. split; [|by intros ?%elem_of_nil]. by intros [? _]%lookup_replicate_1.
  - constructor.
  - by intros p c ?%elem_of_nil.
  - apply reach_root.
  - auto.
  - by intros p c q ?%elem_of_nil.
Qed.

Lemma trace_inv_seen h p c work seen live :
  cell_at h p = Some c -> seen !! ptr_index p = Some true ->
  trace_inv h (p :: work) seen live -> trace_inv h work seen live.
Proof.
  intros Hc Hseen I.
  assert (Hp : p ∈ map fst live).
  { apply (ti_seen _ _ _ _ I) in Hseen. apply list_elem_of_fmap in Hseen as ([p' c'] & Hi & Hlive).
    destruct (ti_live _ _ _ _ I p' c' Hlive) as [_ Hc'].
    apply list_elem_of_fmap. exists (p', c'). split; [|done]. simpl in *. by eapply cell_at_index_inj. }
  destruct I as [H1 H2 H3 H4 H5 H6 H7]. split; auto.
  - intros q Hq. apply H5. by right.
  - intros q Hq. destruct (H6 q Hq) as [[->|?]%elem_of_cons|?]; auto.
  - intros q d r Hq Hr. destruct (H7 q d r Hq Hr) as [[->|?]%elem_of_cons|?]; auto.
Qed.

Lemma trace_inv_new h p c work seen live :
  cell_at h p = Some c -> seen !! ptr_index p = Some false ->
  trace_inv h (p :: work) seen live ->
  trace_inv h (work ++ pointers c) (<[ptr_index p := true]> seen) (live ++ [(p, c)]).
Proof.
  intros Hc Hseen [H1 H2 H3 H4 H5 H6 H7].
  assert (Hlt := cell_at_lt _ _ _ Hc). rewrite <- H1 in Hlt.
  assert (Hp : reach h p) by (apply H5; by left).
  split.
  - by rewrite length_insert.
  - intros i. rewrite map_app, elem_of_app, <- H2. simpl. rewrite list_elem_of_singleton.
    destruct (decide (i = ptr_index p)) as [->|Hi].
    + rewrite list_lookup_insert_eq by done. naive_solver.
    + rewrite list_lookup_insert_ne by done. naive_solver.
  - rewrite map_app. apply NoDup_app. split; [done|]. split; [|apply NoDup_singleton].
    intros i. rewrite <- H2. simpl. rewrite list_elem_of_singleton. intros ? ->. congruence.
  - intros q d [Hq|Hq]%elem_of_app; [auto|]. apply list_elem_of_singleton in Hq. naive_solver.
  - intros q [Hq|Hq]%elem_of_app; [apply H5; by right|]. by eapply reach_edge.
  - intros q Hq. rewrite map_app, !elem_of_app. simpl. rewrite list_elem_of_singleton.
    destruct (H6 q Hq) as [[->|?]%elem_of_cons|?]; auto.
  - intros q d r [Hq|Hq]%elem_of_app Hr; rewrite map_app, !elem_of_app; simpl.
    + rewrite list_elem_of_singleton. destruct (H7 q d r Hq Hr) as [[->|?]%elem_of_cons|?]; auto.
    + apply list_elem_of_singleton in Hq as [= -> ->]. auto.
Qed.

Lemma trace_loop_spec fuel h work seen live r :
  closed h -> trace_inv h work seen live -> trace_loop fuel h work seen live = Some r ->
  exists live' seen', r = Ok live' /\ trace_inv h [] seen' live'.
Proof.
  intros Hcl. revert work seen live. induction fuel as [|fuel IH]; intros work seen live I; [done|].
  destruct work as [|p work]; simpl; [intros [= <-]; eauto|].
  destruct (Hcl p) as [c Hc]; [apply (ti_work _ _ _ _ I); by left|].
  rewrite (cell_at_get _ _ _ Hc). cbn [fbind slot_cell].
  destruct (lookup_lt_is_Some_2 seen (ptr_index p)) as [b Hb].
  { rewrite (ti_length _ _ _ _ I). by eapply cell_at_lt. }
  unfold index_vec, store_vec. rewrite Hb, decide_True by (by eapply lookup_lt_Some). cbn [fbind].
  destruct b.
  - apply IH. by eapply trace_inv_seen.
  - rewrite trace_pointers_eq. apply IH. by eapply trace_inv_new.
Qed.

(** The marking phase of a closed heap. *)
Lemma trace_spec h :
  closed h ->
  exists live, trace h = Ok live /\ NoDup (map (fun x => ptr_index x.1) live) /\
    forall p c, (p, c) ∈ live <-> reach h p /\ cell_at h p = Some c.
Proof.
  intros Hcl. unfold trace. destruct (trace_total h) as [r Hr] eqn:Heq. clear Heq.
  destruct (trace_loop_spec _ _ _ _ _ _ Hcl (trace_inv_start h) Hr) as (live & seen & -> & I).
  exists live. split.
  { generalize (ex_intro (fun x => trace_loop (trace_fuel h) h (root_pointers h)
      (replicate (length (slots h)) false) [] = Some x) _ Hr). rewrite Hr. done. }
  destruct I as [_ _ Hnd Hlive _ Hroots Hedges]. split; [done|].
  assert (Hreach : forall p, reach h p -> p ∈ map fst live).
  { induction 1 as [p Hp|p c q Hp IH Hc Hq].
    - destruct (Hroots p Hp) as [?%elem_of_nil|?]; done.
    - apply list_elem_of_fmap in IH as ([p' c'] & -> & Hp'). simpl in *.
      destruct (Hlive _ _ Hp') as [_ Hc']. simplify_eq.
      destruct (Hedges _ _ _ Hp' Hq) as [?%elem_of_nil|?]; done. }
  intros p c. split; [apply Hlive|]. intros [Hp Hc].
  apply Hreach, list_elem_of_fmap in Hp as ([p' c'] & -> & Hp'). simpl in *.
  destruct (Hlive _ _ Hp') as [_ Hc']. by simplify_eq.
Qed.

(** * Properties *)

Lemma trace_loop_mono fuel fuel' h work seen live r :
  trace_loop fuel h work seen live = Some r -> fuel <= fuel' ->
  trace_loop fuel' h work seen live = Some r.
Proof.
  revert fuel' work seen live. induction fuel as [|fuel IH]; intros [|fuel'] work seen live; try done.
  { lia. }
  destruct work as [|p work]; simpl; [done|]. intros H Hle.
  destruct (get_slot_checked h p) as [s|]; simpl in *; [|done].
  destruct (index_vec seen (ptr_index p)) as [[]|]; simpl in *; [apply IH; [done|lia]| |done].
  destruct (store_vec seen (ptr_index p) true) as [seen'|]; simpl in *; [|done].
  destruct (slot_cell s); [|done]. apply IH; [done|lia].
Qed.

(** The marking loop of a collection stops on every heap, cyclic or
    corrupted ones included: with fuel for the roots and the edges of all
    slots, and with any larger fuel, it returns the same answer. *)
Theorem marking_terminates h fuel (Hfuel : trace_fuel h <= fuel) :
  trace_loop fuel h (root_pointers h) (replicate (length (slots h)) false) [] = Some (trace h).
Proof.
  apply (trace_loop_mono (trace_fuel h)); [|done].
  unfold trace. destruct (trace_total h) as [r Hr]. generalize (ex_intro (fun x => trace_loop
    (trace_fuel h) h (root_pointers h) (replicate (length (slots h)) false) [] = Some x) r Hr).
  intros H. clear Hr. revert H. destruct (trace_loop _ _ _ _ _) as [x|]; [done|].
  intros H. destruct (is_Some_None H).
Qed.

Lemma marking_terminates_witness :
  trace_fuel (Heap_new 1) <= 3 /\
  trace_loop 3 (Heap_new 1) (root_pointers (Heap_new 1)) (replicate 0 false) []
    = Some (trace (Heap_new 1)).
Proof. split; [vm_compute; lia|]. apply (marking_terminates (Heap_new 1) 3). vm_compute. lia. Defined.
