(* ===== verification/HeapCollect.v ===== *)
(** [Heap::collect], [forward_for_gc], [verify_after_collection] and
    [alloc_reference] of [rex-engine/src/memory/heap.rs], in the phases of the
    code: mark (HeapTrace), choose destinations (HeapStress), record the
    forwarding pointers, relocate the roots, copy the cells, and install the new
    slots. *)

From S2P Require Import Prelude Span Types Syntax Errors Heap HeapTrace HeapStress.

(** * Definitions *)

(** [for (live_index, (pointer, _)) in live.iter().enumerate()]: the forwarding
    table, with the new epoch in each entry. *)
Fixpoint install_forwarding (h : Heap) (next_epoch : Z) (destinations : list nat)
    (live_index : nat) (live : list (InternalPtr * Cell)) (forwarding : list (option InternalPtr))
  : exec (list (option InternalPtr)) :=
  match live with
  | [] => Ok forwarding
  | (pointer, _) :: live =>
      let? _ := get_slot_checked h pointer in
      let? destination := index_vec destinations live_index in
      let? index := u32_try_from destination in
      let? forwarding :=
        store_vec forwarding (ptr_index pointer) (Some (mkPtr (h_id h) index next_epoch)) in
      install_forwarding h next_epoch destinations (S live_index) live forwarding
  end.

Definition forward_for_gc (h : Heap) (forwarding : list (option InternalPtr)) (p : InternalPtr)
  : exec InternalPtr :=
  let? _ := get_slot_checked h p in
  match mjoin (forwarding !! ptr_index p) with
  | Some q => Ok q
  | None => raise (Internal "copying GC forwarding pointer missing")
  end.

(** [relocated_runtime_roots]: the occupied root slots with their new pointers. *)
Fixpoint relocate_roots (h : Heap) (forwarding : list (option InternalPtr)) (index : nat)
    (roots : list RootSlot) : exec (list (nat * InternalPtr)) :=
  match roots with
  | [] => Ok []
  | root :: roots =>
      match rslot_pointer root with
      | None => relocate_roots h forwarding (S index) roots
      | Some p =>
          let? q := forward_for_gc h forwarding p in
          let? rest := relocate_roots h forwarding (S index) roots in
          Ok ((index, q) :: rest)
      end
  end.

(** A closure of type [FnMut(InternalPtr) -> Result<InternalPtr, _>] without state. *)
Definition stateless {E} (f : InternalPtr -> result E InternalPtr)
  : InternalPtr -> unit -> result E (InternalPtr * unit) :=
  fun p _ => let? q := f p in Ok (q, tt).

Fixpoint copy_cells (h : Heap) (forwarding : list (option InternalPtr)) (destinations : list nat)
    (live_index : nat) (live : list (InternalPtr * Cell)) (new_slots : list (option HeapSlot))
  : exec (list (option HeapSlot)) :=
  match live with
  | [] => Ok new_slots
  | (old_pointer, cell) :: live =>
      let? mapped := map_pointers (stateless (forward_for_gc h forwarding)) cell tt in
      let? pointer := forward_for_gc h forwarding old_pointer in
      let? destination := index_vec destinations live_index in
      match new_slots !! destination with
      | None => raise (Internal "copying GC destination out of bounds")
      | Some (Some _) => raise (Internal "copying GC assigned a destination twice")
      | Some None =>
          copy_cells h forwarding destinations (S live_index) live
            (<[destination := Some (mkSlot (ptr_generation pointer) (Some mapped.1))]> new_slots)
      end
  end.

(** [new_slots.into_iter().collect::<Option<Vec<_>>>()]. *)
Fixpoint all_filled {A} (l : list (option A)) : option (list A) :=
  match l with
  | [] => Some []
  | None :: _ => None
  | Some x :: l => match all_filled l with Some xs => Some (x :: xs) | None => None end
  end.

(** [for (index, pointer) in relocated_runtime_roots]. *)
Fixpoint write_roots (relocated : list (nat * InternalPtr)) (roots : list RootSlot)
  : exec (list RootSlot) :=
  match relocated with
  | [] => Ok roots
  | (index, pointer) :: relocated =>
      let? root := index_vec roots index in
      let? roots := store_vec roots index (mkRootSlot (rslot_generation root) (Some pointer)) in
      write_roots relocated roots
  end.

(** [collect] up to the debug verification: the heap it leaves, or an error
    before any field has changed. *)
Definition collect_phases (h : Heap) : exec Heap :=
  let? next_epoch :=
    (if (collection_epoch h <? u64_max)%Z then Ok (collection_epoch h + 1)%Z
     else raise (Internal "heap collection count exhausted")) in
  let? live := trace h in
  let old_indices := map (fun x => ptr_index x.1) live in
  let? destinations :=
    (if extreme_stress_enabled h
     then randomized_gc_destinations old_indices (collection_epoch h)
     else Ok (seq 0 (length live))) in
  let? forwarding :=
    install_forwarding h next_epoch destinations 0 live (replicate (length (slots h)) None) in
  let? relocated := relocate_roots h forwarding 0 (runtime_roots h) in
  let? new_slots :=
    copy_cells h forwarding destinations 0 live (replicate (length live) None) in
  let? new_slots :=
    match all_filled new_slots with
    | Some new_slots => Ok new_slots
    | None => raise (Internal "copying GC left a destination empty")
    end in
  let? roots := write_roots relocated (runtime_roots h) in
  Ok (finish_collection new_slots next_epoch (set_roots roots (free_runtime_root_list h) h)).

(** ** The debug verification *)

Definition debug_pointer (p : InternalPtr) : string :=
  "InternalPtr { heap_id: " +:+ pretty (ptr_heap_id p) +:+ ", index: " +:+ pretty (ptr_index p) +:+
  ", generation: " +:+ pretty (ptr_generation p) +:+ " }".

(** [.map_err(|err| EngineError::Internal(format!("{context}: {err}")))]. *)
Definition with_context {A} (context : string) (m : exec A) : exec A :=
  match m with
  | Err (Raised err) => raise (Internal (context +:+ ": " +:+ EngineError_show err))
  | _ => m
  end.

Fixpoint verify_roots (h : Heap) (root_index : nat) (roots : list RootSlot)
    (work : list InternalPtr) (seen : gset InternalPtr)
  : exec (list InternalPtr * gset InternalPtr) :=
  match roots with
  | [] => Ok (work, seen)
  | root :: roots =>
      match rslot_pointer root with
      | None => verify_roots h (S root_index) roots work seen
      | Some p =>
          let? _ := with_context ("GC verification failed for runtime root " +:+ pretty root_index)
                      (get_slot_checked h p) in
          if decide (p ∈ seen) then verify_roots h (S root_index) roots work seen
          else verify_roots h (S root_index) roots (work ++ [p]) ({[p]} ∪ seen)
      end
  end.

Fixpoint verify_children (h : Heap) (pointer : InternalPtr) (children : list InternalPtr)
    (work : list InternalPtr) (seen : gset InternalPtr)
  : exec (list InternalPtr * gset InternalPtr) :=
  match children with
  | [] => Ok (work, seen)
  | child :: children =>
      let? _ := with_context ("GC verification failed for child " +:+ debug_pointer child +:+
                              " of " +:+ debug_pointer pointer)
                  (get_slot_checked h child) in
      if decide (child ∈ seen) then verify_children h pointer children work seen
      else verify_children h pointer children (work ++ [child]) ({[child]} ∪ seen)
  end.

Fixpoint verify_loop (fuel : nat) (h : Heap) (work : list InternalPtr) (seen : gset InternalPtr)
  : fueled fault (gset InternalPtr) :=
  match fuel with
  | 0 => None
  | S fuel =>
      match work with
      | [] => fret seen
      | pointer :: work =>
          let! slot := Some (with_context ("GC verification failed for object " +:+
                                           debug_pointer pointer)
                               (get_slot_checked h pointer)) in
          match slot_cell slot with
          | None => ferr (Raised (Internal ("GC verification found empty live slot for " +:+
                                            debug_pointer pointer)))
          | Some cell =>
              let! ws := Some (verify_children h pointer (trace_pointers cell) work seen) in
              verify_loop fuel h ws.1 ws.2
          end
      end
  end.

Fixpoint verify_slots (h : Heap) (seen : gset InternalPtr) (index : nat) (sl : list HeapSlot)
  : exec unit :=
  match sl with
  | [] => Ok tt
  | slot :: sl =>
      if negb (slot_generation slot =? collection_epoch h)%Z
      then raise (Internal ("GC verification found generation " +:+ pretty (slot_generation slot) +:+
                            " at slot " +:+ pretty index +:+ ", expected heap epoch " +:+
                            pretty (collection_epoch h)))
      else if negb (bool_decide (is_Some (slot_cell slot)))
      then raise (Internal ("GC verification found empty slot " +:+ pretty index +:+
                            " after collection"))
      else
        let? index32 := u32_try_from index in
        let pointer := mkPtr (h_id h) index32 (slot_generation slot) in
        if decide (pointer ∈ seen) then verify_slots h seen (S index) sl
        else raise (Internal ("GC verification found unrooted copied object " +:+
                              debug_pointer pointer))
  end.

(** ** The verification walk stops: a pointer enters the work list only when
    it first enters [seen], and every pointer in [seen] is valid, hence of its
    own slot. *)

Definition all_valid (h : Heap) (seen : gset InternalPtr) : Prop :=
  forall p, p ∈ seen -> is_Some (cell_at h p).

Lemma all_valid_size h seen : all_valid h seen -> size seen <= length (slots h).
Proof.
  intros Hv. rewrite <- (length_seq (length (slots h)) 0).
  change (size seen) with (length (elements seen)).
  rewrite <- (length_map ptr_index (elements seen)).
  apply submseteq_length, NoDup_submseteq.
  - apply NoDup_fmap_2_strong; [|apply NoDup_elements].
    intros p q [c Hc]%elem_of_elements%Hv [d Hd]%elem_of_elements%Hv. by eapply cell_at_index_inj.
  - intros i (p & -> & [c Hc]%elem_of_elements%Hv)%list_elem_of_fmap.
    apply elem_of_seq. apply cell_at_lt in Hc. lia.
Qed.

Lemma get_slot_checked_cell h p s : get_slot_checked h p = Ok s -> is_Some (cell_at h p).
Proof. intros Hs. unfold cell_at. rewrite Hs. by apply get_slot_checked_Ok in Hs as (_ & _ & _ & ?). Qed.

Lemma with_context_Ok {A} context (m : exec A) a : with_context context m = Ok a <-> m = Ok a.
Proof. destruct m as [|[]]; simpl; naive_solver. Qed.

Lemma all_valid_add h p s seen :
  get_slot_checked h p = Ok s -> all_valid h seen -> all_valid h ({[p]} ∪ seen).
Proof. intros Hs Hv q [->%elem_of_singleton|Hq]%elem_of_union; eauto using get_slot_checked_cell. Qed.

Lemma verify_roots_measure h i roots work seen r :
  all_valid h seen -> verify_roots h i roots work seen = Ok r ->
  all_valid h r.2 /\ length r.1 + size seen = length work + size r.2.
Proof.
  revert i work seen. induction roots as [|[g [p|]] roots IH]; intros i work seen Hv; simpl.
  - intros [= <-]. simpl. split; [done|lia].
  - intros (s & Hs%with_context_Ok & H)%rbind_Ok. case_decide as Hp; [by eapply IH|].
    apply IH in H as [? H]; [|by eapply all_valid_add].
    rewrite length_app, size_union, size_singleton in H by set_solver. simpl in H. split; [done|lia].
  - eauto.
Qed.

Lemma verify_children_measure h p children work seen r :
  all_valid h seen -> verify_children h p children work seen = Ok r ->
  all_valid h r.2 /\ length r.1 + size seen = length work + size r.2.
Proof.
  revert work seen. induction children as [|q children IH]; intros work seen Hv; simpl.
  - intros [= <-]. simpl. split; [done|lia].
  - intros (s & Hs%with_context_Ok & H)%rbind_Ok. case_decide as Hq; [by eapply IH|].
    apply IH in H as [? H]; [|by eapply all_valid_add].
    rewrite length_app, size_union, size_singleton in H by set_solver. simpl in H. split; [done|lia].
Qed.

Lemma verify_loop_total fuel h work seen :
  all_valid h seen -> length work + length (slots h) < fuel + size seen ->
  is_Some (verify_loop fuel h work seen).
Proof.
  revert work seen. induction fuel as [|fuel IH]; intros work seen Hv Hf.
  { apply all_valid_size in Hv. lia. }
  destruct work as [|p work]; simpl; [eauto|].
  destruct (with_context _ _) as [s|]; simpl; [|eauto].
  destruct (slot_cell s) as [c|]; [|eauto].
  destruct (verify_children h p (trace_pointers c) work seen) as [r|] eqn:Hr; simpl; [|eauto].
  apply verify_children_measure in Hr as [Hv' Hm]; [|done]. apply IH; [done|]. simpl in Hf. lia.
Qed.

Lemma verify_total h r :
  verify_roots h 0 (runtime_roots h) [] ∅ = Ok r ->
  is_Some (verify_loop (S (length (slots h))) h r.1 r.2).
Proof.
  intros Hr. apply verify_roots_measure in Hr as [Hv Hm]; [|intros p Hp; set_solver].
  apply verify_loop_total; [done|]. rewrite size_empty in Hm. simpl in Hm. lia.
Qed.

(** [verify_after_collection], compiled in under [debug_assertions]. *)
Definition verify_after_collection (h : Heap) : exec unit :=
  match verify_roots h 0 (runtime_roots h) [] ∅ as r
    return verify_roots h 0 (runtime_roots h) [] ∅ = r -> exec unit with
  | Ok ws => fun Hws =>
      let? seen := is_Some_proj (verify_total h ws Hws) in
      verify_slots h seen 0 (slots h)
  | Err e => fun _ => Err e
  end eq_refl.

Section collect.
Context (debug_assertions : bool).

Definition collect : M unit := fun h =>
  match collect_phases h with
  | Err e => (Err e, h)
  | Ok h' => (if debug_assertions then verify_after_collection h' else Ok tt, h')
  end.

(** [alloc_reference]: the children of the pending cell are rooted while the
    collection runs, and read back from their roots. *)
Fixpoint check_all (h : Heap) (l : list InternalPtr) : exec unit :=
  match l with
  | [] => Ok tt
  | p :: l => let? _ := get_slot_checked h p in check_all h l
  end.

Fixpoint resolve_all (h : Heap) (roots : list RootedPtr) : exec (list InternalPtr) :=
  match roots with
  | [] => Ok []
  | root :: roots =>
      let? p := resolve_runtime_root debug_assertions h root in
      let? ps := resolve_all h roots in
      Ok (p :: ps)
  end.

(** The closure [|_| relocated.next().ok_or_else(...)]. *)
Definition next_relocated (p : InternalPtr) (relocated : list InternalPtr)
  : exec (InternalPtr * list InternalPtr) :=
  match relocated with
  | [] => raise (Internal "temporary allocation root count mismatch")
  | q :: relocated => Ok (q, relocated)
  end.

Definition collect_or_release (roots : list RootedPtr) : M unit := fun h =>
  match collect h with
  | (Err (Raised error), h') =>
      match mapM_st unregister_runtime_root roots h' with
      | (Ok _, h'') => (raise error, h'')
      | (Err e, h'') => (Err e, h'')
      end
  | r => r
  end.

Definition alloc_reference (cell : Cell) : M InternalPtr := fun h =>
  if defer_collection h || negb (collect_needed h) then push_cell cell h
  else
    (let pointers := trace_pointers cell in
     let* _ := mlift (fun h => check_all h pointers) in
     let* roots := mapM_st (register_runtime_root debug_assertions) pointers in
     let* _ := collect_or_release roots in
     let* relocated := mlift (fun h => resolve_all h roots) in
     let* _ := mapM_st unregister_runtime_root roots in
     let* mapped := mlift (fun _ => map_pointers next_relocated cell relocated) in
     match mapped.2 with
     | _ :: _ => mlift (fun _ => raise (Internal "temporary allocation roots were not fully consumed"))
     | [] => push_cell mapped.1
     end) h.
End collect.

(** * Specification

    A collection is a renaming [g] of the reachable pointers. *)

Definition rename_root (g : InternalPtr -> InternalPtr) (r : RootSlot) : RootSlot :=
  mkRootSlot (rslot_generation r) (g <$> rslot_pointer r).

Record relocation (h h' : Heap) (g : InternalPtr -> InternalPtr) : Prop := {
  rel_id : h_id h' = h_id h;
  rel_epoch : collection_epoch h' = (collection_epoch h + 1)%Z;
  rel_roots : runtime_roots h' = map (rename_root g) (runtime_roots h);
  rel_free : free_runtime_root_list h' = free_runtime_root_list h;
  rel_stress : extreme_stress h' = extreme_stress h;
  rel_defer : defer_collection h' = defer_collection h;
  rel_cells : forall p c, reach h p -> cell_at h p = Some c -> cell_at h' (g p) = Some (rename g c);
  rel_inj : forall p q, reach h p -> reach h q -> g p = g q -> p = q;
  rel_surj : forall q, is_Some (cell_at h' q) -> exists p, reach h p /\ q = g p;
  rel_slots : Forall (fun s => slot_generation s = collection_epoch h' /\ is_Some (slot_cell s))
                (slots h') }.

(** * The phases *)

Abbreviation live_index_list live := (map (fun x : InternalPtr * Cell => ptr_index x.1) live).

Lemma install_forwarding_Ok h ep dests i live fw :
  (forall p c, (p, c) ∈ live -> cell_at h p = Some c) ->
  NoDup (live_index_list live) ->
  (forall j, j < length live -> exists d, dests !! (i + j) = Some d /\ (Z.of_nat d < u32_modulus)%Z) ->
  length fw = length (slots h) ->
  exists fw', install_forwarding h ep dests i live fw = Ok fw' /\
    (forall j p c d, live !! j = Some (p, c) -> dests !! (i + j) = Some d ->
       fw' !! ptr_index p = Some (Some (mkPtr (h_id h) d ep))) /\
    (forall k, k ∉ live_index_list live -> fw' !! k = fw !! k).
Proof.
  revert i fw. induction live as [|[p c] live IH]; intros i fw Hc Hnd Hd Hlen; simpl.
  { exists fw. split_and!; [done| |done]. intros j. by rewrite lookup_nil. }
  apply NoDup_cons in Hnd as [Hp Hnd].
  assert (Hpc := Hc p c (list_elem_of_here _ _)). rewrite (cell_at_get _ _ _ Hpc). cbn [rbind].
  destruct (Hd 0) as (d & Hd0 & Hdlt); [simpl; lia|]. rewrite Nat.add_0_r in Hd0.
  unfold index_vec, store_vec, u32_try_from. rewrite Hd0. cbn [rbind].
  rewrite (proj2 (Z.ltb_lt _ _) Hdlt). cbn [rbind].
  rewrite decide_True by (rewrite Hlen; by eapply cell_at_lt). cbn [rbind].
  destruct (IH (S i) (<[ptr_index p := Some (mkPtr (h_id h) d ep)]> fw)) as (fw' & -> & Hin & Hout).
  - intros q e Hq. apply Hc. by right.
  - done.
  - intros j Hj. destruct (Hd (S j)) as (e & He & ?); [simpl; lia|]. exists e.
    by rewrite Nat.add_succ_r in He.
  - by rewrite length_insert.
  - exists fw'. split_and!; [done| |].
    + intros [|j] q e e' Hq He; simpl in Hq.
      * rewrite Nat.add_0_r in He. simplify_eq. rewrite Hout by done.
        apply list_lookup_insert_eq. rewrite Hlen. by eapply cell_at_lt.
      * rewrite Nat.add_succ_r in He. by eapply Hin.
    + intros k [Hkp Hk]%not_elem_of_cons. rewrite Hout by done. by rewrite list_lookup_insert_ne.
Qed.

Section phases.
Context (h : Heap) (fw : list (option InternalPtr)) (g : InternalPtr -> InternalPtr).
Context (Hg : forall p, reach h p -> forward_for_gc h fw p = Ok (g p)).

Lemma forward_traverse l :
  Forall (reach h) l -> traverse (stateless (forward_for_gc h fw)) l tt = Ok (map g l, tt).
Proof.
  induction 1 as [|p l Hp _ IH]; simpl; [done|].
  unfold stateless at 1. rewrite Hg by done. simpl. by rewrite IH.
Qed.

Lemma forward_cell p c :
  reach h p -> cell_at h p = Some c ->
  map_pointers (stateless (forward_for_gc h fw)) c tt = Ok (rename g c, tt).
Proof.
  intros Hp Hc. apply map_pointers_Ok, forward_traverse, Forall_forall.
  intros q Hq. by eapply reach_edge.
Qed.

Lemma relocate_roots_Ok pre roots :
  Forall (fun r => forall p, rslot_pointer r = Some p -> reach h p) roots ->
  exists rel, relocate_roots h fw (length pre) roots = Ok rel /\
    write_roots rel (pre ++ roots) = Ok (pre ++ map (rename_root g) roots).
Proof.
  intros Hr. revert pre. induction Hr as [|[gen [p|]] roots Hp _ IH]; intros pre; simpl.
  - by exists [].
  - rewrite Hg by (by apply Hp). cbn [rbind].
    destruct (IH (pre ++ [mkRootSlot gen (Some (g p))])) as (rel & Hrel & Hw).
    rewrite length_app, Nat.add_1_r in Hrel. rewrite Hrel. cbn [rbind].
    exists ((length pre, g p) :: rel). split; [done|]. simpl.
    unfold index_vec, store_vec. rewrite list_lookup_middle by done. cbn [rbind].
    rewrite decide_True by (rewrite length_app; simpl; lia). cbn [rbind rslot_generation].
    rewrite insert_app_r_alt, Nat.sub_diag by done. simpl.
    rewrite <- !app_assoc in Hw. exact Hw.
  - destruct (IH (pre ++ [mkRootSlot gen None])) as (rel & Hrel & Hw).
    rewrite length_app, Nat.add_1_r in Hrel. exists rel. split; [done|].
    rewrite <- !app_assoc in Hw. exact Hw.
Qed.

Lemma copy_cells_Ok dests i live ns :
  (forall p c, (p, c) ∈ live -> reach h p /\ cell_at h p = Some c) ->
  NoDup dests -> i + length live = length dests ->
  (forall j d, i <= j -> dests !! j = Some d -> ns !! d = Some None) ->
  exists ns', copy_cells h fw dests i live ns = Ok ns' /\ length ns' = length ns /\
    (forall j p c d, live !! j = Some (p, c) -> dests !! (i + j) = Some d ->
       ns' !! d = Some (Some (mkSlot (ptr_generation (g p)) (Some (rename g c))))) /\
    (forall d, (forall j, i <= j -> dests !! j <> Some d) -> ns' !! d = ns !! d).
Proof.
  revert i ns. induction live as [|[p c] live IH]; intros i ns Hlive Hnd Hlen Hns; simpl in *.
  { exists ns. split_and!; [done..| |done]. intros j. by rewrite lookup_nil. }
  destruct (Hlive p c (list_elem_of_here _ _)) as [Hp Hc].
  rewrite (forward_cell p c) by done. cbn [rbind]. rewrite Hg by done. cbn [rbind].
  destruct (lookup_lt_is_Some_2 dests i) as [d Hd]; [lia|].
  unfold index_vec. rewrite Hd. cbn [rbind]. rewrite (Hns i d) by done.
  pose proof (lookup_lt_Some _ _ _ (Hns i d (le_n i) Hd)) as Hdlt.
  edestruct (IH (S i)) as (ns' & Hcopy & Hl & Hin & Hout); [ | | | |rewrite Hcopy].
  - intros q e Hq. apply Hlive. by right.
  - done.
  - lia.
  - intros j d' Hj Hd'. rewrite list_lookup_insert_ne; [by apply (Hns j); [lia|]|].
    intros <-. assert (i = j) by (by eapply (NoDup_lookup dests)). lia.
  - rewrite length_insert in Hl. exists ns'. split_and!; [done|done| |].
    + intros [|j] q e d' Hq Hd'; simpl in Hq.
      * rewrite Nat.add_0_r in Hd'. simplify_eq. rewrite Hout; [by apply list_lookup_insert_eq|].
        intros j Hj Hj'. assert (i = j) by (by eapply (NoDup_lookup dests)). lia.
      * rewrite Nat.add_succ_r in Hd'. by eapply Hin.
    + intros d' Hd'. rewrite Hout by (intros j Hj; apply Hd'; lia).
      apply list_lookup_insert_ne. intros ->. by apply (Hd' i).
Qed.
End phases.

Lemma all_filled_Some {A} (l : list (option A)) :
  Forall is_Some l -> exists xs, all_filled l = Some xs /\ l = map Some xs.
Proof.
  induction 1 as [|? l [x ->] _ (xs & IH & ->)]; [by exists []|].
  exists (x :: xs). simpl. by rewrite IH.
Qed.

(** The chosen destinations: distinct positions of the new slots, one per live
    object. *)
Lemma collect_destinations h live :
  NoDup (live_index_list live) ->
  exists d, (if extreme_stress_enabled h
             then randomized_gc_destinations (live_index_list live) (collection_epoch h)
             else Ok (seq 0 (length live))) = Ok d /\ d ≡ₚ seq 0 (length live) /\
    (extreme_stress_enabled h = true -> 1 < length live -> no_fixed_point d (live_index_list live)).
Proof.
  intros Hnd. destruct (extreme_stress_enabled h).
  - destruct (randomized_gc_destinations_spec _ (collection_epoch h) Hnd) as (d & Hd & Hp & Hno).
    rewrite length_map in *. exists d. auto.
  - by exists (seq 0 (length live)).
Qed.

(** * The collection as a whole *)

(** What the marking phase and the choice of destinations give the later
    phases, and the pointer map they define. *)
Section collection.
Context (h : Heap) (live : list (InternalPtr * Cell)) (dests : list nat).
Context (Hlive : forall p c, (p, c) ∈ live <-> reach h p /\ cell_at h p = Some c).
Context (Hclosed : closed h).
Context (Hnd : NoDup (live_index_list live)).
Context (Hdests : dests ≡ₚ seq 0 (length live)).

Definition placed (p : InternalPtr) (c : Cell) (d : nat) : Prop :=
  exists j, live !! j = Some (p, c) /\ dests !! j = Some d.

Lemma dests_length : length dests = length live.
Proof using Hdests. by rewrite Hdests, length_seq. Qed.

Lemma dests_NoDup : NoDup dests.
Proof using Hdests. rewrite Hdests. apply NoDup_seq. Qed.

Lemma live_small : length live <= length (slots h).
Proof using Hlive Hnd.
  rewrite <- (length_map (fun x => ptr_index x.1)), <- (length_seq (length (slots h)) 0).
  apply submseteq_length, NoDup_submseteq; [done|].
  intros i ([p c] & -> & [_ Hc]%Hlive)%list_elem_of_fmap. apply elem_of_seq.
  apply cell_at_lt in Hc. simpl. lia.
Qed.

Lemma dests_lt j d : dests !! j = Some d -> d < length live.
Proof using Hdests.
  intros Hd%list_elem_of_lookup_2. rewrite Hdests in Hd. apply elem_of_seq in Hd. lia.
Qed.

Lemma placed_ex p : reach h p -> exists c d, cell_at h p = Some c /\ placed p c d.
Proof using Hlive Hclosed Hdests.
  intros Hp. destruct (Hclosed p Hp) as [c Hc].
  assert (Hin : (p, c) ∈ live) by (by apply Hlive).
  apply list_elem_of_lookup in Hin as [j Hj]. pose proof (lookup_lt_Some _ _ _ Hj) as Hlt.
  rewrite <- dests_length in Hlt. apply lookup_lt_is_Some in Hlt as [d Hd].
  exists c, d. split; [done|]. by exists j.
Qed.

Lemma placed_inj p q c e d : placed p c d -> placed q e d -> p = q.
Proof using Hdests.
  intros (j & Hp & Hd) (k & Hq & Hd').
  assert (j = k) as -> by (apply (NoDup_lookup dests j k d dests_NoDup); done).
  clear Hlive Hclosed Hnd. congruence.
Qed.

Lemma placed_surj d : d < length live -> exists p c, placed p c d.
Proof using Hdests.
  intros Hd. assert (Hin : d ∈ dests) by (rewrite Hdests; apply elem_of_seq; lia).
  apply list_elem_of_lookup in Hin as [j Hj]. pose proof (lookup_lt_Some _ _ _ Hj) as Hlt.
  rewrite dests_length in Hlt. apply lookup_lt_is_Some in Hlt as [[p c] Hpc].
  exists p, c. by exists j.
Qed.

Lemma forwarding_exists ep :
  (Z.of_nat (length (slots h)) <= u32_modulus)%Z ->
  exists fw, install_forwarding h ep dests 0 live (replicate (length (slots h)) None) = Ok fw /\
    forall p c d, placed p c d -> forward_for_gc h fw p = Ok (mkPtr (h_id h) d ep).
Proof using Hlive Hnd Hdests.
  intros Hsmall. destruct (install_forwarding_Ok h ep dests 0 live (replicate (length (slots h)) None))
    as (fw & Hfw & Hin & _).
  - intros p c [_ ?]%Hlive. done.
  - done.
  - intros j Hj. rewrite <- dests_length in Hj. apply lookup_lt_is_Some in Hj as [d Hd].
    exists d. split; [done|]. apply dests_lt in Hd. pose proof live_small. lia.
  - apply length_replicate.
  - exists fw. split; [done|]. intros p c d (j & Hp & Hd). unfold forward_for_gc.
    assert (Hc : cell_at h p = Some c) by (by eapply Hlive, list_elem_of_lookup_2).
    rewrite (cell_at_get _ _ _ Hc). cbn [rbind]. by rewrite (Hin j p c d) by done.
Qed.

(** The new slots hold the renamed cells at their destinations, and nothing else. *)
Lemma copy_exists fw g :
  (forall p, reach h p -> forward_for_gc h fw p = Ok (g p)) ->
  exists ns new_slots,
    copy_cells h fw dests 0 live (replicate (length live) None) = Ok ns /\
    all_filled ns = Some new_slots /\ length new_slots = length live /\
    forall p c d, placed p c d ->
      new_slots !! d = Some (mkSlot (ptr_generation (g p)) (Some (rename g c))).
Proof using Hlive Hdests.
  intros Hg.
  destruct (copy_cells_Ok h fw g Hg dests 0 live (replicate (length live) None))
    as (ns & Hns & Hlen & Hin & _).
  - intros p c. apply Hlive.
  - apply dests_NoDup.
  - simpl. by rewrite dests_length.
  - intros j d _ Hd. apply lookup_replicate_2. by eapply dests_lt.
  - rewrite length_replicate in Hlen.
    assert (Hplaced : forall p c d, placed p c d ->
      ns !! d = Some (Some (mkSlot (ptr_generation (g p)) (Some (rename g c))))).
    { intros p c d (j & Hp & Hd). by apply (Hin j). }
    destruct (all_filled_Some ns) as (new & Hnew & ->).
    { apply Forall_lookup. intros d o Hd. pose proof (lookup_lt_Some _ _ _ Hd) as Hlt.
      rewrite Hlen in Hlt. destruct (placed_surj d Hlt) as (p & c & Hp).
      rewrite (Hplaced p c d Hp) in Hd. injection Hd as <-. eauto. }
    rewrite length_map in Hlen. exists (map Some new), new. split_and!; [done..|].
    intros p c d Hp. apply Hplaced in Hp. rewrite list_lookup_fmap in Hp.
    destruct (new !! d); simpl in Hp; congruence.
Qed.
End collection.

(** ** Collection succeeds on every closed heap, and relocates it *)
Lemma collect_phases_spec h :
  closed h -> (collection_epoch h < u64_max)%Z -> (Z.of_nat (length (slots h)) <= u32_modulus)%Z ->
  exists h' g, collect_phases h = Ok h' /\ relocation h h' g /\
    (exists live, NoDup live /\ (forall p, p ∈ live <-> reach h p) /\ length (slots h') = length live) /\
    (extreme_stress_enabled h = true -> forall p q, reach h p -> reach h q -> p <> q ->
       ptr_index (g p) <> ptr_index p).
Proof.
  intros Hcl Hep Hsmall. unfold collect_phases.
  rewrite (proj2 (Z.ltb_lt _ _) Hep). cbn [rbind].
  destruct (trace_spec h Hcl) as (live & -> & Hnd & Hlive). cbn [rbind].
  destruct (collect_destinations h live Hnd) as (dests & -> & Hdests & Hstress). cbn [rbind].
  destruct (forwarding_exists h live dests Hlive Hnd Hdests (collection_epoch h + 1) Hsmall)
    as (fw & -> & Hfw). cbn [rbind].
  set (g p := match forward_for_gc h fw p with Ok q => q | Err _ => p end).
  assert (Hgp : forall p c d, placed live dests p c d -> g p = mkPtr (h_id h) d (collection_epoch h + 1)).
  { intros p c d Hp. unfold g. by rewrite (Hfw p c d Hp). }
  assert (Hg : forall p, reach h p -> forward_for_gc h fw p = Ok (g p)).
  { intros p Hp. destruct (placed_ex h live dests Hlive Hcl Hdests p Hp) as (c & d & _ & Hpl).
    by rewrite (Hgp p c d Hpl), (Hfw p c d Hpl). }
  destruct (relocate_roots_Ok h fw g Hg [] (runtime_roots h)) as (rel & Hrel & Hw).
  { apply Forall_forall. intros r Hr p Hp. apply reach_root. apply list_elem_of_omap. eauto. }
  simpl in Hrel, Hw. rewrite Hrel. cbn [rbind].
  destruct (copy_exists h live dests Hlive Hdests fw g Hg) as (ns & new & -> & Hfill & Hlen & Hnew).
  cbn [rbind]. rewrite Hfill. cbn [rbind]. rewrite Hw. cbn [rbind].
  eexists _, g. split; [done|]. split; [|split].
  - split; try done.
    + intros p c Hp Hc. destruct (placed_ex h live dests Hlive Hcl Hdests p Hp) as (c' & d & Hc' & Hpl).
      simplify_eq. apply cell_at_Some. rewrite (Hgp _ _ _ Hpl). simpl. split; [done|].
      rewrite (Hnew _ _ _ Hpl), (Hgp _ _ _ Hpl). done.
    + intros p q Hp Hq Hpq.
      destruct (placed_ex h live dests Hlive Hcl Hdests p Hp) as (c & d & _ & Hpl).
      destruct (placed_ex h live dests Hlive Hcl Hdests q Hq) as (e & d' & _ & Hql).
      rewrite (Hgp _ _ _ Hpl), (Hgp _ _ _ Hql) in Hpq. simplify_eq.
      by eapply (placed_inj live dests Hdests p q).
    + intros q [c [Hid Hq]%cell_at_Some]. simpl in Hid, Hq.
      pose proof (lookup_lt_Some _ _ _ Hq) as Hlt. rewrite Hlen in Hlt.
      destruct (placed_surj live dests Hdests _ Hlt) as (p & e & Hpl).
      rewrite (Hnew _ _ _ Hpl), (Hgp _ _ _ Hpl) in Hq. exists p. split.
      { destruct Hpl as (j & Hj & _). by eapply Hlive, list_elem_of_lookup_2. }
      rewrite (Hgp _ _ _ Hpl). destruct q; simpl in *; simplify_eq. done.
    + apply Forall_lookup. simpl. intros i s Hs. pose proof (lookup_lt_Some _ _ _ Hs) as Hlt.
      rewrite Hlen in Hlt. destruct (placed_surj live dests Hdests _ Hlt) as (p & e & Hpl).
      rewrite (Hnew _ _ _ Hpl), (Hgp _ _ _ Hpl) in Hs. injection Hs as <-. simpl. eauto.
  - exists (map fst live). split_and!.
    + apply (NoDup_fmap_1 ptr_index). by rewrite <- list_fmap_compose.
    + intros p. rewrite list_elem_of_fmap. split.
      * intros ([q c] & -> & [? _]%Hlive). done.
      * intros Hp. destruct (Hcl p Hp) as [c Hc]. exists (p, c). split; [done|]. by apply Hlive.
    + simpl. by rewrite length_map.
  - intros Hs p q Hp Hq Hpq.
    destruct (placed_ex h live dests Hlive Hcl Hdests p Hp) as (c & d & _ & j & Hj & Hd).
    destruct (placed_ex h live dests Hlive Hcl Hdests q Hq) as (e & d' & _ & k & Hk & _).
    rewrite (Hgp p c d) by (by exists j). simpl. intros Heq. apply (Hstress Hs) with (i := j) (x := d).
    + apply lookup_lt_Some in Hj as ?, Hk as ?. destruct (decide (j = k)) as [->|]; [congruence|lia].
    + done.
    + rewrite list_lookup_fmap, Hj. simpl. by rewrite Heq.
Qed.

(** * The verification accepts every compact heap *)

Lemma get_slot_checked_valid h p : is_Some (cell_at h p) -> exists s, get_slot_checked h p = Ok s.
Proof. intros [c Hc]. eexists. by apply cell_at_get. Qed.

(** Both pushing loops add the new pointers to [work] and to [seen]. *)
Definition pushed (l work : list InternalPtr) (seen : gset InternalPtr)
    (r : list InternalPtr * gset InternalPtr) : Prop :=
  (forall p, p ∈ r.2 <-> p ∈ l \/ p ∈ seen) /\
  (forall p, p ∈ work -> p ∈ r.1) /\
  (forall p, p ∈ l -> p ∈ seen \/ p ∈ r.1) /\
  (forall p, p ∈ r.1 -> p ∈ work \/ p ∈ l).

Lemma pushed_nil work seen : pushed [] work seen (work, seen).
Proof. unfold pushed. set_solver. Qed.

Lemma pushed_old p l work seen r :
  p ∈ seen -> pushed l work seen r -> pushed (p :: l) work seen r.
Proof. unfold pushed. set_solver. Qed.

Lemma pushed_new p l work seen r :
  pushed l (work ++ [p]) ({[p]} ∪ seen) r -> pushed (p :: l) work seen r.
Proof.
  unfold pushed. intros (H1 & H2 & H3 & H4). split_and!; [set_solver..| |set_solver].
  intros q [->|Hq]%elem_of_cons; [right; apply H2; set_solver|].
  destruct (H3 q Hq) as [[->%elem_of_singleton|?]%elem_of_union|?]; [|auto..].
  right. apply H2. set_solver.
Qed.

Lemma verify_roots_Ok h i roots work seen :
  Forall (fun p => is_Some (cell_at h p)) (omap rslot_pointer roots) ->
  exists r, verify_roots h i roots work seen = Ok r /\ pushed (omap rslot_pointer roots) work seen r.
Proof.
  revert i work seen. induction roots as [|[g [p|]] roots IH]; intros i work seen; simpl.
  - intros _. eexists; split; [done|]. apply pushed_nil.
  - intros [Hp Hr]%Forall_cons. destruct (get_slot_checked_valid h p Hp) as [s ->]. simpl.
    case_decide as Hin.
    + destruct (IH (S i) work seen Hr) as (r & -> & ?). eauto using pushed_old.
    + destruct (IH (S i) (work ++ [p]) ({[p]} ∪ seen) Hr) as (r & -> & ?). eauto using pushed_new.
  - intros Hr. apply IH, Hr.
Qed.

Lemma verify_children_Ok h p l work seen :
  Forall (fun p => is_Some (cell_at h p)) l ->
  exists r, verify_children h p l work seen = Ok r /\ pushed l work seen r.
Proof.
  revert work seen. induction l as [|q l IH]; intros work seen; simpl.
  - intros _. eexists; split; [done|]. apply pushed_nil.
  - intros [Hq Hl]%Forall_cons. destruct (get_slot_checked_valid h q Hq) as [s ->]. simpl.
    case_decide as Hin.
    + destruct (IH work seen Hl) as (r & -> & ?). eauto using pushed_old.
    + destruct (IH (work ++ [q]) ({[q]} ∪ seen) Hl) as (r & -> & ?). eauto using pushed_new.
Qed.

Definition verify_inv (h : Heap) (work : list InternalPtr) (seen : gset InternalPtr) : Prop :=
  (forall p, p ∈ seen -> reach h p) /\ (forall p, p ∈ work -> p ∈ seen) /\
  (forall p, p ∈ root_pointers h -> p ∈ seen) /\
  (forall p c q, p ∈ seen -> cell_at h p = Some c -> q ∈ pointers c -> p ∈ work \/ q ∈ seen).

Lemma verify_inv_step h p c work seen r :
  cell_at h p = Some c -> verify_inv h (p :: work) seen -> pushed (pointers c) work seen r ->
  verify_inv h r.1 r.2.
Proof.
  intros Hc (H1 & H2 & H3 & H4) (P1 & P2 & P3 & P4).
  assert (Hp : reach h p) by (apply H1, H2; by left).
  split_and!.
  - intros q [Hq|Hq]%P1; [by eapply reach_edge|auto].
  - intros q [Hq|Hq]%P4; apply P1; [right; apply H2; by right|by left].
  - intros q Hq. apply P1. auto.
  - intros q d s [Hq|Hq]%P1 Hd Hs.
    + destruct (P3 q Hq) as [Hq'|?]; [|auto].
      destruct (H4 q d s Hq' Hd Hs) as [[->|?]%elem_of_cons|?]; rewrite ?P1; auto.
      simplify_eq. auto.
    + destruct (H4 q d s Hq Hd Hs) as [[->|?]%elem_of_cons|?]; rewrite ?P1; auto.
      simplify_eq. auto.
Qed.

Lemma verify_loop_Ok fuel h work seen r :
  closed h -> verify_inv h work seen -> verify_loop fuel h work seen = Some r ->
  exists seen', r = Ok seen' /\ forall p, reach h p -> p ∈ seen'.
Proof.
  intros Hcl. revert work seen. induction fuel as [|fuel IH]; intros work seen I; [done|].
  destruct work as [|p work]; simpl.
  - intros [= <-]. eexists; split; [done|]. destruct I as (_ & _ & H3 & H4).
    induction 1 as [p Hp|p c q Hp Hps Hc Hq]; [auto|].
    by destruct (H4 p c q Hps Hc Hq) as [?%elem_of_nil|?].
  - assert (Hp : reach h p) by (destruct I as (H1 & H2 & _); apply H1, H2; by left).
    destruct (Hcl p Hp) as [c Hc]. rewrite (cell_at_get _ _ _ Hc). cbn [with_context fbind slot_cell].
    rewrite trace_pointers_eq.
    destruct (verify_children_Ok h p (pointers c) work seen) as (ws & -> & Hws).
    { apply Forall_forall. intros q Hq. by eapply Hcl, reach_edge. }
    cbn [fbind]. apply IH. by eapply verify_inv_step.
Qed.

Lemma verify_slots_Ok h seen pre sl :
  slots h = pre ++ sl -> (Z.of_nat (length (slots h)) <= u32_modulus)%Z ->
  Forall (fun s => slot_generation s = collection_epoch h /\ is_Some (slot_cell s)) sl ->
  (forall p, is_Some (cell_at h p) -> p ∈ seen) ->
  verify_slots h seen (length pre) sl = Ok tt.
Proof.
  intros Hsl Hlen Hall Hseen. revert pre Hsl.
  induction Hall as [|[gen cell] sl [Hgen [c Hc]] _ IH]; intros pre Hsl; [done|].
  simpl in Hgen, Hc. subst. simpl. rewrite Z.eqb_refl. simpl.
  unfold u32_try_from. rewrite (proj2 (Z.ltb_lt _ _)).
  2:{ rewrite Hsl, length_app in Hlen. simpl in Hlen. lia. }
  cbn [rbind]. rewrite decide_True.
  - rewrite <- (IH (pre ++ [mkSlot (collection_epoch h) (Some c)])) by (by rewrite <- app_assoc).
    by rewrite length_app, Nat.add_1_r.
  - apply Hseen. exists c. apply cell_at_Some. simpl. split; [done|].
    by rewrite Hsl, list_lookup_middle.
Qed.

Lemma verify_after_collection_Ok h :
  closed h -> (Z.of_nat (length (slots h)) <= u32_modulus)%Z ->
  Forall (fun s => slot_generation s = collection_epoch h /\ is_Some (slot_cell s)) (slots h) ->
  (forall p, is_Some (cell_at h p) -> reach h p) ->
  verify_after_collection h = Ok tt.
Proof.
  intros Hcl Hlen Hsl Hcompact. unfold verify_after_collection.
  generalize (verify_total h).
  destruct (verify_roots_Ok h 0 (runtime_roots h) [] ∅) as (ws & -> & Hws).
  { apply Forall_forall. intros p Hp. by apply Hcl, reach_root. }
  intros Htot. destruct (Htot ws eq_refl) as [r Hr] eqn:Heq. clear Heq.
  assert (Hinv : verify_inv h ws.1 ws.2).
  { destruct Hws as (P1 & _ & P3 & P4). split_and!.
    - intros p [Hp|Hp]%P1; [by apply reach_root|set_solver].
    - intros p [Hp|Hp]%P4; [set_solver|]. apply P1. by left.
    - intros p Hp. apply P1. by left.
    - intros p c q [Hp|Hp]%P1 _ _; [|set_solver]. destruct (P3 p Hp); [set_solver|auto]. }
  destruct (verify_loop_Ok _ _ _ _ _ Hcl Hinv Hr) as (seen & -> & Hseen).
  assert (Hproj : forall H, is_Some_proj (mx := verify_loop (S (length (slots h))) h ws.1 ws.2) H = Ok seen).
  { intros H. clear Htot. revert H. rewrite Hr. done. }
  rewrite Hproj. cbn [rbind]. apply (verify_slots_Ok h seen [] (slots h)); auto.
Qed.
