(* ===== verification/HeapSafety.v ===== *)
(** Safety of the heap of [rex-engine/src/memory/heap.rs]: its invariant, the
    root table as a map from tokens to pointers, and what collection and
    allocation promise to code that holds tokens. *)

From S2P Require Import Prelude Span Types Syntax Errors Heap HeapTrace HeapStress HeapCollect.

(** * The invariant *)

Record heap_inv (h : Heap) : Prop := {
  inv_closed : closed h;
  inv_slots : Forall (fun s => slot_generation s = collection_epoch h /\ is_Some (slot_cell s)) (slots h);
  inv_epoch : (0 <= collection_epoch h <= u64_max)%Z;
  inv_length : (Z.of_nat (length (slots h)) <= u32_modulus)%Z;
  inv_free_nodup : NoDup (free_runtime_root_list h);
  inv_free : forall i, i ∈ free_runtime_root_list h <->
                exists g, runtime_roots h !! i = Some (mkRootSlot g None) }.

(** The root table as a map: [live_root h r p] says that the token [r] stands
    for [p]. *)
Definition live_root (h : Heap) (r : RootedPtr) (p : InternalPtr) : Prop :=
  root_heap_id r = h_id h /\
  runtime_roots h !! root_slot r = Some (mkRootSlot (root_generation r) (Some p)).

Lemma live_root_dec h r : (exists p, live_root h r p) \/ ~ (exists p, live_root h r p).
Proof.
  unfold live_root. destruct (decide (root_heap_id r = h_id h)) as [Hid|]; [|naive_solver].
  destruct (runtime_roots h !! root_slot r) as [[g [p|]]|]; [|naive_solver..].
  destruct (decide (g = root_generation r)) as [->|]; naive_solver.
Qed.

(** Two heaps that differ in their root tables only. *)
Definition same_store (h h' : Heap) : Prop :=
  exists roots free, h' = set_roots roots free h.

Lemma same_store_refl h : same_store h h.
Proof. exists (runtime_roots h), (free_runtime_root_list h). by destruct h. Qed.

Lemma same_store_trans h h' h'' : same_store h h' -> same_store h' h'' -> same_store h h''.
Proof. intros (r & f & ->) (r' & f' & ->). by exists r', f'. Qed.

Lemma same_store_cell_at h h' : same_store h h' -> forall p, cell_at h' p = cell_at h p.
Proof. by intros (r & f & ->). Qed.

Lemma Heap_new_inv id : heap_inv (Heap_new id).
Proof.
  assert (Hreach : forall p, ~ reach (Heap_new id) p).
  { intros p. induction 1 as [p Hp|]; [|done]. by apply elem_of_nil in Hp. }
  split; simpl.
  - intros p Hp. by destruct (Hreach p).
  - constructor.
  - unfold u64_max. lia.
  - unfold u32_modulus. lia.
  - constructor.
  - intros i. rewrite elem_of_nil, lookup_nil. naive_solver.
Qed.

(** * Tokens and reachability *)

Lemma live_root_pointers h p : p ∈ root_pointers h <-> exists r, live_root h r p.
Proof.
  unfold root_pointers, live_root. rewrite list_elem_of_omap. split.
  - intros ([g p'] & Hr & Hp). simpl in Hp. subst. apply list_elem_of_lookup in Hr as [i Hi].
    by exists (mkRoot (h_id h) i g).
  - intros (r & _ & Hr). exists (mkRootSlot (root_generation r) (Some p)).
    split; [by eapply list_elem_of_lookup_2|done].
Qed.

Lemma live_root_fun h r p q : live_root h r p -> live_root h r q -> p = q.
Proof. unfold live_root. naive_solver. Qed.

Lemma live_root_slot_inj h r r' p q :
  live_root h r p -> live_root h r' q -> root_slot r = root_slot r' -> r = r'.
Proof.
  intros [H1 H2] [H3 H4] Hs. destruct r, r'; simpl in *. subst. simplify_eq. done.
Qed.

Lemma live_root_reach h r p : live_root h r p -> reach h p.
Proof. intros H. apply reach_root, live_root_pointers. eauto. Qed.

(** Reachability depends on the tokens' pointers and on the cells only. *)
Lemma reach_mono h h' :
  (forall p, p ∈ root_pointers h' -> reach h p) ->
  (forall p c, cell_at h' p = Some c -> is_Some (cell_at h p) -> cell_at h p = Some c) ->
  closed h -> forall p, reach h' p -> reach h p.
Proof.
  intros Hr Hc Hcl p. induction 1 as [p Hp|p c q Hp IH Hpc Hq]; [by apply Hr|].
  apply (reach_edge h p c q); auto.
Qed.

Lemma closed_roots h h' :
  same_store h h' -> closed h ->
  (forall p, p ∈ root_pointers h' -> reach h p) -> closed h'.
Proof.
  intros Hs Hcl Hr p Hp. rewrite (same_store_cell_at h h') by done. apply Hcl.
  revert p Hp. apply reach_mono; [done| |done]. intros p c. by rewrite (same_store_cell_at h h').
Qed.

(** Adding a valid pointer whose edges are valid keeps a heap closed when all its
    cells have valid edges; for this the weaker notion below is enough. *)
Inductive reach_from (h : Heap) (p : InternalPtr) : InternalPtr -> Prop :=
  | from_refl : reach_from h p p
  | from_edge q c r : reach_from h p q -> cell_at h q = Some c -> r ∈ pointers c -> reach_from h p r.

(** No pointer reachable from [p] dangles. *)
Definition safe (h : Heap) (p : InternalPtr) : Prop :=
  forall q, reach_from h p q -> is_Some (cell_at h q).

Lemma reach_from_reach h p q : reach h p -> reach_from h p q -> reach h q.
Proof. intros Hp. induction 1; [done|]. by eapply reach_edge. Qed.

Lemma reach_safe h p : closed h -> reach h p -> safe h p.
Proof. intros Hcl Hp q Hq. apply Hcl. by eapply reach_from_reach. Qed.

Lemma reach_is_from h p :
  reach h p -> exists q, q ∈ root_pointers h /\ reach_from h q p.
Proof.
  induction 1 as [p Hp|p c q Hp (r & Hr & IH) Hc Hq]; [exists p; split; [done|constructor]|].
  exists r. split; [done|]. by eapply from_edge.
Qed.

Lemma reach_from_store h h' p q : same_store h h' -> reach_from h' p q -> reach_from h p q.
Proof.
  intros Hs. induction 1 as [|q c r _ IH Hc Hr]; [constructor|].
  rewrite (same_store_cell_at h h') in Hc by done. by eapply from_edge.
Qed.

Lemma safe_store h h' p : same_store h h' -> safe h p -> safe h' p.
Proof.
  intros Hs Hp q Hq. rewrite (same_store_cell_at h h') by done. eapply Hp, reach_from_store; eauto.
Qed.

Lemma closed_safe h : (forall p, p ∈ root_pointers h -> safe h p) -> closed h.
Proof. intros H p (q & Hq & Hp)%reach_is_from. by apply (H q). Qed.

(** * The root table *)

Lemma last_removelast {A} (l : list A) x : last l = Some x -> l = removelast l ++ [x].
Proof.
  intros (k & ->)%last_Some. by rewrite removelast_last.
Qed.

(** A table whose tokens are old ones or stand for [p] keeps the heap closed. *)
Lemma closed_add_root h h' r p :
  same_store h h' -> heap_inv h -> safe h p -> live_root h' r p ->
  (forall r' q, live_root h' r' q -> r' = r \/ live_root h r' q) -> closed h'.
Proof.
  intros Hs I Hp Hnew Hback. apply closed_safe. intros q [r' Hr']%live_root_pointers.
  apply (safe_store h); [done|].
  destruct (Hback r' q Hr') as [->|Hr'']; [by rewrite (live_root_fun _ _ _ _ Hr' Hnew)|].
  apply reach_safe; [apply I|]. by eapply live_root_reach.
Qed.

Section table.
Context (debug_assertions : bool).

(** [register_runtime_root] adds one fresh token. *)
Lemma register_spec h p :
  heap_inv h -> safe h p ->
  exists r h', register_runtime_root debug_assertions p h = (Ok r, h') /\ heap_inv h' /\
    same_store h h' /\ live_root h' r p /\
    (forall r' q, live_root h r' q -> r' <> r /\ live_root h' r' q) /\
    (forall r' q, live_root h' r' q -> r' = r \/ live_root h r' q).
Proof.
  intros I Hp. unfold register_runtime_root.
  destruct (last (free_runtime_root_list h)) as [i|] eqn:Hlast.
  - apply last_removelast in Hlast.
    assert (Hi : i ∈ free_runtime_root_list h) by (rewrite Hlast; set_solver).
    apply (inv_free h I) in Hi as [g Hg]. rewrite Hg. simpl. rewrite andb_false_r.
    pose proof (lookup_lt_Some _ _ _ Hg) as Hlt.
    eexists _, _. split; [done|]. set (h' := set_roots _ _ h).
    assert (Hs : same_store h h') by (by eexists _, _).
    assert (Hnew : live_root h' (mkRoot (h_id h) i g) p).
    { split; [done|]. simpl. by rewrite list_lookup_insert_eq. }
    assert (Hold : forall r' q, live_root h r' q -> r' <> mkRoot (h_id h) i g /\ live_root h' r' q).
    { intros r' q [H1 H2]. assert (root_slot r' <> i) by congruence. split; [by intros ->|].
      split; [done|]. simpl. by rewrite list_lookup_insert_ne. }
    assert (Hback : forall r' q, live_root h' r' q -> r' = mkRoot (h_id h) i g \/ live_root h r' q).
    { intros r' q [H1 H2]. simpl in H1, H2. destruct (decide (root_slot r' = i)) as [<-|Hne].
      - rewrite list_lookup_insert_eq in H2 by done. left. destruct r'; simpl in *. congruence.
      - rewrite list_lookup_insert_ne in H2 by done. by right. }
    split_and!; try done.
    pose proof (inv_free_nodup h I) as Hnd. rewrite Hlast in Hnd.
    apply NoDup_app in Hnd as (Hnd & Hdisj & _).
    split; try apply I; [|done|].
    + by eapply closed_add_root.
    + intros j. simpl. destruct (decide (j = i)) as [->|Hj].
      * rewrite list_lookup_insert_eq by done. split; [|naive_solver].
        intros Hin%Hdisj. set_solver.
      * rewrite list_lookup_insert_ne, <- (inv_free h I) by done. rewrite Hlast at 2. set_solver.
  - apply last_None in Hlast.
    eexists _, _. split; [done|]. set (h' := set_roots _ _ h).
    assert (Hs : same_store h h') by (by eexists _, _).
    assert (Hnew : live_root h' (mkRoot (h_id h) (length (runtime_roots h)) 0) p).
    { split; [done|]. simpl. by rewrite list_lookup_middle. }
    assert (Hold : forall r' q, live_root h r' q ->
              r' <> mkRoot (h_id h) (length (runtime_roots h)) 0 /\ live_root h' r' q).
    { intros r' q [H1 H2]. pose proof (lookup_lt_Some _ _ _ H2).
      split; [intros ->; simpl in *; lia|]. split; [done|]. simpl. by rewrite lookup_app_l. }
    assert (Hback : forall r' q, live_root h' r' q ->
              r' = mkRoot (h_id h) (length (runtime_roots h)) 0 \/ live_root h r' q).
    { intros r' q [H1 [H2|[Hge H2]]%lookup_app_Some]; [by right|left].
      apply list_lookup_singleton_Some in H2 as [H2 [= ? ?]]. destruct r'; simpl in *.
      f_equal; [done|lia|done]. }
    split_and!; try done. split; try apply I.
    + by eapply closed_add_root.
    + intros j. simpl. rewrite (inv_free h I). split.
      * intros [g Hg]. exists g. by apply lookup_app_l_Some.
      * intros [g [Hg|[_ Hg]]%lookup_app_Some]; [by exists g|].
        by apply list_lookup_singleton_Some in Hg as [_ [=]].
Qed.

(** [unregister_runtime_root] removes its token, and nothing else, if it is live. *)
Lemma unregister_spec h r :
  heap_inv h ->
  exists h', unregister_runtime_root r h = (Ok tt, h') /\ heap_inv h' /\ same_store h h' /\
    (forall r' q, live_root h' r' q <-> r' <> r /\ live_root h r' q).
Proof.
  intros I. unfold unregister_runtime_root.
  destruct (live_root_dec h r) as [Hlive|Hdead].
  2:{ exists h. split; [|split_and!; [done|apply same_store_refl|]].
      - destruct (Z.eqb_spec (root_heap_id r) (h_id h)) as [Hid|]; simpl; [|done].
        destruct (runtime_roots h !! root_slot r) as [[g [p|]]|] eqn:Hr; simpl; [|by rewrite orb_true_r|done].
        destruct (Z.eqb_spec g (root_generation r)) as [->|]; simpl; [|done].
        destruct Hdead. by exists p.
      - intros r' q. split; [|naive_solver]. intros Hq. split; [|done]. intros ->. eauto. }
  destruct Hlive as [p [Hid Hr]]. rewrite Hid, Z.eqb_refl, Hr. simpl. rewrite Z.eqb_refl. simpl.
  eexists; split; [done|]. set (h' := set_roots _ _ h).
  assert (Hs : same_store h h') by (by eexists _, _).
  pose proof (lookup_lt_Some _ _ _ Hr) as Hlt.
  assert (Hiff : forall r' q, live_root h' r' q <-> r' <> r /\ live_root h r' q).
  { intros r' q. unfold live_root. simpl. destruct (decide (root_slot r' = root_slot r)) as [Heq|Hne].
    - rewrite Heq, list_lookup_insert_eq by done. split; [by intros [_ [=]]|].
      intros (Hne & H1 & H2). destruct Hne. destruct r, r'; simpl in *. congruence.
    - rewrite list_lookup_insert_ne by done. naive_solver. }
  split_and!; try done. split; try apply I.
  - apply (closed_roots h); [done|apply I|]. intros q [r' [_ Hr']%Hiff]%live_root_pointers.
    by eapply live_root_reach.
  - simpl. apply NoDup_app. split; [apply I|]. split; [|apply NoDup_singleton].
    intros i Hi%(inv_free h I). destruct Hi as [g Hg]. rewrite list_elem_of_singleton. congruence.
  - intros i. simpl. rewrite elem_of_app, list_elem_of_singleton, (inv_free h I).
    destruct (decide (i = root_slot r)) as [->|Hi].
    + rewrite list_lookup_insert_eq by done. naive_solver.
    + rewrite list_lookup_insert_ne by done. naive_solver.
Qed.

Lemma resolve_spec h r p :
  live_root h r p -> resolve_runtime_root debug_assertions h r = Ok p.
Proof.
  intros [Hid Hr]. unfold resolve_runtime_root, index_vec. rewrite Hid, Z.eqb_refl, Hr. simpl.
  rewrite andb_false_r. simpl. by rewrite Z.eqb_refl, andb_false_r.
Qed.

Lemma register_all_spec h l :
  heap_inv h -> Forall (safe h) l ->
  exists rs h', mapM_st (register_runtime_root debug_assertions) l h = (Ok rs, h') /\
    heap_inv h' /\ same_store h h' /\ Forall2 (live_root h') rs l /\
    (forall r q, live_root h r q -> r ∉ rs /\ live_root h' r q) /\
    (forall r q, live_root h' r q -> r ∈ rs \/ live_root h r q).
Proof.
  intros I Hl. revert h I Hl. induction l as [|p l IH]; intros h I Hl; simpl.
  { exists [], h. split_and!; [done|done|apply same_store_refl|constructor| |by auto].
    intros r q Hq. split; [by intros ?%elem_of_nil|done]. }
  apply Forall_cons in Hl as [Hp Hl].
  destruct (register_spec h p I Hp) as (r & h1 & Hreg & I1 & Hs1 & Hnew & Hold & Hback).
  unfold mthen at 1. rewrite Hreg.
  destruct (IH h1 I1) as (rs & h2 & Hregs & I2 & Hs2 & Hall & Hold2 & Hback2).
  { apply (Forall_impl _ _ _ Hl). intros q. by apply safe_store. }
  unfold mthen. rewrite Hregs. unfold mret. exists (r :: rs), h2. split_and!; try done.
  - by eapply same_store_trans.
  - constructor; [|done]. by apply Hold2.
  - intros r' q Hq. destruct (Hold r' q Hq) as [Hne Hq1]. destruct (Hold2 r' q Hq1). set_solver.
  - intros r' q [Hq|Hq]%Hback2; [set_solver|]. destruct (Hback r' q Hq) as [->|?]; [set_solver|auto].
Qed.

Lemma unregister_all_spec h rs :
  heap_inv h ->
  exists us h', mapM_st unregister_runtime_root rs h = (Ok us, h') /\ heap_inv h' /\
    same_store h h' /\ (forall r q, live_root h' r q <-> r ∉ rs /\ live_root h r q).
Proof.
  intros I. revert h I. induction rs as [|r rs IH]; intros h I; simpl.
  { exists [], h. split_and!; [done|done|apply same_store_refl|].
    intros r q. rewrite elem_of_nil. tauto. }
  destruct (unregister_spec h r I) as (h1 & Hun & I1 & Hs1 & Hiff).
  unfold mthen at 1. rewrite Hun. destruct (IH h1 I1) as (us & h2 & Huns & I2 & Hs2 & Hiff2).
  unfold mthen. rewrite Huns. unfold mret. exists (tt :: us), h2. split_and!; try done.
  - by eapply same_store_trans.
  - intros r' q. rewrite Hiff2, Hiff, elem_of_cons. tauto.
Qed.

Lemma resolve_all_spec h rs l :
  Forall2 (live_root h) rs l -> resolve_all debug_assertions h rs = Ok l.
Proof.
  induction 1 as [|r p rs l Hr _ IH]; simpl; [done|].
  rewrite (resolve_spec h r p) by done. cbn [rbind]. by rewrite IH.
Qed.
End table.

(** * Collection *)

Section relocated.
Context (h h' : Heap) (g : InternalPtr -> InternalPtr).
Context (Hcl : closed h) (R : relocation h h' g).

Lemma relocated_root r q : live_root h' r q <-> exists p, live_root h r p /\ q = g p.
Proof using R.
  clear Hcl. unfold live_root. rewrite (rel_id _ _ _ R), (rel_roots _ _ _ R), list_lookup_fmap.
  destruct (runtime_roots h !! root_slot r) as [[gen p]|]; unfold rename_root; simpl; [|naive_solver].
  split.
  - intros [Hid [= -> Hp]]. destruct p as [p|]; [|done]. injection Hp as <-. eauto.
  - intros (p' & [Hid [= -> ->]] & ->). done.
Qed.

Lemma relocated_reach q : reach h' q <-> exists p, reach h p /\ q = g p.
Proof using Hcl R.
  split.
  - induction 1 as [q Hq|q d s _ (p & Hp & ->) Hd Hs].
    + apply live_root_pointers in Hq as [r (p & Hr & ->)%relocated_root].
      exists p. split; [by eapply live_root_reach|done].
    + destruct (Hcl p Hp) as [c Hc]. rewrite (rel_cells _ _ _ R p c Hp Hc) in Hd. injection Hd as <-.
      rewrite pointers_rename in Hs. apply list_elem_of_fmap in Hs as (s' & -> & Hs').
      exists s'. split; [by eapply reach_edge|done].
  - intros (p & Hp & ->). induction Hp as [p Hp|p c q Hp IH Hc Hq].
    + apply live_root_pointers in Hp as [r Hr]. eapply live_root_reach, relocated_root. eauto.
    + eapply (reach_edge h' (g p) (rename g c)); [done|by apply (rel_cells _ _ _ R)|].
      rewrite pointers_rename. by apply list_elem_of_fmap_2.
Qed.

Lemma relocated_closed : closed h'.
Proof using Hcl R.
  intros q (p & Hp & ->)%relocated_reach. destruct (Hcl p Hp) as [c Hc].
  rewrite (rel_cells _ _ _ R p c Hp Hc). eauto.
Qed.

(** Every valid pointer of the new heap is reachable. *)
Lemma relocated_compact q : is_Some (cell_at h' q) -> reach h' q.
Proof using Hcl R. intros Hq. apply relocated_reach. by apply (rel_surj _ _ _ R). Qed.

(** Pointers from before the collection are rejected. *)
Lemma relocated_stale p :
  ptr_heap_id p = h_id h' -> (ptr_generation p < collection_epoch h')%Z ->
  get_slot_checked h' p = raise (invalid_pointer (h_id h') (ptr_index p) (ptr_generation p)).
Proof using R.
  clear Hcl. intros Hid Hgen. unfold get_slot_checked. rewrite Hid, Z.eqb_refl. simpl.
  destruct (slots h' !! ptr_index p) as [s|] eqn:Hs; [|done].
  pose proof (rel_slots _ _ _ R) as Hall. rewrite Forall_lookup in Hall.
  destruct (Hall _ _ Hs) as [Hg _]. destruct (Z.eqb_spec (slot_generation s) (ptr_generation p)); [lia|].
  done.
Qed.
End relocated.

Lemma live_length h live :
  closed h -> NoDup live -> (forall p, p ∈ live <-> reach h p) -> length live <= length (slots h).
Proof.
  intros Hcl Hnd Hlive. rewrite <- (size_list_to_set (C := gset InternalPtr) live) by done.
  apply all_valid_size. intros p Hp%elem_of_list_to_set. by apply Hcl, Hlive.
Qed.

Lemma relocated_inv h h' g live :
  heap_inv h -> relocation h h' g -> (collection_epoch h < u64_max)%Z ->
  NoDup live -> (forall p, p ∈ live <-> reach h p) -> length (slots h') = length live ->
  heap_inv h' /\ length (slots h') <= length (slots h).
Proof.
  intros I R Hep Hnd Hlive Hlen.
  assert (Hle : length (slots h') <= length (slots h)).
  { rewrite Hlen. apply live_length; [apply I|done..]. }
  split; [|done]. pose proof (inv_epoch h I). pose proof (inv_length h I).
  split.
  - eapply relocated_closed; [apply I|done].
  - apply R.
  - rewrite (rel_epoch _ _ _ R). lia.
  - lia.
  - rewrite (rel_free _ _ _ R). apply I.
  - intros i. rewrite (rel_free _ _ _ R), (inv_free h I), (rel_roots _ _ _ R), list_lookup_fmap.
    destruct (runtime_roots h !! i) as [[gen [p|]]|]; unfold rename_root; simpl; naive_solver.
Qed.

Lemma same_store_inv_fields h h' :
  same_store h h' ->
  h_id h' = h_id h /\ slots h' = slots h /\ collection_epoch h' = collection_epoch h /\
  extreme_stress_enabled h' = extreme_stress_enabled h.
Proof. by intros (r & f & ->). Qed.

Section with_debug.
Context (debug_assertions : bool).

Lemma collect_spec h :
  heap_inv h -> (collection_epoch h < u64_max)%Z ->
  exists h' g, collect debug_assertions h = (Ok tt, h') /\ heap_inv h' /\ relocation h h' g /\
    length (slots h') <= length (slots h) /\
    (exists live, NoDup live /\ (forall p, p ∈ live <-> reach h p) /\ length (slots h') = length live) /\
    (extreme_stress_enabled h = true -> forall p q, reach h p -> reach h q -> p <> q ->
       ptr_index (g p) <> ptr_index p).
Proof.
  intros I Hep.
  destruct (collect_phases_spec h) as (h' & g & Hc & R & (live & Hnd & Hlive & Hlen) & Hstress);
    [apply I|done|apply I|].
  destruct (relocated_inv h h' g live) as [I' Hle]; [done..|].
  exists h', g. split; [|by eauto 10].
  unfold collect. rewrite Hc. destruct debug_assertions; [|done].
  rewrite verify_after_collection_Ok; [done|..]; try apply I'.
  intros p Hp. eapply relocated_compact; [apply I|done|done].
Qed.

Lemma push_spec c h :
  heap_inv h -> (Z.of_nat (length (slots h)) < u32_modulus)%Z ->
  exists p h', push_cell c h = (Ok p, h') /\ heap_inv h' /\ cell_at h' p = Some c /\
    (forall r q, live_root h' r q <-> live_root h r q) /\
    (forall q d, cell_at h q = Some d -> cell_at h' q = Some d) /\
    (forall q, reach h' q <-> reach h q).
Proof.
  intros I Hlen. unfold push_cell, u32_try_from. rewrite (proj2 (Z.ltb_lt _ _) Hlen).
  eexists _, _. split; [done|]. set (h' := set_slots _ h).
  assert (Hold : forall q d, cell_at h q = Some d -> cell_at h' q = Some d).
  { intros q d [Hid Hq]%cell_at_Some. apply cell_at_Some. split; [done|]. simpl.
    by apply lookup_app_l_Some. }
  assert (Hsame : forall q d, cell_at h' q = Some d -> is_Some (cell_at h q) -> cell_at h q = Some d).
  { intros q d Hd [e He]. rewrite He. rewrite (Hold q e He) in Hd. done. }
  assert (Hreach : forall q, reach h' q <-> reach h q).
  { intros q. split.
    - apply reach_mono; [|exact Hsame|apply I]. intros p Hp. exact (reach_root h p Hp).
    - induction 1 as [q Hq|q d s _ IH Hd Hs]; [exact (reach_root h' q Hq)|].
      eapply reach_edge; eauto. }
  split_and!; auto.
  - split; simpl; try apply I.
    + intros q Hq. apply Hreach in Hq. destruct (inv_closed h I q Hq) as [d Hd]. eauto.
    + apply Forall_app. split; [apply I|]. constructor; [simpl; eauto|constructor].
    + rewrite length_app. simpl. lia.
  - apply cell_at_Some. simpl. split; [done|]. by rewrite list_lookup_middle.
Qed.

(** * Allocation *)

Lemma check_all_Ok h l : Forall (safe h) l -> check_all h l = Ok tt.
Proof.
  induction 1 as [|p l Hp _ IH]; simpl; [done|].
  destruct (Hp p) as [c Hc]; [constructor|]. by rewrite (cell_at_get _ _ _ Hc).
Qed.

Lemma next_relocated_cell g c :
  map_pointers next_relocated c (map g (pointers c)) = Ok (rename g c, []).
Proof.
  apply map_pointers_Ok. induction (pointers c) as [|p l IH]; simpl; [done|]. by rewrite IH.
Qed.

(** What an allocation or a collection promises: [g] carries every object that
    the tokens or the pending cell reach, and tokens keep standing for their
    objects. *)
Record carried (h h' : Heap) (extra : list InternalPtr) (g : InternalPtr -> InternalPtr) : Prop := {
  car_roots : forall r q, live_root h' r q <-> exists p, live_root h r p /\ q = g p;
  car_cells : forall p c, (reach h p \/ exists k, k ∈ extra /\ reach_from h k p) ->
                cell_at h p = Some c -> cell_at h' (g p) = Some (rename g c);
  car_inj : forall p q, (reach h p \/ exists k, k ∈ extra /\ reach_from h k p) ->
                (reach h q \/ exists k, k ∈ extra /\ reach_from h k q) -> g p = g q -> p = q }.

Lemma rename_id c : rename (fun p => p) c = c.
Proof.
  assert (Hid : forall l : list InternalPtr, map (fun p => p) l = l) by apply list_fmap_id.
  assert (Hsnd : forall K (l : list (K * InternalPtr)), map (fun b => (b.1, b.2)) l = l).
  { intros K l. induction l as [|[]]; simpl; congruence. }
  assert (Henv : forall env, env_rename (fun p => p) env = env).
  { intros env. induction env as [b|e b IH] using InternalEnvironment_ind'; simpl; by rewrite ?IH, Hsnd. }
  destruct c; simpl; rewrite ?Hid, ?Hsnd, ?Henv; try done.
  - by destruct c.
  - by destruct n.
  - by destruct o.
Qed.

(** Rooting the children, collecting and releasing them. *)
Lemma collect_with_children h l :
  heap_inv h -> Forall (safe h) l -> (collection_epoch h < u64_max)%Z ->
  exists rs us h1 h2 h3 g,
    mapM_st (register_runtime_root debug_assertions) l h = (Ok rs, h1) /\
    collect debug_assertions h1 = (Ok tt, h2) /\
    resolve_all debug_assertions h2 rs = Ok (map g l) /\
    mapM_st unregister_runtime_root rs h2 = (Ok us, h3) /\
    heap_inv h3 /\ length (slots h3) <= length (slots h) /\ carried h h3 l g.
Proof.
  intros I Hl Hep.
  destruct (register_all_spec debug_assertions h l I Hl)
    as (rs & h1 & Hreg & I1 & Hs1 & Hall & Hold & Hback).
  destruct (same_store_inv_fields _ _ Hs1) as (_ & Hsl & Hep1 & _).
  destruct (collect_spec h1 I1) as (h2 & g & Hcol & I2 & R & Hlen & _); [by rewrite Hep1|].
  destruct (unregister_all_spec h2 rs I2) as (us & h3 & Hun & I3 & Hs3 & Hiff).
  exists rs, us, h1, h2, h3, g. split_and!; try done.
  - apply resolve_all_spec. eapply Forall2_fmap_r, Forall2_impl; [exact Hall|].
    intros r p Hp. eapply relocated_root; eauto.
  - destruct (same_store_inv_fields _ _ Hs3) as (_ & -> & _). by rewrite <- Hsl.
  - assert (Hreach : forall p, (reach h p \/ exists k, k ∈ l /\ reach_from h k p) -> reach h1 p).
    { assert (Hfrom : forall k p, reach_from h k p -> reach h1 k -> reach h1 p).
      { intros k p Hp Hk. induction Hp as [|q c r _ IH Hc Hr]; [done|].
        rewrite <- (same_store_cell_at h h1) in Hc by done. by eapply reach_edge. }
      intros p [(q & [r Hr]%live_root_pointers & Hp)%reach_is_from|(k & Hk & Hp)].
      - eapply Hfrom; [done|]. eapply live_root_reach, Hold; eauto.
      - eapply Hfrom; [done|]. apply list_elem_of_lookup in Hk as [i Hk].
        destruct (Forall2_lookup_r _ _ _ _ _ Hall Hk) as (r & _ & Hr). by eapply live_root_reach. }
    split.
    + intros r q. rewrite Hiff, (relocated_root h1 h2 g R). split.
      * intros (Hr & p & [?|Hp]%Hback & ->); [done|eauto].
      * intros (p & Hp & ->). destruct (Hold r p Hp). eauto.
    + intros p c Hp Hc. rewrite (same_store_cell_at h2 h3) by done.
      apply (rel_cells _ _ _ R); [auto|]. by rewrite (same_store_cell_at h h1).
    + intros p q Hp Hq. apply (rel_inj _ _ _ R); auto.
Qed.

Lemma alloc_reference_spec c h :
  heap_inv h -> Forall (safe h) (pointers c) -> (collection_epoch h < u64_max)%Z ->
  (Z.of_nat (length (slots h)) < u32_modulus)%Z ->
  exists p h' g, alloc_reference debug_assertions c h = (Ok p, h') /\ heap_inv h' /\
    cell_at h' p = Some (rename g c) /\ carried h h' (pointers c) g.
Proof.
  intros I Hc Hep Hlen. unfold alloc_reference.
  destruct (defer_collection h || negb (collect_needed h)).
  { destruct (push_spec c h I Hlen) as (p & h' & -> & I' & Hp & Hroots & Hcells & _).
    exists p, h', (fun p => p). rewrite rename_id. split_and!; try done. split.
    - intros r q. rewrite Hroots. naive_solver.
    - intros q d _ Hd. rewrite rename_id. auto.
    - done. }
  rewrite trace_pointers_eq. unfold mthen at 1, mlift at 1. rewrite check_all_Ok by done.
  destruct (collect_with_children h (pointers c) I Hc Hep)
    as (rs & us & h1 & h2 & h3 & g & Hreg & Hcol & Hres & Hun & I3 & Hlen3 & Hcar).
  unfold mthen at 1. rewrite Hreg.
  unfold mthen at 1, collect_or_release at 1. rewrite Hcol.
  unfold mthen at 1, mlift at 1. rewrite Hres.
  unfold mthen at 1. rewrite Hun.
  unfold mthen at 1, mlift at 1. rewrite next_relocated_cell. cbn [fst snd].
  destruct (push_spec (rename g c) h3 I3) as (p & h' & -> & I' & Hp & Hroots & Hcells & _); [lia|].
  exists p, h', g. split_and!; try done. split.
  - intros r q. rewrite Hroots. apply Hcar.
  - intros q d Hq Hd. apply Hcells. by apply (car_cells _ _ _ _ Hcar).
  - apply Hcar.
Qed.
End with_debug.

(** * A checker for the invariant, for concrete heaps *)

Definition check_valid (h : Heap) (p : InternalPtr) : bool := bool_decide (is_Some (cell_at h p)).

Definition heap_check (h : Heap) : bool :=
  forallb (fun s => (slot_generation s =? collection_epoch h)%Z &&
             match slot_cell s with Some c => forallb (check_valid h) (pointers c) | None => false end)
    (slots h) &&
  forallb (check_valid h) (root_pointers h) &&
  (0 <=? collection_epoch h)%Z && (collection_epoch h <=? u64_max)%Z &&
  (Z.of_nat (length (slots h)) <=? u32_modulus)%Z &&
  bool_decide (NoDup (free_runtime_root_list h)) &&
  forallb (fun i => match runtime_roots h !! i with Some (mkRootSlot _ None) => true | _ => false end)
    (free_runtime_root_list h) &&
  forallb (fun i => match runtime_roots h !! i with
                    | Some (mkRootSlot _ None) => bool_decide (i ∈ free_runtime_root_list h)
                    | _ => true
                    end) (seq 0 (length (runtime_roots h))).

Lemma heap_check_closed h :
  (forall i s c, slots h !! i = Some s -> slot_cell s = Some c ->
     Forall (fun p => is_Some (cell_at h p)) (pointers c)) ->
  Forall (fun p => is_Some (cell_at h p)) (root_pointers h) -> closed h.
Proof.
  intros Hs Hr p. rewrite Forall_forall in Hr. induction 1 as [p Hp|p c q _ IH Hc Hq]; [auto|].
  apply cell_at_Some in Hc as [_ Hc]. specialize (Hs _ _ _ Hc eq_refl).
  rewrite Forall_forall in Hs. auto.
Qed.

Lemma forallb_valid h l : forallb (check_valid h) l = true -> Forall (fun p => is_Some (cell_at h p)) l.
Proof.
  rewrite forallb_Forall. intros H. apply (Forall_impl _ _ _ H). intros p Hp.
  by apply bool_decide_eq_true in Hp.
Qed.

Lemma heap_check_sound h : heap_check h = true -> heap_inv h.
Proof.
  unfold heap_check. rewrite !andb_true_iff, !Z.leb_le, bool_decide_eq_true.
  intros [[[[[[[Hslots Hroots] H0] H1] Hlen] Hnd] Hfree] Hfree'].
  apply forallb_Forall in Hslots, Hfree, Hfree'. rewrite Forall_lookup in Hslots.
  rewrite Forall_forall in Hfree, Hfree'.
  split; auto.
  - apply heap_check_closed; [|by apply forallb_valid].
    intros i s c Hi Hc. specialize (Hslots i s Hi). rewrite Hc in Hslots.
    apply forallb_valid. destruct (forallb (check_valid h) (pointers c)); [done|].
    rewrite andb_false_r in Hslots. done.
  - apply Forall_lookup. intros i s Hi. specialize (Hslots i s Hi).
    destruct (Z.eqb_spec (slot_generation s) (collection_epoch h)); [|done].
    destruct (slot_cell s); [eauto|done].
  - intros i. split.
    + intros Hi. specialize (Hfree i Hi). destruct (runtime_roots h !! i) as [[g [p|]]|]; [done|eauto|done].
    + intros [g Hg]. pose proof (lookup_lt_Some _ _ _ Hg).
      specialize (Hfree' i). rewrite Hg in Hfree'. eapply bool_decide_eq_true, Hfree'.
      apply elem_of_seq. lia.
Qed.

(** A heap with a shared cell, a cycle, a garbage cell and a released token. *)
Definition demo_ptr (i : nat) : InternalPtr := mkPtr 1 i 6.
Definition demo_heap : Heap :=
  mkHeap 1
    [mkSlot 6 (Some (CI32 42)); mkSlot 6 (Some (CTuple [demo_ptr 0; demo_ptr 0]));
     mkSlot 6 (Some (CTuple [demo_ptr 1])); mkSlot 6 (Some (CCons (demo_ptr 0) (demo_ptr 3)))]
    [mkRootSlot 0 (Some (demo_ptr 1)); mkRootSlot 3 None; mkRootSlot 1 (Some (demo_ptr 3))]
    [1] 1 true 6 false.

Lemma demo_heap_inv : heap_inv demo_heap.
Proof. apply heap_check_sound. vm_compute. reflexivity. Qed.

(** * Properties *)

(** C19. A collection of a heap in a consistent state succeeds and preserves the
    program: every token keeps standing for its object at its new place, and
    every object reachable from the tokens is carried over with its edges
    redirected, distinct objects staying distinct. *)
Theorem collect_preserves_objects debug h (I : heap_inv h)
    (Hep : (collection_epoch h < u64_max)%Z) :
  exists h' g, collect debug h = (Ok tt, h') /\ heap_inv h' /\
    (forall r q, live_root h' r q <-> exists p, live_root h r p /\ q = g p) /\
    (forall p c, reach h p -> cell_at h p = Some c -> cell_at h' (g p) = Some (rename g c)) /\
    (forall p q, reach h p -> reach h q -> g p = g q -> p = q).
Proof.
  destruct (collect_spec debug h I Hep) as (h' & g & Hc & I' & R & _).
  exists h', g. split_and!; try done; [|apply R..]. intros r q. by apply relocated_root.
Qed.

Lemma collect_preserves_objects_witness :
  heap_inv demo_heap /\ exists h' g, collect true demo_heap = (Ok tt, h') /\ heap_inv h' /\
    (forall r q, live_root h' r q <-> exists p, live_root demo_heap r p /\ q = g p) /\
    (forall p c, reach demo_heap p -> cell_at demo_heap p = Some c ->
       cell_at h' (g p) = Some (rename g c)) /\
    (forall p q, reach demo_heap p -> reach demo_heap q -> g p = g q -> p = q).
Proof.
  split; [exact demo_heap_inv|].
  apply (collect_preserves_objects true demo_heap demo_heap_inv). reflexivity.
Defined.

(** C36. A collection frees exactly the garbage: afterwards a pointer is valid
    if and only if it is reachable from a token, and there are as many slots as
    there were reachable objects. *)
Theorem collect_frees_exactly_garbage debug h h' (I : heap_inv h)
    (Hep : (collection_epoch h < u64_max)%Z) (Hc : collect debug h = (Ok tt, h')) :
  (forall q, is_Some (cell_at h' q) <-> reach h' q) /\
  exists live, NoDup live /\ (forall p, p ∈ live <-> reach h p) /\ length (slots h') = length live.
Proof.
  destruct (collect_spec debug h I Hep) as (h'' & g & Hc' & I' & R & _ & Hlive & _).
  rewrite Hc in Hc'. injection Hc' as <-. split; [|done].
  intros q. split; [|apply I']. eapply relocated_compact; [apply I|done].
Qed.

Lemma collect_frees_exactly_garbage_witness :
  exists h', collect true demo_heap = (Ok tt, h') /\ length (slots h') = 3 /\
    (forall q, is_Some (cell_at h' q) <-> reach h' q) /\
    exists live, NoDup live /\ (forall p, p ∈ live <-> reach demo_heap p) /\ length (slots h') = length live.
Proof.
  exists (collect true demo_heap).2. split; [vm_compute; reflexivity|].
  split; [vm_compute; reflexivity|].
  apply (collect_frees_exactly_garbage true demo_heap); [exact demo_heap_inv|reflexivity|].
  vm_compute. reflexivity.
Defined.

(** No use after a move: a pointer from before a collection is rejected
    after it, whether or not its object survived. *)
Theorem collect_rejects_old_pointers debug h h' p (I : heap_inv h)
    (Hep : (collection_epoch h < u64_max)%Z) (Hc : collect debug h = (Ok tt, h'))
    (Hp : is_Some (cell_at h p)) :
  get_slot_checked h' p = raise (invalid_pointer (h_id h) (ptr_index p) (ptr_generation p)) /\
  get_cell_from_pointer h' p = raise (invalid_pointer (h_id h) (ptr_index p) (ptr_generation p)).
Proof.
  destruct (collect_spec debug h I Hep) as (h'' & g & Hc' & I' & R & _).
  rewrite Hc in Hc'. injection Hc' as <-.
  destruct Hp as [c [Hid Hsl]%cell_at_Some]. rewrite <- (rel_id _ _ _ R).
  pose proof (inv_slots h I) as Hall. rewrite Forall_lookup in Hall.
  destruct (Hall _ _ Hsl) as [Hgen _]. simpl in Hgen.
  assert (Hlt : (ptr_generation p < collection_epoch h')%Z) by (rewrite (rel_epoch _ _ _ R); lia).
  split; [apply (relocated_stale h h' g R); [by rewrite (rel_id _ _ _ R)|done]|].
  unfold get_cell_from_pointer. rewrite Hid, (rel_id _ _ _ R), Z.eqb_refl. simpl.
  destruct (slots h' !! ptr_index p) as [s|] eqn:Hs; [|done].
  pose proof (rel_slots _ _ _ R) as Hall'. rewrite Forall_lookup in Hall'.
  destruct (Hall' _ _ Hs) as [Hg _].
  by destruct (Z.eqb_spec (slot_generation s) (ptr_generation p)); [lia|].
Qed.

Lemma collect_rejects_old_pointers_witness :
  exists h', collect true demo_heap = (Ok tt, h') /\
    get_slot_checked h' (demo_ptr 0) = raise (invalid_pointer 1 0 6) /\
    get_cell_from_pointer h' (demo_ptr 0) = raise (invalid_pointer 1 0 6).
Proof.
  exists (collect true demo_heap).2. split; [vm_compute; reflexivity|].
  apply (collect_rejects_old_pointers true demo_heap _ (demo_ptr 0));
    [exact demo_heap_inv|reflexivity|vm_compute; reflexivity|vm_compute; eauto].
Defined.

(** C22. Allocation preserves the program: when the pending cell's children and
    their descendants are valid, [alloc_reference] succeeds even if it
    collects first; the new pointer holds the cell with its children
    redirected, all tokens keep standing for their objects and no temporary
    token stays behind. *)
Theorem alloc_reference_preserves debug c h (I : heap_inv h)
    (Hc : Forall (safe h) (pointers c)) (Hep : (collection_epoch h < u64_max)%Z)
    (Hlen : (Z.of_nat (length (slots h)) < u32_modulus)%Z) :
  exists p h' g, alloc_reference debug c h = (Ok p, h') /\ heap_inv h' /\
    cell_at h' p = Some (rename g c) /\ carried h h' (pointers c) g.
Proof. by apply alloc_reference_spec. Qed.

Lemma alloc_reference_preserves_witness :
  collect_needed demo_heap = true /\
  exists p h' g, alloc_reference true (CTuple [demo_ptr 2; demo_ptr 3]) demo_heap = (Ok p, h') /\
    heap_inv h' /\ cell_at h' p = Some (rename g (CTuple [demo_ptr 2; demo_ptr 3])) /\
    carried demo_heap h' [demo_ptr 2; demo_ptr 3] g.
Proof.
  split; [reflexivity|].
  apply (alloc_reference_preserves true (CTuple [demo_ptr 2; demo_ptr 3]) demo_heap);
    [exact demo_heap_inv| |reflexivity|reflexivity].
  assert (Hreg : heap_inv (set_roots (runtime_roots demo_heap ++ [mkRootSlot 0 (Some (demo_ptr 2))])
                   [1] demo_heap)) by (apply heap_check_sound; vm_compute; reflexivity).
  assert (Hsafe : forall p, reach (set_roots (runtime_roots demo_heap ++
            [mkRootSlot 0 (Some (demo_ptr 2))]) [1] demo_heap) p -> safe demo_heap p).
  { intros p Hp. eapply (safe_store _ demo_heap); [|by apply reach_safe; [apply Hreg|]].
    by exists (runtime_roots demo_heap), [1]. }
  assert (Hroots : root_pointers (set_roots (runtime_roots demo_heap ++
            [mkRootSlot 0 (Some (demo_ptr 2))]) [1] demo_heap) = [demo_ptr 1; demo_ptr 3; demo_ptr 2])
    by reflexivity.
  apply Forall_cons. split; [|apply Forall_cons; split; [|constructor]];
    apply Hsafe, reach_root; rewrite Hroots; set_solver.
Defined.

(** A failed collection leaks nothing: when the epoch counter is exhausted,
    [alloc_reference] reports it, every temporary token is released, and the
    cells and the caller's tokens are as before. *)
Theorem failed_collection_releases_roots debug c h (I : heap_inv h)
    (Hc : Forall (safe h) (pointers c)) (Hep : collection_epoch h = u64_max)
    (Hneed : defer_collection h || negb (collect_needed h) = false) :
  exists h', alloc_reference debug c h
               = (raise (Internal "heap collection count exhausted"), h') /\
    heap_inv h' /\ slots h' = slots h /\
    (forall r q, live_root h' r q <-> live_root h r q).
Proof.
  unfold alloc_reference. rewrite Hneed, trace_pointers_eq.
  unfold mthen at 1, mlift at 1. rewrite check_all_Ok by done.
  destruct (register_all_spec debug h (pointers c) I Hc)
    as (rs & h1 & Hreg & I1 & Hs1 & _ & Hold & Hback).
  destruct (unregister_all_spec h1 rs I1) as (us & h2 & Hun & I2 & Hs2 & Hiff).
  unfold mthen at 1. rewrite Hreg. unfold mthen at 1, collect_or_release, collect, collect_phases.
  destruct (same_store_inv_fields _ _ Hs1) as (_ & Hsl1 & -> & _). rewrite Hep. simpl. rewrite Hun.
  exists h2. split_and!; [done|done| |].
  - destruct (same_store_inv_fields _ _ Hs2) as (_ & -> & _). done.
  - intros r q. rewrite Hiff. split; [|apply Hold]. by intros [Hr [?|?]%Hback].
Qed.

Lemma failed_collection_releases_roots_witness :
  let h := mkHeap 1 [mkSlot u64_max (Some (CI32 42))] [] [] 1 false u64_max false in
  exists h', alloc_reference true (CTuple [mkPtr 1 0 u64_max]) h
               = (raise (Internal "heap collection count exhausted"), h') /\
    heap_inv h' /\ slots h' = slots h /\ (forall r q, live_root h' r q <-> live_root h r q).
Proof.
  apply (failed_collection_releases_roots true (CTuple [mkPtr 1 0 u64_max])
           (mkHeap 1 [mkSlot u64_max (Some (CI32 42))] [] [] 1 false u64_max false));
    [apply heap_check_sound; vm_compute; reflexivity| |reflexivity|reflexivity].
  apply Forall_cons. split; [|constructor]. intros q Hq. apply (inv_closed (mkHeap 1 [mkSlot u64_max (Some (CI32 42))]
    [mkRootSlot 0 (Some (mkPtr 1 0 u64_max))] [] 1 false u64_max false)).
  { apply heap_check_sound. vm_compute. reflexivity. }
  eapply reach_from_reach; [apply reach_root; by left|].
  eapply reach_from_store; [|exact Hq]. by exists [], [].
Defined.

(** The debug verification never fires: on a consistent heap a debug build
    and a release build collect alike. *)
Theorem verification_never_fails h (I : heap_inv h) :
  collect true h = collect false h.
Proof.
  unfold collect. destruct (collect_phases h) as [h'|e] eqn:Hc; [|done].
  assert (Hep : (collection_epoch h < u64_max)%Z).
  { unfold collect_phases in Hc. destruct (Z.ltb_spec (collection_epoch h) u64_max); [done|]. done. }
  destruct (collect_spec true h I Hep) as (h'' & g & Hc' & _). unfold collect in Hc'.
  rewrite Hc in Hc'. destruct (verify_after_collection h') as [[]|]; [done|]. congruence.
Qed.

Lemma verification_never_fails_witness :
  heap_inv demo_heap /\ collect true demo_heap = collect false demo_heap.
Proof. split; [exact demo_heap_inv|]. exact (verification_never_fails demo_heap demo_heap_inv). Defined.

(** The root table behaves as a map with fresh keys: registering a valid
    pointer gives a new token that resolves to it and disturbs no other;
    unregistering removes exactly that token; stale and foreign tokens are
    ignored. *)
Theorem root_table_laws debug h p r (I : heap_inv h) (Hp : reach h p) :
  (exists t h', register_runtime_root debug p h = (Ok t, h') /\ heap_inv h' /\
     resolve_runtime_root debug h' t = Ok p /\ (forall q, ~ live_root h t q) /\
     (forall r' q, live_root h' r' q <-> (r' = t /\ q = p) \/ live_root h r' q)) /\
  (exists h', unregister_runtime_root r h = (Ok tt, h') /\ heap_inv h' /\
     (forall r' q, live_root h' r' q <-> r' <> r /\ live_root h r' q)).
Proof.
  split.
  - destruct (register_spec debug h p I) as (t & h' & Ht & I' & _ & Hnew & Hold & Hback);
      [by apply reach_safe; [apply I|]|].
    exists t, h'. split_and!; [done|done|by apply resolve_spec| |].
    + intros q Hq. by destruct (Hold t q Hq).
    + intros r' q. split.
      * intros Hq. destruct (Hback r' q Hq) as [->|?]; [|by right]. left. split; [done|].
        by eapply live_root_fun.
      * intros [[-> ->]|Hq]; [done|]. by apply Hold.
  - destruct (unregister_spec h r I) as (h' & Hu & I' & _ & Hiff). eauto.
Qed.

Lemma root_table_laws_witness :
  reach demo_heap (demo_ptr 1) /\
  (exists t h', register_runtime_root true (demo_ptr 1) demo_heap = (Ok t, h') /\ heap_inv h' /\
     resolve_runtime_root true h' t = Ok (demo_ptr 1) /\ (forall q, ~ live_root demo_heap t q) /\
     (forall r' q, live_root h' r' q <-> (r' = t /\ q = demo_ptr 1) \/ live_root demo_heap r' q)) /\
  (exists h', unregister_runtime_root (mkRoot 1 2 1) demo_heap = (Ok tt, h') /\ heap_inv h' /\
     (forall r' q, live_root h' r' q <-> r' <> mkRoot 1 2 1 /\ live_root demo_heap r' q)).
Proof.
  assert (H : reach demo_heap (demo_ptr 1)) by (apply reach_root; left).
  split; [exact H|]. exact (root_table_laws true demo_heap (demo_ptr 1) (mkRoot 1 2 1) demo_heap_inv H).
Defined.

(** Under extreme stress a collection moves every reachable object to a
    different slot whenever there are two of them. *)
Theorem stress_collection_moves_everything debug h (I : heap_inv h)
    (Hep : (collection_epoch h < u64_max)%Z) (Hstress : extreme_stress h = true) :
  exists h' g, collect debug h = (Ok tt, h') /\
    (forall r q, live_root h' r q <-> exists p, live_root h r p /\ q = g p) /\
    (forall p q, reach h p -> reach h q -> p <> q -> ptr_index (g p) <> ptr_index p).
Proof.
  destruct (collect_spec debug h I Hep) as (h' & g & Hc & _ & R & _ & _ & Hmove).
  exists h', g. split_and!; [done| |].
  - intros r q. by apply relocated_root.
  - apply Hmove. unfold extreme_stress_enabled. by rewrite Hstress, orb_true_r.
Qed.

Lemma stress_collection_moves_everything_witness :
  extreme_stress demo_heap = true /\
  exists h' g, collect false demo_heap = (Ok tt, h') /\
    (forall r q, live_root h' r q <-> exists p, live_root demo_heap r p /\ q = g p) /\
    (forall p q, reach demo_heap p -> reach demo_heap q -> p <> q -> ptr_index (g p) <> ptr_index p).
Proof.
  split; [reflexivity|].
  apply (stress_collection_moves_everything false demo_heap demo_heap_inv); reflexivity.
Defined.
