(* ===== verification/Env.v ===== *)
(** Environments of the evaluator: [rex-engine/src/env.rs]. A scoped and a
    rooted environment are both chains of frames; a frame is a
    [BTreeMap<Symbol, RootedPtr>], the list of its entries in key order. *)

From S2P Require Import Prelude Span Types BTree Syntax Errors Heap.

(** * Definitions *)

Abbreviation bindings := (list (Symbol * RootedPtr)).

Inductive ScopedEnvironment : Type :=
  | mkScoped (scoped_parent : option ScopedEnvironment) (scoped_bindings : bindings).
Inductive RootedEnvironment : Type :=
  | mkRooted (rooted_parent : option RootedEnvironment) (rooted_bindings : bindings).

Definition Scoped_new : ScopedEnvironment := mkScoped None [].
Definition Rooted_new : RootedEnvironment := mkRooted None [].

(** [ScopedEnvironment::entries]: the frames, innermost first. *)
Fixpoint entries (env : ScopedEnvironment) : list bindings :=
  match env with
  | mkScoped parent b => b :: match parent with None => [] | Some env' => entries env' end
  end.

(** [visit_values] as the sequence of its visits. *)
Fixpoint Scoped_visit_values (env : ScopedEnvironment) : list RootedPtr :=
  match env with
  | mkScoped parent b =>
      map snd b ++ match parent with None => [] | Some env' => Scoped_visit_values env' end
  end.
Fixpoint Rooted_visit_values (env : RootedEnvironment) : list RootedPtr :=
  match env with
  | mkRooted parent b =>
      map snd b ++ match parent with None => [] | Some env' => Rooted_visit_values env' end
  end.

Definition Scoped_extend (env : ScopedEnvironment) (name : Symbol) (value : RootedPtr)
  : ScopedEnvironment := mkScoped (Some env) [(name, value)].
Definition Scoped_extend_many (env : ScopedEnvironment) (b : bindings) : ScopedEnvironment :=
  mkScoped (Some env) b.
Definition Rooted_extend (env : RootedEnvironment) (name : Symbol) (value : RootedPtr)
  : RootedEnvironment := mkRooted (Some env) [(name, value)].

Fixpoint Scoped_get (env : ScopedEnvironment) (name : Symbol) : option RootedPtr :=
  match env with
  | mkScoped parent b =>
      match btree_get b name with
      | Some value => Some value
      | None => match parent with None => None | Some env' => Scoped_get env' name end
      end
  end.
Fixpoint Rooted_get (env : RootedEnvironment) (name : Symbol) : option RootedPtr :=
  match env with
  | mkRooted parent b =>
      match btree_get b name with
      | Some value => Some value
      | None => match parent with None => None | Some env' => Rooted_get env' name end
      end
  end.

Fixpoint Rooted_contains (env : RootedEnvironment) (name : Symbol) : bool :=
  match env with
  | mkRooted parent b =>
      if bool_decide (is_Some (btree_get b name)) then true
      else match parent with None => false | Some env' => Rooted_contains env' name end
  end.

(** [ScopedEnvironment::from_entries]: rebuilt from the outermost frame inwards. *)
Definition from_entries (es : list bindings) : ScopedEnvironment :=
  default Scoped_new (foldl (fun rebuilt b => Some (mkScoped rebuilt b)) None (rev es)).

(** The frames [to_scoped_environment] collects: copies of the bindings. *)
Fixpoint rooted_entries (env : RootedEnvironment) : list bindings :=
  match env with
  | mkRooted parent b => b :: match parent with None => [] | Some env' => rooted_entries env' end
  end.
Definition to_scoped_environment (env : RootedEnvironment) : ScopedEnvironment :=
  from_entries (rooted_entries env).

(** * Lemmas *)

Fixpoint ScopedEnvironment_ind' (P : ScopedEnvironment -> Prop)
    (Hnone : forall b, P (mkScoped None b)) (Hsome : forall e b, P e -> P (mkScoped (Some e) b))
    (env : ScopedEnvironment) : P env :=
  match env with
  | mkScoped None b => Hnone b
  | mkScoped (Some e) b => Hsome e b (ScopedEnvironment_ind' P Hnone Hsome e)
  end.
Fixpoint RootedEnvironment_ind' (P : RootedEnvironment -> Prop)
    (Hnone : forall b, P (mkRooted None b)) (Hsome : forall e b, P e -> P (mkRooted (Some e) b))
    (env : RootedEnvironment) : P env :=
  match env with
  | mkRooted None b => Hnone b
  | mkRooted (Some e) b => Hsome e b (RootedEnvironment_ind' P Hnone Hsome e)
  end.

(** Looking a name up frame by frame. *)
Fixpoint frames_get (es : list bindings) (name : Symbol) : option RootedPtr :=
  match es with
  | [] => None
  | b :: es => match btree_get b name with Some v => Some v | None => frames_get es name end
  end.

Lemma frames_get_entries env name : frames_get (entries env) name = Scoped_get env name.
Proof.
  induction env as [b|e b IH] using ScopedEnvironment_ind'; simpl; [by destruct (btree_get b name)|].
  by rewrite IH.
Qed.

Lemma frames_get_rooted env name : frames_get (rooted_entries env) name = Rooted_get env name.
Proof.
  induction env as [b|e b IH] using RootedEnvironment_ind'; simpl; [by destruct (btree_get b name)|].
  by rewrite IH.
Qed.

Lemma entries_from_entries b es : entries (from_entries (b :: es)) = b :: es.
Proof.
  unfold from_entries. revert b. induction es as [|b' es IH]; intros b; [done|].
  simpl. rewrite foldl_app. simpl. f_equal. specialize (IH b'). simpl in IH.
  destruct (foldl _ None (rev es ++ [b'])) as [env|] eqn:Henv; [exact IH|].
  rewrite foldl_app in Henv. done.
Qed.

Lemma rooted_entries_cons env : exists b es, rooted_entries env = b :: es.
Proof. destruct env as [p b]. simpl. eauto. Qed.

(** Every value a lookup can return is visited: the collector's root scan of an
    environment misses nothing. *)
Lemma Scoped_get_visited env name v : Scoped_get env name = Some v -> v ∈ Scoped_visit_values env.
Proof.
  induction env as [b|e b IH] using ScopedEnvironment_ind'; simpl;
    destruct (btree_get b name) as [w|] eqn:Hb; rewrite elem_of_app; try done.
  - intros [= ->]. left. by eapply btree_get_snd.
  - intros [= ->]. left. by eapply btree_get_snd.
  - intros H. right. auto.
Qed.

(** * Properties *)

(** Turning a rooted environment into a scoped one changes no lookup:
    inner frames shadow outer ones in the same way, and the tokens visited are
    the same, in the same order. *)
Theorem to_scoped_environment_get env :
  (forall name, Scoped_get (to_scoped_environment env) name = Rooted_get env name) /\
  (forall name, Rooted_contains env name = bool_decide (is_Some (Rooted_get env name))) /\
  Scoped_visit_values (to_scoped_environment env) = Rooted_visit_values env /\
  (forall name v, Rooted_get env name = Some v -> v ∈ Rooted_visit_values env).
Proof.
  assert (Hes : entries (to_scoped_environment env) = rooted_entries env).
  { unfold to_scoped_environment. destruct (rooted_entries_cons env) as (b & es & ->).
    apply entries_from_entries. }
  assert (Hget : forall name, Scoped_get (to_scoped_environment env) name = Rooted_get env name).
  { intros name. by rewrite <- frames_get_entries, Hes, frames_get_rooted. }
  assert (Hvs : forall e, Scoped_visit_values e = concat (map (map snd) (entries e))).
  { intros e. induction e as [b|e b IH] using ScopedEnvironment_ind'; simpl; by rewrite ?IH. }
  assert (Hvr : forall e, Rooted_visit_values e = concat (map (map snd) (rooted_entries e))).
  { intros e. induction e as [b|e b IH] using RootedEnvironment_ind'; simpl; by rewrite ?IH. }
  assert (Hvisit : Scoped_visit_values (to_scoped_environment env) = Rooted_visit_values env)
    by (by rewrite Hvs, Hes, Hvr).
  split_and!; [done| |done|].
  - intros name. clear. induction env as [b|e b IH] using RootedEnvironment_ind'; simpl;
      destruct (btree_get b name); simpl; done.
  - intros name v. rewrite <- Hget, <- Hvisit. apply Scoped_get_visited.
Qed.
