(* ===== verification/Scope.v ===== *)
(** [RootScope] of [rex-engine/src/memory/heap.rs]: the evaluator's exclusive
    access to the heap. Values are named by tokens; every operation that gives a
    value back gives a fresh token. *)

From S2P Require Import Prelude Span Types BTree Syntax Errors Heap HeapTrace HeapStress HeapCollect.
From S2P Require Import HeapSafety Env.

(** * State *)

Record RootScope : Type := mkScope {
  rs_heap : Heap;
  created_runtime_roots : list RootedPtr;
  retain_runtime_roots : bool }.

Abbreviation SM A := (ST RootScope A).

(** An operation of the heap, run through the scope's [&mut Heap]. *)
Definition on_heap {A} (m : ST Heap A) : SM A := fun sc =>
  let '(r, h') := m (rs_heap sc) in
  (r, mkScope h' (created_runtime_roots sc) (retain_runtime_roots sc)).

(** [Heap::machine_root_scope]: collections are deferred while [f] runs, and the
    tokens it makes stay registered. *)
Definition machine_root_scope {R} (f : SM R) : ST Heap R := fun h =>
  let '(r, sc) := f (mkScope (set_defer_collection true h) [] true) in
  (r, set_defer_collection false (rs_heap sc)).

Section scope.
Context (debug_assertions : bool).

(** [Drop for RootScope]. *)
Definition scope_drop (sc : RootScope) : exec unit * Heap :=
  if retain_runtime_roots sc then (Ok tt, rs_heap sc)
  else (let* _ := mapM_st unregister_runtime_root (created_runtime_roots sc) in mret tt) (rs_heap sc).

Definition collection_needed : SM bool := mlift (fun sc => Ok (collect_needed (rs_heap sc))).

(** The occupied slots whose token is not in [live_roots]. *)
Definition stale_roots (h : Heap) (live_roots : gset RootedPtr) : list RootedPtr :=
  omap (fun x => x)
    (imap (fun slot root =>
       match rslot_pointer root with
       | None => None
       | Some _ =>
           let token := mkRoot (h_id h) slot (rslot_generation root) in
           if decide (token ∈ live_roots) then None else Some token
       end) (runtime_roots h)).

Definition collect_if_needed (live_roots : gset RootedPtr) : SM unit := on_heap (fun h =>
  if negb (collect_needed h) then (Ok tt, h)
  else
    (let* _ := mapM_st unregister_runtime_root (stale_roots h live_roots) in
     collect debug_assertions) h).

Definition root (ptr : InternalPtr) : SM RootedPtr :=
  let* root := on_heap (register_runtime_root debug_assertions ptr) in
  (fun sc => (Ok root, mkScope (rs_heap sc) (created_runtime_roots sc ++ [root])
                         (retain_runtime_roots sc))).

Definition pointer (root : RootedPtr) : SM InternalPtr :=
  mlift (fun sc => resolve_runtime_root debug_assertions (rs_heap sc) root).

Definition get_cell_from_rooted_ptr (root : RootedPtr) : SM Cell :=
  let* p := pointer root in
  mlift (fun sc => get_cell_from_pointer (rs_heap sc) p).

Definition type_name (root : RootedPtr) : SM string :=
  let* c := get_cell_from_rooted_ptr root in
  mret (cell_type_name c).

(** ** Allocation *)

Definition scope_alloc (cell : Cell) : SM RootedPtr :=
  let* p := on_heap (alloc_reference debug_assertions cell) in
  root p.

(** [values.into_iter().map(|v| self.pointer(v)).collect()]. *)
Definition pointers_of (values : list RootedPtr) : SM (list InternalPtr) := mapM_st pointer values.

(** The same on the values of a [BTreeMap]. *)
Definition field_pointers {K} (values : list (K * RootedPtr)) : SM (list (K * InternalPtr)) :=
  mapM_st (fun f => let* p := pointer f.2 in mret (f.1, p)) values.

(** [alloc_root_bool], [alloc_root_u8], ... [alloc_root_uninitialized] allocate
    the cell of their argument. *)
Definition alloc_root_bool (v : bool) : SM RootedPtr := scope_alloc (CBool v).
Definition alloc_root_u8 (v : Z) : SM RootedPtr := scope_alloc (CU8 v).
Definition alloc_root_u16 (v : Z) : SM RootedPtr := scope_alloc (CU16 v).
Definition alloc_root_u32 (v : Z) : SM RootedPtr := scope_alloc (CU32 v).
Definition alloc_root_u64 (v : Z) : SM RootedPtr := scope_alloc (CU64 v).
Definition alloc_root_i8 (v : Z) : SM RootedPtr := scope_alloc (CI8 v).
Definition alloc_root_i16 (v : Z) : SM RootedPtr := scope_alloc (CI16 v).
Definition alloc_root_i32 (v : Z) : SM RootedPtr := scope_alloc (CI32 v).
Definition alloc_root_i64 (v : Z) : SM RootedPtr := scope_alloc (CI64 v).
Definition alloc_root_f32 (v : N) : SM RootedPtr := scope_alloc (CF32 v).
Definition alloc_root_f64 (v : N) : SM RootedPtr := scope_alloc (CF64 v).
Definition alloc_root_char (v : N) : SM RootedPtr := scope_alloc (CChar v).
Definition alloc_root_string (v : string) : SM RootedPtr := scope_alloc (CString v).
Definition alloc_root_uuid (v : N) : SM RootedPtr := scope_alloc (CUuid v).
Definition alloc_root_hash (v : N) : SM RootedPtr := scope_alloc (CHash v).
Definition alloc_root_datetime (v : Z) : SM RootedPtr := scope_alloc (CDateTime v).
Definition alloc_root_uninitialized (name : Symbol) : SM RootedPtr :=
  scope_alloc (CUninitialized name).

Definition alloc_root_tuple (values : list RootedPtr) : SM RootedPtr :=
  let* values := pointers_of values in scope_alloc (CTuple values).
Definition alloc_root_dict (values : list (string * RootedPtr)) : SM RootedPtr :=
  let* values := field_pointers values in scope_alloc (CDict values).
Definition alloc_root_adt (name : Symbol) (args : list RootedPtr) : SM RootedPtr :=
  let* args := pointers_of args in scope_alloc (CAdt name args).
Definition alloc_root_empty : SM RootedPtr := scope_alloc CEmpty.
Definition alloc_root_cons (head tail : RootedPtr) : SM RootedPtr :=
  let* head := pointer head in
  let* tail := pointer tail in
  scope_alloc (CCons head tail).
Definition alloc_root_data (values : list RootedPtr) : SM RootedPtr :=
  let* values := pointers_of values in scope_alloc (CData values).
Definition alloc_root_binary_data (values : list Z) : SM RootedPtr := scope_alloc (CBinaryData values).

(** [InternalEnvironment::from_scoped] and [to_scoped]. *)
Definition from_scoped (env : ScopedEnvironment) : SM InternalEnvironment :=
  let* es := mapM_st field_pointers (rev (entries env)) in
  mret (default (mkEnv None []) (foldl (fun rebuilt b => Some (mkEnv rebuilt b)) None es)).

Definition root_fields {K} (values : list (K * InternalPtr)) : SM (list (K * RootedPtr)) :=
  mapM_st (fun f => let* r := root f.2 in mret (f.1, r)) values.

Definition to_scoped (env : InternalEnvironment) : SM ScopedEnvironment :=
  let* es := mapM_st root_fields (env_frames env) in
  mret (from_entries es).

Definition alloc_root_closure (env : ScopedEnvironment) (param : Symbol) (param_ty typ : ty)
    (body : TypedExpr) : SM RootedPtr :=
  let* env := from_scoped env in
  scope_alloc (CClosure (mkClosure env param param_ty typ body)).
Definition alloc_root_native (native_id : Z) (name : Symbol) (arity : nat) (typ : ty)
    (applied : list RootedPtr) (applied_types : list ty) : SM RootedPtr :=
  let* applied := pointers_of applied in
  scope_alloc (CNative (mkNativeFn native_id name arity typ applied applied_types)).
Definition alloc_root_overloaded (name : Symbol) (typ : ty) (applied : list RootedPtr)
    (applied_types : list ty) : SM RootedPtr :=
  let* applied := pointers_of applied in
  scope_alloc (COverloaded (mkOverloadedFn name typ applied applied_types)).

(** ** Reading *)

Definition root_as {A} (as_ : Cell -> exec A) (r : RootedPtr) : SM A :=
  let* c := get_cell_from_rooted_ptr r in
  mlift (fun _ => as_ c).

Definition root_as_bool := root_as cell_as_bool.
Definition root_as_u8 := root_as cell_as_u8.
Definition root_as_u16 := root_as cell_as_u16.
Definition root_as_u32 := root_as cell_as_u32.
Definition root_as_u64 := root_as cell_as_u64.
Definition root_as_i8 := root_as cell_as_i8.
Definition root_as_i16 := root_as cell_as_i16.
Definition root_as_i32 := root_as cell_as_i32.
Definition root_as_i64 := root_as cell_as_i64.
Definition root_as_f32 := root_as cell_as_f32.
Definition root_as_f64 := root_as cell_as_f64.
Definition root_as_char := root_as cell_as_char.
Definition root_as_string := root_as cell_as_string.
Definition root_as_uuid := root_as cell_as_uuid.
Definition root_as_hash := root_as cell_as_hash.
Definition root_as_datetime := root_as cell_as_datetime.

Definition root_as_tuple (r : RootedPtr) : SM (list RootedPtr) :=
  let* values := root_as cell_as_tuple r in mapM_st root values.
Definition root_as_dict (r : RootedPtr) : SM (list (string * RootedPtr)) :=
  let* dict := root_as cell_as_dict r in root_fields dict.
Definition root_as_adt (r : RootedPtr) : SM (Symbol * list RootedPtr) :=
  let* adt := root_as cell_as_adt r in
  let* fields := mapM_st root adt.2 in
  mret (adt.1, fields).

Record RootedClosure : Type := mkRootedClosure {
  rc_env : ScopedEnvironment;
  rc_param : Symbol;
  rc_param_ty : ty;
  rc_typ : ty;
  rc_body : TypedExpr }.

Inductive RootedCallable : Type :=
  | RClosure (c : RootedClosure)
  | RNative (n : NativeFn RootedPtr)
  | ROverloaded (o : OverloadedFn RootedPtr).

Definition root_native (n : NativeFn InternalPtr) : SM (NativeFn RootedPtr) :=
  let* applied := mapM_st root (nat_applied n) in
  mret (mkNativeFn (nat_id n) (nat_name n) (nat_arity n) (nat_typ n) applied (nat_applied_types n)).

Definition root_as_callable (r : RootedPtr) : SM (option RootedCallable) :=
  let* cell := get_cell_from_rooted_ptr r in
  match cell with
  | CClosure c =>
      let* env := to_scoped (clo_env c) in
      mret (Some (RClosure (mkRootedClosure env (clo_param c) (clo_param_ty c) (clo_typ c) (clo_body c))))
  | CNative n => let* n := root_native n in mret (Some (RNative n))
  | COverloaded o =>
      let* applied := mapM_st root (ov_applied o) in
      mret (Some (ROverloaded (mkOverloadedFn (ov_name o) (ov_typ o) applied (ov_applied_types o))))
  | _ => mret None
  end.

Definition root_as_native (r : RootedPtr) : SM (option (NativeFn RootedPtr)) :=
  let* cell := get_cell_from_rooted_ptr r in
  match cell with
  | CNative n => let* n := root_native n in mret (Some n)
  | _ => mret None
  end.

Definition overwrite_root (target value : RootedPtr) : SM unit :=
  let* cell := get_cell_from_rooted_ptr value in
  let* target := pointer target in
  on_heap (overwrite target cell).
End scope.

(** * Lemmas: inside a machine scope the heap only grows *)

Record extends (h h' : Heap) : Prop := {
  ext_cells : forall p c, cell_at h p = Some c -> cell_at h' p = Some c;
  ext_roots : forall r p, live_root h r p -> live_root h' r p }.

#[global] Instance extends_preorder : PreOrder extends.
Proof.
  split.
  - intros h. by split.
  - intros h1 h2 h3 [H1 H2] [H3 H4]. split; auto.
Qed.

Lemma same_store_extends h h' :
  same_store h h' -> (forall r q, live_root h r q -> live_root h' r q) -> extends h h'.
Proof. intros Hs Hr. split; [|done]. intros p c. by rewrite (same_store_cell_at h h'). Qed.

(** A scope as [machine_root_scope] opens it, on a consistent heap. *)
Record scope_ok (sc : RootScope) : Prop := {
  so_inv : heap_inv (rs_heap sc);
  so_defer : defer_collection (rs_heap sc) = true }.

(** [n] more cells fit. *)
Definition room (sc : RootScope) (n : nat) : Prop :=
  (Z.of_nat (length (slots (rs_heap sc)) + n) <= u32_modulus)%Z.

(** [leads_to m sc n Q]: [m] succeeds on [sc] with at most [n] new cells, keeps
    the scope in order and only extends the heap; [Q] holds of the answer and
    the heap. *)
Definition leads_to {A} (m : SM A) (sc : RootScope) (n : nat) (Q : A -> Heap -> Prop) : Prop :=
  exists a sc', m sc = (Ok a, sc') /\ scope_ok sc' /\ extends (rs_heap sc) (rs_heap sc') /\
    length (slots (rs_heap sc')) <= length (slots (rs_heap sc)) + n /\ Q a (rs_heap sc').

Lemma leads_to_ret {A} (a : A) sc n (Q : A -> Heap -> Prop) :
  scope_ok sc -> Q a (rs_heap sc) -> leads_to (mret a) sc n Q.
Proof. intros Hok HQ. exists a, sc. split_and!; [done|done|reflexivity|lia|done]. Qed.

Lemma leads_to_lift {A} (f : RootScope -> exec A) a sc n (Q : A -> Heap -> Prop) :
  scope_ok sc -> f sc = Ok a -> Q a (rs_heap sc) -> leads_to (mlift f) sc n Q.
Proof.
  intros Hok Hf HQ. exists a, sc. split_and!; [by unfold mlift; rewrite Hf|done|reflexivity|lia|done].
Qed.

Lemma leads_to_bind {A B} (m : SM A) (k : A -> SM B) sc n n' (Q : A -> Heap -> Prop)
    (Q' : B -> Heap -> Prop) :
  leads_to m sc n Q -> room sc (n + n') ->
  (forall a sc', scope_ok sc' -> extends (rs_heap sc) (rs_heap sc') -> room sc' n' ->
     Q a (rs_heap sc') -> leads_to (k a) sc' n' Q') ->
  leads_to (mthen m k) sc (n + n') Q'.
Proof.
  intros (a & sc' & Hm & Hok & Hext & Hlen & HQ) Hroom Hk. unfold room in *.
  destruct (Hk a sc' Hok Hext) as (b & sc'' & Hk' & Hok' & Hext' & Hlen' & HQ'); [lia|done|].
  exists b, sc''. split_and!; [|done|by etrans|lia|done]. unfold mthen. by rewrite Hm.
Qed.

Lemma leads_to_mono {A} (m : SM A) sc n n' (Q Q' : A -> Heap -> Prop) :
  leads_to m sc n Q -> n <= n' ->
  (forall a h', extends (rs_heap sc) h' -> Q a h' -> Q' a h') -> leads_to m sc n' Q'.
Proof.
  intros (a & sc' & Hm & Hok & Hext & Hlen & HQ) Hn HQQ. exists a, sc'.
  split_and!; [done|done|done|lia|auto].
Qed.

Lemma leads_to_le {A} (m : SM A) sc n n' (Q : A -> Heap -> Prop) :
  leads_to m sc n Q -> n <= n' -> leads_to m sc n' Q.
Proof. intros H Hn. by eapply leads_to_mono. Qed.

Lemma live_root_safe h r p : heap_inv h -> live_root h r p -> safe h p.
Proof. intros I Hr. apply reach_safe; [apply I|]. by eapply live_root_reach. Qed.

Section scope_lemmas.
Context (debug_assertions : bool).

Lemma root_leads sc p :
  scope_ok sc -> safe (rs_heap sc) p ->
  leads_to (root debug_assertions p) sc 0 (fun r h' => live_root h' r p).
Proof.
  intros [I Hdefer] Hp. unfold leads_to, root, mthen, on_heap.
  destruct (register_spec debug_assertions (rs_heap sc) p I Hp)
    as (r & h' & -> & I' & Hs & Hnew & Hold & _).
  eexists _, _. split; [done|]. simpl. split_and!; try done.
  - split; [done|]. destruct Hs as (? & ? & ->). done.
  - apply same_store_extends; [done|]. intros r' q Hq. by apply Hold.
  - destruct Hs as (? & ? & ->). simpl. lia.
Qed.

Lemma pointer_leads sc r p :
  scope_ok sc -> live_root (rs_heap sc) r p ->
  leads_to (pointer debug_assertions r) sc 0 (fun q _ => q = p).
Proof. intros Hok Hr. eapply leads_to_lift; [done|by apply resolve_spec|done]. Qed.

Lemma get_cell_leads sc r p c :
  scope_ok sc -> live_root (rs_heap sc) r p -> cell_at (rs_heap sc) p = Some c ->
  leads_to (get_cell_from_rooted_ptr debug_assertions r) sc 0 (fun c' _ => c' = c).
Proof.
  intros Hok Hr Hc. exists c, sc. unfold get_cell_from_rooted_ptr, mthen, pointer, mlift.
  rewrite (resolve_spec _ _ r p) by done. split_and!; [|done|reflexivity|lia|done].
  by rewrite (proj2 (get_cell_from_pointer_Ok _ _ _) Hc).
Qed.

(** A new cell whose children are safe is safe. *)
Lemma new_cell_safe h h1 p c :
  Forall (safe h) (pointers c) -> (forall q d, cell_at h q = Some d -> cell_at h1 q = Some d) ->
  cell_at h1 p = Some c -> safe h1 p.
Proof.
  intros Hc Hcells Hp. rewrite Forall_forall in Hc.
  assert (Hfrom : forall q, reach_from h1 p q -> q = p \/ exists k, k ∈ pointers c /\ reach_from h k q).
  { intros q Hq. induction Hq as [|q d s _ IH Hd Hs]; [by left|right].
    destruct IH as [->|(k & Hk & Hkq)].
    - simplify_eq. exists s. split; [done|constructor].
    - exists k. split; [done|]. destruct (Hc k Hk q Hkq) as [e He].
      apply Hcells in He as He'. simplify_eq. by eapply from_edge. }
  intros q [->|(k & Hk & Hkq)]%Hfrom; [eauto|].
  destruct (Hc k Hk q Hkq) as [e He]. eauto.
Qed.

Lemma scope_alloc_leads sc c :
  scope_ok sc -> Forall (safe (rs_heap sc)) (pointers c) -> room sc 1 ->
  leads_to (scope_alloc debug_assertions c) sc 1
    (fun r h' => exists p, live_root h' r p /\ cell_at h' p = Some c).
Proof.
  intros [I Hdefer] Hc Hroom. unfold room in Hroom.
  destruct (push_spec c (rs_heap sc) I) as (p & h1 & Hpush & I1 & Hp & Hroots & Hcells & _); [lia|].
  assert (Hh1 : length (slots h1) = S (length (slots (rs_heap sc))) /\ defer_collection h1 = true).
  { unfold push_cell in Hpush. destruct (u32_try_from _); [|done]. injection Hpush as _ <-.
    simpl. rewrite length_app. simpl. split; [lia|done]. }
  destruct Hh1 as [Hlen1 Hdefer1].
  set (sc1 := mkScope h1 (created_runtime_roots sc) (retain_runtime_roots sc)).
  assert (Halloc : on_heap (alloc_reference debug_assertions c) sc = (Ok p, sc1)).
  { unfold on_heap, alloc_reference. by rewrite Hdefer, Hpush. }
  destruct (root_leads sc1 p) as (r & sc' & Hr & Hok & Hext & Hlen & HQ);
    [by split|by eapply new_cell_safe|].
  exists r, sc'. unfold scope_alloc, mthen. rewrite Halloc, Hr. simpl in Hlen.
  split_and!; [done|done| |lia|].
  - transitivity h1; [|done]. split; [done|]. intros r' q. apply Hroots.
  - exists p. split; [done|]. by apply (ext_cells _ _ Hext).
Qed.

Lemma pointers_of_leads sc rs ps :
  scope_ok sc -> Forall2 (live_root (rs_heap sc)) rs ps ->
  leads_to (pointers_of debug_assertions rs) sc 0 (fun qs _ => qs = ps).
Proof.
  intros Hok H. exists ps, sc. split_and!; [|done|reflexivity|lia|done].
  unfold pointers_of. induction H as [|r p rs ps Hr _ IH]; [done|].
  simpl. unfold mthen at 1. unfold pointer at 1, mlift at 1. rewrite (resolve_spec _ _ r p) by done.
  unfold mthen. by rewrite IH.
Qed.

Lemma field_pointers_eq {K} sc (fs : list (K * RootedPtr)) (ps : list (K * InternalPtr)) :
  Forall2 (fun f p => f.1 = p.1 /\ live_root (rs_heap sc) f.2 p.2) fs ps ->
  field_pointers debug_assertions fs sc = (Ok ps, sc).
Proof.
  unfold field_pointers. induction 1 as [|[k r] [k' p] fs ps [Hk Hr] _ IH]; [done|].
  simpl in Hk, Hr. subst k'. cbn [mapM_st].
  assert (Hf : (let* q := pointer debug_assertions r in mret (k, q)) sc = (Ok (k, p), sc)).
  { unfold mthen, pointer, mlift. by rewrite (resolve_spec _ _ r p) by done. }
  unfold mthen at 1. cbn [fst snd]. rewrite Hf. unfold mthen at 1. by rewrite IH.
Qed.

Lemma field_pointers_leads {K} sc (fs : list (K * RootedPtr)) (ps : list (K * InternalPtr)) :
  scope_ok sc -> Forall2 (fun f p => f.1 = p.1 /\ live_root (rs_heap sc) f.2 p.2) fs ps ->
  leads_to (field_pointers debug_assertions fs) sc 0 (fun qs _ => qs = ps).
Proof.
  intros Hok H. exists ps, sc. split_and!; [by apply field_pointers_eq|done|reflexivity|lia|done].
Qed.

Lemma safe_extends h h' p : extends h h' -> safe h p -> safe h' p.
Proof.
  intros [Hc _] Hp.
  assert (Hfrom : forall q, reach_from h' p q -> reach_from h p q).
  { intros q Hq. induction Hq as [|q c s _ IH Hcq Hs]; [constructor|].
    destruct (Hp q IH) as [d Hd]. apply Hc in Hd as Hd'. simplify_eq. by eapply from_edge. }
  intros q Hq. destruct (Hp q (Hfrom q Hq)) as [d Hd]. eauto.
Qed.

Lemma root_all_leads sc ps :
  scope_ok sc -> room sc 0 -> Forall (safe (rs_heap sc)) ps ->
  leads_to (mapM_st (root debug_assertions) ps) sc 0 (fun rs h' => Forall2 (live_root h') rs ps).
Proof.
  intros Hok Hroom Hps. revert sc Hok Hroom Hps. induction ps as [|p ps IH]; intros sc Hok Hroom Hps.
  { by apply leads_to_ret. }
  apply Forall_cons in Hps as [Hp Hps]. simpl. apply (leads_to_bind _ _ _ 0 0 _ _ (root_leads sc p Hok Hp)).
  { done. }
  intros r sc1 Hok1 Hext1 Hroom1 Hr. eapply (leads_to_bind _ _ _ 0 0); [apply IH; [done|done|]|done|].
  { apply (Forall_impl _ _ _ Hps). intros q. by apply safe_extends. }
  intros rs sc2 Hok2 Hext2 _ Hrs. apply leads_to_ret; [done|]. constructor; [|done].
  by apply (ext_roots _ _ Hext2).
Qed.

Lemma root_fields_leads {K} sc (fs : list (K * InternalPtr)) :
  scope_ok sc -> room sc 0 -> Forall (safe (rs_heap sc)) (map snd fs) ->
  leads_to (root_fields debug_assertions fs) sc 0
    (fun rs h' => Forall2 (fun r f => r.1 = f.1 /\ live_root h' r.2 f.2) rs fs).
Proof.
  intros Hok Hroom Hps. revert sc Hok Hroom Hps. induction fs as [|[k p] fs IH]; intros sc Hok Hroom Hps.
  { by apply leads_to_ret. }
  apply Forall_cons in Hps as [Hp Hps]. unfold root_fields. simpl.
  eapply (leads_to_bind _ _ _ 0 0); [|done|].
  { eapply (leads_to_bind _ _ _ 0 0); [by apply root_leads|done|].
    intros r sc1 Hok1 _ _ Hr.
    apply (leads_to_ret _ _ _ (fun x h' => x.1 = k /\ live_root h' x.2 p)); [done|]. by split. }
  intros [k' r] sc1 Hok1 Hext1 Hroom1 [Hk Hr]. simpl in Hk, Hr. subst.
  eapply (leads_to_bind _ _ _ 0 0); [apply IH; [done|done|]|done|].
  { apply (Forall_impl _ _ _ Hps). intros q. by apply safe_extends. }
  intros rs sc2 Hok2 Hext2 _ Hrs. apply leads_to_ret; [done|]. constructor; [|done].
  split; [done|]. by apply (ext_roots _ _ Hext2).
Qed.

Lemma root_as_leads {A} (as_ : Cell -> exec A) sc r p c a :
  scope_ok sc -> live_root (rs_heap sc) r p -> cell_at (rs_heap sc) p = Some c -> as_ c = Ok a ->
  leads_to (root_as debug_assertions as_ r) sc 0 (fun x _ => x = a).
Proof.
  intros Hok Hr Hc Ha. destruct (get_cell_leads sc r p c Hok Hr Hc) as (c' & sc' & Hg & Hok' & He & Hl & ->).
  exists a, sc'. unfold root_as, mthen. rewrite Hg. unfold mlift. by rewrite Ha.
Qed.

(** Allocating a cell whose children stand for [ps], then reading it. *)
Lemma alloc_then {B} sc c (k : RootedPtr -> SM B) (Q : B -> Heap -> Prop) :
  scope_ok sc -> room sc 1 -> Forall (safe (rs_heap sc)) (pointers c) ->
  (forall r p sc', scope_ok sc' -> extends (rs_heap sc) (rs_heap sc') -> room sc' 0 ->
     live_root (rs_heap sc') r p -> cell_at (rs_heap sc') p = Some c -> leads_to (k r) sc' 0 Q) ->
  leads_to (mthen (scope_alloc debug_assertions c) k) sc 1 Q.
Proof.
  intros Hok Hroom Hc Hk. apply (leads_to_bind _ _ _ 1 0 _ _ (scope_alloc_leads sc c Hok Hc Hroom));
    [done|].
  intros r sc' Hok' Hext Hroom' (p & Hr & Hp). eauto.
Qed.

Lemma live_safe_all h rs ps : heap_inv h -> Forall2 (live_root h) rs ps -> Forall (safe h) ps.
Proof. intros I. induction 1; constructor; eauto using live_root_safe. Qed.

Lemma live_safe_fields {K} h (fs : list (K * RootedPtr)) (ps : list (K * InternalPtr)) :
  heap_inv h -> Forall2 (fun f p => f.1 = p.1 /\ live_root h f.2 p.2) fs ps ->
  Forall (safe h) (map snd ps).
Proof. intros I. induction 1 as [|? ? ? ? []]; constructor; eauto using live_root_safe. Qed.

(** What the allocating operations leave in the heap. *)
Definition holds (c : Cell) (r : RootedPtr) (h' : Heap) : Prop :=
  exists p, live_root h' r p /\ cell_at h' p = Some c.

Lemma alloc_values_leads sc args ps (mk : list InternalPtr -> Cell) :
  scope_ok sc -> room sc 1 -> (forall l, pointers (mk l) = l) ->
  Forall2 (live_root (rs_heap sc)) args ps ->
  leads_to (let* values := pointers_of debug_assertions args in
            scope_alloc debug_assertions (mk values)) sc 1 (holds (mk ps)).
Proof.
  intros Hok Hroom Hmk H. eapply (leads_to_bind _ _ _ 0 1); [by apply pointers_of_leads|done|].
  intros ? sc' Hok' Hext Hroom' ->. apply scope_alloc_leads; [done| |done].
  rewrite Hmk. eapply Forall_impl; [eapply live_safe_all; [apply Hok|done]|].
  intros q. by apply safe_extends.
Qed.

Lemma alloc_adt_leads sc name args ps :
  scope_ok sc -> room sc 1 -> Forall2 (live_root (rs_heap sc)) args ps ->
  leads_to (alloc_root_adt debug_assertions name args) sc 1 (holds (CAdt name ps)).
Proof. intros. by apply (alloc_values_leads sc args ps (CAdt name)). Qed.

Lemma alloc_tuple_leads sc args ps :
  scope_ok sc -> room sc 1 -> Forall2 (live_root (rs_heap sc)) args ps ->
  leads_to (alloc_root_tuple debug_assertions args) sc 1 (holds (CTuple ps)).
Proof. intros. by apply (alloc_values_leads sc args ps CTuple). Qed.

Lemma alloc_data_leads sc args ps :
  scope_ok sc -> room sc 1 -> Forall2 (live_root (rs_heap sc)) args ps ->
  leads_to (alloc_root_data debug_assertions args) sc 1 (holds (CData ps)).
Proof. intros. by apply (alloc_values_leads sc args ps CData). Qed.

Lemma alloc_dict_leads sc (fs : list (string * RootedPtr)) ps :
  scope_ok sc -> room sc 1 -> Forall2 (fun f p => f.1 = p.1 /\ live_root (rs_heap sc) f.2 p.2) fs ps ->
  leads_to (alloc_root_dict debug_assertions fs) sc 1 (holds (CDict ps)).
Proof.
  intros Hok Hroom H. eapply (leads_to_bind _ _ _ 0 1); [by apply field_pointers_leads|done|].
  intros ? sc' Hok' Hext Hroom' ->. apply scope_alloc_leads; [done| |done]. simpl.
  eapply Forall_impl; [eapply live_safe_fields; [apply Hok|done]|]. intros q. by apply safe_extends.
Qed.

(** ** Environments of closures *)

Abbreviation frame_rel h := (Forall2 (fun (f : Symbol * RootedPtr) p => f.1 = p.1 /\ live_root h f.2 p.2)).

Lemma from_scoped_leads sc env (pes : list (list (Symbol * InternalPtr))) :
  scope_ok sc -> Forall2 (frame_rel (rs_heap sc)) (entries env) pes ->
  leads_to (from_scoped debug_assertions env) sc 0 (fun ienv _ => env_frames ienv = pes).
Proof.
  intros Hok H. exists (rebuild_frames pes), sc. split_and!; [|done|reflexivity|lia|].
  - unfold from_scoped. assert (Hrev : Forall2 (frame_rel (rs_heap sc)) (rev (entries env)) (rev pes)).
    { rewrite !rev_alt. by apply Forall2_reverse. }
    enough (Hm : mapM_st (field_pointers debug_assertions) (rev (entries env)) sc = (Ok (rev pes), sc)).
    { unfold mthen. by rewrite Hm. }
    induction Hrev as [|f p fs ps Hf _ IH]; [done|].
    simpl. unfold mthen. by rewrite (field_pointers_eq sc f p Hf), IH.
  - destruct env as [pr b]. inversion H as [|? p ? ps]. subst. apply env_frames_rebuild.
Qed.

Lemma to_scoped_leads sc ienv :
  scope_ok sc -> room sc 0 -> Forall (safe (rs_heap sc)) (env_pointers ienv) ->
  leads_to (to_scoped debug_assertions ienv) sc 0
    (fun env h' => Forall2 (frame_rel h') (entries env) (env_frames ienv)).
Proof.
  intros Hok Hroom Hsafe. rewrite env_pointers_frames in Hsafe. unfold to_scoped.
  eapply (leads_to_bind _ _ _ 0 0 (fun es h' => Forall2 (frame_rel h') es (env_frames ienv))); [|done|].
  - revert sc Hok Hroom Hsafe. induction (env_frames ienv) as [|f fs IH]; intros sc Hok Hroom Hsafe.
    { by apply leads_to_ret. }
    simpl in Hsafe. apply Forall_app in Hsafe as [Hf Hfs]. simpl.
    apply (leads_to_bind _ _ _ 0 0 _ _ (root_fields_leads sc f Hok Hroom Hf)); [done|].
    intros r sc1 Hok1 Hext1 Hroom1 Hr. eapply (leads_to_bind _ _ _ 0 0); [apply IH; [done|done|]|done|].
    { apply (Forall_impl _ _ _ Hfs). intros q. by apply safe_extends. }
    intros rs sc2 Hok2 Hext2 _ Hrs. apply leads_to_ret; [done|]. constructor; [|done].
    apply (Forall2_impl _ _ _ _ Hr). intros x y [? ?]. split; [done|]. by apply (ext_roots _ _ Hext2).
  - intros es sc' Hok' _ _ Hes. apply leads_to_ret; [done|].
    destruct (env_frames ienv) as [|p ps] eqn:Hf; [by destruct ienv|].
    inversion Hes as [|b ? es' ? ? ?]; subst. by rewrite entries_from_entries.
Qed.

(** Two environments agree when each name is bound in both to tokens of one
    object, or in neither. *)
Definition env_agree (h : Heap) (env : ScopedEnvironment) (h' : Heap) (env' : ScopedEnvironment) : Prop :=
  forall name,
    match Scoped_get env name, Scoped_get env' name with
    | Some v, Some v' => exists p, live_root h v p /\ live_root h' v' p
    | None, None => True
    | _, _ => False
    end.

Lemma frame_agree h h' (fs fs' : list (Symbol * RootedPtr)) ps name :
  frame_rel h fs ps -> frame_rel h' fs' ps ->
  match btree_get fs name, btree_get fs' name with
  | Some v, Some v' => exists p, live_root h v p /\ live_root h' v' p
  | None, None => True
  | _, _ => False
  end.
Proof.
  intros H. revert fs'. induction H as [|[k v] [k' p] fs ps [Hk Hv] _ IH]; intros fs' H'.
  - by inversion H'.
  - inversion H' as [|[k'' v'] ? fs'' ? [Hk' Hv'] Hfs]; subst. simpl in *. subst.
    case_decide; [eauto|]. by apply IH.
Qed.

Lemma frames_agree h h' env env' pes :
  Forall2 (frame_rel h) (entries env) pes -> Forall2 (frame_rel h') (entries env') pes ->
  env_agree h env h' env'.
Proof.
  intros H H' name. rewrite <- !frames_get_entries. revert H'. generalize (entries env').
  induction H as [|fs ps es pes Hf _ IH]; intros es' H'; inversion H' as [|fs' ? ? ? Hf' Hes']; subst; [done|].
  simpl. pose proof (frame_agree h h' fs fs' ps name Hf Hf') as Ha.
  destruct (btree_get fs name), (btree_get fs' name); try done. by apply IH.
Qed.

Lemma live_frames h env :
  (forall v, v ∈ Scoped_visit_values env -> exists p, live_root h v p) ->
  exists pes, Forall2 (frame_rel h) (entries env) pes.
Proof.
  assert (Hb : forall b : bindings, (forall v, v ∈ map snd b -> exists p, live_root h v p) ->
            exists ps, frame_rel h b ps).
  { induction b as [|[k v] b IH]; intros Hv; [by exists []|].
    destruct (Hv v) as [p Hp]; [by left|]. destruct IH as [ps Hps]; [intros w Hw; apply Hv; by right|].
    exists ((k, p) :: ps). by constructor. }
  induction env as [b|e b IH] using ScopedEnvironment_ind'; simpl; intros Hv.
  - destruct (Hb b) as [ps Hps]; [intros v Hin; apply Hv, elem_of_app; by left|].
    exists [ps]. by repeat constructor.
  - destruct (Hb b) as [ps Hps]; [intros v Hin; apply Hv, elem_of_app; by left|].
    destruct IH as [pes Hpes]; [intros v Hin; apply Hv, elem_of_app; by right|].
    exists (ps :: pes). by constructor.
Qed.

Lemma frames_safe h es pes :
  heap_inv h -> Forall2 (frame_rel h) es pes -> Forall (safe h) (concat (map (map snd) pes)).
Proof.
  intros I. induction 1 as [|f p es pes Hf _ IH]; simpl; [constructor|].
  apply Forall_app. split; [by eapply live_safe_fields|done].
Qed.

Lemma alloc_closure_leads sc env pes param param_ty typ body :
  scope_ok sc -> room sc 1 -> Forall2 (frame_rel (rs_heap sc)) (entries env) pes ->
  leads_to (alloc_root_closure debug_assertions env param param_ty typ body) sc 1
    (fun r h' => exists ienv, env_frames ienv = pes /\
       holds (CClosure (mkClosure ienv param param_ty typ body)) r h').
Proof.
  intros Hok Hroom H. eapply (leads_to_bind _ _ _ 0 1); [by apply from_scoped_leads|done|].
  intros ienv sc1 Hok1 Hext1 Hroom1 Hienv. eapply (leads_to_mono _ _ 1 1); [|done|].
  - apply scope_alloc_leads; [done| |done]. simpl. rewrite env_pointers_frames, Hienv.
    eapply Forall_impl; [eapply frames_safe; [apply Hok|done]|]. intros q. by apply safe_extends.
  - simpl. intros r h' _ Hr. by exists ienv.
Qed.
End scope_lemmas.

(** * Properties *)

(** Constructor round trip: in a machine scope, an ADT value, a tuple or a
    dictionary built from tokens reads back as the same constructor and
    fields, as tokens of the same objects. *)
Theorem data_roundtrip debug sc name (args : list RootedPtr) (ps : list InternalPtr)
    (fields : list (string * RootedPtr)) (fps : list (string * InternalPtr))
    (Hok : scope_ok sc) (Hroom : room sc 1) (Hargs : Forall2 (live_root (rs_heap sc)) args ps)
    (Hfields : Forall2 (fun f p => f.1 = p.1 /\ live_root (rs_heap sc) f.2 p.2) fields fps) :
  leads_to (let* r := alloc_root_adt debug name args in root_as_adt debug r) sc 1
    (fun x h' => x.1 = name /\ Forall2 (live_root h') x.2 ps) /\
  leads_to (let* r := alloc_root_tuple debug args in root_as_tuple debug r) sc 1
    (fun x h' => Forall2 (live_root h') x ps) /\
  leads_to (let* r := alloc_root_dict debug fields in root_as_dict debug r) sc 1
    (fun x h' => Forall2 (fun f p => f.1 = p.1 /\ live_root h' f.2 p.2) x fps).
Proof.
  assert (Hargs' : Forall (safe (rs_heap sc)) ps) by (eapply live_safe_all; [apply Hok|done]).
  assert (Hfields' : Forall (safe (rs_heap sc)) (map snd fps))
    by (eapply live_safe_fields; [apply Hok|done]).
  split_and!; (eapply (leads_to_bind _ _ _ 1 0); [|done|]).
  - by apply alloc_adt_leads.
  - intros r sc1 Hok1 Hext Hroom1 (p & Hr & Hp). eapply (leads_to_bind _ _ _ 0 0);
      [by eapply root_as_leads|done|]. intros [? ?] sc2 Hok2 Hext2 Hroom2 [= -> ->].
    eapply (leads_to_bind _ _ _ 0 0); [apply root_all_leads; [done|done|]|done|].
    + apply (Forall_impl _ _ _ Hargs'). intros q Hq. by do 2 (eapply safe_extends; [done|]).
    + intros rs sc3 Hok3 _ _ Hrs. by apply leads_to_ret.
  - by apply alloc_tuple_leads.
  - intros r sc1 Hok1 Hext Hroom1 (p & Hr & Hp). eapply (leads_to_bind _ _ _ 0 0);
      [by eapply root_as_leads|done|]. intros ? sc2 Hok2 Hext2 Hroom2 ->.
    apply root_all_leads; [done|done|].
    apply (Forall_impl _ _ _ Hargs'). intros q Hq. by do 2 (eapply safe_extends; [done|]).
  - by apply alloc_dict_leads.
  - intros r sc1 Hok1 Hext Hroom1 (p & Hr & Hp). eapply (leads_to_bind _ _ _ 0 0);
      [by eapply root_as_leads|done|]. intros ? sc2 Hok2 Hext2 Hroom2 ->.
    apply root_fields_leads; [done|done|].
    apply (Forall_impl _ _ _ Hfields'). intros q Hq. by do 2 (eapply safe_extends; [done|]).
Qed.

(** Closure round trip: a closure built over a scoped environment reads
    back with its parameter, types and body, and with an environment that binds
    every name to a token of the same object. *)
Theorem closure_roundtrip debug sc env param param_ty typ body
    (Hok : scope_ok sc) (Hroom : room sc 1)
    (Henv : forall v, v ∈ Scoped_visit_values env -> exists p, live_root (rs_heap sc) v p) :
  leads_to (let* r := alloc_root_closure debug env param param_ty typ body in
            root_as_callable debug r) sc 1
    (fun x h' => exists env',
       x = Some (RClosure (mkRootedClosure env' param param_ty typ body)) /\
       env_agree (rs_heap sc) env h' env').
Proof.
  destruct (live_frames (rs_heap sc) env Henv) as [pes Hpes].
  eapply (leads_to_bind _ _ _ 1 0); [by eapply alloc_closure_leads|done|].
  intros r sc1 Hok1 Hext1 Hroom1 (ienv & Hienv & p & Hr & Hp).
  eapply (leads_to_bind _ _ _ 0 0); [by eapply get_cell_leads|done|].
  intros ? sc2 Hok2 Hext2 Hroom2 ->. eapply (leads_to_bind _ _ _ 0 0); [apply to_scoped_leads|done|].
  - done.
  - done.
  - simpl. rewrite env_pointers_frames, Hienv.
    eapply Forall_impl; [eapply frames_safe; [apply Hok|done]|].
    intros q Hq. by do 2 (eapply safe_extends; [done|]).
  - simpl. intros env' sc3 Hok3 _ _ Henv'. apply leads_to_ret; [done|].
    exists env'. split; [done|]. eapply frames_agree; [done|]. by rewrite <- Hienv.
Qed.

(** The scope a machine opens on the demonstration heap, with two tokens. *)
Definition demo_scope : RootScope := mkScope (set_defer_collection true demo_heap) [] true.
Definition demo_a : RootedPtr := mkRoot 1 0 0.
Definition demo_b : RootedPtr := mkRoot 1 2 1.

Lemma demo_scope_ok : scope_ok demo_scope.
Proof. split; [apply heap_check_sound; vm_compute; reflexivity|reflexivity]. Qed.

Lemma demo_live :
  live_root (rs_heap demo_scope) demo_a (demo_ptr 1) /\
  live_root (rs_heap demo_scope) demo_b (demo_ptr 3).
Proof. by repeat split. Qed.

Lemma demo_room n : n <= 1000 -> room demo_scope n.
Proof. unfold room, u32_modulus. simpl. lia. Qed.

Lemma data_roundtrip_witness :
  leads_to (let* r := alloc_root_adt true "Pair" [demo_a; demo_b] in root_as_adt true r) demo_scope 1
    (fun x h' => x.1 = "Pair" /\ Forall2 (live_root h') x.2 [demo_ptr 1; demo_ptr 3]) /\
  leads_to (let* r := alloc_root_tuple true [demo_a; demo_b] in root_as_tuple true r) demo_scope 1
    (fun x h' => Forall2 (live_root h') x [demo_ptr 1; demo_ptr 3]) /\
  leads_to (let* r := alloc_root_dict true [("k", demo_b)] in root_as_dict true r) demo_scope 1
    (fun x h' => Forall2 (fun f p => f.1 = p.1 /\ live_root h' f.2 p.2) x [("k", demo_ptr 3)]).
Proof.
  destruct demo_live as [Ha Hb].
  apply (data_roundtrip true demo_scope "Pair" [demo_a; demo_b] [demo_ptr 1; demo_ptr 3]
           [("k", demo_b)] [("k", demo_ptr 3)] demo_scope_ok (demo_room 1 ltac:(lia)));
    repeat constructor; done.
Defined.

Lemma closure_roundtrip_witness :
  let env := Scoped_extend (Scoped_extend Scoped_new "x" demo_a) "x" demo_b in
  let body := mkTypedExpr (ty_builtin I32) (EVar "x" []) in
  leads_to (let* r := alloc_root_closure true env "y" (ty_builtin I32) (ty_builtin I32) body in
            root_as_callable true r) demo_scope 1
    (fun x h' => exists env',
       x = Some (RClosure (mkRootedClosure env' "y" (ty_builtin I32) (ty_builtin I32) body)) /\
       env_agree (rs_heap demo_scope) env h' env').
Proof.
  destruct demo_live as [Ha Hb].
  apply (closure_roundtrip true demo_scope _ "y" _ _ _ demo_scope_ok (demo_room 1 ltac:(lia))).
  simpl. intros v [->|[->|Hv]%elem_of_cons]%elem_of_cons; [eauto|eauto|].
  by apply elem_of_nil in Hv.
Defined.

(** * Collecting between evaluator steps *)

Lemma stale_roots_elem h live r :
  r ∈ stale_roots h live <-> r ∉ live /\ exists p, live_root h r p.
Proof.
  unfold stale_roots, live_root. rewrite list_elem_of_omap. setoid_rewrite elem_of_lookup_imap.
  split.
  - intros (o & (i & root & Ho & Hi) & ->). destruct root as [g [p|]]; simpl in Ho; [|done].
    case_decide; [done|]. injection Ho as ->. split; [done|]. simpl. eauto.
  - intros [Hr (p & Hid & Hp)]. exists (Some r). split; [|done].
    exists (root_slot r), (mkRootSlot (root_generation r) (Some p)). split; [|done]. simpl.
    rewrite <- Hid. destruct r as [a b c]. simpl. by rewrite decide_False.
Qed.

(** What [collect_if_needed] does when a collection is due. *)
Lemma collect_if_needed_spec debug sc live :
  heap_inv (rs_heap sc) -> collect_needed (rs_heap sc) = true -> (collection_epoch (rs_heap sc) < u64_max)%Z ->
  exists sc' g, collect_if_needed debug live sc = (Ok tt, sc') /\ heap_inv (rs_heap sc') /\
    defer_collection (rs_heap sc') = defer_collection (rs_heap sc) /\
    (forall r q, live_root (rs_heap sc') r q <->
       r ∈ live /\ exists p, live_root (rs_heap sc) r p /\ q = g p) /\
    (forall r p q c, r ∈ live -> live_root (rs_heap sc) r p -> reach_from (rs_heap sc) p q ->
       cell_at (rs_heap sc) q = Some c -> cell_at (rs_heap sc') (g q) = Some (rename g c)).
Proof.
  intros I Hneed Hep.
  destruct (unregister_all_spec (rs_heap sc) (stale_roots (rs_heap sc) live) I)
    as (us & h1 & Hun & I1 & Hs1 & Hiff).
  destruct (same_store_inv_fields _ _ Hs1) as (_ & _ & Hep1 & _).
  destruct (collect_spec debug h1 I1) as (h2 & g & Hcol & I2 & R & _); [by rewrite Hep1|].
  exists (mkScope h2 (created_runtime_roots sc) (retain_runtime_roots sc)), g.
  assert (Hlive : forall r p, live_root h1 r p <-> r ∈ live /\ live_root (rs_heap sc) r p).
  { intros r p. rewrite Hiff, stale_roots_elem. split.
    - intros [Hn Hr]. split; [|done]. destruct (decide (r ∈ live)); [done|]. destruct Hn. eauto.
    - intros [Hr Hp]. split; [|done]. by intros [? _]. }
  split_and!.
  - unfold collect_if_needed, on_heap. rewrite Hneed. simpl. unfold mthen. by rewrite Hun, Hcol.
  - done.
  - simpl. rewrite (rel_defer _ _ _ R). by destruct Hs1 as (? & ? & ->).
  - intros r q. simpl. rewrite (relocated_root h1 h2 g R). setoid_rewrite Hlive. naive_solver.
  - intros r p q c Hr Hp Hq Hc. simpl.
    assert (Hreach : reach h1 q).
    { assert (Hp1 : reach h1 p) by (eapply live_root_reach, Hlive; eauto).
      clear Hc. induction Hq as [|q d s _ IH Hd Hs]; [done|].
      rewrite <- (same_store_cell_at _ _ Hs1) in Hd. by eapply reach_edge. }
    apply (rel_cells _ _ _ R); [done|]. by rewrite (same_store_cell_at _ _ Hs1).
Qed.

(** The tokens in [live] keep their objects, whether a collection is due or not. *)
Lemma collect_if_needed_keeps debug sc live :
  scope_ok sc -> (collection_epoch (rs_heap sc) < u64_max)%Z ->
  exists sc' g, collect_if_needed debug live sc = (Ok tt, sc') /\ scope_ok sc' /\
    forall r p, r ∈ live -> live_root (rs_heap sc) r p -> live_root (rs_heap sc') r (g p) /\
      forall q c, reach_from (rs_heap sc) p q -> cell_at (rs_heap sc) q = Some c ->
                  cell_at (rs_heap sc') (g q) = Some (rename g c).
Proof.
  intros [I Hdefer] Hep. destruct (collect_needed (rs_heap sc)) eqn:Hneed.
  - destruct (collect_if_needed_spec debug sc live I Hneed Hep) as (sc' & g & Hc & I' & Hd & Hr & Hcells).
    exists sc', g. split_and!; [done|split; [done|by rewrite Hd]|]. intros r p Hin Hp. split; [|by eauto].
    apply Hr. eauto.
  - exists sc, (fun p => p). split_and!; [|done|].
    + unfold collect_if_needed, on_heap. rewrite Hneed. by destruct sc.
    + intros r p _ Hp. split; [done|]. intros q c _ Hc. by rewrite rename_id.
Qed.

(** The evaluator's collection point keeps exactly the tokens it declares
    live: afterwards those tokens, and no others, are registered; each stands
    for its old object at its new place, and everything reachable from them is
    carried over. *)
Theorem collect_if_needed_keeps_live debug sc live (I : heap_inv (rs_heap sc))
    (Hneed : collect_needed (rs_heap sc) = true)
    (Hep : (collection_epoch (rs_heap sc) < u64_max)%Z) :
  exists sc' g, collect_if_needed debug live sc = (Ok tt, sc') /\ heap_inv (rs_heap sc') /\
    (forall r q, live_root (rs_heap sc') r q <->
       r ∈ live /\ exists p, live_root (rs_heap sc) r p /\ q = g p) /\
    (forall r p q c, r ∈ live -> live_root (rs_heap sc) r p -> reach_from (rs_heap sc) p q ->
       cell_at (rs_heap sc) q = Some c -> cell_at (rs_heap sc') (g q) = Some (rename g c)).
Proof.
  destruct (collect_if_needed_spec debug sc live I Hneed Hep) as (sc' & g & Hc & I' & _ & Hr & Hcells).
  by exists sc', g.
Qed.

Lemma collect_if_needed_keeps_live_witness :
  exists sc' g, collect_if_needed true {[demo_a]} demo_scope = (Ok tt, sc') /\ heap_inv (rs_heap sc') /\
    (forall r q, live_root (rs_heap sc') r q <->
       r ∈ ({[demo_a]} : gset RootedPtr) /\ exists p, live_root (rs_heap demo_scope) r p /\ q = g p) /\
    (forall r p q c, r ∈ ({[demo_a]} : gset RootedPtr) -> live_root (rs_heap demo_scope) r p ->
       reach_from (rs_heap demo_scope) p q ->
       cell_at (rs_heap demo_scope) q = Some c -> cell_at (rs_heap sc') (g q) = Some (rename g c)).
Proof.
  apply (collect_if_needed_keeps_live true demo_scope {[demo_a]} (so_inv _ demo_scope_ok));
    reflexivity.
Defined.
