(* ===== verification/Lists.v ===== *)
(** Rex lists on the heap: [rex-engine/src/memory/lists.rs] and the list
    operations of [RootScope] in [rex-engine/src/memory/heap.rs].

    A list is [Empty], a [Cons] cell, or a slice of a [Data] (pointers) or
    [BinaryData] (bytes) backing vector. *)

From S2P Require Import Prelude Span Types Syntax Errors Heap HeapTrace HeapStress HeapCollect.
From S2P Require Import HeapSafety Env Scope.

(** * Definitions *)

Inductive ListElement : Type :=
  | LPtr (p : InternalPtr)
  | LU8 (n : Z).

Inductive ListRootElement : Type :=
  | LRooted (r : RootedPtr)
  | LRootU8 (n : Z).

Inductive ListItems (P : Type) : Type :=
  | Slice (elements : P) (start end_ : nat)
  | BinarySlice (elements : P) (start end_ : nat) (bytes : list Z)
  | Pointers (values : list P).
Arguments Slice {P}. Arguments BinarySlice {P}. Arguments Pointers {P}.

Inductive ListItemsSeed : Type :=
  | Ready (items : ListItems InternalPtr)
  | Elements (es : list ListElement).

(** [end - start] on [usize]s: below zero it panics where overflow is checked.
    The ranges of slices are validated when they are made. *)
Definition range_len (start end_ : nat) : exec nat :=
  if decide (end_ < start) then panic else Ok (end_ - start).

(** [ListItems::len] and [is_empty]. *)
Definition items_len {P} (items : ListItems P) : exec nat :=
  match items with
  | Slice _ start end_ | BinarySlice _ start end_ _ => range_len start end_
  | Pointers values => Ok (length values)
  end.
Definition items_is_empty {P} (items : ListItems P) : exec bool :=
  let? len := items_len items in Ok (bool_decide (len = 0)).

(** [ListItems::map_values]. *)
Definition map_values {P Q E} (f : P -> result E Q) (items : ListItems P)
  : result E (ListItems Q) :=
  match items with
  | Slice elements start end_ => let? e := f elements in Ok (Slice e start end_)
  | BinarySlice elements start end_ bytes =>
      let? e := f elements in Ok (BinarySlice e start end_ bytes)
  | Pointers values => let? vs := map_result f values in Ok (Pointers vs)
  end.

(** [i128] holds every [usize], so [i128::try_from(end)] succeeds. *)
Definition validate_list_slice_bounds (data_len start end_ : nat) : exec unit :=
  if decide (end_ < start)
  then raise (Custom ("invalid list slice range: start " +:+ pretty start +:+
                      " is greater than end " +:+ pretty end_))
  else if decide (data_len < end_)
  then raise (IndexOutOfBounds "ListSlice" (Z.of_nat end_) data_len)
  else Ok tt.

Definition backing_error (c : Cell) : EngineError :=
  NativeType "list slice backing data" (cell_type_name c).
Definition not_a_list (c : Cell) : EngineError := NativeType "list" (cell_type_name c).

Definition list_slice_backing_len (c : Cell) : exec nat :=
  match c with
  | CData values => Ok (length values)
  | CBinaryData values => Ok (length values)
  | _ => raise (backing_error c)
  end.

(** [&values[start..end]] after the bounds check. *)
Definition slice {A} (l : list A) (start end_ : nat) : list A := take (end_ - start) (drop start l).

Definition append_list_slice_elements (h : Heap) (elements : InternalPtr) (start end_ : nat)
    (out : list ListElement) : exec (list ListElement) :=
  let? c := get_cell_from_pointer h elements in
  match c with
  | CData values =>
      let? _ := validate_list_slice_bounds (length values) start end_ in
      Ok (out ++ map LPtr (slice values start end_))
  | CBinaryData values =>
      let? _ := validate_list_slice_bounds (length values) start end_ in
      Ok (out ++ map LU8 (slice values start end_))
  | _ => raise (backing_error c)
  end.

(** The loop of [list_elements_from_cell]. *)
Fixpoint elements_loop (fuel : nat) (h : Heap) (cursor : Cell) (out : list ListElement)
  : fueled fault (list ListElement) :=
  match fuel with
  | 0 => None
  | S fuel =>
      match cursor with
      | CEmpty => fret out
      | CCons head tail =>
          let! next := Some (get_cell_from_pointer h tail) in
          elements_loop fuel h next (out ++ [LPtr head])
      | CListSlice start end_ elements =>
          Some (append_list_slice_elements h elements start end_ out)
      | _ => ferr (Raised (not_a_list cursor))
      end
  end.

(** A chain of cells that has not ended after as many rounds as the heap has
    slots runs in a circle. *)
Definition walk_fuel (h : Heap) : nat := S (length (slots h)).

Definition list_elements_from_cell (h : Heap) (c : Cell) : exec (list ListElement) :=
  from_fueled (elements_loop (walk_fuel h) h c []).

Definition list_elements_from_pointer (h : Heap) (p : InternalPtr) : exec (list ListElement) :=
  let? c := get_cell_from_pointer h p in
  list_elements_from_cell h c.

(** [len.checked_add(n)]. *)
Definition checked_len_add (len n : nat) : exec nat :=
  if (Z.of_nat (len + n) <=? u64_max)%Z then Ok (len + n)
  else raise (Internal "list length overflow").

Fixpoint len_loop (fuel : nat) (h : Heap) (cursor : Cell) (len : nat) : fueled fault nat :=
  match fuel with
  | 0 => None
  | S fuel =>
      match cursor with
      | CEmpty => fret len
      | CCons _ tail =>
          let! len := Some (checked_len_add len 1) in
          let! next := Some (get_cell_from_pointer h tail) in
          len_loop fuel h next len
      | CListSlice start end_ elements =>
          Some (let? c := get_cell_from_pointer h elements in
                let? backing_len := list_slice_backing_len c in
                let? _ := validate_list_slice_bounds backing_len start end_ in
                checked_len_add len (end_ - start))
      | _ => ferr (Raised (not_a_list cursor))
      end
  end.

Definition list_len_from_pointer (h : Heap) (p : InternalPtr) : exec nat :=
  let? c := get_cell_from_pointer h p in
  from_fueled (len_loop (walk_fuel h) h c 0).

(** The bytes a slice of pointers stands for. *)
Fixpoint cells_as_u8 (h : Heap) (values : list InternalPtr) : exec (list Z) :=
  match values with
  | [] => Ok []
  | p :: values =>
      let? c := get_cell_from_pointer h p in
      let? n := cell_as_u8 c in
      let? rest := cells_as_u8 h values in
      Ok (n :: rest)
  end.

Fixpoint collect_u8_loop (fuel : nat) (h : Heap) (cursor : Cell) (out : list Z)
  : fueled fault (list Z) :=
  match fuel with
  | 0 => None
  | S fuel =>
      match cursor with
      | CEmpty => fret out
      | CCons head tail =>
          let! c := Some (get_cell_from_pointer h head) in
          let! n := Some (cell_as_u8 c) in
          let! next := Some (get_cell_from_pointer h tail) in
          collect_u8_loop fuel h next (out ++ [n])
      | CListSlice start end_ elements =>
          Some (let? c := get_cell_from_pointer h elements in
                match c with
                | CData values =>
                    let? _ := validate_list_slice_bounds (length values) start end_ in
                    let? bytes := cells_as_u8 h (slice values start end_) in
                    Ok (out ++ bytes)
                | CBinaryData values =>
                    let? _ := validate_list_slice_bounds (length values) start end_ in
                    Ok (out ++ slice values start end_)
                | _ => raise (backing_error c)
                end)
      | _ => ferr (Raised (not_a_list cursor))
      end
  end.

(** [collect_list_u8]; the length is computed first, for the capacity. *)
Definition collect_list_u8 (h : Heap) (p : InternalPtr) : exec (list Z) :=
  let? _ := list_len_from_pointer h p in
  let? c := get_cell_from_pointer h p in
  from_fueled (collect_u8_loop (walk_fuel h) h c []).

Definition list_items_from_pointer (h : Heap) (p : InternalPtr) : exec ListItemsSeed :=
  let? c := get_cell_from_pointer h p in
  match c with
  | CEmpty => Ok (Ready (Pointers []))
  | CListSlice start end_ elements =>
      let? b := get_cell_from_pointer h elements in
      match b with
      | CData values =>
          let? _ := validate_list_slice_bounds (length values) start end_ in
          Ok (Ready (Slice elements start end_))
      | CBinaryData values =>
          let? _ := validate_list_slice_bounds (length values) start end_ in
          Ok (Ready (BinarySlice elements start end_ (slice values start end_)))
      | _ => raise (backing_error b)
      end
  | CCons _ _ => let? es := list_elements_from_cell h c in Ok (Elements es)
  | _ => raise (not_a_list c)
  end.

Section scope.
Context (debug_assertions : bool).
Let root := root debug_assertions.
Let pointer := pointer debug_assertions.
Let get_cell_from_rooted_ptr := get_cell_from_rooted_ptr debug_assertions.
Let scope_alloc := scope_alloc debug_assertions.
Let alloc_root_u8 := alloc_root_u8 debug_assertions.

Definition into_rooted (items : ListItems InternalPtr) : SM (ListItems RootedPtr) :=
  match items with
  | Slice elements start end_ => let* e := root elements in mret (Slice e start end_)
  | BinarySlice elements start end_ bytes =>
      let* e := root elements in mret (BinarySlice e start end_ bytes)
  | Pointers values => let* vs := mapM_st root values in mret (Pointers vs)
  end.

(** [ListItems::get]. *)
Definition items_get (items : ListItems RootedPtr) (index : nat) : SM RootedPtr :=
  match items with
  | Slice elements start end_ =>
      if (u64_max <? Z.of_nat (start + index))%Z
      then mlift (fun _ => raise (Internal "list slice backing index overflow"))
      else if decide (end_ <= start + index)
      then mlift (fun _ => raise (Internal "list item index out of bounds"))
      else
        let* c := get_cell_from_rooted_ptr elements in
        let* values := mlift (fun _ => cell_as_data c) in
        match values !! (start + index) with
        | Some value => root value
        | None => mlift (fun _ => raise (Internal "list slice backing index out of bounds"))
        end
  | BinarySlice _ start end_ bytes =>
      let* len := mlift (fun _ => range_len start end_) in
      if decide (len <= index)
      then mlift (fun _ => raise (Internal "binary list slice index out of bounds"))
      else
        match bytes !! index with
        | Some value => alloc_root_u8 value
        | None => mlift (fun _ => raise (Internal "binary list slice index out of bounds"))
        end
  | Pointers values =>
      match values !! index with
      | Some r => mret r
      | None => mlift (fun _ => raise (Internal "list item index out of bounds"))
      end
  end.

(** [materialize_list_elements]: all pointers are rooted first, then the bytes
    are allocated. *)
Definition element_pointers (es : list ListElement) : list InternalPtr :=
  omap (fun e => match e with LPtr p => Some p | LU8 _ => None end) es.

Fixpoint place_elements (es : list ListElement) (pointer_roots : list RootedPtr)
  : SM (list RootedPtr) :=
  match es with
  | [] => mret []
  | LPtr _ :: es =>
      match pointer_roots with
      | [] => mlift (fun _ => raise (Internal "missing pre-rooted list pointer"))
      | r :: pointer_roots =>
          let* rest := place_elements es pointer_roots in mret (r :: rest)
      end
  | LU8 n :: es =>
      let* r := alloc_root_u8 n in
      let* rest := place_elements es pointer_roots in
      mret (r :: rest)
  end.

Definition materialize_list_elements (es : list ListElement) : SM (list RootedPtr) :=
  let* pointer_roots := mapM_st root (element_pointers es) in
  place_elements es pointer_roots.

Definition list_elements_to_rooted_ptr_vec (es : list ListElement) : SM (list RootedPtr) :=
  mapM_st (fun e =>
    match e with
    | LPtr p => root p
    | LU8 _ => mlift (fun _ => raise (NativeType "pointer-backed list" "binary-backed list"))
    end) es.

Definition list_slice_head_element (elements : RootedPtr) (start end_ : nat)
  : SM (option ListRootElement) :=
  if decide (end_ <= start) then mret None
  else
    let* c := get_cell_from_rooted_ptr elements in
    match c with
    | CData values =>
        let* _ := mlift (fun _ => validate_list_slice_bounds (length values) start end_) in
        match values !! start with
        | Some p => let* r := root p in mret (Some (LRooted r))
        | None => mret None
        end
    | CBinaryData values =>
        let* _ := mlift (fun _ => validate_list_slice_bounds (length values) start end_) in
        mret (LRootU8 <$> values !! start)
    | _ => mlift (fun _ => raise (backing_error c))
    end.

(** ** The list operations of [RootScope] *)

Definition alloc_root_list_slice (start end_ : nat) (elements : RootedPtr) : SM RootedPtr :=
  let* elements := pointer elements in
  let* c := mlift (fun sc => get_cell_from_pointer (rs_heap sc) elements) in
  let* len := mlift (fun _ => list_slice_backing_len c) in
  let* _ := mlift (fun _ => validate_list_slice_bounds len start end_) in
  if decide (start = end_) then alloc_root_empty debug_assertions
  else scope_alloc (CListSlice start end_ elements).

(** The closure of [list_head_tail]: head, the rest of the slice if any, tail or
    backing. *)
Definition head_tail_parts (p : RootedPtr)
  : SM (option (ListRootElement * option (nat * nat) * RootedPtr)) :=
  let* cell := get_cell_from_rooted_ptr p in
  match cell with
  | CEmpty => mret None
  | CCons head tail =>
      let* head := root head in
      let* tail := root tail in
      mret (Some (LRooted head, None, tail))
  | CListSlice start end_ elements =>
      let* elements := root elements in
      let* head := list_slice_head_element elements start end_ in
      match head with
      | None => mret None
      | Some head => mret (Some (head, Some (start + 1, end_), elements))
      end
  | _ => mlift (fun _ => raise (not_a_list cell))
  end.

Definition list_head_tail (p : RootedPtr) : SM (option (RootedPtr * RootedPtr)) :=
  let* parts := head_tail_parts p in
  match parts with
  | None => mret None
  | Some (head, tail_index, elements) =>
      let* head := match head with
                   | LRooted r => mret r
                   | LRootU8 value => alloc_root_u8 value
                   end in
      match tail_index with
      | Some (start, end_) =>
          let* tail := alloc_root_list_slice start end_ elements in
          mret (Some (head, tail))
      | None => mret (Some (head, elements))
      end
  end.

Definition list_len (r : RootedPtr) : SM nat :=
  let* p := pointer r in
  mlift (fun sc => list_len_from_pointer (rs_heap sc) p).

Definition alloc_root_list (values : list RootedPtr) : SM RootedPtr :=
  if decide (values = []) then alloc_root_empty debug_assertions
  else
    let* data := alloc_root_data debug_assertions values in
    alloc_root_list_slice 0 (length values) data.

Definition alloc_root_binary_list (values : list Z) : SM RootedPtr :=
  if decide (values = []) then alloc_root_empty debug_assertions
  else
    let* data := alloc_root_binary_data debug_assertions values in
    alloc_root_list_slice 0 (length values) data.

Definition root_as_list (r : RootedPtr) : SM (list RootedPtr) :=
  let* p := pointer r in
  let* es := mlift (fun sc => list_elements_from_pointer (rs_heap sc) p) in
  materialize_list_elements es.

Definition root_as_binary_list (r : RootedPtr) : SM (list Z) :=
  let* p := pointer r in
  mlift (fun sc => collect_list_u8 (rs_heap sc) p).

Definition list_items (r : RootedPtr) : SM (ListItems RootedPtr) :=
  let* p := pointer r in
  let* seed := mlift (fun sc => list_items_from_pointer (rs_heap sc) p) in
  match seed with
  | Ready items => into_rooted items
  | Elements es =>
      if forallb (fun e => match e with LPtr _ => true | LU8 _ => false end) es
      then let* vs := list_elements_to_rooted_ptr_vec es in mret (Pointers vs)
      else let* vs := materialize_list_elements es in mret (Pointers vs)
  end.
End scope.

(** * Termination of the list walks *)

(** The cell after [n] tails. *)
Fixpoint tail_cell (h : Heap) (n : nat) (c : Cell) : option Cell :=
  match n with
  | 0 => Some c
  | S n =>
      match c with
      | CCons _ tail =>
          match cell_at h tail with Some c' => tail_cell h n c' | None => None end
      | _ => None
      end
  end.

Lemma tail_cell_add h a b c :
  tail_cell h (a + b) c = match tail_cell h a c with Some d => tail_cell h b d | None => None end.
Proof.
  revert c. induction a as [|a IH]; intros c; [done|]. simpl.
  destruct c; try done. by destruct (cell_at h tail).
Qed.

Lemma tail_cell_le h a b c : a <= b -> is_Some (tail_cell h b c) -> is_Some (tail_cell h a c).
Proof.
  intros Hab. replace b with (a + (b - a)) by lia. rewrite tail_cell_add.
  destruct (tail_cell h a c); [eauto|by intros [? [=]]].
Qed.

Lemma tail_cell_cycle h k c :
  0 < k -> tail_cell h k c = Some c -> forall n, is_Some (tail_cell h n c).
Proof.
  intros Hk Hc n. apply (tail_cell_le h n (n * k)); [nia|].
  enough (tail_cell h (n * k) c = Some c) as -> by eauto.
  induction n as [|n IH]; [done|]. simpl. by rewrite tail_cell_add, Hc.
Qed.

(** The slot entered by the [S i]-th step. *)
Definition step_index (h : Heap) (c : Cell) (i : nat) : nat :=
  match tail_cell h i c with Some (CCons _ t) => ptr_index t | _ => 0 end.

Lemma tail_cell_step h i c :
  is_Some (tail_cell h (S i) c) ->
  exists hd t d, tail_cell h i c = Some (CCons hd t) /\ cell_at h t = Some d /\
    tail_cell h (S i) c = Some d.
Proof.
  replace (S i) with (i + 1) by lia. rewrite tail_cell_add.
  destruct (tail_cell h i c) as [[]|]; simpl; try by intros [? [=]].
  destruct (cell_at h tail) as [d|] eqn:Hd; [|by intros [? [=]]]. eauto 10.
Qed.

(** A walk of more steps than there are slots never ends. *)
Lemma long_walk_forever h c n :
  is_Some (tail_cell h (walk_fuel h) c) -> is_Some (tail_cell h n c).
Proof.
  intros Hlong. destruct (tail_cell h n c) as [d|] eqn:Hn; [eauto|]. exfalso.
  assert (Hstep : forall i, i <= length (slots h) -> exists hd t d,
    tail_cell h i c = Some (CCons hd t) /\ cell_at h t = Some d /\ tail_cell h (S i) c = Some d).
  { intros i Hi. apply tail_cell_step. eapply tail_cell_le; [|exact Hlong]. unfold walk_fuel. lia. }
  assert (Hnd : NoDup (map (step_index h c) (seq 0 (S (length (slots h)))))).
  { apply NoDup_fmap_2_strong; [|apply NoDup_seq]. unfold step_index.
    intros i j Hi%elem_of_seq Hj%elem_of_seq.
    destruct (Hstep i) as (hi & ti & di & -> & Hdi & Hsi); [lia|].
    destruct (Hstep j) as (hj & tj & dj & -> & Hdj & Hsj); [lia|].
    intros Hij. assert (ti = tj) as -> by (by eapply cell_at_index_inj).
    assert (di = dj) as -> by congruence.
    assert (Hcyc : forall a b, a < b -> tail_cell h (S a) c = Some dj ->
              tail_cell h (S b) c = Some dj -> False).
    { intros a b Hab Ha Hb. replace (S b) with (S a + (b - a)) in Hb by lia.
      rewrite tail_cell_add, Ha in Hb.
      assert (Hall := tail_cell_cycle h (b - a) dj ltac:(lia) Hb n).
      destruct (tail_cell_le h n (S a + n) c) as [e He]; [lia| |congruence].
      by rewrite tail_cell_add, Ha. }
    destruct (lt_eq_lt_dec i j) as [[?|?]|?]; [|done|]; exfalso; eauto. }
  assert (Hsub : map (step_index h c) (seq 0 (S (length (slots h)))) ⊆+ seq 0 (length (slots h))).
  { apply NoDup_submseteq; [done|]. intros k (i & -> & Hi%elem_of_seq)%list_elem_of_fmap.
    destruct (Hstep i) as (hi & ti & di & Hi' & Hdi & _); [lia|].
    unfold step_index. rewrite Hi'. apply cell_at_lt in Hdi. apply elem_of_seq. lia. }
  apply submseteq_length in Hsub. rewrite length_map, !length_seq in Hsub. lia.
Qed.

Lemma get_cell_from_pointer_match h p :
  match get_cell_from_pointer h p with Ok c => cell_at h p = Some c | Err _ => cell_at h p = None end.
Proof.
  destruct (get_cell_from_pointer h p) as [c|e] eqn:Hc; [by apply get_cell_from_pointer_Ok|].
  destruct (cell_at h p) as [d|] eqn:Hd; [|done].
  apply get_cell_from_pointer_Ok in Hd. congruence.
Qed.

Lemma elements_loop_None fuel h c out :
  elements_loop fuel h c out = None <-> is_Some (tail_cell h fuel c).
Proof.
  revert c out. induction fuel as [|fuel IH]; intros c out; simpl; [by split; eauto|].
  destruct c; simpl; try (split; [done|by intros [? [=]]]).
  pose proof (get_cell_from_pointer_match h tail) as Hm.
  destruct (get_cell_from_pointer h tail) as [d|]; rewrite Hm; simpl; [apply IH|].
  split; [done|by intros [? [=]]].
Qed.

Lemma len_loop_None fuel h c len :
  len_loop fuel h c len = None -> is_Some (tail_cell h fuel c).
Proof.
  revert c len. induction fuel as [|fuel IH]; intros c len; simpl; [by eauto|].
  destruct c; simpl; try done.
  destruct (checked_len_add len 1) as [len'|]; simpl; [|done].
  pose proof (get_cell_from_pointer_match h tail) as Hm.
  destruct (get_cell_from_pointer h tail) as [d|]; rewrite Hm; simpl; [apply IH|done].
Qed.

(** * What a list is *)

(** [list_repr h p es]: the value at [p] is a list of the elements [es]. *)
Inductive list_repr (h : Heap) : InternalPtr -> list ListElement -> Prop :=
  | repr_empty p : cell_at h p = Some CEmpty -> list_repr h p []
  | repr_cons p head tail es :
      cell_at h p = Some (CCons head tail) -> list_repr h tail es -> list_repr h p (LPtr head :: es)
  | repr_data p start end_ elements values :
      cell_at h p = Some (CListSlice start end_ elements) -> cell_at h elements = Some (CData values) ->
      start <= end_ <= length values -> list_repr h p (map LPtr (slice values start end_))
  | repr_binary p start end_ elements bytes :
      cell_at h p = Some (CListSlice start end_ elements) ->
      cell_at h elements = Some (CBinaryData bytes) ->
      start <= end_ <= length bytes -> list_repr h p (map LU8 (slice bytes start end_)).

(** [&values[start..end]] of ranges that pass the check. *)
Lemma validate_Ok n start end_ : validate_list_slice_bounds n start end_ = Ok tt <-> start <= end_ <= n.
Proof.
  unfold validate_list_slice_bounds. repeat case_decide; split; try done; lia.
Qed.

Lemma validate_unit n start end_ u : validate_list_slice_bounds n start end_ = Ok u -> start <= end_ <= n.
Proof. destruct u. apply validate_Ok. Qed.

Lemma elements_loop_sound fuel h p c out es :
  cell_at h p = Some c -> elements_loop fuel h c out = Some (Ok es) ->
  exists es', es = out ++ es' /\ list_repr h p es'.
Proof.
  revert p c out. induction fuel as [|fuel IH]; intros p c out Hc; [done|].
  destruct c; simpl; try done.
  - intros [= <-]. exists []. rewrite app_nil_r. split; [done|by apply repr_empty].
  - pose proof (get_cell_from_pointer_match h tail) as Hm.
    destruct (get_cell_from_pointer h tail) as [d|]; simpl; [|done].
    intros (es' & -> & Hes')%(IH tail); [|done]. exists (LPtr head :: es').
    rewrite <- app_assoc. split; [done|]. by eapply repr_cons.
  - unfold append_list_slice_elements. pose proof (get_cell_from_pointer_match h elements) as Hm.
    destruct (get_cell_from_pointer h elements) as [d|]; simpl; [|done].
    destruct d; try done; intros [= (u & Hv%validate_unit & [= <-])%rbind_Ok];
      eexists; split; try done; [by eapply repr_data|by eapply repr_binary].
Qed.

Lemma elements_loop_mono fuel fuel' h c out r :
  elements_loop fuel h c out = Some r -> fuel <= fuel' -> elements_loop fuel' h c out = Some r.
Proof.
  revert fuel' c out. induction fuel as [|fuel IH]; intros [|fuel'] c out; try done; [lia|].
  intros H Hle. destruct c; try exact H. simpl in *.
  destruct (get_cell_from_pointer h tail); simpl in *; [|done]. apply IH; [done|lia].
Qed.

Lemma elements_loop_complete h p es :
  list_repr h p es ->
  exists c fuel, cell_at h p = Some c /\ forall out, elements_loop fuel h c out = Some (Ok (out ++ es)).
Proof.
  induction 1 as [p Hc|p head tail es Hc _ (c & fuel & Ht & IH)|p s e el values Hc Hel Hb
                 |p s e el bytes Hc Hel Hb].
  - exists CEmpty, 1. split; [done|]. intros out. simpl. by rewrite app_nil_r.
  - exists (CCons head tail), (S fuel). split; [done|]. intros out. simpl.
    rewrite (proj2 (get_cell_from_pointer_Ok _ _ _) Ht). simpl. rewrite IH. by rewrite <- app_assoc.
  - exists (CListSlice s e el), 1. split; [done|]. intros out. simpl. unfold append_list_slice_elements.
    rewrite (proj2 (get_cell_from_pointer_Ok _ _ _) Hel). simpl.
    by rewrite (proj2 (validate_Ok _ _ _) Hb).
  - exists (CListSlice s e el), 1. split; [done|]. intros out. simpl. unfold append_list_slice_elements.
    rewrite (proj2 (get_cell_from_pointer_Ok _ _ _) Hel). simpl.
    by rewrite (proj2 (validate_Ok _ _ _) Hb).
Qed.

(** The number of rounds [walk_fuel] allows is enough for every walk that ends. *)
Lemma walk_fuel_enough h c out fuel r :
  elements_loop fuel h c out = Some r -> elements_loop (walk_fuel h) h c out = Some r.
Proof.
  intros H. destruct (elements_loop (walk_fuel h) h c out) as [r'|] eqn:Hw.
  - destruct (decide (fuel <= walk_fuel h)).
    + by rewrite (elements_loop_mono _ _ _ _ _ _ H) in Hw by done.
    + rewrite (elements_loop_mono _ fuel _ _ _ _ Hw) in H by lia. done.
  - apply elements_loop_None in Hw. apply (long_walk_forever h c fuel), elements_loop_None with (out := out) in Hw.
    congruence.
Qed.

Lemma list_elements_spec h p es : list_elements_from_pointer h p = Ok es <-> list_repr h p es.
Proof.
  unfold list_elements_from_pointer, list_elements_from_cell. split.
  - intros (c & Hc%get_cell_from_pointer_Ok & H)%rbind_Ok.
    destruct (elements_loop (walk_fuel h) h c []) as [r|] eqn:Hw; simpl in H; [|done]. subst.
    by destruct (elements_loop_sound _ _ _ _ _ _ Hc Hw) as (es' & -> & ?).
  - intros (c & fuel & Hc & H)%elements_loop_complete.
    rewrite (proj2 (get_cell_from_pointer_Ok _ _ _) Hc). cbn [rbind].
    by rewrite (walk_fuel_enough _ _ _ _ _ (H [])).
Qed.

Lemma len_loop_complete h p es :
  list_repr h p es ->
  exists c fuel, cell_at h p = Some c /\
    forall len, (Z.of_nat (len + length es) <= u64_max)%Z -> len_loop fuel h c len = Some (Ok (len + length es)).
Proof.
  assert (Hadd : forall a b, (Z.of_nat (a + b) <= u64_max)%Z -> checked_len_add a b = Ok (a + b)).
  { intros a b H. unfold checked_len_add. by rewrite (proj2 (Z.leb_le _ _) H). }
  assert (Hslice : forall A (l : list A) s e, s <= e <= length l -> length (slice l s e) = e - s).
  { intros A l s e H. unfold slice. rewrite length_take, length_drop. lia. }
  induction 1 as [p Hc|p head tail es Hc _ (c & fuel & Ht & IH)|p s e el values Hc Hel Hb
                 |p s e el bytes Hc Hel Hb].
  - exists CEmpty, 1. split; [done|]. intros len _. simpl. by rewrite Nat.add_0_r.
  - exists (CCons head tail), (S fuel). split; [done|]. intros len Hlen. simpl in *.
    rewrite Hadd by lia. simpl. rewrite (proj2 (get_cell_from_pointer_Ok _ _ _) Ht). simpl.
    rewrite IH by lia. do 2 f_equal. lia.
  - exists (CListSlice s e el), 1. split; [done|]. intros len Hlen. simpl.
    rewrite (proj2 (get_cell_from_pointer_Ok _ _ _) Hel). simpl.
    rewrite (proj2 (validate_Ok _ _ _) Hb). simpl. rewrite length_map, Hslice in * by done.
    by rewrite Hadd.
  - exists (CListSlice s e el), 1. split; [done|]. intros len Hlen. simpl.
    rewrite (proj2 (get_cell_from_pointer_Ok _ _ _) Hel). simpl.
    rewrite (proj2 (validate_Ok _ _ _) Hb). simpl. rewrite length_map, Hslice in * by done.
    by rewrite Hadd.
Qed.

Lemma len_loop_mono fuel fuel' h c len r :
  len_loop fuel h c len = Some r -> fuel <= fuel' -> len_loop fuel' h c len = Some r.
Proof.
  revert fuel' c len. induction fuel as [|fuel IH]; intros [|fuel'] c len; try done; [lia|].
  intros H Hle. destruct c; try exact H. simpl in *.
  destruct (checked_len_add len 1); simpl in *; [|done].
  destruct (get_cell_from_pointer h tail); simpl in *; [|done]. apply IH; [done|lia].
Qed.

Lemma list_len_spec h p es :
  list_repr h p es -> (Z.of_nat (length es) <= u64_max)%Z -> list_len_from_pointer h p = Ok (length es).
Proof.
  intros Hes Hlen. destruct (len_loop_complete _ _ _ Hes) as (c & fuel & Hc & H).
  specialize (H 0 Hlen). simpl in H. unfold list_len_from_pointer.
  rewrite (proj2 (get_cell_from_pointer_Ok _ _ _) Hc). cbn [rbind].
  destruct (len_loop (walk_fuel h) h c 0) as [r|] eqn:Hw; cbn [from_fueled].
  - destruct (decide (fuel <= walk_fuel h)).
    + rewrite (len_loop_mono _ _ _ _ _ _ H) in Hw by done. congruence.
    + rewrite (len_loop_mono _ fuel _ _ _ _ Hw) in H by lia. congruence.
  - exfalso. apply len_loop_None in Hw. apply elements_loop_complete in Hes as (d & f & Hd & Hf).
    simplify_eq. apply (long_walk_forever h d f), elements_loop_None with (out := []) in Hw.
    by rewrite Hf in Hw.
Qed.

(** Lists survive collections: the elements are those of before, relocated. *)
Definition rename_element (g : InternalPtr -> InternalPtr) (e : ListElement) : ListElement :=
  match e with LPtr p => LPtr (g p) | LU8 n => LU8 n end.

Lemma slice_map {A B} (f : A -> B) l s e : slice (map f l) s e = map f (slice l s e).
Proof. unfold slice. by rewrite skipn_map, firstn_map. Qed.

Lemma list_repr_relocated h h' g p es :
  relocation h h' g -> reach h p -> list_repr h p es -> list_repr h' (g p) (map (rename_element g) es).
Proof.
  intros R Hp. induction 1 as [p Hc|p head tail es Hc _ IH|p s e el values Hc Hel Hb
                              |p s e el bytes Hc Hel Hb]; simpl.
  - apply repr_empty. by apply (rel_cells _ _ _ R p CEmpty).
  - eapply repr_cons; [by apply (rel_cells _ _ _ R p (CCons head tail))|].
    apply IH. eapply reach_edge; [done|done|]. simpl. set_solver.
  - assert (Hr : reach h el) by (eapply reach_edge; [done|done|]; simpl; set_solver).
    rewrite map_map. change (map (fun x => rename_element g (LPtr x)) (slice values s e))
      with (map (fun x => LPtr (g x)) (slice values s e)).
    rewrite <- map_map, <- slice_map.
    eapply repr_data; [by apply (rel_cells _ _ _ R p (CListSlice s e el))
                      |by apply (rel_cells _ _ _ R el (CData values))|by rewrite length_map].
  - assert (Hr : reach h el) by (eapply reach_edge; [done|done|]; simpl; set_solver).
    rewrite map_map.
    eapply repr_binary; [by apply (rel_cells _ _ _ R p (CListSlice s e el))
                        |by apply (rel_cells _ _ _ R el (CBinaryData bytes))|done].
Qed.

Lemma list_repr_extends h h' p es : extends h h' -> list_repr h p es -> list_repr h' p es.
Proof.
  intros [Hc _]. induction 1; [apply repr_empty|eapply repr_cons|eapply repr_data|eapply repr_binary];
    eauto.
Qed.

(** ** Slices of a backing vector *)

Definition backing_elements (c : Cell) : option (list ListElement) :=
  match c with
  | CData values => Some (map LPtr values)
  | CBinaryData bytes => Some (map LU8 bytes)
  | _ => None
  end.

Lemma backing_len c els : backing_elements c = Some els -> list_slice_backing_len c = Ok (length els).
Proof. destruct c; simpl; try done; intros [= <-]; by rewrite length_map. Qed.

Lemma repr_slice h p s e el c els :
  cell_at h p = Some (CListSlice s e el) -> cell_at h el = Some c -> backing_elements c = Some els ->
  s <= e <= length els -> list_repr h p (slice els s e).
Proof.
  intros Hp Hel Hels Hb. destruct c; simplify_eq/=; rewrite slice_map; rewrite length_map in Hb;
    [by eapply repr_data|by eapply repr_binary].
Qed.

Lemma slice_inv h p s e el es :
  list_repr h p es -> cell_at h p = Some (CListSlice s e el) ->
  exists c els, cell_at h el = Some c /\ backing_elements c = Some els /\ s <= e <= length els /\
    es = slice els s e.
Proof.
  destruct 1 as [| |p s' e' el' values Hc Hel Hb|p s' e' el' bytes Hc Hel Hb]; intros Hp; simplify_eq.
  - exists (CData values), (map LPtr values). by rewrite length_map, slice_map.
  - exists (CBinaryData bytes), (map LU8 bytes). by rewrite length_map, slice_map.
Qed.

Lemma slice_cons {A} (l : list A) s e x es :
  slice l s e = x :: es -> e <= length l -> s < e /\ l !! s = Some x /\ es = slice l (s + 1) e.
Proof.
  unfold slice. intros H He. destruct (decide (s < e)) as [Hlt|Hge].
  2:{ replace (e - s) with 0 in H by lia. done. }
  replace (e - s) with (S (e - (s + 1))) in H by lia.
  destruct (lookup_lt_is_Some_2 l s) as [y Hy]; [lia|].
  rewrite (drop_S _ _ _ Hy) in H. simpl in H. injection H as -> <-. by rewrite Nat.add_1_r.
Qed.

Lemma slice_nil {A} (l : list A) s : slice l s s = [].
Proof. unfold slice. by rewrite Nat.sub_diag. Qed.

Lemma slice_all {A} (l : list A) : slice l 0 (length l) = l.
Proof. unfold slice. by rewrite Nat.sub_0_r, firstn_all. Qed.

Lemma list_repr_cell h p es : list_repr h p es -> is_Some (cell_at h p).
Proof. destruct 1; eauto. Qed.

(** * Building and taking lists apart *)

Section list_scope.
Context (debug : bool).

(** The token [r] stands for a list of the elements [es]. *)
Definition is_list (es : list ListElement) (r : RootedPtr) (h : Heap) : Prop :=
  exists p, live_root h r p /\ list_repr h p es.

(** The token [r] stands for the element [e]. *)
Definition is_element (e : ListElement) (r : RootedPtr) (h : Heap) : Prop :=
  match e with LPtr p => live_root h r p | LU8 n => holds (CU8 n) r h end.

Lemma alloc_empty_leads sc :
  scope_ok sc -> room sc 1 -> leads_to (alloc_root_empty debug) sc 1 (is_list []).
Proof.
  intros Hok Hroom. eapply leads_to_mono; [apply scope_alloc_leads; [done|constructor|done]|done|].
  intros r h' _ (p & Hr & Hp). exists p. split; [done|]. by apply repr_empty.
Qed.

Lemma alloc_slice_leads sc s e elements pe c els :
  scope_ok sc -> room sc 1 -> live_root (rs_heap sc) elements pe -> cell_at (rs_heap sc) pe = Some c ->
  backing_elements c = Some els -> s <= e <= length els ->
  leads_to (alloc_root_list_slice debug s e elements) sc 1 (is_list (slice els s e)).
Proof.
  intros Hok Hroom Hr Hc Hels Hb. unfold alloc_root_list_slice.
  eapply (leads_to_bind _ _ _ 0 1); [by eapply pointer_leads|done|].
  intros ? sc1 Hok1 Hext1 Hroom1 ->. pose proof (ext_cells _ _ Hext1 _ _ Hc) as Hc1.
  eapply (leads_to_bind _ _ _ 0 1 (fun c' _ => c' = c)); [eapply leads_to_lift|done|]; [done| |done|].
  { by apply get_cell_from_pointer_Ok. }
  intros ? sc2 Hok2 Hext2 Hroom2 ->. pose proof (ext_cells _ _ Hext2 _ _ Hc1) as Hc2.
  eapply (leads_to_bind _ _ _ 0 1 (fun n _ => n = length els)); [eapply leads_to_lift|done|];
    [done|by apply backing_len|done|].
  intros ? sc3 Hok3 Hext3 Hroom3 ->. pose proof (ext_cells _ _ Hext3 _ _ Hc2) as Hc3.
  eapply (leads_to_bind _ _ _ 0 1 (fun _ _ => True)); [eapply leads_to_lift|done|];
    [done|by apply validate_Ok|done|].
  intros ? sc4 Hok4 Hext4 Hroom4 _. pose proof (ext_cells _ _ Hext4 _ _ Hc3) as Hc4.
  case_decide as Hse; [subst; rewrite slice_nil; by apply alloc_empty_leads|].
  eapply leads_to_mono; [apply scope_alloc_leads; [done| |done]|done|].
  - constructor; [|constructor]. do 4 (eapply safe_extends; [done|]).
    eapply live_root_safe; [apply Hok|done].
  - intros r h' Hext' (p & Hrp & Hp). exists p. split; [done|].
    eapply repr_slice; [done|by apply (ext_cells _ _ Hext')|done|done].
Qed.

Lemma alloc_list_leads sc values ps :
  scope_ok sc -> room sc 2 -> Forall2 (live_root (rs_heap sc)) values ps ->
  leads_to (alloc_root_list debug values) sc 2 (is_list (map LPtr ps)).
Proof.
  intros Hok Hroom Hv. unfold alloc_root_list. case_decide as Hnil.
  - subst. apply Forall2_nil_inv_l in Hv as ->.
    eapply leads_to_mono; [apply alloc_empty_leads; [done|unfold room in *; lia]|lia|done].
  - eapply (leads_to_bind _ _ _ 1 1); [apply alloc_data_leads; [done|unfold room in *; lia|done]|done|].
    intros data sc1 Hok1 Hext1 Hroom1 (p & Hr & Hp).
    rewrite <- (slice_all (map LPtr ps)), length_map, <- (Forall2_length _ _ _ Hv).
    eapply alloc_slice_leads; [done..|].
    rewrite length_map, (Forall2_length _ _ _ Hv). lia.
Qed.

Lemma alloc_binary_list_leads sc bytes :
  scope_ok sc -> room sc 2 ->
  leads_to (alloc_root_binary_list debug bytes) sc 2 (is_list (map LU8 bytes)).
Proof.
  intros Hok Hroom. unfold alloc_root_binary_list. case_decide as Hnil.
  - subst. eapply leads_to_mono; [apply alloc_empty_leads; [done|unfold room in *; lia]|lia|done].
  - eapply (leads_to_bind _ _ _ 1 1 (holds (CBinaryData bytes))); [|done|].
    { apply scope_alloc_leads; [done|constructor|unfold room in *; lia]. }
    intros data sc1 Hok1 Hext1 Hroom1 (p & Hr & Hp).
    rewrite <- (slice_all (map LU8 bytes)), length_map.
    eapply alloc_slice_leads; [done..|]. rewrite length_map. lia.
Qed.

Definition is_head (e : ListElement) (hd : ListRootElement) (h : Heap) : Prop :=
  match e, hd with
  | LPtr p, LRooted r => live_root h r p
  | LU8 n, LRootU8 m => n = m
  | _, _ => False
  end.

Lemma child_safe h p c q : safe h p -> cell_at h p = Some c -> q ∈ pointers c -> safe h q.
Proof.
  intros Hp Hc Hq s Hs. apply Hp. clear -Hc Hq Hs.
  induction Hs as [|a b c' _ IH Hb Hc']; [eapply from_edge; [constructor|done|done]|by eapply from_edge].
Qed.

Lemma head_element_leads sc s e elements pe c els :
  scope_ok sc -> room sc 0 -> live_root (rs_heap sc) elements pe -> cell_at (rs_heap sc) pe = Some c ->
  backing_elements c = Some els -> s <= e <= length els ->
  leads_to (list_slice_head_element debug elements s e) sc 0
    (fun o h' => match slice els s e with
                 | [] => o = None
                 | x :: _ => exists hd, o = Some hd /\ is_head x hd h'
                 end).
Proof.
  intros Hok Hroom Hr Hc Hels Hb. unfold list_slice_head_element. case_decide as Hse.
  { apply leads_to_ret; [done|]. assert (s = e) as -> by lia. by rewrite slice_nil. }
  destruct (slice els s e) as [|x rest] eqn:Hs.
  { exfalso. apply (f_equal length) in Hs. unfold slice in Hs.
    rewrite length_take, length_drop in Hs. simpl in Hs. lia. }
  apply slice_cons in Hs as (_ & Hx & _); [|lia].
  eapply (leads_to_bind _ _ _ 0 0); [by eapply get_cell_leads|done|].
  intros ? sc1 Hok1 Hext1 Hroom1 ->.
  assert (Hval : validate_list_slice_bounds (length els) s e = Ok tt) by (by apply validate_Ok).
  destruct c as [| | | | | | | | | | | | | | | | | | | |values|bytes| | | | | |]; try done;
    simpl in Hels; injection Hels as <-; rewrite length_map in Hval;
    (eapply (leads_to_bind _ _ _ 0 0 (fun _ _ => True)); [by eapply leads_to_lift|done|]);
    intros ? sc2 Hok2 Hext2 Hroom2 _; rewrite list_lookup_fmap in Hx.
  - destruct (values !! s) as [q|] eqn:Hq; [|done]. injection Hx as <-.
    eapply (leads_to_bind _ _ _ 0 0); [apply root_leads; [done|]|done|].
    + do 2 (eapply safe_extends; [done|]). eapply child_safe; [|done|].
      * eapply live_root_safe; [apply Hok|done].
      * simpl. by eapply list_elem_of_lookup_2.
    + intros r sc3 Hok3 _ _ Hrq. apply leads_to_ret; [done|]. by exists (LRooted r).
  - destruct (bytes !! s) as [n|] eqn:Hq; [|done]. injection Hx as <-.
    apply leads_to_ret; [done|]. by exists (LRootU8 n).
Qed.

(** What [head_tail_parts] finds, for [list_head_tail] to turn into tokens. *)
Definition parts_ok (es : list ListElement)
    (parts : option (ListRootElement * option (nat * nat) * RootedPtr)) (h : Heap) : Prop :=
  match es with
  | [] => parts = None
  | x :: rest => exists hd ix r, parts = Some (hd, ix, r) /\ is_head x hd h /\
      match ix with
      | None => is_list rest r h
      | Some (s, e) => exists pe c els, live_root h r pe /\ cell_at h pe = Some c /\
          backing_elements c = Some els /\ s <= e <= length els /\ rest = slice els s e
      end
  end.

Lemma slice_parts_leads sc s e el c els :
  scope_ok sc -> room sc 0 -> safe (rs_heap sc) el -> cell_at (rs_heap sc) el = Some c ->
  backing_elements c = Some els -> s <= e <= length els ->
  leads_to (let* elements := root debug el in
            let* head := list_slice_head_element debug elements s e in
            match head with
            | None => mret None
            | Some head => mret (Some (head, Some (s + 1, e), elements))
            end) sc 0 (parts_ok (slice els s e)).
Proof.
  intros Hok Hroom Hel Hc Hels Hb.
  eapply (leads_to_bind _ _ _ 0 0); [by apply root_leads|done|].
  intros elements sc1 Hok1 Hext1 Hroom1 Hr. pose proof (ext_cells _ _ Hext1 _ _ Hc) as Hc1.
  eapply (leads_to_bind _ _ _ 0 0); [by apply (head_element_leads sc1 s e elements el c els)|done|].
  intros o sc2 Hok2 Hext2 Hroom2 Ho. destruct (slice els s e) as [|x rest] eqn:Hs.
  - subst. by apply leads_to_ret.
  - destruct Ho as (hd & -> & Hhd). apply leads_to_ret; [done|].
    exists hd, (Some (s + 1, e)), elements. split_and!; [done|done|].
    apply slice_cons in Hs as (Hlt & _ & ->); [|lia].
    exists el, c, els. split_and!; [by apply (ext_roots _ _ Hext2)|by apply (ext_cells _ _ Hext2)|done|lia..|done].
Qed.

Lemma head_tail_parts_leads sc r p es :
  scope_ok sc -> room sc 0 -> live_root (rs_heap sc) r p -> list_repr (rs_heap sc) p es ->
  leads_to (head_tail_parts debug r) sc 0 (parts_ok es).
Proof.
  intros Hok Hroom Hr Hes. pose proof (live_root_safe _ _ _ (so_inv _ Hok) Hr) as Hsafe.
  destruct (list_repr_cell _ _ _ Hes) as [c Hc]. unfold head_tail_parts.
  eapply (leads_to_bind _ _ _ 0 0); [by eapply get_cell_leads|done|].
  intros ? sc1 Hok1 Hext1 Hroom1 ->. pose proof (ext_cells _ _ Hext1 _ _ Hc) as Hc1.
  pose proof (safe_extends _ _ _ Hext1 Hsafe) as Hsafe1.
  assert (Hes1 := list_repr_extends _ _ _ _ Hext1 Hes).
  destruct c; try (by inversion Hes; simplify_eq).
  - apply leads_to_ret; [done|]. by inversion Hes1; simplify_eq.
  - inversion Hes1 as [|? hd tl rest Hc' Hrest| |]; simplify_eq.
    eapply (leads_to_bind _ _ _ 0 0); [apply root_leads; [done|]|done|].
    { eapply child_safe; [done|done|]. simpl. set_solver. }
    intros rh sc2 Hok2 Hext2 Hroom2 Hrh.
    eapply (leads_to_bind _ _ _ 0 0); [apply root_leads; [done|]|done|].
    { eapply safe_extends; [done|]. eapply child_safe; [done|done|]. simpl. set_solver. }
    intros rt sc3 Hok3 Hext3 Hroom3 Hrt. apply leads_to_ret; [done|].
    exists (LRooted rh), None, rt. split_and!; [done|by apply (ext_roots _ _ Hext3)|].
    eexists. split; [exact Hrt|]. by do 2 (eapply list_repr_extends; [done|]).
  - destruct (slice_inv _ _ _ _ _ _ Hes1 Hc1) as (c & els & Hel & Hels & Hb & ->).
    eapply slice_parts_leads; [done|done| |done..]. eapply child_safe; [done|done|]. simpl. set_solver.
Qed.

Lemma list_head_tail_leads sc r p es :
  scope_ok sc -> room sc 2 -> live_root (rs_heap sc) r p -> list_repr (rs_heap sc) p es ->
  leads_to (list_head_tail debug r) sc 2
    (fun o h' => match es with
                 | [] => o = None
                 | x :: rest => exists hd tl, o = Some (hd, tl) /\ is_element x hd h' /\ is_list rest tl h'
                 end).
Proof.
  intros Hok Hroom Hr Hes. unfold list_head_tail.
  eapply (leads_to_bind _ _ _ 0 2); [eapply head_tail_parts_leads; [done| |done|done]|done|].
  { unfold room in *. lia. }
  intros parts sc1 Hok1 Hext1 Hroom1 Hparts. destruct es as [|x rest]; simpl in Hparts.
  { subst. by apply leads_to_ret. }
  destruct Hparts as (hd & ix & rt & -> & Hhd & Hix).
  eapply (leads_to_bind _ _ _ 1 1 (is_element x)); [|done|].
  { destruct x as [q|n], hd as [rh|m]; simpl in Hhd; try done; [by apply leads_to_ret|subst].
    apply scope_alloc_leads; [done|constructor|unfold room in *; lia]. }
  intros rh sc2 Hok2 Hext2 Hroom2 Hrh. destruct ix as [[s e]|].
  - destruct Hix as (pe & c & els & Hrt & Hc & Hels & Hb & ->).
    eapply (leads_to_bind _ _ _ 1 0); [eapply alloc_slice_leads; [done|done| | |done|done]|done|].
    { by apply (ext_roots _ _ Hext2). }
    { by apply (ext_cells _ _ Hext2). }
    intros tl sc3 Hok3 Hext3 Hroom3 Htl. apply leads_to_ret; [done|]. exists rh, tl.
    split_and!; [done| |done]. destruct x as [q|n]; simpl in *; [by apply (ext_roots _ _ Hext3)|].
    destruct Hrh as (pn & ? & ?). exists pn. split; [by eapply ext_roots|by eapply ext_cells].
  - apply leads_to_ret; [done|]. exists rh, rt. split_and!; [done|done|].
    destruct Hix as (pt & Hpt & Hlt). exists pt.
    split; [by apply (ext_roots _ _ Hext2)|by eapply list_repr_extends].
Qed.

Lemma is_element_extends x r h h' : extends h h' -> is_element x r h -> is_element x r h'.
Proof.
  intros Hext. destruct x; simpl; [by apply (ext_roots _ _ Hext)|].
  intros (p & ? & ?). exists p. split; [by apply (ext_roots _ _ Hext)|by apply (ext_cells _ _ Hext)].
Qed.

Lemma place_elements_leads sc es rs :
  scope_ok sc -> room sc (length es) -> Forall2 (live_root (rs_heap sc)) rs (element_pointers es) ->
  leads_to (place_elements debug es rs) sc (length es)
    (fun vs h' => Forall2 (fun x v => is_element x v h') es vs).
Proof.
  revert sc rs. induction es as [|x es IH]; intros sc rs Hok Hroom Hrs; [by apply leads_to_ret|].
  destruct x as [p|n]; simpl in Hrs |- *.
  - inversion Hrs as [|r ? rs' ? Hr Hrs']; subst.
    apply (leads_to_le _ _ (length es + 0)); [|lia].
    eapply leads_to_bind; [apply IH; [done|unfold room in *; simpl in *; lia|done]
                          |unfold room in *; simpl in *; lia|].
    intros vs sc1 Hok1 Hext1 _ Hvs. apply leads_to_ret; [done|]. constructor; [|done].
    by apply (ext_roots _ _ Hext1).
  - apply (leads_to_le _ _ (1 + (length es + 0))); [|lia].
    eapply leads_to_bind; [apply scope_alloc_leads; [done|constructor|unfold room in *; simpl in *; lia]
                          |unfold room in *; simpl in *; lia|].
    intros v sc1 Hok1 Hext1 Hroom1 Hv. rewrite Nat.add_0_r in Hroom1.
    eapply leads_to_bind; [apply IH; [done|done|]|by rewrite Nat.add_0_r|].
    { apply (Forall2_impl _ _ _ _ Hrs). intros ? ?. by apply (ext_roots _ _ Hext1). }
    intros vs sc2 Hok2 Hext2 _ Hvs. apply leads_to_ret; [done|]. constructor; [|done].
    by apply (is_element_extends (LU8 n) v _ _ Hext2).
Qed.

Lemma list_repr_safe h p es :
  list_repr h p es -> safe h p -> Forall (safe h) (element_pointers es).
Proof.
  induction 1 as [p Hc|p head tail es Hc _ IH|p s e el values Hc Hel Hb|p s e el bytes Hc Hel Hb];
    intros Hp; simpl.
  - constructor.
  - constructor; [eapply child_safe; [done|done|]; simpl; set_solver|].
    apply IH. eapply child_safe; [done|done|]. simpl. set_solver.
  - assert (Hl : forall l, element_pointers (map LPtr l) = l) by (induction l; simpl; congruence).
    rewrite Hl. apply Forall_forall. intros q Hq. eapply child_safe; [|exact Hel|].
    + eapply child_safe; [exact Hp|exact Hc|]. simpl. set_solver.
    + simpl. unfold slice in Hq. apply elem_of_take in Hq as (i & Hi & _).
      rewrite lookup_drop in Hi. by eapply list_elem_of_lookup_2.
  - assert (Hl : forall l, element_pointers (map LU8 l) = []) by (induction l; simpl; congruence).
    rewrite Hl. constructor.
Qed.

Lemma root_as_list_leads sc r es :
  scope_ok sc -> room sc (length es) -> is_list es r (rs_heap sc) ->
  leads_to (root_as_list debug r) sc (length es)
    (fun vs h' => Forall2 (fun x v => is_element x v h') es vs).
Proof.
  intros Hok Hroom (p & Hr & Hes). unfold root_as_list.
  eapply (leads_to_bind _ _ _ 0 _); [by eapply pointer_leads|done|].
  intros ? sc1 Hok1 Hext1 Hroom1 ->.
  pose proof (list_repr_extends _ _ _ _ Hext1 Hes) as Hes1.
  eapply (leads_to_bind _ _ _ 0 _ (fun x _ => x = es)); [eapply leads_to_lift; [done| |done]|done|].
  { by apply list_elements_spec. }
  intros ? sc2 Hok2 Hext2 Hroom2 ->. unfold materialize_list_elements.
  eapply (leads_to_bind _ _ _ 0 _); [apply root_all_leads; [done|unfold room in *; lia|]|done|].
  - eapply list_repr_safe; [by eapply list_repr_extends|].
    do 2 (eapply safe_extends; [done|]). eapply live_root_safe; [apply Hok|done].
  - intros rs sc3 Hok3 Hext3 Hroom3 Hrs. by apply place_elements_leads.
Qed.

Lemma list_len_leads sc r es :
  scope_ok sc -> (Z.of_nat (length es) <= u64_max)%Z -> room sc 0 -> is_list es r (rs_heap sc) ->
  leads_to (list_len debug r) sc 0 (fun n _ => n = length es).
Proof.
  intros Hok Hlen Hroom (p & Hr & Hes).
  eapply (leads_to_bind _ _ _ 0 0); [by eapply pointer_leads|done|].
  intros ? sc1 Hok1 Hext1 _ ->. eapply leads_to_lift; [done| |done].
  apply list_len_spec; [|done]. by eapply list_repr_extends.
Qed.

Lemma collect_list_u8_spec h p bytes :
  list_repr h p (map LU8 bytes) -> (Z.of_nat (length bytes) <= u64_max)%Z ->
  collect_list_u8 h p = Ok bytes.
Proof.
  intros H Hlen. unfold collect_list_u8.
  rewrite (list_len_spec h p (map LU8 bytes)) by (rewrite ?length_map; done). cbn [rbind].
  assert (Hinj : forall l : list Z, map LU8 l = map LU8 bytes -> l = bytes).
  { clear. induction bytes as [|n bytes IH]; intros [|m l]; try done. intros [= -> Hl]. f_equal. auto. }
  remember (map LU8 bytes) as es eqn:Hn.
  destruct H as [p Hc|p head tail es Hc _|p s e el values Hc Hel Hb|p s e el bs Hc Hel Hb];
    rewrite (proj2 (get_cell_from_pointer_Ok _ _ _) Hc); cbn [rbind walk_fuel collect_u8_loop from_fueled].
  - by destruct bytes.
  - by destruct bytes.
  - rewrite (proj2 (get_cell_from_pointer_Ok _ _ _) Hel). cbn [rbind].
    rewrite (proj2 (validate_Ok _ _ _) Hb). cbn [rbind].
    destruct (slice values s e); by destruct bytes.
  - rewrite (proj2 (get_cell_from_pointer_Ok _ _ _) Hel). cbn [rbind].
    rewrite (proj2 (validate_Ok _ _ _) Hb). cbn [rbind from_fueled app].
    by rewrite (Hinj _ eq_refl).
Qed.
End list_scope.

(** * Properties *)

(** Reading a list: [list_elements_from_pointer] answers the elements
    exactly when the value is a well-formed list of them, whatever mix of cons
    cells and slices represents it, and [list_len] is then their number. *)
Theorem list_elements_iff_list h p es :
  (list_elements_from_pointer h p = Ok es <-> list_repr h p es) /\
  (list_repr h p es -> (Z.of_nat (length es) <= u64_max)%Z ->
   list_len_from_pointer h p = Ok (length es)).
Proof. split; [apply list_elements_spec|apply list_len_spec]. Qed.

(** The walk over a list ends exactly when the chain of tails does: if it
    has not ended after as many rounds as the heap has slots, and one, no
    number of rounds is enough, and the model's [Diverges] is the code's
    endless loop. *)
Theorem list_walk_decides h c out fuel :
  (elements_loop fuel h c out = None -> walk_fuel h <= fuel ->
   forall n, elements_loop n h c out = None) /\
  (forall r, elements_loop fuel h c out = Some r -> elements_loop (walk_fuel h) h c out = Some r).
Proof.
  split; [|intros r; apply walk_fuel_enough].
  intros H Hle n. apply elements_loop_None, long_walk_forever.
  eapply tail_cell_le; [exact Hle|]. by apply elements_loop_None in H.
Qed.

(** The demonstration scope: a cons cell whose tail is itself, and a slice. *)
Definition demo_list_heap : Heap :=
  mkHeap 1
    [mkSlot 6 (Some (CI32 42)); mkSlot 6 (Some (CData [demo_ptr 0; demo_ptr 0; demo_ptr 4]));
     mkSlot 6 (Some (CListSlice 1 3 (demo_ptr 1))); mkSlot 6 (Some (CCons (demo_ptr 0) (demo_ptr 2)));
     mkSlot 6 (Some (CCons (demo_ptr 0) (demo_ptr 4)))]
    [mkRootSlot 0 (Some (demo_ptr 3)); mkRootSlot 1 (Some (demo_ptr 4))] [] 1 false 6 true.
Definition demo_list_scope : RootScope := mkScope demo_list_heap [] true.
Definition demo_list : RootedPtr := mkRoot 1 0 0.
Definition demo_elements : list ListElement := [LPtr (demo_ptr 0); LPtr (demo_ptr 0); LPtr (demo_ptr 4)].

Lemma demo_list_ok : scope_ok demo_list_scope.
Proof. split; [apply heap_check_sound; vm_compute; reflexivity|reflexivity]. Qed.

Lemma demo_list_repr : list_repr demo_list_heap (demo_ptr 3) demo_elements.
Proof. apply list_elements_spec. vm_compute. reflexivity. Qed.

Lemma list_elements_iff_list_witness :
  list_repr demo_list_heap (demo_ptr 3) demo_elements /\
  list_elements_from_pointer demo_list_heap (demo_ptr 3) = Ok demo_elements /\
  list_len_from_pointer demo_list_heap (demo_ptr 3) = Ok 3.
Proof.
  pose proof demo_list_repr as H.
  destruct (list_elements_iff_list demo_list_heap (demo_ptr 3) demo_elements) as [H1 H2].
  split_and!; [exact H|by apply H1|apply H2; [exact H|vm_compute; done]].
Defined.

Lemma list_walk_decides_witness :
  elements_loop 6 demo_list_heap (CCons (demo_ptr 0) (demo_ptr 4)) [] = None /\
  (forall n, elements_loop n demo_list_heap (CCons (demo_ptr 0) (demo_ptr 4)) [] = None).
Proof.
  assert (H : elements_loop 6 demo_list_heap (CCons (demo_ptr 0) (demo_ptr 4)) [] = None)
    by (vm_compute; reflexivity).
  split; [exact H|]. apply (list_walk_decides demo_list_heap _ [] 6); [exact H|vm_compute; lia].
Defined.

(** Building a list from tokens and reading it back gives its length and
    tokens of the same objects, in order; a list of bytes reads back as those
    bytes. *)
Theorem list_roundtrip debug sc values ps bytes (Hok : scope_ok sc)
    (Hroom : room sc (2 + length ps)) (Hv : Forall2 (live_root (rs_heap sc)) values ps)
    (Hlen : (Z.of_nat (length ps) <= u64_max)%Z) (Hbytes : (Z.of_nat (length bytes) <= u64_max)%Z) :
  leads_to (let* r := alloc_root_list debug values in
            let* n := list_len debug r in
            let* vs := root_as_list debug r in
            mret (n, vs)) sc (2 + length ps)
    (fun x h' => x.1 = length values /\ Forall2 (live_root h') x.2 ps) /\
  leads_to (let* r := alloc_root_binary_list debug bytes in root_as_binary_list debug r) sc 2
    (fun x _ => x = bytes).
Proof.
  assert (Hroom2 : room sc 2) by (unfold room in *; lia). split.
  - eapply (leads_to_bind _ _ _ 2 (length ps)); [by apply alloc_list_leads|done|].
    intros r sc1 Hok1 Hext1 Hroom1 Hr. eapply (leads_to_bind _ _ _ 0 (length ps)); [|done|].
    { apply (list_len_leads debug sc1 r (map LPtr ps)); [done|by rewrite length_map| |done].
      unfold room in *; lia. }
    intros ? sc2 Hok2 Hext2 Hroom2' ->. rewrite length_map.
    apply (leads_to_le _ _ (length ps + 0)); [|lia].
    eapply leads_to_bind; [|by rewrite Nat.add_0_r|].
    { rewrite <- (length_map LPtr ps). apply root_as_list_leads; [done|by rewrite length_map|].
      destruct Hr as (p & ? & ?). exists p.
      split; [by apply (ext_roots _ _ Hext2)|by eapply list_repr_extends]. }
    intros vs sc3 Hok3 _ _ Hvs. apply leads_to_ret; [done|]. simpl.
    split; [by rewrite (Forall2_length _ _ _ Hv)|].
    apply Forall2_flip. rewrite Forall2_fmap_l in Hvs. exact Hvs.
  - eapply (leads_to_bind _ _ _ 2 0); [by apply alloc_binary_list_leads|done|].
    intros r sc1 Hok1 Hext1 Hroom1 (p & Hr & Hp). unfold root_as_binary_list.
    eapply (leads_to_bind _ _ _ 0 0); [by eapply pointer_leads|done|].
    intros ? sc2 Hok2 Hext2 _ ->. eapply leads_to_lift; [done| |done].
    apply collect_list_u8_spec; [|done]. by eapply list_repr_extends.
Qed.

Lemma list_roundtrip_witness :
  leads_to (let* r := alloc_root_list true [demo_a; demo_b] in
            let* n := list_len true r in
            let* vs := root_as_list true r in
            mret (n, vs)) demo_scope 4
    (fun x h' => x.1 = 2 /\ Forall2 (live_root h') x.2 [demo_ptr 1; demo_ptr 3]) /\
  leads_to (let* r := alloc_root_binary_list true [7; 8; 9]%Z in root_as_binary_list true r)
    demo_scope 2 (fun x _ => x = [7; 8; 9]%Z).
Proof.
  destruct demo_live as [Ha Hb].
  apply (list_roundtrip true demo_scope [demo_a; demo_b] [demo_ptr 1; demo_ptr 3] [7; 8; 9]%Z
           demo_scope_ok (demo_room 4 ltac:(lia))); [|vm_compute; done|vm_compute; done].
  by repeat constructor.
Defined.

(** Taking a list apart: on a well-formed list [list_head_tail] answers
    [None] exactly for the empty one; otherwise it gives a token of the first
    element (a fresh [u8] for a byte) and a token of the list of the others. *)
Theorem list_head_tail_spec debug sc r p es (Hok : scope_ok sc) (Hroom : room sc 2)
    (Hr : live_root (rs_heap sc) r p) (Hes : list_repr (rs_heap sc) p es) :
  leads_to (list_head_tail debug r) sc 2
    (fun o h' => match es with
                 | [] => o = None
                 | x :: rest => exists hd tl, o = Some (hd, tl) /\ is_element x hd h' /\ is_list rest tl h'
                 end).
Proof. by eapply list_head_tail_leads. Qed.

Lemma list_head_tail_spec_witness :
  list_repr (rs_heap demo_list_scope) (demo_ptr 3) demo_elements /\
  leads_to (list_head_tail true demo_list) demo_list_scope 2
    (fun o h' => exists hd tl, o = Some (hd, tl) /\ is_element (LPtr (demo_ptr 0)) hd h' /\
                   is_list [LPtr (demo_ptr 0); LPtr (demo_ptr 4)] tl h').
Proof.
  split; [exact demo_list_repr|].
  apply (list_head_tail_spec true demo_list_scope demo_list (demo_ptr 3) demo_elements demo_list_ok);
    [unfold room, u32_modulus; simpl; lia|by split|exact demo_list_repr].
Defined.

(** Lists survive collections: the elements read after a collection are
    those read before, with the relocated pointers. *)
Theorem collection_preserves_lists debug h p es (I : heap_inv h)
    (Hep : (collection_epoch h < u64_max)%Z) (Hp : reach h p)
    (Hes : list_elements_from_pointer h p = Ok es) :
  exists h' g, collect debug h = (Ok tt, h') /\
    (forall r q, live_root h r q -> live_root h' r (g q)) /\
    list_elements_from_pointer h' (g p) = Ok (map (rename_element g) es).
Proof.
  destruct (collect_spec debug h I Hep) as (h' & g & Hc & _ & R & _).
  exists h', g. split_and!; [done| |].
  - intros r q Hr. eapply relocated_root; eauto.
  - apply list_elements_spec. apply list_elements_spec in Hes. by eapply list_repr_relocated.
Qed.

Lemma collection_preserves_lists_witness :
  list_elements_from_pointer demo_list_heap (demo_ptr 3) = Ok demo_elements /\
  exists h' g, collect true demo_list_heap = (Ok tt, h') /\
    (forall r q, live_root demo_list_heap r q -> live_root h' r (g q)) /\
    list_elements_from_pointer h' (g (demo_ptr 3)) = Ok (map (rename_element g) demo_elements).
Proof.
  split; [vm_compute; reflexivity|].
  apply (collection_preserves_lists true demo_list_heap (demo_ptr 3) demo_elements);
    [apply demo_list_ok|reflexivity|apply reach_root; left|vm_compute; reflexivity].
Defined.
