(* ===== verification/Values.v ===== *)
(** Owned values and their conversion from and to heap values:
    [rex-engine/src/memory/value.rs], with [infer_cell_type] of [heap.rs]. Both
    conversions are loops over an explicit stack of work. *)

From S2P Require Import Prelude Span Types BTree Adts Syntax Errors Heap HeapTrace HeapStress HeapCollect.
From S2P Require Import HeapSafety Env Scope Lists.

(** * Values *)

Inductive Value : Type :=
  | VBool (b : bool)
  | VU8 (n : Z) | VU16 (n : Z) | VU32 (n : Z) | VU64 (n : Z)
  | VI8 (n : Z) | VI16 (n : Z) | VI32 (n : Z) | VI64 (n : Z)
  | VF32 (bits : N) | VF64 (bits : N)
  | VChar (c : N)
  | VString (s : string)
  | VUuid (u : N)
  | VHash (h : N)
  | VDateTime (nanos : Z)
  | VTuple (items : list Value)
  | VList (items : list Value)
  | VBytes (bytes : list Z)
  | VDict (fields : list (string * Value))
  | VAdt (name : Symbol) (fields : list Value).

Definition value_type_name (v : Value) : string :=
  match v with
  | VBool _ => "Bool"
  | VU8 _ => "u8" | VU16 _ => "u16" | VU32 _ => "u32" | VU64 _ => "u64"
  | VI8 _ => "i8" | VI16 _ => "i16" | VI32 _ => "i32" | VI64 _ => "i64"
  | VF32 _ => "f32" | VF64 _ => "f64"
  | VChar _ => "Char"
  | VString _ => "String"
  | VUuid _ => "UUID"
  | VHash _ => "Hash"
  | VDateTime _ => "DateTime"
  | VTuple _ => "tuple"
  | VList _ => "list"
  | VBytes _ => "bytes"
  | VDict _ => "dict"
  | VAdt _ _ => "adt"
  end.

(** * Paths and errors *)

(** [ConversionPath]: the segments from the root. *)
Definition ConversionPath : Type := list string.
Definition path_root : ConversionPath := [].
Definition path_child (path : ConversionPath) (segment : string) : ConversionPath := path ++ [segment].
Definition show_path (path : ConversionPath) : string := "$" +:+ foldr String.append "" path.

Definition index_segment (index : nat) : string := "[" +:+ pretty index +:+ "]".
Definition field_segment (name : string) : string := "." +:+ name.

Definition conversion_error {A} (path : ConversionPath) (expected got : string) : exec A :=
  raise (ValueConversion (show_path path) expected got).

(** * Types *)

(** The loop of [decompose_type_app]. *)
Fixpoint decompose_loop (head : ty) (arguments : list ty) : ty * list ty :=
  match head with
  | TApp function argument => decompose_loop function (argument :: arguments)
  | _ => (head, arguments)
  end.
Definition decompose_type_app (value : ty) : ty * list ty := decompose_loop value [].

Definition is_u8_type (value : ty) : bool :=
  match value with TCon con => bool_decide (name_str con = "u8") | _ => false end.

Fixpoint instantiate_type (substitutions : gmap TypeVarId ty) (value : ty) : ty :=
  match value with
  | TVar variable => default value (substitutions !! tv_id variable)
  | TCon _ => value
  | TApp function argument => TApp (instantiate_type substitutions function) (instantiate_type substitutions argument)
  | TFun argument result => TFun (instantiate_type substitutions argument) (instantiate_type substitutions result)
  | TTuple items => TTuple (map (instantiate_type substitutions) items)
  | TRecord fields => Type_record (map (fun f => (f.1, instantiate_type substitutions f.2)) fields)
  end.

(** A variant has a tag: its name, or its name without the module path. *)
Definition variant_has_tag (tag : Symbol) (variant : AdtVariant) : bool :=
  bool_decide (variant_name variant = tag) ||
  (negb (has_dot tag) && bool_decide (local_name (variant_name variant) = tag)).

(** The arguments' types of a variant; later parameters of one name win in [collect]. *)
Definition variant_field_types (adt : AdtDecl) (variant : AdtVariant) (type_args : list ty) : list ty :=
  let substitutions : gmap TypeVarId ty :=
    list_to_map (reverse (zip (map (fun p => tv_id (param_var p)) (adt_params adt)) type_args)) in
  map (fun field => instantiate_type substitutions (AdtArgument_typ field)) (variant_args variant).

Definition resolve_adt_variant (types : TypeSystem) (name : Symbol) (type_args : list ty) (tag : Symbol)
    (path : ConversionPath) : exec (AdtDecl * AdtVariant * list ty) :=
  match adts types !! name with
  | None => conversion_error path name ("unknown ADT `" +:+ name +:+ "`")
  | Some adt =>
      if decide (length (adt_params adt) = length type_args) then
        match find (variant_has_tag tag) (adt_variants adt) with
        | None => conversion_error path name
            ("constructor `" +:+ tag +:+ "` from another ADT (expected one of: " +:+
             join ", " (map variant_name (adt_variants adt)) +:+ ")")
        | Some variant => Ok (adt, variant, variant_field_types adt variant type_args)
        end
      else conversion_error path name (pretty (length type_args) +:+ " type arguments")
  end.

(** * Loops over a stack of work

    The top of the [Vec] of work is the head of the list; finished values are in the
    order of the [Vec]. *)

Section work.
Context {W V : Type} (step : W -> list W -> list V -> SM (list W * list V)).

Fixpoint work_loop (fuel : nat) (work : list W) (values : list V) (sc : RootScope)
  : option (exec (list V) * RootScope) :=
  match work with
  | [] => Some (Ok values, sc)
  | item :: work =>
      match fuel with
      | 0 => None
      | S fuel =>
          match step item work values sc with
          | (Ok (work, values), sc) => work_loop fuel work values sc
          | (Err e, sc) => Some (Err e, sc)
          end
      end
  end.
End work.

(** [values.split_off(values.len() - len)]: the tail and what is left. *)
Definition take_tail {V} (underflow : string) (values : list V) (len : nat) : exec (list V * list V) :=
  if decide (length values < len) then raise (Internal underflow)
  else Ok (drop (length values - len) values, take (length values - len) values).

Definition single {V} (what : string) (values : list V) : exec V :=
  match values with
  | [v] => Ok v
  | _ => raise (Internal (what +:+ " conversion produced " +:+ pretty (length values) +:+ " roots"))
  end.

(** * From owned values to the heap *)

Inductive ImportWork : Type :=
  | ImportConvert (value : Value) (expected : ty) (path : ConversionPath)
  | ImportTuple (len : nat)
  | ImportList (len : nat)
  | ImportDict (names : list string)
  | ImportAdt (tag : Symbol) (fields : nat).

(** The work of converting children, each at its own segment of the path. *)
Definition import_items (path : ConversionPath) (segment : nat -> string) (items : list Value) (item_types : list ty)
  : list ImportWork :=
  imap (fun index it => ImportConvert it.1 it.2 (path_child path (segment index))) (zip items item_types).

Definition import_fields (path : ConversionPath) (fields : list (string * Value * ty)) : list ImportWork :=
  map (fun f => ImportConvert f.1.2 f.2 (path_child path (field_segment f.1.1))) fields.

(** The loop that takes a record's fields out of the dictionary, in the order of the type. *)
Fixpoint take_fields (path : ConversionPath) (fields : list (string * Value)) (definitions : list (Symbol * ty))
  : exec (list (string * Value * ty)) :=
  match definitions with
  | [] => Ok []
  | (name, field_type) :: definitions =>
      match btree_remove name fields with
      | None => conversion_error (path_child path (field_segment name)) (show_ty field_type) "missing field"
      | Some (field, fields) =>
          let? children := take_fields path fields definitions in
          Ok ((name, field, field_type) :: children)
      end
  end.

Section conversions.
Context (debug_assertions : bool) (types : TypeSystem).

(** The first sixteen patterns: a scalar at the type of its name. *)
Definition import_scalar (name : string) (value : Value) : option (SM RootedPtr) :=
  let at_ (expected : string) (alloc : SM RootedPtr) :=
    if decide (name = expected) then Some alloc else None in
  match value with
  | VBool v => at_ "Bool" (alloc_root_bool debug_assertions v)
  | VU8 v => at_ "u8" (alloc_root_u8 debug_assertions v)
  | VU16 v => at_ "u16" (alloc_root_u16 debug_assertions v)
  | VU32 v => at_ "u32" (alloc_root_u32 debug_assertions v)
  | VU64 v => at_ "u64" (alloc_root_u64 debug_assertions v)
  | VI8 v => at_ "i8" (alloc_root_i8 debug_assertions v)
  | VI16 v => at_ "i16" (alloc_root_i16 debug_assertions v)
  | VI32 v => at_ "i32" (alloc_root_i32 debug_assertions v)
  | VI64 v => at_ "i64" (alloc_root_i64 debug_assertions v)
  | VF32 v => at_ "f32" (alloc_root_f32 debug_assertions v)
  | VF64 v => at_ "f64" (alloc_root_f64 debug_assertions v)
  | VChar v => at_ "Char" (alloc_root_char debug_assertions v)
  | VString v => at_ "String" (alloc_root_string debug_assertions v)
  | VUuid v => at_ "UUID" (alloc_root_uuid debug_assertions v)
  | VHash v => at_ "Hash" (alloc_root_hash debug_assertions v)
  | VDateTime v => at_ "DateTime" (alloc_root_datetime debug_assertions v)
  | _ => None
  end.

(** The pattern for constructors, at any type. *)
Definition import_adt (name : string) (args : list ty) (tag : Symbol) (fields : list Value) (expected : ty)
    (path : ConversionPath) (work : list ImportWork) : exec (list ImportWork) :=
  let? r := resolve_adt_variant types name args tag path in
  let '(_, variant, field_types) := r in
  if decide (length fields = length field_types) then
    let tag := local_name (variant_name variant) in
    Ok (import_items path (fun index => "." +:+ tag +:+ index_segment index) fields field_types ++
        ImportAdt tag (length fields) :: work)
  else conversion_error path (show_ty expected)
         ("constructor " +:+ tag +:+ " with " +:+ pretty (length fields) +:+ " fields").

(** The arm for type constructors and their applications. *)
Definition import_con (value : Value) (expected : ty) (path : ConversionPath) (work : list ImportWork)
    (roots : list RootedPtr) : SM (list ImportWork * list RootedPtr) :=
  let mismatch := mlift (fun _ => conversion_error path (show_ty expected) (value_type_name value)) in
  let '(head, args) := decompose_type_app expected in
  match head with
  | TCon con =>
      let name := name_str con in
      match args, import_scalar name value with
      | [], Some alloc => let* root := alloc in mret (work, roots ++ [root])
      | _, _ =>
          match value with
          | VBytes bytes =>
              match args with
              | [element_type] =>
                  if bool_decide (name = "List") && is_u8_type element_type then
                    let* root := alloc_root_binary_list debug_assertions bytes in mret (work, roots ++ [root])
                  else mismatch
              | _ => mismatch
              end
          | VList items =>
              match args with
              | [element_type] =>
                  if bool_decide (name = "List") && negb (is_u8_type element_type) then
                    mret (import_items path index_segment items (replicate (length items) element_type) ++
                          ImportList (length items) :: work, roots)
                  else mismatch
              | _ => mismatch
              end
          | VDict fields =>
              match args with
              | [element_type] =>
                  if decide (name = "Dict") then
                    mret (import_fields path (map (fun f => (f, element_type)) fields) ++
                          ImportDict (map fst fields) :: work, roots)
                  else mismatch
              | _ => mismatch
              end
          | VAdt tag fields =>
              let* work := mlift (fun _ => import_adt name args tag fields expected path work) in
              mret (work, roots)
          | _ => mismatch
          end
      end
  | _ => mismatch
  end.

Definition import_step (item : ImportWork) (work : list ImportWork) (roots : list RootedPtr)
  : SM (list ImportWork * list RootedPtr) :=
  let tail := take_tail (V := RootedPtr) "value-to-heap conversion stack underflow" in
  match item with
  | ImportConvert value expected path =>
      let error got := mlift (fun _ => conversion_error path (show_ty expected) got) in
      match expected with
      | TVar _ => error "unresolved type variable"
      | TFun _ _ => error (value_type_name value)
      | TTuple item_types =>
          match value with
          | VTuple items =>
              if decide (length items = length item_types) then
                mret (import_items path index_segment items item_types ++ ImportTuple (length items) :: work, roots)
              else error ("tuple with " +:+ pretty (length items) +:+ " items")
          | _ => error (value_type_name value)
          end
      | TRecord field_types =>
          match value with
          | VDict fields =>
              if decide (length fields = length field_types) then
                let* children := mlift (fun _ => take_fields path fields field_types) in
                mret (import_fields path children ++ ImportDict (map fst field_types) :: work, roots)
              else error ("record with " +:+ pretty (length fields) +:+ " fields")
          | _ => error (value_type_name value)
          end
      | TCon _ | TApp _ _ => import_con value expected path work roots
      end
  | ImportTuple len =>
      let* t := mlift (fun _ => tail roots len) in
      let* root := alloc_root_tuple debug_assertions t.1 in mret (work, t.2 ++ [root])
  | ImportList len =>
      let* t := mlift (fun _ => tail roots len) in
      let* root := alloc_root_list debug_assertions t.1 in mret (work, t.2 ++ [root])
  | ImportDict names =>
      let* t := mlift (fun _ => tail roots (length names)) in
      let* root := alloc_root_dict debug_assertions (btree_collect (zip names t.1)) in mret (work, t.2 ++ [root])
  | ImportAdt tag fields =>
      let* t := mlift (fun _ => tail roots fields) in
      let* root := alloc_root_adt debug_assertions tag t.1 in mret (work, t.2 ++ [root])
  end.

(** The number of rounds a value takes, at most. *)
Fixpoint import_rounds (v : Value) : nat :=
  match v with
  | VTuple items | VList items | VAdt _ items => 2 + sum_list_with import_rounds items
  | VDict fields => 2 + sum_list_with (fun f => import_rounds f.2) fields
  | _ => 1
  end.

(** [value_into_root]; [alloc_value] starts it at the root path. *)
Definition value_into_root (value : Value) (expected : ty) (path : ConversionPath) : SM RootedPtr := fun sc =>
  match work_loop import_step (import_rounds value) [ImportConvert value expected path] [] sc with
  | Some (Ok roots, sc) => (single "value-to-heap" roots, sc)
  | Some (Err e, sc) => (Err e, sc)
  | None => (Err Diverges, sc)
  end.

Definition alloc_value (value : Value) (expected : ty) : SM RootedPtr := value_into_root value expected path_root.
End conversions.

(** * From the heap to owned values *)

(** [m.map_err(|_| ..)]: an error of [m] is replaced by what [handler] answers. *)
Definition or_else {A} (m handler : SM A) : SM A := fun sc =>
  match m sc with
  | (Err (Raised _), sc) => handler sc
  | r => r
  end.

Inductive ExportWork : Type :=
  | ExportConvert (root : RootedPtr) (expected : ty) (path : ConversionPath)
  | ExportTuple (len : nat)
  | ExportList (len : nat)
  | ExportDict (names : list string)
  | ExportAdt (tag : Symbol) (fields : nat).

Definition export_items (path : ConversionPath) (segment : nat -> string) (items : list RootedPtr) (item_types : list ty)
  : list ExportWork :=
  imap (fun index it => ExportConvert it.1 it.2 (path_child path (segment index))) (zip items item_types).

Definition export_field (path : ConversionPath) (name : string) (field_type : ty) (root : RootedPtr) : ExportWork :=
  ExportConvert root field_type (path_child path (field_segment name)).

(** The loop that pushes a record's fields, from the last one. *)
Fixpoint push_fields (path : ConversionPath) (fields : list (string * RootedPtr)) (definitions : list (Symbol * ty))
    (work : list ExportWork) : exec (list ExportWork) :=
  match definitions with
  | [] => Ok work
  | (name, field_type) :: definitions =>
      let? work := push_fields path fields definitions work in
      match btree_get fields name with
      | None => conversion_error (path_child path (field_segment name)) (show_ty field_type) "missing field"
      | Some field => Ok (export_field path name field_type field :: work)
      end
  end.

Section conversions.
Context (debug_assertions : bool) (types : TypeSystem).

Definition root_type_name (root : RootedPtr) : SM string :=
  or_else (type_name debug_assertions root) (mret "invalid heap value").

Definition export_mismatch {A} (root : RootedPtr) (expected : ty) (path : ConversionPath) : SM A :=
  let* got := root_type_name root in mlift (fun _ => conversion_error path (show_ty expected) got).

Definition export_scalar (name : string) (root : RootedPtr) : option (SM Value) :=
  let read {A} (as_ : RootedPtr -> SM A) (mk : A -> Value) := Some (let* v := as_ root in mret (mk v)) in
  if decide (name = "Bool") then read (root_as_bool debug_assertions) VBool
  else if decide (name = "u8") then read (root_as_u8 debug_assertions) VU8
  else if decide (name = "u16") then read (root_as_u16 debug_assertions) VU16
  else if decide (name = "u32") then read (root_as_u32 debug_assertions) VU32
  else if decide (name = "u64") then read (root_as_u64 debug_assertions) VU64
  else if decide (name = "i8") then read (root_as_i8 debug_assertions) VI8
  else if decide (name = "i16") then read (root_as_i16 debug_assertions) VI16
  else if decide (name = "i32") then read (root_as_i32 debug_assertions) VI32
  else if decide (name = "i64") then read (root_as_i64 debug_assertions) VI64
  else if decide (name = "f32") then read (root_as_f32 debug_assertions) VF32
  else if decide (name = "f64") then read (root_as_f64 debug_assertions) VF64
  else if decide (name = "Char") then read (root_as_char debug_assertions) VChar
  else if decide (name = "String") then read (root_as_string debug_assertions) VString
  else if decide (name = "UUID") then read (root_as_uuid debug_assertions) VUuid
  else if decide (name = "Hash") then read (root_as_hash debug_assertions) VHash
  else if decide (name = "DateTime") then read (root_as_datetime debug_assertions) VDateTime
  else None.

Definition export_adt (name : string) (args : list ty) (root : RootedPtr) (expected : ty) (path : ConversionPath)
    (work : list ExportWork) (values : list Value) : SM (list ExportWork * list Value) :=
  let* adt := or_else (root_as_adt debug_assertions root) (export_mismatch root expected path) in
  let '(runtime_tag, fields) := adt in
  let* r := mlift (fun _ => resolve_adt_variant types name args runtime_tag path) in
  let '(_, variant, field_types) := r in
  if decide (length fields = length field_types) then
    let tag := local_name (variant_name variant) in
    mret (export_items path (fun index => "." +:+ tag +:+ index_segment index) fields field_types ++
          ExportAdt tag (length fields) :: work, values)
  else mlift (fun _ => conversion_error path (show_ty expected)
         ("constructor " +:+ runtime_tag +:+ " with " +:+ pretty (length fields) +:+ " fields")).

Definition export_con (root : RootedPtr) (expected : ty) (path : ConversionPath) (work : list ExportWork)
    (values : list Value) : SM (list ExportWork * list Value) :=
  let '(head, args) := decompose_type_app expected in
  match head with
  | TCon con =>
      let name := name_str con in
      match args, export_scalar name root with
      | [], Some read =>
          let* v := or_else read (export_mismatch root expected path) in mret (work, values ++ [v])
      | [element_type], _ =>
          if decide (name = "List") then
            if is_u8_type element_type then
              let* bytes := or_else (root_as_binary_list debug_assertions root) (export_mismatch root expected path) in
              mret (work, values ++ [VBytes bytes])
            else
              let* items := or_else (root_as_list debug_assertions root) (export_mismatch root expected path) in
              mret (export_items path index_segment items (replicate (length items) element_type) ++
                    ExportList (length items) :: work, values)
          else if decide (name = "Dict") then
            let* fields := or_else (root_as_dict debug_assertions root) (export_mismatch root expected path) in
            mret (map (fun f => export_field path f.1 element_type f.2) fields ++
                  ExportDict (map fst fields) :: work, values)
          else export_adt name args root expected path work values
      | _, _ => export_adt name args root expected path work values
      end
  | _ => export_mismatch root expected path
  end.

Definition export_step (item : ExportWork) (work : list ExportWork) (values : list Value)
  : SM (list ExportWork * list Value) :=
  let tail := take_tail (V := Value) "heap-to-value conversion stack underflow" in
  match item with
  | ExportConvert root expected path =>
      match expected with
      | TVar _ => mlift (fun _ => conversion_error path (show_ty expected) "unresolved type variable")
      | TFun _ _ => export_mismatch root expected path
      | TTuple item_types =>
          let* items := or_else (root_as_tuple debug_assertions root) (export_mismatch root expected path) in
          if decide (length items = length item_types) then
            mret (export_items path index_segment items item_types ++ ExportTuple (length items) :: work, values)
          else mlift (fun _ => conversion_error path (show_ty expected)
                 ("tuple with " +:+ pretty (length items) +:+ " items"))
      | TRecord field_types =>
          let* fields := or_else (root_as_dict debug_assertions root) (export_mismatch root expected path) in
          if decide (length fields = length field_types) then
            let* work := mlift (fun _ =>
              push_fields path fields field_types (ExportDict (map fst field_types) :: work)) in
            mret (work, values)
          else mlift (fun _ => conversion_error path (show_ty expected)
                 ("record with " +:+ pretty (length fields) +:+ " fields"))
      | TCon _ | TApp _ _ => export_con root expected path work values
      end
  | ExportTuple len => let* t := mlift (fun _ => tail values len) in mret (work, t.2 ++ [VTuple t.1])
  | ExportList len => let* t := mlift (fun _ => tail values len) in mret (work, t.2 ++ [VList t.1])
  | ExportDict names =>
      let* t := mlift (fun _ => tail values (length names)) in
      mret (work, t.2 ++ [VDict (btree_collect (zip names t.1))])
  | ExportAdt tag fields =>
      let* t := mlift (fun _ => tail values fields) in mret (work, t.2 ++ [VAdt tag t.1])
  end.

(** [value_from_root]: a value of the heap may be cyclic, so the number of rounds is
    a parameter; [None] is "no answer yet". [export_value] starts it at the root path. *)
Definition value_from_root (fuel : nat) (root : RootedPtr) (expected : ty) (path : ConversionPath) (sc : RootScope)
  : option (exec Value * RootScope) :=
  match work_loop export_step fuel [ExportConvert root expected path] [] sc with
  | Some (Ok values, sc) => Some (single "heap-to-value" values, sc)
  | Some (Err e, sc) => Some (Err e, sc)
  | None => None
  end.

Definition export_value (fuel : nat) (root : RootedPtr) (expected : ty) (sc : RootScope)
  : option (exec Value * RootScope) := value_from_root fuel root expected path_root sc.
End conversions.

(** * The type of a heap value: [infer_cell_type] of [heap.rs] *)

Section infer.
Context (pointer_type : InternalPtr -> fueled fault ty).

Fixpoint infer_all (elems : list InternalPtr) : fueled fault (list ty) :=
  match elems with
  | [] => fret []
  | p :: elems =>
      let! t := pointer_type p in
      let! ts := infer_all elems in
      fret (t :: ts)
  end.

(** The loops over the elements after the first. *)
Fixpoint infer_rest (elem_ty : ty) (elems : list InternalPtr) : fueled fault ty :=
  match elems with
  | [] => fret elem_ty
  | p :: elems =>
      let! t := pointer_type p in
      if decide (t = elem_ty) then infer_rest elem_ty elems
      else ferr (Raised (NativeType (show_ty elem_ty) (show_ty t)))
  end.
End infer.

Definition unknown_type {A} (what : Symbol) : fueled fault A := ferr (Raised (UnknownType what)).

Definition invalid_slice (what : string) (len start end_ : nat) : fault :=
  Raised (NativeType ("valid " +:+ what +:+ " within len " +:+ pretty len)
            ("start " +:+ pretty start +:+ ", end " +:+ pretty end_)).

Fixpoint infer_cell_type (fuel : nat) (h : Heap) (c : Cell) : fueled fault ty :=
  match fuel with
  | 0 => None
  | S fuel =>
      let pointer_type p := let! c := Some (get_cell_from_pointer h p) in infer_cell_type fuel h c in
      match c with
      | CBool _ => fret (ty_builtin Bool)
      | CU8 _ => fret (ty_builtin U8) | CU16 _ => fret (ty_builtin U16)
      | CU32 _ => fret (ty_builtin U32) | CU64 _ => fret (ty_builtin U64)
      | CI8 _ => fret (ty_builtin I8) | CI16 _ => fret (ty_builtin I16)
      | CI32 _ => fret (ty_builtin I32) | CI64 _ => fret (ty_builtin I64)
      | CF32 _ => fret (ty_builtin F32) | CF64 _ => fret (ty_builtin F64)
      | CChar _ => fret (ty_builtin Char)
      | CString _ => fret (ty_builtin String_)
      | CUuid _ => fret (ty_builtin Uuid)
      | CHash _ => fret (ty_builtin Hash)
      | CDateTime _ => fret (ty_builtin DateTime)
      | CTuple elems => let! tys := infer_all pointer_type elems in fret (TTuple tys)
      | CEmpty => unknown_type "list"
      | CCons head _ => let! elem_ty := pointer_type head in fret (Type_list elem_ty)
      | CListSlice start end_ elements =>
          let! elements_cell := Some (get_cell_from_pointer h elements) in
          match elements_cell with
          | CData elems =>
              if decide (end_ < start \/ length elems < end_) then
                ferr (invalid_slice "list slice" (length elems) start end_)
              else
                match elems !! start with
                | None => unknown_type "list"
                | Some first =>
                    let! elem_ty := pointer_type first in
                    let! _ := infer_rest pointer_type elem_ty (drop (start + 1) (take end_ elems)) in
                    fret (Type_list elem_ty)
                end
          | CBinaryData bytes =>
              if decide (end_ < start \/ length bytes < end_) then
                ferr (invalid_slice "binary list slice" (length bytes) start end_)
              else if decide (start = end_) then unknown_type "list"
              else fret (Type_list (ty_builtin U8))
          | _ => ferr (Raised (backing_error elements_cell))
          end
      | CData _ => unknown_type "data"
      | CBinaryData _ => unknown_type "binary_data"
      | CDict map =>
          match map with
          | [] => unknown_type "dict"
          | (_, first) :: rest =>
              let! elem_ty := pointer_type first in
              let! _ := infer_rest pointer_type elem_ty (List.map snd rest) in
              fret (Type_dict elem_ty)
          end
      | CAdt tag args =>
          match args with
          | [inner] =>
              if decide (tag = "Some") then let! inner := pointer_type inner in fret (Type_option inner)
              else if decide (tag = "Ok" \/ tag = "Err") then unknown_type "result"
              else unknown_type tag
          | [] => if decide (tag = "None") then unknown_type "option" else unknown_type tag
          | _ => unknown_type tag
          end
      | CUninitialized _ => unknown_type "uninitialized"
      | CClosure _ => unknown_type "closure"
      | CNative _ => unknown_type "native"
      | COverloaded _ => unknown_type "overloaded"
      end
  end.

(** [RootScope::infer_type]. A path of pointers longer than the heap has slots runs in
    a circle, and the recursion never ends. *)
Definition infer_type (debug_assertions : bool) (root : RootedPtr) : SM ty :=
  let* c := get_cell_from_rooted_ptr debug_assertions root in
  mlift (fun sc => from_fueled (infer_cell_type (walk_fuel (rs_heap sc)) (rs_heap sc) c)).
