(* ===== verification/ValueSafety.v ===== *)
(** What the conversions between owned values and heap values ([Values]) promise: a
    typing of values that they accept, and the round trip. *)

From S2P Require Import Prelude Span Types BTree Adts Syntax Errors Heap HeapTrace HeapStress HeapCollect.
From S2P Require Import HeapSafety Env Scope Lists Values.

(** * Typing *)

(** Induction over a value and the values inside it. *)
Fixpoint Value_ind' (P : Value -> Prop)
    (Hscalar : forall v, match v with VTuple _ | VList _ | VDict _ | VAdt _ _ => False | _ => True end -> P v)
    (Htuple : forall vs, Forall P vs -> P (VTuple vs)) (Hlist : forall vs, Forall P vs -> P (VList vs))
    (Hdict : forall fs, Forall (fun f => P f.2) fs -> P (VDict fs))
    (Hadt : forall tag vs, Forall P vs -> P (VAdt tag vs)) (v : Value) : P v :=
  let go := Value_ind' P Hscalar Htuple Hlist Hdict Hadt in
  let all := fix all vs : Forall P vs :=
    match vs with [] => Forall_nil_2 _ | v :: vs => Forall_cons_2 _ _ _ (go v) (all vs) end in
  match v with
  | VTuple vs => Htuple vs (all vs)
  | VList vs => Hlist vs (all vs)
  | VDict fs => Hdict fs ((fix fields fs : Forall (fun f => P f.2) fs :=
      match fs with [] => Forall_nil_2 _ | f :: fs => Forall_cons_2 _ _ _ (go f.2) (fields fs) end) fs)
  | VAdt tag vs => Hadt tag vs (all vs)
  | v => Hscalar v I
  end.

(** The cell that holds a scalar. *)
Definition scalar_cell (v : Value) : option Cell :=
  match v with
  | VBool b => Some (CBool b)
  | VU8 n => Some (CU8 n) | VU16 n => Some (CU16 n) | VU32 n => Some (CU32 n) | VU64 n => Some (CU64 n)
  | VI8 n => Some (CI8 n) | VI16 n => Some (CI16 n) | VI32 n => Some (CI32 n) | VI64 n => Some (CI64 n)
  | VF32 n => Some (CF32 n) | VF64 n => Some (CF64 n)
  | VChar c => Some (CChar c)
  | VString s => Some (CString s)
  | VUuid u => Some (CUuid u)
  | VHash h => Some (CHash h)
  | VDateTime n => Some (CDateTime n)
  | _ => None
  end.

Definition scalar_names : list string :=
  ["Bool"; "u8"; "u16"; "u32"; "u64"; "i8"; "i16"; "i32"; "i64"; "f32"; "f64"; "Char"; "String"; "UUID"; "Hash";
   "DateTime"].

(** A type constructor and its arguments that the conversions treat themselves, whatever
    ADT is declared under its name. *)
Definition builtin_shape (name : string) (args : list ty) : bool :=
  match args with
  | [] => bool_decide (name ∈ scalar_names)
  | [_] => bool_decide (name = "List" \/ name = "Dict")
  | _ => false
  end.

Section typing.
Context (types : TypeSystem).

(** [has_type lax T v]: [v] is a value of type [T]. With [lax], constructors of an ADT
    that is declared under the name of a scalar or container type are values of that
    type too. *)
Inductive has_type (lax : bool) : ty -> Value -> Prop :=
  | ht_scalar con v :
      is_Some (scalar_cell v) -> value_type_name v = name_str con -> has_type lax (TCon con) v
  | ht_tuple ts vs : Forall2 (has_type lax) ts vs -> has_type lax (TTuple ts) (VTuple vs)
  | ht_record definitions fields fields' :
      fields' ≡ₚ fields -> Forall2 (fun d f => d.1 = f.1 /\ has_type lax d.2 f.2) definitions fields' ->
      has_type lax (TRecord definitions) (VDict fields)
  | ht_bytes con elem bytes :
      name_str con = "List" -> is_u8_type elem = true -> has_type lax (TApp (TCon con) elem) (VBytes bytes)
  | ht_list con elem vs :
      name_str con = "List" -> is_u8_type elem = false -> Forall (has_type lax elem) vs ->
      has_type lax (TApp (TCon con) elem) (VList vs)
  | ht_dict con elem fields :
      name_str con = "Dict" -> Forall (fun f => has_type lax elem f.2) fields ->
      has_type lax (TApp (TCon con) elem) (VDict fields)
  | ht_adt expected con args adt variant tag vs :
      decompose_type_app expected = (TCon con, args) -> adts types !! name_str con = Some adt ->
      length (adt_params adt) = length args -> find (variant_has_tag tag) (adt_variants adt) = Some variant ->
      Forall2 (has_type lax) (variant_field_types adt variant args) vs ->
      lax || negb (builtin_shape (name_str con) args) = true -> has_type lax expected (VAdt tag vs).
End typing.

(** Dictionaries are maps, and byte vectors are not longer than a [usize]. *)
Inductive value_wf : Value -> Prop :=
  | wf_scalar v : is_Some (scalar_cell v) -> value_wf v
  | wf_tuple vs : Forall value_wf vs -> value_wf (VTuple vs)
  | wf_list vs : Forall value_wf vs -> value_wf (VList vs)
  | wf_bytes bytes : (Z.of_nat (length bytes) <= u64_max)%Z -> value_wf (VBytes bytes)
  | wf_dict fields : btree fields -> Forall (fun f => value_wf f.2) fields -> value_wf (VDict fields)
  | wf_adt tag vs : Forall value_wf vs -> value_wf (VAdt tag vs).

(** The value with the tags that the heap keeps: without module paths. *)
Fixpoint local_tags (v : Value) : Value :=
  match v with
  | VTuple vs => VTuple (map local_tags vs)
  | VList vs => VList (map local_tags vs)
  | VDict fields => VDict (map (fun f => (f.1, local_tags f.2)) fields)
  | VAdt tag vs => VAdt (local_name tag) (map local_tags vs)
  | v => v
  end.

(** The number of cells a value takes. *)
Fixpoint value_cells (v : Value) : nat :=
  match v with
  | VTuple vs | VAdt _ vs => 1 + sum_list_with value_cells vs
  | VList vs => 2 + sum_list_with value_cells vs
  | VDict fields => 1 + sum_list_with (fun f => value_cells f.2) fields
  | VBytes _ => 2
  | _ => 1
  end.

(** * Values on the heap *)

Definition is_byte (h : Heap) (e : ListElement) (n : Z) : Prop :=
  match e with LPtr p => cell_at h p = Some (CU8 n) | LU8 m => m = n end.

(** The heap object at [p] is the value [v], in any layout of its lists. *)
Inductive value_repr (h : Heap) : InternalPtr -> Value -> Prop :=
  | vr_scalar p v c : scalar_cell v = Some c -> cell_at h p = Some c -> value_repr h p v
  | vr_tuple p ps vs : cell_at h p = Some (CTuple ps) -> Forall2 (value_repr h) ps vs -> value_repr h p (VTuple vs)
  | vr_list p ps vs : list_repr h p (map LPtr ps) -> Forall2 (value_repr h) ps vs -> value_repr h p (VList vs)
  | vr_bytes p es bytes : list_repr h p es -> Forall2 (is_byte h) es bytes -> value_repr h p (VBytes bytes)
  | vr_dict p ps fields :
      cell_at h p = Some (CDict ps) -> Forall2 (fun q f => q.1 = f.1 /\ value_repr h q.2 f.2) ps fields ->
      value_repr h p (VDict fields)
  | vr_adt p tag ps vs : cell_at h p = Some (CAdt tag ps) -> Forall2 (value_repr h) ps vs -> value_repr h p (VAdt tag vs).

Definition is_value (h : Heap) (r : RootedPtr) (v : Value) : Prop :=
  exists p, live_root h r p /\ value_repr h p v.

Lemma Forall_Forall2_impl {A B} (P Q : A -> B -> Prop) (l : list B) (k : list A) :
  Forall (fun b => forall a, P a b -> Q a b) l -> Forall2 P k l -> Forall2 Q k l.
Proof.
  intros Hl H. revert Hl. induction H as [|a b k l Hab _ IH]; intros Hl; [constructor|].
  apply Forall_cons in Hl as [Hb Hl]. constructor; auto.
Qed.

Lemma value_repr_extends h h' p v : extends h h' -> value_repr h p v -> value_repr h' p v.
Proof.
  intros Hext. revert p. induction v as [v Hv|vs IH|vs IH|fs IH|tag vs IH] using Value_ind'; intros p H.
  - inversion H as [? ? c Hs Hc| | |? es bytes Hes Hb| |]; subst; try done.
    + apply (vr_scalar _ _ _ c); [done|]. by apply (ext_cells _ _ Hext).
    + apply (vr_bytes _ _ es); [by eapply list_repr_extends|]. apply (Forall2_impl _ _ _ _ Hb).
      intros [q|m] n; simpl; [apply (ext_cells _ _ Hext)|done].
  - inversion H as [| ? ps ? Hc Hps| | | |]; subst; [done|]. apply (vr_tuple _ _ ps); [by apply (ext_cells _ _ Hext)|].
    by eapply Forall_Forall2_impl.
  - inversion H as [| |? ps ? Hc Hps| | |]; subst; [done|].
    apply (vr_list _ _ ps); [by eapply list_repr_extends|]. by eapply Forall_Forall2_impl.
  - inversion H as [| | | |? ps ? Hc Hps|]; subst; [done|]. apply (vr_dict _ _ ps); [by apply (ext_cells _ _ Hext)|].
    eapply Forall_Forall2_impl; [|exact Hps]. apply (Forall_impl _ _ _ IH). naive_solver.
  - inversion H as [| | | | |? ? ps ? Hc Hps]; subst; [done|]. apply (vr_adt _ _ _ ps); [by apply (ext_cells _ _ Hext)|].
    by eapply Forall_Forall2_impl.
Qed.

Lemma is_value_extends h h' r v : extends h h' -> is_value h r v -> is_value h' r v.
Proof.
  intros Hext (p & Hr & Hv). exists p. split; [by apply (ext_roots _ _ Hext)|by eapply value_repr_extends].
Qed.

Lemma is_values_extends h h' rs vs : extends h h' -> Forall2 (is_value h) rs vs -> Forall2 (is_value h') rs vs.
Proof. intros Hext H. apply (Forall2_impl _ _ _ _ H). intros r v. by apply is_value_extends. Qed.

(** Tokens of values are tokens of pointers to values. *)
Lemma is_values_pointers h rs vs : Forall2 (is_value h) rs vs ->
  exists ps, Forall2 (live_root h) rs ps /\ Forall2 (value_repr h) ps vs.
Proof.
  induction 1 as [|r v rs vs (p & Hr & Hp) _ (ps & H1 & H2)]; [by exists []|].
  exists (p :: ps). split; by constructor.
Qed.

(** * Runs of a loop over work *)

Section runs.
Context {W V : Type} (step : W -> list W -> list V -> SM (list W * list V)).

Definition runs (work : list W) (values : list V) (sc : RootScope) (res : exec (list V) * RootScope) : Prop :=
  exists fuel, work_loop step fuel work values sc = Some res.

Lemma runs_done values sc : runs [] values sc (Ok values, sc).
Proof using. by exists 0. Qed.

Lemma runs_step item work values sc work' values' sc' res :
  step item work values sc = (Ok (work', values'), sc') -> runs work' values' sc' res -> runs (item :: work) values sc res.
Proof using. intros Hs [fuel Hf]. exists (S fuel). simpl. by rewrite Hs. Qed.

Lemma runs_error item work values sc e sc' :
  step item work values sc = (Err e, sc') -> runs (item :: work) values sc (Err e, sc').
Proof using. intros Hs. exists 1. simpl. by rewrite Hs. Qed.

Lemma work_loop_mono fuel fuel' work values sc res :
  work_loop step fuel work values sc = Some res -> fuel <= fuel' -> work_loop step fuel' work values sc = Some res.
Proof using.
  revert fuel' work values sc. induction fuel as [|fuel IH]; intros fuel' [|item work] values sc; simpl; try done.
  - by destruct fuel'.
  - by destruct fuel'.
  - destruct fuel' as [|fuel']; [lia|]. simpl. destruct (step item work values sc) as [[[w v]|e] sc']; [|done].
    intros H Hle. apply (IH fuel'); [done|lia].
Qed.

(** Work with a positive measure that every round decreases ends. *)
Lemma work_loop_ends (size : W -> nat) :
  (forall item, 1 <= size item) ->
  (forall item work values sc work' values' sc', step item work values sc = (Ok (work', values'), sc') ->
     sum_list_with size work' < sum_list_with size (item :: work)) ->
  forall fuel work values sc, sum_list_with size work <= fuel -> is_Some (work_loop step fuel work values sc).
Proof using.
  intros Hpos Hdec fuel. induction fuel as [|fuel IH]; intros [|item work] values sc Hle; simpl; eauto.
  - exfalso. specialize (Hpos item). simpl in Hle. lia.
  - destruct (step item work values sc) as [[[w v]|e] sc'] eqn:Hs; [|eauto].
    apply Hdec in Hs. apply IH. lia.
Qed.
End runs.

(** What the operations of a conversion leave: a scope in order, whose heap has only
    grown, by at most [n] cells. *)
Definition grown (sc sc' : RootScope) (n : nat) : Prop :=
  scope_ok sc' /\ extends (rs_heap sc) (rs_heap sc') /\
  length (slots (rs_heap sc')) <= length (slots (rs_heap sc)) + n.

Lemma grown_refl sc : scope_ok sc -> grown sc sc 0.
Proof. intros. split_and!; [done|done|lia]. Qed.

Lemma grown_trans sc1 sc2 sc3 n m : grown sc1 sc2 n -> grown sc2 sc3 m -> grown sc1 sc3 (n + m).
Proof. intros (_ & H1 & H2) (H3 & H4 & H5). split_and!; [done|by etrans|lia]. Qed.

Lemma grown_room sc sc' n m : grown sc sc' n -> room sc (n + m) -> room sc' m.
Proof. intros (_ & _ & H). unfold room. lia. Qed.

Lemma leads_grown {A} (m : SM A) sc n (Q : A -> Heap -> Prop) :
  leads_to m sc n Q -> exists a sc', m sc = (Ok a, sc') /\ grown sc sc' n /\ Q a (rs_heap sc').
Proof. intros (a & sc' & H1 & H2 & H3 & H4 & H5). by exists a, sc'. Qed.

Lemma take_tail_app {V} underflow (xs ys : list V) n :
  n = length ys -> take_tail underflow (xs ++ ys) n = Ok (ys, xs).
Proof.
  intros ->. unfold take_tail. rewrite length_app, decide_False by lia.
  replace (length xs + length ys - length ys) with (length xs) by lia. by rewrite drop_app_length, take_app_length.
Qed.

Lemma Forall2_const {A B} (P : A -> B -> Prop) x (l : list B) :
  Forall2 P (replicate (length l) x) l <-> Forall (P x) l.
Proof.
  induction l as [|y l IH]; simpl; [split; constructor|]. rewrite Forall_cons, <- IH.
  split; [intros H; by inversion H|by intros []; constructor].
Qed.

(** * Import *)

Section import.
Context (debug : bool) (types : TypeSystem).

Abbreviation import_step := (import_step debug types).

Definition import_size (item : ImportWork) : nat :=
  match item with ImportConvert v _ _ => import_rounds v | _ => 1 end.

Lemma mthen_Ok_inv {S A B} (m : ST S A) (k : A -> ST S B) s b s' :
  mthen m k s = (Ok b, s') -> exists a s1, m s = (Ok a, s1) /\ k a s1 = (Ok b, s').
Proof using. unfold mthen. destruct (m s) as [[a|e] s1]; [eauto|done]. Qed.

Lemma import_items_size path segment vs ts :
  sum_list_with import_size (import_items path segment vs ts) <= sum_list_with import_rounds vs.
Proof using.
  unfold import_items. revert ts segment. induction vs as [|v vs IH]; intros [|t ts] segment; simpl; try lia.
  specialize (IH ts (segment ∘ S)). unfold compose in *. simpl in *. lia.
Qed.

Lemma import_fields_size path fs :
  sum_list_with import_size (import_fields path fs) = sum_list_with (fun f => import_rounds f.1.2) fs.
Proof using. induction fs as [|f fs IH]; simpl; [done|]. by rewrite IH. Qed.

Lemma import_dict_size path elem (fields : list (string * Value)) :
  sum_list_with import_size (import_fields path (map (fun f => (f, elem)) fields)) =
  sum_list_with (fun f => import_rounds f.2) fields.
Proof using. induction fields as [|f fs IH]; simpl; [done|]. by rewrite IH. Qed.

Lemma take_fields_perm path fields definitions children :
  length fields = length definitions -> take_fields path fields definitions = Ok children ->
  map fst children ≡ₚ fields /\ map (fun c => (c.1.1, c.2)) children = definitions.
Proof using.
  revert fields children. induction definitions as [|[name t] definitions IH]; intros fields children; simpl.
  - destruct fields; [|done]. by intros _ [= <-].
  - destruct (btree_remove name fields) as [[v rest]|] eqn:Hr; [|done].
    apply btree_remove_perm in Hr. intros Hlen (cs & Hcs & [= <-])%rbind_Ok.
    apply IH in Hcs as [Hp Hd]; [|rewrite Hr in Hlen; simpl in Hlen; lia]. simpl. by rewrite Hr, Hp, Hd.
Qed.

Lemma sum_list_perm {A} (f : A -> nat) l k : l ≡ₚ k -> sum_list_with f l = sum_list_with f k.
Proof using. induction 1; simpl; lia. Qed.

Lemma import_rounds_pos v : 1 <= import_rounds v.
Proof using. destruct v; simpl; lia. Qed.

Ltac step_inv :=
  repeat match goal with
  | H : mthen _ _ _ = (Ok _, _) |- _ => apply mthen_Ok_inv in H as (? & ? & ? & H)
  | H : mret _ _ = (Ok _, _) |- _ => injection H as ? ?; subst
  | H : mlift _ _ = (Ok _, _) |- _ => unfold mlift in H; first [discriminate H | injection H as ? ?; subst]
  | H : conversion_error _ _ _ = Ok _ |- _ => discriminate H
  | H : raise _ = Ok _ |- _ => discriminate H
  | H : context [if decide ?P then _ else _] |- _ => destruct (decide P)
  | H : context [if ?b && ?c then _ else _] |- _ => destruct (b && c)
  | H : rbind _ _ = Ok _ |- _ => apply rbind_Ok in H as (? & ? & H)
  end.

Lemma import_step_decreases item work roots sc work' roots' sc' :
  import_step item work roots sc = (Ok (work', roots'), sc') ->
  sum_list_with import_size work' < sum_list_with import_size (item :: work).
Proof using.
  assert (Hadt : forall name args tag fields expected path work work',
    import_adt types name args tag fields expected path work = Ok work' ->
    sum_list_with import_size work' < 2 + sum_list_with import_rounds fields + sum_list_with import_size work).
  { intros name args tag fields expected path w w'. unfold import_adt.
    destruct (resolve_adt_variant types name args tag path) as [[[adt variant] field_types]|]; simpl; [|done].
    case_decide; [|done]. intros [= <-]. rewrite sum_list_with_app. simpl.
    pose proof (import_items_size path (fun index => "." +:+ local_name (variant_name variant) +:+ index_segment index) fields field_types). lia. }
  destruct item as [value expected path|len|len|names|tag fields]; intros H;
    [|simpl in H |- *; step_inv; lia..].
  change (sum_list_with import_size (ImportConvert value expected path :: work))
    with (import_rounds value + sum_list_with import_size work).
  assert (Hcon : import_con debug types value expected path work roots sc = (Ok (work', roots'), sc') ->
            sum_list_with import_size work' < import_rounds value + sum_list_with import_size work).
  { clear H. unfold import_con. destruct (decompose_type_app expected) as [head args].
    intros H. destruct head; try discriminate H.
    destruct (import_scalar debug (name_str c) value) as [alloc|] eqn:Hs; destruct args as [|elem [|? ?]];
      destruct value; try discriminate Hs; step_inv;
      try (eapply Nat.lt_le_trans; [by eapply Hadt|simpl; lia]); simpl; try lia; rewrite sum_list_with_app; simpl.
    all: first [rewrite import_dict_size; lia
               |pose proof (import_items_size path index_segment items (replicate (length items) elem)); lia]. }
  destruct expected; simpl in H; [step_inv|by apply Hcon|by apply Hcon|step_inv|..].
  - destruct value; step_inv. rewrite sum_list_with_app. simpl.
    pose proof (import_items_size path index_segment items elems). lia.
  - destruct value; step_inv. rewrite sum_list_with_app. simpl. rewrite import_fields_size.
    match goal with H : take_fields _ _ _ = _ |- _ => apply take_fields_perm in H as [Hp _]; [|done] end.
    rewrite <- (sum_list_perm _ _ _ Hp), sum_list_with_map. simpl. lia.
Qed.

(** The number of rounds of [value_into_root] is enough. *)
Lemma import_terminates v T path sc : is_Some (work_loop import_step (import_rounds v) [ImportConvert v T path] [] sc).
Proof using.
  apply (work_loop_ends import_step import_size).
  - intros [value| | | |]; simpl; [apply import_rounds_pos|lia..].
  - intros *. apply import_step_decreases.
  - simpl. lia.
Qed.

Definition is_conversion_error (e : EngineError) : Prop :=
  exists path expected got, e = ValueConversion path expected got.

(** What importing [v] does: it pushes a token of the value, or it fails, as [v] has
    the type or not. *)
Definition import_outcome (v : Value) (T : ty) path work roots sc : Prop :=
  (has_type types true T v /\ exists r sc', grown sc sc' (value_cells v) /\
     is_value (rs_heap sc') r (local_tags v) /\
     forall res, runs import_step work (roots ++ [r]) sc' res ->
                 runs import_step (ImportConvert v T path :: work) roots sc res) \/
  (~ has_type types true T v /\ exists e sc', is_conversion_error e /\
     runs import_step (ImportConvert v T path :: work) roots sc (Err (Raised e), sc')).

Definition imports_value (v : Value) : Prop := forall T path work roots sc,
  scope_ok sc -> room sc (value_cells v) -> value_wf v -> import_outcome v T path work roots sc.

Abbreviation child := (Value * ty * ConversionPath)%type.
Definition converts (cs : list child) : list ImportWork := map (fun c => ImportConvert c.1.1 c.1.2 c.2) cs.
Abbreviation child_typed := (fun c : child => has_type types true c.1.2 c.1.1).
Abbreviation children_cells := (sum_list_with (fun c : child => value_cells c.1.1)).

Lemma imports_children (cs : list child) work roots sc :
  Forall (fun c => imports_value c.1.1) cs -> scope_ok sc -> room sc (children_cells cs) ->
  Forall (fun c => value_wf c.1.1) cs ->
  (Forall child_typed cs /\ exists rs sc', grown sc sc' (children_cells cs) /\
     Forall2 (is_value (rs_heap sc')) rs (map (fun c => local_tags c.1.1) cs) /\
     forall res, runs import_step work (roots ++ rs) sc' res ->
                 runs import_step (converts cs ++ work) roots sc res) \/
  (~ Forall child_typed cs /\ exists e sc', is_conversion_error e /\
     runs import_step (converts cs ++ work) roots sc (Err (Raised e), sc')).
Proof using.
  revert roots sc. induction cs as [|[[v T] path] cs IH]; intros roots sc Hcs Hok Hroom Hwf.
  - left. split; [constructor|]. exists [], sc. split_and!; [by apply grown_refl|constructor|].
    intros res. by rewrite app_nil_r.
  - apply Forall_cons in Hcs as [Hv Hcs], Hwf as [Hwv Hwf]. simpl in Hroom, Hv, Hwv |- *.
    destruct (Hv T path (converts cs ++ work) roots sc Hok) as [(Ht & r & sc1 & Hg & Hr & Hrun)|(Hn & e & sc1 & He & Hrun)];
      [unfold room in *; lia|done|..].
    + destruct (IH (roots ++ [r]) sc1 Hcs (proj1 Hg)) as [(Hts & rs & sc2 & Hg2 & Hrs & Hrun2)|(Hns & e & sc2 & He & Hrun2)];
        [by eapply grown_room|done|..].
      * left. split; [by constructor|]. exists (r :: rs), sc2. split_and!.
        -- by eapply grown_trans.
        -- constructor; [|done]. eapply is_value_extends; [apply Hg2|done].
        -- intros res Hres. apply Hrun, Hrun2. by rewrite <- app_assoc.
      * right. split; [by intros [_ ?]%Forall_cons|]. exists e, sc2. split; [done|]. by apply Hrun.
    + right. split; [by intros [? _]%Forall_cons|]. by exists e, sc1.
Qed.

(** A composite value: its step pushes the children and a marker, which collects
    their tokens. *)
Lemma imports_node v T path marker (cs : list child) k work roots sc :
  scope_ok sc -> room sc (value_cells v) -> value_cells v = children_cells cs + k ->
  Forall (fun c => imports_value c.1.1) cs -> Forall (fun c => value_wf c.1.1) cs ->
  (has_type types true T v <-> Forall child_typed cs) ->
  import_step (ImportConvert v T path) work roots sc = (Ok (converts cs ++ marker :: work, roots), sc) ->
  (forall rs sc1, scope_ok sc1 -> room sc1 k ->
     Forall2 (is_value (rs_heap sc1)) rs (map (fun c => local_tags c.1.1) cs) ->
     exists r sc2, import_step marker work (roots ++ rs) sc1 = (Ok (work, roots ++ [r]), sc2) /\ grown sc1 sc2 k /\
       is_value (rs_heap sc2) r (local_tags v)) ->
  import_outcome v T path work roots sc.
Proof using.
  intros Hok Hroom Hcells Hcs Hwf Ht Hstep Hmarker. unfold import_outcome. rewrite Hcells in *.
  destruct (imports_children cs (marker :: work) roots sc Hcs Hok) as [(Hts & rs & sc1 & Hg & Hrs & Hrun)|(Hn & e & sc1 & He & Hrun)];
    [unfold room in *; lia|done|..].
  - left. split; [by apply Ht|].
    destruct (Hmarker rs sc1 (proj1 Hg)) as (r & sc2 & Hm & Hg2 & Hr); [by eapply grown_room|done|].
    exists r, sc2. split_and!; [by eapply grown_trans|done|].
    intros res Hres. eapply runs_step; [exact Hstep|]. apply Hrun. by eapply runs_step.
  - right. split; [by rewrite Ht|]. exists e, sc1. split; [done|]. eapply runs_step; [exact Hstep|exact Hrun].
Qed.

Lemma import_scalar_spec name v : is_Some (scalar_cell v) ->
  exists c, scalar_cell v = Some c /\
    import_scalar debug name v = if decide (name = value_type_name v) then Some (scope_alloc debug c) else None.
Proof using. intros [c Hc]. destruct v; simplify_eq/=; eauto. Qed.

Lemma decompose_loop_length t acc : length acc <= length (decompose_loop t acc).2.
Proof using.
  revert acc. induction t using ty_ind'; intros acc; simpl; try lia.
  specialize (IHt1 (t2 :: acc)). simpl in IHt1. lia.
Qed.

(** A step that fails where there is no typing. *)
Lemma imports_error v T path work roots sc :
  ~ has_type types true T v ->
  (exists e, is_conversion_error e /\ import_step (ImportConvert v T path) work roots sc = (Err (Raised e), sc)) ->
  import_outcome v T path work roots sc.
Proof using. intros Ht (e & He & Hs). right. split; [done|]. exists e, sc. split; [done|]. by apply runs_error. Qed.

Ltac fails := eexists; split; [by do 3 eexists|reflexivity].

Lemma imports_scalar v : is_Some (scalar_cell v) -> imports_value v.
Proof using.
  intros Hv T path work roots sc Hok Hroom _.
  assert (Hcells : value_cells v = 1) by (destruct Hv as [c Hc]; by destruct v). rewrite Hcells in Hroom.
  assert (Hlocal : local_tags v = v) by (destruct Hv as [c Hc]; by destruct v).
  destruct (decide (T = TCon (match T with TCon c => c | _ => Builtin U8 end) /\
                    match T with TCon c => name_str c | _ => "" end = value_type_name v)) as [[HT Hname]|Hne].
  - destruct T as [|con| | | |]; try done. left. rewrite Hcells. split; [by apply ht_scalar|].
    destruct (import_scalar_spec (name_str con) v Hv) as (c & Hc & Hs). rewrite decide_True in Hs by done.
    destruct (leads_grown _ _ _ _ (scope_alloc_leads debug sc c Hok ltac:(by destruct v; simplify_eq/=; constructor) Hroom))
      as (r & sc' & Ha & Hg & p & Hr & Hp).
    exists r, sc'. split_and!; [done|rewrite Hlocal; exists p; split; [done|by eapply vr_scalar]|].
    intros res. apply runs_step. simpl. unfold import_con. simpl. rewrite Hs. unfold mthen. by rewrite Ha.
  - assert (Hn : ~ has_type types true T v).
    { intros Ht. apply Hne. inversion Ht; subst; by destruct Hv. }
    assert (He : exists e, is_conversion_error e /\ import_step (ImportConvert v T path) work roots sc = (Err (Raised e), sc)).
    { destruct (import_scalar_spec "" v Hv) as (c & Hc & _).
      assert (Hcon : (forall con, T = TCon con -> name_str con <> value_type_name v) ->
                exists e, is_conversion_error e /\ import_con debug types v T path work roots sc = (Err (Raised e), sc)).
      { intros Hneq. unfold import_con. destruct (decompose_type_app T) as [head args] eqn:Hd.
        assert (Hargs : args = [] -> T = head).
        { unfold decompose_type_app in Hd. destruct T; simpl in Hd; try (by injection Hd).
          intros ->. pose proof (decompose_loop_length T1 [T2]) as Hl. rewrite Hd in Hl. simpl in Hl. lia. }
        destruct head as [|con| | | |]; try fails.
        destruct (import_scalar_spec (name_str con) v Hv) as (? & _ & ->).
        destruct args as [|? ?]; [rewrite decide_False by (by apply Hneq, Hargs)|];
          destruct v; simplify_eq/=; try case_decide; fails. }
      destruct T as [tv|con|f a|a b|ts|fs]; simpl;
        try fails.
      - apply Hcon. intros con' [= <-] Heq. by apply Hne.
      - apply Hcon. done.
      - destruct v; simplify_eq/=; fails.
      - destruct v; simplify_eq/=; fails. }
    by apply imports_error.
Qed.

(** ** Children of composites *)

Definition item_children (path : ConversionPath) (segment : nat -> string) (vs : list Value) (ts : list ty) : list child :=
  imap (fun index it => (it.1, it.2, path_child path (segment index))) (zip vs ts).

Lemma item_children_converts path segment vs ts :
  import_items path segment vs ts = converts (item_children path segment vs ts).
Proof using. unfold import_items, converts, item_children. by rewrite fmap_imap. Qed.

Lemma item_children_fst path segment vs ts : map fst (item_children path segment vs ts) = zip vs ts.
Proof using.
  unfold item_children. revert segment ts. induction vs as [|v vs IH]; intros segment [|t ts]; simpl; try done.
  f_equal. apply (IH (segment ∘ S)).
Qed.

(** The facts that [imports_node] needs about children in line with values and types. *)
Lemma aligned_children (cs : list child) vs ts : map fst cs = zip vs ts -> length vs = length ts ->
  (Forall child_typed cs <-> Forall2 (has_type types true) ts vs) /\
  children_cells cs = sum_list_with value_cells vs /\
  map (fun c => local_tags c.1.1) cs = map local_tags vs /\
  (Forall imports_value vs -> Forall (fun c : child => imports_value c.1.1) cs) /\
  (Forall value_wf vs -> Forall (fun c : child => value_wf c.1.1) cs) /\ length cs = length vs.
Proof using.
  intros Hcs Hlen. revert vs ts Hcs Hlen.
  induction cs as [|[[v t] path] cs IH]; intros [|w vs] [|u ts] Hcs Hlen; try discriminate Hcs; try discriminate Hlen.
  - split_and!; try done; try (split; constructor); constructor.
  - simpl in *. injection Hcs as -> -> Hcs. destruct (IH vs ts Hcs) as (H1 & H2 & H3 & H4 & H5 & H6); [lia|].
    rewrite H2, H3, H6, !Forall_cons, H1. split_and!; try done.
    + split; [by intros []; constructor|intros H; by inversion H].
    + intros [? ?]. split; auto.
    + intros [? ?]. split; auto.
Qed.

Lemma marker_step {A} (alloc : list RootedPtr -> SM A) (mk : A -> RootedPtr) roots rs (work : list ImportWork) n sc sc' a :
  n = length rs -> alloc rs sc = (Ok a, sc') ->
  (let* t := mlift (fun _ => take_tail (V := RootedPtr) "value-to-heap conversion stack underflow" (roots ++ rs) n) in
   let* root := alloc t.1 in mret (work, t.2 ++ [mk root])) sc = (Ok (work, roots ++ [mk a]), sc').
Proof using. intros -> Ha. unfold mthen, mlift. rewrite take_tail_app by done. simpl. by rewrite Ha. Qed.

Lemma import_con_composite v T path work roots sc :
  match v with VTuple _ => True | _ => False end ->
  exists e, is_conversion_error e /\ import_con debug types v T path work roots sc = (Err (Raised e), sc).
Proof using.
  intros Hv. unfold import_con. destruct v; try done.
  destruct (decompose_type_app T) as [[] args]; (destruct args; fails).
Qed.

Lemma imports_tuple vs : Forall imports_value vs -> imports_value (VTuple vs).
Proof using.
  intros IH T path work roots sc Hok Hroom Hwf.
  assert (Hwf' : Forall value_wf vs) by (inversion Hwf as [? [c Hc]| | | | |]; [done|by subst]).
  assert (Hn : forall T, match T with TTuple _ => False | _ => True end -> ~ has_type types true T (VTuple vs)).
  { intros U HU Ht. inversion Ht as [? ? [c Hc]| | | | | |]; by subst. }
  destruct T as [tv|con|f a|a b|ts|fs].
  1,4,6: apply imports_error; [by apply Hn|fails].
  1,2: apply imports_error; [by apply Hn|by apply import_con_composite].
  destruct (decide (length vs = length ts)) as [Hlen|Hlen].
  - destruct (aligned_children _ vs ts (item_children_fst path index_segment vs ts) Hlen) as (H1 & H2 & H3 & H4 & H5 & H6).
    eapply (imports_node _ _ _ (ImportTuple (length vs)) (item_children path index_segment vs ts) 1);
      [done|done| |by apply H4|by apply H5| | |].
    + simpl. lia.
    + rewrite H1. split; [intros Ht; inversion Ht as [? ? [c Hc]| | | | | |]; by subst|by apply ht_tuple].
    + simpl. rewrite decide_True by done. by rewrite item_children_converts.
    + intros rs sc1 Hok1 Hroom1 Hrs. rewrite H3 in Hrs.
      destruct (is_values_pointers _ _ _ Hrs) as (ps & Hps & Hvs).
      destruct (leads_grown _ _ _ _ (alloc_tuple_leads debug sc1 rs ps Hok1 Hroom1 Hps)) as (r & sc2 & Ha & Hg & p & Hr & Hp).
      exists r, sc2. split_and!; [|done|].
      * eapply (marker_step _ (fun r => r)); [by rewrite (Forall2_length _ _ _ Hrs), length_map|done].
      * exists p. split; [done|]. apply (vr_tuple _ _ ps); [done|]. apply (Forall2_impl _ _ _ _ Hvs).
        intros q v. by apply value_repr_extends, Hg.
  - apply imports_error; [|simpl; rewrite decide_False by done; fails].
    intros Ht. inversion Ht as [? ? [c Hc]|? ? Hts| | | | |]; subst. by apply Hlen, eq_sym, (Forall2_length _ _ _ Hts).
Qed.

(** The types that the conversions look into: constructors with no, one or more
    arguments. *)
Lemma decompose_view T :
  (exists con, T = TCon con) \/ (exists con elem, T = TApp (TCon con) elem) \/
  (forall con args, decompose_type_app T = (TCon con, args) -> 2 <= length args).
Proof using.
  destruct T as [tv|con|f a|a b|ts|fs]; [by right; right|by left; eexists| |by right; right..].
  destruct f as [tv|con|f b|? ?|?|?]; try by right; right. { right; left. eauto. }
  right; right. intros con args Hd. pose proof (decompose_loop_length f [b; a]) as Hl.
  unfold decompose_type_app in Hd. simpl in Hd. rewrite Hd in Hl. done.
Qed.

Lemma import_con_container v T path work roots sc :
  match v with VBytes _ | VList _ | VDict _ => True | _ => False end ->
  ~ (exists con elem, T = TApp (TCon con) elem) ->
  exists e, is_conversion_error e /\ import_con debug types v T path work roots sc = (Err (Raised e), sc).
Proof using.
  intros Hv HT. destruct (decompose_view T) as [(con & ->)|[?|Hd]]; [|done|].
  - unfold import_con. simpl. destruct v; try done; fails.
  - unfold import_con. destruct (decompose_type_app T) as [head args]. destruct head as [|con| | | |]; try fails.
    specialize (Hd con args eq_refl). destruct args as [|x [|y args]]; simpl in Hd; [lia|lia|].
    destruct v; try done; fails.
Qed.

Lemma imports_bytes bytes : imports_value (VBytes bytes).
Proof using.
  intros T path work roots sc Hok Hroom _.
  assert (Herr : (forall con elem, T = TApp (TCon con) elem ->
             bool_decide (name_str con = "List") && is_u8_type elem = false) ->
           import_outcome (VBytes bytes) T path work roots sc).
  { intros HT. apply imports_error.
    - intros Ht. inversion Ht as [? ? [c Hc]| | |con elem ? Hname Hu| | |]; subst; [done|].
      specialize (HT con elem eq_refl). by rewrite Hu, bool_decide_eq_true_2 in HT.
    - destruct T as [tv|con|f a|a b|ts|fs]; try fails.
      destruct f as [tv|con|f b|? ?|?|?]; try (apply import_con_container; [done|by intros (? & ? & ?)]).
      specialize (HT con a eq_refl). simpl. unfold import_con. simpl. rewrite HT. fails. }
  destruct T as [tv|con|f a|a b|ts|fs]; try (apply Herr; by intros).
  destruct f as [tv|con|f b|? ?|?|?]; try (apply Herr; by intros).
  destruct (bool_decide (name_str con = "List") && is_u8_type a) eqn:Hb.
  2:{ apply Herr. by intros ? ? [= <- <-]. }
  left. pose proof Hb as [Hname%bool_decide_eq_true_1 Hu]%andb_true_iff. split; [by apply ht_bytes|].
  destruct (leads_grown _ _ _ _ (alloc_binary_list_leads debug sc bytes Hok Hroom)) as (r & sc' & Ha & Hg & p & Hr & Hp).
  exists r, sc'. split_and!; [done| |].
  - exists p. split; [done|]. eapply vr_bytes; [done|]. apply Forall2_fmap_l, Forall_Forall2_diag. by apply Forall_true.
  - intros res. apply runs_step. simpl. unfold import_con. simpl. rewrite Hb. unfold mthen. by rewrite Ha.
Qed.

Lemma imports_list vs : Forall imports_value vs -> imports_value (VList vs).
Proof using.
  intros IH T path work roots sc Hok Hroom Hwf.
  assert (Hwf' : Forall value_wf vs) by (inversion Hwf as [? [c Hc]| | | | |]; [done|by subst]).
  assert (Herr : (forall con elem, T = TApp (TCon con) elem ->
             bool_decide (name_str con = "List") && negb (is_u8_type elem) = false) ->
           import_outcome (VList vs) T path work roots sc).
  { intros HT. apply imports_error.
    - intros Ht. inversion Ht as [? ? [c Hc]| | | |con elem ? Hname Hu| |]; subst; [done|].
      specialize (HT con elem eq_refl). by rewrite Hu, bool_decide_eq_true_2 in HT.
    - destruct T as [tv|con|f a|a b|ts|fs]; try fails.
      destruct f as [tv|con|f b|? ?|?|?]; try (apply import_con_container; [done|by intros (? & ? & ?)]).
      specialize (HT con a eq_refl). simpl. unfold import_con. simpl. rewrite HT. fails. }
  destruct T as [tv|con|f elem|a b|ts|fs]; try (apply Herr; by intros).
  destruct f as [tv|con|f b|? ?|?|?]; try (apply Herr; by intros).
  destruct (bool_decide (name_str con = "List") && negb (is_u8_type elem)) eqn:Hb.
  2:{ apply Herr. by intros ? ? [= <- <-]. }
  pose proof Hb as [Hname%bool_decide_eq_true_1 Hu%negb_true_iff]%andb_true_iff.
  assert (Hlen : length vs = length (replicate (length vs) elem)) by (by rewrite length_replicate).
  destruct (aligned_children _ vs _ (item_children_fst path index_segment vs _) Hlen) as (H1 & H2 & H3 & H4 & H5 & H6).
  eapply (imports_node _ _ _ (ImportList (length vs)) (item_children path index_segment vs (replicate (length vs) elem)) 2);
    [done|done| |by apply H4|by apply H5| | |].
  - simpl. lia.
  - rewrite H1, Forall2_const. split; [|by apply ht_list].
    intros Ht. inversion Ht as [? ? [c Hc]| | | | | |]; by subst.
  - simpl. unfold import_con. simpl. rewrite Hb. by rewrite item_children_converts.
  - intros rs sc1 Hok1 Hroom1 Hrs. rewrite H3 in Hrs.
    destruct (is_values_pointers _ _ _ Hrs) as (ps & Hps & Hvs).
    destruct (leads_grown _ _ _ _ (alloc_list_leads debug sc1 rs ps Hok1 Hroom1 Hps)) as (r & sc2 & Ha & Hg & p & Hr & Hp).
    exists r, sc2. split_and!; [|done|].
    + eapply (marker_step _ (fun r => r)); [by rewrite (Forall2_length _ _ _ Hrs), length_map|done].
    + exists p. split; [done|]. apply (vr_list _ _ ps); [done|]. apply (Forall2_impl _ _ _ _ Hvs).
      intros q v. by apply value_repr_extends, Hg.
Qed.

(** ** Dictionaries *)

Abbreviation same_field R := (fun a b => a.1 = b.1 /\ R a.2 b.2).

Lemma take_fields_typed path fields fields' (definitions : list (Symbol * ty)) :
  NoDup (map fst fields) -> fields' ≡ₚ fields -> map fst definitions = map fst fields' ->
  take_fields path fields definitions = Ok (zip_with (fun d f => (d.1, f.2, d.2)) definitions fields').
Proof using.
  revert fields fields'. induction definitions as [|[name t] definitions IH]; intros fields [|[n v] fields'] Hnd Hp Hn;
    try done.
  simpl in Hn |- *. injection Hn as <- Hn.
  destruct (btree_remove name fields) as [[w rest]|] eqn:Hr.
  - apply btree_remove_perm in Hr. rewrite Hr in Hp, Hnd.
    assert (Hvw : v = w).
    { assert (Hin : (name, v) ∈ (name, w) :: rest) by (rewrite <- Hp; by left).
      apply elem_of_cons in Hin as [[= ->]|Hin]; [done|]. simpl in Hnd. apply NoDup_cons in Hnd as [Hnin _].
      destruct Hnin. apply list_elem_of_fmap. by exists (name, v). }
    subst w. apply (Permutation.Permutation_cons_inv) in Hp. simpl in Hnd. apply NoDup_cons in Hnd as [_ Hnd].
    by rewrite (IH rest fields').
  - exfalso. apply btree_remove_None in Hr. apply Hr. rewrite <- Hp. by left.
Qed.

(** A record is typed when its fields can be taken out in the order of the type and
    have the types. *)
Lemma record_typed path fields definitions :
  btree fields -> length fields = length definitions ->
  has_type types true (TRecord definitions) (VDict fields) <->
  exists children, take_fields path fields definitions = Ok children /\
    Forall (fun c => has_type types true c.2 c.1.2) children.
Proof using.
  intros Hb Hlen. split.
  - intros Ht. inversion Ht as [? ? [c Hc]| |? ? fields' Hp Hf| | | |]; subst.
    rewrite (take_fields_typed path fields fields' definitions); [|by apply btree_NoDup|done|].
    + eexists. split; [done|]. clear Hp Hlen Hb Ht. induction Hf as [|d f ds fs [_ Hdf] _ IH]; simpl; by constructor.
    + clear Hp Hlen Hb Ht. induction Hf as [|d f ds fs [Hdf _] _ IH]; simpl; [done|]. by rewrite Hdf, IH.
  - intros (children & Htake & Hc). apply take_fields_perm in Htake as [Hp Hd]; [|done].
    apply (ht_record _ _ _ _ (map fst children)); [done|]. rewrite <- Hd.
    clear -Hc; induction Hc; simpl; by constructor.
Qed.

Lemma take_fields_error path fields definitions e :
  take_fields path fields definitions = Err e -> exists err, is_conversion_error err /\ e = Raised err.
Proof using.
  revert fields. induction definitions as [|[name t] definitions IH]; intros fields; simpl; [done|].
  destruct (btree_remove name fields) as [[v rest]|]; [|intros [= <-]; eexists; split; [by do 3 eexists|done]].
  destruct (take_fields path rest definitions) eqn:Hr; simpl; [done|]. intros [= ->]. by eapply IH.
Qed.

Lemma Forall2_perm {A B} (R : A -> B -> Prop) l k k' :
  Forall2 R l k -> k ≡ₚ k' -> exists l', l ≡ₚ l' /\ Forall2 R l' k'.
Proof using.
  intros H Hp. revert l H. induction Hp as [|x k k' _ IH|x y k|k1 k2 k3 _ IH1 _ IH2]; intros l H.
  - inversion H; subst. by exists [].
  - inversion H as [|a ? l0 ? Ha Hl]; subst. destruct (IH l0 Hl) as (l' & Hp' & Hl'). exists (a :: l').
    split; [by constructor|by constructor].
  - inversion H as [|a ? l0 ? Ha Hl]; subst. inversion Hl as [|b ? l1 ? Hb Hl1]; subst.
    exists (b :: a :: l1). split; [constructor|]. by repeat constructor.
  - destruct (IH1 l H) as (l1 & Hp1 & Hl1). destruct (IH2 l1 Hl1) as (l2 & Hp2 & Hl2). exists l2. split; [by etrans|done].
Qed.

(** Building a dictionary from tokens of the values of [fields], in some order. *)
Lemma dict_marker names rs (fields fields' : list (string * Value)) (work : list ImportWork) roots sc1 :
  scope_ok sc1 -> room sc1 1 -> btree fields -> fields' ≡ₚ fields -> names = map fst fields' ->
  Forall2 (is_value (rs_heap sc1)) rs (map (fun f => local_tags f.2) fields') ->
  exists r sc2, import_step (ImportDict names) work (roots ++ rs) sc1 = (Ok (work, roots ++ [r]), sc2) /\
    grown sc1 sc2 1 /\ is_value (rs_heap sc2) r (local_tags (VDict fields)).
Proof using.
  intros Hok Hroom Hb Hp -> Hrs.
  assert (Hz : Forall2 (fun a f => a.1 = f.1 /\ is_value (rs_heap sc1) a.2 (local_tags f.2))
                 (zip (map fst fields') rs) fields').
  { clear Hp Hb. revert rs Hrs. induction fields' as [|f fs IH]; intros rs Hrs; inversion Hrs; subst; simpl; constructor; auto. }
  assert (Hlen : length (map fst fields') = length rs) by (by rewrite (Forall2_length _ _ _ Hrs), !length_map).
  destruct (Forall2_perm _ _ _ _ Hz Hp) as (l' & Hl' & Hz').
  assert (Hkeys : map fst l' = map fst fields) by (clear -Hz'; induction Hz' as [|? ? ? ? [Hk _] _ IH]; simpl; congruence).
  assert (Hcollect : btree_collect (zip (map fst fields') rs) = l').
  { apply btree_collect_perm; [|done]. unfold btree. by rewrite Hkeys. }
  assert (Hps : exists ps, Forall2 (fun f p => f.1 = p.1 /\ live_root (rs_heap sc1) f.2 p.2) l' ps /\
            Forall2 (fun q f => q.1 = f.1 /\ value_repr (rs_heap sc1) q.2 f.2) ps (map (fun f => (f.1, local_tags f.2)) fields)).
  { clear -Hz'. induction Hz' as [|a f l fs [Hk (p & Hp & Hv)] _ (ps & H1 & H2)]; [by exists []|].
    exists ((f.1, p) :: ps). split; by constructor. }
  destruct Hps as (ps & Hps & Hvs).
  destruct (leads_grown _ _ _ _ (alloc_dict_leads debug sc1 l' ps Hok Hroom Hps)) as (r & sc2 & Ha & Hg & p & Hr & Hpc).
  exists r, sc2. split_and!; [|done|].
  - eapply (marker_step (fun rs => alloc_root_dict debug (btree_collect (zip (map fst fields') rs))) (fun r => r));
      [done|]. by rewrite Hcollect.
  - exists p. split; [done|]. simpl. apply (vr_dict _ _ ps); [done|]. apply (Forall2_impl _ _ _ _ Hvs).
    intros q v [Hk Hv]. split; [done|]. by eapply value_repr_extends; [apply Hg|].
Qed.

Lemma pair_fst {A B} (b : B) (l : list A) : map fst (map (fun a => (a, b)) l) = l.
Proof using. induction l; simpl; congruence. Qed.

(** Children of a dictionary or a record. *)
Definition field_children (path : ConversionPath) (cs : list (string * Value * ty)) : list child :=
  map (fun c => (c.1.2, c.2, path_child path (field_segment c.1.1))) cs.

Lemma field_children_spec path (cs : list (string * Value * ty)) fields :
  map fst cs ≡ₚ fields ->
  import_fields path cs = converts (field_children path cs) /\
  (Forall child_typed (field_children path cs) <-> Forall (fun c => has_type types true c.2 c.1.2) cs) /\
  children_cells (field_children path cs) = sum_list_with (fun f => value_cells f.2) fields /\
  (Forall (fun f => imports_value f.2) fields -> Forall (fun c : child => imports_value c.1.1) (field_children path cs)) /\
  (Forall (fun f => value_wf f.2) fields -> Forall (fun c : child => value_wf c.1.1) (field_children path cs)) /\
  map (fun c : child => local_tags c.1.1) (field_children path cs) = map (fun f => local_tags f.2) (map fst cs).
Proof using.
  intros Hp. unfold import_fields, converts, field_children. rewrite map_map. rewrite <- (sum_list_perm _ _ _ Hp).
  split_and!; [done|by rewrite Forall_fmap| | | |by rewrite !map_map].
  - clear. induction cs as [|c cs IH]; simpl; congruence.
  - rewrite <- Hp, !Forall_fmap. done.
  - rewrite <- Hp, !Forall_fmap. done.
Qed.

Lemma imports_fields fields (cs : list (string * Value * ty)) names T path work roots sc :
  Forall (fun f => imports_value f.2) fields -> scope_ok sc -> room sc (value_cells (VDict fields)) ->
  value_wf (VDict fields) -> map fst cs ≡ₚ fields -> names = map fst (map fst cs) ->
  (has_type types true T (VDict fields) <-> Forall (fun c => has_type types true c.2 c.1.2) cs) ->
  import_step (ImportConvert (VDict fields) T path) work roots sc =
    (Ok (import_fields path cs ++ ImportDict names :: work, roots), sc) ->
  import_outcome (VDict fields) T path work roots sc.
Proof using.
  intros IH Hok Hroom Hwf Hp -> Ht Hs.
  assert (Hwf' : btree fields /\ Forall (fun f => value_wf f.2) fields)
    by (inversion Hwf as [? [c Hc]| | | | |]; [done|by subst]).
  destruct (field_children_spec path cs fields Hp) as (H1 & H2 & H3 & H4 & H5 & H6).
  eapply (imports_node _ _ _ _ (field_children path cs) 1);
    [done|done|simpl; lia|by apply H4|apply H5, Hwf'|by rewrite H2|by rewrite <- H1|].
  intros rs sc1 Hok1 Hroom1 Hrs. rewrite H6 in Hrs. by eapply dict_marker; [..|apply Hwf'|exact Hp| |].
Qed.

Lemma imports_dict fields : Forall (fun f => imports_value f.2) fields -> imports_value (VDict fields).
Proof using.
  intros IH T path work roots sc Hok Hroom Hwf.
  assert (Hb : btree fields) by (inversion Hwf as [? [c Hc]| | | | |]; [done|by subst]).
  assert (Hcon : (exists con f, T = TApp (TCon con) f /\ name_str con = "Dict") \/
            match T with TCon _ | TApp _ _ => ~ has_type types true T (VDict fields) /\
               exists e, is_conversion_error e /\ import_con debug types (VDict fields) T path work roots sc = (Err (Raised e), sc)
            | _ => True end).
  { destruct T as [tv|con|f elem|a b|ts|fs]; try by right.
    - right. split; [intros Ht; inversion Ht as [? ? [c Hc]| | | | | |]; by subst|].
      apply import_con_container; [done|by intros (? & ? & ?)].
    - assert (Hn : (forall con, f = TCon con -> name_str con <> "Dict") -> ~ has_type types true (TApp f elem) (VDict fields)).
      { intros Hf Ht. inversion Ht as [| | | | |con ? ? Hname|]; subst. by eapply Hf. }
      destruct f as [tv|con|f b|? ?|?|?];
        try (right; split; [by apply Hn|apply import_con_container; [done|by intros (? & ? & ?)]]).
      destruct (decide (name_str con = "Dict")) as [Hname|Hname]; [left; eauto|]. right. split.
      { apply Hn. by intros ? [= <-]. }
      unfold import_con. simpl. rewrite decide_False by done. fails. }
  destruct Hcon as [(con & elem & -> & Hname)|Hcon].
  - eapply (imports_fields fields (map (fun f => (f, elem)) fields) (map fst fields)); try done.
    + by rewrite pair_fst.
    + by rewrite pair_fst.
    + rewrite Forall_fmap. unfold compose. simpl. split; [|by apply ht_dict].
      intros Ht. inversion Ht as [? ? [c Hc]| | | | | |]; by subst.
    + simpl. unfold import_con. simpl. by rewrite decide_True.
  - destruct T as [tv|con|f elem|a b|ts|definitions]; try (apply imports_error; [by apply Hcon|by apply Hcon]);
      try (apply imports_error; [intros Ht; inversion Ht as [? ? [c Hc]| | | | | |]; by subst|fails]).
    clear Hcon. destruct (decide (length fields = length definitions)) as [Hlen|Hlen].
    2:{ apply imports_error; [|simpl; rewrite decide_False by done; fails].
        intros Ht. inversion Ht as [| |? ? fields' Hp Hf| | | |]; subst.
        apply Hlen. by rewrite <- Hp, <- (Forall2_length _ _ _ Hf). }
    pose proof (record_typed path fields definitions Hb Hlen) as Htyped.
    destruct (take_fields path fields definitions) as [children|e] eqn:Htake.
    + pose proof (take_fields_perm _ _ _ _ Hlen Htake) as [Hp Hd].
      eapply (imports_fields fields children (map fst definitions)); try done.
      * rewrite <- Hd, !map_map. done.
      * rewrite Htyped. split; [intros (? & [= <-] & ?); done|]. intros ?. by exists children.
      * simpl. rewrite decide_True by done. unfold mthen, mlift. by rewrite Htake.
    + apply imports_error; [rewrite Htyped; by intros (? & ? & ?)|].
      destruct (take_fields_error _ _ _ _ Htake) as (err & Herr & ->). exists err. split; [done|].
      simpl. rewrite decide_True by done. unfold mthen, mlift. by rewrite Htake.
Qed.

(** ** Constructors *)

Lemma resolve_adt_variant_error name args tag path e :
  resolve_adt_variant types name args tag path = Err e -> exists err, is_conversion_error err /\ e = Raised err.
Proof using.
  unfold resolve_adt_variant. destruct (adts types !! name) as [adt|];
    [|intros [= <-]; eexists; split; [by do 3 eexists|done]].
  case_decide; [|intros [= <-]; eexists; split; [by do 3 eexists|done]].
  destruct (find _ _); [done|intros [= <-]; eexists; split; [by do 3 eexists|done]].
Qed.

Lemma resolve_adt_variant_Ok name args tag path adt variant field_types :
  resolve_adt_variant types name args tag path = Ok (adt, variant, field_types) <->
  adts types !! name = Some adt /\ length (adt_params adt) = length args /\
  find (variant_has_tag tag) (adt_variants adt) = Some variant /\ field_types = variant_field_types adt variant args.
Proof using.
  unfold resolve_adt_variant. destruct (adts types !! name) as [adt'|]; [|split; [done|naive_solver]].
  case_decide; [|split; [done|naive_solver]]. destruct (find _ _) eqn:Hf; split; try done; naive_solver.
Qed.

Lemma variant_tag_local tag variant : variant_has_tag tag variant = true -> local_name (variant_name variant) = local_name tag.
Proof using.
  unfold variant_has_tag. rewrite orb_true_iff, andb_true_iff, negb_true_iff, !bool_decide_eq_true.
  intros [->|[Hd <-]]; [done|]. by rewrite local_name_idemp.
Qed.

(** A constructor at a type: the variant that its tag resolves to and its arguments. *)
Lemma adt_typed lax T con args tag vs :
  decompose_type_app T = (TCon con, args) -> lax || negb (builtin_shape (name_str con) args) = true ->
  has_type types lax T (VAdt tag vs) <->
  exists adt variant field_types, resolve_adt_variant types (name_str con) args tag path_root = Ok (adt, variant, field_types) /\
    Forall2 (has_type types lax) field_types vs.
Proof using.
  intros Hd Hlax. split.
  - intros Ht. inversion Ht as [? ? [c Hc]| | | | | |? con' args' adt variant ? ? Hd' Hadt Hlen Hf Hvs]; subst; [done|].
    rewrite Hd in Hd'. injection Hd' as <- <-. exists adt, variant, (variant_field_types adt variant args).
    split; [|done]. by apply resolve_adt_variant_Ok.
  - intros (adt & variant & field_types & Hr & Hvs). apply resolve_adt_variant_Ok in Hr as (? & ? & ? & ->).
    by eapply ht_adt.
Qed.

Lemma resolve_path name args tag path adt variant field_types :
  resolve_adt_variant types name args tag path = Ok (adt, variant, field_types) <->
  resolve_adt_variant types name args tag path_root = Ok (adt, variant, field_types).
Proof using. by rewrite !resolve_adt_variant_Ok. Qed.

Lemma imports_adt_con tag vs T c args path work roots sc :
  Forall imports_value vs -> Forall value_wf vs -> scope_ok sc -> room sc (value_cells (VAdt tag vs)) ->
  decompose_type_app T = (TCon c, args) ->
  import_step (ImportConvert (VAdt tag vs) T path) work roots sc =
    (let* work := mlift (fun _ => import_adt types (name_str c) args tag vs T path work) in mret (work, roots)) sc ->
  import_outcome (VAdt tag vs) T path work roots sc.
Proof using.
  intros IH Hwf Hok Hroom Hd Hstep. pose proof (adt_typed true T c args tag vs Hd eq_refl) as Htyped.
  unfold mthen, mlift, import_adt in Hstep.
  destruct (resolve_adt_variant types (name_str c) args tag path) as [[[adt variant] field_types]|e] eqn:Hr.
  2:{ destruct (resolve_adt_variant_error _ _ _ _ _ Hr) as (err & Herr & ->). apply imports_error.
      - rewrite Htyped. intros (? & ? & ? & Hr' & _). by rewrite <- (resolve_path _ _ _ path), Hr in Hr'.
      - exists err. split; [done|]. by rewrite Hstep. }
  apply resolve_path in Hr as Hroot.
  assert (Htyped' : has_type types true T (VAdt tag vs) <-> Forall2 (has_type types true) field_types vs).
  { rewrite Htyped. split; [intros (? & ? & ? & Hr' & Hf)|eauto 10]. rewrite Hroot in Hr'. by simplify_eq. }
  cbn beta iota delta [rbind mret] in Hstep. destruct (decide (length vs = length field_types)) as [Hlen|Hlen].
  2:{ apply imports_error; [|rewrite Hstep; fails].
      rewrite Htyped'. intros Hf. by apply Hlen, eq_sym, (Forall2_length _ _ _ Hf). }
  set (segment := fun index => "." +:+ local_name (variant_name variant) +:+ index_segment index) in *.
  destruct (aligned_children _ vs _ (item_children_fst path segment vs _) Hlen) as (H1 & H2 & H3 & H4 & H5 & H6).
  eapply (imports_node _ _ _ (ImportAdt (local_name (variant_name variant)) (length vs))
            (item_children path segment vs field_types) 1);
    [done|done|simpl; lia|by apply H4|by apply H5|by rewrite H1| |].
  { rewrite Hstep. by rewrite item_children_converts. }
  intros rs sc1 Hok1 Hroom1 Hrs. rewrite H3 in Hrs. apply resolve_adt_variant_Ok in Hr as (_ & _ & Hfind & _).
  apply find_some in Hfind as [_ Htag%variant_tag_local].
  destruct (is_values_pointers _ _ _ Hrs) as (ps & Hps & Hvs).
  destruct (leads_grown _ _ _ _ (alloc_adt_leads debug sc1 (local_name (variant_name variant)) rs ps Hok1 Hroom1 Hps))
    as (r & sc2 & Ha & Hg & p & Hr & Hp).
  exists r, sc2. split_and!; [|done|].
  - eapply (marker_step _ (fun r => r)); [by rewrite (Forall2_length _ _ _ Hrs), length_map|done].
  - exists p. split; [done|]. simpl. rewrite <- Htag. apply (vr_adt _ _ _ ps); [done|].
    apply (Forall2_impl _ _ _ _ Hvs). intros q v. by apply value_repr_extends, Hg.
Qed.

Lemma imports_adt tag vs : Forall imports_value vs -> imports_value (VAdt tag vs).
Proof using.
  intros IH T path work roots sc Hok Hroom Hwf.
  assert (Hwf' : Forall value_wf vs) by (inversion Hwf as [? [c Hc]| | | | |]; [done|by subst]).
  destruct (decompose_type_app T) as [head args] eqn:Hd.
  assert (Hhead : (forall con, head <> TCon con) -> ~ has_type types true T (VAdt tag vs)).
  { intros Hh Ht. inversion Ht as [? ? [c Hc]| | | | | |? ? ? ? ? ? ? Hd']; subst; [done|].
    rewrite Hd in Hd'. injection Hd' as -> _. by eapply Hh. }
  assert (Hcon : match T with TCon _ | TApp _ _ => True | _ => False end ->
    import_step (ImportConvert (VAdt tag vs) T path) work roots sc =
      import_con debug types (VAdt tag vs) T path work roots sc) by (by destruct T).
  assert ((exists con, head = TCon con) \/ ~ exists con, head = TCon con) as [[con ->]|Hno]
    by (destruct head; solve [left; eauto|right; by intros [? ?]]).
  - assert (HT : match T with TCon _ | TApp _ _ => True | _ => False end) by (by destruct T; simplify_eq Hd).
    eapply imports_adt_con; [done..|exact Hd|].
    transitivity (import_con debug types (VAdt tag vs) T path work roots sc); [by apply Hcon|]. unfold import_con. rewrite Hd. by destruct args.
  - apply imports_error; [apply Hhead; intros ? ->; by eapply Hno; eexists|].
    assert (Hfail : exists e, is_conversion_error e /\
              import_con debug types (VAdt tag vs) T path work roots sc = (Err (Raised e), sc)).
    { unfold import_con. rewrite Hd. destruct head; try fails. by destruct Hno; eexists. }
    destruct T; try fails; destruct Hfail as (e & He & Hfail); exists e; (split; [done|]);
      (etransitivity; [by apply Hcon|done]).
Qed.

Lemma imports v : imports_value v.
Proof using.
  induction v as [v Hv|vs IH|vs IH|fs IH|tag vs IH] using Value_ind'.
  - destruct v; try done; try (by apply imports_scalar; eexists). apply imports_bytes.
  - by apply imports_tuple.
  - by apply imports_list.
  - by apply imports_dict.
  - by apply imports_adt.
Qed.

Lemma value_into_root_runs v T path sc res :
  runs import_step [ImportConvert v T path] [] sc res ->
  value_into_root debug types v T path sc =
    match res with (Ok roots, sc) => (single "value-to-heap" roots, sc) | (Err e, sc) => (Err e, sc) end.
Proof using.
  intros [fuel Hf]. unfold value_into_root. destruct (import_terminates v T path sc) as [res' Hr].
  rewrite Hr. destruct (decide (fuel <= import_rounds v)) as [Hle|Hle].
  - rewrite (work_loop_mono _ _ _ _ _ _ _ Hf Hle) in Hr. by simplify_eq.
  - rewrite (work_loop_mono _ _ fuel _ _ _ _ Hr ltac:(lia)) in Hf. by simplify_eq.
Qed.

Lemma alloc_value_outcome v T sc : scope_ok sc -> room sc (value_cells v) -> value_wf v ->
  (has_type types true T v /\
   leads_to (alloc_value debug types v T) sc (value_cells v) (fun r h' => is_value h' r (local_tags v))) \/
  (~ has_type types true T v /\ exists e sc', is_conversion_error e /\ alloc_value debug types v T sc = (raise e, sc')).
Proof using.
  intros Hok Hroom Hwf. unfold alloc_value.
  destruct (imports v T path_root [] [] sc Hok Hroom Hwf) as [(Ht & r & sc' & (H1 & H2 & H3) & Hr & Hrun)|(Hn & e & sc' & He & Hrun)].
  - left. split; [done|]. exists r, sc'. split_and!; try done.
    by rewrite (value_into_root_runs _ _ _ _ _ (Hrun _ (runs_done _ _ _))).
  - right. split; [done|]. exists e, sc'. split; [done|]. by rewrite (value_into_root_runs _ _ _ _ _ Hrun).
Qed.
End import.
