(* ===== verification/ValueExport.v ===== *)
(** The other direction of the conversions of [Values]: from the heap to owned values,
    and the round trip of the two. *)

From S2P Require Import Prelude Span Types BTree Adts Syntax Errors Heap HeapTrace HeapStress HeapCollect.
From S2P Require Import HeapSafety Env Scope Lists Values ValueSafety.

(** * Lists of bytes *)

(** A list of bytes reads as its bytes in every layout. *)
Lemma collect_u8_complete h p es : list_repr h p es -> forall bytes, Forall2 (is_byte h) es bytes ->
  exists c fuel, cell_at h p = Some c /\ forall out, collect_u8_loop fuel h c out = Some (Ok (out ++ bytes)).
Proof.
  assert (Hcells : forall ps bytes, Forall2 (is_byte h) (map LPtr ps) bytes -> cells_as_u8 h ps = Ok bytes).
  { induction ps as [|q ps IH]; intros bytes H; inversion H as [|? n ? bs Hq Hr]; subst; [done|]. simpl in Hq |- *.
    rewrite (proj2 (get_cell_from_pointer_Ok _ _ _) Hq). simpl. by rewrite (IH bs). }
  assert (Hbytes : forall bs bytes, Forall2 (is_byte h) (map LU8 bs) bytes -> bs = bytes).
  { induction bs as [|n bs IH]; intros bytes H; inversion H as [|? m ? ms Hn Hr]; subst; [done|].
    simpl in Hn. subst. f_equal. auto. }
  induction 1 as [p Hc|p head tail es Hc _ IH|p s e el values Hc Hel Hb|p s e el bs Hc Hel Hb]; intros bytes Hes.
  - inversion Hes; subst. exists CEmpty, 1. split; [done|]. intros out. simpl. by rewrite app_nil_r.
  - inversion Hes as [|? n ? bs Hn Hr]; subst. destruct (IH bs Hr) as (c & fuel & Ht & Hloop).
    exists (CCons head tail), (S fuel). split; [done|]. intros out. simpl in Hn |- *.
    rewrite (proj2 (get_cell_from_pointer_Ok _ _ _) Hn). simpl.
    rewrite (proj2 (get_cell_from_pointer_Ok _ _ _) Ht). simpl. rewrite Hloop. by rewrite <- app_assoc.
  - exists (CListSlice s e el), 1. split; [done|]. intros out. simpl.
    rewrite (proj2 (get_cell_from_pointer_Ok _ _ _) Hel). simpl. rewrite (proj2 (validate_Ok _ _ _) Hb). simpl.
    fold (slice values s e). by rewrite (Hcells _ _ Hes).
  - exists (CListSlice s e el), 1. split; [done|]. intros out. simpl.
    rewrite (proj2 (get_cell_from_pointer_Ok _ _ _) Hel). simpl. rewrite (proj2 (validate_Ok _ _ _) Hb). simpl.
    fold (slice bs s e). by rewrite (Hbytes _ _ Hes).
Qed.

Lemma collect_u8_mono fuel fuel' h c out r :
  collect_u8_loop fuel h c out = Some r -> fuel <= fuel' -> collect_u8_loop fuel' h c out = Some r.
Proof.
  revert fuel' c out. induction fuel as [|fuel IH]; intros [|fuel'] c out; try done; [lia|].
  intros H Hle. destruct c; try exact H. simpl in *.
  destruct (get_cell_from_pointer h head) as [d|]; simpl in *; [|done].
  destruct (cell_as_u8 d); simpl in *; [|done].
  destruct (get_cell_from_pointer h tail); simpl in *; [|done]. apply IH; [done|lia].
Qed.

Lemma collect_u8_None fuel h c out : collect_u8_loop fuel h c out = None -> is_Some (tail_cell h fuel c).
Proof.
  revert c out. induction fuel as [|fuel IH]; intros c out; simpl; [by eauto|].
  destruct c; simpl; try done.
  destruct (get_cell_from_pointer h head) as [d|]; simpl; [|done]. destruct (cell_as_u8 d); simpl; [|done].
  pose proof (get_cell_from_pointer_match h tail) as Hm.
  destruct (get_cell_from_pointer h tail) as [t|]; rewrite Hm; simpl; [apply IH|done].
Qed.

Lemma collect_bytes h p es bytes :
  list_repr h p es -> Forall2 (is_byte h) es bytes -> (Z.of_nat (length bytes) <= u64_max)%Z ->
  collect_list_u8 h p = Ok bytes.
Proof.
  intros Hes Hb Hlen. unfold collect_list_u8.
  rewrite (list_len_spec h p es) by (rewrite ?(Forall2_length _ _ _ Hb); done). cbn [rbind].
  destruct (collect_u8_complete _ _ _ Hes _ Hb) as (c & fuel & Hc & Hloop).
  rewrite (proj2 (get_cell_from_pointer_Ok _ _ _) Hc). cbn [rbind].
  destruct (collect_u8_loop (walk_fuel h) h c []) as [r|] eqn:Hw; cbn [from_fueled].
  - destruct (decide (fuel <= walk_fuel h)).
    + rewrite (collect_u8_mono _ _ _ _ _ _ (Hloop [])) in Hw by done. by simplify_eq.
    + specialize (Hloop []). rewrite (collect_u8_mono _ fuel _ _ _ _ Hw) in Hloop by lia. by simplify_eq.
  - exfalso. apply collect_u8_None in Hw. apply elements_loop_complete in Hes as (d & f & Hd & Hf).
    simplify_eq. apply (long_walk_forever h d f), elements_loop_None with (out := []) in Hw. by rewrite Hf in Hw.
Qed.

(** * Reading composites *)

Section read.
Context (debug : bool).

Lemma mapM_root_grown sc p c ps :
  scope_ok sc -> room sc 0 -> safe (rs_heap sc) p -> cell_at (rs_heap sc) p = Some c -> pointers c = ps ->
  exists rs sc', mapM_st (root debug) ps sc = (Ok rs, sc') /\ grown sc sc' 0 /\ Forall2 (live_root (rs_heap sc')) rs ps.
Proof using.
  intros Hok Hroom Hp Hc Hps. destruct (leads_grown _ _ _ _ (root_all_leads debug sc ps Hok Hroom
    (proj2 (Forall_forall _ _) (fun q Hq => child_safe _ _ _ q Hp Hc (eq_ind_r (fun l => q ∈ l) Hq Hps))))) as (rs & sc' & H).
  by exists rs, sc'.
Qed.

Lemma root_as_eq {A} (as_ : Cell -> exec A) sc r p c a :
  live_root (rs_heap sc) r p -> cell_at (rs_heap sc) p = Some c -> as_ c = Ok a -> root_as debug as_ r sc = (Ok a, sc).
Proof using.
  intros Hr Hc Ha. unfold root_as, get_cell_from_rooted_ptr, pointer, mthen, mlift.
  rewrite (resolve_spec _ _ r p) by done. rewrite (proj2 (get_cell_from_pointer_Ok _ _ _) Hc). by rewrite Ha.
Qed.

Lemma read_tuple sc r p ps :
  scope_ok sc -> room sc 0 -> live_root (rs_heap sc) r p -> cell_at (rs_heap sc) p = Some (CTuple ps) ->
  exists rs sc', root_as_tuple debug r sc = (Ok rs, sc') /\ grown sc sc' 0 /\ Forall2 (live_root (rs_heap sc')) rs ps.
Proof using.
  intros Hok Hroom Hr Hc.
  destruct (mapM_root_grown sc p _ ps Hok Hroom (live_root_safe _ _ _ (so_inv _ Hok) Hr) Hc eq_refl) as (rs & sc' & Hm & H).
  exists rs, sc'. split; [|done]. unfold root_as_tuple, mthen. by rewrite (root_as_eq _ sc r p _ ps Hr Hc).
Qed.

Lemma read_adt sc r p tag ps :
  scope_ok sc -> room sc 0 -> live_root (rs_heap sc) r p -> cell_at (rs_heap sc) p = Some (CAdt tag ps) ->
  exists rs sc', root_as_adt debug r sc = (Ok (tag, rs), sc') /\ grown sc sc' 0 /\ Forall2 (live_root (rs_heap sc')) rs ps.
Proof using.
  intros Hok Hroom Hr Hc.
  destruct (mapM_root_grown sc p _ ps Hok Hroom (live_root_safe _ _ _ (so_inv _ Hok) Hr) Hc eq_refl) as (rs & sc' & Hm & H).
  exists rs, sc'. split; [|done]. unfold root_as_adt, mthen. rewrite (root_as_eq _ sc r p _ (tag, ps) Hr Hc) by done.
  simpl. by rewrite Hm.
Qed.

Lemma read_dict sc r p ps :
  scope_ok sc -> room sc 0 -> live_root (rs_heap sc) r p -> cell_at (rs_heap sc) p = Some (CDict ps) ->
  exists rs sc', root_as_dict debug r sc = (Ok rs, sc') /\ grown sc sc' 0 /\
    Forall2 (fun r f => r.1 = f.1 /\ live_root (rs_heap sc') r.2 f.2) rs ps.
Proof using.
  intros Hok Hroom Hr Hc.
  assert (Hsafe : Forall (safe (rs_heap sc)) (map snd ps)).
  { apply Forall_forall. intros q Hq. eapply child_safe; [|exact Hc|exact Hq].
    exact (live_root_safe _ _ _ (so_inv _ Hok) Hr). }
  destruct (leads_grown _ _ _ _ (root_fields_leads debug sc ps Hok Hroom Hsafe)) as (rs & sc' & Hm & H).
  exists rs, sc'. split; [|done]. unfold root_as_dict, mthen. by rewrite (root_as_eq _ sc r p _ ps Hr Hc).
Qed.

Lemma place_pointers ps rs sc : length rs = length ps -> place_elements debug (map LPtr ps) rs sc = (Ok rs, sc).
Proof using.
  revert rs. induction ps as [|p ps IH]; intros [|r rs] Hlen; try discriminate Hlen; [done|]. simpl in *.
  unfold mthen. by rewrite IH by lia.
Qed.

Lemma read_list sc r p ps :
  scope_ok sc -> room sc 0 -> live_root (rs_heap sc) r p -> list_repr (rs_heap sc) p (map LPtr ps) ->
  exists rs sc', root_as_list debug r sc = (Ok rs, sc') /\ grown sc sc' 0 /\ Forall2 (live_root (rs_heap sc')) rs ps.
Proof using.
  intros Hok Hroom Hr Hes.
  assert (Hps : element_pointers (map LPtr ps) = ps) by (clear; induction ps; simpl; congruence).
  pose proof (list_repr_safe _ _ _ Hes (live_root_safe _ _ _ (so_inv _ Hok) Hr)) as Hsafe. rewrite Hps in Hsafe.
  destruct (leads_grown _ _ _ _ (root_all_leads debug sc ps Hok Hroom Hsafe)) as (rs & sc' & Hm & Hg & Hrs).
  exists rs, sc'. split; [|done]. unfold root_as_list, mthen, pointer, mlift.
  rewrite (resolve_spec _ _ r p) by done. rewrite (proj2 (list_elements_spec _ _ _) Hes).
  unfold materialize_list_elements, mthen. rewrite Hps, Hm. by apply place_pointers, (Forall2_length _ _ _ Hrs).
Qed.
End read.

(** * Export *)

Section export.
Context (debug : bool) (types : TypeSystem).

Abbreviation export_step := (export_step debug types).

(** A value as the heap keeps it: without the module paths of tags. *)
Definition exportable (v : Value) : Prop := value_wf v /\ local_tags v = v.

(** What exporting [v] does: it pushes the value. *)
Definition exports_value (v : Value) : Prop := forall T path work values sc r,
  scope_ok sc -> room sc 0 -> exportable v -> has_type types false T v -> is_value (rs_heap sc) r v ->
  exists sc', grown sc sc' 0 /\
    forall res, runs export_step work (values ++ [v]) sc' res ->
                runs export_step (ExportConvert r T path :: work) values sc res.

Abbreviation xchild := (RootedPtr * ty * ConversionPath)%type.
Definition xconverts (cs : list xchild) : list ExportWork := map (fun c => ExportConvert c.1.1 c.1.2 c.2) cs.
Definition ready (h : Heap) (c : xchild) (v : Value) : Prop :=
  is_value h c.1.1 v /\ has_type types false c.1.2 v.

Lemma exports_children cs vs work values sc :
  Forall exports_value vs -> Forall exportable vs -> scope_ok sc -> room sc 0 -> Forall2 (ready (rs_heap sc)) cs vs ->
  exists sc', grown sc sc' 0 /\
    forall res, runs export_step work (values ++ vs) sc' res -> runs export_step (xconverts cs ++ work) values sc res.
Proof using.
  revert cs values sc. induction vs as [|v vs IH]; intros cs values sc Hvs Hex Hok Hroom Hcs.
  - apply Forall2_nil_inv_r in Hcs as ->. exists sc. split; [by apply grown_refl|]. intros res. by rewrite app_nil_r.
  - apply Forall2_cons_inv_r in Hcs as ([[r T] path] & cs' & [Hr HT] & Hcs & ->).
    apply Forall_cons in Hvs as [Hv Hvs], Hex as [Hev Hex].
    destruct (Hv T path (xconverts cs' ++ work) values sc r Hok Hroom Hev HT Hr) as (sc1 & Hg1 & Hrun1).
    destruct (IH cs' (values ++ [v]) sc1 Hvs Hex (proj1 Hg1)) as (sc2 & Hg2 & Hrun2).
    + by eapply (grown_room _ _ 0 0).
    + apply (Forall2_impl _ _ _ _ Hcs). intros c w [Hc Ht]. split; [|done]. eapply is_value_extends; [apply Hg1|done].
    + exists sc2. split; [by eapply (grown_trans _ _ _ 0 0)|]. intros res Hres. apply Hrun1, Hrun2.
      by rewrite <- app_assoc.
Qed.

(** A composite value: its step reads the children and pushes them with a marker. *)
Lemma exports_node v T path r marker cs vs work values sc sc1 :
  scope_ok sc -> room sc 0 -> grown sc sc1 0 ->
  Forall exports_value vs -> Forall exportable vs -> Forall2 (ready (rs_heap sc1)) cs vs ->
  export_step (ExportConvert r T path) work values sc = (Ok (xconverts cs ++ marker :: work, values), sc1) ->
  (forall sc, export_step marker work (values ++ vs) sc = (Ok (work, values ++ [v]), sc)) ->
  exists sc', grown sc sc' 0 /\
    forall res, runs export_step work (values ++ [v]) sc' res ->
                runs export_step (ExportConvert r T path :: work) values sc res.
Proof using.
  intros Hok Hroom Hg Hvs Hex Hcs Hstep Hmarker.
  destruct (exports_children cs vs (marker :: work) values sc1 Hvs Hex (proj1 Hg)) as (sc2 & Hg2 & Hrun);
    [by eapply (grown_room _ _ 0 0)|done|].
  exists sc2. split; [by eapply (grown_trans _ _ _ 0 0)|]. intros res Hres.
  eapply runs_step; [exact Hstep|]. apply Hrun. by eapply runs_step.
Qed.

Lemma is_values_intro h rs ps vs :
  Forall2 (live_root h) rs ps -> Forall2 (value_repr h) ps vs -> Forall2 (is_value h) rs vs.
Proof using.
  intros Hr. revert vs. induction Hr as [|r p rs ps Hr _ IH]; intros vs Hv; inversion Hv; subst; constructor; auto.
  by exists p.
Qed.

Definition item_xchildren (path : ConversionPath) (segment : nat -> string) (rs : list RootedPtr) (ts : list ty)
  : list xchild := imap (fun index it => (it.1, it.2, path_child path (segment index))) (zip rs ts).

Lemma item_xchildren_converts path segment rs ts :
  export_items path segment rs ts = xconverts (item_xchildren path segment rs ts).
Proof using. unfold export_items, xconverts, item_xchildren. by rewrite fmap_imap. Qed.

Lemma items_ready h path segment rs ts vs :
  Forall2 (is_value h) rs vs -> Forall2 (has_type types false) ts vs ->
  Forall2 (ready h) (item_xchildren path segment rs ts) vs.
Proof using.
  intros Hrs. unfold item_xchildren. revert segment ts. induction Hrs as [|r v rs vs Hr _ IH]; intros segment ts Hts.
  - apply Forall2_nil_inv_r in Hts as ->. constructor.
  - apply Forall2_cons_inv_r in Hts as (t & ts' & Ht & Hts & ->). simpl. constructor; [done|].
    apply (IH (segment ∘ S)), Hts.
Qed.

Lemma export_marker (mk : list Value -> Value) (v : Value) (values vs : list Value) (work : list ExportWork) n sc :
  n = length vs -> mk vs = v ->
  (let* t := mlift (fun _ => take_tail (V := Value) "heap-to-value conversion stack underflow" (values ++ vs) n) in
   mret (work, t.2 ++ [mk t.1]) : SM (list ExportWork * list Value)) sc = (Ok (work, values ++ [v]), sc).
Proof using. intros -> <-. unfold mthen, mlift. by rewrite take_tail_app. Qed.

Lemma export_scalar_spec v r : is_Some (scalar_cell v) ->
  exists read, export_scalar debug (value_type_name v) r = Some read /\
    forall sc p c, scalar_cell v = Some c -> live_root (rs_heap sc) r p -> cell_at (rs_heap sc) p = Some c ->
      read sc = (Ok v, sc).
Proof using.
  intros [c Hc]. destruct v; simplify_eq/=; (eexists; split; [reflexivity|]); intros sc p c' [= <-] Hr Hp;
    unfold root_as_bool, root_as_u8, root_as_u16, root_as_u32, root_as_u64, root_as_i8, root_as_i16, root_as_i32,
      root_as_i64, root_as_f32, root_as_f64, root_as_char, root_as_string, root_as_uuid, root_as_hash, root_as_datetime;
    unfold mthen; erewrite root_as_eq by done; done.
Qed.

Lemma exports_scalar v : is_Some (scalar_cell v) -> exports_value v.
Proof using.
  intros Hv T path work values sc r Hok Hroom _ HT (p & Hr & Hp). exists sc. split; [by apply grown_refl|].
  intros res. apply runs_step. inversion HT as [con ? _ Hname| | | | | |]; subst; try by destruct Hv.
  inversion Hp as [? ? c Hc Hcell| | | | |]; subst; try by destruct Hv.
  destruct (export_scalar_spec v r Hv) as (read & Hread & Hspec).
  simpl. unfold export_con. simpl. rewrite <- Hname, Hread.
  unfold mthen at 1. unfold or_else. by rewrite (Hspec sc p c).
Qed.

Lemma exports_bytes bytes : exports_value (VBytes bytes).
Proof using.
  intros T path work values sc r Hok Hroom [Hwf _] HT (p & Hr & Hp). exists sc. split; [by apply grown_refl|].
  intros res. apply runs_step. inversion HT as [? ? [c Hc]| | |con elem ? Hname Hu| | |]; subst; [done|].
  inversion Hwf as [? [c Hc]| | | | |]; subst; [done|].
  inversion Hp as [? ? c Hc| | |? es ? Hes Hb| |]; subst; [done|].
  simpl. unfold export_con. simpl. rewrite decide_True, Hu by done.
  unfold mthen at 1. unfold or_else, root_as_binary_list, mthen, pointer, mlift.
  rewrite (resolve_spec _ _ r p) by done. by rewrite (collect_bytes _ _ es bytes).
Qed.

(** The children of a composite in line with their types. *)
Lemma exportable_all vs : Forall value_wf vs -> map local_tags vs = vs -> Forall exportable vs.
Proof using.
  induction 1 as [|v vs Hv _ IH]; simpl; [constructor|]. intros [= Hl Hls]. constructor; [by split|auto].
Qed.

Lemma exports_tuple vs : Forall exports_value vs -> exports_value (VTuple vs).
Proof using.
  intros IH T path work values sc r Hok Hroom [Hwf Hl] HT (p & Hr & Hp).
  inversion HT as [? ? [c Hc]|ts ? Hts| | | | |]; subst; [done|].
  inversion Hwf as [? [c Hc]| | | | |]; subst; [done|]. injection Hl as Hl.
  inversion Hp as [? ? c Hc|? ps ? Hcell Hps| | | |]; subst; [done|].
  destruct (read_tuple debug sc r p ps Hok Hroom Hr Hcell) as (rs & sc1 & Hread & Hg & Hrs).
  assert (Hvs : Forall2 (is_value (rs_heap sc1)) rs vs).
  { eapply is_values_intro; [done|]. apply (Forall2_impl _ _ _ _ Hps). intros ? ?. by apply value_repr_extends, Hg. }
  eapply (exports_node _ _ _ _ (ExportTuple (length rs)) (item_xchildren path index_segment rs ts));
    [done|done|exact Hg|exact IH|by apply exportable_all|by apply items_ready| |].
  - simpl. unfold mthen at 1. unfold or_else. rewrite Hread.
    rewrite decide_True by (rewrite (Forall2_length _ _ _ Hvs); by rewrite (Forall2_length _ _ _ Hts)).
    by rewrite item_xchildren_converts.
  - intros sc'. apply (export_marker VTuple); [by apply (Forall2_length _ _ _ Hvs)|done].
Qed.

Lemma exports_list vs : Forall exports_value vs -> exports_value (VList vs).
Proof using.
  intros IH T path work values sc r Hok Hroom [Hwf Hl] HT (p & Hr & Hp).
  inversion HT as [? ? [c Hc]| | | |con elem ? Hname Hu Hts| |]; subst; [done|].
  inversion Hwf as [? [c Hc]| | | | |]; subst; [done|]. injection Hl as Hl.
  inversion Hp as [? ? c Hc| |? ps ? Hes Hps| | |]; subst; [done|].
  destruct (read_list debug sc r p ps Hok Hroom Hr Hes) as (rs & sc1 & Hread & Hg & Hrs).
  assert (Hvs : Forall2 (is_value (rs_heap sc1)) rs vs).
  { eapply is_values_intro; [done|]. apply (Forall2_impl _ _ _ _ Hps). intros ? ?. by apply value_repr_extends, Hg. }
  pose proof (Forall2_length _ _ _ Hvs) as Hlen.
  eapply (exports_node _ _ _ _ (ExportList (length rs)) (item_xchildren path index_segment rs (replicate (length rs) elem)));
    [done|done|exact Hg|exact IH|by apply exportable_all| | |].
  - apply items_ready; [done|]. by rewrite Hlen, Forall2_const.
  - simpl. unfold export_con. simpl. rewrite decide_True, Hu by done. unfold mthen at 1. unfold or_else. rewrite Hread.
    by rewrite item_xchildren_converts.
  - intros sc'. by apply (export_marker VList).
Qed.

(** ** Dictionaries and records *)

Abbreviation is_field h := (fun (r : string * RootedPtr) (f : string * Value) => r.1 = f.1 /\ is_value h r.2 f.2).

Lemma read_fields sc r p ps fields :
  scope_ok sc -> room sc 0 -> live_root (rs_heap sc) r p -> cell_at (rs_heap sc) p = Some (CDict ps) ->
  Forall2 (fun q f => q.1 = f.1 /\ value_repr (rs_heap sc) q.2 f.2) ps fields ->
  exists rs sc', root_as_dict debug r sc = (Ok rs, sc') /\ grown sc sc' 0 /\ Forall2 (is_field (rs_heap sc')) rs fields.
Proof using.
  intros Hok Hroom Hr Hcell Hps.
  destruct (read_dict debug sc r p ps Hok Hroom Hr Hcell) as (rs & sc1 & Hread & Hg & Hrs).
  exists rs, sc1. split_and!; [done|done|]. clear -Hg Hps Hrs. revert rs Hrs.
  induction Hps as [|q f ps fs [Hk Hv] _ IH]; intros rs Hrs.
  - apply Forall2_nil_inv_r in Hrs as ->. constructor.
  - apply Forall2_cons_inv_r in Hrs as (x & rs' & [Hx Hlx] & Hrs & ->). constructor; [|by apply IH].
    split; [congruence|]. exists q.2. split; [done|]. by eapply value_repr_extends; [apply Hg|].
Qed.

Lemma fields_keys h rs fields : Forall2 (is_field h) rs fields -> map fst rs = map fst fields.
Proof using. induction 1 as [|? ? ? ? [Hk _] _ IH]; simpl; congruence. Qed.

Lemma dict_export_marker names (fields fields' : list (string * Value)) values (work : list ExportWork) sc :
  btree fields -> fields' ≡ₚ fields -> names = map fst fields' ->
  export_step (ExportDict names) work (values ++ map snd fields') sc = (Ok (work, values ++ [VDict fields]), sc).
Proof using.
  intros Hb Hp ->. apply (export_marker (fun vs => VDict (btree_collect (zip (map fst fields') vs)))).
  - by rewrite !length_map.
  - assert (Hz : zip (map fst fields') (map snd fields') = fields').
    { clear. induction fields' as [|[k v] l IH]; simpl; congruence. }
    by rewrite Hz, (btree_collect_perm fields).
Qed.

Lemma dict_exportable (fields : list (string * Value)) :
  Forall (fun f => value_wf f.2) fields -> map (fun f => (f.1, local_tags f.2)) fields = fields ->
  Forall (fun f => exportable f.2) fields.
Proof using.
  induction 1 as [|[k v] fields Hv _ IH]; simpl; [constructor|]. intros [= Hl Hls]. constructor; [by split|auto].
Qed.

Lemma field_lookup h rs (fields : list (string * Value)) f :
  Forall2 (is_field h) rs fields -> NoDup (map fst fields) -> f ∈ fields ->
  exists r, btree_get rs f.1 = Some r /\ is_value h r f.2.
Proof using.
  intros Hrs Hnd Hf. apply list_elem_of_lookup_1 in Hf as [i Hi].
  destruct (Forall2_lookup_r _ _ _ _ _ Hrs Hi) as ([k r] & Hir & Hk & Hr). simpl in Hk, Hr. subst k.
  exists r. split; [|done]. apply btree_get_elem; [by rewrite (fields_keys _ _ _ Hrs)|].
  by eapply list_elem_of_lookup_2.
Qed.

Lemma push_fields_ready h path rs fields fields' definitions work :
  Forall2 (is_field h) rs fields -> NoDup (map fst fields) -> (forall f, f ∈ fields' -> f ∈ fields) ->
  Forall2 (fun d f => d.1 = f.1 /\ has_type types false d.2 f.2) definitions fields' ->
  exists cs, push_fields path rs definitions work = Ok (xconverts cs ++ work) /\ Forall2 (ready h) cs (map snd fields').
Proof using.
  intros Hrs Hnd Hin Hd. revert Hin.
  induction Hd as [|[name t] f definitions fields' [Hn Ht] _ IH]; intros Hin; [by exists []|].
  destruct IH as (cs & Hcs & Hready); [intros g Hg; apply Hin; by right|].
  destruct (field_lookup h rs fields f Hrs Hnd) as (r & Hget & Hr); [apply Hin; by left|].
  simpl in Hn, Ht |- *. subst name. rewrite Hcs. simpl. rewrite Hget.
  exists ((r, t, path_child path (field_segment f.1)) :: cs). split; [done|]. by constructor.
Qed.

Lemma exports_dict fields : Forall (fun f => exports_value f.2) fields -> exports_value (VDict fields).
Proof using.
  intros IH T path work values sc r Hok Hroom [Hwf Hl] HT (p & Hr & Hp).
  inversion Hwf as [? [c Hc]| | | |? Hb Hwfs|]; subst; [done|]. injection Hl as Hl.
  inversion Hp as [? ? c Hc| | | |? ps ? Hcell Hps|]; subst; [done|].
  destruct (read_fields sc r p ps fields Hok Hroom Hr Hcell Hps) as (rs & sc1 & Hread & Hg & Hrs).
  pose proof (dict_exportable _ Hwfs Hl) as Hex.
  inversion HT as [? ? [c Hc]| |definitions ? fields' Hperm Hd| | |con elem ? Hname Hts|]; subst; [done|..].
  - destruct (push_fields_ready _ path rs fields fields' definitions (ExportDict (map fst definitions) :: work) Hrs
                (btree_NoDup _ Hb)) as (cs & Hpush & Hready);
      [intros f; by rewrite Hperm|done|].
    eapply (exports_node _ _ _ _ (ExportDict (map fst definitions)) cs (map snd fields'));
      [done|done|exact Hg| | |exact Hready| |].
    + apply Forall_fmap. by rewrite Hperm.
    + apply Forall_fmap. by rewrite Hperm.
    + simpl. unfold mthen at 1. unfold or_else. rewrite Hread.
      rewrite decide_True by (by rewrite (Forall2_length _ _ _ Hrs), <- Hperm, (Forall2_length _ _ _ Hd)).
      unfold mthen, mlift. by rewrite Hpush.
    + intros sc'. apply dict_export_marker; [done|done|].
      clear -Hd. induction Hd as [|? ? ? ? [Hk _] _ IHd]; simpl; congruence.
  - eapply (exports_node _ _ _ _ (ExportDict (map fst rs))
              (map (fun f => (f.2, elem, path_child path (field_segment f.1))) rs) (map snd fields));
      [done|done|exact Hg|by apply Forall_fmap|by apply Forall_fmap| | |].
    + clear -Hrs Hts. revert Hts. induction Hrs as [|x f rs fs [Hk Hv] _ IHr]; intros Hts; simpl; [constructor|].
      apply Forall_cons in Hts as [Ht Hts]. constructor; [done|auto].
    + simpl. unfold export_con. simpl. rewrite decide_False, decide_True by (by rewrite Hname).
      unfold mthen at 1. unfold or_else. rewrite Hread. unfold xconverts. by rewrite map_map.
    + intros sc'. apply dict_export_marker; [done|done|]. by apply (fields_keys _ _ _ Hrs).
Qed.

(** ** Constructors *)

Lemma export_scalar_other name r : name ∉ scalar_names -> export_scalar debug name r = None.
Proof using.
  intros Hn. unfold export_scalar. repeat (case_decide; [exfalso; apply Hn; subst; unfold scalar_names; set_solver|]).
  done.
Qed.

Lemma export_con_adt T con args path work values sc r :
  decompose_type_app T = (TCon con, args) -> builtin_shape (name_str con) args = false ->
  export_step (ExportConvert r T path) work values sc =
  export_adt debug types (name_str con) args r T path work values sc.
Proof using.
  intros Hd Hshape.
  transitivity (export_con debug types r T path work values sc); [by destruct T; simplify_eq Hd|].
  unfold export_con. rewrite Hd. destruct args as [|a [|b args]]; simpl in Hshape.
  - apply bool_decide_eq_false_1 in Hshape. by rewrite export_scalar_other.
  - apply bool_decide_eq_false_1 in Hshape. rewrite !decide_False by tauto. done.
  - done.
Qed.

Lemma exports_adt tag vs : Forall exports_value vs -> exports_value (VAdt tag vs).
Proof using.
  intros IH T path work values sc r Hok Hroom [Hwf Hl] HT (p & Hr & Hp).
  inversion Hwf as [? [c Hc]| | | | |]; subst; [done|]. injection Hl as Htag Hl.
  inversion HT as [? ? [c Hc]| | | | | |? con args adt variant ? ? Hd Hadt Hlen Hfind Hts Hshape]; subst; [done|].
  apply negb_true_iff in Hshape.
  inversion Hp as [? ? c Hc| | | | |? ? ps ? Hcell Hps]; subst; [done|].
  destruct (read_adt debug sc r p tag ps Hok Hroom Hr Hcell) as (rs & sc1 & Hread & Hg & Hrs).
  assert (Hvs : Forall2 (is_value (rs_heap sc1)) rs vs).
  { eapply is_values_intro; [done|]. apply (Forall2_impl _ _ _ _ Hps). intros ? ?. by apply value_repr_extends, Hg. }
  assert (Hlocal : local_name (variant_name variant) = tag).
  { apply find_some in Hfind as [_ Hv%variant_tag_local]. by rewrite Hv. }
  set (segment := fun index => "." +:+ tag +:+ index_segment index).
  eapply (exports_node _ _ _ _ (ExportAdt tag (length rs)) (item_xchildren path segment rs (variant_field_types adt variant args)));
    [done|done|exact Hg|exact IH|by apply exportable_all|by apply items_ready| |].
  - etransitivity; [by apply export_con_adt|]. unfold export_adt, mthen at 1. unfold or_else. rewrite Hread.
    unfold mthen, mlift.
    rewrite (proj2 (resolve_adt_variant_Ok types (name_str con) args tag path adt variant _)) by done.
    rewrite decide_True by (by rewrite (Forall2_length _ _ _ Hvs), (Forall2_length _ _ _ Hts)).
    rewrite Hlocal. by rewrite item_xchildren_converts.
  - intros sc'. apply (export_marker (VAdt tag)); [by apply (Forall2_length _ _ _ Hvs)|done].
Qed.

Lemma exports v : exports_value v.
Proof using.
  induction v as [v Hv|vs IH|vs IH|fs IH|tag vs IH] using Value_ind'.
  - destruct v; try done; try (by apply exports_scalar; eexists). apply exports_bytes.
  - by apply exports_tuple.
  - by apply exports_list.
  - by apply exports_dict.
  - by apply exports_adt.
Qed.

(** Exporting a value's object gives the value. *)
Lemma export_value_spec v T sc r :
  scope_ok sc -> room sc 0 -> exportable v -> has_type types false T v -> is_value (rs_heap sc) r v ->
  exists n sc', grown sc sc' 0 /\ forall fuel, n <= fuel -> export_value debug types fuel r T sc = Some (Ok v, sc').
Proof using.
  intros Hok Hroom Hex HT Hv.
  destruct (exports v T path_root [] [] sc r Hok Hroom Hex HT Hv) as (sc' & Hg & Hrun).
  destruct (Hrun _ (runs_done _ _ _)) as [n Hn]. exists n, sc'. split; [done|]. intros fuel Hle.
  unfold export_value, value_from_root. by rewrite (work_loop_mono _ _ _ _ _ _ _ Hn Hle).
Qed.
End export.

(** * The round trip *)

(** Values and their typing without the module paths of tags. *)
Lemma local_tags_idemp v : local_tags (local_tags v) = local_tags v.
Proof.
  induction v as [v Hv|vs IH|vs IH|fs IH|tag vs IH] using Value_ind'; simpl; [by destruct v|f_equal..];
    rewrite ?local_name_idemp; try done; rewrite map_map; apply List.map_ext_Forall; [done|done| |done].
  apply (Forall_impl _ _ _ IH). intros [k v] Hv. simpl in *. by rewrite Hv.
Qed.

Lemma local_tags_wf v : value_wf v -> value_wf (local_tags v).
Proof.
  induction v as [v Hv|vs IH|vs IH|fs IH|tag vs IH] using Value_ind'; intros Hwf.
  - by destruct v.
  - inversion Hwf as [? [c Hc]|? Hvs| | | |]; subst; [done|]. simpl. apply wf_tuple, Forall_fmap.
    by eapply Forall_impl; [apply Forall_and; split; [exact IH|exact Hvs]|intros ? [H1 H2]; apply H1].
  - inversion Hwf as [? [c Hc]| |? Hvs| | |]; subst; [done|]. simpl. apply wf_list, Forall_fmap.
    by eapply Forall_impl; [apply Forall_and; split; [exact IH|exact Hvs]|intros ? [H1 H2]; apply H1].
  - inversion Hwf as [? [c Hc]| | | |? Hb Hvs|]; subst; [done|]. simpl. apply wf_dict.
    + unfold btree in *. by rewrite map_map.
    + apply Forall_fmap.
      by eapply Forall_impl; [apply Forall_and; split; [exact IH|exact Hvs]|intros ? [H1 H2]; apply H1].
  - inversion Hwf as [? [c Hc]| | | | |? ? Hvs]; subst; [done|]. simpl. apply wf_adt, Forall_fmap.
    by eapply Forall_impl; [apply Forall_and; split; [exact IH|exact Hvs]|intros ? [H1 H2]; apply H1].
Qed.

(** No two variants of a type have one name in different modules. *)
Definition distinct_variants (types : TypeSystem) : Prop := forall name adt,
  adts types !! name = Some adt -> NoDup (map (fun v => local_name (variant_name v)) (adt_variants adt)).

Lemma find_local_tag tag variants variant :
  NoDup (map (fun v => local_name (variant_name v)) variants) ->
  find (variant_has_tag tag) variants = Some variant -> find (variant_has_tag (local_name tag)) variants = Some variant.
Proof.
  induction variants as [|w variants IH]; simpl; [done|]. intros [Hw Hnd]%NoDup_cons.
  assert (Hlocal : variant_has_tag (local_name tag) w = bool_decide (local_name (variant_name w) = local_name tag)).
  { unfold variant_has_tag. rewrite has_dot_local_name. simpl. apply eq_iff_eq_true.
    rewrite orb_true_iff, !bool_decide_eq_true. split; [|by right]. intros [->|]; [apply local_name_idemp|done]. }
  rewrite Hlocal. destruct (variant_has_tag tag w) eqn:Htag.
  - intros [= <-]. by rewrite bool_decide_eq_true_2 by (by apply variant_tag_local).
  - intros Hfind. destruct (bool_decide_reflect (local_name (variant_name w) = local_name tag)) as [Heq|]; [|by apply IH].
    apply find_some in Hfind as [Hin Hv%variant_tag_local]. destruct Hw. rewrite Heq, <- Hv.
    apply (list_elem_of_fmap_2 (fun v => local_name (variant_name v))). by apply list_elem_of_In.
Qed.

Section typing.
Context (types : TypeSystem) (Hdistinct : distinct_variants types).

Lemma Forall2_typed lax lax' f ts vs :
  Forall (fun v => forall T, has_type types lax T v -> has_type types lax' T (f v)) vs ->
  Forall2 (has_type types lax) ts vs -> Forall2 (has_type types lax') ts (map f vs).
Proof using. intros Hvs Hts. apply Forall2_fmap_r. by eapply Forall_Forall2_impl; [|exact Hts]. Qed.

(** Typing is kept by the loss of module paths, and by allowing more constructors. *)
Lemma typed_map f lax lax' v :
  (f = local_tags /\ lax = lax') \/ (f = (fun v => v) /\ (lax = false \/ lax = lax')) ->
  forall T, has_type types lax T v -> has_type types lax' T (f v).
Proof using Hdistinct.
  intros Hf. induction v as [v Hv|vs IH|vs IH|fs IH|tag vs IH] using Value_ind'; intros T HT.
  - assert (f v = v) as -> by (destruct Hf as [[-> _]|[-> _]]; by destruct v).
    inversion HT; subst; try done; by constructor.
  - inversion HT as [? ? [c Hc]|ts ? Hts| | | | |]; subst; [done|].
    assert (f (VTuple vs) = VTuple (map f vs)) as ->
      by (destruct Hf as [[-> _]|[-> _]]; simpl; by rewrite ?map_id).
    apply ht_tuple. by eapply Forall2_typed.
  - inversion HT as [? ? [c Hc]| | | |con elem ? Hname Hu Hts| |]; subst; [done|].
    assert (f (VList vs) = VList (map f vs)) as -> by (destruct Hf as [[-> _]|[-> _]]; simpl; by rewrite ?map_id).
    apply ht_list; [done|done|]. apply Forall_fmap.
    eapply Forall_impl; [apply Forall_and; split; [exact IH|exact Hts]|]. intros v [Hv Ht]. by apply Hv.
  - assert (f (VDict fs) = VDict (map (fun p => (p.1, f p.2)) fs)) as Hfs.
    { destruct Hf as [[-> _]|[-> _]]; simpl; [done|]. by rewrite (map_ext _ id), map_id by (by intros []). }
    rewrite Hfs. inversion HT as [? ? [c Hc]| |definitions ? fields' Hp Hd| | |con elem ? Hname Hts|]; subst; [done|..].
    + apply (ht_record _ _ _ _ (map (fun p => (p.1, f p.2)) fields')); [by rewrite Hp|].
      apply Forall2_fmap_r. rewrite <- Hp in IH. eapply Forall_Forall2_impl; [|exact Hd].
      apply (Forall_impl _ _ _ IH). intros [k v] Hv d [Hk Ht]. split; [done|by apply Hv].
    + apply ht_dict; [done|]. apply Forall_fmap.
      eapply Forall_impl; [apply Forall_and; split; [exact IH|exact Hts]|]. intros v [Hv Ht]. by apply Hv.
  - inversion HT as [? ? [c Hc]| | | | | |? con args adt variant ? ? Hd Hadt Hlen Hfind Hts Hshape]; subst; [done|].
    destruct Hf as [[-> <-]|[Hid Hlax]].
    + eapply (ht_adt _ _ _ con args adt variant); try done; [by apply find_local_tag; [by eapply Hdistinct|]|].
      by eapply Forall2_typed.
    + assert (f (VAdt tag vs) = VAdt tag (map f vs)) as -> by (rewrite Hid; by rewrite map_id).
      eapply (ht_adt _ _ _ con args adt variant); try done; [by eapply Forall2_typed|].
      destruct Hlax as [->| <-]; [|done]. simpl in Hshape. rewrite Hshape. by destruct lax'.
Qed.

Lemma local_tags_typed T v : has_type types false T v -> has_type types false T (local_tags v).
Proof using Hdistinct. apply (typed_map local_tags false false). by left. Qed.

Lemma lax_typed T v : has_type types false T v -> has_type types true T v.
Proof using Hdistinct. apply (typed_map (fun v => v) false true). right. by split; [|left]. Qed.
End typing.

(** ** Values survive collections *)

Section carried.
Context (h h' : Heap) (g : InternalPtr -> InternalPtr).

(** Everything reachable from [p] is carried over by [g]. *)
Definition carried (p : InternalPtr) : Prop := forall q c,
  reach_from h p q -> cell_at h q = Some c -> cell_at h' (g q) = Some (rename g c).

Lemma carried_child p c q : carried p -> cell_at h p = Some c -> q ∈ pointers c -> carried q.
Proof using.
  intros Hp Hc Hq s d Hs. apply Hp. clear -Hc Hq Hs. induction Hs as [|s e t _ IH Hd Ht].
  - by eapply from_edge; [constructor|..].
  - by eapply from_edge.
Qed.

Lemma carried_at p c : carried p -> cell_at h p = Some c -> cell_at h' (g p) = Some (rename g c).
Proof using. intros Hp. apply Hp. constructor. Qed.

Lemma list_repr_carried p es : carried p -> list_repr h p es -> list_repr h' (g p) (map (rename_element g) es).
Proof using.
  intros Hp H. revert Hp.
  induction H as [p Hc|p head tail es Hc _ IH|p s e el values Hc Hel Hb|p s e el bytes Hc Hel Hb]; intros Hp; simpl.
  - apply repr_empty. by apply (carried_at p CEmpty).
  - eapply repr_cons; [by apply (carried_at p (CCons head tail))|]. apply IH.
    eapply carried_child; [done|done|]. simpl. set_solver.
  - assert (Hr : carried el) by (eapply carried_child; [done|done|]; simpl; set_solver).
    rewrite map_map. change (map (fun x => rename_element g (LPtr x)) (slice values s e))
      with (map (fun x => LPtr (g x)) (slice values s e)).
    rewrite <- map_map, <- slice_map.
    eapply repr_data; [by apply (carried_at p (CListSlice s e el))|by apply (carried_at el (CData values))|by rewrite length_map].
  - assert (Hr : carried el) by (eapply carried_child; [done|done|]; simpl; set_solver).
    rewrite map_map.
    eapply repr_binary; [by apply (carried_at p (CListSlice s e el))|by apply (carried_at el (CBinaryData bytes))|done].
Qed.

Lemma list_carried_pointers p es : carried p -> list_repr h p es -> Forall carried (element_pointers es).
Proof using.
  assert (Hl : forall l, element_pointers (map LPtr l) = l) by (induction l; simpl; congruence).
  assert (Hu : forall l, element_pointers (map LU8 l) = []) by (induction l; simpl; congruence).
  intros Hp H. revert Hp.
  induction H as [p Hc|p head tail es Hc _ IH|p s e el values Hc Hel Hb|p s e el bytes Hc Hel Hb]; intros Hp; simpl.
  - constructor.
  - constructor; [eapply carried_child; [done|done|]; simpl; set_solver|].
    apply IH. eapply carried_child; [done|done|]. simpl. set_solver.
  - rewrite Hl. apply Forall_forall. intros q Hq. eapply carried_child; [|exact Hel|].
    + eapply carried_child; [exact Hp|exact Hc|]. simpl. set_solver.
    + simpl. unfold slice in Hq. apply elem_of_take in Hq as (i & Hi & _).
      rewrite lookup_drop in Hi. by eapply list_elem_of_lookup_2.
  - rewrite Hu. constructor.
Qed.

Lemma values_carried ps vs : Forall carried ps ->
  Forall (fun v => forall p, carried p -> value_repr h p v -> value_repr h' (g p) v) vs ->
  Forall2 (value_repr h) ps vs -> Forall2 (value_repr h') (map g ps) vs.
Proof using.
  intros Hps Hvs H. revert Hps Hvs. induction H as [|p v ps vs Hp _ IH]; intros Hps Hvs; simpl; [constructor|].
  apply Forall_cons in Hps as [? Hps], Hvs as [? Hvs]. constructor; auto.
Qed.

Lemma value_repr_carried v : forall p, carried p -> value_repr h p v -> value_repr h' (g p) v.
Proof using.
  assert (Hall : forall p c ps, carried p -> cell_at h p = Some c -> pointers c = ps -> Forall carried ps).
  { intros p c ps Hp Hc Hps. apply Forall_forall. intros q Hq. eapply carried_child; [done|done|by rewrite Hps]. }
  assert (Hl : forall l, element_pointers (map LPtr l) = l) by (induction l; simpl; congruence).
  induction v as [v Hv|vs IH|vs IH|fs IH|tag vs IH] using Value_ind'; intros p Hp H.
  - inversion H as [? ? c Hs Hc| | |? es bytes Hes Hb| |]; subst; try done.
    + apply (vr_scalar _ _ _ c); [done|]. rewrite (carried_at p c Hp Hc). by destruct v; simplify_eq/=.
    + pose proof (list_carried_pointers _ _ Hp Hes) as Hps.
      apply (vr_bytes _ _ (map (rename_element g) es)); [by apply list_repr_carried|].
      apply Forall2_fmap_l. clear Hes H Hv. induction Hb as [|[q|m] n es bytes Hn _ IHb]; simpl in *; constructor; auto.
      * apply Forall_cons in Hps as [Hq _]. by apply (carried_at q (CU8 n)).
      * apply IHb. by apply Forall_cons in Hps as [_ ?].
  - inversion H as [| ? ps ? Hc Hps| | | |]; subst; [done|].
    apply (vr_tuple _ _ (map g ps)); [by apply (carried_at p (CTuple ps))|].
    apply values_carried; [by eapply Hall|done|done].
  - inversion H as [| |? ps ? Hes Hps| | |]; subst; [done|].
    pose proof (list_carried_pointers _ _ Hp Hes) as Hcs. rewrite Hl in Hcs.
    apply (vr_list _ _ (map g ps)); [|by apply values_carried].
    apply list_repr_carried in Hes; [|done]. rewrite map_map in Hes. by rewrite map_map.
  - inversion H as [| | | |? ps ? Hc Hps|]; subst; [done|].
    pose proof (Hall p _ (map snd ps) Hp Hc eq_refl) as Hcs.
    apply (vr_dict _ _ (map (fun f => (f.1, g f.2)) ps)); [by apply (carried_at p (CDict ps))|].
    apply Forall2_fmap_l. clear -IH Hps Hcs. induction Hps as [|q f ps fs [Hk Hv] _ IHp]; [constructor|].
    apply Forall_cons in IH as [Hf IH]. simpl in Hcs. apply Forall_cons in Hcs as [Hq Hcs].
    constructor; [|by apply IHp]. split; [done|]. by apply Hf.
  - inversion H as [| | | | |? ? ps ? Hc Hps]; subst; [done|].
    apply (vr_adt _ _ _ (map g ps)); [by apply (carried_at p (CAdt tag ps))|].
    apply values_carried; [by eapply Hall|done|done].
Qed.
End carried.

(** * Properties *)

(** ** Constructors under the names of built-in types *)

Fixpoint constructors_of (v : Value) : list string :=
  match v with
  | VTuple vs | VList vs => concat (map constructors_of vs)
  | VDict fields => concat (map (fun f => constructors_of f.2) fields)
  | VAdt tag vs => tag :: concat (map constructors_of vs)
  | _ => []
  end.

(** [tag] is a constructor of an ADT that is declared under the name and with as many
    parameters as a type that the conversions treat themselves, as [Empty] and [Cons] of
    the prelude's [List]. *)
Definition builtin_constructor (types : TypeSystem) (tag : string) : Prop :=
  exists name args adt variant, builtin_shape name args = true /\ adts types !! name = Some adt /\
    length (adt_params adt) = length args /\ find (variant_has_tag tag) (adt_variants adt) = Some variant.

Definition holds_builtin_constructor (types : TypeSystem) (v : Value) : Prop :=
  exists tag, tag ∈ constructors_of v /\ builtin_constructor types tag.

Lemma in_concat_map {A B} (f : A -> list B) l x y : x ∈ l -> y ∈ f x -> y ∈ concat (map f l).
Proof. intros Hx Hy. apply list_elem_of_In, in_concat. exists (f x). rewrite <- !list_elem_of_In. split; [by apply list_elem_of_fmap_2|done]. Qed.

Section relation.
Context (types : TypeSystem) (lax lax' : bool).

(** The two notions of typing agree on a value with the constructors [tags]. *)
Definition comparable (tags : list string) : Prop :=
  lax' = true \/ lax = lax' \/ ~ exists tag, tag ∈ tags /\ builtin_constructor types tag.

Lemma comparable_parts {A} (part : A -> Value) parts tags (P : A -> Prop) :
  comparable tags -> concat (map (fun a => constructors_of (part a)) parts) ⊆ tags ->
  Forall (fun a => comparable (constructors_of (part a)) -> P a) parts -> Forall P parts.
Proof using.
  intros Hc Hs HP. apply Forall_forall. intros a Hin. rewrite Forall_forall in HP. apply (HP a Hin).
  destruct Hc as [?|[?|Hn]]; [by left|by right; left|]. right; right. intros (tag & Ht & Hb). apply Hn. exists tag.
  split; [|done]. apply Hs. by eapply (in_concat_map (fun a => constructors_of (part a))).
Qed.

(** The two notions of typing differ by such constructors only. *)
Lemma typed_relation v : comparable (constructors_of v) -> forall T, has_type types lax T v -> has_type types lax' T v.
Proof using.
  induction v as [v Hv|vs IH|vs IH|fs IH|tag vs IH] using Value_ind'; intros Hl T HT.
  - inversion HT; subst; try done; by constructor.
  - inversion HT as [? ? [c Hc]|ts ? Hts| | | | |]; subst; [done|]. apply ht_tuple.
    apply (comparable_parts (fun v => v) vs _ _ Hl) in IH; [|done]. by eapply Forall_Forall2_impl; [|exact Hts].
  - inversion HT as [? ? [c Hc]| | | |con elem ? Hname Hu Hts| |]; subst; [done|]. apply ht_list; [done|done|].
    apply (comparable_parts (fun v => v) vs _ _ Hl) in IH; [|done].
    eapply Forall_impl; [apply Forall_and; split; [exact IH|exact Hts]|]. intros v [Hv Ht]. by apply Hv.
  - apply (comparable_parts snd fs _ _ Hl) in IH; [|done].
    inversion HT as [? ? [c Hc]| |definitions ? fields' Hp Hd| | |con elem ? Hname Hts|]; subst; [done|..].
    + apply (ht_record _ _ _ _ fields'); [done|]. rewrite <- Hp in IH. eapply Forall_Forall2_impl; [|exact Hd].
      apply (Forall_impl _ _ _ IH). intros f Hf d [Hk Ht]. split; [done|by apply Hf].
    + apply ht_dict; [done|]. eapply Forall_impl; [apply Forall_and; split; [exact IH|exact Hts]|].
      intros f [Hf Ht]. by apply Hf.
  - apply (comparable_parts (fun v => v) vs _ _ Hl) in IH; [|intros t Ht; by right].
    inversion HT as [? ? [c Hc]| | | | | |? con args adt variant ? ? Hd Hadt Hlen Hfind Hts Hshape]; subst; [done|].
    eapply (ht_adt _ _ _ con args adt variant); try done.
    + by eapply Forall_Forall2_impl; [|exact Hts].
    + destruct Hl as [->|[<-|Hn]]; [done|done|]. destruct (builtin_shape (name_str con) args) eqn:Hb; [|by destruct lax'].
      destruct Hn. exists tag. split; [by left|]. by exists (name_str con), args, adt, variant.
Qed.
End relation.

(** C30. Conversion from owned values is a type checker. On a heap with room for as many
    cells as the value has parts, [alloc_value] gives every value of the type (with sorted
    dictionaries and byte strings of a length in 64 bits, as the program has them) a token of
    an object that represents it, in at most that many new cells, and fails on the others
    with a conversion error. Constructors lose the module path of their tag. What counts
    as a value of the type is [has_type] with [true]: the values of the type proper
    ([has_type] with [false]), and beyond these only values that hold constructors of an
    ADT declared under the name of a built-in type, as [Empty] at a list type, where the
    object is no list ([list_constructor_imported]). *)
Theorem alloc_value_typed debug types v T sc (Hok : scope_ok sc) (Hroom : room sc (value_cells v)) (Hwf : value_wf v) :
  (has_type types true T v ->
     leads_to (alloc_value debug types v T) sc (value_cells v) (fun r h' => is_value h' r (local_tags v))) /\
  (~ has_type types true T v ->
     exists e sc', is_conversion_error e /\ alloc_value debug types v T sc = (raise e, sc')) /\
  (has_type types false T v -> has_type types true T v) /\
  (has_type types true T v -> ~ holds_builtin_constructor types v -> has_type types false T v).
Proof.
  split_and!.
  - destruct (alloc_value_outcome debug types v T sc Hok Hroom Hwf) as [[Ht H]|[Hn H]]; done.
  - destruct (alloc_value_outcome debug types v T sc Hok Hroom Hwf) as [[Ht H]|[Hn H]]; done.
  - apply typed_relation. by left.
  - intros Ht Hn. by apply (typed_relation types true false v); [right; right|].
Qed.

(** C31. Round trip, where the variants of each ADT have distinct local names: a well-typed value converted to the heap and read back, after any
    collection that keeps its token, is the value without the module paths of its
    constructors' tags; reading needs finitely many rounds. *)
Theorem value_roundtrip debug types v T sc (Hok : scope_ok sc) (Hroom : room sc (value_cells v)) (Hwf : value_wf v)
    (Hdistinct : distinct_variants types) (Ht : has_type types false T v) :
  exists r sc1, alloc_value debug types v T sc = (Ok r, sc1) /\
    forall live, r ∈ live -> (collection_epoch (rs_heap sc1) < u64_max)%Z ->
    exists sc2 sc3 n, collect_if_needed debug live sc1 = (Ok tt, sc2) /\
      forall fuel, n <= fuel -> export_value debug types fuel r T sc2 = Some (Ok (local_tags v), sc3).
Proof.
  pose proof (lax_typed types Hdistinct T v Ht) as Hlax.
  destruct (alloc_value_outcome debug types v T sc Hok Hroom Hwf) as [[_ H]|[Hn _]]; [|done].
  destruct H as (r & sc1 & Ha & Hok1 & _ & _ & p & Hr & Hp). exists r, sc1. split; [done|].
  intros live Hin Hep. destruct (collect_if_needed_keeps debug sc1 live Hok1 Hep) as (sc2 & g & Hc & Hok2 & Hlive).
  destruct (Hlive r p Hin Hr) as [Hr2 Hcarried].
  destruct (export_value_spec debug types (local_tags v) T sc2 r Hok2) as (n & sc3 & _ & Hexport).
  - unfold room. rewrite Nat.add_0_r. apply (inv_length _ (so_inv _ Hok2)).
  - split; [by apply local_tags_wf|apply local_tags_idemp].
  - by apply local_tags_typed.
  - exists (g p). split; [done|]. by eapply value_repr_carried.
  - by exists sc2, sc3, n.
Qed.

(** Constructors of the prelude's [List] type: at a list type, [alloc_value] accepts
    the owned constructor [Empty] and builds a constructor's cell for it. The value that
    it gives is no list for the list operations, and converting it back fails. *)
Theorem list_constructor_imported debug types sc elem (Hok : scope_ok sc) (Hroom : room sc 1)
    (Hlist : adts types !! "List" = Some list_adt) (Hu : is_u8_type elem = false) :
  exists r sc1, alloc_value debug types (VAdt "Empty" []) (Type_list elem) sc = (Ok r, sc1) /\
    list_len debug r sc1 = (raise (NativeType "list" "adt"), sc1) /\
    forall fuel, export_value debug types (S fuel) r (Type_list elem) sc1 =
      Some (raise (ValueConversion "$" (show_ty (Type_list elem)) "adt"), sc1).
Proof.
  assert (Hwf : value_wf (VAdt "Empty" [])) by (by apply wf_adt).
  destruct (alloc_value_outcome debug types (VAdt "Empty" []) (Type_list elem) sc Hok Hroom Hwf) as [[_ H]|[Hn _]].
  - destruct H as (r & sc1 & Ha & Hok1 & _ & _ & p & Hr & Hp). exists r, sc1. split; [done|].
    inversion Hp as [? ? c Hc| | | | |? ? ps ? Hcell Hps]; subst; [done|]. apply Forall2_nil_inv_r in Hps as ->.
    split; [|intros fuel].
    + unfold list_len, pointer, mthen, mlift. rewrite (resolve_spec _ _ r p) by done.
      unfold list_len_from_pointer. by rewrite (proj2 (get_cell_from_pointer_Ok _ _ _) Hcell).
    + unfold export_value, value_from_root. simpl. unfold export_con. simpl. rewrite Hu.
      assert (Hlist_err : root_as_list debug r sc1 = (raise (NativeType "list" "adt"), sc1)).
      { unfold root_as_list, pointer, mthen, mlift. rewrite (resolve_spec _ _ r p) by done.
        unfold list_elements_from_pointer. by rewrite (proj2 (get_cell_from_pointer_Ok _ _ _) Hcell). }
      unfold or_else, mthen at 1. rewrite Hlist_err. unfold raise.
      unfold export_mismatch, root_type_name, or_else, type_name, get_cell_from_rooted_ptr, pointer, mthen, mlift.
      rewrite (resolve_spec _ _ r p) by done. by rewrite (proj2 (get_cell_from_pointer_Ok _ _ _) Hcell).
  - destruct Hn. by eapply (ht_adt types true _ (Builtin List) [elem] list_adt).
Qed.

(** A module's type beside the prelude's lists, and a value with a constructor, bytes and
    a record. *)
Definition demo_shape : AdtDecl :=
  let '(adt, _) := AdtDecl_new "shapes.Shape" ["a"] TypeVarSupply_new in
  add_variant "shapes.Point" [] None
    (add_variant "shapes.Circle" [AdtArgument_positional (TVar (TypeVar_new 0 (Some "a")))] None adt).
Definition demo_types : TypeSystem := mkTypeSystem {["shapes.Shape" := demo_shape; "List" := list_adt]} ∅.
Definition demo_value : Value :=
  VTuple [VAdt "shapes.Circle" [VI32 3]; VBytes [1; 2]%Z;
          VDict [("a", VBool true); ("b", VList [VString "x"; VString "y"])]].
Definition demo_value_type : ty :=
  TTuple [TApp (Type_con "shapes.Shape" 1) (ty_builtin I32); Type_list (ty_builtin U8);
          TRecord [("b", Type_list (ty_builtin String_)); ("a", ty_builtin Bool)]].

Lemma demo_value_typed lax : has_type demo_types lax demo_value_type demo_value.
Proof.
  apply ht_tuple. repeat constructor.
  - eapply (ht_adt _ _ _ _ [ty_builtin I32] demo_shape); [reflexivity..| |by destruct lax].
    repeat constructor. by eexists.
  - eapply (ht_record _ _ _ _ [("b", VList [VString "x"; VString "y"]); ("a", VBool true)]); [constructor|].
    repeat constructor; try by eexists.
Qed.

Lemma demo_value_wf : value_wf demo_value.
Proof.
  repeat first [apply Forall_nil_2 | apply Forall_cons_2 | by apply wf_scalar; eexists | apply wf_tuple | apply wf_list
               | apply wf_adt | apply wf_bytes | apply wf_dict]; [done|]. by repeat constructor.
Qed.

Lemma demo_types_distinct : distinct_variants demo_types.
Proof.
  intros name adt Hadt. unfold demo_types in Hadt. simpl in Hadt.
  rewrite lookup_insert_Some, lookup_singleton_Some in Hadt.
  destruct Hadt as [[_ <-]|[_ [_ <-]]]; apply (bool_decide_unpack _); vm_compute; exact I.
Qed.

Lemma alloc_value_typed_witness :
  leads_to (alloc_value true demo_types demo_value demo_value_type) demo_scope (value_cells demo_value)
    (fun r h' => is_value h' r (local_tags demo_value)) /\
  exists e sc', is_conversion_error e /\
    alloc_value true demo_types demo_value (ty_builtin Bool) demo_scope = (raise e, sc').
Proof.
  pose proof (demo_room (value_cells demo_value) ltac:(simpl; lia)) as Hroom. split.
  - apply (alloc_value_typed true demo_types demo_value demo_value_type demo_scope demo_scope_ok Hroom demo_value_wf).
    apply demo_value_typed.
  - apply (alloc_value_typed true demo_types demo_value (ty_builtin Bool) demo_scope demo_scope_ok Hroom demo_value_wf).
    intros Ht. inversion Ht as [? ? [c Hc]| | | | | |]; discriminate.
Defined.

Lemma value_roundtrip_witness :
  exists r sc1, alloc_value true demo_types demo_value demo_value_type demo_scope = (Ok r, sc1) /\
    forall live, r ∈ live -> (collection_epoch (rs_heap sc1) < u64_max)%Z ->
    exists sc2 sc3 n, collect_if_needed true live sc1 = (Ok tt, sc2) /\
      forall fuel, n <= fuel -> export_value true demo_types fuel r demo_value_type sc2 = Some (Ok (local_tags demo_value), sc3).
Proof.
  apply (value_roundtrip true demo_types demo_value demo_value_type demo_scope demo_scope_ok
           (demo_room (value_cells demo_value) ltac:(simpl; lia)) demo_value_wf demo_types_distinct).
  apply demo_value_typed.
Defined.

Lemma list_constructor_imported_witness :
  exists r sc1, alloc_value true demo_types (VAdt "Empty" []) (Type_list (ty_builtin I32)) demo_scope = (Ok r, sc1) /\
    list_len true r sc1 = (raise (NativeType "list" "adt"), sc1) /\
    forall fuel, export_value true demo_types (S fuel) r (Type_list (ty_builtin I32)) sc1 =
      Some (raise (ValueConversion "$" (show_ty (Type_list (ty_builtin I32))) "adt"), sc1).
Proof.
  apply (list_constructor_imported true demo_types demo_scope (ty_builtin I32) demo_scope_ok (demo_room 1 ltac:(lia)));
    reflexivity.
Defined.
