(* ===== verification/Token.v ===== *)
(** Tokens of the Rex lexer ([rex-parser/src/lexer.rs]) and the terminals of the
    Rex grammar ([rex-parser/src/grammar.rs]). A [char] is its code point, an
    [f64] its bit pattern, a [u64] a [Z]. The two classes are the traits
    [EngineToken] and [Terminal], through which the parsing engine sees tokens. *)

From S2P Require Import Prelude Span.

(** * The interfaces *)

(** [EngineToken]: what the engine asks of a token. *)
Class EngineToken (T : Type) : Type := {
  is_eof : T -> bool;
  token_span : T -> Span }.

(** [Terminal]: what the grammar interpreter asks of a terminal symbol. *)
Class Terminal (K T : Type) : Type := {
  terminal_label : K -> string;
  terminal_matches : K -> T -> bool }.

(** * Tokens *)

Inductive Token : Type :=
  | TokAs (s : Span)
  | TokCase (s : Span)
  | TokClass (s : Span)
  | TokDeclare (s : Span)
  | TokElse (s : Span)
  | TokFn (s : Span)
  | TokFor (s : Span)
  | TokIf (s : Span)
  | TokImport (s : Span)
  | TokIs (s : Span)
  | TokInstance (s : Span)
  | TokMatch (s : Span)
  | TokPub (s : Span)
  | TokType (s : Span)
  | TokWhen (s : Span)
  | TokThen (s : Span)
  | TokWith (s : Span)
  | TokWhere (s : Span)
  | TokAdd (s : Span)
  | TokAnd (s : Span)
  | TokDiv (s : Span)
  | TokDot (s : Span)
  | TokEq (s : Span)
  | TokNe (s : Span)
  | TokGe (s : Span)
  | TokGt (s : Span)
  | TokLe (s : Span)
  | TokLt (s : Span)
  | TokMod (s : Span)
  | TokMul (s : Span)
  | TokOr (s : Span)
  | TokSub (s : Span)
  | TokArrowL (s : Span)
  | TokArrowR (s : Span)
  | TokAssign (s : Span)
  | TokBackSlash (s : Span)
  | TokBraceL (s : Span)
  | TokBraceR (s : Span)
  | TokBracketL (s : Span)
  | TokBracketR (s : Span)
  | TokColon (s : Span)
  | TokColonColon (s : Span)
  | TokComma (s : Span)
  | TokCommentL (s : Span)
  | TokCommentR (s : Span)
  | TokDotDot (s : Span)
  | TokIn (s : Span)
  | TokLet (s : Span)
  | TokRec (s : Span)
  | TokParenL (s : Span)
  | TokParenR (s : Span)
  | TokPipe (s : Span)
  | TokQuestion (s : Span)
  | TokSemiColon (s : Span)
  | TokBool (v : bool) (s : Span)
  | TokChar (v : N) (s : Span)
  | TokFloat (v : N) (s : Span)
  | TokInt (v : Z) (s : Span)
  | TokNull (s : Span)
  | TokString (v : string) (s : Span)
  | TokIdent (v : string) (s : Span)
  | TokEof (s : Span).

Definition Token_span (t : Token) : Span :=
  match t with
  | TokAs s | TokCase s | TokClass s | TokDeclare s | TokElse s | TokFn s | TokFor s | TokIf s
  | TokImport s | TokIs s | TokInstance s | TokMatch s | TokPub s | TokType s | TokWhen s
  | TokThen s | TokWith s | TokWhere s | TokAdd s | TokAnd s | TokDiv s | TokDot s | TokEq s
  | TokNe s | TokGe s | TokGt s | TokLe s | TokLt s | TokMod s | TokMul s | TokOr s | TokSub s
  | TokArrowL s | TokArrowR s | TokAssign s | TokBackSlash s | TokBraceL s | TokBraceR s
  | TokBracketL s | TokBracketR s | TokColon s | TokColonColon s | TokComma s | TokCommentL s
  | TokCommentR s | TokDotDot s | TokIn s | TokLet s | TokRec s | TokParenL s | TokParenR s
  | TokPipe s | TokQuestion s | TokSemiColon s | TokBool _ s | TokChar _ s | TokFloat _ s
  | TokInt _ s | TokNull s | TokString _ s | TokIdent _ s | TokEof s => s
  end.

Definition Token_is_eof (t : Token) : bool := match t with TokEof _ => true | _ => false end.

#[global] Instance Token_engine : EngineToken Token := {|
  is_eof := Token_is_eof;
  token_span := Token_span |}.

(** * Terminals *)

Inductive TokenKind : Type :=
  | KAs | KCase | KClass | KDeclare | KElse | KFn | KIf | KImport | KIs | KInstance | KMatch
  | KPub | KType | KThen | KWith | KWhere | KDiv | KDot | KGt | KLt | KLe | KMul | KSub
  | KArrowR | KAssign | KBackSlash | KBraceL | KBraceR | KBracketL | KBracketR | KColon
  | KColonColon | KComma | KDotDot | KIn | KLet | KRec | KParenL | KParenR | KPipe
  | KQuestion | KSemiColon | KBool | KChar | KFloat | KInt | KString | KIdent
  | KValueOperator | KBinaryOperator | KEof.

#[export] Instance TokenKind_eq_dec : EqDecision TokenKind.
Proof. solve_decision. Defined.

Definition operator_token_name (t : Token) : option string :=
  match t with
  | TokAdd _ => Some "+" | TokAnd _ => Some "&&" | TokDiv _ => Some "/"
  | TokEq _ => Some "==" | TokNe _ => Some "!=" | TokGe _ => Some ">=" | TokGt _ => Some ">"
  | TokLe _ => Some "<=" | TokLt _ => Some "<" | TokMod _ => Some "%" | TokMul _ => Some "*"
  | TokOr _ => Some "||" | TokSub _ => Some "-"
  | _ => None
  end.

Definition binary_operator_token_name (t : Token) : option string :=
  match t with
  | TokColonColon _ => Some "::"
  | _ => operator_token_name t
  end.

Definition matches (k : TokenKind) (t : Token) : bool :=
  match k, t with
  | KAs, TokAs _ => true | KCase, TokCase _ => true | KClass, TokClass _ => true
  | KDeclare, TokDeclare _ => true | KElse, TokElse _ => true | KFn, TokFn _ => true
  | KIf, TokIf _ => true | KImport, TokImport _ => true | KIs, TokIs _ => true
  | KInstance, TokInstance _ => true | KMatch, TokMatch _ => true | KPub, TokPub _ => true
  | KType, TokType _ => true | KThen, TokThen _ => true | KWith, TokWith _ => true
  | KWhere, TokWhere _ => true | KDiv, TokDiv _ => true | KDot, TokDot _ => true
  | KGt, TokGt _ => true | KLt, TokLt _ => true | KLe, TokLe _ => true
  | KMul, TokMul _ => true | KSub, TokSub _ => true | KArrowR, TokArrowR _ => true
  | KAssign, TokAssign _ => true | KBackSlash, TokBackSlash _ => true
  | KBraceL, TokBraceL _ => true | KBraceR, TokBraceR _ => true
  | KBracketL, TokBracketL _ => true | KBracketR, TokBracketR _ => true
  | KColon, TokColon _ => true | KColonColon, TokColonColon _ => true
  | KComma, TokComma _ => true | KDotDot, TokDotDot _ => true | KIn, TokIn _ => true
  | KLet, TokLet _ => true | KRec, TokRec _ => true | KParenL, TokParenL _ => true
  | KParenR, TokParenR _ => true | KPipe, TokPipe _ => true
  | KQuestion, TokQuestion _ => true | KSemiColon, TokSemiColon _ => true
  | KBool, TokBool _ _ => true | KChar, TokChar _ _ => true | KFloat, TokFloat _ _ => true
  | KInt, TokInt _ _ => true | KString, TokString _ _ => true | KIdent, TokIdent _ _ => true
  | KEof, TokEof _ => true
  | KValueOperator, _ => bool_decide (is_Some (operator_token_name t))
  | KBinaryOperator, _ => bool_decide (is_Some (binary_operator_token_name t))
  | _, _ => false
  end.

Definition label (k : TokenKind) : string :=
  match k with
  | KAs => "`as`" | KCase => "`case`" | KClass => "`class`" | KDeclare => "`declare`"
  | KElse => "`else`" | KFn => "`fn`" | KIf => "`if`" | KImport => "`import`"
  | KIs => "`is`" | KInstance => "`instance`" | KMatch => "`match`" | KPub => "`pub`"
  | KType => "`type`" | KThen => "`then`" | KWith => "`with`" | KWhere => "`where`"
  | KDiv => "`/`" | KDot => "`.`" | KGt => "`>`" | KLt => "`<`" | KLe => "`<=`"
  | KMul => "`*`" | KSub => "`-`" | KArrowR => "`->`" | KAssign => "`=`"
  | KBackSlash => "`\`" | KBraceL => "`{`" | KBraceR => "`}`" | KBracketL => "`[`"
  | KBracketR => "`]`" | KColon => "`:`" | KColonColon => "`::`" | KComma => "`,`"
  | KDotDot => "`..`" | KIn => "`in`" | KLet => "`let`" | KRec => "`rec`" | KParenL => "`(`"
  | KParenR => "`)`" | KPipe => "`|`" | KQuestion => "`?`" | KSemiColon => "`;`"
  | KBool => "bool" | KChar => "char" | KFloat => "float" | KInt => "int"
  | KString => "string" | KIdent => "identifier" | KValueOperator => "operator name"
  | KBinaryOperator => "binary operator" | KEof => "EOF"
  end.

Definition peg_name (k : TokenKind) : string :=
  match k with
  | KAs => "AS" | KCase => "CASE" | KClass => "CLASS" | KDeclare => "DECLARE"
  | KElse => "ELSE" | KFn => "FN" | KIf => "IF" | KImport => "IMPORT" | KIs => "IS"
  | KInstance => "INSTANCE" | KMatch => "MATCH" | KPub => "PUB" | KType => "TYPE"
  | KThen => "THEN" | KWith => "WITH" | KWhere => "WHERE" | KDiv => "DIV" | KDot => "DOT"
  | KGt => "GT" | KLt => "LT" | KLe => "LE" | KMul => "MUL" | KSub => "SUB"
  | KArrowR => "ARROW_R" | KAssign => "ASSIGN" | KBackSlash => "BACK_SLASH"
  | KBraceL => "BRACE_L" | KBraceR => "BRACE_R" | KBracketL => "BRACKET_L"
  | KBracketR => "BRACKET_R" | KColon => "COLON" | KColonColon => "COLON_COLON"
  | KComma => "COMMA" | KDotDot => "DOT_DOT" | KIn => "IN" | KLet => "LET" | KRec => "REC"
  | KParenL => "PAREN_L" | KParenR => "PAREN_R" | KPipe => "PIPE" | KQuestion => "QUESTION"
  | KSemiColon => "SEMI_COLON" | KBool => "BOOL" | KChar => "CHAR" | KFloat => "FLOAT"
  | KInt => "INT" | KString => "STRING" | KIdent => "IDENT"
  | KValueOperator => "VALUE_OPERATOR" | KBinaryOperator => "BINARY_OPERATOR"
  | KEof => "EOF"
  end.

#[global] Instance TokenKind_terminal : Terminal TokenKind Token := {|
  terminal_label := label;
  terminal_matches := matches |}.

(** [TokenKind::ALL] and [from_name]. *)
Definition ALL : list TokenKind :=
  [KAs; KCase; KClass; KDeclare; KElse; KFn; KIf; KImport; KIs; KInstance; KMatch; KPub;
  KType; KThen; KWith; KWhere; KDiv; KDot; KGt; KLt; KLe; KMul; KSub; KArrowR; KAssign;
  KBackSlash; KBraceL; KBraceR; KBracketL; KBracketR; KColon; KColonColon; KComma; KDotDot;
  KIn; KLet; KRec; KParenL; KParenR; KPipe; KQuestion; KSemiColon; KBool; KChar; KFloat;
  KInt; KString; KIdent; KValueOperator; KBinaryOperator; KEof].

Definition from_name (name : string) : option TokenKind :=
  find (fun k => bool_decide (peg_name k = name)) ALL.

(** * Properties *)

(** The names of the terminals are a code: every terminal is listed in [ALL]
    and is found again from its [.peg] name, so no two terminals share one. *)
Theorem terminal_name_roundtrip k : k ∈ ALL /\ from_name (peg_name k) = Some k.
Proof. destruct k; split; try (vm_compute; reflexivity); unfold ALL; set_solver. Qed.
