(* ===== verification/Peg.v ===== *)
(** The parsing engine: [rex-parser/src/peg.rs]. A cursor over a token vector with
    a record of the farthest failure; it is generic in the tokens, which it sees
    through [EngineToken]. *)

From S2P Require Import Prelude Span Token.

(** * Comments *)

(** The inner loop of [strip_comments]: tokens are removed at the cursor up to
    and including the closing [*/]. *)
Fixpoint strip_comment_body (fuel : nat) (cursor : nat) (tokens : list Token) : list Token :=
  match fuel with
  | 0 => tokens
  | S fuel =>
      match tokens !! cursor with
      | None => tokens
      | Some (TokCommentR _) => delete cursor tokens
      | Some _ => strip_comment_body fuel cursor (delete cursor tokens)
      end
  end.

Fixpoint strip_comments_loop (fuel : nat) (cursor : nat) (tokens : list Token) : list Token :=
  match fuel with
  | 0 => tokens
  | S fuel =>
      match tokens !! cursor with
      | None => tokens
      | Some (TokCommentL _) =>
          let tokens := delete cursor tokens in
          strip_comments_loop fuel cursor (strip_comment_body (length tokens) cursor tokens)
      | Some _ => strip_comments_loop fuel (cursor + 1) tokens
      end
  end.

(** Each round removes a token or moves past one. *)
Definition strip_comments (tokens : list Token) : list Token :=
  strip_comments_loop (S (length tokens)) 0 tokens.

(** Reference: one pass with a flag. *)
Fixpoint outside_comments (inside : bool) (tokens : list Token) : list Token :=
  match tokens with
  | [] => []
  | t :: tokens =>
      if inside then
        match t with TokCommentR _ => outside_comments false tokens | _ => outside_comments true tokens end
      else
        match t with
        | TokCommentL _ => outside_comments true tokens
        | _ => t :: outside_comments false tokens
        end
  end.

(** * Failures *)

(** A [TokenIndex] is a [nat]; the labels are a [BTreeSet<String>]. *)
Record Failure : Type := mkFailure {
  fail_pos : nat;
  fail_span : Span;
  fail_expected : gset string;
  fail_committed : bool }.

Definition Failure_new (pos : nat) (span : Span) (expected : string) : Failure :=
  mkFailure pos span {[expected]} false.

(** [Failure::merge], also the body of [merge_failure] of grammar.rs. *)
Definition Failure_merge (self other : Failure) : Failure :=
  if decide (fail_pos self < fail_pos other) then other
  else if decide (fail_pos other = fail_pos self) then
    mkFailure (fail_pos self) (fail_span self) (fail_expected self ∪ fail_expected other)
      (fail_committed self || fail_committed other)
  else self.

(** [Failure::committed] and [mark_committed]. *)
Definition mark_committed (f : Failure) : Failure :=
  mkFailure (fail_pos f) (fail_span f) (fail_expected f) true.

Abbreviation FailureTracker := (option Failure).

Definition record_failure (t : FailureTracker) (f : Failure) : FailureTracker :=
  match t with
  | Some existing => Some (Failure_merge existing f)
  | None => Some f
  end.

Abbreviation PegResult A := (result Failure A).

(** * The engine *)

Section engine.
Context {T : Type} `{TE : EngineToken T}.

Record Engine : Type := mkEngine {
  tokens : list T;
  eof : T;
  cursor : nat;
  failures : FailureTracker }.

Definition Engine_new (tokens : list T) (eof : T) : Engine := mkEngine tokens eof 0 None.

(** [restore], [restore_pos] (a [Mark] is a [TokenIndex]) and [restore_failures]. *)
Definition restore (mark : nat) (e : Engine) : Engine :=
  mkEngine (tokens e) (eof e) mark (failures e).
Definition restore_failures (fs : FailureTracker) (e : Engine) : Engine :=
  mkEngine (tokens e) (eof e) (cursor e) fs.
Definition engine_record_failure (f : Failure) (e : Engine) : Engine :=
  restore_failures (record_failure (failures e) f) e.

Definition eof_span (e : Engine) : Span := token_span (eof e).

Definition span_at (ts : list T) (eof : Span) (pos : nat) : Span :=
  match ts !! pos with Some t => token_span t | None => eof end.

Definition current_span (e : Engine) : Span := span_at (tokens e) (eof_span e) (cursor e).

Definition current_token (e : Engine) : T :=
  match tokens e !! cursor e with Some t => t | None => eof e end.

(** [Engine::fail]: the failure, and the engine that has recorded it. *)
Definition engine_fail (expected : string) (e : Engine) : Failure * Engine :=
  let f := Failure_new (cursor e) (current_span e) expected in
  (f, engine_record_failure f e).

Definition satisfy {U} (expected : string) (predicate : T -> option U) (e : Engine)
  : PegResult U * Engine :=
  let token := current_token e in
  match predicate token with
  | Some value =>
      (Ok value, if is_eof token then e else restore (cursor e + 1) e)
  | None => let '(f, e') := engine_fail expected e in (Err f, e')
  end.

Definition expect (expected : string) (predicate : T -> bool) (e : Engine) : PegResult T * Engine :=
  satisfy expected (fun token => if predicate token then Some token else None) e.
End engine.
Arguments Engine T : clear implicits.

(** [Input::new] and [Input::engine]. *)
Record Tokens : Type := mkTokens { items : list Token; tokens_eof : Span }.

Definition input_engine (ts : Tokens) : Engine Token :=
  Engine_new (strip_comments (items ts)) (TokEof (tokens_eof ts)).

(** * Lemmas *)

Lemma strip_comment_body_spec fuel pre ts :
  length ts <= fuel ->
  exists k, strip_comment_body fuel (length pre) (pre ++ ts) = pre ++ k /\ length k <= length ts /\
    outside_comments false k = outside_comments true ts.
Proof.
  revert ts. induction fuel as [|fuel IH]; intros ts Hf.
  { destruct ts; [|simpl in Hf; lia]. by exists []. }
  destruct ts as [|t ts]; simpl.
  { rewrite lookup_app_r, Nat.sub_diag by lia. simpl. by exists []. }
  rewrite list_lookup_middle by done. simpl in Hf.
  assert (Hdel : delete (length pre) (pre ++ t :: ts) = pre ++ ts) by (by rewrite delete_middle).
  destruct t; cbn [outside_comments]; rewrite Hdel;
    first [exists ts; split_and!; [done|simpl; lia|done]
          |destruct (IH ts) as (k & -> & ? & ?); [lia|]; exists k; split_and!; [done|simpl; lia|done]].
Qed.

Lemma strip_comments_loop_spec fuel pre ts :
  length ts < fuel ->
  strip_comments_loop fuel (length pre) (pre ++ ts) = pre ++ outside_comments false ts.
Proof.
  revert pre ts. induction fuel as [|fuel IH]; intros pre ts Hf; [lia|].
  destruct ts as [|t ts]; simpl.
  { rewrite lookup_app_r, Nat.sub_diag by lia. simpl. done. }
  rewrite list_lookup_middle by done. simpl in Hf.
  assert (Hskip : strip_comments_loop fuel (length pre + 1) (pre ++ t :: ts)
                  = pre ++ t :: outside_comments false ts).
  { specialize (IH (pre ++ [t]) ts). rewrite length_app, <- !app_assoc in IH. apply IH. lia. }
  destruct t; try exact Hskip. rewrite delete_middle.
  destruct (strip_comment_body_spec (length (pre ++ ts)) pre ts) as (k & -> & Hk & Ho).
  { rewrite length_app. lia. }
  rewrite IH by lia. by rewrite Ho.
Qed.

Lemma strip_comments_filter ts : strip_comments ts = outside_comments false ts.
Proof. apply (strip_comments_loop_spec (S (length ts)) [] ts). lia. Qed.

Lemma outside_comments_subset b ts t : t ∈ outside_comments b ts -> t ∈ ts.
Proof.
  revert b. induction ts as [|u ts IH]; intros b Ht; [destruct b; exact Ht|].
  destruct b, u; simpl in Ht; rewrite ?elem_of_cons in *; naive_solver.
Qed.

Lemma Failure_merge_pos f g : fail_pos (Failure_merge f g) = Nat.max (fail_pos f) (fail_pos g).
Proof. unfold Failure_merge. repeat case_decide; simpl; lia. Qed.

(** * Properties *)

(** [strip_comments], which removes tokens from a vector in place, is the
    one-pass filter that drops everything from an opener to the next closer;
    an unclosed comment swallows the rest. *)
Theorem strip_comments_spec ts : strip_comments ts = outside_comments false ts.
Proof. apply strip_comments_filter. Qed.

(** Failures merge to the farthest one: the result's position is the
    maximum, and at equal positions the labels are united and a commitment
    survives; merging is associative, so the farthest failure of a parse does
    not depend on how the failures are grouped. *)
Theorem failure_merge_laws f g k :
  fail_pos (Failure_merge f g) = Nat.max (fail_pos f) (fail_pos g) /\
  (fail_pos f = fail_pos g ->
   fail_expected (Failure_merge f g) = fail_expected f ∪ fail_expected g /\
   fail_committed (Failure_merge f g) = fail_committed f || fail_committed g) /\
  Failure_merge (Failure_merge f g) k = Failure_merge f (Failure_merge g k).
Proof.
  split_and!; [apply Failure_merge_pos| |].
  - intros Heq. unfold Failure_merge. rewrite decide_False by lia. by rewrite decide_True.
  - destruct f as [p1 s1 e1 c1], g as [p2 s2 e2 c2], k as [p3 s3 e3 c3]. unfold Failure_merge.
    simpl. repeat (case_decide; simpl in *); try lia; try done.
    f_equal; [by rewrite (assoc_L (∪))|by rewrite orb_assoc].
Qed.

Lemma failure_merge_laws_witness :
  let f := Failure_new 2 Span_default "expression" in
  let g := Failure_new 2 Span_default "`;`" in
  fail_pos (Failure_merge f g) = 2 /\
  (fail_expected (Failure_merge f g) = {["expression"]} ∪ {["`;`"]} /\
   fail_committed (Failure_merge f g) = false) /\
  Failure_merge (Failure_merge f g) g = Failure_merge f (Failure_merge g g).
Proof.
  intros f g. destruct (failure_merge_laws f g g) as (H1 & H2 & H3).
  split; [exact H1|]. split; [exact (H2 eq_refl)|exact H3].
Defined.
