(* ===== verification/Grammar.v ===== *)
(** The grammar interpreter: [rex-parser/src/grammar.rs]. A PEG with labels and
    cuts is interpreted by a machine with an explicit stack of frames and a
    packrat memo table; the reference is a recursive big-step semantics without
    either. *)

From S2P Require Import Prelude Span Token Peg.

(** * Grammars *)

(** [Peg<R, K>]: rules [R], terminals [K]. *)
Inductive Peg (R K : Type) : Type :=
  | PToken (k : K)
  | PRule (r : R)
  | PSeq (items : list (Peg R K))
  | PChoice (items : list (Peg R K))
  | POptional (item : Peg R K)
  | PRepeat (item : Peg R K)
  | PRepeat1 (item : Peg R K)
  | PAnd (item : Peg R K)
  | PNot (item : Peg R K)
  | PLabel (label : string) (item : Peg R K)
  | PCut (item : Peg R K).
Arguments PToken {R K}. Arguments PRule {R K}. Arguments PSeq {R K}. Arguments PChoice {R K}.
Arguments POptional {R K}. Arguments PRepeat {R K}. Arguments PRepeat1 {R K}. Arguments PAnd {R K}.
Arguments PNot {R K}. Arguments PLabel {R K}. Arguments PCut {R K}.

(** The combinators that grammars are written with. *)
Module Build.
Section build.
Context {R K : Type}.
Definition tok (kind : K) : Peg R K := PToken kind.
Definition rule (r : R) : Peg R K := PRule r.
Definition seq (items : list (Peg R K)) : Peg R K := PSeq items.
Definition choice (items : list (Peg R K)) : Peg R K := PChoice items.
Definition opt (item : Peg R K) : Peg R K := POptional item.
Definition rep (item : Peg R K) : Peg R K := PRepeat item.
Definition rep1 (item : Peg R K) : Peg R K := PRepeat1 item.
Definition and (item : Peg R K) : Peg R K := PAnd item.
Definition not (item : Peg R K) : Peg R K := PNot item.
Definition label (message : string) (item : Peg R K) : Peg R K := PLabel message item.
Definition cut (item : Peg R K) : Peg R K := PCut item.
End build.
End Build.

Inductive Item (R K : Type) : Type :=
  | IRule (r : R) (expression : Peg R K)
  | IComment (text : string).
Arguments IRule {R K}. Arguments IComment {R K}.

(** [Cst] and [CstNode]; an [Arc] is its node. *)
Inductive Cst (R T : Type) : Type :=
  | CstNode (rule : R) (span : Span) (children : list (Cst R T))
  | CstToken (t : T).
Arguments CstNode {R T}. Arguments CstToken {R T}.

Section grammar.
Context {R K : Type} `{RC : Countable R}.

Record Grammar : Type := mkGrammar {
  start : R;
  grammar_items : list (Item R K);
  rule_indexes : gmap R nat }.

(** [Grammar::from_items]: a later rule of a name replaces an earlier one. *)
Fixpoint index_rules (index : nat) (items : list (Item R K)) (m : gmap R nat) : gmap R nat :=
  match items with
  | [] => m
  | IRule r _ :: items => index_rules (S index) items (<[r := index]> m)
  | IComment _ :: items => index_rules (S index) items m
  end.

Definition from_items (start : R) (items : list (Item R K)) : Grammar :=
  mkGrammar start items (index_rules 0 items ∅).

(** [Grammar::expression]; an index that points at a comment is unreachable in a
    grammar that [from_items] made ([from_items_expression]). *)
Definition expression (g : Grammar) (r : R) : option (Peg R K) :=
  match rule_indexes g !! r with
  | None => None
  | Some index =>
      match grammar_items g !! index with
      | Some (IRule _ e) => Some e
      | _ => None
      end
  end.
End grammar.
Arguments Grammar R K {_ _}.

(** * The machine *)

Section machine.
Context {R K T : Type} `{RC : Countable R, TE : EngineToken T, KT : Terminal K T}.

Inductive MemoEntry : Type :=
  | MemoSuccess (value : Cst R T) (next : nat)
  | MemoFailure (f : Failure).

Inductive Frame : Type :=
  | FRule (rule : R) (start mark : nat)
  | FSeq (items : list (Peg R K)) (next : nat) (children : list (Cst R T)) (mark : nat)
  | FChoice (alternatives : list (Peg R K)) (next : nat) (mark : nat) (failures : FailureTracker)
      (failure : option Failure)
  | FOptional (mark : nat) (failures : FailureTracker)
  | FRepeat (item : Peg R K) (children : list (Cst R T)) (start mark : nat) (failures : FailureTracker)
  | FRepeat1 (item : Peg R K)
  | FAnd (mark : nat) (failures : FailureTracker)
  | FNot (mark : nat) (failures : FailureTracker)
  | FLabel (label : string)
  | FCut.

Inductive Work : Type :=
  | Eval (e : Peg R K)
  | Ready (r : PegResult (list (Cst R T)))
  | PushAndEval (f : Frame) (e : Peg R K).

(** The mutable state of a [GrammarParser]. *)
Record State : Type := mkState {
  engine : Engine T;
  memo : gmap (R * nat) MemoEntry }.

Definition with_engine (f : Engine T -> Engine T) (s : State) : State := mkState (f (engine s)) (memo s).
Definition memo_insert (k : R * nat) (m : MemoEntry) (s : State) : State :=
  mkState (engine s) (<[k := m]> (memo s)).
Definition state_fail (expected : string) (s : State) : Failure * State :=
  let '(f, e) := engine_fail expected (engine s) in (f, mkState e (memo s)).

(** [span_from_positions]. *)
Definition span_from_positions (e : Engine T) (start end_ : nat) : Span :=
  if decide (start < end_) then
    from_begin_end (begin (span_at (tokens e) (eof_span e) start))
      (Span.end_ (span_at (tokens e) (eof_span e) (end_ - 1)))
  else span_at (tokens e) (eof_span e) start.

Definition merge_failure (target : option Failure) (f : Failure) : option Failure :=
  match target with
  | Some existing => Some (Failure_merge existing f)
  | None => Some f
  end.

Definition relabel (label : string) (f : Failure) : Failure :=
  mkFailure (fail_pos f) (fail_span f) {[label]} (fail_committed f).

(** [labeled_failure]. *)
Definition labeled_failure (f : Failure) (label : string) (s : State) : Failure * State :=
  let labeled := relabel label f in
  (labeled, with_engine (engine_record_failure labeled) s).

Context (g : Grammar R K).

(** The [Work::Eval] arm of the loop of [parse_expr_iterative]; the stack's top is
    the list's head. *)
Definition eval_step (e : Peg R K) (frames : list Frame) (s : State) : Work * list Frame * State :=
  let pos := cursor (engine s) in
  let fs := failures (engine s) in
  match e with
  | PToken kind =>
      let '(r, en) := expect (terminal_label kind) (fun t => terminal_matches kind t) (engine s) in
      (Ready (let? t := r in Ok [CstToken t]), frames, mkState en (memo s))
  | PRule rule =>
      match memo s !! (rule, pos) with
      | Some (MemoSuccess value next) => (Ready (Ok [value]), frames, with_engine (restore next) s)
      | Some (MemoFailure f) =>
          (Ready (Err f), frames, with_engine (fun en => engine_record_failure f (restore pos en)) s)
      | None =>
          match expression g rule with
          | None =>
              let '(f, s) := state_fail "grammar rule" s in
              (Ready (Err f), frames, memo_insert (rule, pos) (MemoFailure f) s)
          | Some rule_expr => (Eval rule_expr, FRule rule pos pos :: frames, s)
          end
      end
  | PSeq items =>
      match items with
      | [] => (Ready (Ok []), frames, s)
      | item :: _ => (Eval item, FSeq items 1 [] pos :: frames, s)
      end
  | PChoice alternatives =>
      match alternatives with
      | [] => let '(f, s) := state_fail "alternative" s in (Ready (Err f), frames, s)
      | alternative :: _ =>
          (Eval alternative, FChoice alternatives 1 pos fs None :: frames,
           with_engine (fun en => restore_failures fs (restore pos en)) s)
      end
  | POptional item => (Eval item, FOptional pos fs :: frames, s)
  | PRepeat item => (Eval item, FRepeat item [] pos pos fs :: frames, s)
  | PRepeat1 item => (Eval item, FRepeat1 item :: frames, s)
  | PAnd item => (Eval item, FAnd pos fs :: frames, s)
  | PNot item => (Eval item, FNot pos fs :: frames, s)
  | PLabel label item => (Eval item, FLabel label :: frames, s)
  | PCut item => (Eval item, FCut :: frames, s)
  end.

Definition apply_frame (frame : Frame) (r : PegResult (list (Cst R T))) (s : State) : Work * State :=
  let rewind mark fs := with_engine (fun en => restore_failures fs (restore mark en)) in
  match frame with
  | FRule rule start mark =>
      match r with
      | Ok children =>
          let next := cursor (engine s) in
          let node := CstNode rule (span_from_positions (engine s) start next) children in
          (Ready (Ok [node]), memo_insert (rule, start) (MemoSuccess node next) s)
      | Err f =>
          (Ready (Err f), memo_insert (rule, start) (MemoFailure f) (with_engine (restore mark) s))
      end
  | FSeq items next children mark =>
      match r with
      | Ok new_children =>
          let children := children ++ new_children in
          match items !! next with
          | Some item => (PushAndEval (FSeq items (next + 1) children mark) item, s)
          | None => (Ready (Ok children), s)
          end
      | Err f => (Ready (Err f), with_engine (restore mark) s)
      end
  | FChoice alternatives next mark fs failure =>
      match r with
      | Ok children => (Ready (Ok children), s)
      | Err err =>
          if fail_committed err then (Ready (Err err), s)
          else
            let failure := merge_failure failure err in
            match alternatives !! next with
            | Some alternative =>
                (PushAndEval (FChoice alternatives (next + 1) mark fs failure) alternative,
                 rewind mark fs s)
            | None =>
                let s := rewind mark fs s in
                let '(f, s) := match failure with
                               | Some f => (f, s)
                               | None => state_fail "alternative" s
                               end in
                (Ready (Err f), with_engine (engine_record_failure f) s)
            end
      end
  | FOptional mark fs =>
      match r with
      | Ok children => (Ready (Ok children), s)
      | Err err => if fail_committed err then (Ready (Err err), s) else (Ready (Ok []), rewind mark fs s)
      end
  | FRepeat item children start mark fs =>
      match r with
      | Ok new_children =>
          let children := children ++ new_children in
          if decide (cursor (engine s) <> start)
          then (PushAndEval (FRepeat item children (cursor (engine s)) (cursor (engine s))
                               (failures (engine s))) item, s)
          else (Ready (Ok children), s)
      | Err err =>
          if fail_committed err then (Ready (Err err), s) else (Ready (Ok children), rewind mark fs s)
      end
  | FRepeat1 item =>
      match r with
      | Ok children =>
          (PushAndEval (FRepeat item children (cursor (engine s)) (cursor (engine s))
                          (failures (engine s))) item, s)
      | Err f => (Ready (Err f), s)
      end
  | FAnd mark fs =>
      let s := rewind mark fs s in
      match r with
      | Ok _ => (Ready (Ok []), s)
      | Err _ => let '(f, s) := state_fail "lookahead" s in (Ready (Err f), s)
      end
  | FNot mark fs =>
      let s := rewind mark fs s in
      match r with
      | Ok _ => let '(f, s) := state_fail "negative lookahead" s in (Ready (Err f), s)
      | Err _ => (Ready (Ok []), s)
      end
  | FLabel label =>
      match r with
      | Ok children => (Ready (Ok children), s)
      | Err f => let '(f, s) := labeled_failure f label s in (Ready (Err f), s)
      end
  | FCut =>
      match r with
      | Ok children => (Ready (Ok children), s)
      | Err f => (Ready (Err (mark_committed f)), s)
      end
  end.

(** [parse_expr_iterative]. *)
Fixpoint run (fuel : nat) (work : Work) (frames : list Frame) (s : State)
  : option (PegResult (list (Cst R T)) * State) :=
  match fuel with
  | 0 => None
  | S fuel =>
      match work with
      | PushAndEval frame e => run fuel (Eval e) (frame :: frames) s
      | Eval e => let '(work, frames, s) := eval_step e frames s in run fuel work frames s
      | Ready r =>
          match frames with
          | [] => Some (r, s)
          | frame :: frames => let '(work, s) := apply_frame frame r s in run fuel work frames s
          end
      end
  end.

(** [parse_rule] and [parse_start]. *)
Definition parse_rule (fuel : nat) (rule : R) (s : State) : option (PegResult (Cst R T) * State) :=
  match run fuel (Eval (PRule rule)) [] s with
  | None => None
  | Some (Err f, s) => Some (Err f, s)
  | Some (Ok [CstNode r sp ch], s) => Some (Ok (CstNode r sp ch), s)
  | Some (Ok _, s) => let '(f, s) := state_fail "grammar rule" s in Some (Err f, s)
  end.

Definition parse_start (fuel : nat) (en : Engine T) : option (PegResult (Cst R T) * State) :=
  parse_rule fuel (start g) (mkState en ∅).
End machine.
