(* ===== verification/GrammarSem.v ===== *)
(** The meaning of a grammar, and the proof that the interpreter of
    [rex-parser/src/grammar.rs] implements it: the explicit stack and the memo
    table change neither the answers nor when there is one. *)

From S2P Require Import Prelude Span Token Peg Grammar.

(** * Reference semantics

    [sem e pos o]: at position [pos], [e] has the outcome [o]: success with
    children and the next position, or a failure. *)

Section sem.
Context {R K T : Type} `{RC : Countable R, TE : EngineToken T, KT : Terminal K T}.
Context (g : Grammar R K) (ts : list T) (end_token : T).

Inductive outcome : Type :=
  | Succeeds (children : list (Cst R T)) (next : nat)
  | Fails (f : Failure).

Definition token_at (pos : nat) : T := match ts !! pos with Some t => t | None => end_token end.
Definition span_of (pos : nat) : Span := span_at ts (token_span end_token) pos.
Definition fail_at (pos : nat) (expected : string) : Failure := Failure_new pos (span_of pos) expected.

Definition node_span (pos next : nat) : Span :=
  if decide (pos < next)
  then from_begin_end (begin (span_of pos)) (Span.end_ (span_of (next - 1)))
  else span_of pos.

Inductive sem : Peg R K -> nat -> outcome -> Prop :=
  | sem_token k pos :
      terminal_matches k (token_at pos) = true ->
      sem (PToken k) pos
        (Succeeds [CstToken (token_at pos)] (if is_eof (token_at pos) then pos else pos + 1))
  | sem_token_fail k pos :
      terminal_matches k (token_at pos) = false ->
      sem (PToken k) pos (Fails (fail_at pos (terminal_label k)))
  | sem_rule_unknown r pos :
      expression g r = None -> sem (PRule r) pos (Fails (fail_at pos "grammar rule"))
  | sem_rule r e pos children next :
      expression g r = Some e -> sem e pos (Succeeds children next) ->
      sem (PRule r) pos (Succeeds [CstNode r (node_span pos next) children] next)
  | sem_rule_fail r e pos f :
      expression g r = Some e -> sem e pos (Fails f) -> sem (PRule r) pos (Fails f)
  | sem_seq_ items pos o : sem_seq items pos [] o -> sem (PSeq items) pos o
  | sem_choice_nil pos : sem (PChoice []) pos (Fails (fail_at pos "alternative"))
  | sem_choice_ items pos o : sem_choice items pos None o -> sem (PChoice items) pos o
  | sem_optional e pos children next :
      sem e pos (Succeeds children next) -> sem (POptional e) pos (Succeeds children next)
  | sem_optional_none e pos f :
      sem e pos (Fails f) -> fail_committed f = false -> sem (POptional e) pos (Succeeds [] pos)
  | sem_optional_cut e pos f :
      sem e pos (Fails f) -> fail_committed f = true -> sem (POptional e) pos (Fails f)
  | sem_repeat_ e pos o : sem_repeat e pos [] o -> sem (PRepeat e) pos o
  | sem_repeat1 e pos children next o :
      sem e pos (Succeeds children next) -> sem_repeat e next children o -> sem (PRepeat1 e) pos o
  | sem_repeat1_fail e pos f : sem e pos (Fails f) -> sem (PRepeat1 e) pos (Fails f)
  | sem_and e pos children next : sem e pos (Succeeds children next) -> sem (PAnd e) pos (Succeeds [] pos)
  | sem_and_fail e pos f : sem e pos (Fails f) -> sem (PAnd e) pos (Fails (fail_at pos "lookahead"))
  | sem_not e pos f : sem e pos (Fails f) -> sem (PNot e) pos (Succeeds [] pos)
  | sem_not_fail e pos children next :
      sem e pos (Succeeds children next) ->
      sem (PNot e) pos (Fails (fail_at pos "negative lookahead"))
  | sem_label l e pos children next :
      sem e pos (Succeeds children next) -> sem (PLabel l e) pos (Succeeds children next)
  | sem_label_fail l e pos f : sem e pos (Fails f) -> sem (PLabel l e) pos (Fails (relabel l f))
  | sem_cut e pos children next :
      sem e pos (Succeeds children next) -> sem (PCut e) pos (Succeeds children next)
  | sem_cut_fail e pos f : sem e pos (Fails f) -> sem (PCut e) pos (Fails (mark_committed f))
(** The items one after the other; [acc] are the children so far. *)
with sem_seq : list (Peg R K) -> nat -> list (Cst R T) -> outcome -> Prop :=
  | seq_done pos acc : sem_seq [] pos acc (Succeeds acc pos)
  | seq_fail e items pos acc f : sem e pos (Fails f) -> sem_seq (e :: items) pos acc (Fails f)
  | seq_next e items pos acc children next o :
      sem e pos (Succeeds children next) -> sem_seq items next (acc ++ children) o ->
      sem_seq (e :: items) pos acc o
(** The first alternative that succeeds or fails committed; [acc] merges the
    failures so far. *)
with sem_choice : list (Peg R K) -> nat -> option Failure -> outcome -> Prop :=
  | choice_ok e items pos acc children next :
      sem e pos (Succeeds children next) -> sem_choice (e :: items) pos acc (Succeeds children next)
  | choice_cut e items pos acc f :
      sem e pos (Fails f) -> fail_committed f = true -> sem_choice (e :: items) pos acc (Fails f)
  | choice_next e e' items pos acc f o :
      sem e pos (Fails f) -> fail_committed f = false ->
      sem_choice (e' :: items) pos (merge_failure acc f) o -> sem_choice (e :: e' :: items) pos acc o
  | choice_last e pos acc f m :
      sem e pos (Fails f) -> fail_committed f = false -> merge_failure acc f = Some m ->
      sem_choice [e] pos acc (Fails m)
(** As many as possible; a round that consumes nothing is the last. *)
with sem_repeat : Peg R K -> nat -> list (Cst R T) -> outcome -> Prop :=
  | repeat_stop e pos acc f :
      sem e pos (Fails f) -> fail_committed f = false -> sem_repeat e pos acc (Succeeds acc pos)
  | repeat_cut e pos acc f :
      sem e pos (Fails f) -> fail_committed f = true -> sem_repeat e pos acc (Fails f)
  | repeat_stuck e pos acc children :
      sem e pos (Succeeds children pos) -> sem_repeat e pos acc (Succeeds (acc ++ children) pos)
  | repeat_more e pos acc children next o :
      sem e pos (Succeeds children next) -> next <> pos -> sem_repeat e next (acc ++ children) o ->
      sem_repeat e pos acc o.

Scheme sem_mut := Induction for sem Sort Prop
  with sem_seq_mut := Induction for sem_seq Sort Prop
  with sem_choice_mut := Induction for sem_choice Sort Prop
  with sem_repeat_mut := Induction for sem_repeat Sort Prop.
Combined Scheme sem_all from sem_mut, sem_seq_mut, sem_choice_mut, sem_repeat_mut.

(** ** An expression has one outcome at a position *)
Lemma sem_deterministic_all :
  (forall e pos o, sem e pos o -> forall o', sem e pos o' -> o = o') /\
  (forall items pos acc o, sem_seq items pos acc o -> forall o', sem_seq items pos acc o' -> o = o') /\
  (forall items pos acc o, sem_choice items pos acc o -> forall o', sem_choice items pos acc o' -> o = o') /\
  (forall e pos acc o, sem_repeat e pos acc o -> forall o', sem_repeat e pos acc o' -> o = o').
Proof.
  apply (sem_all (fun e pos o _ => forall o', sem e pos o' -> o = o')
           (fun items pos acc o _ => forall o', sem_seq items pos acc o' -> o = o')
           (fun items pos acc o _ => forall o', sem_choice items pos acc o' -> o = o')
           (fun e pos acc o _ => forall o', sem_repeat e pos acc o' -> o = o')); intros;
    match goal with
    | H : sem _ _ ?o' |- _ = ?o' => inversion H; subst; clear H
    | H : sem_seq _ _ _ ?o' |- _ = ?o' => inversion H; subst; clear H
    | H : sem_choice _ _ _ ?o' |- _ = ?o' => inversion H; subst; clear H
    | H : sem_repeat _ _ _ ?o' |- _ = ?o' => inversion H; subst; clear H
    end; try done; try congruence; simplify_eq;
    try (match goal with H : sem_choice [] _ _ _ |- _ => inversion H end);
    repeat match goal with
    | IH : forall o', sem ?e ?p o' -> ?o = o', H : sem ?e ?p ?o2 |- _ =>
        first [ constr_eq o o2; fail 1 | assert (o = o2) by (apply IH; exact H); clear H; simplify_eq ]
    end; try done; try congruence; eauto.
Qed.

Lemma sem_deterministic e pos o o' : sem e pos o -> sem e pos o' -> o = o'.
Proof. destruct sem_deterministic_all as [Hdet _]. eauto. Qed.

(** * The machine follows the semantics *)

Local Abbreviation St := (State (R := R) (T := T)).
Local Abbreviation Fr := (Frame (R := R) (K := K) (T := T)).
Local Abbreviation Wk := (Work (R := R) (K := K) (T := T)).
Implicit Types s : St.
Implicit Types frames : list Fr.

Definition result_of (o : outcome) : PegResult (list (Cst R T)) :=
  match o with Succeeds children _ => Ok children | Fails f => Err f end.

Definition entry_outcome (m : MemoEntry (R := R) (T := T)) : outcome :=
  match m with MemoSuccess value next => Succeeds [value] next | MemoFailure f => Fails f end.

(** The machine is on the input [ts] and every memo entry is right. *)
Record good (s : St) : Prop := {
  good_tokens : tokens (engine s) = ts;
  good_eof : eof (engine s) = end_token;
  good_memo : forall r pos m, memo s !! (r, pos) = Some m -> sem (PRule r) pos (entry_outcome m) }.

(** After an outcome the cursor of a success is where it ends; after a failure it
    may be anywhere. *)
Definition lands (o : outcome) (s : St) : Prop :=
  match o with Succeeds _ next => cursor (engine s) = next | Fails _ => True end.

(** From [work] under [top], the machine comes to [Ready] of the outcome. *)
Definition reaches (work : Wk) (top : list Fr) (s : St) (o : outcome) : Prop :=
  exists n s', good s' /\ lands o s' /\ forall frames m,
    run g (n + m) work (top ++ frames) s = run g m (Ready (result_of o)) frames s'.

Lemma good_with_engine s f :
  good s -> (forall en, tokens (f en) = tokens en) -> (forall en, eof (f en) = eof en) ->
  good (with_engine f s).
Proof. intros [H1 H2 H3] Ht He. split; simpl; [by rewrite Ht|by rewrite He|done]. Qed.

Lemma good_rewind s mark fs :
  good s -> good (with_engine (fun en => restore_failures fs (restore mark en)) s).
Proof. intros Hs. by apply good_with_engine. Qed.

Lemma good_restore s mark : good s -> good (with_engine (restore mark) s).
Proof. intros Hs. by apply good_with_engine. Qed.

Lemma good_record s f : good s -> good (with_engine (engine_record_failure f) s).
Proof. intros Hs. by apply good_with_engine. Qed.

Lemma good_insert s r pos m :
  good s -> sem (PRule r) pos (entry_outcome m) -> good (memo_insert (r, pos) m s).
Proof.
  intros [H1 H2 H3] Hm. split; simpl; [done|done|]. intros r' pos' m'.
  destruct (decide ((r, pos) = (r', pos'))) as [[= <- <-]|Hne].
  - rewrite lookup_insert_eq. by intros [= <-].
  - rewrite lookup_insert_ne by done. apply H3.
Qed.

Lemma good_span s pos : good s -> span_at (tokens (engine s)) (eof_span (engine s)) pos = span_of pos.
Proof. intros [H1 H2 _]. unfold span_of, eof_span. by rewrite H1, H2. Qed.

(** [state_fail] answers the failure of its position. *)
Lemma state_fail_eq s expected :
  good s -> exists s', state_fail expected s = (fail_at (cursor (engine s)) expected, s') /\ good s' /\
    cursor (engine s') = cursor (engine s).
Proof.
  intros Hs. unfold state_fail, engine_fail.
  assert (Hf : Failure_new (cursor (engine s)) (current_span (engine s)) expected
               = fail_at (cursor (engine s)) expected).
  { unfold fail_at, current_span. by rewrite (good_span s). }
  rewrite Hf. eexists. split_and!; [reflexivity| |done]. destruct Hs as [H1 H2 H3]. by split.
Qed.

(** One step of the machine. *)
Lemma reaches_eval e top s o work frames' s' :
  (forall frames, eval_step g e (top ++ frames) s = (work, frames' ++ frames, s')) ->
  reaches work frames' s' o -> reaches (Eval e) top s o.
Proof.
  intros Hstep (n & s'' & Hg & Hl & Hrun). exists (S n), s''. split_and!; [done|done|].
  intros frames m. simpl. by rewrite Hstep, Hrun.
Qed.

Lemma reaches_ready o s : good s -> lands o s -> reaches (Ready (result_of o)) [] s o.
Proof. intros Hg Hl. by exists 0, s. Qed.

Lemma reaches_apply frame r s o work s' :
  apply_frame frame r s = (work, s') -> reaches work [] s' o -> reaches (Ready r) [frame] s o.
Proof.
  intros Hstep (n & s'' & Hg & Hl & Hrun). exists (S n), s''. split_and!; [done|done|].
  intros frames m. simpl. by rewrite Hstep, <- Hrun.
Qed.

Lemma reaches_push frame e s o : reaches (Eval e) [frame] s o -> reaches (PushAndEval frame e) [] s o.
Proof.
  intros (n & s'' & Hg & Hl & Hrun). exists (S n), s''. split_and!; [done|done|].
  intros frames m. simpl. by rewrite <- Hrun.
Qed.

(** An expression under a frame: first the expression, then the frame. *)
Lemma reaches_under e frame s o o' :
  reaches (Eval e) [] s o ->
  (forall s', good s' -> lands o s' -> reaches (Ready (result_of o)) [frame] s' o') ->
  reaches (Eval e) [frame] s o'.
Proof.
  intros (n & s1 & Hg1 & Hl1 & Hrun1) Hnext.
  destruct (Hnext s1 Hg1 Hl1) as (n2 & s2 & Hg2 & Hl2 & Hrun2).
  exists (n + n2), s2. split_and!; [done|done|]. intros frames m.
  rewrite <- Nat.add_assoc. rewrite <- Hrun2. exact (Hrun1 ([frame] ++ frames) (n2 + m)).
Qed.

(** What a rule makes of the outcome of its expression. *)
Definition rule_outcome (r : R) (pos : nat) (o : outcome) : outcome :=
  match o with
  | Succeeds children next => Succeeds [CstNode r (node_span pos next) children] next
  | Fails f => Fails f
  end.

(** ** The cases *)

(** A rule that the memo table knows. *)
Lemma memo_hit s r pos m o :
  good s -> cursor (engine s) = pos -> memo s !! (r, pos) = Some m -> sem (PRule r) pos o ->
  reaches (Eval (PRule r)) [] s o.
Proof.
  intros Hs Hpos Hm Hsem.
  assert (entry_outcome m = o) as <- by (eapply sem_deterministic; [by eapply good_memo|done]).
  destruct m as [value next|f]; simpl.
  - eapply (reaches_eval _ _ _ _ _ []); [intros frames; simpl; by rewrite Hpos, Hm|].
    by apply (reaches_ready (Succeeds [value] next)); [apply good_restore|].
  - eapply (reaches_eval _ _ _ _ _ []); [intros frames; simpl; by rewrite Hpos, Hm|].
    apply (reaches_ready (Fails f)); [|done]. by apply good_with_engine.
Qed.

(** A rule that it does not know: the expression runs under a [Rule] frame, which
    stores the answer. *)
Lemma rule_miss s r e pos o :
  good s -> cursor (engine s) = pos -> memo s !! (r, pos) = None -> expression g r = Some e ->
  (forall s', good s' -> cursor (engine s') = pos -> reaches (Eval e) [] s' o) ->
  sem (PRule r) pos (rule_outcome r pos o) -> reaches (Eval (PRule r)) [] s (rule_outcome r pos o).
Proof.
  intros Hs Hpos Hm He Hrun Hsem.
  eapply (reaches_eval _ _ _ _ _ [FRule r pos pos]); [intros frames; simpl; by rewrite Hpos, Hm, He|].
  apply (reaches_under _ _ _ o); [by apply Hrun|]. intros s' Hs' Hl. destruct o as [children next|f].
  - simpl in Hl. eapply reaches_apply; [simpl; reflexivity|].
    assert (Hspan : span_from_positions (engine s') pos (cursor (engine s')) = node_span pos next).
    { unfold span_from_positions, node_span. by rewrite !good_span, Hl. }
    rewrite Hspan, Hl. apply (reaches_ready (Succeeds [CstNode r (node_span pos next) children] next));
      [|done]. by apply good_insert.
  - eapply reaches_apply; [simpl; reflexivity|].
    apply (reaches_ready (Fails f)); [|done]. apply good_insert; [|done]. by apply good_restore.
Qed.

Lemma drop_head {A} (all : list A) k e rest : drop k all = e :: rest -> all !! k = Some e /\ drop (S k) all = rest.
Proof.
  intros Hd. assert (Hk : all !! k = Some e).
  { rewrite <- (Nat.add_0_r k), <- lookup_drop. by rewrite Hd. }
  split; [done|]. rewrite (drop_S _ _ _ Hk) in Hd. by injection Hd.
Qed.

Definition sim_expr (e : Peg R K) (pos : nat) (o : outcome) : Prop :=
  forall s, good s -> cursor (engine s) = pos -> reaches (Eval e) [] s o.
Definition sim_seq (items : list (Peg R K)) (pos : nat) (acc : list (Cst R T)) (o : outcome) : Prop :=
  forall all k mark s e rest, items = e :: rest -> drop k all = items -> good s ->
    cursor (engine s) = pos -> reaches (Eval e) [FSeq all (S k) acc mark] s o.
Definition sim_choice (items : list (Peg R K)) (pos : nat) (acc : option Failure) (o : outcome) : Prop :=
  forall all k fs s e rest, items = e :: rest -> drop k all = items -> good s ->
    cursor (engine s) = pos -> reaches (Eval e) [FChoice all (S k) pos fs acc] s o.
Definition sim_repeat (e : Peg R K) (pos : nat) (acc : list (Cst R T)) (o : outcome) : Prop :=
  forall fs s, good s -> cursor (engine s) = pos -> reaches (Eval e) [FRepeat e acc pos pos fs] s o.

Lemma sim_seq_fail e items pos acc f : sim_expr e pos (Fails f) -> sim_seq (e :: items) pos acc (Fails f).
Proof.
  intros IH all k mark s e' rest [= -> ->] _ Hs Hpos.
  apply (reaches_under _ _ _ (Fails f)); [by apply IH|]. intros s' Hs' _.
  eapply reaches_apply; [reflexivity|]. apply (reaches_ready (Fails f)); [by apply good_restore|done].
Qed.

Lemma sim_seq_next e items pos acc children next o :
  sim_expr e pos (Succeeds children next) -> sem_seq items next (acc ++ children) o ->
  sim_seq items next (acc ++ children) o -> sim_seq (e :: items) pos acc o.
Proof.
  intros IH Hsem IHs all k mark s e' rest [= -> ->] Hd Hs Hpos.
  apply (reaches_under _ _ _ (Succeeds children next)); [by apply IH|]. intros s' Hs' Hl.
  apply drop_head in Hd as [_ Hd]. destruct rest as [|e2 rest].
  - inversion Hsem; subst. eapply reaches_apply.
    { simpl. assert (all !! S k = None) as ->; [|reflexivity].
      apply lookup_ge_None. apply (f_equal length) in Hd. rewrite length_drop in Hd. simpl in Hd. lia. }
    by apply (reaches_ready (Succeeds (acc ++ children) next)).
  - pose proof (drop_head _ _ _ _ Hd) as [Hk _]. eapply reaches_apply.
    { simpl. rewrite Hk. reflexivity. }
    apply reaches_push. rewrite Nat.add_1_r. by eapply IHs.
Qed.

Lemma sim_choice_next e e' items pos acc f o :
  sim_expr e pos (Fails f) -> fail_committed f = false ->
  sim_choice (e' :: items) pos (merge_failure acc f) o -> sim_choice (e :: e' :: items) pos acc o.
Proof.
  intros IH Hf IHc all k fs s e0 rest [= -> <-] Hd Hs Hpos.
  apply (reaches_under _ _ _ (Fails f)); [by apply IH|]. intros s' Hs' _.
  apply drop_head in Hd as [_ Hd]. pose proof (drop_head _ _ _ _ Hd) as [Hk _].
  eapply reaches_apply; [simpl; rewrite Hf, Hk; reflexivity|].
  apply reaches_push. rewrite Nat.add_1_r. eapply IHc; [done|done|by apply good_rewind|done].
Qed.

Lemma sim_choice_last e pos acc f m :
  sim_expr e pos (Fails f) -> fail_committed f = false -> merge_failure acc f = Some m ->
  sim_choice [e] pos acc (Fails m).
Proof.
  intros IH Hf Hm all k fs s e0 rest [= -> <-] Hd Hs Hpos.
  apply (reaches_under _ _ _ (Fails f)); [by apply IH|]. intros s' Hs' _.
  apply drop_head in Hd as [_ Hd]. eapply reaches_apply.
  { simpl. rewrite Hf, Hm. assert (all !! S k = None) as ->; [|reflexivity].
    apply lookup_ge_None. apply (f_equal length) in Hd. rewrite length_drop in Hd. simpl in Hd. lia. }
  apply (reaches_ready (Fails m)); [|done]. apply good_record, good_rewind, Hs'.
Qed.

(** The frames that answer at once: optional, lookahead, label and cut. *)
Lemma sim_frame e item pos o o' (frame_of : nat -> FailureTracker -> Fr) :
  sim_expr item pos o ->
  (forall frames s, eval_step g e frames s =
     (Eval item, frame_of (cursor (engine s)) (failures (engine s)) :: frames, s)) ->
  (forall s fs, good s -> lands o s -> reaches (Ready (result_of o)) [frame_of pos fs] s o') ->
  sim_expr e pos o'.
Proof.
  intros IH Hstep Hframe s Hs Hpos.
  eapply (reaches_eval _ _ _ _ _ [_]); [intros frames; apply Hstep|]. rewrite Hpos.
  apply (reaches_under _ _ _ o); [by apply IH|]. auto.
Qed.

Lemma sim_repeat_stop e pos acc f :
  sim_expr e pos (Fails f) -> fail_committed f = false -> sim_repeat e pos acc (Succeeds acc pos).
Proof.
  intros IH Hf fs s Hs Hpos. apply (reaches_under _ _ _ (Fails f)); [by apply IH|]. intros s' Hs' _.
  eapply reaches_apply; [simpl; rewrite Hf; reflexivity|].
  by apply (reaches_ready (Succeeds acc pos)); [apply good_rewind|].
Qed.

Lemma sim_repeat_stuck e pos acc children :
  sim_expr e pos (Succeeds children pos) -> sim_repeat e pos acc (Succeeds (acc ++ children) pos).
Proof.
  intros IH fs s Hs Hpos. apply (reaches_under _ _ _ (Succeeds children pos)); [by apply IH|].
  intros s' Hs' Hl. simpl in Hl.
  eapply reaches_apply; [simpl; rewrite decide_False by (intros Hn; by apply Hn); reflexivity|].
  by apply (reaches_ready (Succeeds (acc ++ children) pos)).
Qed.

Lemma sim_repeat_more e pos acc children next o :
  sim_expr e pos (Succeeds children next) -> next <> pos -> sim_repeat e next (acc ++ children) o ->
  sim_repeat e pos acc o.
Proof.
  intros IH Hne IHr fs s Hs Hpos. apply (reaches_under _ _ _ (Succeeds children next)); [by apply IH|].
  intros s' Hs' Hl. simpl in Hl. rewrite <- Hl in Hne.
  eapply reaches_apply; [simpl; rewrite decide_True by done; reflexivity|].
  apply reaches_push. rewrite Hl. by apply IHr.
Qed.

Lemma sim_token k pos o : sem (PToken k) pos o -> sim_expr (PToken k) pos o.
Proof.
  intros Hsem s Hs Hpos. destruct (state_fail_eq s (terminal_label k) Hs) as (s' & Hfail & Hs' & _).
  assert (Htok : current_token (engine s) = token_at pos).
  { unfold current_token, token_at. destruct Hs as [-> -> _]. by rewrite Hpos. }
  unfold state_fail in Hfail. destruct (engine_fail (terminal_label k) (engine s)) as [f en] eqn:He.
  injection Hfail as -> <-. rewrite Hpos in *.
  inversion Hsem as [? ? Hm|? ? Hm| | | | | | | | | | | | | | | | | | | |]; subst.
  - eapply (reaches_eval _ _ _ _ _ []).
    { intros frames. simpl. unfold expect, satisfy. rewrite Htok, Hm. reflexivity. }
    apply (reaches_ready (Succeeds [_] _)); [|simpl; by case_match].
    destruct Hs as [H1 H2 H3]. by case_match.
  - eapply (reaches_eval _ _ _ _ _ []).
    { intros frames. simpl. unfold expect, satisfy. rewrite Htok, Hm, He. reflexivity. }
    by apply (reaches_ready (Fails _)).
Qed.

(** A rule, whether the memo table knows it or not. *)
Lemma sim_rule r e pos o :
  expression g r = Some e -> sim_expr e pos o ->
  sem (PRule r) pos (rule_outcome r pos o) -> sim_expr (PRule r) pos (rule_outcome r pos o).
Proof.
  intros He IH Hsem s Hs Hpos. destruct (memo s !! (r, pos)) as [m|] eqn:Hm.
  - by eapply memo_hit.
  - by eapply (rule_miss s r e pos o).
Qed.

Lemma sim_rule_unknown r pos :
  expression g r = None -> sim_expr (PRule r) pos (Fails (fail_at pos "grammar rule")).
Proof.
  intros He s Hs Hpos. assert (Hsem := sem_rule_unknown r pos He).
  destruct (memo s !! (r, pos)) as [m|] eqn:Hm; [by eapply memo_hit|].
  destruct (state_fail_eq s "grammar rule" Hs) as (s' & Hfail & Hs' & _). rewrite Hpos in Hfail.
  eapply (reaches_eval _ _ _ _ _ []); [intros frames; cbn [eval_step]; rewrite Hpos, Hm, He, Hfail; reflexivity|].
  apply (reaches_ready (Fails _)); [|done]. by apply good_insert.
Qed.

Lemma sim_choice_nil pos : sim_expr (PChoice []) pos (Fails (fail_at pos "alternative")).
Proof.
  intros s Hs Hpos. destruct (state_fail_eq s "alternative" Hs) as (s' & Hfail & Hs' & _).
  rewrite Hpos in Hfail.
  eapply (reaches_eval _ _ _ _ _ []); [intros frames; cbn [eval_step]; rewrite Hfail; reflexivity|].
  by apply (reaches_ready (Fails _)).
Qed.

Lemma sim_seq_start items pos o : sem_seq items pos [] o -> sim_seq items pos [] o -> sim_expr (PSeq items) pos o.
Proof.
  intros Hsem IH s Hs Hpos. destruct items as [|e items].
  - inversion Hsem; subst. eapply (reaches_eval _ _ _ _ _ []); [intros frames; reflexivity|].
    by apply (reaches_ready (Succeeds [] _)).
  - eapply (reaches_eval _ _ _ _ _ [_]); [intros frames; reflexivity|]. by eapply (IH _ 0).
Qed.

Lemma sim_choice_start items pos o : sim_choice items pos None o -> items <> [] -> sim_expr (PChoice items) pos o.
Proof.
  intros IH Hne s Hs Hpos. destruct items as [|e items]; [done|].
  eapply (reaches_eval _ _ _ _ _ [_]); [intros frames; reflexivity|]. rewrite Hpos.
  eapply (IH _ 0); [done|done|by apply good_rewind|done].
Qed.

(** A lookahead that answers a failure rewinds first. *)
Lemma reaches_lookahead_fail frame r s mark fs expected :
  good s ->
  apply_frame frame r s = (let '(f, s2) := state_fail expected
    (with_engine (fun en => restore_failures fs (restore mark en)) s) in (Ready (Err f), s2)) ->
  reaches (Ready r) [frame] s (Fails (fail_at mark expected)).
Proof.
  intros Hs Hstep. destruct (state_fail_eq _ expected (good_rewind s mark fs Hs)) as (s2 & Hf & Hs2 & _).
  rewrite Hf in Hstep. eapply reaches_apply; [exact Hstep|]. by apply (reaches_ready (Fails _)).
Qed.

Local Ltac good_states :=
  first [done | by apply good_rewind | by apply good_record | by apply good_restore].
Local Ltac answer o := eapply reaches_apply; [reflexivity|apply (reaches_ready o); good_states].
Local Ltac rewrite_answer H o :=
  eapply reaches_apply; [simpl; rewrite H; reflexivity|apply (reaches_ready o); good_states].

Lemma simulation_all :
  (forall e pos o, sem e pos o -> sim_expr e pos o) /\
  (forall items pos acc o, sem_seq items pos acc o -> sim_seq items pos acc o) /\
  (forall items pos acc o, sem_choice items pos acc o -> sim_choice items pos acc o) /\
  (forall e pos acc o, sem_repeat e pos acc o -> sim_repeat e pos acc o).
Proof.
  apply (sem_all (fun e pos o _ => sim_expr e pos o) (fun items pos acc o _ => sim_seq items pos acc o)
           (fun items pos acc o _ => sim_choice items pos acc o)
           (fun e pos acc o _ => sim_repeat e pos acc o)); intros.
  - by apply sim_token, sem_token.
  - by apply sim_token, sem_token_fail.
  - by apply sim_rule_unknown.
  - eapply (sim_rule r e pos (Succeeds children next)); [done|done|by eapply sem_rule].
  - eapply (sim_rule r e pos (Fails f)); [done|done|by eapply sem_rule_fail].
  - by apply sim_seq_start.
  - apply sim_choice_nil.
  - apply sim_choice_start; [done|]. intros ->. by inversion s.
  - apply (sim_frame _ e pos (Succeeds children next) _ FOptional); [done|done|].
    intros s' fs Hs Hl. by answer (Succeeds children next).
  - apply (sim_frame _ e pos (Fails f) _ FOptional); [done|done|].
    intros s' fs Hs _. rewrite_answer e0 (Succeeds [] pos).
  - apply (sim_frame _ e pos (Fails f) _ FOptional); [done|done|].
    intros s' fs Hs _. rewrite_answer e0 (Fails f).
  - intros s' Hs Hpos. eapply (reaches_eval _ _ _ _ _ [_]); [intros frames; reflexivity|].
    rewrite Hpos. by apply H.
  - apply (sim_frame _ e pos (Succeeds children next) _ (fun _ _ => FRepeat1 e)); [done|done|].
    intros s' fs Hs Hl. simpl in Hl. eapply reaches_apply; [reflexivity|]. apply reaches_push.
    rewrite Hl. by apply H0.
  - apply (sim_frame _ e pos (Fails f) _ (fun _ _ => FRepeat1 e)); [done|done|].
    intros s' fs Hs _. by answer (Fails f).
  - apply (sim_frame _ e pos (Succeeds children next) _ FAnd); [done|done|].
    intros s' fs Hs _. by answer (Succeeds [] pos).
  - apply (sim_frame _ e pos (Fails f) _ FAnd); [done|done|].
    intros s' fs Hs _. by eapply reaches_lookahead_fail.
  - apply (sim_frame _ e pos (Fails f) _ FNot); [done|done|].
    intros s' fs Hs _. by answer (Succeeds [] pos).
  - apply (sim_frame _ e pos (Succeeds children next) _ FNot); [done|done|].
    intros s' fs Hs _. by eapply reaches_lookahead_fail.
  - apply (sim_frame _ e pos (Succeeds children next) _ (fun _ _ => FLabel l)); [done|done|].
    intros s' fs Hs Hl. by answer (Succeeds children next).
  - apply (sim_frame _ e pos (Fails f) _ (fun _ _ => FLabel l)); [done|done|].
    intros s' fs Hs Hl. by answer (Fails (relabel l f)).
  - apply (sim_frame _ e pos (Succeeds children next) _ (fun _ _ => FCut)); [done|done|].
    intros s' fs Hs Hl. by answer (Succeeds children next).
  - apply (sim_frame _ e pos (Fails f) _ (fun _ _ => FCut)); [done|done|].
    intros s' fs Hs Hl. by answer (Fails (mark_committed f)).
  - by intros all k mark s' e rest Hne.
  - by apply sim_seq_fail.
  - by eapply sim_seq_next.
  - intros all k fs s' e' rest [= -> ->] _ Hs Hpos.
    apply (reaches_under _ _ _ (Succeeds children next)); [by apply H|]. intros s'' Hs' Hl.
    by answer (Succeeds children next).
  - intros all k fs s' e' rest [= -> ->] _ Hs Hpos.
    apply (reaches_under _ _ _ (Fails f)); [by apply H|]. intros s'' Hs' Hl.
    rewrite_answer e0 (Fails f).
  - by eapply sim_choice_next.
  - by eapply sim_choice_last.
  - by eapply sim_repeat_stop.
  - intros fs s' Hs Hpos. apply (reaches_under _ _ _ (Fails f)); [by apply H|]. intros s'' Hs' Hl.
    rewrite_answer e0 (Fails f).
  - by apply sim_repeat_stuck.
  - by eapply sim_repeat_more.
Qed.

Lemma simulation e pos o : sem e pos o -> sim_expr e pos o.
Proof. apply simulation_all. Qed.

(** * The semantics follows the machine *)

Lemma run_mono n m work frames s x : run g n work frames s = Some x -> n <= m -> run g m work frames s = Some x.
Proof.
  revert m work frames s. induction n as [|n IH]; intros m work frames s Hrun Hle; [done|].
  destruct m as [|m]; [lia|]. simpl in *. destruct work as [e|r|frame e].
  - destruct (eval_step g e frames s) as [[w fr] s2]. apply IH; [done|lia].
  - destruct frames as [|frame frames]; [done|]. destruct (apply_frame frame r s) as [w s2].
    apply IH; [done|lia].
  - apply IH; [done|lia].
Qed.

(** The machine answers within [n] steps. *)
Definition halts (n : nat) (work : Wk) (frames : list Fr) (s : St) : Prop :=
  exists x, run g n work frames s = Some x.

Lemma halts_eval n e frames s : halts n (Eval e) frames s ->
  exists n' work frames' s', n = S n' /\ eval_step g e frames s = (work, frames', s') /\ halts n' work frames' s'.
Proof.
  intros [x Hx]. destruct n as [|n]; [done|]. simpl in Hx.
  destruct (eval_step g e frames s) as [[w fr] s2]. exists n, w, fr, s2. split_and!; [done|done|by exists x].
Qed.

(** When the machine halts on an expression that has an outcome, it halts no
    later from that outcome on. *)
Lemma halts_under n e frames s pos o :
  halts n (Eval e) frames s -> good s -> cursor (engine s) = pos -> sem e pos o ->
  exists m s', m <= n /\ good s' /\ lands o s' /\ halts m (Ready (result_of o)) frames s'.
Proof.
  intros [x Hx] Hs Hpos Hsem. destruct (simulation _ _ _ Hsem s Hs Hpos) as (k & s' & Hs' & Hl & Hrun).
  simpl in Hrun. destruct (decide (n <= k)) as [Hle|Hgt].
  - apply (run_mono _ k) in Hx; [|done]. specialize (Hrun frames 0). rewrite Nat.add_0_r, Hx in Hrun. done.
  - exists (n - k), s'. split_and!; [lia|done|done|]. exists x. rewrite <- Hrun.
    by replace (k + (n - k)) with n by lia.
Qed.

Lemma halts_apply n r frame frames s : halts n (Ready r) (frame :: frames) s ->
  exists n' work s', n = S n' /\ apply_frame frame r s = (work, s') /\ halts n' work frames s'.
Proof.
  intros [x Hx]. destruct n as [|n]; [done|]. simpl in Hx.
  destruct (apply_frame frame r s) as [w s2]. exists n, w, s2. split_and!; [done|done|by exists x].
Qed.

Lemma halts_push n frame e frames s :
  halts n (PushAndEval frame e) frames s -> exists n', n = S n' /\ halts n' (Eval e) (frame :: frames) s.
Proof. intros [x Hx]. destruct n as [|n]; [done|]. simpl in Hx. exists n. split; [done|]. by exists x. Qed.

(** What halting within [n] steps gives, for each construct. *)
Definition has_outcome (n : nat) : Prop :=
  forall e frames s, halts n (Eval e) frames s -> good s -> exists o, sem e (cursor (engine s)) o.

Lemma halts_seq n items all k acc mark e frames s :
  (forall m, m <= n -> has_outcome m) -> drop k all = e :: items -> good s ->
  halts n (Eval e) (FSeq all (S k) acc mark :: frames) s ->
  exists o, sem_seq (e :: items) (cursor (engine s)) acc o.
Proof.
  revert n k acc e s. induction items as [|e2 items IH]; intros n k acc e s IHn Hd Hs Hh;
    destruct (IHn n (le_n n) _ _ _ Hh Hs) as [o Ho]; destruct o as [children next|f];
    try (eexists; by eapply seq_fail);
    destruct (halts_under _ _ _ _ _ _ Hh Hs eq_refl Ho) as (m & s' & Hm & Hs' & Hl & Hr); simpl in Hl.
  - exists (Succeeds (acc ++ children) next). eapply seq_next; [done|]. apply seq_done.
  - apply halts_apply in Hr as (n' & work & s2 & -> & Happly & Hr). simpl in Happly.
    apply drop_head in Hd as [_ Hd]. rewrite (proj1 (drop_head _ _ _ _ Hd)) in Happly.
    injection Happly as <- <-. apply halts_push in Hr as (n2 & -> & Hr). rewrite Nat.add_1_r in Hr.
    destruct (IH n2 (S k) (acc ++ children) e2 s') as [o Ho2]; [|done|done|done|].
    { intros m' Hm'. apply IHn. lia. }
    exists o. eapply seq_next; [done|]. by rewrite <- Hl.
Qed.

Lemma halts_choice n items all k pos fs acc e frames s :
  (forall m, m <= n -> has_outcome m) -> drop k all = e :: items -> good s -> cursor (engine s) = pos ->
  halts n (Eval e) (FChoice all (S k) pos fs acc :: frames) s ->
  exists o, sem_choice (e :: items) pos acc o.
Proof.
  revert n k acc e s. induction items as [|e2 items IH]; intros n k acc e s IHn Hd Hs Hpos Hh;
    destruct (IHn n (le_n n) _ _ _ Hh Hs) as [o Ho]; rewrite Hpos in Ho; destruct o as [children next|f];
    try (eexists; by eapply choice_ok);
    (destruct (fail_committed f) eqn:Hf; [eexists; by eapply choice_cut|]).
  - assert (exists m, merge_failure acc f = Some m) as [m Hm] by (destruct acc; simpl; eauto).
    exists (Fails m). by eapply choice_last.
  - destruct (halts_under _ _ _ _ _ _ Hh Hs Hpos Ho) as (m & s' & Hm & Hs' & _ & Hr).
    apply halts_apply in Hr as (n' & work & s2 & -> & Happly & Hr). simpl in Happly. rewrite Hf in Happly.
    apply drop_head in Hd as [_ Hd]. rewrite (proj1 (drop_head _ _ _ _ Hd)) in Happly.
    injection Happly as <- <-. apply halts_push in Hr as (n2 & -> & Hr). rewrite Nat.add_1_r in Hr.
    eapply IH in Hr as [o Ho2]; [exists o; by eapply choice_next| |done|by apply good_rewind|done].
    intros m' Hm'. apply IHn. lia.
Qed.

Lemma halts_repeat n e acc fs frames s :
  (forall m, m <= n -> has_outcome m) -> good s ->
  halts n (Eval e) (FRepeat e acc (cursor (engine s)) (cursor (engine s)) fs :: frames) s ->
  exists o, sem_repeat e (cursor (engine s)) acc o.
Proof.
  revert acc fs s. induction (lt_wf n) as [n _ IH]; intros acc fs s IHn Hs Hh.
  destruct (IHn n (le_n n) _ _ _ Hh Hs) as [o Ho]. destruct o as [children next|f].
  2: { destruct (fail_committed f) eqn:Hf; eexists; [by eapply repeat_cut|by eapply repeat_stop]. }
  destruct (decide (next = cursor (engine s))) as [->|Hne]; [eexists; by eapply repeat_stuck|].
  destruct (halts_under _ _ _ _ _ _ Hh Hs eq_refl Ho) as (m & s' & Hm & Hs' & Hl & Hr). simpl in Hl.
  apply halts_apply in Hr as (n' & work & s2 & -> & Happly & Hr). simpl in Happly.
  rewrite decide_True in Happly by congruence. injection Happly as <- <-.
  apply halts_push in Hr as (n2 & -> & Hr). rewrite <- Hl in *.
  destruct (IH n2 ltac:(lia) (acc ++ children) (failures (engine s')) s') as [o Ho2]; [|done|done|].
  { intros m' Hm'. apply IHn. lia. }
  exists o. by eapply repeat_more.
Qed.

Lemma halts_rule n r frames s :
  (forall m, m < n -> has_outcome m) -> good s -> halts n (Eval (PRule r)) frames s ->
  exists o, sem (PRule r) (cursor (engine s)) o.
Proof.
  intros IHn Hs Hh. destruct (memo s !! (r, cursor (engine s))) as [m|] eqn:Hm.
  { eexists. by eapply good_memo. }
  destruct (expression g r) as [e|] eqn:He; [|eexists; by apply sem_rule_unknown].
  apply halts_eval in Hh as (n' & work & fr & s2 & -> & Hstep & Hh). simpl in Hstep.
  rewrite Hm, He in Hstep. injection Hstep as <- <- <-.
  destruct (IHn n' ltac:(lia) _ _ _ Hh Hs) as [[children next|f] Ho].
  - eexists. by eapply sem_rule.
  - eexists. by eapply sem_rule_fail.
Qed.

(** An expression whose frame is popped by its item's outcome has an outcome. *)
Lemma outcome_of_item (e item : Peg R K) pos :
  match e with
  | POptional i | PAnd i | PNot i | PLabel _ i | PCut i => i = item
  | _ => False
  end -> (exists o, sem item pos o) -> exists o, sem e pos o.
Proof.
  intros He [[children next|f] Ho]; destruct e; try done; subst;
    try (eexists; first [by eapply sem_optional|by eapply sem_and|by eapply sem_not_fail
                        |by eapply sem_label|by eapply sem_cut]);
    try (eexists; first [by eapply sem_and_fail|by eapply sem_not|by eapply sem_label_fail
                        |by eapply sem_cut_fail]).
  destruct (fail_committed f) eqn:Hf; eexists; [by eapply sem_optional_cut|by eapply sem_optional_none].
Qed.

Lemma halting_has_outcome n : has_outcome n.
Proof.
  induction (lt_wf n) as [n _ IH]. intros e frames s Hh Hs.
  destruct e; try (by eapply halts_rule);
    try (eapply outcome_of_item; [reflexivity|];
         apply halts_eval in Hh as (n' & work & fr & s2 & -> & [= <- <- <-] & Hh);
         by eapply (IH n'); [lia|..]).
  - destruct (terminal_matches k (token_at (cursor (engine s)))) eqn:Hm; eexists;
      [by apply sem_token|by apply sem_token_fail].
  - destruct items as [|e items]; [eexists; by apply sem_seq_, seq_done|].
    apply halts_eval in Hh as (n' & work & fr & s2 & -> & [= <- <- <-] & Hh).
    eapply (halts_seq n' _ _ 0) in Hh as [o Ho]; [exists o; by apply sem_seq_| |done|done].
    intros m Hm. apply IH. lia.
  - destruct items as [|e items]; [eexists; apply sem_choice_nil|].
    apply halts_eval in Hh as (n' & work & fr & s2 & -> & [= <- <- <-] & Hh).
    eapply (halts_choice n' _ _ 0) in Hh as [o Ho]; [exists o; by apply sem_choice_| |done
      |by apply good_rewind|done].
    intros m Hm. apply IH. lia.
  - apply halts_eval in Hh as (n' & work & fr & s2 & -> & [= <- <- <-] & Hh).
    apply halts_repeat in Hh as [o Ho]; [exists o; by apply sem_repeat_| |done].
    intros m Hm. apply IH. lia.
  - apply halts_eval in Hh as (n' & work & fr & s2 & -> & [= <- <- <-] & Hh).
    destruct (IH n' ltac:(lia) _ _ _ Hh Hs) as [[children next|f] Ho]; [|eexists; by eapply sem_repeat1_fail].
    destruct (halts_under _ _ _ _ _ _ Hh Hs eq_refl Ho) as (m & s' & Hm & Hs' & Hl & Hr). simpl in Hl.
    apply halts_apply in Hr as (n2 & work & s3 & -> & [= <- <-] & Hr).
    apply halts_push in Hr as (n3 & -> & Hr).
    apply halts_repeat in Hr as [o Ho2]; [|intros m' Hm'; apply IH; lia|done].
    exists o. rewrite Hl in Ho2. by eapply sem_repeat1.
Qed.

(** What an answer of the machine is. *)
Lemma run_answers n e s r s' :
  good s -> run g n (Eval e) [] s = Some (r, s') ->
  exists o, sem e (cursor (engine s)) o /\ result_of o = r /\ lands o s' /\ good s'.
Proof.
  intros Hs Hrun. destruct (halting_has_outcome n e [] s) as [o Ho]; [by eexists|done|]. exists o.
  destruct (simulation _ _ _ Ho s Hs eq_refl) as (k & s2 & Hs2 & Hl & Hk). specialize (Hk [] 1). simpl in Hk.
  apply (run_mono _ (n + (k + 1))) in Hrun; [|lia]. apply (run_mono _ (n + (k + 1))) in Hk; [|lia].
  rewrite Hk in Hrun. by simplify_eq.
Qed.

Lemma good_initial : good (mkState (Engine_new ts end_token) ∅).
Proof. split; [done|done|]. intros r pos m. simpl. by rewrite lookup_empty. Qed.

(** * Properties *)

(** C33. The interpreter implements the grammar: from any machine state whose memo
    table is right, the loop of [parse_expr_iterative] halts with an answer exactly
    when the recursive, memo-free semantics of PEGs with labels and cuts has an
    outcome at the cursor, and then it is that outcome's answer. So neither the
    memo table nor the explicit stack is visible in the answers, and the machine
    diverges only where the grammar does. *)
Theorem interpreter_implements_grammar e s (Hs : good s) r :
  (exists fuel s', run g fuel (Eval e) [] s = Some (r, s')) <->
  (exists o, sem e (cursor (engine s)) o /\ result_of o = r).
Proof.
  split.
  - intros (n & s' & Hrun). apply run_answers in Hrun as (o & Ho & Hr & _); eauto.
  - intros (o & Ho & <-). destruct (simulation _ _ _ Ho s Hs eq_refl) as (k & s2 & _ & _ & Hk).
    exists (k + 1), s2. exact (Hk [] 1).
Qed.
End sem.

(** A grammar of differences: [sum := Int ("-" sum)?], [#stop := !Int]. *)
Definition demo_grammar : Grammar string TokenKind :=
  from_items "sum"
    [IRule "sum" (PSeq [PToken KInt; POptional (PSeq [PToken KSub; PCut (PLabel "summand" (PRule "sum"))])]);
     IComment "lookahead"; IRule "stop" (PNot (PToken KInt))].
Definition demo_int : Token := TokInt 1 Span_default.
Definition demo_minus : Token := TokSub Span_default.
Definition demo_end : Token := TokEof Span_default.
Definition demo_state : State (R := string) (T := Token) :=
  mkState (Engine_new [demo_int; demo_minus; demo_minus] demo_end) ∅.
(** The failure of [1 - -]: the cut commits to a summand at the second minus. *)
Definition demo_failure : Failure :=
  mark_committed (relabel "summand" (fail_at [demo_int; demo_minus; demo_minus] demo_end 2 "INT")).

Lemma interpreter_implements_grammar_witness :
  good demo_grammar [demo_int; demo_minus; demo_minus] demo_end demo_state /\
  (exists fuel s', run demo_grammar fuel (Eval (PRule "sum")) [] demo_state = Some (Err demo_failure, s')) /\
  (exists o, sem demo_grammar [demo_int; demo_minus; demo_minus] demo_end (PRule "sum") 0 o /\
             result_of o = Err demo_failure).
Proof.
  split; [apply good_initial|].
  assert (Hrun : exists fuel s',
    run demo_grammar fuel (Eval (PRule "sum")) [] demo_state = Some (Err demo_failure, s')).
  { exists 50. eexists. vm_compute. reflexivity. }
  split; [exact Hrun|].
  exact (proj1 (interpreter_implements_grammar demo_grammar [demo_int; demo_minus; demo_minus] demo_end
    (PRule "sum") demo_state (good_initial _ _ _) (Err demo_failure)) Hrun).
Defined.
