(* ===== verification/GrammarTerm.v ===== *)
(** What a parse consumes, and when it ends: the leaves of a concrete syntax tree
    are the tokens of its range, and a grammar that passes a decidable check
    (no left recursion) has an outcome at every position, so that the machine of
    [rex-parser/src/grammar.rs] halts on it. *)

From S2P Require Import Prelude Span Token Peg Grammar GrammarSem.

(** * Leaves *)

Section leaves.
Context {R T : Type} `{TE : EngineToken T}.

(** The tokens of a tree from left to right, without end-of-input tokens. *)
Fixpoint leaves (c : Cst R T) : list T :=
  match c with
  | CstToken t => if is_eof t then [] else [t]
  | CstNode _ _ children => concat (map leaves children)
  end.

Definition all_leaves (cs : list (Cst R T)) : list T := concat (map leaves cs).

Lemma all_leaves_app cs ds : all_leaves (cs ++ ds) = all_leaves cs ++ all_leaves ds.
Proof. unfold all_leaves. by rewrite map_app, concat_app. Qed.
End leaves.

Section consumed.
Context {R K T : Type} `{RC : Countable R, TE : EngineToken T, KT : Terminal K T}.
Context (g : Grammar R K) (ts : list T) (end_token : T).
Context (Heof : is_eof end_token = true).

Definition between (pos next : nat) : list T := take (next - pos) (drop pos ts).

Lemma between_nil pos : between pos pos = [].
Proof using. unfold between. by rewrite Nat.sub_diag. Qed.

Lemma between_app a b c : a <= b -> b <= c -> between a b ++ between b c = between a c.
Proof using.
  intros Hab Hbc. unfold between. replace (c - a) with ((b - a) + (c - b)) by lia.
  rewrite <- (take_take_drop (drop a ts)). f_equal. rewrite drop_drop. by replace (a + (b - a)) with b by lia.
Qed.

(** What an outcome says of the tokens it consumed. *)
Definition consumes (pos : nat) (o : outcome (R := R) (T := T)) (before : list (Cst R T)) : Prop :=
  match o with
  | Fails _ => True
  | Succeeds children next =>
      pos <= next /\ next <= Nat.max pos (length ts) /\
      all_leaves children = all_leaves before ++ between pos next
  end.

Lemma consumes_next pos next o acc children :
  pos <= next -> next <= Nat.max pos (length ts) -> all_leaves children = between pos next ->
  consumes next o (acc ++ children) -> consumes pos o acc.
Proof using.
  intros H1 H2 H3. destruct o as [cs n|f]; [|done]. simpl. rewrite all_leaves_app. intros (H4 & H5 & ->).
  split_and!; [lia|lia|]. rewrite <- app_assoc. by rewrite H3, between_app.
Qed.

Lemma consumes_token k pos :
  terminal_matches k (token_at ts end_token pos) = true ->
  consumes pos (Succeeds [CstToken (token_at ts end_token pos)]
    (if is_eof (token_at ts end_token pos) then pos else pos + 1)) [].
Proof using Heof.
  intros _. unfold token_at. destruct (ts !! pos) as [t|] eqn:Ht.
  - apply lookup_lt_Some in Ht as Hlt. simpl. unfold all_leaves. simpl. destruct (is_eof t).
    + split_and!; [lia|lia|]. by rewrite between_nil.
    + split_and!; [lia|lia|]. unfold between. replace (pos + 1 - pos) with 1 by lia.
      by rewrite (drop_S _ _ _ Ht).
  - simpl. rewrite Heof. split_and!; [lia|lia|]. unfold all_leaves. simpl. by rewrite Heof, between_nil.
Qed.

Lemma consumes_all :
  (forall e pos o, sem g ts end_token e pos o -> consumes pos o []) /\
  (forall items pos acc o, sem_seq g ts end_token items pos acc o -> consumes pos o acc) /\
  (forall items pos acc o, sem_choice g ts end_token items pos acc o -> consumes pos o []) /\
  (forall e pos acc o, sem_repeat g ts end_token e pos acc o -> consumes pos o acc).
Proof using Heof.
  apply (sem_all g ts end_token (fun e pos o _ => consumes pos o []) (fun items pos acc o _ => consumes pos o acc)
           (fun items pos acc o _ => consumes pos o []) (fun e pos acc o _ => consumes pos o acc));
    intros; try done; try (by eapply consumes_token);
    try (simpl; split_and!; [lia|lia|rewrite between_nil, ?app_nil_r; done]);
    repeat match goal with H : consumes _ (Succeeds _ _) _ |- _ => destruct H as (?&?&?) end.
  all: try (by eapply (consumes_next pos next)).
  - simpl. split_and!; [lia|lia|]. unfold all_leaves in *. simpl in *. by rewrite app_nil_r.
  - simpl. split_and!; [lia|lia|]. rewrite all_leaves_app, between_nil, app_nil_r. 
    rewrite H1. simpl. by rewrite between_nil, app_nil_r.
Qed.
End consumed.

(** * Grammars without left recursion *)

Section wellformed.
Context {R K : Type} `{RC : Countable R}.

(** What [from_items] indexes is a rule of that name. *)
Lemma index_rules_spec index items m (all : list (Item R K)) r i :
  drop index all = items ->
  (forall r i, m !! r = Some i -> exists e, all !! i = Some (IRule r e)) ->
  index_rules index items m !! r = Some i -> exists e, all !! i = Some (IRule r e).
Proof.
  revert index m. induction items as [|item items IH]; intros index m Hd Hm; [apply Hm|].
  pose proof (drop_head _ _ _ _ Hd) as [Hi Hd']. destruct item as [r' e'|text]; simpl;
    apply IH; try done. intros r2 i2. rewrite lookup_insert_Some. intros [[-> <-]|[_ ?]]; eauto.
Qed.

Lemma from_items_expression start (items : list (Item R K)) r e :
  expression (from_items start items) r = Some e -> IRule r e ∈ items.
Proof.
  unfold expression, from_items. simpl. destruct (index_rules 0 items ∅ !! r) as [i|] eqn:Hi; [|done].
  apply (index_rules_spec 0 items ∅ items) in Hi as [e' He']; [|done|done].
  rewrite He'. intros [= <-]. by eapply list_elem_of_lookup_2.
Qed.

Section Peg_rect.
Context (P : Peg R K -> Prop).
Context (Htoken : forall k, P (PToken k)) (Hrule : forall r, P (PRule r))
  (Hseq : forall items, Forall P items -> P (PSeq items))
  (Hchoice : forall items, Forall P items -> P (PChoice items))
  (Hopt : forall e, P e -> P (POptional e)) (Hrep : forall e, P e -> P (PRepeat e))
  (Hrep1 : forall e, P e -> P (PRepeat1 e)) (Hand : forall e, P e -> P (PAnd e))
  (Hnot : forall e, P e -> P (PNot e)) (Hlabel : forall l e, P e -> P (PLabel l e))
  (Hcut : forall e, P e -> P (PCut e)).

Fixpoint Peg_nested_ind (e : Peg R K) : P e :=
  let all := fix all items : Forall P items :=
    match items with
    | [] => Forall_nil_2 P
    | e :: items => Forall_cons_2 P e items (Peg_nested_ind e) (all items)
    end in
  match e with
  | PToken k => Htoken k
  | PRule r => Hrule r
  | PSeq items => Hseq items (all items)
  | PChoice items => Hchoice items (all items)
  | POptional e => Hopt e (Peg_nested_ind e)
  | PRepeat e => Hrep e (Peg_nested_ind e)
  | PRepeat1 e => Hrep1 e (Peg_nested_ind e)
  | PAnd e => Hand e (Peg_nested_ind e)
  | PNot e => Hnot e (Peg_nested_ind e)
  | PLabel l e => Hlabel l e (Peg_nested_ind e)
  | PCut e => Hcut e (Peg_nested_ind e)
  end.
End Peg_rect.

(** The certificate: which terminals match an end-of-input token, which rules may
    succeed without consuming, and a rank that decreases along calls at the same
    position. *)
Context (eof_kind : K -> bool) (nul : R -> bool) (rank : R -> nat).

Fixpoint nullable (e : Peg R K) : bool :=
  match e with
  | PToken k => eof_kind k
  | PRule r => nul r
  | PSeq items => forallb nullable items
  | PChoice items => existsb nullable items
  | POptional _ | PRepeat _ | PAnd _ | PNot _ => true
  | PRepeat1 e | PLabel _ e | PCut e => nullable e
  end.

(** Every rule called at the position where [e] starts has a rank below [bound]. *)
Fixpoint left_ok (bound : nat) (e : Peg R K) : bool :=
  match e with
  | PToken _ => true
  | PRule r => rank r <? bound
  | PSeq items =>
      (fix seq items := match items with
                        | [] => true
                        | e :: items => left_ok bound e && (negb (nullable e) || seq items)
                        end) items
  | PChoice items => forallb (left_ok bound) items
  | POptional e | PRepeat e | PRepeat1 e | PAnd e | PNot e | PLabel _ e | PCut e => left_ok bound e
  end.

(** Those rules themselves. *)
Fixpoint left_calls (e : Peg R K) : list R :=
  match e with
  | PToken _ => []
  | PRule r => [r]
  | PSeq items =>
      (fix seq items := match items with
                        | [] => []
                        | e :: items => left_calls e ++ (if nullable e then seq items else [])
                        end) items
  | PChoice items => concat (map left_calls items)
  | POptional e | PRepeat e | PRepeat1 e | PAnd e | PNot e | PLabel _ e | PCut e => left_calls e
  end.

(** A rank for a grammar: the depth of the calls at one position, up to [fuel]. *)
Fixpoint left_depth (g : Grammar R K) (fuel : nat) (r : R) : nat :=
  match fuel, expression g r with
  | S fuel, Some e => S (foldr Nat.max 0 (map (left_depth g fuel) (left_calls e)))
  | _, _ => 0
  end.

Definition rule_ok (item : Item R K) : bool :=
  match item with
  | IRule r e => (nul r || negb (nullable e)) && left_ok (rank r) e
  | IComment _ => true
  end.

Lemma left_ok_mono e b b' : b <= b' -> left_ok b e = true -> left_ok b' e = true.
Proof using.
  intros Hb. induction e as [k|r|items IH|items IH|e IH|e IH|e IH|e IH|e IH|l e IH|e IH] using Peg_nested_ind;
    simpl; try done.
  - rewrite !Nat.ltb_lt. lia.
  - induction IH as [|e items He _ IHi]; [done|].
    rewrite !andb_true_iff, !orb_true_iff. intros [H1 [H2|H2]]; auto.
  - induction IH as [|e items He _ IHi]; [done|]. simpl. rewrite !andb_true_iff. intros [H1 H2]; auto.
Qed.

Lemma left_ok_bound e : exists b, left_ok b e = true.
Proof using.
  induction e as [k|r|items IH|items IH|e IH|e IH|e IH|e IH|e IH|l e IH|e IH] using Peg_nested_ind;
    simpl; try done.
  - by exists 0.
  - exists (S (rank r)). apply Nat.ltb_lt. lia.
  - induction IH as [|e items [b He] _ [b' IHi]]; [by exists 0|]. exists (Nat.max b b').
    rewrite !andb_true_iff, !orb_true_iff. split; [|right].
    + eapply left_ok_mono; [|done]. lia.
    + assert (Hm : left_ok b' (PSeq items) = true) by done.
      apply (left_ok_mono _ _ (Nat.max b b')) in Hm; [done|lia].
  - induction IH as [|e items [b He] _ [b' IHi]]; [by exists 0|]. exists (Nat.max b b'). simpl.
    rewrite !andb_true_iff. split.
    + eapply left_ok_mono; [|done]. lia.
    + assert (Hm : left_ok b' (PChoice items) = true) by done.
      apply (left_ok_mono _ _ (Nat.max b b')) in Hm; [done|lia].
Qed.
End wellformed.

Section total.
Context {R K T : Type} `{RC : Countable R, TE : EngineToken T, KT : Terminal K T}.
Context (start : R) (items : list (Item R K)) (ts : list T) (end_token : T).
Context (Heof : is_eof end_token = true).
Context (eof_kind : K -> bool) (nul : R -> bool) (rank : R -> nat).
Context (Hkind : forall k t, terminal_matches k t = true -> is_eof t = true -> eof_kind k = true).
Context (Hok : forallb (rule_ok eof_kind nul rank) items = true).

Local Abbreviation g := (from_items start items).
Local Abbreviation means := (sem g ts end_token).

Lemma rule_checked r e : expression g r = Some e ->
  (nullable eof_kind nul e = true -> nul r = true) /\ left_ok eof_kind nul rank (rank r) e = true.
Proof using Hok.
  intros He. apply from_items_expression in He. rewrite forallb_forall in Hok.
  apply list_elem_of_In, Hok in He. simpl in He. apply andb_true_iff in He as [H1 H2].
  split; [|done]. intros Hn. rewrite Hn in H1. by destruct (nul r).
Qed.

Lemma means_consumes e pos children next : means e pos (Succeeds children next) ->
  pos <= next /\ next <= Nat.max pos (length ts) /\ all_leaves children = between ts pos next.
Proof using Heof. apply (proj1 (consumes_all g ts end_token Heof)). Qed.

(** An expression that is not nullable consumes a token when it succeeds. *)
Definition progresses (from : nat) (o : outcome (R := R) (T := T)) : Prop :=
  match o with Succeeds _ next => from < next | Fails _ => True end.

Lemma consumes_progresses from pos o acc : from < pos -> consumes ts pos o acc -> progresses from o.
Proof using. destruct o as [children next|f]; [|done]. simpl. lia. Qed.

Lemma progress_seq e tail pos children next acc o :
  means e pos (Succeeds children next) -> sem_seq g ts end_token tail next acc o ->
  (nullable eof_kind nul e = false -> pos < next) ->
  (forallb (nullable eof_kind nul) tail = false -> progresses next o) ->
  forallb (nullable eof_kind nul) (e :: tail) = false -> progresses pos o.
Proof using Heof.
  intros He Ho H1 H2 Hn. apply means_consumes in He as (Hle & _).
  apply (proj1 (proj2 (consumes_all g ts end_token Heof))) in Ho. simpl in Hn.
  destruct (nullable eof_kind nul e); simpl in Hn.
  - specialize (H2 Hn). destruct o as [cs n|]; [|done]. simpl in *. lia.
  - eapply consumes_progresses; [by apply H1|exact Ho].
Qed.

Lemma progress_all :
  (forall e pos o, means e pos o -> nullable eof_kind nul e = false -> progresses pos o) /\
  (forall items pos acc o, sem_seq g ts end_token items pos acc o ->
     forallb (nullable eof_kind nul) items = false -> progresses pos o) /\
  (forall items pos acc o, sem_choice g ts end_token items pos acc o ->
     existsb (nullable eof_kind nul) items = false -> progresses pos o) /\
  (forall e pos acc o, sem_repeat g ts end_token e pos acc o -> True).
Proof using Heof Hkind Hok.
  apply (sem_all g ts end_token (fun e pos o _ => nullable eof_kind nul e = false -> progresses pos o)
    (fun items pos acc o _ => forallb (nullable eof_kind nul) items = false -> progresses pos o)
    (fun items pos acc o _ => existsb (nullable eof_kind nul) items = false -> progresses pos o)
    (fun e pos acc o _ => True)); intros; simpl in *; try done; eauto;
    try match goal with H : _ || _ = false |- _ => apply orb_false_iff in H as [? ?]; by eauto end.
  - case_match eqn:Ht; [|lia]. by rewrite (Hkind _ _ e Ht) in *.
  - match goal with H : expression _ _ = Some ?b |- _ => destruct (rule_checked _ _ H) as [Hn _];
      destruct (nullable eof_kind nul b); eauto; by rewrite Hn in * end.
  - match goal with H : sem_repeat _ _ _ _ _ _ _ |- _ =>
      apply (proj2 (proj2 (proj2 (consumes_all g ts end_token Heof)))) in H;
      eapply consumes_progresses; [|exact H]; eauto end.
  - by eapply progress_seq.
Qed.

(** * Totality *)

(** Outcomes at all later positions. *)
Definition total_after (pos : nat) : Prop :=
  forall pos' e, pos < pos' -> pos' <= length ts -> exists o, means e pos' o.

Lemma next_position e pos children next :
  pos <= length ts -> means e pos (Succeeds children next) -> pos <= next /\ next <= length ts.
Proof using Heof. intros Hp H. apply means_consumes in H as (H1 & H2 & _). lia. Qed.

(** A sequence past its first item, when the position has moved. *)
Lemma total_seq_after pos tail acc pos' :
  total_after pos -> pos < pos' -> pos' <= length ts -> exists o, sem_seq g ts end_token tail pos' acc o.
Proof using Heof.
  intros Hlater. revert pos' acc. induction tail as [|e tail IH]; intros pos' acc Hlt Hle.
  - eexists. apply seq_done.
  - destruct (Hlater pos' e Hlt Hle) as [[children next|f] Ho]; [|eexists; by eapply seq_fail].
    destruct (next_position _ _ _ _ Hle Ho). destruct (IH next (acc ++ children)) as [o Ho2]; [lia|lia|].
    exists o. by eapply seq_next.
Qed.

Lemma total_repeat_after pos e acc pos' :
  total_after pos -> pos < pos' -> pos' <= length ts -> exists o, sem_repeat g ts end_token e pos' acc o.
Proof using Heof.
  intros Hlater. remember (length ts - pos') as n eqn:Hn. revert pos' acc Hn.
  induction (lt_wf n) as [n _ IH]. intros pos' acc Hn Hlt Hle.
  destruct (Hlater pos' e Hlt Hle) as [[children next|f] Ho].
  - destruct (next_position _ _ _ _ Hle Ho). destruct (decide (next = pos')) as [->|Hne].
    { eexists. by eapply repeat_stuck. }
    destruct (IH (length ts - next) ltac:(lia) next (acc ++ children)) as [o Ho2]; [done|lia|lia|].
    exists o. by eapply repeat_more.
  - destruct (fail_committed f) eqn:Hf; eexists; [by eapply repeat_cut|by eapply repeat_stop].
Qed.

Local Abbreviation left_total bound pos := (fun e => left_ok eof_kind nul rank bound e = true -> exists o, means e pos o).

Lemma total_seq bound pos tail acc :
  pos <= length ts -> total_after pos -> Forall (left_total bound pos) tail ->
  left_ok eof_kind nul rank bound (PSeq tail) = true -> exists o, sem_seq g ts end_token tail pos acc o.
Proof using Heof Hkind Hok.
  intros Hp Hlater Hall. revert acc. induction Hall as [|e tail He _ IH]; intros acc Hc.
  { eexists. apply seq_done. }
  simpl in Hc. apply andb_true_iff in Hc as [Hc1 Hc2].
  destruct (He Hc1) as [[children next|f] Ho]; [|eexists; by eapply seq_fail].
  destruct (next_position _ _ _ _ Hp Ho) as [H1 H2].
  destruct (decide (next = pos)) as [->|Hne].
  - assert (Hn : nullable eof_kind nul e = true).
    { destruct (nullable eof_kind nul e) eqn:Hn; [done|].
      apply (proj1 progress_all) in Ho; [|done]. simpl in Ho. lia. }
    rewrite Hn in Hc2. destruct (IH (acc ++ children) Hc2) as [o Ho2]. exists o. by eapply seq_next.
  - destruct (total_seq_after pos tail (acc ++ children) next) as [o Ho2]; [done|lia|done|].
    exists o. by eapply seq_next.
Qed.

Lemma total_choice bound pos e tail acc :
  Forall (left_total bound pos) (e :: tail) ->
  left_ok eof_kind nul rank bound (PChoice (e :: tail)) = true ->
  exists o, sem_choice g ts end_token (e :: tail) pos acc o.
Proof using.
  revert e acc. induction tail as [|e2 tail IH]; intros e acc Hall Hc; simpl in Hc;
    apply andb_true_iff in Hc as [Hc1 Hc2]; apply Forall_cons in Hall as [He Hall];
    (destruct (He Hc1) as [[children next|f] Ho]; [eexists; by eapply choice_ok|]);
    (destruct (fail_committed f) eqn:Hf; [eexists; by eapply choice_cut|]).
  - assert (exists m, merge_failure acc f = Some m) as [m Hm] by (destruct acc; simpl; eauto).
    eexists. by eapply choice_last.
  - destruct (IH e2 (merge_failure acc f)) as [o Ho2]; [done|done|]. exists o. by eapply choice_next.
Qed.

Lemma total_repeat pos e acc :
  pos <= length ts -> total_after pos -> (exists o, means e pos o) ->
  exists o, sem_repeat g ts end_token e pos acc o.
Proof using Heof.
  intros Hp Hlater [[children next|f] Ho].
  - destruct (next_position _ _ _ _ Hp Ho) as [H1 H2]. destruct (decide (next = pos)) as [->|Hne].
    { eexists. by eapply repeat_stuck. }
    destruct (total_repeat_after pos e (acc ++ children) next) as [o Ho2]; [done|lia|done|].
    exists o. by eapply repeat_more.
  - destruct (fail_committed f) eqn:Hf; eexists; [by eapply repeat_cut|by eapply repeat_stop].
Qed.

Lemma total_repeat1 pos e :
  pos <= length ts -> total_after pos -> (exists o, means e pos o) -> exists o, means (PRepeat1 e) pos o.
Proof using Heof.
  intros Hp Hlater He. pose proof He as [[children next|f] Ho]; [|eexists; by eapply sem_repeat1_fail].
  destruct (next_position _ _ _ _ Hp Ho) as [H1 H2]. destruct (decide (next = pos)) as [->|Hne].
  - destruct (total_repeat pos e children Hp Hlater He) as [o Ho2]. exists o. by eapply sem_repeat1.
  - destruct (total_repeat_after pos e children next) as [o Ho2]; [done|lia|done|].
    exists o. by eapply sem_repeat1.
Qed.

Lemma total_left pos bound e :
  pos <= length ts -> total_after pos -> left_total bound pos e.
Proof using Heof Hkind Hok.
  intros Hp Hlater. revert e. induction (lt_wf bound) as [bound _ IHb]. intros e.
  induction e as [k|r|tail IH|tail IH|e IH|e IH|e IH|e IH|e IH|l e IH|e IH] using Peg_nested_ind; intros Hc;
    try (eapply outcome_of_item; [reflexivity|]; by apply IH).
  - destruct (terminal_matches k (token_at ts end_token pos)) eqn:Hm; eexists;
      [by apply sem_token|by apply sem_token_fail].
  - destruct (expression g r) as [e|] eqn:He; [|eexists; by apply sem_rule_unknown].
    destruct (rule_checked r e He) as [_ Hl]. simpl in Hc. apply Nat.ltb_lt in Hc.
    destruct (IHb _ Hc e Hl) as [[children next|f] Ho]; eexists; [by eapply sem_rule|by eapply sem_rule_fail].
  - destruct (total_seq bound pos tail []) as [o Ho]; [done|done|done|done|]. exists o. by apply sem_seq_.
  - destruct tail as [|e tail]; [eexists; apply sem_choice_nil|].
    destruct (total_choice bound pos e tail None) as [o Ho]; [done|done|]. exists o. by apply sem_choice_.
  - destruct (total_repeat pos e []) as [o Ho]; [done|done|by apply IH|]. exists o. by apply sem_repeat_.
  - apply total_repeat1; [done|done|by apply IH].
Qed.

(** Every expression has an outcome at every position of the input. *)
Lemma checked_total e pos : pos <= length ts -> exists o, means e pos o.
Proof using Heof Hkind Hok.
  remember (length ts - pos) as n eqn:Hn. revert e pos Hn. induction (lt_wf n) as [n _ IH].
  intros e pos Hn Hp. destruct (left_ok_bound eof_kind nul rank e) as [bound Hb].
  apply (total_left pos bound e Hp); [|done]. intros pos' e' Hlt Hle.
  apply (IH (length ts - pos')); lia.
Qed.
End total.

(** * Whole parses *)

Section parses.
Context {R K T : Type} `{RC : Countable R, TE : EngineToken T, KT : Terminal K T}.
Context (ts : list T) (end_token : T) (Heof : is_eof end_token = true).

(** A rule's outcome is its node, or a failure. *)
Lemma rule_shape (g : Grammar R K) r pos o : sem g ts end_token (PRule r) pos o ->
  (exists sp children next, o = Succeeds [CstNode r sp children] next) \/ (exists f, o = Fails f).
Proof using. intros Ho. inversion Ho; subst; [right|left|right]; eauto. Qed.

Lemma parse_rule_ok (g : Grammar R K) fuel r s c s' :
  good g ts end_token s -> parse_rule g fuel r s = Some (Ok c, s') ->
  sem g ts end_token (PRule r) (cursor (engine s)) (Succeeds [c] (cursor (engine s'))) /\
  exists sp children, c = CstNode r sp children.
Proof using.
  intros Hs. unfold parse_rule. destruct (run g fuel (Eval (PRule r)) [] s) as [[res s2]|] eqn:Hrun; [|done].
  apply (run_answers g ts end_token) in Hrun as (o & Ho & <- & Hl & _); [|done].
  destruct (rule_shape g _ _ _ Ho) as [(sp & children & next & ->)|[f ->]]; simpl; [|done].
  intros [= <- <-]. simpl in Hl. rewrite Hl. eauto.
Qed.

(** A parser of a grammar that passes the check answers. *)
Lemma parse_start_halts (start : R) (items : list (Item R K)) (eof_kind : K -> bool) (nul : R -> bool)
    (rank : R -> nat) :
  (forall k t, terminal_matches k t = true -> is_eof t = true -> eof_kind k = true) ->
  forallb (rule_ok eof_kind nul rank) items = true ->
  exists fuel x, parse_start (from_items start items) fuel (Engine_new ts end_token) = Some x.
Proof using Heof.
  intros Hkind Hok.
  destruct (checked_total start items ts end_token Heof eof_kind nul rank Hkind Hok (PRule start) 0) as [o Ho];
    [lia|].
  destruct (simulation _ _ _ _ _ _ Ho (mkState (Engine_new ts end_token) ∅) (good_initial _ _ _) eq_refl)
    as (k & s' & _ & _ & Hk).
  exists (k + 1). specialize (Hk [] 1). unfold parse_start, parse_rule. simpl in Hk |- *. rewrite Hk.
  destruct (rule_shape _ _ _ _ Ho) as [(sp & children & next & ->)|[f ->]]; eexists; reflexivity.
Qed.

(** A tree that a parse answers is a node of the start rule, and it is a
    lossless account of the input: its leaves, end-of-input tokens aside, are
    exactly the tokens before the final cursor, in their order. *)
Theorem parse_tree_is_lossless (g : Grammar R K) fuel c s' :
  parse_start g fuel (Engine_new ts end_token) = Some (Ok c, s') ->
  (exists sp children, c = CstNode (start g) sp children) /\
  cursor (engine s') <= length ts /\ leaves c = take (cursor (engine s')) ts.
Proof using Heof.
  intros Hp. apply parse_rule_ok in Hp as [Ho Hc]; [|apply good_initial]. split; [done|].
  apply (proj1 (consumes_all g ts end_token Heof)) in Ho as (_ & Hle & Hl). split; [simpl in *; lia|].
  unfold all_leaves, between in Hl. simpl in Hl. rewrite app_nil_r, Nat.sub_0_r in Hl. exact Hl.
Qed.
End parses.

Lemma parse_tree_is_lossless_witness :
  exists c s', parse_start demo_grammar 60 (Engine_new [demo_int; demo_minus; demo_int] demo_end) = Some (Ok c, s') /\
    (exists sp children, c = CstNode (start demo_grammar) sp children) /\
    cursor (engine s') <= length [demo_int; demo_minus; demo_int] /\
    leaves c = take (cursor (engine s')) [demo_int; demo_minus; demo_int].
Proof.
  assert (Hp : exists c s', parse_start demo_grammar 60
    (Engine_new [demo_int; demo_minus; demo_int] demo_end) = Some (Ok c, s')).
  { eexists _, _. vm_compute. reflexivity. }
  destruct Hp as (c & s' & Hp). exists c, s'. split; [exact Hp|].
  exact (parse_tree_is_lossless [demo_int; demo_minus; demo_int] demo_end (eq_refl true) demo_grammar 60 c s' Hp).
Defined.

(** The certificate of the demonstration grammar. *)
Definition demo_eof_kind (k : TokenKind) : bool := match k with KEof => true | _ => false end.

Lemma token_eof_kind k (t : Token) : terminal_matches k t = true -> is_eof t = true -> demo_eof_kind k = true.
Proof. by destruct t; destruct k. Qed.

(** A grammar without left recursion is total: when a certificate (which
    terminals match the end of input, which rules may succeed without consuming, a
    rank that falls along calls at the same position) passes the check, every
    expression has exactly one outcome at every position, a success does not go
    past the input, and one that is not nullable consumes a token. *)
Theorem checked_grammar_total {R K T : Type} `{RC : Countable R, TE : EngineToken T, KT : Terminal K T}
    (begin_rule : R) (items : list (Item R K)) (ts : list T) (end_token : T)
    (eof_kind : K -> bool) (nul : R -> bool) (rank : R -> nat)
    (Heof : is_eof end_token = true)
    (Hkind : forall k t, terminal_matches k t = true -> is_eof t = true -> eof_kind k = true)
    (Hok : forallb (rule_ok eof_kind nul rank) items = true) e pos (Hpos : pos <= length ts) :
  exists o, sem (from_items begin_rule items) ts end_token e pos o /\
    (forall o', sem (from_items begin_rule items) ts end_token e pos o' -> o' = o) /\
    match o with
    | Succeeds _ next =>
        pos <= next <= length ts /\ (nullable eof_kind nul e = false -> pos < next)
    | Fails _ => True
    end.
Proof.
  destruct (checked_total begin_rule items ts end_token Heof eof_kind nul rank Hkind Hok e pos Hpos) as [o Ho].
  exists o. split_and!; [done|intros o' Ho'; by eapply sem_deterministic|].
  destruct o as [children next|f]; [|done].
  destruct (means_consumes begin_rule items ts end_token Heof _ _ _ _ Ho) as (H1 & H2 & _).
  split; [lia|]. intros Hn.
  by apply (proj1 (progress_all begin_rule items ts end_token Heof eof_kind nul rank Hkind Hok)) in Ho.
Qed.

Lemma checked_grammar_total_witness :
  let items := grammar_items demo_grammar in
  let ts := [demo_int; demo_minus] in
  let nul := fun r => bool_decide (r = "stop") in
  let rank := fun _ : string => 0 in
  forallb (rule_ok demo_eof_kind nul rank) items = true /\
  exists o, sem (from_items "sum" items) ts demo_end (PRule "sum") 1 o /\
    (forall o', sem (from_items "sum" items) ts demo_end (PRule "sum") 1 o' -> o' = o) /\
    match o with
    | Succeeds _ next => 1 <= next <= 2 /\ (nullable demo_eof_kind nul (PRule "sum" : Peg string TokenKind) = false -> 1 < next)
    | Fails _ => True
    end.
Proof.
  intros items ts nul rank. assert (Hok : forallb (rule_ok demo_eof_kind nul rank) items = true) by reflexivity.
  assert (He : is_eof demo_end = true) by reflexivity. split; [exact Hok|].
  apply (checked_grammar_total "sum" items ts demo_end demo_eof_kind nul rank He token_eof_kind Hok).
  simpl. lia.
Defined.
