(* ===== verification/RexGrammar.v ===== *)
(** The Rex grammar: [rex-parser/src/rex.rs]. The grammar value itself, and that the
    parser of it answers on every token sequence. *)

From S2P Require Import Prelude Span Token Peg Grammar GrammarSem GrammarTerm.

(** * Rules *)

Module R.
Inductive RexRule : Type :=
  | CompilationUnit | Decl | PublicDecl | PrivateDecl | DeclBody | ImportDecl | ImportPath
  | DottedImportPath | RelativeImportPath | RelativePrefix | ImportPathSegment | ImportClause
  | ImportItem | ImportAlias | TypeDecl | GenericParams | TypeParam | TypeVariant | FnDecl
  | FnSignatureDecl | FnParamDecl | FnParams | ArrowParam | NamedParam | ParenParam
  | LegacyParamGroup | LegacyParam | DeclareFnDecl | DeclareParamSig | BareFnSig | ClassDecl
  | SuperClause | ClassBlock | ClassMethod | InstanceDecl | InstanceContext | InstanceBlock
  | InstanceMethod | WhereConstraints | TypeConstraints | TypeConstraint | TypeExpr | TypeFun
  | TypeApp | TypeAtom | TypeParen | UnitType | TupleType | GroupedType | TypeRecord | TypeField
  | Expr | BinaryOp | UnaryExpr | ApplicationExpr | PostfixExpr | FieldName | AtomExpr | HoleExpr
  | IdentExpr | BraceExpr | ParenExpr | UnitExpr | OperatorNameExpr | TupleExpr | GroupedExpr
  | ListExpr | DictExpr | DictItem | BadDictItem | RecordUpdateExpr | NegExpr | LambdaExpr
  | LambdaParam | LetExpr | LetBinding | LetRecBinding | IfExpr | MatchExpr | MatchArm | Pattern
  | AppPattern | PatternAtom | ListPattern | DictPattern | DictPatternField | ParenPattern
  | NameRef | ValueName.
End R.
Abbreviation RexRule := R.RexRule.

Definition all_rules : list RexRule :=
  [R.CompilationUnit; R.Decl; R.PublicDecl; R.PrivateDecl; R.DeclBody; R.ImportDecl;
   R.ImportPath; R.DottedImportPath; R.RelativeImportPath; R.RelativePrefix;
   R.ImportPathSegment; R.ImportClause; R.ImportItem; R.ImportAlias; R.TypeDecl;
   R.GenericParams; R.TypeParam; R.TypeVariant; R.FnDecl; R.FnSignatureDecl; R.FnParamDecl;
   R.FnParams; R.ArrowParam; R.NamedParam; R.ParenParam; R.LegacyParamGroup; R.LegacyParam;
   R.DeclareFnDecl; R.DeclareParamSig; R.BareFnSig; R.ClassDecl; R.SuperClause; R.ClassBlock;
   R.ClassMethod; R.InstanceDecl; R.InstanceContext; R.InstanceBlock; R.InstanceMethod;
   R.WhereConstraints; R.TypeConstraints; R.TypeConstraint; R.TypeExpr; R.TypeFun; R.TypeApp;
   R.TypeAtom; R.TypeParen; R.UnitType; R.TupleType; R.GroupedType; R.TypeRecord; R.TypeField;
   R.Expr; R.BinaryOp; R.UnaryExpr; R.ApplicationExpr; R.PostfixExpr; R.FieldName; R.AtomExpr;
   R.HoleExpr; R.IdentExpr; R.BraceExpr; R.ParenExpr; R.UnitExpr; R.OperatorNameExpr;
   R.TupleExpr; R.GroupedExpr; R.ListExpr; R.DictExpr; R.DictItem; R.BadDictItem;
   R.RecordUpdateExpr; R.NegExpr; R.LambdaExpr; R.LambdaParam; R.LetExpr; R.LetBinding;
   R.LetRecBinding; R.IfExpr; R.MatchExpr; R.MatchArm; R.Pattern; R.AppPattern; R.PatternAtom;
   R.ListPattern; R.DictPattern; R.DictPatternField; R.ParenPattern; R.NameRef; R.ValueName].

#[export] Instance RexRule_eq_dec : EqDecision RexRule.
Proof. solve_decision. Defined.

Definition rule_index (r : RexRule) : nat :=
  match list_find (r =.) all_rules with Some (i, _) => i | None => 0 end.

#[export] Instance RexRule_countable : Countable RexRule.
Proof.
  refine (inj_countable rule_index (fun i => all_rules !! i) _). by intros [].
Defined.

(** * The grammar *)

Import Build.

Definition grammar_comment (text : string) : Item RexRule TokenKind := IComment text.
Definition grammar_rule (rule : RexRule) (expression : Peg RexRule TokenKind) : Item RexRule TokenKind :=
  IRule rule expression.

Definition rex_compilation_unit : list (Item RexRule TokenKind) :=
  [grammar_comment "CompilationUnit";
   grammar_rule R.CompilationUnit (seq [rep (rule R.Decl); opt (rule R.Expr); tok KEof])].

Definition rex_declarations : list (Item RexRule TokenKind) :=
  [grammar_comment "Declarations";
   grammar_rule R.Decl (choice [rule R.PublicDecl; rule R.PrivateDecl]);
   grammar_rule R.PublicDecl (seq [tok KPub; rule R.DeclBody]);
   grammar_rule R.PrivateDecl (rule R.DeclBody);
   grammar_rule R.DeclBody
     (choice [rule R.ImportDecl;
              rule R.TypeDecl;
              rule R.FnDecl;
              rule R.DeclareFnDecl;
              rule R.ClassDecl;
              rule R.InstanceDecl])].

Definition rex_imports : list (Item RexRule TokenKind) :=
  [grammar_comment "Imports";
   grammar_rule R.ImportDecl
     (seq [tok KImport;
           cut (seq [rule R.ImportPath;
                     opt (rule R.ImportClause);
                     opt (rule R.ImportAlias);
                     label "expected `;` after import declaration" (tok KSemiColon)])]);
   grammar_rule R.ImportPath (choice [rule R.RelativeImportPath; rule R.DottedImportPath]);
   grammar_rule R.DottedImportPath (seq [tok KIdent; rep (seq [tok KDot; tok KIdent])]);
   grammar_rule R.RelativeImportPath
     (seq [rule R.RelativePrefix; tok KIdent; rep (rule R.ImportPathSegment)]);
   grammar_rule R.RelativePrefix (rep1 (choice [seq [tok KDot; tok KDiv]; seq [tok KDotDot; tok KDiv]]));
   grammar_rule R.ImportPathSegment (seq [choice [tok KDot; tok KDiv]; tok KIdent]);
   grammar_rule R.ImportClause
     (choice [seq [tok KParenL; tok KMul; tok KParenR];
              seq [tok KParenL; rule R.ImportItem; rep (seq [tok KComma; rule R.ImportItem]); tok KParenR]]);
   grammar_rule R.ImportItem (seq [rule R.ValueName; opt (seq [tok KAs; tok KIdent])]);
   grammar_rule R.ImportAlias (seq [tok KAs; tok KIdent])].

Definition rex_type_declarations : list (Item RexRule TokenKind) :=
  [grammar_comment "Type declarations";
   grammar_rule R.TypeDecl
     (seq [tok KType;
           cut (seq [tok KIdent;
                     rep (rule R.TypeParam);
                     tok KAssign;
                     choice [rule R.TypeRecord;
                             seq [rule R.TypeVariant; rep (seq [tok KPipe; rule R.TypeVariant])]];
                     label "expected `;` after type declaration" (tok KSemiColon)])]);
   grammar_rule R.GenericParams (seq [tok KLt; tok KIdent; rep (seq [tok KComma; tok KIdent]); tok KGt]);
   grammar_rule R.TypeParam (tok KIdent);
   grammar_rule R.TypeVariant (seq [tok KIdent; rep (rule R.TypeAtom)])].

Definition rex_function_declarations : list (Item RexRule TokenKind) :=
  [grammar_comment "Function declarations";
   grammar_rule R.FnDecl
     (seq [tok KFn;
           cut (seq [tok KIdent;
                     opt (rule R.GenericParams);
                     choice [rule R.FnSignatureDecl; rule R.FnParamDecl]])]);
   grammar_rule R.FnSignatureDecl
     (seq [tok KColon;
           rule R.TypeExpr;
           opt (rule R.WhereConstraints);
           tok KAssign;
           rule R.Expr;
           label "expected `;` after function body" (tok KSemiColon)]);
   grammar_rule R.FnParamDecl
     (seq [rule R.FnParams;
           tok KArrowR;
           rule R.TypeExpr;
           opt (rule R.WhereConstraints);
           tok KAssign;
           rule R.Expr;
           label "expected `;` after function body" (tok KSemiColon)]);
   grammar_rule R.FnParams
     (choice [seq [rule R.ArrowParam; rep (seq [tok KArrowR; rule R.ArrowParam])]; rule R.LegacyParamGroup]);
   grammar_rule R.ArrowParam (choice [rule R.ParenParam; rule R.NamedParam]);
   grammar_rule R.NamedParam (seq [tok KIdent; tok KColon; rule R.TypeApp]);
   grammar_rule R.ParenParam (seq [tok KParenL; tok KIdent; tok KColon; rule R.TypeExpr; tok KParenR]);
   grammar_rule R.LegacyParamGroup
     (seq [tok KParenL;
           opt (seq [rule R.LegacyParam; rep (seq [tok KComma; rule R.LegacyParam])]);
           tok KParenR]);
   grammar_rule R.LegacyParam (seq [tok KIdent; tok KColon; rule R.TypeExpr]);
   grammar_rule R.DeclareFnDecl
     (seq [tok KDeclare;
           cut (seq [tok KFn;
                     tok KIdent;
                     opt (rule R.GenericParams);
                     opt (tok KColon);
                     choice [rule R.DeclareParamSig; rule R.BareFnSig];
                     label "expected `;` after declare fn declaration" (tok KSemiColon)])]);
   grammar_rule R.DeclareParamSig
     (seq [rule R.FnParams; tok KArrowR; rule R.TypeExpr; opt (rule R.WhereConstraints)]);
   grammar_rule R.BareFnSig (seq [rule R.TypeExpr; opt (rule R.WhereConstraints)])].

Definition rex_type_classes_and_instances : list (Item RexRule TokenKind) :=
  [grammar_comment "Type classes and instances";
   grammar_rule R.ClassDecl
     (seq [tok KClass;
           cut (seq [tok KIdent;
                     rep (rule R.TypeParam);
                     opt (rule R.SuperClause);
                     label "expected `where { ... }` or `;` after class header"
                       (choice [rule R.ClassBlock; tok KSemiColon])])]);
   grammar_rule R.SuperClause (seq [tok KLe; rule R.TypeConstraints]);
   grammar_rule R.ClassBlock
     (seq [tok KWhere;
           label "expected `{` after `where` in class declaration" (tok KBraceL);
           opt (seq [rule R.ClassMethod;
                     rep (seq [tok KSemiColon; rule R.ClassMethod]);
                     opt (tok KSemiColon)]);
           tok KBraceR]);
   grammar_rule R.ClassMethod
     (seq [rule R.ValueName; opt (rule R.GenericParams); tok KColon; rule R.TypeExpr]);
   grammar_rule R.InstanceDecl
     (seq [tok KInstance;
           cut (seq [opt (rule R.GenericParams);
                     rule R.NameRef;
                     rule R.TypeApp;
                     opt (rule R.InstanceContext);
                     label "expected `where { ... }` or `;` after instance header"
                       (choice [rule R.InstanceBlock; tok KSemiColon])])]);
   grammar_rule R.InstanceContext (seq [tok KLe; rule R.TypeConstraints]);
   grammar_rule R.InstanceBlock
     (seq [tok KWhere;
           label "expected `{` after `where` in instance declaration" (tok KBraceL);
           opt (seq [rule R.InstanceMethod;
                     rep (seq [tok KSemiColon; rule R.InstanceMethod]);
                     opt (tok KSemiColon)]);
           tok KBraceR]);
   grammar_rule R.InstanceMethod
     (seq [rule R.ValueName;
           opt (rule R.GenericParams);
           opt (seq [tok KColon; rule R.TypeExpr]);
           tok KAssign;
           rule R.Expr]);
   grammar_rule R.WhereConstraints (seq [tok KWhere; rule R.TypeConstraints]);
   grammar_rule R.TypeConstraints
     (seq [rule R.TypeConstraint; rep (seq [tok KComma; rule R.TypeConstraint])]);
   grammar_rule R.TypeConstraint (seq [rule R.NameRef; rule R.TypeApp])].

Definition rex_type_expressions : list (Item RexRule TokenKind) :=
  [grammar_comment "Type expressions";
   grammar_rule R.TypeExpr (rule R.TypeFun);
   grammar_rule R.TypeFun (seq [rule R.TypeApp; opt (seq [tok KArrowR; rule R.TypeFun])]);
   grammar_rule R.TypeApp (rep1 (rule R.TypeAtom));
   grammar_rule R.TypeAtom (choice [rule R.NameRef; rule R.TypeParen; rule R.TypeRecord]);
   grammar_rule R.TypeParen (choice [rule R.UnitType; rule R.TupleType; rule R.GroupedType]);
   grammar_rule R.UnitType (seq [tok KParenL; tok KParenR]);
   grammar_rule R.TupleType
     (seq [tok KParenL;
           rule R.TypeExpr;
           tok KComma;
           cut (seq [rule R.TypeExpr; rep (seq [tok KComma; cut (rule R.TypeExpr)]); tok KParenR])]);
   grammar_rule R.GroupedType (seq [tok KParenL; rule R.TypeExpr; tok KParenR]);
   grammar_rule R.TypeRecord
     (seq [tok KBraceL;
           opt (seq [rule R.TypeField; rep (seq [tok KComma; cut (rule R.TypeField)])]);
           tok KBraceR]);
   grammar_rule R.TypeField (seq [tok KIdent; tok KColon; rule R.TypeExpr])].

Definition rex_expressions_1 : list (Item RexRule TokenKind) :=
  [grammar_comment "Expressions";
   grammar_rule R.Expr (seq [rule R.UnaryExpr; rep (seq [rule R.BinaryOp; cut (rule R.UnaryExpr)])]);
   grammar_rule R.BinaryOp (tok KBinaryOperator);
   grammar_rule R.UnaryExpr (seq [rule R.ApplicationExpr; rep (seq [tok KIs; rule R.TypeExpr])]);
   grammar_rule R.ApplicationExpr
     (seq [rule R.PostfixExpr;
           rep (seq [and (choice [tok KParenL;
                                  tok KBracketL;
                                  tok KBraceL;
                                  tok KBool;
                                  tok KChar;
                                  tok KFloat;
                                  tok KInt;
                                  tok KString;
                                  tok KQuestion;
                                  tok KIdent;
                                  tok KBackSlash;
                                  tok KLet;
                                  tok KIf;
                                  tok KMatch]);
                     cut (rule R.PostfixExpr)])]);
   grammar_rule R.PostfixExpr (seq [rule R.AtomExpr; rep (seq [tok KDot; rule R.FieldName])]);
   grammar_rule R.FieldName (choice [tok KIdent; tok KInt]);
   grammar_rule R.AtomExpr
     (choice [seq [and (tok KParenL); cut (rule R.ParenExpr)];
              seq [and (tok KBracketL); cut (rule R.ListExpr)];
              seq [and (tok KBraceL); cut (rule R.BraceExpr)];
              tok KBool;
              tok KChar;
              tok KFloat;
              tok KInt;
              tok KString;
              rule R.HoleExpr;
              rule R.IdentExpr;
              seq [and (tok KBackSlash); cut (rule R.LambdaExpr)];
              seq [and (tok KLet); cut (rule R.LetExpr)];
              seq [and (tok KIf); cut (rule R.IfExpr)];
              seq [and (tok KMatch); cut (rule R.MatchExpr)];
              seq [and (tok KSub); cut (rule R.NegExpr)]]);
   grammar_rule R.HoleExpr (tok KQuestion);
   grammar_rule R.IdentExpr (tok KIdent);
   grammar_rule R.BraceExpr (choice [rule R.DictExpr; rule R.RecordUpdateExpr]);
   grammar_rule R.ParenExpr
     (choice [rule R.UnitExpr; rule R.OperatorNameExpr; rule R.TupleExpr; rule R.GroupedExpr]);
   grammar_rule R.UnitExpr (seq [tok KParenL; tok KParenR]);
   grammar_rule R.OperatorNameExpr (seq [tok KParenL; tok KValueOperator; tok KParenR]);
   grammar_rule R.TupleExpr
     (seq [tok KParenL;
           rule R.Expr;
           tok KComma;
           opt (seq [rule R.Expr; rep (seq [tok KComma; rule R.Expr]); opt (tok KComma)]);
           tok KParenR]);
   grammar_rule R.GroupedExpr (seq [tok KParenL; rule R.Expr; tok KParenR]);
   grammar_rule R.ListExpr
     (seq [tok KBracketL;
           opt (seq [rule R.Expr; rep (seq [tok KComma; rule R.Expr]); opt (tok KComma)]);
           tok KBracketR]);
   grammar_rule R.DictExpr
     (seq [tok KBraceL;
           choice [tok KBraceR;
                   seq [and (seq [tok KIdent; tok KAssign]);
                        rule R.DictItem;
                        rep (seq [tok KComma; choice [rule R.DictItem; rule R.BadDictItem]]);
                        opt (tok KComma);
                        tok KBraceR]]])].

Definition rex_expressions_2 : list (Item RexRule TokenKind) :=
  [grammar_rule R.DictItem (seq [tok KIdent; tok KAssign; rule R.Expr]);
   grammar_rule R.BadDictItem (seq [tok KIdent; not (tok KAssign)]);
   grammar_rule R.RecordUpdateExpr
     (seq [tok KBraceL; rule R.Expr; label "expected `with`" (tok KWith); rule R.DictExpr; tok KBraceR]);
   grammar_rule R.NegExpr (seq [tok KSub; cut (rule R.Expr)]);
   grammar_rule R.LambdaExpr
     (seq [tok KBackSlash;
           cut (seq [rep (rule R.LambdaParam); opt (rule R.WhereConstraints); tok KArrowR; rule R.Expr])]);
   grammar_rule R.LambdaParam
     (choice [seq [tok KIdent; opt (seq [tok KColon; rule R.TypeExpr])];
              seq [tok KParenL; tok KIdent; tok KColon; rule R.TypeExpr; tok KParenR]]);
   grammar_rule R.LetExpr
     (seq [tok KLet;
           cut (seq [choice [seq [tok KRec;
                                  rule R.LetRecBinding;
                                  rep (seq [tok KComma; rule R.LetRecBinding])];
                             seq [rule R.LetBinding; rep (seq [tok KComma; rule R.LetBinding])]];
                     tok KIn;
                     rule R.Expr])]);
   grammar_rule R.LetBinding
     (seq [rule R.Pattern;
           opt (rule R.GenericParams);
           opt (seq [tok KColon; rule R.TypeExpr]);
           tok KAssign;
           rule R.Expr]);
   grammar_rule R.LetRecBinding
     (seq [rule R.Pattern;
           opt (rule R.GenericParams);
           opt (seq [tok KColon; rule R.TypeExpr]);
           tok KAssign;
           rule R.Expr]);
   grammar_rule R.IfExpr
     (seq [tok KIf; cut (seq [rule R.Expr; tok KThen; rule R.Expr; tok KElse; rule R.Expr])]);
   grammar_rule R.MatchExpr
     (seq [tok KMatch;
           cut (seq [label "expected `with {` after match scrutinee" (seq [rule R.Expr; tok KWith]);
                     label "expected `{` after `with` in match expression" (tok KBraceL);
                     rep1 (rule R.MatchArm);
                     tok KBraceR])]);
   grammar_rule R.MatchArm
     (seq [tok KCase;
           rule R.Pattern;
           tok KArrowR;
           rule R.Expr;
           label "expected `;` after match arm expression" (tok KSemiColon)])].

Definition rex_patterns : list (Item RexRule TokenKind) :=
  [grammar_comment "Patterns";
   grammar_rule R.Pattern (seq [rule R.AppPattern; opt (seq [tok KColonColon; rule R.Pattern])]);
   grammar_rule R.AppPattern (choice [seq [rule R.NameRef; rep (rule R.PatternAtom)]; rule R.PatternAtom]);
   grammar_rule R.PatternAtom
     (choice [tok KIdent; rule R.ListPattern; rule R.DictPattern; rule R.ParenPattern]);
   grammar_rule R.ListPattern
     (seq [tok KBracketL;
           opt (seq [rule R.Pattern; rep (seq [tok KComma; cut (rule R.Pattern)])]);
           tok KBracketR]);
   grammar_rule R.DictPattern
     (seq [tok KBraceL;
           opt (seq [rule R.DictPatternField; rep (seq [tok KComma; cut (rule R.DictPatternField)])]);
           tok KBraceR]);
   grammar_rule R.DictPatternField (seq [tok KIdent; opt (seq [tok KColon; rule R.Pattern])]);
   grammar_rule R.ParenPattern
     (choice [seq [tok KParenL; tok KParenR];
              seq [tok KParenL;
                   rule R.Pattern;
                   tok KComma;
                   cut (seq [rule R.Pattern; rep (seq [tok KComma; cut (rule R.Pattern)]); tok KParenR])];
              seq [tok KParenL; rule R.Pattern; tok KParenR]])].

Definition rex_names : list (Item RexRule TokenKind) :=
  [grammar_comment "Names";
   grammar_rule R.NameRef (seq [tok KIdent; rep (seq [tok KDot; tok KIdent])]);
   grammar_rule R.ValueName (choice [tok KIdent; tok KValueOperator])].

Definition rex_items : list (Item RexRule TokenKind) :=
  rex_compilation_unit ++ rex_declarations ++ rex_imports ++ rex_type_declarations ++ rex_function_declarations ++ rex_type_classes_and_instances ++ rex_type_expressions ++ rex_expressions_1 ++ rex_expressions_2 ++ rex_patterns ++ rex_names.

Definition rex_grammar : Grammar RexRule TokenKind := from_items R.CompilationUnit rex_items.

(** * No left recursion *)

(** Only a unit may succeed without consuming: on the empty input. *)
Definition rex_nullable (r : RexRule) : bool := match r with R.CompilationUnit => true | _ => false end.

(** The ranks, as a table; a chain of calls at one position visits a rule at most
    once, so its depth is below the number of rules. *)
Definition rex_rank_table : list nat :=
  Eval vm_compute in map (left_depth demo_eof_kind rex_nullable rex_grammar (length all_rules)) all_rules.

Definition rex_rank (r : RexRule) : nat := nth (rule_index r) rex_rank_table 0.

Lemma rex_grammar_checked : forallb (rule_ok demo_eof_kind rex_nullable rex_rank) rex_items = true.
Proof. vm_compute. reflexivity. Qed.

(** * The rules of a grammar *)

Definition rule_names (items : list (Item RexRule TokenKind)) : list RexRule :=
  omap (fun item => match item with IRule r _ => Some r | IComment _ => None end) items.

Lemma rule_names_spec items r e : IRule r e ∈ items -> r ∈ rule_names items.
Proof. intros Hi. apply list_elem_of_omap. by exists (IRule r e). Qed.

Lemma rule_names_functional items r e1 e2 :
  NoDup (rule_names items) -> IRule r e1 ∈ items -> IRule r e2 ∈ items -> e1 = e2.
Proof.
  induction items as [|[r' e'|text] items IH]; intros Hnd H1 H2; [by apply not_elem_of_nil in H1|..].
  - apply NoDup_cons in Hnd as [Hnot Hnd].
    rewrite elem_of_cons in H1, H2. destruct H1 as [H1|H1], H2 as [H2|H2]; simplify_eq; auto;
      exfalso; eapply Hnot, rule_names_spec; eassumption.
  - rewrite elem_of_cons in H1, H2. destruct H1 as [|H1], H2 as [|H2]; try done. by apply IH.
Qed.

Lemma all_rules_complete r : r ∈ all_rules.
Proof. apply (list_elem_of_lookup_2 _ (rule_index r)). by destruct r. Qed.

Definition rule_defined (r : RexRule) : bool :=
  match expression rex_grammar r with Some _ => true | None => false end.

Lemma every_rule_defined : forallb rule_defined all_rules = true.
Proof. vm_compute. reflexivity. Qed.

Lemma rule_names_distinct : bool_decide (NoDup (rule_names rex_items)) = true.
Proof. vm_compute. reflexivity. Qed.

Lemma unit_expression : expression rex_grammar R.CompilationUnit
  = Some (seq [rep (rule R.Decl); opt (rule R.Expr); tok KEof]).
Proof. vm_compute. reflexivity. Qed.

(** The last item of a unit is the end of input. *)
Lemma unit_ends_at_eof ts end_token pos children next :
  sem rex_grammar ts end_token (PRule R.CompilationUnit) pos (Succeeds children next) ->
  is_eof (token_at ts end_token next) = true.
Proof.
  intros Hs. inversion Hs; subst. 
  match goal with H : expression _ _ = Some _ |- _ => rewrite unit_expression in H; injection H as <- end.
  match goal with H : sem _ _ _ (seq _) _ _ |- _ => inversion H; subst; clear H end.
  repeat match goal with H : sem_seq _ _ _ _ _ _ _ |- _ => inversion H; subst; clear H end.
  match goal with H : sem _ _ _ (tok _) _ _ |- _ => inversion H; subst; clear H end.
  destruct (token_at ts end_token next1) eqn:Ht; try done. simpl. by rewrite Ht.
Qed.

(** * Properties *)

(** C32. The Rex parser answers on every input: whatever the tokens, the machine
    that [PegParser::parse_program] starts on the Rex grammar comes to a tree or a
    failure; no input makes it loop. *)
Theorem rex_parser_halts (ts : Tokens) :
  exists fuel x, parse_start rex_grammar fuel (input_engine ts) = Some x.
Proof.
  unfold input_engine, rex_grammar.
  exact (parse_start_halts _ (TokEof (tokens_eof ts)) eq_refl _ _ _ _ _ token_eof_kind rex_grammar_checked).
Qed.

(** The grammar is closed: every rule of the enumeration has an expression, so
    the parser never reports a missing grammar rule, and no rule is written twice. *)
Theorem rex_grammar_complete :
  (forall r, exists e, expression rex_grammar r = Some e /\ IRule r e ∈ rex_items) /\
  (forall r e1 e2, IRule r e1 ∈ rex_items -> IRule r e2 ∈ rex_items -> e1 = e2).
Proof.
  split; [|intros r e1 e2; apply rule_names_functional, (bool_decide_eq_true_1 _ rule_names_distinct)].
  intros r. pose proof every_rule_defined as Hall. rewrite forallb_forall in Hall.
  specialize (Hall r (proj1 (list_elem_of_In _ _) (all_rules_complete r))). unfold rule_defined in Hall.
  destruct (expression rex_grammar r) as [e|] eqn:He; [|done].
  exists e. split; [done|]. by eapply from_items_expression.
Qed.

(** C34. An accepted program is accepted whole: when the lexer's tokens hold no
    end-of-input token, the leaves of the tree of a successful parse are all the
    tokens outside comments, in their order; nothing is skipped or left over. *)
Theorem rex_parse_covers_input (ts : Tokens) fuel c s'
    (Hts : Forall (fun t => is_eof t = false) (items ts))
    (Hp : parse_start rex_grammar fuel (input_engine ts) = Some (Ok c, s')) :
  leaves c = outside_comments false (items ts).
Proof.
  assert (He : is_eof (TokEof (tokens_eof ts)) = true) by done.
  unfold input_engine in Hp. rewrite strip_comments_filter in Hp.
  apply (parse_rule_ok (outside_comments false (items ts)) (TokEof (tokens_eof ts))) in Hp as [Ho Hc];
    [|apply good_initial]. simpl in Ho.
  pose proof (unit_ends_at_eof _ _ _ _ _ Ho) as Heof.
  apply (proj1 (consumes_all rex_grammar _ (TokEof (tokens_eof ts)) He)) in Ho as (_ & Hle & Hl). simpl in Hle, Hl.
  unfold all_leaves, between in Hl. simpl in Hl. rewrite app_nil_r, Nat.sub_0_r in Hl. rewrite Hl.
  apply take_ge. unfold token_at in Heof.
  destruct (outside_comments false (items ts) !! cursor (engine s')) as [t|] eqn:Ht;
    [|by apply lookup_ge_None].
  apply list_elem_of_lookup_2, outside_comments_subset in Ht. rewrite Forall_forall in Hts.
  by rewrite (Hts _ Ht) in Heof.
Qed.

(** [- /* 7 */ 1]. *)
Definition demo_source : Tokens := mkTokens
  [TokSub Span_default; TokCommentL Span_default; TokInt 7 Span_default; TokCommentR Span_default;
   TokInt 1 Span_default] Span_default.

Lemma rex_parse_covers_input_witness :
  exists c s', parse_start rex_grammar 600 (input_engine demo_source) = Some (Ok c, s') /\
    leaves c = [TokSub Span_default; TokInt 1 Span_default].
Proof.
  assert (Hok : match parse_start rex_grammar 600 (input_engine demo_source) with
                | Some (Ok _, _) => true | _ => false end = true) by (vm_compute; reflexivity).
  destruct (parse_start rex_grammar 600 (input_engine demo_source)) as [[[c|f] s']|] eqn:Hp; [|done|done].
  exists c, s'. split; [reflexivity|].
  apply (rex_parse_covers_input demo_source 600 c s'); [|exact Hp].
  repeat (apply Forall_cons_2; [reflexivity|]). apply Forall_nil_2.
Defined.
