(* ===== verification/Ast.v ===== *)
(** The syntax tree that the parser builds: types, expressions and declarations of
    [rex-ast/src/ast.rs], with their spans. An [Arc] or a [Box] is its content, a
    map inside a node the list of its entries in key order. *)

From S2P Require Import Prelude Span Types Syntax.

(** A field is its name, its type and its documentation ([TypeField]). *)
Inductive TypeExpr : Type :=
  | TyName (span : Span) (name : NameRef)
  | TyApp (span : Span) (fn arg : TypeExpr)
  | TyFun (span : Span) (arg ret : TypeExpr)
  | TyTuple (span : Span) (elems : list TypeExpr)
  | TyRecord (span : Span) (fields : list (Symbol * TypeExpr * option string)).

Definition TypeExpr_span (t : TypeExpr) : Span :=
  match t with
  | TyName span _ | TyApp span _ _ | TyFun span _ _ | TyTuple span _ | TyRecord span _ => span
  end.

Record TypeConstraint : Type := mkTypeConstraint { constraint_class : NameRef; constraint_typ : TypeExpr }.

Inductive Expr : Type :=
  | XBool (span : Span) (b : bool)
  | XUint (span : Span) (n : Z)
  | XInt (span : Span) (z : Z)
  | XFloat (span : Span) (bits : N)
  | XChar (span : Span) (c : N)
  | XString (span : Span) (s : string)
  | XUuid (span : Span) (u : N)
  | XDateTime (span : Span) (nanos : Z)
  | XHole (span : Span)
  | XTuple (span : Span) (elems : list Expr)
  | XList (span : Span) (elems : list Expr)
  | XDict (span : Span) (entries : list (Symbol * Expr))
  | XRecordUpdate (span : Span) (base : Expr) (updates : list (Symbol * Expr))
  | XVar (v : Var)
  | XApp (span : Span) (f x : Expr)
  | XProject (span : Span) (expr : Expr) (field : Symbol)
  | XLam (span : Span) (scope : list (Symbol * Expr)) (param : Var) (ann : option TypeExpr)
      (constraints : list TypeConstraint) (body : Expr)
  | XLet (span : Span) (v : Var) (type_params : list Symbol) (ann : option TypeExpr) (def body : Expr)
  | XLetRec (span : Span) (bindings : list (Var * list Symbol * option TypeExpr * Expr)) (body : Expr)
  | XIte (span : Span) (cond then_expr else_expr : Expr)
  | XMatch (span : Span) (scrutinee : Expr) (arms : list (Pattern * Expr))
  | XAnn (span : Span) (expr : Expr) (typ : TypeExpr).

Definition Expr_span (e : Expr) : Span :=
  match e with
  | XBool span _ | XUint span _ | XInt span _ | XFloat span _ | XChar span _ | XString span _
  | XUuid span _ | XDateTime span _ | XHole span | XTuple span _ | XList span _ | XDict span _
  | XRecordUpdate span _ _ | XApp span _ _ | XProject span _ _ | XLam span _ _ _ _ _
  | XLet span _ _ _ _ _ | XLetRec span _ _ | XIte span _ _ _ | XMatch span _ _ | XAnn span _ _ => span
  | XVar v => var_span v
  end.

Definition Expr_with_span (e : Expr) (span : Span) : Expr :=
  match e with
  | XBool _ x => XBool span x
  | XUint _ x => XUint span x
  | XInt _ x => XInt span x
  | XFloat _ x => XFloat span x
  | XChar _ x => XChar span x
  | XString _ x => XString span x
  | XUuid _ x => XUuid span x
  | XDateTime _ x => XDateTime span x
  | XHole _ => XHole span
  | XTuple _ elems => XTuple span elems
  | XList _ elems => XList span elems
  | XDict _ kvs => XDict span kvs
  | XRecordUpdate _ base updates => XRecordUpdate span base updates
  | XVar v => XVar (mkVar span (var_name v))
  | XApp _ f x => XApp span f x
  | XProject _ base field => XProject span base field
  | XLam _ scope param ann constraints body => XLam span scope param ann constraints body
  | XLet _ v type_params ann def body => XLet span v type_params ann def body
  | XLetRec _ bindings body => XLetRec span bindings body
  | XIte _ cond then_expr else_expr => XIte span cond then_expr else_expr
  | XMatch _ scrutinee arms => XMatch span scrutinee arms
  | XAnn _ expr ann => XAnn span expr ann
  end.

Definition Expr_with_span_begin (e : Expr) (b : Position) : Expr :=
  Expr_with_span e (from_begin_end b (end_ (Expr_span e))).

Definition Pattern_with_span (p : Pattern) (span : Span) : Pattern :=
  match p with
  | PWildcard _ => PWildcard span
  | PVar v => PVar (mkVar span (var_name v))
  | PNamed _ name ps => PNamed span name ps
  | PTuple _ ps => PTuple span ps
  | PList _ ps => PList span ps
  | PCons _ head tail => PCons span head tail
  | PDict _ fields => PDict span fields
  end.

(** * Declarations *)

Record TypeVariantArg : Type := mkTypeVariantArg { arg_typ : TypeExpr; arg_docs : option string }.
Record TypeVariant : Type := mkTypeVariant {
  variant_name : Symbol; variant_args : list TypeVariantArg; variant_docs : option string }.
Inductive TypeDeclKind : Type := Alias (t : TypeExpr) | Adt (variants : list TypeVariant).
Record TypeParam : Type := mkTypeParam { param_name : Symbol; param_docs : option string }.

Record TypeDecl : Type := mkTypeDecl {
  type_decl_span : Span; type_is_pub : bool; type_decl_name : Symbol;
  type_decl_params : list TypeParam; type_decl_kind : TypeDeclKind; type_decl_docs : option string }.

Record FnDecl : Type := mkFnDecl {
  fn_span : Span; fn_is_pub : bool; fn_name : Var; fn_type_params : list Symbol;
  fn_params_ : list (Var * TypeExpr); fn_ret : TypeExpr; fn_constraints : list TypeConstraint;
  fn_body : Expr; fn_docs : option string }.

Record DeclareFnDecl : Type := mkDeclareFnDecl {
  declare_span : Span; declare_is_pub : bool; declare_name : Var; declare_type_params : list Symbol;
  declare_params : list (Var * TypeExpr); declare_ret : TypeExpr;
  declare_constraints : list TypeConstraint; declare_docs : option string }.

Record ClassMethodSig : Type := mkClassMethodSig {
  method_name : Symbol; method_type_params : list Symbol; method_typ : TypeExpr;
  method_docs : option string }.
Record ClassDecl : Type := mkClassDecl {
  class_span : Span; class_is_pub : bool; class_name : Symbol; class_params : list Symbol;
  class_supers : list TypeConstraint; class_methods : list ClassMethodSig; class_docs : option string }.

Record InstanceMethodImpl : Type := mkInstanceMethodImpl {
  impl_name : Symbol; impl_type_params : list Symbol; impl_ann : option TypeExpr; impl_body : Expr }.
Record InstanceDecl : Type := mkInstanceDecl {
  instance_span : Span; instance_is_pub : bool; instance_type_params : list Symbol;
  instance_class : Symbol; instance_head : TypeExpr; instance_context : list TypeConstraint;
  instance_methods : list InstanceMethodImpl; instance_docs : option string }.

Record ImportPath : Type := mkImportPath { segments : list Symbol }.
Record ImportItem : Type := mkImportItem { item_name : Symbol; item_alias : option Symbol }.
Inductive ImportClause : Type := ImportAll | ImportItems (items : list ImportItem).
Record ImportDecl : Type := mkImportDecl {
  import_span : Span; import_is_pub : bool; import_path_ : ImportPath; import_alias : Symbol;
  import_clause_ : option ImportClause }.

Inductive Decl : Type :=
  | DType (d : TypeDecl)
  | DFn (d : FnDecl)
  | DDeclareFn (d : DeclareFnDecl)
  | DImport (d : ImportDecl)
  | DClass (d : ClassDecl)
  | DInstance (d : InstanceDecl).

Record CompilationUnit : Type := mkCompilationUnit { decls : list Decl; body : option Expr }.

(** * Induction on types and expressions *)

Fixpoint TypeExpr_ind' (P : TypeExpr -> Prop) (Hname : forall s n, P (TyName s n))
    (Happ : forall s f a, P f -> P a -> P (TyApp s f a)) (Hfun : forall s a r, P a -> P r -> P (TyFun s a r))
    (Htup : forall s es, Forall P es -> P (TyTuple s es))
    (Hrec : forall s fs, Forall (fun f => P f.1.2) fs -> P (TyRecord s fs)) (e : TypeExpr) : P e :=
  let go := TypeExpr_ind' P Hname Happ Hfun Htup Hrec in
  let all := fix all es : Forall P es :=
    match es with [] => List.Forall_nil _ | e :: es => List.Forall_cons _ _ _ (go e) (all es) end in
  let all_fields := fix all (fs : list (Symbol * TypeExpr * option string)) : Forall (fun f => P f.1.2) fs :=
    match fs with [] => List.Forall_nil _ | f :: fs => List.Forall_cons _ _ _ (go f.1.2) (all fs) end in
  match e with
  | TyName s n => Hname s n
  | TyApp s f a => Happ s f a (go f) (go a)
  | TyFun s a r => Hfun s a r (go a) (go r)
  | TyTuple s es => Htup s es (all es)
  | TyRecord s fs => Hrec s fs (all_fields fs)
  end.

(** The expressions directly inside one, without the scopes that lambdas carry. *)
Definition children (e : Expr) : list Expr :=
  match e with
  | XTuple _ es | XList _ es => es
  | XDict _ kvs => map snd kvs
  | XRecordUpdate _ base updates => base :: map snd updates
  | XApp _ f x => [f; x]
  | XProject _ base _ => [base]
  | XLam _ _ _ _ _ body => [body]
  | XLet _ _ _ _ def body => [def; body]
  | XLetRec _ bindings body => body :: map snd bindings
  | XIte _ c t e => [c; t; e]
  | XMatch _ s arms => s :: map snd arms
  | XAnn _ e _ => [e]
  | _ => []
  end.

Fixpoint Expr_children_ind (P : Expr -> Prop) (H : forall e, Forall P (children e) -> P e) (e : Expr) : P e :=
  let go := Expr_children_ind P H in
  let each := fix each l : Forall P l :=
    match l with [] => @Forall_nil_2 _ P | x :: l => Forall_cons_2 P x l (go x) (each l) end in
  let snds := fun A => fix snds (l : list (A * Expr)) : Forall P (map snd l) :=
    match l with
    | [] => @Forall_nil_2 _ P
    | x :: l => Forall_cons_2 P x.2 (map snd l) (match x with (_, e) => go e end) (snds l)
    end in
  let one e := Forall_cons_2 P e [] (go e) (@Forall_nil_2 _ P) in
  H e
    match e return Forall P (children e) with
    | XTuple _ es | XList _ es => each es
    | XDict _ kvs => snds _ kvs
    | XRecordUpdate _ base updates => Forall_cons_2 P _ _ (go base) (snds _ updates)
    | XApp _ f x => Forall_cons_2 P _ _ (go f) (one x)
    | XProject _ base _ => one base
    | XLam _ _ _ _ _ body => one body
    | XLet _ _ _ _ def body => Forall_cons_2 P _ _ (go def) (one body)
    | XLetRec _ bindings body => Forall_cons_2 P _ _ (go body) (snds _ bindings)
    | XIte _ c t e => Forall_cons_2 P _ _ (go c) (Forall_cons_2 P _ _ (go t) (one e))
    | XMatch _ s arms => Forall_cons_2 P _ _ (go s) (snds _ arms)
    | XAnn _ e _ => one e
    | _ => @Forall_nil_2 _ P
    end.
