(* ===== verification/TypeEnv.v ===== *)
(** Type environments, type aliases and the types of annotations:
    [RegisteredValue], [TypeEnv] and [TypeAlias] of [rex-typesystem/src/types.rs],
    and the functions of [rex-typesystem/src/typesystem.rs] that read type
    expressions, quantify types and reject ambiguous schemes. *)

From stdpp Require Import sorting.
From S2P Require Import Prelude Span Types BTree Adts Unify UnifyComplete Syntax Ast.

(** * Environments *)

Record RegisteredValue : Type := mkRegistered {
  value_scheme : Scheme;
  value_params : list Symbol;
  value_docs : option string
}.

Definition RegisteredValue_new (scheme : Scheme) : RegisteredValue := mkRegistered scheme [] None.

Definition RegisteredValue_apply (s : Subst) (v : RegisteredValue) : RegisteredValue :=
  mkRegistered (Scheme_apply s (value_scheme v)) (value_params v) (value_docs v).

(** The persistent hash map of values is a finite map; the code iterates over it
    in an unspecified order, for which that of [map_to_list] stands. *)
Record TypeEnv : Type := mkTypeEnv {
  env_values : gmap Symbol (list RegisteredValue);
  env_type_vars : gmap Symbol TypeVar
}.

Definition TypeEnv_new : TypeEnv := mkTypeEnv ∅ ∅.

Definition extend_registered (name : Symbol) (value : RegisteredValue) (env : TypeEnv) : TypeEnv :=
  mkTypeEnv (<[name := [value]]> (env_values env)) (env_type_vars env).

Definition extend_registered_overload (name : Symbol) (value : RegisteredValue) (env : TypeEnv) : TypeEnv :=
  mkTypeEnv (<[name := default [] (env_values env !! name) ++ [value]]> (env_values env)) (env_type_vars env).

Definition extend (name : Symbol) (scheme : Scheme) (env : TypeEnv) : TypeEnv :=
  extend_registered name (RegisteredValue_new scheme) env.

Definition extend_overload (name : Symbol) (scheme : Scheme) (env : TypeEnv) : TypeEnv :=
  extend_registered_overload name (RegisteredValue_new scheme) env.

Definition TypeEnv_remove (name : Symbol) (env : TypeEnv) : TypeEnv :=
  mkTypeEnv (delete name (env_values env)) (env_type_vars env).

Definition TypeEnv_lookup (env : TypeEnv) (name : Symbol) : option (list RegisteredValue) :=
  env_values env !! name.

(** [apply] of an environment: only schemes without quantified variables are
    rebuilt. *)
Definition TypeEnv_apply (s : Subst) (env : TypeEnv) : TypeEnv :=
  mkTypeEnv
    (map (fun value =>
            if bool_decide (scheme_vars (value_scheme value) = []) && negb (subst_is_empty s)
            then RegisteredValue_apply s value else value) <$> env_values env)
    (env_type_vars env).

Definition TypeEnv_ftv (env : TypeEnv) : gset TypeVarId :=
  ⋃ (concat (map (fun entry => map (fun value => Scheme_ftv (value_scheme value)) entry.2)
               (map_to_list (env_values env)))).

(** * Type aliases *)

Record TypeAlias : Type := mkTypeAlias {
  alias_name : Symbol;
  alias_params : list AdtParam;
  alias_typ : option ty;
  alias_docs : option string
}.

Definition TypeAlias_new (name : Symbol) (param_names : list Symbol) (docs : option string)
    (supply : TypeVarSupply) : TypeAlias * TypeVarSupply :=
  let '(params, supply) := fresh_params param_names supply in
  (mkTypeAlias name params None docs, supply).

(** * The types of annotations *)

Definition normalize_type_name (name : Symbol) : Symbol :=
  if bool_decide (name = "str") then as_str String_ else name.

(** [Result ok err] is written in the order of its display and kept as
    [(Result err) ok]. *)
Definition type_app_with_result_syntax (fun_ arg : ty) : ty :=
  match fun_ with
  | TApp (TCon c) ok =>
      if is_builtin c Result_ && Nat.eqb (const_arity c) 2
      then TApp (TApp (TCon c) arg) ok else TApp fun_ arg
  | _ => TApp fun_ arg
  end.

Definition annotation_type_arity (adts : gmap Symbol AdtDecl) (aliases : gmap Symbol TypeAlias)
    (name : Symbol) : option nat :=
  match adts !! name with
  | Some adt => Some (length (adt_params adt))
  | None =>
      match aliases !! name with
      | Some alias => Some (length (alias_params alias))
      | None => builtin_arity <$> from_name name
      end
  end.

Definition map_err {A} (f : TypeError -> TypeError) (r : result TypeError A) : result TypeError A :=
  match r with Ok a => Ok a | Err e => Err (f e) end.
Definition spanned {A} (span : Span) : result TypeError A -> result TypeError A :=
  map_err (fun e => with_span e span).

(** [type_from_annotation_expr_vars_raw]. *)
Fixpoint type_from_annotation_raw (adts : gmap Symbol AdtDecl) (aliases : gmap Symbol TypeAlias)
    (expr : TypeExpr) (vars : gmap Symbol TypeVar) : result TypeError ty :=
  let go e := type_from_annotation_raw adts aliases e vars in
  spanned (TypeExpr_span expr)
    match expr with
    | TyName _ name =>
        let name := normalize_type_name (to_dotted_symbol name) in
        match annotation_type_arity adts aliases name with
        | Some arity => Ok (Type_con name arity)
        | None =>
            match vars !! name with
            | Some tv => Ok (TVar tv)
            | None => Err (UnknownTypeName name)
            end
        end
    | TyApp _ f arg =>
        let? fty := go f in
        let? aty := go arg in
        Ok (type_app_with_result_syntax fty aty)
    | TyFun _ arg ret =>
        let? arg_ty := go arg in
        let? ret_ty := go ret in
        Ok (TFun arg_ty ret_ty)
    | TyTuple _ elems =>
        let? out := map_result go elems in
        Ok (TTuple out)
    | TyRecord _ fields =>
        let? out := map_result (fun f => let? t := go f.1.2 in Ok (f.1.1, t)) fields in
        Ok (Type_record out)
    end.

(** ** Expansion of aliases *)

(** The loop that unwinds an application: its head and its arguments in order. *)
Fixpoint app_head_args (t : ty) (args : list ty) : ty * list ty :=
  match t with
  | TApp f arg => app_head_args f (arg :: args)
  | _ => (t, args)
  end.

(** [expand_type_aliases_inner] after the components of [typ] are expanded: an
    alias with all its arguments is replaced by its body. [expanding] holds the
    names being expanded; the code inserts a name before and removes it after. *)
Definition expand_head (rec : ty -> gset Symbol -> fueled TypeError ty)
    (aliases : gmap Symbol TypeAlias) (expanded : ty) (expanding : gset Symbol) : fueled TypeError ty :=
  let '(head, args) := app_head_args expanded [] in
  match head with
  | TCon con =>
      let name := name_str con in
      match aliases !! name with
      | None => fret expanded
      | Some alias =>
          if negb (Nat.eqb (length args) (length (alias_params alias))) then fret expanded
          else if bool_decide (name ∈ expanding) then ferr (CyclicTypeAlias name)
          else
            match alias_typ alias with
            | None => ferr (Internal ("type alias `" +:+ alias_name alias +:+ "` has no registered body"))
            | Some body =>
                let subst := foldl (fun s pa => <[tv_id (param_var pa.1) := pa.2]> s) ∅
                               (zip (alias_params alias) args) in
                rec (apply subst body) ({[name]} ∪ expanding)
            end
      end
  | _ => fret expanded
  end.

(** [iter().map(f).collect::<Result<Vec<_>, _>>()] with fuel. *)
Fixpoint map_fueled {E A B} (f : A -> fueled E B) (l : list A) : fueled E (list B) :=
  match l with
  | [] => fret []
  | x :: l =>
      let! y := f x in
      let! ys := map_fueled f l in
      fret (y :: ys)
  end.

Fixpoint expand_type_aliases_inner (fuel : nat) (aliases : gmap Symbol TypeAlias) (typ : ty)
    (expanding : gset Symbol) : fueled TypeError ty :=
  match fuel with
  | O => None
  | S fuel =>
      let go t := expand_type_aliases_inner fuel aliases t expanding in
      let! expanded :=
        match typ with
        | TVar _ | TCon _ => fret typ
        | TApp f arg => let! f := go f in let! arg := go arg in fret (TApp f arg)
        | TFun arg ret => let! arg := go arg in let! ret := go ret in fret (TFun arg ret)
        | TTuple elems => let! elems := map_fueled go elems in fret (TTuple elems)
        | TRecord fields =>
            let! fields := map_fueled (fun f => let! t := go f.2 in fret (f.1, t)) fields in
            fret (Type_record fields)
        end in
      expand_head (expand_type_aliases_inner fuel aliases) aliases expanded expanding
  end.

Definition expand_type_aliases (fuel : nat) (aliases : gmap Symbol TypeAlias) (typ : ty) : fueled TypeError ty :=
  expand_type_aliases_inner fuel aliases typ ∅.

Definition type_from_annotation (fuel : nat) (adts : gmap Symbol AdtDecl) (aliases : gmap Symbol TypeAlias)
    (expr : TypeExpr) (vars : gmap Symbol TypeVar) : fueled TypeError ty :=
  let! typ := lift (type_from_annotation_raw adts aliases expr vars) in
  expand_type_aliases fuel aliases typ.

Definition predicates_from_constraints (fuel : nat) (adts : gmap Symbol AdtDecl) (aliases : gmap Symbol TypeAlias)
    (constraints : list TypeConstraint) (vars : gmap Symbol TypeVar) : fueled TypeError (list Predicate) :=
  map_fueled (fun c =>
    let! t := type_from_annotation fuel adts aliases (constraint_typ c) vars in
    fret (mkPredicate (to_dotted_symbol (constraint_class c)) t)) constraints.

(** [extend_type_params]: the names bound so far stay bound when a later one is
    a duplicate. *)
Fixpoint extend_type_params (params : list Symbol) (vars : gmap Symbol TypeVar) (supply : TypeVarSupply)
    : result TypeError unit * gmap Symbol TypeVar * TypeVarSupply :=
  match params with
  | [] => (Ok tt, vars, supply)
  | param :: params =>
      match vars !! param with
      | Some _ => (Err (DuplicateTypeParameter param), vars, supply)
      | None =>
          let '(tv, supply) := fresh (Some param) supply in
          extend_type_params params (<[param := tv]> vars) supply
      end
  end.

Definition type_vars_from_params (params : list Symbol) (supply : TypeVarSupply)
    : result TypeError (gmap Symbol TypeVar) * TypeVarSupply :=
  let '(r, vars, supply) := extend_type_params params ∅ supply in
  ((let? _ := r in Ok vars), supply).

(** * Quantification *)

(** The identifiers of a [BTreeSet], in order. *)
Definition sorted_ids (s : gset TypeVarId) : list TypeVarId := merge_sort (fun a b => a <= b) (elements s).

Definition preds_ftv (preds : list Predicate) : gset TypeVarId := ⋃ (map Predicate_ftv preds).

Definition generalize (env : TypeEnv) (preds : list Predicate) (typ : ty) : Scheme :=
  mkScheme (map (fun id => TypeVar_new id None)
              (sorted_ids ((ftv typ ∪ preds_ftv preds) ∖ TypeEnv_ftv env))) preds typ.

Definition show_pred (pred : Predicate) : string := pred_class pred +:+ " " +:+ show_ty (pred_typ pred).

Definition format_constraints_referencing_vars (preds : list Predicate) (vars : list TypeVarId) : string :=
  if decide (vars = []) then "" else
  let parts := map show_pred (filter (fun pred => existsb (fun v => bool_decide (v ∈ vars))
                                        (elements (Predicate_ftv pred))) preds) in
  let parts := if decide (parts = []) then map show_pred preds else parts in
  join ", " parts.

Definition reject_ambiguous_scheme (scheme : Scheme) : result TypeError unit :=
  let quantified : gset TypeVarId := list_to_set (map tv_id (scheme_vars scheme)) in
  if bool_decide (quantified = ∅) then Ok tt else
  let typ_ftv := ftv (scheme_typ scheme) in
  let vars : gset TypeVarId := list_to_set (omap (fun pred =>
    match pred_typ pred with
    | TVar tv => if bool_decide (tv_id tv ∈ quantified) && negb (bool_decide (tv_id tv ∈ typ_ftv))
                 then Some (tv_id tv) else None
    | _ => None
    end) (scheme_preds scheme)) in
  if bool_decide (vars = ∅) then Ok tt else
  let vars := sorted_ids vars in
  Err (AmbiguousTypeVars vars (format_constraints_referencing_vars (scheme_preds scheme) vars)).

(** [Ok] is what the inference relies on: a quantified variable that only a
    predicate on the bare variable mentions is reported. *)
Lemma reject_ambiguous_scheme_ok scheme tv pred :
  reject_ambiguous_scheme scheme = Ok tt ->
  pred ∈ scheme_preds scheme -> pred_typ pred = TVar tv ->
  tv_id tv ∈ map tv_id (scheme_vars scheme) -> tv_id tv ∈ ftv (scheme_typ scheme).
Proof.
  unfold reject_ambiguous_scheme. intros H Hp Ht Hv. case_bool_decide as Hq.
  { exfalso. assert (tv_id tv ∈@{gset TypeVarId} ∅) as []%elem_of_empty. rewrite <- Hq. by apply elem_of_list_to_set. }
  case_bool_decide as Hvars; [|done]. destruct (decide (tv_id tv ∈ ftv (scheme_typ scheme))); [done|].
  exfalso. assert (tv_id tv ∈@{gset TypeVarId} ∅) as []%elem_of_empty. rewrite <- Hvars.
  apply elem_of_list_to_set, list_elem_of_omap. exists pred. split; [done|]. rewrite Ht.
  rewrite !bool_decide_true by (done || by apply elem_of_list_to_set). simpl.
  by rewrite bool_decide_false.
Qed.

(** * Alias expansion ends, in types without aliases *)

(** With enough fuel [m] answers, and its answer no longer changes. *)
Definition settles {E A} (m : nat -> fueled E A) : Prop := exists r N, forall n, N <= n -> m n = Some r.

Lemma settles_ret {E A} (r : result E A) : settles (fun _ => Some r).
Proof. by exists r, 0. Qed.

Lemma settles_bind {E A B} (m : nat -> fueled E A) (k : nat -> A -> fueled E B) :
  settles m -> (forall a, settles (fun n => k n a)) -> settles (fun n => let! a := m n in k n a).
Proof.
  intros ([a|e] & N & Hm) Hk; [|exists (Err e), N; intros n Hn; by rewrite Hm].
  destruct (Hk a) as (r & N' & Hk'). exists r, (N + N'). intros n Hn.
  rewrite Hm by lia. apply Hk'. lia.
Qed.

Lemma settles_map {E A B} (f : nat -> A -> fueled E B) l :
  Forall (fun x => settles (fun n => f n x)) l -> settles (fun n => map_fueled (f n) l).
Proof.
  induction 1 as [|x l Hx _ IH]; simpl; [apply settles_ret|].
  apply settles_bind; [done|]. intros y. apply settles_bind; [done|]. intros ys. apply settles_ret.
Qed.

Lemma settles_S {E A} (m m' : nat -> fueled E A) :
  (forall n, m (S n) = m' n) -> settles m' -> settles m.
Proof.
  intros Hm (r & N & H). exists r, (S N). intros [|n] Hn; [lia|]. rewrite Hm. apply H. lia.
Qed.

Section Expand.
Variable aliases : gmap Symbol TypeAlias.

Lemma expand_head_settles expanded expanding :
  (forall name t, name ∈ dom aliases -> name ∉ expanding ->
     settles (fun n => expand_type_aliases_inner n aliases t ({[name]} ∪ expanding))) ->
  settles (fun n => expand_head (expand_type_aliases_inner n aliases) aliases expanded expanding).
Proof.
  intros Hrec. unfold expand_head. destruct (app_head_args expanded []) as [head args].
  destruct head; try apply settles_ret.
  destruct (aliases !! name_str c) as [alias|] eqn:Ha; [|apply settles_ret].
  destruct (negb _); [apply settles_ret|]. case_bool_decide; [apply settles_ret|].
  destruct (alias_typ alias); [|apply settles_ret].
  apply Hrec; [|done]. apply elem_of_dom. eauto.
Qed.

Lemma expand_inner_settles k : forall expanding,
  size (dom aliases ∖ expanding) <= k -> forall t,
  settles (fun n => expand_type_aliases_inner n aliases t expanding).
Proof.
  induction k as [k IHk] using lt_wf_ind. intros expanding Hk t.
  assert (forall name t, name ∈ dom aliases -> name ∉ expanding ->
    settles (fun n => expand_type_aliases_inner n aliases t ({[name]} ∪ expanding))) as Hrec.
  { intros name t' Hd Hn.
    assert (size (dom aliases ∖ ({[name]} ∪ expanding)) < size (dom aliases ∖ expanding)) as Hlt.
    { apply subset_size. split; [set_solver|]. intros Hsub.
      assert (name ∈ dom aliases ∖ expanding) as H by set_solver. apply Hsub in H. set_solver. }
    eapply (IHk (size (dom aliases ∖ ({[name]} ∪ expanding)))); [lia|done]. }
  induction t as [tv|c|l r IHl IHr|a b IHa IHb|ts IH|fs IH] using ty_ind';
    (eapply settles_S; [intros n; cbn [expand_type_aliases_inner]; reflexivity|]);
    (apply settles_bind; [|intros e; by apply expand_head_settles]).
  - apply settles_ret.
  - apply settles_ret.
  - apply settles_bind; [done|]. intros x. apply settles_bind; [done|]. intros y. apply settles_ret.
  - apply settles_bind; [done|]. intros x. apply settles_bind; [done|]. intros y. apply settles_ret.
  - apply settles_bind; [|intros; apply settles_ret]. by apply settles_map.
  - apply settles_bind; [|intros; apply settles_ret]. apply settles_map.
    apply (Forall_impl _ _ _ IH). intros f Hf. apply settles_bind; [done|]. intros; apply settles_ret.
Qed.

(** [t] itself is an alias with all its arguments. *)
Definition redex (t : ty) : bool :=
  let '(head, args) := app_head_args t [] in
  match head with
  | TCon con =>
      match aliases !! name_str con with
      | Some alias => Nat.eqb (length args) (length (alias_params alias))
      | None => false
      end
  | _ => false
  end.

Fixpoint alias_free (t : ty) : bool :=
  negb (redex t) &&
  match t with
  | TVar _ | TCon _ => true
  | TApp l r => alias_free l && alias_free r
  | TFun a b => alias_free a && alias_free b
  | TTuple ts => forallb alias_free ts
  | TRecord fs => forallb (fun f => alias_free f.2) fs
  end.

Lemma map_fueled_Ok {E A B} (f : A -> fueled E B) l ys :
  map_fueled f l = Some (Ok ys) -> Forall2 (fun x y => f x = Some (Ok y)) l ys.
Proof.
  revert ys. induction l as [|x l IH]; simpl; intros ys; [intros [= <-]; constructor|].
  intros (y & Hy & (ys' & Hys & [= <-])%fbind_Ok)%fbind_Ok. constructor; auto.
Qed.

Lemma insert_by_elem {A} (key : A -> string) x l y : y ∈ insert_by key x l <-> y = x \/ y ∈ l.
Proof.
  induction l as [|z l IH]; simpl; [set_solver|]. destruct (str_le (key x) (key z)); set_solver.
Qed.

Lemma sort_by_key_elem {A} (key : A -> string) l y : y ∈ sort_by_key key l <-> y ∈ l.
Proof. induction l as [|x l IH]; simpl; [done|]. rewrite insert_by_elem, IH. set_solver. Qed.

(** The components of an expanded type are free of aliases, so it is one or has
    an alias at its head. *)
Lemma expand_head_free rec expanded expanding t :
  (alias_free expanded = true \/ redex expanded = true) ->
  (forall t' ex r, rec t' ex = Some (Ok r) -> alias_free r = true) ->
  expand_head rec aliases expanded expanding = Some (Ok t) -> alias_free t = true.
Proof.
  intros He Hrec. unfold expand_head, redex in *.
  destruct (app_head_args expanded []) as [head args]. destruct head; try (intros [= <-]; naive_solver).
  destruct (aliases !! name_str c) as [alias|] eqn:Ha; [|intros [= <-]; naive_solver].
  destruct (Nat.eqb _ _); simpl; [|intros [= <-]; naive_solver].
  case_bool_decide; [done|]. destruct (alias_typ alias); [|done]. apply Hrec.
Qed.

Lemma alias_free_or_redex t :
  match t with
  | TVar _ | TCon _ => true
  | TApp l r => alias_free l && alias_free r
  | TFun a b => alias_free a && alias_free b
  | TTuple ts => forallb alias_free ts
  | TRecord fs => forallb (fun f => alias_free f.2) fs
  end = true -> alias_free t = true \/ redex t = true.
Proof.
  intros H. destruct (redex t) eqn:Hr; [by right|]. left.
  destruct t; cbn [alias_free]; rewrite Hr; exact H.
Qed.

Lemma expand_inner_free n : forall t expanding r,
  expand_type_aliases_inner n aliases t expanding = Some (Ok r) -> alias_free r = true.
Proof.
  induction n as [|n IH]; intros t expanding r; [done|]. cbn [expand_type_aliases_inner].
  intros (e & He & Hr)%fbind_Ok. eapply expand_head_free; [|exact IH|exact Hr].
  apply alias_free_or_redex. destruct t as [tv|c|l a|a b|ts|fs].
  - by injection He as <-.
  - by injection He as <-.
  - apply fbind_Ok in He as (l' & Hl & (a' & Ha & [= <-])%fbind_Ok). apply andb_true_iff. eauto.
  - apply fbind_Ok in He as (l' & Hl & (a' & Ha & [= <-])%fbind_Ok). apply andb_true_iff. eauto.
  - apply fbind_Ok in He as (ts' & Hts & [= <-]). apply map_fueled_Ok in Hts.
    apply forallb_elem. intros u [i Hi]%list_elem_of_lookup.
    destruct (Forall2_lookup_r _ _ _ _ _ Hts Hi) as (g & _ & Hu). eauto.
  - apply fbind_Ok in He as (fs' & Hfs & [= <-]). apply map_fueled_Ok in Hfs.
    apply forallb_elem. intros f Hf. unfold Type_record in Hf. apply sort_by_key_elem in Hf.
    apply list_elem_of_lookup in Hf as [i Hi].
    destruct (Forall2_lookup_r _ _ _ _ _ Hfs Hi) as (g & _ & (u & Hu & [= <-])%fbind_Ok). eauto.
Qed.
End Expand.

(** C14. Type aliases are always expanded in finitely many steps, mutually
    recursive ones included, which are reported as an error; and in the type
    that comes out no alias is left applied to all its arguments. *)
Theorem alias_expansion_normalises aliases t :
  exists r N, (forall n, N <= n -> expand_type_aliases n aliases t = Some r) /\
    forall t', r = Ok t' -> alias_free aliases t' = true.
Proof.
  destruct (expand_inner_settles aliases _ ∅ (le_n _) t) as (r & N & HN).
  exists r, N. split; [done|]. intros t' ->. by apply (expand_inner_free aliases N t ∅), HN.
Qed.

Example cyclic_aliases :
  let alias name body := mkTypeAlias name [] (Some (Type_list (TCon (User body 0)))) None in
  expand_type_aliases 9 {["A" := alias "A" "B"; "B" := alias "B" "A"]} (TCon (User "A" 0))
  = Some (Err (CyclicTypeAlias "A")).
Proof. reflexivity. Qed.
