(* ===== verification/TypeClasses.v ===== *)
(** Type classes: [ClassEnv] of [rex-typesystem/src/types.rs] and the functions of
    [rex-typesystem/src/typesystem.rs] that expand superclasses, resolve
    instances and check the kinds of predicates. *)

From S2P Require Import Prelude Span Types BTree Adts Unify UnifyComplete Syntax Ast TypeEnv.

Record Instance_ : Type := mkInstance {
  inst_context : list Predicate;
  inst_head : Predicate;
  inst_docs : option string
}.

(** [Class] is its list of superclasses. *)
Record ClassEnv : Type := mkClassEnv {
  class_supers : gmap Symbol (list Symbol);
  class_instances : gmap Symbol (list Instance_)
}.

Definition ClassEnv_new : ClassEnv := mkClassEnv ∅ ∅.

Definition add_class (name : Symbol) (supers : list Symbol) (env : ClassEnv) : ClassEnv :=
  mkClassEnv (<[name := supers]> (class_supers env)) (class_instances env).

Definition add_instance (class : Symbol) (inst : Instance_) (env : ClassEnv) : ClassEnv :=
  mkClassEnv (class_supers env)
    (<[class := default [] (class_instances env !! class) ++ [inst]]> (class_instances env)).

Definition supers_of (env : ClassEnv) (class : Symbol) : list Symbol := default [] (class_supers env !! class).

(** * Superclasses *)

(** The loop of [superclass_closure], which [entails] and
    [typecheck_instance_method] repeat: [None] when it is still running. *)
Fixpoint closure_loop (fuel : nat) (env : ClassEnv) (closure : list Predicate) (i : nat)
    : option (list Predicate) :=
  match closure !! i with
  | None => Some closure
  | Some p =>
      match fuel with
      | O => None
      | S fuel =>
          closure_loop fuel env
            (closure ++ map (fun sup => mkPredicate sup (pred_typ p)) (supers_of env (pred_class p))) (S i)
      end
  end.

Definition superclass_closure (fuel : nat) (env : ClassEnv) (given : list Predicate) : option (list Predicate) :=
  closure_loop fuel env given 0.

(** * Instance resolution *)

(** [iter().all(|c| f(c).unwrap_or(false))]. *)
Fixpoint all_or_false {A} (f : A -> fueled TypeError bool) (l : list A) : option bool :=
  match l with
  | [] => Some true
  | x :: l =>
      match f x with
      | None => None
      | Some (Ok true) => all_or_false f l
      | Some _ => Some false
      end
  end.

(** The loop over the instances of a class. *)
Fixpoint try_instances (rec : Predicate -> fueled TypeError bool) (pred : Predicate) (instances : list Instance_)
    : fueled TypeError bool :=
  match instances with
  | [] => fret false
  | inst :: instances =>
      match unify_types (pred_typ (inst_head inst)) (pred_typ pred) with
      | Ok s =>
          match all_or_false rec (map (Predicate_apply s) (inst_context inst)) with
          | None => None
          | Some true => fret true
          | Some false => try_instances rec pred instances
          end
      | Err _ => try_instances rec pred instances
      end
  end.

Fixpoint entails (fuel : nat) (env : ClassEnv) (given : list Predicate) (pred : Predicate) : fueled TypeError bool :=
  match fuel with
  | O => None
  | S fuel =>
      match superclass_closure fuel env given with
      | None => None
      | Some closure =>
          if bool_decide (pred ∈ closure) then fret true
          else match class_supers env !! pred_class pred with
               | None => ferr (UnknownClass (pred_class pred))
               | Some _ =>
                   try_instances (entails fuel env closure) pred
                     (default [] (class_instances env !! pred_class pred))
               end
      end
  end.

(** * Declared predicates *)

(** [Vec::sort] and [dedup] of strings. *)
Fixpoint dedup_sorted (l : list string) : list string :=
  match l with
  | x :: ((y :: _) as l') => if decide (x = y) then dedup_sorted l' else x :: dedup_sorted l'
  | l => l
  end.

Definition check_non_ground_predicates_declared (fuel : nat) (env : ClassEnv)
    (declared inferred : list Predicate) : fueled TypeError unit :=
  match superclass_closure fuel env declared with
  | None => None
  | Some closure =>
      let keys := map show_pred closure in
      let missing := map show_pred (filter (fun pred =>
        ftv (pred_typ pred) <> ∅ /\ show_pred pred ∉ keys) inferred) in
      let missing := dedup_sorted (sort_by_key (fun s => s) missing) in
      if decide (missing = []) then fret tt else ferr (MissingConstraints (join ", " missing))
  end.

(** * Kinds *)

Fixpoint type_term_remaining_arity (t : ty) : option nat :=
  match t with
  | TVar _ => None
  | TCon c => Some (const_arity c)
  | TApp l _ => pred <$> type_term_remaining_arity l
  | TFun _ _ | TTuple _ | TRecord _ => Some 0
  end.

(** The worklist of [max_head_app_arity_for_var]: at each application the depth
    of the chain it heads, when a variable [var_id] is at the end of it. The fuel
    is the number of nodes left on the stack. *)
Definition head_arity (t : ty) (var_id : TypeVarId) : nat :=
  let '(head, args) := app_head_args t [] in
  match head with
  | TVar tv => if decide (tv_id tv = var_id) then length args else 0
  | _ => 0
  end.

Fixpoint max_arity_loop (fuel : nat) (stack : list ty) (var_id : TypeVarId) (max_arity : nat) : nat :=
  match fuel, stack with
  | _, [] => max_arity
  | O, _ => max_arity
  | S fuel, t :: stack =>
      match t with
      | TVar _ | TCon _ => max_arity_loop fuel stack var_id max_arity
      | TApp l r => max_arity_loop fuel (r :: l :: stack) var_id (max_arity `max` head_arity t var_id)
      | TFun a b => max_arity_loop fuel (b :: a :: stack) var_id max_arity
      | TTuple ts => max_arity_loop fuel (rev ts ++ stack) var_id max_arity
      | TRecord fs => max_arity_loop fuel (rev (map snd fs) ++ stack) var_id max_arity
      end
  end.

Definition max_head_app_arity_for_var (t : ty) (var_id : TypeVarId) : nat :=
  max_arity_loop (ty_size t) [t] var_id 0.

Record ClassInfo : Type := mkClassInfo {
  info_name : Symbol;
  info_params : list Symbol;
  info_supers : list Symbol;
  info_methods : list (Symbol * Scheme);
  info_docs : option string
}.

Definition expected_class_param_arities (class_info : gmap Symbol ClassInfo) (class : Symbol) : option (list nat) :=
  info ← class_info !! class;
  Some (map (fun param =>
    foldl (fun out entry =>
      match find (fun v => bool_decide (tv_name v = Some param)) (scheme_vars entry.2) with
      | None => out
      | Some tv => out `max` max_head_app_arity_for_var (scheme_typ entry.2) (tv_id tv)
      end) 0 (info_methods info)) (info_params info)).

(** The arguments of a predicate next to the arities its class expects; none when
    their number does not fit. *)
Definition predicate_args (expected : list nat) (typ : ty) : list (ty * nat) :=
  match expected with
  | [arity] => [(typ, arity)]
  | _ =>
      match typ with
      | TTuple parts => if Nat.eqb (length parts) (length expected) then zip parts expected else []
      | _ => []
      end
  end.

(** [got] is the arity of an argument, when it is known. *)
Fixpoint check_arities (got : ty -> option nat) (class : Symbol) (args : list (ty * nat)) : result TypeError unit :=
  match args with
  | [] => Ok tt
  | (arg, expected_arity) :: args =>
      match got arg with
      | None => check_arities got class args
      | Some n =>
          if decide (n = expected_arity) then check_arities got class args
          else Err (KindMismatch class expected_arity n (show_ty arg))
      end
  end.

Definition check_predicate_kind (class_info : gmap Symbol ClassInfo) (pred : Predicate) : result TypeError unit :=
  match expected_class_param_arities class_info (pred_class pred) with
  | None => Ok tt
  | Some expected =>
      check_arities type_term_remaining_arity (pred_class pred) (predicate_args expected (pred_typ pred))
  end.

Fixpoint check_predicate_kinds (class_info : gmap Symbol ClassInfo) (preds : list Predicate) : result TypeError unit :=
  match preds with
  | [] => Ok tt
  | pred :: preds =>
      let? _ := check_predicate_kind class_info pred in
      check_predicate_kinds class_info preds
  end.

(** * The superclass relation *)

Definition super (env : ClassEnv) (c d : Symbol) : Prop := d ∈ supers_of env c.

(** What a finished loop has done. *)
Record closed_from (env : ClassEnv) (given closure : list Predicate) (i : nat) : Prop := {
  closed_given : given `prefix_of` closure;
  closed_reached p : p ∈ closure ->
    exists q, q ∈ given /\ pred_typ p = pred_typ q /\ rtc (super env) (pred_class q) (pred_class p);
  closed_supers j p d : j < i -> closure !! j = Some p -> super env (pred_class p) d ->
    exists j', j < j' /\ closure !! j' = Some (mkPredicate d (pred_typ p))
}.

Lemma closed_end env given closure i :
  closed_from env given closure i -> closure !! i = None -> closed_from env given closure (length closure).
Proof.
  intros Hc Hi%lookup_ge_None. split; [apply Hc|apply Hc|].
  intros j q d Hj Hq Hd. eapply Hc; [lia|done|done].
Qed.

Lemma closure_loop_closed env given fuel : forall closure i closure',
  closed_from env given closure i -> closure_loop fuel env closure i = Some closure' ->
  closed_from env given closure' (length closure').
Proof.
  induction fuel as [|fuel IH]; intros closure i closure' Hc; simpl;
    (destruct (closure !! i) as [p|] eqn:Hi; [|intros [= <-]; by eapply closed_end]); [done|].
  apply IH. split.
  - etrans; [apply Hc|by apply prefix_app_r].
  - intros q [Hq|(d & -> & Hd)%list_elem_of_fmap]%elem_of_app; [by apply Hc|]. simpl.
    destruct (closed_reached _ _ _ _ Hc p) as (r & Hr & Ht & Hreach); [by eapply list_elem_of_lookup_2|].
    exists r. split; [done|]. split; [done|]. by eapply rtc_r.
  - intros j q d Hj Hq Hd. destruct (decide (j = i)) as [->|].
    + apply lookup_lt_Some in Hi as Hlt. rewrite lookup_app_l in Hq by done. rewrite Hi in Hq.
      injection Hq as ->. apply list_elem_of_lookup in Hd as [k Hk].
      exists (length closure + k). split; [lia|].
      rewrite lookup_app_r by lia. replace (length closure + k - length closure) with k by lia.
      by rewrite list_lookup_fmap, Hk.
    + apply lookup_lt_Some in Hi. rewrite lookup_app_l in Hq by lia.
      destruct (closed_supers _ _ _ _ Hc j q d) as (j' & Hj' & Hq'); [lia|done|done|].
      exists j'. split; [done|]. by apply lookup_app_l_Some.
Qed.

Lemma closed_start env given : closed_from env given given 0.
Proof. split; [done|intros p Hp; exists p; repeat split; [done|apply rtc_refl]|lia]. Qed.

(** The closure holds the superclasses of the given predicates, and nothing else. *)
Lemma superclass_closure_elem fuel env given closure p :
  superclass_closure fuel env given = Some closure ->
  p ∈ closure <->
  exists q, q ∈ given /\ pred_typ p = pred_typ q /\ rtc (super env) (pred_class q) (pred_class p).
Proof.
  intros H%(closure_loop_closed env given); [|apply closed_start]. split; [apply H|].
  intros (q & Hq & Ht & Hr). destruct p as [c t]. simpl in *. subst t.
  assert (forall c0, rtc (super env) c0 c -> mkPredicate c0 (pred_typ q) ∈ closure ->
    mkPredicate c (pred_typ q) ∈ closure) as Hgo.
  { clear Hr. intros c0 Hr. induction Hr as [|c0 c1 c2 Hs _ IH]; [done|].
    intros [j Hj]%list_elem_of_lookup. apply IH.
    destruct (closed_supers _ _ _ _ H j _ c1 (lookup_lt_Some _ _ _ Hj) Hj Hs) as (j' & _ & Hj').
    by eapply list_elem_of_lookup_2. }
  apply (Hgo (pred_class q) Hr). destruct q as [cq tq]. simpl.
  destruct (closed_given _ _ _ _ H) as [k ->]. set_solver.
Qed.

(** ** The loop ends exactly when no class is its own ancestor *)

(** A class that is its own ancestor is followed by another one, for ever. *)
Lemma cycle_step env c : tc (super env) c c -> exists d, super env c d /\ tc (super env) d d.
Proof.
  intros Hc. inversion Hc as [? ? Hcc|? d ? Hs Hr]; subst; [by exists c|].
  exists d. split; [done|]. eapply tc_r; done.
Qed.

Lemma closed_no_cycle env given closure p :
  closed_from env given closure (length closure) -> p ∈ closure ->
  ~ tc (super env) (pred_class p) (pred_class p).
Proof.
  intros Hc Hp. apply list_elem_of_lookup in Hp as [i Hi]. remember (length closure - i) as k eqn:Hk.
  revert p i Hi Hk. induction k as [k IH] using lt_wf_ind. intros p i Hi -> Hcyc.
  apply cycle_step in Hcyc as (d & Hs & Hd). pose proof (lookup_lt_Some _ _ _ Hi) as Hlt.
  destruct (closed_supers _ _ _ _ Hc i p d Hlt Hi Hs) as (j & Hj & Hjd).
  pose proof (lookup_lt_Some _ _ _ Hjd). by eapply (IH (length closure - j)); [lia|exact Hjd|done|].
Qed.

(** The number of rounds that a predicate of the class causes. *)
Inductive rounds (env : ClassEnv) : Symbol -> nat -> Prop :=
  | rounds_intro c ns : Forall2 (rounds env) (supers_of env c) ns -> rounds env c (S (sum_list ns)).

Lemma rounds_exist env c : sn (super env) c -> exists n, rounds env c n.
Proof.
  induction 1 as [c _ IH].
  assert (exists ns, Forall2 (rounds env) (supers_of env c) ns) as [ns Hns].
  { assert (forall d, d ∈ supers_of env c -> exists n, rounds env d n) as H by (intros d Hd; by apply IH).
    clear IH. induction (supers_of env c) as [|d ds IHds]; [by exists []|].
    destruct (H d ltac:(by left)) as [n Hn]. destruct IHds as [ns Hns]; [intros; apply H; by right|].
    exists (n :: ns). by constructor. }
  exists (S (sum_list ns)). by constructor.
Qed.

Lemma sum_list_app l k : sum_list (l ++ k) = sum_list l + sum_list k.
Proof. induction l; simpl; lia. Qed.

Lemma closure_loop_halts env : forall fuel closure i ns,
  Forall2 (fun p n => rounds env (pred_class p) n) (drop i closure) ns -> sum_list ns <= fuel ->
  is_Some (closure_loop fuel env closure i).
Proof.
  induction fuel as [|fuel IH]; intros closure i ns Hns Hf; simpl;
    (destruct (closure !! i) as [p|] eqn:Hi; [|by eexists]).
  - erewrite drop_S in Hns by done. inversion Hns as [|? n ? ? Hn _]; subst.
    inversion Hn; subst. simpl in Hf. lia.
  - erewrite drop_S in Hns by done. inversion Hns as [|? n ? ns' Hn Hns']; subst.
    inversion Hn as [? ms Hms]; subst. apply (IH _ _ (ns' ++ ms)).
    + rewrite drop_app_le by (apply lookup_lt_Some in Hi; lia). apply Forall2_app; [done|].
      apply Forall2_fmap_l. apply (Forall2_impl _ _ _ _ Hms). done.
    + simpl in Hf. rewrite sum_list_app. lia.
Qed.

Lemma supers_finite env c : pred_finite (tc (super env) c).
Proof.
  exists (concat (map snd (map_to_list (class_supers env)))). intros d Hd.
  assert (exists b, super env b d) as [b Hb].
  { clear -Hd. induction Hd; eauto. }
  unfold super, supers_of in Hb. destruct (class_supers env !! b) as [l|] eqn:E; [|by apply elem_of_nil in Hb].
  apply list_elem_of_In, in_concat. exists l. rewrite <- !list_elem_of_In. split; [|done].
  apply list_elem_of_fmap. exists (b, l). split; [done|]. by apply elem_of_map_to_list.
Qed.

(** The part of the hierarchy above a class with no cycle above it. *)
Lemma acyclic_sn env c :
  (forall d, rtc (super env) c d -> ~ tc (super env) d d) -> sn (super env) c.
Proof.
  intros Hac. set (R x y := super env x y /\ rtc (super env) c x).
  assert (forall x y, tc R x y -> tc (super env) x y /\ rtc (super env) c x) as HR.
  { intros x y H. induction H as [x y [? ?]|x y z [? ?] _ [? ?]]; (split; [|done]).
    - by apply tc_once.
    - by eapply tc_l. }
  assert (sn R c) as Hsn.
  { apply tc_finite_sn.
    - intros x H. apply HR in H as [H Hr]. by apply (Hac x).
    - destruct (supers_finite env c) as [l Hl]. exists l. intros d Hd. by apply Hl, HR. }
  assert (forall x, sn R x -> rtc (super env) c x -> sn (super env) x) as Hgo.
  { intros x Hx. induction Hx as [x _ IH]. intros Hcx. constructor. intros y Hxy.
    apply IH; [by split|]. by eapply rtc_r. }
  apply Hgo; [done|apply rtc_refl].
Qed.

(** C13. The closure under superclasses, which instance resolution computes first,
    ends exactly when no class above the given predicates is its own ancestor,
    and then holds precisely the given predicates and what their superclasses
    make of them. Nothing in the registration of classes rules such a cycle
    out, so that resolving a predicate of such a
    class never ends. *)
Theorem superclass_closure_ends_iff_acyclic env given :
  (exists fuel closure, superclass_closure fuel env given = Some closure /\
     forall p, p ∈ closure <->
       exists q, q ∈ given /\ pred_typ p = pred_typ q /\ rtc (super env) (pred_class q) (pred_class p)) <->
  forall q c, q ∈ given -> rtc (super env) (pred_class q) c -> ~ tc (super env) c c.
Proof.
  split.
  - intros (fuel & closure & H & Helem) q c Hq Hr.
    pose proof (closure_loop_closed env given fuel _ _ _ (closed_start env given) H) as Hc.
    apply (closed_no_cycle env given closure (mkPredicate c (pred_typ q)) Hc).
    apply Helem. by exists q.
  - intros Hac.
    assert (exists ns, Forall2 (fun p n => rounds env (pred_class p) n) given ns) as [ns Hns].
    { assert (forall q, q ∈ given -> exists n, rounds env (pred_class q) n) as H.
      { intros q Hq. apply rounds_exist, acyclic_sn. intros d. by apply Hac. }
      clear Hac. induction given as [|q given IH]; [by exists []|].
      destruct (H q ltac:(by left)) as [n Hn]. destruct IH as [ns Hns]; [intros; apply H; by right|].
      exists (n :: ns). by constructor. }
    destruct (closure_loop_halts env (sum_list ns) given 0 ns) as [closure Hcl]; [by rewrite drop_0|done|].
    exists (sum_list ns), closure. split; [done|]. intros p. by eapply superclass_closure_elem.
Qed.

(** A class above itself makes resolution run for ever. *)
Lemma entails_diverges env given q c pred :
  q ∈ given -> rtc (super env) (pred_class q) c -> tc (super env) c c ->
  forall fuel, entails fuel env given pred = None.
Proof.
  intros Hq Hr Hc [|fuel]; [done|]. simpl.
  destruct (superclass_closure fuel env given) as [closure|] eqn:H; [|done]. exfalso.
  pose proof (closure_loop_closed env given fuel _ _ _ (closed_start env given) H) as Hcl.
  apply (closed_no_cycle env given closure (mkPredicate c (pred_typ q)) Hcl); [|done].
  eapply superclass_closure_elem; [done|]. by exists q.
Qed.

(** * What instance resolution decides *)

(** A predicate holds when it follows from a given one by superclasses, or by an
    instance of its class whose head it is an instance of and whose context
    holds. *)
Inductive entailed (env : ClassEnv) (given : list Predicate) : Predicate -> Prop :=
  | entailed_given q c :
      q ∈ given -> rtc (super env) (pred_class q) c -> entailed env given (mkPredicate c (pred_typ q))
  | entailed_instance class inst s :
      is_Some (class_supers env !! class) ->
      inst ∈ default [] (class_instances env !! class) ->
      (forall p, p ∈ inst_context inst -> entailed env given (Predicate_apply s p)) ->
      entailed env given (mkPredicate class (apply s (pred_typ (inst_head inst)))).

(** Types without records or variables. *)
Definition ground (t : ty) : Prop := record_free t = true /\ vars t = ∅.

(** Instances whose contexts speak of the variables of their heads. *)
Definition instances_ok (env : ClassEnv) : Prop :=
  forall class inst, inst ∈ default [] (class_instances env !! class) ->
    record_free (pred_typ (inst_head inst)) = true /\
    forall p, p ∈ inst_context inst ->
      record_free (pred_typ p) = true /\ vars (pred_typ p) ⊆ vars (pred_typ (inst_head inst)).

Lemma ground_erase t : vars t = ∅ -> erase t = t.
Proof.
  induction t as [tv|c|l r IHl IHr|a b IHa IHb|ts IH|fs IH] using ty_ind'; simpl; intros Hv; try done.
  - rewrite IHl, IHr by set_solver. done.
  - rewrite IHa, IHb by set_solver. done.
  - f_equal. induction IH as [|t ts Ht _ IHts]; simpl in *; [done|]. rewrite Ht, IHts by set_solver. done.
  - f_equal. induction IH as [|[k t] fs Ht _ IHfs]; simpl in *; [done|]. rewrite Ht, IHfs by set_solver. done.
Qed.

Lemma ground_teq t u : vars u = ∅ -> t ≈ u -> t = u.
Proof.
  intros Hu H. assert (vars t = ∅) as Ht by (by rewrite <- vars_erase, H, vars_erase).
  unfold teq in H. by rewrite !ground_erase in H by done.
Qed.

Lemma map_eq_elem {A B} (f g : A -> B) l x : map f l = map g l -> x ∈ l -> f x = g x.
Proof. induction l; simpl; [set_solver|]. intros [= ??] [->|?]%elem_of_cons; auto. Qed.

(** Two instances of a type that are the same ground type agree on its variables. *)
Lemma ground_agree s1 s2 h :
  vars (subst s1 h) = ∅ -> subst s1 h = subst s2 h -> forall x, x ∈ vars h -> s1 !! x = s2 !! x.
Proof.
  induction h as [tv|c|l r IHl IHr|a b IHa IHb|ts IH|fs IH] using ty_ind'; simpl; intros Hg He x Hx.
  - apply elem_of_singleton in Hx as ->.
    destruct (s1 !! tv_id tv) as [u1|], (s2 !! tv_id tv) as [u2|];
      simpl in *; [congruence|idtac|exfalso; clear -Hg; set_solver|exfalso; clear -Hg; set_solver].
    subst u1. exfalso. clear -Hg. simpl in Hg. set_solver.
  - set_solver.
  - injection He as ??. apply elem_of_union in Hx as [?|?]; [apply IHl|apply IHr]; set_solver.
  - injection He as ??. apply elem_of_union in Hx as [?|?]; [apply IHa|apply IHb]; set_solver.
  - injection He as He. apply union_list_elem in Hx as (t & Ht & Hx). rewrite Forall_forall in IH.
    apply (IH t Ht); [|by apply (map_eq_elem _ _ ts)|done].
    apply elem_of_equiv_empty_L. intros y Hy. apply (not_elem_of_empty (C := gset TypeVarId) y).
    rewrite <- Hg, map_map, union_list_elem. eauto.
  - injection He as He. apply union_list_elem in Hx as (f & Hf & Hx). rewrite Forall_forall in IH.
    apply (IH f Hf); [|pose proof (map_eq_elem _ _ fs f He Hf) as E; by injection E|done].
    apply elem_of_equiv_empty_L. intros y Hy. apply (not_elem_of_empty (C := gset TypeVarId) y).
    rewrite <- Hg, map_map, union_list_elem. eauto.
Qed.

(** Unification of an instance's head with a ground type is matching. *)
Lemma unify_ground h t :
  record_free h = true -> ground t ->
  match unify_types h t with
  | Ok s => subst s h = t /\ (forall x u, s !! x = Some u -> record_free u = true)
  | Err _ => forall s, subst s h <> t
  end.
Proof.
  intros Hh [Ht Hv]. assert (forall s, subst s t = t) as Hid.
  { intros s. apply subst_disjoint. rewrite Hv. set_solver. }
  destruct (unify_types_spec h t) as [n Hn]. specialize (Hn n (le_n _)).
  destruct (unify_types h t) as [s|e].
  - destruct (unify_solves (ok := fun t => record_free t = true) n h t s Hh Ht Hn) as (_ & Hr & Hc).
    split; [|done]. rewrite Hid in Hc. apply ground_teq; [done|].
    apply compat_teq; [done| |done]. by apply (ok_subst (ok := fun t => record_free t = true)).
  - intros s Hs. destruct (unify_complete_absorbs n s h t (Err e) Hh Ht) as (s' & [=] & _); [|done].
    by rewrite Hid, Hs.
Qed.

Lemma instance_ground env class inst s p :
  instances_ok env -> inst ∈ default [] (class_instances env !! class) ->
  ground (subst s (pred_typ (inst_head inst))) -> p ∈ inst_context inst ->
  (forall x u, s !! x = Some u -> record_free u = true) -> ground (pred_typ (Predicate_apply s p)).
Proof.
  intros Hok Hi [_ Hg] Hp Hs. destruct (Hok class inst Hi) as [_ Hctx]. destruct (Hctx p Hp) as [Hr Hv].
  simpl. rewrite apply_subst. split; [by apply (ok_subst (ok := fun t => record_free t = true))|].
  apply elem_of_equiv_empty_L. intros y (x & Hx & Hy)%elem_of_vars_subst.
  apply (not_elem_of_empty (C := gset TypeVarId) y). rewrite <- Hg. apply elem_of_vars_subst. set_solver.
Qed.

(** The instances are tried in order; a context is tried from the left. *)
Lemma all_or_false_spec (f : Predicate -> fueled TypeError bool) (P : Predicate -> Prop) l b :
  (forall p r, p ∈ l -> f p = Some r -> r = Ok true <-> P p) ->
  all_or_false f l = Some b -> b = true <-> forall p, p ∈ l -> P p.
Proof.
  induction l as [|p l IH]; simpl; intros Hf.
  { intros [= <-]. split; [|done]. intros _ p []%not_elem_of_nil. }
  destruct (f p) as [r|] eqn:Hp; [|done]. pose proof (Hf p r ltac:(by left) Hp) as Hiff.
  assert (r <> Ok true -> b = false -> b = true <-> forall q, q ∈ p :: l -> P q) as Hno.
  { intros Hr ->. split; [done|]. intros Hall. by destruct Hr; apply Hiff, Hall; left. }
  destruct r as [[|]|e]; [|intros [= <-]; by apply Hno..].
  intros Hb. rewrite IH; [|intros q r Hq; apply Hf; by right|done]. split.
  - intros Hall q [->|Hq]%elem_of_cons; [by apply Hiff|auto].
  - intros Hall q Hq. apply Hall. by right.
Qed.

Section Resolution.
Context (env : ClassEnv) (given : list Predicate) (Hok : instances_ok env).

Definition decides (rec : Predicate -> fueled TypeError bool) : Prop := forall p r,
  ground (pred_typ p) -> rec p = Some r -> r = Ok true <-> entailed env given p.

(** What a class's instances make of a predicate. *)
Definition by_instance (insts : list Instance_) (pred : Predicate) : Prop :=
  exists inst s, inst ∈ insts /\ apply s (pred_typ (inst_head inst)) = pred_typ pred /\
    forall p, p ∈ inst_context inst -> entailed env given (Predicate_apply s p).

Lemma try_instances_spec rec pred insts r :
  decides rec -> ground (pred_typ pred) ->
  (forall i, i ∈ insts -> i ∈ default [] (class_instances env !! pred_class pred)) ->
  try_instances rec pred insts = Some r -> r = Ok true <-> by_instance insts pred.
Proof using Hok.
  intros Hrec Hg. induction insts as [|inst insts IH]; simpl; intros Hin.
  { intros [= <-]. split; [done|]. intros (i & s & []%not_elem_of_nil & _). }
  assert (forall i, i ∈ insts -> i ∈ default [] (class_instances env !! pred_class pred)) as Hin'
    by (intros; apply Hin; by right).
  pose proof (Hin inst ltac:(by left)) as Hi. destruct (Hok _ _ Hi) as [Hh _].
  pose proof (unify_ground _ _ Hh Hg) as Hu.
  assert (by_instance (inst :: insts) pred <->
    (exists s, apply s (pred_typ (inst_head inst)) = pred_typ pred /\
       forall p, p ∈ inst_context inst -> entailed env given (Predicate_apply s p)) \/ by_instance insts pred) as Hsplit.
  { unfold by_instance. setoid_rewrite elem_of_cons. naive_solver. }
  destruct (unify_types _ _) as [s|e].
  - destruct Hu as [Hs Hr].
    assert (forall p r, p ∈ map (Predicate_apply s) (inst_context inst) -> rec p = Some r ->
      r = Ok true <-> entailed env given p) as Hctx.
    { intros p r' (q & -> & Hq)%list_elem_of_fmap. apply Hrec. eapply instance_ground; [done..| |done|done].
      by rewrite Hs. }
    assert ((forall p, p ∈ map (Predicate_apply s) (inst_context inst) -> entailed env given p) <->
      exists s, apply s (pred_typ (inst_head inst)) = pred_typ pred /\
        forall p, p ∈ inst_context inst -> entailed env given (Predicate_apply s p)) as Hex.
    { split.
      - intros H. exists s. rewrite apply_subst. split; [done|]. intros p Hp. apply H.
        apply list_elem_of_fmap. eauto.
      - intros (s' & Hs' & H) p (q & -> & Hq)%list_elem_of_fmap. rewrite apply_subst in Hs'.
        assert (Predicate_apply s q = Predicate_apply s' q) as ->; [|by apply H].
        unfold Predicate_apply. rewrite !apply_subst. f_equal. apply subst_ext. intros x Hx.
        apply (ground_agree s s' (pred_typ (inst_head inst))); [rewrite Hs; apply Hg|congruence|].
        destruct (Hok _ _ Hi) as [_ Hc]. by apply (Hc q Hq). }
    destruct (all_or_false rec _) as [[|]|] eqn:Hall; [| |done];
      apply (all_or_false_spec rec (entailed env given)) in Hall; try done.
    + intros [= <-]. rewrite Hsplit, <- Hex. split; [|done]. intros _. left. by apply Hall.
    + intros Htry. rewrite (IH Hin' Htry), Hsplit, <- Hex. split; [by right|].
      intros [H|H]; [|done]. by apply Hall in H.
  - intros Htry. rewrite (IH Hin' Htry), Hsplit. split; [by right|].
    intros [(s & Hs & _)|H]; [|done]. rewrite apply_subst in Hs. by destruct (Hu s).
Qed.
End Resolution.

(** Superclasses of given predicates may as well be given. *)
Lemma entailed_closure fuel env given closure p :
  superclass_closure fuel env given = Some closure -> entailed env closure p <-> entailed env given p.
Proof.
  intros H. split.
  - induction 1 as [q c Hq Hr|class inst s Hc Hi _ IH]; [|by eapply entailed_instance].
    apply (superclass_closure_elem _ _ _ _ q H) in Hq as (q' & Hq' & -> & Hr').
    apply entailed_given; [done|]. by etrans.
  - induction 1 as [q c Hq Hr|class inst s Hc Hi _ IH]; [|by eapply entailed_instance].
    apply entailed_given; [|done]. eapply superclass_closure_elem; [done|]. exists q. split; [done|].
    split; [done|apply rtc_refl].
Qed.

(** ** More fuel, and enough of it *)

Lemma closure_loop_mono env n : forall m closure i r,
  n <= m -> closure_loop n env closure i = Some r -> closure_loop m env closure i = Some r.
Proof.
  induction n as [|n IH]; intros m closure i r Hm; destruct m as [|m]; try lia; simpl; destruct (closure !! i) eqn:Hi; try done.
  apply IH. lia.
Qed.

Lemma all_or_false_mono {A} (f g : A -> fueled TypeError bool) l r :
  (forall x r, x ∈ l -> f x = Some r -> g x = Some r) -> all_or_false f l = Some r -> all_or_false g l = Some r.
Proof.
  induction l as [|x l IH]; simpl; intros Hfg; [done|]. destruct (f x) as [y|] eqn:Hx; [|done].
  rewrite (Hfg x y) by (by left || done). destruct y as [[|]|]; try done. apply IH. intros; apply Hfg; [by right|done].
Qed.

Lemma try_instances_mono rec rec' pred insts r :
  (forall p r, rec p = Some r -> rec' p = Some r) ->
  try_instances rec pred insts = Some r -> try_instances rec' pred insts = Some r.
Proof.
  intros Hrec. induction insts as [|inst insts IH]; simpl; [done|]. destruct (unify_types _ _) as [s|]; [|done].
  destruct (all_or_false rec _) as [b|] eqn:Hall; [|done].
  rewrite (all_or_false_mono rec rec' _ b (fun p r _ => Hrec p r) Hall). by destruct b.
Qed.

Lemma entails_mono env n : forall m given pred r,
  n <= m -> entails n env given pred = Some r -> entails m env given pred = Some r.
Proof.
  induction n as [|n IH]; intros [|m] given pred r Hm; try (done || lia). simpl. unfold superclass_closure.
  destruct (closure_loop n env given 0) as [closure|] eqn:Hcl; [|done].
  rewrite (closure_loop_mono env n m given 0 closure) by (lia || done).
  case_bool_decide; [done|]. destruct (class_supers env !! pred_class pred); [|done].
  apply try_instances_mono. intros p r'. apply IH. lia.
Qed.

(** No class above the given predicates is its own ancestor. *)
Definition acyclic_above (env : ClassEnv) (given : list Predicate) : Prop :=
  forall q c, q ∈ given -> rtc (super env) (pred_class q) c -> ~ tc (super env) c c.

(** The context of an instance speaks of smaller types than its head. *)
Definition shrinking (env : ClassEnv) : Prop :=
  forall class inst p s, inst ∈ default [] (class_instances env !! class) -> p ∈ inst_context inst ->
    ty_size (apply s (pred_typ p)) < ty_size (apply s (pred_typ (inst_head inst))).

Lemma acyclic_above_closure fuel env given closure :
  superclass_closure fuel env given = Some closure -> acyclic_above env given -> acyclic_above env closure.
Proof.
  intros H Hac p c (q & Hq & _ & Hr)%(superclass_closure_elem fuel env given closure p H) Hpc.
  apply (Hac q c Hq). by etrans.
Qed.

Lemma all_or_false_settles {A} (f : nat -> A -> fueled TypeError bool) l :
  (forall x, x ∈ l -> exists N r, forall n, N <= n -> f n x = Some r) ->
  exists N r, forall n, N <= n -> all_or_false (f n) l = Some r.
Proof.
  induction l as [|x l IH]; intros Hf; [by exists 0, true|].
  destruct (Hf x ltac:(by left)) as (N & y & HN). destruct IH as (M & b & HM); [intros; apply Hf; by right|].
  exists (N `max` M), (match y with Ok true => b | _ => false end). intros n Hn. simpl. rewrite HN by lia.
  destruct y as [[|]|]; try done. apply HM. lia.
Qed.

Lemma try_instances_settles (rec : nat -> Predicate -> fueled TypeError bool) pred insts :
  (forall inst s p, inst ∈ insts -> unify_types (pred_typ (inst_head inst)) (pred_typ pred) = Ok s ->
     p ∈ inst_context inst -> exists N r, forall n, N <= n -> rec n (Predicate_apply s p) = Some r) ->
  exists N r, forall n, N <= n -> try_instances (rec n) pred insts = Some r.
Proof.
  induction insts as [|inst insts IH]; intros Hrec; [by exists 0, (Ok false)|].
  destruct IH as (N & r & HN); [intros i s p Hi; apply Hrec; by right|]. simpl.
  destruct (unify_types _ _) as [s|] eqn:Hu; [|by exists N, r].
  destruct (all_or_false_settles rec (map (Predicate_apply s) (inst_context inst))) as (M & b & HM).
  { intros p (q & -> & Hq)%list_elem_of_fmap. eapply Hrec; [by left|done|done]. }
  exists (N `max` M), (if b then Ok true else r). intros n Hn. rewrite HM by lia. destruct b; [done|]. apply HN. lia.
Qed.

(** The search ends on every type of a class on which the contexts of matching
    instances are smaller. *)
Lemma entails_settles env (G : ty -> Prop) :
  (forall class inst t s p, inst ∈ default [] (class_instances env !! class) -> G t ->
     unify_types (pred_typ (inst_head inst)) t = Ok s -> p ∈ inst_context inst ->
     G (apply s (pred_typ p)) /\ ty_size (apply s (pred_typ p)) < ty_size t) ->
  forall given pred, acyclic_above env given -> G (pred_typ pred) ->
  exists N r, forall n, N <= n -> entails n env given pred = Some r.
Proof.
  intros Hstep given pred. remember (ty_size (pred_typ pred)) as k eqn:Hk. revert given pred Hk.
  induction k as [k IH] using lt_wf_ind. intros given pred -> Hac Hg.
  destruct (proj2 (superclass_closure_ends_iff_acyclic env given) Hac) as (N0 & closure & Hcl & _).
  destruct (try_instances_settles (fun n => entails n env closure) pred (default [] (class_instances env !! pred_class pred)))
    as (N & r & HN).
  { intros inst s p Hi Hu Hp. destruct (Hstep _ _ _ _ _ Hi Hg Hu Hp) as [Hg' Hlt].
    eapply (IH _ Hlt); [done|by eapply acyclic_above_closure|done]. }
  assert (Hcl' : forall n, N0 <= n -> superclass_closure n env given = Some closure).
  { intros n Hn. by apply (closure_loop_mono env N0 n). }
  exists (S (N `max` N0)), (if bool_decide (pred ∈ closure) then Ok true
    else match class_supers env !! pred_class pred with None => Err (UnknownClass (pred_class pred)) | Some _ => r end).
  intros [|n] Hn; [lia|]. simpl. rewrite Hcl' by lia. case_bool_decide; [done|].
  destruct (class_supers env !! pred_class pred); [|done]. apply HN. lia.
Qed.

Lemma entails_answer fuel env given pred r :
  instances_ok env -> ground (pred_typ pred) ->
  entails fuel env given pred = Some r -> r = Ok true <-> entailed env given pred.
Proof.
  intros Hok. revert given pred r. induction fuel as [|fuel IH]; intros given pred r Hg; [done|]. simpl.
  destruct (superclass_closure fuel env given) as [closure|] eqn:Hcl; [|done].
  pose proof (fun p => superclass_closure_elem fuel env given closure p Hcl) as Helem.
  assert (entailed env given pred <-> pred ∈ closure \/
    (is_Some (class_supers env !! pred_class pred) /\
     by_instance env given (default [] (class_instances env !! pred_class pred)) pred)) as Hiff.
  { split.
    - inversion 1 as [q c Hq Hr|class inst s Hc Hi Hctx]; subst; simpl.
      + left. apply Helem. by exists q.
      + right. split; [done|]. by exists inst, s.
    - intros [(q & Hq & Ht & Hr)%Helem|(Hc & inst & s & Hi & Hs & Hctx)].
      + destruct pred as [c t]; simpl in *; subst. by apply entailed_given.
      + destruct pred as [c t]; simpl in *; subst. by eapply entailed_instance. }
  rewrite Hiff. case_bool_decide as Hin; [intros [= <-]; naive_solver|].
  destruct (class_supers env !! pred_class pred) as [supers|] eqn:Hk.
  - intros Htry.
    assert (decides env given (entails fuel env closure)) as Hdec.
    { intros p r' Hp Hr'. rewrite <- (entailed_closure fuel env given closure p Hcl). by eapply IH. }
    rewrite (try_instances_spec env given Hok _ pred _ r Hdec Hg (fun i H => H) Htry). naive_solver.
  - intros [= <-]. split; [done|]. intros [?|[[? ?] _]]; done.
Qed.

(** C12. Instance resolution decides the declarative relation. Take instances whose
    heads and contexts hold no records and whose contexts speak only of variables of
    their heads ([instances_ok]), and a predicate on a type without variables and
    records. Whenever the recursive search through superclasses and instance contexts
    answers, it answers yes exactly when the predicate follows from the given ones by
    superclasses and instances: the order of the instances, the early stop at the first
    context that fails and the errors swallowed inside contexts lose nothing. And it
    answers, with one answer for all large fuels, when no class above the given
    predicates is its own ancestor and the contexts of instances speak of smaller types
    than their heads. *)
Theorem entails_decides_entailment env given pred :
  instances_ok env -> ground (pred_typ pred) ->
  (forall fuel r, entails fuel env given pred = Some r -> r = Ok true <-> entailed env given pred) /\
  (acyclic_above env given -> shrinking env ->
   exists N r, forall fuel, N <= fuel -> entails fuel env given pred = Some r).
Proof.
  intros Hok Hg. split; [intros fuel r; by apply entails_answer|]. intros Hac Hsh.
  apply (entails_settles env ground); [|done|done].
  intros class inst t s p Hi Ht Hu Hp. destruct (Hok _ _ Hi) as [Hh _].
  pose proof (unify_ground _ _ Hh Ht) as H. rewrite Hu in H. destruct H as [<- Hs]. split.
  - by apply (instance_ground env class inst s p).
  - rewrite <- apply_subst. by eapply Hsh.
Qed.

(** A class [Show] with instances [Show i32] and [Show a => Show (List a)]. *)
Definition show_class (t : ty) : Predicate := mkPredicate "Show" t.
Definition show_env : ClassEnv :=
  let a := TVar (TypeVar_new 0 (Some "a")) in
  add_instance "Show" (mkInstance [show_class a] (show_class (Type_list a)) None)
    (add_instance "Show" (mkInstance [] (show_class (ty_builtin I32)) None)
       (add_class "Show" [] ClassEnv_new)).

Lemma show_env_ok : instances_ok show_env.
Proof.
  intros class inst. destruct (decide (class = "Show")) as [->|Hne].
  - intros [->|[->|[]%not_elem_of_nil]%elem_of_cons]%elem_of_cons; (split; [done|]).
    + intros p []%not_elem_of_nil.
    + intros p ->%list_elem_of_singleton. split; [done|]. simpl. set_solver.
  - simpl. rewrite !lookup_insert_ne, lookup_empty by done. intros []%not_elem_of_nil.
Qed.

Lemma show_env_shrinking : shrinking show_env.
Proof.
  intros class inst p s. destruct (decide (class = "Show")) as [->|Hne].
  - intros [->|[->|[]%not_elem_of_nil]%elem_of_cons]%elem_of_cons; [intros []%not_elem_of_nil|].
    intros ->%list_elem_of_singleton. rewrite !apply_subst. simpl. lia.
  - simpl. rewrite !lookup_insert_ne, lookup_empty by done. intros []%not_elem_of_nil.
Qed.

Lemma entails_decides_entailment_witness :
  let pred := show_class (Type_list (Type_list (ty_builtin I32))) in
  entails 9 show_env [] pred = Some (Ok true) /\
  (Ok (E := TypeError) true = Ok true <-> entailed show_env [] pred) /\
  exists N r, forall fuel, N <= fuel -> entails fuel show_env [] pred = Some r.
Proof.
  intros pred. assert (entails 9 show_env [] pred = Some (Ok true)) as H by (vm_compute; reflexivity).
  destruct (entails_decides_entailment show_env [] pred show_env_ok) as [Hdec Hends].
  { split; vm_compute; reflexivity. }
  split; [exact H|]. split; [exact (Hdec 9 (Ok true) H)|]. apply Hends; [|exact show_env_shrinking].
  intros q c []%not_elem_of_nil.
Defined.
