(* ===== verification/LetRec.v ===== *)
(** The check of recursive binding groups, [validate_let_rec_bindings] of
    [rex-typesystem/src/inference.rs]: the bindings of a group are evaluated in
    their order, so a binding that is not a lambda may neither mention itself or a
    later one, nor mention a function through which it would be reached.

    [validate_spec] relates the search of the code, with its set of functions
    being visited, to paths in the graph of references. *)

From S2P Require Import Prelude Span Types Adts Syntax Ast.

Abbreviation LetRecBinding := (Var * list Symbol * option TypeExpr * Expr)%type.

Definition binding_name (b : LetRecBinding) : Symbol := var_name b.1.1.1.
Definition binding_def (b : LetRecBinding) : Expr := b.2.

Inductive LetRecBindingKind : Type := Function_ | Value_.

#[global] Instance LetRecBindingKind_eq_dec : EqDecision LetRecBindingKind.
Proof. solve_decision. Defined.

(** The loop that goes through annotations. *)
Fixpoint strip_ann (e : Expr) : Expr :=
  match e with XAnn _ inner _ => strip_ann inner | _ => e end.

Definition let_rec_binding_kind (e : Expr) : LetRecBindingKind :=
  match strip_ann e with XLam _ _ _ _ _ _ => Function_ | _ => Value_ end.

(** * References *)

(** The code adds to a set [out]; here the set of the additions is returned. *)
Fixpoint collect_pattern_vars (pat : Pattern) : gset Symbol :=
  match pat with
  | PWildcard _ => ∅
  | PVar v => {[var_name v]}
  | PNamed _ _ args => ⋃ (map collect_pattern_vars args)
  | PTuple _ elems | PList _ elems => ⋃ (map collect_pattern_vars elems)
  | PCons _ head tail => collect_pattern_vars head ∪ collect_pattern_vars tail
  | PDict _ fields => ⋃ (map (fun f => collect_pattern_vars f.2) fields)
  end.

Fixpoint collect_let_rec_refs (e : Expr) (group_names bound : gset Symbol) : gset Symbol :=
  let refs e := collect_let_rec_refs e group_names bound in
  match e with
  | XBool _ _ | XUint _ _ | XInt _ _ | XFloat _ _ | XChar _ _ | XString _ _ | XUuid _ _
  | XDateTime _ _ | XHole _ => ∅
  | XTuple _ elems | XList _ elems => ⋃ (map refs elems)
  | XDict _ fields => ⋃ (map (fun f => refs f.2) fields)
  | XRecordUpdate _ base updates => refs base ∪ ⋃ (map (fun f => refs f.2) updates)
  | XVar v =>
      if bool_decide (var_name v ∈ group_names) && negb (bool_decide (var_name v ∈ bound))
      then {[var_name v]} else ∅
  | XApp _ f arg => refs f ∪ refs arg
  | XProject _ base _ | XAnn _ base _ => refs base
  | XLam _ scope param _ _ body =>
      ⋃ (map (fun f => refs f.2) scope) ∪
      collect_let_rec_refs body group_names ({[var_name param]} ∪ bound)
  | XLet _ v _ _ def body =>
      refs def ∪ collect_let_rec_refs body group_names ({[var_name v]} ∪ bound)
  | XLetRec _ bindings body =>
      let nested := list_to_set (map (fun b : Var * list Symbol * option TypeExpr * Expr => var_name b.1.1.1) bindings) ∪ bound in
      ⋃ (map (fun b => collect_let_rec_refs b.2 group_names nested) bindings) ∪
      collect_let_rec_refs body group_names nested
  | XIte _ cond then_expr else_expr => refs cond ∪ refs then_expr ∪ refs else_expr
  | XMatch _ scrutinee arms =>
      refs scrutinee ∪
      ⋃ (map (fun arm => collect_let_rec_refs arm.2 group_names (collect_pattern_vars arm.1 ∪ bound)) arms)
  end.

(** The elements of a [BTreeSet] of names, in order. *)
Definition sorted_names (s : gset Symbol) : list Symbol := sort_by_key (fun n => n) (elements s).

(** * The check *)

Section Group.
Variable bindings : list LetRecBinding.

Definition group_names : gset Symbol := list_to_set (map binding_name bindings).

(** [collect] into a [BTreeMap]: the last of two bindings with one name wins. *)
Definition binding_indices : gmap Symbol nat :=
  foldl (fun m e => <[e.2 := e.1]> m) ∅ (zip (seq 0 (length bindings)) (map binding_name bindings)).

Definition kind_of (i : nat) : LetRecBindingKind :=
  match bindings !! i with Some b => let_rec_binding_kind (binding_def b) | None => Value_ end.

Definition deps_of (i : nat) : list Symbol :=
  match bindings !! i with
  | Some b => sorted_names (collect_let_rec_refs (binding_def b) group_names ∅)
  | None => []
  end.

(** The loop over the references of a binding, which [validate_let_rec_bindings]
    and [function_reaches_uninitialized_binding] share: the first that is not
    before [value_index], or that is a function from which [rec] reaches one. *)
Fixpoint first_uninitialized (rec : nat -> option (option Symbol)) (value_index : nat) (deps : list Symbol)
    : option (option Symbol) :=
  match deps with
  | [] => Some None
  | dep :: deps =>
      match binding_indices !! dep with
      | None => first_uninitialized rec value_index deps
      | Some dep_index =>
          if value_index <=? dep_index then Some (Some dep)
          else if decide (kind_of dep_index = Function_)
          then match rec dep_index with
               | None => None
               | Some (Some dep) => Some (Some dep)
               | Some None => first_uninitialized rec value_index deps
               end
          else first_uninitialized rec value_index deps
      end
  end.

Fixpoint function_reaches_uninitialized_binding (fuel : nat) (func_index value_index : nat)
    (visiting : gset nat) : option (option Symbol) :=
  if bool_decide (func_index ∈ visiting) then Some None
  else match fuel with
       | O => None
       | S fuel =>
           first_uninitialized
             (fun dep_index => function_reaches_uninitialized_binding fuel dep_index value_index
                                 ({[func_index]} ∪ visiting))
             value_index (deps_of func_index)
       end.

Definition invalid_let_rec_value_dependency (binding dependency : Symbol) (def : Expr) : TypeError :=
  with_span (InvalidLetRecValueDependency binding dependency) (Expr_span def).

Fixpoint validate_loop (fuel : nat) (rest : list (nat * LetRecBinding)) : fueled TypeError unit :=
  match rest with
  | [] => fret tt
  | (index, b) :: rest =>
      if decide (kind_of index = Value_) then
        match first_uninitialized
                (fun dep_index => function_reaches_uninitialized_binding fuel dep_index index ∅)
                index (deps_of index) with
        | None => None
        | Some (Some dep) => ferr (invalid_let_rec_value_dependency (binding_name b) dep (binding_def b))
        | Some None => validate_loop fuel rest
        end
      else validate_loop fuel rest
  end.

(** The search visits each binding at most once on a path, so as much fuel as
    bindings is enough. *)
Definition validate_let_rec_bindings : fueled TypeError unit :=
  validate_loop (length bindings) (zip (seq 0 (length bindings)) bindings).

(** * Paths *)

(** Binding [i] mentions binding [j]. *)
Definition mentions (i j : nat) : Prop := exists dep, dep ∈ deps_of i /\ binding_indices !! dep = Some j.

(** From [j], through functions, to [k]. *)
Definition through_functions : nat -> nat -> Prop := rtc (fun i j => kind_of i = Function_ /\ mentions i j).

(** Evaluating the definition of [i] may read [k]. *)
Definition may_read (i k : nat) : Prop := exists j, mentions i j /\ through_functions j k.

(** A path from [x] along the nodes [l] to a node not below [v], through functions
    outside [V]. *)
Fixpoint bad_path (v : nat) (V : gset nat) (x : nat) (l : list nat) : Prop :=
  match l with
  | [] => v <= x
  | y :: l => kind_of x = Function_ /\ x ∉ V /\ mentions x y /\ bad_path v V y l
  end.

Lemma bad_path_split v V x y l :
  bad_path v V y l -> bad_path v ({[x]} ∪ V) y l \/ exists l', length l' <= length l /\ bad_path v V x l'.
Proof.
  revert y. induction l as [|z l IH]; intros y; simpl; [by left|].
  intros (Hf & HV & Hm & Hp). destruct (decide (y = x)) as [->|Hne].
  - right. exists (z :: l). by repeat split.
  - destruct (IH z Hp) as [H|(l' & Hl & H)]; [left; repeat split; try done; set_solver|].
    right. exists l'. split; [lia|done].
Qed.

Lemma bad_path_reach v V x l : bad_path v V x l -> exists k, through_functions x k /\ v <= k.
Proof.
  revert x. induction l as [|y l IH]; intros x; simpl.
  - intros Hv. exists x. split; [apply rtc_refl|done].
  - intros (Hf & _ & Hm & Hp). destruct (IH y Hp) as (k & Hk & Hv). exists k.
    split; [|done]. eapply rtc_l; [|done]. done.
Qed.

Lemma reach_bad_path v x k : through_functions x k -> v <= k -> exists l, bad_path v ∅ x l.
Proof.
  intros Hr Hv. induction Hr as [x|x y k [Hf Hm] _ IH]; [by exists []|].
  destruct (IH Hv) as [l Hl]. exists (y :: l). simpl. split_and!; [done|set_solver|done|done].
Qed.

(** What one scan finds: [finds j] says that the search from [j] ends in a node
    not below [v]. *)
Lemma first_uninitialized_spec rec v deps (finds : nat -> Prop) r :
  (forall j d, rec j = Some d -> d <> None <-> finds j) ->
  first_uninitialized rec v deps = Some r ->
  r <> None <-> exists dep j, dep ∈ deps /\ binding_indices !! dep = Some j /\
    (v <= j \/ (kind_of j = Function_ /\ finds j)).
Proof.
  intros Hrec. induction deps as [|dep deps IH]; simpl.
  { intros [= <-]. split; [done|]. intros (d & j & []%not_elem_of_nil & _). }
  assert (forall Q : Symbol -> nat -> Prop, (exists d j, d ∈ dep :: deps /\ binding_indices !! d = Some j /\ Q d j) <->
    (exists j, binding_indices !! dep = Some j /\ Q dep j) \/
    (exists d j, d ∈ deps /\ binding_indices !! d = Some j /\ Q d j)) as Hcons.
  { intros Q. setoid_rewrite elem_of_cons. split.
    - intros (d & j & [->|Hd] & Hj & HQ); [left; eauto|right; eauto].
    - intros [(j & Hj & HQ)|(d & j & Hd & Hj & HQ)]; eauto 10. }
  rewrite (Hcons (fun d j => v <= j \/ (kind_of j = Function_ /\ finds j))).
  destruct (binding_indices !! dep) as [j|] eqn:Hj.
  - destruct (v <=? j) eqn:Hv.
    { intros [= <-]. apply Nat.leb_le in Hv. split; [|done]. intros _. left. eauto. }
    apply Nat.leb_gt in Hv. destruct (decide (kind_of j = Function_)) as [Hk|Hk].
    + destruct (rec j) as [[d|]|] eqn:Hr; [| |done].
      * intros [= <-]. split; [|done]. intros _. left. exists j. split; [done|]. right.
        split; [done|]. by apply (Hrec j (Some d)).
      * intros H%IH. rewrite H. split; [by right|]. intros [(j' & [= <-] & [?|[_ Hf]])|?]; [lia| |done].
        by apply (Hrec j None) in Hf.
    + intros H%IH. rewrite H. split; [by right|]. intros [(j' & [= <-] & [?|[? _]])|?]; [lia|done|done].
  - intros H%IH. rewrite H. split; [by right|]. intros [(j' & [=] & _)|?]. done.
Qed.

Lemma search_sound v fuel : forall x V d,
  kind_of x = Function_ -> function_reaches_uninitialized_binding fuel x v V = Some d ->
  d <> None -> exists k, through_functions x k /\ v <= k.
Proof.
  induction fuel as [|fuel IH]; intros x V d Hx; simpl; case_bool_decide; try (by intros [= <-]).
  intros Hr Hd. set (rec := fun j => _) in Hr.
  assert (forall deps, first_uninitialized rec v deps = Some d -> d <> None ->
    exists dep j, dep ∈ deps /\ binding_indices !! dep = Some j /\
      (v <= j \/ (kind_of j = Function_ /\ exists d', d' <> None /\ rec j = Some d'))) as Hscan.
  { induction deps as [|dep deps IHd]; simpl; [by intros [= <-]|].
    assert ((exists dep0 j, dep0 ∈ deps /\ binding_indices !! dep0 = Some j /\
       (v <= j \/ (kind_of j = Function_ /\ exists d', d' <> None /\ rec j = Some d'))) ->
      exists dep0 j, dep0 ∈ dep :: deps /\ binding_indices !! dep0 = Some j /\
       (v <= j \/ (kind_of j = Function_ /\ exists d', d' <> None /\ rec j = Some d'))) as Hlift.
    { intros (d0 & j & Hin & ?). exists d0, j. split; [by right|done]. }
    destruct (binding_indices !! dep) as [j|] eqn:Hj; [|eauto].
    destruct (v <=? j) eqn:Hv; [intros _ _; exists dep, j; apply Nat.leb_le in Hv; split; [by left|eauto]|].
    destruct (decide (kind_of j = Function_)) as [Hk|]; [|eauto].
    destruct (rec j) as [[d0|]|] eqn:Hrj; [|eauto|done]. intros _ _. exists dep, j.
    split; [by left|]. split; [done|]. right. split; [done|]. by exists (Some d0). }
  destruct (Hscan _ Hr Hd) as (dep & j & Hin & Hj & Hcase).
  assert (mentions x j) as Hm by (by exists dep).
  destruct Hcase as [Hv|(Hk & d' & Hd' & Hrj)].
  - exists j. split; [|done]. by apply rtc_once.
  - destruct (IH j _ d' Hk Hrj Hd') as (k & Hkr & Hv). exists k. split; [|done]. eapply rtc_l; [|done]. done.
Qed.

(** Every path is found. *)
Lemma search_complete v : forall l x V fuel d,
  bad_path v V x l -> x < v -> function_reaches_uninitialized_binding fuel x v V = Some d -> d <> None.
Proof.
  intros l. remember (length l) as n eqn:Hn. revert l Hn.
  induction n as [n IH] using lt_wf_ind. intros l -> x V fuel d Hp Hx.
  destruct l as [|y l]; simpl in Hp; [lia|]. destruct Hp as (Hf & HV & [dep [Hdep Hy]] & Hp).
  destruct (bad_path_split v V x y l Hp) as [Hp'|(l' & Hl & Hp')].
  2:{ intros H. eapply (IH (length l') ltac:(simpl; lia) l' eq_refl); done. }
  destruct fuel as [|fuel]; simpl; rewrite bool_decide_false by done; [done|].
  assert (forall deps, dep ∈ deps ->
    first_uninitialized (fun j => function_reaches_uninitialized_binding fuel j v ({[x]} ∪ V)) v deps = Some d ->
    d <> None) as Hscan; [|by apply Hscan].
  induction deps as [|dep' deps IHd]; [by intros []%not_elem_of_nil|].
  intros Hin. simpl. destruct (decide (dep' = dep)) as [->|Hne].
  - rewrite Hy. destruct (v <=? y) eqn:Hv; [by intros [= <-]|]. apply Nat.leb_gt in Hv.
    destruct l as [|z l]; [simpl in Hp; lia|]. pose proof Hp as [Hfy _]. rewrite decide_True by done.
    destruct (function_reaches_uninitialized_binding fuel y v ({[x]} ∪ V)) as [d'|] eqn:Hr; [|done].
    assert (d' <> None) as Hd' by (by eapply (IH (length (z :: l)) ltac:(simpl; lia) (z :: l) eq_refl)).
    destruct d'; [|done]. by intros [= <-].
  - assert (dep ∈ deps) as Hin' by (apply elem_of_cons in Hin as [?|?]; [congruence|done]).
    destruct (binding_indices !! dep') as [j|]; [|by apply IHd].
    destruct (v <=? j); [by intros [= <-]|]. destruct (decide _); [|by apply IHd].
    destruct (function_reaches_uninitialized_binding fuel j v _) as [[d'|]|]; [by intros [= <-]|by apply IHd|done].
Qed.

(** ** The fuel is enough *)

Definition in_group (i : nat) : Prop := i < length bindings.

Lemma binding_indices_lt name i : binding_indices !! name = Some i -> in_group i.
Proof.
  unfold binding_indices, in_group.
  assert (forall l m, (forall n i, m !! n = Some i -> i < length bindings) ->
    (forall e, e ∈ l -> e.1 < length bindings) ->
    foldl (fun (m : gmap Symbol nat) e => <[e.2 := e.1]> m) m l !! name = Some i -> i < length bindings) as H.
  { induction l as [|e l IH]; simpl; intros m Hm Hl; [by apply Hm|]. apply IH; [|intros; apply Hl; by right].
    intros n j. destruct (decide (e.2 = n)) as [<-|Hne].
    - rewrite lookup_insert_eq. intros [= <-]. apply Hl. by left.
    - rewrite lookup_insert_ne by done. apply Hm. }
  apply H; [by intros n j; rewrite lookup_empty|].
  intros [j n] Hin. apply elem_of_zip_l in Hin. simpl. apply elem_of_seq in Hin. lia.
Qed.

(** [V] holds bindings of the group, and there is fuel for the others. *)
Lemma search_halts v fuel : forall x V,
  (forall i, i ∈ V -> in_group i) -> in_group x -> length bindings < size V + S fuel ->
  is_Some (function_reaches_uninitialized_binding fuel x v V).
Proof.
  assert (forall V : gset nat, (forall i, i ∈ V -> in_group i) -> size V <= length bindings) as Hsize.
  { intros V HV. assert (V ⊆ list_to_set (seq 0 (length bindings))) as Hsub%subseteq_size.
    { intros i Hi. apply elem_of_list_to_set, elem_of_seq. specialize (HV i Hi). unfold in_group in HV. lia. }
    rewrite size_list_to_set in Hsub by apply NoDup_seq. by rewrite length_seq in Hsub. }
  induction fuel as [|fuel IH]; intros x V HV Hx Hf; simpl; (case_bool_decide as Hin; [by eexists|]).
  - exfalso. assert (size ({[x]} ∪ V) <= length bindings) as H by (apply Hsize; set_solver).
    rewrite size_union, size_singleton in H by set_solver. lia.
  - assert (forall deps, is_Some (first_uninitialized
      (fun j => function_reaches_uninitialized_binding fuel j v ({[x]} ∪ V)) v deps)) as H; [|apply H].
    induction deps as [|dep deps IHd]; simpl; [by eexists|].
    destruct (binding_indices !! dep) as [j|] eqn:Hj; [|done]. destruct (v <=? j); [by eexists|].
    destruct (decide _); [|done].
    destruct (IH j ({[x]} ∪ V)) as [d Hd]; [set_solver|by eapply binding_indices_lt| |].
    { rewrite size_union, size_singleton by set_solver. lia. }
    rewrite Hd. destruct d; [by eexists|done].
Qed.

Lemma first_halts v deps : is_Some (first_uninitialized
  (fun j => function_reaches_uninitialized_binding (length bindings) j v ∅) v deps).
Proof.
  induction deps as [|dep deps IHd]; simpl; [by eexists|].
  destruct (binding_indices !! dep) as [j|] eqn:Hj; [|done]. destruct (v <=? j); [by eexists|].
  destruct (decide _); [|done].
  destruct (search_halts v (length bindings) j ∅) as [d Hd];
    [set_solver|by eapply binding_indices_lt|rewrite size_empty; lia|].
  rewrite Hd. destruct d; [by eexists|done].
Qed.

(** What the check of one binding finds. *)
Lemma binding_check index d :
  first_uninitialized (fun j => function_reaches_uninitialized_binding (length bindings) j index ∅)
    index (deps_of index) = Some d ->
  d = None <-> forall k, may_read index k -> k < index.
Proof.
  intros H. destruct d as [d|].
  - split; [done|]. intros Hall. exfalso.
    assert (forall deps, (forall x, x ∈ deps -> x ∈ deps_of index) ->
      first_uninitialized (fun j => function_reaches_uninitialized_binding (length bindings) j index ∅)
        index deps = Some (Some d) -> exists k, may_read index k /\ index <= k) as Hscan.
    { clear H. induction deps as [|dep deps IHd]; intros Hin; simpl; [done|].
      assert (forall x, x ∈ deps -> x ∈ deps_of index) as Hin' by (intros; apply Hin; by right).
      destruct (binding_indices !! dep) as [j|] eqn:Hj; [|by apply IHd].
      assert (mentions index j) as Hm by (exists dep; split; [apply Hin; by left|done]).
      destruct (index <=? j) eqn:Hv.
      { intros _. apply Nat.leb_le in Hv. exists j. split; [|done]. exists j. split; [done|apply rtc_refl]. }
      destruct (decide _) as [Hk|]; [|by apply IHd].
      destruct (function_reaches_uninitialized_binding _ j index ∅) as [[d'|]|] eqn:Hr; [|by apply IHd|done].
      intros _. destruct (search_sound index _ j ∅ _ Hk Hr) as (k & Hkr & Hv'); [done|].
      exists k. split; [|done]. by exists j. }
    destruct (Hscan _ (fun x H => H) H) as (k & Hk & Hv). specialize (Hall k Hk). lia.
  - split; [|done]. intros _ k (j & [dep [Hdep Hj]] & Hr). destruct (decide (k < index)) as [|Hge]; [done|].
    exfalso. assert (forall deps, dep ∈ deps ->
      first_uninitialized (fun j => function_reaches_uninitialized_binding (length bindings) j index ∅)
        index deps = Some None -> False) as Hscan; [|by eapply Hscan].
    clear H. induction deps as [|dep' deps IHd]; [by intros []%not_elem_of_nil|]. intros Hin. simpl.
    destruct (decide (dep' = dep)) as [->|Hne].
    + rewrite Hj. destruct (index <=? j) eqn:Hv; [done|]. apply Nat.leb_gt in Hv.
      destruct (reach_bad_path index j k Hr ltac:(lia)) as [l Hl].
      destruct l as [|z l]; [simpl in Hl; lia|]. pose proof Hl as [Hf _]. rewrite decide_True by done.
      destruct (function_reaches_uninitialized_binding _ j index ∅) as [[d'|]|] eqn:Hs; [done| |done].
      intros _. by eapply (search_complete index (z :: l) j ∅ _ None).
    + assert (dep ∈ deps) as Hin' by (apply elem_of_cons in Hin as [?|?]; [congruence|done]).
      destruct (binding_indices !! dep') as [j'|]; [|by apply IHd].
      destruct (index <=? j'); [done|]. destruct (decide _); [|by apply IHd].
      destruct (function_reaches_uninitialized_binding _ j' index ∅) as [[d'|]|]; [done|by apply IHd|done].
Qed.

Lemma validate_loop_spec rest : exists r, validate_loop (length bindings) rest = Some r /\
  (r = Ok tt <-> forall e, e ∈ rest -> kind_of e.1 = Value_ -> forall k, may_read e.1 k -> k < e.1).
Proof.
  induction rest as [|[i b] rest (r & Hr & IH)]; simpl.
  { exists (Ok tt). split; [done|]. split; [|done]. intros _ e []%not_elem_of_nil. }
  assert (forall P : nat * LetRecBinding -> Prop,
    (forall e, e ∈ (i, b) :: rest -> P e) <-> P (i, b) /\ forall e, e ∈ rest -> P e) as Hcons.
  { intros P. setoid_rewrite elem_of_cons. naive_solver. }
  specialize (Hcons (fun e => kind_of e.1 = Value_ -> forall k, may_read e.1 k -> k < e.1)). simpl in Hcons.
  destruct (decide (kind_of i = Value_)) as [Hk|Hk]; [|exists r; split; [done|]; rewrite Hcons, IH; naive_solver].
  destruct (first_halts i (deps_of i)) as [d Hd]. rewrite Hd. pose proof (binding_check i d Hd) as Hiff.
  destruct d as [d|].
  - eexists. split; [done|]. rewrite Hcons. split; [done|]. intros [H _]. by discriminate (proj2 Hiff (H Hk)).
  - exists r. split; [done|]. rewrite Hcons, IH. naive_solver.
Qed.

(** C11. The check of recursive bindings accepts a group exactly when evaluation
    in the order of the source never reads a binding before it is there: a
    binding that is not a lambda may mention, directly or through any chain of
    functions of the group, only bindings before it. The search, which gives up
    on functions it is already visiting, misses no chain and always ends. *)
Theorem validate_let_rec_bindings_spec :
  exists r, validate_let_rec_bindings = Some r /\
    (r = Ok tt <-> forall i, in_group i -> kind_of i = Value_ -> forall k, may_read i k -> k < i).
Proof.
  destruct (validate_loop_spec (zip (seq 0 (length bindings)) bindings)) as (r & Hr & Hiff).
  exists r. split; [done|]. rewrite Hiff. split.
  - intros H i Hi. destruct (lookup_lt_is_Some_2 bindings i Hi) as [b Hb].
    apply (H (i, b)). apply list_elem_of_lookup. exists i. apply lookup_zip_Some. split; [|done].
    by apply lookup_seq.
  - intros H [i b] Hin. apply H. apply elem_of_zip_l, elem_of_seq in Hin. unfold in_group. simpl. lia.
Qed.
End Group.

(** [f = \\x -> a, a = f 1]: the value [a] reads itself through [f]. *)
Example rejected_group :
  let sp := Span_default in
  let var x := mkVar sp x in
  validate_let_rec_bindings
    [(var "f", [], None, XLam sp [] (var "x") None [] (XVar (var "a"))); (var "a", [], None, XApp sp (XVar (var "f")) (XUint sp 1))]
  = Some (Err (Spanned sp (InvalidLetRecValueDependency "a" "a"))).
Proof. vm_compute. reflexivity. Qed.
