(* ===== verification/Infer.v ===== *)
(** The helpers of type inference, [rex-typesystem/src/inference.rs]: literal
    constraints and their defaults, implicit widening of integers, overloads,
    constructors, record fields, patterns and exhaustiveness. [infer_expr] itself is
    in [InferExpr], the variant without typed expressions in [InferType].

    Inference threads a unifier and a supply of type variables; the computations
    are [stateful Infer]. One fuel bounds every recursion. *)

From S2P Require Import Prelude Span Types BTree Unify UnifyComplete.
From S2P Require Import Unifier Syntax Ast Adts TypedExprs TypeEnv TypeClasses LetRec.

Record Infer : Type := mkInfer { i_unifier : Unifier; i_supply : TypeVarSupply }.

(** A computation on the unifier, one on the supply, and one on neither. *)
Definition on_unifier {A} (m : stateful Unifier A) : stateful Infer A :=
  fun s => match m (i_unifier s) with
           | None => None
           | Some (r, u) => Some (r, mkInfer u (i_supply s))
           end.
Definition on_supply {A} (f : TypeVarSupply -> A * TypeVarSupply) : stateful Infer A :=
  fun s => let '(a, supply) := f (i_supply s) in Some (Ok a, mkInfer (i_unifier s) supply).
Definition pure_fueled {S A} (m : fueled TypeError A) : stateful S A :=
  fun s => match m with None => None | Some r => Some (r, s) end.
Definition pure_result {S A} (r : result TypeError A) : stateful S A := fun s => Some (r, s).

Definition ok_or {S A} (o : option A) (e : TypeError) : stateful S A :=
  match o with Some a => rret a | None => rthrow e end.

(** [map_err(|err| err.with_span(span))] on a computation. *)
Definition spanning {S A} (span : Span) (m : stateful S A) : stateful S A :=
  fun s => match m s with
           | None => None
           | Some (r, s) => Some (spanned span r, s)
           end.

Definition fresh_var (name : option Symbol) : stateful Infer ty :=
  on_supply (fun supply => let '(tv, supply) := fresh name supply in (TVar tv, supply)).
Definition prune_type (fuel : nat) (t : ty) : stateful Infer ty := on_unifier (apply_type fuel t).
Definition unify_in (fuel : nat) (t1 t2 : ty) : stateful Infer unit := on_unifier (unifier_unify fuel t1 t2).

Definition instantiate_in (scheme : Scheme) : stateful Infer (list Predicate * ty) :=
  on_supply (instantiate scheme).

Definition extend_params (params : list Symbol) (vars : gmap Symbol TypeVar) : stateful Infer (gmap Symbol TypeVar) :=
  fun s => let '(r, vars, supply) := extend_type_params params vars (i_supply s) in
           Some ((let? _ := r in Ok vars), mkInfer (i_unifier s) supply).

(** * Predicates *)

Definition dedup_preds (preds : list Predicate) : list Predicate :=
  foldl (fun out pred => if decide (pred ∈ out) then out else out ++ [pred]) [] preds.

Definition prune_pred (fuel : nat) (pred : Predicate) : stateful Infer Predicate :=
  let~ t := prune_type fuel (pred_typ pred) in rret (mkPredicate (pred_class pred) t).

Definition ty_builtin_id (t : ty) : option BuiltinTypeId :=
  match t with TCon tc => builtin_id tc | _ => None end.

Definition is_integral_primitive (t : ty) : bool :=
  match ty_builtin_id t with
  | Some (U8 | U16 | U32 | U64 | I8 | I16 | I32 | I64) => true
  | _ => false
  end.

Definition is_float_primitive (t : ty) : bool :=
  match ty_builtin_id t with Some (F32 | F64) => true | _ => false end.

Definition is_additive_group_primitive (t : ty) : bool :=
  match ty_builtin_id t with
  | Some (I8 | I16 | I32 | I64 | F32 | F64) => true
  | _ => false
  end.

Definition is_var (t : ty) : bool := match t with TVar _ => true | _ => false end.

(** * Implicit widening *)

Definition IMPLICIT_INT_WIDEN_PRIM : Symbol := "prim_widen_int".

Definition lossless_integer_widening (src dst : BuiltinTypeId) : bool :=
  match src, dst with
  | I8, (I16 | I32 | I64) | I16, (I32 | I64) | I32, I64
  | U8, (U16 | U32 | U64 | I16 | I32 | I64) | U16, (U32 | U64 | I32 | I64) | U32, (U64 | I64) => true
  | _, _ => false
  end.

Definition implicit_integer_widening (src dst : ty) : bool :=
  match ty_builtin_id src, ty_builtin_id dst with
  | Some src, Some dst => lossless_integer_widening src dst
  | _, _ => false
  end.

Section Fuel.
Variable fuel : nat.

Definition unify_or_implicit_widen (actual expected : ty) : stateful Infer ty :=
  let~ actual := prune_type fuel actual in
  let~ expected := prune_type fuel expected in
  if implicit_integer_widening actual expected then rret expected
  else
    let~ _ := unify_in fuel actual expected in
    prune_type fuel expected.

Definition implicit_widen_expr (src dst : ty) (expr : TypedExpr) : TypedExpr :=
  let widen := mkTypedExpr (TFun src dst) (EVar IMPLICIT_INT_WIDEN_PRIM []) in
  mkTypedExpr dst (EApp widen expr).

Definition coerce_typed_to_expected (actual expected : ty) (typed : TypedExpr) : stateful Infer (ty * TypedExpr) :=
  let~ actual := prune_type fuel actual in
  let~ expected := prune_type fuel expected in
  if implicit_integer_widening actual expected
  then rret (expected, implicit_widen_expr actual expected typed)
  else
    let~ _ := unify_in fuel actual expected in
    let~ t := prune_type fuel expected in
    rret (t, typed).

Definition app_arg_hint (func_ty : ty) : stateful Infer (option ty) :=
  let~ t := prune_type fuel func_ty in
  rret (match t with TFun arg _ => Some arg | _ => None end).

Definition coerce_app_arg_from_func_type (func_ty arg_ty : ty) (typed_arg : TypedExpr) : stateful Infer (ty * TypedExpr) :=
  let~ arg_ty := prune_type fuel arg_ty in
  let~ hint := app_arg_hint func_ty in
  match hint with
  | None => rret (arg_ty, typed_arg)
  | Some expected_arg =>
      let~ expected_arg := prune_type fuel expected_arg in
      if implicit_integer_widening arg_ty expected_arg
      then rret (expected_arg, implicit_widen_expr arg_ty expected_arg typed_arg)
      else rret (arg_ty, typed_arg)
  end.

Definition coerce_app_arg_type_from_func_type (func_ty arg_ty : ty) : stateful Infer ty :=
  let~ arg_ty := prune_type fuel arg_ty in
  let~ hint := app_arg_hint func_ty in
  match hint with
  | None => rret arg_ty
  | Some expected_arg =>
      let~ expected_arg := prune_type fuel expected_arg in
      rret (if implicit_integer_widening arg_ty expected_arg then expected_arg else arg_ty)
  end.

(** * Literal constraints *)

Definition insert_default_type (subst : Subst) (tv : TypeVarId) (typ : ty) : result TypeError Subst :=
  match subst !! tv with
  | Some existing =>
      if decide (existing = typ) then Ok (<[tv := typ]> subst)
      else Err (Unification (show_ty existing) (show_ty typ))
  | None => Ok (<[tv := typ]> subst)
  end.

(** The primitive type of an unconstrained literal of the class. *)
Definition literal_default (class : Symbol) : option ty :=
  if decide (class = "Field") then Some (ty_builtin F32)
  else if decide (class = "Integral") then Some (ty_builtin I32) else None.

Fixpoint validate_literal_predicates (preds : list Predicate) : result TypeError unit :=
  match preds with
  | [] => Ok tt
  | pred :: preds =>
      if decide (pred_class pred = "Field") then
        if is_var (pred_typ pred) || is_float_primitive (pred_typ pred) then validate_literal_predicates preds
        else Err (Unification "f32" (show_ty (pred_typ pred)))
      else validate_literal_predicates preds
  end.

Fixpoint validate_integral_predicates (preds : list Predicate) : result TypeError unit :=
  match preds with
  | [] => Ok tt
  | pred :: preds =>
      if decide (pred_class pred = "Integral") then
        if is_var (pred_typ pred) || is_integral_primitive (pred_typ pred) then validate_integral_predicates preds
        else Err (Unification "i32" (show_ty (pred_typ pred)))
      else validate_integral_predicates preds
  end.

Fixpoint literal_defaults (preds : list Predicate) (subst : Subst) : result TypeError Subst :=
  match preds with
  | [] => Ok subst
  | pred :: preds =>
      let? subst :=
        match pred_typ pred, literal_default (pred_class pred) with
        | TVar tv, Some t => insert_default_type subst (tv_id tv) t
        | _, _ => Ok subst
        end in
      literal_defaults preds subst
  end.

Definition finalize_infer_for_public_api (preds : list Predicate) (typ : ty) : result TypeError (list Predicate * ty) :=
  let? subst := literal_defaults preds ∅ in
  let '(preds, typ) :=
    if subst_is_empty subst then (preds, typ)
    else (dedup_preds (map (Predicate_apply subst) preds), apply subst typ) in
  let? _ := validate_literal_predicates preds in
  let? _ := validate_integral_predicates preds in
  Ok (preds, typ).

(** The loop of [default_literal_constraints_outside_type] that collects the
    defaults. *)
Fixpoint outside_defaults (typ_ftv : gset TypeVarId) (preds : list Predicate) (defaults : Subst) : result TypeError Subst :=
  match preds with
  | [] => Ok defaults
  | pred :: preds =>
      let? defaults :=
        match pred_typ pred, literal_default (pred_class pred) with
        | TVar tv, Some t =>
            if decide (tv_id tv ∈ typ_ftv) then Ok defaults else insert_default_type defaults (tv_id tv) t
        | _, _ => Ok defaults
        end in
      outside_defaults typ_ftv preds defaults
  end.

Definition default_literal_constraints_outside_type (preds : list Predicate) (typ : ty)
    : stateful Infer (list Predicate * ty) :=
  let~ typ := prune_type fuel typ in
  let~ preds := run_map (prune_pred fuel) preds in
  let preds := dedup_preds preds in
  let~ defaults := pure_result (outside_defaults (ftv typ) preds ∅) in
  let~ _ := run_iter (fun id => match defaults !! id with
                                | Some t => unify_in fuel (TVar (TypeVar_new id None)) t
                                | None => rret tt
                                end) (sorted_ids (dom defaults)) in
  let~ typ := prune_type fuel typ in
  let~ preds := run_map (prune_pred fuel) preds in
  rret (dedup_preds preds, typ).

(** * Schemes *)

Definition apply_scheme_with_unifier (scheme : Scheme) : stateful Infer Scheme :=
  let~ preds := run_map (prune_pred fuel) (scheme_preds scheme) in
  let~ typ := prune_type fuel (scheme_typ scheme) in
  rret (mkScheme (scheme_vars scheme) preds typ).

Definition scheme_ftv_with_unifier (scheme : Scheme) : stateful Infer (gset TypeVarId) :=
  let~ typ := prune_type fuel (scheme_typ scheme) in
  let~ preds := run_map (prune_pred fuel) (scheme_preds scheme) in
  rret ((ftv typ ∪ preds_ftv preds) ∖ list_to_set (map tv_id (scheme_vars scheme))).

Definition env_ftv_with_unifier (env : TypeEnv) : stateful Infer (gset TypeVarId) :=
  let~ sets := run_map (fun value => scheme_ftv_with_unifier (value_scheme value))
                 (concat (map snd (map_to_list (env_values env)))) in
  rret (⋃ sets).

Definition generalize_with_unifier (env : TypeEnv) (preds : list Predicate) (typ : ty) : stateful Infer Scheme :=
  let~ preds := run_map (prune_pred fuel) preds in
  let~ typ := prune_type fuel typ in
  let~ env_ftv := env_ftv_with_unifier env in
  rret (mkScheme (map (fun id => TypeVar_new id None) (sorted_ids ((ftv typ ∪ preds_ftv preds) ∖ env_ftv))) preds typ).

Definition monomorphic_scheme_with_unifier (preds : list Predicate) (typ : ty) : stateful Infer Scheme :=
  let~ preds := run_map (prune_pred fuel) preds in
  let~ typ := prune_type fuel typ in
  rret (mkScheme [] (dedup_preds preds) typ).
End Fuel.

(** * Overloads *)

(** [decompose_fun]: the first [arity] arguments of a type of functions. *)
Fixpoint decompose_fun (typ : ty) (arity : nat) : option (list ty * ty) :=
  match arity with
  | O => Some ([], typ)
  | S arity =>
      match typ with
      | TFun a b => '(args, ret) ← decompose_fun b arity; Some (a :: args, ret)
      | _ => None
      end
  end.

Definition predicate_can_hold_for_overload_arg (pred : Predicate) : bool :=
  let t := pred_typ pred in
  if decide (pred_class pred = "Integral") then is_var t || is_integral_primitive t
  else if decide (pred_class pred = "Field") then is_var t || is_float_primitive t
  else if decide (pred_class pred = "AdditiveGroup") then is_var t || is_additive_group_primitive t
  else true.

Definition candidate_satisfies_arg_preds (preds : list Predicate) (subst : Subst) : bool :=
  forallb (fun pred => predicate_can_hold_for_overload_arg (Predicate_apply subst pred)) preds.

Fixpoint narrow_loop (candidates : list ty) (arg_ty : ty) (arg_preds : list Predicate) (out : list ty) : list ty :=
  match candidates with
  | [] => out
  | candidate :: candidates =>
      narrow_loop candidates arg_ty arg_preds
        match decompose_fun candidate 1 with
        | Some ([param], ret) =>
            match unify_types param arg_ty with
            | Ok s =>
                if candidate_satisfies_arg_preds arg_preds s then
                  let narrowed := apply s ret in
                  if decide (narrowed ∈ out) then out else out ++ [narrowed]
                else out
            | Err _ => out
            end
        | _ => out
        end
  end.

Definition narrow_overload_candidates (candidates : list ty) (arg_ty : ty) (arg_preds : list Predicate) : list ty :=
  narrow_loop candidates arg_ty arg_preds [].

(** * Constructors *)

(** The values of a [BTreeMap], in the order of its keys. *)
Definition map_values {V} (m : gmap Symbol V) : list V := map snd (sort_by_key fst (map_to_list m)).

Definition qualified_constructor_name (adt variant : Symbol) : Symbol :=
  adt +:+ "." +:+ local_name variant.

(** The loop of [ctor_lookup]: a qualified name is found at once; an unqualified
    one must be found exactly once. *)
Fixpoint ctor_lookup_loop (adts : list AdtDecl) (name : Symbol) (found : option (AdtDecl * AdtVariant))
    : option (AdtDecl * AdtVariant) :=
  match adts with
  | [] => found
  | adt :: adts =>
      match find (fun v => bool_decide (qualified_constructor_name (adt_name adt) (variant_name v) = name)
                           || bool_decide (compatibility_constructor_name (adt_name adt) (variant_name v) = name))
              (adt_variants adt) with
      | None => ctor_lookup_loop adts name found
      | Some variant =>
          if decide (qualified_constructor_name (adt_name adt) (variant_name variant) = name) then Some (adt, variant)
          else match found with
               | Some _ => None
               | None => ctor_lookup_loop adts name (Some (adt, variant))
               end
      end
  end.

Definition ctor_lookup (adts : gmap Symbol AdtDecl) (name : Symbol) : option (AdtDecl * AdtVariant) :=
  ctor_lookup_loop (map_values adts) name None.

Definition constructor_project_symbol (env : TypeEnv) (adts : gmap Symbol AdtDecl) (base : Expr) (variant : Symbol)
    : option Symbol :=
  match base with
  | XVar typ =>
      match TypeEnv_lookup env (var_name typ) with
      | Some _ => None
      | None =>
          adt ← adts !! var_name typ;
          let constructor := qualified_constructor_name (adt_name adt) variant in
          _ ← ctor_lookup adts constructor;
          Some constructor
      end
  | _ => None
  end.

Definition record_fields (variant : AdtVariant) : option (list (Symbol * ty)) :=
  match variant_args variant with
  | [RecordArgument fields _] => Some (map (fun f => (field_name f, field_typ f)) fields)
  | [Positional (TRecord fields) _] => Some fields
  | _ => None
  end.

Definition partial_record_constructor (expr : Expr) (adts : gmap Symbol AdtDecl)
    : option (AdtDecl * AdtVariant * list (Symbol * Expr)) :=
  match expr with
  | XApp _ (XVar constructor) (XDict _ supplied) =>
      '(adt, variant) ← ctor_lookup adts (var_name constructor);
      fields ← record_fields variant;
      if existsb (fun f => bool_decide (btree_get supplied f.1 = None)) fields
      then Some (adt, variant, supplied) else None
  | _ => None
  end.

(** Each parameter of the type gets a fresh variable. *)
Fixpoint fresh_adt_params (params : list AdtParam) (subst : Subst) : stateful Infer Subst :=
  match params with
  | [] => rret subst
  | param :: params =>
      let~ t := fresh_var (tv_name (param_var param)) in
      fresh_adt_params params (<[tv_id (param_var param) := t]> subst)
  end.

Definition instantiate_variant_fields (adt : AdtDecl) (variant : AdtVariant)
    : stateful Infer (option (ty * list (Symbol * ty))) :=
  match record_fields variant with
  | None => rret None
  | Some fields =>
      let~ subst := fresh_adt_params (adt_params adt) ∅ in
      rret (Some (apply subst (result_type adt), map (fun f => (f.1, apply subst f.2)) fields))
  end.

(** * Known variants *)

Record KnownVariant : Type := mkKnown { known_adt : Symbol; known_name : Symbol }.
Abbreviation KnownVariants := (gmap Symbol KnownVariant).

Definition known_variant_from_expr (expr : Expr) (expr_ty : ty) (adts : gmap Symbol AdtDecl) : option KnownVariant :=
  match expr_ty with
  | TFun _ _ => None
  | _ =>
      match strip_ann expr with
      | XApp _ (XVar ctor) _ =>
          '(adt, variant) ← ctor_lookup adts (var_name ctor);
          _ ← record_fields variant;
          Some (mkKnown (adt_name adt) (variant_name variant))
      | _ => None
      end
  end.

(** [known_variant_from_expr_with_known]; annotations are gone through in the
    recursion. *)
Fixpoint known_variant_from_expr_with_known (expr : Expr) (expr_ty : ty) (adts : gmap Symbol AdtDecl)
    (known : KnownVariants) : option KnownVariant :=
  match expr with
  | XAnn _ inner _ => known_variant_from_expr_with_known inner expr_ty adts known
  | XVar v => known !! var_name v
  | XRecordUpdate _ base _ => known_variant_from_expr_with_known base expr_ty adts known
  | _ => known_variant_from_expr expr expr_ty adts
  end.

(** [known.insert] of a variant that is known, [known.remove] otherwise. *)
Definition set_known (name : Symbol) (v : option KnownVariant) (known : KnownVariants) : KnownVariants :=
  match v with Some v => <[name := v]> known | None => delete name known end.

(** * Fields *)

Fixpoint type_head_name (t : ty) : option Symbol :=
  match t with
  | TApp head _ => type_head_name head
  | TCon c => user_name c
  | _ => None
  end.

Definition select_record_variant (adts : gmap Symbol AdtDecl) (base_ty : ty) (known_variant : option KnownVariant)
    (field_for_errors : Symbol) (matches_fields : list (Symbol * ty) -> bool)
    : result TypeError (AdtDecl * AdtVariant) :=
  let unknown := Err (UnknownField field_for_errors (show_ty base_ty)) in
  match known_variant with
  | Some info =>
      match adts !! known_adt info with
      | None => Err (UnknownTypeName (known_adt info))
      | Some adt =>
          match find (fun v => bool_decide (variant_name v = known_name info)) (adt_variants adt) with
          | None => unknown
          | Some variant => Ok (adt, variant)
          end
      end
  | None =>
      match type_head_name base_ty with
      | Some name =>
          match adts !! name with
          | None => unknown
          | Some adt =>
              match adt_variants adt with
              | [variant] => Ok (adt, variant)
              | _ => Err (FieldNotKnown field_for_errors (show_ty base_ty))
              end
          end
      | None =>
          if is_var base_ty then
            let candidates := omap (fun adt =>
              match adt_variants adt with
              | [variant] =>
                  match record_fields variant with
                  | Some fields => if matches_fields fields then Some (adt, variant) else None
                  | None => None
                  end
              | _ => None
              end) (map_values adts) in
            match candidates with
            | [] => unknown
            | [c] => Ok c
            | _ => Err (FieldNotKnown field_for_errors (show_ty base_ty))
            end
          else unknown
      end
  end.

Definition has_field (fields : list (Symbol * ty)) (field : Symbol) : bool :=
  existsb (fun f => bool_decide (f.1 = field)) fields.

(** [fields.iter().find(|(name, _)| name == field)]. *)
Definition find_field (fields : list (Symbol * ty)) (field : Symbol) : option ty :=
  snd <$> find (fun f => bool_decide (f.1 = field)) fields.

Definition resolve_record_update (fuel : nat) (adts : gmap Symbol AdtDecl) (base_ty : ty)
    (known_variant : option KnownVariant) (update_fields : list Symbol)
    : stateful Infer (ty * list (Symbol * ty)) :=
  match base_ty with
  | TRecord fields => rret (base_ty, fields)
  | _ =>
      let field_for_errors := default "_" (head update_fields) in
      let~ (adt, variant) := pure_result (select_record_variant adts base_ty known_variant field_for_errors
        (fun fields => forallb (has_field fields) update_fields)) in
      let~ inst := instantiate_variant_fields adt variant in
      let~ (result_ty, fields) := ok_or inst (UnknownField field_for_errors (show_ty base_ty)) in
      match find (fun field => negb (has_field fields field)) update_fields with
      | Some field => rthrow (UnknownField field (show_ty base_ty))
      | None =>
          let~ _ := unify_in fuel base_ty result_ty in
          let~ result_ty := prune_type fuel result_ty in
          let~ fields := run_map (fun f => let~ t := prune_type fuel f.2 in rret (f.1, t)) fields in
          rret (result_ty, fields)
      end
  end.

(** [typ.parse::<usize>()] of a field is its position in a tuple. A position that
    a program can write is far below the length a vector may have. *)
Definition resolve_projection (fuel : nat) (adts : gmap Symbol AdtDecl) (base_ty : ty)
    (known_variant : option KnownVariant) (field : Symbol) : stateful Infer ty :=
  let unknown {A} := rthrow (A := A) (UnknownField field (show_ty base_ty)) in
  match base_ty with
  | TRecord fields =>
      match find_field fields field with
      | Some typ => prune_type fuel typ
      | None => unknown
      end
  | _ =>
      match parse_usize field with
      | Some index =>
          let index := N.to_nat index in
          let~ elem_ty :=
            match base_ty with
            | TTuple elems => match elems !! index with Some t => rret t | None => unknown end
            | TVar _ =>
                let~ elems := run_map (fun _ => fresh_var (Some "t")) (seq 0 (S index)) in
                let~ _ := unify_in fuel base_ty (TTuple elems) in
                match elems !! index with Some t => rret t | None => unknown end
            | _ => unknown
            end in
          prune_type fuel elem_ty
      | None =>
          let~ (adt, variant) := pure_result (select_record_variant adts base_ty known_variant field
            (fun fields => has_field fields field)) in
          let~ inst := instantiate_variant_fields adt variant in
          let~ (result_ty, fields) := ok_or inst (UnknownField field (show_ty base_ty)) in
          let~ field_ty := ok_or (find_field fields field) (UnknownField field (show_ty base_ty)) in
          let~ _ := unify_in fuel base_ty result_ty in
          prune_type fuel field_ty
      end
  end.

(** * Patterns *)

(** The bindings of a pattern, with their types as far as they are known at its
    end. *)
Definition prune_binds (fuel : nat) (binds : list (Symbol * ty)) : stateful Infer (list (Symbol * ty)) :=
  run_map (fun b => let~ t := prune_type fuel b.2 in rret (b.1, t)) binds.

Abbreviation PatternTypes := (list Predicate * list (Symbol * ty))%type.

(** The loop over the parts of a pattern, each with the computation of its type;
    [rec] is [infer_pattern]. *)
Fixpoint infer_parts (rec : Pattern -> ty -> stateful Infer PatternTypes)
    (parts : list (Pattern * stateful Infer ty)) (acc : PatternTypes) : stateful Infer PatternTypes :=
  match parts with
  | [] => rret acc
  | (p, typ) :: parts =>
      let~ t := typ in
      let~ (preds, binds) := rec p t in
      infer_parts rec parts (acc.1 ++ preds, acc.2 ++ binds)
  end.

Fixpoint infer_pattern (fuel : nat) (env : TypeEnv) (pat : Pattern) (scrutinee_ty : ty)
    : stateful Infer PatternTypes :=
  match fuel with
  | O => no_fuel
  | S fuel =>
      let rec := infer_pattern fuel env in
      let parts parts preds :=
        let~ (preds, binds) := infer_parts rec parts (preds, []) in
        let~ binds := prune_binds fuel binds in
        rret (preds, binds) in
      spanning (Pattern_span pat)
        match pat with
        | PWildcard _ => rret ([], [])
        | PVar v =>
            let~ t := prune_type fuel scrutinee_ty in
            rret ([], [(var_name v, t)])
        | PNamed _ name ps =>
            let ctor_name := to_dotted_symbol name in
            let~ schemes := ok_or (TypeEnv_lookup env ctor_name) (UnknownVar ctor_name) in
            match schemes with
            | [value] =>
                let~ scheme := apply_scheme_with_unifier fuel (value_scheme value) in
                let~ (preds, ctor_ty) := instantiate_in scheme in
                let~ (arg_tys, res_ty) := ok_or (decompose_fun ctor_ty (length ps)) (UnsupportedExpr "pattern constructor") in
                let~ _ := unify_in fuel res_ty scrutinee_ty in
                parts (zip_with (fun p arg_ty => (p, prune_type fuel arg_ty)) ps arg_tys) preds
            | _ => rthrow (AmbiguousOverload ctor_name)
            end
        | PList _ ps =>
            let~ elem_tv := fresh_var (Some "a") in
            let~ _ := unify_in fuel scrutinee_ty (Type_list elem_tv) in
            parts (map (fun p => (p, prune_type fuel elem_tv)) ps) []
        | PCons _ head tail =>
            let~ elem_tv := fresh_var (Some "a") in
            let~ _ := unify_in fuel scrutinee_ty (Type_list elem_tv) in
            parts [(head, prune_type fuel elem_tv);
                   (tail, let~ t := prune_type fuel elem_tv in rret (Type_list t))] []
        | PTuple _ elems =>
            let~ elem_tys := run_map (fun i => fresh_var (Some ("t" +:+ pretty i))) (seq 0 (length elems)) in
            let~ _ := unify_in fuel scrutinee_ty (TTuple elem_tys) in
            let~ elem_tys := run_map (prune_type fuel) elem_tys in
            parts (zip_with (fun p t => (p, rret t)) elems elem_tys) []
        | PDict _ fields =>
            match scrutinee_ty with
            | TRecord ty_fields =>
                parts (map (fun f =>
                  (f.2, match find_field ty_fields f.1 with
                        | Some t => prune_type fuel t
                        | None => rthrow (UnknownField f.1 (show_ty scrutinee_ty))
                        end)) fields) []
            | _ =>
                let~ elem_tv := fresh_var (Some "v") in
                let~ _ := unify_in fuel scrutinee_ty (Type_dict elem_tv) in
                let~ elem_ty := prune_type fuel elem_tv in
                parts (map (fun f => (f.2, rret elem_ty)) fields) []
            end
        end
  end.

(** * Exhaustiveness *)

Definition pattern_adt_name (adts : gmap Symbol AdtDecl) (pat : Pattern) : option Symbol :=
  match pat with
  | PNamed _ name _ => (fun av => adt_name av.1) <$> ctor_lookup adts (to_dotted_symbol name)
  | PList _ _ | PCons _ _ _ => Some "List"
  | _ => None
  end.

Fixpoint adt_name_from_patterns_loop (adts : gmap Symbol AdtDecl) (patterns : list Pattern) (candidate : option Symbol)
    : option Symbol :=
  match patterns with
  | [] => candidate
  | pat :: patterns =>
      match pattern_adt_name adts pat with
      | None => adt_name_from_patterns_loop adts patterns candidate
      | Some next =>
          match candidate with
          | None => adt_name_from_patterns_loop adts patterns (Some next)
          | Some prev => if decide (prev = next) then adt_name_from_patterns_loop adts patterns candidate else None
          end
      end
  end.

Definition adt_name_from_patterns (adts : gmap Symbol AdtDecl) (patterns : list Pattern) : option Symbol :=
  adt_name_from_patterns_loop adts patterns None.

Definition is_irrefutable (pat : Pattern) : bool :=
  match pat with PWildcard _ | PVar _ => true | _ => false end.

(** The constructor a pattern covers. *)
Definition covered_constructor (adts : gmap Symbol AdtDecl) (adt : AdtDecl) (adt_name_ : Symbol) (pat : Pattern)
    : option Symbol :=
  match pat with
  | PNamed _ name _ =>
      match ctor_lookup adts (to_dotted_symbol name) with
      | Some (matched_adt, variant) =>
          if decide (adt_name matched_adt = adt_name adt)
          then Some (qualified_constructor_name (adt_name adt) (variant_name variant)) else None
      | None => None
      end
  | PList _ [] => if decide (adt_name_ = "List") then Some "List.Empty" else None
  | PCons _ _ _ => if decide (adt_name_ = "List") then Some "List.Cons" else None
  | _ => None
  end.

Definition check_match_exhaustive (adts : gmap Symbol AdtDecl) (scrutinee_ty : ty) (patterns : list Pattern)
    : result TypeError unit :=
  if existsb is_irrefutable patterns then Ok tt
  else
    match (match type_head_name scrutinee_ty with
           | Some name => Some name
           | None => adt_name_from_patterns adts patterns
           end) with
    | None => Ok tt
    | Some name =>
        match adts !! name with
        | None => Ok tt
        | Some adt =>
            let ctor_names : gset Symbol :=
              list_to_set (map (fun v => qualified_constructor_name (adt_name adt) (variant_name v)) (adt_variants adt)) in
            if bool_decide (ctor_names = ∅) then Ok tt
            else
              let covered : gset Symbol := list_to_set (omap (covered_constructor adts adt name) patterns) in
              let missing := sort_by_key (fun n => n) (map local_name (sorted_names (ctor_names ∖ covered))) in
              if decide (missing = []) then Ok tt
              else Err (NonExhaustiveMatch (show_ty scrutinee_ty) missing)
        end
    end.
