(* ===== verification/InferExpr.v ===== *)
(** Type inference with elaboration: [infer_expr] of
    [rex-typesystem/src/inference.rs], which returns the predicates, the type and
    the typed expression of an expression. Its entry [infer_typed] is in [FnDecls].

    [rec] stands for [infer_expr] with less fuel; the branches of the code that
    are shared by several cases are definitions of their own, as in the source. *)

From S2P Require Import Prelude Span Types BTree Unify UnifyComplete Unifier.
From S2P Require Import Syntax Ast Adts TypedExprs TypeEnv TypeClasses LetRec Infer.

(** * Chains *)

(** [collect_lambda_chain]: the parameters of nested lambdas, up to a second
    list of constraints. *)
Fixpoint lambda_chain (cur : Expr) (params : list (Symbol * option TypeExpr)) (constraints : list TypeConstraint)
    (seen : bool) : list (Symbol * option TypeExpr) * list TypeConstraint * Expr :=
  match cur with
  | XLam _ _ param ann lam_constraints body =>
      if decide (lam_constraints = [])
      then lambda_chain body (params ++ [(var_name param, ann)]) constraints seen
      else if seen then (params, constraints, cur)
      else lambda_chain body (params ++ [(var_name param, ann)]) lam_constraints true
  | _ => (params, constraints, cur)
  end.
Definition collect_lambda_chain (expr : Expr) := lambda_chain expr [] [] false.

Fixpoint expr_app_chain (cur : Expr) (args : list Expr) : Expr * list Expr :=
  match cur with
  | XApp _ f x => expr_app_chain f (x :: args)
  | _ => (cur, args)
  end.
Definition collect_app_chain (expr : Expr) : Expr * list Expr := expr_app_chain expr [].

Definition is_app_expr (e : Expr) : bool := match e with XApp _ _ _ => true | _ => false end.

Record TailAppFrame : Type := mkTailAppFrame { tail_head : Expr; tail_prefix_args : list Expr }.

(** The loop of [collect_tail_app_chain]. The last argument of the chain of
    [XApp f x] is [x], the ones before it are those of the chain of [f]. *)
Fixpoint tail_app_chain (cur : Expr) : Expr * list TailAppFrame :=
  match cur with
  | XApp _ f x =>
      if is_app_expr x then
        let '(head, prefix_args) := collect_app_chain f in
        let '(leaf, frames) := tail_app_chain x in
        (leaf, mkTailAppFrame head prefix_args :: frames)
      else (cur, [])
  | _ => (cur, [])
  end.
Definition collect_tail_app_chain (expr : Expr) : option (Expr * list TailAppFrame) :=
  let '(leaf, frames) := tail_app_chain expr in
  match frames with [] => None | _ => Some (leaf, frames) end.

Record LetBinding : Type := mkLetBinding {
  let_var : Var; let_type_params : list Symbol; let_ann : option TypeExpr; let_def : Expr }.

Fixpoint let_chain (cur : Expr) : list LetBinding * Expr :=
  match cur with
  | XLet _ v type_params ann d b =>
      let '(bindings, body) := let_chain b in (mkLetBinding v type_params ann d :: bindings, body)
  | _ => ([], cur)
  end.

Definition is_overloaded_numeric_literal_expr (e : Expr) : bool :=
  match e with XInt _ _ | XUint _ _ | XFloat _ _ => true | _ => false end.

(** [with_infer_depth] around a computation that also uses the supply. *)
Definition infer_depth_in {A} (span : Span) (m : stateful Infer A) : stateful Infer A :=
  fun s =>
    match with_infer_depth span (fun u =>
            match m (mkInfer u (i_supply s)) with
            | None => None
            | Some (r, s') => Some (Ok (r, i_supply s'), i_unifier s')
            end) (i_unifier s) with
    | None => None
    | Some (Ok (r, supply), u) => Some (r, mkInfer u supply)
    | Some (Err e, u) => Some (Err e, mkInfer u (i_supply s))
    end.

Definition mono (t : ty) : Scheme := mkScheme [] [] t.

Definition extend_all (binds : list (Symbol * ty)) (env : TypeEnv) : TypeEnv :=
  foldl (fun env b => extend b.1 (mono b.2) env) env binds.

Definition remove_all {V} (names : list Symbol) (m : gmap Symbol V) : gmap Symbol V :=
  foldl (fun m name => delete name m) m names.

Definition set_type_vars (vars : gmap Symbol TypeVar) (env : TypeEnv) : TypeEnv := mkTypeEnv (env_values env) vars.

Section Shared.
Context (adts : gmap Symbol AdtDecl) (aliases : gmap Symbol TypeAlias) (fuel : nat).

Definition annotation_type (ann : TypeExpr) (vars : gmap Symbol TypeVar) : stateful Infer ty :=
  pure_fueled (type_from_annotation fuel adts aliases ann vars).

(** The types of the parameters of a lambda. *)
Definition lambda_param_types (params : list (Symbol * option TypeExpr)) (vars : gmap Symbol TypeVar)
    : stateful Infer (list (Symbol * ty)) :=
  run_map (fun p =>
    let~ t := match p.2 with
              | Some ann => annotation_type ann vars
              | None => fresh_var (Some p.1)
              end in
    rret (p.1, t)) params.

(** The environment and the known variants of an arm of a match. *)
Definition arm_env (env : TypeEnv) (binds : list (Symbol * ty)) : stateful Infer TypeEnv :=
  let~ binds := prune_binds fuel binds in
  rret (extend_all binds env).

Definition arm_known (known : KnownVariants) (scrutinee : Expr) (pat : Pattern) : KnownVariants :=
  match scrutinee with
  | XVar v =>
      set_known (var_name v)
        match pat with
        | PNamed _ name _ =>
            (fun av => mkKnown (adt_name av.1) (variant_name av.2)) <$> ctor_lookup adts (to_dotted_symbol name)
        | _ => None
        end known
  | _ => known
  end.

(** The scheme of a [let]: unannotated number literals stay monomorphic. *)
Definition let_scheme (env : TypeEnv) (annotated : bool) (d : Expr) (preds : list Predicate) (typ : ty)
    : stateful Infer Scheme :=
  if negb annotated && is_overloaded_numeric_literal_expr d
  then monomorphic_scheme_with_unifier fuel preds typ
  else
    let~ scheme := generalize_with_unifier fuel env preds typ in
    let~ _ := pure_result (reject_ambiguous_scheme scheme) in
    rret scheme.

(** The seed of a recursive group: a variable for each binding. *)
Fixpoint letrec_seed (bindings : list LetRecBinding) (env : TypeEnv) (known : KnownVariants) (tys : gmap Symbol ty)
    : stateful Infer (TypeEnv * KnownVariants * gmap Symbol ty) :=
  match bindings with
  | [] => rret (env, known, tys)
  | b :: bindings =>
      let name := binding_name b in
      let~ tv := fresh_var (Some name) in
      letrec_seed bindings (extend name (mono tv) env) (delete name known) (<[name := tv]> tys)
  end.
End Shared.

Abbreviation Typed := (list Predicate * ty * TypedExpr)%type.

Record TypedAppState : Type := mkAppState {
  app_preds : list Predicate;
  app_func_ty : ty;
  app_typed : TypedExpr;
  overload_name : option Symbol;
  overload_candidates : option (list ty)
}.

Section Body.
Context (adts : gmap Symbol AdtDecl) (aliases : gmap Symbol TypeAlias) (fuel : nat).
Variable rec : TypeEnv -> KnownVariants -> Expr -> stateful Infer Typed.

(** * Hints *)

(** The loop over the updates of a record, in the order of their keys. *)
Fixpoint typed_updates (env : TypeEnv) (known : KnownVariants) (expected : list (Symbol * ty)) (result_ty : ty)
    (updates : list (Symbol * Expr)) (acc : list Predicate * list (Symbol * TypedExpr))
    : stateful Infer (list Predicate * list (Symbol * TypedExpr)) :=
  match updates with
  | [] => rret acc
  | (k, v) :: updates =>
      let~ expected_ty := ok_or (btree_get expected k) (UnknownField k (show_ty result_ty)) in
      let~ (p1, t1, typed_v) := rec env known v in
      let~ (_, typed_v) := coerce_typed_to_expected fuel t1 expected_ty typed_v in
      typed_updates env known expected result_ty updates (acc.1 ++ p1, acc.2 ++ [(k, typed_v)])
  end.

(** What follows the inference of the base of a record update, with and without a
    hint. *)
Definition typed_update_of_base (env : TypeEnv) (known : KnownVariants) (base : Expr) (updates : list (Symbol * Expr))
    (p_base : list Predicate) (t_base : ty) (typed_base : TypedExpr) : stateful Infer Typed :=
  let~ base_ty := prune_type fuel t_base in
  let known_variant := known_variant_from_expr_with_known base base_ty adts known in
  let~ (result_ty, fields) := resolve_record_update fuel adts base_ty known_variant (map fst updates) in
  let expected := btree_collect fields in
  let~ (preds, typed) := typed_updates env known expected result_ty updates (p_base, []) in
  rret (preds, result_ty, mkTypedExpr result_ty (ERecordUpdate typed_base typed)).

Definition infer_record_update_typed_with_hint (env : TypeEnv) (known : KnownVariants) (base : Expr)
    (updates : list (Symbol * Expr)) (hint_ty : ty) : stateful Infer Typed :=
  let~ (p_base, t_base, typed_base) := rec env known base in
  let~ _ := unify_in fuel t_base hint_ty in
  typed_update_of_base env known base updates p_base t_base typed_base.

(** The first expected field that is not among the given ones. *)
Definition missing_field (expected : list (Symbol * ty)) (given : list Symbol) : option Symbol :=
  find (fun key => negb (bool_decide (key ∈ given))) (map fst expected).

(** A dictionary against a record type. *)
Fixpoint typed_record_fields (hint : option ty -> Expr -> stateful Infer Typed) (fields expected : list (Symbol * ty))
    (kvs : list (Symbol * Expr)) (acc : list Predicate * list (Symbol * TypedExpr))
    : stateful Infer (list Predicate * list (Symbol * TypedExpr)) :=
  match kvs with
  | [] => rret acc
  | (k, v) :: kvs =>
      let~ expected_ty := ok_or (btree_get expected k) (UnknownField k (show_ty (Type_record fields))) in
      let~ (p1, t1, typed_v) := hint (Some expected_ty) v in
      let~ (_, typed_v) := coerce_typed_to_expected fuel t1 expected_ty typed_v in
      typed_record_fields hint fields expected kvs (acc.1 ++ p1, acc.2 ++ [(k, typed_v)])
  end.

Definition prune_fields (fields : list (Symbol * ty)) : stateful Infer (list (Symbol * ty)) :=
  run_map (fun f => let~ t := prune_type fuel f.2 in rret (f.1, t)) fields.

Definition typed_record (hint : option ty -> Expr -> stateful Infer Typed) (fields : list (Symbol * ty))
    (kvs : list (Symbol * Expr)) : stateful Infer Typed :=
  let expected := btree_collect fields in
  let~ (preds, typed_kvs) := typed_record_fields hint fields expected kvs ([], []) in
  match missing_field expected (map fst typed_kvs) with
  | Some key => rthrow (UnknownField key (show_ty (Type_record fields)))
  | None =>
      let~ fields := prune_fields fields in
      let record_ty := Type_record fields in
      rret (preds, record_ty, mkTypedExpr record_ty (EDict typed_kvs))
  end.

Fixpoint infer_expr_typed_with_hint (n : nat) (env : TypeEnv) (known : KnownVariants) (expected : option ty) (expr : Expr)
    : stateful Infer Typed :=
  match n with
  | O => no_fuel
  | S n =>
      match expected, expr with
      | Some arg_hint, XRecordUpdate _ base updates =>
          infer_record_update_typed_with_hint env known base updates arg_hint
      | Some (TRecord fields), XDict _ kvs =>
          typed_record (infer_expr_typed_with_hint n env known) fields kvs
      | _, arg => rec env known arg
      end
  end.

(** * Applications *)

Definition infer_typed_app_head (env : TypeEnv) (known : KnownVariants) (head : Expr) : stateful Infer TypedAppState :=
  let~ (preds, func_ty, typed) := rec env known head in
  rret match te_kind typed with
       | EVar name ((_ :: _) as overloads) => mkAppState preds func_ty typed (Some name) (Some overloads)
       | _ => mkAppState preds func_ty typed None None
       end.

(** The candidates of an overloaded function that accept an argument. *)
Definition narrow_candidates (name : option Symbol) (candidates : option (list ty)) (arg_ty : ty) (p_arg : list Predicate)
    : stateful Infer (option (list ty)) :=
  match candidates with
  | None => rret None
  | Some candidates =>
      let~ candidates := run_map (prune_type fuel) candidates in
      let narrowed := narrow_overload_candidates candidates arg_ty p_arg in
      match narrowed, name with
      | [], Some name => rthrow (AmbiguousOverload name)
      | _, _ => rret (Some narrowed)
      end
  end.

(** The type of the result: that of the only candidate, or a variable. *)
Definition app_result_type (candidates : option (list ty)) : stateful Infer ty :=
  match candidates with
  | Some [candidate] => rret candidate
  | _ => fresh_var (Some "r")
  end.

Definition apply_typed_app_arg (state : TypedAppState) (p_arg : list Predicate) (arg_ty : ty) (typed_arg : TypedExpr)
    : stateful Infer TypedAppState :=
  let~ arg_ty := prune_type fuel arg_ty in
  let~ candidates := narrow_candidates (overload_name state) (overload_candidates state) arg_ty p_arg in
  let~ res_ty := app_result_type candidates in
  let~ (arg_ty, typed_arg) := coerce_app_arg_from_func_type fuel (app_func_ty state) arg_ty typed_arg in
  let~ _ := unify_in fuel (app_func_ty state) (TFun arg_ty res_ty) in
  let~ result_ty := prune_type fuel res_ty in
  rret (mkAppState (app_preds state ++ p_arg) result_ty (mkTypedExpr result_ty (EApp (app_typed state) typed_arg))
          (overload_name state) candidates).

Definition infer_typed_app_expr_arg (env : TypeEnv) (known : KnownVariants) (state : TypedAppState) (arg : Expr)
    : stateful Infer TypedAppState :=
  let~ expected_arg := app_arg_hint fuel (app_func_ty state) in
  let~ (p_arg, arg_ty, typed_arg) := infer_expr_typed_with_hint fuel env known expected_arg arg in
  apply_typed_app_arg state p_arg arg_ty typed_arg.

Fixpoint infer_typed_app_args (env : TypeEnv) (known : KnownVariants) (state : TypedAppState) (args : list Expr)
    : stateful Infer TypedAppState :=
  match args with
  | [] => rret state
  | arg :: args =>
      let~ state := infer_typed_app_expr_arg env known state arg in
      infer_typed_app_args env known state args
  end.

(** The frames of a chain of last arguments, from the innermost. The argument is
    applied without its predicates. *)
Fixpoint infer_tail_frames (env : TypeEnv) (known : KnownVariants) (frames : list TailAppFrame) (acc : Typed)
    : stateful Infer Typed :=
  match frames with
  | [] => rret acc
  | frame :: frames =>
      let '(preds, tail_ty, typed_tail) := acc in
      let~ state := infer_typed_app_head env known (tail_head frame) in
      let~ state := infer_typed_app_args env known state (tail_prefix_args frame) in
      let~ state := apply_typed_app_arg state [] tail_ty typed_tail in
      infer_tail_frames env known frames (preds ++ app_preds state, app_func_ty state, app_typed state)
  end.

Definition infer_tail_app_chain_typed (env : TypeEnv) (known : KnownVariants) (leaf : Expr) (frames : list TailAppFrame)
    : stateful Infer Typed :=
  let~ inferred := rec env known leaf in
  infer_tail_frames env known (rev frames) inferred.

Fixpoint partial_record_updates (env : TypeEnv) (known : KnownVariants) (expected : list (Symbol * ty)) (result_ty : ty)
    (supplied : list (Symbol * Expr)) (acc : list Predicate * list (Symbol * TypedExpr))
    : stateful Infer (list Predicate * list (Symbol * TypedExpr)) :=
  match supplied with
  | [] => rret acc
  | (name, value) :: supplied =>
      let~ expected_ty := ok_or (btree_get expected name) (UnknownField name (show_ty result_ty)) in
      let~ (p1, t1, typed_value) := infer_expr_typed_with_hint fuel env known (Some expected_ty) value in
      let~ (_, typed_value) := coerce_typed_to_expected fuel t1 expected_ty typed_value in
      partial_record_updates env known expected result_ty supplied (acc.1 ++ p1, acc.2 ++ [(name, typed_value)])
  end.

Definition infer_partial_record_constructor_typed (env : TypeEnv) (known : KnownVariants) (expr : Expr)
    : stateful Infer (option Typed) :=
  match partial_record_constructor expr adts with
  | None => rret None
  | Some (adt, variant, supplied) =>
      if negb (Nat.eqb (length (adt_variants adt)) 1)
      then rthrow (PartialRecordConstructorRequiresSingleVariant (variant_name variant) (show_ty (result_type adt)))
      else
        let~ inst := instantiate_variant_fields adt variant in
        let~ (result_ty, fields) := ok_or inst (UnsupportedExpr "partial record constructor") in
        let expected := btree_collect fields in
        let typed_default := mkTypedExpr result_ty (EClassMethod "default") in
        let~ (preds, updates) := partial_record_updates env known expected result_ty supplied
                                   ([mkPredicate "Default" result_ty], []) in
        let~ result_ty := prune_type fuel result_ty in
        rret (Some (preds, result_ty, mkTypedExpr result_ty (ERecordUpdate typed_default updates)))
  end.
End Body.

Section Cases.
Context (adts : gmap Symbol AdtDecl) (aliases : gmap Symbol TypeAlias) (fuel : nat).
Variable rec : TypeEnv -> KnownVariants -> Expr -> stateful Infer Typed.

(** * The cases of [infer_expr] *)

Definition typed_leaf (preds : list Predicate) (t : ty) (kind : TypedExprKind) : stateful Infer Typed :=
  rret (preds, t, mkTypedExpr t kind).

(** The overloads of a name: none may have predicates. *)
Fixpoint overload_types (name : Symbol) (schemes : list RegisteredValue) : stateful Infer (list ty) :=
  match schemes with
  | [] => rret []
  | value :: schemes =>
      if negb (bool_decide (scheme_preds (value_scheme value) = [])) then rthrow (AmbiguousOverload name)
      else
        let~ scheme := apply_scheme_with_unifier fuel (value_scheme value) in
        let~ (preds, typ) := instantiate_in scheme in
        match preds with
        | [] => let~ overloads := overload_types name schemes in rret (typ :: overloads)
        | _ => rthrow (AmbiguousOverload name)
        end
  end.

Definition infer_var (env : TypeEnv) (name : Symbol) : stateful Infer Typed :=
  let~ schemes := ok_or (TypeEnv_lookup env name) (UnknownVar name) in
  match schemes with
  | [value] =>
      let~ scheme := apply_scheme_with_unifier fuel (value_scheme value) in
      let~ (preds, t) := instantiate_in scheme in
      typed_leaf preds t (EVar name [])
  | _ =>
      let~ overloads := overload_types name schemes in
      let~ t := fresh_var (Some name) in
      typed_leaf [] t (EVar name overloads)
  end.

(** The types and the typed expressions of nested lambdas, from the innermost. *)
Fixpoint wrap_lambdas (params : list (Symbol * ty)) (fun_ty : ty) (typed : TypedExpr) : stateful Infer (ty * TypedExpr) :=
  match params with
  | [] => rret (fun_ty, typed)
  | (name, param_ty) :: params =>
      let~ param_ty := prune_type fuel param_ty in
      let fun_ty := TFun param_ty fun_ty in
      wrap_lambdas params fun_ty (mkTypedExpr fun_ty (ELam name typed))
  end.

Definition infer_lam (env : TypeEnv) (known : KnownVariants) (expr : Expr) : stateful Infer Typed :=
  let '(params, constraints, body) := collect_lambda_chain expr in
  let ann_vars := env_type_vars env in
  let~ param_tys := lambda_param_types adts aliases fuel params ann_vars in
  let env1 := extend_all param_tys env in
  let known_body := remove_all (map fst param_tys) known in
  let~ (preds, body_ty, typed_body) := rec env1 known_body body in
  let~ constraint_preds := pure_fueled (predicates_from_constraints fuel adts aliases constraints ann_vars) in
  let~ fun_ty := prune_type fuel body_ty in
  let~ (fun_ty, typed) := wrap_lambdas (rev param_tys) fun_ty typed_body in
  rret (preds ++ constraint_preds, fun_ty, typed).

Definition infer_app (env : TypeEnv) (known : KnownVariants) (expr : Expr) : stateful Infer Typed :=
  let~ partial_record := infer_partial_record_constructor_typed adts fuel rec env known expr in
  match partial_record with
  | Some inferred => rret inferred
  | None =>
      match collect_tail_app_chain expr with
      | Some (leaf, frames) => infer_tail_app_chain_typed adts fuel rec env known leaf frames
      | None =>
          let '(head, args) := collect_app_chain expr in
          let~ state := infer_typed_app_head rec env known head in
          let~ state := infer_typed_app_args adts fuel rec env known state args in
          rret (app_preds state, app_func_ty state, app_typed state)
      end
  end.

Definition infer_project (env : TypeEnv) (known : KnownVariants) (span : Span) (base : Expr) (field : Symbol)
    : stateful Infer Typed :=
  match constructor_project_symbol env adts base field with
  | Some constructor => rec env known (XVar (mkVar span constructor))
  | None =>
      let~ (p1, t1, typed_base) := rec env known base in
      let~ base_ty := prune_type fuel t1 in
      let known_variant := known_variant_from_expr_with_known base base_ty adts known in
      let~ field_ty := resolve_projection fuel adts base_ty known_variant field in
      typed_leaf p1 field_ty (EProject typed_base field)
  end.

Definition infer_record_update (env : TypeEnv) (known : KnownVariants) (base : Expr) (updates : list (Symbol * Expr))
    : stateful Infer Typed :=
  let~ (p_base, t_base, typed_base) := rec env known base in
  typed_update_of_base adts fuel rec env known base updates p_base t_base typed_base.

(** The definition of a binding: against its annotation, or on its own.
    [ann_env] is the environment whose type variables the annotation may use. *)
Definition infer_def (ann_env : TypeEnv) (known : KnownVariants) (keep_vars : bool)
    (type_params : list Symbol) (ann : option TypeExpr) (d : Expr) : stateful Infer Typed :=
  let~ def_vars := extend_params type_params (env_type_vars ann_env) in
  let env_def := set_type_vars def_vars ann_env in
  match ann with
  | Some ann_expr =>
      let~ ann_vars := extend_params type_params (env_type_vars ann_env) in
      let env_def := if keep_vars then set_type_vars ann_vars env_def else env_def in
      let~ ann_ty := annotation_type adts aliases fuel ann_expr ann_vars in
      let~ (p1, t1, typed_def) := infer_expr_typed_with_hint adts fuel rec fuel env_def known (Some ann_ty) d in
      let~ (t1, typed_def) := coerce_typed_to_expected fuel t1 ann_ty typed_def in
      rret (p1, t1, typed_def)
  | None => rec env_def known d
  end.

Fixpoint infer_let_bindings (bindings : list LetBinding) (env : TypeEnv) (known : KnownVariants)
    (typed_defs : list (Symbol * TypedExpr)) : stateful Infer (TypeEnv * KnownVariants * list (Symbol * TypedExpr)) :=
  match bindings with
  | [] => rret (env, known, typed_defs)
  | b :: bindings =>
      let name := var_name (let_var b) in
      let d := let_def b in
      let~ (p1, t1, typed_def) := infer_def env known true (let_type_params b) (let_ann b) d in
      let~ def_ty := prune_type fuel t1 in
      let~ (p1, def_ty) := default_literal_constraints_outside_type fuel p1 def_ty in
      let~ scheme := let_scheme fuel env (bool_decide (is_Some (let_ann b))) d p1 def_ty in
      infer_let_bindings bindings (extend name scheme env)
        (set_known name (known_variant_from_expr_with_known d def_ty adts known) known)
        (typed_defs ++ [(name, typed_def)])
  end.

Definition infer_let (env : TypeEnv) (known : KnownVariants) (expr : Expr) : stateful Infer Typed :=
  let '(bindings, body) := let_chain expr in
  let~ (env, known, typed_defs) := infer_let_bindings bindings env known [] in
  let~ (p_body, t_body, typed_body) := rec env known body in
  rret (p_body, t_body,
        foldl (fun typed d => mkTypedExpr t_body (ELet d.1 d.2 typed)) typed_body (rev typed_defs)).

(** The definitions of a recursive group, each against the variable of its name. *)
Fixpoint infer_letrec_defs (env_seed : TypeEnv) (tys : gmap Symbol ty) (bindings : list LetRecBinding)
    (known : KnownVariants) (inferred : list (Symbol * list Predicate * ty * TypedExpr))
    : stateful Infer (KnownVariants * list (Symbol * list Predicate * ty * TypedExpr)) :=
  match bindings with
  | [] => rret (known, inferred)
  | (v, type_params, ann, def) :: bindings =>
      let name := var_name v in
      let~ (preds, def_ty, typed_def) := infer_def env_seed known false type_params ann def in
      let~ binding_ty := ok_or (tys !! name) (UnknownVar name) in
      let~ _ := unify_in fuel binding_ty def_ty in
      let~ resolved_ty := prune_type fuel binding_ty in
      let~ (preds, resolved_ty) := default_literal_constraints_outside_type fuel preds resolved_ty in
      infer_letrec_defs env_seed tys bindings
        (set_known name (known_variant_from_expr_with_known def resolved_ty adts known) known)
        (inferred ++ [(name, preds, resolved_ty, typed_def)])
  end.

Fixpoint letrec_env (inferred : list (Symbol * list Predicate * ty * TypedExpr)) (env : TypeEnv) : stateful Infer TypeEnv :=
  match inferred with
  | [] => rret env
  | (name, preds, def_ty, _) :: inferred =>
      let~ scheme := generalize_with_unifier fuel env preds def_ty in
      let~ _ := pure_result (reject_ambiguous_scheme scheme) in
      letrec_env inferred (extend name scheme env)
  end.

Definition infer_letrec (env : TypeEnv) (known : KnownVariants) (bindings : list LetRecBinding) (body : Expr)
    : stateful Infer Typed :=
  let~ _ := pure_fueled (validate_let_rec_bindings bindings) in
  let~ (env_seed, known_seed, tys) := letrec_seed bindings env known ∅ in
  let~ (known_seed, inferred) := infer_letrec_defs env_seed tys bindings known_seed [] in
  let~ env_body := letrec_env inferred env in
  let~ (p_body, t_body, typed_body) := rec env_body known_seed body in
  typed_leaf p_body t_body (ELetRec (map (fun d => (d.1.1.1, d.2)) inferred) typed_body).

Definition infer_ite (env : TypeEnv) (known : KnownVariants) (cond then_expr else_expr : Expr) : stateful Infer Typed :=
  let~ (p1, t1, typed_cond) := rec env known cond in
  let~ _ := unify_in fuel t1 (ty_builtin Bool) in
  let~ (p2, t2, typed_then) := rec env known then_expr in
  let~ (p3, t3, typed_else) := rec env known else_expr in
  let~ _ := unify_in fuel t2 t3 in
  let~ out_ty := prune_type fuel t2 in
  typed_leaf (p1 ++ p2 ++ p3) out_ty (EIte typed_cond typed_then typed_else).

Definition infer_tuple (env : TypeEnv) (known : KnownVariants) (elems : list Expr) : stateful Infer Typed :=
  let~ parts := run_map (fun elem =>
    let~ (p1, t1, typed) := rec env known elem in
    let~ t := prune_type fuel t1 in
    rret (p1, t, typed)) elems in
  typed_leaf (concat (map (fun p => p.1.1) parts)) (TTuple (map (fun p => p.1.2) parts)) (ETuple (map snd parts)).

(** The elements of a list, and the values of a dictionary, against one variable. *)
Definition infer_elems (env : TypeEnv) (known : KnownVariants) (elem_tv : ty) (elems : list Expr)
    : stateful Infer (list (list Predicate * TypedExpr)) :=
  run_map (fun elem =>
    let~ (p1, t1, typed) := rec env known elem in
    let~ _ := unify_in fuel t1 elem_tv in
    rret (p1, typed)) elems.

Definition infer_list (env : TypeEnv) (known : KnownVariants) (elems : list Expr) : stateful Infer Typed :=
  let~ elem_tv := fresh_var (Some "a") in
  let~ parts := infer_elems env known elem_tv elems in
  let~ elem_ty := prune_type fuel elem_tv in
  typed_leaf (concat (map fst parts)) (Type_list elem_ty) (EList (map snd parts)).

Definition infer_dict (env : TypeEnv) (known : KnownVariants) (kvs : list (Symbol * Expr)) : stateful Infer Typed :=
  let~ elem_tv := fresh_var (Some "v") in
  let~ parts := infer_elems env known elem_tv (map snd kvs) in
  let~ elem_ty := prune_type fuel elem_tv in
  typed_leaf (concat (map fst parts)) (Type_dict elem_ty) (EDict (zip (map fst kvs) (map snd parts))).

Fixpoint infer_arms (env : TypeEnv) (known : KnownVariants) (scrutinee : Expr) (t1 res_ty : ty)
    (arms : list (Pattern * Expr)) (acc : list Predicate * list (Pattern * TypedExpr))
    : stateful Infer (list Predicate * list (Pattern * TypedExpr)) :=
  match arms with
  | [] => rret acc
  | (pat, expr) :: arms =>
      let~ scrutinee_ty := prune_type fuel t1 in
      let~ (p_pat, binds) := infer_pattern fuel env pat scrutinee_ty in
      let~ env_arm := arm_env fuel env binds in
      let known_arm := arm_known adts known scrutinee pat in
      let~ (p_expr, t_expr, typed_expr) := rec env_arm known_arm expr in
      let~ _ := unify_in fuel res_ty t_expr in
      infer_arms env known scrutinee t1 res_ty arms (acc.1 ++ p_pat ++ p_expr, acc.2 ++ [(pat, typed_expr)])
  end.

Definition infer_match (env : TypeEnv) (known : KnownVariants) (scrutinee : Expr) (arms : list (Pattern * Expr))
    : stateful Infer Typed :=
  let~ (p1, t1, typed_scrutinee) := rec env known scrutinee in
  let~ res_ty := fresh_var (Some "match") in
  let~ (preds, typed_arms) := infer_arms env known scrutinee t1 res_ty arms (p1, []) in
  let~ scrutinee_ty := prune_type fuel t1 in
  let~ _ := pure_result (check_match_exhaustive adts scrutinee_ty (map fst arms)) in
  let~ out_ty := prune_type fuel res_ty in
  typed_leaf preds out_ty (EMatch typed_scrutinee typed_arms).

Definition infer_ann (env : TypeEnv) (known : KnownVariants) (expr : Expr) (ann : TypeExpr) : stateful Infer Typed :=
  let~ ann_ty := annotation_type adts aliases fuel ann (env_type_vars env) in
  let~ (preds, expr_ty, typed_expr) := infer_expr_typed_with_hint adts fuel rec fuel env known (Some ann_ty) expr in
  let~ (out_ty, typed_expr) := coerce_typed_to_expected fuel expr_ty ann_ty typed_expr in
  rret (preds, out_ty, typed_expr).

Definition infer_expr_cases (env : TypeEnv) (known : KnownVariants) (expr : Expr) : stateful Infer Typed :=
  match expr with
  | XBool _ v => typed_leaf [] (ty_builtin Bool) (EBool v)
  | XUint _ v =>
      let~ t := fresh_var (Some "n") in
      typed_leaf [mkPredicate "Integral" t] t (EUint (Z.to_N v))
  | XInt _ v =>
      let~ t := fresh_var (Some "n") in
      typed_leaf [mkPredicate "Integral" t; mkPredicate "AdditiveGroup" t] t (EInt v)
  | XFloat _ v =>
      let~ t := fresh_var (Some "n") in
      typed_leaf [mkPredicate "Field" t] t (EFloat v)
  | XChar _ v => typed_leaf [] (ty_builtin Char) (EChar v)
  | XString _ v => typed_leaf [] (ty_builtin String_) (EString v)
  | XUuid _ v => typed_leaf [] (ty_builtin Uuid) (EUuid v)
  | XDateTime _ v => typed_leaf [] (ty_builtin DateTime) (EDateTime v)
  | XHole _ => let~ t := fresh_var (Some "hole") in typed_leaf [] t EHole
  | XVar v => infer_var env (var_name v)
  | XLam _ _ _ _ _ _ => infer_lam env known expr
  | XApp _ _ _ => infer_app env known expr
  | XProject span base field => infer_project env known span base field
  | XRecordUpdate _ base updates => infer_record_update env known base updates
  | XLet _ _ _ _ _ _ => infer_let env known expr
  | XLetRec _ bindings body => infer_letrec env known bindings body
  | XIte _ cond then_expr else_expr => infer_ite env known cond then_expr else_expr
  | XTuple _ elems => infer_tuple env known elems
  | XList _ elems => infer_list env known elems
  | XDict _ kvs => infer_dict env known kvs
  | XMatch _ scrutinee arms => infer_match env known scrutinee arms
  | XAnn _ expr ann => infer_ann env known expr ann
  end.
End Cases.

(** [infer_expr]: the cases under the depth limit; an error gets the span of the
    innermost expression it comes from. *)
Fixpoint infer_expr (adts : gmap Symbol AdtDecl) (aliases : gmap Symbol TypeAlias) (fuel : nat)
    (env : TypeEnv) (known : KnownVariants) (expr : Expr) : stateful Infer Typed :=
  match fuel with
  | O => no_fuel
  | S fuel =>
      let span := Expr_span expr in
      spanning span (infer_depth_in span
        (infer_expr_cases adts aliases fuel (infer_expr adts aliases fuel) env known expr))
  end.
