(* ===== verification/Typing.v ===== *)
(** What it means for an elaborated expression to be well typed: the rules of
    qualified types with let polymorphism, in the form that the unifier keeps them,
    that is, under the substitution [σ] that its bindings stand for.

    Types may differ by the implicit coercions of the language between records and
    dictionaries; an integer is widened by an explicit application. An overloaded
    variable that has not been resolved has any type. *)

From S2P Require Import Prelude Span Types BTree Unify UnifyComplete Unifier UnifierSound.
From S2P Require Import Syntax Ast Adts TypedExprs TypeEnv Infer.

Abbreviation Values := (gmap Symbol (list RegisteredValue)).

(** * Types under a substitution *)

Definition same (σ : Subst) (a b : ty) : Prop := subst σ a = subst σ b.
Definition coerces (σ : Subst) (a b : ty) : Prop := rtc compat (subst σ a) (subst σ b).

Lemma same_coerces σ a b : same σ a b -> coerces σ a b.
Proof. unfold same, coerces. by intros ->. Qed.
Lemma coerces_refl σ a : coerces σ a a.
Proof. apply rtc_refl. Qed.
Lemma coerces_trans σ a b c : coerces σ a b -> coerces σ b c -> coerces σ a c.
Proof. unfold coerces. intros. by etrans. Qed.
Lemma coerces_sym σ a b : coerces σ a b -> coerces σ b a.
Proof.
  unfold coerces. induction 1 as [|x y z Hxy _ IH]; [done|].
  eapply rtc_r; [done|]. by apply compat_sym.
Qed.
Lemma compat_coerces σ a b : compat (subst σ a) (subst σ b) -> coerces σ a b.
Proof. apply rtc_once. Qed.

Lemma same_carry σ σ' a b : extends σ σ' -> same σ a b -> same σ' a b.
Proof. apply extends_eq. Qed.
Lemma coerces_carry σ σ' a b : extends σ σ' -> coerces σ a b -> coerces σ' a b.
Proof.
  unfold coerces. intros He H. rewrite <- (He a), <- (He b).
  induction H as [|x y z Hxy _ IH]; [done|]. eapply rtc_l; [by apply compat_subst|done].
Qed.

(** The predicate is among the collected ones. *)
Definition holds (σ : Subst) (P : list Predicate) (p : Predicate) : Prop :=
  exists q, q ∈ P /\ pred_class q = pred_class p /\ same σ (pred_typ q) (pred_typ p).

Definition entailed_by (σ : Subst) (P Q : list Predicate) : Prop := forall p, p ∈ Q -> holds σ P p.

Lemma holds_carry σ σ' P p : extends σ σ' -> holds σ P p -> holds σ' P p.
Proof. intros He (q & ? & ? & ?). exists q. split_and!; [done..|by eapply same_carry]. Qed.

Lemma entailed_carry σ σ' P Q : extends σ σ' -> entailed_by σ P Q -> entailed_by σ' P Q.
Proof. intros He H p Hp. by eapply holds_carry, H. Qed.

Lemma holds_mono σ P P' p : entailed_by σ P' P -> holds σ P p -> holds σ P' p.
Proof.
  intros Hs (q & Hq & Hc & Ht). destruct (Hs q Hq) as (q' & ? & ? & ?). exists q'.
  split_and!; [done|congruence|]. unfold same in *. congruence.
Qed.

Lemma entailed_subset σ P P' : P ⊆ P' -> entailed_by σ P' P.
Proof. intros Hs p Hp. exists p. split_and!; [by apply Hs|done..]. Qed.

Lemma entailed_trans σ P1 P2 P3 : entailed_by σ P1 P2 -> entailed_by σ P2 P3 -> entailed_by σ P1 P3.
Proof. intros H12 H23 p Hp. eapply holds_mono; [exact H12|by apply H23]. Qed.

(** [t] is an instance of [s], whose predicates, so instantiated, are among [P]. *)
Definition ids (s : Scheme) : list TypeVarId := map tv_id (scheme_vars s).

Definition scheme_instance (σ : Subst) (s : Scheme) (P : list Predicate) (t : ty) : Prop :=
  exists θ : Subst, (forall x, is_Some (θ !! x) -> x ∈ ids s) /\
    subst σ t = subst θ (subst σ (scheme_typ s)) /\
    forall p, p ∈ scheme_preds s ->
      exists q, q ∈ P /\ pred_class q = pred_class p /\ subst σ (pred_typ q) = subst θ (subst σ (pred_typ p)).

Lemma scheme_instance_mono σ s P P' t :
  entailed_by σ P' P -> scheme_instance σ s P t -> scheme_instance σ s P' t.
Proof.
  intros Hs (θ & Hθ & Ht & Hp). exists θ. split_and!; [done..|]. intros p Hp'.
  destruct (Hp p Hp') as (q & Hq & Hc & He). destruct (Hs q Hq) as (q' & ? & ? & Hsame). exists q'.
  split_and!; [done|congruence|]. unfold same in Hsame. congruence.
Qed.

(** * Free variables of environments *)

(** The types of a scheme. *)
Definition scheme_types (s : Scheme) : list ty := scheme_typ s :: map pred_typ (scheme_preds s).

(** Its variables under [σ], bound ones included, and its free ones. *)
Definition scheme_vars_in (σ : Subst) (s : Scheme) : gset TypeVarId := ⋃ (map (fun t => vars (subst σ t)) (scheme_types s)).
Definition scheme_free (σ : Subst) (s : Scheme) : gset TypeVarId := scheme_vars_in σ s ∖ list_to_set (ids s).

Definition env_schemes (Γ : Values) : list Scheme := map value_scheme (concat (map snd (map_to_list Γ))).
Definition env_free (σ : Subst) (Γ : Values) : gset TypeVarId := ⋃ (map (scheme_free σ) (env_schemes Γ)).

Definition bind_value (name : Symbol) (s : Scheme) (Γ : Values) : Values := <[name := [RegisteredValue_new s]]> Γ.
Definition mono_scheme (t : ty) : Scheme := mkScheme [] [] t.
Definition bind_types (binds : list (Symbol * ty)) (Γ : Values) : Values :=
  foldl (fun Γ b => bind_value b.1 (mono_scheme b.2) Γ) Γ binds.

(** * Constructors and fields *)

Section Typing.
Context (adts : gmap Symbol AdtDecl).

(** A record type, or an algebraic type with a variant of these fields. *)
Definition fields_of (σ : Subst) (t : ty) (fields : list (Symbol * ty)) : Prop :=
  same σ t (TRecord fields) \/
  exists name adt variant (θ : Subst) fs,
    adts !! name = Some adt /\ variant ∈ adt_variants adt /\ record_fields variant = Some fs /\
    coerces σ t (subst θ (result_type adt)) /\
    Forall2 (fun f g => f.1 = g.1 /\ same σ f.2 (subst θ g.2)) fields fs.

Definition projects (σ : Subst) (t : ty) (field : Symbol) (ft : ty) : Prop :=
  (exists fields ft', fields_of σ t fields /\ find_field fields field = Some ft' /\ same σ ft ft') \/
  (exists i ts ft', parse_usize field = Some i /\ coerces σ t (TTuple ts) /\ ts !! N.to_nat i = Some ft' /\ same σ ft ft').

(** * Patterns *)

Inductive pat_typed (σ : Subst) (Γ : Values) (P : list Predicate) : Pattern -> ty -> list (Symbol * ty) -> Prop :=
  | PT_wildcard span t : pat_typed σ Γ P (PWildcard span) t []
  | PT_var v t t' : same σ t' t -> pat_typed σ Γ P (PVar v) t [(var_name v, t')]
  | PT_named span name ps t v ct args res args' binds :
      Γ !! to_dotted_symbol name = Some [v] -> scheme_instance σ (value_scheme v) P ct ->
      decompose_fun ct (length ps) = Some (args, res) -> coerces σ res t ->
      Forall2 (same σ) args' args ->
      pats_typed σ Γ P (zip ps args') binds ->
      pat_typed σ Γ P (PNamed span name ps) t binds
  | PT_list span ps t elem elems binds :
      coerces σ t (Type_list elem) -> (forall e, e ∈ elems -> same σ e elem) -> length elems = length ps ->
      pats_typed σ Γ P (zip ps elems) binds ->
      pat_typed σ Γ P (PList span ps) t binds
  | PT_cons span head tail t elem e1 e2 binds :
      coerces σ t (Type_list elem) -> same σ e1 elem -> same σ e2 (Type_list elem) ->
      pats_typed σ Γ P [(head, e1); (tail, e2)] binds ->
      pat_typed σ Γ P (PCons span head tail) t binds
  | PT_tuple span ps t elems binds :
      coerces σ t (TTuple elems) -> length elems = length ps ->
      pats_typed σ Γ P (zip ps elems) binds ->
      pat_typed σ Γ P (PTuple span ps) t binds
  | PT_record span fields t ty_fields elems binds :
      same σ t (TRecord ty_fields) ->
      Forall2 (fun (f : Symbol * Pattern) e => exists ft, find_field ty_fields f.1 = Some ft /\ same σ e ft) fields elems ->
      pats_typed σ Γ P (zip (map snd fields) elems) binds ->
      pat_typed σ Γ P (PDict span fields) t binds
  | PT_dict span fields t elem elems binds :
      coerces σ t (Type_dict elem) -> (forall e, e ∈ elems -> same σ e elem) -> length elems = length fields ->
      pats_typed σ Γ P (zip (map snd fields) elems) binds ->
      pat_typed σ Γ P (PDict span fields) t binds
with pats_typed (σ : Subst) (Γ : Values) (P : list Predicate) : list (Pattern * ty) -> list (Symbol * ty) -> Prop :=
  | PsT_nil : pats_typed σ Γ P [] []
  | PsT_cons p t ps binds1 binds1' binds2 :
      pat_typed σ Γ P p t binds1 ->
      Forall2 (fun b b' => b.1 = b'.1 /\ same σ b.2 b'.2) binds1' binds1 ->
      pats_typed σ Γ P ps binds2 ->
      pats_typed σ Γ P ((p, t) :: ps) (binds1' ++ binds2).

Scheme pat_typed_mut := Minimality for pat_typed Sort Prop
  with pats_typed_mut := Minimality for pats_typed Sort Prop.
Combined Scheme pat_typed_ind' from pat_typed_mut, pats_typed_mut.

(** * Expressions

    [N] bounds the type variables in use, and [K] holds the ones that may be
    quantified: no type that is still to be unified mentions them. *)

Definition generic (σ : Subst) (K : TypeVarId -> Prop) (Γ : Values) (s : Scheme) : Prop :=
  forall b, b ∈ ids s -> K b /\ σ !! b = None /\ b ∉ env_free σ Γ.

Definition letrec_env_of (binds : list (Symbol * TypedExpr)) (schemes : list Scheme) (Γ : Values) : Values :=
  foldl (fun Γ b => bind_value b.1 b.2 Γ) Γ (zip (map fst binds) schemes).

Inductive typed (N : nat) (K : TypeVarId -> Prop) (σ : Subst) : Values -> list Predicate -> TypedExpr -> Prop :=
  | T_bool Γ P b : typed N K σ Γ P (mkTypedExpr (ty_builtin Bool) (EBool b))
  | T_char Γ P c : typed N K σ Γ P (mkTypedExpr (ty_builtin Char) (EChar c))
  | T_string Γ P s : typed N K σ Γ P (mkTypedExpr (ty_builtin String_) (EString s))
  | T_uuid Γ P u : typed N K σ Γ P (mkTypedExpr (ty_builtin Uuid) (EUuid u))
  | T_datetime Γ P d : typed N K σ Γ P (mkTypedExpr (ty_builtin DateTime) (EDateTime d))
  | T_uint Γ P n t : holds σ P (mkPredicate "Integral" t) -> typed N K σ Γ P (mkTypedExpr t (EUint n))
  | T_int Γ P z t :
      holds σ P (mkPredicate "Integral" t) -> holds σ P (mkPredicate "AdditiveGroup" t) ->
      typed N K σ Γ P (mkTypedExpr t (EInt z))
  | T_float Γ P x t : holds σ P (mkPredicate "Field" t) -> typed N K σ Γ P (mkTypedExpr t (EFloat x))
  | T_hole Γ P t : typed N K σ Γ P (mkTypedExpr t EHole)
  | T_var Γ P name v t :
      Γ !! name = Some [v] -> scheme_instance σ (value_scheme v) P t ->
      typed N K σ Γ P (mkTypedExpr t (EVar name []))
  | T_overloaded Γ P name vs ts t :
      Γ !! name = Some vs -> length vs <> 1 ->
      Forall2 (fun v t => scheme_instance σ (value_scheme v) [] t) vs ts ->
      typed N K σ Γ P (mkTypedExpr t (EVar name ts))
  | T_widen Γ P a b :
      implicit_integer_widening a b = true ->
      typed N K σ Γ P (mkTypedExpr (TFun a b) (EVar IMPLICIT_INT_WIDEN_PRIM []))
  | T_app Γ P f x a t :
      typed N K σ Γ P f -> typed N K σ Γ P x ->
      coerces σ (te_typ f) (TFun a t) -> coerces σ (te_typ x) a ->
      typed N K σ Γ P (mkTypedExpr t (EApp f x))
  | T_lam Γ P name a a' b body :
      typed N K σ (bind_value name (mono_scheme a) Γ) P body ->
      (forall y, y ∈ vars (subst σ a) -> y < N) ->
      same σ a' a -> coerces σ (te_typ body) b ->
      typed N K σ Γ P (mkTypedExpr (TFun a' b) (ELam name body))
  | T_let Γ P name s d body t :
      typed N K σ Γ (scheme_preds s) d -> coerces σ (te_typ d) (scheme_typ s) ->
      (forall y, y ∈ scheme_vars_in σ s -> y < N) -> generic σ K Γ s ->
      typed N K σ (bind_value name s Γ) P body -> coerces σ (te_typ body) t ->
      typed N K σ Γ P (mkTypedExpr t (ELet name d body))
  | T_letrec Γ P Γ' binds schemes body t :
      (** [Γ'] has the group with its monomorphic types *)
      (forall name, name ∉ map fst binds -> Γ' !! name = Γ !! name) ->
      length schemes = length binds ->
      (forall i b s, binds !! i = Some b -> schemes !! i = Some s ->
         exists a, Γ' !! b.1 = Some [RegisteredValue_new (mono_scheme a)] /\
           (forall y, y ∈ vars (subst σ a) -> y < N) /\
           coerces σ (te_typ b.2) a /\ same σ a (scheme_typ s) /\
           (forall y, y ∈ scheme_vars_in σ s -> y < N) /\ generic σ K Γ s) ->
      (forall i b s, binds !! i = Some b -> schemes !! i = Some s ->
         typed N K σ Γ' (scheme_preds s) b.2) ->
      typed N K σ (letrec_env_of binds schemes Γ) P body -> coerces σ (te_typ body) t ->
      typed N K σ Γ P (mkTypedExpr t (ELetRec binds body))
  | T_ite Γ P c e1 e2 t :
      typed N K σ Γ P c -> typed N K σ Γ P e1 -> typed N K σ Γ P e2 ->
      coerces σ (te_typ c) (ty_builtin Bool) -> coerces σ (te_typ e1) t -> coerces σ (te_typ e2) t ->
      typed N K σ Γ P (mkTypedExpr t (EIte c e1 e2))
  | T_tuple Γ P es ts :
      (forall e, e ∈ es -> typed N K σ Γ P e) -> Forall2 (fun e t => coerces σ (te_typ e) t) es ts ->
      typed N K σ Γ P (mkTypedExpr (TTuple ts) (ETuple es))
  | T_list Γ P es t :
      (forall e, e ∈ es -> typed N K σ Γ P e) -> (forall e, e ∈ es -> coerces σ (te_typ e) t) ->
      typed N K σ Γ P (mkTypedExpr (Type_list t) (EList es))
  | T_dict Γ P kvs t :
      (forall kv, kv ∈ kvs -> typed N K σ Γ P kv.2) -> (forall kv, kv ∈ kvs -> coerces σ (te_typ kv.2) t) ->
      typed N K σ Γ P (mkTypedExpr (Type_dict t) (EDict kvs))
  | T_record Γ P kvs fields :
      (forall kv, kv ∈ kvs -> typed N K σ Γ P kv.2) ->
      (forall kv, kv ∈ kvs -> exists ft, (kv.1, ft) ∈ fields /\ coerces σ (te_typ kv.2) ft) ->
      (forall f, f ∈ fields -> f.1 ∈ map fst kvs) ->
      typed N K σ Γ P (mkTypedExpr (TRecord fields) (EDict kvs))
  | T_project Γ P base field base_ty t :
      typed N K σ Γ P base -> coerces σ (te_typ base) base_ty -> projects σ base_ty field t ->
      typed N K σ Γ P (mkTypedExpr t (EProject base field))
  | T_update Γ P base kvs fields t :
      typed N K σ Γ P base -> coerces σ (te_typ base) t -> fields_of σ t fields ->
      (forall kv, kv ∈ kvs -> typed N K σ Γ P kv.2) ->
      (forall kv, kv ∈ kvs -> exists ft, (kv.1, ft) ∈ fields /\ coerces σ (te_typ kv.2) ft) ->
      typed N K σ Γ P (mkTypedExpr t (ERecordUpdate base kvs))
  | T_default Γ P t :
      holds σ P (mkPredicate "Default" t) -> typed N K σ Γ P (mkTypedExpr t (EClassMethod "default"))
  | T_match Γ P scrutinee arms types binds t :
      typed N K σ Γ P scrutinee -> length types = length arms -> length binds = length arms ->
      (forall i arm a bs, arms !! i = Some arm -> types !! i = Some a -> binds !! i = Some bs ->
         coerces σ (te_typ scrutinee) a /\ pat_typed σ Γ P arm.1 a bs /\ coerces σ (te_typ arm.2) t /\
         (forall b y, b ∈ bs -> y ∈ vars (subst σ b.2) -> y < N)) ->
      (forall i arm bs, arms !! i = Some arm -> binds !! i = Some bs ->
         typed N K σ (bind_types bs Γ) P arm.2) ->
      typed N K σ Γ P (mkTypedExpr t (EMatch scrutinee arms)).
End Typing.

(** * Moves of inference

    [U] holds the variables that types still in use may mention; [n] is the next
    variable of the supply. *)

Record touch (U : gset TypeVarId) (σ : Subst) (n : nat) (σ' : Subst) (n' : nat) (U' : gset TypeVarId) : Prop := {
  touch_extends : extends σ σ';
  touch_settled : settled σ';
  touch_le : n <= n';
  touch_only x : x < n -> x ∉ U -> σ !! x = None -> σ' !! x = None;
  touch_range x y : x ∈ U -> σ !! x = None -> y ∈ vars (subst σ' (TVar (TypeVar_new x None))) -> y ∈ U';
  touch_sub x : x ∈ U' -> x ∈ U \/ n <= x;
  touch_lt x : x ∈ U' -> x < n';
  touch_new x : n' <= x -> σ' !! x = None
}.

(** What holds of [U], [σ] and [n] between the steps of inference. *)
Record ready (U : gset TypeVarId) (σ : Subst) (n : nat) : Prop := {
  ready_settled : settled σ;
  ready_new x : n <= x -> σ !! x = None;
  ready_lt x : x ∈ U -> x < n
}.

(** A variable that no type in use mentions: it will not be bound. *)
Definition dead (U : gset TypeVarId) (n : nat) (σ : Subst) (b : TypeVarId) : Prop := b < n /\ b ∉ U /\ σ !! b = None.

Lemma vars_named (σ : Subst) tv : vars (subst σ (TVar tv)) = vars (subst σ (TVar (TypeVar_new (tv_id tv) None))).
Proof. simpl. by destruct (σ !! tv_id tv). Qed.

Lemma vars_of_instance (σ : Subst) t y :
  y ∈ vars (subst σ t) <-> exists x, x ∈ vars t /\ y ∈ vars (subst σ (TVar (TypeVar_new x None))).
Proof.
  rewrite elem_of_vars_subst. apply exist_proper. intros x. apply and_iff_compat_l. simpl.
  destruct (σ !! x); simpl; [done|]. set_solver.
Qed.

(** The variables of a type after more has been bound. *)
Lemma vars_extends σ σ' t y :
  extends σ σ' -> y ∈ vars (subst σ' t) <->
  exists x, x ∈ vars (subst σ t) /\ y ∈ vars (subst σ' (TVar (TypeVar_new x None))).
Proof. intros He. rewrite <- (He t). apply vars_of_instance. Qed.

Lemma settled_open σ t x : settled σ -> x ∈ vars (subst σ t) -> σ !! x = None.
Proof. intros Hs Hx. exact (Hs t x Hx). Qed.

Lemma vars_open (σ : Subst) x : σ !! x = None -> vars (subst σ (TVar (TypeVar_new x None))) = {[x]}.
Proof. simpl. by intros ->. Qed.

Section Touch.
Context {U : gset TypeVarId} {σ : Subst} {n : nat} {σ' : Subst} {n' : nat} {U' : gset TypeVarId}.
Hypothesis Ht : touch U σ n σ' n' U'.
Hypothesis Hr : ready U σ n.

Lemma touch_ready : ready U' σ' n'.
Proof using Ht. destruct Ht. by split. Qed.

(** A variable in use stays, or leads to variables in use. *)
Lemma touch_var x y :
  x < n -> σ !! x = None -> y ∈ vars (subst σ' (TVar (TypeVar_new x None))) -> y ∈ U' \/ (y = x /\ x ∉ U).
Proof using Ht.
  intros Hx Hn Hy. destruct (decide (x ∈ U)) as [HU|HU]; [left; by eapply touch_range|right].
  pose proof (touch_only _ _ _ _ _ _ Ht x Hx HU Hn) as H'. rewrite vars_open in Hy by done. by apply elem_of_singleton in Hy.
Qed.

Lemma within_carry t : within U σ t -> within U' σ' t.
Proof using Ht Hr.
  intros H y. rewrite (vars_extends _ _ _ _ (touch_extends _ _ _ _ _ _ Ht)). intros (x & Hx & Hy).
  eapply touch_range; [done|by apply H|by eapply settled_open, Hx; apply Hr|done].
Qed.

Lemma dead_carry b : dead U n σ b -> dead U' n' σ' b.
Proof using Ht.
  intros (Hb & HU & Hn). split_and!; [pose proof (touch_le _ _ _ _ _ _ Ht); lia| |by eapply touch_only].
  intros [?|?]%(touch_sub _ _ _ _ _ _ Ht); [done|lia].
Qed.

(** A dead variable is in no type that did not mention it. *)
Lemma dead_apart b t :
  dead U n σ b -> (forall y, y ∈ vars (subst σ t) -> y < n) -> b ∈ vars (subst σ' t) -> b ∈ vars (subst σ t).
Proof using Ht Hr.
  intros Hb Hlt. rewrite (vars_extends _ _ _ _ (touch_extends _ _ _ _ _ _ Ht)). intros (x & Hx & Hy).
  destruct (touch_var x b) as [HU'|[-> _]]; [by apply Hlt|by eapply settled_open, Hx; apply Hr|done| |done].
  by destruct (dead_carry b Hb) as (_ & ? & _).
Qed.

Lemma vars_lt_carry t :
  (forall y, y ∈ vars (subst σ t) -> y < n) -> forall y, y ∈ vars (subst σ' t) -> y < n'.
Proof using Ht Hr.
  intros Hlt y. rewrite (vars_extends _ _ _ _ (touch_extends _ _ _ _ _ _ Ht)). intros (x & Hx & Hy).
  destruct (touch_var x y) as [HU'|[-> _]]; [by apply Hlt|by eapply settled_open, Hx; apply Hr|done|by eapply touch_lt|].
  pose proof (touch_le _ _ _ _ _ _ Ht). specialize (Hlt x Hx). lia.
Qed.
End Touch.

(** * Environments along moves *)

Lemma subst_subst_ext (s1 s2 s3 s4 : Subst) t :
  (forall tv, tv_id tv ∈ vars t -> subst s2 (subst s1 (TVar tv)) = subst s4 (subst s3 (TVar tv))) ->
  subst s2 (subst s1 t) = subst s4 (subst s3 t).
Proof.
  induction t as [tv|c|l r IHl IHr|a b IHa IHb|ts IH|fs IH] using ty_ind'; intros Hs.
  - apply Hs. simpl. set_solver.
  - done.
  - simpl in *. rewrite IHl, IHr; [done|intros; apply Hs; set_solver..].
  - simpl in *. rewrite IHa, IHb; [done|intros; apply Hs; set_solver..].
  - simpl in *. f_equal. rewrite !map_map. apply map_ext_Forall.
    rewrite Forall_forall in IH |- *. intros t Ht. apply IH; [done|].
    intros tv Hx. apply Hs. rewrite union_list_elem. by exists t.
  - simpl in *. f_equal. rewrite !map_map. apply map_ext_Forall.
    rewrite Forall_forall in IH |- *. intros f Hf. simpl. f_equal. apply IH; [done|].
    intros tv Hx. apply Hs. rewrite union_list_elem. by exists f.
Qed.

Lemma elem_of_scheme_vars σ s y :
  y ∈ scheme_vars_in σ s <-> exists t, t ∈ scheme_types s /\ y ∈ vars (subst σ t).
Proof. unfold scheme_vars_in. apply union_list_elem. Qed.

Lemma elem_of_scheme_free σ s y : y ∈ scheme_free σ s <-> y ∈ scheme_vars_in σ s /\ y ∉ ids s.
Proof. unfold scheme_free. rewrite elem_of_difference, elem_of_list_to_set. done. Qed.

Lemma elem_of_concat {A} (x : A) ls : x ∈ concat ls <-> exists l, x ∈ l /\ l ∈ ls.
Proof.
  rewrite list_elem_of_In, in_concat. split.
  - intros (l & H1 & H2). exists l. split; by apply list_elem_of_In.
  - intros (l & H1 & H2). exists l. split; by apply list_elem_of_In.
Qed.

Lemma elem_of_env_schemes Γ s :
  s ∈ env_schemes Γ <-> exists name vs v, Γ !! name = Some vs /\ v ∈ vs /\ s = value_scheme v.
Proof.
  unfold env_schemes. rewrite list_elem_of_fmap. split.
  - intros (v & -> & Hv). apply elem_of_concat in Hv as (vs & Hv & Hvs).
    apply list_elem_of_fmap in Hvs as ([name vs'] & -> & Hn%elem_of_map_to_list). eauto 7.
  - intros (name & vs & v & Hn & Hv & ->). exists v. split; [done|].
    apply elem_of_concat. exists vs. split; [done|]. apply list_elem_of_fmap. exists (name, vs).
    split; [done|]. by apply elem_of_map_to_list.
Qed.

Lemma elem_of_env_free σ Γ y : y ∈ env_free σ Γ <-> exists s, s ∈ env_schemes Γ /\ y ∈ scheme_free σ s.
Proof. unfold env_free. apply union_list_elem. Qed.

Lemma env_schemes_bind name s Γ s' :
  s' ∈ env_schemes (bind_value name s Γ) -> s' = s \/ s' ∈ env_schemes Γ.
Proof.
  rewrite !elem_of_env_schemes. intros (name' & vs & v & Hn & Hv & ->). unfold bind_value in Hn.
  destruct (decide (name' = name)) as [->|Hne].
  - rewrite lookup_insert_eq in Hn. injection Hn as <-. apply list_elem_of_singleton in Hv as ->. by left.
  - rewrite lookup_insert_ne in Hn by done. right. eauto 7.
Qed.

(** The bound variables of the schemes are dead, the variables in use are below
    the supply. *)
Definition scheme_dead (U : gset TypeVarId) (n : nat) (σ : Subst) (s : Scheme) : Prop :=
  (forall b, b ∈ ids s -> dead U n σ b) /\ forall y, y ∈ scheme_vars_in σ s -> y < n.
Definition env_dead (U : gset TypeVarId) (n : nat) (σ : Subst) (Γ : Values) : Prop :=
  forall s, s ∈ env_schemes Γ -> scheme_dead U n σ s.

(** Moreover the free variables are in [U]. *)
Definition env_ok (U : gset TypeVarId) (n : nat) (σ : Subst) (Γ : Values) : Prop :=
  env_dead U n σ Γ /\ env_free σ Γ ⊆ U.

Section Carry.
Context {U : gset TypeVarId} {σ : Subst} {n : nat} {σ' : Subst} {n' : nat} {U' : gset TypeVarId}.
Hypothesis Ht : touch U σ n σ' n' U'.
Hypothesis Hr : ready U σ n.

Lemma scheme_dead_carry s : scheme_dead U n σ s -> scheme_dead U' n' σ' s.
Proof using Ht Hr.
  intros [Hb Hv]. split; [intros b ?; by eapply dead_carry, Hb|].
  intros y (t & Hs & Hy)%elem_of_scheme_vars. eapply (vars_lt_carry Ht Hr t); [|done].
  intros z Hz. apply Hv, elem_of_scheme_vars. eauto.
Qed.

Lemma env_dead_carry Γ : env_dead U n σ Γ -> env_dead U' n' σ' Γ.
Proof using Ht Hr. intros H s Hs. by apply scheme_dead_carry, H. Qed.

(** The variables that a free variable of a scheme leads to are free in it. *)
Lemma scheme_free_range s x y :
  scheme_dead U n σ s -> x ∈ scheme_free σ s -> y ∈ vars (subst σ' (TVar (TypeVar_new x None))) ->
  y ∈ scheme_free σ' s.
Proof using Ht Hr.
  intros [Hb Hv] [Hx Hxi]%elem_of_scheme_free Hy. pose proof (Hv x Hx) as Hlt.
  apply elem_of_scheme_vars in Hx as (t & Hts & Hx). apply elem_of_scheme_free. split.
  - apply elem_of_scheme_vars. exists t. split; [done|].
    rewrite (vars_extends _ _ _ _ (touch_extends _ _ _ _ _ _ Ht)). eauto.
  - intros Hyi. pose proof (dead_carry Ht y (Hb y Hyi)) as (_ & HyU & _).
    destruct (touch_var Ht x y Hlt (settled_open _ _ _ (ready_settled _ _ _ Hr) Hx) Hy) as [?|[-> _]]; done.
Qed.

Lemma scheme_free_inv s y :
  scheme_dead U n σ s -> y ∈ scheme_free σ' s ->
  exists x, x ∈ scheme_free σ s /\ σ !! x = None /\ y ∈ vars (subst σ' (TVar (TypeVar_new x None))).
Proof using Ht Hr.
  intros [Hb Hv] [Hy Hyi]%elem_of_scheme_free. apply elem_of_scheme_vars in Hy as (t & Hts & Hy).
  rewrite (vars_extends _ _ _ _ (touch_extends _ _ _ _ _ _ Ht)) in Hy. destruct Hy as (x & Hx & Hy).
  exists x. split_and!; [|by eapply settled_open, Hx; apply Hr|done].
  apply elem_of_scheme_free. split; [apply elem_of_scheme_vars; eauto|]. intros Hxi.
  destruct (dead_carry Ht x (Hb x Hxi)) as (_ & _ & Hn). rewrite vars_open in Hy by done.
  apply elem_of_singleton in Hy. congruence.
Qed.

Lemma env_ok_carry Γ : env_ok U n σ Γ -> env_ok U' n' σ' Γ.
Proof using Ht Hr.
  intros [Hd Hf]. split; [by apply env_dead_carry|].
  intros y (s & Hs & Hy)%elem_of_env_free. apply scheme_free_inv in Hy as (x & Hx & Hn & Hy); [|by apply Hd].
  eapply touch_range; [done| |done|done]. apply Hf, elem_of_env_free. eauto.
Qed.

(** A dead variable does not become free in an environment. *)
Lemma dead_not_free b Γ : env_dead U n σ Γ -> dead U n σ b -> b ∉ env_free σ Γ -> b ∉ env_free σ' Γ.
Proof using Ht Hr.
  intros Hd Hb Hnf (s & Hs & Hy)%elem_of_env_free. pose proof (Hd s Hs) as Hsd.
  apply scheme_free_inv in Hy as (x & Hx & Hn & Hy); [|done].
  assert (x < n) as Hlt. { destruct Hsd as [_ Hv]. apply Hv. by apply elem_of_scheme_free in Hx as [? _]. }
  destruct (touch_var Ht x b Hlt Hn Hy) as [HU|[-> _]].
  - by destruct (dead_carry Ht b Hb) as (_ & ? & _).
  - apply Hnf, elem_of_env_free. eauto.
Qed.

(** Instances of a scheme stay instances. *)
Lemma instance_subst (θ : Subst) (vs : list TypeVarId) t :
  (forall x, is_Some (θ !! x) -> x ∈ vs) -> (forall b, b ∈ vs -> dead U n σ b) ->
  (forall y, y ∈ vars (subst σ t) -> y < n) ->
  subst σ' (subst θ (subst σ t)) = subst (subst σ' <$> θ) (subst σ' t).
Proof using Ht Hr.
  intros Hθ Hd Hlt. rewrite <- (touch_extends _ _ _ _ _ _ Ht t). apply subst_subst_ext. intros tv Htv.
  destruct (θ !! tv_id tv) as [u|] eqn:Eθ.
  - destruct (dead_carry Ht _ (Hd _ (Hθ _ ltac:(eauto)))) as (_ & _ & Hn).
    simpl. rewrite Eθ, Hn. simpl. by rewrite lookup_fmap, Eθ.
  - rewrite (unbound_subst θ (TVar tv)); [|intros y Hy; simpl in Hy; apply elem_of_singleton in Hy; by subst].
    symmetry. apply unbound_subst. intros y Hy. rewrite lookup_fmap.
    destruct (θ !! y) as [u|] eqn:Ey; [|done]. exfalso.
    pose proof (Hd _ (Hθ y ltac:(eauto))) as Hdy. rewrite vars_named in Hy.
    pose proof (settled_open _ _ _ (ready_settled _ _ _ Hr) Htv) as Ho.
    destruct (touch_var Ht _ _ (Hlt _ Htv) Ho Hy) as [HU|[-> _]]; [|congruence].
    by destruct (dead_carry Ht y Hdy) as (_ & ? & _).
Qed.

Lemma scheme_instance_carry s P t :
  scheme_dead U n σ s -> scheme_instance σ s P t -> scheme_instance σ' s P t.
Proof using Ht Hr.
  intros [Hd Hv] (θ & Hθ & Hi & Hp). exists (subst σ' <$> θ).
  pose proof (touch_extends _ _ _ _ _ _ Ht) as He. split_and!.
  - intros x. rewrite lookup_fmap, fmap_is_Some. apply Hθ.
  - rewrite <- (He t), Hi. eapply instance_subst; [done..|]. intros y Hy. apply Hv, elem_of_scheme_vars.
    eexists. split; [by left|done].
  - intros p Hps. destruct (Hp p Hps) as (q & Hq & Hc & Hsame). exists q. split_and!; [done..|].
    rewrite <- (He (pred_typ q)), Hsame. eapply instance_subst; [done..|]. intros y Hy. apply Hv, elem_of_scheme_vars.
    eexists. split; [right; by apply list_elem_of_fmap_2|done].
Qed.
End Carry.

(** * Typing along moves *)

Lemma touch_refl U σ n : ready U σ n -> touch U σ n σ n U.
Proof.
  intros [Hs Hn Hl]. split; try done; [intros t; by apply settled_idem|..|by left].
  intros x y Hx Ho. rewrite vars_open by done. intros ->%elem_of_singleton. done.
Qed.

Lemma env_dead_bind U n σ name s Γ : env_dead U n σ Γ -> scheme_dead U n σ s -> env_dead U n σ (bind_value name s Γ).
Proof. intros Hd Hs s' [->|?]%env_schemes_bind; auto. Qed.

Lemma scheme_vars_mono σ t y : y ∈ scheme_vars_in σ (mono_scheme t) <-> y ∈ vars (subst σ t).
Proof. unfold scheme_vars_in. simpl. set_solver. Qed.

Lemma scheme_dead_mono U n σ t : (forall y, y ∈ vars (subst σ t) -> y < n) -> scheme_dead U n σ (mono_scheme t).
Proof.
  intros Hlt. split; [intros b Hb; by apply not_elem_of_nil in Hb|]. intros y Hy%scheme_vars_mono. auto.
Qed.

Lemma env_dead_types U n σ binds : forall Γ,
  env_dead U n σ Γ -> (forall b y, b ∈ binds -> y ∈ vars (subst σ b.2) -> y < n) -> env_dead U n σ (bind_types binds Γ).
Proof.
  induction binds as [|b binds IH]; intros Γ Hd Hb; simpl; [done|]. apply IH.
  - apply env_dead_bind; [done|]. apply scheme_dead_mono. intros y. apply Hb. by left.
  - intros b' y ?. apply Hb. by right.
Qed.

Lemma env_dead_letrec U n σ binds : forall schemes Γ,
  env_dead U n σ Γ -> (forall s, s ∈ schemes -> scheme_dead U n σ s) -> env_dead U n σ (letrec_env_of binds schemes Γ).
Proof.
  unfold letrec_env_of. induction (map fst binds) as [|b names IH]; intros [|s schemes] Γ Hd Hs; simpl; try done.
  apply IH; [|intros s' ?; apply Hs; by right]. apply env_dead_bind; [done|]. apply Hs. by left.
Qed.

Lemma entailed_refl σ P : entailed_by σ P P.
Proof. by apply entailed_subset. Qed.

Section CarryTyping.
Context {U : gset TypeVarId} {σ : Subst} {n : nat} {σ' : Subst} {n' : nat} {U' : gset TypeVarId}.
Hypothesis Ht : touch U σ n σ' n' U'.
Hypothesis Hr : ready U σ n.
Let He : extends σ σ' := touch_extends _ _ _ _ _ _ Ht.
Context (adts : gmap Symbol AdtDecl).

Lemma fields_of_carry t fields : fields_of adts σ t fields -> fields_of adts σ' t fields.
Proof using Ht.
  intros [H|(name & adt & variant & θ & fs & ? & ? & ? & Hc & Hf)]; [left; by eapply same_carry|right].
  exists name, adt, variant, θ, fs. split_and!; [done..|by eapply coerces_carry|].
  eapply Forall2_impl; [exact Hf|]. intros f g [? ?]. split; [done|by eapply same_carry].
Qed.

Lemma projects_carry t field ft : projects adts σ t field ft -> projects adts σ' t field ft.
Proof using Ht.
  intros [(fields & ft' & Hf & ? & ?)|(i & ts & ft' & ? & ? & ? & ?)].
  - left. exists fields, ft'. split_and!; [by apply fields_of_carry|done|by eapply same_carry].
  - right. exists i, ts, ft'. split_and!; [done|by eapply coerces_carry|done|by eapply same_carry].
Qed.

Lemma same_list_carry ts ts' : Forall2 (same σ) ts ts' -> Forall2 (same σ') ts ts'.
Proof using Ht. intros H. eapply Forall2_impl; [exact H|]. intros ??. by apply same_carry. Qed.

Lemma pat_carry_both Γ P P' :
  env_dead U n σ Γ -> entailed_by σ' P' P ->
  (forall p t binds, pat_typed σ Γ P p t binds -> pat_typed σ' Γ P' p t binds) /\
  (forall ps binds, pats_typed σ Γ P ps binds -> pats_typed σ' Γ P' ps binds).
Proof using Ht Hr.
  intros Hd HP. apply pat_typed_ind'.
  - intros. apply PT_wildcard.
  - intros. apply PT_var. by eapply same_carry.
  - intros span name ps t v ct args res args' binds Hv Hi Hdec Hc Hs _ IH.
    eapply PT_named; [done| |done|by eapply coerces_carry|by apply same_list_carry|done].
    eapply scheme_instance_mono; [exact HP|]. eapply scheme_instance_carry; [done..| |done].
    apply Hd, elem_of_env_schemes. exists (to_dotted_symbol name), [v], v. split_and!; [done|by left|done].
  - intros span ps t elem elems binds Hc Hs Hl _ IH.
    eapply PT_list; [by eapply coerces_carry| |done..]. intros e He'. by eapply same_carry, Hs.
  - intros. eapply PT_cons; [by eapply coerces_carry|by eapply same_carry..|done].
  - intros. eapply PT_tuple; [by eapply coerces_carry|done..].
  - intros span fields t ty_fields elems binds Hs Hf _ IH.
    eapply PT_record; [by eapply same_carry| |done].
    eapply Forall2_impl; [exact Hf|]. intros f e (ft & ? & ?). exists ft. split; [done|by eapply same_carry].
  - intros span fields t elem elems binds Hc Hs Hl _ IH.
    eapply PT_dict; [by eapply coerces_carry| |done..]. intros e He'. by eapply same_carry, Hs.
  - apply PsT_nil.
  - intros p t ps binds1 binds1' binds2 _ IH1 Hb _ IH2. eapply PsT_cons; [done| |done].
    eapply Forall2_impl; [exact Hb|]. intros ?? [? ?]. split; [done|by eapply same_carry].
Qed.

Lemma pat_carry Γ P P' p t binds :
  env_dead U n σ Γ -> entailed_by σ' P' P -> pat_typed σ Γ P p t binds -> pat_typed σ' Γ P' p t binds.
Proof using Ht Hr. intros Hd HP. by apply pat_carry_both. Qed.

Lemma generic_carry K K' Γ s :
  env_dead U n σ Γ -> (forall b, K b -> dead U n σ b /\ K' b) -> generic σ K Γ s -> generic σ' K' Γ s.
Proof using Ht Hr.
  intros Hd HK Hg b Hb. destruct (Hg b Hb) as (Hk & _ & Hf). destruct (HK b Hk) as [Hdb ?].
  split_and!; [done|by apply (dead_carry Ht)|by eapply dead_not_free].
Qed.

Lemma generic_dead K Γ s :
  (forall b, K b -> dead U n σ b) -> generic σ K Γ s -> (forall y, y ∈ scheme_vars_in σ s -> y < n) ->
  scheme_dead U n σ s.
Proof using Type. intros HK Hg Hlt. split; [|done]. intros b Hb. by apply HK, Hg. Qed.

Lemma scheme_lt_carry s :
  (forall y, y ∈ scheme_vars_in σ s -> y < n) -> forall y, y ∈ scheme_vars_in σ' s -> y < n'.
Proof using Ht Hr.
  intros Hv y (t & Hs & Hy)%elem_of_scheme_vars. eapply (vars_lt_carry Ht Hr t); [|done].
  intros z Hz. apply Hv, elem_of_scheme_vars. eauto.
Qed.

(** Well-typed expressions stay well typed while inference goes on, as long as no
    generic variable is touched. *)
Lemma typed_carry (K K' : TypeVarId -> Prop) :
  (forall b, K b -> dead U n σ b /\ K' b) ->
  forall Γ P e, typed adts n K σ Γ P e ->
  forall P', env_dead U n σ Γ -> entailed_by σ' P' P -> typed adts n' K' σ' Γ P' e.
Proof using Ht Hr.
  intros HK Γ P e Hty.
  induction Hty as [| | | | | | | | |Γ P name v t Hv Hi|Γ P name vs ts t Hv Hl Hi| |Γ P f x a t Hf IHf Hx IHx Hcf Hcx
    |Γ P name a a' b body Hb IHb Ha Hs Hc|Γ P name s d body t Hd IHd Hcd Hlt Hg Hb IHb Hcb
    |Γ P Γ' binds schemes body t HΓ Hlen Hbs Hds IHds Hb IHb Hcb|Γ P c e1 e2 t Hc IHc H1 IH1 H2 IH2 Hcc Hc1 Hc2
    |Γ P es ts Hes IHes Hts|Γ P es t Hes IHes Hcs|Γ P kvs t Hes IHes Hcs|Γ P kvs fields Hes IHes Hf Hall
    |Γ P base field base_ty t Hb IHb Hc Hp|Γ P base kvs fields t Hb IHb Hc Hf Hes IHes Hes'|
    |Γ P scrutinee arms types binds t Hs IHs Hl1 Hl2 Ha Harms IHarms]; intros P' Hdead HP;
    try (by constructor; eauto using holds_mono, holds_carry).
  - eapply T_var; [done|]. eapply scheme_instance_mono; [exact HP|]. eapply (scheme_instance_carry Ht Hr); [|done].
    apply Hdead, elem_of_env_schemes. exists name, [v], v. split_and!; [done|by left|done].
  - eapply T_overloaded; [done..|]. rewrite Forall2_same_length_lookup in Hi |- *. destruct Hi as [Hlen Hi].
    split; [done|]. intros i v t' Hv' Ht'. eapply (scheme_instance_carry Ht Hr); [|by eapply Hi].
    apply Hdead, elem_of_env_schemes. exists name, vs, v. split_and!; [done|by eapply list_elem_of_lookup_2|done].
  - eapply T_app; [by apply IHf|by apply IHx|by eapply coerces_carry..].
  - eapply T_lam; [|by apply (vars_lt_carry Ht Hr)|by eapply same_carry|by eapply coerces_carry].
    apply IHb; [|done]. apply env_dead_bind; [done|]. by apply scheme_dead_mono.
  - assert (scheme_dead U n σ s) as Hsd by (eapply generic_dead; [|done..]; intros; by apply HK).
    eapply T_let; [by apply IHd, entailed_refl|by eapply coerces_carry|by apply scheme_lt_carry
      |by eapply generic_carry|by apply IHb; [apply env_dead_bind|]|by eapply coerces_carry].
  - assert (forall i b s, binds !! i = Some b -> schemes !! i = Some s -> scheme_dead U n σ s) as Hsd.
    { intros i b s Hb' Hs'. destruct (Hbs i b s Hb' Hs') as (a & _ & _ & _ & _ & Hlt & Hg).
      eapply generic_dead; [|done..]. intros; by apply HK. }
    assert (env_dead U n σ Γ') as Hdead'.
    { intros s (name & vs & v & Hn & Hv & ->)%elem_of_env_schemes.
      destruct (decide (name ∈ map fst binds)) as [Hin|Hin].
      - apply list_elem_of_fmap in Hin as (b & -> & [i Hi]%list_elem_of_lookup).
        destruct (lookup_lt_is_Some_2 schemes i) as [s Hs]; [rewrite Hlen; by eapply lookup_lt_Some|].
        destruct (Hbs i b s Hi Hs) as (a & Ha & Hlt & _). rewrite Ha in Hn. injection Hn as <-.
        apply list_elem_of_singleton in Hv as ->. by apply scheme_dead_mono.
      - rewrite HΓ in Hn by done. apply Hdead, elem_of_env_schemes. eauto 7. }
    eapply (T_letrec _ _ _ _ _ _ Γ'); [done|done| | | |by eapply coerces_carry].
    + intros i b s Hb' Hs'. destruct (Hbs i b s Hb' Hs') as (a & Ha & Hlt & Hc & Hsame & Hlt' & Hg).
      exists a. split_and!; [done|by apply (vars_lt_carry Ht Hr)|by eapply coerces_carry|by eapply same_carry
        |by apply scheme_lt_carry|by eapply generic_carry].
    + intros i b s Hb' Hs'. eapply IHds; [done..|apply entailed_refl].
    + apply IHb; [|done]. apply env_dead_letrec; [done|]. intros s [i Hi]%list_elem_of_lookup.
      destruct (lookup_lt_is_Some_2 binds i) as [b Hb']; [rewrite <- Hlen; by eapply lookup_lt_Some|]. by eapply Hsd.
  - eapply T_ite; [by apply IHc|by apply IH1|by apply IH2|by eapply coerces_carry..].
  - eapply T_tuple; [intros e Hin; by apply IHes|]. eapply Forall2_impl; [exact Hts|]. intros ??. by apply coerces_carry.
  - eapply T_list; [intros e Hin; by apply IHes|]. intros e Hin. by eapply coerces_carry, Hcs.
  - eapply T_dict; [intros e Hin; by apply IHes|]. intros e Hin. by eapply coerces_carry, Hcs.
  - eapply T_record; [intros e Hin; by apply IHes| |done]. intros kv Hin. destruct (Hf kv Hin) as (ft & ? & ?).
    exists ft. split; [done|by eapply coerces_carry].
  - eapply T_project; [by apply IHb|by eapply coerces_carry|by apply projects_carry].
  - eapply T_update; [by apply IHb|by eapply coerces_carry|by apply fields_of_carry|intros e Hin; by apply IHes|].
    intros kv Hin. destruct (Hes' kv Hin) as (ft & ? & ?). exists ft. split; [done|by eapply coerces_carry].
  - eapply T_match; [by apply IHs|done|done| |].
    + intros i arm a bs H1 H2 H3. destruct (Ha i arm a bs H1 H2 H3) as (Hc1 & Hp & Hc2 & Hlt).
      split_and!; [by eapply coerces_carry|by eapply pat_carry|by eapply coerces_carry|].
      intros b y Hb. eapply (vars_lt_carry Ht Hr). intros z. by apply Hlt.
    + intros i arm bs H1 H3. eapply IHarms; [done..| |done]. apply env_dead_types; [done|].
      destruct (lookup_lt_is_Some_2 types i) as [a H2]; [rewrite Hl1; by eapply lookup_lt_Some|].
      by destruct (Ha i arm a bs H1 H2 H3) as (_ & _ & _ & Hlt).
Qed.
End CarryTyping.
