(* ===== verification/InferRuns.v ===== *)
(** Runs of inference, with the guarantee that they end: what the helpers of
    [infer_expr] do to the closure of the unifier and to the supply, and what their
    answers satisfy. *)

From S2P Require Import Prelude Span Types BTree Unify UnifyComplete Unifier UnifierSound.
From stdpp Require Import sorting.
From S2P Require Import Syntax Ast Adts TypedExprs TypeEnv TypeClasses LetRec Infer InferExpr Typing.

(** From a state with closure [σ] and supply [n], [m] ends; if it succeeds, closure
    and supply have moved, touching only variables in [U], and the answer satisfies
    [Q]. *)
Definition infers {A} (U : gset TypeVarId) (σ : Subst) (n : nat) (m : nat -> stateful Infer A)
    (Q : Subst -> nat -> gset TypeVarId -> A -> Prop) : Prop :=
  ready U σ n -> forall st, closure_of (i_unifier st) σ -> counter (i_supply st) = n ->
  exists r st', steps m st r st' /\
    match r with
    | Ok a => exists σ' U', closure_of (i_unifier st') σ' /\
        touch U σ n σ' (counter (i_supply st')) U' /\ Q σ' (counter (i_supply st')) U' a
    | Err _ => True
    end.

Lemma touch_trans U1 σ1 n1 σ2 n2 U2 σ3 n3 U3 :
  touch U1 σ1 n1 σ2 n2 U2 -> touch U2 σ2 n2 σ3 n3 U3 -> touch U1 σ1 n1 σ3 n3 U3.
Proof.
  intros H12 H23. pose proof (touch_le _ _ _ _ _ _ H12). pose proof (touch_le _ _ _ _ _ _ H23). split.
  - eapply extends_trans; [apply H12|apply H23].
  - apply H23.
  - lia.
  - intros x Hx HU Hn. eapply (touch_only _ _ _ _ _ _ H23); [lia| |by eapply (touch_only _ _ _ _ _ _ H12)].
    intros [?|?]%(touch_sub _ _ _ _ _ _ H12); [done|lia].
  - intros x y HU Hn. rewrite <- (touch_extends _ _ _ _ _ _ H23), vars_of_instance. intros (z & Hz & Hy).
    eapply (touch_range _ _ _ _ _ _ H23); [|by eapply settled_open, Hz; apply H12|done].
    by eapply (touch_range _ _ _ _ _ _ H12).
  - intros x [HU|?]%(touch_sub _ _ _ _ _ _ H23); [|right; lia]. by apply (touch_sub _ _ _ _ _ _ H12).
  - apply H23.
  - apply H23.
Qed.

Section Yields.
Context {A : Type} {U : gset TypeVarId} {σ : Subst} {n : nat}.

Lemma infers_ret (a : A) (Q : Subst -> nat -> gset TypeVarId -> A -> Prop) :
  Q σ n U a -> infers U σ n (fun _ => rret a) Q.
Proof using Type.
  intros HQ Hr st Hc Hn. exists (Ok a), st. split; [apply steps_ret|]. subst n.
  exists σ, U. eauto using touch_refl.
Qed.

Lemma infers_throw e (Q : Subst -> nat -> gset TypeVarId -> A -> Prop) : infers U σ n (fun _ => rthrow e) Q.
Proof using Type. intros Hr st Hc Hn. exists (Err e), st. split; [apply steps_throw|done]. Qed.

Lemma infers_then {B} (m : nat -> stateful Infer A) (k : nat -> A -> stateful Infer B) Q1 Q :
  infers U σ n m Q1 ->
  (forall σ' n' U' a, touch U σ n σ' n' U' -> Q1 σ' n' U' a -> infers U' σ' n' (fun f => k f a) Q) ->
  infers U σ n (fun f => let~ a := m f in k f a) Q.
Proof using Type.
  intros Hm Hk Hr st Hc Hn. destruct (Hm Hr st Hc Hn) as ([a|e] & st1 & H1 & H).
  - destruct H as (σ1 & U1 & Hc1 & Ht1 & HQ1).
    destruct (Hk _ _ _ _ Ht1 HQ1 (touch_ready Ht1) st1 Hc1 eq_refl) as (r & st2 & H2 & H).
    exists r, st2. split; [by eapply steps_then|]. destruct r as [b|]; [|done].
    destruct H as (σ2 & U2 & ? & ? & ?). exists σ2, U2. eauto using touch_trans.
  - exists (Err e), st1. split; [by eapply steps_then_err|done].
Qed.

Lemma infers_weaken (m : nat -> stateful Infer A) (Q Q' : Subst -> nat -> gset TypeVarId -> A -> Prop) :
  infers U σ n m Q -> (forall σ' n' U' a, touch U σ n σ' n' U' -> Q σ' n' U' a -> Q' σ' n' U' a) ->
  infers U σ n m Q'.
Proof using Type.
  intros Hm HQ Hr st Hc Hn. destruct (Hm Hr st Hc Hn) as ([a|e] & st1 & H1 & H); [|by exists (Err e), st1].
  exists (Ok a), st1. split; [done|]. destruct H as (σ' & U' & ? & ? & ?). eauto 8.
Qed.

Lemma infers_ready (m : nat -> stateful Infer A) Q : (ready U σ n -> infers U σ n m Q) -> infers U σ n m Q.
Proof using Type. intros H Hr. by apply H. Qed.

Lemma infers_S (m m' : nat -> stateful Infer A) Q :
  (forall f, m (S f) = m' f) -> infers U σ n m' Q -> infers U σ n m Q.
Proof using Type.
  intros Hm H Hr st Hc Hn. destruct (H Hr st Hc Hn) as (r & st' & Hs & ?).
  exists r, st'. split; [by eapply steps_S|done].
Qed.

(** Runs that agree once the fuel is large enough. *)
Lemma infers_eventually (k : nat) (m m' : nat -> stateful Infer A) Q :
  (forall f, k <= f -> m f = m' f) -> infers U σ n m' Q -> infers U σ n m Q.
Proof using Type.
  intros Hm H Hr st Hc Hn. destruct (H Hr st Hc Hn) as (r & st' & [N HN] & ?).
  exists r, st'. split; [|done]. exists (k + N). intros f Hf. rewrite Hm by lia. apply HN. lia.
Qed.

(** A smaller set of variables in use. *)
Lemma infers_use {B} (m : nat -> stateful Infer A) (k : nat -> A -> stateful Infer B) Q1 Q :
  infers U σ n m Q1 ->
  (forall σ' n' U' a, touch U σ n σ' n' U' -> Q1 σ' n' U' a ->
     exists U'', touch U σ n σ' n' U'' /\ infers U'' σ' n' (fun f => k f a) Q) ->
  infers U σ n (fun f => let~ a := m f in k f a) Q.
Proof using Type.
  intros Hm Hk Hr st Hc Hn. destruct (Hm Hr st Hc Hn) as ([a|e] & st1 & H1 & H).
  - destruct H as (σ1 & U1 & Hc1 & Ht1 & HQ1). destruct (Hk _ _ _ _ Ht1 HQ1) as (U'' & Ht & Hy).
    destruct (Hy (touch_ready Ht) st1 Hc1 eq_refl) as (r & st2 & H2 & H).
    exists r, st2. split; [by eapply steps_then|]. destruct r as [b|]; [|done].
    destruct H as (σ2 & U2 & ? & ? & ?). exists σ2, U2. eauto using touch_trans.
  - exists (Err e), st1. split; [by eapply steps_then_err|done].
Qed.
End Yields.

(** A run that touches few variables leaves the others alone. *)
Lemma touch_frame U σ n σ' n' U' W :
  ready W σ n -> U ⊆ W -> touch U σ n σ' n' U' -> touch W σ n σ' n' (W ∪ U').
Proof.
  intros Hr Hsub Ht. pose proof (touch_le _ _ _ _ _ _ Ht). split; try apply Ht.
  - intros x Hx HW. apply (touch_only _ _ _ _ _ _ Ht); [done|set_solver].
  - intros x y HW Hn Hy. pose proof (ready_lt _ _ _ Hr x HW) as Hlt.
    destruct (touch_var Ht x y Hlt Hn Hy) as [?|[-> _]]; set_solver.
  - intros x [?|Hx]%elem_of_union; [by left|]. destruct (touch_sub _ _ _ _ _ _ Ht x Hx); [left; set_solver|by right].
  - intros x [Hx|Hx]%elem_of_union; [|by apply (touch_lt _ _ _ _ _ _ Ht)]. pose proof (ready_lt _ _ _ Hr x Hx). lia.
Qed.

Lemma infers_frame {A} U W σ n (m : nat -> stateful Infer A) (Q Q' : Subst -> nat -> gset TypeVarId -> A -> Prop) :
  U ⊆ W -> infers U σ n m Q ->
  (ready W σ n -> forall σ' n' U' a, touch U σ n σ' n' U' -> Q σ' n' U' a -> Q' σ' n' (W ∪ U') a) -> infers W σ n m Q'.
Proof.
  intros Hsub Hm HQ Hr st Hc Hn.
  destruct (Hm) with (st := st) as ([a|e] & st1 & H1 & H); [|done..| |by exists (Err e), st1].
  { destruct Hr. split; auto. }
  exists (Ok a), st1. split; [done|]. destruct H as (σ' & U' & ? & ? & ?).
  exists σ', (W ∪ U'). split_and!; [done|by eapply touch_frame|by eauto].
Qed.

(** * The supply and the unifier *)

Lemma infers_fresh U σ n name :
  infers U σ n (fun _ => fresh_var name)
    (fun σ' n' U' t => σ' = σ /\ U ⊆ U' /\ t = TVar (TypeVar_new n name) /\ within U' σ t).
Proof.
  intros Hr st Hc Hn. subst n. exists (Ok (TVar (TypeVar_new (counter (i_supply st)) name))).
  eexists. split; [by exists 0|]. simpl. exists σ, (U ∪ {[counter (i_supply st)]}).
  pose proof (ready_new _ _ _ Hr (counter (i_supply st)) ltac:(lia)) as Hn.
  split_and!; try done; try set_solver.
  - split; try apply Hr.
    + intros t. by apply settled_idem, Hr.
    + lia.
    + done.
    + intros x y Hx Ho. rewrite vars_open by done. intros ->%elem_of_singleton. set_solver.
    + intros x [Hx|Hx%elem_of_singleton]%elem_of_union; [by left|right; lia].
    + intros x [Hx|Hx%elem_of_singleton]%elem_of_union; [pose proof (ready_lt _ _ _ Hr x Hx)|]; lia.
    + intros x Hx. apply (ready_new _ _ _ Hr). lia.
  - intros y. rewrite vars_named. simpl tv_id. rewrite vars_open by done. set_solver.
Qed.

Lemma infers_reads {A} U σ n (m : nat -> stateful Unifier A) a :
  reads anywhere σ m a -> infers U σ n (fun f => on_unifier (m f)) (fun σ' n' U' b => σ' = σ /\ n' = n /\ U' = U /\ b = a).
Proof.
  intros Hm Hr st Hc Hn. destruct (Hm _ Hc I) as (u & [N HN] & Hc' & _).
  exists (Ok a), (mkInfer u (i_supply st)). split.
  - exists N. intros f Hf. unfold on_unifier. by rewrite HN.
  - simpl. subst n. exists σ, U. split_and!; [done|by apply touch_refl|by auto..].
Qed.

Lemma infers_prune U σ n t :
  infers U σ n (fun f => prune_type f t) (fun σ' n' U' b => σ' = σ /\ n' = n /\ U' = U /\ b = subst σ t).
Proof. apply infers_reads. rewrite <- apply_subst. apply apply_type_reads. Qed.

Lemma infers_pure {A} U σ n (r : result TypeError A) (Q : Subst -> nat -> gset TypeVarId -> A -> Prop) :
  (forall a, r = Ok a -> Q σ n U a) -> infers U σ n (fun _ => pure_result r) Q.
Proof.
  intros HQ Hr st Hc Hn. exists r, st. split; [by exists 0|]. subst n. destruct r as [a|]; [|done].
  exists σ, U. split_and!; [done|by apply touch_refl|by auto..].
Qed.

Lemma infers_ok_or {A} U σ n (o : option A) e (Q : Subst -> nat -> gset TypeVarId -> A -> Prop) :
  (forall a, o = Some a -> Q σ n U a) -> infers U σ n (fun _ => ok_or o e) Q.
Proof. intros HQ. destruct o as [a|]; [apply infers_ret; auto|apply infers_throw]. Qed.

(** A pure computation with fuel, which ends. *)
Lemma infers_fueled {A} U σ n (m : nat -> fueled TypeError A) (Q : Subst -> nat -> gset TypeVarId -> A -> Prop) r :
  (exists N, forall f, N <= f -> m f = Some r) -> (forall a, r = Ok a -> Q σ n U a) ->
  infers U σ n (fun f => pure_fueled (m f)) Q.
Proof.
  intros [N HN] HQ Hr st Hc Hn. exists r, st. split.
  - exists N. intros f Hf. unfold pure_fueled. by rewrite HN.
  - subst n. destruct r as [a|]; [|done]. exists σ, U. split_and!; [done|by apply touch_refl|by auto..].
Qed.

Lemma within_mono V V' σ t : V ⊆ V' -> within V σ t -> within V' σ t.
Proof. unfold within. set_solver. Qed.

Lemma infers_unify U σ n a b :
  within U σ a -> within U σ b ->
  infers U σ n (fun f => unify_in f a b)
    (fun σ' n' U' _ => n' = n /\ U' = U /\ compat (subst σ' a) (subst σ' b)).
Proof.
  intros Ha Hb Hr st Hc Hn.
  destruct (unify_leads U (size (open_vars U σ)) _ σ a b ltac:(lia) Ha Hb (le_n _) _ Hc) as (r & u & [N HN] & H).
  exists r, (mkInfer u (i_supply st)). split.
  - exists N. intros f Hf. unfold unify_in, on_unifier. by rewrite HN.
  - destruct r as [v|]; [|done]. destruct H as (σ' & Hc' & Hm & Hs). simpl. exists σ', U. subst n.
    split_and!; try done. split; try apply Hm.
    + lia.
    + intros x _. apply (moves_only _ _ _ Hm).
    + intros x y Hx Ho Hy. eapply (moves_within _ _ _ Hm); [|exact Hy]. unfold within.
      rewrite vars_open by done. set_solver.
    + by left.
    + intros x Hx. apply (ready_lt _ _ _ Hr), Hx.
    + intros x Hx. apply (moves_only _ _ _ Hm); [|by apply (ready_new _ _ _ Hr)].
      intros HU. pose proof (ready_lt _ _ _ Hr x HU). lia.
Qed.

(** A loop, with an invariant on the moves. *)
Lemma infers_map {A B} U σ n (f : nat -> A -> stateful Infer B)
    (R : Subst -> nat -> gset TypeVarId -> A -> B -> Prop) l :
  (forall σ1 n1 U1 σ2 n2 U2 a b, touch U1 σ1 n1 σ2 n2 U2 -> ready U1 σ1 n1 -> R σ1 n1 U1 a b -> R σ2 n2 U2 a b) ->
  (forall σ' n' U' a, a ∈ l -> touch U σ n σ' n' U' -> infers U' σ' n' (fun k => f k a) (fun σ'' n'' U'' b => R σ'' n'' U'' a b)) ->
  infers U σ n (fun k => run_map (f k) l) (fun σ' n' U' bs => Forall2 (R σ' n' U') l bs).
Proof.
  intros Hcarry. revert U σ n. induction l as [|a l IH]; intros U σ n Hf; simpl.
  { apply infers_ret. constructor. }
  apply infers_ready. intros Hr.
  eapply infers_then; [apply Hf; [by left|by apply touch_refl]|]. intros σ1 n1 U1 b Ht1 H1.
  eapply infers_then.
  { apply IH. intros σ2 n2 U2 a2 Ha Ht2. apply Hf; [by right|by eapply touch_trans]. }
  intros σ2 n2 U2 bs Ht2 H2. apply infers_ret. constructor; [|done]. eapply Hcarry; [done| |done].
  by apply (touch_ready Ht1).
Qed.

(** * Instances of schemes *)

Definition fresh_set (n n' : nat) : gset TypeVarId := set_seq n (n' - n).

Lemma elem_of_fresh_set n n' x : x ∈ fresh_set n n' <-> n <= x < n'.
Proof. unfold fresh_set. rewrite elem_of_set_seq. lia. Qed.

Lemma touch_supply U σ n n' : ready U σ n -> n <= n' -> touch U σ n σ n' (U ∪ fresh_set n n').
Proof.
  intros Hr Hn. split; try apply Hr; try done.
  - intros t. by apply settled_idem, Hr.
  - intros x y Hx Ho. rewrite vars_open by done. intros ->%elem_of_singleton. set_solver.
  - intros x [Hx|Hx%elem_of_fresh_set]%elem_of_union; [by left|right; lia].
  - intros x [Hx|Hx%elem_of_fresh_set]%elem_of_union; [pose proof (ready_lt _ _ _ Hr x Hx)|]; lia.
  - intros x Hx. apply (ready_new _ _ _ Hr). lia.
Qed.

Lemma infers_supply {A} U σ n (f : TypeVarSupply -> A * TypeVarSupply)
    (Q : Subst -> nat -> gset TypeVarId -> A -> Prop) :
  (forall s, counter s = n -> n <= counter (f s).2 /\
     Q σ (counter (f s).2) (U ∪ fresh_set n (counter (f s).2)) (f s).1) ->
  infers U σ n (fun _ => on_supply f) Q.
Proof.
  intros Hf Hr st Hc Hn. specialize (Hf (i_supply st) Hn). unfold on_supply.
  destruct (f (i_supply st)) as [a s] eqn:E. simpl in Hf. destruct Hf as [Hle HQ].
  exists (Ok a), (mkInfer (i_unifier st) s). split; [exists 0; intros; by rewrite E|].
  simpl. exists σ, (U ∪ fresh_set n (counter s)). split_and!; [done|by apply touch_supply|done].
Qed.

(** A substitution of fresh variables for the identifiers [vs]. *)
Definition renames (θ : Subst) (vs : list TypeVarId) (n n' : nat) : Prop :=
  (forall x, is_Some (θ !! x) <-> x ∈ vs) /\
  forall x u, θ !! x = Some u -> exists tv, u = TVar tv /\ n <= tv_id tv < n'.

Lemma instantiate_vars_renames vs : forall θ supply n vs0,
  renames θ vs0 n (counter supply) -> n <= counter supply ->
  renames (instantiate_vars vs θ supply).1 (vs0 ++ map tv_id vs) n (counter (instantiate_vars vs θ supply).2) /\
  counter supply <= counter (instantiate_vars vs θ supply).2.
Proof.
  induction vs as [|v vs IH]; intros θ supply n vs0 [Hd Hr] Hn; simpl; [by rewrite app_nil_r|].
  rewrite (cons_middle (tv_id v)), app_assoc. edestruct IH as [H1 H2]; [| |split; [exact H1|]]; simpl in *; try lia.
  split.
  - intros x. destruct (decide (x = tv_id v)) as [->|Hne].
    + rewrite lookup_insert_eq. set_solver.
    + rewrite lookup_insert_ne by done. rewrite Hd. set_solver.
  - intros x u. destruct (decide (x = tv_id v)) as [->|Hne].
    + rewrite lookup_insert_eq. intros [= <-]. eexists. split; [done|]. simpl. lia.
    + rewrite lookup_insert_ne by done. intros Hx. destruct (Hr x u Hx) as (tv & -> & ?). exists tv. split; [done|lia].
Qed.

Lemma renames_nil n : renames ∅ [] n n.
Proof. split; [|done]. intros x. rewrite lookup_empty. split; [by intros []|by intros ?%not_elem_of_nil]. Qed.

(** The image of a type under such a substitution. *)
Lemma renames_within θ vs n n' U σ t :
  renames θ vs n n' -> ready U σ n -> (forall y, y ∈ vars (subst σ t) -> y ∉ vs -> y ∈ U) ->
  within (U ∪ fresh_set n n') σ (subst θ (subst σ t)) /\ subst σ (subst θ (subst σ t)) = subst θ (subst σ t).
Proof.
  intros [Hd Hr] Hrd HU.
  assert (forall y, y ∈ vars (subst θ (subst σ t)) -> σ !! y = None /\ y ∈ U ∪ fresh_set n n') as Hy.
  { intros y (x & Hx & Hy)%elem_of_vars_subst. destruct (θ !! x) as [u|] eqn:E.
    - destruct (Hr x u E) as (tv & -> & Hl). simpl in Hy. apply elem_of_singleton in Hy as ->.
      split; [apply (ready_new _ _ _ Hrd); lia|]. apply elem_of_union_r, elem_of_fresh_set. lia.
    - subst x. split; [by eapply settled_open, Hx; apply Hrd|]. apply elem_of_union_l, HU; [done|].
      intros Hin. apply Hd in Hin as [u Hu]. congruence. }
  assert (subst σ (subst θ (subst σ t)) = subst θ (subst σ t)) as Heq.
  { apply unbound_subst. intros y Hin. by apply Hy. }
  split; [|done]. intros y. rewrite Heq. apply Hy.
Qed.

Definition scheme_ok (U : gset TypeVarId) (n : nat) (σ : Subst) (s : Scheme) : Prop :=
  scheme_dead U n σ s /\ scheme_free σ s ⊆ U.

Lemma env_scheme_ok U n σ Γ s : env_ok U n σ Γ -> s ∈ env_schemes Γ -> scheme_ok U n σ s.
Proof.
  intros [Hd Hf] Hs. split; [by apply Hd|]. intros y Hy. apply Hf, elem_of_env_free. eauto.
Qed.

Definition preds_within (U : gset TypeVarId) (σ : Subst) (P : list Predicate) : Prop :=
  forall p, p ∈ P -> within U σ (pred_typ p).

Lemma infers_prune_preds U σ n (P : list Predicate) :
  infers U σ n (fun f => run_map (prune_pred f) P)
    (fun σ' n' U' P' => σ' = σ /\ n' = n /\ U' = U /\ P' = map (fun p => mkPredicate (pred_class p) (subst σ (pred_typ p))) P).
Proof.
  induction P as [|p P IH]; simpl; [by apply infers_ret|].
  eapply infers_then; [unfold prune_pred; eapply infers_then; [apply infers_prune|]|].
  { intros ???? _ (-> & -> & -> & ->). by apply (infers_ret (U := U) _ (fun σ' n' U' q => σ' = σ /\ n' = n /\ U' = U /\
      q = mkPredicate (pred_class p) (subst σ (pred_typ p)))). }
  intros ???? _ (-> & -> & -> & ->). eapply infers_then; [exact IH|].
  intros ???? _ (-> & -> & -> & ->). by apply infers_ret.
Qed.

Definition pruned_scheme (σ : Subst) (s : Scheme) : Scheme :=
  mkScheme (scheme_vars s) (map (fun p => mkPredicate (pred_class p) (subst σ (pred_typ p))) (scheme_preds s))
    (subst σ (scheme_typ s)).

Lemma infers_apply_scheme U σ n s :
  infers U σ n (fun f => apply_scheme_with_unifier f s)
    (fun σ' n' U' s' => σ' = σ /\ n' = n /\ U' = U /\ s' = pruned_scheme σ s).
Proof.
  unfold apply_scheme_with_unifier. eapply infers_then; [apply infers_prune_preds|].
  intros ???? _ (-> & -> & -> & ->). eapply infers_then; [apply infers_prune|].
  intros ???? _ (-> & -> & -> & ->). by apply infers_ret.
Qed.

Lemma infers_instantiate U σ n s :
  ready U σ n -> scheme_ok U n σ s ->
  infers U σ n (fun _ => instantiate_in (pruned_scheme σ s))
    (fun σ' n' U' r => σ' = σ /\ U ⊆ U' /\ scheme_instance σ s r.1 r.2 /\ preds_within U' σ r.1 /\ within U' σ r.2).
Proof.
  intros Hr [[Hb Hv] Hf]. apply infers_supply. intros supply <-.
  unfold instantiate. simpl.
  pose proof (instantiate_vars_renames (scheme_vars s) ∅ supply (counter supply) [] (renames_nil _) (le_n _)) as [Hren Hle].
  destruct (instantiate_vars (scheme_vars s) ∅ supply) as [θ supply'] eqn:E. simpl in Hren, Hle |- *.
  assert (forall t, t ∈ scheme_types s ->
    within (U ∪ fresh_set (counter supply) (counter supply')) σ (subst θ (subst σ t)) /\
    subst σ (subst θ (subst σ t)) = subst θ (subst σ t)) as Ht.
  { intros t Ht. eapply renames_within; [exact Hren|done|]. intros y Hy Hi. apply Hf, elem_of_scheme_free.
    split; [|done]. apply elem_of_scheme_vars. eauto. }
  assert (forall p, p ∈ scheme_preds s -> pred_typ p ∈ scheme_types s) as Hp.
  { intros p Hp. right. by apply list_elem_of_fmap_2. }
  split; [done|]. split_and!; [done|set_solver| | |].
  - exists θ. split_and!; [intros x Hx; by apply Hren|rewrite apply_subst; by apply Ht; left|].
    intros p Hps. exists (Predicate_apply θ (mkPredicate (pred_class p) (subst σ (pred_typ p)))).
    split_and!; [|done|simpl; rewrite apply_subst; by apply Ht, Hp].
    rewrite map_map. apply list_elem_of_fmap. exists p. done.
  - intros q Hq. rewrite map_map in Hq. apply list_elem_of_fmap in Hq as (p & -> & Hps). simpl.
    rewrite apply_subst. by apply Ht, Hp.
  - rewrite apply_subst. by apply Ht; left.
Qed.

(** * Coercions *)

(** [e'] is [e], whose type [actual] is compatible with the expected one, or [e]
    widened. *)
Definition coerced (σ : Subst) (actual expected : ty) (e e' : TypedExpr) : Prop :=
  (e' = e /\ coerces σ actual expected) \/
  exists a b, same σ actual a /\ same σ expected b /\ implicit_integer_widening a b = true /\
    e' = implicit_widen_expr a b e.

Lemma coerced_typed adts N K σ Γ P actual expected e e' :
  typed adts N K σ Γ P e -> coerces σ (te_typ e) actual -> coerced σ actual expected e e' ->
  typed adts N K σ Γ P e' /\ coerces σ (te_typ e') expected.
Proof.
  intros He Hc [[-> Hc']|(a & b & Ha & Hb & Hw & ->)].
  - split; [done|by eapply coerces_trans].
  - split; [|by apply coerces_sym, same_coerces].
    eapply T_app; [by apply T_widen|exact He|apply coerces_refl|].
    eapply coerces_trans; [done|by apply same_coerces].
Qed.

Lemma within_pruned U σ t : settled σ -> within U σ t -> within U σ (subst σ t).
Proof. intros Hs H. unfold within. by rewrite settled_idem. Qed.

Lemma same_pruned σ t : settled σ -> same σ (subst σ t) t.
Proof. intros Hs. by apply settled_idem. Qed.

Lemma infers_coerce U σ n actual expected e :
  within U σ actual -> within U σ expected ->
  infers U σ n (fun f => coerce_typed_to_expected f actual expected e)
    (fun σ' n' U' r => n' = n /\ U' = U /\ same σ' r.1 expected /\ coerced σ' actual expected e r.2).
Proof.
  intros Ha He. apply infers_ready. intros Hr. unfold coerce_typed_to_expected.
  eapply infers_then; [apply infers_prune|]. intros ???? _ (-> & -> & -> & ->).
  eapply infers_then; [apply infers_prune|]. intros ???? _ (-> & -> & -> & ->).
  pose proof (ready_settled _ _ _ Hr) as Hs.
  destruct (implicit_integer_widening _ _) eqn:Hw.
  - apply infers_ret. split_and!; [done..|by apply same_pruned|]. right. eexists _, _.
    split_and!; [by apply eq_sym, same_pruned..|done|done].
  - eapply infers_then; [apply infers_unify; by apply within_pruned|]. intros σ1 ? ? ? Ht (-> & -> & Hc).
    eapply infers_then; [apply infers_prune|]. intros ???? Ht2 (-> & -> & -> & ->).
    pose proof (touch_extends _ _ _ _ _ _ Ht) as Hext. rewrite !Hext in Hc.
    apply infers_ret. split_and!; [done..| |left; split; [done|by apply compat_coerces]].
    unfold same. simpl. rewrite Hext. by rewrite (settled_idem σ1) by apply Ht.
Qed.

Definition fun_arg (t : ty) : option ty := match t with TFun arg _ => Some arg | _ => None end.

Lemma infers_arg_hint U σ n t :
  infers U σ n (fun f => app_arg_hint f t)
    (fun σ' n' U' hint => σ' = σ /\ n' = n /\ U' = U /\ hint = fun_arg (subst σ t)).
Proof.
  eapply infers_then; [apply infers_prune|]. intros ???? _ (-> & -> & -> & ->). by apply infers_ret.
Qed.

Lemma within_arg U σ t arg : settled σ -> within U σ t -> fun_arg (subst σ t) = Some arg -> within U σ arg.
Proof.
  intros Hs Hw Ha. destruct (subst σ t) as [| | |a b| |] eqn:E; try done. injection Ha as ->.
  apply within_pruned in Hw; [|done]. rewrite E in Hw. by apply within_fun in Hw as [? _].
Qed.

Lemma infers_coerce_arg U σ n func_ty arg_ty e :
  within U σ func_ty -> within U σ arg_ty ->
  infers U σ n (fun f => coerce_app_arg_from_func_type f func_ty arg_ty e)
    (fun σ' n' U' r => σ' = σ /\ n' = n /\ U' = U /\ within U σ r.1 /\ coerced σ arg_ty r.1 e r.2).
Proof.
  intros Hf Ha. apply infers_ready. intros Hr. pose proof (ready_settled _ _ _ Hr) as Hs.
  unfold coerce_app_arg_from_func_type.
  eapply infers_then; [apply infers_prune|]. intros ???? _ (-> & -> & -> & ->).
  eapply infers_then; [apply infers_arg_hint|]. intros ???? _ (-> & -> & -> & ->).
  assert (coerced σ arg_ty (subst σ arg_ty) e e) as Hsame.
  { left. split; [done|]. by apply same_coerces, eq_sym, same_pruned. }
  destruct (fun_arg (subst σ func_ty)) as [expected|] eqn:E.
  - eapply infers_then; [apply infers_prune|]. intros ???? _ (-> & -> & -> & ->).
    apply (within_arg U) in E; [|done..].
    destruct (implicit_integer_widening _ _) eqn:Hw; apply infers_ret; split_and!; try done; try by apply within_pruned.
    right. eexists _, _. split_and!; [|done..]. by apply eq_sym, same_pruned.
  - apply infers_ret. split_and!; try done. by apply within_pruned.
Qed.

(** * Loops of unifications *)

Lemma infers_iter {A} U σ n (f : nat -> A -> stateful Infer unit) l :
  (forall σ' n' U' a, a ∈ l -> touch U σ n σ' n' U' -> n' = n -> U' = U ->
     infers U' σ' n' (fun k => f k a) (fun σ'' n'' U'' _ => n'' = n /\ U'' = U)) ->
  infers U σ n (fun k => run_iter (f k) l) (fun σ' n' U' _ => n' = n /\ U' = U).
Proof.
  intros Hf. apply infers_ready. intros Hr.
  assert (forall σ1, touch U σ n σ1 n U -> infers U σ1 n (fun k => run_iter (f k) l) (fun σ' n' U' _ => n' = n /\ U' = U)) as H.
  { induction l as [|a l IH]; intros σ1 Ht; simpl; [by apply infers_ret|].
    eapply infers_then; [apply Hf; [by left|done..]|]. intros σ2 n2 U2 ? Ht2 [-> ->].
    apply IH; [|by eapply touch_trans]. intros σ' n' U' b Hb. apply Hf. by right. }
  by apply H, touch_refl.
Qed.

(** * Literal constraints *)

Lemma elem_of_dedup_loop (P : list Predicate) : forall out p,
  p ∈ foldl (fun out pred => if decide (pred ∈ out) then out else out ++ [pred]) out P <-> p ∈ out \/ p ∈ P.
Proof.
  induction P as [|q P IH]; intros out p; simpl.
  { split; [by left|]. by intros [?|?%not_elem_of_nil]. }
  rewrite IH. case_decide; set_solver.
Qed.

Lemma elem_of_dedup_preds P p : p ∈ dedup_preds P <-> p ∈ P.
Proof. unfold dedup_preds. rewrite elem_of_dedup_loop. split; [|by right]. by intros [?%not_elem_of_nil|]. Qed.

(** [P'] is [P] with its types pruned, without duplicates perhaps. *)
Definition prunes (σ : Subst) (P P' : list Predicate) : Prop :=
  (forall p, p ∈ P -> exists q, q ∈ P' /\ pred_class q = pred_class p /\ pred_typ q = subst σ (pred_typ p)) /\
  (forall q, q ∈ P' -> exists p, p ∈ P /\ pred_class q = pred_class p /\ pred_typ q = subst σ (pred_typ p)).

Lemma prunes_map σ P : prunes σ P (map (fun p => mkPredicate (pred_class p) (subst σ (pred_typ p))) P).
Proof.
  split.
  - intros p Hp. eexists. split; [apply list_elem_of_fmap; exists p; split; [reflexivity|done]|done].
  - intros q (p & -> & Hp)%list_elem_of_fmap. eauto.
Qed.

Lemma prunes_dedup σ P P' : prunes σ P P' -> prunes σ P (dedup_preds P').
Proof.
  intros [H1 H2]. split; [intros p Hp|intros q Hq].
  - destruct (H1 p Hp) as (q & ? & ?). exists q. by rewrite elem_of_dedup_preds.
  - apply H2. by rewrite elem_of_dedup_preds in Hq.
Qed.

Lemma prunes_within U σ P P' : settled σ -> prunes σ P P' -> preds_within U σ P -> preds_within U σ P'.
Proof.
  intros Hs [_ H2] HP q Hq. destruct (H2 q Hq) as (p & Hp & _ & ->). apply within_pruned; [done|]. by apply HP.
Qed.

Lemma prunes_entailed σ P P' : settled σ -> prunes σ P P' -> entailed_by σ P' P.
Proof.
  intros Hs [H1 _] p Hp. destruct (H1 p Hp) as (q & ? & ? & Hq). exists q. split_and!; [done..|].
  rewrite Hq. by apply same_pruned.
Qed.

Lemma preds_within_app U σ P1 P2 : preds_within U σ P1 -> preds_within U σ P2 -> preds_within U σ (P1 ++ P2).
Proof. intros H1 H2 p [?|?]%elem_of_app; auto. Qed.

Lemma literal_default_closed c t : literal_default c = Some t -> vars t = ∅.
Proof. unfold literal_default. by repeat case_decide; intros [= <-]. Qed.

Lemma outside_defaults_spec ftv_ P : forall d d',
  outside_defaults ftv_ P d = Ok d' ->
  forall x t, d' !! x = Some t -> d !! x = Some t \/ (vars t = ∅ /\ exists p, p ∈ P /\ x ∈ vars (pred_typ p)).
Proof.
  induction P as [|p P IH]; intros d d'; simpl; [by intros [= ->]; left|].
  intros (d1 & Hd1 & H)%rbind_Ok x t Hx. destruct (IH _ _ H x t Hx) as [Hx1|(Hv & q & Hq & Hxq)].
  2:{ right. split; [done|]. exists q. split; [by right|done]. }
  destruct (pred_typ p) as [tv| | | | |] eqn:Et; try by injection Hd1 as <-; left.
  destruct (literal_default (pred_class p)) as [u|] eqn:Eu; [|by injection Hd1 as <-; left].
  case_decide; [by injection Hd1 as <-; left|]. unfold insert_default_type in Hd1.
  assert (d1 = <[tv_id tv := u]> d) as ->.
  { destruct (d !! tv_id tv); [case_decide|]; congruence. }
  destruct (decide (x = tv_id tv)) as [->|Hne].
  - rewrite lookup_insert_eq in Hx1. injection Hx1 as <-. right. split; [by eapply literal_default_closed|].
    exists p. split; [by left|]. rewrite Et. simpl. set_solver.
  - rewrite lookup_insert_ne in Hx1 by done. by left.
Qed.

Lemma infers_default U σ n P t :
  preds_within U σ P -> within U σ t ->
  infers U σ n (fun f => default_literal_constraints_outside_type f P t)
    (fun σ' n' U' r => n' = n /\ U' = U /\ same σ' r.2 t /\ entailed_by σ' r.1 P /\ preds_within U σ' r.1 /\ within U σ' r.2).
Proof.
  intros HP Ht. apply infers_ready. intros Hr. pose proof (ready_settled _ _ _ Hr) as Hs.
  unfold default_literal_constraints_outside_type.
  eapply infers_then; [apply infers_prune|]. intros ???? _ (-> & -> & -> & ->).
  eapply infers_then; [apply infers_prune_preds|]. intros ???? _ (-> & -> & -> & ->).
  set (P1 := dedup_preds _). assert (prunes σ P P1) as HP1 by apply prunes_dedup, prunes_map.
  eapply infers_then.
  { apply infers_pure with (Q := fun σ' n' U' d => σ' = σ /\ n' = n /\ U' = U /\
      forall x u, d !! x = Some u -> vars u = ∅ /\ x ∈ U /\ σ !! x = None).
    intros d Hd. split_and!; [done..|]. intros x u Hx.
    destruct (outside_defaults_spec _ _ _ _ Hd x u Hx) as [He|(Hv & q & Hq & Hxq)]; [by rewrite lookup_empty in He|].
    split; [done|]. pose proof (prunes_within U σ P P1 Hs HP1 HP q Hq x) as Hw.
    destruct HP1 as [_ H2]. destruct (H2 q Hq) as (p & _ & _ & E). rewrite E in Hxq, Hw.
    rewrite settled_idem in Hw by done. split; [by apply Hw|by eapply settled_open]. }
  intros σ1 n1 U1 d _ (-> & -> & -> & Hd). eapply infers_then.
  { apply infers_iter. intros σ' n' U' x _ Ht' -> ->. destruct (d !! x) as [u|] eqn:E; [|by apply infers_ret].
    destruct (Hd x u E) as (Hv & HxU & Hn). eapply infers_weaken; [apply infers_unify|naive_solver].
    - apply (within_carry Ht' Hr). intros y. rewrite vars_open by done. set_solver.
    - intros y. rewrite elem_of_vars_subst, Hv. set_solver. }
  intros σ2 n2 U2 _ Ht2 [-> ->]. pose proof (touch_settled _ _ _ _ _ _ Ht2) as Hs2.
  eapply infers_then; [apply infers_prune|]. intros ???? _ (-> & -> & -> & ->).
  eapply infers_then; [apply infers_prune_preds|]. intros ???? _ (-> & -> & -> & ->).
  pose proof (touch_extends _ _ _ _ _ _ Ht2) as He.
  assert (preds_within U σ2 P1) as HPw.
  { intros p Hp. apply (within_carry Ht2 Hr). by apply (prunes_within U σ P P1). }
  assert (prunes σ2 P1 (dedup_preds (map (fun p => mkPredicate (pred_class p) (subst σ2 (pred_typ p))) P1))) as HP2
    by apply prunes_dedup, prunes_map.
  apply infers_ret. simpl. rewrite He. split_and!; [done..|by apply same_pruned| | |].
  - eapply entailed_trans; [by apply prunes_entailed|]. eapply entailed_carry; [exact He|]. by apply prunes_entailed.
  - by eapply prunes_within.
  - apply within_pruned; [done|]. by apply (within_carry Ht2 Hr).
Qed.

(** * Generalisation *)

Lemma elem_of_preds_ftv P y : y ∈ preds_ftv P <-> exists p, p ∈ P /\ y ∈ vars (pred_typ p).
Proof.
  unfold preds_ftv. rewrite union_list_elem. unfold Predicate_ftv. by setoid_rewrite ftv_vars.
Qed.

Lemma elem_of_ftv_preds σ t P y :
  y ∈ ftv (subst σ t) ∪ preds_ftv (map (fun p => mkPredicate (pred_class p) (subst σ (pred_typ p))) P) <->
  exists u, u ∈ t :: map pred_typ P /\ y ∈ vars (subst σ u).
Proof.
  rewrite elem_of_union, ftv_vars, elem_of_preds_ftv. split.
  - intros [H|(p & (q & -> & Hq)%list_elem_of_fmap & H)]; eexists; (split; [|exact H]); [by left|].
    right. by apply list_elem_of_fmap_2.
  - intros (u & [->|(p & -> & Hp)%list_elem_of_fmap]%elem_of_cons & H); [by left|right].
    eexists. split; [apply list_elem_of_fmap; eexists; split; [reflexivity|exact Hp]|done].
Qed.

Lemma infers_scheme_ftv U σ n s :
  infers U σ n (fun f => scheme_ftv_with_unifier f s) (fun σ' n' U' r => σ' = σ /\ n' = n /\ U' = U /\ r = scheme_free σ s).
Proof.
  unfold scheme_ftv_with_unifier. eapply infers_then; [apply infers_prune|]. intros ???? _ (-> & -> & -> & ->).
  eapply infers_then; [apply infers_prune_preds|]. intros ???? _ (-> & -> & -> & ->).
  apply infers_ret. split_and!; [done..|]. apply set_eq. intros y.
  rewrite elem_of_difference, elem_of_ftv_preds, elem_of_list_to_set, elem_of_scheme_free, elem_of_scheme_vars. done.
Qed.

Lemma infers_env_ftv U σ n env :
  infers U σ n (fun f => env_ftv_with_unifier f env)
    (fun σ' n' U' r => σ' = σ /\ n' = n /\ U' = U /\ r = env_free σ (env_values env)).
Proof.
  unfold env_ftv_with_unifier. eapply (infers_then _ _ (fun σ' n' U' r => σ' = σ /\ n' = n /\ U' = U /\
    r = map (scheme_free σ) (env_schemes (env_values env)))).
  - unfold env_schemes. induction (concat _) as [|v vs IH]; simpl; [by apply infers_ret|].
    eapply infers_then; [apply infers_scheme_ftv|]. intros ???? _ (-> & -> & -> & ->).
    eapply infers_then; [exact IH|]. intros ???? _ (-> & -> & -> & ->). by apply infers_ret.
  - intros ???? _ (-> & -> & -> & ->). by apply infers_ret.
Qed.

(** The scheme of a definition of type [t] with predicates [P]. *)
Definition generalised (σ : Subst) (Γ : Values) (P : list Predicate) (t : ty) (s : Scheme) : Prop :=
  scheme_typ s = subst σ t /\ prunes σ P (scheme_preds s) /\
  forall b, b ∈ ids s <-> b ∈ scheme_vars_in σ s /\ b ∉ env_free σ Γ.

Lemma elem_of_sorted_ids X x : x ∈ sorted_ids X <-> x ∈ X.
Proof. unfold sorted_ids. by rewrite merge_sort_Permutation, elem_of_elements. Qed.

Lemma prunes_scheme_vars σ P t vs s :
  settled σ -> s = mkScheme vs (map (fun p => mkPredicate (pred_class p) (subst σ (pred_typ p))) P) (subst σ t) ->
  forall y, y ∈ scheme_vars_in σ s <-> exists u, u ∈ t :: map pred_typ P /\ y ∈ vars (subst σ u).
Proof.
  intros Hs -> y. rewrite elem_of_scheme_vars. unfold scheme_types. simpl. rewrite map_map. simpl. split.
  - intros (u & [->|(p & -> & Hp)%list_elem_of_fmap]%elem_of_cons & H); rewrite settled_idem in H by done;
      eexists; (split; [|exact H]); [by left|right; by apply list_elem_of_fmap_2].
  - intros (u & [->|(p & -> & Hp)%list_elem_of_fmap]%elem_of_cons & H); eexists; (split; [|by rewrite settled_idem]);
      [by left|right; apply list_elem_of_fmap; eauto].
Qed.

Lemma infers_generalize U σ n env P t :
  infers U σ n (fun f => generalize_with_unifier f env P t)
    (fun σ' n' U' s => σ' = σ /\ n' = n /\ U' = U /\ generalised σ (env_values env) P t s).
Proof.
  apply infers_ready. intros Hr. pose proof (ready_settled _ _ _ Hr) as Hs.
  unfold generalize_with_unifier. eapply infers_then; [apply infers_prune_preds|]. intros ???? _ (-> & -> & -> & ->).
  eapply infers_then; [apply infers_prune|]. intros ???? _ (-> & -> & -> & ->).
  eapply infers_then; [apply infers_env_ftv|]. intros ???? _ (-> & -> & -> & ->).
  apply infers_ret. split_and!; [done..|]. split; [done|]. split; [apply prunes_map|].
  intros b. rewrite (prunes_scheme_vars σ P t _ _ Hs eq_refl). unfold ids. simpl.
  rewrite map_map. simpl. rewrite map_id, elem_of_sorted_ids, elem_of_difference, elem_of_ftv_preds. done.
Qed.

Lemma infers_monomorphic U σ n P t :
  infers U σ n (fun f => monomorphic_scheme_with_unifier f P t)
    (fun σ' n' U' s => σ' = σ /\ n' = n /\ U' = U /\ scheme_vars s = [] /\ scheme_typ s = subst σ t /\
       prunes σ P (scheme_preds s)).
Proof.
  unfold monomorphic_scheme_with_unifier. eapply infers_then; [apply infers_prune_preds|]. intros ???? _ (-> & -> & -> & ->).
  eapply infers_then; [apply infers_prune|]. intros ???? _ (-> & -> & -> & ->).
  apply infers_ret. split_and!; [done..|]. apply prunes_dedup, prunes_map.
Qed.

(** * Constructors and fields *)

Definition param_ids (adt : AdtDecl) : list TypeVarId := map (fun p => tv_id (param_var p)) (adt_params adt).

(** The fields of a constructor mention only the parameters of its type. *)
Definition adts_closed (adts : gmap Symbol AdtDecl) : Prop :=
  forall name adt variant fs f y, adts !! name = Some adt -> variant ∈ adt_variants adt ->
    record_fields variant = Some fs -> f ∈ fs -> y ∈ vars f.2 -> y ∈ param_ids adt.

Lemma fresh_adt_params_renames ps : forall θ U σ n vs0 n0,
  renames θ vs0 n0 n -> n0 <= n ->
  infers U σ n (fun _ => fresh_adt_params ps θ)
    (fun σ' n' U' θ' => σ' = σ /\ n <= n' /\ U' = U ∪ fresh_set n n' /\
       renames θ' (vs0 ++ map (fun p => tv_id (param_var p)) ps) n0 n').
Proof.
  induction ps as [|p ps IH]; intros θ U σ n vs0 n0 [Hd Hr] Hn; simpl.
  { apply infers_ret. rewrite app_nil_r. split_and!; [done|lia| |done].
    apply set_eq. intros x. rewrite elem_of_union, elem_of_fresh_set. split; [by left|]. intros [?|?]; [done|lia]. }
  rewrite (cons_middle (tv_id (param_var p))), app_assoc.
  eapply (infers_then _ _ (fun σ' n' U' t => σ' = σ /\ n' = n + 1 /\ U' = U ∪ fresh_set n n' /\
    t = TVar (TypeVar_new n (tv_name (param_var p))))).
  { unfold fresh_var. apply infers_supply. intros s <-. simpl. split_and!; [lia|done..]. }
  intros ???? _ (-> & -> & -> & ->). eapply infers_weaken; [apply (IH _ _ _ _ (vs0 ++ [tv_id (param_var p)]) n0)|].
  - split.
    + intros x. destruct (decide (x = tv_id (param_var p))) as [->|Hne].
      * rewrite lookup_insert_eq. set_solver.
      * rewrite lookup_insert_ne by done. rewrite Hd. set_solver.
    + intros x u. destruct (decide (x = tv_id (param_var p))) as [->|Hne].
      * rewrite lookup_insert_eq. intros [= <-]. eexists. split; [done|]. simpl. lia.
      * rewrite lookup_insert_ne by done. intros Hx. destruct (Hr x u Hx) as (tv & -> & ?). exists tv. split; [done|lia].
  - lia.
  - intros σ' n' U' θ' _ (-> & Hle & -> & Hren). split_and!; [done|lia| |done].
    apply set_eq. intros x. rewrite !elem_of_union, !elem_of_fresh_set. split; [intros [[?|?]|?]|intros [?|?]]; auto.
    + right. lia.
    + right. lia.
    + destruct (decide (x = n)); [left; right|right]; lia.
Qed.

Lemma result_type_vars adt y : y ∈ vars (result_type adt) -> y ∈ param_ids adt.
Proof.
  unfold result_type, param_ids. assert (forall ps t, y ∈ vars (foldl (fun t p => TApp t (TVar (param_var p))) t ps) ->
    y ∈ vars t \/ y ∈ map (fun p => tv_id (param_var p)) ps) as H.
  { induction ps as [|p ps IH]; intros t; simpl; [by left|]. intros [Hy|Hy]%IH; [|right; by right].
    simpl in Hy. apply elem_of_union in Hy as [?| ->%elem_of_singleton]; [by left|right; by left]. }
  intros [Hy|Hy]%H; [|done]. unfold Type_con in Hy. exfalso. revert Hy. destruct (from_name _); [case_decide|]; simpl; apply not_elem_of_empty.
Qed.

(** Fields of a constructor at fresh parameters. *)
Definition fields_at (θ : Subst) (fields fs : list (Symbol * ty)) : Prop :=
  Forall2 (fun f g => f.1 = g.1 /\ f.2 = subst θ g.2) fields fs.

Lemma infers_variant_fields adts name adt variant U σ n :
  adts_closed adts -> adts !! name = Some adt -> variant ∈ adt_variants adt ->
  infers U σ n (fun _ => instantiate_variant_fields adt variant)
    (fun σ' n' U' r => σ' = σ /\ U ⊆ U' /\ match r with
       | None => True
       | Some (result_ty, fields) => exists θ fs, record_fields variant = Some fs /\
           result_ty = subst θ (result_type adt) /\ fields_at θ fields fs /\
           within U' σ result_ty /\ forall f, f ∈ fields -> within U' σ f.2
       end).
Proof.
  intros Hcl Hadt Hv. apply infers_ready. intros Hr. unfold instantiate_variant_fields.
  destruct (record_fields variant) as [fs|] eqn:Ef; [|by apply infers_ret].
  eapply infers_then; [apply (fresh_adt_params_renames _ _ _ _ _ [] n); [apply renames_nil|lia]|].
  intros σ1 n1 U1 θ _ (-> & Hle & -> & Hren). apply infers_ret.
  assert (forall t, (forall y, y ∈ vars t -> y ∈ param_ids adt) -> within (U ∪ fresh_set n n1) σ (subst θ t)) as Hw.
  { intros t Ht. intros y. rewrite elem_of_vars_subst. intros (x & Hx & Hy).
    apply elem_of_vars_subst in Hx as (z & Hz & Hx). apply Ht in Hz. destruct Hren as [Hd Hrr].
    destruct (θ !! z) as [u|] eqn:Ez.
    - destruct (Hrr z u Ez) as (tv & -> & Hl). simpl in Hx. apply elem_of_singleton in Hx as ->.
      rewrite (ready_new _ _ _ Hr) in Hy by lia. subst y. apply elem_of_union_r, elem_of_fresh_set. lia.
    - apply Hd in Hz as [u Hu]. congruence. }
  split_and!; [done|set_solver|]. exists θ, fs. rewrite !apply_subst. split_and!; [done|done| | |].
  - unfold fields_at. clear. induction fs as [|f fs IH]; simpl; constructor; [|done]. by rewrite apply_subst.
  - apply Hw. intros y. apply result_type_vars.
  - intros f (g & -> & Hg)%list_elem_of_fmap. simpl. rewrite apply_subst. apply Hw. intros y. by eapply Hcl.
Qed.

Lemma elem_of_map_values {V} (m : gmap Symbol V) v : v ∈ map_values m -> exists k, m !! k = Some v.
Proof.
  unfold map_values. intros ([k w] & -> & Hk)%list_elem_of_fmap. apply sort_by_key_elem in Hk.
  exists k. by apply elem_of_map_to_list.
Qed.

Definition declares (adts : gmap Symbol AdtDecl) (adt : AdtDecl) (variant : AdtVariant) : Prop :=
  exists name, adts !! name = Some adt /\ variant ∈ adt_variants adt.

Lemma select_record_variant_declares adts base_ty known field ok_fields adt variant :
  select_record_variant adts base_ty known field ok_fields = Ok (adt, variant) -> declares adts adt variant.
Proof.
  unfold select_record_variant. intros H. destruct known as [info|].
  - destruct (adts !! known_adt info) as [adt'|] eqn:E; [|done].
    destruct (find _ _) as [v|] eqn:Ef; [|done]. injection H as -> ->. exists (known_adt info).
    split; [done|]. apply find_some in Ef as [Hin _]. by apply list_elem_of_In.
  - destruct (type_head_name base_ty) as [name|].
    + destruct (adts !! name) as [adt'|] eqn:E; [|done].
      destruct (adt_variants adt') as [|v [|]] eqn:Ev; try done. injection H as -> ->.
      exists name. split; [done|]. rewrite Ev. by left.
    + destruct (is_var base_ty); [|done]. destruct (omap _ _) as [|c [|]] eqn:Eo; try done.
      injection H as ->. assert ((adt, variant) ∈ [(adt, variant)]) as Hin by by left. rewrite <- Eo in Hin.
      apply list_elem_of_omap in Hin as (adt' & [k Hk]%elem_of_map_values & Ho).
      destruct (adt_variants adt') as [|v [|]] eqn:Ev; try done.
      destruct (record_fields v); [|done]. destruct (ok_fields _); [|done]. injection Ho as -> ->.
      exists k. split; [done|]. rewrite Ev. by left.
Qed.

Lemma ctor_lookup_declares adts name adt variant :
  ctor_lookup adts name = Some (adt, variant) -> declares adts adt variant.
Proof.
  unfold ctor_lookup. assert (forall l found, (forall a, a ∈ l -> exists k, adts !! k = Some a) ->
    (forall av, found = Some av -> declares adts av.1 av.2) ->
    ctor_lookup_loop l name found = Some (adt, variant) -> declares adts adt variant) as H.
  { induction l as [|a l IH]; intros found Hl Hf; simpl; [intros E; by apply (Hf (adt, variant))|].
    destruct (find _ _) as [v|] eqn:Ef; [|apply IH; [intros b Hb; apply Hl; by right|done]].
    destruct (Hl a ltac:(by left)) as [k Hk]. apply find_some in Ef as [Hv%list_elem_of_In _].
    case_decide; [intros [= -> ->]; by exists k|]. destruct found; [done|]. apply IH; [intros b Hb; apply Hl; by right|].
    intros av [= <-]. by exists k. }
  apply H; [by intros a Ha; apply elem_of_map_values|done].
Qed.

Lemma infers_prune_fields U σ n (fields : list (Symbol * ty)) :
  infers U σ n (fun k => run_map (fun f => let~ t := prune_type k f.2 in rret (f.1, t)) fields)
    (fun σ' n' U' r => σ' = σ /\ n' = n /\ U' = U /\ r = map (fun f => (f.1, subst σ f.2)) fields).
Proof.
  induction fields as [|f fields IH]; simpl; [by apply infers_ret|].
  eapply (infers_then _ _ (fun σ' n' U' r => σ' = σ /\ n' = n /\ U' = U /\ r = (f.1, subst σ f.2))).
  { eapply infers_then; [apply infers_prune|]. intros ???? _ (-> & -> & -> & ->). by apply infers_ret. }
  intros ???? _ (-> & -> & -> & ->). eapply infers_then; [exact IH|].
  intros ???? _ (-> & -> & -> & ->). by apply infers_ret.
Qed.

Lemma fields_at_of adts adt variant σ t result_ty fields θ fs :
  declares adts adt variant -> record_fields variant = Some fs ->
  result_ty = subst θ (result_type adt) -> fields_at θ fields fs -> coerces σ t result_ty ->
  fields_of adts σ t fields.
Proof.
  intros (name & ? & ?) Hf -> Hfs Hc. right. exists name, adt, variant, θ, fs. split_and!; [done..|].
  eapply Forall2_impl; [exact Hfs|]. intros f g [? ->]. done.
Qed.

Lemma fields_of_pruned adts σ t fields :
  settled σ -> fields_of adts σ t fields -> fields_of adts σ t (map (fun f => (f.1, subst σ f.2)) fields).
Proof.
  intros Hs [H|(name & adt & variant & θ & fs & ? & ? & ? & Hc & Hf)].
  - left. unfold same in *. rewrite H. simpl. f_equal. rewrite map_map. apply map_ext. intros f. simpl. by rewrite settled_idem.
  - right. exists name, adt, variant, θ, fs. split_and!; [done..|]. apply Forall2_fmap_l.
    eapply Forall2_impl; [exact Hf|]. intros f g [? Hfg]. split; [done|]. simpl. unfold same in *. by rewrite settled_idem.
Qed.

Lemma fields_of_same adts σ t t' fields : same σ t t' -> fields_of adts σ t fields -> fields_of adts σ t' fields.
Proof.
  intros Ht [H|(name & adt & variant & θ & fs & ? & ? & ? & Hc & Hf)]; [left; unfold same in *; congruence|right].
  exists name, adt, variant, θ, fs. split_and!; [done..| |done]. unfold coerces, same in *. by rewrite <- Ht.
Qed.

(** The constructor is selected and instantiated. *)
Lemma infers_select {B} adts U σ n (r : result TypeError (AdtDecl * AdtVariant)) e
    (k : nat -> ty * list (Symbol * ty) -> stateful Infer B) Q :
  adts_closed adts -> (forall adt variant, r = Ok (adt, variant) -> declares adts adt variant) ->
  (forall n1 U1 result_ty fields,
     touch U σ n σ n1 U1 -> within U1 σ result_ty -> (forall f, f ∈ fields -> within U1 σ f.2) ->
     (forall σ2 t, coerces σ2 t result_ty -> fields_of adts σ2 t fields) ->
     infers U1 σ n1 (fun f => k f (result_ty, fields)) Q) ->
  infers U σ n (fun f =>
    let~ (adt, variant) := pure_result r in
    let~ inst := instantiate_variant_fields adt variant in
    let~ rf := ok_or inst e in k f rf) Q.
Proof.
  intros Hcl Hr Hk. eapply (infers_then _ _ (fun σ' n' U' av => σ' = σ /\ n' = n /\ U' = U /\ r = Ok av)).
  { by apply infers_pure. }
  intros ???[adt variant] _ (-> & -> & -> & ->). destruct (Hr _ _ eq_refl) as (name & Hadt & Hv).
  eapply infers_then; [by eapply infers_variant_fields|]. intros σ1 n1 U1 inst Ht (-> & HU & Hi).
  eapply (infers_then _ _ (fun σ' n' U' rf => σ' = σ /\ n' = n1 /\ U' = U1 /\ inst = Some rf)); [by apply infers_ok_or|].
  intros ???[result_ty fields] _ (-> & -> & -> & ->). destruct Hi as (θ & fs & Hf & -> & Hfs & Hw & Hws).
  apply Hk; [done..|]. intros σ2 t Hc. eapply fields_at_of; [by exists name|done..].
Qed.

Lemma infers_update_general adts U σ n base_ty known names :
  adts_closed adts -> within U σ base_ty ->
  infers U σ n (fun f =>
      let~ (adt, variant) := pure_result (select_record_variant adts base_ty known (default "_" (head names))
        (fun fields => forallb (has_field fields) names)) in
      let~ inst := instantiate_variant_fields adt variant in
      let~ (result_ty, fields) := ok_or inst (UnknownField (default "_" (head names)) (show_ty base_ty)) in
      match find (fun field => negb (has_field fields field)) names with
      | Some field => rthrow (UnknownField field (show_ty base_ty))
      | None =>
          let~ _ := unify_in f base_ty result_ty in
          let~ result_ty := prune_type f result_ty in
          let~ fields := run_map (fun g => let~ t := prune_type f g.2 in rret (g.1, t)) fields in
          rret (result_ty, fields)
      end)
    (fun σ' n' U' r => coerces σ' base_ty r.1 /\ fields_of adts σ' r.1 r.2 /\ within U' σ' r.1 /\
       forall f, f ∈ r.2 -> within U' σ' f.2).
Proof.
  intros Hcl Hb. apply infers_ready. intros Hr.
  apply (infers_select adts U σ n _ _ (fun f rf =>
      let '(result_ty, fields) := rf in
      match find (fun field => negb (has_field fields field)) names with
      | Some field => rthrow (UnknownField field (show_ty base_ty))
      | None =>
          let~ _ := unify_in f base_ty result_ty in
          let~ result_ty := prune_type f result_ty in
          let~ fields := run_map (fun g => let~ t := prune_type f g.2 in rret (g.1, t)) fields in
          rret (result_ty, fields)
      end)); [done|intros ??; apply select_record_variant_declares|].
  intros n1 U1 result_ty fields Ht Hw Hws Hof. destruct (find _ _); [apply infers_throw|].
  eapply infers_then; [apply infers_unify; [by apply (within_carry Ht Hr)|done]|].
  intros σ2 ? ? _ Ht2 (-> & -> & Hc%compat_coerces). pose proof (touch_settled _ _ _ _ _ _ Ht2) as Hs2.
  pose proof (touch_ready Ht) as Hr1.
  eapply infers_then; [apply infers_prune|]. intros ???? _ (-> & -> & -> & ->).
  eapply infers_then; [apply infers_prune_fields|]. intros ???? _ (-> & -> & -> & ->).
  apply infers_ret. simpl. split_and!.
  - eapply coerces_trans; [exact Hc|]. by apply same_coerces, eq_sym, same_pruned.
  - apply fields_of_pruned; [done|]. by apply Hof, same_coerces, same_pruned.
  - apply within_pruned; [done|]. by apply (within_carry Ht2 Hr1).
  - intros f (g & -> & Hg)%list_elem_of_fmap. simpl. apply within_pruned; [done|]. by apply (within_carry Ht2 Hr1), Hws.
Qed.

Lemma infers_resolve_update adts U σ n base_ty known names :
  adts_closed adts -> within U σ base_ty ->
  infers U σ n (fun f => resolve_record_update f adts base_ty known names)
    (fun σ' n' U' r => coerces σ' base_ty r.1 /\ fields_of adts σ' r.1 r.2 /\ within U' σ' r.1 /\
       forall f, f ∈ r.2 -> within U' σ' f.2).
Proof.
  intros Hcl Hb. destruct base_ty as [| | | | |fields]; try by apply infers_update_general.
  apply infers_ret. simpl. rewrite within_record in Hb. split_and!; [apply coerces_refl|by left|by apply within_record|done].
Qed.

Lemma infers_seq_fresh U σ n (k : nat) (name : nat -> option Symbol) :
  infers U σ n (fun _ => run_map (fun i => fresh_var (name i)) (seq 0 k))
    (fun σ' n' U' ts => σ' = σ /\ U ⊆ U' /\ length ts = k /\ forall t, t ∈ ts -> within U' σ t).
Proof.
  assert (forall l U n, infers U σ n (fun _ => run_map (fun i => fresh_var (name i)) l)
    (fun σ' n' U' ts => σ' = σ /\ U ⊆ U' /\ length ts = length l /\ forall t, t ∈ ts -> within U' σ t)) as H.
  { clear U n. induction l as [|i l IH]; intros U n; simpl.
    { apply infers_ret. split_and!; [done..|]. by intros t ?%not_elem_of_nil. }
    eapply infers_then; [apply infers_fresh|]. intros ? n1 U1 ? _ (-> & HU & -> & Hw).
    eapply infers_then; [apply IH|]. intros ? n2 U2 ts _ (-> & HU2 & Hl & Hts). apply infers_ret.
    split_and!; [done|set_solver|simpl; by rewrite Hl|]. intros t [->|Ht]%elem_of_cons; [|by apply Hts].
    by eapply within_mono. }
  specialize (H (seq 0 k) U n). by rewrite length_seq in H.
Qed.

Lemma find_field_elem fields field t : find_field fields field = Some t -> exists f, f ∈ fields /\ f.1 = field /\ f.2 = t.
Proof.
  unfold find_field. intros (f & [Hf Hn%bool_decide_eq_true]%find_some & ->)%fmap_Some.
  exists f. split_and!; [by apply list_elem_of_In|done..].
Qed.

Lemma infers_resolve_projection adts U σ n base_ty known field :
  adts_closed adts -> within U σ base_ty ->
  infers U σ n (fun f => resolve_projection f adts base_ty known field)
    (fun σ' n' U' t => projects adts σ' base_ty field t /\ within U' σ' t).
Proof.
  intros Hcl Hb. apply infers_ready. intros Hr. pose proof (ready_settled _ _ _ Hr) as Hs.
  unfold resolve_projection. destruct (parse_usize field) as [index|] eqn:Ei.
  - assert (forall m : nat -> stateful Infer ty,
      infers U σ n m (fun σ' n' U' t => within U' σ' t /\
        exists ts, coerces σ' base_ty (TTuple ts) /\ ts !! N.to_nat index = Some t) ->
      infers U σ n (fun f => let~ t := m f in prune_type f t)
        (fun σ' n' U' t => projects adts σ' base_ty field t /\ within U' σ' t)) as Hend.
    { intros m Hm. eapply infers_then; [exact Hm|]. intros σ1 n1 U1 t Ht (Hw & ts & Hc & Ht').
      pose proof (touch_settled _ _ _ _ _ _ Ht) as Hs1.
      eapply infers_weaken; [apply infers_prune|]. intros ???? _ (-> & -> & -> & ->).
      split; [|by apply within_pruned]. right. exists index, ts, t. split_and!; [done..|by apply same_pruned]. }
    destruct base_ty as [tv| | | |ts|fields]; try (apply (Hend (fun _ => rthrow _)), infers_throw).
    + apply (Hend (fun f => let~ elems := run_map (fun _ => fresh_var (Some "t")) (seq 0 (S (N.to_nat index))) in
        let~ _ := unify_in f (TVar tv) (TTuple elems) in
        match elems !! N.to_nat index with Some t => rret t | None => rthrow _ end)).
      eapply infers_then; [apply (infers_seq_fresh U σ n _ (fun _ => Some "t"))|].
      intros ? n1 U1 elems Ht (-> & HU & Hl & He).
      eapply infers_then; [apply infers_unify; [by eapply within_mono|by apply within_tuple]|].
      intros σ2 ? ? _ Ht2 (-> & -> & Hc%compat_coerces). destruct (elems !! _) as [t|] eqn:Et; [|apply infers_throw].
      apply infers_ret. split; [|by eexists]. apply (within_carry Ht2 (touch_ready Ht)), He.
      by eapply list_elem_of_lookup_2.
    + apply (Hend (fun _ => match ts !! N.to_nat index with Some t => rret t | None => rthrow _ end)).
      destruct (ts !! _) as [t|] eqn:Et; [|apply infers_throw]. apply infers_ret.
      rewrite within_tuple in Hb. split; [by apply Hb; eapply list_elem_of_lookup_2|]. exists ts.
      split; [apply coerces_refl|done].
    + destruct (find_field fields field) as [t|] eqn:Ef; [|apply infers_throw].
      eapply infers_weaken; [apply infers_prune|]. intros ???? _ (-> & -> & -> & ->).
      rewrite within_record in Hb. destruct (find_field_elem _ _ _ Ef) as (g & Hg & _ & <-).
      split; [|by apply within_pruned, Hb]. left. exists fields, g.2. split_and!; [by left|done|by apply same_pruned].
  - assert (forall fields, base_ty = TRecord fields ->
      infers U σ n (fun f => match find_field fields field with
        | Some t => prune_type f t | None => rthrow (UnknownField field (show_ty base_ty)) end)
        (fun σ' n' U' t => projects adts σ' base_ty field t /\ within U' σ' t)) as Hrec.
    { intros fields ->. destruct (find_field fields field) as [t|] eqn:Ef; [|apply infers_throw].
      eapply infers_weaken; [apply infers_prune|]. intros ???? _ (-> & -> & -> & ->).
      rewrite within_record in Hb. destruct (find_field_elem _ _ _ Ef) as (g & Hg & _ & <-).
      split; [|by apply within_pruned, Hb]. left. exists fields, g.2. split_and!; [by left|done|by apply same_pruned]. }
    assert (infers U σ n (fun f =>
      let~ (adt, variant) := pure_result (select_record_variant adts base_ty known field (fun fields => has_field fields field)) in
      let~ inst := instantiate_variant_fields adt variant in
      let~ (result_ty, fields) := ok_or inst (UnknownField field (show_ty base_ty)) in
      let~ field_ty := ok_or (find_field fields field) (UnknownField field (show_ty base_ty)) in
      let~ _ := unify_in f base_ty result_ty in prune_type f field_ty)
        (fun σ' n' U' t => projects adts σ' base_ty field t /\ within U' σ' t)) as Hgen.
    { apply (infers_select adts U σ n _ _ (fun f rf => let '(result_ty, fields) := rf in
        let~ field_ty := ok_or (find_field fields field) (UnknownField field (show_ty base_ty)) in
        let~ _ := unify_in f base_ty result_ty in prune_type f field_ty)); [done|intros ??; apply select_record_variant_declares|].
      intros n1 U1 result_ty fields Ht Hw Hws Hof. pose proof (touch_ready Ht) as Hr1.
      eapply (infers_then _ _ (fun σ' n' U' t => σ' = σ /\ n' = n1 /\ U' = U1 /\ find_field fields field = Some t));
        [by apply infers_ok_or|]. intros ? ? ? ft _ (-> & -> & -> & Ef).
      eapply infers_then; [apply infers_unify; [by apply (within_carry Ht Hr)|done]|].
      intros σ2 ? ? _ Ht2 (-> & -> & Hc%compat_coerces). pose proof (touch_settled _ _ _ _ _ _ Ht2) as Hs2.
      eapply infers_weaken; [apply infers_prune|]. intros ???? _ (-> & -> & -> & ->).
      destruct (find_field_elem _ _ _ Ef) as (g & Hg & _ & <-).
      split; [|by apply within_pruned, (within_carry Ht2 Hr1), Hws].
      left. exists fields, g.2. split_and!; [by apply Hof|done|by apply same_pruned]. }
    destruct base_ty as [tv| | | |ts|fields]; try exact Hgen. by apply Hrec.
Qed.
