(* ===== verification/InferPattern.v ===== *)
(** Inference of patterns: the bindings of a pattern have the types that the
    scrutinee gives them. *)

From S2P Require Import Prelude Span Types BTree Unify UnifyComplete Unifier UnifierSound.
From S2P Require Import Syntax Ast Adts TypedExprs TypeEnv TypeClasses LetRec Infer InferExpr Typing InferRuns.

(** * Patterns *)

Lemma infers_spanning {A} U σ n span (m : nat -> stateful Infer A) Q :
  infers U σ n m Q -> infers U σ n (fun f => spanning span (m f)) Q.
Proof.
  intros Hm Hr st Hc Hn. destruct (Hm Hr st Hc Hn) as (r & st' & [N HN] & H).
  exists (spanned span r), st'. split; [|by destruct r].
  exists N. intros f Hf. unfold spanning. by rewrite HN.
Qed.

Definition binds_within (U : gset TypeVarId) (σ : Subst) (binds : list (Symbol * ty)) : Prop :=
  forall b, b ∈ binds -> within U σ b.2.

Lemma pats_typed_same σ Γ P ps binds :
  pats_typed σ Γ P ps binds -> forall binds', Forall2 (fun b' b => b'.1 = b.1 /\ same σ b'.2 b.2) binds' binds ->
  pats_typed σ Γ P ps binds'.
Proof.
  induction ps as [|[p t] ps IH] in binds |- *; intros Hp binds' Hb; inversion Hp as [|? ? ? bs1 bs1' bs2 Hpt Hsame Hps]; subst.
  - apply Forall2_nil_inv_r in Hb as ->. constructor.
  - apply Forall2_app_inv_r in Hb as (b1 & b2 & H1 & H2 & ->). eapply PsT_cons; [done| |by eapply IH].
    rewrite Forall2_same_length_lookup in H1. rewrite Forall2_same_length_lookup.
    rewrite Forall2_same_length_lookup in Hsame. destruct Hsame as [Hl H], H1 as [Hl1 H1]. split; [congruence|]. intros i x y Hx Hy.
    destruct (lookup_lt_is_Some_2 bs1' i) as [z Hz]; [rewrite <- Hl1; by eapply lookup_lt_Some|].
    destruct (H1 _ _ _ Hx Hz), (H _ _ _ Hz Hy). unfold same in *. split; congruence.
Qed.

Lemma infers_prune_binds U σ n binds :
  infers U σ n (fun f => prune_binds f binds)
    (fun σ' n' U' r => σ' = σ /\ n' = n /\ U' = U /\ r = map (fun b => (b.1, subst σ b.2)) binds).
Proof. apply infers_prune_fields. Qed.

Lemma pruned_binds_same σ (binds : list (Symbol * ty)) :
  settled σ -> Forall2 (fun b' b => b'.1 = b.1 /\ same σ b'.2 b.2) (map (fun b => (b.1, subst σ b.2)) binds) binds.
Proof.
  intros Hs. induction binds as [|b binds IH]; simpl; constructor; [|done]. split; [done|]. by apply same_pruned.
Qed.

Lemma pruned_binds_within U σ binds :
  settled σ -> binds_within U σ binds -> binds_within U σ (map (fun b => (b.1, subst σ b.2)) binds).
Proof. intros Hs H b (b' & -> & Hb)%list_elem_of_fmap. by apply within_pruned, H. Qed.

Section Patterns.
Context (env : TypeEnv).
Let Γ := env_values env.

Definition pattern_inferred (p : Pattern) : Prop := forall U σ n t,
  env_ok U n σ Γ -> within U σ t ->
  infers U σ n (fun f => infer_pattern f env p t)
    (fun σ' n' U' r => pat_typed σ' Γ r.1 p t r.2 /\ preds_within U' σ' r.1 /\ binds_within U' σ' r.2).

(** The type of a part is computed, and satisfies [b]. *)
Definition part_type (U : gset TypeVarId) (σ : Subst) (n : nat) (m : nat -> stateful Infer ty)
    (b : Subst -> ty -> Prop) : Prop :=
  (forall σ1 σ2 t, extends σ1 σ2 -> b σ1 t -> b σ2 t) /\ forall σ' n' U', touch U σ n σ' n' U' ->
    infers U' σ' n' m (fun σ'' n'' U'' t => σ'' = σ' /\ n'' = n' /\ U'' = U' /\ within U' σ' t /\ b σ' t).

Lemma part_type_carry U σ n σ' n' U' m b :
  touch U σ n σ' n' U' -> part_type U σ n m b -> part_type U' σ' n' m b.
Proof using Type. intros Ht [Hb Hm]. split; [done|]. intros. by eapply Hm, touch_trans. Qed.

Lemma part_prune U σ n t : ready U σ n -> within U σ t -> part_type U σ n (fun f => prune_type f t) (fun σ' u => same σ' u t).
Proof using Type.
  intros Hr Hb. split; [intros ???; apply same_carry|]. intros σ' n' U' Ht. eapply infers_weaken; [apply infers_prune|].
  intros ???? _ (-> & -> & -> & ->). pose proof (touch_settled _ _ _ _ _ _ Ht).
  split_and!; [done..|by apply within_pruned, (within_carry Ht Hr)|by apply same_pruned].
Qed.

Lemma part_ret U σ n t : ready U σ n -> within U σ t -> part_type U σ n (fun _ => rret t) (fun σ' u => same σ' u t).
Proof using Type.
  intros Hr Hb. split; [intros ???; apply same_carry|]. intros σ' n' U' Ht. apply infers_ret.
  split_and!; [done..|by apply (within_carry Ht Hr)|done].
Qed.

Lemma infers_parts parts : forall bs acc U σ n,
  Forall (fun part => pattern_inferred part.1) parts ->
  Forall2 (fun part b => part_type U σ n part.2 b) parts bs -> env_ok U n σ Γ ->
  infers U σ n (fun f => infer_parts (infer_pattern f env) (map (fun part => (part.1, part.2 f)) parts) acc)
    (fun σ' n' U' r => exists P binds ts, r = (acc.1 ++ P, acc.2 ++ binds) /\ Forall2 (fun t b => b σ' t) ts bs /\
       pats_typed σ' Γ P (zip (map fst parts) ts) binds /\ preds_within U' σ' P /\ binds_within U' σ' binds).
Proof using Type.
  induction parts as [|[p m] parts IH]; intros bs acc U σ n Hp Hbs Hok; simpl; apply infers_ready; intros Hr.
  { apply Forall2_nil_inv_l in Hbs as ->. apply infers_ret. exists [], [], []. rewrite !app_nil_r.
    split_and!; [by destruct acc|constructor|constructor|by intros ? ?%not_elem_of_nil..]. }
  apply Forall_cons in Hp as [Hp Hps]. apply Forall2_cons_inv_l in Hbs as (b & bs' & [Hb Hm] & Hbs & ->). simpl.
  eapply infers_then; [by apply Hm, touch_refl|]. intros ? ? ? t _ (-> & -> & -> & Hw & Ht).
  eapply infers_then; [by apply Hp|].
  intros σ1 n1 U1 [P1 binds1] Ht1 (Hpt & HP1 & Hb1). simpl in Hpt, HP1, Hb1. pose proof (touch_ready Ht1) as Hr1.
  pose proof (env_ok_carry Ht1 Hr _ Hok) as Hok1.
  eapply infers_weaken; [apply (IH bs'); [done| |done]|].
  { eapply Forall2_impl; [exact Hbs|]. intros ??. by apply part_type_carry. }
  intros σ2 n2 U2 r Ht2 (P2 & binds2 & ts & -> & Hts & Hpts & HP2 & Hb2). simpl.
  pose proof (env_ok_carry Ht2 Hr1 _ Hok1) as Hok2. pose proof (touch_ready Ht2) as Hr2.
  exists (P1 ++ P2), (binds1 ++ binds2), (t :: ts). rewrite <- !app_assoc. split_and!; [done| | | |].
  - constructor; [|done]. eapply Hb; [|exact Ht]. eapply extends_trans; [apply Ht1|apply Ht2].
  - simpl. eapply PsT_cons.
    + eapply (pat_carry Ht2 Hr1 _ P1); [apply Hok1|apply entailed_subset; set_solver|exact Hpt].
    + clear. induction binds1; by constructor.
    + eapply (proj2 (pat_carry_both (touch_refl _ _ _ Hr2) Hr2 _ P2 (P1 ++ P2) (proj1 Hok2) ltac:(apply entailed_subset; set_solver))).
      exact Hpts.
  - apply preds_within_app; [|done]. intros q Hq. by apply (within_carry Ht2 Hr1), HP1.
  - intros b' [Hin|Hin]%elem_of_app; [by apply (within_carry Ht2 Hr1), Hb1|by apply Hb2].
Qed.

(** The parts of a pattern, and the pruning of their bindings. *)
Lemma infers_all_parts parts bs P0 U σ n :
  Forall (fun part => pattern_inferred part.1) parts ->
  Forall2 (fun part b => part_type U σ n part.2 b) parts bs -> env_ok U n σ Γ -> preds_within U σ P0 ->
  infers U σ n (fun f =>
    let~ (preds, binds) := infer_parts (infer_pattern f env) (map (fun part => (part.1, part.2 f)) parts) (P0, []) in
    let~ binds := prune_binds f binds in rret (preds, binds))
    (fun σ' n' U' r => exists ts, Forall2 (fun t b => b σ' t) ts bs /\ entailed_by σ' r.1 P0 /\
       pats_typed σ' Γ r.1 (zip (map fst parts) ts) r.2 /\ preds_within U' σ' r.1 /\ binds_within U' σ' r.2).
Proof using Type.
  intros Hp Hbs Hok HP0. apply infers_ready. intros Hr.
  eapply infers_then; [by apply infers_parts|]. intros σ1 n1 U1 r Ht (P & binds & ts & -> & Hts & Hpts & HP & Hb). simpl.
  pose proof (touch_ready Ht) as Hr1. pose proof (env_ok_carry Ht Hr _ Hok) as Hok1.
  pose proof (touch_settled _ _ _ _ _ _ Ht) as Hs.
  eapply infers_then; [apply infers_prune_binds|]. intros ???? _ (-> & -> & -> & ->). apply infers_ret.
  exists ts. simpl. split_and!; [done|apply entailed_subset; set_solver| | |by apply pruned_binds_within].
  - eapply pats_typed_same; [|by apply pruned_binds_same].
    eapply (proj2 (pat_carry_both (touch_refl _ _ _ Hr1) Hr1 _ P (P0 ++ P) (proj1 Hok1) ltac:(apply entailed_subset; set_solver))).
    exact Hpts.
  - apply preds_within_app; [|done]. intros q Hq. by apply (within_carry Ht Hr), HP0.
Qed.

Lemma decompose_fun_spec t k args res :
  decompose_fun t k = Some (args, res) ->
  length args = k /\ forall U σ, within U σ t -> within U σ res /\ forall a, a ∈ args -> within U σ a.
Proof using Type.
  revert t args res. induction k as [|k IH]; intros t args res.
  - assert (decompose_fun t 0 = Some ([], t)) as -> by by destruct t.
    intros [= <- <-]. split; [done|]. intros U σ Hw. split; [done|]. by intros a ?%not_elem_of_nil.
  - destruct t as [| | |a b| |]; try done. simpl. destruct (decompose_fun b k) as [[args' res']|] eqn:E; simpl; [|done].
    intros [= <- <-]. destruct (IH _ _ _ E) as [Hl Hw]. split; [simpl; by rewrite Hl|].
    intros U σ [Ha Hb]%within_fun. destruct (Hw U σ Hb) as [Hr Has]. split; [done|].
    intros a' [->|?]%elem_of_cons; auto.
Qed.

(** Parts whose types are known. *)
Lemma known_parts U σ n (g : ty -> nat -> stateful Infer ty) ps ts :
  (forall t, t ∈ ts -> part_type U σ n (g t) (fun σ' u => same σ' u t)) -> length ts = length ps ->
  Forall2 (fun (part : Pattern * (nat -> stateful Infer ty)) b => part_type U σ n part.2 b)
    (zip_with (fun p t => (p, g t)) ps ts) (map (fun t σ' u => same σ' u t) ts).
Proof using Type.
  revert ts. induction ps as [|p ps IH]; intros [|t ts] Hg Hl; simpl; try done; constructor.
  - apply Hg. by left.
  - apply IH; [|by injection Hl]. intros u Hu. apply Hg. by right.
Qed.

Lemma known_patterns (g : ty -> nat -> stateful Infer ty) ps ts :
  length ts = length ps -> Forall pattern_inferred ps ->
  Forall (fun part => pattern_inferred part.1) (zip_with (fun p t => (p, g t)) ps ts) /\
  map fst (zip_with (fun p t => (p, g t)) ps ts) = ps.
Proof using Type.
  revert ts. induction ps as [|p ps IH]; intros [|t ts] Hl Hp; simpl; try done.
  apply Forall_cons in Hp as [Hp Hps]. destruct (IH ts) as [H1 H2]; [by injection Hl|done|].
  split; [by constructor|]. by rewrite H2.
Qed.

Lemma same_tys σ (ts us : list ty) :
  Forall2 (fun t b => b σ t) us (map (fun t σ' u => same σ' u t) ts) -> Forall2 (same σ) us ts.
Proof using Type. intros H%Forall2_fmap_r. done. Qed.

(** The parts of a pattern against types that are known. *)
Lemma infers_known_parts (g : ty -> nat -> stateful Infer ty) ps ts P0 U σ n :
  Forall pattern_inferred ps -> length ts = length ps ->
  (forall t, t ∈ ts -> part_type U σ n (g t) (fun σ' u => same σ' u t)) ->
  env_ok U n σ Γ -> preds_within U σ P0 ->
  infers U σ n (fun f =>
    let~ (preds, binds) := infer_parts (infer_pattern f env) (zip_with (fun p t => (p, g t f)) ps ts) (P0, []) in
    let~ binds := prune_binds f binds in rret (preds, binds))
    (fun σ' n' U' r => exists us, Forall2 (same σ') us ts /\ entailed_by σ' r.1 P0 /\
       pats_typed σ' Γ r.1 (zip ps us) r.2 /\ preds_within U' σ' r.1 /\ binds_within U' σ' r.2).
Proof using Type.
  intros Hp Hl Hg Hok HP0. destruct (known_patterns g ps ts Hl Hp) as [Hps Hfst].
  eapply (infers_eventually 0 _ (fun f =>
    let~ (preds, binds) := infer_parts (infer_pattern f env)
      (map (fun part => (part.1, part.2 f)) (zip_with (fun p t => (p, g t)) ps ts)) (P0, []) in
    let~ binds := prune_binds f binds in rret (preds, binds))).
  { intros f _. do 2 f_equal. clear. revert ts. induction ps as [|p ps IH]; intros [|t ts]; simpl; try done.
    by rewrite IH. }
  eapply infers_weaken; [apply (infers_all_parts _ (map (fun t σ' u => same σ' u t) ts)); [done|by apply known_parts|done|done]|].
  intros σ' n' U' r _ (us & Hus & H). rewrite Hfst in H. exists us. split; [by apply same_tys|done].
Qed.

Lemma same_tuple σ us ts : Forall2 (same σ) us ts -> same σ (TTuple us) (TTuple ts).
Proof using Type.
  unfold same. intros H. simpl. f_equal. induction H as [|u t us ts Hu _ IH]; simpl; [done|]. by rewrite Hu, IH.
Qed.

Lemma same_all σ us (t : ty) k : Forall2 (same σ) us (replicate k t) -> length us = k /\ forall e, e ∈ us -> same σ e t.
Proof using Type.
  intros H. split; [by rewrite (Forall2_length _ _ _ H), length_replicate|].
  intros e [i Hi]%list_elem_of_lookup. destruct (Forall2_lookup_l _ _ _ _ _ H Hi) as (u & Hu & He).
  apply lookup_replicate in Hu as [-> _]. done.
Qed.

(** * The cases of a pattern *)

Lemma list_elem_within U σ elem : within U σ elem -> within U σ (Type_list elem).
Proof using Type. unfold Type_list. intros H y. simpl. set_solver. Qed.

Lemma env_scheme (name : Symbol) (v : RegisteredValue) vs : Γ !! name = Some vs -> v ∈ vs -> value_scheme v ∈ env_schemes Γ.
Proof using Type. intros Hn Hv. apply elem_of_env_schemes. eauto 6. Qed.

(** A fresh element type, against which the scrutinee is unified. *)
Lemma infers_elem {A} U σ n t (name : option Symbol) (container : ty -> ty) (k : nat -> ty -> stateful Infer A) Q :
  env_ok U n σ Γ -> within U σ t -> (forall V σ u, within V σ u -> within V σ (container u)) ->
  (forall σ1 n1 U1 elem, touch U σ n σ1 n1 U1 -> env_ok U1 n1 σ1 Γ -> within U1 σ1 elem ->
     coerces σ1 t (container elem) -> infers U1 σ1 n1 (fun f => k f elem) Q) ->
  infers U σ n (fun f => let~ elem := fresh_var name in let~ _ := unify_in f t (container elem) in k f elem) Q.
Proof using Type.
  intros Hok Ht Hcon Hk. apply infers_ready. intros Hr.
  eapply infers_then; [apply infers_fresh|]. intros ? n1 U1 elem Ht1 (-> & HU & -> & Hw).
  pose proof (touch_ready Ht1) as Hr1.
  eapply infers_then; [apply infers_unify; [by apply (within_carry Ht1 Hr)|by apply Hcon]|].
  intros σ2 ? ? _ Ht2 (-> & -> & Hc%compat_coerces).
  apply Hk; [by eapply touch_trans| |by apply (within_carry Ht2 Hr1)|done].
  by apply (env_ok_carry Ht2 Hr1), (env_ok_carry Ht1 Hr).
Qed.

Lemma map_zip_with_const {A B C} (f : A -> C) (h : A -> B -> C) (b : B) (l : list A) :
  (forall a, h a b = f a) -> zip_with h l (replicate (length l) b) = map f l.
Proof using Type. intros H. induction l as [|a l IH]; simpl; [done|]. by rewrite H, IH. Qed.

Lemma no_preds U σ : preds_within U σ [].
Proof using Type. by intros p ?%not_elem_of_nil. Qed.

(** The parts of a list, whose elements have one type. *)
Lemma infers_elem_parts U σ n (ps : list Pattern) elem :
  Forall pattern_inferred ps -> env_ok U n σ Γ -> within U σ elem ->
  infers U σ n (fun f =>
    let~ (preds, binds) := infer_parts (infer_pattern f env) (map (fun p => (p, prune_type f elem)) ps) ([], []) in
    let~ binds := prune_binds f binds in rret (preds, binds))
    (fun σ' n' U' r => exists us, length us = length ps /\ (forall e, e ∈ us -> same σ' e elem) /\
       pats_typed σ' Γ r.1 (zip ps us) r.2 /\ preds_within U' σ' r.1 /\ binds_within U' σ' r.2).
Proof using Type.
  intros Hp Hok Hw. apply infers_ready. intros Hr.
  eapply (infers_eventually 0 _ (fun f =>
    let~ (preds, binds) := infer_parts (infer_pattern f env)
      (zip_with (fun p t => (p, prune_type f t)) ps (replicate (length ps) elem)) ([], []) in
    let~ binds := prune_binds f binds in rret (preds, binds))).
  { intros f _. by rewrite (map_zip_with_const (fun p => (p, prune_type f elem))). }
  eapply infers_weaken; [apply (infers_known_parts (fun t f => prune_type f t)); [done|apply length_replicate| |done|apply no_preds]|].
  - intros t [-> _]%elem_of_replicate. by apply part_prune.
  - intros σ' n' U' r _ (us & Hus & _ & H). apply same_all in Hus as [? ?]. exists us. done.
Qed.

(** Starts the case of a pattern. *)
Ltac start_pattern U σ n t Hok Hw Hr Hs :=
  intros U σ n t Hok Hw; (eapply infers_S; [intros f; simpl; reflexivity|]); apply infers_spanning; simpl;
  apply infers_ready; intros Hr; pose proof (ready_settled _ _ _ Hr) as Hs.

Lemma infers_named_pattern sp name ps : Forall pattern_inferred ps -> pattern_inferred (PNamed sp name ps).
Proof using Type.
  intros IH. start_pattern U σ n t Hok Hw Hr Hs.
  eapply (infers_then _ _ (fun σ' n' U' vs => σ' = σ /\ n' = n /\ U' = U /\ Γ !! to_dotted_symbol name = Some vs)).
  { by apply infers_ok_or. }
  intros ??? vs _ (-> & -> & -> & Hvs). destruct vs as [|v [|]]; try apply infers_throw.
  eapply infers_then; [apply infers_apply_scheme|]. intros ???? _ (-> & -> & -> & ->).
  eapply infers_then.
  { apply infers_instantiate; [done|]. eapply env_scheme_ok; [done|]. eapply env_scheme; [done|by left]. }
  intros ? n1 U1 [P0 ct] Ht1 (-> & HU & Hi & HP0 & Hct). simpl in Hi, HP0, Hct. pose proof (touch_ready Ht1) as Hr1.
  eapply (infers_then _ _ (fun σ' n' U' d => σ' = σ /\ n' = n1 /\ U' = U1 /\ decompose_fun ct (length ps) = Some d)).
  { by apply infers_ok_or. }
  intros ???[args res] _ (-> & -> & -> & Hd). destruct (decompose_fun_spec _ _ _ _ Hd) as [Hl Hwd].
  destruct (Hwd U1 σ Hct) as [Hres Hargs].
  eapply infers_then; [apply infers_unify; [done|by apply (within_carry Ht1 Hr)]|].
  intros σ2 ? ? _ Ht2 (-> & -> & Hc%compat_coerces). pose proof (touch_ready Ht2) as Hr2.
  pose proof (env_ok_carry Ht1 Hr _ Hok) as Hok1. pose proof (env_ok_carry Ht2 Hr1 _ Hok1) as Hok2.
  eapply infers_weaken; [apply (infers_known_parts (fun t f => prune_type f t)); [done|done| |done|]|].
  + intros a Ha. apply part_prune; [done|]. by apply (within_carry Ht2 Hr1), Hargs.
  + intros q Hq. by apply (within_carry Ht2 Hr1), HP0.
  + intros σ3 n3 U3 r Ht3 (us & Hus & HP & Hps & HPw & Hb). split_and!; [|done..].
    assert (touch U1 σ n1 σ3 n3 U3) as Ht' by by eapply touch_trans.
    assert (scheme_dead U1 n1 σ (value_scheme v)) as Hdv.
    { apply Hok1. eapply env_scheme; [done|by left]. }
    eapply PT_named; [exact Hvs| |exact Hd|by eapply coerces_carry, Hc; apply Ht3|exact Hus|exact Hps].
    eapply scheme_instance_mono; [exact HP|]. by eapply (scheme_instance_carry Ht' Hr1).
Qed.

Lemma infers_tuple_pattern sp ps : Forall pattern_inferred ps -> pattern_inferred (PTuple sp ps).
Proof using Type.
  intros IH. start_pattern U σ n t Hok Hw Hr Hs.
  eapply infers_then; [apply infers_seq_fresh|]. intros ? n1 U1 elems Ht1 (-> & HU & Hl & He).
  pose proof (touch_ready Ht1) as Hr1. pose proof (env_ok_carry Ht1 Hr _ Hok) as Hok1.
  eapply infers_then; [apply infers_unify; [by apply (within_carry Ht1 Hr)|by apply within_tuple]|].
  intros σ2 ? ? _ Ht2 (-> & -> & Hc%compat_coerces). pose proof (touch_ready Ht2) as Hr2.
  pose proof (touch_settled _ _ _ _ _ _ Ht2) as Hs2. pose proof (env_ok_carry Ht2 Hr1 _ Hok1) as Hok2.
  eapply (infers_then _ _ (fun σ' n' U' ts => σ' = σ2 /\ n' = n1 /\ U' = U1 /\ ts = map (subst σ2) elems)).
  { clear -Hr2. induction elems as [|e elems IH]; simpl; [by apply infers_ret|].
    eapply infers_then; [apply infers_prune|]. intros ???? _ (-> & -> & -> & ->).
    eapply infers_then; [exact IH|]. intros ???? _ (-> & -> & -> & ->). by apply infers_ret. }
  intros ???? _ (-> & -> & -> & ->).
  eapply infers_weaken; [apply (infers_known_parts (fun t _ => rret t)); [done|by rewrite length_map| |done|apply no_preds]|].
  + intros u (e & -> & Hin)%list_elem_of_fmap. apply part_ret; [done|]. apply within_pruned; [done|].
    by apply (within_carry Ht2 Hr1), He.
  + intros σ3 n3 U3 r Ht3 (us & Hus & HP & Hps & HPw & Hb). split_and!; [|done..].
    eapply PT_tuple; [| |exact Hps]; [|by rewrite (Forall2_length _ _ _ Hus), length_map].
    eapply coerces_trans; [by eapply coerces_carry, Hc; apply Ht3|].
    apply coerces_sym, same_coerces. etrans; [by apply same_tuple|].
    eapply same_carry; [apply Ht3|]. unfold same. simpl. f_equal. rewrite map_map. apply map_ext. intros e.
    by apply settled_idem.
Qed.

Lemma infers_list_pattern sp ps : Forall pattern_inferred ps -> pattern_inferred (PList sp ps).
Proof using Type.
  intros IH. start_pattern U σ n t Hok Hw Hr Hs.
  apply infers_elem; [done|done|by intros; apply list_elem_within|]. intros σ1 n1 U1 elem Ht1 Hok1 Hwe Hc.
  eapply infers_weaken; [by apply infers_elem_parts|].
  intros σ3 n3 U3 r Ht3 (us & Hl & Hus & Hps & HPw & Hb). split_and!; [|done..].
  eapply PT_list; [by eapply coerces_carry, Hc; apply Ht3|done..].
Qed.

Lemma infers_cons_pattern sp hd tl : pattern_inferred hd -> pattern_inferred tl -> pattern_inferred (PCons sp hd tl).
Proof using Type.
  intros IHh IHt. start_pattern U σ n t Hok Hw Hr Hs.
  apply infers_elem; [done|done|by intros; apply list_elem_within|]. intros σ1 n1 U1 elem Ht1 Hok1 Hwe Hc.
  pose proof (touch_ready Ht1) as Hr1.
  eapply infers_weaken.
  { apply (infers_all_parts [(hd, fun f => prune_type f elem); (tl, fun f => let~ t := prune_type f elem in rret (Type_list t))]
      [fun σ' u => same σ' u elem; fun σ' u => same σ' u (Type_list elem)] []); [by repeat constructor| |done|apply no_preds].
    constructor; [by apply part_prune|]. constructor; [|constructor]. split; [intros ???; apply same_carry|].
    intros σ' n' U' Ht'. eapply infers_then; [apply infers_prune|]. intros ???? _ (-> & -> & -> & ->). apply infers_ret.
    pose proof (touch_settled _ _ _ _ _ _ Ht') as Hs'.
    split_and!; [done..|by apply list_elem_within, within_pruned, (within_carry Ht' Hr1)|].
    unfold same, Type_list. simpl. by rewrite settled_idem. }
  intros σ3 n3 U3 r Ht3 (us & Hus & _ & Hps & HPw & Hb). split_and!; [|done..].
  apply Forall2_cons_inv_r in Hus as (e1 & us1 & He1 & Hus & ->). apply Forall2_cons_inv_r in Hus as (e2 & us2 & He2 & Hus & ->).
  apply Forall2_nil_inv_r in Hus as ->.
  eapply PT_cons; [by eapply coerces_carry, Hc; apply Ht3|done..].
Qed.

(** A record or a dictionary. *)
Lemma infers_record_pattern U σ n sp fs ty_fields :
  env_ok U n σ Γ -> within U σ (TRecord ty_fields) -> Forall (fun f => pattern_inferred f.2) fs ->
    infers U σ n (fun f =>
      let~ (preds, binds) := infer_parts (infer_pattern f env) (map (fun f' =>
        (f'.2, match find_field ty_fields f'.1 with
               | Some u => prune_type f u
               | None => rthrow (UnknownField f'.1 (show_ty (TRecord ty_fields))) end)) fs) ([], []) in
      let~ binds := prune_binds f binds in rret (preds, binds))
    (fun σ' n' U' r => pat_typed σ' Γ r.1 (PDict sp fs) (TRecord ty_fields) r.2 /\ preds_within U' σ' r.1 /\ binds_within U' σ' r.2).
Proof using Type.
  intros Hok Hw IH. apply infers_ready. intros Hr. rewrite within_record in Hw.
  eapply (infers_eventually 0 _ (fun f =>
    let~ (preds, binds) := infer_parts (infer_pattern f env) (map (fun part => (part.1, part.2 f))
      (map (fun f' => (f'.2, fun f => match find_field ty_fields f'.1 with
             | Some u => prune_type f u
             | None => rthrow (UnknownField f'.1 (show_ty (TRecord ty_fields))) end)) fs)) ([], []) in
    let~ binds := prune_binds f binds in rret (preds, binds))); [intros f _; by rewrite map_map|].
  eapply infers_weaken.
  { apply (infers_all_parts _ (map (fun f' σ' u => exists ft, find_field ty_fields f'.1 = Some ft /\ same σ' u ft) fs));
      [by apply Forall_map| |done|apply no_preds].
    clear IH. induction fs as [|f' fs IHfs]; simpl; constructor; [|done]. split.
    - intros σ1 σ2 u He (ft & ? & ?). exists ft. split; [done|by eapply same_carry].
    - intros σ' n' U' Ht'. destruct (find_field ty_fields f'.1) as [ft|] eqn:Ef; [|apply infers_throw].
      destruct (find_field_elem _ _ _ Ef) as (g & Hg & _ & <-).
      eapply infers_weaken; [apply (proj2 (part_prune U σ n g.2 Hr (Hw g Hg)) _ _ _ Ht')|].
      intros ???? _ (-> & -> & -> & Hwu & Hsu). split_and!; [done..|]. by exists g.2. }
  intros σ3 n3 U3 r Ht3 (us & Hus & _ & Hps & HPw & Hb). split_and!; [|done..].
  rewrite map_map in Hps. apply Forall2_fmap_r in Hus.
  eapply PT_record; [done| |exact Hps]. apply Forall2_flip. exact Hus.
Qed.

Lemma infers_dict_pattern U σ n sp fs t :
  env_ok U n σ Γ -> within U σ t -> Forall (fun f => pattern_inferred f.2) fs ->
  infers U σ n (fun f =>
    let~ elem_tv := fresh_var (Some "v") in
    let~ _ := unify_in f t (Type_dict elem_tv) in
    let~ elem_ty := prune_type f elem_tv in
    let~ (preds, binds) := infer_parts (infer_pattern f env) (map (fun f' => (f'.2, rret elem_ty)) fs) ([], []) in
    let~ binds := prune_binds f binds in rret (preds, binds))
  (fun σ' n' U' r => pat_typed σ' Γ r.1 (PDict sp fs) t r.2 /\ preds_within U' σ' r.1 /\ binds_within U' σ' r.2).
Proof using Type.
  intros Hok Hw IH. apply infers_elem; [done|done|by intros; apply list_elem_within|]. intros σ1 n1 U1 elem Ht1 Hok1 Hwe Hc.
  pose proof (touch_ready Ht1) as Hr1. pose proof (touch_settled _ _ _ _ _ _ Ht1) as Hs1.
  eapply infers_then; [apply infers_prune|]. intros ???? _ (-> & -> & -> & ->).
  eapply (infers_eventually 0 _ (fun f =>
    let~ (preds, binds) := infer_parts (infer_pattern f env)
      (zip_with (fun p u => (p, rret u)) (map snd fs) (replicate (length (map snd fs)) (subst σ1 elem))) ([], []) in
    let~ binds := prune_binds f binds in rret (preds, binds))).
  { intros f _. rewrite (map_zip_with_const (fun p => (p, rret (subst σ1 elem)))) by done. by rewrite map_map. }
  eapply infers_weaken; [apply (infers_known_parts (fun u _ => rret u)); [by apply Forall_map|apply length_replicate| |done|apply no_preds]|].
  - intros u [-> _]%elem_of_replicate. apply part_ret; [done|]. by apply within_pruned.
  - intros σ3 n3 U3 r Ht3 (us & Hus & _ & Hps & HPw & Hb). apply same_all in Hus as [Hl Hus].
    rewrite length_map in Hl. split_and!; [|done..].
    eapply PT_dict; [by eapply coerces_carry, Hc; apply Ht3| |exact Hl|exact Hps].
    intros e He. etrans; [by apply Hus|]. eapply same_carry; [apply Ht3|]. by apply same_pruned.
Qed.

(** Inference of a pattern ends; on success the pattern has the type of the
    scrutinee and its bindings the types returned. *)
Lemma infers_pattern p : pattern_inferred p.
Proof using Type.
  induction p as [sp|v|sp name ps IH|sp ps IH|sp ps IH|sp hd tl IHh IHt|sp fs IH] using Pattern_ind';
    auto using infers_named_pattern, infers_tuple_pattern, infers_list_pattern, infers_cons_pattern;
    start_pattern U σ n t Hok Hw Hr Hs.
  - apply infers_ret. split_and!; [constructor|apply no_preds|by intros b ?%not_elem_of_nil].
  - eapply infers_then; [apply infers_prune|]. intros ???? _ (-> & -> & -> & ->). apply infers_ret. simpl.
    split_and!; [constructor; by apply same_pruned|apply no_preds|].
    intros b ->%list_elem_of_singleton. by apply within_pruned.
  - destruct t; try by apply infers_dict_pattern. by apply infers_record_pattern.
Qed.
End Patterns.
