(* ===== verification/InferAnswers.v ===== *)
(** Answers of [infer_expr]: what is claimed of them, how the claim is kept while
    inference goes on, and the types of annotations. *)

From S2P Require Import Prelude Span Types BTree Unify UnifyComplete Unifier UnifierSound.
From S2P Require Import Syntax Ast Adts TypedExprs TypeEnv TypeClasses LetRec Infer InferExpr Typing InferRuns InferPattern.

(** * Annotations *)

Definition closed_ty (t : ty) : Prop := vars t = ∅.

Lemma closed_within U σ t : closed_ty t -> within U σ t.
Proof. intros Hc y. rewrite elem_of_vars_subst, Hc. set_solver. Qed.

(** The body of an alias mentions only its parameters. *)
Definition aliases_closed (aliases : gmap Symbol TypeAlias) : Prop :=
  forall name alias body y, aliases !! name = Some alias -> alias_typ alias = Some body ->
    y ∈ vars body -> y ∈ map (fun p => tv_id (param_var p)) (alias_params alias).

Lemma app_head_args_vars t : forall args y,
  y ∈ vars (app_head_args t args).1 \/ y ∈ (⋃ (map vars (app_head_args t args).2) : gset TypeVarId) ->
  y ∈ vars t \/ y ∈ (⋃ (map vars args) : gset TypeVarId).
Proof.
  induction t as [tv|c|l r IHl _|a b _ _|ts _|fs _] using ty_ind'; intros args y; try done.
  cbn [app_head_args]. intros H%IHl. simpl in *. set_solver.
Qed.

(** Arguments for parameters. *)
Lemma args_subst_range (l : list (AdtParam * ty)) : forall (s : Subst) x u,
  foldl (fun s pa => <[tv_id (param_var pa.1) := pa.2]> s) s l !! x = Some u ->
  s !! x = Some u \/ u ∈ map snd l.
Proof.
  induction l as [|[p a] l IH]; intros s x u; simpl; [by left|]. intros [H|H]%IH; [|right; by right].
  destruct (decide (tv_id (param_var p) = x)) as [<-|Hne].
  - rewrite lookup_insert_eq in H. injection H as ->. right. by left.
  - rewrite lookup_insert_ne in H by done. by left.
Qed.

Lemma args_subst_dom (l : list (AdtParam * ty)) : forall (s : Subst) p,
  p ∈ map fst l \/ is_Some (s !! tv_id (param_var p)) ->
  is_Some (foldl (fun s pa => <[tv_id (param_var pa.1) := pa.2]> s) s l !! tv_id (param_var p)).
Proof.
  induction l as [|[q a] l IH]; intros s p; simpl; [by intros [?%not_elem_of_nil|]|].
  intros H. apply IH. destruct H as [[->|?]%elem_of_cons|H]; [|by left|]; right.
  - rewrite lookup_insert_eq. eauto.
  - destruct (decide (tv_id (param_var q) = tv_id (param_var p))) as [->|Hne].
    + rewrite lookup_insert_eq. eauto.
    + by rewrite lookup_insert_ne.
Qed.

Section Annotations.
Context (adts : gmap Symbol AdtDecl) (aliases : gmap Symbol TypeAlias).
Hypothesis Haliases : aliases_closed aliases.

Lemma alias_body_vars name alias body args y :
  aliases !! name = Some alias -> alias_typ alias = Some body -> length args = length (alias_params alias) ->
  y ∈ vars (apply (foldl (fun s pa => <[tv_id (param_var pa.1) := pa.2]> s) ∅ (zip (alias_params alias) args)) body) ->
  y ∈ (⋃ (map vars args) : gset TypeVarId).
Proof using Haliases.
  intros Ha Hb Hl. rewrite apply_subst, elem_of_vars_subst. intros (x & Hx & Hy).
  destruct (foldl _ ∅ _ !! x) as [u|] eqn:E.
  - apply args_subst_range in E as [E|E]; [by rewrite lookup_empty in E|]. rewrite snd_zip in E by lia.
    apply union_list_elem. by exists u.
  - subst y. apply (Haliases _ _ _ _ Ha Hb) in Hx. apply list_elem_of_fmap in Hx as (p & -> & Hp).
    destruct (args_subst_dom (zip (alias_params alias) args) ∅ p) as [u Hu]; [|congruence].
    left. by rewrite fst_zip by lia.
Qed.

(** Expansion adds no variables. *)
Lemma expand_inner_vars n : forall t expanding r,
  expand_type_aliases_inner n aliases t expanding = Some (Ok r) -> vars r ⊆ vars t.
Proof using Haliases.
  induction n as [|n IH]; intros t expanding r; [done|]. cbn [expand_type_aliases_inner].
  intros (e & He & Hr)%fbind_Ok. trans (vars e).
  - unfold expand_head in Hr. pose proof (app_head_args_vars e []) as Hv.
    destruct (app_head_args e []) as [head args]. simpl in Hv. destruct head; try by injection Hr as <-.
    destruct (aliases !! name_str c) as [alias|] eqn:Ha; [|by injection Hr as <-].
    destruct (Nat.eqb _ _) eqn:Hl; simpl in Hr; [|by injection Hr as <-].
    case_bool_decide; [done|]. destruct (alias_typ alias) as [body|] eqn:Hb; [|done].
    apply Nat.eqb_eq in Hl. intros y Hy%(IH _ _ _ Hr)%(alias_body_vars _ _ _ _ _ Ha Hb Hl).
    destruct (Hv y) as [?|?%elem_of_empty]; [by right|done..].
  - destruct t as [tv|c|l a|a b|ts|fs].
    + by injection He as <-.
    + by injection He as <-.
    + apply fbind_Ok in He as (l' & Hl & (a' & Ha & [= <-])%fbind_Ok). apply IH in Hl, Ha. simpl. set_solver.
    + apply fbind_Ok in He as (l' & Hl & (a' & Ha & [= <-])%fbind_Ok). apply IH in Hl, Ha. simpl. set_solver.
    + apply fbind_Ok in He as (ts' & Hts & [= <-]). apply map_fueled_Ok in Hts. simpl.
      intros y (u & [i Hi]%list_elem_of_lookup & Hy)%union_list_elem.
      destruct (Forall2_lookup_r _ _ _ _ _ Hts Hi) as (g & Hg & Hu). apply union_list_elem.
      exists g. split; [by eapply list_elem_of_lookup_2|]. by apply (IH _ _ _ Hu).
    + apply fbind_Ok in He as (fs' & Hfs & [= <-]). apply map_fueled_Ok in Hfs. unfold Type_record. simpl.
      intros y (u & Hin & Hy)%union_list_elem.
      apply sort_by_key_elem in Hin. apply list_elem_of_lookup in Hin as [i Hi].
      destruct (Forall2_lookup_r _ _ _ _ _ Hfs Hi) as (g & Hg & (w & Hw & [= <-])%fbind_Ok).
      apply union_list_elem. exists g. split; [by eapply list_elem_of_lookup_2|]. by apply (IH _ _ _ Hw).
Qed.

Lemma spanned_Ok {A} span (r : result TypeError A) a : spanned span r = Ok a -> r = Ok a.
Proof using Type. by destruct r. Qed.

Lemma map_result_Ok {E A B} (f : A -> result E B) l : forall ys, map_result f l = Ok ys -> Forall2 (fun x y => f x = Ok y) l ys.
Proof using Type.
  induction l as [|x l IH]; intros ys; simpl; [intros [= <-]; constructor|].
  intros (y & Hy & (ys' & Hys & [= <-])%rbind_Ok)%rbind_Ok. constructor; auto.
Qed.

Lemma Type_con_closed name arity : closed_ty (Type_con name arity).
Proof using Type. unfold closed_ty, Type_con. destruct (from_name _); [case_decide|]; done. Qed.

Lemma app_result_vars f a : vars (type_app_with_result_syntax f a) ⊆ vars f ∪ vars a.
Proof using Type. clear Haliases.
  unfold type_app_with_result_syntax. destruct f as [| |l ok| | |]; simpl; try done.
  destruct l; simpl; try done. destruct (_ && _); simpl; set_solver.
Qed.

(** The variables of a type are among those in scope. *)
Definition scoped (tvs : gmap Symbol TypeVar) (t : ty) : Prop :=
  forall y, y ∈ vars t -> exists name tv, tvs !! name = Some tv /\ tv_id tv = y.

Lemma scoped_con tvs name arity : scoped tvs (Type_con name arity).
Proof using Type. intros y Hy. by rewrite (Type_con_closed name arity) in Hy. Qed.

Lemma scoped_app tvs f a : scoped tvs f -> scoped tvs a -> scoped tvs (type_app_with_result_syntax f a).
Proof using Type. clear Haliases. intros Hf Ha y [?|?]%app_result_vars%elem_of_union; auto. Qed.

Lemma scoped_fun tvs a b : scoped tvs a -> scoped tvs b -> scoped tvs (TFun a b).
Proof using Type. clear Haliases. intros Ha Hb y [?|?]%elem_of_union; auto. Qed.

Lemma scoped_tuple tvs ts : Forall (scoped tvs) ts -> scoped tvs (TTuple ts).
Proof using Type. clear Haliases. rewrite Forall_forall. intros H y (t & Ht & Hy)%union_list_elem. by apply (H t). Qed.

Lemma scoped_record tvs (fs : list (Symbol * ty)) : Forall (fun f => scoped tvs f.2) fs -> scoped tvs (Type_record fs).
Proof using Type. clear Haliases.
  rewrite Forall_forall. intros H y (f & Hf%sort_by_key_elem & Hy)%union_list_elem. by apply (H f).
Qed.

(** The variables of a raw type are in scope. *)
Lemma raw_annotation_scoped tvs e : forall t, type_from_annotation_raw adts aliases e tvs = Ok t -> scoped tvs t.
Proof using Type. clear Haliases.
  induction e as [s name|s f a IHf IHa|s a r IHa IHr|s es IH|s fs IH] using TypeExpr_ind'; intros t;
    cbn [type_from_annotation_raw]; intros H%spanned_Ok.
  - destruct (annotation_type_arity _ _ _); [injection H as <-; apply scoped_con|].
    destruct (tvs !! _) as [tv|] eqn:Hv; [|done]. injection H as <-. intros y Hy. simpl in Hy. apply elem_of_singleton in Hy as ->. eauto.
  - apply rbind_Ok in H as (f' & Hf & (a' & Ha & [= <-])%rbind_Ok). apply scoped_app; eauto.
  - apply rbind_Ok in H as (f' & Hf & (a' & Ha & [= <-])%rbind_Ok). apply scoped_fun; eauto.
  - apply rbind_Ok in H as (ts & Hts & [= <-]). apply map_result_Ok in Hts. apply scoped_tuple.
    induction Hts as [|e t es ts Ht _ IHts]; [constructor|]. apply Forall_cons in IH as [He IH]. constructor; auto.
  - apply rbind_Ok in H as (ts & Hts & [= <-]). apply map_result_Ok in Hts. apply scoped_record.
    induction Hts as [|f g fs ts (u & Hu & [= <-])%rbind_Ok _ IHts]; [constructor|].
    apply Forall_cons in IH as [Hf IH]. constructor; [by apply Hf|auto].
Qed.

Lemma annotation_scoped n tvs e t : type_from_annotation n adts aliases e tvs = Some (Ok t) -> scoped tvs t.
Proof using Haliases.
  unfold type_from_annotation. intros (raw & Hraw & H)%fbind_Ok. injection Hraw as Hraw.
  apply raw_annotation_scoped in Hraw. unfold expand_type_aliases in H. apply expand_inner_vars in H.
  intros y Hy. by apply Hraw, H.
Qed.

Lemma constraints_scoped n tvs cs P :
  predicates_from_constraints n adts aliases cs tvs = Some (Ok P) -> forall p, p ∈ P -> scoped tvs (pred_typ p).
Proof using Haliases.
  intros HP%map_fueled_Ok p [i Hi]%list_elem_of_lookup.
  destruct (Forall2_lookup_r _ _ _ _ _ HP Hi) as (c & _ & (t & Ht & [= <-])%fbind_Ok). by eapply annotation_scoped.
Qed.

Lemma scoped_closed t : scoped ∅ t -> closed_ty t.
Proof using Type. clear Haliases.
  intros H. apply set_eq. intros y. split; [|set_solver]. intros (? & ? & Hv & _)%H. by rewrite lookup_empty in Hv.
Qed.

Lemma annotation_closed n e t : type_from_annotation n adts aliases e ∅ = Some (Ok t) -> closed_ty t.
Proof using Haliases. intros H. eapply scoped_closed, annotation_scoped, H. Qed.

Lemma annotation_settles e vars : settles (fun n => type_from_annotation n adts aliases e vars).
Proof using Type.
  apply settles_bind; [apply settles_ret|]. intros t. unfold expand_type_aliases. by eapply expand_inner_settles.
Qed.

Lemma infers_settles {A} U σ n (m : nat -> fueled TypeError A) (Q : A -> Prop) :
  settles m -> (forall f a, m f = Some (Ok a) -> Q a) ->
  infers U σ n (fun f => pure_fueled (m f)) (fun σ' n' U' a => σ' = σ /\ n' = n /\ U' = U /\ Q a).
Proof using Type.
  intros (r & N & HN) HQ. eapply infers_fueled; [by exists N|]. intros a ->. split_and!; [done..|]. eapply HQ, (HN N); lia.
Qed.

Lemma infers_annotation U σ n e :
  infers U σ n (fun f => annotation_type adts aliases f e ∅) (fun σ' n' U' t => σ' = σ /\ n' = n /\ U' = U /\ closed_ty t).
Proof using Haliases. apply infers_settles; [apply annotation_settles|]. intros f t. apply annotation_closed. Qed.

Lemma infers_constraints U σ n cs :
  infers U σ n (fun f => pure_fueled (predicates_from_constraints f adts aliases cs ∅))
    (fun σ' n' U' P => σ' = σ /\ n' = n /\ U' = U /\ forall p, p ∈ P -> closed_ty (pred_typ p)).
Proof using Haliases.
  apply infers_settles.
  - apply settles_map, Forall_true. intros c. apply settles_bind; [apply annotation_settles|]. intros; apply settles_ret.
  - intros f P HP p Hp. eapply scoped_closed, constraints_scoped; [exact HP|done].
Qed.
End Annotations.

(** * The depth limit *)

Lemma closure_set_depth g u σ : closure_of u σ -> closure_of (set_depth g u) σ.
Proof. intros [H1 H2 [rank Hr]]. split; [exact H1|exact H2|by exists rank]. Qed.

Lemma infers_depth {A} U σ n span (m : nat -> stateful Infer A) Q :
  infers U σ n m Q -> infers U σ n (fun f => infer_depth_in span (m f)) Q.
Proof.
  intros Hm Hr st Hc Hn.
  destruct (Hm Hr (mkInfer (set_depth S (i_unifier st)) (i_supply st))) as (r & st' & [N HN] & H);
    [by apply closure_set_depth|done|].
  assert (forall f, N <= f ->
    (max_infer_depth (i_unifier st) = None \/
     exists mx, max_infer_depth (i_unifier st) = Some mx /\ (mx <=? infer_depth (i_unifier st)) = false) ->
    infer_depth_in span (m f) st = Some (r, mkInfer (set_depth pred (i_unifier st')) (i_supply st'))) as Hrun.
  { intros f Hf Hd. unfold infer_depth_in, with_infer_depth. rewrite HN by done.
    destruct Hd as [->|(mx & -> & ->)]; done. }
  assert (match r with
    | Ok a => exists σ' U', closure_of (set_depth pred (i_unifier st')) σ' /\
        touch U σ n σ' (counter (i_supply st')) U' /\ Q σ' (counter (i_supply st')) U' a
    | Err _ => True end) as H'.
  { destruct r; [|done]. destruct H as (σ' & U' & ? & ?). exists σ', U'. split; [by apply closure_set_depth|done]. }
  destruct (max_infer_depth (i_unifier st)) as [mx|] eqn:Em; [destruct (mx <=? infer_depth (i_unifier st)) eqn:Ed|].
  - eexists (Err _), _. split; [|done]. exists 0. intros f _. unfold infer_depth_in, with_infer_depth. by rewrite Em, Ed.
  - eexists r, _. split; [exists N; intros f Hf; apply Hrun; eauto|done].
  - eexists r, _. split; [exists N; intros f Hf; apply Hrun; eauto|done].
Qed.

(** Runs that agree on every state. *)
Lemma infers_ext {A} U σ n (m m' : nat -> stateful Infer A) Q :
  (forall f st, m f st = m' f st) -> infers U σ n m' Q -> infers U σ n m Q.
Proof.
  intros Hm H Hr st Hc Hn. destruct (H Hr st Hc Hn) as (r & st' & [N HN] & ?).
  exists r, st'. split; [|done]. exists N. intros f Hf. rewrite Hm. by apply HN.
Qed.

(** * What is claimed of an answer *)

(** The variables created since the supply was at [n] that no type in use mentions. *)
Definition made (n : nat) (U : gset TypeVarId) (n' : nat) (σ : Subst) (b : TypeVarId) : Prop := n <= b /\ dead U n' σ b.

Section Answers.
Context (adts : gmap Symbol AdtDecl).

Definition elab (m : nat) (Γ : Values) (P : list Predicate) (U : gset TypeVarId) (σ : Subst) (n : nat) (e : TypedExpr) : Prop :=
  typed adts n (made m U n σ) σ Γ P e.

(** [e] has type [t], elaborated since the supply was at [m]. *)
Definition has (m : nat) (Γ : Values) (P : list Predicate) (U : gset TypeVarId) (σ : Subst) (n : nat) (e : TypedExpr) (t : ty) : Prop :=
  within U σ t /\ coerces σ (te_typ e) t /\ elab m Γ P U σ n e.

Definition overloads_within (U : gset TypeVarId) (σ : Subst) (e : TypedExpr) : Prop :=
  forall name ovs o, te_kind e = EVar name ovs -> o ∈ ovs -> within U σ o.

Definition answers (m : nat) (Γ : Values) (σ : Subst) (n : nat) (U : gset TypeVarId) (r : Typed) : Prop :=
  has m Γ r.1.1 U σ n r.2 r.1.2 /\ preds_within U σ r.1.1 /\ overloads_within U σ r.2.

Section Later.
Context {U : gset TypeVarId} {σ : Subst} {n : nat} {σ' : Subst} {n' : nat} {U' : gset TypeVarId}.
Hypothesis Ht : touch U σ n σ' n' U'.
Hypothesis Hr : ready U σ n.

Lemma elab_carry_dead m m' Γ P P' e :
  env_dead U n σ Γ -> m' <= m -> entailed_by σ' P' P -> elab m Γ P U σ n e -> elab m' Γ P' U' σ' n' e.
Proof using Ht Hr.
  intros Hd Hm HP He. eapply (typed_carry Ht Hr); [|exact He|exact Hd|exact HP].
  intros b [Hb Hdb]. split; [done|]. split; [lia|]. by apply (dead_carry Ht).
Qed.

Lemma elab_carry m m' Γ P P' e :
  env_ok U n σ Γ -> m' <= m -> entailed_by σ' P' P -> elab m Γ P U σ n e -> elab m' Γ P' U' σ' n' e.
Proof using Ht Hr. intros [Hd _]. by apply elab_carry_dead. Qed.

Lemma has_carry m Γ P e t : env_ok U n σ Γ -> has m Γ P U σ n e t -> has m Γ P U' σ' n' e t.
Proof using Ht Hr.
  intros Hok (Hw & Hc & He). split_and!; [by apply (within_carry Ht Hr)|eapply coerces_carry; [apply Ht|done]|].
  eapply elab_carry; [done|apply le_n|apply entailed_refl|done].
Qed.

Lemma preds_carry P : preds_within U σ P -> preds_within U' σ' P.
Proof using Ht Hr. intros HP p Hp. by apply (within_carry Ht Hr), HP. Qed.
End Later.

Lemma has_weaken m m' Γ P P' U σ n e t :
  ready U σ n -> env_ok U n σ Γ -> m' <= m -> P ⊆ P' -> has m Γ P U σ n e t -> has m' Γ P' U σ n e t.
Proof using Type.
  intros Hr Hok Hm HP (Hw & Hc & He). split_and!; [done..|].
  eapply (elab_carry (touch_refl _ _ _ Hr) Hr); [done..|by apply entailed_subset|done].
Qed.

Lemma has_same m Γ P U σ n e t t' :
  within U σ t' -> coerces σ t t' -> has m Γ P U σ n e t -> has m Γ P U σ n e t'.
Proof using Type. intros Hw' Hs (Hw & Hc & He). split_and!; [done|by eapply coerces_trans|done]. Qed.

Lemma has_pruned m Γ P U σ n e t : settled σ -> has m Γ P U σ n e t -> has m Γ P U σ n e (subst σ t).
Proof using Type.
  intros Hs H. eapply has_same; [by apply within_pruned, H|by apply same_coerces, eq_sym, same_pruned|done].
Qed.

Lemma has_coerced m Γ P U σ n e e' t t' :
  within U σ t' -> coerced σ t t' e e' -> has m Γ P U σ n e t -> has m Γ P U σ n e' t'.
Proof using Type.
  intros Hw' Hc (Hw & Hct & He). destruct (coerced_typed _ _ _ _ _ _ _ _ _ _ He Hct Hc) as [He' Hc'].
  split_and!; [done..].
Qed.

Lemma within_same U σ t t' : same σ t t' -> within U σ t' -> within U σ t.
Proof using Type. unfold within, same. intros ->. done. Qed.

Lemma answers_leaf m Γ σ n U P t k :
  within U σ t -> preds_within U σ P -> elab m Γ P U σ n (mkTypedExpr t k) ->
  (forall name ovs o, k = EVar name ovs -> o ∈ ovs -> within U σ o) ->
  answers m Γ σ n U (P, t, mkTypedExpr t k).
Proof using Type. intros Hw HP He Ho. split_and!; [split_and!; [done|apply coerces_refl|done]|done|done]. Qed.
End Answers.

(** * Environments *)

Lemma within_lt U σ n t : ready U σ n -> within U σ t -> forall y, y ∈ vars (subst σ t) -> y < n.
Proof. intros Hr Hw y Hy. by apply (ready_lt _ _ _ Hr), Hw. Qed.

Lemma scheme_ok_mono U σ n t : ready U σ n -> within U σ t -> scheme_ok U n σ (mono_scheme t).
Proof.
  intros Hr Hw. split; [by apply scheme_dead_mono, (within_lt U)|].
  intros y [Hy _]%elem_of_scheme_free. apply scheme_vars_mono in Hy. by apply Hw.
Qed.

Lemma env_free_bind σ name s Γ : env_free σ (bind_value name s Γ) ⊆ scheme_free σ s ∪ env_free σ Γ.
Proof.
  intros y (s' & [->|Hs]%env_schemes_bind & Hy)%elem_of_env_free; apply elem_of_union; [by left|right].
  apply elem_of_env_free. eauto.
Qed.

Lemma env_ok_bind U σ n name s Γ : scheme_ok U n σ s -> env_ok U n σ Γ -> env_ok U n σ (bind_value name s Γ).
Proof.
  intros [Hsd Hsf] [Hd Hf]. split; [by apply env_dead_bind|].
  intros y [?|?]%env_free_bind%elem_of_union; auto.
Qed.

Lemma env_ok_types U σ n binds : forall Γ,
  ready U σ n -> binds_within U σ binds -> env_ok U n σ Γ -> env_ok U n σ (bind_types binds Γ).
Proof.
  induction binds as [|b binds IH]; intros Γ Hr Hb Hok; simpl; [done|].
  apply IH; [done|intros b' ?; apply Hb; by right|]. apply env_ok_bind; [|done].
  apply scheme_ok_mono; [done|]. apply Hb. by left.
Qed.

Lemma extend_all_values binds : forall env, env_values (extend_all binds env) = bind_types binds (env_values env).
Proof. induction binds as [|b binds IH]; intros env; simpl; [done|]. by rewrite IH. Qed.

Lemma extend_all_type_vars binds : forall env, env_type_vars (extend_all binds env) = env_type_vars env.
Proof. induction binds as [|b binds IH]; intros env; simpl; [done|]. by rewrite IH. Qed.

(** Moves the facts about the state before [Ht] to the state after it. *)
Ltac carry Ht Hr :=
  lazymatch type of Ht with
  | touch ?U ?σ ?n ?σ' ?n' ?U' =>
    repeat match goal with
      | H : has _ _ _ _ U σ n _ _, Hok : env_ok U n σ _ |- _ =>
          progress (apply (has_carry _ Ht Hr _ _ _ _ _ Hok) in H)
      end;
    repeat match goal with H : env_ok U n σ _ |- _ => progress (apply (env_ok_carry Ht Hr) in H) end;
    repeat match goal with H : within U σ _ |- _ => progress (apply (within_carry Ht Hr) in H) end;
    repeat match goal with H : preds_within U σ _ |- _ => progress (apply (preds_carry Ht Hr) in H) end;
    repeat match goal with H : coerces σ _ _ |- _ =>
      progress (apply (coerces_carry _ _ _ _ (touch_extends _ _ _ _ _ _ Ht)) in H) end;
    repeat match goal with H : same σ _ _ |- _ =>
      progress (apply (same_carry _ _ _ _ (touch_extends _ _ _ _ _ _ Ht)) in H) end
  end.

(** The same, and makes the facts about the state after it. *)
Ltac advance Ht Hr Hr' :=
  carry Ht Hr;
  pose proof (touch_ready Ht) as Hr';
  pose proof (touch_le _ _ _ _ _ _ Ht).

(** A step that leaves the state as it is. *)
Ltac reading := intros ? ? ? ? _ (-> & -> & -> & ->).
