(* ===== verification/InferCases.v ===== *)
(** Answers of [infer_expr], case by case: literals and variables, conditionals,
    tuples, lists, dictionaries, projections, matches and lambdas. *)

From S2P Require Import Prelude Span Types BTree Unify UnifyComplete Unifier UnifierSound.
From S2P Require Import Syntax Ast Adts TypedExprs TypeEnv TypeClasses LetRec Infer InferExpr Typing InferRuns InferPattern InferAnswers.

Section Cases.
Context (adts : gmap Symbol AdtDecl) (aliases : gmap Symbol TypeAlias).
Hypothesis Hadts : adts_closed adts.
Hypothesis Haliases : aliases_closed aliases.
Abbreviation rec := (infer_expr adts aliases).

(** In an environment without scoped type variables. *)
Definition context (U : gset TypeVarId) (σ : Subst) (n : nat) (env : TypeEnv) : Prop :=
  env_ok U n σ (env_values env) /\ env_type_vars env = ∅.

Definition inferred (e : Expr) : Prop := forall U σ n env known,
  context U σ n env ->
  infers U σ n (fun f => rec f env known e) (answers adts n (env_values env)).

Lemma infers_cases e :
  (forall U σ n env known, context U σ n env ->
     infers U σ n (fun f => infer_expr_cases adts aliases f (rec f) env known e) (answers adts n (env_values env))) ->
  inferred e.
Proof using Type.
  intros H U σ n env known Hc. eapply infers_S; [intros f; cbn [infer_expr]; reflexivity|].
  apply infers_spanning, infers_depth. by apply H.
Qed.

Lemma infers_ite U σ n env known c e1 e2 :
  inferred c -> inferred e1 -> inferred e2 -> context U σ n env ->
  infers U σ n (fun f => infer_ite f (rec f) env known c e1 e2) (answers adts n (env_values env)).
Proof using Hadts Haliases.
  intros Hc H1 H2 [Hok Hv]. apply infers_ready. intros Hr. unfold infer_ite.
  eapply infers_then; [by apply Hc|]. intros σ1 n1 U1 [[P1 t1] c'] Ht1 (Hh1 & HP1 & _). simpl in Hh1, HP1.
  advance Ht1 Hr Hr1.
  eapply infers_then; [apply infers_unify; [apply Hh1|by apply closed_within]|].
  intros σ2 ? ? ? Ht2 (-> & -> & Hc1%compat_coerces). advance Ht2 Hr1 Hr2.
  eapply infers_then; [by apply H1|]. intros σ3 n3 U3 [[P2 t2] e1'] Ht3 (Hh2 & HP2 & _). simpl in Hh2, HP2.
  advance Ht3 Hr2 Hr3.
  eapply infers_then; [by apply H2|]. intros σ4 n4 U4 [[P3 t3] e2'] Ht4 (Hh3 & HP3 & _). simpl in Hh3, HP3.
  advance Ht4 Hr3 Hr4.
  eapply infers_then; [apply infers_unify; [apply Hh2|apply Hh3]|].
  intros σ5 ? ? ? Ht5 (-> & -> & Hc2%compat_coerces). advance Ht5 Hr4 Hr5.
  eapply infers_then; [apply infers_prune|]. reading. apply infers_ret.
  pose proof (ready_settled _ _ _ Hr5) as Hs.
  apply (has_weaken _ _ n _ _ (P1 ++ P2 ++ P3)) in Hh1; [|done..|lia|set_solver].
  apply (has_weaken _ _ n _ _ (P1 ++ P2 ++ P3)) in Hh2; [|done..|lia|set_solver].
  apply (has_weaken _ _ n _ _ (P1 ++ P2 ++ P3)) in Hh3; [|done..|lia|set_solver].
  apply (has_same _ _ _ _ _ _ _ _ _ t2) in Hh3; [|apply Hh2|by apply coerces_sym].
  apply has_pruned in Hh2, Hh3; [|done..].
  destruct Hh1 as (_ & Hc1' & He1), Hh2 as (Hw2 & Hc2' & He2), Hh3 as (_ & Hc3' & He3).
  apply answers_leaf; [done|by repeat apply preds_within_app| |done].
  eapply T_ite; [done..|by eapply coerces_trans|done|done].
Qed.
(** * Leaves *)

Lemma infers_leaf U σ n P t k Γ :
  within U σ t -> preds_within U σ P -> typed adts n (made n U n σ) σ Γ P (mkTypedExpr t k) ->
  (forall name ovs, k = EVar name ovs -> ovs = []) ->
  infers U σ n (fun _ => typed_leaf P t k) (answers adts n Γ).
Proof using Hadts Haliases.
  intros Hw HP He Ho. apply infers_ret, answers_leaf; [done..|].
  intros name ovs o Hk Hin. rewrite (Ho _ _ Hk) in Hin. by apply not_elem_of_nil in Hin.
Qed.

(** A literal whose type is a fresh variable. *)
Lemma infers_fresh_leaf U σ n name (P : ty -> list Predicate) k env :
  context U σ n env -> (forall t p, p ∈ P t -> pred_typ p = t) -> (forall name ovs, k <> EVar name ovs) ->
  (forall U t m N, typed adts N (made m U N σ) σ (env_values env) (P t) (mkTypedExpr t k)) ->
  infers U σ n (fun _ => let~ t := fresh_var name in typed_leaf (P t) t k) (answers adts n (env_values env)).
Proof using Hadts Haliases.
  intros [Hok Hv] HP Hk He. apply infers_ready. intros Hr.
  eapply infers_then; [apply infers_fresh|]. intros ? n1 U1 t Ht (-> & HU & _ & Hw).
  apply infers_ret, answers_leaf; [done| |apply He|by intros ??? ?%Hk].
  intros p Hp. by rewrite (HP _ _ Hp).
Qed.

Lemma infers_overloads name (vs : list RegisteredValue) U σ n env :
  context U σ n env -> (forall v, v ∈ vs -> value_scheme v ∈ env_schemes (env_values env)) ->
  infers U σ n (fun f => overload_types f name vs)
    (fun σ' n' U' ts => σ' = σ /\ Forall2 (fun v t => scheme_instance σ (value_scheme v) [] t) vs ts /\
       forall t, t ∈ ts -> within U' σ t).
Proof using Hadts Haliases.
  revert U n. induction vs as [|v vs IH]; intros U n Hctx Hvs; simpl; apply infers_ready; intros Hr.
  { apply infers_ret. split_and!; [done|constructor|by intros t ?%not_elem_of_nil]. }
  destruct Hctx as [Hok Hv]. destruct (negb _); [apply infers_throw|].
  eapply infers_then; [apply infers_apply_scheme|]. reading.
  eapply infers_then; [apply infers_instantiate; [done|eapply env_scheme_ok; [exact Hok|apply Hvs; by left]]|].
  intros ? n1 U1 [P t] Ht (-> & HU & Hi & _ & Hw). simpl in Hi, Hw. advance Ht Hr Hr1.
  destruct P; [|apply infers_throw].
  eapply infers_then; [apply (IH U1 n1); [done|intros; apply Hvs; by right]|].
  intros ? n2 U2 ts Ht2 (-> & Hts & Hws). advance Ht2 Hr1 Hr2. apply infers_ret.
  split_and!; [done|by constructor|]. intros u [->|Hu]%elem_of_cons; auto.
Qed.

Lemma infers_var U σ n env name :
  context U σ n env -> infers U σ n (fun f => infer_var f env name) (answers adts n (env_values env)).
Proof using Hadts Haliases.
  intros [Hok Hv]. apply infers_ready. intros Hr. unfold infer_var.
  eapply (infers_then _ _ (fun σ' n' U' vs => σ' = σ /\ n' = n /\ U' = U /\ env_values env !! name = Some vs)).
  { by apply infers_ok_or. }
  intros ??? vs _ (-> & -> & -> & Hvs).
  assert (forall v, v ∈ vs -> value_scheme v ∈ env_schemes (env_values env)) as Hin.
  { intros v Hv'. apply elem_of_env_schemes. eauto 6. }
  assert (length vs <> 1 -> infers U σ n (fun f =>
    let~ overloads := overload_types f name vs in
    let~ t := fresh_var (Some name) in typed_leaf [] t (EVar name overloads)) (answers adts n (env_values env))) as Hmany.
  { intros Hl. eapply infers_then; [by apply (infers_overloads _ _ _ _ _ env)|].
    intros ? n1 U1 ts Ht1 (-> & Hts & Hws). advance Ht1 Hr Hr1.
    eapply infers_then; [apply infers_fresh|]. intros ? n2 U2 t Ht2 (-> & HU & _ & Hw). advance Ht2 Hr1 Hr2.
    apply infers_ret, answers_leaf; [done|by intros p ?%not_elem_of_nil|by eapply T_overloaded|].
    intros ? ? o [= <- <-] Ho. eapply within_mono; [exact HU|]. by apply Hws. }
  destruct vs as [|v [|v2 vs]]; try by apply Hmany.
  eapply infers_then; [apply infers_apply_scheme|]. reading.
  eapply infers_then; [apply infers_instantiate; [done|eapply env_scheme_ok; [exact Hok|apply Hin; by left]]|].
  intros ? n1 U1 [P t] Ht (-> & HU & Hi & HP & Hw). simpl in *.
  apply infers_ret, answers_leaf; [done..|by eapply T_var|].
  intros ??? [= <- <-] ?%not_elem_of_nil. done.
Qed.
(** * Collections *)

(** An answer for a part, in a state after the one it was given in. *)
Definition part_ok (m : nat) (Γ : Values) (σ : Subst) (n : nat) (U : gset TypeVarId) (P : list Predicate) (t : ty) (e : TypedExpr) : Prop :=
  env_ok U n σ Γ /\ has adts m Γ P U σ n e t /\ preds_within U σ P.

Lemma part_ok_carry m Γ U σ n σ' n' U' P t e :
  touch U σ n σ' n' U' -> ready U σ n -> part_ok m Γ σ n U P t e -> part_ok m Γ σ' n' U' P t e.
Proof using Hadts Haliases. intros Ht Hr (Hok & Hh & HP). carry Ht Hr. done. Qed.

Lemma infers_part U σ n m env known e :
  inferred e -> m <= n -> context U σ n env ->
  infers U σ n (fun f => rec f env known e)
    (fun σ' n' U' r => part_ok m (env_values env) σ' n' U' r.1.1 r.1.2 r.2).
Proof using Hadts Haliases.
  intros He Hm Hctx. apply infers_ready. intros Hr. eapply infers_weaken; [by apply He|].
  intros σ1 n1 U1 r Ht (Hh & HP & _). destruct Hctx as [Hok _]. advance Ht Hr Hr1.
  split_and!; [done| |done]. by eapply has_weaken.
Qed.

(** The parts of a collection, with all their predicates. *)
Lemma parts_has {A} m Γ U σ n (parts : list A) (P : A -> list Predicate) t e a :
  ready U σ n -> part_ok m Γ σ n U (P a) t e -> a ∈ parts ->
  has adts m Γ (concat (map P parts)) U σ n e t.
Proof using Hadts Haliases.
  intros Hr (Hok & Hh & _) Hin. eapply has_weaken; [done..| |exact Hh].
  intros p Hp. apply elem_of_concat. exists (P a). split; [done|]. by apply list_elem_of_fmap_2.
Qed.

Lemma parts_preds {A} U σ (parts : list A) (P : A -> list Predicate) :
  (forall a, a ∈ parts -> preds_within U σ (P a)) -> preds_within U σ (concat (map P parts)).
Proof using Hadts Haliases.
  intros H p (l & Hp & (a & -> & Ha)%list_elem_of_fmap)%elem_of_concat. by apply (H a).
Qed.

Lemma infers_tuple U σ n env known elems :
  Forall inferred elems -> context U σ n env ->
  infers U σ n (fun f => infer_tuple f (rec f) env known elems) (answers adts n (env_values env)).
Proof using Hadts Haliases.
  intros Hes Hctx. apply infers_ready. intros Hr. unfold infer_tuple.
  eapply infers_then.
  { apply infers_map with (R := fun σ' n' U' (_ : Expr) r => part_ok n (env_values env) σ' n' U' r.1.1 r.1.2 r.2).
    - intros. by eapply part_ok_carry.
    - intros σ1 n1 U1 e Hin Ht1. destruct Hctx as [Hok Hv]. advance Ht1 Hr Hr1.
      rewrite Forall_forall in Hes.
      eapply infers_then; [apply (infers_part _ _ _ n); [by apply Hes|lia|done]|]. intros σ2 n2 U2 [[P t] te] Ht2 (Hok2 & Hh & HP). simpl in *.
      eapply infers_then; [apply infers_prune|]. reading. apply infers_ret. simpl.
      split_and!; [done| |done]. apply has_pruned; [by apply Ht2|done]. }
  intros σ1 n1 U1 parts Ht1 Hps. pose proof (touch_ready Ht1) as Hr1. apply infers_ret.
  assert (forall r, r ∈ parts -> part_ok n (env_values env) σ1 n1 U1 r.1.1 r.1.2 r.2) as Hparts.
  { intros r [i Hi]%list_elem_of_lookup. by destruct (Forall2_lookup_r _ _ _ _ _ Hps Hi) as (e & _ & ?). }
  assert (forall r, r ∈ parts -> has adts n (env_values env) (concat (map (fun p => p.1.1) parts)) U1 σ1 n1 r.2 r.1.2) as Hhas.
  { intros r Hin. by apply (parts_has _ _ _ _ _ parts (fun p : Typed => p.1.1) _ _ r); [done|apply Hparts|]. }
  apply answers_leaf.
  - apply within_tuple. intros t (r & -> & Hin)%list_elem_of_fmap. by apply Hhas.
  - apply parts_preds. intros r Hin. by apply Hparts.
  - apply T_tuple.
    + intros e (r & -> & Hin)%list_elem_of_fmap. by apply Hhas.
    + apply Forall2_fmap_2, Forall_Forall2_diag, Forall_forall. intros r Hin. by apply Hhas.
  - done.
Qed.

Lemma infers_elems U σ n m env known elem_tv elems :
  Forall inferred elems -> m <= n -> context U σ n env -> within U σ elem_tv ->
  infers U σ n (fun f => infer_elems f (rec f) env known elem_tv elems)
    (fun σ' n' U' parts => Forall2 (fun (_ : Expr) r => part_ok m (env_values env) σ' n' U' r.1 elem_tv r.2) elems parts).
Proof using Hadts Haliases.
  intros Hes Hm Hctx Hw. apply infers_ready. intros Hr. unfold infer_elems.
  apply infers_map with (R := fun σ' n' U' (_ : Expr) r => part_ok m (env_values env) σ' n' U' r.1 elem_tv r.2).
  - intros. by eapply part_ok_carry.
  - intros σ1 n1 U1 e Hin Ht1. destruct Hctx as [Hok Hv]. advance Ht1 Hr Hr1.
    rewrite Forall_forall in Hes.
    eapply infers_then; [apply (infers_part _ _ _ m); [by apply Hes|lia|done]|].
    intros σ2 n2 U2 [[P t] te] Ht2 (Hok2 & Hh & HP). simpl in *. advance Ht2 Hr1 Hr2.
    eapply infers_then; [apply infers_unify; [apply Hh|done]|]. intros σ3 ? ? ? Ht3 (-> & -> & Hc%compat_coerces).
    advance Ht3 Hr2 Hr3. apply infers_ret. split_and!; [done| |done]. simpl.
    by eapply has_same.
Qed.

(** The elements of a list or a dictionary. *)
Lemma infers_collection U σ n env known name elems :
  Forall inferred elems -> context U σ n env ->
  infers U σ n (fun f =>
    let~ elem_tv := fresh_var name in
    let~ parts := infer_elems f (rec f) env known elem_tv elems in
    let~ elem_ty := prune_type f elem_tv in rret (parts, elem_ty))
    (fun σ' n' U' r => length r.1 = length elems /\ within U' σ' r.2 /\ preds_within U' σ' (concat (map fst r.1)) /\
       forall p, p ∈ r.1 -> has adts n (env_values env) (concat (map fst r.1)) U' σ' n' p.2 r.2).
Proof using Hadts Haliases.
  intros Hes [Hok Hv]. apply infers_ready. intros Hr.
  eapply infers_then; [apply infers_fresh|]. intros ? n1 U1 t Ht1 (-> & _ & _ & Hw). advance Ht1 Hr Hr1.
  eapply infers_then; [by apply (infers_elems _ _ _ n)|]. intros σ2 n2 U2 parts Ht2 Hps. advance Ht2 Hr1 Hr2.
  eapply infers_then; [apply infers_prune|]. reading. apply infers_ret. simpl.
  pose proof (ready_settled _ _ _ Hr2) as Hs.
  assert (forall r, r ∈ parts -> part_ok n (env_values env) σ2 n2 U2 r.1 t r.2) as Hparts.
  { intros r [i Hi]%list_elem_of_lookup. by destruct (Forall2_lookup_r _ _ _ _ _ Hps Hi) as (e & _ & ?). }
  split_and!; [by rewrite <- (Forall2_length _ _ _ Hps)|by apply within_pruned| |].
  - apply parts_preds. intros r Hin. by apply Hparts.
  - intros r Hin. apply has_pruned; [done|]. by apply (parts_has _ _ _ _ _ parts fst _ _ r); [done|apply Hparts|].
Qed.

Lemma infers_list U σ n env known elems :
  Forall inferred elems -> context U σ n env ->
  infers U σ n (fun f => infer_list f (rec f) env known elems) (answers adts n (env_values env)).
Proof using Hadts Haliases.
  intros Hes Hctx.
  eapply (infers_ext _ _ _ _ (fun f => let~ (parts, elem_ty) :=
    (let~ elem_tv := fresh_var (Some "a") in
     let~ parts := infer_elems f (rec f) env known elem_tv elems in
     let~ elem_ty := prune_type f elem_tv in rret (parts, elem_ty)) in
    typed_leaf (concat (map fst parts)) (Type_list elem_ty) (EList (map snd parts)))).
  { intros f st. unfold infer_list, rthen, rret. by repeat case_match; simplify_eq. }
  eapply infers_then; [by apply infers_collection|]. intros σ1 n1 U1 [parts t] Ht (_ & Hw & HP & Hps). simpl in *.
  apply infers_ret, answers_leaf; [by apply list_elem_within|done| |done].
  apply T_list; intros e (r & -> & Hin)%list_elem_of_fmap; by apply Hps.
Qed.

Lemma infers_dict U σ n env known (kvs : list (Symbol * Expr)) :
  Forall inferred (map snd kvs) -> context U σ n env ->
  infers U σ n (fun f => infer_dict f (rec f) env known kvs) (answers adts n (env_values env)).
Proof using Hadts Haliases.
  intros Hes Hctx.
  eapply (infers_ext _ _ _ _ (fun f => let~ (parts, elem_ty) :=
    (let~ elem_tv := fresh_var (Some "v") in
     let~ parts := infer_elems f (rec f) env known elem_tv (map snd kvs) in
     let~ elem_ty := prune_type f elem_tv in rret (parts, elem_ty)) in
    typed_leaf (concat (map fst parts)) (Type_dict elem_ty) (EDict (zip (map fst kvs) (map snd parts))))).
  { intros f st. unfold infer_dict, rthen, rret. by repeat case_match; simplify_eq. }
  eapply infers_then; [by apply infers_collection|]. intros σ1 n1 U1 [parts t] Ht (_ & Hw & HP & Hps). simpl in *.
  apply infers_ret, answers_leaf; [by apply list_elem_within|done| |done].
  apply T_dict; intros [k e] Hin%elem_of_zip_r; apply list_elem_of_fmap in Hin as (r & -> & Hin); simpl; by apply Hps.
Qed.
(** * Fields *)

(** The loop that the updates of a record, the fields of a record and those of a
    partial record share. *)
Fixpoint fields_loop (infer : ty -> Expr -> stateful Infer Typed) (err : Symbol -> TypeError) (fuel : nat)
    (expected : list (Symbol * ty)) (l : list (Symbol * Expr)) (acc : list Predicate * list (Symbol * TypedExpr))
    : stateful Infer (list Predicate * list (Symbol * TypedExpr)) :=
  match l with
  | [] => rret acc
  | (k, v) :: l =>
      let~ expected_ty := ok_or (btree_get expected k) (err k) in
      let~ (p1, t1, typed_v) := infer expected_ty v in
      let~ (_, typed_v) := coerce_typed_to_expected fuel t1 expected_ty typed_v in
      fields_loop infer err fuel expected l (acc.1 ++ p1, acc.2 ++ [(k, typed_v)])
  end.

(** [kvs] has some of the fields. *)
Definition fields_ok (m : nat) (Γ : Values) (σ : Subst) (n : nat) (U : gset TypeVarId) (expected : list (Symbol * ty))
    (P : list Predicate) (kvs : list (Symbol * TypedExpr)) : Prop :=
  env_ok U n σ Γ /\ preds_within U σ P /\
  forall kv, kv ∈ kvs -> exists ft, (kv.1, ft) ∈ expected /\ has adts m Γ P U σ n kv.2 ft.

Lemma fields_ok_carry m Γ U σ n σ' n' U' expected P kvs :
  touch U σ n σ' n' U' -> ready U σ n -> fields_ok m Γ σ n U expected P kvs -> fields_ok m Γ σ' n' U' expected P kvs.
Proof using Hadts Haliases.
  intros Ht Hr (Hok & HP & Hkv). split_and!; [by apply (env_ok_carry Ht Hr)|by apply (preds_carry Ht Hr)|].
  intros kv Hin. destruct (Hkv kv Hin) as (ft & ? & ?). exists ft. split; [done|]. by apply (has_carry _ Ht Hr).
Qed.

Lemma btree_get_in {V} (m : list (Symbol * V)) k v : btree_get m k = Some v -> (k, v) ∈ m.
Proof using Type.
  induction m as [|[k' v'] m IH]; simpl; [done|]. case_decide; [intros [= ->]; subst; by left|]. right. auto.
Qed.

Lemma infers_fields (g : nat -> ty -> Expr -> stateful Infer Typed) err expected l : forall acc m U σ n env,
  (forall v U σ n t, v ∈ map snd l -> context U σ n env -> within U σ t ->
     infers U σ n (fun f => g f t v) (answers adts n (env_values env))) ->
  m <= n -> context U σ n env -> (forall f, f ∈ expected -> within U σ f.2) ->
  fields_ok m (env_values env) σ n U expected acc.1 acc.2 ->
  infers U σ n (fun f => fields_loop (g f) err f expected l acc)
    (fun σ' n' U' r => acc.1 ⊆ r.1 /\ map fst r.2 = map fst acc.2 ++ map fst l /\
       fields_ok m (env_values env) σ' n' U' expected r.1 r.2).
Proof using Hadts Haliases.
  induction l as [|[k v] l IH]; intros acc m U σ n env Hg Hm Hctx Hex Hf; simpl; apply infers_ready; intros Hr.
  { apply infers_ret. by rewrite app_nil_r. }
  eapply (infers_then _ _ (fun σ' n' U' t => σ' = σ /\ n' = n /\ U' = U /\ (k, t) ∈ expected)).
  { apply infers_ok_or. intros t Ht. split_and!; [done..|]. by apply btree_get_in. }
  intros ??? t _ (-> & -> & -> & Hin). pose proof (Hex _ Hin) as Hw. simpl in Hw. pose proof Hctx as [Hok Hv].
  eapply infers_then; [by apply Hg; [left| |]|]. intros σ1 n1 U1 [[P t1] te] Ht1 (Hh & HP & _). simpl in *.
  apply (fields_ok_carry _ _ _ _ _ _ _ _ _ _ _ Ht1 Hr) in Hf.
  assert (forall f, f ∈ expected -> within U1 σ1 f.2) as Hex1 by (intros f ?; by apply (within_carry Ht1 Hr), Hex).
  advance Ht1 Hr Hr1.
  eapply infers_then; [apply infers_coerce; [apply Hh|done]|]. intros σ2 ? ? [t2 te'] Ht2 (-> & -> & _ & Hco). simpl in Hco.
  apply (fields_ok_carry _ _ _ _ _ _ _ _ _ _ _ Ht2 Hr1) in Hf.
  assert (forall f, f ∈ expected -> within U1 σ2 f.2) as Hex2 by (intros f ?; by apply (within_carry Ht2 Hr1), Hex1).
  advance Ht2 Hr1 Hr2.
  eapply infers_weaken.
  { apply (IH (acc.1 ++ P, acc.2 ++ [(k, te')]) m); [| lia|done|done|].
    - intros v' U' σ' n' t' Hv'. apply Hg. by right.
    - destruct Hf as (_ & HP0 & Hkv). split_and!; [done|by apply preds_within_app|]. simpl.
      intros kv [Hkv'|[= ->]%list_elem_of_singleton]%elem_of_app.
      + destruct (Hkv kv Hkv') as (ft & ? & ?). exists ft. split; [done|]. eapply has_weaken; [done|done|apply le_n| |done]. set_solver.
      + exists t. split; [done|]. eapply has_coerced; [done|done|].
        eapply has_weaken; [done|done| | |exact Hh]; [lia|set_solver]. }
  simpl. intros σ3 n3 U3 r Ht3 (HP3 & Hk & H3). split_and!; [set_solver| |done].
  rewrite Hk, map_app. simpl. by rewrite <- app_assoc.
Qed.

Lemma btree_collect_in (l : list (Symbol * ty)) f : f ∈ btree_collect l -> f ∈ l.
Proof using Hadts Haliases.
  unfold btree_collect, btree_extend. assert (forall m, f ∈ foldl (fun m e => btree_insert e.1 e.2 m) m l -> f ∈ m \/ f ∈ l) as H.
  { induction l as [|[k v] l IH]; intros m; simpl; [by left|]. intros [Hm|?]%IH; [|right; by right].
    simpl in Hm. clear IH. induction m as [|[k' v'] m IHm]; simpl in Hm; [right; set_solver|].
    case_decide; [set_solver|]. destruct (str_le k k'); set_solver. }
  intros [?%not_elem_of_nil|]%H; done.
Qed.

(** * Projections and updates *)

Lemma typed_updates_loop fuel r env known expected result_ty updates : forall acc st,
  typed_updates fuel r env known expected result_ty updates acc st =
  fields_loop (fun _ v => r env known v) (fun k => UnknownField k (show_ty result_ty)) fuel expected updates acc st.
Proof using Type.
  induction updates as [|[k v] updates IH]; intros acc st; simpl; [done|]. unfold rthen.
  repeat (case_match; simplify_eq; try done).
Qed.

Lemma infers_update_of_base U σ n m env known base updates P t e :
  Forall inferred (map snd updates) -> m <= n -> context U σ n env -> part_ok m (env_values env) σ n U P t e ->
  infers U σ n (fun f => typed_update_of_base adts f (rec f) env known base updates P t e) (answers adts m (env_values env)).
Proof using Hadts Haliases.
  intros Hes Hm [_ Hv] (Hok & Hh & HP). apply infers_ready. intros Hr. unfold typed_update_of_base.
  eapply infers_then; [apply infers_prune|]. reading. pose proof (ready_settled _ _ _ Hr) as Hs.
  apply has_pruned in Hh; [|done]. set (base_ty := subst σ t) in *.
  eapply infers_then; [apply infers_resolve_update; [done|apply Hh]|].
  intros σ1 n1 U1 [result_ty fields] Ht1 (Hc & Hfs & Hw & Hws). simpl in *. advance Ht1 Hr Hr1.
  eapply infers_then.
  { eapply infers_ext; [intros f st; apply typed_updates_loop|].
    apply (infers_fields (fun f _ v => rec f env known v) _ _ _ _ m _ _ _ env); [|lia|done| |].
    - intros v U' σ' n' t' Hin Hctx _. rewrite Forall_forall in Hes. by apply Hes.
    - intros f Hf%btree_collect_in. by apply Hws.
    - split_and!; [done..|]. by intros kv ?%not_elem_of_nil. }
  intros σ2 n2 U2 [P2 kvs] Ht2 (HP2 & _ & (Hok2 & HPw & Hkv)). simpl in *.
  apply (fields_of_carry Ht2 adts) in Hfs. advance Ht2 Hr1 Hr2.
  apply infers_ret, answers_leaf; [done|done| |done].
  assert (has adts m (env_values env) P2 U2 σ2 n2 e base_ty) as Hb.
  { eapply has_weaken; [done|done|apply le_n|exact HP2|done]. }
  eapply T_update; [apply Hb| |exact Hfs| |].
  - eapply coerces_trans; [apply Hb|done].
  - intros kv Hin. by destruct (Hkv kv Hin) as (ft & _ & _ & _ & He).
  - intros kv Hin. destruct (Hkv kv Hin) as (ft & Hft%btree_collect_in & _ & Hc' & _). by exists ft.
Qed.
Lemma infers_record_update U σ n env known base updates :
  inferred base -> Forall inferred (map snd updates) -> context U σ n env ->
  infers U σ n (fun f => infer_record_update adts f (rec f) env known base updates) (answers adts n (env_values env)).
Proof using Hadts Haliases.
  intros Hb Hes Hctx. apply infers_ready. intros Hr. unfold infer_record_update.
  eapply infers_then; [by apply (infers_part _ _ _ n)|]. intros σ1 n1 U1 [[P t] te] Ht1 Hp. simpl in Hp.
  pose proof (touch_le _ _ _ _ _ _ Ht1). apply infers_update_of_base; [done|done| |done].
  split; [apply Hp|apply Hctx].
Qed.

Lemma infers_project U σ n env known span base field :
  inferred base -> context U σ n env -> (forall v, inferred (XVar v)) ->
  infers U σ n (fun f => infer_project adts f (rec f) env known span base field) (answers adts n (env_values env)).
Proof using Hadts Haliases.
  intros Hb Hctx Hvar. unfold infer_project. destruct (constructor_project_symbol _ _ _ _) as [c|]; [by apply Hvar|].
  apply infers_ready. intros Hr.
  eapply infers_then; [by apply (infers_part _ _ _ n)|]. intros σ1 n1 U1 [[P t] te] Ht1 (Hok & Hh & HP). simpl in *.
  pose proof (touch_ready Ht1) as Hr1.
  eapply infers_then; [apply infers_prune|]. reading. pose proof (ready_settled _ _ _ Hr1) as Hs.
  apply has_pruned in Hh; [|done].
  eapply infers_then; [apply infers_resolve_projection; [done|apply Hh]|].
  intros σ2 n2 U2 ft Ht2 (Hp & Hw). advance Ht2 Hr1 Hr2.
  apply infers_ret, answers_leaf; [done|done| |done]. eapply T_project; [apply Hh|apply Hh|done].
Qed.

(** * Hints *)

(** [infer_expr_typed_with_hint] has fuel of its own, which is [d] less. *)
Definition hinted (e : Expr) : Prop := forall d U σ n env known hint,
  context U σ n env -> (forall t, hint = Some t -> within U σ t) ->
  infers U σ n (fun f => infer_expr_typed_with_hint adts f (rec f) (f - d) env known hint e)
    (answers adts n (env_values env)).

Lemma infers_hint_S d U σ n env known hint e Q :
  infers U σ n (fun f => match hint, e with
      | Some arg_hint, XRecordUpdate _ base updates =>
          infer_record_update_typed_with_hint adts f (rec f) env known base updates arg_hint
      | Some (TRecord fields), XDict _ kvs =>
          typed_record f (infer_expr_typed_with_hint adts f (rec f) (f - S d) env known) fields kvs
      | _, arg => rec f env known arg
      end) Q ->
  infers U σ n (fun f => infer_expr_typed_with_hint adts f (rec f) (f - d) env known hint e) Q.
Proof using Type.
  apply (infers_eventually (S d)). intros f Hf. assert (f - d = S (f - S d)) as -> by lia. done.
Qed.

Lemma typed_record_fields_loop fuel hint fields expected kvs : forall acc st,
  typed_record_fields fuel hint fields expected kvs acc st =
  fields_loop (fun t v => hint (Some t) v) (fun k => UnknownField k (show_ty (Type_record fields))) fuel expected kvs acc st.
Proof using Type.
  induction kvs as [|[k v] kvs IH]; intros acc st; simpl; [done|]. unfold rthen.
  repeat (case_match; simplify_eq; try done).
Qed.

Lemma infers_update_hint U σ n env known base updates hint :
  inferred base -> Forall inferred (map snd updates) -> context U σ n env -> within U σ hint ->
  infers U σ n (fun f => infer_record_update_typed_with_hint adts f (rec f) env known base updates hint)
    (answers adts n (env_values env)).
Proof using Hadts Haliases.
  intros Hb Hes Hctx Hw. apply infers_ready. intros Hr. unfold infer_record_update_typed_with_hint.
  eapply infers_then; [by apply (infers_part _ _ _ n)|]. intros σ1 n1 U1 [[P t] te] Ht1 Hp. simpl in Hp.
  advance Ht1 Hr Hr1.
  eapply infers_then; [apply infers_unify; [apply Hp|done]|]. intros σ2 ? ? ? Ht2 (-> & -> & _).
  apply (part_ok_carry _ _ _ _ _ _ _ _ _ _ _ Ht2 Hr1) in Hp.
  apply infers_update_of_base; [done|done| |done]. split; [apply Hp|apply Hctx].
Qed.

Lemma missing_field_none expected given :
  missing_field expected given = None -> forall k, k ∈ map fst expected -> k ∈ given.
Proof using Type.
  unfold missing_field. intros H k Hin.
  pose proof (List.find_none _ _ H k (proj1 (list_elem_of_In _ _) Hin)) as Hn.
  apply negb_false_iff, bool_decide_eq_true in Hn. done.
Qed.

Lemma btree_collect_keys (l : list (Symbol * ty)) f : f ∈ l -> f.1 ∈ map fst (btree_collect l).
Proof using Type.
  unfold btree_collect, btree_extend. intros Hf.
  assert (forall (m : list (Symbol * ty)) k v x, x ∈ map fst m \/ x = k -> x ∈ map fst (btree_insert k v m)) as Hins.
  { clear. induction m as [|[k' v'] m IH]; intros k v x; simpl; [set_solver|].
    case_decide; [set_solver|]. destruct (str_le k k'); simpl; [set_solver|].
    intros [[->|?]%elem_of_cons| ->]; [by left|right; auto..]. }
  assert (forall m, f.1 ∈ map fst m \/ f ∈ l -> f.1 ∈ map fst (foldl (fun m e => btree_insert e.1 e.2 m) m l)) as H.
  { clear Hf. induction l as [|e l IH]; intros m; simpl; [by intros [?|?%not_elem_of_nil]|].
    intros [H|[->|H]%elem_of_cons]; apply IH; [left|left|by right]; apply Hins; auto. }
  apply H. by right.
Qed.

Lemma infers_typed_record d U σ n env known kvs fields :
  Forall hinted (map snd kvs) -> context U σ n env -> within U σ (TRecord fields) ->
  infers U σ n (fun f => typed_record f (infer_expr_typed_with_hint adts f (rec f) (f - d) env known) fields kvs)
    (answers adts n (env_values env)).
Proof using Hadts Haliases.
  intros Hes [Hok Hv] Hw. apply infers_ready. intros Hr. unfold typed_record. rewrite within_record in Hw.
  eapply infers_then.
  { eapply infers_ext; [intros f st; apply typed_record_fields_loop|].
    apply (infers_fields (fun f t v => infer_expr_typed_with_hint adts f (rec f) (f - d) env known (Some t) v)
      _ _ _ _ n _ _ _ env); [|lia|done| |].
    - intros v U' σ' n' t' Hin Hctx' Hw'. rewrite Forall_forall in Hes. apply Hes; [done..|]. by intros t [= <-].
    - intros f Hf%btree_collect_in. by apply Hw.
    - split_and!; [done|by intros p ?%not_elem_of_nil|by intros kv ?%not_elem_of_nil]. }
  intros σ1 n1 U1 [P typed_kvs] Ht1 (_ & _ & (Hok1 & HP & Hkv)). simpl in *.
  destruct (missing_field _ _) eqn:Em; [apply infers_throw|].
  assert (forall f, f ∈ fields -> within U1 σ1 f.2) as Hws by (intros f Hf; by apply (within_carry Ht1 Hr), Hw).
  advance Ht1 Hr Hr1. pose proof (ready_settled _ _ _ Hr1) as Hs.
  eapply infers_then; [apply infers_prune_fields|]. reading. apply infers_ret.
  assert (forall f, f ∈ sort_by_key fst (map (fun f => (f.1, subst σ1 f.2)) fields) <->
    exists g, g ∈ fields /\ f = (g.1, subst σ1 g.2)) as Hsorted.
  { intros f. rewrite sort_by_key_elem, list_elem_of_fmap. naive_solver. }
  apply answers_leaf; [|done| |done].
  - apply within_record. intros f (g & Hg & ->)%Hsorted. simpl. by apply within_pruned, Hws.
  - apply T_record.
    + intros kv Hin. by destruct (Hkv kv Hin) as (ft & _ & _ & _ & He).
    + intros kv Hin. destruct (Hkv kv Hin) as (ft & Hft%btree_collect_in & _ & Hc & _).
      exists (subst σ1 ft). split; [apply Hsorted; by exists (kv.1, ft)|].
      eapply coerces_trans; [exact Hc|]. by apply same_coerces, eq_sym, same_pruned.
    + intros f (g & Hg & ->)%Hsorted. simpl. eapply missing_field_none; [exact Em|]. by apply btree_collect_keys.
Qed.

Lemma hinted_inferred e :
  (forall sp kvs, e <> XDict sp kvs) -> (forall sp b u, e <> XRecordUpdate sp b u) -> inferred e -> hinted e.
Proof using Hadts Haliases.
  intros H1 H2 He d U σ n env known hint Hctx Hw. apply infers_hint_S.
  destruct hint as [[]|]; try by apply He; destruct e; try by edestruct H1.
  all: destruct e; try (by apply He); try (by edestruct H1); by edestruct H2.
Qed.

Lemma hinted_dict sp kvs : inferred (XDict sp kvs) -> Forall hinted (map snd kvs) -> hinted (XDict sp kvs).
Proof using Hadts Haliases.
  intros He Hes d U σ n env known hint Hctx Hw. apply infers_hint_S.
  destruct hint as [t|]; [|by apply He]. destruct t; try (by apply He).
  apply infers_typed_record; [done..|by apply Hw].
Qed.

Lemma hinted_update sp base updates :
  inferred (XRecordUpdate sp base updates) -> inferred base -> Forall inferred (map snd updates) ->
  hinted (XRecordUpdate sp base updates).
Proof using Hadts Haliases.
  intros He Hb Hes d U σ n env known hint Hctx Hw. apply infers_hint_S.
  destruct hint as [t|]; [|by apply He].
  assert (infers U σ n (fun f => infer_record_update_typed_with_hint adts f (rec f) env known base updates t)
    (answers adts n (env_values env))) as H by (apply infers_update_hint; [done..|by apply Hw]).
  by destruct t.
Qed.

Lemma infers_hint U σ n env known hint e :
  hinted e -> context U σ n env -> (forall t, hint = Some t -> within U σ t) ->
  infers U σ n (fun f => infer_expr_typed_with_hint adts f (rec f) f env known hint e) (answers adts n (env_values env)).
Proof using Type.
  intros He Hctx Hw. eapply (infers_eventually 0); [|by apply (He 0)]. intros f _. simpl. by rewrite Nat.sub_0_r.
Qed.

(** * Annotations *)

Lemma overloads_carry U σ n σ' n' U' e :
  touch U σ n σ' n' U' -> ready U σ n -> overloads_within U σ e -> overloads_within U' σ' e.
Proof using Type. intros Ht Hr Ho name ovs o Hk Hin. apply (within_carry Ht Hr). by eapply Ho. Qed.

Lemma overloads_coerced U σ a b e e' : coerced σ a b e e' -> overloads_within U σ e -> overloads_within U σ e'.
Proof using Type. intros [[-> _]|(x & y & _ & _ & _ & ->)] Ho; [done|]. by intros name ovs o [=]. Qed.

Lemma infers_coerced m U σ n P t e expected env :
  env_ok U n σ (env_values env) -> answers adts m (env_values env) σ n U (P, t, e) -> within U σ expected ->
  infers U σ n (fun f => let~ (t, e) := coerce_typed_to_expected f t expected e in rret (P, t, e))
    (answers adts m (env_values env)).
Proof using Hadts Haliases.
  intros Hok (Hh & HP & Ho) Hw. simpl in *. apply infers_ready. intros Hr.
  eapply infers_then; [apply infers_coerce; [apply Hh|done]|].
  intros σ1 ? ? [t' e'] Ht1 (-> & -> & Hs & Hc). simpl in *.
  apply (overloads_carry _ _ _ _ _ _ _ Ht1 Hr) in Ho. carry Ht1 Hr.
  apply infers_ret. split_and!; [|done|by eapply overloads_coerced]. simpl.
  eapply has_same; [by eapply within_same|by apply same_coerces, eq_sym|]. by eapply has_coerced.
Qed.

Lemma infers_ann U σ n env known e ann :
  hinted e -> context U σ n env ->
  infers U σ n (fun f => infer_ann adts aliases f (rec f) env known e ann) (answers adts n (env_values env)).
Proof using Hadts Haliases.
  intros He [Hok Hv]. apply infers_ready. intros Hr. unfold infer_ann. rewrite Hv.
  eapply infers_then; [by apply infers_annotation|]. intros ??? t _ (-> & -> & -> & Hc).
  eapply infers_then; [by apply infers_hint; [| |intros ? [= <-]; by apply closed_within]|].
  intros σ1 n1 U1 [[P t1] e1] Ht1 Ha. advance Ht1 Hr Hr1.
  apply infers_coerced; [done|done|]. by apply closed_within.
Qed.

(** * Matches *)

Lemma pat_typed_same σ Γ P p t binds binds' :
  pat_typed σ Γ P p t binds -> Forall2 (fun b' b => b'.1 = b.1 /\ same σ b'.2 b.2) binds' binds ->
  pat_typed σ Γ P p t binds'.
Proof using Type.
  intros Hp Hb. inversion Hp; subst.
  - apply Forall2_nil_inv_r in Hb as ->. constructor.
  - apply Forall2_cons_inv_r in Hb as ([x u] & binds1 & [Hx Hu] & Hb & ->). apply Forall2_nil_inv_r in Hb as ->.
    simpl in *. subst x. constructor. unfold same in *. congruence.
  - eapply PT_named; try eassumption. by eapply pats_typed_same.
  - eapply PT_list; try eassumption. by eapply pats_typed_same.
  - eapply PT_cons; [exact H|exact H0|exact H1|]. by eapply pats_typed_same.
  - eapply PT_tuple; try eassumption. by eapply pats_typed_same.
  - eapply PT_record; try eassumption. by eapply pats_typed_same.
  - eapply PT_dict; try eassumption. by eapply pats_typed_same.
Qed.

(** An arm of a match on a scrutinee of type [t1], whose result has type [t]. *)
Definition arm_ok (m : nat) (Γ : Values) (σ : Subst) (n : nat) (U : gset TypeVarId) (P : list Predicate) (t1 t : ty)
    (arm : Pattern * TypedExpr) : Prop :=
  exists a bs, coerces σ t1 a /\ pat_typed σ Γ P arm.1 a bs /\ binds_within U σ bs /\
    coerces σ (te_typ arm.2) t /\ elab adts m (bind_types bs Γ) P U σ n arm.2.

Lemma binds_carry U σ n σ' n' U' bs :
  touch U σ n σ' n' U' -> ready U σ n -> binds_within U σ bs -> binds_within U' σ' bs.
Proof using Type. intros Ht Hr Hb b Hin. by apply (within_carry Ht Hr), Hb. Qed.

(** One arm. *)
Definition infer_arm (f : nat) (env : TypeEnv) (known : KnownVariants) (scrutinee : Expr) (t1 res_ty : ty) (p : Pattern) (e : Expr)
    : stateful Infer (list Predicate * (Pattern * TypedExpr)) :=
  let~ scrutinee_ty := prune_type f t1 in
  let~ (p_pat, binds) := infer_pattern f env p scrutinee_ty in
  let~ env_arm := arm_env f env binds in
  let~ (p_expr, t_expr, typed_expr) := rec f env_arm (arm_known adts known scrutinee p) e in
  let~ _ := unify_in f res_ty t_expr in
  rret (p_pat ++ p_expr, (p, typed_expr)).

Lemma infer_arms_cons f env known scrutinee t1 res_ty p e arms acc st :
  infer_arms adts f (rec f) env known scrutinee t1 res_ty ((p, e) :: arms) acc st =
  (let~ (preds, arm) := infer_arm f env known scrutinee t1 res_ty p e in
   infer_arms adts f (rec f) env known scrutinee t1 res_ty arms (acc.1 ++ preds, acc.2 ++ [arm])) st.
Proof using Type.
  cbn [infer_arms]. unfold infer_arm, rthen, rret. by repeat (case_match; simplify_eq; try done).
Qed.

Lemma infers_arm env known scrutinee t1 t p e U σ n :
  inferred e -> context U σ n env -> within U σ t1 -> within U σ t ->
  infers U σ n (fun f => infer_arm f env known scrutinee t1 t p e)
    (fun σ' n' U' r => preds_within U' σ' r.1 /\ arm_ok n (env_values env) σ' n' U' r.1 t1 t r.2).
Proof using Hadts Haliases.
  intros He [Hok Hv] Hw1 Hw. apply infers_ready. intros Hr. pose proof (ready_settled _ _ _ Hr) as Hs. unfold infer_arm.
  eapply infers_then; [apply infers_prune|]. reading.
  eapply infers_then; [apply infers_pattern; [done|by apply within_pruned]|].
  intros σ1 n1 U1 [Pp bs0] Ht1 (Hp & HPp & Hb). simpl in *.
  assert (coerces σ t1 (subst σ t1)) as Hc1 by by apply same_coerces, eq_sym, same_pruned.
  advance Ht1 Hr Hr1. pose proof (ready_settled _ _ _ Hr1) as Hs1. unfold arm_env.
  eapply infers_then.
  { eapply infers_then; [apply infers_prune_binds|]. reading.
    by apply (infers_ret (U := U1) _ (fun σ' n' U' env' => σ' = σ1 /\ n' = n1 /\ U' = U1 /\
      env' = extend_all (map (fun b => (b.1, subst σ1 b.2)) bs0) env)). }
  reading. apply (fun H => pat_typed_same _ _ _ _ _ _ _ H (pruned_binds_same σ1 bs0 Hs1)) in Hp.
  apply pruned_binds_within in Hb; [|done]. set (bs := map _ bs0) in *.
  eapply infers_then.
  { apply He. split; [rewrite extend_all_values; by apply env_ok_types|by rewrite extend_all_type_vars]. }
  rewrite extend_all_values. intros σ2 n2 U2 [[P2 t2] e2] Ht2 (Hh & HP2 & _). simpl in *.
  assert (env_ok U1 n1 σ1 (bind_types bs (env_values env))) as Hokb by by apply env_ok_types.
  apply (pat_carry Ht2 Hr1 _ _ Pp) in Hp; [|apply Hok|apply entailed_refl].
  apply (binds_carry _ _ _ _ _ _ _ Ht2 Hr1) in Hb. advance Ht2 Hr1 Hr2.
  eapply infers_then; [apply infers_unify; [done|apply Hh]|].
  intros σ3 ? ? ? Ht3 (-> & -> & Hc%compat_coerces).
  apply (pat_carry Ht3 Hr2 _ _ (Pp ++ P2)) in Hp; [|apply Hok|apply entailed_subset; set_solver].
  apply (binds_carry _ _ _ _ _ _ _ Ht3 Hr2) in Hb. advance Ht3 Hr2 Hr3.
  apply infers_ret. simpl. split; [by apply preds_within_app|].
  exists (subst σ t1), bs. simpl. split_and!; [done|done|done| |].
  - eapply coerces_trans; [apply Hh|]. by apply coerces_sym.
  - eapply (has_weaken _ n1 n _ _ (Pp ++ P2)) in Hh; [apply Hh|done|done|lia|set_solver].
Qed.

Lemma arm_ok_carry m m' Γ U σ n σ' n' U' P P' t1 t arm :
  touch U σ n σ' n' U' -> ready U σ n -> env_ok U n σ Γ -> m' <= m -> P ⊆ P' -> arm_ok m Γ σ n U P t1 t arm ->
  arm_ok m' Γ σ' n' U' P' t1 t arm.
Proof using Hadts Haliases.
  intros Ht Hr Hok Hm HP (a & bs & Hc & Hp & Hb & Hct & He). exists a, bs.
  pose proof (touch_extends _ _ _ _ _ _ Ht) as Hx. split_and!.
  - by eapply coerces_carry.
  - eapply (pat_carry Ht Hr); [apply Hok|by apply entailed_subset|done].
  - by eapply binds_carry.
  - by eapply coerces_carry.
  - eapply (elab_carry _ Ht Hr); [|exact Hm|by apply entailed_subset|done]. by apply env_ok_types.
Qed.

Lemma infers_arms m env known scrutinee t1 t arms : forall acc U σ n,
  Forall inferred (map snd arms) -> m <= n -> context U σ n env -> within U σ t1 -> within U σ t ->
  preds_within U σ acc.1 -> (forall arm, arm ∈ acc.2 -> arm_ok m (env_values env) σ n U acc.1 t1 t arm) ->
  infers U σ n (fun f => infer_arms adts f (rec f) env known scrutinee t1 t arms acc)
    (fun σ' n' U' r => acc.1 ⊆ r.1 /\ preds_within U' σ' r.1 /\
       forall arm, arm ∈ r.2 -> arm_ok m (env_values env) σ' n' U' r.1 t1 t arm).
Proof using Hadts Haliases.
  induction arms as [|[p e] arms IH]; intros [P0 arms0] U σ n Hes Hm [Hok Hv] Hw1 Hw HP0 Ha; apply infers_ready; intros Hr;
    [by apply infers_ret|].
  apply Forall_cons in Hes as [He Hes]. fold (map (@snd Pattern Expr) arms) in Hes.
  eapply infers_ext; [intros f st; apply infer_arms_cons|]. simpl in He, HP0, Ha.
  eapply infers_then; [by apply infers_arm|]. intros σ1 n1 U1 [P1 arm] Ht1 (HP1 & Harm). simpl in *.
  assert (forall a, a ∈ arms0 -> arm_ok m (env_values env) σ1 n1 U1 (P0 ++ P1) t1 t a) as Ha1.
  { intros a Hin. eapply (arm_ok_carry m m); [exact Ht1|done..| |by apply Ha]. set_solver. }
  advance Ht1 Hr Hr1.
  eapply infers_weaken; [apply IH; [done|lia|done..|by apply preds_within_app|]|].
  - simpl. intros a [Hin|[= ->]%list_elem_of_singleton]%elem_of_app; [by apply Ha1|].
    eapply (arm_ok_carry n m); [by apply touch_refl|done|done|lia| |done]. set_solver.
  - simpl. intros σ2 n2 U2 r _ (HP2 & H2). split; [set_solver|done].
Qed.

Lemma infers_match U σ n env known scrutinee arms :
  inferred scrutinee -> Forall inferred (map snd arms) -> context U σ n env ->
  infers U σ n (fun f => infer_match adts f (rec f) env known scrutinee arms) (answers adts n (env_values env)).
Proof using Hadts Haliases.
  intros Hs Hes Hctx. apply infers_ready. intros Hr. unfold infer_match.
  eapply infers_then; [by apply (infers_part _ _ _ n)|]. intros σ1 n1 U1 [[P1 t1] e1] Ht1 (Hok & Hh & HP). simpl in *.
  destruct Hctx as [_ Hv]. pose proof (touch_ready Ht1) as Hr1. pose proof (touch_le _ _ _ _ _ _ Ht1).
  eapply infers_then; [apply infers_fresh|]. intros ? n2 U2 t Ht2 (-> & _ & _ & Hw). advance Ht2 Hr1 Hr2.
  eapply infers_then.
  { apply (infers_arms n); [done|lia|done|apply Hh|done|done|]. by intros arm ?%not_elem_of_nil. }
  intros σ3 n3 U3 [P3 arms3] Ht3 (HP3 & HPw & Harms). simpl in *. advance Ht3 Hr2 Hr3.
  pose proof (ready_settled _ _ _ Hr3) as Hs3.
  eapply infers_then; [apply infers_prune|]. reading.
  eapply (infers_then _ _ (fun σ' n' U' _ => σ' = σ3 /\ n' = n3 /\ U' = U3)); [by apply infers_pure|].
  intros ? ? ? ? _ (-> & -> & ->). eapply infers_then; [apply infers_prune|]. reading.
  apply infers_ret, answers_leaf; [by apply within_pruned|done| |done].
  assert (exists abs, Forall2 (fun arm ab => coerces σ3 t1 ab.1 /\ pat_typed σ3 (env_values env) P3 arm.1 ab.1 ab.2 /\
    binds_within U3 σ3 ab.2 /\ coerces σ3 (te_typ arm.2) t /\
    elab adts n (bind_types ab.2 (env_values env)) P3 U3 σ3 n3 arm.2) arms3 abs) as [abs Habs].
  { clear -Harms. induction arms3 as [|arm arms3 IH]; [by exists []|].
    destruct IH as [abs Habs]; [intros arm' ?; apply Harms; by right|].
    destruct (Harms arm ltac:(by left)) as (u & bs & H). exists ((u, bs) :: abs). by constructor. }
  rewrite Forall2_same_length_lookup in Habs. destruct Habs as [Hl Habs].
  apply (has_weaken _ _ n _ _ P3) in Hh; [|done..].
  eapply (T_match _ _ _ _ _ _ _ _ (map fst abs) (map snd abs)); [apply Hh|by rewrite length_map..| |].
  - intros i arm u bs Hi (ab & ? & Eab)%list_lookup_fmap_Some (ab' & ? & Eab')%list_lookup_fmap_Some. simplify_eq.
    destruct (Habs i arm ab Hi Eab) as (Hc & Hp & Hbw & Hct & He). split_and!.
    + eapply coerces_trans; [apply Hh|done].
    + done.
    + eapply coerces_trans; [exact Hct|]. by apply same_coerces, eq_sym, same_pruned.
    + intros b y Hbin. apply (within_lt U3); [done|]. by apply Hbw.
  - intros i arm bs Hi (ab' & ? & Eab)%list_lookup_fmap_Some. simplify_eq.
    by destruct (Habs i arm ab' Hi Eab) as (_ & _ & _ & _ & He).
Qed.

(** * Lambdas *)

Lemma infers_param_types U σ n params :
  infers U σ n (fun f => lambda_param_types adts aliases f params ∅) (fun σ' n' U' tys => binds_within U' σ' tys).
Proof using Hadts Haliases.
  eapply infers_weaken.
  { apply (infers_map _ _ _ _ (fun σ' n' U' (_ : Symbol * option TypeExpr) b => within U' σ' b.2)).
    - intros ? ? ? ? ? ? ? b Ht Hr Hw. by apply (within_carry Ht Hr).
    - intros σ1 n1 U1 [x ann] _ _. eapply (infers_then _ _ (fun σ' n' U' t => within U' σ' t)).
      + destruct ann as [ann|]; simpl.
        * eapply infers_weaken; [by apply infers_annotation|]. intros ? ? ? t _ (-> & -> & -> & Hc). by apply closed_within.
        * eapply infers_weaken; [apply infers_fresh|]. intros ? ? ? t _ (-> & _ & _ & Hw). done.
      + intros ? ? ? t _ Hw. by apply infers_ret. }
  intros σ1 n1 U1 tys _ Htys b [i Hi]%list_elem_of_lookup. by destruct (Forall2_lookup_r _ _ _ _ _ Htys Hi) as (p & _ & Hw).
Qed.

Lemma bind_types_app bs1 bs2 : forall Γ, bind_types (bs1 ++ bs2) Γ = bind_types bs2 (bind_types bs1 Γ).
Proof using Type. induction bs1 as [|b bs1 IH]; intros Γ; simpl; [done|]. apply IH. Qed.

Lemma infers_wrap m Γ P tys : forall U σ n fun_ty e,
  ready U σ n -> binds_within U σ tys -> has adts m (bind_types tys Γ) P U σ n e fun_ty -> overloads_within U σ e ->
  infers U σ n (fun f => wrap_lambdas f (rev tys) fun_ty e)
    (fun σ' n' U' r => σ' = σ /\ n' = n /\ U' = U /\ has adts m Γ P U σ n r.2 r.1 /\ overloads_within U σ r.2).
Proof using Hadts Haliases.
  induction tys as [|[x a] tys IH] using rev_ind; intros U σ n fun_ty e Hr Hb Hh Ho; [by apply infers_ret|].
  rewrite rev_app_distr. simpl. pose proof (ready_settled _ _ _ Hr) as Hs.
  rewrite bind_types_app in Hh. simpl in Hh. destruct Hh as (Hw & Hc & He).
  assert (within U σ a) as Hwa by (apply (Hb (x, a)); set_solver).
  eapply infers_then; [apply infers_prune|]. reading. apply IH; [done|intros b ?; apply Hb; set_solver| |by intros ??? [=]].
  split_and!; [by apply within_fun; split; [apply within_pruned|]|apply coerces_refl|].
  eapply T_lam; [exact He|by apply (within_lt U)|by apply same_pruned|done].
Qed.

Lemma infers_lam U σ n env known expr params cs body :
  collect_lambda_chain expr = (params, cs, body) -> inferred body -> context U σ n env ->
  infers U σ n (fun f => infer_lam adts aliases f (rec f) env known expr) (answers adts n (env_values env)).
Proof using Hadts Haliases.
  intros Hch Hbody [Hok Hv]. apply infers_ready. intros Hr. unfold infer_lam. rewrite Hch, Hv.
  eapply infers_then; [apply infers_param_types|]. intros σ1 n1 U1 tys Ht1 Hb. advance Ht1 Hr Hr1.
  eapply infers_then.
  { apply Hbody. split; [rewrite extend_all_values; by apply env_ok_types|by rewrite extend_all_type_vars]. }
  rewrite extend_all_values. intros σ2 n2 U2 [[P t] e] Ht2 (Hh & HP & Ho). simpl in *.
  assert (env_ok U1 n1 σ1 (bind_types tys (env_values env))) as Hokb by by apply env_ok_types.
  apply (binds_carry _ _ _ _ _ _ _ Ht2 Hr1) in Hb. advance Ht2 Hr1 Hr2. pose proof (ready_settled _ _ _ Hr2) as Hs.
  eapply infers_then; [by apply infers_constraints|]. intros ??? P2 _ (-> & -> & -> & HP2).
  eapply infers_then; [apply infers_prune|]. reading.
  apply (has_weaken _ _ n _ _ (P ++ P2)) in Hh; [|done|done|lia|set_solver]. apply has_pruned in Hh; [|done].
  eapply infers_then; [by eapply infers_wrap|]. intros ??? [t' e'] _ (-> & -> & -> & Hh' & Ho'). simpl in *.
  apply infers_ret. split_and!; [done| |done]. simpl.
  apply preds_within_app; [done|]. intros p Hp. by apply closed_within, HP2.
Qed.
End Cases.
