(* ===== verification/InferApps.v ===== *)
(** Answers of [infer_expr] on applications: overloaded functions, whose
    candidates are narrowed by each argument, chains of last arguments and
    constructors of records with fields left out. *)

From S2P Require Import Prelude Span Types BTree Unify UnifyComplete Unifier UnifierSound.
From S2P Require Import Syntax Ast Adts TypedExprs TypeEnv TypeClasses LetRec Infer InferExpr Typing InferRuns InferPattern InferAnswers InferCases.

Section Apps.
Context (adts : gmap Symbol AdtDecl) (aliases : gmap Symbol TypeAlias).
Hypothesis Hadts : adts_closed adts.
Hypothesis Haliases : aliases_closed aliases.
Abbreviation rec := (infer_expr adts aliases).
Abbreviation inferred := (inferred adts aliases).
Abbreviation hinted := (hinted adts aliases).

(** * Candidates *)

Definition candidates_within (U : gset TypeVarId) (σ : Subst) (candidates : option (list ty)) : Prop :=
  forall cs c, candidates = Some cs -> c ∈ cs -> within U σ c.

Lemma open_within U (σ : Subst) t : (forall y, y ∈ vars t -> y ∈ U /\ σ !! y = None) -> within U σ t.
Proof using Hadts Haliases.
  intros H y. rewrite elem_of_vars_subst. intros (x & Hx & Hy). destruct (H x Hx) as [HU Hn].
  rewrite Hn in Hy. by subst.
Qed.

Lemma pruned_open U σ t y : settled σ -> within U σ t -> y ∈ vars (subst σ t) -> y ∈ U /\ σ !! y = None.
Proof using Hadts Haliases. intros Hs Hw Hy. split; [by apply Hw|]. by eapply settled_open. Qed.

(** What remains of the candidates mentions no other variables. *)
Lemma narrow_vars (ok : TypeVarId -> Prop) arg_ty arg_preds candidates : forall out,
  (forall y, y ∈ vars arg_ty -> ok y) -> (forall c y, c ∈ candidates -> y ∈ vars c -> ok y) ->
  (forall c y, c ∈ out -> y ∈ vars c -> ok y) ->
  forall c y, c ∈ narrow_loop candidates arg_ty arg_preds out -> y ∈ vars c -> ok y.
Proof using Hadts Haliases.
  induction candidates as [|cand candidates IH]; intros out Ha Hc Ho; simpl; [done|].
  apply IH; [done|intros c y Hin; apply Hc; by right|].
  destruct (decompose_fun cand 1) as [[[|param [|]] ret]|] eqn:Ed; try exact Ho.
  destruct (unify_types param arg_ty) as [s|] eqn:Eu; [|exact Ho]. destruct (candidate_satisfies_arg_preds _ _); [|exact Ho].
  assert (forall y, y ∈ vars (apply s ret) -> ok y) as Hn.
  { apply unify_types_iff in Eu as [k Hk]. apply unify_progress in Hk.
    destruct cand as [| | |a b| |]; try done. simpl in Ed.
    assert (decompose_fun b 0 = Some ([], b)) as E0 by by destruct b. rewrite E0 in Ed. injection Ed as -> ->.
    intros y Hy. rewrite apply_subst in Hy.
    apply (progress_mono _ (vars param ∪ vars arg_ty ∪ vars ret)) in Hk; [|set_solver].
    apply (progress_vars _ _ _ Hk) in Hy; [|set_solver].
    apply elem_of_union in Hy as [[Hy|Hy]%elem_of_union|Hy].
    - eapply Hc; [by left|]. simpl. set_solver.
    - by apply Ha.
    - eapply Hc; [by left|]. simpl. set_solver. }
  case_decide; [exact Ho|]. intros c y [Hin| ->%list_elem_of_singleton]%elem_of_app; [by apply Ho|apply Hn].
Qed.

Lemma infers_prune_all U σ n (ts : list ty) :
  infers U σ n (fun f => run_map (prune_type f) ts) (fun σ' n' U' r => σ' = σ /\ n' = n /\ U' = U /\ r = map (subst σ) ts).
Proof using Hadts Haliases.
  induction ts as [|t ts IH]; simpl; [by apply infers_ret|].
  eapply infers_then; [apply infers_prune|]. reading. eapply infers_then; [exact IH|]. reading. by apply infers_ret.
Qed.

Lemma infers_narrow U σ n name candidates t P :
  ready U σ n -> within U σ t -> candidates_within U σ candidates ->
  infers U σ n (fun f => narrow_candidates f name candidates (subst σ t) P)
    (fun σ' n' U' r => σ' = σ /\ n' = n /\ U' = U /\ candidates_within U σ r).
Proof using Hadts Haliases.
  intros Hr Hw Hc. unfold narrow_candidates. destruct candidates as [cs|]; [|apply infers_ret; by split_and!].
  pose proof (ready_settled _ _ _ Hr) as Hs.
  eapply infers_then; [apply infers_prune_all|]. reading.
  assert (candidates_within U σ (Some (narrow_overload_candidates (map (subst σ) cs) (subst σ t) P))) as Hn.
  { intros ? c [= <-] Hin. apply open_within. intros y Hy.
    refine (narrow_vars (fun y => y ∈ U /\ σ !! y = None) _ _ _ [] _ _ _ c y Hin Hy).
    - intros z. by apply pruned_open.
    - intros c' z (c0 & -> & Hin0)%list_elem_of_fmap. apply pruned_open; [done|]. by eapply Hc.
    - by intros c' z ?%not_elem_of_nil. }
  destruct (narrow_overload_candidates _ _ _) as [|c cs'] eqn:En; [destruct name; [apply infers_throw|]|];
    apply infers_ret; by split_and!.
Qed.

(** * The state of an application *)

(** The application so far, under the predicates [P]. *)
Definition app_ok (m : nat) (Γ : Values) (σ : Subst) (n : nat) (U : gset TypeVarId) (P : list Predicate) (st : TypedAppState) : Prop :=
  env_ok U n σ Γ /\ has adts m Γ P U σ n (app_typed st) (app_func_ty st) /\ preds_within U σ (app_preds st) /\
  candidates_within U σ (overload_candidates st) /\ overloads_within U σ (app_typed st).

Lemma candidates_carry U σ n σ' n' U' cs :
  touch U σ n σ' n' U' -> ready U σ n -> candidates_within U σ cs -> candidates_within U' σ' cs.
Proof using Type. intros Ht Hr Hc l c Hl Hin. apply (within_carry Ht Hr). by eapply Hc. Qed.

Lemma app_ok_carry m Γ U σ n σ' n' U' P st :
  touch U σ n σ' n' U' -> ready U σ n -> app_ok m Γ σ n U P st -> app_ok m Γ σ' n' U' P st.
Proof using Hadts Haliases.
  intros Ht Hr (Hok & Hh & HP & Hc & Ho). apply (candidates_carry _ _ _ _ _ _ _ Ht Hr) in Hc.
  apply (overloads_carry _ _ _ _ _ _ _ Ht Hr) in Ho. carry Ht Hr. done.
Qed.

Lemma app_ok_weaken m Γ U σ n P P' st :
  ready U σ n -> P ⊆ P' -> app_ok m Γ σ n U P st -> app_ok m Γ σ n U P' st.
Proof using Hadts Haliases.
  intros Hr HP (Hok & Hh & ?). split_and!; [done| |apply H..]. eapply has_weaken; [done|done|apply le_n|exact HP|done].
Qed.

Lemma infers_app_head U σ n m env known head :
  inferred head -> m <= n -> context U σ n env ->
  infers U σ n (fun f => infer_typed_app_head (rec f) env known head)
    (fun σ' n' U' st => app_ok m (env_values env) σ' n' U' (app_preds st) st).
Proof using Hadts Haliases.
  intros Hh Hm [Hok Hv]. apply infers_ready. intros Hr. unfold infer_typed_app_head.
  eapply infers_then; [by apply Hh|]. intros σ1 n1 U1 [[P t] e] Ht1 (Hhas & HP & Ho). simpl in *. advance Ht1 Hr Hr1.
  apply infers_ret. apply (has_weaken _ n m _ _ P) in Hhas; [|done..].
  assert (app_ok m (env_values env) σ1 n1 U1 P (mkAppState P t e None None)) as Hplain by by split_and!.
  destruct (te_kind e) eqn:Ek; try exact Hplain. destruct overloads as [|o os]; [exact Hplain|].
  split_and!; try done. simpl. intros cs c [= <-] Hin. by eapply Ho.
Qed.

(** An argument is applied. *)
Lemma infers_apply_arg m Γ P p_arg arg_ty arg U σ n st :
  app_ok m Γ σ n U P st -> has adts m Γ P U σ n arg arg_ty -> preds_within U σ p_arg ->
  infers U σ n (fun f => apply_typed_app_arg f st p_arg arg_ty arg)
    (fun σ' n' U' st' => app_ok m Γ σ' n' U' P st' /\ app_preds st' = app_preds st ++ p_arg).
Proof using Hadts Haliases.
  intros Hst Ha HP. apply infers_ready. intros Hr. pose proof (ready_settled _ _ _ Hr) as Hs. unfold apply_typed_app_arg.
  eapply infers_then; [apply infers_prune|]. reading.
  eapply infers_then; [apply infers_narrow; [done|apply Ha|apply Hst]|]. intros ??? cs _ (-> & -> & -> & Hcs).
  apply has_pruned in Ha; [|done].
  eapply (infers_then _ _ (fun σ' n' U' t => σ' = σ /\ within U' σ t)).
  { unfold app_result_type.
    assert (infers U σ n (fun _ => fresh_var (Some "r")) (fun σ' n' U' t => σ' = σ /\ within U' σ t)) as Hfresh.
    { eapply infers_weaken; [apply infers_fresh|]. intros ? ? ? t _ (-> & _ & _ & Hw). done. }
    destruct cs as [[|c [|]]|]; try exact Hfresh. apply infers_ret. split; [done|]. eapply Hcs; [done|by left]. }
  intros ? n1 U1 res_ty Ht1 [-> Hres].
  assert (env_ok U n σ Γ) as Hok by apply Hst. destruct Hst as (_ & Hf & HP0 & _ & _). apply (candidates_carry _ _ _ _ _ _ _ Ht1 Hr) in Hcs.
  advance Ht1 Hr Hr1.
  eapply infers_then; [apply infers_coerce_arg; [apply Hf|apply Ha]|].
  intros ??? [arg_ty' arg'] _ (-> & -> & -> & Hwa & Hca). simpl in *. apply (has_coerced _ _ _ _ _ _ _ _ _ _ _ Hwa Hca) in Ha.
  eapply infers_then; [apply infers_unify; [apply Hf|by apply within_fun]|].
  intros σ2 ? ? ? Ht2 (-> & -> & Hc%compat_coerces). apply (candidates_carry _ _ _ _ _ _ _ Ht2 Hr1) in Hcs.
  advance Ht2 Hr1 Hr2. pose proof (ready_settled _ _ _ Hr2) as Hs2.
  eapply infers_then; [apply infers_prune|]. reading. apply infers_ret. simpl.
  split; [|done]. split_and!; [done| |by apply preds_within_app|done|by intros ??? [=]]. simpl.
  split_and!; [by apply within_pruned|apply coerces_refl|].
  destruct Hf as (_ & Hcf & Hef), Ha as (_ & Hcx & Hex).
  eapply T_app; [exact Hef|exact Hex| |exact Hcx].
  eapply coerces_trans; [exact Hcf|]. eapply coerces_trans; [exact Hc|]. apply same_coerces. unfold same. simpl.
  by rewrite settled_idem.
Qed.

Lemma infers_app_args m env known args : forall P U σ n st,
  Forall hinted args -> m <= n -> env_type_vars env = ∅ -> app_preds st = P -> app_ok m (env_values env) σ n U P st ->
  infers U σ n (fun f => infer_typed_app_args adts f (rec f) env known st args)
    (fun σ' n' U' st' => app_ok m (env_values env) σ' n' U' (app_preds st') st').
Proof using Hadts Haliases.
  induction args as [|arg args IH]; intros P U σ n st Hes Hm Hv HP Hst; simpl; apply infers_ready; intros Hr;
    [apply infers_ret; by rewrite HP|]. pose proof (ready_settled _ _ _ Hr) as Hs.
  apply Forall_cons in Hes as [He Hes]. assert (env_ok U n σ (env_values env)) as Hok by apply Hst.
  eapply (infers_then _ _ (fun σ' n' U' st' => app_ok m (env_values env) σ' n' U' (app_preds st') st')).
  - unfold infer_typed_app_expr_arg. eapply infers_then; [apply infers_arg_hint|]. reading.
    eapply infers_then.
    { apply infers_hint; [exact He|done|]. intros t Ht. eapply within_arg; [done| |exact Ht]. apply Hst. }
    intros σ1 n1 U1 [[P1 t1] e1] Ht1 (Hh & HP1 & _). simpl in *.
    apply (app_ok_carry _ _ _ _ _ _ _ _ _ _ Ht1 Hr) in Hst. advance Ht1 Hr Hr1.
    eapply infers_weaken.
    { apply (infers_apply_arg m (env_values env) (P ++ P1)); [|by eapply has_weaken; [..|exact Hh]; [done|done|lia|set_solver]|done].
      eapply app_ok_weaken; [done| |done]. set_solver. }
    intros σ2 n2 U2 st' Ht2 [Hst' HP']. by rewrite HP', HP.
  - intros σ1 n1 U1 st' Ht1 Hst'. pose proof (touch_le _ _ _ _ _ _ Ht1). by eapply IH; [|lia|..].
Qed.

Lemma infers_tail_frames m env known frames : forall P U σ n t e,
  Forall (fun fr => inferred (tail_head fr) /\ Forall hinted (tail_prefix_args fr)) frames ->
  m <= n -> env_type_vars env = ∅ -> part_ok adts m (env_values env) σ n U P t e -> overloads_within U σ e ->
  infers U σ n (fun f => infer_tail_frames adts f (rec f) env known frames (P, t, e)) (answers adts m (env_values env)).
Proof using Hadts Haliases.
  induction frames as [|fr frames IH]; intros P U σ n t e Hfr Hm Hv Hp Ho; simpl; apply infers_ready; intros Hr.
  { apply infers_ret. split_and!; [apply Hp..|done]. }
  apply Forall_cons in Hfr as [[Hh Hargs] Hfr].
  assert (env_ok U n σ (env_values env)) as Hok by apply Hp.
  eapply infers_then; [by apply (infers_app_head _ _ _ m)|]. intros σ1 n1 U1 st1 Ht1 Hst1.
  apply (part_ok_carry _ _ Hadts Haliases _ _ _ _ _ _ _ _ _ _ _ Ht1 Hr) in Hp. advance Ht1 Hr Hr1.
  eapply infers_then; [by eapply (infers_app_args m); [|lia|..]|]. intros σ2 n2 U2 st2 Ht2 Hst2.
  apply (part_ok_carry _ _ Hadts Haliases _ _ _ _ _ _ _ _ _ _ _ Ht2 Hr1) in Hp. advance Ht2 Hr1 Hr2.
  destruct Hp as (_ & Hhas & HP).
  eapply infers_then.
  { apply (infers_apply_arg m (env_values env) (P ++ app_preds st2)); [| |by intros p ?%not_elem_of_nil].
    - eapply app_ok_weaken; [done| |exact Hst2]. set_solver.
    - eapply has_weaken; [done|done|apply le_n| |exact Hhas]. set_solver. }
  intros σ3 n3 U3 st3 Ht3 [Hst3 HP3]. rewrite app_nil_r in HP3. simpl. advance Ht3 Hr2 Hr3.
  apply IH; [done|lia|done| |apply Hst3]. rewrite <- HP3 in Hst3. destruct Hst3 as (Hok3 & Hh3 & HPst & _).
  split_and!; [done|done|by apply preds_within_app].
Qed.

Lemma infers_tail_chain U σ n env known leaf frames :
  inferred leaf -> Forall (fun fr => inferred (tail_head fr) /\ Forall hinted (tail_prefix_args fr)) frames ->
  context U σ n env ->
  infers U σ n (fun f => infer_tail_app_chain_typed adts f (rec f) env known leaf frames) (answers adts n (env_values env)).
Proof using Hadts Haliases.
  intros Hl Hfr [Hok Hv]. apply infers_ready. intros Hr. unfold infer_tail_app_chain_typed.
  eapply infers_then; [by apply Hl|]. intros σ1 n1 U1 [[P t] e] Ht1 (Hh & HP & Ho). simpl in *. advance Ht1 Hr Hr1.
  apply infers_tail_frames; [by apply Forall_rev|lia|done|by split_and!|done].
Qed.

(** * Constructors of records with fields left out *)

Lemma partial_updates_loop fuel r env known expected result_ty l : forall acc st,
  partial_record_updates adts fuel r env known expected result_ty l acc st =
  fields_loop (fun t v => infer_expr_typed_with_hint adts fuel r fuel env known (Some t) v)
    (fun k => UnknownField k (show_ty result_ty)) fuel expected l acc st.
Proof using Type.
  induction l as [|[k v] l IH]; intros acc st; simpl; [done|]. unfold rthen.
  repeat (case_match; simplify_eq; try done).
Qed.

Lemma infers_partial_record U σ n env known expr :
  (forall adt variant supplied, partial_record_constructor expr adts = Some (adt, variant, supplied) ->
     Forall hinted (map snd supplied)) ->
  context U σ n env ->
  infers U σ n (fun f => infer_partial_record_constructor_typed adts f (rec f) env known expr)
    (fun σ' n' U' r => match r with
       | None => σ' = σ /\ n' = n /\ U' = U
       | Some a => answers adts n (env_values env) σ' n' U' a
       end).
Proof using Hadts Haliases.
  intros Hes [Hok Hv]. apply infers_ready. intros Hr. unfold infer_partial_record_constructor_typed.
  destruct (partial_record_constructor expr adts) as [[[adt variant] supplied]|] eqn:Ep; [|by apply infers_ret].
  specialize (Hes _ _ _ eq_refl). destruct (negb _); [apply infers_throw|].
  assert (declares adts adt variant) as Hd.
  { unfold partial_record_constructor in Ep. destruct expr; try done. destruct expr1; try done. destruct expr2; try done.
    destruct (ctor_lookup adts (var_name v)) as [[adt' variant']|] eqn:Ec; simpl in Ep; [|done].
    destruct (record_fields variant'); simpl in Ep; [|done]. destruct (existsb _ _); [|done].
    simplify_eq. by eapply ctor_lookup_declares. }
  pose proof Hd as (name & Hadt & Hvar).
  eapply infers_then; [by eapply infers_variant_fields|]. intros ? n1 U1 inst Ht1 (-> & HU & Hi).
  eapply (infers_then _ _ (fun σ' n' U' rf => σ' = σ /\ n' = n1 /\ U' = U1 /\ inst = Some rf)); [by apply infers_ok_or|].
  intros ???[result_ty fields] _ (-> & -> & -> & ->). destruct Hi as (θ & fs & Hf & Hres & Hfs & Hw & Hws).
  advance Ht1 Hr Hr1.
  eapply infers_then.
  { eapply infers_ext; [intros f st; apply partial_updates_loop|].
    apply (infers_fields _ _ Hadts Haliases (fun f t v => infer_expr_typed_with_hint adts f (rec f) f env known (Some t) v)
      _ _ _ _ n _ _ _ env); [|lia|done| |].
    - intros v U' σ' n' t' Hin Hctx' Hw'. rewrite Forall_forall in Hes. apply infers_hint; [by apply Hes|done|].
      by intros t [= <-].
    - intros f Hin%(btree_collect_in _ _ Hadts Haliases). by apply Hws.
    - split_and!; [done|by intros p ->%list_elem_of_singleton|by intros kv ?%not_elem_of_nil]. }
  intros σ2 n2 U2 [P kvs] Ht2 (HP2 & _ & (Hok2 & HPw & Hkv)). simpl in *. advance Ht2 Hr1 Hr2.
  pose proof (ready_settled _ _ _ Hr2) as Hs.
  eapply infers_then; [apply infers_prune|]. reading. apply infers_ret.
  apply answers_leaf; [by apply within_pruned|done| |done].
  assert (coerces σ2 (subst σ2 result_ty) result_ty) as Hc by by apply same_coerces, same_pruned.
  eapply (T_update _ _ _ _ _ _ _ _ fields).
  - apply T_default. eexists. split; [apply HP2; by left|done].
  - by apply coerces_sym.
  - by eapply fields_at_of.
  - intros kv Hin. by destruct (Hkv kv Hin) as (ft & _ & _ & _ & He).
  - intros kv Hin. destruct (Hkv kv Hin) as (ft & Hft%(btree_collect_in _ _ Hadts Haliases) & _ & Hc' & _). by exists ft.
Qed.

Lemma infers_app U σ n env known expr :
  (forall adt variant supplied, partial_record_constructor expr adts = Some (adt, variant, supplied) ->
     Forall hinted (map snd supplied)) ->
  (forall leaf frames, collect_tail_app_chain expr = Some (leaf, frames) ->
     inferred leaf /\ Forall (fun fr => inferred (tail_head fr) /\ Forall hinted (tail_prefix_args fr)) frames) ->
  (collect_tail_app_chain expr = None -> inferred (collect_app_chain expr).1 /\ Forall hinted (collect_app_chain expr).2) ->
  context U σ n env ->
  infers U σ n (fun f => infer_app adts f (rec f) env known expr) (answers adts n (env_values env)).
Proof using Hadts Haliases.
  intros Hpr Htail Happ Hctx. apply infers_ready. intros Hr. unfold infer_app.
  eapply infers_then; [by apply infers_partial_record|]. intros σ1 n1 U1 [a|] Ht1 H1; [by apply infers_ret|].
  destruct H1 as (-> & -> & ->).
  destruct (collect_tail_app_chain expr) as [[leaf frames]|] eqn:Et.
  { destruct (Htail _ _ eq_refl) as [Hl Hfr]. by apply infers_tail_chain. }
  destruct (Happ eq_refl) as [Hh Hargs]. destruct (collect_app_chain expr) as [head args]. simpl in *.
  eapply infers_then; [by apply (infers_app_head _ _ _ n)|]. intros σ2 n2 U2 st Ht2 Hst.
  pose proof (touch_le _ _ _ _ _ _ Ht2).
  eapply infers_then; [by eapply infers_app_args; [|done|apply Hctx|..]|].
  intros σ3 n3 U3 st' _ (Hok3 & Hh3 & HP3 & _ & Ho3). apply infers_ret. by split_and!.
Qed.
End Apps.
