(* ===== verification/InferLets.v ===== *)
(** Answers of [infer_expr] on [let] and recursive groups: the definitions are
    inferred with the free variables of their environment only, so the variables
    that are generalised occur in no other type in use. *)

From S2P Require Import Prelude Span Types BTree Unify UnifyComplete Unifier UnifierSound.
From S2P Require Import Syntax Ast Adts TypedExprs TypeEnv TypeClasses LetRec Infer InferExpr Typing InferRuns InferPattern InferAnswers InferCases.

(** * A part of the variables in use *)

(** The variables to which the open ones among [W] lead. *)
Definition image (σ σ' : Subst) (W : gset TypeVarId) : gset TypeVarId :=
  ⋃ (map (fun x => vars (subst σ' (TVar (TypeVar_new x None)))) (filter (fun x => σ !! x = None) (elements W))).

Lemma elem_of_image σ σ' W y :
  y ∈ image σ σ' W <-> exists x, x ∈ W /\ σ !! x = None /\ y ∈ vars (subst σ' (TVar (TypeVar_new x None))).
Proof.
  unfold image. rewrite union_list_elem. setoid_rewrite list_elem_of_filter. setoid_rewrite elem_of_elements. naive_solver.
Qed.

Section Part.
Context {U W : gset TypeVarId} {σ : Subst} {n : nat} {σ1 : Subst} {n1 : nat} {U1 : gset TypeVarId}.
Hypothesis Ht : touch U σ n σ1 n1 U1.
Hypothesis Hr : ready W σ n.
Hypothesis Hsub : U ⊆ W.

Lemma image_cases y : y ∈ image σ σ1 W -> y ∈ U1 \/ (y ∈ W /\ y ∉ U).
Proof using Ht Hr.
  intros (x & Hx & Ho & Hy)%elem_of_image. destruct (touch_var Ht x y) as [?|[-> ?]]; [by apply (ready_lt _ _ _ Hr)|done..|by left|by right].
Qed.

Lemma touch_part E : E ⊆ U1 -> touch W σ n σ1 n1 (image σ σ1 W ∪ E).
Proof using Ht Hr Hsub.
  intros HE. pose proof (touch_le _ _ _ _ _ _ Ht). split; try apply Ht.
  - intros x Hx HW. apply (touch_only _ _ _ _ _ _ Ht); [done|set_solver].
  - intros x y HW Ho Hy. apply elem_of_union_l, elem_of_image. eauto.
  - assert (forall x, x ∈ U1 -> x ∈ W \/ n <= x) as H1.
    { intros x Hx. destruct (touch_sub _ _ _ _ _ _ Ht x Hx); [left; by apply Hsub|by right]. }
    intros x [[Hx|[Hx _]]%image_cases|Hx]%elem_of_union; [by apply H1|by left|by apply H1, HE].
  - intros x [[Hx|[Hx _]]%image_cases|Hx]%elem_of_union;
      [by apply (touch_lt _ _ _ _ _ _ Ht)|pose proof (ready_lt _ _ _ Hr x Hx); lia|by apply (touch_lt _ _ _ _ _ _ Ht), HE].
Qed.

(** What was made for the part alone stays out of use. *)
Lemma made_part E b : E ⊆ U1 -> made n U1 n1 σ1 b -> made n (image σ σ1 W ∪ E) n1 σ1 b.
Proof using Ht Hr.
  intros HE (Hb & Hlt & HU & Hn). split; [done|]. split_and!; [done| |done].
  intros [[?|[HW _]]%image_cases|?]%elem_of_union; [done| |by apply HU, HE].
  pose proof (ready_lt _ _ _ Hr b HW). lia.
Qed.

(** New variables that the part does not lead to are out of use. *)
Lemma apart_image b : n <= b -> (forall x, x ∈ U -> σ !! x = None -> b ∉ vars (subst σ1 (TVar (TypeVar_new x None)))) ->
  b ∉ image σ σ1 W.
Proof using Ht Hr.
  intros Hb HU (x & Hx & Ho & Hy)%elem_of_image. pose proof (ready_lt _ _ _ Hr x Hx) as Hlt.
  destruct (decide (x ∈ U)) as [HxU|HxU]; [by eapply HU|].
  rewrite vars_open in Hy by (by apply (touch_only _ _ _ _ _ _ Ht)). apply elem_of_singleton in Hy. lia.
Qed.
End Part.

Lemma made_carry m U σ n σ' n' U' b :
  touch U σ n σ' n' U' -> made m U n σ b -> dead U n σ b /\ made m U' n' σ' b.
Proof. intros Ht [Hm Hd]. split; [done|]. split; [done|]. by apply (dead_carry Ht). Qed.

Lemma env_ok_schemes U n σ Γ : env_ok U n σ Γ <-> forall s, s ∈ env_schemes Γ -> scheme_ok U n σ s.
Proof.
  split; [intros H s; by apply env_scheme_ok|]. intros H. split; [intros s Hs; by apply H|].
  intros y (s & Hs & Hy)%elem_of_env_free. by apply (H s Hs).
Qed.

Lemma env_free_open σ Γ x : settled σ -> x ∈ env_free σ Γ -> σ !! x = None.
Proof.
  intros Hs (s & _ & [Hx _]%elem_of_scheme_free)%elem_of_env_free. apply elem_of_scheme_vars in Hx as (t & _ & Hx).
  by eapply settled_open.
Qed.

(** The free variables of an environment lead to its free variables. *)
Lemma env_free_range U σ n σ' n' U' Γ x y :
  touch U σ n σ' n' U' -> ready U σ n -> env_dead U n σ Γ -> x ∈ env_free σ Γ ->
  y ∈ vars (subst σ' (TVar (TypeVar_new x None))) -> y ∈ env_free σ' Γ.
Proof.
  intros Ht Hr Hd (s & Hs & Hx)%elem_of_env_free Hy. apply elem_of_env_free. exists s. split; [done|].
  eapply (scheme_free_range Ht Hr); [by apply Hd|done..].
Qed.

(** The environment with the variables that are free in it. *)
Lemma env_ok_tight U n σ Γ : env_ok U n σ Γ -> env_ok (env_free σ Γ) n σ Γ.
Proof.
  intros [Hd Hf]. split; [|done]. intros s Hs. destruct (Hd s Hs) as [Hb Hv]. split; [|done].
  intros b Hin. destruct (Hb b Hin) as (? & ? & ?). split_and!; [done| |done]. set_solver.
Qed.

Lemma ready_sub U W σ n : U ⊆ W -> ready W σ n -> ready U σ n.
Proof. intros Hsub [? ? ?]. split; auto. Qed.

(** A variable that is generalised over [Δ] was made for the definition, and occurs
    in no other type in use. *)
Lemma generalised_made U W σ n σ1 n1 U1 Δ E b :
  U = env_free σ Δ -> U ⊆ W -> touch U σ n σ1 n1 U1 -> ready W σ n -> env_dead W n σ Δ ->
  E ⊆ env_free σ1 Δ -> b ∈ U1 -> σ1 !! b = None -> b ∉ env_free σ1 Δ ->
  made n (image σ σ1 W ∪ E) n1 σ1 b.
Proof.
  intros -> Hsub Ht Hr Hd HE Hb Hn Hf. pose proof (ready_sub _ _ _ _ Hsub Hr) as Hr0.
  assert (env_dead (env_free σ Δ) n σ Δ) as Hd0.
  { intros s Hs. destruct (Hd s Hs) as [Hbs Hv]. split; [|done].
    intros x Hin. destruct (Hbs x Hin) as (? & ? & ?). split_and!; [done|set_solver|done]. }
  assert (n <= b) as Hle.
  { destruct (touch_sub _ _ _ _ _ _ Ht b Hb) as [HU|?]; [|done]. exfalso. apply Hf.
    eapply (env_free_range _ _ _ _ _ _ _ b b Ht Hr0 Hd0); [done|]. rewrite vars_open by done. set_solver. }
  split; [done|]. split_and!; [by apply (touch_lt _ _ _ _ _ _ Ht)| |done].
  intros [Hi|HbE]%elem_of_union; [|by apply Hf, HE].
  revert Hi. apply (apart_image Ht Hr); [done|]. intros x Hx _ Hy. apply Hf.
  by eapply (env_free_range _ _ _ _ _ _ _ x b Ht Hr0 Hd0).
Qed.

Section Lets.
Context (adts : gmap Symbol AdtDecl) (aliases : gmap Symbol TypeAlias).
Hypothesis Hadts : adts_closed adts.
Hypothesis Haliases : aliases_closed aliases.
Abbreviation rec := (infer_expr adts aliases).
Abbreviation inferred := (inferred adts aliases).
Abbreviation hinted := (hinted adts aliases).

(** * Definitions *)

Lemma infers_no_params U σ n vars :
  infers U σ n (fun _ => extend_params [] vars) (fun σ' n' U' r => σ' = σ /\ n' = n /\ U' = U /\ r = vars).
Proof using Type.
  intros Hr st Hc Hn. exists (Ok vars), st. split; [exists 0; by destruct st|]. subst n.
  exists σ, U. split_and!; [done|by apply touch_refl|done..].
Qed.

Lemma infers_def U σ n env known keep ann d :
  inferred d -> hinted d -> context U σ n env ->
  infers U σ n (fun f => infer_def adts aliases f (rec f) env known keep [] ann d) (answers adts n (env_values env)).
Proof using Hadts Haliases.
  intros Hd Hh [Hok Hv]. apply infers_ready. intros Hr. unfold infer_def. rewrite Hv.
  eapply infers_then; [apply infers_no_params|]. reading. destruct ann as [ann|]; [|by apply (Hd U σ n (set_type_vars ∅ env))].
  eapply infers_then; [apply infers_no_params|]. reading.
  eapply infers_then; [by apply infers_annotation|]. intros ??? t _ (-> & -> & -> & Hc).
  assert (context U σ n (if keep then set_type_vars ∅ (set_type_vars ∅ env) else set_type_vars ∅ env)) as Hctx
    by (by destruct keep).
  eapply infers_then; [apply infers_hint; [exact Hh|exact Hctx|intros ? [= <-]; by apply closed_within]|].
  intros σ1 n1 U1 [[P t1] e1] Ht1 Ha. advance Ht1 Hr Hr1.
  assert (env_values (if keep then set_type_vars ∅ (set_type_vars ∅ env) else set_type_vars ∅ env) = env_values env) as Heq
    by by destruct keep. rewrite Heq in Ha.
  apply (infers_coerced adts aliases Hadts Haliases n U1 σ1 n1 P t1 e1 t env); [done|done|]. by apply closed_within.
Qed.

(** The scheme of a definition, which has been elaborated under its predicates. *)
Definition def_ok (m : nat) (Γ : Values) (σ : Subst) (n : nat) (U : gset TypeVarId) (P : list Predicate) (t : ty) (e : TypedExpr) : Prop :=
  has adts m Γ P U σ n e t /\ preds_within U σ P.

(** The free variables of [s] are those of its environment, or it binds none. *)
Definition quantifies (σ : Subst) (Γ : Values) (s : Scheme) : Prop :=
  ids s = [] \/ forall b, b ∈ ids s <-> b ∈ scheme_vars_in σ s /\ b ∉ env_free σ Γ.

Definition scheme_of (m : nat) (Γ : Values) (σ : Subst) (n : nat) (U : gset TypeVarId) (s : Scheme) (e : TypedExpr) : Prop :=
  elab adts m Γ (scheme_preds s) U σ n e /\ coerces σ (te_typ e) (scheme_typ s) /\
  (forall y, y ∈ scheme_vars_in σ s -> y ∈ U) /\ quantifies σ Γ s.

Lemma scheme_in_use U σ n (s : Scheme) P t :
  ready U σ n -> scheme_typ s = subst σ t -> prunes σ P (scheme_preds s) -> within U σ t -> preds_within U σ P ->
  forall y, y ∈ scheme_vars_in σ s -> y ∈ U.
Proof using Type.
  intros Hr Ht HP Hw HPw y (u & Hu & Hy)%elem_of_scheme_vars. pose proof (ready_settled _ _ _ Hr) as Hs.
  unfold scheme_types in Hu. apply elem_of_cons in Hu as [->|(p & -> & Hp)%list_elem_of_fmap].
  - rewrite Ht in Hy. by apply (within_pruned U σ t Hs Hw).
  - by apply (prunes_within U σ P _ Hs HP HPw p Hp).
Qed.

Lemma scheme_of_def m Γ U σ n P t e s :
  ready U σ n -> env_ok U n σ Γ -> def_ok m Γ σ n U P t e -> scheme_typ s = subst σ t -> prunes σ P (scheme_preds s) ->
  quantifies σ Γ s -> scheme_of m Γ σ n U s e.
Proof using Hadts Haliases.
  intros Hr Hok [(Hw & Hc & He) HP] Ht Hps Hq. pose proof (ready_settled _ _ _ Hr) as Hs. split_and!; [..|done].
  - eapply (elab_carry _ (touch_refl _ _ _ Hr) Hr); [done|apply le_n| |exact He]. by apply prunes_entailed.
  - rewrite Ht. eapply coerces_trans; [exact Hc|]. by apply same_coerces, eq_sym, same_pruned.
  - by eapply scheme_in_use.
Qed.

Lemma infers_let_scheme m U σ n env annotated d P t e :
  env_ok U n σ (env_values env) -> def_ok m (env_values env) σ n U P t e ->
  infers U σ n (fun f => let_scheme f env annotated d P t)
    (fun σ' n' U' s => σ' = σ /\ n' = n /\ U' = U /\ scheme_of m (env_values env) σ n U s e).
Proof using Hadts Haliases.
  intros Hok Hd. apply infers_ready. intros Hr. unfold let_scheme. destruct (_ && _).
  - eapply infers_weaken; [apply infers_monomorphic|]. intros ??? s _ (-> & -> & -> & Hv & Ht & HP).
    split_and!; [done..|]. eapply scheme_of_def; [done..|]. left. unfold ids. by rewrite Hv.
  - eapply infers_then; [apply infers_generalize|]. intros ??? s _ (-> & -> & -> & Ht & HP & Hids).
    eapply (infers_then _ _ (fun σ' n' U' _ => σ' = σ /\ n' = n /\ U' = U)); [by apply infers_pure|].
    intros ? ? ? ? _ (-> & -> & ->). apply infers_ret. split_and!; [done..|].
    eapply scheme_of_def; [done..|]. by right.
Qed.

(** The definition of a [let] and its scheme. *)
Definition let_head (f : nat) (env : TypeEnv) (known : KnownVariants) (b : LetBinding) : stateful Infer (Scheme * TypedExpr * ty) :=
  let~ (p1, t1, typed_def) := infer_def adts aliases f (rec f) env known true (let_type_params b) (let_ann b) (let_def b) in
  let~ def_ty := prune_type f t1 in
  let~ (p1, def_ty) := default_literal_constraints_outside_type f p1 def_ty in
  let~ scheme := let_scheme f env (bool_decide (is_Some (let_ann b))) (let_def b) p1 def_ty in
  rret (scheme, typed_def, def_ty).

Definition unscoped_binding (b : LetBinding) : Prop :=
  let_type_params b = [] /\ inferred (let_def b) /\ hinted (let_def b).

Lemma infers_let_head U σ n env known b :
  unscoped_binding b -> context U σ n env ->
  infers U σ n (fun f => let_head f env known b)
    (fun σ' n' U' r => scheme_of n (env_values env) σ' n' U' r.1.1 r.1.2).
Proof using Hadts Haliases.
  intros (Htp & Hd & Hh) [Hok Hv]. apply infers_ready. intros Hr. unfold let_head. rewrite Htp.
  eapply infers_then; [by apply infers_def|]. intros σ1 n1 U1 [[P t] e] Ht1 (Hhas & HP & _). simpl in *. advance Ht1 Hr Hr1.
  pose proof (ready_settled _ _ _ Hr1) as Hs1. eapply infers_then; [apply infers_prune|]. reading.
  apply has_pruned in Hhas; [|done].
  eapply infers_then; [apply infers_default; [done|apply Hhas]|].
  intros σ2 ? ? [P2 t2] Ht2 (-> & -> & Hs & HP2 & HPw & Hw). simpl in *. advance Ht2 Hr1 Hr2.
  eapply infers_then.
  { apply (infers_let_scheme n _ _ _ _ _ _ _ _ e); [done|]. split; [|done].
    destruct Hhas as (_ & Hc & He). split_and!; [done| |].
    - eapply coerces_trans; [exact Hc|]. by apply same_coerces, eq_sym.
    - by eapply (elab_carry _ (touch_refl _ _ _ Hr2) Hr2); [..|exact He]. }
  intros ??? s _ (-> & -> & -> & Hsc). by apply infers_ret.
Qed.

(** Out of use, the scheme may be bound in the environment. *)
Lemma scheme_placed U W σ n σ1 n1 U1 Γ s e :
  U = env_free σ Γ -> touch U σ n σ1 n1 U1 -> ready W σ n -> env_ok W n σ Γ -> scheme_of n Γ σ1 n1 U1 s e ->
  exists W', touch W σ n σ1 n1 W' /\ scheme_ok W' n1 σ1 s /\ elab adts n Γ (scheme_preds s) W' σ1 n1 e /\
    generic σ1 (made n W' n1 σ1) Γ s.
Proof using Hadts Haliases.
  intros HU Ht Hr Hok (He & Hc & Hv & Hq). assert (U ⊆ W) as Hsub by (subst U; apply Hok).
  assert (scheme_free σ1 s ⊆ U1) as HE by (intros y [Hy _]%elem_of_scheme_free; auto).
  pose proof (touch_part Ht Hr Hsub _ HE) as HtW. exists (image σ σ1 W ∪ scheme_free σ1 s).
  pose proof (touch_ready HtW) as HrW. pose proof (ready_settled _ _ _ HrW) as Hs1.
  pose proof (env_ok_carry HtW Hr _ Hok) as HokW.
  assert (forall b, b ∈ ids s -> made n (image σ σ1 W ∪ scheme_free σ1 s) n1 σ1 b /\ b ∉ env_free σ1 Γ) as Hids.
  { destruct Hq as [Hnil|Hq]; intros b Hb; [rewrite Hnil in Hb; by apply not_elem_of_nil in Hb|].
    pose proof (proj1 (Hq b) Hb) as [Hbv Hbf]. split; [|done].
    eapply generalised_made; [exact HU|exact Hsub|exact Ht|exact Hr|apply Hok| |by apply Hv| |exact Hbf].
    - intros y [Hy Hi]%elem_of_scheme_free. destruct (decide (y ∈ env_free σ1 Γ)); [done|].
      exfalso. by apply Hi, Hq.
    - apply elem_of_scheme_vars in Hbv as (t & _ & Hy). by eapply settled_open. }
  split_and!; [done| | |].
  - split; [|set_solver]. split; [intros b Hb; by apply Hids|].
    intros y Hy. apply (touch_lt _ _ _ _ _ _ Ht). by apply Hv.
  - eapply (typed_carry (touch_refl _ _ _ HrW) HrW); [|exact He|apply HokW|apply entailed_refl].
    intros b Hb. assert (made n (image σ σ1 W ∪ scheme_free σ1 s) n1 σ1 b) as Hm by by apply (made_part Ht Hr).
    split; [apply Hm|done].
  - intros b Hb. destruct (Hids b Hb) as [Hm Hf]. split_and!; [done|apply Hm|done].
Qed.

(** * Sequences of definitions *)

Definition wrap_let (t : ty) (typed : TypedExpr) (d : Symbol * TypedExpr) : TypedExpr := mkTypedExpr t (ELet d.1 d.2 typed).

(** The bindings and what follows them. *)
Definition let_rest (f : nat) (env : TypeEnv) (known : KnownVariants) (bindings : list LetBinding)
    (typed_defs : list (Symbol * TypedExpr)) (body : Expr) : stateful Infer Typed :=
  let~ (env, known, typed_defs) := infer_let_bindings adts aliases f (rec f) bindings env known typed_defs in
  let~ (p_body, t_body, typed_body) := rec f env known body in
  rret (p_body, t_body, foldl (wrap_let t_body) typed_body (rev typed_defs)).

Lemma let_rest_cons f env known b bindings typed_defs body st :
  let_rest f env known (b :: bindings) typed_defs body st =
  (let~ (scheme, typed_def, def_ty) := let_head f env known b in
   let_rest f (extend (var_name (let_var b)) scheme env)
     (set_known (var_name (let_var b)) (known_variant_from_expr_with_known (let_def b) def_ty adts known) known)
     bindings (typed_defs ++ [(var_name (let_var b), typed_def)]) body) st.
Proof using Type.
  unfold let_rest, let_head. cbn [infer_let_bindings]. unfold rthen, rret.
  repeat (case_match; simplify_eq; try done).
Qed.

Lemma infers_let_rest body bindings : forall typed_defs U σ n env known,
  Forall unscoped_binding bindings -> inferred body -> context U σ n env ->
  infers U σ n (fun f => let_rest f env known bindings typed_defs body)
    (fun σ' n' U' r => exists e defs, r.2 = foldl (wrap_let r.1.2) e (rev (typed_defs ++ defs)) /\
       answers adts n (env_values env) σ' n' U' (r.1, foldl (wrap_let r.1.2) e (rev defs))).
Proof using Hadts Haliases.
  induction bindings as [|b bindings IH]; intros typed_defs U σ n env known Hbs Hb Hctx; apply infers_ready; intros Hr.
  { eapply (infers_ext _ _ _ _ (fun f => let~ (p, t, e) := rec f env known body in
      rret (p, t, foldl (wrap_let t) e (rev typed_defs)))); [done|].
    eapply infers_then; [by apply Hb|]. intros σ1 n1 U1 [[P t] e] _ Ha. apply infers_ret.
    exists e, []. by rewrite app_nil_r. }
  apply Forall_cons in Hbs as [Hbind Hbs]. destruct Hctx as [Hok Hv].
  eapply infers_ext; [intros f st; apply let_rest_cons|].
  pose proof (ready_sub _ _ _ _ (proj2 Hok) Hr) as Hr0.
  eapply infers_use.
  { eapply (infers_frame _ _ _ _ _ _ (fun σ1 n1 _ r => exists U1, touch (env_free σ (env_values env)) σ n σ1 n1 U1 /\
      scheme_of n (env_values env) σ1 n1 U1 r.1.1 r.1.2)); [apply Hok| |].
    - apply (infers_let_head _ _ _ env known b Hbind). split; [by apply (env_ok_tight U)|done].
    - intros _ σ1 n1 U1 r Ht1 Hsc. by exists U1. }
  intros σ1 n1 ? [[s d] def_ty] _ (U1 & Ht1 & Hsc). simpl in Hsc.
  pose proof Hsc as (_ & Hcd & _).
  destruct (scheme_placed _ _ _ _ _ _ _ _ _ _ eq_refl Ht1 Hr Hok Hsc) as (W & HtW & Hsok & Hed & Hgen).
  exists W. split; [done|]. advance HtW Hr Hr1.
  assert (env_dead W n1 σ1 (env_values env)) as Hdead by apply Hok.
  eapply infers_weaken.
  { apply IH; [done|done|]. split; [|done]. by apply env_ok_bind. }
  intros σ2 n2 U2 [[P t] e'] Ht2 (e & defs & He' & Ha). simpl in *.
  exists e, ((var_name (let_var b), d) :: defs). rewrite <- app_assoc in He'. split; [done|].
  cbn [rev]. rewrite foldl_app. cbn [foldl]. destruct Ha as (Hh & HP & _). simpl in *.
  pose proof (env_ok_bind _ _ _ (var_name (let_var b)) _ _ Hsok Hok) as Hokb.
  advance Ht2 Hr1 Hr2.
  split_and!; [|done|by intros ??? [=]]. simpl. destruct Hh as (Hw & Hc & He).
  split_and!; [done|apply coerces_refl|].
  eapply T_let; [| |apply (scheme_lt_carry Ht2 Hr1), Hsok|apply (generic_carry Ht2 Hr1 (made n W n1 σ1) (made n U2 n2 σ2) _ s Hdead);
    [|exact Hgen]| |exact Hc].
  - eapply (elab_carry_dead _ Ht2 Hr1); [done|apply le_n|apply entailed_refl|exact Hed].
  - done.
  - intros b'. by apply made_carry.
  - eapply (elab_carry_dead _ (touch_refl _ _ _ Hr2) Hr2 n1); [|lia|apply entailed_refl|exact He].
    apply Hokb.
Qed.
Lemma infers_let U σ n env known expr bindings body :
  let_chain expr = (bindings, body) -> Forall unscoped_binding bindings -> inferred body -> context U σ n env ->
  infers U σ n (fun f => infer_let adts aliases f (rec f) env known expr) (answers adts n (env_values env)).
Proof using Hadts Haliases.
  intros Hch Hbs Hb Hctx. unfold infer_let. rewrite Hch.
  eapply infers_weaken; [by apply (infers_let_rest body bindings [])|].
  intros σ1 n1 U1 [[P t] e] _ (e0 & defs & He & Ha). simpl in *. by rewrite He.
Qed.

(** * Recursive groups *)

Lemma infers_validate U σ n bindings :
  infers U σ n (fun _ => pure_fueled (validate_let_rec_bindings bindings)) (fun σ' n' U' _ => σ' = σ /\ n' = n /\ U' = U).
Proof using Type.
  destruct (validate_loop_spec bindings (zip (seq 0 (length bindings)) bindings)) as (r & Hr & _).
  apply infers_fueled with (r := r); [by exists 0|]. done.
Qed.

(** The environment of a group: its names have the types in [tys]. *)
Definition seeded (U : gset TypeVarId) (σ : Subst) (names : list Symbol) (tys : gmap Symbol ty) (Γ Γ' : Values) : Prop :=
  (forall name, name ∉ names -> Γ' !! name = Γ !! name) /\
  forall name, name ∈ names -> exists a, tys !! name = Some a /\
    Γ' !! name = Some [RegisteredValue_new (mono_scheme a)] /\ within U σ a.

Lemma infers_seed Γ bindings : forall names env known tys U σ n,
  seeded U σ names tys Γ (env_values env) -> env_type_vars env = ∅ ->
  infers U σ n (fun _ => letrec_seed bindings env known tys)
    (fun σ' n' U' r => σ' = σ /\ U ⊆ U' /\ env_type_vars r.1.1 = ∅ /\
       seeded U' σ (names ++ map binding_name bindings) r.2 Γ (env_values r.1.1)).
Proof using Hadts Haliases.
  induction bindings as [|b bindings IH]; intros names env known tys U σ n [H1 H2] Hv; cbn [letrec_seed map].
  { apply infers_ret. by rewrite app_nil_r. }
  eapply infers_then; [apply infers_fresh|]. intros ? n1 U1 t _ (-> & HU & _ & Hw).
  rewrite (cons_middle (binding_name b)), app_assoc.
  eapply infers_weaken; [apply (IH (names ++ [binding_name b]))|].
  - split; simpl.
    + intros name Hn. rewrite lookup_insert_ne by set_solver. apply H1. set_solver.
    + intros name Hn. destruct (decide (name = binding_name b)) as [->|Hne].
      * exists t. by rewrite !lookup_insert_eq.
      * rewrite !lookup_insert_ne by done. destruct (H2 name) as (a & ? & ? & ?); [set_solver|].
        exists a. split_and!; [done|done|eapply within_mono; [exact HU|done]].
  - done.
  - intros ? n2 U2 r _ (-> & HU2 & ? & ?). split_and!; [done|set_solver|done..].
Qed.

(** The definitions of a group. *)
Definition group_def : Type := Symbol * list Predicate * ty * TypedExpr.

(** [d] is the definition of a binding of the group whose type is [a]. *)
Definition group_def_ok (m : nat) (Γ' : Values) (σ : Subst) (n : nat) (U : gset TypeVarId) (d : group_def) : Prop :=
  exists a, Γ' !! d.1.1.1 = Some [RegisteredValue_new (mono_scheme a)] /\
    has adts m Γ' d.1.1.2 U σ n d.2 a /\ same σ d.1.2 a /\ preds_within U σ d.1.1.2.

Lemma group_def_ok_carry m Γ' U σ n σ' n' U' d :
  touch U σ n σ' n' U' -> ready U σ n -> env_ok U n σ Γ' -> group_def_ok m Γ' σ n U d -> group_def_ok m Γ' σ' n' U' d.
Proof using Hadts Haliases.
  intros Ht Hr Hok (a & Ha & Hh & Hs & HP). exists a. carry Ht Hr. done.
Qed.

Definition unscoped_rec_binding (b : LetRecBinding) : Prop :=
  b.1.1.2 = [] /\ inferred (binding_def b) /\ hinted (binding_def b).

Lemma infers_group_defs m env tys names Γ bindings : forall known ds U σ n,
  Forall unscoped_rec_binding bindings -> m <= n -> context U σ n env ->
  (forall b, b ∈ bindings -> binding_name b ∈ names) -> seeded U σ names tys Γ (env_values env) ->
  (forall d, d ∈ ds -> group_def_ok m (env_values env) σ n U d) ->
  infers U σ n (fun f => infer_letrec_defs adts aliases f (rec f) env tys bindings known ds)
    (fun σ' n' U' r => map (fun d => d.1.1.1) r.2 = map (fun d => d.1.1.1) ds ++ map binding_name bindings /\
       forall d, d ∈ r.2 -> group_def_ok m (env_values env) σ' n' U' d).
Proof using Hadts Haliases.
  induction bindings as [|[[[v tps] ann] def] bindings IH]; intros known ds U σ n Hbs Hm [Hok Hv] Hnames Hseed Hds;
    cbn [infer_letrec_defs map]; apply infers_ready; intros Hr; [apply infers_ret; by rewrite app_nil_r|].
  apply Forall_cons in Hbs as [(Htp & Hd & Hh) Hbs]. simpl in Htp. subst tps.
  eapply infers_then; [by apply infers_def|]. intros σ1 n1 U1 [[P t] e] Ht1 (Hhas & HP & _). simpl in *.
  destruct Hseed as [Hs1 Hs2]. destruct (Hs2 (var_name v)) as (a & Ha & HΓ & Hw); [apply (Hnames (v, [], ann, def)); by left|].
  assert (forall d, d ∈ ds -> group_def_ok m (env_values env) σ1 n1 U1 d) as Hds1.
  { intros d Hin. by eapply (group_def_ok_carry _ _ _ _ _ _ _ _ _ Ht1 Hr), Hds. }
  assert (env_ok U n σ (env_values env)) as Hok0 by done.
  advance Ht1 Hr Hr1.
  eapply (infers_then _ _ (fun σ' n' U' a' => σ' = σ1 /\ n' = n1 /\ U' = U1 /\ a' = a)).
  { apply infers_ok_or. intros a' Ha'. rewrite Ha in Ha'. by injection Ha' as <-. }
  reading. eapply infers_then; [apply infers_unify; [done|apply Hhas]|].
  intros σ2 ? ? ? Ht2 (-> & -> & Hc%compat_coerces). 
  assert (forall d, d ∈ ds -> group_def_ok m (env_values env) σ2 n1 U1 d) as Hds2.
  { intros d Hin. by eapply (group_def_ok_carry _ _ _ _ _ _ _ _ _ Ht2 Hr1), Hds1. }
  advance Ht2 Hr1 Hr2. pose proof (ready_settled _ _ _ Hr2) as Hset.
  eapply infers_then; [apply infers_prune|]. reading.
  eapply infers_then; [apply infers_default; [done|by apply within_pruned]|].
  intros σ3 ? ? [P3 t3] Ht3 (-> & -> & Hs3 & HP3 & HPw & Hw3). simpl in *.
  assert (same σ2 (subst σ2 a) a) as Hsa by by apply same_pruned.
  assert (forall d, d ∈ ds -> group_def_ok m (env_values env) σ3 n1 U1 d) as Hds3.
  { intros d Hin. by eapply (group_def_ok_carry _ _ _ _ _ _ _ _ _ Ht3 Hr2), Hds2. }
  advance Ht3 Hr2 Hr3.
  eapply infers_weaken; [apply (IH _ (ds ++ [(var_name v, P3, t3, e)])); [done|lia|done| | |]|].
  - intros b Hb. apply Hnames. by right.
  - assert (touch U σ n σ3 n1 U1) as Ht by by eapply touch_trans, touch_trans.
    split; [done|]. intros name Hn. destruct (Hs2 name Hn) as (a' & ? & ? & ?). exists a'.
    split_and!; [done..|by apply (within_carry Ht Hr)].
  - intros d [Hin| ->%list_elem_of_singleton]%elem_of_app; [by apply Hds3|]. exists a. simpl.
    split_and!; [done| |by etrans|done]. destruct Hhas as (_ & Hct & He). split_and!; [done| |].
    + eapply coerces_trans; [exact Hct|]. by apply coerces_sym.
    + by eapply (elab_carry _ (touch_refl _ _ _ Hr3) Hr3); [..|exact He].
  - intros σ4 n4 U4 r _ [Hk Hr4]. split; [|done]. rewrite Hk, map_app, <- app_assoc. done.
Qed.

(** ** Generalisation of a group *)

(** The schemes of the definitions, each generalised in the environment that has
    those before it. *)
Fixpoint group_schemes (σ : Subst) (Γ : Values) (ds : list group_def) (schemes : list Scheme) (Γend : Values) : Prop :=
  match ds, schemes with
  | [], [] => Γend = Γ
  | d :: ds, s :: schemes =>
      generalised σ Γ d.1.1.2 d.1.2 s /\ group_schemes σ (bind_value d.1.1.1 s Γ) ds schemes Γend
  | _, _ => False
  end.

Lemma infers_letrec_env U σ n ds : forall env,
  env_type_vars env = ∅ ->
  infers U σ n (fun f => letrec_env f ds env)
    (fun σ' n' U' r => σ' = σ /\ n' = n /\ U' = U /\ env_type_vars r = ∅ /\
       exists schemes, group_schemes σ (env_values env) ds schemes (env_values r)).
Proof using Hadts Haliases.
  induction ds as [|[[[name P] t] e] ds IH]; intros env Hv; cbn [letrec_env].
  { apply infers_ret. split_and!; [done..|]. by exists []. }
  eapply infers_then; [apply infers_generalize|]. intros ??? s _ (-> & -> & -> & Hg).
  eapply (infers_then _ _ (fun σ' n' U' _ => σ' = σ /\ n' = n /\ U' = U)); [by apply infers_pure|].
  intros ? ? ? ? _ (-> & -> & ->). eapply infers_weaken; [by apply IH|].
  intros ??? r _ (-> & -> & -> & Hvr & schemes & Hs). split_and!; [done..|]. by exists (s :: schemes).
Qed.

Lemma group_schemes_env σ ds : forall Γ schemes Γend, group_schemes σ Γ ds schemes Γend ->
  Γend = letrec_env_of (map (fun d => (d.1.1.1, d.2)) ds) schemes Γ /\ length schemes = length ds.
Proof using Hadts Haliases.
  unfold letrec_env_of. induction ds as [|d ds IH]; intros Γ [|s schemes] Γend; simpl; try done.
  intros [_ Hs]. destruct (IH _ _ _ Hs) as [-> ->]. done.
Qed.

(** Every scheme is generalised in an environment that differs from [Γ] on the
    names of the group only. *)
Lemma group_schemes_lookup σ ds : forall (Γ Γ0 : Values) (names : list Symbol) schemes Γend i d s,
  (forall name, name ∉ names -> Γ !! name = Γ0 !! name) -> (forall d, d ∈ ds -> d.1.1.1 ∈ names) ->
  group_schemes σ Γ ds schemes Γend -> ds !! i = Some d -> schemes !! i = Some s ->
  exists Γi : Values, (forall name, name ∉ names -> Γi !! name = Γ0 !! name) /\ generalised σ Γi d.1.1.2 d.1.2 s.
Proof using Hadts Haliases.
  induction ds as [|d0 ds IH]; intros Γ Γ0 names [|s0 schemes] Γend i d s HΓ Hnames; simpl; try done.
  intros [Hg Hs]. destruct i as [|i]; simpl; [intros [= <-] [= <-]; by exists Γ|].
  intros Hd Hsch. eapply (IH _ Γ0 names); [|intros d' ?; apply Hnames; by right|exact Hs|done..].
  intros name Hn. unfold bind_value. rewrite lookup_insert_ne; [by apply HΓ|].
  intros <-. apply Hn, Hnames. by left.
Qed.

(** The free variables of the schemes are those of the environment. *)
Lemma generalised_free σ Γ P t s : settled σ -> generalised σ Γ P t s -> scheme_free σ s ⊆ env_free σ Γ.
Proof using Hadts Haliases.
  intros _ (_ & _ & Hids) y [Hy Hi]%elem_of_scheme_free.
  destruct (decide (y ∈ env_free σ Γ)); [done|]. exfalso. by apply Hi, Hids.
Qed.

Lemma group_schemes_free U σ ds : forall Γ schemes Γend,
  settled σ -> env_free σ Γ ⊆ U -> group_schemes σ Γ ds schemes Γend ->
  env_free σ Γend ⊆ U /\ forall s, s ∈ schemes -> scheme_free σ s ⊆ U.
Proof using Hadts Haliases.
  induction ds as [|d ds IH]; intros Γ [|s schemes] Γend Hs HΓ; simpl; try done.
  { intros ->. split; [done|]. by intros s ?%not_elem_of_nil. }
  intros [Hg Hgs]. apply generalised_free in Hg; [|done].
  assert (env_free σ (bind_value d.1.1.1 s Γ) ⊆ U) as Hb.
  { intros y [Hy|Hy]%env_free_bind%elem_of_union; [by apply HΓ, Hg|by apply HΓ]. }
  destruct (IH _ _ _ Hs Hb Hgs) as [He Hss].
  split; [done|]. intros s' [->|?]%elem_of_cons; [set_solver|by apply Hss].
Qed.

(** ** A group in place *)

Definition group_member (m : nat) (Γ Γ' : Values) (σ : Subst) (n : nat) (U : gset TypeVarId) (d : group_def) (s : Scheme) : Prop :=
  (exists a, Γ' !! d.1.1.1 = Some [RegisteredValue_new (mono_scheme a)] /\ (forall y, y ∈ vars (subst σ a) -> y < n) /\
     coerces σ (te_typ d.2) a /\ same σ a (scheme_typ s)) /\
  (forall y, y ∈ scheme_vars_in σ s -> y < n) /\ generic σ (made m U n σ) Γ s /\
  elab adts m Γ' (scheme_preds s) U σ n d.2.

Lemma group_member_carry m Γ Γ' U σ n σ' n' U' d s :
  touch U σ n σ' n' U' -> ready U σ n -> env_dead U n σ Γ -> env_dead U n σ Γ' ->
  group_member m Γ Γ' σ n U d s -> group_member m Γ Γ' σ' n' U' d s.
Proof using Hadts Haliases.
  intros Ht Hr Hd Hd' ((a & Ha & Hlt & Hc & Hs) & Hv & Hg & He). split_and!.
  - exists a. carry Ht Hr. split_and!; [done|by apply (vars_lt_carry Ht Hr)|done..].
  - by apply (scheme_lt_carry Ht Hr).
  - eapply (generic_carry Ht Hr (made m U n σ)); [done| |done]. intros b. by apply made_carry.
  - by eapply (elab_carry_dead _ Ht Hr); [..|apply entailed_refl|].
Qed.

Definition without (names : list Symbol) (Γ : Values) : Values := filter (fun kv => kv.1 ∉ names) Γ.

Lemma without_schemes names (Γ Γ' : Values) s :
  (forall name, name ∉ names -> Γ' !! name = Γ !! name) -> s ∈ env_schemes (without names Γ) -> s ∈ env_schemes Γ'.
Proof using Hadts Haliases.
  intros HΓ (name & vs & v & Hn & Hv & ->)%elem_of_env_schemes.
  apply map_lookup_filter_Some in Hn as [Hn Hnames]. simpl in Hnames.
  apply elem_of_env_schemes. exists name, vs, v. split_and!; [by rewrite HΓ|done..].
Qed.

Lemma env_free_schemes σ Γ Γ' : (forall s, s ∈ env_schemes Γ -> s ∈ env_schemes Γ') -> env_free σ Γ ⊆ env_free σ Γ'.
Proof using Hadts Haliases. intros H y (s & Hs & Hy)%elem_of_env_free. apply elem_of_env_free. eauto. Qed.

Lemma seeded_ok U σ n names tys Γ Γ' :
  ready U σ n -> env_ok U n σ (without names Γ) -> seeded U σ names tys Γ Γ' -> env_ok U n σ Γ'.
Proof using Hadts Haliases.
  intros Hr Hok [H1 H2]. rewrite env_ok_schemes in Hok |- *.
  intros s (name & vs & v & Hn & Hv & ->)%elem_of_env_schemes. destruct (decide (name ∈ names)) as [Hin|Hin].
  - destruct (H2 name Hin) as (a & _ & Ha & Hw). rewrite Ha in Hn. injection Hn as <-.
    apply list_elem_of_singleton in Hv as ->. by apply scheme_ok_mono.
  - apply Hok, elem_of_env_schemes. exists name, vs, v. split_and!; [|done..].
    apply map_lookup_filter_Some. rewrite H1 in Hn by done. done.
Qed.
(** The group, up to the environment of the body. *)
Definition group_head (f : nat) (env : TypeEnv) (known : KnownVariants) (bindings : list LetRecBinding)
    : stateful Infer (TypeEnv * KnownVariants * list group_def) :=
  let~ (env_seed, known_seed, tys) := letrec_seed bindings env known ∅ in
  let~ (known_seed, inferred) := infer_letrec_defs adts aliases f (rec f) env_seed tys bindings known_seed [] in
  let~ env_body := letrec_env f inferred env in
  rret (env_body, known_seed, inferred).

Definition group_inferred (m : nat) (Γ : Values) (names : list Symbol) (σ : Subst) (n : nat) (U : gset TypeVarId)
    (r : TypeEnv * KnownVariants * list group_def) : Prop :=
  env_type_vars r.1.1 = ∅ /\ map (fun d : group_def => d.1.1.1) r.2 = names /\
  exists Γ' : Values, (forall name, name ∉ names -> Γ' !! name = Γ !! name) /\ env_ok U n σ Γ' /\
    (forall d, d ∈ r.2 -> group_def_ok m Γ' σ n U d) /\
    exists schemes, group_schemes σ Γ r.2 schemes (env_values r.1.1).

Lemma infers_group_head U σ n env known bindings :
  Forall unscoped_rec_binding bindings -> env_type_vars env = ∅ ->
  env_ok U n σ (without (map binding_name bindings) (env_values env)) ->
  infers U σ n (fun f => group_head f env known bindings)
    (group_inferred n (env_values env) (map binding_name bindings)).
Proof using Hadts Haliases.
  intros Hbs Hv Hok. apply infers_ready. intros Hr. unfold group_head.
  eapply infers_then.
  { apply (infers_seed (env_values env) bindings []); [|done]. split; [done|]. by intros name ?%not_elem_of_nil. }
  intros ? n1 U1 [[env_seed known_seed] tys] Ht1 (-> & HU & Hvs & Hseed). simpl in *.
  pose proof (touch_ready Ht1) as Hr1.
  assert (env_ok U1 n1 σ (env_values env_seed)) as Hok1.
  { eapply seeded_ok; [done| |exact Hseed]. by apply (env_ok_carry Ht1 Hr). }
  pose proof (touch_le _ _ _ _ _ _ Ht1).
  eapply infers_then.
  { eapply (infers_group_defs n env_seed tys); [done|lia|done| |exact Hseed|by intros d ?%not_elem_of_nil].
    intros b Hb. by apply list_elem_of_fmap_2. }
  intros σ2 n2 U2 [known2 ds] Ht2 [Hk Hds]. simpl in *. advance Ht2 Hr1 Hr2.
  eapply infers_then; [by apply infers_letrec_env|]. intros ??? env_body _ (-> & -> & -> & Hvb & schemes & Hs).
  apply infers_ret. split_and!; [done|done|]. exists (env_values env_seed). split_and!; [apply Hseed|done|done|].
  by exists schemes.
Qed.

(** The members of a group are out of use, and so may be bound in the environment. *)
Lemma group_placed U W σ n σ1 n1 U1 Γ names r :
  U = env_free σ (without names Γ) -> touch U σ n σ1 n1 U1 -> ready W σ n -> env_ok W n σ Γ ->
  group_inferred n Γ names σ1 n1 U1 r ->
  exists W' Γ' schemes, touch W σ n σ1 n1 W' /\ env_ok W' n1 σ1 (env_values r.1.1) /\ env_dead W' n1 σ1 Γ' /\
    (forall name, name ∉ names -> Γ' !! name = Γ !! name) /\
    env_values r.1.1 = letrec_env_of (map (fun d : group_def => (d.1.1.1, d.2)) r.2) schemes Γ /\ length schemes = length r.2 /\
    forall i d s, r.2 !! i = Some d -> schemes !! i = Some s -> group_member n Γ Γ' σ1 n1 W' d s.
Proof using Hadts Haliases.
  intros HU Ht Hr Hok (Hv & Hk & Γ' & HΓ' & Hok' & Hds & schemes & Hs).
  assert (forall s, s ∈ env_schemes (without names Γ) -> s ∈ env_schemes Γ) as HΔ by (intros s; by apply without_schemes).
  assert (U ⊆ W) as Hsub by (subst U; etrans; [by apply env_free_schemes|apply Hok]).
  assert (∅ ⊆ U1) as HE by set_solver.
  assert (forall d : group_def, d ∈ r.2 -> d.1.1.1 ∈ names) as Hnames.
  { intros d Hd. rewrite <- Hk. by apply (list_elem_of_fmap_2 (fun d : group_def => d.1.1.1)). }
  pose proof (touch_part Ht Hr Hsub ∅ HE) as HtW. set (W' := image σ σ1 W ∪ ∅) in *.
  pose proof (touch_ready HtW) as HrW. pose proof (ready_settled _ _ _ HrW) as Hs1.
  pose proof (env_ok_carry HtW Hr _ Hok) as HokW.
  destruct (group_schemes_env _ _ _ _ _ Hs) as [Hend Hlen].
  destruct (group_schemes_free W' _ _ _ _ _ Hs1 (proj2 HokW) Hs) as [Hfend Hfs].
  pose proof (touch_ready Ht) as Hr1.
  assert (env_dead W' n1 σ1 Γ') as Hdead'.
  { intros s (name & vs & v & Hn & Hvin & ->)%elem_of_env_schemes. destruct (decide (name ∈ names)) as [Hin|Hin].
    - rewrite <- Hk in Hin. apply list_elem_of_fmap in Hin as (d & -> & Hd). destruct (Hds d Hd) as (a & Ha & (Hw & _) & _).
      rewrite Ha in Hn. injection Hn as <-. apply list_elem_of_singleton in Hvin as ->.
      by apply scheme_dead_mono, (within_lt U1).
    - rewrite HΓ' in Hn by done. apply HokW, elem_of_env_schemes. eauto 6. }
  assert (forall i d s, r.2 !! i = Some d -> schemes !! i = Some s -> group_member n Γ Γ' σ1 n1 W' d s) as Hmem.
  { intros i d s Hi Hsi. pose proof (list_elem_of_lookup_2 _ _ _ Hi) as Hd.
    destruct (group_schemes_lookup σ1 r.2 Γ Γ names _ _ i d s (fun _ _ => eq_refl) Hnames Hs Hi Hsi)
      as (Γi & HΓi & Htyp & Hps & Hids).
    destruct (Hds d Hd) as (a & Ha & (Hw & Hc & He) & Hsame & HP).
    assert (forall y, y ∈ scheme_vars_in σ1 s -> y ∈ U1) as Hvs.
    { eapply scheme_in_use; [done|exact Htyp|exact Hps| |done]. by eapply within_same. }
    split_and!.
    - exists a. split_and!; [done|by apply (within_lt U1)|done|]. rewrite Htyp.
      unfold same in *. by rewrite settled_idem.
    - intros y Hy. apply (touch_lt _ _ _ _ _ _ Ht). by apply Hvs.
    - intros b Hb. pose proof (proj1 (Hids b) Hb) as [Hbv Hbf].
      assert (σ1 !! b = None) as Hn.
      { apply elem_of_scheme_vars in Hbv as (t & _ & Hy). by eapply settled_open. }
      assert (made n W' n1 σ1 b) as Hm.
      { eapply (generalised_made _ _ _ _ _ _ _ (without names Γ)); [exact HU|exact Hsub|exact Ht|exact Hr| |set_solver|by apply Hvs|done|].
        - intros s' Hs'. by apply Hok, HΔ.
        - intros Hf. apply Hbf. eapply env_free_schemes; [|exact Hf]. intros s'. by apply without_schemes. }
      split_and!; [done|done|]. intros Hf. apply HokW in Hf. by apply Hm in Hf.
    - eapply (typed_carry (touch_refl _ _ _ HrW) HrW); [|exact He|done|by apply prunes_entailed].
      intros b Hb. assert (made n W' n1 σ1 b) as Hm by by apply (made_part Ht Hr). split; [apply Hm|done]. }
  exists W', Γ', schemes. split_and!; try done.
  split; [|done]. rewrite Hend. apply env_dead_letrec; [apply HokW|]. intros s [i Hi]%list_elem_of_lookup.
  destruct (lookup_lt_is_Some_2 r.2 i) as [d Hd]; [rewrite <- Hlen; by eapply lookup_lt_Some|].
  destruct (Hmem i d s Hd Hi) as (_ & Hlt & Hg & _). split; [|done]. intros b Hb. by apply (Hg b Hb).
Qed.

Lemma letrec_group f env known bindings body st :
  infer_letrec adts aliases f (rec f) env known bindings body st =
  (let~ _ := pure_fueled (validate_let_rec_bindings bindings) in
   let~ (env_body, known_seed, inferred) := group_head f env known bindings in
   let~ (p_body, t_body, typed_body) := rec f env_body known_seed body in
   typed_leaf p_body t_body (ELetRec (map (fun d : group_def => (d.1.1.1, d.2)) inferred) typed_body)) st.
Proof using Type.
  unfold infer_letrec, group_head, rthen, rret. repeat (case_match; simplify_eq; try done).
Qed.

Lemma infers_letrec U σ n env known bindings body :
  Forall unscoped_rec_binding bindings -> inferred body -> context U σ n env ->
  infers U σ n (fun f => infer_letrec adts aliases f (rec f) env known bindings body) (answers adts n (env_values env)).
Proof using Hadts Haliases.
  intros Hbs Hb [Hok Hv]. apply infers_ready. intros Hr. eapply infers_ext; [intros f st; apply letrec_group|].
  eapply infers_then; [apply infers_validate|]. intros ? ? ? ? _ (-> & -> & ->).
  set (names := map binding_name bindings).
  assert (forall s, s ∈ env_schemes (without names (env_values env)) -> s ∈ env_schemes (env_values env)) as HΔ
    by (intros s; by apply without_schemes).
  assert (env_free σ (without names (env_values env)) ⊆ U) as Hsub by (etrans; [by apply env_free_schemes|apply Hok]).
  eapply infers_use.
  { eapply (infers_frame _ _ _ _ _ _ (fun σ1 n1 _ r => exists U1, touch (env_free σ (without names (env_values env))) σ n σ1 n1 U1 /\
      group_inferred n (env_values env) names σ1 n1 U1 r)); [exact Hsub| |].
    - apply (infers_group_head _ _ _ env known bindings Hbs Hv). apply (env_ok_tight U).
      rewrite env_ok_schemes in Hok |- *. intros s Hs. by apply Hok, HΔ.
    - intros _ σ1 n1 U1 r Ht1 Hg. by exists U1. }
  intros σ1 n1 ? r _ (U1 & Ht1 & Hg).
  destruct (group_placed _ _ _ _ _ _ _ _ _ _ eq_refl Ht1 Hr Hok Hg) as (W & Γ' & schemes & HtW & Hokb & Hdead' & HΓ' & Hend & Hlen & Hmem).
  exists W. split; [done|]. advance HtW Hr Hr1. assert (env_dead W n1 σ1 (env_values env)) as Hdead by apply Hok.
  destruct Hg as (Hvr & Hk & _). destruct r as [[env_body known_seed] ds]. simpl in *.
  eapply infers_then; [by apply Hb|]. intros σ2 n2 U2 [[P t] e] Ht2 (Hh & HP & _). simpl in *.
  assert (forall i d s, ds !! i = Some d -> schemes !! i = Some s -> group_member n (env_values env) Γ' σ2 n2 U2 d s) as Hmem2.
  { intros i d s Hi Hs. eapply (group_member_carry _ _ _ _ _ _ _ _ _ _ _ Ht2 Hr1); [done..|by eapply Hmem]. }
  advance Ht2 Hr1 Hr2. apply (has_weaken _ n1 n _ _ P) in Hh; [|done|done|done|done]. destruct Hh as (Hw & Hc & He).
  apply infers_ret, answers_leaf; [done|done| |done]. rewrite Hend in He.
  assert (map fst (map (fun d : group_def => (d.1.1.1, d.2)) ds) = names) as Hnames by by rewrite map_map.
  eapply (T_letrec _ _ _ _ _ _ Γ' _ schemes); [by rewrite Hnames|by rewrite length_map| | |exact He|exact Hc].
  - intros i b s (d & ? & Hi)%list_lookup_fmap_Some Hs. simplify_eq/=.
    destruct (Hmem2 i d s Hi Hs) as ((u & Ha & Hlt & Hca & Hsame) & Hvs & Hg & _). exists u. by split_and!.
  - intros i b s (d & ? & Hi)%list_lookup_fmap_Some Hs. simplify_eq/=. by destruct (Hmem2 i d s Hi Hs) as (_ & _ & _ & Hed).
Qed.
End Lets.
