(* ===== verification/InferSound.v ===== *)
(** Soundness of type inference: [infer_expr] ends on every expression, and the
    expression that it elaborates is well typed; and programs that it should refuse. *)

From S2P Require Import Prelude Span Types BTree Unify UnifyComplete Unifier UnifierSound.
From S2P Require Import Syntax Ast Adts TypedExprs TypeEnv TypeClasses LetRec Infer InferExpr Typing InferRuns InferPattern InferAnswers InferCases InferApps InferLets.

(** * Expressions without type parameters *)

Fixpoint expr_size (e : Expr) : nat :=
  S match e with
    | XTuple _ elems | XList _ elems => sum_list_with expr_size elems
    | XDict _ entries => sum_list_with (fun f => expr_size f.2) entries
    | XRecordUpdate _ base updates => expr_size base + sum_list_with (fun f => expr_size f.2) updates
    | XApp _ f x => expr_size f + expr_size x
    | XProject _ base _ | XAnn _ base _ => expr_size base
    | XLam _ _ _ _ _ body => expr_size body
    | XLet _ _ _ _ def body => expr_size def + expr_size body
    | XLetRec _ bindings body => sum_list_with (fun b => expr_size b.2) bindings + expr_size body
    | XIte _ c t e => expr_size c + expr_size t + expr_size e
    | XMatch _ scrutinee arms => expr_size scrutinee + sum_list_with (fun a => expr_size a.2) arms
    | _ => 0
    end.

Definition no_params (params : list Symbol) : bool := match params with [] => true | _ => false end.

(** No [let] of the expression declares type parameters. *)
Fixpoint unscoped (e : Expr) : bool :=
  match e with
  | XTuple _ elems | XList _ elems => forallb unscoped elems
  | XDict _ entries => forallb (fun f => unscoped f.2) entries
  | XRecordUpdate _ base updates => unscoped base && forallb (fun f => unscoped f.2) updates
  | XApp _ f x => unscoped f && unscoped x
  | XProject _ base _ | XAnn _ base _ => unscoped base
  | XLam _ _ _ _ _ body => unscoped body
  | XLet _ _ params _ def body => no_params params && unscoped def && unscoped body
  | XLetRec _ bindings body =>
      forallb (fun b : LetRecBinding => no_params b.1.1.2 && unscoped b.2) bindings && unscoped body
  | XIte _ c t e => unscoped c && unscoped t && unscoped e
  | XMatch _ scrutinee arms => unscoped scrutinee && forallb (fun a => unscoped a.2) arms
  | _ => true
  end.

Definition below (k : nat) (e : Expr) : Prop := expr_size e <= k /\ unscoped e = true.

Lemma no_params_nil params : no_params params = true -> params = [].
Proof. by destruct params. Qed.

(** The parts of an expression, listed by [f] from [l], are smaller. *)
Lemma below_all {A} (f : A -> Expr) l k :
  sum_list_with (fun a => expr_size (f a)) l <= k -> forallb (fun a => unscoped (f a)) l = true -> Forall (below k) (map f l).
Proof.
  induction l as [|a l IH]; simpl; [constructor|]. intros Hs [Hu Hus]%andb_true_iff.
  constructor; [split; [lia|done]|]. apply IH; [lia|done].
Qed.

Lemma below_list l k : sum_list_with expr_size l <= k -> forallb unscoped l = true -> Forall (below k) l.
Proof. intros Hs Hu. rewrite <- (map_id l). by apply (below_all (fun e => e)). Qed.

Lemma below_mono k k' e : k <= k' -> below k e -> below k' e.
Proof. intros Hk [? ?]. split; [lia|done]. Qed.

Lemma lambda_chain_below k cur : forall params cs seen ps cs' body,
  lambda_chain cur params cs seen = (ps, cs', body) -> below k cur -> below k body.
Proof.
  induction cur; intros params cs seen ps cs' body'; try by intros [= <- <- <-].
  simpl. intros H Hb.
  assert (below k cur) as Hcur by (destruct Hb as [Hs Hu]; simpl in *; split; [lia|done]).
  case_decide; [by eapply IHcur|]. destruct seen; [by injection H as <- <- <-|]. by eapply IHcur.
Qed.

Lemma lambda_below k e params cs body span scope v ann lcs b :
  e = XLam span scope v ann lcs b -> collect_lambda_chain e = (params, cs, body) -> below (S k) e -> below k body.
Proof.
  intros -> H [Hs Hu]. simpl in Hs, Hu. unfold collect_lambda_chain in H. simpl in H.
  assert (below k b) as Hb by (split; [lia|done]).
  case_decide; by eapply lambda_chain_below.
Qed.

Lemma app_chain_below k cur : forall args head args',
  expr_app_chain cur args = (head, args') -> below k cur -> Forall (below k) args -> below k head /\ Forall (below k) args'.
Proof.
  induction cur; intros args head args'; try by intros [= <- <-]. simpl. intros H [Hs Hu] Ha. simpl in Hs, Hu.
  apply andb_true_iff in Hu as [Hu1 Hu2]. eapply IHcur1; [exact H|split; [lia|done]|].
  constructor; [split; [lia|done]|done].
Qed.

Definition frame_below (k : nat) (fr : TailAppFrame) : Prop :=
  below k (tail_head fr) /\ Forall (below k) (tail_prefix_args fr).

Lemma tail_chain_below k cur : forall leaf frames,
  tail_app_chain cur = (leaf, frames) -> below k cur -> below k leaf /\ Forall (frame_below k) frames.
Proof.
  induction cur; intros leaf frames; try by intros [= <- <-]. simpl. intros H Hb. pose proof Hb as [Hs Hu]. simpl in Hs, Hu.
  apply andb_true_iff in Hu as [Hu1 Hu2]. destruct (is_app_expr cur2); [|by injection H as <- <-].
  destruct (collect_app_chain cur1) as [head args] eqn:Ec. destruct (tail_app_chain cur2) as [leaf' frames'] eqn:Et.
  injection H as <- <-. destruct (IHcur2 _ _ eq_refl) as [Hl Hf]; [split; [lia|done]|].
  split; [done|]. constructor; [|done]. eapply app_chain_below; [exact Ec|split; [lia|done]|constructor].
Qed.

Lemma let_chain_below k cur : forall bindings body,
  let_chain cur = (bindings, body) -> below k cur ->
  Forall (fun b => let_type_params b = [] /\ below k (let_def b)) bindings /\ below k body.
Proof.
  induction cur; intros bs0 body0; try by intros [= <- <-]. simpl. intros H [Hs Hu]. simpl in Hs, Hu.
  rewrite !andb_true_iff in Hu. destruct Hu as [[Hn Hu1] Hu2].
  destruct (let_chain cur2) as [bs b] eqn:El. injection H as <- <-.
  destruct (IHcur2 _ _ eq_refl) as [Hbs Hb]; [split; [lia|done]|]. split; [|done].
  constructor; [|done]. simpl. split; [by apply no_params_nil|split; [lia|done]].
Qed.

Section Sound.
Context (adts : gmap Symbol AdtDecl) (aliases : gmap Symbol TypeAlias).
Hypothesis Hadts : adts_closed adts.
Hypothesis Haliases : aliases_closed aliases.
Abbreviation rec := (infer_expr adts aliases).
Abbreviation inferred := (inferred adts aliases).
Abbreviation hinted := (hinted adts aliases).

Lemma inferred_var v : inferred (XVar v).
Proof using Hadts Haliases. apply infers_cases. intros. by apply (infers_var adts aliases). Qed.

Section Step.
Context (k : nat).
Hypothesis IH : forall e, below k e -> inferred e /\ hinted e.

Lemma IH_inferred l : Forall (below k) l -> Forall inferred l.
Proof using IH. intros H. eapply Forall_impl; [exact H|]. intros e He. by apply IH. Qed.
Lemma IH_hinted l : Forall (below k) l -> Forall hinted l.
Proof using IH. intros H. eapply Forall_impl; [exact H|]. intros e He. by apply IH. Qed.

Lemma app_step U σ n env known span f x :
  below (S k) (XApp span f x) -> context U σ n env ->
  infers U σ n (fun fuel => infer_app adts fuel (rec fuel) env known (XApp span f x)) (answers adts n (env_values env)).
Proof using Hadts Haliases IH.
  intros [Hs Hu]. simpl in Hs, Hu. apply andb_true_iff in Hu as [Hu1 Hu2].
  assert (below k f) as Hf by (split; [lia|done]). assert (below k x) as Hx by (split; [lia|done]).
  apply infers_app; [done|done|..].
  - intros adt variant supplied Hp. apply IH_hinted.
    assert (exists sp, x = XDict sp supplied) as [sp ->].
    { unfold partial_record_constructor in Hp. destruct f; try done. destruct x; try done.
      destruct (ctor_lookup _ _) as [[adt' variant']|]; simpl in Hp; [|done].
      destruct (record_fields variant'); simpl in Hp; [|done]. destruct (existsb _ _); [|done].
      simplify_eq. by eexists. }
    destruct Hx as [Hxs Hxu]. simpl in *. apply below_all; [lia|done].
  - unfold collect_tail_app_chain. simpl. destruct (is_app_expr x); [|done].
    destruct (collect_app_chain f) as [head args] eqn:Ec. destruct (tail_app_chain x) as [leaf' frames'] eqn:Et.
    intros leaf frames [= <- <-]. destruct (tail_chain_below k x _ _ Et Hx) as [Hl Hfr].
    split; [by apply IH|]. assert (Forall (frame_below k) (mkTailAppFrame head args :: frames')) as Hall.
    { constructor; [|done]. eapply app_chain_below; [exact Ec|done|constructor]. }
    eapply Forall_impl; [exact Hall|]. intros fr [Hh Ha]. split; [by apply IH|by apply IH_hinted].
  - intros _. unfold collect_app_chain. simpl. destruct (expr_app_chain f [x]) as [head args] eqn:Ec. simpl.
    destruct (app_chain_below k f _ _ _ Ec Hf) as [Hh Ha]; [by repeat constructor; apply Hx|].
    split; [by apply IH|by apply IH_hinted].
Qed.

Lemma letrec_step U σ n env known span bindings body :
  below (S k) (XLetRec span bindings body) -> context U σ n env ->
  infers U σ n (fun f => infer_letrec adts aliases f (rec f) env known bindings body) (answers adts n (env_values env)).
Proof using Hadts Haliases IH.
  intros [Hs Hu]. simpl in Hs, Hu. apply andb_true_iff in Hu as [Hu1 Hu2].
  apply infers_letrec; [done|done| |apply IH; split; [lia|done]].
  apply Forall_forall. intros b Hb. assert (expr_size b.2 <= sum_list_with (fun b : LetRecBinding => expr_size b.2) bindings) as Hle.
  { by apply (sum_list_with_elem (fun b : LetRecBinding => expr_size b.2)). }
  rewrite forallb_elem in Hu1. apply Hu1, andb_true_iff in Hb as [Hn Hu].
  assert (below k (binding_def b)) as Hbd by (split; [unfold binding_def; lia|done]).
  split; [by apply no_params_nil|]. by apply IH.
Qed.

Lemma leaf_step U σ n t kd Γ :
  closed_ty t -> (forall N K, typed adts N K σ Γ [] (mkTypedExpr t kd)) -> (forall name ovs, kd <> EVar name ovs) ->
  infers U σ n (fun _ => typed_leaf [] t kd) (answers adts n Γ).
Proof using Hadts Haliases.
  intros Ht Hty Ho. apply (infers_leaf adts aliases); [done|done|by apply closed_within|by intros p ?%not_elem_of_nil|apply Hty|].
  intros name ovs Hk. by apply Ho in Hk.
Qed.

Lemma literal_step U σ n name (P : ty -> list Predicate) kd env :
  context U σ n env -> (forall t p, p ∈ P t -> pred_typ p = t) -> (forall name ovs, kd <> EVar name ovs) ->
  (forall t N K, typed adts N K σ (env_values env) (P t) (mkTypedExpr t kd)) ->
  infers U σ n (fun _ => let~ t := fresh_var name in typed_leaf (P t) t kd) (answers adts n (env_values env)).
Proof using Hadts Haliases. intros Hctx HP Hk Hty. apply (infers_fresh_leaf adts aliases); [done..|]. intros. apply Hty. Qed.

Lemma holds_in σ P p : p ∈ P -> holds σ P p.
Proof using Type. intros Hp. by exists p. Qed.

Lemma inferred_step e : below (S k) e -> inferred e.
Proof using Hadts Haliases IH.
  intros Hb. apply infers_cases. intros U σ n env known Hctx. pose proof Hb as [Hs Hu].
  destruct e; cbn [infer_expr_cases]; simpl in Hs, Hu; rewrite ?andb_true_iff in Hu.
  - by apply leaf_step; [|intros; constructor|].
  - apply (literal_step _ _ _ _ (fun t => [mkPredicate "Integral" t])); [done|by intros t p ->%list_elem_of_singleton|done|].
    intros. constructor. apply holds_in. by left.
  - apply (literal_step _ _ _ _ (fun t => [mkPredicate "Integral" t; mkPredicate "AdditiveGroup" t])); [done| |done|].
    { intros t p. rewrite !elem_of_cons. by intros [->|[->|?%not_elem_of_nil]]. }
    intros. constructor; apply holds_in; [by left|right; by left].
  - apply (literal_step _ _ _ _ (fun t => [mkPredicate "Field" t])); [done|by intros t p ->%list_elem_of_singleton|done|].
    intros. constructor. apply holds_in. by left.
  - by apply leaf_step; [|intros; constructor|].
  - by apply leaf_step; [|intros; constructor|].
  - by apply leaf_step; [|intros; constructor|].
  - by apply leaf_step; [|intros; constructor|].
  - apply (literal_step _ _ _ _ (fun _ => [])); [done|by intros t p ?%not_elem_of_nil|done|]. intros. constructor.
  - apply infers_tuple; [done|done| |done]. apply IH_inferred. apply below_list; [lia|done].
  - apply infers_list; [done|done| |done]. apply IH_inferred. apply below_list; [lia|done].
  - apply infers_dict; [done|done| |done]. apply IH_inferred, below_all; [lia|done].
  - destruct Hu as [Hu1 Hu2]. apply infers_record_update; [done|done|apply IH; split; [lia|done]| |done].
    apply IH_inferred, below_all; [lia|done].
  - by apply (infers_var adts aliases).
  - by apply app_step.
  - apply infers_project; [done|done|apply IH; split; [lia|done]|done|apply inferred_var].
  - destruct (collect_lambda_chain (XLam span scope param ann constraints e)) as [[params cs] body] eqn:Ec.
    eapply infers_lam; [done|done|exact Ec| |done]. apply IH. eapply lambda_below; [reflexivity|exact Ec|exact Hb].
  - destruct (let_chain (XLet span v type_params ann e1 e2)) as [bs body'] eqn:El.
    assert (Forall (fun b => let_type_params b = [] /\ below k (let_def b)) bs /\ below k body') as [Hbs Hbody].
    { simpl in El. destruct (let_chain e2) as [bs2 body2] eqn:El2. injection El as <- <-.
      destruct (let_chain_below k _ _ _ El2) as [H1 H2]; [split; [lia|apply Hu]|]. split; [|done].
      constructor; [|done]. simpl. split; [apply no_params_nil, Hu|split; [lia|apply Hu]]. }
    eapply infers_let; [done|done|exact El| |by apply IH|done].
    eapply Forall_impl; [exact Hbs|]. intros b [Hp Hd]. split; [done|]. by apply IH.
  - by eapply letrec_step.
  - apply infers_ite; [done|done|apply IH..|done]; (split; [lia|apply Hu]).
  - destruct Hu as [Hu1 Hu2]. apply infers_match; [done|done|apply IH; split; [lia|done]| |done].
    apply IH_inferred, below_all; [lia|done].
  - apply infers_ann; [done|done|apply IH; split; [lia|done]|done].
Qed.

Lemma hinted_step e : below (S k) e -> hinted e.
Proof using Hadts Haliases IH.
  intros Hb. pose proof (inferred_step e Hb) as He. destruct Hb as [Hs Hu].
  destruct e; try by apply hinted_inferred; simpl in Hs, Hu.
  - apply hinted_dict; [done|done|done|]. apply IH_hinted, below_all; [simpl in Hs; lia|done].
  - simpl in Hs, Hu. apply andb_true_iff in Hu as [Hu1 Hu2].
    apply hinted_update; [done|done|done|apply IH; split; [lia|done]|]. apply IH_inferred, below_all; [lia|done].
Qed.
End Step.

Lemma all_inferred k : forall e, below k e -> inferred e /\ hinted e.
Proof using Hadts Haliases.
  induction k as [|k IH]; intros e Hb.
  - destruct Hb as [Hs _]. destruct e; simpl in Hs; lia.
  - split; [by eapply inferred_step|by eapply hinted_step].
Qed.
End Sound.

(** * The theorem *)

(** Every type variable of the environment was taken from the supply, and its
    schemes bind all of theirs. *)
Definition closed_env (n : nat) (env : TypeEnv) : Prop :=
  env_type_vars env = ∅ /\ forall s, s ∈ env_schemes (env_values env) ->
    (forall b, b ∈ ids s -> b < n) /\ forall y, y ∈ scheme_vars_in ∅ s -> y ∈ ids s.

Lemma closed_env_ok n env : closed_env n env -> context ∅ ∅ n env.
Proof.
  intros [Hv Hs]. split; [|done]. apply env_ok_schemes. intros s Hin. destruct (Hs s Hin) as [Hb Hy].
  split; [split|].
  - intros b Hbin. split_and!; [by apply Hb|set_solver|apply lookup_empty].
  - intros y Hyv. by apply Hb, Hy.
  - intros y [Hyv Hi]%elem_of_scheme_free. exfalso. by apply Hi, Hy.
Qed.

Section Soundness.
Context (adts : gmap Symbol AdtDecl) (aliases : gmap Symbol TypeAlias).

(** What a run leaves: the substitution is settled, and the schemes of the environment
    are as they were. *)
Lemma infer_expr_traced env known e st :
  adts_closed adts -> aliases_closed aliases ->
  closed_env (counter (i_supply st)) env -> unscoped e = true -> closure_of (i_unifier st) ∅ ->
  exists r st', steps (fun fuel => infer_expr adts aliases fuel env known e) st r st' /\
    match r with
    | Err _ => True
    | Ok (preds, t, typed_expr) =>
        exists σ U, closure_of (i_unifier st') σ /\ within U σ t /\ preds_within U σ preds /\
          coerces σ (te_typ typed_expr) t /\
          ready U σ (counter (i_supply st')) /\ env_dead U (counter (i_supply st')) σ (env_values env) /\
          typed adts (counter (i_supply st')) (made (counter (i_supply st)) U (counter (i_supply st')) σ) σ
            (env_values env) preds typed_expr
    end.
Proof.
  intros Hadts Haliases Henv Hu Hc.
  destruct (all_inferred adts aliases Hadts Haliases (expr_size e) e) as [He _]; [by split|].
  assert (ready ∅ ∅ (counter (i_supply st))) as Hready.
  { split; [intros t y; by rewrite subst_empty, lookup_empty|intros; apply lookup_empty|set_solver]. }
  destruct (He ∅ ∅ _ env known (closed_env_ok _ _ Henv)) with (st := st) as (r & st' & Hs & H); [done|done|done|].
  exists r, st'. split; [done|]. destruct r as [[[P t] te]|]; [|done].
  destruct H as (σ & U & Hcl & Ht & (Hw & Hco & Hty) & HP & _). exists σ, U. split_and!; try done.
  - exact (touch_ready Ht).
  - destruct (closed_env_ok _ _ Henv) as [[Hd _] _]. by apply (env_dead_carry Ht Hready).
Qed.

(** Type inference ends and is sound. In an environment of closed schemes, for
    every expression whose [let]s declare no type parameters, [infer_expr] ends with
    an answer or an error, whatever the program. On success the elaborated
    expression is well typed under the collected predicates, up to the coercions
    between records and dictionaries, and its type is the one returned; and the
    scheme of every [let] and of every recursive group quantifies only variables
    that are new, still open, free neither in the environment of the definition nor
    in the type or the predicates that are returned. *)
Theorem infer_expr_sound env known e st :
  adts_closed adts -> aliases_closed aliases ->
  closed_env (counter (i_supply st)) env -> unscoped e = true -> closure_of (i_unifier st) ∅ ->
  exists r st', steps (fun fuel => infer_expr adts aliases fuel env known e) st r st' /\
    match r with
    | Err _ => True
    | Ok (preds, t, typed_expr) =>
        exists σ U, closure_of (i_unifier st') σ /\ within U σ t /\ preds_within U σ preds /\
          coerces σ (te_typ typed_expr) t /\
          typed adts (counter (i_supply st')) (made (counter (i_supply st)) U (counter (i_supply st')) σ) σ
            (env_values env) preds typed_expr
    end.
Proof.
  intros Hadts Haliases Henv Hu Hc.
  destruct (infer_expr_traced env known e st Hadts Haliases Henv Hu Hc) as (r & st' & Hs & H).
  exists r, st'. split; [done|]. destruct r as [[[P t] te]|]; [|done].
  destruct H as (σ & U & H1 & H2 & H3 & H4 & _ & _ & H5). exists σ, U. by split_and!.
Qed.
End Soundness.

(** [let f = \x -> id x in (f true, f 'c')], where [id] has the scheme of the
    identity. *)
Definition demo_env : TypeEnv :=
  let a := TypeVar_new 0 None in
  extend "id" (mkScheme [a] [] (TFun (TVar a) (TVar a))) TypeEnv_new.
Definition demo_expr : Expr :=
  let sp := Span_default in
  let x s := XVar (mkVar sp s) in
  XLet sp (mkVar sp "f") [] None (XLam sp [] (mkVar sp "x") None [] (XApp sp (x "id") (x "x")))
    (XTuple sp [XApp sp (x "f") (XBool sp true); XApp sp (x "f") (XChar sp 99)]).
Definition demo_state : Infer := mkInfer (Unifier_new None) (mkSupply 1).

Lemma demo_env_closed : closed_env 1 demo_env.
Proof.
  split; [done|]. intros s (name & vs & v & Hn & Hv & ->)%elem_of_env_schemes.
  unfold demo_env, extend, extend_registered in Hn. simpl in Hn.
  apply lookup_insert_Some in Hn as [[<- <-]|[_ Hn]]; [|by rewrite lookup_empty in Hn].
  apply list_elem_of_singleton in Hv as ->. split.
  - intros b ->%list_elem_of_singleton. simpl. lia.
  - intros y (t & [->|Ht]%elem_of_cons & Hy)%elem_of_scheme_vars; [|by apply not_elem_of_nil in Ht].
    rewrite subst_empty in Hy. simpl in Hy. unfold ids. simpl. set_solver.
Qed.

Lemma infer_expr_sound_witness :
  (match infer_expr ∅ ∅ 12 demo_env ∅ demo_expr demo_state with
   | Some (Ok (preds, t, _), _) => preds = [] /\ t = TTuple [ty_builtin Bool; ty_builtin Char]
   | _ => False
   end) /\
  exists r st', steps (fun fuel => infer_expr ∅ ∅ fuel demo_env ∅ demo_expr) demo_state r st' /\
    match r with
    | Err _ => True
    | Ok (preds, t, typed_expr) =>
        exists σ U, closure_of (i_unifier st') σ /\ within U σ t /\ preds_within U σ preds /\
          coerces σ (te_typ typed_expr) t /\
          typed ∅ (counter (i_supply st')) (made 1 U (counter (i_supply st')) σ) σ (env_values demo_env) preds typed_expr
    end.
Proof.
  split; [vm_compute; by split|].
  apply (infer_expr_sound ∅ ∅ demo_env ∅ demo_expr demo_state).
  - intros name adt variant fs f y H. by rewrite lookup_empty in H.
  - intros name alias body y H. by rewrite lookup_empty in H.
  - apply demo_env_closed.
  - reflexivity.
  - apply closure_new.
Defined.

(** * What inference lets through

    Programs on which inference says more, or less, than it should: predicates
    that a recursive group loses, schemes that quantify a type parameter in scope,
    and the two directions of the coercion between records and dictionaries. *)

Section Programs.
Let sp := Span_default.
Let v := mkVar sp.
Let x (name : Symbol) : Expr := XVar (v name).
Let app (f a : Expr) : Expr := XApp sp f a.
Let lam (name : Symbol) (body : Expr) : Expr := XLam sp [] (v name) None [] body.
Let tname (name : Symbol) : TypeExpr := TyName sp (Unqualified name).

(** [+] on an additive monoid. *)
Definition plus_env : TypeEnv :=
  let a := TypeVar_new 0 None in
  extend "+" (mkScheme [a] [mkPredicate "AdditiveMonoid" (TVar a)] (TFun (TVar a) (TFun (TVar a) (TVar a)))) TypeEnv_new.

(** The predicates and the type, resolved. *)
Definition inferred_type (e : Expr) : option (result TypeError (list Predicate * ty)) :=
  match (let~ (preds, t, _) := infer_expr ∅ ∅ 40 plus_env ∅ e in
         let~ preds := run_map (prune_pred 40) preds in
         let~ t := prune_type 40 t in rret (preds, t)) demo_state with
  | Some (r, _) => Some r
  | None => None
  end.

(** [x + x] needs a predicate. *)
Definition double : Expr := lam "x" (app (app (x "+") (x "x")) (x "x")).

Example predicate_of_let :
  inferred_type (XLet sp (v "g") [] None double (app (x "g") (XBool sp true)))
  = Some (Ok ([mkPredicate "AdditiveMonoid" (ty_builtin Bool)], ty_builtin Bool)).
Proof. vm_compute. reflexivity. Qed.

(** In [let rec f = \x -> g x, g = \x -> x + x in f true] the predicate of [g] is not
    one of [f], whose scheme is that of the identity. *)
Lemma recursive_group_loses_predicates :
  inferred_type (XLetRec sp [(v "f", [], None, lam "x" (app (x "g") (x "x"))); (v "g", [], None, double)]
                   (app (x "f") (XBool sp true)))
  = Some (Ok ([], ty_builtin Bool)).
Proof. vm_compute. reflexivity. Qed.

(** [let f<a> : i32 -> a = \n -> let h = \(z : a) -> z in let b = h true in h n in f 1] *)
Definition scoped_parameter : Expr :=
  XLet sp (v "f") ["a"] (Some (TyFun sp (tname "i32") (tname "a")))
    (lam "n" (XLet sp (v "h") [] None (XLam sp [] (v "z") (Some (tname "a")) [] (x "z"))
       (XLet sp (v "b") [] None (app (x "h") (XBool sp true)) (app (x "h") (x "n")))))
    (app (x "f") (XUint sp 1)).

(** [h] is elaborated with the type of [a], which is [i32] here, and used at [bool]:
    generalisation does not count the type parameters in scope as free. *)
Lemma scoped_parameter_quantified :
  inferred_type scoped_parameter = Some (Ok ([mkPredicate "Integral" (ty_builtin I32)], ty_builtin I32)).
Proof. vm_compute. reflexivity. Qed.

(** [(\(x : {a : i32}) -> x.a) ({b = 1} is Dict i32)]: a dictionary without the field
    is taken for the record. *)
Lemma dictionary_taken_for_record :
  inferred_type (app (XLam sp [] (v "x") (Some (TyRecord sp [("a", tname "i32", None)])) [] (XProject sp (x "x") "a"))
    (XAnn sp (XDict sp [("b", XUint sp 1)]) (TyApp sp (tname "Dict") (tname "i32"))))
  = Some (Ok ([mkPredicate "Integral" (ty_builtin I32)], ty_builtin I32)).
Proof. vm_compute. reflexivity. Qed.
End Programs.
