(* ===== verification/InferType.v ===== *)
(** Type inference without elaboration: [infer_expr_type] of
    [rex-typesystem/src/inference.rs] and its helpers, a second copy of the rules
    that does not build typed expressions. [InferCopies] shows that the two copies
    agree.

    As in [InferExpr], [rec] stands for [infer_expr_type] with less fuel. *)

From S2P Require Import Prelude Span Types BTree Unify UnifyComplete Unifier.
From S2P Require Import Syntax Ast Adts TypedExprs TypeEnv TypeClasses LetRec Infer InferExpr.

Abbreviation Inferred := (list Predicate * ty)%type.

Section Hints.
Context (adts : gmap Symbol AdtDecl) (aliases : gmap Symbol TypeAlias) (fuel : nat).
Variable rec : TypeEnv -> KnownVariants -> Expr -> stateful Infer Inferred.

(** * Hints *)

(** The loop over the updates of a record. *)
Fixpoint updates_type (env : TypeEnv) (known : KnownVariants) (expected : list (Symbol * ty)) (result_ty : ty)
    (updates : list (Symbol * Expr)) (preds : list Predicate) : stateful Infer (list Predicate) :=
  match updates with
  | [] => rret preds
  | (k, v) :: updates =>
      let~ expected_ty := ok_or (btree_get expected k) (UnknownField k (show_ty result_ty)) in
      let~ (p1, t1) := rec env known v in
      let~ _ := unify_or_implicit_widen fuel t1 expected_ty in
      updates_type env known expected result_ty updates (preds ++ p1)
  end.

(** What follows the inference of the base of a record update. *)
Definition update_of_base_type (env : TypeEnv) (known : KnownVariants) (base : Expr) (updates : list (Symbol * Expr))
    (p_base : list Predicate) (t_base : ty) : stateful Infer Inferred :=
  let~ base_ty := prune_type fuel t_base in
  let known_variant := known_variant_from_expr_with_known base base_ty adts known in
  let~ (result_ty, fields) := resolve_record_update fuel adts base_ty known_variant (map fst updates) in
  let expected := btree_collect fields in
  let~ preds := updates_type env known expected result_ty updates p_base in
  rret (preds, result_ty).

Definition infer_record_update_type_with_hint (env : TypeEnv) (known : KnownVariants) (base : Expr)
    (updates : list (Symbol * Expr)) (hint_ty : ty) : stateful Infer Inferred :=
  let~ (p_base, t_base) := rec env known base in
  let~ _ := unify_in fuel t_base hint_ty in
  update_of_base_type env known base updates p_base t_base.

(** A dictionary against a record type; the keys that were seen are those of [kvs]. *)
Fixpoint record_fields_type (hint : option ty -> Expr -> stateful Infer Inferred) (fields expected : list (Symbol * ty))
    (kvs : list (Symbol * Expr)) (acc : list Predicate * list Symbol) : stateful Infer (list Predicate * list Symbol) :=
  match kvs with
  | [] => rret acc
  | (k, v) :: kvs =>
      let~ expected_ty := ok_or (btree_get expected k) (UnknownField k (show_ty (Type_record fields))) in
      let~ (p1, t1) := hint (Some expected_ty) v in
      let~ _ := unify_or_implicit_widen fuel t1 expected_ty in
      record_fields_type hint fields expected kvs (acc.1 ++ p1, acc.2 ++ [k])
  end.

Definition record_type (hint : option ty -> Expr -> stateful Infer Inferred) (fields : list (Symbol * ty))
    (kvs : list (Symbol * Expr)) : stateful Infer Inferred :=
  let expected := btree_collect fields in
  let~ (preds, seen) := record_fields_type hint fields expected kvs ([], []) in
  match missing_field expected seen with
  | Some key => rthrow (UnknownField key (show_ty (Type_record fields)))
  | None =>
      let~ fields := prune_fields fuel fields in
      rret (preds, Type_record fields)
  end.

Fixpoint infer_expr_type_with_hint (n : nat) (env : TypeEnv) (known : KnownVariants) (expected : option ty) (expr : Expr)
    : stateful Infer Inferred :=
  match n with
  | O => no_fuel
  | S n =>
      match expected, expr with
      | Some arg_hint, XRecordUpdate _ base updates =>
          infer_record_update_type_with_hint env known base updates arg_hint
      | Some (TRecord fields), XDict _ kvs => record_type (infer_expr_type_with_hint n env known) fields kvs
      | _, arg => rec env known arg
      end
  end.

(** * Constructors of records with fields left out *)

Fixpoint partial_updates_type (env : TypeEnv) (known : KnownVariants) (expected : list (Symbol * ty)) (result_ty : ty)
    (supplied : list (Symbol * Expr)) (preds : list Predicate) : stateful Infer (list Predicate) :=
  match supplied with
  | [] => rret preds
  | (name, value) :: supplied =>
      let~ expected_ty := ok_or (btree_get expected name) (UnknownField name (show_ty result_ty)) in
      let~ (field_preds, field_ty) := infer_expr_type_with_hint fuel env known (Some expected_ty) value in
      let~ _ := unify_or_implicit_widen fuel field_ty expected_ty in
      partial_updates_type env known expected result_ty supplied (preds ++ field_preds)
  end.

Definition infer_partial_record_constructor_type (env : TypeEnv) (known : KnownVariants) (expr : Expr)
    : stateful Infer (option Inferred) :=
  match partial_record_constructor expr adts with
  | None => rret None
  | Some (adt, variant, supplied) =>
      if negb (Nat.eqb (length (adt_variants adt)) 1)
      then rthrow (PartialRecordConstructorRequiresSingleVariant (variant_name variant) (show_ty (result_type adt)))
      else
        let~ inst := instantiate_variant_fields adt variant in
        let~ (result_ty, fields) := ok_or inst (UnsupportedExpr "partial record constructor") in
        let expected := btree_collect fields in
        let~ preds := partial_updates_type env known expected result_ty supplied [mkPredicate "Default" result_ty] in
        let~ result_ty := prune_type fuel result_ty in
        rret (Some (preds, result_ty))
  end.
End Hints.

Section TypeCases.
Context (adts : gmap Symbol AdtDecl) (aliases : gmap Symbol TypeAlias) (fuel : nat).
Variable rec : TypeEnv -> KnownVariants -> Expr -> stateful Infer Inferred.

(** * The cases of [infer_expr_type_inner] *)

Definition plain_scheme (value : RegisteredValue) : bool :=
  bool_decide (scheme_vars (value_scheme value) = []) && bool_decide (scheme_preds (value_scheme value) = []).

(** Overloads must be monomorphic, without predicates. *)
Definition infer_var_type (env : TypeEnv) (name : Symbol) : stateful Infer Inferred :=
  let~ schemes := ok_or (TypeEnv_lookup env name) (UnknownVar name) in
  match schemes with
  | [value] =>
      let~ scheme := apply_scheme_with_unifier fuel (value_scheme value) in
      instantiate_in scheme
  | _ =>
      if forallb plain_scheme schemes
      then let~ t := fresh_var (Some name) in rret ([], t)
      else rthrow (AmbiguousOverload name)
  end.

(** The types of nested lambdas, from the innermost. *)
Fixpoint wrap_types (params : list (Symbol * ty)) (fun_ty : ty) : stateful Infer ty :=
  match params with
  | [] => rret fun_ty
  | (_, param_ty) :: params =>
      let~ param_ty := prune_type fuel param_ty in
      wrap_types params (TFun param_ty fun_ty)
  end.

Definition infer_lam_type (env : TypeEnv) (known : KnownVariants) (expr : Expr) : stateful Infer Inferred :=
  let '(params, constraints, body) := collect_lambda_chain expr in
  let ann_vars := env_type_vars env in
  let~ param_tys := lambda_param_types adts aliases fuel params ann_vars in
  let env1 := extend_all param_tys env in
  let known_body := remove_all (map fst param_tys) known in
  let~ (preds, body_ty) := rec env1 known_body body in
  let~ constraint_preds := pure_fueled (predicates_from_constraints fuel adts aliases constraints ann_vars) in
  let~ fun_ty := prune_type fuel body_ty in
  let~ fun_ty := wrap_types (rev param_tys) fun_ty in
  rret (preds ++ constraint_preds, fun_ty).

(** The candidates of the head of an application: the overloads of a name. *)
Fixpoint overload_candidate_types (name : Symbol) (schemes : list RegisteredValue) : stateful Infer (list ty) :=
  match schemes with
  | [] => rret []
  | value :: schemes =>
      if negb (plain_scheme value) then rthrow (AmbiguousOverload name)
      else
        let~ scheme := apply_scheme_with_unifier fuel (value_scheme value) in
        let~ (p, typ) := instantiate_in scheme in
        match p with
        | [] => let~ candidates := overload_candidate_types name schemes in rret (typ :: candidates)
        | _ => rthrow (AmbiguousOverload name)
        end
  end.

Definition head_candidates (env : TypeEnv) (head : Expr) : stateful Infer (option Symbol * option (list ty)) :=
  match head with
  | XVar var =>
      match TypeEnv_lookup env (var_name var) with
      | Some schemes =>
          if length schemes <=? 1 then rret (None, None)
          else
            let~ candidates := overload_candidate_types (var_name var) schemes in
            rret (Some (var_name var), Some candidates)
      | None => rret (None, None)
      end
  | _ => rret (None, None)
  end.

(** The loop over the arguments. *)
Fixpoint infer_app_args_type (env : TypeEnv) (known : KnownVariants) (args : list Expr) (preds : list Predicate) (func_ty : ty)
    (overload_name : option Symbol) (overload_candidates : option (list ty)) : stateful Infer Inferred :=
  match args with
  | [] => rret (preds, func_ty)
  | arg :: args =>
      let~ arg_hint := app_arg_hint fuel func_ty in
      let~ (p_arg, arg_ty) := infer_expr_type_with_hint adts fuel rec fuel env known arg_hint arg in
      let~ arg_ty := prune_type fuel arg_ty in
      let~ overload_candidates := narrow_candidates fuel overload_name overload_candidates arg_ty p_arg in
      let~ res_ty := app_result_type overload_candidates in
      let~ arg_ty := coerce_app_arg_type_from_func_type fuel func_ty arg_ty in
      let~ _ := unify_in fuel func_ty (TFun arg_ty res_ty) in
      let~ func_ty := prune_type fuel res_ty in
      infer_app_args_type env known args (preds ++ p_arg) func_ty overload_name overload_candidates
  end.

Definition infer_app_type (env : TypeEnv) (known : KnownVariants) (expr : Expr) : stateful Infer Inferred :=
  let~ partial_record := infer_partial_record_constructor_type adts fuel rec env known expr in
  match partial_record with
  | Some inferred => rret inferred
  | None =>
      let '(head, args) := collect_app_chain expr in
      let~ (preds, func_ty) := rec env known head in
      let~ (overload_name, overload_candidates) := head_candidates env head in
      infer_app_args_type env known args preds func_ty overload_name overload_candidates
  end.

(** A projection of a constructor is inferred without a level of depth. *)
Definition infer_project_type (env : TypeEnv) (known : KnownVariants) (base : Expr) (field : Symbol) : stateful Infer Inferred :=
  match constructor_project_symbol env adts base field with
  | Some constructor => infer_var_type env constructor
  | None =>
      let~ (p1, t1) := rec env known base in
      let~ base_ty := prune_type fuel t1 in
      let known_variant := known_variant_from_expr_with_known base base_ty adts known in
      let~ field_ty := resolve_projection fuel adts base_ty known_variant field in
      rret (p1, field_ty)
  end.

Definition infer_record_update_type (env : TypeEnv) (known : KnownVariants) (base : Expr) (updates : list (Symbol * Expr))
    : stateful Infer Inferred :=
  let~ (p_base, t_base) := rec env known base in
  update_of_base_type adts fuel rec env known base updates p_base t_base.

(** The definition of a binding, as [infer_def]. *)
Definition infer_def_type (ann_env : TypeEnv) (known : KnownVariants) (keep_vars : bool)
    (type_params : list Symbol) (ann : option TypeExpr) (d : Expr) : stateful Infer Inferred :=
  let~ def_vars := extend_params type_params (env_type_vars ann_env) in
  let env_def := set_type_vars def_vars ann_env in
  match ann with
  | Some ann_expr =>
      let~ ann_vars := extend_params type_params (env_type_vars ann_env) in
      let env_def := if keep_vars then set_type_vars ann_vars env_def else env_def in
      let~ ann_ty := annotation_type adts aliases fuel ann_expr ann_vars in
      let~ (p1, t1) := infer_expr_type_with_hint adts fuel rec fuel env_def known (Some ann_ty) d in
      let~ t1 := unify_or_implicit_widen fuel t1 ann_ty in
      rret (p1, t1)
  | None => rec env_def known d
  end.

Fixpoint infer_let_bindings_type (bindings : list LetBinding) (env : TypeEnv) (known : KnownVariants)
    : stateful Infer (TypeEnv * KnownVariants) :=
  match bindings with
  | [] => rret (env, known)
  | b :: bindings =>
      let name := var_name (let_var b) in
      let d := let_def b in
      let~ (p1, t1) := infer_def_type env known true (let_type_params b) (let_ann b) d in
      let~ def_ty := prune_type fuel t1 in
      let~ (p1, def_ty) := default_literal_constraints_outside_type fuel p1 def_ty in
      let~ scheme := let_scheme fuel env (bool_decide (is_Some (let_ann b))) d p1 def_ty in
      infer_let_bindings_type bindings (extend name scheme env)
        (set_known name (known_variant_from_expr_with_known d def_ty adts known) known)
  end.

Definition infer_let_type (env : TypeEnv) (known : KnownVariants) (expr : Expr) : stateful Infer Inferred :=
  let '(bindings, body) := let_chain expr in
  let~ (env, known) := infer_let_bindings_type bindings env known in
  rec env known body.

Fixpoint infer_letrec_defs_type (env_seed : TypeEnv) (tys : gmap Symbol ty) (bindings : list LetRecBinding)
    (known : KnownVariants) (inferred : list (Symbol * list Predicate * ty))
    : stateful Infer (KnownVariants * list (Symbol * list Predicate * ty)) :=
  match bindings with
  | [] => rret (known, inferred)
  | (v, type_params, ann, def) :: bindings =>
      let name := var_name v in
      let~ (preds, def_ty) := infer_def_type env_seed known false type_params ann def in
      let~ binding_ty := ok_or (tys !! name) (UnknownVar name) in
      let~ _ := unify_in fuel binding_ty def_ty in
      let~ resolved_ty := prune_type fuel binding_ty in
      let~ (preds, resolved_ty) := default_literal_constraints_outside_type fuel preds resolved_ty in
      infer_letrec_defs_type env_seed tys bindings
        (set_known name (known_variant_from_expr_with_known def resolved_ty adts known) known)
        (inferred ++ [(name, preds, resolved_ty)])
  end.

Fixpoint letrec_env_type (inferred : list (Symbol * list Predicate * ty)) (env : TypeEnv) : stateful Infer TypeEnv :=
  match inferred with
  | [] => rret env
  | (name, preds, def_ty) :: inferred =>
      let~ scheme := generalize_with_unifier fuel env preds def_ty in
      let~ _ := pure_result (reject_ambiguous_scheme scheme) in
      letrec_env_type inferred (extend name scheme env)
  end.

Definition infer_letrec_type (env : TypeEnv) (known : KnownVariants) (bindings : list LetRecBinding) (body : Expr)
    : stateful Infer Inferred :=
  let~ _ := pure_fueled (validate_let_rec_bindings bindings) in
  let~ (env_seed, known_seed, tys) := letrec_seed bindings env known ∅ in
  let~ (known_seed, inferred) := infer_letrec_defs_type env_seed tys bindings known_seed [] in
  let~ env_body := letrec_env_type inferred env in
  rec env_body known_seed body.

Definition infer_ite_type (env : TypeEnv) (known : KnownVariants) (cond then_expr else_expr : Expr) : stateful Infer Inferred :=
  let~ (p1, t1) := rec env known cond in
  let~ _ := unify_in fuel t1 (ty_builtin Bool) in
  let~ (p2, t2) := rec env known then_expr in
  let~ (p3, t3) := rec env known else_expr in
  let~ _ := unify_in fuel t2 t3 in
  let~ out_ty := prune_type fuel t2 in
  rret (p1 ++ p2 ++ p3, out_ty).

Definition infer_tuple_type (env : TypeEnv) (known : KnownVariants) (elems : list Expr) : stateful Infer Inferred :=
  let~ parts := run_map (fun elem =>
    let~ (p1, t1) := rec env known elem in
    let~ t := prune_type fuel t1 in
    rret (p1, t)) elems in
  rret (concat (map fst parts), TTuple (map snd parts)).

Definition infer_elems_type (env : TypeEnv) (known : KnownVariants) (elem_tv : ty) (elems : list Expr)
    : stateful Infer (list (list Predicate)) :=
  run_map (fun elem =>
    let~ (p1, t1) := rec env known elem in
    let~ _ := unify_in fuel t1 elem_tv in
    rret p1) elems.

Definition infer_list_type (env : TypeEnv) (known : KnownVariants) (elems : list Expr) : stateful Infer Inferred :=
  let~ elem_tv := fresh_var (Some "a") in
  let~ parts := infer_elems_type env known elem_tv elems in
  let~ elem_ty := prune_type fuel elem_tv in
  rret (concat parts, Type_list elem_ty).

Definition infer_dict_type (env : TypeEnv) (known : KnownVariants) (kvs : list (Symbol * Expr)) : stateful Infer Inferred :=
  let~ elem_tv := fresh_var (Some "v") in
  let~ parts := infer_elems_type env known elem_tv (map snd kvs) in
  let~ elem_ty := prune_type fuel elem_tv in
  rret (concat parts, Type_dict elem_ty).

Fixpoint infer_arms_type (env : TypeEnv) (known : KnownVariants) (scrutinee : Expr) (t1 res_ty : ty)
    (arms : list (Pattern * Expr)) (preds : list Predicate) : stateful Infer (list Predicate) :=
  match arms with
  | [] => rret preds
  | (pat, expr) :: arms =>
      let~ scrutinee_ty := prune_type fuel t1 in
      let~ (p_pat, binds) := infer_pattern fuel env pat scrutinee_ty in
      let~ env_arm := arm_env fuel env binds in
      let known_arm := arm_known adts known scrutinee pat in
      let~ (p_expr, t_expr) := rec env_arm known_arm expr in
      let~ _ := unify_in fuel res_ty t_expr in
      infer_arms_type env known scrutinee t1 res_ty arms (preds ++ p_pat ++ p_expr)
  end.

Definition infer_match_type (env : TypeEnv) (known : KnownVariants) (scrutinee : Expr) (arms : list (Pattern * Expr))
    : stateful Infer Inferred :=
  let~ (p1, t1) := rec env known scrutinee in
  let~ res_ty := fresh_var (Some "match") in
  let~ preds := infer_arms_type env known scrutinee t1 res_ty arms p1 in
  let~ scrutinee_ty := prune_type fuel t1 in
  let~ _ := pure_result (check_match_exhaustive adts scrutinee_ty (map fst arms)) in
  let~ out_ty := prune_type fuel res_ty in
  rret (preds, out_ty).

Definition infer_ann_type (env : TypeEnv) (known : KnownVariants) (expr : Expr) (ann : TypeExpr) : stateful Infer Inferred :=
  let~ ann_ty := annotation_type adts aliases fuel ann (env_type_vars env) in
  let~ (preds, expr_ty) := infer_expr_type_with_hint adts fuel rec fuel env known (Some ann_ty) expr in
  let~ out_ty := unify_or_implicit_widen fuel expr_ty ann_ty in
  rret (preds, out_ty).

Definition infer_expr_type_inner (env : TypeEnv) (known : KnownVariants) (expr : Expr) : stateful Infer Inferred :=
  match expr with
  | XBool _ _ => rret ([], ty_builtin Bool)
  | XUint _ _ => let~ t := fresh_var (Some "n") in rret ([mkPredicate "Integral" t], t)
  | XInt _ _ => let~ t := fresh_var (Some "n") in rret ([mkPredicate "Integral" t; mkPredicate "AdditiveGroup" t], t)
  | XFloat _ _ => let~ t := fresh_var (Some "n") in rret ([mkPredicate "Field" t], t)
  | XChar _ _ => rret ([], ty_builtin Char)
  | XString _ _ => rret ([], ty_builtin String_)
  | XUuid _ _ => rret ([], ty_builtin Uuid)
  | XDateTime _ _ => rret ([], ty_builtin DateTime)
  | XHole _ => let~ t := fresh_var (Some "hole") in rret ([], t)
  | XVar v => infer_var_type env (var_name v)
  | XLam _ _ _ _ _ _ => infer_lam_type env known expr
  | XApp _ _ _ => infer_app_type env known expr
  | XProject _ base field => infer_project_type env known base field
  | XRecordUpdate _ base updates => infer_record_update_type env known base updates
  | XLet _ _ _ _ _ _ => infer_let_type env known expr
  | XLetRec _ bindings body => infer_letrec_type env known bindings body
  | XIte _ cond then_expr else_expr => infer_ite_type env known cond then_expr else_expr
  | XTuple _ elems => infer_tuple_type env known elems
  | XList _ elems => infer_list_type env known elems
  | XDict _ kvs => infer_dict_type env known kvs
  | XMatch _ scrutinee arms => infer_match_type env known scrutinee arms
  | XAnn _ expr ann => infer_ann_type env known expr ann
  end.
End TypeCases.

(** [infer_expr_type]: the cases under the depth limit. *)
Fixpoint infer_expr_type (adts : gmap Symbol AdtDecl) (aliases : gmap Symbol TypeAlias) (fuel : nat)
    (env : TypeEnv) (known : KnownVariants) (expr : Expr) : stateful Infer Inferred :=
  match fuel with
  | O => no_fuel
  | S fuel =>
      let span := Expr_span expr in
      spanning span (infer_depth_in span
        (infer_expr_type_inner adts aliases fuel (infer_expr_type adts aliases fuel) env known expr))
  end.
