(* ===== verification/InferCopies.v ===== *)
(** The two copies of type inference agree: on expressions without constructor
    projections and without applications in the place of a last argument, and in
    environments without overloads, [infer_expr_type] returns exactly what
    [infer_expr] returns, without the typed expression. *)

From S2P Require Import Prelude Span Types BTree Unify UnifyComplete Unifier.
From S2P Require Import Syntax Ast Adts TypedExprs TypeEnv TypeClasses LetRec Infer InferExpr InferType.

(** * Computations that do the same *)

Definition outcome {S A B} (f : A -> B) (o : option (result TypeError A * S)) : option (result TypeError B * S) :=
  (fun rs => (match rs.1 with Ok a => Ok (f a) | Err e => Err e end, rs.2)) <$> o.

(** [m'] does what [m] does and returns the image by [f] of what it returns, which
    satisfies [Q]. *)
Definition copies {S A B} (Q : A -> Prop) (f : A -> B) (m : stateful S A) (m' : stateful S B) : Prop :=
  forall s, m' s = outcome f (m s) /\ forall a s', m s = Some (Ok a, s') -> Q a.

Definition any {A} (_ : A) : Prop := True.

Lemma copies_ret {S A B} (Q : A -> Prop) (f : A -> B) a : Q a -> copies (S := S) Q f (rret a) (rret (f a)).
Proof. intros HQ s. split; [done|]. by intros a' s' [= <- _]. Qed.

Lemma copies_throw {S A B} (Q : A -> Prop) (f : A -> B) e : copies (S := S) Q f (rthrow e) (rthrow e).
Proof. intros s. split; [done|]. by intros a' s'. Qed.

Lemma copies_stuck {S A B} (Q : A -> Prop) (f : A -> B) : copies (S := S) Q f no_fuel no_fuel.
Proof. intros s. split; [done|]. by intros a' s'. Qed.

Lemma copies_same {S A} (m : stateful S A) : copies any (fun a => a) m m.
Proof. intros s. split; [|done]. unfold outcome. by destruct (m s) as [[[] ?]|]. Qed.

Lemma copies_bind {S A B C D} (Q : A -> Prop) (R : C -> Prop) (f : A -> B) (g : C -> D)
    (m : stateful S A) (m' : stateful S B) k k' :
  copies Q f m m' -> (forall a, Q a -> copies R g (k a) (k' (f a))) -> copies R g (rthen m k) (rthen m' k').
Proof.
  intros Hm Hk s. destruct (Hm s) as [He HQ]. unfold rthen. rewrite He.
  destruct (m s) as [[[a|e] s']|] eqn:Es; simpl; [|by split..]. apply Hk. by eapply HQ.
Qed.

Lemma copies_bind_same {S A C D} (R : C -> Prop) (g : C -> D) (m : stateful S A) k k' :
  (forall a, copies R g (k a) (k' a)) -> copies R g (rthen m k) (rthen m k').
Proof. intros Hk. eapply copies_bind; [apply copies_same|]. intros a _. apply Hk. Qed.

Lemma copies_weaken {S A B} (Q R : A -> Prop) (f : A -> B) (m : stateful S A) m' :
  (forall a, Q a -> R a) -> copies Q f m m' -> copies R f m m'.
Proof. intros HQ Hm s. destruct (Hm s) as [He H]. split; [done|]. intros a s' Hs. by eapply HQ, H. Qed.

Lemma copies_assoc {S A B C D} (R : C -> Prop) (g : C -> D) (m : stateful S A) (k : A -> stateful S B) l m' :
  copies R g (rthen m (fun a => rthen (k a) l)) m' -> copies R g (rthen (rthen m k) l) m'.
Proof. intros H s. specialize (H s). unfold rthen in *. by destruct (m s) as [[[] ?]|]. Qed.

Lemma copies_map {S A B C} (f : B -> C) (m : A -> stateful S B) (m' : A -> stateful S C) l :
  Forall (fun a => copies any f (m a) (m' a)) l -> copies any (map f) (run_map m l) (run_map m' l).
Proof.
  induction 1 as [|a l Ha _ IH]; simpl; [by apply (copies_ret any (map f) [])|].
  eapply copies_bind; [exact Ha|]. intros b _. eapply copies_bind; [exact IH|]. intros bs _.
  by apply (copies_ret any (map f) (b :: bs)).
Qed.

Lemma copies_spanning {S A B} (Q : A -> Prop) (f : A -> B) span (m : stateful S A) m' :
  copies Q f m m' -> copies Q f (spanning span m) (spanning span m').
Proof.
  intros Hm s. destruct (Hm s) as [He HQ]. unfold spanning. rewrite He.
  destruct (m s) as [[[a|e] s']|]; by split.
Qed.

Lemma copies_depth {A B} (Q : A -> Prop) (f : A -> B) span m m' :
  copies Q f m m' -> copies Q f (infer_depth_in span m) (infer_depth_in span m').
Proof.
  intros Hm s. unfold infer_depth_in, with_infer_depth.
  destruct (Hm (mkInfer (set_depth Datatypes.S (i_unifier s)) (i_supply s))) as [He HQ].
  destruct (max_infer_depth (i_unifier s)) as [max|]; [destruct (max <=? infer_depth (i_unifier s)); [by split|]|];
    rewrite He; destruct (m _) as [[[a|e] s']|]; simpl; split; try done; intros a' s'' [= <- <-]; by eapply HQ.
Qed.

(** * The pieces both copies use *)

(** Not an overloaded name. *)
Definition plain (e : TypedExpr) : Prop :=
  match te_kind e with EVar _ (_ :: _) => False | _ => True end.

Lemma copies_leaf P t kind :
  plain (mkTypedExpr t kind) ->
  copies (S := Infer) (fun r : Typed => plain r.2) fst (typed_leaf P t kind) (rret (P, t)).
Proof. intros Hp. by apply (copies_ret (fun r : Typed => plain r.2) fst (P, t, mkTypedExpr t kind)). Qed.

Lemma copies_coerce fuel actual expected e :
  plain e ->
  copies (fun r => plain r.2) fst (coerce_typed_to_expected fuel actual expected e)
    (unify_or_implicit_widen fuel actual expected).
Proof.
  intros He. unfold coerce_typed_to_expected, unify_or_implicit_widen. do 2 (apply copies_bind_same; intros ?).
  case_match; [by apply (copies_ret (fun r => plain r.2) fst (_, _))|]. apply copies_bind_same. intros _ s.
  unfold rthen, rret, outcome. destruct (prune_type _ _ s) as [[[] ?]|]; simpl; split; try done. by intros r s' [= <- _].
Qed.

Lemma copies_coerce_arg fuel func_ty arg_ty e :
  copies any fst (coerce_app_arg_from_func_type fuel func_ty arg_ty e)
    (coerce_app_arg_type_from_func_type fuel func_ty arg_ty).
Proof.
  unfold coerce_app_arg_from_func_type, coerce_app_arg_type_from_func_type. do 2 (apply copies_bind_same; intros ?).
  case_match; [|by apply (copies_ret any fst (_, _))]. apply copies_bind_same. intros ?.
  case_match; by apply (copies_ret any fst (_, _)).
Qed.

(** An environment without overloads. *)
Definition singles (env : TypeEnv) : Prop :=
  forall name schemes, TypeEnv_lookup env name = Some schemes -> length schemes = 1.

Lemma singles_extend name scheme env : singles env -> singles (extend name scheme env).
Proof.
  intros H n ss. unfold TypeEnv_lookup, extend, extend_registered. simpl.
  destruct (decide (name = n)) as [->|Hn]; [rewrite lookup_insert_eq; by intros [= <-]|].
  rewrite lookup_insert_ne by done. apply H.
Qed.

Lemma singles_extend_all binds : forall env, singles env -> singles (extend_all binds env).
Proof. unfold extend_all. induction binds as [|b binds IH]; intros env H; [done|]. by apply IH, singles_extend. Qed.

Lemma singles_set_type_vars vars env : singles env -> singles (set_type_vars vars env).
Proof. done. Qed.

#[export] Hint Resolve singles_extend singles_extend_all singles_set_type_vars : rex.

(** * The expressions *)

Fixpoint flat (adts : gmap Symbol AdtDecl) (spine : bool) (e : Expr) : bool :=
  match e with
  | XTuple _ elems | XList _ elems => forallb (flat adts false) elems
  | XDict _ entries => forallb (fun f => flat adts false f.2) entries
  | XRecordUpdate _ base updates => flat adts false base && forallb (fun f => flat adts false f.2) updates
  | XApp _ f x => (spine || negb (is_app_expr x)) && flat adts true f && flat adts false x
  | XProject _ base _ =>
      match base with XVar v => bool_decide (adts !! var_name v = None) | _ => true end && flat adts false base
  | XAnn _ base _ => flat adts false base
  | XLam _ _ _ _ _ body => flat adts false body
  | XLet _ _ _ _ def body => flat adts false def && flat adts false body
  | XLetRec _ bindings body => forallb (fun b => flat adts false b.2) bindings && flat adts false body
  | XIte _ c t e => flat adts false c && flat adts false t && flat adts false e
  | XMatch _ scrutinee arms => flat adts false scrutinee && forallb (fun a => flat adts false a.2) arms
  | _ => true
  end.

Section Cases.
Context (adts : gmap Symbol AdtDecl) (aliases : gmap Symbol TypeAlias) (fuel : nat).
Variable rec : TypeEnv -> KnownVariants -> Expr -> stateful Infer Typed.
Variable rec' : TypeEnv -> KnownVariants -> Expr -> stateful Infer Inferred.
Abbreviation same := (copies (S := Infer) (fun r : Typed => plain r.2) fst).
Hypothesis IH : forall env known e, singles env -> flat adts false e = true -> same (rec env known e) (rec' env known e).
Abbreviation all l := (forallb (fun f => flat adts false f.2) l = true).

Lemma updates_same env known expected t l : forall acc,
  singles env -> all l ->
  copies any fst (typed_updates fuel rec env known expected t l acc) (updates_type fuel rec' env known expected t l acc.1).
Proof using IH.
  induction l as [|[k v] l IHl]; intros acc Hs Hl; simpl; [by apply (copies_ret any fst acc)|].
  simpl in Hl. apply andb_true_iff in Hl as [Hv Hl]. apply copies_bind_same. intros expected_ty.
  eapply copies_bind; [by apply IH|]. intros [[p1 t1] te] Hp. simpl.
  eapply copies_bind; [by apply copies_coerce|]. intros [t' te'] _. by apply IHl.
Qed.

Lemma update_same env known base l P t te :
  singles env -> all l ->
  same (typed_update_of_base adts fuel rec env known base l P t te) (update_of_base_type adts fuel rec' env known base l P t).
Proof using IH.
  intros Hs Hl. unfold typed_update_of_base, update_of_base_type. do 2 (apply copies_bind_same; intros ?).
  case_match. eapply copies_bind; [by apply (updates_same _ _ _ _ _ (P, []))|]. intros [P' l'] _.
  by apply (copies_ret (fun r : Typed => plain r.2) fst (_, _, _)).
Qed.

Section Hinted.
Variable hint : option ty -> Expr -> stateful Infer Typed.
Variable hint' : option ty -> Expr -> stateful Infer Inferred.

Lemma record_fields_same fields expected l : forall acc,
  Forall (fun f => forall h, same (hint h f.2) (hint' h f.2)) l ->
  copies any (fun acc => (acc.1, map fst acc.2)) (typed_record_fields fuel hint fields expected l acc)
    (record_fields_type fuel hint' fields expected l (acc.1, map fst acc.2)).
Proof using Type. clear IH.
  induction l as [|[k v] l IHl]; intros acc Hl; simpl; [by apply (copies_ret any (fun acc => (acc.1, map fst acc.2)) acc)|].
  inversion_clear Hl as [|? ? Hv Hr]. apply copies_bind_same. intros expected_ty.
  eapply copies_bind; [by apply Hv|]. intros [[p1 t1] te] Hp. simpl.
  eapply copies_bind; [by apply copies_coerce|]. intros [t' te'] _.
  replace (map fst acc.2 ++ [k]) with (map fst (acc.2 ++ [(k, te')])) by by rewrite map_app. by apply (IHl (_, _)).
Qed.

Lemma record_same fields l :
  Forall (fun f => forall h, same (hint h f.2) (hint' h f.2)) l ->
  same (typed_record fuel hint fields l) (record_type fuel hint' fields l).
Proof using Type. clear IH.
  intros Hl. unfold typed_record, record_type.
  eapply copies_bind; [by apply (record_fields_same _ _ _ ([], []))|]. intros [P kvs] _. simpl.
  case_match; [apply copies_throw|]. apply copies_bind_same. intros fields'.
  by apply (copies_ret (fun r : Typed => plain r.2) fst (_, _, _)).
Qed.
End Hinted.

Lemma hint_same n env known : forall h e,
  singles env -> flat adts false e = true ->
  same (infer_expr_typed_with_hint adts fuel rec n env known h e) (infer_expr_type_with_hint adts fuel rec' n env known h e).
Proof using IH.
  induction n as [|n IHn]; intros h e Hs He; [apply copies_stuck|]. cbn [infer_expr_typed_with_hint infer_expr_type_with_hint].
  destruct h as [h|]; [|by apply IH]. destruct e; try by (destruct h; by apply IH).
  - destruct h; try by apply IH. apply record_same. simpl in He. rewrite forallb_forall in He.
    apply Forall_forall. intros f Hf h. apply IHn; [done|]. apply He. by apply list_elem_of_In.
  - simpl in He. apply andb_true_iff in He as [Hb Hl].
    assert (same (infer_record_update_typed_with_hint adts fuel rec env known e updates h)
              (infer_record_update_type_with_hint adts fuel rec' env known e updates h)) as H; [|by destruct h].
    eapply copies_bind; [by apply IH|]. intros [[P t] te] _. apply copies_bind_same. intros _. by apply update_same.
Qed.

(** * Names and lambdas *)

Lemma lookup_single env name e :
  singles env ->
  copies (S := Infer) (fun ss => length ss = 1) (fun ss => ss) (ok_or (TypeEnv_lookup env name) e) (ok_or (TypeEnv_lookup env name) e).
Proof using Type. clear IH.
  intros Hs. destruct (TypeEnv_lookup env name) as [ss|] eqn:Hl; [|apply copies_throw].
  apply (copies_ret _ (fun ss => ss)). by eapply Hs.
Qed.

Lemma var_same env name : singles env -> same (infer_var fuel env name) (infer_var_type fuel env name).
Proof using Type. clear IH.
  intros Hs. eapply copies_bind; [by apply lookup_single|]. intros [|v []] Hl; try done. apply copies_bind_same.
  intros scheme s. unfold rthen, typed_leaf, rret, outcome. destruct (instantiate_in scheme s) as [[[[]|] ?]|]; simpl; split; try done.
  by intros r s' [= <- _].
Qed.

Lemma wrap_same params : forall t te,
  plain te -> copies (fun r => plain r.2) fst (wrap_lambdas fuel params t te) (wrap_types fuel params t).
Proof using Type. clear IH.
  induction params as [|[name p] params IHp]; intros t te Hp; simpl; [by apply (copies_ret (fun r => plain r.2) fst (_, _))|].
  apply copies_bind_same. intros p'. by apply IHp.
Qed.

Lemma lambda_chain_flat cur : forall params cs seen ps cs' body,
  lambda_chain cur params cs seen = (ps, cs', body) -> flat adts false cur = true -> flat adts false body = true.
Proof using Type. clear IH.
  induction cur; intros params cs seen ps cs' body'; try by intros [= <- <- <-].
  simpl. intros H Hb. case_decide; [by eapply IHcur|]. destruct seen; [by injection H as <- <- <-|]. by eapply IHcur.
Qed.

Lemma lam_same env known e :
  singles env -> flat adts false e = true ->
  flat adts false (collect_lambda_chain e).2 = true ->
  same (infer_lam adts aliases fuel rec env known e) (infer_lam_type adts aliases fuel rec' env known e).
Proof using IH.
  intros Hs He Hb. unfold infer_lam, infer_lam_type. destruct (collect_lambda_chain e) as [[params cs] body]. simpl in Hb.
  apply copies_bind_same. intros tys. eapply copies_bind; [apply IH; [by apply singles_extend_all|done]|].
  intros [[P t] te] Hp. simpl. do 2 (apply copies_bind_same; intros ?).
  eapply copies_bind; [by apply (wrap_same (rev tys))|]. intros [t' te'] Hp'.
  by apply (copies_ret (fun r : Typed => plain r.2) fst (_, _, _)).
Qed.

Lemma letrec_seed_singles bindings : forall env known tys,
  singles env ->
  copies (S := Infer) (fun r => singles r.1.1) (fun r => r) (letrec_seed bindings env known tys) (letrec_seed bindings env known tys).
Proof using Type. clear IH.
  induction bindings as [|b bindings IHb]; intros env known tys Hs; simpl; [by apply (copies_ret (fun r => singles r.1.1) (fun r => r) (_, _, _))|].
  apply copies_bind_same. intros tv. by apply IHb, singles_extend.
Qed.

(** * Applications *)

Lemma app_chain_flat e : forall args,
  flat adts true e = true -> Forall (fun a => flat adts false a = true) args ->
  flat adts false (expr_app_chain e args).1 = true /\ Forall (fun a => flat adts false a = true) (expr_app_chain e args).2.
Proof using Type. clear IH.
  induction e; intros args He Ha; try by split. simpl in He |- *. apply andb_true_iff in He as [Hf Hx].
  apply IHe1; [done|by constructor].
Qed.

Lemma head_candidates_none env e : singles env -> head_candidates fuel env e = rret (None, None).
Proof using Type. clear IH.
  intros Hs. unfold head_candidates. destruct e; try done. destruct (TypeEnv_lookup env _) as [ss|] eqn:Hl; [|done].
  by rewrite (Hs _ _ Hl).
Qed.

Definition app_state_view (st : TypedAppState) := (app_preds st, app_func_ty st).
Definition app_state_plain (st : TypedAppState) : Prop :=
  plain (app_typed st) /\ overload_name st = None /\ overload_candidates st = None.

Lemma head_same env known e :
  singles env -> flat adts false e = true ->
  copies app_state_plain app_state_view (infer_typed_app_head rec env known e) (rec' env known e).
Proof using IH.
  intros Hs He s. destruct (IH env known e Hs He s) as [H HQ]. unfold infer_typed_app_head, rthen. rewrite H.
  destruct (rec env known e s) as [[[[[P t] te]|] s']|]; simpl; [|by split..].
  assert (plain te) as Hp by by eapply (HQ (P, t, te)). unfold rret, outcome, app_state_plain, app_state_view, plain in *.
  destruct te as [t' k]. simpl in *.
  destruct k; try (split; [done|by intros st s'' [= <- _]]). destruct overloads; [|done].
  split; [done|by intros st s'' [= <- _]].
Qed.

Lemma args_same env known args : forall st,
  singles env -> Forall (fun a => flat adts false a = true) args -> app_state_plain st ->
  copies app_state_plain app_state_view (infer_typed_app_args adts fuel rec env known st args)
    (infer_app_args_type adts fuel rec' env known args (app_preds st) (app_func_ty st) None None).
Proof using IH.
  induction args as [|a args IHa]; intros st Hs Ha Hst; simpl; [by apply (copies_ret app_state_plain app_state_view st)|].
  inversion_clear Ha as [|? ? Hf Hr]. destruct Hst as (Hp & Hn & Hc).
  unfold infer_typed_app_expr_arg. apply copies_assoc, copies_bind_same. intros hint.
  apply copies_assoc. eapply copies_bind; [by apply hint_same|]. intros [[P t] te] _. simpl. unfold apply_typed_app_arg.
  rewrite Hn, Hc. apply copies_assoc, copies_bind_same. intros arg_ty.
  apply copies_assoc. eapply (copies_bind (fun r => r = None)); [by apply (copies_ret (fun r => r = None) (fun r => r))|]. intros ? ->.
  apply copies_assoc, copies_bind_same. intros res_ty.
  apply copies_assoc. eapply copies_bind; [apply copies_coerce_arg|]. intros [arg_ty' te'] _. simpl.
  apply copies_assoc, copies_bind_same. intros _. apply copies_assoc, copies_bind_same. intros func_ty.
  by apply (IHa (mkAppState _ _ _ _ _)).
Qed.

Lemma partial_updates_same env known expected t l : forall acc,
  singles env -> all l ->
  copies any fst (partial_record_updates adts fuel rec env known expected t l acc)
    (partial_updates_type adts fuel rec' env known expected t l acc.1).
Proof using IH.
  induction l as [|[k v] l IHl]; intros acc Hs Hl; simpl; [by apply (copies_ret any fst acc)|].
  simpl in Hl. apply andb_true_iff in Hl as [Hv Hl]. apply copies_bind_same. intros expected_ty.
  eapply copies_bind; [by apply hint_same|]. intros [[p1 t1] te] Hp. simpl.
  eapply copies_bind; [by apply copies_coerce|]. intros [t' te'] _. by apply IHl.
Qed.

Definition plain_option (r : option Typed) : Prop := match r with Some r => plain r.2 | None => True end.

Lemma partial_record_same env known f x span :
  singles env -> flat adts false x = true ->
  copies plain_option (fmap fst) (infer_partial_record_constructor_typed adts fuel rec env known (XApp span f x))
    (infer_partial_record_constructor_type adts fuel rec' env known (XApp span f x)).
Proof using IH.
  intros Hs Hx. unfold infer_partial_record_constructor_typed, infer_partial_record_constructor_type.
  destruct (partial_record_constructor _ _) as [[[adt variant] supplied]|] eqn:Hp; [|by intros s; split; [|intros r s' [= <- _]]].
  assert (all supplied) as Hall.
  { unfold partial_record_constructor in Hp. destruct f; try done. destruct x; try done.
    destruct (ctor_lookup _ _) as [[adt' variant']|]; simpl in Hp; [|done].
    destruct (record_fields variant'); simpl in Hp; [|done]. destruct (existsb _ _); [|done]. by simplify_eq. }
  destruct (negb _); [apply copies_throw|]. do 2 (apply copies_bind_same; intros ?). case_match.
  eapply copies_bind; [by apply (partial_updates_same _ _ _ _ _ (_, []))|]. intros [P l'] _. apply copies_bind_same. intros t'.
  intros s. split; [done|]. by intros r s' [= <- _].
Qed.

Lemma app_same env known span f x :
  singles env -> flat adts false (XApp span f x) = true ->
  same (infer_app adts fuel rec env known (XApp span f x)) (infer_app_type adts fuel rec' env known (XApp span f x)).
Proof using IH.
  intros Hs He. pose proof He as Hx. simpl in Hx. rewrite !andb_true_iff in Hx. destruct Hx as [[Ha Hf] Hx].
  unfold infer_app, infer_app_type. eapply copies_bind; [by apply partial_record_same|].
  intros [r|] Hr; simpl; [by apply (copies_ret (fun r : Typed => plain r.2) fst)|].
  unfold collect_tail_app_chain. simpl. destruct (is_app_expr x); [done|]. unfold collect_app_chain. simpl.
  destruct (app_chain_flat f [x]) as [Hhead Hargs]; [done|by repeat constructor|].
  destruct (expr_app_chain f [x]) as [head args]. simpl in Hhead, Hargs.
  eapply copies_bind; [by apply head_same|]. intros st Hst. rewrite head_candidates_none by done.
  intros s. destruct (args_same env known args st Hs Hargs Hst s) as [H HQ]. unfold rthen, rret, app_state_view. rewrite H.
  destruct (infer_typed_app_args _ _ _ _ _ _ _ _) as [[[st'|] s']|]; simpl; [|by split..]. split; [done|].
  intros r s'' [= <- _]. by apply (HQ _ _ eq_refl).
Qed.

(** * Projections, bindings and matches *)

Lemma project_same env known span base field :
  singles env -> flat adts false (XProject span base field) = true ->
  same (infer_project adts fuel rec env known span base field) (infer_project_type adts fuel rec' env known base field).
Proof using IH.
  intros Hs He. simpl in He. apply andb_true_iff in He as [Hv Hb]. unfold infer_project, infer_project_type.
  assert (constructor_project_symbol env adts base field = None) as ->.
  { unfold constructor_project_symbol. destruct base; try done. apply bool_decide_eq_true in Hv. rewrite Hv.
    by destruct (TypeEnv_lookup _ _). }
  eapply copies_bind; [by apply IH|]. intros [[P t] te] _. simpl. do 2 (apply copies_bind_same; intros ?).
  by apply copies_leaf.
Qed.

Lemma def_same env known keep params ann d :
  singles env -> flat adts false d = true ->
  same (infer_def adts aliases fuel rec env known keep params ann d) (infer_def_type adts aliases fuel rec' env known keep params ann d).
Proof using IH.
  intros Hs Hd. unfold infer_def, infer_def_type. apply copies_bind_same. intros vars.
  destruct ann as [ann|]; [|by apply IH]. do 2 (apply copies_bind_same; intros ?).
  eapply copies_bind; [by apply hint_same; [destruct keep|]|]. intros [[P t] te] Hp. simpl.
  eapply copies_bind; [by apply copies_coerce|]. intros [t' te'] Hp'.
  by apply (copies_ret (fun r : Typed => plain r.2) fst (_, _, _)).
Qed.

Lemma let_bindings_same bindings : forall env known l,
  singles env -> forallb (fun b => flat adts false (let_def b)) bindings = true ->
  copies (fun r => singles r.1.1) fst (infer_let_bindings adts aliases fuel rec bindings env known l)
    (infer_let_bindings_type adts aliases fuel rec' bindings env known).
Proof using IH.
  induction bindings as [|b bindings IHb]; intros env known l Hs Hb; simpl; [by apply (copies_ret (fun r => singles r.1.1) fst (_, _, _))|].
  simpl in Hb. apply andb_true_iff in Hb as [Hd Hb]. eapply copies_bind; [by apply def_same|]. intros [[P t] te] _. simpl.
  apply copies_bind_same. intros t'. apply copies_bind_same. intros [P' t'']. apply copies_bind_same. intros scheme.
  by apply IHb; [apply singles_extend|].
Qed.

Lemma let_chain_flat e : flat adts false e = true ->
  forallb (fun b => flat adts false (let_def b)) (let_chain e).1 = true /\ flat adts false (let_chain e).2 = true.
Proof using Type. clear IH.
  induction e; intros He; try by split. simpl in He |- *. apply andb_true_iff in He as [Hd Hb].
  destruct (IHe2 Hb) as [H1 H2]. destruct (let_chain e2) as [bs body]. simpl in *. by rewrite Hd, H1.
Qed.

(** What follows the body of a binding. *)
Lemma copies_wrap (m : stateful Infer Typed) m' (f : Typed -> TypedExpr) :
  same m m' -> (forall r, plain r.2 -> plain (f r)) -> same (let~ r := m in rret (r.1, f r)) m'.
Proof using Type. clear IH.
  intros Hm Hf s. destruct (Hm s) as [H HQ]. unfold rthen, rret. rewrite H.
  destruct (m s) as [[[r|] s']|]; simpl; [|by split..]. split; [done|]. intros r' s'' [= <- _]. by apply Hf, (HQ _ _ eq_refl).
Qed.

Lemma plain_lets (t : ty) (defs : list (Symbol * TypedExpr)) : forall te,
  plain te -> plain (foldl (fun typed d => mkTypedExpr t (ELet d.1 d.2 typed)) te defs).
Proof using Type. clear IH. induction defs as [|d defs IHd]; intros te Hp; [done|]. by apply IHd. Qed.

Lemma let_same env known e :
  singles env -> flat adts false e = true ->
  same (infer_let adts aliases fuel rec env known e) (infer_let_type adts aliases fuel rec' env known e).
Proof using IH.
  intros Hs He. destruct (let_chain_flat e He) as [H1 H2]. unfold infer_let, infer_let_type.
  destruct (let_chain e) as [bs body]. simpl in *. eapply copies_bind; [by apply let_bindings_same|].
  intros [[env' known'] defs] Hs'. simpl in *.
  pose proof (copies_wrap _ _ (fun r => foldl (fun typed d => mkTypedExpr r.1.2 (ELet d.1 d.2 typed)) r.2 (rev defs))
                (IH env' known' body Hs' H2)) as H.
  intros s. specialize (H (fun r => plain_lets r.1.2 (rev defs) r.2) s). destruct H as [H HQ].
  unfold rthen, rret in *. by destruct (rec env' known' body s) as [[[[[? ?] ?]|] ?]|].
Qed.

Definition group_view (d : Symbol * list Predicate * ty * TypedExpr) := d.1.

Lemma letrec_defs_same env tys bindings : forall known l,
  singles env -> all bindings ->
  copies any (fun r => (r.1, map fst r.2)) (infer_letrec_defs adts aliases fuel rec env tys bindings known l)
    (infer_letrec_defs_type adts aliases fuel rec' env tys bindings known (map fst l)).
Proof using IH.
  induction bindings as [|[[[v params] ann] d] bindings IHb]; intros known l Hs Hb; simpl;
    [by apply (copies_ret any (fun r => (r.1, map fst r.2)) (_, _))|].
  simpl in Hb. apply andb_true_iff in Hb as [Hd Hb]. eapply copies_bind; [by apply def_same|]. intros [[P t] te] _. simpl.
  do 3 (apply copies_bind_same; intros ?). apply copies_bind_same. intros [P' t'].
  replace (map fst l ++ [(var_name v, P', t')]) with (map fst (l ++ [(var_name v, P', t', te)])) by by rewrite map_app.
  by apply IHb.
Qed.

Lemma letrec_env_same l : forall env,
  singles env -> copies singles (fun env => env) (letrec_env fuel l env) (letrec_env_type fuel (map fst l) env).
Proof using Type. clear IH.
  induction l as [|[[[name P] t] te] l IHl]; intros env Hs; simpl; [by apply (copies_ret singles (fun env => env))|].
  do 2 (apply copies_bind_same; intros ?). by apply IHl, singles_extend.
Qed.

Lemma letrec_same env known bindings body :
  singles env -> all bindings -> flat adts false body = true ->
  same (infer_letrec adts aliases fuel rec env known bindings body)
    (infer_letrec_type adts aliases fuel rec' env known bindings body).
Proof using IH.
  intros Hs Hb He. unfold infer_letrec, infer_letrec_type. apply copies_bind_same. intros _.
  eapply copies_bind; [by apply letrec_seed_singles|]. intros [[env_seed known_seed] tys] Hs'. simpl in Hs'.
  eapply copies_bind; [by apply (letrec_defs_same _ _ _ _ [])|]. intros [known' l] _. simpl.
  eapply copies_bind; [by apply letrec_env_same|]. intros env' Hs''.
  pose proof (copies_wrap _ _ (fun r => mkTypedExpr r.1.2 (ELetRec (map (fun d => (d.1.1.1, d.2)) l) r.2))
                (IH env' known' body Hs'' He) (fun r _ => I)) as H.
  intros s. specialize (H s). destruct H as [H HQ]. unfold typed_leaf, rthen, rret in *.
  by destruct (rec env' known' body s) as [[[[[? ?] ?]|] ?]|].
Qed.

Lemma ite_same env known c t e :
  singles env -> flat adts false c = true -> flat adts false t = true -> flat adts false e = true ->
  same (infer_ite fuel rec env known c t e) (infer_ite_type fuel rec' env known c t e).
Proof using IH.
  intros. unfold infer_ite, infer_ite_type.
  eapply copies_bind; [by apply IH|]. intros [[? ?] ?] _. apply copies_bind_same. intros _.
  eapply copies_bind; [by apply IH|]. intros [[? ?] ?] _.
  eapply copies_bind; [by apply IH|]. intros [[? ?] ?] _. do 2 (apply copies_bind_same; intros ?). by apply copies_leaf.
Qed.

Lemma elems_same env known tv l :
  singles env -> forallb (flat adts false) l = true ->
  copies any (map fst) (infer_elems fuel rec env known tv l) (infer_elems_type fuel rec' env known tv l).
Proof using IH.
  intros Hs Hl. apply copies_map. apply Forall_forall. intros e He. rewrite forallb_forall in Hl.
  eapply copies_bind; [apply IH; [done|]; by apply Hl, list_elem_of_In|]. intros [[P t] te] _. simpl.
  apply copies_bind_same. intros _. by apply (copies_ret any fst (_, _)).
Qed.

Lemma tuple_same env known l :
  singles env -> forallb (flat adts false) l = true ->
  same (infer_tuple fuel rec env known l) (infer_tuple_type fuel rec' env known l).
Proof using IH.
  intros Hs Hl. unfold infer_tuple, infer_tuple_type. eapply (copies_bind any _ (map fst)).
  - apply copies_map. apply Forall_forall. intros e He. rewrite forallb_forall in Hl.
    eapply copies_bind; [apply IH; [done|]; by apply Hl, list_elem_of_In|]. intros [[P t] te] _. simpl.
    apply copies_bind_same. intros t'. by apply (copies_ret any fst (_, _, _)).
  - intros parts _. rewrite !map_map. by apply copies_leaf.
Qed.

Lemma list_same env known l :
  singles env -> forallb (flat adts false) l = true ->
  same (infer_list fuel rec env known l) (infer_list_type fuel rec' env known l).
Proof using IH.
  intros Hs Hl. unfold infer_list, infer_list_type. apply copies_bind_same. intros tv.
  eapply copies_bind; [by apply elems_same|]. intros parts _. apply copies_bind_same. intros t. by apply copies_leaf.
Qed.

Lemma forallb_snd (l : list (Symbol * Expr)) : all l -> forallb (flat adts false) (map snd l) = true.
Proof using Type. clear IH. induction l as [|f l IHl]; simpl; [done|]. rewrite !andb_true_iff. intros [-> ?]. by split; [|apply IHl]. Qed.

Lemma dict_same env known l :
  singles env -> all l -> same (infer_dict fuel rec env known l) (infer_dict_type fuel rec' env known l).
Proof using IH.
  intros Hs Hl. unfold infer_dict, infer_dict_type. apply copies_bind_same. intros tv.
  eapply copies_bind; [by apply elems_same, forallb_snd|]. intros parts _. apply copies_bind_same. intros t. by apply copies_leaf.
Qed.

Lemma arm_env_singles env binds :
  singles env -> copies (S := Infer) singles (fun env => env) (arm_env fuel env binds) (arm_env fuel env binds).
Proof using Type. clear IH.
  intros Hs. apply copies_bind_same. intros l. by apply (copies_ret singles (fun env => env)), singles_extend_all.
Qed.

Lemma arms_same env known scrutinee t1 res arms : forall acc,
  singles env -> all arms ->
  copies any fst (infer_arms adts fuel rec env known scrutinee t1 res arms acc)
    (infer_arms_type adts fuel rec' env known scrutinee t1 res arms acc.1).
Proof using IH.
  induction arms as [|[pat e] arms IHa]; intros acc Hs Ha; simpl; [by apply (copies_ret any fst acc)|].
  simpl in Ha. apply andb_true_iff in Ha as [He Ha]. apply copies_bind_same. intros scrutinee_ty.
  apply copies_bind_same. intros [P binds]. eapply copies_bind; [by apply arm_env_singles|]. intros env' Hs'.
  eapply copies_bind; [by apply IH|]. intros [[P' t'] te] _. simpl. apply copies_bind_same. intros _. by apply IHa.
Qed.

Lemma match_same env known scrutinee arms :
  singles env -> flat adts false scrutinee = true -> all arms ->
  same (infer_match adts fuel rec env known scrutinee arms) (infer_match_type adts fuel rec' env known scrutinee arms).
Proof using IH.
  intros Hs He Ha. unfold infer_match, infer_match_type. eapply copies_bind; [by apply IH|]. intros [[P t] te] _. simpl.
  apply copies_bind_same. intros res. eapply copies_bind; [by apply (arms_same _ _ _ _ _ _ (P, []))|].
  intros [P' arms'] _. do 3 (apply copies_bind_same; intros ?). by apply copies_leaf.
Qed.

Lemma ann_same env known e ann :
  singles env -> flat adts false e = true ->
  same (infer_ann adts aliases fuel rec env known e ann) (infer_ann_type adts aliases fuel rec' env known e ann).
Proof using IH.
  intros Hs He. unfold infer_ann, infer_ann_type. apply copies_bind_same. intros t.
  eapply copies_bind; [by apply hint_same|]. intros [[P t'] te] Hp. simpl.
  eapply copies_bind; [by apply copies_coerce|]. intros [t'' te'] Hp'.
  by apply (copies_ret (fun r : Typed => plain r.2) fst (_, _, _)).
Qed.

Lemma cases_same env known e :
  singles env -> flat adts false e = true ->
  same (infer_expr_cases adts aliases fuel rec env known e) (infer_expr_type_inner adts aliases fuel rec' env known e).
Proof using IH.
  intros Hs He. destruct e; cbn [infer_expr_cases infer_expr_type_inner];
    try (by apply copies_leaf); try (apply copies_bind_same; intros ?; by apply copies_leaf).
  - by apply tuple_same.
  - by apply list_same.
  - by apply dict_same.
  - simpl in He. apply andb_true_iff in He as [Hb Hl]. eapply copies_bind; [by apply IH|].
    intros [[P t] te] _. by apply update_same.
  - by apply var_same.
  - by apply app_same.
  - by eapply project_same.
  - apply lam_same; [done|done|]. unfold collect_lambda_chain.
    destruct (lambda_chain _ _ _ _) as [[ps cs] body] eqn:Ec. simpl. by eapply lambda_chain_flat.
  - by apply let_same.
  - simpl in He. apply andb_true_iff in He as [Hb He]. by apply letrec_same.
  - simpl in He. rewrite !andb_true_iff in He. destruct He as [[? ?] ?]. by apply ite_same.
  - simpl in He. apply andb_true_iff in He as [He Ha]. by apply match_same.
  - by apply ann_same.
Qed.
End Cases.

Section Copies.
Context (adts : gmap Symbol AdtDecl) (aliases : gmap Symbol TypeAlias).

Lemma infer_copies fuel : forall env known e,
  singles env -> flat adts false e = true ->
  copies (fun r : Typed => plain r.2) fst (infer_expr adts aliases fuel env known e) (infer_expr_type adts aliases fuel env known e).
Proof.
  induction fuel as [|fuel IH]; intros env known e Hs He; [apply copies_stuck|].
  cbn [infer_expr infer_expr_type]. apply copies_spanning, copies_depth. by apply cases_same.
Qed.

(** C6. The two copies of type inference agree. In an environment without overloads,
    on an expression without constructor projections and whose applications do not
    end in an application, [infer_expr_type] does what [infer_expr] does at every
    fuel and from every state: it ends when the other ends, leaves the same unifier
    and the same supply, fails with the same error, and returns the same predicates
    and the same type. *)
Theorem infer_type_agrees fuel env known e st :
  singles env -> flat adts false e = true ->
  infer_expr_type adts aliases fuel env known e st = outcome fst (infer_expr adts aliases fuel env known e st).
Proof. intros Hs He. by apply infer_copies. Qed.
End Copies.

(** [let f = \x -> x in (f true, [f 'c'], f {a = 1})]. *)
Definition shared_expr : Expr :=
  let v := mkVar Span_default in
  let call x := XApp Span_default (XVar (v "f")) x in
  XLet Span_default (v "f") [] None (XLam Span_default [] (v "x") None [] (XVar (v "x")))
    (XTuple Span_default
       [call (XBool Span_default true); XList Span_default [call (XChar Span_default 99)];
        call (XDict Span_default [("a", XUint Span_default 1)])]).

Lemma infer_type_agrees_witness :
  flat ∅ false shared_expr = true /\
  infer_expr_type ∅ ∅ 40 TypeEnv_new ∅ shared_expr (mkInfer (Unifier_new (Some 30)) (mkSupply 0))
    = outcome fst (infer_expr ∅ ∅ 40 TypeEnv_new ∅ shared_expr (mkInfer (Unifier_new (Some 30)) (mkSupply 0))) /\
  match infer_expr_type ∅ ∅ 40 TypeEnv_new ∅ shared_expr (mkInfer (Unifier_new (Some 30)) (mkSupply 0)) with
  | Some (Ok (preds, TTuple _), _) => map pred_class preds = ["Integral"]
  | _ => False
  end.
Proof.
  split; [by vm_compute|]. split; [|by vm_compute]. apply infer_type_agrees; [|by vm_compute].
  intros name schemes H. done.
Defined.
