(* ===== verification/AdtFamily.v ===== *)
(** Families of ADT declarations: the constructors that types mention, the shape of
    a declaration, the documentation of two declarations of one shape, and the
    order in which the declarations of a family are registered
    ([rex-typesystem/src/types.rs]). *)

From S2P Require Import Prelude Types BTree Adts Unify UnifyComplete Syntax Ast TypeEnv.

(** * The constructors of types *)

(** The constructors that [Type::for_each] meets, in order. *)
Fixpoint type_cons (t : ty) : list TypeConst :=
  match t with
  | TVar _ => []
  | TCon c => [c]
  | TApp f x => type_cons f ++ type_cons x
  | TFun a b => type_cons a ++ type_cons b
  | TTuple ts => concat (map type_cons ts)
  | TRecord fs => concat (map (fun f => type_cons f.2) fs)
  end.

Definition push_new {A} `{EqDecision A} (l : list A) (x : A) : list A := if decide (x ∈ l) then l else l ++ [x].

(** The [BTreeSet] of the constructors seen so far has the elements of [out]. *)
Definition collect_con (acc : list ty * list (Symbol * list ty)) (c : TypeConst) : list ty * list (Symbol * list ty) :=
  match user_name c with
  | None => acc
  | Some name =>
      let adt := TCon c in
      (push_new acc.1 adt, btree_insert name (push_new (default [] (btree_get acc.2 name)) adt) acc.2)
  end.

(** An [AdtConflict] is a name with its definitions. *)
Definition collect_adts_in_types (types : list ty) : result (list (Symbol * list ty)) (list ty) :=
  let '(out, defs) := foldl collect_con ([], []) (concat (map type_cons types)) in
  match filter (fun d => 1 < length d.2) defs with
  | [] => Ok out
  | conflicts => Err conflicts
  end.

Definition collect_adts_error_to_type (conflicts : list (Symbol * list ty)) : TypeError :=
  let details := join "; " (map (fun c => c.1 +:+ ": [" +:+ join ", " (map show_ty c.2) +:+ "]") conflicts) in
  Internal ("conflicting ADT definitions discovered in input types: " +:+ details).

Definition type_head_and_args_for_adt_family (typ : ty) : result TypeError (Symbol * nat * list ty) :=
  let '(head, args) := app_head_args typ [] in
  match head with
  | TCon con =>
      if negb (bool_decide (args = [])) && negb (Nat.eqb (length args) (const_arity con))
      then Err (Internal ("constructor `" +:+ name_str con +:+ "` expected " +:+ pretty (const_arity con)
                          +:+ " type arguments but got " +:+ pretty (length args) +:+ " in `" +:+ show_ty typ +:+ "`"))
      else Ok (name_str con, const_arity con, args)
  | _ => Err (Internal ("cannot build ADT declaration from non-constructor type `" +:+ show_ty typ +:+ "`"))
  end.

Definition type_head_for_adt_family (typ : ty) : result TypeError ty :=
  let? (name, arity, _) := type_head_and_args_for_adt_family typ in
  Ok (Type_con name arity).

(** * The shape of a declaration *)

Fixpoint normalize_type_for_shape (param_names : gmap TypeVarId string) (typ : ty) : string :=
  match typ with
  | TVar tv => default ("v" +:+ pretty (tv_id tv)) (param_names !! tv_id tv)
  | TCon con => name_str con
  | TApp f x => "(" +:+ normalize_type_for_shape param_names f +:+ " " +:+ normalize_type_for_shape param_names x +:+ ")"
  | TFun a b => "(" +:+ normalize_type_for_shape param_names a +:+ " -> " +:+ normalize_type_for_shape param_names b +:+ ")"
  | TTuple elems => "(" +:+ join ", " (map (normalize_type_for_shape param_names) elems) +:+ ")"
  | TRecord fields =>
      "{" +:+ join ", " (map (fun f => f.1 +:+ ": " +:+ normalize_type_for_shape param_names f.2) fields) +:+ "}"
  end.

Definition shape_names (params : list AdtParam) : gmap TypeVarId string :=
  foldl (fun m p => <[tv_id (param_var p.2) := "t" +:+ pretty p.1]> m) ∅ (zip (seq 0 (length params)) params).

Definition adt_shape (adt : AdtDecl) : string :=
  let names := shape_names (adt_params adt) in
  let variants := map (fun v : AdtVariant =>
    Adts.variant_name v +:+ "(" +:+ join ", " (map (fun a => normalize_type_for_shape names (AdtArgument_typ a)) (Adts.variant_args v))
    +:+ ")") (adt_variants adt) in
  adt_name adt +:+ "[" +:+ join " | " (sort_by_key (fun s => s) variants) +:+ "]".

Definition adt_shape_eq (left right : AdtDecl) : bool := bool_decide (adt_shape left = adt_shape right).

(** * Documentation *)

Definition merge_docs (target source : option string) (subject : string) : result TypeError (option string) :=
  match target, source with
  | Some current, Some incoming =>
      if decide (current = incoming) then Ok target else Err (Internal ("conflicting documentation for " +:+ subject))
  | None, Some incoming => Ok (Some incoming)
  | _, None => Ok target
  end.

(** [iter_mut().zip(source).enumerate()]: the targets past the last source stay. *)
Fixpoint merge_zip {A B} (f : nat -> A -> B -> result TypeError A) (index : nat) (target : list A) (source : list B)
    : result TypeError (list A) :=
  match target, source with
  | a :: target, b :: source =>
      let? a := f index a b in
      let? target := merge_zip f (S index) target source in
      Ok (a :: target)
  | _, _ => Ok target
  end.

Definition merge_param (adt : Symbol) (index : nat) (target source : AdtParam) : result TypeError AdtParam :=
  if negb (bool_decide (Adts.param_name target = Adts.param_name source))
  then Err (Internal ("conflicting name for parameter " +:+ pretty index +:+ " of ADT `" +:+ adt +:+ "`: `"
                      +:+ Adts.param_name target +:+ "` vs `" +:+ Adts.param_name source +:+ "`"))
  else
    let? docs := merge_docs (Adts.param_docs target) (Adts.param_docs source)
                   ("parameter `" +:+ Adts.param_name target +:+ "` of ADT `" +:+ adt +:+ "`") in
    Ok (mkAdtParam (Adts.param_name target) (param_var target) docs).

Definition merge_field (adt variant : Symbol) (source : list AdtField) (target : AdtField) : result TypeError AdtField :=
  match find (fun f => bool_decide (field_name f = field_name target)) source with
  | None => Err (Internal ("missing field `" +:+ field_name target +:+ "` while merging documentation for variant `"
                           +:+ variant +:+ "` in ADT `" +:+ adt +:+ "`"))
  | Some f =>
      let? docs := merge_docs (field_docs target) (field_docs f)
                     ("field `" +:+ field_name target +:+ "` of variant `" +:+ variant +:+ "` in ADT `" +:+ adt +:+ "`") in
      Ok (mkAdtField (field_name target) (field_typ target) docs)
  end.

Definition merge_arg (adt variant : Symbol) (index : nat) (target source : AdtArgument) : result TypeError AdtArgument :=
  let subject := "argument " +:+ pretty index +:+ " of variant `" +:+ variant +:+ "` in ADT `" +:+ adt +:+ "`" in
  match target, source with
  | Positional typ docs, Positional _ source_docs =>
      let? docs := merge_docs docs source_docs subject in
      Ok (Positional typ docs)
  | RecordArgument fields docs, RecordArgument source_fields source_docs =>
      let? docs := merge_docs docs source_docs subject in
      let? fields := map_result (merge_field adt variant source_fields) fields in
      Ok (RecordArgument fields docs)
  | Positional _ docs, RecordArgument fields source_docs =>
      let? docs := merge_docs docs source_docs subject in
      Ok (RecordArgument fields docs)
  | RecordArgument fields docs, Positional _ source_docs =>
      let? docs := merge_docs docs source_docs subject in
      Ok (RecordArgument fields docs)
  end.

Definition merge_variant (adt : Symbol) (source : list AdtVariant) (target : AdtVariant) : result TypeError AdtVariant :=
  let name := Adts.variant_name target in
  match find (fun v : AdtVariant => bool_decide (Adts.variant_name v = name)) source with
  | None => Err (Internal ("missing variant `" +:+ name +:+ "` while merging documentation for ADT `" +:+ adt +:+ "`"))
  | Some v =>
      let? docs := merge_docs (Adts.variant_docs target) (Adts.variant_docs v) ("variant `" +:+ name +:+ "` of ADT `" +:+ adt +:+ "`") in
      let? args := merge_zip (merge_arg adt name) 0 (Adts.variant_args target) (Adts.variant_args v) in
      Ok (mkAdtVariant name args docs)
  end.

(** [merge_adt_docs]: the merged declaration; the target is left alone on an error. *)
Definition merge_adt_docs (target source : AdtDecl) : result TypeError AdtDecl :=
  if negb (adt_shape_eq target source)
  then Err (Internal ("cannot merge documentation for different ADT shapes: " +:+ adt_shape target +:+ " vs " +:+ adt_shape source))
  else if negb (Nat.eqb (length (adt_params target)) (length (adt_params source)))
  then Err (Internal ("cannot merge documentation for ADT `" +:+ adt_name target +:+ "` with different parameter counts"))
  else
    let? docs := merge_docs (adt_docs target) (adt_docs source) ("ADT `" +:+ adt_name target +:+ "`") in
    let? params := merge_zip (merge_param (adt_name target)) 0 (adt_params target) (adt_params source) in
    let? variants := map_result (merge_variant (adt_name target) (adt_variants source)) (adt_variants target) in
    Ok (mkAdtDecl (adt_name target) params variants docs).

(** * The order of a family *)

Definition adt_direct_dependencies (adt : AdtDecl) : result TypeError (list ty) :=
  match collect_adts_in_types (concat (map (fun v : AdtVariant => map AdtArgument_typ (Adts.variant_args v)) (adt_variants adt))) with
  | Err conflicts => Err (collect_adts_error_to_type conflicts)
  | Ok deps => map_result type_head_for_adt_family deps
  end.

(** The declarations of a family by name, those of one name merged. *)
Fixpoint unique_adts (adts : list AdtDecl) (unique : list (Symbol * AdtDecl)) : result TypeError (list (Symbol * AdtDecl)) :=
  match adts with
  | [] => Ok unique
  | adt :: adts =>
      let? unique :=
        match btree_get unique (adt_name adt) with
        | Some existing =>
            if adt_shape_eq existing adt then
              let? merged := merge_adt_docs existing adt in
              Ok (btree_insert (adt_name adt) merged unique)
            else Err (Internal ("conflicting ADT family definitions for `" +:+ adt_name adt +:+ "`: "
                                +:+ adt_shape existing +:+ " vs " +:+ adt_shape adt))
        | None => Ok (btree_insert (adt_name adt) adt unique)
        end in
      unique_adts adts unique
  end.

(** [visited] and [ordered]. *)
Abbreviation Ordering := (list Symbol * list AdtDecl)%type.

Section Visit.
Variable unique : list (Symbol * AdtDecl).

(** The loop over the dependencies of a declaration; [visit] is the recursive call. *)
Fixpoint visit_dependencies (visit : Symbol -> Ordering -> fueled TypeError Ordering) (name : Symbol) (deps : list ty)
    (acc : Ordering) : fueled TypeError Ordering :=
  match deps with
  | [] => fret acc
  | dep :: deps =>
      let! dep_head := lift (type_head_for_adt_family dep) in
      let! acc :=
        match dep_head with
        | TCon dep_con =>
            match user_name dep_con with
            | Some name => match btree_get unique name with Some _ => visit name acc | None => fret acc end
            | None => fret acc
            end
        | _ => ferr (Internal ("dependency head for `" +:+ name +:+ "` was not a constructor"))
        end in
      visit_dependencies visit name deps acc
  end.

Definition position (name : Symbol) (l : list Symbol) : option nat := fst <$> list_find (fun x => x = name) l.

Fixpoint visit (fuel : nat) (visiting : list Symbol) (name : Symbol) (acc : Ordering) : fueled TypeError Ordering :=
  match fuel with
  | O => None
  | S fuel =>
      if decide (name ∈ acc.1) then fret acc
      else match position name visiting with
           | Some idx =>
               ferr (Internal ("cyclic ADT auto-registration is not supported yet: "
                               +:+ join " -> " (drop idx visiting ++ [name])))
           | None =>
               match btree_get unique name with
               | None => ferr (Internal ("missing ADT `" +:+ name +:+ "` during ordering"))
               | Some adt =>
                   let! deps := lift (adt_direct_dependencies adt) in
                   let! acc := visit_dependencies (visit fuel (visiting ++ [name])) name deps acc in
                   fret (name :: acc.1, acc.2 ++ [adt])
               end
           end
  end.

Fixpoint visit_all (fuel : nat) (names : list Symbol) (acc : Ordering) : fueled TypeError Ordering :=
  match names with
  | [] => fret acc
  | name :: names =>
      let! acc := visit fuel [] name acc in
      visit_all fuel names acc
  end.
End Visit.

(** The names are visited in the order of the map. *)
Definition order_adt_family (fuel : nat) (adts : list AdtDecl) : fueled TypeError (list AdtDecl) :=
  let! unique := lift (unique_adts adts []) in
  let! (_, ordered) := visit_all unique fuel (map fst unique) ([], []) in
  fret ordered.

(** * The order is a dependency order *)

(** ** The dependencies of a declaration *)

Definition argument_types (adt : AdtDecl) : list ty :=
  concat (map (fun v : AdtVariant => map AdtArgument_typ (Adts.variant_args v)) (adt_variants adt)).

Section Mentions.
Variable unique : list (Symbol * AdtDecl).

(** The declaration of [a] mentions the constructor [b], which the family declares
    too and which is not the name of a built-in type. *)
Definition mentions (a b : Symbol) : Prop :=
  exists adt t n, btree_get unique a = Some adt /\ t ∈ argument_types adt /\ User b n ∈ type_cons t /\
    Type_con b n = TCon (User b n) /\ b ∈ map fst unique.

Lemma push_new_elem {A} `{EqDecision A} (l : list A) x y : y ∈ push_new l x <-> y ∈ l \/ y = x.
Proof. unfold push_new. case_decide; [set_solver|]. rewrite elem_of_app, list_elem_of_singleton. done. Qed.

Lemma collect_con_out cs : forall acc t,
  t ∈ (foldl collect_con acc cs).1 <-> t ∈ acc.1 \/ exists name n, t = TCon (User name n) /\ User name n ∈ cs.
Proof.
  induction cs as [|c cs IH]; intros acc t; simpl; [split; [by left|by intros [?|(? & ? & _ & ?%not_elem_of_nil)]]|].
  rewrite IH. destruct c as [id|name n]; simpl.
  - split; (intros [?|(name & n & ? & ?)]; [by left|right; exists name, n; set_solver]).
  - rewrite push_new_elem. split.
    + intros [[? | ->]|(name' & n' & ? & ?)]; [by left|right; exists name, n; set_solver|right; exists name', n'; set_solver].
    + intros [?|(name' & n' & -> & [[= -> ->]|?]%elem_of_cons)]; [tauto|tauto|right; by exists name', n'].
Qed.

(** The definitions of a name are its constructors, each once. *)
Lemma collect_con_defs cs : forall acc name t,
  t ∈ default [] (btree_get (foldl collect_con acc cs).2 name) <->
  t ∈ default [] (btree_get acc.2 name) \/ exists n, t = TCon (User name n) /\ User name n ∈ cs.
Proof.
  induction cs as [|c cs IH]; intros acc name t; simpl; [split; [by left|by intros [?|(? & _ & ?%not_elem_of_nil)]]|].
  rewrite IH. destruct c as [id|name' n]; simpl.
  - split; (intros [?|(n & ? & ?)]; [by left|right; exists n; set_solver]).
  - rewrite btree_get_insert. case_decide as Hd; [subst name'; simpl; rewrite push_new_elem|]; split.
    + intros [[? | ->]|(n' & ? & ?)]; [by left|right; exists n; set_solver|right; exists n'; set_solver].
    + intros [?|(n' & -> & [[= ->]|?]%elem_of_cons)]; [tauto|tauto|right; by exists n'].
    + intros [?|(n' & ? & ?)]; [by left|right; exists n'; set_solver].
    + intros [?|(n' & -> & [[= -> ->]|?]%elem_of_cons)]; [tauto|done|right; by exists n'].
Qed.

Lemma collect_con_once cs : forall acc,
  btree acc.2 -> (forall name, NoDup (default [] (btree_get acc.2 name))) ->
  btree (foldl collect_con acc cs).2 /\ forall name, NoDup (default [] (btree_get (foldl collect_con acc cs).2 name)).
Proof.
  induction cs as [|c cs IH]; intros acc Hb Hn; [done|]. simpl. apply IH; (destruct c as [id|name n]; [done|]); simpl.
  - by apply btree_insert_btree.
  - intros name'. rewrite btree_get_insert. case_decide as Hd; [|apply Hn]. simpl. unfold push_new.
    case_decide as Hin; [apply Hn|]. apply NoDup_app. split_and!; [apply Hn| |apply NoDup_singleton].
    intros t Ht ->%list_elem_of_singleton. done.
Qed.

(** A declaration that uses one name at two arities. *)
Definition two_arities (adt : AdtDecl) : Prop :=
  exists name n m t u, t ∈ argument_types adt /\ u ∈ argument_types adt /\
    User name n ∈ type_cons t /\ User name m ∈ type_cons u /\ n <> m.

Lemma collect_conflicts adt :
  (exists conflicts, collect_adts_in_types (argument_types adt) = Err conflicts) <-> two_arities adt.
Proof.
  assert (Hin : forall c, c ∈ concat (map type_cons (argument_types adt)) <->
    exists t, t ∈ argument_types adt /\ c ∈ type_cons t).
  { intros c. rewrite list_elem_of_In, in_concat. split.
    - intros (l & Hl & Hc). apply list_elem_of_In, list_elem_of_fmap in Hl as (t & -> & Ht). exists t.
      split; [done|by apply list_elem_of_In].
    - intros (t & Ht & Hc). exists (type_cons t). split; [apply list_elem_of_In|by apply list_elem_of_In].
      apply list_elem_of_fmap. by exists t. }
  unfold collect_adts_in_types. set (cs := concat _) in *.
  pose proof (collect_con_defs cs ([], [])) as Hdefs. pose proof (collect_con_once cs ([], [])) as Honce.
  destruct (foldl collect_con ([], []) cs) as [out defs]. simpl in Hdefs, Honce.
  destruct Honce as [Hb Honce]; [apply btree_nil|intros; constructor|]. split.
  - intros [conflicts Hc].
    assert (exists d, d ∈ filter (fun d => 1 < length d.2) defs) as ([name l] & [Hl Hd]%list_elem_of_filter).
    { destruct (filter _ defs) as [|d ds]; [done|]. exists d. by left. }
    simpl in Hl. apply btree_get_elem in Hd; [|by apply btree_NoDup]. specialize (Hdefs name). specialize (Honce name).
    rewrite Hd in Hdefs, Honce. simpl in Hdefs, Honce. destruct l as [|t [|u l]]; [simpl in Hl; lia|simpl in Hl; lia|].
    destruct (proj1 (Hdefs t)) as [?%not_elem_of_nil|(n & -> & Hn)]; [by left|done|].
    destruct (proj1 (Hdefs u)) as [?%not_elem_of_nil|(m & -> & Hm)]; [by right; left|done|].
    apply Hin in Hn as (t & Ht & Hn). apply Hin in Hm as (u & Hu & Hm). exists name, n, m, t, u. split_and!; try done.
    intros <-. apply NoDup_cons in Honce as [H _]. apply H. by left.
  - intros (name & n & m & t & u & Ht & Hu & Hn & Hm & Hne).
    assert (H1 : TCon (User name n) ∈ default [] (btree_get defs name)).
    { apply Hdefs. right. exists n. split; [done|]. apply Hin. by exists t. }
    assert (H2 : TCon (User name m) ∈ default [] (btree_get defs name)).
    { apply Hdefs. right. exists m. split; [done|]. apply Hin. by exists u. }
    destruct (btree_get defs name) as [l|] eqn:Hd; simpl in H1, H2; [|by apply not_elem_of_nil in H1].
    apply btree_get_elem in Hd; [|by apply btree_NoDup].
    assert (Hl : (name, l) ∈ filter (fun d => 1 < length d.2) defs).
    { apply list_elem_of_filter. split; [|done]. simpl. destruct l as [|x [|y l]]; simpl; [| |lia].
      - exfalso. by apply not_elem_of_nil in H1.
      - exfalso. apply list_elem_of_singleton in H1 as <-. apply list_elem_of_singleton in H2. congruence. }
    destruct (filter _ defs); [by apply not_elem_of_nil in Hl|by eexists].
Qed.

Lemma head_of_con c : type_head_for_adt_family (TCon c) = Ok (Type_con (name_str c) (const_arity c)).
Proof. done. Qed.

Lemma Type_con_cases name n :
  (Type_con name n = TCon (User name n)) \/ exists id, Type_con name n = TCon (Builtin id).
Proof. unfold Type_con. destruct (from_name name) as [id|]; [|by left]. case_decide; [right; by exists id|by left]. Qed.

Lemma head_of_dependency name n : type_head_for_adt_family (Type_con name n) = Ok (Type_con name n).
Proof.
  destruct (Type_con_cases name n) as [H|(id & H)]; rewrite H, head_of_con; cbn [name_str const_arity]; [by rewrite H|].
  f_equal. by destruct id; vm_compute.
Qed.

(** The dependencies are the constructors that the arguments mention. *)
Lemma direct_dependencies adt :
  match collect_adts_in_types (argument_types adt) with
  | Err conflicts => exists e, adt_direct_dependencies adt = Err e
  | Ok _ => exists cs, adt_direct_dependencies adt = Ok (map (fun c => Type_con c.1 c.2) cs) /\
      forall name n, (name, n) ∈ cs <-> exists t, t ∈ argument_types adt /\ User name n ∈ type_cons t
  end.
Proof.
  unfold adt_direct_dependencies. fold (argument_types adt). unfold collect_adts_in_types.
  pose proof (collect_con_out (concat (map type_cons (argument_types adt))) ([], [])) as Hout.
  destruct (foldl _ _ _) as [out defs]. simpl in Hout. destruct (filter _ defs); [|by eexists].
  assert (exists cs, out = map (fun c => TCon (User c.1 c.2)) cs) as (cs & ->).
  { assert (forall t, t ∈ out -> exists name n, t = TCon (User name n)) as Hu.
    { intros t [?%not_elem_of_nil|(name & n & -> & _)]%Hout; [done|by exists name, n]. }
    clear Hout. induction out as [|t out IH]; [by exists []|].
    destruct (Hu t) as (name & n & ->); [by left|]. destruct IH as (cs & ->); [intros; apply Hu; by right|].
    by exists ((name, n) :: cs). }
  exists cs. split.
  - clear Hout. induction cs as [|[name n] cs IH]; [done|]. cbn [map map_result]. rewrite head_of_con. simpl. by rewrite IH.
  - intros name n. transitivity (TCon (User name n) ∈ map (fun c => TCon (User c.1 c.2)) cs).
    { rewrite list_elem_of_fmap. split; [intros; by exists (name, n)|by intros ([name' n'] & [= -> ->] & ?)]. }
    rewrite Hout. split.
    + intros [?%not_elem_of_nil|(? & ? & [= <- <-] & Hin)]; [done|].
      apply list_elem_of_In, in_concat in Hin as (l & Hin & Hl).
      apply list_elem_of_In, list_elem_of_fmap in Hin as (t & -> & Ht). exists t. split; [done|by apply list_elem_of_In].
    + intros (t & Ht & Hu). right. exists name, n. split; [done|]. apply list_elem_of_In, in_concat. exists (type_cons t).
      rewrite <- !list_elem_of_In. split; [|done]. apply list_elem_of_fmap. by exists t.
Qed.
End Mentions.

(** ** The visit *)

Section Order.
Variable unique : list (Symbol * AdtDecl).
Hypothesis Hnames : forall name adt, btree_get unique name = Some adt -> adt_name adt = name.
Abbreviation keys := (map fst unique).
Abbreviation mentions := (mentions unique).

(** What makes an order impossible: a declaration that uses one name at two arities,
    or a cycle. *)
Definition unorderable : Prop :=
  (exists name adt, btree_get unique name = Some adt /\ two_arities adt) \/
  exists name, tc mentions name name.

(** The declarations ordered so far: each once, after all that it mentions. *)
Record ordering (acc : Ordering) : Prop := {
  ordering_names : rev acc.1 = map adt_name acc.2;
  ordering_once : NoDup acc.1;
  ordering_family adt : adt ∈ acc.2 -> btree_get unique (adt_name adt) = Some adt;
  ordering_arities adt : adt ∈ acc.2 -> ~ two_arities adt;
  ordering_before i adt b : acc.2 !! i = Some adt -> mentions (adt_name adt) b ->
    exists j adt', j < i /\ acc.2 !! j = Some adt' /\ adt_name adt' = b
}.

(** The names being visited: each mentions the next one, the last one [name]. *)
Definition path (l : list Symbol) : Prop := forall i a b, l !! i = Some a -> l !! S i = Some b -> mentions a b.

Lemma path_tc l i j a b : path l -> i < j -> l !! i = Some a -> l !! j = Some b -> tc mentions a b.
Proof using Type. clear Hnames.
  intros Hp Hij Ha. revert b. induction Hij as [|j Hij IH]; intros b Hb; [by apply tc_once, (Hp i)|].
  destruct (l !! j) as [c|] eqn:Hc; [|apply lookup_ge_None in Hc; apply lookup_lt_Some in Hb; lia].
  eapply tc_r; [by apply IH|by apply (Hp j)].
Qed.

Lemma path_snoc l a b : path (l ++ [a]) -> mentions a b -> path ((l ++ [a]) ++ [b]).
Proof using Type. clear Hnames.
  intros Hp Hm i x y Hx Hy. destruct (decide (S i < length (l ++ [a]))) as [Hi|Hi].
  - rewrite lookup_app_l in Hx, Hy by lia. by apply (Hp i).
  - assert (i = length l) as ->.
    { apply lookup_lt_Some in Hy. rewrite !length_app in *. simpl in *. lia. }
    rewrite <- app_assoc, lookup_app_r, Nat.sub_diag in Hx by done. injection Hx as <-.
    rewrite lookup_app_r, length_app in Hy by (rewrite length_app; simpl; lia). simpl in Hy.
    replace (S (length l) - (length l + 1)) with 0 in Hy by lia. by injection Hy as <-.
Qed.

Definition extends (visiting : list Symbol) (acc acc' : Ordering) : Prop :=
  (exists more, acc'.1 = more ++ acc.1 /\ forall n, n ∈ more -> n ∉ visiting).

Lemma extends_refl visiting acc : extends visiting acc acc.
Proof using Type. clear Hnames. exists []. split; [done|]. by intros n ?%not_elem_of_nil. Qed.

Lemma ordering_extends_trans visiting acc1 acc2 acc3 :
  extends visiting acc1 acc2 -> extends visiting acc2 acc3 -> extends visiting acc1 acc3.
Proof using Type. clear Hnames.
  intros (m1 & H1 & Hm1) (m2 & H2 & Hm2). exists (m2 ++ m1). rewrite H2, H1, app_assoc. split; [done|].
  intros n [?|?]%elem_of_app; auto.
Qed.

Lemma extends_visited visiting acc acc' n : extends visiting acc acc' -> n ∈ acc.1 -> n ∈ acc'.1.
Proof using Type. clear Hnames. intros (m & -> & _) Hn. apply elem_of_app. by right. Qed.

Definition visits (visiting : list Symbol) (name : Symbol) (acc : Ordering) (r : result TypeError Ordering) : Prop :=
  match r with
  | Ok acc' => ordering acc' /\ extends visiting acc acc' /\ name ∈ acc'.1
  | Err _ => unorderable
  end.

Definition follow (rec : Symbol -> Ordering -> fueled TypeError Ordering) (dep : ty) (acc : Ordering) : fueled TypeError Ordering :=
  match dep with
  | TCon c => match user_name c with
              | Some n => match btree_get unique n with Some _ => rec n acc | None => fret acc end
              | None => fret acc
              end
  | _ => fret acc
  end.

Lemma in_keys name adt : btree_get unique name = Some adt -> name ∈ keys.
Proof using Type. clear Hnames. intros Hn. destruct (decide (name ∈ keys)) as [|Hk]; [done|]. apply btree_get_None in Hk. congruence. Qed.

(** Following one dependency. *)
Lemma follow_ok rec visiting a adt name n acc :
  btree_get unique a = Some adt -> (exists t, t ∈ argument_types adt /\ User name n ∈ type_cons t) ->
  (forall b acc, mentions a b -> ordering acc -> exists r, rec b acc = Some r /\ visits visiting b acc r) ->
  ordering acc ->
  exists r, follow rec (Type_con name n) acc = Some r /\
    match r with
    | Ok acc' => ordering acc' /\ extends visiting acc acc' /\ (Type_con name n = TCon (User name n) -> name ∈ keys -> name ∈ acc'.1)
    | Err _ => unorderable
    end.
Proof using Type. clear Hnames.
  intros Ha (t & Ht & Hu) Hrec Hacc. destruct (Type_con_cases name n) as [H|(id & H)]; rewrite H; simpl.
  - destruct (btree_get unique name) as [adt'|] eqn:Hn.
    + destruct (Hrec name acc) as (r & Hr & Hv); [exists adt, t, n; split_and!; by eauto using in_keys|done|].
      exists r. split; [done|]. destruct r as [acc'|]; [|done]. destruct Hv as (? & ? & ?). by split_and!.
    + exists (Ok acc). split; [done|]. split_and!; [done|apply extends_refl|]. intros _ Hk. by apply btree_get_None in Hn.
  - exists (Ok acc). split; [done|]. by split_and!; [|apply extends_refl|].
Qed.

Lemma visit_dependencies_ok rec visiting a adt :
  btree_get unique a = Some adt ->
  (forall b acc, mentions a b -> ordering acc -> exists r, rec b acc = Some r /\ visits visiting b acc r) ->
  forall cs acc, (forall name n, (name, n) ∈ cs -> exists t, t ∈ argument_types adt /\ User name n ∈ type_cons t) -> ordering acc ->
  exists r, visit_dependencies unique rec a (map (fun c => Type_con c.1 c.2) cs) acc = Some r /\
    match r with
    | Ok acc' => ordering acc' /\ extends visiting acc acc' /\
        forall name n, (name, n) ∈ cs -> Type_con name n = TCon (User name n) -> name ∈ keys -> name ∈ acc'.1
    | Err _ => unorderable
    end.
Proof using Type. clear Hnames.
  intros Ha Hrec cs. induction cs as [|[name n] cs IH]; intros acc Hin Hacc.
  { exists (Ok acc). split; [done|]. split_and!; [done|apply extends_refl|by intros ? ? ?%not_elem_of_nil]. }
  cbn [map visit_dependencies fst snd]. rewrite head_of_dependency. simpl.
  destruct (follow_ok rec visiting a adt name n acc) as (r & Hf & Hr); [done|apply Hin; by left|done|done|].
  assert (match Type_con name n with
          | TCon dep_con =>
              match user_name dep_con with
              | Some name => match btree_get unique name with Some _ => rec name acc | None => fret acc end
              | None => fret acc
              end
          | _ => ferr (Internal ("dependency head for `" +:+ a +:+ "` was not a constructor"))
          end = Some r) as ->.
  { rewrite <- Hf. by destruct (Type_con_cases name n) as [H|(id & H)]; rewrite H. }
  destruct r as [acc'|]; simpl; [|by eexists]. destruct Hr as (Hacc' & He & Hb).
  destruct (IH acc') as (r & -> & Hr); [intros; apply Hin; by right|done|]. exists r. split; [done|].
  destruct r as [acc''|]; [|done]. destruct Hr as (Hacc'' & He' & Hb'). split_and!; [done|by eapply ordering_extends_trans|].
  intros name' n' [[= -> ->]|Hd']%elem_of_cons Hc' Hk; [|by eapply Hb'].
  eapply extends_visited; [exact He'|]. by apply Hb.
Qed.

Lemma visit_ok fuel : forall visiting name acc,
  length keys - length visiting < fuel -> NoDup visiting -> visiting ⊆ keys -> name ∈ keys ->
  path (visiting ++ [name]) -> ordering acc ->
  exists r, visit unique fuel visiting name acc = Some r /\ visits visiting name acc r.
Proof using Hnames.
  induction fuel as [|fuel IH]; intros visiting name acc Hf Hnd Hsub Hk Hp Hacc; [lia|]. simpl.
  case_decide as Hv; [exists (Ok acc); split; [done|]; by split_and!; [|apply extends_refl|]|].
  destruct (position name visiting) as [idx|] eqn:Hpos.
  { eexists. split; [done|]. right. exists name. unfold position in Hpos.
    destruct (list_find _ visiting) as [[i x]|] eqn:Hl; [|done]. apply list_find_Some in Hl as (Hl & -> & _).
    eapply (path_tc _ i (length visiting)); [exact Hp|by eapply lookup_lt_Some|by apply lookup_app_l_Some|].
    rewrite lookup_app_r by done. by rewrite Nat.sub_diag. }
  assert (name ∉ visiting) as Hnv.
  { intros Hin. unfold position in Hpos. destruct (list_find _ visiting) eqn:Hl; [done|].
    apply list_find_None in Hl. rewrite Forall_forall in Hl. by apply (Hl name). }
  destruct (btree_get unique name) as [adt|] eqn:Ha; [|by apply btree_get_None in Ha].
  pose proof (direct_dependencies adt) as Hd. destruct (collect_adts_in_types (argument_types adt)) as [out|conflicts] eqn:Hc.
  2:{ destruct Hd as (e & ->). eexists. split; [done|]. left. exists name, adt. split; [done|].
    apply collect_conflicts. by eexists. }
  destruct Hd as (cs & -> & Hcs). simpl.
  assert (NoDup (visiting ++ [name])) as Hnd'.
  { apply NoDup_app. split_and!; [done| |apply NoDup_singleton]. intros x Hx ->%list_elem_of_singleton. done. }
  assert (visiting ++ [name] ⊆ keys) as Hsub'.
  { intros x [Hx| ->%list_elem_of_singleton]%elem_of_app; [by apply Hsub|done]. }
  assert (length (visiting ++ [name]) <= length keys) as Hlen.
  { apply submseteq_length, NoDup_submseteq; [done|]. intros x Hx. by apply Hsub'. }
  rewrite length_app in Hlen. simpl in Hlen.
  destruct (visit_dependencies_ok (visit unique fuel (visiting ++ [name])) (visiting ++ [name]) name adt Ha)
    with (cs := cs) (acc := acc) as (r & -> & Hr); [|intros; by apply Hcs|done|].
  { intros b acc' Hm Hacc'. apply IH; [rewrite length_app; simpl; lia|done|done| |by apply path_snoc|done].
    by destruct Hm as (? & ? & ? & ? & ? & ? & ? & ?). }
  destruct r as [[visited ordered]|]; simpl; [|by eexists]. destruct Hr as (Hacc' & He & Hb).
  eexists. split; [done|]. destruct Hacc' as [Hn Ho Hfam Har Hbef]. destruct He as (more & Hmore & Hnew). simpl in *.
  assert (name ∉ visited) as Hnew'.
  { rewrite Hmore. intros [Hx|Hx]%elem_of_app; [|done]. apply (Hnew name Hx). set_solver. }
  assert (adt_name adt = name) as Hname by by apply Hnames.
  split_and!.
  - split; simpl.
    + rewrite Hn, map_app. simpl. by rewrite Hname.
    + by constructor.
    + intros adt' [?| ->%list_elem_of_singleton]%elem_of_app; [by apply Hfam|by rewrite Hname].
    + intros adt' [?| ->%list_elem_of_singleton]%elem_of_app; [by apply Har|].
      intros [conflicts Hconf]%collect_conflicts. congruence.
    + intros i adt' b Hi Hm. apply lookup_app_Some in Hi as [Hi|[Hi Hlast]].
      * destruct (Hbef i adt' b Hi Hm) as (j & adt'' & ? & ? & ?). exists j, adt''. split_and!; [done|by apply lookup_app_l_Some|done].
      * apply list_lookup_singleton_Some in Hlast as [Hi0 <-].
        assert (b ∈ visited) as Hbv.
        { assert (b ∈ keys) as Hbk by by destruct Hm as (? & ? & ? & ? & ? & ? & ? & ?).
          rewrite Hname in Hm. destruct Hm as (adt0 & t & n & Ha0 & Ht & Hu & Hn0 & _). rewrite Ha in Ha0. injection Ha0 as <-.
          apply (Hb b n); [|done|done]. apply Hcs. by exists t. }
        assert (b ∈ map adt_name ordered) as Hbo by (rewrite <- Hn; by apply list_elem_of_In, in_rev; rewrite rev_involutive; apply list_elem_of_In).
        apply list_elem_of_fmap in Hbo as (adt' & -> & Hin). apply list_elem_of_lookup in Hin as (j & Hj).
        exists j, adt'. split_and!; [apply lookup_lt_Some in Hj; lia|by apply lookup_app_l_Some|done].
  - exists (name :: more). simpl. rewrite Hmore. split; [done|].
    intros n [->|Hx]%elem_of_cons; [done|]. intros Hin. apply (Hnew n Hx). set_solver.
  - by left.
Qed.

Lemma visit_all_ok fuel names : forall acc,
  length keys < fuel -> names ⊆ keys -> ordering acc ->
  exists r, visit_all unique fuel names acc = Some r /\
    match r with
    | Ok acc' => ordering acc' /\ extends [] acc acc' /\ forall n, n ∈ names -> n ∈ acc'.1
    | Err _ => unorderable
    end.
Proof using Hnames.
  induction names as [|name names IH]; intros acc Hf Hsub Hacc.
  { exists (Ok acc). split; [done|]. split_and!; [done|apply extends_refl|by intros n ?%not_elem_of_nil]. }
  simpl. destruct (visit_ok fuel [] name acc) as (r & -> & Hr); [simpl; lia|constructor|set_solver|set_solver| |done|].
  { intros [|i] a b; simpl; [done|]. by destruct i. }
  destruct r as [acc'|]; simpl; [|by eexists]. destruct Hr as (Hacc' & He & Hn).
  destruct (IH acc') as (r & -> & Hr); [done|set_solver|done|]. exists r. split; [done|].
  destruct r as [acc''|]; [|done]. destruct Hr as (Hacc'' & He' & Hns). split_and!; [done|by eapply ordering_extends_trans|].
  intros n [->|?]%elem_of_cons; [by eapply extends_visited|by apply Hns].
Qed.
End Order.

(** ** Declarations of one name *)

(** Two pieces of documentation of one thing. *)
Definition docs_clash (a b : option string) : Prop := exists x y, a = Some x /\ b = Some y /\ x <> y.

Definition argument_docs (a : AdtArgument) : option string :=
  match a with Positional _ docs => docs | RecordArgument _ docs => docs end.

Definition variant_named (name : Symbol) (l : list AdtVariant) : option AdtVariant :=
  find (fun v : AdtVariant => bool_decide (Adts.variant_name v = name)) l.

Definition field_named (name : Symbol) (l : list AdtField) : option AdtField :=
  find (fun f => bool_decide (field_name f = name)) l.

(** Two arguments at one position of a variant: of records the fields are compared as
    well, by name; a field that the other has not clashes too. *)
Inductive args_clash (a a' : AdtArgument) : Prop :=
  | clash_docs : docs_clash (argument_docs a) (argument_docs a') -> args_clash a a'
  | clash_fields fields docs fields' docs' f :
      a = RecordArgument fields docs -> a' = RecordArgument fields' docs' -> f ∈ fields ->
      (forall f', field_named (field_name f) fields' = Some f' -> docs_clash (field_docs f) (field_docs f')) ->
      args_clash a a'.

(** Why two declarations of a name cannot be one. *)
Inductive disagree (d d' : AdtDecl) : Prop :=
  | disagree_shape : adt_shape d <> adt_shape d' -> disagree d d'
  | disagree_parameter_count : length (adt_params d) <> length (adt_params d') -> disagree d d'
  | disagree_docs : docs_clash (adt_docs d) (adt_docs d') -> disagree d d'
  | disagree_parameter i p p' :
      adt_params d !! i = Some p -> adt_params d' !! i = Some p' ->
      Adts.param_name p <> Adts.param_name p' \/ docs_clash (Adts.param_docs p) (Adts.param_docs p') -> disagree d d'
  | disagree_variants v :
      v ∈ adt_variants d -> variant_named (Adts.variant_name v) (adt_variants d') = None -> disagree d d'
  | disagree_variant_docs v v' :
      v ∈ adt_variants d -> variant_named (Adts.variant_name v) (adt_variants d') = Some v' ->
      docs_clash (Adts.variant_docs v) (Adts.variant_docs v') -> disagree d d'
  | disagree_argument v v' i a a' :
      v ∈ adt_variants d -> variant_named (Adts.variant_name v) (adt_variants d') = Some v' ->
      Adts.variant_args v !! i = Some a -> Adts.variant_args v' !! i = Some a' ->
      args_clash a a' -> disagree d d'.

(** The declarations of one name, merged one after the other. *)
Fixpoint merge_named (d : AdtDecl) (rest : list AdtDecl) : result TypeError AdtDecl :=
  match rest with
  | [] => Ok d
  | d' :: rest => let? d := merge_adt_docs d d' in merge_named d rest
  end.

Definition same_name (name : Symbol) (adts : list AdtDecl) : list AdtDecl := filter (fun d => adt_name d = name) adts.

(** [d] is what the declarations of [name] merge into. *)
Definition merged (adts : list AdtDecl) (name : Symbol) (d : AdtDecl) : Prop :=
  exists first rest, same_name name adts = first :: rest /\ merge_named first rest = Ok d.

(** A declaration disagrees with what the ones of its name before it merge into. *)
Definition conflicting (adts : list AdtDecl) : Prop :=
  exists before d after known, adts = before ++ d :: after /\ merged before (adt_name d) known /\ disagree known d.

Definition fails {A} (r : result TypeError A) : Prop := exists e, r = Err e.

Lemma fails_rbind {A B} (r : result TypeError A) (k : A -> result TypeError B) (P : Prop) :
  (forall x, r = Ok x -> fails (k x) <-> P) -> fails (rbind r k) <-> fails r \/ (P /\ ~ fails r).
Proof.
  intros H. destruct r as [x|e]; simpl.
  - rewrite (H x eq_refl). split; [intros HP; right; split; [done|by intros [? [=]]]|by intros [[? [=]]|[? _]]].
  - split; intros _; [left|]; by eexists.
Qed.

Lemma fails_lor {A} (r : result TypeError A) (P : Prop) : fails r \/ (P /\ ~ fails r) <-> fails r \/ P.
Proof. destruct r; unfold fails; naive_solver. Qed.

Lemma fails_Ok {A} (x : A) : fails (Ok x) <-> False.
Proof. split; [by intros [? [=]]|done]. Qed.

Lemma fails_Err {A} e : fails (Err e : result TypeError A) <-> True.
Proof. split; [done|]. intros _. by eexists. Qed.

Lemma fails_bind {A B} (r : result TypeError A) (k : A -> result TypeError B) (P : Prop) :
  (forall x, fails (k x) <-> P) -> fails (rbind r k) <-> fails r \/ P.
Proof. intros H. rewrite (fails_rbind r k P), fails_lor by auto. done. Qed.

Lemma fails_map {A B} (f : A -> result TypeError B) l : fails (map_result f l) <-> exists x, x ∈ l /\ fails (f x).
Proof.
  induction l as [|x l IH]; simpl; [rewrite fails_Ok; split; [done|by intros (? & ?%not_elem_of_nil & _)]|].
  rewrite (fails_bind _ _ (fails (map_result f l))), IH.
  - split; [intros [?|(y & ? & ?)]; [exists x; split; [by left|done]|exists y; split; [by right|done]]|].
    intros (y & [->|?]%elem_of_cons & ?); [by left|right; by exists y].
  - intros y. rewrite (fails_bind _ _ False); [tauto|]. intros. apply fails_Ok.
Qed.

Lemma fails_merge_zip {A B} (f : nat -> A -> B -> result TypeError A) l l' : forall k,
  fails (merge_zip f k l l') <-> exists i a b, l !! i = Some a /\ l' !! i = Some b /\ fails (f (k + i) a b).
Proof.
  revert l'. induction l as [|a l IH]; intros [|b l'] k; simpl; try rewrite fails_Ok;
    try (split; [done|by intros (i & ? & ? & H & H' & _); rewrite ?lookup_nil in H, H'; destruct i]).
  rewrite (fails_bind _ _ (fails (merge_zip f (S k) l l'))), IH.
  - split.
    + intros [?|(i & x & y & ? & ? & Hf)]; [exists 0, a, b; by rewrite Nat.add_0_r|].
      exists (S i), x, y. by rewrite <- Nat.add_succ_comm.
    + intros ([|i] & x & y & Hx & Hy & Hf); simpl in Hx, Hy; [rewrite Nat.add_0_r in Hf; left; congruence|].
      right. exists i, x, y. by rewrite Nat.add_succ_comm.
  - intros x. rewrite (fails_bind _ _ False); [tauto|]. intros. apply fails_Ok.
Qed.

Lemma fails_merge_docs a b subject : fails (merge_docs a b subject) <-> docs_clash a b.
Proof.
  unfold merge_docs, docs_clash. destruct a as [x|], b as [y|]; try case_decide as Hd; rewrite ?fails_Ok, ?fails_Err; naive_solver.
Qed.

Lemma fails_merge_param adt i p p' :
  fails (merge_param adt i p p') <->
  Adts.param_name p <> Adts.param_name p' \/ docs_clash (Adts.param_docs p) (Adts.param_docs p').
Proof.
  unfold merge_param. case_bool_decide; simpl.
  - rewrite (fails_bind _ _ False), fails_merge_docs; [tauto|]. intros. apply fails_Ok.
  - rewrite fails_Err. tauto.
Qed.

Lemma fails_merge_field adt variant fields' f :
  fails (merge_field adt variant fields' f) <->
  forall f', field_named (field_name f) fields' = Some f' -> docs_clash (field_docs f) (field_docs f').
Proof.
  unfold merge_field. fold (field_named (field_name f) fields'). destruct (field_named _ _) as [f'|].
  - rewrite (fails_bind _ _ False), fails_merge_docs by (intros; apply fails_Ok). naive_solver.
  - rewrite fails_Err. naive_solver.
Qed.

Lemma fails_merge_arg adt variant i a a' : fails (merge_arg adt variant i a a') <-> args_clash a a'.
Proof.
  assert (Hno : forall P : Prop, (P -> exists fields docs fields' docs' f,
      a = RecordArgument fields docs /\ a' = RecordArgument fields' docs' /\ f ∈ fields /\
      forall f', field_named (field_name f) fields' = Some f' -> docs_clash (field_docs f) (field_docs f')) ->
    ((exists fields docs fields' docs' f,
      a = RecordArgument fields docs /\ a' = RecordArgument fields' docs' /\ f ∈ fields /\
      forall f', field_named (field_name f) fields' = Some f' -> docs_clash (field_docs f) (field_docs f')) -> P) ->
    docs_clash (argument_docs a) (argument_docs a') \/ P <-> args_clash a a').
  { intros P H1 H2. split.
    - intros [?|(fields & docs & fields' & docs' & f & -> & -> & ? & ?)%H1]; [by apply clash_docs|by eapply clash_fields].
    - intros [?|fields docs fields' docs' f ????]; [by left|right; apply H2]. by exists fields, docs, fields', docs', f. }
  destruct a as [typ docs|fields docs], a' as [typ' docs'|fields' docs']; unfold merge_arg; cbn [argument_docs] in Hno;
    [rewrite (fails_bind _ _ False), fails_merge_docs by (intros; apply fails_Ok); apply Hno; naive_solver..|].
  rewrite (fails_bind _ _ (exists f, f ∈ fields /\ fails (merge_field adt variant fields' f))), fails_merge_docs.
  - apply Hno.
    + intros (f & ? & Hf). rewrite fails_merge_field in Hf. by exists fields, docs, fields', docs', f.
    + intros (? & ? & ? & ? & f & [= <- <-] & [= <- <-] & ? & ?). exists f. by rewrite fails_merge_field.
  - intros x. rewrite (fails_bind _ _ False), fails_map by (intros; apply fails_Ok). tauto.
Qed.

Lemma fails_merge_variant adt source v :
  fails (merge_variant adt source v) <->
  match variant_named (Adts.variant_name v) source with
  | None => True
  | Some v' => docs_clash (Adts.variant_docs v) (Adts.variant_docs v') \/
      exists i a a', Adts.variant_args v !! i = Some a /\ Adts.variant_args v' !! i = Some a' /\ args_clash a a'
  end.
Proof.
  unfold merge_variant. fold (variant_named (Adts.variant_name v) source). destruct (variant_named _ _) as [v'|]; [|apply fails_Err].
  rewrite (fails_bind _ _ (fails (merge_zip (merge_arg adt (Adts.variant_name v)) 0 (Adts.variant_args v) (Adts.variant_args v')))).
  - rewrite fails_merge_docs, fails_merge_zip. by setoid_rewrite fails_merge_arg.
  - intros x. rewrite (fails_bind _ _ False); [tauto|]. intros. apply fails_Ok.
Qed.

Lemma fails_merge d d' : fails (merge_adt_docs d d') <-> disagree d d'.
Proof.
  unfold merge_adt_docs, adt_shape_eq. case_bool_decide as Hs; simpl.
  2:{ rewrite fails_Err. split; [intros _|done]. by apply disagree_shape. }
  destruct (Nat.eqb_spec (length (adt_params d)) (length (adt_params d'))) as [Hl|Hl]; simpl.
  2:{ rewrite fails_Err. split; [intros _|done]. by apply disagree_parameter_count. }
  rewrite (fails_bind _ _ (fails (merge_zip (merge_param (adt_name d)) 0 (adt_params d) (adt_params d')) \/
    fails (map_result (merge_variant (adt_name d) (adt_variants d')) (adt_variants d)))).
  2:{ intros x. rewrite (fails_bind _ _ (fails (map_result (merge_variant (adt_name d) (adt_variants d')) (adt_variants d)))); [done|].
      intros y. rewrite (fails_bind _ _ False); [tauto|]. intros. apply fails_Ok. }
  rewrite fails_merge_docs, fails_merge_zip, fails_map. setoid_rewrite fails_merge_param.
  setoid_rewrite fails_merge_variant. split.
  - intros [?|[(i & p & p' & ? & ? & ?)|(v & Hv & Hf)]]; [by apply disagree_docs|by eapply disagree_parameter|].
    destruct (variant_named _ _) as [v'|] eqn:Hn; [|by eapply disagree_variants].
    destruct Hf as [?|(i & a & a' & ? & ? & ?)]; [by eapply disagree_variant_docs|by eapply disagree_argument].
  - intros [?|?|?|i p p' ???|v ? Hn|v v' ? Hn ?|v v' i a a' ? Hn ???]; [done|done|by left|..].
    + right; left. by exists i, p, p'.
    + right; right. exists v. by rewrite Hn.
    + right; right. exists v. rewrite Hn. auto.
    + right; right. exists v. rewrite Hn. split; [done|]. right. by exists i, a, a'.
Qed.

(** ** The declarations of a family *)

Definition named (unique : list (Symbol * AdtDecl)) : Prop :=
  btree unique /\ forall name adt, btree_get unique name = Some adt -> adt_name adt = name.

Lemma merge_adt_docs_name target source adt : merge_adt_docs target source = Ok adt -> adt_name adt = adt_name target.
Proof.
  unfold merge_adt_docs. destruct (negb _); [done|]. destruct (negb _); [done|].
  intros (docs & _ & (params & _ & (variants & _ & [= <-])%rbind_Ok)%rbind_Ok)%rbind_Ok. done.
Qed.

Lemma btree_insert_length {A} k (v : A) m : length (btree_insert k v m) <= S (length m).
Proof.
  induction m as [|[k' v'] m IH]; simpl; [done|]. case_decide; simpl; [lia|]. destruct (str_le k k'); simpl; lia.
Qed.

Lemma named_insert name adt unique : named unique -> adt_name adt = name -> named (btree_insert name adt unique).
Proof.
  intros [Hb Hn] Hname. split; [by apply btree_insert_btree|]. intros k a. rewrite btree_get_insert.
  case_decide; [intros [= <-]; congruence|apply Hn].
Qed.

Lemma unique_adts_named adts : forall acc unique,
  unique_adts adts acc = Ok unique -> named acc -> named unique /\ length unique <= length acc + length adts.
Proof.
  induction adts as [|adt adts IH]; intros acc unique; simpl; [intros [= <-] ?; split; [done|lia]|].
  intros (acc' & Hs & Hr)%rbind_Ok Ha.
  assert (named acc' /\ length acc' <= S (length acc)) as [Ha' Hl].
  { destruct (btree_get acc (adt_name adt)) as [existing|] eqn:He.
    - destruct (adt_shape_eq existing adt); [|done]. apply rbind_Ok in Hs as (merged & Hm & [= <-]).
      split; [|apply btree_insert_length]. apply named_insert; [done|]. rewrite (merge_adt_docs_name _ _ _ Hm). by apply Ha.
    - injection Hs as <-. split; [by apply named_insert|apply btree_insert_length]. }
  destruct (IH _ _ Hr Ha') as [? ?]. split; [done|lia].
Qed.

(** What the loop knows after the declarations [before]. *)
Definition knows (before : list AdtDecl) (known : list (Symbol * AdtDecl)) : Prop :=
  (forall name d, btree_get known name = Some d <-> merged before name d) /\
  forall d, d ∈ before -> is_Some (btree_get known (adt_name d)).

Definition one_more (d : AdtDecl) (known : list (Symbol * AdtDecl)) : result TypeError (list (Symbol * AdtDecl)) :=
  unique_adts [d] known.

Lemma unique_adts_app l l' known :
  unique_adts (l ++ l') known = (let? known := unique_adts l known in unique_adts l' known).
Proof.
  revert known. induction l as [|d l IH]; intros known; [done|]. simpl.
  destruct (match btree_get known (adt_name d) with Some _ => _ | None => _ end); simpl; [apply IH|done].
Qed.

Lemma merge_named_snoc first rest d m :
  merge_named first (rest ++ [d]) = Ok m <-> exists k, merge_named first rest = Ok k /\ merge_adt_docs k d = Ok m.
Proof.
  revert first. induction rest as [|d' rest IH]; intros first; simpl.
  - rewrite rbind_Ok. split; [intros (k & ? & [= <-]); by exists first|intros (k & [= <-] & ?); by exists m].
  - rewrite rbind_Ok. setoid_rewrite rbind_Ok. setoid_rewrite IH. naive_solver.
Qed.

Lemma merged_snoc before d name m :
  merged (before ++ [d]) name m <->
  if decide (adt_name d = name)
  then (same_name name before = [] /\ m = d) \/ exists k, merged before name k /\ merge_adt_docs k d = Ok m
  else merged before name m.
Proof.
  unfold merged, same_name. rewrite filter_app, filter_cons, filter_nil. case_decide as Hd; [|by rewrite app_nil_r].
  destruct (filter _ before) as [|first rest]; simpl.
  - split; [intros (? & ? & [= <- <-] & [= <-]); by left|].
    intros [[_ ->]|(k & (? & ? & [=] & _) & _)]. by exists d, [].
  - split.
    + intros (? & ? & [= <- <-] & Hm). apply merge_named_snoc in Hm as (k & ? & ?). right. exists k. split; [|done].
      by exists first, rest.
    + intros [[? _]|(k & (? & ? & [= <- <-] & Hk) & Hm)]; [done|]. exists first, (rest ++ [d]). split; [done|].
      apply merge_named_snoc. by exists k.
Qed.

Lemma merged_same before d m :
  merged (before ++ [d]) (adt_name d) m <->
  (same_name (adt_name d) before = [] /\ m = d) \/ exists k, merged before (adt_name d) k /\ merge_adt_docs k d = Ok m.
Proof. by rewrite merged_snoc, decide_True. Qed.

Lemma fails_one_more d known :
  fails (one_more d known) <-> exists existing, btree_get known (adt_name d) = Some existing /\ disagree existing d.
Proof.
  unfold one_more. simpl. destruct (btree_get known (adt_name d)) as [existing|]; simpl.
  2:{ rewrite fails_Ok. naive_solver. }
  assert (disagree existing d <-> exists e, Some existing = Some e /\ disagree e d) as <- by naive_solver.
  rewrite <- fails_merge. unfold merge_adt_docs. destruct (adt_shape_eq existing d); simpl; [|by rewrite !fails_Err].
  fold (merge_adt_docs existing d). rewrite (fails_bind _ _ False) by (intros; apply fails_Ok).
  rewrite (fails_bind _ _ False) by (intros; apply fails_Ok). tauto.
Qed.

Lemma knows_one_more before known d known' :
  knows before known -> one_more d known = Ok known' -> knows (before ++ [d]) known'.
Proof.
  intros [Hk Hall]. unfold one_more. simpl. intros (known1 & Hs & [= <-])%rbind_Ok.
  assert (Hempty : btree_get known (adt_name d) = None -> same_name (adt_name d) before = []).
  { intros Hn. destruct (same_name (adt_name d) before) as [|d' l] eqn:Hl; [done|]. exfalso.
    assert (d' ∈ same_name (adt_name d) before) as [Hd' Hin]%list_elem_of_filter by (rewrite Hl; by left).
    destruct (Hall d' Hin) as [? He]. congruence. }
  assert (exists m, known1 = btree_insert (adt_name d) m known /\ merged (before ++ [d]) (adt_name d) m /\
    forall m', merged (before ++ [d]) (adt_name d) m' -> m' = m) as (m & -> & Hm & Huniq).
  { setoid_rewrite merged_same.
    destruct (btree_get known (adt_name d)) as [existing|] eqn:He.
    - destruct (adt_shape_eq existing d); [|done]. apply rbind_Ok in Hs as (m & Hm & [= <-]). exists m.
      apply Hk in He as He'. split_and!; [done|right; by exists existing|].
      intros m' [[Hnil _]|(k & Hk' & Hm')].
      + destruct He' as (? & ? & ? & _). congruence.
      + apply Hk in Hk'. congruence.
    - injection Hs as <-. exists d. split_and!; [done|left; auto|]. 
      intros m' [[_ ->]|(k & Hk' & _)]; [done|]. apply Hk in Hk'. congruence. }
  split.
  - intros name d'. rewrite btree_get_insert. case_decide as Hd.
    + subst name. split; [by intros [= <-]|]. intros H. f_equal. symmetry. by apply Huniq.
    + rewrite merged_snoc, decide_False by done. apply Hk.
  - intros d' [Hin| ->%list_elem_of_singleton]%elem_of_app; rewrite btree_get_insert; case_decide; by eauto.
Qed.

Lemma unique_adts_spec adts :
  match unique_adts adts [] with
  | Ok unique => knows adts unique /\ ~ conflicting adts
  | Err _ => conflicting adts
  end.
Proof.
  induction adts as [|d adts IH] using rev_ind.
  - split.
    + split; [|by intros d ?%not_elem_of_nil]. intros name d. split; [done|]. by intros (? & ? & [=] & _).
    + intros (before & d & after & known & Heq & _). by destruct before.
  - rewrite unique_adts_app. destruct (unique_adts adts []) as [known|e]; cbn [rbind].
    2:{ destruct IH as (before & d' & after & k & -> & ? & ?). exists before, d', (after ++ [d]), k.
        by rewrite <- app_assoc. }
    destruct IH as [Hk Hno]. change (unique_adts [d] known) with (one_more d known).
    destruct (one_more d known) as [known'|e] eqn:Hone.
    + split; [by eapply knows_one_more|]. intros (before & d' & after & k & Heq & Hm & Hdis).
      induction after as [|x after _] using rev_ind.
      * apply app_inj_tail in Heq as [<- <-]. assert (fails (one_more d known)) as [e He]; [|congruence].
        apply fails_one_more. exists k. split; [|done]. by apply Hk.
      * rewrite app_comm_cons, app_assoc in Heq. apply app_inj_tail in Heq as [-> <-]. apply Hno.
        by exists before, d', after, k.
    + assert (fails (one_more d known)) as (k & Hg & Hdis)%fails_one_more by by eexists.
      exists adts, d, [], k. split_and!; [done|by apply Hk|done].
Qed.

(** C38. The order of a family is a dependency order, and one is found whenever there
    is one. For every list of declarations and enough fuel [order_adt_family] ends. If
    a declaration disagrees with the earlier ones of its name - in shape, number or
    names of parameters, or a piece of documentation ([disagree]) - the answer is an
    error. Otherwise the declarations of each name merge into one, [unique], and either
    the answer holds each of these once, after every declaration of the family that it
    mentions; or it is an error, which happens exactly when some declaration of [unique]
    mentions itself, directly or through others, or uses a name at two arities. *)
Theorem order_adt_family_spec adts fuel :
  length adts < fuel ->
  exists r, order_adt_family fuel adts = Some r /\
    ((conflicting adts /\ fails r) \/
     (~ conflicting adts /\
      exists unique, btree unique /\ (forall name d, btree_get unique name = Some d <-> merged adts name d) /\
        (forall d, d ∈ adts -> is_Some (btree_get unique (adt_name d))) /\
        match r with
        | Ok ordered =>
            map (fun adt => (adt_name adt, adt)) ordered ≡ₚ unique /\
            (forall i adt b, ordered !! i = Some adt -> mentions unique (adt_name adt) b ->
               exists j adt', j < i /\ ordered !! j = Some adt' /\ adt_name adt' = b) /\
            ~ unorderable unique
        | Err _ => unorderable unique
        end)).
Proof.
  intros Hf. unfold order_adt_family. pose proof (unique_adts_spec adts) as Hspec.
  destruct (unique_adts adts []) as [unique|e] eqn:Hu; simpl.
  2:{ eexists. split; [done|]. left. split; [done|by eexists]. }
  destruct Hspec as [[Hmerged Hall'] Hno].
  destruct (unique_adts_named _ _ _ Hu) as [[Hb Hn] Hl]; [by split; [apply btree_nil|]|]. simpl in Hl.
  destruct (visit_all_ok unique Hn fuel (map fst unique) ([], [])) as (r & -> & Hr); [rewrite length_map; lia|done| |].
  { split; simpl; [done|constructor|by intros ? ?%not_elem_of_nil|by intros ? ?%not_elem_of_nil|done]. }
  destruct r as [[visited ordered]|]; simpl.
  2:{ eexists. split; [done|]. right. split; [done|]. by exists unique. }
  eexists. split; [done|]. right. split; [done|]. exists unique.
  do 3 (split; [done|]).
  destruct Hr as ([Hnames Honce Hfam Har Hbef] & _ & Hall). simpl in *.
  assert (NoDup (map adt_name ordered)) as Hnd by (rewrite <- Hnames; by apply NoDup_ListNoDup, NoDup_rev, NoDup_ListNoDup).
  assert (forall b, b ∈ map fst unique -> b ∈ map adt_name ordered) as Hord.
  { intros b Hbk. rewrite <- Hnames. apply list_elem_of_In, in_rev. rewrite rev_involutive. by apply list_elem_of_In, Hall. }
  split_and!.
  - apply NoDup_Permutation.
    + apply (NoDup_fmap_1 fst). change (NoDup (map fst (map (fun adt => (adt_name adt, adt)) ordered))). by rewrite map_map.
    + apply (NoDup_fmap_1 fst), (btree_NoDup _ Hb).
    + intros [name adt]. rewrite list_elem_of_fmap. split.
      * intros (adt' & [= -> ->] & Hin). apply btree_get_elem; [by apply btree_NoDup|]. by apply Hfam.
      * intros Hin. assert (name ∈ map fst unique) as Hk by (apply list_elem_of_fmap; by exists (name, adt)).
        apply Hord, list_elem_of_fmap in Hk as (adt' & -> & Hin'). exists adt'. split; [|done].
        apply Hfam in Hin'. apply btree_get_elem in Hin; [|by apply btree_NoDup]. rewrite Hin in Hin'. by injection Hin' as ->.
  - done.
  - assert (forall a b, tc (mentions unique) a b -> forall i adt, ordered !! i = Some adt -> adt_name adt = a ->
              exists j adt', j < i /\ ordered !! j = Some adt' /\ adt_name adt' = b) as Hlt.
    { induction 1 as [a b Hm|a b c Hm _ IH]; intros i adt Hi <-; [by eapply Hbef|].
      destruct (Hbef i adt b Hi Hm) as (j & adt' & ? & Hj & Hb'). destruct (IH j adt' Hj Hb') as (k & adt'' & ? & ? & ?).
      exists k, adt''. split_and!; [lia|done|done]. }
    intros [(name & adt & Hg & Ht)|(name & Hc)].
    { assert (adt ∈ ordered) as Hin; [|by apply (Har adt Hin)].
      assert (name ∈ map adt_name ordered) as (adt' & -> & Hin)%list_elem_of_fmap by by eapply Hord, in_keys.
      rewrite (Hfam adt' Hin) in Hg. by injection Hg as <-. }
    assert (name ∈ map adt_name ordered) as (adt & Hname & Hin)%list_elem_of_fmap.
    { apply Hord. assert (exists b, mentions unique name b) as (b & adt & t & n & Hg & _) by (inversion Hc; eauto).
      by eapply in_keys. }
    apply list_elem_of_lookup in Hin as (i & Hi). destruct (Hlt name name Hc i adt Hi (eq_sym Hname)) as (j & adt' & Hj & Hi' & Hname').
    assert (i = j) as ->; [|lia]. eapply NoDup_lookup; [exact Hnd| |].
    + rewrite list_lookup_fmap, Hi. simpl. by rewrite <- Hname.
    + rewrite list_lookup_fmap, Hi'. simpl. by rewrite Hname'.
Qed.

(** A workflow mentions steps, which mention resources. *)
Definition demo_family : list AdtDecl :=
  let adt name args := mkAdtDecl name [] [mkAdtVariant name (map AdtArgument_positional args) None] None in
  [adt "Workflow" [Type_list (Type_con "Step" 0); Type_con "Resource" 0]; adt "Step" [Type_con "Resource" 0];
   adt "Resource" [ty_builtin String_]].

Lemma order_adt_family_spec_witness :
  3 < 4 /\
  (match order_adt_family 4 demo_family with Some (Ok ordered) => map adt_name ordered = ["Resource"; "Step"; "Workflow"] | _ => False end) /\
  exists r, order_adt_family 4 demo_family = Some r /\
    ((conflicting demo_family /\ fails r) \/
     (~ conflicting demo_family /\
      exists unique, btree unique /\ (forall name d, btree_get unique name = Some d <-> merged demo_family name d) /\
        (forall d, d ∈ demo_family -> is_Some (btree_get unique (adt_name d))) /\
        match r with
        | Ok ordered =>
            map (fun adt => (adt_name adt, adt)) ordered ≡ₚ unique /\
            (forall i adt b, ordered !! i = Some adt -> mentions unique (adt_name adt) b ->
               exists j adt', j < i /\ ordered !! j = Some adt' /\ adt_name adt' = b) /\
            ~ unorderable unique
        | Err _ => unorderable unique
        end)).
Proof. split; [lia|]. split; [by vm_compute|]. apply (order_adt_family_spec demo_family 4). simpl. lia. Defined.

(** A family in a cycle is refused. *)
Example cyclic_family :
  let adt name arg := mkAdtDecl name [] [mkAdtVariant name [AdtArgument_positional (Type_con arg 0)] None] None in
  order_adt_family 3 [adt "A" "B"; adt "B" "A"]
    = Some (Err (Internal "cyclic ADT auto-registration is not supported yet: A -> B -> A")).
Proof. by vm_compute. Qed.
