(* ===== verification/TypeDecls.v ===== *)
(** The state of the type system and the declarations of types, classes and
    instances: [TypeSystem] of [rex-typesystem/src/typesystem.rs].

    A method of [TypeSystem] is a computation on its state: after an error the state
    is what the code leaves behind. *)

From stdpp Require Import sorting.
From S2P Require Import Prelude Span Types BTree Unify UnifyComplete Unifier.
From S2P Require Import Syntax Ast Adts TypedExprs TypeEnv TypeClasses Infer AdtFamily.

(** [limits] is [max_infer_depth], the only limit. *)
Record TypeSystem : Type := mkTypeSystem {
  ts_env : TypeEnv;
  ts_classes : ClassEnv;
  ts_adts : gmap Symbol AdtDecl;
  ts_aliases : gmap Symbol TypeAlias;
  ts_class_info : gmap Symbol ClassInfo;
  ts_class_methods : gmap Symbol ClassMethodInfo;
  ts_declared_values : gset Symbol;
  ts_supply : TypeVarSupply;
  ts_limits : option nat
}.

Definition TypeSystem_new : TypeSystem :=
  mkTypeSystem TypeEnv_new ClassEnv_new ∅ ∅ ∅ ∅ ∅ TypeVarSupply_new (Some 4096).

Definition with_env (f : TypeEnv -> TypeEnv) (s : TypeSystem) : TypeSystem :=
  mkTypeSystem (f (ts_env s)) (ts_classes s) (ts_adts s) (ts_aliases s) (ts_class_info s) (ts_class_methods s)
    (ts_declared_values s) (ts_supply s) (ts_limits s).
Definition with_classes (f : ClassEnv -> ClassEnv) (s : TypeSystem) : TypeSystem :=
  mkTypeSystem (ts_env s) (f (ts_classes s)) (ts_adts s) (ts_aliases s) (ts_class_info s) (ts_class_methods s)
    (ts_declared_values s) (ts_supply s) (ts_limits s).
Definition with_adts (f : gmap Symbol AdtDecl -> gmap Symbol AdtDecl) (s : TypeSystem) : TypeSystem :=
  mkTypeSystem (ts_env s) (ts_classes s) (f (ts_adts s)) (ts_aliases s) (ts_class_info s) (ts_class_methods s)
    (ts_declared_values s) (ts_supply s) (ts_limits s).
Definition with_aliases (f : gmap Symbol TypeAlias -> gmap Symbol TypeAlias) (s : TypeSystem) : TypeSystem :=
  mkTypeSystem (ts_env s) (ts_classes s) (ts_adts s) (f (ts_aliases s)) (ts_class_info s) (ts_class_methods s)
    (ts_declared_values s) (ts_supply s) (ts_limits s).
Definition with_class_info (f : gmap Symbol ClassInfo -> gmap Symbol ClassInfo) (s : TypeSystem) : TypeSystem :=
  mkTypeSystem (ts_env s) (ts_classes s) (ts_adts s) (ts_aliases s) (f (ts_class_info s)) (ts_class_methods s)
    (ts_declared_values s) (ts_supply s) (ts_limits s).
Definition with_class_methods (f : gmap Symbol ClassMethodInfo -> gmap Symbol ClassMethodInfo) (s : TypeSystem) : TypeSystem :=
  mkTypeSystem (ts_env s) (ts_classes s) (ts_adts s) (ts_aliases s) (ts_class_info s) (f (ts_class_methods s))
    (ts_declared_values s) (ts_supply s) (ts_limits s).
Definition with_declared (f : gset Symbol -> gset Symbol) (s : TypeSystem) : TypeSystem :=
  mkTypeSystem (ts_env s) (ts_classes s) (ts_adts s) (ts_aliases s) (ts_class_info s) (ts_class_methods s)
    (f (ts_declared_values s)) (ts_supply s) (ts_limits s).
Definition with_supply (f : TypeVarSupply -> TypeVarSupply) (s : TypeSystem) : TypeSystem :=
  mkTypeSystem (ts_env s) (ts_classes s) (ts_adts s) (ts_aliases s) (ts_class_info s) (ts_class_methods s)
    (ts_declared_values s) (f (ts_supply s)) (ts_limits s).

Definition set_limits (limits : option nat) (s : TypeSystem) : TypeSystem :=
  mkTypeSystem (ts_env s) (ts_classes s) (ts_adts s) (ts_aliases s) (ts_class_info s) (ts_class_methods s)
    (ts_declared_values s) (ts_supply s) limits.

(** * Computations on the state *)

Abbreviation checking A := (stateful TypeSystem A).

Definition asks {A} (f : TypeSystem -> A) : checking A := fun s => Some (Ok (f s), s).
Definition changes (f : TypeSystem -> TypeSystem) : checking unit := fun s => Some (Ok tt, f s).
Definition supplies {A} (f : TypeVarSupply -> A * TypeVarSupply) : checking A :=
  fun s => let '(a, supply) := f (ts_supply s) in Some (Ok a, with_supply (fun _ => supply) s).
Definition supplies_result {A} (f : TypeVarSupply -> result TypeError A * TypeVarSupply) : checking A :=
  fun s => let '(a, supply) := f (ts_supply s) in Some (a, with_supply (fun _ => supply) s).

Definition when (b : bool) (e : TypeError) : checking unit := if b then rthrow e else rret tt.

(** [for x in l { f(x)?; }] *)
Fixpoint for_each {S A} (f : A -> stateful S unit) (l : list A) : stateful S unit :=
  match l with
  | [] => rret tt
  | x :: l => let~ _ := f x in for_each f l
  end.

Definition fresh_type_var (name : option Symbol) : checking TypeVar := supplies (fresh name).

(** * Values *)

Definition add_value (name : Symbol) (scheme : Scheme) (s : TypeSystem) : TypeSystem :=
  with_env (extend name scheme) (with_declared (fun d => d ∖ {[ name ]}) s).

Definition add_overload (name : Symbol) (scheme : Scheme) (s : TypeSystem) : TypeSystem :=
  with_env (extend_overload name scheme) (with_declared (fun d => d ∖ {[ name ]}) s).

Definition register_instance (class : Symbol) (inst : Instance_) (s : TypeSystem) : TypeSystem :=
  with_classes (add_instance class inst) s.

(** [scheme_compatible] of [unification.rs]: the types unify, and then the predicates
    are the same, as they are printed. *)
Definition shown_preds (preds : list Predicate) : list (Symbol * string) :=
  sort_by_key fst (sort_by_key snd (map (fun p => (pred_class p, show_ty (pred_typ p))) preds)).

Definition scheme_compatible (existing declared : Scheme) : bool :=
  match unify_types (scheme_typ existing) (scheme_typ declared) with
  | Err _ => false
  | Ok s =>
      bool_decide (shown_preds (map (Predicate_apply s) (scheme_preds existing))
                   = shown_preds (map (Predicate_apply s) (scheme_preds declared)))
  end.

(** [values.iter_mut().find(p)], changed by [f]. *)
Fixpoint update_first {A} (p : A -> bool) (f : A -> A) (l : list A) : option (list A) :=
  match l with
  | [] => None
  | x :: l => if p x then Some (f x :: l) else (cons x) <$> update_first p f l
  end.

Definition set_values (name : Symbol) (values : list RegisteredValue) (env : TypeEnv) : TypeEnv :=
  mkTypeEnv (<[name := values]> (env_values env)) (env_type_vars env).

Definition unifies (t1 t2 : ty) : bool := match unify_types t1 t2 with Ok _ => true | Err _ => false end.

Definition register_value_scheme (name : Symbol) (value : RegisteredValue) (env : TypeEnv) : TypeEnv :=
  match TypeEnv_lookup env name with
  | None => extend_registered name value env
  | Some existing =>
      if existsb (fun r => unifies (scheme_typ (value_scheme r)) (scheme_typ (value_scheme value))) existing
      then env
      else extend_registered_overload name value env
  end.

Definition register_constructor_value (name : Symbol) (value : RegisteredValue) (env : TypeEnv) : TypeEnv :=
  let found :=
    existing ← TypeEnv_lookup env name;
    update_first (fun current => scheme_compatible (value_scheme current) (value_scheme value))
      (fun current => mkRegistered (value_scheme current) (value_params value) (value_docs value)) existing in
  match found with
  | Some values => set_values name values env
  | None => register_value_scheme name value env
  end.

(** * Types *)

Definition set_adt (adt : AdtDecl) : TypeSystem -> TypeSystem := with_adts (<[adt_name adt := adt]>).

Definition register_constructor (adt : AdtDecl) (c : Symbol * Scheme * AdtVariant) (env : TypeEnv) : TypeEnv :=
  let '(name, scheme, variant) := c in
  let value := mkRegistered scheme
    (imap (fun index _ => "arg" +:+ pretty index) (Adts.variant_args variant)) (Adts.variant_docs variant) in
  register_constructor_value (compatibility_constructor_name (adt_name adt) (Adts.variant_name variant)) value
    (register_constructor_value name value env).

Definition register_constructors (adt : AdtDecl) (env : TypeEnv) : TypeEnv :=
  foldl (fun env c => register_constructor adt c env) env (zip (constructor_schemes adt) (adt_variants adt)).

(** A header, which has no variants, is replaced; otherwise the documentation is
    merged. *)
Definition register_adt (adt : AdtDecl) : checking unit :=
  let~ existing := asks (fun s => ts_adts s !! adt_name adt) in
  let~ registered :=
    match existing with
    | Some existing =>
        if bool_decide (adt_variants existing = []) && negb (bool_decide (adt_variants adt = [])) then rret adt
        else pure_result (merge_adt_docs existing adt)
    | None => rret adt
    end in
  let~ _ := changes (with_adts (<[adt_name adt := registered]>)) in
  changes (with_env (register_constructors registered)).

Definition copy_type_param_docs (target : list AdtParam) (source : list TypeParam) : list AdtParam :=
  zip_with (fun (t : AdtParam) (p : TypeParam) => mkAdtParam (Adts.param_name t) (param_var t) (Ast.param_docs p)) target source
  ++ drop (length source) target.

Definition register_type_decl_header (decl : TypeDecl) : checking unit :=
  let name := type_decl_name decl in
  let~ _ := when (bool_decide (is_Some (from_name name))) (ReservedTypeName name) in
  let~ known := asks (fun s => bool_decide (is_Some (ts_adts s !! name)) || bool_decide (is_Some (ts_aliases s !! name))) in
  let~ _ := when known (DuplicateType name) in
  let param_names := map Ast.param_name (type_decl_params decl) in
  match type_decl_kind decl with
  | Alias _ =>
      let~ alias := supplies (TypeAlias_new name param_names (type_decl_docs decl)) in
      let alias := mkTypeAlias (alias_name alias) (copy_type_param_docs (alias_params alias) (type_decl_params decl))
                     (alias_typ alias) (alias_docs alias) in
      changes (with_aliases (<[name := alias]>))
  | Adt _ =>
      let~ adt := supplies (AdtDecl_new name param_names) in
      changes (with_adts (<[name := mkAdtDecl (adt_name adt) (copy_type_param_docs (adt_params adt) (type_decl_params decl))
                                      (adt_variants adt) (type_decl_docs decl)]>))
  end.

Definition type_arity (s : TypeSystem) (decl : TypeDecl) (name : Symbol) : option nat :=
  if decide (type_decl_name decl = name) then Some (length (type_decl_params decl))
  else match ts_adts s !! name with
       | Some adt => Some (length (adt_params adt))
       | None =>
           match ts_aliases s !! name with
           | Some alias => Some (length (alias_params alias))
           | None => builtin_arity <$> from_name name
           end
       end.

(** [type_from_expr] reads the state only. *)
Fixpoint type_from_expr (s : TypeSystem) (decl : TypeDecl) (params : gmap Symbol TypeVar) (expr : TypeExpr)
    : result TypeError ty :=
  let go := type_from_expr s decl params in
  spanned (TypeExpr_span expr)
    match expr with
    | TyName _ name =>
        let name_sym := to_dotted_symbol name in
        match params !! name_sym with
        | Some tv => Ok (TVar tv)
        | None =>
            let name := normalize_type_name name_sym in
            match type_arity s decl name with
            | Some arity => Ok (Type_con name arity)
            | None => Err (UnknownTypeName name)
            end
        end
    | TyApp _ f arg =>
        let? fty := go f in
        let? aty := go arg in
        Ok (type_app_with_result_syntax fty aty)
    | TyFun _ arg ret =>
        let? arg_ty := go arg in
        let? ret_ty := go ret in
        Ok (TFun arg_ty ret_ty)
    | TyTuple _ elems =>
        let? out := map_result go elems in
        Ok (TTuple out)
    | TyRecord _ fields =>
        let? out := map_result (fun f => let? t := go f.1.2 in Ok (f.1.1, t)) fields in
        Ok (Type_record out)
    end.

Definition param_map (params : list AdtParam) : gmap Symbol TypeVar :=
  foldl (fun m p => <[Adts.param_name p := param_var p]> m) ∅ params.

Section Fuel.
Variable fuel : nat.

Definition checked_type (decl : TypeDecl) (params : gmap Symbol TypeVar) (expr : TypeExpr) : checking ty :=
  let~ t := (fun s => pure_result (type_from_expr s decl params expr) s) in
  let~ aliases := asks ts_aliases in
  pure_fueled (expand_type_aliases fuel aliases t).

Definition argument_from_decl (decl : TypeDecl) (params : gmap Symbol TypeVar) (arg : TypeVariantArg) : checking AdtArgument :=
  match arg_typ arg with
  | TyRecord _ fields =>
      let~ adt_fields := run_map (fun f =>
        let~ t := checked_type decl params f.1.2 in
        rret (mkAdtField f.1.1 t f.2)) fields in
      rret (RecordArgument adt_fields (arg_docs arg))
  | typ =>
      let~ t := checked_type decl params typ in
      rret (Positional t (arg_docs arg))
  end.

Definition adt_from_decl (decl : TypeDecl) : checking AdtDecl :=
  let name := type_decl_name decl in
  match type_decl_kind decl with
  | Alias _ => rthrow (Internal ("type alias `" +:+ name +:+ "` cannot be converted to an ADT"))
  | Adt variants =>
      let~ adt := supplies (AdtDecl_new name (map Ast.param_name (type_decl_params decl))) in
      let params := copy_type_param_docs (adt_params adt) (type_decl_params decl) in
      let~ variants := run_map (fun v : TypeVariant =>
        let~ args := run_map (argument_from_decl decl (param_map params)) (Ast.variant_args v) in
        rret (mkAdtVariant (Ast.variant_name v) args (Ast.variant_docs v))) variants in
      rret (mkAdtDecl (adt_name adt) params variants (type_decl_docs decl))
  end.

Definition missing_header (name : Symbol) : TypeError := Internal ("missing type alias header `" +:+ name +:+ "`").

(** The body of an alias, in its header. *)
Definition resolve_alias (decl : TypeDecl) (alias_expr : TypeExpr) : checking unit :=
  let name := type_decl_name decl in
  let~ alias := (fun s => ok_or (ts_aliases s !! name) (missing_header name) s) in
  let~ typ := (fun s => pure_result (type_from_expr s decl (param_map (alias_params alias)) alias_expr) s) in
  let~ alias := (fun s => ok_or (ts_aliases s !! name) (missing_header name) s) in
  changes (with_aliases (<[name := mkTypeAlias (alias_name alias) (alias_params alias) (Some typ) (alias_docs alias)]>)).

(** The alias applied to its parameters expands. *)
Definition check_alias (decl : TypeDecl) (params : list AdtParam) : checking unit :=
  let applied := foldl (fun t p => TApp t (TVar (param_var p)))
                   (Type_con (type_decl_name decl) (length (type_decl_params decl))) params in
  let~ aliases := asks ts_aliases in
  let~ _ := pure_fueled (expand_type_aliases fuel aliases applied) in
  rret tt.

Definition is_alias (decl : TypeDecl) : bool := match type_decl_kind decl with Alias _ => true | Adt _ => false end.

(** The headers of a batch; [seen] is the set of the names before. *)
Fixpoint register_type_headers (decls : list TypeDecl) (seen : list Symbol) : checking unit :=
  match decls with
  | [] => rret tt
  | decl :: decls =>
      let name := type_decl_name decl in
      let~ _ := spanning (type_decl_span decl)
        (let~ _ := when (bool_decide (name ∈ seen)) (DuplicateType name) in
         register_type_decl_header decl) in
      register_type_headers decls (name :: seen)
  end.

Definition register_type_decls (decls : list TypeDecl) : checking (list AdtDecl) :=
  let~ _ := register_type_headers decls [] in
  let~ _ := for_each (fun decl =>
    match type_decl_kind decl with Alias alias_expr => resolve_alias decl alias_expr | Adt _ => rret tt end) decls in
  let~ _ := for_each (fun decl =>
    let name := type_decl_name decl in
    if is_alias decl then
      let~ alias := (fun s => ok_or (ts_aliases s !! name) (Internal ("missing type alias `" +:+ name +:+ "`")) s) in
      spanning (type_decl_span decl) (check_alias decl (alias_params alias))
    else rret tt) decls in
  run_map (fun decl =>
    let~ adt := adt_from_decl decl in
    let~ _ := register_adt adt in
    rret adt) (filter (fun decl => is_alias decl = false) decls).

Definition register_type_decl (decl : TypeDecl) : checking unit :=
  let name := type_decl_name decl in
  let~ _ := register_type_decl_header decl in
  match type_decl_kind decl with
  | Alias alias_expr =>
      let~ alias := (fun s => ok_or (ts_aliases s !! name) (missing_header name) s) in
      let~ _ := resolve_alias decl alias_expr in
      check_alias decl (alias_params alias)
  | Adt _ =>
      let~ adt := adt_from_decl decl in
      register_adt adt
  end.
End Fuel.
