(* ===== verification/ClassDecls.v ===== *)
(** Class and instance declarations: the methods of [TypeSystem] that register them
    ([rex-typesystem/src/typesystem.rs]). *)

From stdpp Require Import sorting.
From S2P Require Import Prelude Span Types BTree Unify UnifyComplete Unifier.
From S2P Require Import Syntax Ast Adts TypedExprs TypeEnv TypeClasses Infer AdtFamily TypeDecls.

(** * Classes *)

Definition register_class_decl_header (decl : ClassDecl) : checking unit :=
  let name := class_name decl in
  let~ known := asks (fun s => bool_decide (is_Some (ts_class_info s !! name))
                               || bool_decide (is_Some (class_supers (ts_classes s) !! name))) in
  let~ _ := when known (DuplicateClass name) in
  let~ _ := when (bool_decide (class_params decl = [])) (InvalidClassArity name (length (class_params decl))) in
  changes (with_classes (add_class name [])).

Definition tv_le (a b : TypeVar) : Prop := tv_id a <= tv_id b.

#[export] Instance tv_le_dec : RelDecision tv_le.
Proof. intros a b. unfold tv_le. apply _. Defined.

(** The values of a map of type variables, sorted by identifier. *)
Definition sorted_type_vars (vars : gmap Symbol TypeVar) : list TypeVar :=
  merge_sort tv_le (map_values vars).

(** [dedup_by_key]: of neighbours with one identifier the first is kept. *)
Fixpoint dedup_by_id (l : list TypeVar) : list TypeVar :=
  match l with
  | x :: ((y :: _) as l') =>
      if decide (tv_id x = tv_id y) then match dedup_by_id l' with _ :: rest => x :: rest | [] => [x] end
      else x :: dedup_by_id l'
  | l => l
  end.

(** A variable for each parameter of a class. *)
Fixpoint class_param_vars (params : list Symbol) (vars : gmap Symbol TypeVar) : checking (gmap Symbol TypeVar * list TypeVar) :=
  match params with
  | [] => rret (vars, [])
  | param :: params =>
      let~ tv := fresh_type_var (Some param) in
      let~ (vars, tvs) := class_param_vars params (<[param := tv]> vars) in
      rret (vars, tv :: tvs)
  end.

Definition extend_type_params_in (params : list Symbol) (vars : gmap Symbol TypeVar) : checking (gmap Symbol TypeVar) :=
  supplies_result (fun supply =>
    let '(r, vars, supply) := extend_type_params params vars supply in ((let? _ := r in Ok vars), supply)).

Section Fuel.
Variable fuel : nat.

Definition annotation_in (expr : TypeExpr) (vars : gmap Symbol TypeVar) : checking ty :=
  fun s => pure_fueled (type_from_annotation fuel (ts_adts s) (ts_aliases s) expr vars) s.

Definition constraints_in (constraints : list TypeConstraint) (vars : gmap Symbol TypeVar) : checking (list Predicate) :=
  fun s => pure_fueled (predicates_from_constraints fuel (ts_adts s) (ts_aliases s) constraints vars) s.

(** Only superclasses of the form [C a] are accepted, [a] the parameter. *)
Definition superclass_of (param : Symbol) (sup : TypeConstraint) : checking Symbol :=
  let~ param_tv := fresh_type_var (Some param) in
  let~ sup_ty := annotation_in (constraint_typ sup) {[ param := param_tv ]} in
  let~ _ := when (negb (bool_decide (sup_ty = TVar param_tv)))
              (UnsupportedExpr "superclass constraints must be of the form `<= C a`") in
  rret (to_dotted_symbol (constraint_class sup)).

Definition class_predicate (name : Symbol) (param_tvs : list TypeVar) : Predicate :=
  mkPredicate name match param_tvs with
                   | [tv] => TVar tv
                   | _ => TTuple (map TVar param_tvs)
                   end.

Definition method_docs_of (decl : ClassDecl) (name : Symbol) : option string :=
  method ← find (fun m => bool_decide (Ast.method_name m = name)) (Ast.class_methods decl);
  Ast.method_docs method.

(** The loop over the methods of a class; [methods] are the ones before. *)
Fixpoint register_methods (decl : ClassDecl) (sigs : list ClassMethodSig) (methods : list (Symbol * Scheme))
    : checking (list (Symbol * Scheme)) :=
  match sigs with
  | [] => rret methods
  | sig :: sigs =>
      let name := Ast.method_name sig in
      let~ known := asks (fun s => bool_decide (is_Some (TypeEnv_lookup (ts_env s) name))
                                   || bool_decide (is_Some (ts_class_methods s !! name))) in
      let~ _ := when known (DuplicateClassMethod name) in
      let~ (vars, param_tvs) := class_param_vars (class_params decl) ∅ in
      let~ vars := extend_type_params_in (method_type_params sig) vars in
      let~ t := annotation_in (method_typ sig) vars in
      let scheme := mkScheme (dedup_by_id (sorted_type_vars vars)) [class_predicate (class_name decl) param_tvs] t in
      let docs := method_docs_of decl name in
      let~ _ := changes (with_env (extend_registered name (mkRegistered scheme [] docs))) in
      let~ _ := changes (with_class_methods (<[name := mkClassMethodInfo (class_name decl) scheme docs]>)) in
      register_methods decl sigs (btree_insert name scheme methods)
  end.

Definition register_class_decl_body (decl : ClassDecl) : checking unit :=
  spanning (class_span decl)
    (let name := class_name decl in
     let params := class_params decl in
     let~ known := asks (fun s => bool_decide (is_Some (ts_class_info s !! name))) in
     let~ _ := when known (DuplicateClass name) in
     let~ _ := when (negb (bool_decide (Ast.class_supers decl = [])) && negb (Nat.eqb (length params) 1))
                 (UnsupportedExpr "multi-parameter classes cannot declare superclasses yet") in
     let~ supers := run_map (superclass_of (hd "" params)) (Ast.class_supers decl) in
     let~ _ := changes (with_classes (add_class name supers)) in
     let~ methods := register_methods decl (Ast.class_methods decl) [] in
     changes (with_class_info (<[name := mkClassInfo name params supers methods (class_docs decl)]>))).

Definition register_class_decl (decl : ClassDecl) : checking unit :=
  spanning (class_span decl)
    (let~ _ := register_class_decl_header decl in
     register_class_decl_body decl).

Fixpoint register_class_headers (decls : list ClassDecl) (seen : list Symbol) : checking unit :=
  match decls with
  | [] => rret tt
  | decl :: decls =>
      let name := class_name decl in
      let~ _ := spanning (class_span decl)
        (let~ _ := when (bool_decide (name ∈ seen)) (DuplicateClass name) in
         register_class_decl_header decl) in
      register_class_headers decls (name :: seen)
  end.

Definition register_class_decls (decls : list ClassDecl) : checking unit :=
  let~ _ := register_class_headers decls [] in
  for_each register_class_decl_body decls.

(** * Instances *)

Record PreparedInstanceDecl : Type := mkPreparedInstance {
  prepared_span : Span;
  prepared_class : Symbol;
  prepared_head : ty;
  prepared_context : list Predicate;
  prepared_type_vars : gmap Symbol TypeVar
}.

(** The methods of an instance are those of its class. *)
Definition check_instance_methods (decl : InstanceDecl) (info : ClassInfo) : result TypeError unit :=
  let class := instance_class decl in
  match find (fun m => bool_decide (btree_get (info_methods info) (impl_name m) = None)) (instance_methods decl) with
  | Some m => Err (UnknownInstanceMethod class (impl_name m))
  | None =>
      match find (fun name => negb (existsb (fun m => bool_decide (impl_name m = name)) (instance_methods decl)))
              (map fst (info_methods info)) with
      | Some name => Err (MissingInstanceMethod class name)
      | None => Ok tt
      end
  end.

(** What [register_instance_decl] and [prepare_instance_decl] share. *)
Definition prepare_instance (decl : InstanceDecl) : checking PreparedInstanceDecl :=
  let class := instance_class decl in
  let~ known := asks (fun s => bool_decide (is_Some (ts_class_info s !! class))
                               || bool_decide (is_Some (TypeClasses.class_supers (ts_classes s) !! class))) in
  let~ _ := when (negb known) (UnknownClass class) in
  let~ vars := supplies_result (type_vars_from_params (instance_type_params decl)) in
  let~ head := annotation_in (instance_head decl) vars in
  let~ context := constraints_in (instance_context decl) vars in
  let~ info := asks (fun s => ts_class_info s !! class) in
  let~ _ := match info with
            | Some info => pure_result (check_instance_methods decl info)
            | None => rret tt
            end in
  rret (mkPreparedInstance (instance_span decl) class head context vars).

Definition prepare_instance_decl (decl : InstanceDecl) : checking PreparedInstanceDecl :=
  spanning (instance_span decl) (prepare_instance decl).

Definition register_instance_decl (decl : InstanceDecl) : checking PreparedInstanceDecl :=
  spanning (instance_span decl)
    (let~ prepared := prepare_instance decl in
     let inst := mkInstance (prepared_context prepared) (mkPredicate (instance_class decl) (prepared_head prepared))
                   (instance_docs decl) in
     let~ _ := changes (with_classes (add_instance (instance_class decl) inst)) in
     rret prepared).
End Fuel.
