(* ===== verification/FnDecls.v ===== *)
(** The entries of type inference ([infer_typed] and [infer] of
    [rex-typesystem/src/inference.rs]) and the declarations that it checks: functions,
    forward declarations and the methods of instances
    ([rex-typesystem/src/typesystem.rs]). *)

From stdpp Require Import sorting.
From S2P Require Import Prelude Span Types BTree Unify UnifyComplete Unifier.
From S2P Require Import Syntax Ast Adts TypedExprs TypeEnv TypeClasses LetRec Infer InferExpr InferType AdtFamily TypeDecls ClassDecls.

Section Fuel.
Variable fuel : nat.

(** * The entries of inference *)

(** An inference on the state: [infer_expr] from a new unifier, and the substitution
    of that unifier. *)
Definition with_unifier {A} (span : Span) (m : stateful Infer A) : checking (A * Subst) :=
  fun s =>
    match spanning span m (mkInfer (Unifier_new (ts_limits s)) (ts_supply s)) with
    | None => None
    | Some (Err e, st) => Some (Err e, with_supply (fun _ => i_supply st) s)
    | Some (Ok a, st) =>
        match into_subst fuel (i_unifier st) with
        | None => None
        | Some (r, _) => Some ((let? subst := r in Ok (a, subst)), with_supply (fun _ => i_supply st) s)
        end
    end.

Definition infer_typed (expr : Expr) : checking (TypedExpr * list Predicate * ty) :=
  let~ s := asks (fun s => s) in
  let~ (preds, t, typed, subst) :=
    with_unifier (Expr_span expr) (infer_expr (ts_adts s) (ts_aliases s) fuel (ts_env s) ∅ expr) in
  let typed := TypedExpr_apply subst typed in
  let preds := dedup_preds (map (Predicate_apply subst) preds) in
  let t := apply subst t in
  let~ _ := pure_result (check_predicate_kinds (ts_class_info s) preds) in
  let~ _ := pure_result (validate_literal_predicates preds) in
  rret (typed, preds, t).

Definition infer (expr : Expr) : checking (list Predicate * ty) :=
  let~ s := asks (fun s => s) in
  let~ (preds, t, subst) :=
    with_unifier (Expr_span expr) (infer_expr_type (ts_adts s) (ts_aliases s) fuel (ts_env s) ∅ expr) in
  let preds := dedup_preds (map (Predicate_apply subst) preds) in
  let t := apply subst t in
  let~ _ := pure_result (check_predicate_kinds (ts_class_info s) preds) in
  pure_result (finalize_infer_for_public_api preds t).

(** [infer_typed] with the type variables of a signature in scope. *)
Definition infer_in_scope (vars : gmap Symbol TypeVar) (expr : Expr) : checking (TypedExpr * list Predicate * ty) :=
  let~ saved := asks (fun s => env_type_vars (ts_env s)) in
  let~ _ := changes (with_env (set_type_vars vars)) in
  fun s => match infer_typed expr s with
           | None => None
           | Some (r, s) => Some (r, with_env (set_type_vars saved) s)
           end.

(** * Signatures *)

(** The type expression of a function with annotated parameters. *)
Definition signature (params : list (Var * TypeExpr)) (ret : TypeExpr) : TypeExpr :=
  foldr (fun p sig => TyFun (from_begin_end (begin (TypeExpr_span p.2)) (end_ (TypeExpr_span sig))) p.2 sig) ret params.

Definition signature_type (type_params : list Symbol) (params : list (Var * TypeExpr)) (ret : TypeExpr)
    (constraints : list TypeConstraint) : checking (gmap Symbol TypeVar * ty * list Predicate) :=
  let~ ann_vars := supplies_result (type_vars_from_params type_params) in
  let~ expected := annotation_in fuel (signature params ret) ann_vars in
  let~ declared_preds := constraints_in fuel constraints ann_vars in
  rret (ann_vars, expected, declared_preds).

(** The arity of a variable is the longest application that it heads in [expected]. *)
Definition var_arity (ann_vars : gmap Symbol TypeVar) (expected : ty) (arg : ty) : option nat :=
  match type_term_remaining_arity arg with
  | Some arity => Some arity
  | None =>
      match arg with
      | TVar tv =>
          if existsb (fun v => bool_decide (tv_id v = tv_id tv)) (map_values ann_vars)
          then Some (max_head_app_arity_for_var expected (tv_id tv)) else None
      | _ => None
      end
  end.

(** Declared constraints name known classes, at the arities of their parameters. *)
Definition check_declared_preds (ann_vars : gmap Symbol TypeVar) (expected : ty) (preds : list Predicate) : checking unit :=
  for_each (fun pred s =>
    (let~ _ := pure_fueled (entails fuel (ts_classes s) [] pred) in
     match expected_class_param_arities (ts_class_info s) (pred_class pred) with
     | None => rret tt
     | Some arities =>
         pure_result (check_arities (var_arity ann_vars expected) (pred_class pred) (predicate_args arities (pred_typ pred)))
     end) s) preds.

(** * Functions *)

Record PreparedFnDecl : Type := mkPreparedFn {
  prepared_decl : FnDecl;
  prepared_expected : ty;
  prepared_declared_preds : list Predicate;
  prepared_ann_vars : gmap Symbol TypeVar
}.

(** A computation that leaves the environment and the forward declarations as they
    were when it fails. *)
Definition rolling_back {A} (m : checking A) : checking A :=
  fun s =>
    match m s with
    | Some (Err e, s') => Some (Err e, with_env (fun _ => ts_env s) (with_declared (fun _ => ts_declared_values s) s'))
    | o => o
    end.

(** A name may be defined once; a forward declaration of it is removed. *)
Definition claim_name (name : Symbol) : checking unit :=
  let~ s := asks (fun s => s) in
  match TypeEnv_lookup (ts_env s) name with
  | None => rret tt
  | Some _ =>
      if decide (name ∈ ts_declared_values s)
      then changes (fun s => with_env (TypeEnv_remove name) (with_declared (fun d => d ∖ {[ name ]}) s))
      else rthrow (DuplicateValue name)
  end.

Definition prepare_fn_decl (seen : list Symbol) (decl : FnDecl) : checking (PreparedFnDecl * Scheme) :=
  let name := var_name (fn_name decl) in
  let~ _ := when (bool_decide (name ∈ seen)) (DuplicateValue name) in
  let~ _ := claim_name name in
  let~ (ann_vars, expected, declared_preds) :=
    signature_type (fn_type_params decl) (fn_params_ decl) (fn_ret decl) (fn_constraints decl) in
  let~ _ := check_declared_preds ann_vars expected declared_preds in
  let scheme := mkScheme (sorted_type_vars ann_vars) declared_preds expected in
  let~ _ := pure_result (reject_ambiguous_scheme scheme) in
  rret (mkPreparedFn decl expected declared_preds ann_vars, scheme).

Definition fn_value (decl : FnDecl) (scheme : Scheme) : RegisteredValue :=
  mkRegistered scheme (map (fun p => var_name p.1) (fn_params_ decl)) (fn_docs decl).

Fixpoint prepare_fn_decls (decls : list FnDecl) (seen : list Symbol) : checking (list (PreparedFnDecl * Scheme)) :=
  match decls with
  | [] => rret []
  | decl :: decls =>
      let~ info := spanning (fn_span decl) (prepare_fn_decl seen decl) in
      let~ infos := prepare_fn_decls decls (var_name (fn_name decl) :: seen) in
      rret (info :: infos)
  end.

(** All signatures are in scope of all bodies. *)
Definition register_fn_decl_signatures (decls : list FnDecl) : checking (list PreparedFnDecl) :=
  match decls with
  | [] => rret []
  | _ =>
      rolling_back
        (let~ infos := prepare_fn_decls decls [] in
         let~ _ := changes (with_env (fun env =>
           foldl (fun env info =>
             let decl := prepared_decl info.1 in
             extend_registered (var_name (fn_name decl)) (fn_value decl info.2) env) env infos)) in
         rret (map fst infos))
  end.

(** The body of a function as a lambda. A dictionary or a record update is annotated
    with the declared result, which tells records from dictionaries. *)
Definition fn_lambda (decl : FnDecl) : Expr :=
  let body := fn_body decl in
  let body :=
    match body with
    | XDict _ _ | XRecordUpdate _ _ _ => XAnn (Expr_span body) body (fn_ret decl)
    | _ => body
    end in
  foldr (fun p body =>
    XLam (from_begin_end (begin (var_span p.1)) (end_ (Expr_span body))) [] p.1 (Some p.2) [] body) body (fn_params_ decl).

Definition check_fn_decl_body (info : PreparedFnDecl) : checking unit :=
  let decl := prepared_decl info in
  spanning (fn_span decl)
    (let~ (typed, preds, inferred) := infer_in_scope (prepared_ann_vars info) (fn_lambda decl) in
     let~ s := pure_result (unify_types inferred (prepared_expected info)) in
     let preds := map (Predicate_apply s) preds in
     let declared_preds := map (Predicate_apply s) (prepared_declared_preds info) in
     let expected := apply s (prepared_expected info) in
     let~ _ := check_declared_preds (prepared_ann_vars info) expected declared_preds in
     fun s => pure_fueled (check_non_ground_predicates_declared fuel (ts_classes s) declared_preds preds) s).

Definition check_fn_decl_bodies (infos : list PreparedFnDecl) : checking unit := for_each check_fn_decl_body infos.

Definition register_fn_decls (decls : list FnDecl) : checking unit :=
  match decls with
  | [] => rret tt
  | _ =>
      rolling_back
        (let~ prepared := register_fn_decl_signatures decls in
         check_fn_decl_bodies prepared)
  end.

(** * Forward declarations *)

Definition declared_value (decl : DeclareFnDecl) (scheme : Scheme) : RegisteredValue :=
  mkRegistered scheme (map (fun p => var_name p.1) (declare_params decl)) (declare_docs decl).

(** The documentation and the parameters of the first value with a compatible scheme
    are completed. *)
Definition merge_metadata (decl : DeclareFnDecl) (scheme : Scheme) (values : list RegisteredValue)
    : result TypeError (list RegisteredValue) :=
  let compatible := fun value => scheme_compatible (value_scheme value) scheme in
  match find compatible values with
  | None => Ok values
  | Some value =>
      let? _ :=
        match value_docs value, declare_docs decl with
        | Some current, Some incoming =>
            if decide (current = incoming) then Ok tt
            else Err (Internal ("conflicting documentation for value `" +:+ var_name (declare_name decl) +:+ "`"))
        | _, _ => Ok tt
        end in
      Ok (default values (update_first compatible (fun value =>
            mkRegistered (value_scheme value)
              match value_params value with [] => map (fun p => var_name p.1) (declare_params decl) | ps => ps end
              match value_docs value with None => declare_docs decl | docs => docs end) values))
  end.

(** A real definition is left as it is, up to its documentation; a forward
    declaration may be repeated with a compatible signature. *)
Definition inject_declare_fn_decl (decl : DeclareFnDecl) : checking unit :=
  let name := var_name (declare_name decl) in
  spanning (declare_span decl)
    (let~ (ann_vars, expected, declared_preds) :=
       signature_type (declare_type_params decl) (declare_params decl) (declare_ret decl) (declare_constraints decl) in
     let scheme := mkScheme (sorted_type_vars ann_vars) declared_preds expected in
     let~ _ := pure_result (reject_ambiguous_scheme scheme) in
     let~ _ := for_each (fun pred s => (let~ _ := pure_fueled (entails fuel (ts_classes s) [] pred) in rret tt) s) declared_preds in
     let~ s := asks (fun s => s) in
     match TypeEnv_lookup (ts_env s) name with
     | Some existing =>
         if negb (bool_decide (name ∈ ts_declared_values s))
            || existsb (fun value => scheme_compatible (value_scheme value) scheme) existing
         then
           let~ values := pure_result (merge_metadata decl scheme existing) in
           changes (with_env (set_values name values))
         else rthrow (DuplicateValue name)
     | None =>
         let~ _ := changes (with_env (extend_registered name (declared_value decl scheme))) in
         changes (with_declared (fun d => {[ name ]} ∪ d))
     end).

(** * Methods of instances *)

Definition instantiate_class_method_for_head (class method : Symbol) (head : ty) : checking ty :=
  let~ info := (fun s => ok_or (ts_class_info s !! class) (UnknownClass class) s) in
  let~ scheme := ok_or (btree_get (info_methods info) method) (UnknownInstanceMethod class method) in
  let~ (preds, typ) := supplies (instantiate scheme) in
  let~ class_pred := ok_or (find (fun p => bool_decide (pred_class p = class)) preds)
                       (UnsupportedExpr "class method scheme missing class predicate") in
  let~ s := pure_result (unify_types (pred_typ class_pred) head) in
  rret (apply s typ).

(** A ground predicate follows from the givens and the instances; any other one is
    one of the givens. *)
Definition check_method_preds (given : list Predicate) (method : Symbol) (preds : list Predicate) : checking unit :=
  for_each (fun pred s =>
    (if bool_decide (ftv (pred_typ pred) = ∅) then
       let~ holds := pure_fueled (entails fuel (ts_classes s) given pred) in
       when (negb holds) (NoInstance (pred_class pred) (show_ty (pred_typ pred)))
     else
       when (negb (bool_decide (pred ∈ given)))
         (MissingInstanceConstraint method (pred_class pred) (show_ty (pred_typ pred)))) s) preds.

Definition typecheck_instance_method (prepared : PreparedInstanceDecl) (method : InstanceMethodImpl) : checking TypedExpr :=
  let~ method_type_vars := extend_type_params_in (impl_type_params method) (prepared_type_vars prepared) in
  let~ expected := instantiate_class_method_for_head (prepared_class prepared) (impl_name method) (prepared_head prepared) in
  let~ (typed, preds, actual) := infer_in_scope method_type_vars (impl_body method) in
  let~ (typed, preds, actual) :=
    match impl_ann method with
    | None => rret (typed, preds, actual)
    | Some ann =>
        let~ ann_ty := annotation_in fuel ann method_type_vars in
        let~ s := pure_result (unify_types actual ann_ty) in
        rret (TypedExpr_apply s typed, map (Predicate_apply s) preds, apply s actual)
    end in
  let~ s := pure_result (unify_types actual expected) in
  let typed := TypedExpr_apply s typed in
  let preds := map (Predicate_apply s) preds in
  let~ given := (fun st => match superclass_closure fuel (ts_classes st)
                               (prepared_context prepared ++ [mkPredicate (prepared_class prepared) (prepared_head prepared)]) with
                           | None => None
                           | Some given => Some (Ok given, st)
                           end) in
  let~ _ := check_method_preds given (impl_name method) preds in
  rret typed.

(** * A compilation unit *)

Definition decl_types (d : Decl) : list TypeDecl := match d with DType d => [d] | _ => [] end.
Definition decl_classes (d : Decl) : list ClassDecl := match d with DClass d => [d] | _ => [] end.
Definition decl_declares (d : Decl) : list DeclareFnDecl := match d with DDeclareFn d => [d] | _ => [] end.
Definition decl_fns (d : Decl) : list FnDecl := match d with DFn d => [d] | _ => [] end.
Definition decl_instances (d : Decl) : list InstanceDecl := match d with DInstance d => [d] | _ => [] end.

Definition register_decls (decls : list Decl) : checking unit :=
  let~ _ := register_type_decls fuel (decls ≫= decl_types) in
  let~ _ := register_class_decls fuel (decls ≫= decl_classes) in
  let~ _ := for_each inject_declare_fn_decl (decls ≫= decl_declares) in
  let~ prepared_fns := register_fn_decl_signatures (decls ≫= decl_fns) in
  let~ _ := for_each (fun decl => let~ _ := register_instance_decl fuel decl in rret tt) (decls ≫= decl_instances) in
  check_fn_decl_bodies prepared_fns.
End Fuel.
