(* ===== verification/Keeps.v ===== *)
(** What computations keep: a preorder between the states before and after, whatever
    the answer. Inference only moves the supply of type variables forward. *)

From S2P Require Import Prelude Span Types BTree Unify UnifyComplete Unifier.
From S2P Require Import Syntax Ast Adts TypedExprs TypeEnv TypeClasses LetRec Infer InferExpr InferType.

Definition keeps {S A} (R : S -> S -> Prop) (m : stateful S A) : Prop := forall s r s', m s = Some (r, s') -> R s s'.

Section Keeps.
Context {S : Type} (R : S -> S -> Prop) `{!PreOrder R}.

Lemma keeps_ret {A} (a : A) : keeps R (rret a).
Proof. intros s r s' [= _ <-]. reflexivity. Qed.

Lemma keeps_throw {A} e : keeps R (rthrow (A := A) e).
Proof. intros s r s' [= _ <-]. reflexivity. Qed.

Lemma keeps_stuck {A} : keeps R (no_fuel (A := A)).
Proof. by intros s r s'. Qed.

Lemma keeps_fueled {A} (m : fueled TypeError A) : keeps R (pure_fueled m).
Proof. intros s r s'. unfold pure_fueled. destruct m; [|done]. intros [= _ <-]. reflexivity. Qed.

Lemma keeps_result {A} (m : result TypeError A) : keeps R (pure_result m).
Proof. intros s r s' [= _ <-]. reflexivity. Qed.

Lemma keeps_ok_or {A} (o : option A) e : keeps R (ok_or o e).
Proof. destruct o; [apply keeps_ret|apply keeps_throw]. Qed.

Lemma keeps_then {A B} (m : stateful S A) (k : A -> stateful S B) :
  keeps R m -> (forall a, keeps R (k a)) -> keeps R (rthen m k).
Proof.
  intros Hm Hk s r s'. unfold rthen. destruct (m s) as [[[a|e] s1]|] eqn:E; [| |done].
  - intros H. etrans; [by eapply Hm|by eapply Hk].
  - intros [= _ <-]. by eapply Hm.
Qed.

Lemma keeps_spanning {A} span (m : stateful S A) : keeps R m -> keeps R (spanning span m).
Proof.
  intros Hm s r s'. unfold spanning. destruct (m s) as [[r1 s1]|] eqn:E; [|done]. intros [= _ <-]. by eapply Hm.
Qed.

Lemma keeps_map {A B} (f : A -> stateful S B) l : (forall a, keeps R (f a)) -> keeps R (run_map f l).
Proof.
  intros Hf. induction l as [|a l IH]; simpl; [apply keeps_ret|]. apply keeps_then; [done|]. intros b.
  apply keeps_then; [done|]. intros bs. apply keeps_ret.
Qed.

Lemma keeps_iter {A} (f : A -> stateful S unit) l : (forall a, keeps R (f a)) -> keeps R (run_iter f l).
Proof. intros Hf. induction l as [|a l IH]; simpl; [apply keeps_ret|]. by apply keeps_then. Qed.
End Keeps.

Create HintDb keeps.
#[export] Hint Resolve keeps_ret keeps_throw keeps_stuck keeps_fueled keeps_result keeps_ok_or keeps_spanning keeps_map keeps_iter : keeps.

(** Step through a computation. *)
Ltac keeping :=
  intros; repeat lazymatch goal with
    | |- keeps _ (rret _) => apply keeps_ret; apply _
    | |- keeps ?R (rthen _ _) => apply (keeps_then R); [|intros ?]
    | |- keeps ?R (run_map _ _) => apply (keeps_map R); intros ?
    | |- keeps ?R (run_iter _ _) => apply (keeps_iter R); intros ?
    | |- keeps ?R (spanning _ _) => apply (keeps_spanning R)
    | |- keeps _ (match _ with _ => _ end) => case_match
    | |- keeps _ _ => solve [auto with keeps typeclass_instances]
    end.

(** * Inference *)

Definition supply_le (s s' : Infer) : Prop := counter (i_supply s) <= counter (i_supply s').

#[export] Instance supply_le_preorder : PreOrder supply_le.
Proof. split; [by intros s; unfold supply_le|]. unfold supply_le. intros x y z ? ?. lia. Qed.

Abbreviation forward := (keeps supply_le).

Lemma forward_unifier {A} (m : stateful Unifier A) : forward (on_unifier m).
Proof. intros s r s'. unfold on_unifier. destruct (m _) as [[? ?]|]; [|done]. intros [= _ <-]. by unfold supply_le. Qed.

Lemma forward_supply {A} (f : TypeVarSupply -> A * TypeVarSupply) :
  (forall u, counter u <= counter (f u).2) -> forward (on_supply f).
Proof. intros Hf s r s'. unfold on_supply. specialize (Hf (i_supply s)). destruct (f _). by intros [= _ <-]. Qed.

Lemma instantiate_vars_forward vars : forall θ u, counter u <= counter (instantiate_vars vars θ u).2.
Proof. induction vars as [|v vars IH]; intros θ u; simpl; [done|]. etrans; [|apply IH]. simpl. lia. Qed.

Lemma instantiate_forward scheme u : counter u <= counter (instantiate scheme u).2.
Proof.
  unfold instantiate. pose proof (instantiate_vars_forward (scheme_vars scheme) ∅ u) as H. by destruct (instantiate_vars _ _ _).
Qed.

Lemma extend_type_params_forward params : forall vars u, counter u <= counter (extend_type_params params vars u).2.
Proof.
  induction params as [|p params IH]; intros vars u; simpl; [done|]. destruct (vars !! p); [done|]. etrans; [|apply IH]. simpl. lia.
Qed.

Lemma forward_fresh name : forward (fresh_var name).
Proof. apply forward_supply. intros u. simpl. lia. Qed.

Lemma forward_instantiate scheme : forward (instantiate_in scheme).
Proof. apply forward_supply, instantiate_forward. Qed.

Lemma forward_params params vars : forward (extend_params params vars).
Proof.
  intros s r s'. unfold extend_params. pose proof (extend_type_params_forward params vars (i_supply s)) as H.
  destruct (extend_type_params _ _ _) as [[? ?] ?]. by intros [= _ <-].
Qed.

Lemma forward_depth {A} span (m : stateful Infer A) : forward m -> forward (infer_depth_in span m).
Proof.
  intros Hm s r s'. unfold infer_depth_in, with_infer_depth.
  assert (forall u r1 st, m (mkInfer u (i_supply s)) = Some (r1, st) -> counter (i_supply s) <= counter (i_supply st)) as H.
  { intros u r1 st Hr. apply (Hm _ _ _ Hr). }
  destruct (max_infer_depth _); [destruct (_ <=? _)|];
    try (destruct (m _) as [[r1 st]|] eqn:E; [|done]); intros [= _ <-]; first [exact (H _ _ _ E) | unfold supply_le; simpl; lia].
Qed.

#[export] Hint Resolve forward_unifier forward_fresh forward_instantiate forward_params forward_depth : keeps.
#[export] Hint Unfold prune_type unify_in : keeps.

Lemma forward_prune fuel t : forward (prune_type fuel t).
Proof. apply forward_unifier. Qed.
Lemma forward_unify fuel a b : forward (unify_in fuel a b).
Proof. apply forward_unifier. Qed.
#[export] Hint Resolve forward_prune forward_unify : keeps.

Lemma forward_prune_pred fuel p : forward (prune_pred fuel p).
Proof. unfold prune_pred. keeping. Qed.
#[export] Hint Resolve forward_prune_pred : keeps.

Section Pieces.
Context (fuel : nat).

Lemma forward_widen t1 t2 : forward (unify_or_implicit_widen fuel t1 t2).
Proof. unfold unify_or_implicit_widen. keeping. Qed.
Lemma forward_coerce t1 t2 e : forward (coerce_typed_to_expected fuel t1 t2 e).
Proof. unfold coerce_typed_to_expected. keeping. Qed.
Lemma forward_hint t : forward (app_arg_hint fuel t).
Proof. unfold app_arg_hint. keeping. Qed.
Hint Resolve forward_hint : keeps.
Lemma forward_coerce_arg f t e : forward (coerce_app_arg_from_func_type fuel f t e).
Proof. unfold coerce_app_arg_from_func_type. keeping. Qed.
Lemma forward_coerce_arg_type f t : forward (coerce_app_arg_type_from_func_type fuel f t).
Proof. unfold coerce_app_arg_type_from_func_type. keeping. Qed.
Lemma forward_defaults P t : forward (default_literal_constraints_outside_type fuel P t).
Proof. unfold default_literal_constraints_outside_type. keeping. Qed.
Lemma forward_apply_scheme s : forward (apply_scheme_with_unifier fuel s).
Proof. unfold apply_scheme_with_unifier. keeping. Qed.
Lemma forward_generalize env P t : forward (generalize_with_unifier fuel env P t).
Proof. unfold generalize_with_unifier, env_ftv_with_unifier, scheme_ftv_with_unifier. keeping. Qed.
Lemma forward_mono P t : forward (monomorphic_scheme_with_unifier fuel P t).
Proof. unfold monomorphic_scheme_with_unifier. keeping. Qed.

Lemma forward_adt_params params : forall θ, forward (fresh_adt_params params θ).
Proof. induction params; simpl; keeping. Qed.
Hint Resolve forward_adt_params : keeps.
Lemma forward_variant adt variant : forward (instantiate_variant_fields adt variant).
Proof. unfold instantiate_variant_fields. keeping. Qed.
Hint Resolve forward_variant : keeps.
Lemma forward_resolve_update adts t k fs : forward (resolve_record_update fuel adts t k fs).
Proof. unfold resolve_record_update. keeping. Qed.
Lemma forward_resolve_projection adts t k f : forward (resolve_projection fuel adts t k f).
Proof. unfold resolve_projection. keeping. Qed.
Lemma forward_binds binds : forward (prune_binds fuel binds).
Proof. unfold prune_binds. keeping. Qed.
Hint Resolve forward_binds : keeps.
End Pieces.
#[export] Hint Resolve forward_widen forward_coerce forward_hint forward_coerce_arg forward_coerce_arg_type forward_defaults
  forward_apply_scheme forward_generalize forward_mono forward_variant forward_resolve_update forward_resolve_projection
  forward_binds : keeps.

Lemma forward_parts rec (parts : list (Pattern * stateful Infer ty)) : forall acc,
  (forall p t, forward (rec p t)) -> (forall part, part ∈ parts -> forward part.2) -> forward (infer_parts rec parts acc).
Proof.
  induction parts as [|[p m] parts IH]; intros acc Hrec Hp; simpl; [apply keeps_ret; apply _|].
  apply keeps_then; [apply _|apply (Hp (p, m)); by left|]. intros t. apply keeps_then; [apply _|apply Hrec|]. intros [P binds].
  apply IH; [done|]. intros part Hin. apply Hp. by right.
Qed.

Lemma elem_of_zip_parts {A} (f : A -> stateful Infer ty) ps : forall l part,
  part ∈ zip_with (fun p a => (p, f a)) ps l -> exists (p : Pattern) a, part = (p, f a).
Proof.
  induction ps as [|p ps IH]; intros [|a l] part; simpl; try by intros ?%not_elem_of_nil.
  intros [->|H]%elem_of_cons; [by eexists _, _|by apply (IH l)].
Qed.

Lemma forward_pattern fuel env : forall pat t, forward (infer_pattern fuel env pat t).
Proof.
  induction fuel as [|fuel IH]; intros pat t; [apply keeps_stuck|]. cbn [infer_pattern].
  apply keeps_spanning. repeat case_match; keeping; (apply forward_parts; [done|]); intros part Hin;
    try (apply elem_of_zip_parts in Hin as (? & ? & ->); simpl; keeping);
    try (apply list_elem_of_fmap in Hin as (? & -> & _); simpl; keeping).
  apply elem_of_cons in Hin as [->|Hin]; [simpl; keeping|]. apply list_elem_of_singleton in Hin as ->. simpl. keeping.
Qed.
#[export] Hint Resolve forward_pattern : keeps.

Section Cases.
Context (adts : gmap Symbol AdtDecl) (aliases : gmap Symbol TypeAlias) (fuel : nat).
Variable rec : TypeEnv -> KnownVariants -> Expr -> stateful Infer Typed.
Hypothesis Hrec : forall env known e, forward (rec env known e).
Hint Resolve Hrec : keeps.

Lemma forward_updates env known expected t l : forall acc, forward (typed_updates fuel rec env known expected t l acc).
Proof using Hrec. induction l as [|[k v] l IH]; simpl; keeping. Qed.
Hint Resolve forward_updates : keeps.

Lemma forward_update env known base l P t te : forward (typed_update_of_base adts fuel rec env known base l P t te).
Proof using Hrec. unfold typed_update_of_base. keeping. Qed.
Hint Resolve forward_update : keeps.

Lemma forward_record hint fs l : (forall h e, forward (hint h e)) -> forward (typed_record fuel hint fs l).
Proof using Type.
  intros Hh. unfold typed_record.
  assert (forall expected acc, forward (typed_record_fields fuel hint fs expected l acc)).
  { induction l as [|[k v] l IH]; simpl; keeping. }
  unfold prune_fields. keeping.
Qed.

Lemma forward_hinted n : forall env known h e, forward (infer_expr_typed_with_hint adts fuel rec n env known h e).
Proof using Hrec.
  induction n as [|n IH]; intros env known h e; cbn [infer_expr_typed_with_hint]; [apply keeps_stuck|].
  unfold infer_record_update_typed_with_hint. repeat case_match; first [apply Hrec | by apply forward_record | keeping].
Qed.
Hint Resolve forward_hinted : keeps.

Lemma forward_narrow name cs t P : forward (narrow_candidates fuel name cs t P).
Proof using Type. unfold narrow_candidates. keeping. Qed.
Lemma forward_result cs : forward (app_result_type cs).
Proof using Type. unfold app_result_type. keeping. Qed.
Hint Resolve forward_narrow forward_result : keeps.

Lemma forward_apply_arg st P t e : forward (apply_typed_app_arg fuel st P t e).
Proof using Type. unfold apply_typed_app_arg. keeping. Qed.
Lemma forward_head env known e : forward (infer_typed_app_head rec env known e).
Proof using Hrec. unfold infer_typed_app_head. keeping. Qed.
Hint Resolve forward_apply_arg forward_head : keeps.

Lemma forward_args env known args : forall st, forward (infer_typed_app_args adts fuel rec env known st args).
Proof using Hrec. induction args; simpl; unfold infer_typed_app_expr_arg; keeping. Qed.
Hint Resolve forward_args : keeps.

Lemma forward_frames env known frames : forall acc, forward (infer_tail_frames adts fuel rec env known frames acc).
Proof using Hrec. induction frames; simpl; keeping. Qed.
Hint Resolve forward_frames : keeps.

Lemma forward_partial env known expected t l : forall acc, forward (partial_record_updates adts fuel rec env known expected t l acc).
Proof using Hrec. induction l as [|[k v] l IH]; simpl; keeping. Qed.
Hint Resolve forward_partial : keeps.

Lemma forward_overloads name ss : forward (overload_types fuel name ss).
Proof using Type. induction ss; simpl; keeping. Qed.
Hint Resolve forward_overloads : keeps.

Lemma forward_lambdas ps : forall t e, forward (wrap_lambdas fuel ps t e).
Proof using Type. induction ps as [|[n p] ps IH]; simpl; keeping. Qed.
Hint Resolve forward_lambdas : keeps.

Lemma forward_annotation ann vars : forward (annotation_type adts aliases fuel ann vars).
Proof using Type. apply keeps_fueled. apply _. Qed.
Hint Resolve forward_annotation : keeps.

Lemma forward_lambda_params ps vars : forward (lambda_param_types adts aliases fuel ps vars).
Proof using Type. unfold lambda_param_types. keeping. Qed.
Hint Resolve forward_lambda_params : keeps.

Lemma forward_def env known keep ps ann d : forward (infer_def adts aliases fuel rec env known keep ps ann d).
Proof using Hrec. unfold infer_def. keeping. Qed.
Lemma forward_scheme env b d P t : forward (let_scheme fuel env b d P t).
Proof using Type. unfold let_scheme. keeping. Qed.
Hint Resolve forward_def forward_scheme : keeps.

Lemma forward_bindings bs : forall env known l, forward (infer_let_bindings adts aliases fuel rec bs env known l).
Proof using Hrec. induction bs; simpl; keeping. Qed.
Lemma forward_seed bs : forall env known tys, forward (letrec_seed bs env known tys).
Proof using Type. induction bs; simpl; keeping. Qed.
Lemma forward_defs env tys bs : forall known l, forward (infer_letrec_defs adts aliases fuel rec env tys bs known l).
Proof using Hrec. induction bs as [|[[[v ps] ann] d] bs IH]; simpl; keeping. Qed.
Lemma forward_letrec_env l : forall env, forward (letrec_env fuel l env).
Proof using Type. induction l as [|[[[n P] t] e] l IH]; simpl; keeping. Qed.
Lemma forward_arms env known sc t1 res arms : forall acc, forward (infer_arms adts fuel rec env known sc t1 res arms acc).
Proof using Hrec. induction arms as [|[p e] arms IH]; simpl; unfold arm_env; keeping. Qed.
Hint Resolve forward_bindings forward_seed forward_defs forward_letrec_env forward_arms : keeps.

Lemma forward_cases env known e : forward (infer_expr_cases adts aliases fuel rec env known e).
Proof using Hrec.
  destruct e; cbn [infer_expr_cases];
    unfold infer_tuple, infer_list, infer_dict, infer_elems, infer_record_update, infer_var, infer_app, infer_project,
      infer_lam, infer_let, infer_letrec, infer_ite, infer_match, infer_ann, infer_partial_record_constructor_typed,
      infer_tail_app_chain_typed, typed_leaf; keeping.
Qed.
End Cases.

Lemma forward_infer_expr adts aliases fuel : forall env known e, forward (infer_expr adts aliases fuel env known e).
Proof.
  induction fuel as [|fuel IH]; intros env known e; [apply keeps_stuck|]. cbn [infer_expr].
  apply keeps_spanning, forward_depth. by apply forward_cases.
Qed.
