(* ===== verification/DeclStates.v ===== *)
(** Well-formed states of the type system and what keeps them so: the schemes in
    scope quantify all their variables, ADTs and aliases mention only their parameters,
    and the supply is ahead of every variable in use. Here the declarations of
    functions, classes and instances; [DeclsSound] adds those of types. *)

From stdpp Require Import sorting.
From S2P Require Import Prelude Span Types BTree Unify UnifyComplete Unifier UnifierSound.
From S2P Require Import Syntax Ast Adts TypedExprs TypeEnv TypeClasses LetRec Infer InferExpr Typing InferRuns InferPattern InferAnswers InferCases InferApps InferLets InferSound InferType Keeps AdtFamily TypeDecls ClassDecls FnDecls.

(** * Well-formed states *)

Abbreviation next s := (counter (ts_supply s)).

Definition closed_scheme (n : nat) (s : Scheme) : Prop :=
  (forall b, b ∈ ids s -> b < n) /\ forall y, y ∈ scheme_vars_in ∅ s -> y ∈ ids s.

Record well_formed (s : TypeSystem) : Prop := {
  wf_scope : env_type_vars (ts_env s) = ∅;
  wf_schemes name vs v : TypeEnv_lookup (ts_env s) name = Some vs -> v ∈ vs -> closed_scheme (next s) (value_scheme v);
  wf_adts : adts_closed (ts_adts s);
  wf_params name adt y : ts_adts s !! name = Some adt -> y ∈ param_ids adt -> y < next s;
  wf_aliases : aliases_closed (ts_aliases s)
}.

Lemma closed_scheme_mono n n' s : n <= n' -> closed_scheme n s -> closed_scheme n' s.
Proof. intros Hn [Hb Hy]. split; [|done]. intros b Hin. specialize (Hb b Hin). lia. Qed.

Lemma well_formed_env s : well_formed s -> closed_env (next s) (ts_env s).
Proof.
  intros Hw. split; [apply Hw|]. intros sc (name & vs & v & Hl & Hv & ->)%elem_of_env_schemes.
  by eapply (wf_schemes _ Hw).
Qed.

Lemma well_formed_new : well_formed TypeSystem_new.
Proof.
  split; [done|..].
  - intros name vs v H. unfold TypeEnv_lookup in H. simpl in H. by rewrite lookup_empty in H.
  - intros name adt variant fs f y H. simpl in H. by rewrite lookup_empty in H.
  - intros name adt y H. simpl in H. by rewrite lookup_empty in H.
  - intros name alias body y H. simpl in H. by rewrite lookup_empty in H.
Qed.

(** ** Computations on well-formed states *)

(** From a well-formed state with [P], [m] ends in a well-formed state whose supply
    is not behind, with [Q] of its answer. *)
Definition gives {A} (P : TypeSystem -> Prop) (m : checking A) (Q : A -> TypeSystem -> Prop) : Prop :=
  forall s r s', P s -> well_formed s -> m s = Some (r, s') ->
    well_formed s' /\ next s <= next s' /\ match r with Ok a => Q a s' | Err _ => True end.

Abbreviation always := (fun _ : TypeSystem => True).
Abbreviation anything := (fun _ (_ : TypeSystem) => True).

Lemma gives_ret {A} (P : TypeSystem -> Prop) (a : A) Q : (forall s, P s -> Q a s) -> gives P (rret a) Q.
Proof. intros H s r s' HP Hw [= <- <-]. split_and!; [done|done|by apply H]. Qed.

Lemma gives_throw {A} P e (Q : A -> TypeSystem -> Prop) : gives P (rthrow e) Q.
Proof. by intros s r s' HP Hw [= <- <-]. Qed.

Lemma gives_then {A B} P (m : checking A) (k : A -> checking B) Q R :
  gives P m Q -> (forall a, gives (Q a) (k a) R) -> gives P (rthen m k) R.
Proof.
  intros Hm Hk s r s' HP Hw. unfold rthen. destruct (m s) as [[[a|e] s1]|] eqn:E; [| |done].
  - destruct (Hm _ _ _ HP Hw E) as (Hw1 & Hn & HQ). intros H. destruct (Hk a _ _ _ HQ Hw1 H) as (? & ? & ?).
    split_and!; [done|lia|done].
  - intros [= <- <-]. by destruct (Hm _ _ _ HP Hw E) as (? & ? & _).
Qed.

Lemma gives_weaken {A} (P P' : TypeSystem -> Prop) (m : checking A) (Q Q' : A -> TypeSystem -> Prop) :
  gives P m Q -> (forall s, P' s -> P s) -> (forall a s, Q a s -> Q' a s) -> gives P' m Q'.
Proof.
  intros Hm HP HQ s r s' H' Hw E. destruct (Hm _ _ _ (HP _ H') Hw E) as (? & ? & Hr). split_and!; [done|done|].
  destruct r; [by apply HQ|done].
Qed.

Lemma gives_spanning {A} span P (m : checking A) Q : gives P m Q -> gives P (spanning span m) Q.
Proof.
  intros Hm s r s' HP Hw. unfold spanning. destruct (m s) as [[r1 s1]|] eqn:E; [|done]. intros [= <- <-].
  destruct (Hm _ _ _ HP Hw E) as (? & ? & ?). split_and!; [done|done|]. by destruct r1.
Qed.

(** A computation that leaves the state alone. *)
Definition steady {A} (m : checking A) (Q : TypeSystem -> A -> Prop) : Prop :=
  forall s r s', m s = Some (r, s') -> s' = s /\ forall a, r = Ok a -> Q s a.

Lemma gives_steady {A} P (m : checking A) Q :
  steady m Q -> gives P m (fun a s => P s /\ Q s a).
Proof.
  intros Hm s r s' HP Hw E. destruct (Hm _ _ _ E) as [-> HQ]. split_and!; [done|done|]. destruct r; [by split; [|apply HQ]|done].
Qed.

Lemma gives_steady_then {A B} P (m : checking A) (k : A -> checking B) Q R :
  steady m Q -> (forall a, gives (fun s => P s /\ Q s a) (k a) R) -> gives P (rthen m k) R.
Proof. intros Hm Hk. eapply gives_then; [by apply gives_steady|]. exact Hk. Qed.

Lemma gives_unchanged {A} P (m : checking A) Q : steady m Q -> gives P m (fun _ => P).
Proof. intros Hm s r s' HP Hw E. destruct (Hm _ _ _ E) as [-> _]. split_and!; [done|done|]. by destruct r. Qed.

Lemma steady_ret {A} (a : A) : steady (rret a) (fun _ b => b = a).
Proof. intros s r s' [= <- <-]. split; [done|]. by intros b [= ->]. Qed.
Lemma steady_asks {A} (f : TypeSystem -> A) : steady (asks f) (fun s a => a = f s).
Proof. intros s r s' [= <- <-]. split; [done|]. by intros a [= ->]. Qed.
Lemma steady_when b e : steady (when b e) (fun _ _ => b = false).
Proof. intros s r s'. destruct b; intros [= <- <-]; by split. Qed.
Lemma steady_result {A} (m : result TypeError A) : steady (pure_result m) (fun _ a => m = Ok a).
Proof. intros s r s' [= <- <-]. by split. Qed.
Lemma steady_fueled {A} (m : fueled TypeError A) : steady (pure_fueled m) (fun _ a => m = Some (Ok a)).
Proof. intros s r s'. unfold pure_fueled. destruct m; [|done]. intros [= <- <-]. split; [done|]. by intros a ->. Qed.
Lemma steady_ok_or {A} (o : option A) e : steady (ok_or o e) (fun _ a => o = Some a).
Proof. intros s r s'. destruct o; intros [= <- <-]; (split; [done|]); by intros a' [= ->]. Qed.
Lemma steady_state {A} (m : TypeSystem -> checking A) Q : (forall s, steady (m s) (fun _ => Q s)) -> steady (fun s => m s s) Q.
Proof. intros Hm s r s'. apply Hm. Qed.
Lemma steady_then {A B} (m : checking A) (k : A -> checking B) Q R :
  steady m Q -> (forall a, steady (k a) R) -> steady (rthen m k) R.
Proof.
  intros Hm Hk s r s'. unfold rthen. destruct (m s) as [[[a|e] s1]|] eqn:E; [| |done]; destruct (Hm _ _ _ E) as [-> _].
  - apply Hk.
  - by intros [= <- <-].
Qed.
Lemma steady_for_each {A} (f : A -> checking unit) l : (forall a, steady (f a) (fun _ _ => True)) -> steady (for_each f l) (fun _ _ => True).
Proof.
  intros Hf. induction l as [|a l IH]; simpl; [by intros s r s' [= <- <-]|]. by eapply steady_then.
Qed.
Lemma steady_weaken {A} (m : checking A) Q Q' : steady m Q -> (forall s a, Q s a -> Q' s a) -> steady m Q'.
Proof. intros Hm HQ s r s' E. destruct (Hm _ _ _ E) as [-> H]. split; [done|]. intros a Ha. by apply HQ, H. Qed.

(** A change of the state that keeps it well formed. *)
Lemma gives_changes P f (Q : unit -> TypeSystem -> Prop) :
  (forall s, P s -> well_formed s -> well_formed (f s) /\ next s <= next (f s) /\ Q tt (f s)) -> gives P (changes f) Q.
Proof. intros H s r s' HP Hw [= <- <-]. by apply H. Qed.

(** Only the supply moves. *)
Definition supply_moves (s s' : TypeSystem) : Prop := exists u, next s <= counter u /\ s' = with_supply (fun _ => u) s.

#[export] Instance supply_moves_preorder : PreOrder supply_moves.
Proof.
  split.
  - intros s. exists (ts_supply s). split; [done|]. by destruct s.
  - intros x y z (u & Hu & ->) (v & Hv & ->). exists v. split; [simpl in *; lia|done].
Qed.

Lemma well_formed_supply s s' : supply_moves s s' -> well_formed s -> well_formed s'.
Proof.
  intros (u & Hu & ->) [H1 H2 H3 H4 H5]. split; simpl in *; [done| |done| |done].
  - intros name vs v Hl Hv. eapply closed_scheme_mono; [exact Hu|]. by eapply H2.
  - intros name adt y Ha Hy. specialize (H4 name adt y Ha Hy). lia.
Qed.

Lemma gives_moves {A} (P : TypeSystem -> Prop) (m : checking A) :
  keeps supply_moves m -> (forall s s', supply_moves s s' -> P s -> P s') -> gives P m (fun _ => P).
Proof.
  intros Hm HP s r s' H Hw E. pose proof (Hm _ _ _ E) as Hs. split_and!.
  - by eapply well_formed_supply.
  - destruct Hs as (u & Hu & ->). done.
  - destruct r; [by eapply HP|done].
Qed.

(** * Signatures *)

Definition bounded (n : nat) (vars : gmap Symbol TypeVar) : Prop := forall name tv, vars !! name = Some tv -> tv_id tv < n.

Lemma bounded_mono n n' vars : n <= n' -> bounded n vars -> bounded n' vars.
Proof. intros Hn Hb name tv Hv. specialize (Hb name tv Hv). lia. Qed.

Lemma bounded_empty n : bounded n ∅.
Proof. intros name tv Hv. by rewrite lookup_empty in Hv. Qed.

Lemma bounded_insert n name tv vars : bounded n vars -> tv_id tv < n -> bounded n (<[name := tv]> vars).
Proof. intros Hb Ht name' tv' [[<- <-]|[_ H]]%lookup_insert_Some; [done|by eapply Hb]. Qed.

Lemma extend_type_params_bounded params : forall vars u,
  bounded (counter u) vars -> bounded (counter (extend_type_params params vars u).2) (extend_type_params params vars u).1.2.
Proof.
  induction params as [|p params IH]; intros vars u Hb; simpl; [done|]. destruct (vars !! p); [done|].
  apply IH. simpl. apply bounded_insert; [|simpl; lia]. eapply bounded_mono; [|exact Hb]. lia.
Qed.

Lemma moves_supplies {A} (f : TypeVarSupply -> A * TypeVarSupply) :
  (forall u, counter u <= counter (f u).2) -> keeps supply_moves (supplies f).
Proof.
  intros Hf s r s'. unfold supplies. specialize (Hf (ts_supply s)). destruct (f _) as [a u]. intros [= _ <-]. by exists u.
Qed.

Lemma moves_supplies_result {A} (f : TypeVarSupply -> result TypeError A * TypeVarSupply) :
  (forall u, counter u <= counter (f u).2) -> keeps supply_moves (supplies_result f).
Proof.
  intros Hf s r s'. unfold supplies_result. specialize (Hf (ts_supply s)). destruct (f _) as [a u]. intros [= _ <-]. by exists u.
Qed.

(** Preconditions that the supply does not matter to. *)
Definition stable (P : TypeSystem -> Prop) : Prop := forall s s', supply_moves s s' -> P s -> P s'.

Lemma stable_always : stable always.
Proof. done. Qed.

Lemma gives_fresh (P : TypeSystem -> Prop) name : stable P -> gives P (fresh_type_var name) (fun tv s => P s /\ tv_id tv < next s).
Proof.
  intros HP s r s' H Hw E. injection E as <- <-. simpl. assert (supply_moves s (with_supply (fun _ => mkSupply (counter (ts_supply s) + 1)) s)) as Hm.
  { eexists. split; [|done]. simpl. lia. }
  split_and!; [by eapply well_formed_supply|lia|by eapply HP|lia].
Qed.

Lemma gives_extend_params (P : TypeSystem -> Prop) params vars :
  stable P -> gives (fun s => P s /\ bounded (next s) vars) (extend_type_params_in params vars) (fun vars s => P s /\ bounded (next s) vars).
Proof.
  intros HP s r s' [H Hb] Hw. unfold extend_type_params_in, supplies_result.
  pose proof (extend_type_params_forward params vars (ts_supply s)) as Hf.
  pose proof (extend_type_params_bounded params vars (ts_supply s) Hb) as Hb'.
  destruct (extend_type_params _ _ _) as [[r1 vars'] u]. simpl in *. intros [= <- <-].
  assert (supply_moves s (with_supply (fun _ => u) s)) as Hm by by exists u.
  split_and!; [by eapply well_formed_supply|done|]. destruct r1; simpl; [|done]. split; [by eapply HP|done].
Qed.

Lemma gives_params (P : TypeSystem -> Prop) params :
  stable P -> gives P (supplies_result (type_vars_from_params params)) (fun vars s => P s /\ bounded (next s) vars).
Proof.
  intros HP. eapply gives_weaken; [apply (gives_extend_params P params ∅ HP)|..]; [|done].
  intros s H. split; [done|apply bounded_empty].
Qed.

Section Fuel.
Variable fuel : nat.

Lemma gives_annotation (P : TypeSystem -> Prop) e vars :
  gives P (annotation_in fuel e vars) (fun t s => P s /\ scoped vars t).
Proof.
  intros s r s' HP Hw. unfold annotation_in, pure_fueled. destruct (type_from_annotation _ _ _ _ _) as [r1|] eqn:E; [|done].
  intros [= <- <-]. split_and!; [done|done|]. destruct r1 as [t|]; [|done]. split; [done|].
  eapply annotation_scoped; [apply (wf_aliases _ Hw)|exact E].
Qed.

Lemma gives_constraints (P : TypeSystem -> Prop) cs vars :
  gives P (constraints_in fuel cs vars) (fun preds s => P s /\ forall p, p ∈ preds -> scoped vars (pred_typ p)).
Proof.
  intros s r s' HP Hw. unfold constraints_in, pure_fueled. destruct (predicates_from_constraints _ _ _ _ _) as [r1|] eqn:E; [|done].
  intros [= <- <-]. split_and!; [done|done|]. destruct r1 as [preds|]; [|done]. split; [done|].
  eapply constraints_scoped; [apply (wf_aliases _ Hw)|exact E].
Qed.

Definition signed (sig : gmap Symbol TypeVar * ty * list Predicate) (s : TypeSystem) : Prop :=
  bounded (next s) sig.1.1 /\ scoped sig.1.1 sig.1.2 /\ forall p, p ∈ sig.2 -> scoped sig.1.1 (pred_typ p).

Lemma gives_signature (P : TypeSystem -> Prop) tps params ret cs :
  stable P -> gives P (signature_type fuel tps params ret cs) (fun sig s => P s /\ signed sig s).
Proof.
  intros HP. unfold signature_type. eapply gives_then; [by apply gives_params|]. intros vars.
  eapply gives_then; [apply gives_annotation|]. intros t. eapply gives_then; [apply gives_constraints|]. intros preds.
  apply gives_ret. intros s [[[H ?] ?] ?]. by split.
Qed.

(** ** The schemes of signatures *)

Lemma map_values_elem {V} (m : gmap Symbol V) v : v ∈ map_values m <-> exists name, m !! name = Some v.
Proof.
  unfold map_values. rewrite list_elem_of_fmap. split.
  - intros ([name v'] & -> & Hin). apply sort_by_key_elem, elem_of_map_to_list in Hin. by exists name.
  - intros (name & Hv). exists (name, v). split; [done|]. by apply sort_by_key_elem, elem_of_map_to_list.
Qed.

Lemma sorted_type_vars_elem vars tv : tv ∈ sorted_type_vars vars <-> exists name, vars !! name = Some tv.
Proof. unfold sorted_type_vars. rewrite merge_sort_Permutation. apply map_values_elem. Qed.

Lemma dedup_by_id_head x l : exists rest, dedup_by_id (x :: l) = x :: rest.
Proof. destruct l as [|y l]; [by exists []|]. simpl. case_decide; [case_match|]; by eexists. Qed.

Lemma dedup_by_id_elem l : forall y, y ∈ map tv_id (dedup_by_id l) <-> y ∈ map tv_id l.
Proof.
  induction l as [|x l IH]; intros y; [done|]. destruct l as [|z l]; [done|]. specialize (IH y).
  destruct (dedup_by_id_head z l) as [rest Hr].
  assert (dedup_by_id (x :: z :: l) = x :: (if decide (tv_id x = tv_id z) then rest else z :: rest)) as ->.
  { change (dedup_by_id (x :: z :: l)) with
      (if decide (tv_id x = tv_id z) then match dedup_by_id (z :: l) with _ :: rest => x :: rest | [] => [x] end
       else x :: dedup_by_id (z :: l)). rewrite Hr. by case_decide. }
  rewrite Hr in IH. simpl in *. rewrite !elem_of_cons in *. case_decide as He; simpl; rewrite ?elem_of_cons; [rewrite He|]; tauto.
Qed.

Lemma scheme_vars_scoped vars qs preds t y :
  scoped vars t -> (forall p, p ∈ preds -> scoped vars (pred_typ p)) -> y ∈ scheme_vars_in ∅ (mkScheme qs preds t) ->
  exists name tv, vars !! name = Some tv /\ tv_id tv = y.
Proof using Type. clear fuel.
  intros Ht Hp (u & Hu & Hy)%union_list_elem. rewrite subst_empty in Hy. unfold scheme_types in Hu. simpl in Hu.
  apply elem_of_cons in Hu as [->|Hu]; [by apply Ht|]. apply list_elem_of_fmap in Hu as (p & -> & Hin). by apply (Hp p Hin).
Qed.

Lemma signed_scheme sig s : signed sig s -> closed_scheme (next s) (mkScheme (sorted_type_vars sig.1.1) sig.2 sig.1.2).
Proof using Type. clear fuel.
  intros (Hb & Ht & Hp). split.
  - intros b (tv & -> & [name Hv]%sorted_type_vars_elem)%list_elem_of_fmap. by eapply Hb.
  - intros y (name & tv & Hv & <-)%(scheme_vars_scoped _ _ _ _ _ Ht Hp). apply list_elem_of_fmap. exists tv. split; [done|].
    apply sorted_type_vars_elem. by exists name.
Qed.

(** * Changes of the environment *)

Lemma well_formed_with_env s f :
  well_formed s -> env_type_vars (f (ts_env s)) = ∅ ->
  (forall name vs v, TypeEnv_lookup (f (ts_env s)) name = Some vs -> v ∈ vs -> closed_scheme (next s) (value_scheme v)) ->
  well_formed (with_env f s).
Proof using Type. clear fuel. by intros [H1 H2 H3 H4 H5] Hv Hs. Qed.

Definition closed_values (n : nat) (env : TypeEnv) : Prop :=
  env_type_vars env = ∅ /\ forall name vs v, TypeEnv_lookup env name = Some vs -> v ∈ vs -> closed_scheme n (value_scheme v).

Lemma closed_values_set n name vs env :
  closed_values n env -> Forall (fun v => closed_scheme n (value_scheme v)) vs -> closed_values n (set_values name vs env).
Proof using Type. clear fuel.
  rewrite Forall_forall. intros [Hv Hs] Hvs. split; [done|]. intros name' vs' v.
  unfold TypeEnv_lookup, set_values. simpl. intros [[<- <-]|[_ Hl]]%lookup_insert_Some; [apply Hvs|by eapply Hs].
Qed.

Lemma closed_values_extend n name v env :
  closed_values n env -> closed_scheme n (value_scheme v) -> closed_values n (extend_registered name v env).
Proof using Type. clear fuel. intros He Hc. apply closed_values_set; [done|by constructor]. Qed.

Lemma closed_values_overload n name v env :
  closed_values n env -> closed_scheme n (value_scheme v) -> closed_values n (extend_registered_overload name v env).
Proof using Type. clear fuel.
  intros He Hc. apply closed_values_set; [done|]. apply Forall_app. split; [|by constructor]. apply Forall_forall.
  intros w Hw. destruct (env_values env !! name) as [vs|] eqn:El; [|by apply not_elem_of_nil in Hw]. by eapply He.
Qed.

Lemma well_formed_values s : well_formed s -> closed_values (next s) (ts_env s).
Proof using Type. clear fuel. intros Hw. split; [apply Hw|apply Hw]. Qed.

Lemma gives_env P f (Q : unit -> TypeSystem -> Prop) :
  (forall s, P s -> closed_values (next s) (ts_env s) -> closed_values (next s) (f (ts_env s)) /\ Q tt (with_env f s)) ->
  gives P (changes (with_env f)) Q.
Proof using Type. clear fuel.
  intros H. apply gives_changes. intros s HP Hw. destruct (H s HP (well_formed_values _ Hw)) as [[Hv Hs] HQ].
  split_and!; [by apply well_formed_with_env|done|done].
Qed.
End Fuel.

Section Functions.
Variable fuel : nat.

(** * Functions *)

Lemma steady_declared_preds vars t preds : steady (check_declared_preds fuel vars t preds) (fun _ _ => True).
Proof.
  apply steady_for_each. intros pred s r s'. revert s'. apply (steady_then _ _ (fun _ _ => True) (fun _ _ => True)).
  - eapply steady_weaken; [apply steady_fueled|done].
  - intros ?. destruct (expected_class_param_arities _ _); [|eapply steady_weaken; [apply steady_ret|done]].
    eapply steady_weaken; [apply steady_result|done].
Qed.

Lemma gives_claim P name : stable P -> (forall s f g, P s -> P (with_env f (with_declared g s))) -> gives P (claim_name name) (fun _ => P).
Proof.
  intros HP Hf s r s' H Hw. unfold claim_name, rthen, asks. destruct (TypeEnv_lookup (ts_env s) name) as [vs|]; [|by intros [= <- <-]].
  destruct (decide _); [|by intros [= <- <-]]. intros [= <- <-]. split_and!; [|done|by apply Hf].
  apply (well_formed_with_env (with_declared (fun d => d ∖ {[ name ]}) s)); [by destruct Hw|apply Hw|].
  intros name' vs' v Hl. eapply (wf_schemes _ Hw). unfold TypeEnv_lookup, TypeEnv_remove in *. simpl in Hl.
  by apply lookup_delete_Some in Hl as [_ Hl].
Qed.

Lemma gives_prepare_fn seen decl :
  gives always (prepare_fn_decl fuel seen decl) (fun info s => closed_scheme (next s) info.2).
Proof.
  unfold prepare_fn_decl. eapply gives_steady_then; [apply steady_when|]. intros ?.
  eapply (gives_then _ _ _ (fun _ => always)); [by eapply gives_weaken; [by apply (gives_claim always)|..]|]. intros ?.
  eapply gives_then; [by apply gives_signature|]. intros [[vars t] preds].
  eapply gives_steady_then; [apply steady_declared_preds|]. intros ?.
  eapply gives_steady_then; [apply steady_result|]. intros ?.
  apply gives_ret. intros s [[[_ H] _] _]. by apply (signed_scheme (vars, t, preds)).
Qed.

Lemma gives_prepare_fns decls : forall seen,
  gives always (prepare_fn_decls fuel decls seen) (fun infos s => forall i, i ∈ infos -> closed_scheme (next s) i.2).
Proof.
  induction decls as [|decl decls IH]; intros seen; simpl.
  { apply gives_ret. by intros s _ i ?%not_elem_of_nil. }
  intros s r s' _ Hw. unfold rthen. destruct (spanning _ _ s) as [[[i|e] s1]|] eqn:E1; [| |done].
  2:{ intros [= <- <-]. by destruct (gives_spanning _ _ _ _ (gives_prepare_fn seen decl) _ _ _ I Hw E1) as (? & ? & _). }
  destruct (gives_spanning _ _ _ _ (gives_prepare_fn seen decl) _ _ _ I Hw E1) as (Hw1 & Hn1 & Hi).
  destruct (prepare_fn_decls _ _ _ s1) as [[[is'|e] s2]|] eqn:E2; [| |done]; intros [= <- <-];
    destruct (IH _ _ _ _ I Hw1 E2) as (Hw2 & Hn2 & His); split_and!; try done; try lia.
  intros j [->|Hj]%elem_of_cons; [|by apply His]. by eapply closed_scheme_mono.
Qed.

Lemma gives_rolling_back {A} P (m : checking A) Q : gives P m Q -> gives P (rolling_back m) Q.
Proof.
  intros Hm s r s' H Hw. unfold rolling_back. destruct (m s) as [[[a|e] s1]|] eqn:E; [| |done]; intros [= <- <-];
    destruct (Hm _ _ _ H Hw E) as (Hw1 & Hn & HQ); split_and!; try done.
  destruct Hw1 as [H1 H2 H3 H4 H5], Hw as [H1' H2' H3' H4' H5']. split; simpl; try done.
  intros name vs v Hl Hv. eapply closed_scheme_mono; [exact Hn|]. by eapply H2'.
Qed.

Lemma closed_values_fns n (infos : list (PreparedFnDecl * Scheme)) : forall env,
  closed_values n env -> (forall i, i ∈ infos -> closed_scheme n i.2) ->
  closed_values n (foldl (fun env info =>
    extend_registered (var_name (fn_name (prepared_decl info.1))) (fn_value (prepared_decl info.1) info.2) env) env infos).
Proof.
  induction infos as [|i infos IH]; intros env He Hi; [done|]. simpl. apply IH; [|intros; apply Hi; by right].
  apply closed_values_extend; [done|]. apply Hi. by left.
Qed.

Lemma gives_signatures decls : gives always (register_fn_decl_signatures fuel decls) (fun _ => always).
Proof.
  destruct decls as [|d decls]; [by apply gives_ret|]. apply gives_rolling_back.
  eapply gives_then; [apply gives_prepare_fns|]. intros infos. eapply gives_then; [|intros ?; by apply gives_ret].
  apply (gives_env _ _ (fun _ => always)). intros s Hi Hc. split; [by apply closed_values_fns|done].
Qed.

(** Inference moves the supply only. *)
Lemma moves_unifier {A} span (m : stateful Infer A) : forward m -> keeps supply_moves (with_unifier fuel span m).
Proof.
  intros Hm s r s'. unfold with_unifier. pose proof (keeps_spanning _ span m Hm (mkInfer (Unifier_new (ts_limits s)) (ts_supply s))) as H.
  destruct (spanning _ _ _) as [[[a|e] st]|]; [| |done].
  - destruct (into_subst _ _) as [[r1 u]|]; [|done]. intros [= _ <-]. exists (i_supply st). split; [|done]. by eapply H.
  - intros [= _ <-]. exists (i_supply st). split; [|done]. by eapply H.
Qed.

Lemma moves_infer_typed e : keeps supply_moves (infer_typed fuel e).
Proof.
  unfold infer_typed. apply keeps_then; [apply _|intros s r s' [= _ <-]; reflexivity|]. intros s0.
  apply keeps_then; [apply _|apply moves_unifier, forward_infer_expr|]. intros [[[? ?] ?] ?]. keeping.
Qed.

Lemma moves_in_scope vars e : keeps supply_moves (infer_in_scope fuel vars e).
Proof.
  intros s r s'. unfold infer_in_scope, rthen, asks, changes.
  pose proof (moves_infer_typed e (with_env (set_type_vars vars) s)) as H.
  destruct (infer_typed _ _ _) as [[r1 s1]|]; [|done]. intros [= _ <-].
  destruct (H _ _ eq_refl) as (u & Hu & ->). exists u. split; [done|]. by destruct s as [[] ? ? ? ? ? ? ? ?].
Qed.

Lemma steady_moves {A} (m : checking A) Q : steady m Q -> keeps supply_moves m.
Proof. intros Hm s r s' E. destruct (Hm _ _ _ E) as [-> _]. reflexivity. Qed.

Lemma moves_body info : keeps supply_moves (check_fn_decl_body fuel info).
Proof.
  apply keeps_spanning. apply keeps_then; [apply _|apply moves_in_scope|]. intros [[typed preds] inferred].
  apply keeps_then; [apply _|apply keeps_result; apply _|]. intros θ.
  apply keeps_then; [apply _|eapply steady_moves, steady_declared_preds|]. intros _ s r s' E.
  by destruct (steady_fueled _ _ _ _ E) as [-> _].
Qed.

Lemma moves_for_each {A} (f : A -> checking unit) l : (forall a, keeps supply_moves (f a)) -> keeps supply_moves (for_each f l).
Proof. intros Hf. induction l as [|a l IH]; simpl; [apply keeps_ret; apply _|]. by apply keeps_then; [apply _| |]. Qed.

Lemma moves_bodies infos : keeps supply_moves (check_fn_decl_bodies fuel infos).
Proof. apply moves_for_each, moves_body. Qed.

(** * Forward declarations *)

Lemma update_first_map {A B} (g : A -> B) p f (l l' : list A) :
  (forall x, g (f x) = g x) -> update_first p f l = Some l' -> map g l' = map g l.
Proof.
  intros Hg. revert l'. induction l as [|x l IH]; intros l'; simpl; [done|]. destruct (p x); [intros [= <-]; simpl; by rewrite Hg|].
  destruct (update_first p f l) as [l''|]; [|done]. intros [= <-]. simpl. by rewrite (IH l'').
Qed.

(** Merging leaves the schemes alone. *)
Lemma merge_metadata_schemes decl scheme vs vs' :
  merge_metadata decl scheme vs = Ok vs' -> map value_scheme vs' = map value_scheme vs.
Proof.
  unfold merge_metadata. destruct (find _ vs) as [v|]; [|by intros [= ->]]. intros (_ & _ & [= <-])%rbind_Ok.
  destruct (update_first _ _ vs) as [l|] eqn:E; [|done]. simpl. by eapply (update_first_map value_scheme) in E.
Qed.

Lemma gives_declare decl : gives always (inject_declare_fn_decl fuel decl) (fun _ => always).
Proof.
  apply gives_spanning. eapply gives_then; [by apply gives_signature|]. intros [[vars t] preds].
  eapply gives_steady_then; [apply steady_result|]. intros ?.
  eapply gives_steady_then.
  { apply steady_for_each. intros pred s r s'. revert s'. apply (steady_then _ _ (fun _ _ => True) (fun _ _ => True)).
    - eapply steady_weaken; [apply steady_fueled|done].
    - intros ?. eapply steady_weaken; [apply steady_ret|done]. }
  intros ?. eapply gives_steady_then; [apply (steady_asks (fun s => s))|]. intros s0.
  destruct (TypeEnv_lookup (ts_env s0) _) as [existing|] eqn:El.
  - destruct (_ || _); [|apply gives_throw]. eapply gives_steady_then; [apply steady_result|]. intros vs.
    apply gives_env. intros s [[_ ->] Hm] Hc. split; [|done]. apply closed_values_set; [done|].
    apply merge_metadata_schemes in Hm. apply Forall_forall. intros v Hv.
    assert (value_scheme v ∈ map value_scheme existing) as Hin by (rewrite <- Hm; by apply list_elem_of_fmap_2).
    apply list_elem_of_fmap in Hin as (w & -> & Hw). by eapply Hc.
  - eapply gives_then.
    + apply (gives_env _ _ (fun _ => always)). intros s [[[[_ Hs] _] _] _] Hc. split; [|done].
      apply closed_values_extend; [done|]. by apply (signed_scheme (vars, t, preds)).
    + intros ?. apply gives_changes. intros s _ [H1 H2 H3 H4 H5]. split_and!; [by split|done|done].
Qed.
End Functions.

Section Classes.
Variable fuel : nat.

(** * Classes *)

(** The parameters of a class, each in the map of its variables. *)
Lemma gives_class_params params : forall vars done_,
  NoDup (done_ ++ params) ->
  gives (fun s => bounded (next s) vars) (class_param_vars params vars)
    (fun r s => bounded (next s) r.1 /\ (forall n, n ∈ done_ -> r.1 !! n = vars !! n) /\
       forall tv, tv ∈ r.2 -> exists n, r.1 !! n = Some tv).
Proof.
  induction params as [|p params IH]; intros vars done_ Hnd; cbn [class_param_vars].
  { apply gives_ret. intros s Hb. split_and!; [done|done|by intros tv ?%not_elem_of_nil]. }
  eapply gives_then; [apply (gives_fresh (fun s => bounded (next s) vars))|].
  { intros s s' (u & Hu & ->) Hb. by eapply bounded_mono. }
  intros tv. eapply gives_then.
  - eapply gives_weaken; [apply (IH (<[p := tv]> vars) (done_ ++ [p])); by rewrite <- app_assoc| |done].
    intros s [Hb Ht]. by apply bounded_insert.
  - intros [vars' tvs]. apply gives_ret. intros s (Hb & Hd & Ht). simpl in *. split_and!; [done|..].
    + intros n Hn. rewrite Hd by (apply elem_of_app; by left). apply lookup_insert_ne. intros ->. apply NoDup_app in Hnd as (_ & Hnd & _).
      apply (Hnd n Hn). by left.
    + intros tv' [->|H]%elem_of_cons; [|by apply Ht]. exists p. rewrite Hd by (apply elem_of_app; right; by left). apply lookup_insert_eq.
Qed.

Lemma extend_type_params_keeps params : forall vars u n tv,
  vars !! n = Some tv -> (extend_type_params params vars u).1.2 !! n = Some tv.
Proof.
  induction params as [|p params IH]; intros vars u n tv Hv; simpl; [done|]. destruct (vars !! p) eqn:Hp; [done|].
  apply IH. rewrite lookup_insert_ne; [done|]. intros ->. congruence.
Qed.

Lemma gives_methods decl sigs : forall methods,
  NoDup (class_params decl) -> gives always (register_methods fuel decl sigs methods) (fun _ => always).
Proof.
  induction sigs as [|sig sigs IH]; intros methods Hnd; cbn [register_methods]; [by apply gives_ret|].
  eapply gives_steady_then; [apply steady_asks|]. intros known. eapply gives_steady_then; [apply steady_when|]. intros ?.
  eapply gives_then.
  { eapply gives_weaken; [by apply (gives_class_params (class_params decl) ∅ [])|intros; apply bounded_empty|intros ? ? H; exact H]. }
  intros [tvars tvs]. simpl.
  eapply (gives_then _ _ _ (fun vars s => bounded (next s) vars /\ forall tv, tv ∈ tvs -> exists n, vars !! n = Some tv)).
  { intros s r s' (Hb & _ & Ht) Hw E.
    destruct (gives_extend_params always (method_type_params sig) tvars stable_always s r s' (conj I Hb) Hw E) as (? & ? & Hr).
    split_and!; [done|done|]. destruct r as [vars'|]; [|done]. split; [apply Hr|]. intros tv Hin. destruct (Ht tv Hin) as (n & Hn).
    exists n. unfold extend_type_params_in, supplies_result in E.
    pose proof (extend_type_params_keeps (method_type_params sig) tvars (ts_supply s) n tv Hn) as Hk.
    destruct (extend_type_params _ _ _) as [[r1 tvars1] u]. destruct r1; simpl in *; [|done]. by injection E as <- <-. }
  intros vars'. eapply gives_then; [apply gives_annotation|]. intros t.
  set (scheme := mkScheme _ _ _).
  eapply (gives_then _ _ _ (fun _ => always)).
  { apply gives_env. intros s [[Hb Ht] Hsc] Hc. split; [|done]. apply closed_values_extend; [done|]. simpl.
    assert (forall y, (exists name tv, vars' !! name = Some tv /\ tv_id tv = y) -> y ∈ ids scheme) as Hids.
    { intros y (name & tv & Hv & <-). unfold ids. simpl. rewrite dedup_by_id_elem. apply list_elem_of_fmap. exists tv. split; [done|].
      apply sorted_type_vars_elem. by exists name. }
    split.
    - intros b Hb'. unfold ids in Hb'. simpl in Hb'. rewrite dedup_by_id_elem in Hb'. apply list_elem_of_fmap in Hb' as (tv & -> & Hin).
      apply sorted_type_vars_elem in Hin as [name Hv]. by eapply Hb.
    - intros y Hy. apply Hids. eapply scheme_vars_scoped; [exact Hsc| |exact Hy]. intros p ->%list_elem_of_singleton z Hz.
      assert (z ∈ map tv_id tvs) as (tv & -> & Hin)%list_elem_of_fmap.
      { unfold class_predicate in Hz. simpl in Hz. assert (z ∈ (⋃ (map (fun tv => vars (TVar tv)) tvs) : gset TypeVarId)) as Hz'.
        { destruct tvs as [|tv [|tv' tvs]]; simpl in *; [done|set_solver|]. by rewrite map_map in Hz. }
        apply union_list_elem in Hz' as (tv & Hin & Hz'). simpl in Hz'. apply elem_of_singleton in Hz' as ->. by apply list_elem_of_fmap_2. }
      destruct (Ht tv Hin) as (n & Hn). by exists n, tv. }
  intros ?. eapply (gives_then _ _ _ (fun _ => always)); [|intros ?; by apply IH].
  apply gives_changes. intros s _ [H1 H2 H3 H4 H5]. split_and!; [by split|done|done].
Qed.

Lemma gives_class_body decl : NoDup (class_params decl) -> gives always (register_class_decl_body fuel decl) (fun _ => always).
Proof.
  intros Hnd. apply gives_spanning. eapply gives_steady_then; [apply steady_asks|]. intros known.
  do 2 (eapply gives_steady_then; [apply steady_when|]; intros ?).
  eapply (gives_then _ _ _ (fun _ => always)).
  { eapply gives_weaken; [apply (gives_moves always)|done|done]; [|done]. apply keeps_map; [apply _|]. intros sup.
    unfold superclass_of. apply keeps_then; [apply _|apply moves_supplies; intros u; simpl; lia|]. intros tv.
    apply keeps_then; [apply _| |].
    - intros s r s' E. unfold annotation_in, pure_fueled in E. destruct (type_from_annotation _ _ _ _ _); [|done].
      injection E as _ <-. reflexivity.
    - intros t. apply keeps_then; [apply _|eapply steady_moves, steady_when|]. intros ?. apply keeps_ret. apply _. }
  intros supers. eapply (gives_then _ _ _ (fun _ => always)).
  { apply gives_changes. intros s _ [H1 H2 H3 H4 H5]. split_and!; [by split|done|done]. }
  intros ?. eapply gives_then; [by apply gives_methods|]. intros methods.
  apply gives_changes. intros s _ [H1 H2 H3 H4 H5]. split_and!; [by split|done|done].
Qed.

Lemma gives_for_each {A} (f : A -> checking unit) l :
  (forall a, a ∈ l -> gives always (f a) (fun _ => always)) -> gives always (for_each f l) (fun _ => always).
Proof.
  induction l as [|a l IH]; intros Hf; simpl; [by apply gives_ret|].
  eapply gives_then; [apply Hf; by left|]. intros ?. apply IH. intros; apply Hf; by right.
Qed.

Lemma gives_class_headers decls : forall seen, gives always (register_class_headers decls seen) (fun _ => always).
Proof.
  induction decls as [|decl decls IH]; intros seen; simpl; [by apply gives_ret|].
  eapply (gives_then _ _ _ (fun _ => always)); [|intros ?; apply IH]. apply gives_spanning.
  eapply gives_steady_then; [apply steady_when|]. intros ?. eapply gives_steady_then; [apply steady_asks|]. intros known.
  do 2 (eapply gives_steady_then; [apply steady_when|]; intros ?).
  apply gives_changes. intros s _ [H1 H2 H3 H4 H5]. split_and!; [by split|done|done].
Qed.

Lemma gives_classes decls :
  (forall d, d ∈ decls -> NoDup (class_params d)) -> gives always (register_class_decls fuel decls) (fun _ => always).
Proof.
  intros Hd. eapply gives_then; [apply gives_class_headers|]. intros ?. apply gives_for_each. intros d Hin.
  by apply gives_class_body, Hd.
Qed.

Lemma gives_instance decl : gives always (register_instance_decl fuel decl) (fun _ => always).
Proof.
  apply gives_spanning. eapply (gives_then _ _ _ (fun _ => always)).
  - unfold prepare_instance. eapply gives_steady_then; [apply steady_asks|]. intros known.
    eapply gives_steady_then; [apply steady_when|]. intros ?. eapply gives_then; [eapply gives_weaken; [by apply (gives_params always)|done|intros ? ? H; exact H]|].
    intros vars. eapply gives_then; [apply gives_annotation|]. intros head. eapply gives_then; [apply gives_constraints|]. intros context.
    eapply gives_steady_then; [apply steady_asks|]. intros info.
    eapply (gives_then _ _ _ (fun _ => always)); [|intros ?; by apply gives_ret].
    destruct info; [|by apply gives_ret]. eapply gives_weaken; [apply (gives_steady always), steady_result|done|done].
  - intros prepared. eapply (gives_then _ _ _ (fun _ => always)); [|intros ?; by apply gives_ret].
    apply gives_changes. intros s _ [H1 H2 H3 H4 H5]. split_and!; [by split|done|done].
Qed.
End Classes.
