(* ===== verification/DeclsSound.v ===== *)
(** Declarations keep the type system well formed, so that inference after them is
    sound. *)

From stdpp Require Import sorting.
From S2P Require Import Prelude Span Types BTree Unify UnifyComplete Unifier UnifierSound.
From S2P Require Import Syntax Ast Adts TypedExprs TypeEnv TypeClasses LetRec Infer InferExpr Typing InferRuns InferPattern InferAnswers InferCases InferApps InferLets InferSound InferType Keeps AdtFamily TypeDecls ClassDecls FnDecls DeclStates.

Section TypeDeclarations.
Variable fuel : nat.

(** * Types *)

Definition closed_adt (adt : AdtDecl) : Prop :=
  forall (v : AdtVariant) a y, v ∈ adt_variants adt -> a ∈ Adts.variant_args v -> y ∈ vars (AdtArgument_typ a) -> y ∈ param_ids adt.

Lemma closed_adt_fields adt (v : AdtVariant) fs f y :
  closed_adt adt -> v ∈ adt_variants adt -> record_fields v = Some fs -> f ∈ fs -> y ∈ vars f.2 -> y ∈ param_ids adt.
Proof.
  intros Hc Hv Hr Hf Hy. unfold record_fields in Hr. destruct (Adts.variant_args v) as [|a []] eqn:Ea; [done| |by destruct a as [[]|]].
  apply (Hc v a y Hv); [rewrite Ea; by left|]. destruct a as [[| | | | |fields] docs|fields docs]; try done; injection Hr as <-; simpl.
  - apply union_list_elem. by exists f.
  - apply union_list_elem. exists f. split; [|done]. by apply sort_by_key_elem.
Qed.

Lemma fresh_params_spec names : forall u p,
  p ∈ (fresh_params names u).1 -> counter u <= tv_id (param_var p) < counter (fresh_params names u).2.
Proof.
  induction names as [|n names IH]; intros u p; simpl; [by intros ?%not_elem_of_nil|].
  specialize (IH (mkSupply (counter u + 1))).
  assert (forall u, counter u <= counter (fresh_params names u).2) as Hm.
  { clear. induction names as [|m names IH]; intros u; simpl; [done|]. specialize (IH (mkSupply (counter u + 1))).
    destruct (fresh_params _ _). simpl in *. lia. }
  specialize (Hm (mkSupply (counter u + 1))). destruct (fresh_params _ _) as [ps u']. simpl in *.
  intros [->|Hp]%elem_of_cons; simpl; [lia|]. specialize (IH p Hp). lia.
Qed.

Lemma fresh_params_forward names : forall u, counter u <= counter (fresh_params names u).2.
Proof.
  induction names as [|m names IH]; intros u; simpl; [done|]. specialize (IH (mkSupply (counter u + 1))).
  destruct (fresh_params _ _). simpl in *. lia.
Qed.

Lemma copy_docs_vars ps : forall docs, map param_var (copy_type_param_docs ps docs) = map param_var ps.
Proof.
  unfold copy_type_param_docs. induction ps as [|p ps IH]; intros [|d docs]; simpl; try done. by rewrite IH.
Qed.

Lemma param_ids_vars adt : param_ids adt = map tv_id (map param_var (adt_params adt)).
Proof. unfold param_ids. by rewrite map_map. Qed.

Lemma param_map_scoped ps t y : scoped (param_map ps) t -> y ∈ vars t -> y ∈ map tv_id (map param_var ps).
Proof.
  intros Ht (name & tv & Hv & <-)%Ht. apply list_elem_of_fmap. exists tv. split; [done|]. revert Hv. unfold param_map.
  assert (forall m : gmap Symbol TypeVar, foldl (fun m p => <[Adts.param_name p := param_var p]> m) m ps !! name = Some tv ->
            m !! name = Some tv \/ tv ∈ map param_var ps) as H.
  { clear Ht. induction ps as [|p ps IH]; intros m; simpl; [by left|]. intros Hx.
    destruct (IH _ Hx) as [Hm|H]; [apply lookup_insert_Some in Hm as [[_ <-]|[_ Hm]]|]; [right; by left|by left|right; by right]. }
  intros [Hv|Hv]%H; [by rewrite lookup_empty in Hv|done].
Qed.

Lemma type_from_expr_scoped s decl params e : forall t, type_from_expr s decl params e = Ok t -> scoped params t.
Proof.
  induction e as [sp name|sp f a IHf IHa|sp a r IHa IHr|sp es IH|sp fs IH] using TypeExpr_ind'; intros t;
    cbn [type_from_expr]; intros H%spanned_Ok.
  - destruct (params !! _) as [tv|] eqn:Hv.
    + injection H as <-. intros y Hy. simpl in Hy. apply elem_of_singleton in Hy as ->. eauto.
    + destruct (type_arity _ _ _); [injection H as <-; apply scoped_con|done].
  - apply rbind_Ok in H as (f' & Hf & (a' & Ha & [= <-])%rbind_Ok). apply scoped_app; eauto.
  - apply rbind_Ok in H as (f' & Hf & (a' & Ha & [= <-])%rbind_Ok). apply scoped_fun; eauto.
  - apply rbind_Ok in H as (ts & Hts & [= <-]). apply map_result_Ok in Hts. apply scoped_tuple.
    induction Hts as [|e t es ts Ht _ IHts]; [constructor|]. apply Forall_cons in IH as [He IH]. constructor; auto.
  - apply rbind_Ok in H as (ts & Hts & [= <-]). apply map_result_Ok in Hts. apply scoped_record.
    induction Hts as [|f g fs ts (u & Hu & [= <-])%rbind_Ok _ IHts]; [constructor|].
    apply Forall_cons in IH as [Hf IH]. constructor; [by apply Hf|auto].
Qed.

(** ** Declarations from source *)

Lemma steady_map {A B} (f : A -> checking B) (Q : A -> TypeSystem -> B -> Prop) l :
  (forall a, steady (f a) (Q a)) -> steady (run_map f l) (fun s bs => Forall2 (fun a b => Q a s b) l bs).
Proof.
  intros Hf. induction l as [|a l IH]; simpl; [intros s r s' [= <- <-]; split; [done|by intros ? [= <-]]|].
  intros s r s'. unfold rthen. destruct (f a s) as [[[b|e] s1]|] eqn:E1; [| |done]; destruct (Hf _ _ _ _ E1) as [-> Hb].
  2:{ by intros [= <- <-]. }
  destruct (run_map f l s) as [[[bs|e] s2]|] eqn:E2; [| |done]; destruct (IH _ _ _ E2) as [-> Hbs]; intros [= <- <-]; split; try done.
  intros ? [= <-]. constructor; [by apply Hb|by apply Hbs].
Qed.

Lemma steady_post {A B} (m : checking A) (g : A -> B) Q R :
  steady m Q -> (forall s a, Q s a -> R s (g a)) -> steady (let~ a := m in rret (g a)) R.
Proof.
  intros Hm HR s r s'. unfold rthen. destruct (m s) as [[[a|e] s1]|] eqn:E; [| |done]; destruct (Hm _ _ _ E) as [-> Ha];
    intros [= <- <-]; split; try done. intros b [= <-]. by apply HR, Ha.
Qed.

Definition in_scope (params : gmap Symbol TypeVar) (t : ty) (s : TypeSystem) : Prop :=
  aliases_closed (ts_aliases s) -> scoped params t.

Lemma steady_checked decl params e : steady (checked_type fuel decl params e) (fun s t => in_scope params t s).
Proof.
  intros s r s'. unfold checked_type, rthen, pure_result, asks. destruct (type_from_expr s decl params e) as [t|] eqn:E; [|by intros [= <- <-]].
  apply type_from_expr_scoped in E. unfold pure_fueled. destruct (expand_type_aliases _ _ _) as [r1|] eqn:Ex; [|done].
  intros [= <- <-]. split; [done|]. intros t' -> Ha y Hy. apply E. unfold expand_type_aliases in Ex.
  by apply (expand_inner_vars _ Ha _ _ _ _ Ex).
Qed.

Lemma steady_argument decl params arg :
  steady (argument_from_decl fuel decl params arg) (fun s a => in_scope params (AdtArgument_typ a) s).
Proof.
  assert (forall typ, steady (let~ t := checked_type fuel decl params typ in rret (Positional t (arg_docs arg)))
            (fun s a => in_scope params (AdtArgument_typ a) s)) as Hpos.
  { intros typ. by eapply steady_post; [apply steady_checked|]. }
  unfold argument_from_decl. destruct (arg_typ arg); try apply Hpos.
  eapply steady_post.
  - apply (steady_map _ (fun f s g => in_scope params (field_typ g) s)). intros f. by eapply steady_post; [apply steady_checked|].
  - intros s fs Hfs Ha. simpl. apply scoped_record, Forall_fmap, Forall_forall.
    intros g Hg. apply list_elem_of_lookup in Hg as [i Hi].
    destruct (Forall2_lookup_r _ _ _ _ _ Hfs Hi) as (f & _ & Hg). by apply Hg.
Qed.

(** The declaration of an ADT mentions its parameters, which are new. *)
Lemma gives_adt (P : TypeSystem -> Prop) decl :
  stable P -> gives P (adt_from_decl fuel decl)
    (fun adt s => P s /\ closed_adt adt /\ (forall y, y ∈ param_ids adt -> y < next s) /\ adt_name adt = type_decl_name decl).
Proof.
  intros HP. unfold adt_from_decl. destruct (type_decl_kind decl) as [|variants]; [apply gives_throw|].
  eapply (gives_then _ _ _ (fun adt s => P s /\ (forall y, y ∈ param_ids adt -> y < next s) /\ adt_name adt = type_decl_name decl)).
  { intros s r s' H Hw E. unfold supplies, AdtDecl_new in E.
    pose proof (fresh_params_spec (map Ast.param_name (type_decl_params decl)) (ts_supply s)) as Hp.
    pose proof (fresh_params_forward (map Ast.param_name (type_decl_params decl)) (ts_supply s)) as Hn.
    destruct (fresh_params _ _) as [ps u]. injection E as <- <-. simpl in *.
    assert (supply_moves s (with_supply (fun _ => u) s)) as Hm by by exists u.
    split_and!; [by eapply well_formed_supply|done|by eapply HP| |done].
    intros y (p & -> & Hin)%list_elem_of_fmap. by apply Hp. }
  intros adt. set (ps := copy_type_param_docs (adt_params adt) (type_decl_params decl)).
  eapply gives_then.
  { eapply gives_weaken; [apply gives_steady|intros s H; exact H|intros a s H; exact H].
    apply (steady_map _ (fun _ s (v : AdtVariant) => forall a, a ∈ Adts.variant_args v -> in_scope (param_map ps) (AdtArgument_typ a) s)).
    intros v. eapply steady_post; [apply (steady_map _ (fun _ s a => in_scope (param_map ps) (AdtArgument_typ a) s)), steady_argument|].
    intros s args Hargs a Ha. simpl in Ha. apply list_elem_of_lookup in Ha as [i Hi].
    by destruct (Forall2_lookup_r _ _ _ _ _ Hargs Hi) as (? & _ & ?). }
  intros vs s r s' [[H (Hb & Hname)] Hvs] Hw [= <- <-]. split_and!; try done.
  - intros v a y Hv Ha Hy. simpl in Hv. rewrite param_ids_vars. simpl. apply (param_map_scoped _ (AdtArgument_typ a)); [|done].
    apply list_elem_of_lookup in Hv as [i Hi]. destruct (Forall2_lookup_r _ _ _ _ _ Hvs Hi) as (? & _ & Hv).
    apply Hv; [done|apply (wf_aliases _ Hw)].
  - intros y. rewrite param_ids_vars. simpl. unfold ps. rewrite copy_docs_vars, <- param_ids_vars. apply Hb.
Qed.

(** ** Registration *)

Lemma constructor_scheme_closed n adt name scheme :
  closed_adt adt -> (forall y, y ∈ param_ids adt -> y < n) -> (name, scheme) ∈ constructor_schemes adt -> closed_scheme n scheme.
Proof.
  intros Hc Hb (v & [= -> ->] & Hv)%list_elem_of_fmap.
  assert (forall y, y ∈ param_ids adt <-> y ∈ ids (mkScheme (map param_var (adt_params adt)) []
            (foldr (fun arg t => TFun (AdtArgument_typ arg) t) (result_type adt) (Adts.variant_args v)))) as Hids.
  { intros y. unfold ids. simpl. by rewrite param_ids_vars. }
  split; [intros b Hin; by apply Hb, Hids|]. intros y (t & Ht & Hy)%union_list_elem. rewrite subst_empty in Hy.
  unfold scheme_types in Ht. simpl in Ht. apply list_elem_of_singleton in Ht as ->. apply Hids.
  assert (forall args, (forall a, a ∈ args -> a ∈ Adts.variant_args v) ->
    y ∈ vars (foldr (fun arg t => TFun (AdtArgument_typ arg) t) (result_type adt) args) -> y ∈ param_ids adt) as Hargs;
    [|by apply (Hargs (Adts.variant_args v))].
  induction args as [|a args IH]; intros Hin; simpl; [apply result_type_vars|]. intros [H|H]%elem_of_union.
  - apply (Hc v a y Hv); [apply Hin; by left|done].
  - apply IH; [intros; apply Hin; by right|done].
Qed.

Lemma closed_values_constructor n name v env :
  closed_values n env -> closed_scheme n (value_scheme v) -> closed_values n (register_constructor_value name v env).
Proof.
  intros He Hc. unfold register_constructor_value. destruct (TypeEnv_lookup env name) as [vs|] eqn:El; simpl.
  - destruct (update_first _ _ vs) as [vs'|] eqn:Eu.
    + apply closed_values_set; [done|]. apply (update_first_map value_scheme) in Eu; [|done].
      apply Forall_forall. intros w Hw.
      assert (value_scheme w ∈ map value_scheme vs) as Hin by (rewrite <- Eu; by apply list_elem_of_fmap_2).
      apply list_elem_of_fmap in Hin as (w' & -> & Hw'). by eapply He.
    + unfold register_value_scheme. rewrite El. destruct (existsb _ vs); [done|]. by apply closed_values_overload.
  - unfold register_value_scheme. rewrite El. by apply closed_values_extend.
Qed.

Lemma closed_values_constructors n adt env :
  closed_adt adt -> (forall y, y ∈ param_ids adt -> y < n) -> closed_values n env -> closed_values n (register_constructors adt env).
Proof.
  intros Hc Hb He. unfold register_constructors.
  assert (forall cs env, (forall c, c ∈ cs -> closed_scheme n c.1.2) -> closed_values n env ->
    closed_values n (foldl (fun env c => register_constructor adt c env) env cs)) as H.
  { induction cs as [|[[name scheme] v] cs IH]; intros env' Hcs He'; simpl; [done|]. apply IH; [intros; apply Hcs; by right|].
    assert (closed_scheme n scheme) as Hs by (apply (Hcs (name, scheme, v)); by left).
    unfold register_constructor. apply closed_values_constructor; [by apply closed_values_constructor|done]. }
  apply H; [|done]. intros [[name scheme] v] Hin. simpl. apply (constructor_scheme_closed n adt name); [done|done|].
  apply elem_of_zip_l in Hin. done.
Qed.

(** The headers of the ADTs to come: they have no variants yet. *)
Definition headers (names : list Symbol) (s : TypeSystem) : Prop :=
  forall n, n ∈ names -> exists adt, ts_adts s !! n = Some adt /\ adt_variants adt = [].

Lemma stable_headers names : stable (headers names).
Proof. intros s s' (u & _ & ->) H. exact H. Qed.

Lemma merge_params_ids name ps : forall index source ps',
  merge_zip (merge_param name) index ps source = Ok ps' -> map param_var ps' = map param_var ps.
Proof.
  induction ps as [|p ps IH]; intros index source ps'; [by intros [= <-]|]. destruct source as [|q source]; [by intros [= <-]|].
  simpl. intros (p' & Hp & (ps1 & Hps & [= <-])%rbind_Ok)%rbind_Ok. simpl. f_equal; [|by eapply IH].
  unfold merge_param in Hp. destruct (negb _); [done|]. by apply rbind_Ok in Hp as (docs & _ & [= <-]).
Qed.

Lemma gives_register adt names :
  adt_name adt ∉ names ->
  gives (fun s => headers (adt_name adt :: names) s /\ closed_adt adt /\ forall y, y ∈ param_ids adt -> y < next s)
    (register_adt adt) (fun _ => headers names).
Proof.
  intros Hn. unfold register_adt. eapply gives_steady_then; [apply steady_asks|]. intros existing.
  eapply (gives_then _ _ _ (fun registered s => headers names s /\ closed_adt registered /\
    (forall y, y ∈ param_ids registered -> y < next s))).
  { intros s r s' [(Hh & Hc & Hb) ->] Hw E. destruct (Hh (adt_name adt)) as (header & Hl & Hv); [by left|]. rewrite Hl in E.
    assert (headers names s) as Hh' by (intros n Hin; apply Hh; by right).
    destruct (_ && _); [injection E as <- <-; by split_and!|]. injection E as <- <-. split_and!; [done|done|].
    destruct (merge_adt_docs header adt) as [merged|] eqn:Em; [|done]. unfold merge_adt_docs in Em.
    destruct (negb _); [done|]. destruct (negb _); [done|].
    apply rbind_Ok in Em as (docs & _ & (ps & Hps & (vs & Hvs & [= <-])%rbind_Ok)%rbind_Ok).
    rewrite Hv in Hvs. injection Hvs as <-. split_and!; [done| |].
    - by intros v a y Hin%not_elem_of_nil.
    - intros y. rewrite param_ids_vars. simpl. rewrite (merge_params_ids _ _ _ _ _ Hps), <- param_ids_vars.
      by eapply (wf_params _ Hw). }
  intros registered. eapply (gives_then _ _ _ (fun _ s => headers names s /\ closed_adt registered /\
    (forall y, y ∈ param_ids registered -> y < next s))).
  - apply gives_changes. intros s (Hh & Hc & Hb) [H1 H2 H3 H4 H5]. split_and!; [split; simpl; try done|done| |done|done].
    + intros name adt' v fs f y [[_ <-]|[_ Hl]]%lookup_insert_Some; [by intros; eapply closed_adt_fields|by eapply H3].
    + intros name adt' y [[_ <-]|[_ Hl]]%lookup_insert_Some; [by apply Hb|by eapply H4].
    + intros n Hin. simpl. rewrite lookup_insert_ne by (intros <-; done). by apply Hh.
  - intros ?. apply gives_env. intros s (Hh & Hc & Hb) He. split; [by apply closed_values_constructors|done].
Qed.

(** ** Batches *)

Definition adt_names (decls : list TypeDecl) : list Symbol := map type_decl_name (filter (fun d => is_alias d = false) decls).

Lemma headers_insert names adt s : adt_variants adt = [] -> headers names s -> headers names (with_adts (<[adt_name adt := adt]>) s).
Proof.
  intros Hv Hh n Hn. simpl. destruct (decide (adt_name adt = n)) as [<-|Hne].
  - exists adt. by rewrite lookup_insert_eq.
  - rewrite lookup_insert_ne by done. by apply Hh.
Qed.

Lemma gives_header decl names :
  gives (headers names) (register_type_decl_header decl)
    (fun _ => headers (if is_alias decl then names else type_decl_name decl :: names)).
Proof.
  unfold register_type_decl_header, is_alias. eapply gives_steady_then; [apply steady_when|]. intros ?.
  eapply gives_steady_then; [apply steady_asks|]. intros known. eapply gives_steady_then; [apply steady_when|]. intros ?.
  destruct (type_decl_kind decl) as [e|variants].
  - eapply (gives_then _ _ _ (fun alias s => headers names s /\ alias_typ alias = None)).
    { intros s r s' [[[Hh _] _] _] Hw E. unfold supplies, TypeAlias_new in E.
      pose proof (fresh_params_forward (map Ast.param_name (type_decl_params decl)) (ts_supply s)) as Hn.
      destruct (fresh_params _ _) as [ps u]. injection E as <- <-. simpl in *.
      split_and!; [|done|done|done]. apply (well_formed_supply s); [by exists u|done]. }
    intros alias. apply gives_changes. intros s [Hh Ha] [H1 H2 H3 H4 H5]. split_and!; [split; simpl; try done|done|done].
    intros name alias' body y [[_ <-]|[_ Hl]]%lookup_insert_Some; [simpl; by rewrite Ha|by eapply H5].
  - eapply (gives_then _ _ _ (fun adt s => headers names s /\ adt_variants adt = [] /\ adt_name adt = type_decl_name decl /\
      forall y, y ∈ param_ids adt -> y < next s)).
    { intros s r s' [[[Hh _] _] _] Hw E. unfold supplies, AdtDecl_new in E.
      pose proof (fresh_params_spec (map Ast.param_name (type_decl_params decl)) (ts_supply s)) as Hp.
      pose proof (fresh_params_forward (map Ast.param_name (type_decl_params decl)) (ts_supply s)) as Hn.
      destruct (fresh_params _ _) as [ps u]. injection E as <- <-. simpl in *.
      split_and!; [|done|done|done|done|]; [apply (well_formed_supply s); [by exists u|done]|].
      intros y (p & -> & Hin)%list_elem_of_fmap. by apply Hp. }
    intros adt. apply gives_changes. intros s (Hh & Hv & Hname & Hb) [H1 H2 H3 H4 H5]. rewrite <- Hname, Hv.
    set (header := mkAdtDecl _ _ _ _). assert (param_ids header = param_ids adt) as Hids.
    { unfold header. rewrite !param_ids_vars. simpl. by rewrite copy_docs_vars. }
    split_and!; [split; simpl; try done|done|].
    + intros name adt' v fs f y [[_ <-]|[_ Hl]]%lookup_insert_Some; [by intros ?%not_elem_of_nil|by eapply H3].
    + intros name adt' y [[_ <-]|[_ Hl]]%lookup_insert_Some; [rewrite Hids; by apply Hb|by eapply H4].
    + pose proof (headers_insert names header s eq_refl Hh) as Hh'. simpl in Hh'.
      intros n [->|Hn]%elem_of_cons; [|by apply Hh']. simpl. exists header. by rewrite lookup_insert_eq.
Qed.

Lemma gives_headers decls : forall seen names,
  gives (headers names) (register_type_headers decls seen)
    (fun _ s => headers (adt_names decls ++ names) s /\ NoDup (map type_decl_name decls) /\
       forall d, d ∈ decls -> type_decl_name d ∉ seen).
Proof.
  induction decls as [|d decls IH]; intros seen names; cbn [register_type_headers].
  { apply gives_ret. intros s Hh. split_and!; [done|constructor|by intros d ?%not_elem_of_nil]. }
  eapply (gives_then _ _ _ (fun _ s => headers (if is_alias d then names else type_decl_name d :: names) s /\ type_decl_name d ∉ seen)).
  { apply gives_spanning. eapply gives_steady_then; [apply steady_when|]. intros ?.
    intros s r s' [Hh Hb] Hw E. apply bool_decide_eq_false in Hb.
    destruct (gives_header d names s r s' Hh Hw E) as (? & ? & Hr). split_and!; [done|done|]. by destruct r. }
  intros ? s r s' [Hh Hs] Hw E. destruct (IH _ _ _ _ _ Hh Hw E) as (? & ? & Hr). split_and!; [done|done|].
  destruct r; [|done]. destruct Hr as (Hh' & Hnd & Hns). split_and!.
  - intros n Hn. apply Hh'. unfold adt_names in *. rewrite filter_cons in Hn. destruct (is_alias d); case_decide; try done.
    simpl in Hn. apply elem_of_cons in Hn as [->|Hn%elem_of_app]; apply elem_of_app; [right; by left|].
    destruct Hn; [by left|right; by right].
  - simpl. constructor; [|done]. intros (d' & Hd & Hin)%list_elem_of_fmap. apply (Hns d' Hin). rewrite <- Hd. by left.
  - intros d' [->|Hin]%elem_of_cons; [done|]. intros Hd. apply (Hns d' Hin). by right.
Qed.

Lemma gives_resolve names decl e : gives (headers names) (resolve_alias decl e) (fun _ => headers names).
Proof.
  unfold resolve_alias.
  assert (forall f : TypeSystem -> option TypeAlias, forall er, steady (fun s => ok_or (f s) er s) (fun s a => f s = Some a)) as Hok.
  { intros f er s r s' E. by apply (steady_ok_or (f s) er s r s'). }
  eapply gives_steady_then; [apply (Hok (fun s => ts_aliases s !! type_decl_name decl))|]. intros alias.
  eapply (gives_then _ _ _ (fun t s => headers names s /\ scoped (param_map (alias_params alias)) t /\
    ts_aliases s !! type_decl_name decl = Some alias)).
  { intros s r s' [Hh Ha] Hw. unfold pure_result. intros [= <- <-]. split_and!; [done|done|].
    destruct (type_from_expr _ _ _ _) as [t|] eqn:Et; [|done]. split_and!; [done|by eapply type_from_expr_scoped|done]. }
  intros t. eapply gives_steady_then; [apply (Hok (fun s => ts_aliases s !! type_decl_name decl))|]. intros alias'.
  apply gives_changes. intros s [(Hh & Ht & Ha) Ha'] [H1 H2 H3 H4 H5]. rewrite Ha in Ha'. injection Ha' as <-.
  split_and!; [split; simpl; try done|done|done].
  intros name alias' body y [[_ <-]|[_ Hl]]%lookup_insert_Some; [|by eapply H5]. simpl. intros [= <-] Hy.
  rewrite <- (map_map param_var tv_id). by eapply param_map_scoped.
Qed.

Lemma gives_each {A} (P : TypeSystem -> Prop) (f : A -> checking unit) l :
  (forall a, a ∈ l -> gives P (f a) (fun _ => P)) -> gives P (for_each f l) (fun _ => P).
Proof.
  induction l as [|a l IH]; intros Hf; simpl; [by apply gives_ret|].
  eapply gives_then; [apply Hf; by left|]. intros ?. apply IH. intros; apply Hf; by right.
Qed.

Lemma gives_adts decls :
  NoDup (map type_decl_name decls) ->
  gives (headers (map type_decl_name decls))
    (run_map (fun decl => let~ adt := adt_from_decl fuel decl in let~ _ := register_adt adt in rret adt) decls) (fun _ => always).
Proof.
  induction decls as [|d decls IH]; intros Hnd; simpl; [by apply gives_ret|]. apply NoDup_cons in Hnd as [Hd Hnd].
  eapply (gives_then _ _ _ (fun _ => headers (map type_decl_name decls))).
  - eapply gives_then; [apply gives_adt, stable_headers|]. intros adt.
    intros s r s' (Hh & Hc & Hb & Hname) Hw E. rewrite <- Hname in Hh, Hd.
    assert (gives (fun s => headers (adt_name adt :: map type_decl_name decls) s /\ closed_adt adt /\ forall y, y ∈ param_ids adt -> y < next s)
              (let~ _ := register_adt adt in rret adt) (fun _ => headers (map type_decl_name decls))) as H; [|by apply (H s r s')].
    eapply gives_then; [by apply gives_register|]. intros ?. by apply gives_ret.
  - intros adt. eapply gives_then; [by apply IH|]. intros adts. by apply gives_ret.
Qed.

Lemma gives_types decls : gives always (register_type_decls fuel decls) (fun _ => always).
Proof.
  unfold register_type_decls. eapply gives_then.
  { eapply gives_weaken; [apply (gives_headers decls [] [])|by intros s _ n ?%not_elem_of_nil|intros ? ? H; exact H]. }
  intros ?. assert (forall m : checking (list AdtDecl), (NoDup (map type_decl_name decls) -> gives (headers (adt_names decls)) m (fun _ => always)) ->
    gives (fun s => headers (adt_names decls ++ []) s /\ NoDup (map type_decl_name decls) /\ forall d, d ∈ decls -> type_decl_name d ∉ []) m
      (fun _ => always)) as Hpre.
  { intros m Hm s r s' (Hh & Hnd & _). rewrite app_nil_r in Hh. by apply Hm. }
  apply Hpre. intros Hnd. eapply gives_then.
  { apply gives_each. intros d _. destruct (type_decl_kind d); [apply gives_resolve|by apply gives_ret]. }
  intros ?. eapply gives_then.
  { apply gives_each. intros d _. destruct (is_alias d); [|by apply gives_ret].
    apply (gives_unchanged _ _ (fun _ _ => True)).
    apply (steady_then _ _ (fun _ _ => True)).
    - intros s r s'. by destruct (ts_aliases s !! type_decl_name d); intros [= <- <-].
    - intros alias s r s' E. unfold spanning in E. destruct (check_alias _ _ _ s) as [[r1 s1]|] eqn:E1; [|done]. injection E as <- <-.
      split; [|done]. revert E1. unfold check_alias. intros E1.
      eapply (steady_then _ _ (fun _ _ => True) (fun _ _ => True)) in E1 as [-> _]; [done| |].
      + eapply steady_weaken; [apply steady_asks|done].
      + intros aliases. eapply steady_then; [apply steady_fueled|]. intros ?. eapply steady_weaken; [apply steady_ret|done]. }
  intros ?. apply gives_adts. clear -Hnd. induction decls as [|d decls IH]; [constructor|]. simpl in Hnd.
  apply NoDup_cons in Hnd as [Hd Hnd]. rewrite filter_cons. case_decide; [|by apply IH]. simpl. constructor; [|by apply IH].
  intros (d' & He & Hin)%list_elem_of_fmap. apply Hd. rewrite He. apply list_elem_of_fmap_2. by apply list_elem_of_filter in Hin as [_ Hin].
Qed.
End TypeDeclarations.

(** * A compilation unit *)

(** No class declares a parameter twice. *)
Definition distinct_params (decls : list Decl) : Prop := forall d, d ∈ decls ≫= decl_classes -> NoDup (class_params d).

Lemma gives_decls fuel decls : distinct_params decls -> gives always (register_decls fuel decls) (fun _ => always).
Proof.
  intros Hd. unfold register_decls. eapply gives_then; [apply gives_types|]. intros ?.
  eapply gives_then; [by apply gives_classes|]. intros ?.
  eapply gives_then; [apply gives_for_each; intros; apply gives_declare|]. intros ?.
  eapply gives_then; [apply gives_signatures|]. intros prepared.
  eapply gives_then.
  { apply gives_for_each. intros d _. eapply gives_then; [apply gives_instance|]. intros ?. by apply gives_ret. }
  intros ?. by apply gives_moves; [apply moves_bodies|].
Qed.

(** C3. Declarations in which no class repeats a parameter keep the type system well
    formed, whether they are accepted or not: the schemes in scope quantify all their
    variables, ADTs and aliases mention only their own parameters, the supply is ahead of
    every variable in use and never goes back. The condition is needed: [register_decls]
    accepts [class C a a], and a method of it gets a scheme with a free variable
    ([repeated_class_parameter]). *)
Theorem register_decls_well_formed fuel decls s r s' :
  distinct_params decls -> well_formed s -> register_decls fuel decls s = Some (r, s') ->
  well_formed s' /\ next s <= next s'.
Proof. intros Hd Hw E. by destruct (gives_decls fuel decls Hd s r s' I Hw E) as (? & ? & _). Qed.

(** * Inference after declarations *)

Lemma infer_typed_answers s e :
  well_formed s -> unscoped e = true ->
  exists r s', steps (fun fuel => infer_typed fuel e) s r s' /\ (exists u, s' = with_supply (fun _ => u) s) /\
    match r with
    | Err _ => True
    | Ok (typed_expr, preds, t) =>
        exists σ U typed0 preds0 t0,
          typed_expr = TypedExpr_apply σ typed0 /\ preds = dedup_preds (map (Predicate_apply σ) preds0) /\ t = apply σ t0 /\
          within U σ t0 /\ preds_within U σ preds0 /\ coerces σ (te_typ typed0) t0 /\
          ready U σ (next s') /\ env_dead U (next s') σ (env_values (ts_env s)) /\
          typed (ts_adts s) (next s') (made (next s) U (next s') σ) σ (env_values (ts_env s)) preds0 typed0
    end.
Proof.
  intros Hw Hu. set (st := mkInfer (Unifier_new (ts_limits s)) (ts_supply s)).
  destruct (infer_expr_traced (ts_adts s) (ts_aliases s) (ts_env s) ∅ e st (wf_adts _ Hw) (wf_aliases _ Hw)
              (well_formed_env _ Hw) Hu (closure_new _)) as (r & st' & [N HN] & Hr).
  destruct r as [[[preds t] te]|err].
  - destruct Hr as (σ & U & Hc & Ht & Hp & Hco & Hr & Hd & Hty). destruct (into_subst_closure _ _ Hc) as (u' & [M HM]).
    set (s' := with_supply (fun _ => i_supply st') s).
    set (preds' := dedup_preds (map (Predicate_apply σ) preds)).
    exists (let? _ := check_predicate_kinds (ts_class_info s) preds' in
            let? _ := validate_literal_predicates preds' in
            Ok (TypedExpr_apply σ te, preds', apply σ t)), s'.
    split_and!; [|by exists (i_supply st')|].
    + exists (N `max` M). intros fuel Hf. unfold infer_typed, asks, rthen, with_unifier, spanning. fold st.
      rewrite HN by lia. cbn [spanned map_err]. rewrite HM by lia. cbn [rbind]. fold preds' s'.
      unfold pure_result. destruct (check_predicate_kinds _ _); [|done]. by destruct (validate_literal_predicates _).
    + destruct (check_predicate_kinds _ _); simpl; [|done]. destruct (validate_literal_predicates _); simpl; [|done].
      by exists σ, U, te, preds, t.
  - exists (Err (with_span err (Expr_span e))), (with_supply (fun _ => i_supply st') s).
    split_and!; [|by exists (i_supply st')|done].
    exists N. intros fuel Hf. unfold infer_typed, asks, rthen, with_unifier, spanning. fold st. by rewrite HN by lia.
Qed.

(** C2. Type inference ends and is sound after declarations. Whatever a batch of
    declarations in which no class repeats a parameter does on a well-formed type system,
    [infer_typed] ends afterwards with an answer or an error on every expression whose
    [let]s declare no type parameters. (A class that repeats a parameter is accepted by
    [register_decls] as well, but what follows it is not covered here: see
    [repeated_class_parameter].) On success there are a substitution [σ], which the answer applies, and an
    elaborated expression that is well typed under [σ] and the collected predicates,
    up to the coercions between records and dictionaries; the scheme of every [let]
    and of every recursive group quantifies only variables that are new, still open,
    free neither in the environment of the definition nor in the type or the
    predicates that are returned. *)
Theorem infer_typed_sound fuel decls s0 r0 s e :
  well_formed s0 -> distinct_params decls -> register_decls fuel decls s0 = Some (r0, s) -> unscoped e = true ->
  exists r s', steps (fun fuel => infer_typed fuel e) s r s' /\
    match r with
    | Err _ => True
    | Ok (typed_expr, preds, t) =>
        exists σ U typed0 preds0 t0,
          typed_expr = TypedExpr_apply σ typed0 /\ preds = dedup_preds (map (Predicate_apply σ) preds0) /\ t = apply σ t0 /\
          within U σ t0 /\ preds_within U σ preds0 /\ coerces σ (te_typ typed0) t0 /\
          typed (ts_adts s) (next s') (made (next s) U (next s') σ) σ (env_values (ts_env s)) preds0 typed0
    end.
Proof.
  intros Hw Hd E Hu. destruct (infer_typed_answers s e) as (r & s' & Hs & _ & H); [|done|].
  { by destruct (gives_decls fuel decls Hd s0 r0 s I Hw E) as (? & _). }
  exists r, s'. split; [done|]. destruct r as [[[te preds] t]|]; [|done].
  destruct H as (σ & U & typed0 & preds0 & t0 & H1 & H2 & H3 & H4 & H5 & H6 & _ & _ & H7).
  exists σ, U, typed0, preds0, t0. by split_and!.
Qed.

(** [type Maybe a = Nothing | Just a], [class Default a where default : a],
    [instance Default Bool where default = false],
    [fn wrap<a>(x : a) -> Maybe a = Just x], and [let y = wrap default in (y, wrap 3)]. *)
Definition demo_decls : list Decl :=
  let sp := Span_default in
  let v := mkVar sp in
  let name s := TyName sp (Unqualified s) in
  [DFn (mkFnDecl sp false (v "wrap") ["a"] [(v "x", name "a")] (TyApp sp (name "Maybe") (name "a")) []
          (XApp sp (XVar (v "Just")) (XVar (v "x"))) None);
   DClass (mkClassDecl sp false "Default" ["a"] [] [mkClassMethodSig "default" [] (name "a") None] None);
   DInstance (mkInstanceDecl sp false [] "Default" (name "Bool") []
                [mkInstanceMethodImpl "default" [] None (XBool sp false)] None);
   DType (mkTypeDecl sp false "Maybe" [mkTypeParam "a" None]
            (Adt [mkTypeVariant "Nothing" [] None; mkTypeVariant "Just" [mkTypeVariantArg (name "a") None] None]) None)].

Definition demo_use : Expr :=
  let sp := Span_default in
  let v s := XVar (mkVar sp s) in
  XLet sp (mkVar sp "y") [] None (XApp sp (v "wrap") (v "default"))
    (XTuple sp [v "y"; XApp sp (v "wrap") (XUint sp 3)]).

Lemma demo_distinct : distinct_params demo_decls.
Proof. intros d ->%list_elem_of_singleton. apply NoDup_singleton. Qed.

Lemma register_decls_well_formed_witness :
  distinct_params demo_decls /\ well_formed TypeSystem_new /\
  exists s', register_decls 30 demo_decls TypeSystem_new = Some (Ok tt, s') /\ well_formed s' /\ 0 <= next s'.
Proof.
  split; [apply demo_distinct|]. split; [apply well_formed_new|].
  destruct (register_decls 30 demo_decls TypeSystem_new) as [[r s']|] eqn:E; [|by vm_compute in E].
  assert (r = Ok tt) as -> by (vm_compute in E; by injection E as <-).
  exists s'. split; [done|].
  apply (register_decls_well_formed 30 demo_decls TypeSystem_new (Ok tt) s' demo_distinct well_formed_new E).
Defined.

Lemma infer_typed_sound_witness :
  (match register_decls 30 demo_decls TypeSystem_new with
   | Some (Ok _, s) =>
       match infer_typed 30 demo_use s with
       | Some (Ok (_, preds, TTuple [TApp (TCon c) (TVar _); TApp _ (TVar _)]), _) =>
           map pred_class preds = ["Default"; "Integral"] /\ c = User "Maybe" 1
       | _ => False
       end
   | _ => False
   end) /\
  exists s, register_decls 30 demo_decls TypeSystem_new = Some (Ok tt, s) /\
    exists r s', steps (fun fuel => infer_typed fuel demo_use) s r s' /\
      match r with
      | Err _ => True
      | Ok (typed_expr, preds, t) =>
          exists σ U typed0 preds0 t0,
            typed_expr = TypedExpr_apply σ typed0 /\ preds = dedup_preds (map (Predicate_apply σ) preds0) /\ t = apply σ t0 /\
            within U σ t0 /\ preds_within U σ preds0 /\ coerces σ (te_typ typed0) t0 /\
            typed (ts_adts s) (next s') (made (next s) U (next s') σ) σ (env_values (ts_env s)) preds0 typed0
      end.
Proof.
  split; [vm_compute; by split|].
  destruct (register_decls 30 demo_decls TypeSystem_new) as [[r s]|] eqn:E; [|by vm_compute in E].
  assert (r = Ok tt) as -> by (vm_compute in E; by injection E as <-).
  exists s. split; [done|].
  apply (infer_typed_sound 30 demo_decls TypeSystem_new (Ok tt) s demo_use well_formed_new demo_distinct E). reflexivity.
Defined.
