(* ===== verification/DeclSpec.v ===== *)
(** What the declaration of functions does to the values in scope: all of a batch is
    registered, or nothing is; and what the declarations let through. *)

From stdpp Require Import sorting.
From S2P Require Import Prelude Span Types BTree Unify UnifyComplete Unifier UnifierSound.
From S2P Require Import Syntax Ast Adts TypedExprs TypeEnv TypeClasses LetRec Infer InferExpr Typing InferRuns InferPattern InferAnswers InferCases InferApps InferLets InferSound InferType Keeps AdtFamily TypeDecls ClassDecls FnDecls DeclStates.

Definition fn_id (d : FnDecl) : Symbol := var_name (fn_name d).

(** Only values, forward declarations and the supply change, and only those of [names]
    among the first two. *)
Definition values_move (names : list Symbol) (s s' : TypeSystem) : Prop :=
  (exists env declared u, next s <= counter u /\
     s' = with_supply (fun _ => u) (with_env (fun _ => env) (with_declared (fun _ => declared) s)) /\
     env_type_vars env = env_type_vars (ts_env s)) /\
  forall n, n ∉ names ->
    TypeEnv_lookup (ts_env s') n = TypeEnv_lookup (ts_env s) n /\ (n ∈ ts_declared_values s' <-> n ∈ ts_declared_values s).

Lemma values_move_refl names s : values_move names s s.
Proof. split; [|done]. exists (ts_env s), (ts_declared_values s), (ts_supply s). split_and!; [done|by destruct s|done]. Qed.

Lemma values_move_trans names1 names2 s1 s2 s3 :
  values_move names1 s1 s2 -> values_move names2 s2 s3 -> values_move (names1 ++ names2) s1 s3.
Proof.
  intros [(e1 & d1 & u1 & Hu1 & -> & Hv1) H1] [(e2 & d2 & u2 & Hu2 & -> & Hv2) H2]. split.
  - exists e2, d2, u2. simpl in *. split_and!; [lia|done|congruence].
  - intros n [Hn1 Hn2]%not_elem_of_app. destruct (H1 n Hn1) as [<- <-], (H2 n Hn2) as [<- <-]. done.
Qed.

Lemma values_move_weaken names names' s s' : names ⊆ names' -> values_move names s s' -> values_move names' s s'.
Proof. intros Hs [H1 H2]. split; [done|]. intros n Hn. apply H2. by intros ?%Hs. Qed.

Lemma supply_values names s s' : supply_moves s s' -> values_move names s s'.
Proof.
  intros (u & Hu & ->). split; [|done]. exists (ts_env s), (ts_declared_values s), u. split_and!; [done|by destruct s|done].
Qed.

#[export] Instance values_move_preorder names : PreOrder (values_move names).
Proof.
  split; [intros s; apply values_move_refl|]. intros x y z H1 H2. eapply values_move_weaken; [|by eapply values_move_trans].
  intros n [?|?]%elem_of_app; done.
Qed.

(** ** Signatures *)

Lemma keeps_weaken {S A} (R R' : S -> S -> Prop) (m : stateful S A) : (forall s s', R s s' -> R' s s') -> keeps R m -> keeps R' m.
Proof. intros HR Hm s r s' E. by eapply HR, Hm. Qed.

(** ** What a signature declares *)

(** The type that an annotation denotes where [s] is the state and [vars] the variables
    of the type parameters. *)
Definition denotes (s : TypeSystem) (vars : gmap Symbol TypeVar) (expr : TypeExpr) (t : ty) : Prop :=
  exists n, type_from_annotation n (ts_adts s) (ts_aliases s) expr vars = Some (Ok t).

(** The type parameters with variables of their own, from [k] on. *)
Fixpoint numbered (k : nat) (params : list Symbol) : list (Symbol * TypeVar) :=
  match params with
  | [] => []
  | param :: params => (param, TypeVar_new k (Some param)) :: numbered (S k) params
  end.

(** The scheme that the signature of a function declares: it quantifies the type
    parameters, of which there are no two of a name, constrains them as the function
    does, and its type is the function type from the annotated parameters to the
    annotated result. *)
Definition declares_scheme (s : TypeSystem) (d : FnDecl) (scheme : Scheme) : Prop :=
  exists k params ret preds,
    let type_vars := numbered k (fn_type_params d) in
    let vars := list_to_map type_vars in
    next s <= k /\ NoDup (fn_type_params d) /\
    Forall2 (fun p t => denotes s vars p.2 t) (fn_params_ d) params /\
    denotes s vars (fn_ret d) ret /\
    Forall2 (fun c p => pred_class p = to_dotted_symbol (constraint_class c) /\ denotes s vars (constraint_typ c) (pred_typ p))
      (fn_constraints d) preds /\
    scheme = mkScheme (map snd type_vars) preds (foldr TFun ret params).

Lemma numbered_names k params : map fst (numbered k params) = params.
Proof. revert k. induction params as [|p l IH]; intros k; simpl; [done|by rewrite IH]. Qed.

Lemma numbered_from k params tv : tv ∈ map snd (numbered k params) -> k <= tv_id tv.
Proof.
  revert k. induction params as [|p l IH]; intros k; simpl; [by intros ?%not_elem_of_nil|].
  intros [->|H]%elem_of_cons; [done|]. apply IH in H. lia.
Qed.

Lemma numbered_sorted k params : StronglySorted tv_le (map snd (numbered k params)).
Proof.
  revert k. induction params as [|p l IH]; intros k; simpl; constructor; [done|]. apply Forall_forall. intros tv H.
  apply numbered_from in H. unfold tv_le. simpl. lia.
Qed.

Lemma numbered_once k params x y :
  x ∈ map snd (numbered k params) -> y ∈ map snd (numbered k params) -> tv_id x = tv_id y -> x = y.
Proof.
  revert k. induction params as [|p l IH]; intros k; simpl; [by intros ?%not_elem_of_nil|].
  intros [->|Hx]%elem_of_cons [->|Hy]%elem_of_cons; [done| | |by eauto]; simpl.
  - apply numbered_from in Hy. lia.
  - apply numbered_from in Hx. lia.
Qed.

Lemma insert_by_perm {A} (key : A -> string) x l : insert_by key x l ≡ₚ x :: l.
Proof. induction l as [|y l IH]; simpl; [done|]. destruct (str_le _ _); [done|]. rewrite IH. apply perm_swap. Qed.

Lemma sort_by_key_perm {A} (key : A -> string) l : sort_by_key key l ≡ₚ l.
Proof. induction l as [|x l IH]; simpl; [done|]. by rewrite insert_by_perm, IH. Qed.

Lemma sorted_numbered k params : NoDup params ->
  sorted_type_vars (list_to_map (numbered k params)) = map snd (numbered k params).
Proof.
  intros Hnd. unfold sorted_type_vars.
  assert (Hp : merge_sort tv_le (map_values (list_to_map (numbered k params))) ≡ₚ map snd (numbered k params)).
  { rewrite merge_sort_Permutation. unfold map_values. rewrite sort_by_key_perm, map_to_list_to_map; [done|].
    change (NoDup (map fst (numbered k params))). by rewrite numbered_names. }
  assert (Hle : Total tv_le) by (intros x y; unfold tv_le; lia).
  assert (Transitive tv_le) by (intros x y z; unfold tv_le; lia).
  apply (StronglySorted_unique_strong tv_le); [|by apply StronglySorted_merge_sort|apply numbered_sorted|done].
  intros x y Hx Hy H1 H2. rewrite Hp in Hx. apply (numbered_once k params); [done|done|]. unfold tv_le in *. lia.
Qed.

Lemma params_numbered params : forall vars0 u vars u',
  extend_type_params params vars0 u = (Ok tt, vars, u') ->
  NoDup params /\ (forall p, p ∈ params -> vars0 !! p = None) /\
  vars = list_to_map (numbered (counter u) params) ∪ vars0.
Proof.
  induction params as [|p params IH]; intros vars0 u vars u'; simpl.
  { intros [= <- _]. split_and!; [constructor|by intros p ?%not_elem_of_nil|by rewrite (left_id_L ∅ (∪))]. }
  destruct (vars0 !! p) eqn:Hp; [done|]. intros H. apply IH in H as (Hnd & Hnew & ->).
  assert (Hpp : p ∉ params).
  { intros Hin. specialize (Hnew p Hin). by rewrite lookup_insert_eq in Hnew. }
  split_and!.
  - by constructor.
  - intros q [->|Hq]%elem_of_cons; [done|]. specialize (Hnew q Hq). by apply lookup_insert_None in Hnew as [? _].
  - simpl. rewrite Nat.add_1_r. rewrite <- insert_union_r; [by rewrite insert_union_l|].
    apply not_elem_of_list_to_map_1. change (p ∉ map fst (numbered (S (counter u)) params)). by rewrite numbered_names.
Qed.

Lemma span_free_Ok {A} span (r : result TypeError A) x : spanned span r = Ok x -> r = Ok x.
Proof. by destruct r. Qed.

Lemma signature_denotes s vars params ret t :
  denotes s vars (signature params ret) t ->
  exists ts r, Forall2 (fun p t => denotes s vars p.2 t) params ts /\ denotes s vars ret r /\ t = foldr TFun r ts.
Proof.
  intros [n H]. revert n t H. induction params as [|p params IH]; intros n t H.
  { exists [], t. split_and!; [constructor|by exists n|done]. }
  unfold type_from_annotation in H. apply fbind_Ok in H as (t1 & Hraw & Hexp).
  injection Hraw as Hraw. cbn [signature foldr type_from_annotation_raw] in Hraw. apply span_free_Ok in Hraw.
  apply rbind_Ok in Hraw as (a & Ha & (r & Hr & [= <-])%rbind_Ok).
  destruct n as [|n]; [done|]. unfold expand_type_aliases in Hexp. simpl in Hexp.
  apply fbind_Ok in Hexp as (t2 & (a' & Ha' & (r' & Hr' & [= <-])%fbind_Ok)%fbind_Ok & Hhead).
  unfold expand_head in Hhead. simpl in Hhead. injection Hhead as <-.
  destruct (IH n r') as (ts & r0 & Hts & Hret & ->).
  { unfold type_from_annotation. apply fbind_Ok. exists r. split; [unfold lift; by rewrite Hr|done]. }
  exists (a' :: ts), r0. split_and!; [constructor; [|done]|done|done].
  exists n. unfold type_from_annotation. apply fbind_Ok. exists a. split; [unfold lift; by rewrite Ha|done].
Qed.

Lemma declares_before names s s' d scheme : values_move names s s' -> declares_scheme s' d scheme -> declares_scheme s d scheme.
Proof.
  intros [(env & dv & u & Hu & -> & _) _] (k & params & ret & preds & Hk & H). exists k, params, ret, preds.
  split; [simpl in Hk; lia|]. exact H.
Qed.

Section Functions.
Variable fuel : nat.

Lemma signature_declares d s vars t preds s' :
  signature_type fuel (fn_type_params d) (fn_params_ d) (fn_ret d) (fn_constraints d) s = Some (Ok (vars, t, preds), s') ->
  declares_scheme s d (mkScheme (sorted_type_vars vars) preds t).
Proof.
  unfold signature_type, rthen. unfold supplies_result, type_vars_from_params.
  destruct (extend_type_params _ _ _) as [[[[]|e] vars1] u] eqn:Ep; simpl; [|done].
  apply params_numbered in Ep as (Hnd & _ & ->). rewrite (right_id_L ∅ (∪)).
  set (vars1 := list_to_map _). unfold annotation_in, pure_fueled.
  destruct (type_from_annotation _ _ _ _ _) as [[t1|e]|] eqn:Et; try done. simpl in Et.
  unfold constraints_in, pure_fueled. destruct (predicates_from_constraints _ _ _ _ _) as [[ps|e]|] eqn:Ec; try done.
  simpl in Ec. intros [= <- <- <- _].
  destruct (signature_denotes s vars1 (fn_params_ d) (fn_ret d) t1) as (params & ret & Hps & Hret & ->); [by exists fuel|].
  exists (counter (ts_supply s)), params, ret, ps. fold vars1. split_and!; [done|done|done|done| |].
  - unfold predicates_from_constraints in Ec. apply map_fueled_Ok in Ec. eapply Forall2_impl; [exact Ec|].
    intros c p (t & Ht & [= <-])%fbind_Ok. split; [done|]. by exists fuel.
  - unfold vars1. by rewrite sorted_numbered.
Qed.

Lemma moves_annotation e vars : keeps supply_moves (annotation_in fuel e vars).
Proof.
  intros s r s' E. unfold annotation_in, pure_fueled in E. destruct (type_from_annotation _ _ _ _ _); [|done].
  injection E as _ <-. reflexivity.
Qed.

Lemma moves_constraints cs vars : keeps supply_moves (constraints_in fuel cs vars).
Proof.
  intros s r s' E. unfold constraints_in, pure_fueled in E. destruct (predicates_from_constraints _ _ _ _ _); [|done].
  injection E as _ <-. reflexivity.
Qed.

Lemma moves_signature tps ps ret cs : keeps supply_moves (signature_type fuel tps ps ret cs).
Proof.
  unfold signature_type. apply keeps_then; [apply _| |].
  - apply moves_supplies_result. intros u. unfold type_vars_from_params. pose proof (extend_type_params_forward tps ∅ u) as H.
    by destruct (extend_type_params _ _ _) as [[? ?] ?].
  - intros vars. apply keeps_then; [apply _|apply moves_annotation|]. intros t.
    apply keeps_then; [apply _|apply moves_constraints|]. intros preds. apply keeps_ret. apply _.
Qed.

(** What a prepared function is. *)
Definition prepared_from (s : TypeSystem) (seen : list Symbol) (d : FnDecl) : Prop :=
  fn_id d ∉ seen /\ (TypeEnv_lookup (ts_env s) (fn_id d) = None \/ fn_id d ∈ ts_declared_values s).

Lemma claim_name_spec name s r s' :
  claim_name name s = Some (r, s') ->
  values_move [name] s s' /\ (r = Ok tt -> TypeEnv_lookup (ts_env s) name = None \/ name ∈ ts_declared_values s).
Proof using Type. clear fuel.
  unfold claim_name, rthen, asks. destruct (TypeEnv_lookup (ts_env s) name) as [vs|]; [|intros [= <- <-]; split; [apply values_move_refl|by left]].
  destruct (decide _) as [Hd|]; [|intros [= <- <-]; by split; [apply values_move_refl|]]. intros [= <- <-]. split; [|by right].
  split.
  - exists (TypeEnv_remove name (ts_env s)), (ts_declared_values s ∖ {[ name ]}), (ts_supply s). by split_and!; [|destruct s|].
  - intros n Hn. apply not_elem_of_cons in Hn as [Hn _]. simpl. split; [|set_solver].
    unfold TypeEnv_lookup, TypeEnv_remove. simpl. by apply lookup_delete_ne.
Qed.

Lemma prepare_fn_spec seen d s r s' :
  prepare_fn_decl fuel seen d s = Some (r, s') ->
  values_move [fn_id d] s s' /\
  forall i, r = Ok i -> prepared_from s seen d /\ prepared_decl i.1 = d /\ declares_scheme s d i.2.
Proof.
  unfold prepare_fn_decl. fold (fn_id d). unfold rthen at 1. unfold when. case_bool_decide as Hs.
  { intros [= <- <-]. split; [apply values_move_refl|done]. }
  unfold rret at 1, rthen at 1. destruct (claim_name (fn_id d) s) as [[[[]|e] s1]|] eqn:Ec; [| |done];
    destruct (claim_name_spec _ _ _ _ Ec) as [Hm Hn]; [|intros [= <- <-]; by split].
  specialize (Hn eq_refl). intros E.
  set (m := rthen (signature_type fuel (fn_type_params d) (fn_params_ d) (fn_ret d) (fn_constraints d)) _) in E.
  assert (keeps supply_moves m) as Hk.
  { apply keeps_then; [apply _|apply moves_signature|]. intros [[vars t] preds].
    apply keeps_then; [apply _|eapply steady_moves, steady_declared_preds|]. intros ?.
    apply keeps_then; [apply _|apply keeps_result; apply _|]. intros ?. apply keeps_ret. apply _. }
  split.
  - etrans; [exact Hm|]. eapply supply_values, Hk, E.
  - intros i ->. split; [by split|]. unfold m in E. clear m Hk. unfold rthen in E.
    destruct (signature_type _ _ _ _ _ s1) as [[[[[vars t] preds]|] s2]|] eqn:Es; try done.
    destruct (check_declared_preds _ _ _ _ s2) as [[[|] s3]|]; try done.
    unfold pure_result in E. destruct (reject_ambiguous_scheme _); [|done]. injection E as <- <-. split; [done|].
    eapply declares_before; [exact Hm|]. by eapply signature_declares.
Qed.

Lemma prepare_fns_spec decls : forall seen s r s',
  prepare_fn_decls fuel decls seen s = Some (r, s') ->
  values_move (map fn_id decls) s s' /\
  forall infos, r = Ok infos ->
    map (fun i => prepared_decl i.1) infos = decls /\ NoDup (map fn_id decls) /\
    (forall i, i ∈ infos -> declares_scheme s (prepared_decl i.1) i.2) /\
    forall d, d ∈ decls -> prepared_from s seen d.
Proof.
  induction decls as [|d decls IH]; intros seen s r s'; simpl.
  { intros [= <- <-]. split; [apply values_move_refl|]. intros infos [= <-].
    split_and!; [done|constructor|by intros i ?%not_elem_of_nil|by intros d ?%not_elem_of_nil]. }
  unfold rthen at 1. destruct (spanning _ _ s) as [[r1 s1]|] eqn:E1; [|done]. unfold spanning in E1.
  destruct (prepare_fn_decl _ _ _ s) as [[r0 s0]|] eqn:E0; [|done]. injection E1 as <- <-.
  destruct (prepare_fn_spec _ _ _ _ _ E0) as [Hm Hi]. destruct r0 as [i|e]; simpl.
  2:{ intros [= <- <-]. split; [|done]. eapply values_move_weaken; [|exact Hm]. intros n ->%list_elem_of_singleton. by left. }
  destruct (Hi i eq_refl) as (Hp & Hd & Hdec). unfold rthen. destruct (prepare_fn_decls _ _ _ s0) as [[r2 s2]|] eqn:E2; [|done].
  destruct (IH _ _ _ _ E2) as [Hm2 Hi2].
  assert (values_move (fn_id d :: map fn_id decls) s s2) as Hmv by exact (values_move_trans _ _ _ _ _ Hm Hm2).
  destruct r2 as [is'|e]; intros [= <- <-]; (split; [done|]); [|done]. intros infos [= <-].
  destruct (Hi2 is' eq_refl) as (Hdecls & Hnd & Hdecs & Hps).
  assert (forall d', d' ∈ decls -> fn_id d' <> fn_id d /\ fn_id d' ∉ seen) as Hne.
  { intros d' Hd'. destruct (Hps d' Hd') as [Hns _]. apply not_elem_of_cons in Hns. done. }
  split_and!.
  - simpl. by rewrite Hd, Hdecls.
  - constructor; [|done]. intros (d' & He & Hin)%list_elem_of_fmap. by destruct (Hne d' Hin).
  - intros j [->|Hj]%elem_of_cons; [by rewrite Hd|]. eapply declares_before; [exact Hm|by apply Hdecs].
  - intros d' [->|Hin]%elem_of_cons; [done|]. destruct (Hne d' Hin) as [Hneq Hns]. split; [done|].
    destruct (Hps d' Hin) as [_ Hl]. destruct Hm as [_ Hrest].
    destruct (Hrest (fn_id d')) as [<- <-]; [|done]. by intros ?%list_elem_of_singleton.
Qed.

(** The signatures of a batch, put in scope one after the other. *)
Definition put_fns (infos : list (PreparedFnDecl * Scheme)) (env : TypeEnv) : TypeEnv :=
  foldl (fun env info => extend_registered (fn_id (prepared_decl info.1)) (fn_value (prepared_decl info.1) info.2) env) env infos.

Lemma put_fns_other infos n : forall env,
  n ∉ map (fun i => fn_id (prepared_decl i.1)) infos -> TypeEnv_lookup (put_fns infos env) n = TypeEnv_lookup env n.
Proof using Type. clear fuel.
  induction infos as [|i infos IH]; intros env; simpl; [done|]. intros [Hn Hns]%not_elem_of_cons. rewrite IH by done.
  by apply lookup_insert_ne.
Qed.

Lemma put_fns_one infos i : forall env,
  NoDup (map (fun i => fn_id (prepared_decl i.1)) infos) -> i ∈ infos ->
  TypeEnv_lookup (put_fns infos env) (fn_id (prepared_decl i.1)) = Some [fn_value (prepared_decl i.1) i.2].
Proof using Type. clear fuel.
  induction infos as [|j infos IH]; intros env; simpl; [by intros _ ?%not_elem_of_nil|]. intros [Hj Hnd]%NoDup_cons [->|Hi]%elem_of_cons.
  - rewrite put_fns_other by done. apply lookup_insert_eq.
  - by apply IH.
Qed.

Lemma put_fns_vars infos : forall env, env_type_vars (put_fns infos env) = env_type_vars env.
Proof using Type. clear fuel. induction infos as [|i infos IH]; intros env; simpl; [done|]. by rewrite IH. Qed.

(** Rolling back leaves the supply moved only. *)
Lemma rolling_back_spec {A} names (m : checking A) s r s' :
  (forall r s', m s = Some (r, s') -> values_move names s s') ->
  rolling_back m s = Some (r, s') ->
  match r with Err _ => supply_moves s s' | Ok _ => m s = Some (r, s') end.
Proof using Type. clear fuel.
  intros Hm. unfold rolling_back. destruct (m s) as [[[a|e] s1]|] eqn:E; [| |done]; intros [= <- <-]; [done|].
  destruct (Hm _ _ eq_refl) as [(env & d & u & Hu & -> & _) _]. exists u. split; [done|]. by destruct s.
Qed.

Lemma signatures_spec decls s r s' :
  register_fn_decl_signatures fuel decls s = Some (r, s') ->
  match r with
  | Err _ => supply_moves s s'
  | Ok infos =>
      values_move (map fn_id decls) s s' /\ NoDup (map fn_id decls) /\
      forall d, d ∈ decls -> (TypeEnv_lookup (ts_env s) (fn_id d) = None \/ fn_id d ∈ ts_declared_values s) /\
        exists scheme, declares_scheme s d scheme /\ TypeEnv_lookup (ts_env s') (fn_id d) = Some [fn_value d scheme]
  end.
Proof.
  destruct decls as [|d decls].
  { intros [= <- <-]. split_and!; [apply values_move_refl|constructor|by intros ? ?%not_elem_of_nil]. }
  unfold register_fn_decl_signatures. set (ds := d :: decls). set (m := rthen (prepare_fn_decls fuel ds []) _).
  assert (forall r s', m s = Some (r, s') -> values_move (map fn_id ds) s s' /\ match r with
      | Err _ => True
      | Ok _ => NoDup (map fn_id ds) /\ forall d, d ∈ ds -> (TypeEnv_lookup (ts_env s) (fn_id d) = None \/ fn_id d ∈ ts_declared_values s) /\
          exists scheme, declares_scheme s d scheme /\ TypeEnv_lookup (ts_env s') (fn_id d) = Some [fn_value d scheme]
      end) as Hm.
  { intros r0 s0. unfold m, rthen. destruct (prepare_fn_decls _ _ _ s) as [[[infos|e] s1]|] eqn:E; [| |done];
      destruct (prepare_fns_spec _ _ _ _ _ E) as [Hmv Hi]; [|intros [= <- <-]; by split].
    destruct (Hi infos eq_refl) as (Hds & Hnd & Hdecs & Hps). unfold changes. intros [= <- <-].
    assert (map (fun i => fn_id (prepared_decl i.1)) infos = map fn_id ds) as Hids by (rewrite <- Hds, map_map; done).
    fold fn_id. change (foldl _ (ts_env s1) infos) with (put_fns infos (ts_env s1)). split.
    - destruct Hmv as [(env & dv & u & Hu & -> & Hv) Hrest]. split.
      + exists (put_fns infos env), dv, u. split_and!; [done|done|]. by rewrite put_fns_vars.
      + intros n Hn. destruct (Hrest n Hn) as [H1 H2]. split; [|done]. rewrite <- H1. simpl. by apply put_fns_other; rewrite Hids.
    - split; [done|]. intros d' Hd'. split; [by destruct (Hps d' Hd')|]. rewrite <- Hds in Hd'.
      apply list_elem_of_fmap in Hd' as (i & -> & Hin). exists i.2. split; [by apply Hdecs|].
      simpl. apply put_fns_one; [by rewrite Hids|done]. }
  intros E. pose proof (rolling_back_spec (map fn_id ds) m s r s' (fun r s' E => proj1 (Hm r s' E)) E) as H.
  destruct r as [infos|]; [|done]. destruct (Hm _ _ H) as [? [? ?]]. by split_and!.
Qed.

(** C39. A batch of functions is registered as a whole or not at all. When
    [register_fn_decls] fails, nothing but the supply of type variables has changed.
    When it succeeds, the names of the batch are distinct, each was unbound or only
    forward-declared, each is now bound to the scheme that its signature declares ([declares_scheme])
    alone - its type parameters as quantified variables of their own, its constraints as
    the predicates and the function type from its annotated parameters to its annotated
    result -, and no other value and no other forward declaration has changed. *)
Theorem register_fn_decls_atomic decls s r s' :
  register_fn_decls fuel decls s = Some (r, s') ->
  match r with
  | Err _ => supply_moves s s'
  | Ok _ =>
      values_move (map fn_id decls) s s' /\ NoDup (map fn_id decls) /\
      forall d, d ∈ decls -> (TypeEnv_lookup (ts_env s) (fn_id d) = None \/ fn_id d ∈ ts_declared_values s) /\
        exists scheme, declares_scheme s d scheme /\ TypeEnv_lookup (ts_env s') (fn_id d) = Some [fn_value d scheme]
  end.
Proof.
  destruct decls as [|d decls].
  { intros [= <- <-]. split_and!; [apply values_move_refl|constructor|by intros ? ?%not_elem_of_nil]. }
  unfold register_fn_decls. set (ds := d :: decls). set (m := rthen (register_fn_decl_signatures fuel ds) _).
  assert (forall r s', m s = Some (r, s') -> values_move (map fn_id ds) s s' /\ match r with
      | Err _ => True
      | Ok _ => NoDup (map fn_id ds) /\ forall d, d ∈ ds -> (TypeEnv_lookup (ts_env s) (fn_id d) = None \/ fn_id d ∈ ts_declared_values s) /\
          exists scheme, declares_scheme s d scheme /\ TypeEnv_lookup (ts_env s') (fn_id d) = Some [fn_value d scheme]
      end) as Hm.
  { intros r0 s0. unfold m, rthen. destruct (register_fn_decl_signatures _ _ s) as [[r1 s1]|] eqn:E; [|done].
    pose proof (signatures_spec _ _ _ _ E) as Hs. destruct r1 as [infos|e].
    - destruct Hs as (Hmv & Hnd & Hds). intros E2. destruct (moves_bodies fuel infos s1 r0 s0 E2) as (u & Hu & ->). split.
      + etrans; [exact Hmv|]. apply supply_values. by exists u.
      + by destruct r0.
    - intros [= <- <-]. split; [by apply supply_values|done]. }
  intros E. pose proof (rolling_back_spec (map fn_id ds) m s r s' (fun r s' E => proj1 (Hm r s' E)) E) as H.
  destruct r as [[]|]; [|done]. destruct (Hm _ _ H) as [? [? ?]]. by split_and!.
Qed.
End Functions.

(** [fn twice(f : i32 -> i32, x : i32) -> i32 = f (f x)], in a batch of its own and in a
    batch that repeats it. *)
Definition demo_twice : FnDecl :=
  let sp := Span_default in
  let v := mkVar sp in
  let int := TyName sp (Unqualified "i32") in
  let x s := XVar (v s) in
  mkFnDecl sp false (v "twice") [] [(v "f", TyFun sp int int); (v "x", int)] int []
    (XApp sp (x "f") (XApp sp (x "f") (x "x"))) None.

Lemma register_fn_decls_atomic_witness :
  (exists s, register_fn_decls 30 [demo_twice] TypeSystem_new = Some (Ok tt, s) /\ values_move ["twice"] TypeSystem_new s) /\
  (exists e s, register_fn_decls 30 [demo_twice; demo_twice] TypeSystem_new = Some (Err e, s) /\ supply_moves TypeSystem_new s).
Proof.
  split.
  - destruct (register_fn_decls 30 [demo_twice] TypeSystem_new) as [[r s]|] eqn:E; [|by vm_compute in E].
    assert (r = Ok tt) as -> by (vm_compute in E; by injection E as <- <-).
    exists s. split; [done|]. apply (register_fn_decls_atomic 30 [demo_twice] TypeSystem_new (Ok tt) s E).
  - destruct (register_fn_decls 30 [demo_twice; demo_twice] TypeSystem_new) as [[[[]|e] s]|] eqn:E;
      [by vm_compute in E| |by vm_compute in E].
    exists e, s. split; [done|]. apply (register_fn_decls_atomic 30 [demo_twice; demo_twice] TypeSystem_new (Err e) s E).
Defined.

(** * What the declarations let through

    Examples that the kernel computes. *)

Definition name_type (s : string) : TypeExpr := TyName Span_default (Unqualified s).
Definition name_expr (s : string) : Expr := XVar (mkVar Span_default s).

(** The type of an expression after declarations. *)
Definition type_after (decls : list Decl) (e : Expr) : option (result TypeError ty) :=
  match register_decls 30 decls TypeSystem_new with
  | Some (Ok _, s) => match infer 30 e s with
                      | Some (Ok (_, t), _) => Some (Ok t)
                      | Some (Err e, _) => Some (Err e)
                      | None => None
                      end
  | Some (Err e, _) => Some (Err e)
  | None => None
  end.

(** [fn bad<a>(x : a) -> a = true] is accepted: the parameters of a signature are
    variables that the body may solve, while the scheme in scope quantifies them. *)
Lemma signature_parameters_are_flexible :
  let sp := Span_default in
  let bad := DFn (mkFnDecl sp false (mkVar sp "bad") ["a"] [(mkVar sp "x", name_type "a")] (name_type "a") [] (XBool sp true) None) in
  type_after [bad] (XApp sp (name_expr "bad") (XChar sp 99)) = Some (Ok (ty_builtin Char)).
Proof. by vm_compute. Qed.

(** Merging the documentation of two declarations of one shape may bring a record
    from the other one, with the other one's parameters. *)
Lemma merged_record_escapes_parameters :
  let adt i arg := mkAdtDecl "Box" [mkAdtParam "a" (TypeVar_new i (Some "a")) None] [mkAdtVariant "Box" [arg] None] None in
  let a i := TVar (TypeVar_new i (Some "a")) in
  exists merged,
    merge_adt_docs (adt 5 (Positional (TRecord [("x", a 5)]) None)) (adt 9 (RecordArgument [mkAdtField "x" (a 9) None] None)) = Ok merged /\
    map (fun c => (c.2)) (constructor_schemes merged)
      = [mkScheme [TypeVar_new 5 (Some "a")] [] (TFun (TRecord [("x", a 9)]) (TApp (Type_con "Box" 1) (a 5)))].
Proof. eexists. split; [by vm_compute|by vm_compute]. Qed.

(** A class may repeat a parameter; the first of the two variables is then free in the
    schemes of its methods. *)
Lemma repeated_class_parameter :
  let sp := Span_default in
  let decl := mkClassDecl sp false "C" ["a"; "a"] [] [mkClassMethodSig "op" [] (name_type "a") None] None in
  match register_decls 30 [DClass decl] TypeSystem_new with
  | Some (Ok _, s) =>
      (map value_scheme <$> TypeEnv_lookup (ts_env s) "op")
        = Some [mkScheme [TypeVar_new 1 (Some "a")]
                  [mkPredicate "C" (TTuple [TVar (TypeVar_new 0 (Some "a")); TVar (TypeVar_new 1 (Some "a"))])]
                  (TVar (TypeVar_new 1 (Some "a")))]
  | _ => False
  end.
Proof. by vm_compute. Qed.
