(* ===== verification/Modules.v ===== *)
(** Modules by name: module identifiers ([rex-engine/src/modules/module_id.rs]), the keys
    that qualify their symbols, export tables ([modules/types.rs]), packages
    ([modules/module.rs]), and how imports bind names ([modules/mod.rs]). *)

From S2P Require Import Prelude Span Types BTree Syntax Ast.

(** * Identifiers *)

Record ModuleId : Type := mkModuleId { id_segments : list string }.
Record ModuleIdError : Type := mkModuleIdError { id_error_input : string; id_error_reason : string }.

#[export] Instance ModuleId_eq_dec : EqDecision ModuleId.
Proof. solve_decision. Defined.

(** [char::is_ascii_alphabetic] and [char::is_ascii_alphanumeric] of a byte: all bytes of
    a character past ASCII are at least 128. *)
Definition ascii_alphabetic (c : Ascii.ascii) : bool :=
  let n := Ascii.N_of_ascii c in ((65 <=? n) && (n <=? 90) || (97 <=? n) && (n <=? 122))%N.
Definition ascii_alphanumeric (c : Ascii.ascii) : bool :=
  let n := Ascii.N_of_ascii c in ascii_alphabetic c || ((48 <=? n) && (n <=? 57))%N.
Definition underscore : Ascii.ascii := Ascii.ascii_of_N 95.
Definition dot : Ascii.ascii := Ascii.ascii_of_N 46.

Fixpoint forall_chars (p : Ascii.ascii -> bool) (s : string) : bool :=
  match s with
  | EmptyString => true
  | String c s => p c && forall_chars p s
  end.

Definition validate_segment (segment : string) : result ModuleIdError unit :=
  match segment with
  | EmptyString => Err (mkModuleIdError "" "module id segment cannot be empty")
  | String first chars =>
      if negb (bool_decide (first = underscore) || ascii_alphabetic first)
      then Err (mkModuleIdError segment "module id segment must start with a letter or underscore")
      else if negb (forall_chars (fun ch => bool_decide (ch = underscore) || ascii_alphanumeric ch) chars)
      then Err (mkModuleIdError segment "module id segment must contain only letters, digits, or underscores")
      else Ok tt
  end.

Fixpoint validate_segments (segments : list string) : result ModuleIdError unit :=
  match segments with
  | [] => Ok tt
  | s :: segments => let? _ := validate_segment s in validate_segments segments
  end.

Definition ModuleId_from_segments (segments : list string) : result ModuleIdError ModuleId :=
  if bool_decide (segments = []) then Err (mkModuleIdError "" "module id cannot be empty")
  else let? _ := validate_segments segments in Ok (mkModuleId segments).

(** [str::split('.')] *)
Fixpoint split_dot (s : string) : list string :=
  match s with
  | EmptyString => [""]
  | String c s =>
      if decide (c = dot) then "" :: split_dot s
      else match split_dot s with
           | x :: xs => String c x :: xs
           | [] => [String c ""]
           end
  end.

(** The encodings of the characters that [str::trim] removes. *)
Definition bytes (l : list N) : string := foldr (fun n s => String (Ascii.ascii_of_N n) s) "" l.
Definition whitespace_chars : list string :=
  map (fun n : N => bytes [n]) [9; 10; 11; 12; 13; 32]%N
  ++ map bytes [[194; 133]; [194; 160]; [225; 154; 128]]%N
  ++ map (fun n : N => bytes [226; 128; n]%N) [128; 129; 130; 131; 132; 133; 134; 135; 136; 137; 138; 168; 169; 175]%N
  ++ map bytes [[226; 129; 159]; [227; 128; 128]]%N.

Definition suffix_of (s t : string) : bool :=
  String.prefix (String.rev s) (String.rev t).

(** [input.trim() != input] *)
Definition needs_trim (input : string) : bool :=
  existsb (fun w => String.prefix w input || suffix_of w input) whitespace_chars.

Definition ModuleId_parse (input : string) : result ModuleIdError ModuleId :=
  if bool_decide (input = "") then Err (mkModuleIdError input "module id cannot be empty")
  else if needs_trim input then Err (mkModuleIdError input "module id cannot contain leading or trailing whitespace")
  else match ModuleId_from_segments (split_dot input) with
       | Ok id => Ok id
       | Err e => Err (mkModuleIdError input (id_error_reason e))
       end.

Definition ModuleId_parent (id : ModuleId) : option ModuleId :=
  if length (id_segments id) <=? 1 then None
  else Some (mkModuleId (take (length (id_segments id) - 1) (id_segments id))).

Definition ModuleId_join (id child : ModuleId) : ModuleId := mkModuleId (id_segments id ++ id_segments child).

Definition ModuleId_show (id : ModuleId) : string := join "." (id_segments id).

(** [import_specifier] *)
Definition import_specifier (path : ImportPath) : result ModuleIdError ModuleId := ModuleId_from_segments (segments path).

(** * Keys and canonical symbols *)

(** A key is a 64-bit word. *)
Definition ModuleKey := N.

(** FNV-1a. *)
Fixpoint hash_bytes (state : N) (s : string) : N :=
  match s with
  | EmptyString => state
  | String b s => hash_bytes ((N.lxor state (Ascii.N_of_ascii b) * 1099511628211) mod 2 ^ 64)%N s
  end.

Definition hash_module_identity (state : N) (id : ModuleId) : N :=
  foldl (fun state segment => hash_bytes (hash_bytes state segment) ".") (hash_bytes state "module:") (id_segments id).

Definition module_key_for_module (id : ModuleId) : ModuleKey := hash_module_identity 14695981039346656037 id.

(** [{:016x}] *)
Definition hex_digit (n : N) : Ascii.ascii := Ascii.ascii_of_N (if n <? 10 then 48 + n else 87 + n)%N.
Fixpoint hex_digits (n : nat) (k : N) : string :=
  match n with
  | O => ""
  | S n => hex_digits n (k / 16)%N +:+ String (hex_digit (k mod 16)%N) ""
  end.

Definition prefix_for_module_key (key : ModuleKey) : string := "@m" +:+ hex_digits 16 key.
Definition prefix_for_module (id : ModuleId) : string := prefix_for_module_key (module_key_for_module id).
Definition qualify (prefix : string) (name : Symbol) : Symbol := prefix +:+ "." +:+ name.

Inductive SymbolKind : Type := KValue | KType | KClass.

Record CanonicalSymbol : Type := mkCanonical {
  canon_module : ModuleKey;
  canon_kind : SymbolKind;
  canon_local : Symbol;
  symbol : Symbol
}.

Definition CanonicalSymbol_new (module : ModuleKey) (kind : SymbolKind) (local : Symbol) : CanonicalSymbol :=
  mkCanonical module kind local (prefix_for_module_key module +:+ "." +:+ local).

Definition virtual_export_name (module export : string) : string :=
  match ModuleId_parse module with
  | Ok id => symbol (CanonicalSymbol_new (module_key_for_module id) KValue export)
  | Err _ => module +:+ "." +:+ export
  end.

(** * Export tables *)

Record ExportEntry : Type := mkExportEntry {
  entry_value : option CanonicalSymbol;
  entry_typ : option CanonicalSymbol;
  entry_class : option CanonicalSymbol
}.
Definition ExportEntry_new : ExportEntry := mkExportEntry None None None.

Definition ModuleExports := list (Symbol * ExportEntry).

Definition export_value (e : ModuleExports) (name : Symbol) : option CanonicalSymbol := btree_get e name ≫= entry_value.
Definition export_typ (e : ModuleExports) (name : Symbol) : option CanonicalSymbol := btree_get e name ≫= entry_typ.
Definition export_class (e : ModuleExports) (name : Symbol) : option CanonicalSymbol := btree_get e name ≫= entry_class.

Definition entry_or_default (e : ModuleExports) (name : Symbol) : ExportEntry := default ExportEntry_new (btree_get e name).
Definition insert_value (name : Symbol) (s : CanonicalSymbol) (e : ModuleExports) : ModuleExports :=
  let entry := entry_or_default e name in btree_insert name (mkExportEntry (Some s) (entry_typ entry) (entry_class entry)) e.
Definition insert_type (name : Symbol) (s : CanonicalSymbol) (e : ModuleExports) : ModuleExports :=
  let entry := entry_or_default e name in btree_insert name (mkExportEntry (entry_value entry) (Some s) (entry_class entry)) e.
Definition insert_class (name : Symbol) (s : CanonicalSymbol) (e : ModuleExports) : ModuleExports :=
  let entry := entry_or_default e name in btree_insert name (mkExportEntry (entry_value entry) (entry_typ entry) (Some s)) e.

Definition export_entries (f : ExportEntry -> option CanonicalSymbol) (e : ModuleExports) : list (Symbol * CanonicalSymbol) :=
  omap (fun ne => (fun s => (ne.1, s)) <$> f ne.2) e.
Definition export_values := export_entries entry_value.
Definition export_types := export_entries entry_typ.
Definition export_classes := export_entries entry_class.

(** * Packages *)

Record Declarations : Type := mkDeclarations {
  d_types : list TypeDecl;
  d_fns : list FnDecl;
  d_declare_fns : list DeclareFnDecl;
  d_imports : list ImportDecl;
  d_classes : list ClassDecl;
  d_instances : list InstanceDecl
}.
Definition no_declarations : Declarations := mkDeclarations [] [] [] [] [] [].

Definition push_decl (d : Declarations) (decl : Decl) : Declarations :=
  match decl with
  | DType t => mkDeclarations (d_types d ++ [t]) (d_fns d) (d_declare_fns d) (d_imports d) (d_classes d) (d_instances d)
  | DFn f => mkDeclarations (d_types d) (d_fns d ++ [f]) (d_declare_fns d) (d_imports d) (d_classes d) (d_instances d)
  | DDeclareFn f => mkDeclarations (d_types d) (d_fns d) (d_declare_fns d ++ [f]) (d_imports d) (d_classes d) (d_instances d)
  | DImport i => mkDeclarations (d_types d) (d_fns d) (d_declare_fns d) (d_imports d ++ [i]) (d_classes d) (d_instances d)
  | DClass c => mkDeclarations (d_types d) (d_fns d) (d_declare_fns d) (d_imports d) (d_classes d ++ [c]) (d_instances d)
  | DInstance i => mkDeclarations (d_types d) (d_fns d) (d_declare_fns d) (d_imports d) (d_classes d) (d_instances d ++ [i])
  end.

Definition Declarations_from (decls : list Decl) : Declarations := foldl push_decl no_declarations decls.

Record CompilationPackage : Type := mkPackage {
  package_decls : Declarations;
  package_body : option Expr;
  package_docs : option string
}.
Definition from_compilation_unit (u : CompilationUnit) : CompilationPackage :=
  mkPackage (Declarations_from (Ast.decls u)) (Ast.body u) None.

(** Names inserted into a [BTreeSet]. *)
Definition decl_value_names_from_declarations (d : Declarations) : gset Symbol :=
  list_to_set (map (fun f => var_name (fn_name f)) (d_fns d)) ∪
  list_to_set (map (fun f => var_name (declare_name f)) (d_declare_fns d)) ∪
  list_to_set (d_types d ≫= fun td => match type_decl_kind td with
                                       | Adt variants => map variant_name variants
                                       | Alias _ => []
                                       end).

Definition decl_type_names_from_declarations (d : Declarations) : gset Symbol :=
  list_to_set (map type_decl_name (d_types d)) ∪ list_to_set (map class_name (d_classes d)).

Definition declared_interface (fd : FnDecl) : DeclareFnDecl :=
  mkDeclareFnDecl (fn_span fd) (fn_is_pub fd) (fn_name fd) (fn_type_params fd) (fn_params_ fd) (fn_ret fd)
    (fn_constraints fd) (fn_docs fd).

Definition interface_declarations_from_declarations (d : Declarations) : Declarations :=
  mkDeclarations [] [] (map declared_interface (filter (fun fd => fn_is_pub fd = true) (d_fns d))) [] [] [].
Definition interface_decls_from_package (p : CompilationPackage) : Declarations :=
  interface_declarations_from_declarations (package_decls p).
Definition interface_decls_from_declarations (d : Declarations) : list Decl :=
  map DDeclareFn (d_declare_fns (interface_declarations_from_declarations d)).

(** * Imports *)

Inductive ModuleError : Type :=
  | MissingExport (module export : Symbol)
  | DuplicateImportedName (name : Symbol)
  | ImportNameConflictsWithLocal (module name : Symbol)
  | TopLevelExprInModule (module : ModuleId).

Definition contains_import_alias_in_declarations (d : Declarations) (alias : Symbol) : bool :=
  existsb (fun i => bool_decide (import_alias i = alias)) (d_imports d).

Definition default_import_decl (module_name : string) : ImportDecl :=
  let segments := split_dot module_name in
  mkImportDecl Span_default false (mkImportPath segments) (default module_name (last segments)) (Some ImportAll).

Record ImportBindings : Type := mkBindings {
  alias_exports : gmap Symbol ModuleExports;
  imported_values : gmap Symbol CanonicalSymbol;
  imported_types : gmap Symbol CanonicalSymbol;
  imported_classes : gmap Symbol CanonicalSymbol
}.
Definition no_bindings : ImportBindings := mkBindings ∅ ∅ ∅ ∅.

Section Policy.
Variables forbidden_values forbidden_types : gset Symbol.
Variable module_name : Symbol.

Definition bind_local (forbidden : gset Symbol) (bound : gmap Symbol CanonicalSymbol) (local_name : Symbol)
    (target : CanonicalSymbol) : result ModuleError (gmap Symbol CanonicalSymbol) :=
  if decide (local_name ∈ forbidden) then Err (ImportNameConflictsWithLocal module_name local_name)
  else match bound !! local_name with
       | Some _ => Err (DuplicateImportedName local_name)
       | None => Ok (<[local_name := target]> bound)
       end.

Definition bind_local_value (local_name : Symbol) (target : CanonicalSymbol) (b : ImportBindings) : result ModuleError ImportBindings :=
  let? vs := bind_local forbidden_values (imported_values b) local_name target in
  Ok (mkBindings (alias_exports b) vs (imported_types b) (imported_classes b)).
Definition bind_local_type (local_name : Symbol) (target : CanonicalSymbol) (b : ImportBindings) : result ModuleError ImportBindings :=
  let? ts := bind_local forbidden_types (imported_types b) local_name target in
  Ok (mkBindings (alias_exports b) (imported_values b) ts (imported_classes b)).
Definition bind_local_class (local_name : Symbol) (target : CanonicalSymbol) (b : ImportBindings) : result ModuleError ImportBindings :=
  let? cs := bind_local forbidden_types (imported_classes b) local_name target in
  Ok (mkBindings (alias_exports b) (imported_values b) (imported_types b) cs).

(** [for x in l { f(x)?; }] on the bindings. *)
Fixpoint bind_each {A} (f : A -> ImportBindings -> result ModuleError ImportBindings) (l : list A) (b : ImportBindings)
    : result ModuleError ImportBindings :=
  match l with
  | [] => Ok b
  | x :: l => let? b := f x b in bind_each f l b
  end.

(** A target, where there is one. *)
Definition bind_found (f : Symbol -> CanonicalSymbol -> ImportBindings -> result ModuleError ImportBindings)
    (local_name : Symbol) (target : option CanonicalSymbol) (b : ImportBindings) : result ModuleError ImportBindings :=
  match target with Some t => f local_name t b | None => Ok b end.

Definition bind_item (exports : ModuleExports) (item : ImportItem) (b : ImportBindings) : result ModuleError ImportBindings :=
  let name := item_name item in
  let local_name := default name (item_alias item) in
  let? b := bind_found bind_local_value local_name (export_value exports name) b in
  let? b := bind_found bind_local_type local_name (export_typ exports name) b in
  let? b := bind_found bind_local_class local_name (export_class exports name) b in
  match export_value exports name, export_typ exports name, export_class exports name with
  | None, None, None => Err (MissingExport module_name name)
  | _, _, _ => Ok b
  end.
End Policy.

(** [None] of the clause is an alias for the module. *)
Definition add_import_bindings (forbidden_values forbidden_types : gset Symbol) (import : ImportDecl) (exports : ModuleExports)
    (out : ImportBindings) : result ModuleError ImportBindings :=
  let alias := import_alias import in
  match import_clause_ import with
  | None => Ok (mkBindings (<[alias := exports]> (alias_exports out)) (imported_values out) (imported_types out) (imported_classes out))
  | Some ImportAll =>
      let? b := bind_each (fun e => bind_local_value forbidden_values alias e.1 e.2) (export_values exports) out in
      let? b := bind_each (fun e => bind_local_type forbidden_types alias e.1 e.2) (export_types exports) b in
      bind_each (fun e => bind_local_class forbidden_types alias e.1 e.2) (export_classes exports) b
  | Some (ImportItems items) => bind_each (bind_item forbidden_values forbidden_types alias exports) items out
  end.

Fixpoint collect_pattern_bindings (pat : Pattern) : list Symbol :=
  match pat with
  | PWildcard _ => []
  | PVar v => [var_name v]
  | PNamed _ _ args => concat (map collect_pattern_bindings args)
  | PTuple _ elems | PList _ elems => concat (map collect_pattern_bindings elems)
  | PCons _ head tail => collect_pattern_bindings head ++ collect_pattern_bindings tail
  | PDict _ fields => concat (map (fun f => collect_pattern_bindings f.2) fields)
  end.

Definition alias_is_visible (name : Symbol) (bound : gset Symbol) (shadowed_values : option (gset Symbol)) : bool :=
  if decide (name ∈ bound) then false
  else match shadowed_values with
       | None => true
       | Some s => negb (bool_decide (name ∈ s))
       end.

Definition qualified_alias_member (name : NameRef) : option (Symbol * Symbol) :=
  match name with
  | Qualified _ [alias; member] => Some (alias, member)
  | _ => None
  end.

(** * Identifiers read back as they are printed *)

Definition dotless (s : string) : bool := forall_chars (fun c => negb (bool_decide (c = dot))) s.

Lemma split_dot_cons s : exists x xs, split_dot s = x :: xs.
Proof. destruct s as [|c s]; simpl; [by eauto|]. destruct (decide _); [by eauto|]. destruct (split_dot s); by eauto. Qed.

Lemma join_cons sep x y l : join sep (x :: y :: l) = x +:+ sep +:+ join sep (y :: l).
Proof. done. Qed.

Lemma join_prefix sep c x l : join sep (String c x :: l) = String c (join sep (x :: l)).
Proof. by destruct l. Qed.

Lemma join_split_dot s : join "." (split_dot s) = s.
Proof.
  induction s as [|c s IH]; [done|]. simpl. destruct (split_dot_cons s) as (x & xs & E). rewrite E in *.
  destruct (decide (c = dot)) as [->|Hc]; [by rewrite join_cons, IH|by rewrite join_prefix, IH].
Qed.

Lemma split_dotless s : dotless s = true -> split_dot s = [s].
Proof.
  induction s as [|c s IH]; simpl; [done|].
  intros [Hc Hs]%andb_true_iff. rewrite negb_true_iff, bool_decide_eq_false in Hc. rewrite decide_False by done.
  by rewrite IH.
Qed.

Lemma split_dot_sep s t : dotless s = true -> split_dot (s +:+ "." +:+ t) = s :: split_dot t.
Proof.
  induction s as [|c s IH]; [done|]. simpl.
  intros [Hc Hs]%andb_true_iff. rewrite negb_true_iff, bool_decide_eq_false in Hc. rewrite decide_False by done.
  simpl in IH. by rewrite IH.
Qed.

Lemma split_join l : l <> [] -> Forall (fun s => dotless s = true) l -> split_dot (join "." l) = l.
Proof.
  intros Hl H. induction H as [|s l Hs H IH]; [done|]. destruct l as [|t l]; [by apply split_dotless|].
  rewrite join_cons, split_dot_sep by done. by rewrite IH.
Qed.

(** A word of letters, digits and underscores. *)
Definition word_char (c : Ascii.ascii) : bool := bool_decide (c = underscore) || ascii_alphanumeric c.

Lemma word_not_dot c : word_char c = true -> c <> dot.
Proof. intros H ->. done. Qed.

Lemma word_dotless s : forall_chars word_char s = true -> dotless s = true.
Proof.
  unfold dotless. induction s as [|c s IH]; simpl; [done|]. intros [Hc Hs]%andb_true_iff. rewrite IH, andb_true_r by done.
  rewrite negb_true_iff, bool_decide_eq_false. by apply word_not_dot.
Qed.

Lemma segment_word s : validate_segment s = Ok tt -> s <> "" /\ forall_chars word_char s = true.
Proof.
  destruct s as [|c s]; [done|]. unfold validate_segment. intros H. split; [done|].
  destruct (bool_decide (c = underscore) || ascii_alphabetic c) eqn:E1; [|done]. cbn [negb] in H.
  destruct (forall_chars _ s) eqn:E2; [|done]. cbn [forall_chars]. fold word_char in E2. rewrite E2, andb_true_r.
  unfold word_char, ascii_alphanumeric. apply orb_true_iff in E1 as [->| ->]; [done|]. by rewrite orb_true_r.
Qed.

Lemma segments_words l : validate_segments l = Ok tt <-> Forall (fun s => validate_segment s = Ok tt) l.
Proof.
  induction l as [|s l IH]; simpl; [by split; [constructor|]|]. rewrite Forall_cons, <- IH.
  destruct (validate_segment s) as [[]|]; simpl; [|by split; [|intros [? ?]]]. split; [by intros ->|by intros [_ ?]].
Qed.

(** The identifier of a module, as [from_segments] makes it. *)
Definition valid_id (id : ModuleId) : Prop :=
  id_segments id <> [] /\ Forall (fun s => validate_segment s = Ok tt) (id_segments id).

Lemma from_segments_valid l id : ModuleId_from_segments l = Ok id <-> id = mkModuleId l /\ valid_id id.
Proof.
  unfold ModuleId_from_segments, valid_id. destruct (bool_decide (l = [])) eqn:E.
  - apply bool_decide_eq_true in E. subst. split; [done|]. by intros (-> & ? & _).
  - apply bool_decide_eq_false in E. destruct (validate_segments l) as [[]|e] eqn:Hv; simpl.
    + apply segments_words in Hv. split; [by intros [= <-]|by intros [-> _]].
    + split; [done|]. intros (-> & _ & Hs). apply segments_words in Hs. simpl in Hs. congruence.
Qed.


Lemma forall_chars_app p s t : forall_chars p (s +:+ t) = forall_chars p s && forall_chars p t.
Proof. induction s as [|c s IH]; simpl; [done|]. by rewrite IH, andb_assoc. Qed.

Lemma forall_chars_rev_app p s : forall t, forall_chars p (String.rev_app s t) = forall_chars p s && forall_chars p t.
Proof.
  induction s as [|c s IH]; intros t; simpl; [done|]. rewrite IH. simpl. by destruct (p c), (forall_chars p s).
Qed.

Lemma prefix_head c w s : String.prefix (String c w) s = true -> exists t, s = String c t.
Proof. destruct s as [|d s]; [done|]. simpl. destruct (Ascii.ascii_dec c d) as [->|]; [by eauto|done]. Qed.

(** What is printed starts and ends with a word. *)
Definition printed_char (c : Ascii.ascii) : bool := word_char c || bool_decide (c = dot).

Lemma words_printed l : Forall (fun s => validate_segment s = Ok tt) l -> forall_chars printed_char (join "." l) = true.
Proof.
  assert (forall s, forall_chars word_char s = true -> forall_chars printed_char s = true) as Hw.
  { induction s as [|c s IH]; simpl; [done|]. intros [Hc Hs]%andb_true_iff. rewrite IH by done. unfold printed_char. by rewrite Hc. }
  induction 1 as [|s l Hs H IH]; [done|]. destruct l as [|t l]; [by apply Hw, segment_word|].
  rewrite join_cons, forall_chars_app. apply andb_true_iff. split; [by apply Hw, segment_word|]. by rewrite forall_chars_app.
Qed.

Lemma whitespace_not_printed w : w ∈ whitespace_chars ->
  (exists c w', w = String c w' /\ printed_char c = false) /\ (exists c w', String.rev w = String c w' /\ printed_char c = false).
Proof.
  intros Hw.
  assert (forallb (fun w => match w, String.rev w with String c _, String d _ => negb (printed_char c) && negb (printed_char d) | _, _ => false end)
            whitespace_chars = true) as H by (by vm_compute).
  rewrite forallb_forall in H. apply list_elem_of_In in Hw. specialize (H w Hw). destruct w as [|c w]; [done|].
  destruct (String.rev (String c w)) as [|d w'] eqn:E; [done|]. apply andb_true_iff in H as [Hc%negb_true_iff Hd%negb_true_iff].
  split; by eexists _, _.
Qed.

Lemma printed_not_trimmed s : forall_chars printed_char s = true -> needs_trim s = false.
Proof.
  intros Hs. unfold needs_trim. destruct (existsb _ _) eqn:E; [|done]. apply existsb_exists in E as (w & Hw & Hp).
  apply list_elem_of_In in Hw. destruct (whitespace_not_printed w Hw) as [(c & w' & -> & Hc) (d & v & Hv & Hd)].
  apply orb_true_iff in Hp as [Hp|Hp].
  - apply prefix_head in Hp as (t & ->). simpl in Hs. by rewrite Hc in Hs.
  - unfold suffix_of in Hp. rewrite Hv in Hp. apply prefix_head in Hp as (t & Ht).
    assert (forall_chars printed_char (String.rev s) = true) as Hr.
    { unfold String.rev. rewrite forall_chars_rev_app. by rewrite Hs. }
    rewrite Ht in Hr. simpl in Hr. by rewrite Hd in Hr.
Qed.

Lemma join_not_empty l : l <> [] -> Forall (fun s => validate_segment s = Ok tt) l -> join "." l <> "".
Proof. intros Hl H. destruct H as [|s l Hs H]; [done|]. destruct (segment_word s Hs) as [Hne _]. destruct l; [done|]. by destruct s. Qed.

(** C40. A module identifier is what it is printed as: [parse] reads a printed
    identifier back, and accepts nothing else than printed identifiers. *)
Theorem module_id_roundtrip :
  (forall id, valid_id id -> ModuleId_parse (ModuleId_show id) = Ok id) /\
  (forall s id, ModuleId_parse s = Ok id -> ModuleId_show id = s /\ valid_id id).
Proof.
  split.
  - intros [l] [Hl Hv]. simpl in Hl, Hv. unfold ModuleId_parse, ModuleId_show. simpl.
    rewrite bool_decide_eq_false_2 by (by apply join_not_empty). rewrite printed_not_trimmed by (by apply words_printed).
    rewrite split_join; [|done|eapply Forall_impl; [exact Hv|]; intros s Hs; by apply word_dotless, segment_word].
    by rewrite (proj2 (from_segments_valid l (mkModuleId l))).
  - intros s id. unfold ModuleId_parse, ModuleId_show. destruct (bool_decide _); [done|]. destruct (needs_trim s); [done|].
    destruct (ModuleId_from_segments (split_dot s)) as [i|] eqn:E; [|done]. intros [= ->].
    apply from_segments_valid in E as [-> ?]. split; [apply join_split_dot|done].
Qed.

(** Modules with keys of their own have symbols of their own: a qualified name tells the
    key and the name. *)
Lemma hex_digit_inj a b : (a < 16)%N -> (b < 16)%N -> hex_digit a = hex_digit b -> a = b.
Proof.
  intros Ha Hb. assert (exists m, a = N.of_nat m /\ m < 16) as (m & -> & Hm) by (exists (N.to_nat a); lia).
  assert (exists n, b = N.of_nat n /\ n < 16) as (n & -> & Hn) by (exists (N.to_nat b); lia).
  do 16 (destruct m as [|m]; [do 16 (destruct n as [|n]; [done|]); lia|]). lia.
Qed.

Lemma string_app_inv s t s' t' : String.length s = String.length s' -> s +:+ t = s' +:+ t' -> s = s' /\ t = t'.
Proof.
  revert s'. induction s as [|c s IH]; intros [|c' s']; simpl; try done. intros [= Hl] [= -> H].
  destruct (IH s' Hl H) as [-> ->]. done.
Qed.

Lemma string_length_app s t : String.length (s +:+ t) = String.length s + String.length t.
Proof. induction s as [|c s IH]; simpl; [done|]. by rewrite IH. Qed.

Lemma hex_digits_length n : forall k, String.length (hex_digits n k) = n.
Proof. induction n as [|n IH]; intros k; simpl; [done|]. rewrite string_length_app, IH. simpl. lia. Qed.

Lemma hex_digits_inj n : forall a b, (a < 16 ^ N.of_nat n)%N -> (b < 16 ^ N.of_nat n)%N -> hex_digits n a = hex_digits n b -> a = b.
Proof.
  induction n as [|n IH]; intros a b; [simpl; lia|]. rewrite Nat2N.inj_succ, N.pow_succ_r'. intros Ha Hb. simpl.
  intros H. apply string_app_inv in H as [H1 H2]; [|by rewrite !hex_digits_length]. injection H2 as H2.
  apply hex_digit_inj in H2; [|by apply N.mod_lt|by apply N.mod_lt].
  assert (a / 16 = b / 16)%N as H3 by (apply IH; [apply N.Div0.div_lt_upper_bound; lia|apply N.Div0.div_lt_upper_bound; lia|done]).
  rewrite (N.div_mod a 16), (N.div_mod b 16) by done. by rewrite H2, H3.
Qed.

Definition u64 (k : N) : Prop := (k < 2 ^ 64)%N.

Lemma qualified_inj k k' n n' : u64 k -> u64 k' ->
  qualify (prefix_for_module_key k) n = qualify (prefix_for_module_key k') n' -> k = k' /\ n = n'.
Proof.
  intros Hk Hk' H. unfold qualify in H. apply string_app_inv in H as [H1 H2].
  2:{ unfold prefix_for_module_key. by rewrite !string_length_app, !hex_digits_length. }
  apply string_app_inv in H2 as [_ ->]; [|done]. split; [|done]. unfold prefix_for_module_key in H1. apply string_app_inv in H1 as [_ H1]; [|done].
  by apply hex_digits_inj in H1.
Qed.

(** Keys are words of 64 bits. *)
Lemma hash_bytes_u64 s : forall k, u64 k -> u64 (hash_bytes k s).
Proof.
  induction s as [|c s IH]; intros k Hk; [done|]. apply IH. unfold u64. by apply N.mod_lt.
Qed.

Lemma module_key_u64 id : u64 (module_key_for_module id).
Proof.
  unfold module_key_for_module, hash_module_identity. set (k := hash_bytes _ "module:").
  assert (u64 k) as Hk by (by apply hash_bytes_u64). clearbody k. revert k Hk.
  induction (id_segments id) as [|s l IH]; intros k Hk; [done|]. simpl. apply IH. unfold u64. by apply N.mod_lt.
Qed.

(** A qualified name is not one of the source: no name starts with an [@]. *)
Lemma qualified_not_word k n : forall_chars printed_char (qualify (prefix_for_module_key k) n) = false.
Proof. done. Qed.

Lemma qualified_inj_modules id id' n n' :
  qualify (prefix_for_module id) n = qualify (prefix_for_module id') n' -> module_key_for_module id = module_key_for_module id' /\ n = n'.
Proof. intros H. apply qualified_inj in H; [done|apply module_key_u64|apply module_key_u64]. Qed.

Lemma module_id_roundtrip_witness :
  ModuleId_parse "std.prelude" = Ok (mkModuleId ["std"; "prelude"]) /\ ModuleId_show (mkModuleId ["std"; "prelude"]) = "std.prelude" /\
  ModuleId_parse "std..prelude" = Err (mkModuleIdError "std..prelude" "module id segment cannot be empty").
Proof.
  split; [|split; [|by vm_compute]].
  - apply (proj1 module_id_roundtrip (mkModuleId ["std"; "prelude"])). split; [done|]. by repeat constructor.
  - apply (proj2 module_id_roundtrip "std.prelude"). by vm_compute.
Defined.
