(* ===== verification/Qualify.v ===== *)
(** The qualification of a package: every name that it declares gets the prefix of its
    module ([rex-engine/src/builder/qualify.rs]), and its export table
    ([modules/mod.rs]).

    [bound] is one set that the code changes on the way through an expression, so that
    [rename_expr] answers the set that it leaves behind. *)

From S2P Require Import Prelude Span Types BTree Syntax Ast Modules.

(** [iter().map(f).collect()] where [f] changes a state. *)
Section Thread.
Context {S A B : Type}.
Variable f : A -> S -> B * S.
Fixpoint thread (l : list A) (s : S) : list B * S :=
  match l with
  | [] => ([], s)
  | x :: l =>
      let '(y, s) := f x s in
      let '(ys, s) := thread l s in
      (y :: ys, s)
  end.
End Thread.

Definition bind_all (names : list Symbol) (bound : gset Symbol) : gset Symbol := foldl (fun b n => {[ n ]} ∪ b) bound names.
Definition unbind_all (names : list Symbol) (bound : gset Symbol) : gset Symbol := foldl (fun b n => b ∖ {[ n ]}) bound names.

Definition constructor_symbol (typ variant : Symbol) : Symbol := typ +:+ "." +:+ variant.

Section Renames.
Variables value_renames type_renames class_renames : gmap Symbol Symbol.

Definition renamed (renames : gmap Symbol Symbol) (name : Symbol) : Symbol := default name (renames !! name).

Fixpoint rename_type_expr (t : TypeExpr) : TypeExpr :=
  match t with
  | TyName span name =>
      let name_sym := to_dotted_symbol name in
      match type_renames !! name_sym with
      | Some new => TyName span (Unqualified new)
      | None =>
          match class_renames !! name_sym with
          | Some new => TyName span (Unqualified new)
          | None => TyName span name
          end
      end
  | TyApp span f x => TyApp span (rename_type_expr f) (rename_type_expr x)
  | TyFun span a b => TyFun span (rename_type_expr a) (rename_type_expr b)
  | TyTuple span elems => TyTuple span (map rename_type_expr elems)
  | TyRecord span fields => TyRecord span (map (fun f => (f.1.1, rename_type_expr f.1.2, f.2)) fields)
  end.

Definition renamed_ref (renames : gmap Symbol Symbol) (name : NameRef) : NameRef :=
  match renames !! to_dotted_symbol name with Some new => Unqualified new | None => name end.

Definition rename_constraints (cs : list TypeConstraint) : list TypeConstraint :=
  map (fun c => mkTypeConstraint (renamed_ref class_renames (constraint_class c)) (rename_type_expr (constraint_typ c))) cs.

Fixpoint rename_pattern (pat : Pattern) : Pattern :=
  match pat with
  | PWildcard span => PWildcard span
  | PVar v => PVar v
  | PNamed span name args => PNamed span (renamed_ref value_renames name) (map rename_pattern args)
  | PTuple span elems => PTuple span (map rename_pattern elems)
  | PList span elems => PList span (map rename_pattern elems)
  | PCons span head tail => PCons span (rename_pattern head) (rename_pattern tail)
  | PDict span fields => PDict span (map (fun f => (f.1, rename_pattern f.2)) fields)
  end.

(** A constructor by its type, where the type is not a local name. *)
Definition renamed_constructor (bound : gset Symbol) (base : Expr) (field : Symbol) : option Symbol :=
  match base with
  | XVar v => if decide (var_name v ∈ bound) then None else value_renames !! constructor_symbol (var_name v) field
  | _ => None
  end.

Fixpoint rename_expr (expr : Expr) (bound : gset Symbol) : Expr * gset Symbol :=
  match expr with
  | XBool _ _ | XUint _ _ | XInt _ _ | XFloat _ _ | XChar _ _ | XString _ _ | XUuid _ _ | XDateTime _ _ | XHole _ => (expr, bound)
  | XTuple span elems => let '(elems, bound) := thread rename_expr elems bound in (XTuple span elems, bound)
  | XList span elems => let '(elems, bound) := thread rename_expr elems bound in (XList span elems, bound)
  | XDict span kvs =>
      let '(kvs, bound) := thread (fun kv b => let '(v, b) := rename_expr kv.2 b in ((kv.1, v), b)) kvs bound in
      (XDict span kvs, bound)
  | XRecordUpdate span base updates =>
      let '(base, bound) := rename_expr base bound in
      let '(updates, bound) := thread (fun kv b => let '(v, b) := rename_expr kv.2 b in ((kv.1, v), b)) updates bound in
      (XRecordUpdate span base updates, bound)
  | XVar v =>
      if decide (var_name v ∈ bound) then (XVar v, bound)
      else match value_renames !! var_name v with
           | Some new => (XVar (mkVar (var_span v) new), bound)
           | None => (XVar v, bound)
           end
  | XApp span f x =>
      let '(f, bound) := rename_expr f bound in
      let '(x, bound) := rename_expr x bound in
      (XApp span f x, bound)
  | XProject span base field =>
      match renamed_constructor bound base field with
      | Some new => (XVar (mkVar span new), bound)
      | None => let '(base, bound) := rename_expr base bound in (XProject span base field, bound)
      end
  | XLam span scope param ann constraints body =>
      let '(body, bound) := rename_expr body ({[ var_name param ]} ∪ bound) in
      (XLam span scope param (rename_type_expr <$> ann) (rename_constraints constraints) body, bound ∖ {[ var_name param ]})
  | XLet span v type_params ann val body =>
      let '(val, bound) := rename_expr val bound in
      let '(body, bound) := rename_expr body ({[ var_name v ]} ∪ bound) in
      (XLet span v type_params (rename_type_expr <$> ann) val body, bound ∖ {[ var_name v ]})
  | XLetRec span bindings body =>
      let names := map (fun b => var_name b.1.1.1) bindings in
      let bound := bind_all names bound in
      let '(bindings, bound) :=
        thread (fun (b : Var * list Symbol * option TypeExpr * Expr) bound =>
          let '(def, bound) := rename_expr b.2 bound in
          ((b.1.1.1, b.1.1.2, rename_type_expr <$> b.1.2, def), bound)) bindings bound in
      let '(body, bound) := rename_expr body bound in
      (XLetRec span bindings body, unbind_all names bound)
  | XIte span c t e =>
      let '(c, bound) := rename_expr c bound in
      let '(t, bound) := rename_expr t bound in
      let '(e, bound) := rename_expr e bound in
      (XIte span c t e, bound)
  | XMatch span scrutinee arms =>
      let '(scrutinee, bound) := rename_expr scrutinee bound in
      let '(arms, bound) :=
        thread (fun arm bound =>
          let pat := rename_pattern arm.1 in
          let binds := collect_pattern_bindings pat in
          let '(e, bound) := rename_expr arm.2 (bind_all binds bound) in
          ((pat, e), unbind_all binds bound)) arms bound in
      (XMatch span scrutinee arms, bound)
  | XAnn span e t =>
      let '(e, bound) := rename_expr e bound in
      (XAnn span e (rename_type_expr t), bound)
  end.

(** * Declarations *)

Definition qualify_type_decl (td : TypeDecl) : TypeDecl :=
  let kind :=
    match type_decl_kind td with
    | Alias alias => Alias (rename_type_expr alias)
    | Adt variants =>
        Adt (map (fun v => mkTypeVariant (variant_name v)
                             (map (fun a => mkTypeVariantArg (rename_type_expr (arg_typ a)) (arg_docs a)) (variant_args v))
                             (variant_docs v)) variants)
    end in
  mkTypeDecl (type_decl_span td) (type_is_pub td) (renamed type_renames (type_decl_name td)) (type_decl_params td) kind
    (type_decl_docs td).

Definition renamed_var (v : Var) : Var := mkVar (var_span v) (renamed value_renames (var_name v)).

Definition rename_params (params : list (Var * TypeExpr)) : list (Var * TypeExpr) :=
  map (fun p => (p.1, rename_type_expr p.2)) params.

Definition qualify_fn_decl (fd : FnDecl) : FnDecl :=
  let params := rename_params (fn_params_ fd) in
  let bound := bind_all (map (fun p => var_name p.1) params) ∅ in
  mkFnDecl (fn_span fd) (fn_is_pub fd) (renamed_var (fn_name fd)) (fn_type_params fd) params (rename_type_expr (fn_ret fd))
    (rename_constraints (fn_constraints fd)) (rename_expr (fn_body fd) bound).1 (fn_docs fd).

Definition qualify_declare_fn_decl (df : DeclareFnDecl) : DeclareFnDecl :=
  mkDeclareFnDecl (declare_span df) (declare_is_pub df) (renamed_var (declare_name df)) (declare_type_params df)
    (rename_params (declare_params df)) (rename_type_expr (declare_ret df)) (rename_constraints (declare_constraints df))
    (declare_docs df).

Definition qualify_class_decl (cd : ClassDecl) : ClassDecl :=
  mkClassDecl (class_span cd) (class_is_pub cd) (renamed class_renames (class_name cd)) (class_params cd)
    (rename_constraints (class_supers cd))
    (map (fun m => mkClassMethodSig (method_name m) (method_type_params m) (rename_type_expr (method_typ m)) (method_docs m))
       (class_methods cd))
    (class_docs cd).

Definition qualify_instance_decl (id : InstanceDecl) : InstanceDecl :=
  mkInstanceDecl (instance_span id) (instance_is_pub id) (instance_type_params id) (renamed class_renames (instance_class id))
    (rename_type_expr (instance_head id)) (rename_constraints (instance_context id))
    (map (fun m => mkInstanceMethodImpl (impl_name m) (impl_type_params m) (rename_type_expr <$> impl_ann m)
                     (rename_expr (impl_body m) ∅).1) (instance_methods id))
    (instance_docs id).

Definition qualify_package_with_renames (p : CompilationPackage) : CompilationPackage :=
  let d := package_decls p in
  mkPackage
    (mkDeclarations (map qualify_type_decl (d_types d)) (map qualify_fn_decl (d_fns d))
       (map qualify_declare_fn_decl (d_declare_fns d)) [] (map qualify_class_decl (d_classes d))
       (map qualify_instance_decl (d_instances d)))
    ((fun body => (rename_expr body ∅).1) <$> package_body p) (package_docs p).
End Renames.

(** * The names of a package *)

Definition rename_to (prefix : string) (renames : gmap Symbol Symbol) (name : Symbol) : gmap Symbol Symbol :=
  <[name := qualify prefix name]> renames.

(** The constructors of a type, each after its name with the type. *)
Definition constructor_names (td : TypeDecl) : list Symbol :=
  match type_decl_kind td with
  | Adt variants => variants ≫= fun v => [constructor_symbol (type_decl_name td) (variant_name v); variant_name v]
  | Alias _ => []
  end.

Definition collect_local_renames_from_declarations (d : Declarations) (prefix : string)
    : gmap Symbol Symbol * gmap Symbol Symbol * gmap Symbol Symbol :=
  let values := foldl (rename_to prefix) ∅ (map (fun f => var_name (fn_name f)) (d_fns d)) in
  let values := foldl (rename_to prefix) values (map (fun f => var_name (declare_name f)) (d_declare_fns d)) in
  let values := foldl (rename_to prefix) values (d_types d ≫= constructor_names) in
  let types := foldl (rename_to prefix) ∅ (map type_decl_name (d_types d)) in
  let classes := foldl (rename_to prefix) ∅ (map class_name (d_classes d)) in
  (values, types, classes).

Definition qualify_package (p : CompilationPackage) (prefix : string) : CompilationPackage :=
  let '(values, types, classes) := collect_local_renames_from_declarations (package_decls p) prefix in
  qualify_package_with_renames values types classes p.

(** * Exports *)

Section Exports.
Variables value_renames type_renames class_renames : gmap Symbol Symbol.
Variable module_key : ModuleKey.

(** The symbol of a public name, inserted by [insert]. *)
Definition export_with (renames : gmap Symbol Symbol) (kind : SymbolKind)
    (insert : Symbol -> CanonicalSymbol -> ModuleExports -> ModuleExports) (e : ModuleExports) (name : Symbol) : ModuleExports :=
  match renames !! name with
  | Some internal => insert name (mkCanonical module_key kind name internal) e
  | None => e
  end.

Definition export_type_decl (e : ModuleExports) (td : TypeDecl) : ModuleExports :=
  let e := export_with type_renames KType insert_type e (type_decl_name td) in
  match type_decl_kind td with
  | Adt variants => foldl (export_with value_renames KValue insert_value) e (map variant_name variants)
  | Alias _ => e
  end.

Definition exports_from_declarations (d : Declarations) : ModuleExports :=
  let e := foldl (export_with value_renames KValue insert_value) []
             (map (fun f => var_name (fn_name f)) (filter (fun f => fn_is_pub f = true) (d_fns d))) in
  let e := foldl (export_with value_renames KValue insert_value) e
             (map (fun f => var_name (declare_name f)) (filter (fun f => declare_is_pub f = true) (d_declare_fns d))) in
  let e := foldl export_type_decl e (filter (fun td => type_is_pub td = true) (d_types d)) in
  foldl (export_with class_renames KClass insert_class) e
    (map class_name (filter (fun c => class_is_pub c = true) (d_classes d))).
End Exports.

Definition exports_from_package (p : CompilationPackage) (prefix : string) (module_id : ModuleId) : ModuleExports :=
  let '(values, types, classes) := collect_local_renames_from_declarations (package_decls p) prefix in
  exports_from_declarations values types classes (module_key_for_module module_id) (package_decls p).

(** * What renaming means *)

(** Names of the source do not start with [@]; the symbols of modules do. *)
Definition source_name (x : Symbol) : bool := negb (String.prefix "@" x).

Definition fresh_binder (bound : gset Symbol) (x : Symbol) : bool := negb (bool_decide (x ∈ bound)) && source_name x.

(** No binder shadows a name that is bound around it. *)
Fixpoint hygienic (bound : gset Symbol) (e : Expr) : bool :=
  match e with
  | XTuple _ es | XList _ es => forallb (hygienic bound) es
  | XDict _ kvs => forallb (fun kv => hygienic bound kv.2) kvs
  | XRecordUpdate _ base updates => hygienic bound base && forallb (fun kv => hygienic bound kv.2) updates
  | XApp _ f x => hygienic bound f && hygienic bound x
  | XProject _ base _ => hygienic bound base
  | XLam _ _ param _ _ body => fresh_binder bound (var_name param) && hygienic ({[ var_name param ]} ∪ bound) body
  | XLet _ v _ _ val body =>
      hygienic bound val && fresh_binder bound (var_name v) && hygienic ({[ var_name v ]} ∪ bound) body
  | XLetRec _ bindings body =>
      let names := map (fun b => var_name b.1.1.1) bindings in
      forallb (fresh_binder bound) names &&
      forallb (fun b : Var * list Symbol * option TypeExpr * Expr => hygienic (bind_all names bound) b.2) bindings &&
      hygienic (bind_all names bound) body
  | XIte _ c t e => hygienic bound c && hygienic bound t && hygienic bound e
  | XMatch _ s arms =>
      hygienic bound s &&
      forallb (fun arm => forallb (fresh_binder bound) (collect_pattern_bindings arm.1) &&
                          hygienic (bind_all (collect_pattern_bindings arm.1) bound) arm.2) arms
  | XAnn _ e _ => hygienic bound e
  | _ => true
  end.

(** The constructors that a pattern names. *)
Fixpoint pattern_constructors (pat : Pattern) : list Symbol :=
  match pat with
  | PWildcard _ | PVar _ => []
  | PNamed _ name args => to_dotted_symbol name :: concat (map pattern_constructors args)
  | PTuple _ elems | PList _ elems => concat (map pattern_constructors elems)
  | PCons _ head tail => pattern_constructors head ++ pattern_constructors tail
  | PDict _ fields => concat (map (fun f => pattern_constructors f.2) fields)
  end.

(** The uses of names in an expression, from left to right, each with whether it is bound
    there. [T.C] is a use of the constructor of that name where it is declared. *)
Fixpoint uses (declared : Symbol -> bool) (bound : gset Symbol) (e : Expr) : list (bool * Symbol) :=
  match e with
  | XTuple _ es | XList _ es => concat (map (uses declared bound) es)
  | XDict _ kvs => concat (map (fun kv => uses declared bound kv.2) kvs)
  | XRecordUpdate _ base updates => uses declared bound base ++ concat (map (fun kv => uses declared bound kv.2) updates)
  | XVar v => [(bool_decide (var_name v ∈ bound), var_name v)]
  | XApp _ f x => uses declared bound f ++ uses declared bound x
  | XProject _ base field =>
      match base with
      | XVar v =>
          if negb (bool_decide (var_name v ∈ bound)) && declared (constructor_symbol (var_name v) field)
          then [(false, constructor_symbol (var_name v) field)] else uses declared bound base
      | _ => uses declared bound base
      end
  | XLam _ _ param _ _ body => uses declared ({[ var_name param ]} ∪ bound) body
  | XLet _ v _ _ val body => uses declared bound val ++ uses declared ({[ var_name v ]} ∪ bound) body
  | XLetRec _ bindings body =>
      let bound := bind_all (map (fun b => var_name b.1.1.1) bindings) bound in
      concat (map (fun b => uses declared bound b.2) bindings) ++ uses declared bound body
  | XIte _ c t e => uses declared bound c ++ uses declared bound t ++ uses declared bound e
  | XMatch _ s arms =>
      uses declared bound s ++
      concat (map (fun arm => map (pair false) (pattern_constructors arm.1) ++
                              uses declared (bind_all (collect_pattern_bindings arm.1) bound) arm.2) arms)
  | XAnn _ e _ => uses declared bound e
  | _ => []
  end.

Lemma bind_all_union names bound : bind_all names bound = list_to_set names ∪ bound.
Proof.
  unfold bind_all. revert bound. induction names as [|n names IH]; intros bound; simpl; [set_solver|]. rewrite IH. set_solver.
Qed.

Lemma unbind_all_difference names bound : unbind_all names bound = bound ∖ list_to_set names.
Proof.
  unfold unbind_all. revert bound. induction names as [|n names IH]; intros bound; simpl; [set_solver|]. rewrite IH. set_solver.
Qed.

Lemma fresh_binders_spec bound names : forallb (fresh_binder bound) names = true ->
  (forall n, n ∈ names -> n ∉ bound) /\ (forall n, n ∈ names -> source_name n = true).
Proof.
  intros H. rewrite forallb_forall in H. split; intros n Hn%list_elem_of_In; apply H in Hn;
    apply andb_true_iff in Hn as [H1 H2]; [|done]. by apply negb_true_iff, bool_decide_eq_false in H1.
Qed.

Lemma unbind_bind names bound : forallb (fresh_binder bound) names = true -> unbind_all names (bind_all names bound) = bound.
Proof. intros [H _]%fresh_binders_spec. rewrite unbind_all_difference, bind_all_union. apply leibniz_equiv. set_solver. Qed.

Lemma unbind_bind_one x bound : fresh_binder bound x = true -> ({[ x ]} ∪ bound) ∖ {[ x ]} = bound.
Proof. intros Hx. apply (unbind_bind [x] bound). simpl. by rewrite Hx. Qed.

Lemma thread_steady {S A B} (f : A -> S -> B * S) (g : A -> B) l s :
  (forall x, x ∈ l -> f x s = (g x, s)) -> thread f l s = (map g l, s).
Proof.
  induction l as [|x l IH]; intros H; simpl; [done|]. rewrite H by set_solver. rewrite IH; [done|]. intros y Hy. apply H. set_solver.
Qed.

Section Meaning.
Variables value_renames type_renames class_renames : gmap Symbol Symbol.
Notation rtype := (rename_type_expr type_renames class_renames).
Notation rcons := (rename_constraints type_renames class_renames).
Notation rpat := (rename_pattern value_renames).
Notation rexpr := (rename_expr value_renames type_renames class_renames).

(** Renaming with a set of bound names that goes down only. *)
Fixpoint rename_free (bound : gset Symbol) (e : Expr) : Expr :=
  match e with
  | XTuple span es => XTuple span (map (rename_free bound) es)
  | XList span es => XList span (map (rename_free bound) es)
  | XDict span kvs => XDict span (map (fun kv => (kv.1, rename_free bound kv.2)) kvs)
  | XRecordUpdate span base updates =>
      XRecordUpdate span (rename_free bound base) (map (fun kv => (kv.1, rename_free bound kv.2)) updates)
  | XVar v => if decide (var_name v ∈ bound) then e else XVar (renamed_var value_renames v)
  | XApp span f x => XApp span (rename_free bound f) (rename_free bound x)
  | XProject span base field =>
      match renamed_constructor value_renames bound base field with
      | Some new => XVar (mkVar span new)
      | None => XProject span (rename_free bound base) field
      end
  | XLam span scope param ann constraints body =>
      XLam span scope param (rtype <$> ann) (rcons constraints) (rename_free ({[ var_name param ]} ∪ bound) body)
  | XLet span v type_params ann val body =>
      XLet span v type_params (rtype <$> ann) (rename_free bound val) (rename_free ({[ var_name v ]} ∪ bound) body)
  | XLetRec span bindings body =>
      let bound := bind_all (map (fun b => var_name b.1.1.1) bindings) bound in
      XLetRec span (map (fun b => (b.1.1.1, b.1.1.2, rtype <$> b.1.2, rename_free bound b.2)) bindings) (rename_free bound body)
  | XIte span c t e => XIte span (rename_free bound c) (rename_free bound t) (rename_free bound e)
  | XMatch span s arms =>
      XMatch span (rename_free bound s)
        (map (fun arm => (rpat arm.1, rename_free (bind_all (collect_pattern_bindings arm.1) bound) arm.2)) arms)
  | XAnn span e t => XAnn span (rename_free bound e) (rtype t)
  | _ => e
  end.

Lemma pattern_bindings_kept p : collect_pattern_bindings (rpat p) = collect_pattern_bindings p.
Proof.
  induction p as [s|v|s n ps IH|s ps IH|s ps IH|s p q IHp IHq|s fs IH] using Pattern_ind'; simpl; try done; try congruence;
    rewrite map_map; f_equal; apply map_ext_in; intros x Hx; rewrite Forall_forall in IH; apply IH; try by apply list_elem_of_In.
Qed.

(** On an expression without shadowing the code renames what is free, and the set that
    it changes is at the end what it was. *)
Lemma rename_expr_free e : forall bound, hygienic bound e = true -> rexpr e bound = (rename_free bound e, bound).
Proof.
  induction e as [e IH] using Expr_children_ind. intros bound H. destruct e; cbn [rename_expr rename_free]; try done;
    cbn [hygienic] in H; cbn [children] in IH; repeat rewrite andb_true_iff in H; rewrite Forall_forall in IH.
  - rewrite forallb_forall in H. rewrite (thread_steady _ (rename_free bound)); [done|]. intros x Hx. apply IH; [done|]. by apply H, list_elem_of_In.
  - rewrite forallb_forall in H. rewrite (thread_steady _ (rename_free bound)); [done|]. intros x Hx. apply IH; [done|]. by apply H, list_elem_of_In.
  - rewrite forallb_forall in H. rewrite (thread_steady _ (fun kv => (kv.1, rename_free bound kv.2))); [done|]. intros x Hx.
    rewrite (IH x.2); [done| |by apply H, list_elem_of_In]. apply list_elem_of_fmap. by exists x.
  - destruct H as [Hb H]. rewrite forallb_forall in H. rewrite (IH e) by set_solver.
    rewrite (thread_steady _ (fun kv => (kv.1, rename_free bound kv.2))); [done|]. intros x Hx.
    rewrite (IH x.2); [done| |by apply H, list_elem_of_In]. apply elem_of_cons. right. apply list_elem_of_fmap. by exists x.
  - unfold renamed_var, renamed. destruct (decide _); [done|]. destruct (value_renames !! _); [done|]. by destruct v.
  - destruct H as [H1 H2]. by rewrite (IH e1), (IH e2) by set_solver.
  - destruct (renamed_constructor _ _ _ _); [done|]. by rewrite (IH e) by set_solver.
  - destruct H as [Hf H]. rewrite (IH e) by set_solver.
    by rewrite unbind_bind_one.
  - destruct H as [[H1 Hf] H2]. rewrite (IH e1) by set_solver. rewrite (IH e2) by set_solver.
    by rewrite unbind_bind_one.
  - destruct H as [[Hf H1] H2]. rewrite forallb_forall in H1. set (b := bind_all _ bound) in *.
    rewrite (thread_steady _ (fun x => (x.1.1.1, x.1.1.2, rtype <$> x.1.2, rename_free b x.2))).
    2:{ intros x Hx. rewrite (IH x.2); [done| |by apply H1, list_elem_of_In]. apply elem_of_cons. right. apply list_elem_of_fmap. by exists x. }
    rewrite (IH e) by set_solver. unfold b. by rewrite unbind_bind.
  - destruct H as [[H1 H2] H3]. by rewrite (IH e1), (IH e2), (IH e3) by set_solver.
  - destruct H as [Hs H]. rewrite forallb_forall in H. rewrite (IH e) by set_solver.
    rewrite (thread_steady _ (fun arm => (rpat arm.1, rename_free (bind_all (collect_pattern_bindings arm.1) bound) arm.2))); [done|].
    intros x Hx. rewrite pattern_bindings_kept. pose proof (H x ltac:(by apply list_elem_of_In)) as [Hb He]%andb_true_iff.
    rewrite (IH x.2); [|apply elem_of_cons; right; apply list_elem_of_fmap; by exists x|done]. by rewrite unbind_bind.
  - by rewrite (IH e) by set_solver.
Qed.

(** ** Uses *)

Definition declared (x : Symbol) : bool := bool_decide (is_Some (value_renames !! x)).

Definition renamed_use (u : bool * Symbol) : bool * Symbol := (u.1, if u.1 then u.2 else renamed value_renames u.2).

Lemma uses_project bound span base field : uses (fun _ => false) bound (XProject span base field) = uses (fun _ => false) bound base.
Proof. simpl. destruct base; try done. by rewrite andb_false_r. Qed.

Lemma concat_map_ext {A B} (f g : A -> list B) l : (forall x, x ∈ l -> f x = g x) -> concat (map f l) = concat (map g l).
Proof. intros H. f_equal. apply map_ext_in. intros x Hx. by apply H, list_elem_of_In. Qed.

Lemma constructors_renamed p : pattern_constructors (rpat p) = map (renamed value_renames) (pattern_constructors p).
Proof.
  assert (forall n, to_dotted_symbol (renamed_ref value_renames n) = renamed value_renames (to_dotted_symbol n)) as Hn.
  { intros n. unfold renamed_ref, renamed. by destruct (value_renames !! _). }
  induction p as [s|v|s n ps IH|s ps IH|s ps IH|s p q IHp IHq|s fs IH] using Pattern_ind'; simpl;
    rewrite ?map_app, ?concat_map, ?map_map; try done; try congruence;
    rewrite ?Hn; (apply concat_map_ext || (f_equal; apply concat_map_ext)); intros x Hx; rewrite Forall_forall in IH; by apply IH.
Qed.

Hypothesis targets : forall x y, value_renames !! x = Some y -> source_name y = false.

Lemma target_unbound (bound : gset Symbol) x y : value_renames !! x = Some y -> (forall n, n ∈ bound -> source_name n = true) -> y ∉ bound.
Proof using targets. intros Hy Hs Hin. apply Hs in Hin. apply targets in Hy. congruence. Qed.

Lemma sources_bind names (bound : gset Symbol) : forallb (fresh_binder bound) names = true -> (forall n, n ∈ bound -> source_name n = true) ->
  forall n, n ∈ bind_all names bound -> source_name n = true.
Proof using Type.
  intros [_ H]%fresh_binders_spec Hs n. rewrite bind_all_union. intros [Hn|Hn]%elem_of_union; [|by apply Hs].
  apply H. by apply elem_of_list_to_set in Hn.
Qed.

Lemma uses_renamed e : forall bound, hygienic bound e = true -> (forall n, n ∈ bound -> source_name n = true) ->
  uses (fun _ => false) bound (rename_free bound e) = map renamed_use (uses declared bound e).
Proof using targets.
  induction e as [e IH] using Expr_children_ind. intros bound H Hs. destruct e; cbn [rename_free uses]; try done;
    cbn [hygienic] in H; cbn [children] in IH; repeat rewrite andb_true_iff in H; rewrite Forall_forall in IH.
  - rewrite forallb_forall in H. rewrite map_map, concat_map, map_map. apply concat_map_ext. intros x Hx. apply IH; [done| |done]. by apply H, list_elem_of_In.
  - rewrite forallb_forall in H. rewrite map_map, concat_map, map_map. apply concat_map_ext. intros x Hx. apply IH; [done| |done]. by apply H, list_elem_of_In.
  - rewrite forallb_forall in H. rewrite map_map, concat_map, map_map. apply concat_map_ext. intros x Hx.
    apply IH; [apply list_elem_of_fmap; by exists x| |done]. by apply H, list_elem_of_In.
  - destruct H as [Hb H]. rewrite forallb_forall in H. rewrite map_app, concat_map, !map_map, (IH e) by set_solver. f_equal.
    apply concat_map_ext. intros x Hx. apply IH; [apply elem_of_cons; right; apply list_elem_of_fmap; by exists x| |done]. by apply H, list_elem_of_In.
  - destruct (decide (var_name v ∈ bound)) as [Hv|Hv]; [by rewrite bool_decide_eq_true_2 by done; simpl; rewrite bool_decide_eq_true_2|].
    rewrite (bool_decide_eq_false_2 _ Hv). unfold renamed_use, renamed_var, renamed. simpl. destruct (value_renames !! _) as [y|] eqn:E; simpl.
    + rewrite bool_decide_eq_false_2; [done|]. by eapply target_unbound.
    + by rewrite bool_decide_eq_false_2.
  - destruct H as [H1 H2]. by rewrite map_app, (IH e1), (IH e2) by set_solver.
  - destruct (renamed_constructor value_renames bound e field) as [new|] eqn:E.
    + destruct e; try done. simpl in E. destruct (decide _) as [|Hv]; [done|]. rewrite bool_decide_eq_false_2 by done. simpl.
      unfold declared. rewrite (bool_decide_eq_true_2 (is_Some _)) by (by eexists). unfold renamed_use, renamed. simpl. rewrite E. simpl.
      rewrite bool_decide_eq_false_2; [done|]. by eapply target_unbound.
    + rewrite uses_project, (IH e) by set_solver. f_equal. destruct e; try done. simpl in E. destruct (decide _) as [Hv|Hv].
      * by rewrite (bool_decide_eq_true_2 (_ ∈ bound)).
      * unfold declared. rewrite (bool_decide_eq_false_2 (is_Some _)); [by rewrite andb_false_r|]. rewrite E. by intros [? ?].
  - destruct H as [Hf H]. apply IH; [set_solver|done|]. intros n Hn. apply (sources_bind [var_name param] bound); [simpl; by rewrite Hf|done|done].
  - destruct H as [[H1 Hf] H2]. rewrite map_app, (IH e1) by set_solver. f_equal. apply IH; [set_solver|done|]. intros n Hn.
    apply (sources_bind [var_name v] bound); [simpl; by rewrite Hf|done|done].
  - destruct H as [[Hf H1] H2]. rewrite map_map. cbn. set (b := bind_all _ bound) in *. rewrite forallb_forall in H1.
    assert (forall n, n ∈ b -> source_name n = true) as Hb by (by apply sources_bind).
    rewrite map_app, concat_map, !map_map, (IH e) by set_solver. f_equal. apply concat_map_ext. intros x Hx. simpl.
    apply IH; [apply elem_of_cons; right; apply list_elem_of_fmap; by exists x| |done]. by apply H1, list_elem_of_In.
  - destruct H as [[H1 H2] H3]. by rewrite !map_app, (IH e1), (IH e2), (IH e3) by set_solver.
  - destruct H as [He H]. rewrite forallb_forall in H. rewrite map_app, concat_map, !map_map, (IH e) by set_solver. f_equal.
    apply concat_map_ext. intros x Hx. simpl. rewrite pattern_bindings_kept, constructors_renamed, map_app, !map_map. f_equal.
    pose proof (H x ltac:(by apply list_elem_of_In)) as [Hb Hx']%andb_true_iff.
    apply IH; [apply elem_of_cons; right; apply list_elem_of_fmap; by exists x|done|]. by apply sources_bind.
  - by rewrite (IH e) by set_solver.
Qed.
End Meaning.

(** * Packages *)

Lemma rename_to_lookup prefix names : forall m x,
  foldl (rename_to prefix) m names !! x = if decide (x ∈ names) then Some (qualify prefix x) else m !! x.
Proof.
  induction names as [|n names IH]; intros m x; simpl; [done|]. rewrite IH. unfold rename_to.
  destruct (decide (x ∈ names)) as [Hx|Hx]; [by rewrite decide_True by set_solver|].
  destruct (decide (x = n)) as [->|Hn]; [rewrite decide_True by set_solver; apply lookup_insert_eq|].
  rewrite decide_False by set_solver. by apply lookup_insert_ne.
Qed.

Definition local_values (d : Declarations) : list Symbol :=
  map (fun f => var_name (fn_name f)) (d_fns d) ++ map (fun f => var_name (declare_name f)) (d_declare_fns d)
  ++ (d_types d ≫= constructor_names).

(** The expressions of a package, each with the names that are bound around it. *)
Definition fn_scope (f : FnDecl) : gset Symbol := bind_all (map (fun p => var_name p.1) (fn_params_ f)) ∅.
Definition package_bodies (p : CompilationPackage) : list (gset Symbol * Expr) :=
  map (fun f => (fn_scope f, fn_body f)) (d_fns (package_decls p))
  ++ concat (map (fun i => map (fun m => (∅, impl_body m)) (instance_methods i)) (d_instances (package_decls p)))
  ++ match package_body p with Some body => [(∅, body)] | None => [] end.

Definition hygienic_body (b : gset Symbol * Expr) : Prop := hygienic b.1 b.2 = true /\ forall n, n ∈ b.1 -> source_name n = true.

(** A use after qualification: what is bound stays, what the package declares gets the
    prefix, everything else stays. *)
Definition qualified_use (prefix : string) (d : Declarations) (u : bool * Symbol) : bool * Symbol :=
  (u.1, if u.1 then u.2 else if decide (u.2 ∈ local_values d) then qualify prefix u.2 else u.2).

Lemma values_lookup d prefix x :
  (collect_local_renames_from_declarations d prefix).1.1 !! x = if decide (x ∈ local_values d) then Some (qualify prefix x) else None.
Proof.
  unfold collect_local_renames_from_declarations, local_values. simpl. rewrite <- !foldl_app, rename_to_lookup, lookup_empty, app_assoc. done.
Qed.

Lemma qualified_target key x : source_name (qualify (prefix_for_module_key key) x) = false.
Proof. done. Qed.

Lemma renamed_names prefix names : map (renamed (foldl (rename_to prefix) ∅ names)) names = map (qualify prefix) names.
Proof.
  apply map_ext_in. intros x Hx%list_elem_of_In. unfold renamed. rewrite rename_to_lookup. by rewrite decide_True.
Qed.

Lemma bodies_renamed values types classes p :
  package_bodies (qualify_package_with_renames values types classes p)
    = map (fun b => (b.1, (rename_expr values types classes b.2 b.1).1)) (package_bodies p).
Proof.
  unfold package_bodies, qualify_package_with_renames. simpl. rewrite !map_app, !map_map. f_equal; [|f_equal].
  - apply map_ext. intros f. unfold fn_scope, qualify_fn_decl, rename_params. simpl. by rewrite !map_map.
  - rewrite concat_map, !map_map. apply concat_map_ext. intros i _. simpl. by rewrite !map_map.
  - by destruct (package_body p).
Qed.

Lemma uses_ext f g : (forall x, f x = g x) -> forall e bound, uses f bound e = uses g bound e.
Proof.
  intros Hfg e. induction e as [e IH] using Expr_children_ind. rewrite Forall_forall in IH.
  assert (forall {A} (l : list (A * Expr)) b (h h' : A * Expr -> list (bool * Symbol)), (forall x, x ∈ map snd l -> x ∈ children e) ->
    (forall x, x ∈ l -> uses f (b x) x.2 = uses g (b x) x.2 -> h x = h' x) -> concat (map h l) = concat (map h' l)) as Hl.
  { intros A l b h h' Hc Hh. apply concat_map_ext. intros x Hx. apply Hh; [done|]. apply IH, Hc, list_elem_of_fmap. by exists x. }
  intros bound. destruct e; cbn [uses children] in *; try done.
  - apply concat_map_ext. intros x Hx. by apply IH.
  - apply concat_map_ext. intros x Hx. by apply IH.
  - apply (Hl _ _ (fun _ => bound)); [done|]. intros x _ Hx. exact Hx.
  - rewrite (IH e) by set_solver. f_equal. apply (Hl _ _ (fun _ => bound)); [set_solver|]. intros x _ Hx. exact Hx.
  - by rewrite (IH e1), (IH e2) by set_solver.
  - destruct e; rewrite (IH _ (list_elem_of_here _ _)); try done. by rewrite Hfg.
  - by rewrite (IH e) by set_solver.
  - by rewrite (IH e1), (IH e2) by set_solver.
  - rewrite (IH e) by set_solver. f_equal. apply (Hl _ _ (fun _ => bind_all (map (fun b => var_name b.1.1.1) bindings) bound)); [set_solver|]. intros x _ Hx. exact Hx.
  - by rewrite (IH e1), (IH e2), (IH e3) by set_solver.
  - rewrite (IH e) by set_solver. f_equal. apply (Hl _ _ (fun arm => bind_all (collect_pattern_bindings arm.1) bound)); [set_solver|]. intros x _ Hx. by rewrite Hx.
  - by rewrite (IH e) by set_solver.
Qed.

(** ** Exports *)

Definition public_fns (d : Declarations) : list Symbol :=
  map (fun f => var_name (fn_name f)) (filter (fun f => fn_is_pub f = true) (d_fns d)) ++
  map (fun f => var_name (declare_name f)) (filter (fun f => declare_is_pub f = true) (d_declare_fns d)).
Definition public_type_decls (d : Declarations) : list TypeDecl := filter (fun td => type_is_pub td = true) (d_types d).
Definition public_classes (d : Declarations) : list Symbol :=
  map class_name (filter (fun c => class_is_pub c = true) (d_classes d)).
Definition constructors (td : TypeDecl) : list Symbol :=
  match type_decl_kind td with Adt variants => map variant_name variants | Alias _ => [] end.

Ltac slot := intros; unfold export_value, export_typ, export_class, insert_value, insert_type, insert_class, entry_or_default;
  rewrite btree_get_insert; case_decide; subst; simpl; try done; by destruct (btree_get _ _).

Lemma value_in_value name s e n : export_value (insert_value name s e) n = if decide (name = n) then Some s else export_value e n.
Proof. slot. Qed.
Lemma value_in_type name s e n : export_value (insert_type name s e) n = export_value e n.
Proof. slot. Qed.
Lemma value_in_class name s e n : export_value (insert_class name s e) n = export_value e n.
Proof. slot. Qed.
Lemma type_in_value name s e n : export_typ (insert_value name s e) n = export_typ e n.
Proof. slot. Qed.
Lemma type_in_type name s e n : export_typ (insert_type name s e) n = if decide (name = n) then Some s else export_typ e n.
Proof. slot. Qed.
Lemma type_in_class name s e n : export_typ (insert_class name s e) n = export_typ e n.
Proof. slot. Qed.
Lemma class_in_value name s e n : export_class (insert_value name s e) n = export_class e n.
Proof. slot. Qed.
Lemma class_in_type name s e n : export_class (insert_type name s e) n = export_class e n.
Proof. slot. Qed.
Lemma class_in_class name s e n : export_class (insert_class name s e) n = if decide (name = n) then Some s else export_class e n.
Proof. slot. Qed.

Section Slots.
Variables (key : ModuleKey) (renames : gmap Symbol Symbol) (kind : SymbolKind).
Variable insert : Symbol -> CanonicalSymbol -> ModuleExports -> ModuleExports.
Variable get : ModuleExports -> Symbol -> option CanonicalSymbol.

(** What a table of names adds to the slot that it fills, and to the others. *)
Lemma fills_slot prefix names : (forall name s e n, get (insert name s e) n = if decide (name = n) then Some s else get e n) ->
  (forall x, x ∈ names -> renames !! x = Some (qualify prefix x)) ->
  forall e n, get (foldl (export_with key renames kind insert) e names) n
    = if decide (n ∈ names) then Some (mkCanonical key kind n (qualify prefix n)) else get e n.
Proof using Type.
  intros Hin. induction names as [|x names IH]; intros Hr e n; simpl; [done|].
  rewrite IH by (intros; apply Hr; by right). destruct (decide (n ∈ names)) as [Hn|Hn]; [by rewrite decide_True by (by right)|].
  unfold export_with. rewrite (Hr x) by (by left). rewrite Hin. destruct (decide (x = n)) as [->|Hx].
  - by rewrite decide_True by (by left).
  - rewrite decide_False; [done|]. by intros [->|?]%elem_of_cons.
Qed.

Lemma keeps_slot names : (forall name s e n, get (insert name s e) n = get e n) ->
  forall e n, get (foldl (export_with key renames kind insert) e names) n = get e n.
Proof using Type.
  intros Hin. induction names as [|x names IH]; intros e n; simpl; [done|]. rewrite IH. unfold export_with.
  destruct (renames !! x); [apply Hin|done].
Qed.
End Slots.

Section Types.
Variables (value_renames type_renames : gmap Symbol Symbol) (key : ModuleKey) (prefix : string).
Abbreviation exported := (foldl (export_type_decl value_renames type_renames key)).

Lemma types_exported tds : (forall td, td ∈ tds -> type_renames !! type_decl_name td = Some (qualify prefix (type_decl_name td))) ->
  forall e n, export_typ (exported e tds) n
    = if decide (n ∈ map type_decl_name tds) then Some (mkCanonical key KType n (qualify prefix n)) else export_typ e n.
Proof using Type.
  induction tds as [|td tds IH]; intros Hr e n; simpl; [done|]. rewrite IH by (intros; apply Hr; by right).
  assert (He : export_typ (export_type_decl value_renames type_renames key e td) n
    = if decide (type_decl_name td = n) then Some (mkCanonical key KType n (qualify prefix n)) else export_typ e n).
  { unfold export_type_decl. transitivity (export_typ (export_with key type_renames KType insert_type e (type_decl_name td)) n).
    - destruct (type_decl_kind td); [done|]. apply keeps_slot. intros. apply type_in_value.
    - unfold export_with. rewrite Hr by (by left). rewrite type_in_type. case_decide; by subst. }
  rewrite He. destruct (decide (n ∈ map type_decl_name tds)) as [Hn|Hn]; [by rewrite decide_True by (by right)|].
  case_decide as Hx; [by rewrite decide_True by (rewrite Hx; by left)|]. rewrite decide_False; [done|].
  by intros [->|?]%elem_of_cons.
Qed.

Lemma constructors_exported tds :
  (forall td x, td ∈ tds -> x ∈ constructors td -> value_renames !! x = Some (qualify prefix x)) ->
  forall e n, export_value (exported e tds) n
    = if decide (n ∈ tds ≫= constructors) then Some (mkCanonical key KValue n (qualify prefix n)) else export_value e n.
Proof using Type.
  induction tds as [|td tds IH]; intros Hr e n; simpl; [done|]. rewrite IH by (intros td' x Htd; apply (Hr td'); by right).
  assert (He : export_value (export_type_decl value_renames type_renames key e td) n
    = if decide (n ∈ constructors td) then Some (mkCanonical key KValue n (qualify prefix n)) else export_value e n).
  { assert (Ht : forall m, export_value (export_with key type_renames KType insert_type e (type_decl_name td)) m = export_value e m).
    { intros m. unfold export_with. destruct (type_renames !! _); [apply value_in_type|done]. }
    pose proof (Hr td) as Hc. unfold export_type_decl, constructors in *. destruct (type_decl_kind td); [apply Ht|].
    rewrite (fills_slot key value_renames KValue insert_value export_value prefix); [by rewrite Ht|apply value_in_value|].
    intros x Hx. by apply Hc; [left|]. }
  rewrite He. destruct (decide (n ∈ tds ≫= constructors)) as [Hn|Hn];
    [by rewrite decide_True by (apply elem_of_app; by right)|].
  destruct (decide (n ∈ constructors td)) as [Hx|Hx]; [by rewrite decide_True by (apply elem_of_app; by left)|].
  rewrite decide_False; [done|]. by intros [?|?]%elem_of_app.
Qed.

Lemma classes_kept tds e n : export_class (exported e tds) n = export_class e n.
Proof using Type.
  revert e. induction tds as [|td tds IH]; intros e; simpl; [done|]. rewrite IH. unfold export_type_decl.
  transitivity (export_class (export_with key type_renames KType insert_type e (type_decl_name td)) n).
  - destruct (type_decl_kind td); [done|]. apply keeps_slot. intros. apply class_in_value.
  - unfold export_with. destruct (type_renames !! _); [apply class_in_type|done].
Qed.
End Types.

Lemma constructors_local d td x : td ∈ d_types d -> x ∈ constructors td -> x ∈ local_values d.
Proof.
  intros Htd Hx. apply elem_of_app. right. apply elem_of_app. right. apply list_elem_of_bind. exists td. split; [|done].
  unfold constructors, constructor_names in *. destruct (type_decl_kind td); [done|].
  apply list_elem_of_fmap in Hx as (v & -> & Hv). apply list_elem_of_bind. exists v. split; [|done]. right. by left.
Qed.

(** The symbol under which a module exports a name. *)
Definition exported_as (id : ModuleId) (kind : SymbolKind) (public : list Symbol) (name : Symbol) : option CanonicalSymbol :=
  if decide (name ∈ public)
  then Some (mkCanonical (module_key_for_module id) kind name (qualify (prefix_for_module id) name)) else None.

Lemma exports_spec p id name :
  let d := package_decls p in
  let e := exports_from_package p (prefix_for_module id) id in
  export_value e name = exported_as id KValue (public_fns d ++ (public_type_decls d ≫= constructors)) name /\
  export_typ e name = exported_as id KType (map type_decl_name (public_type_decls d)) name /\
  export_class e name = exported_as id KClass (public_classes d) name.
Proof.
  cbv zeta. set (d := package_decls p). set (prefix := prefix_for_module id). unfold exports_from_package. fold d prefix.
  destruct (collect_local_renames_from_declarations d prefix) as [[values types] classes] eqn:E.
  assert (Hv : forall x, x ∈ local_values d -> values !! x = Some (qualify prefix x)).
  { intros x Hx. pose proof (values_lookup d prefix x) as H. rewrite E in H. simpl in H. by rewrite H, decide_True. }
  injection E as _ <- <-.
  assert (Hfn : forall x, x ∈ map (fun f => var_name (fn_name f)) (filter (fun f => fn_is_pub f = true) (d_fns d)) ->
    values !! x = Some (qualify prefix x)).
  { intros x (f & -> & [_ Hf]%list_elem_of_filter)%list_elem_of_fmap. apply Hv, elem_of_app. left. by apply (list_elem_of_fmap_2 (fun f => var_name (fn_name f))). }
  assert (Hdf : forall x, x ∈ map (fun f => var_name (declare_name f)) (filter (fun f => declare_is_pub f = true) (d_declare_fns d)) ->
    values !! x = Some (qualify prefix x)).
  { intros x (f & -> & [_ Hf]%list_elem_of_filter)%list_elem_of_fmap. apply Hv, elem_of_app. right. apply elem_of_app. left.
    by apply (list_elem_of_fmap_2 (fun f => var_name (declare_name f))). }
  assert (Htd : forall td x, td ∈ public_type_decls d -> x ∈ constructors td -> values !! x = Some (qualify prefix x)).
  { intros td x [_ Ht]%list_elem_of_filter Hx. by eapply Hv, constructors_local. }
  assert (Hren : forall names x, x ∈ names -> foldl (rename_to prefix) ∅ names !! x = Some (qualify prefix x)).
  { intros names x Hx. by rewrite rename_to_lookup, decide_True. }
  unfold exports_from_declarations, exported_as. fold (public_type_decls d). fold (public_classes d). fold prefix.
  set (key := module_key_for_module id). split_and!.
  - rewrite keeps_slot by (intros; apply value_in_class).
    rewrite (constructors_exported _ _ key prefix) by done.
    rewrite (fills_slot key values KValue insert_value export_value prefix) by (done || apply value_in_value).
    rewrite (fills_slot key values KValue insert_value export_value prefix) by (done || apply value_in_value).
    unfold public_fns. set (B := map _ _). set (A := map _ _). set (C := _ ≫= _).
    destruct (decide (name ∈ C)); [by rewrite decide_True by (apply elem_of_app; by right)|].
    destruct (decide (name ∈ B)); [by rewrite decide_True by (apply elem_of_app; left; apply elem_of_app; by right)|].
    destruct (decide (name ∈ A)); [by rewrite decide_True by (apply elem_of_app; left; apply elem_of_app; by left)|].
    rewrite decide_False; [done|]. by intros [[?|?]%elem_of_app|?]%elem_of_app.
  - rewrite keeps_slot by (intros; apply type_in_class). rewrite (types_exported _ _ key prefix).
    + by rewrite !keeps_slot by (intros; apply type_in_value).
    + intros td [_ Ht]%list_elem_of_filter. apply Hren. by apply list_elem_of_fmap_2.
  - rewrite (fills_slot key _ KClass insert_class export_class prefix); [|apply class_in_class|].
    + by rewrite classes_kept, !keeps_slot by (intros; apply class_in_value).
    + intros x (c & -> & [_ Hc]%list_elem_of_filter)%list_elem_of_fmap. apply Hren. by apply list_elem_of_fmap_2.
Qed.

(** C9. Qualification resolves the names of a package. Every function, type and class
    that a package declares gets the prefix of its module. Where no binder of a body
    shadows another one or is a name with a prefix ([hygienic_body]; the condition is
    needed, see [shadowing_ends_outer_scope]), every use of a name in the bodies keeps
    its place and whether it is bound: a bound name stays, a value or constructor that
    the package declares gets its qualified name, and any other name stays. The exports
    hold the public functions and the constructors of the public types as values, the
    public types and the public classes, each under its name with its qualified name as
    the symbol, and nothing else. *)
Theorem qualify_package_spec p id :
  Forall hygienic_body (package_bodies p) ->
  let prefix := prefix_for_module id in
  let d := package_decls p in
  let q := qualify_package p prefix in
  let e := exports_from_package p prefix id in
  map (fun f => var_name (fn_name f)) (d_fns (package_decls q)) = map (fun f => qualify prefix (var_name (fn_name f))) (d_fns d) /\
  map (fun f => var_name (declare_name f)) (d_declare_fns (package_decls q)) = map (fun f => qualify prefix (var_name (declare_name f))) (d_declare_fns d) /\
  map type_decl_name (d_types (package_decls q)) = map (fun t => qualify prefix (type_decl_name t)) (d_types d) /\
  map class_name (d_classes (package_decls q)) = map (fun c => qualify prefix (class_name c)) (d_classes d) /\
  map (fun b => uses (fun _ => false) b.1 b.2) (package_bodies q)
    = map (fun b => map (qualified_use prefix d) (uses (fun x => bool_decide (x ∈ local_values d)) b.1 b.2)) (package_bodies p) /\
  forall name,
    export_value e name = exported_as id KValue (public_fns d ++ (public_type_decls d ≫= constructors)) name /\
    export_typ e name = exported_as id KType (map type_decl_name (public_type_decls d)) name /\
    export_class e name = exported_as id KClass (public_classes d) name.
Proof.
  intros H. cbv zeta. unfold qualify_package. set (prefix := prefix_for_module id). set (d := package_decls p).
  destruct (collect_local_renames_from_declarations d prefix) as [[values types] classes] eqn:E.
  assert (forall x, values !! x = if decide (x ∈ local_values d) then Some (qualify prefix x) else None) as Hv.
  { intros x. by rewrite <- values_lookup, E. }
  injection E as _ <- <-. split_and!; [..|exact (exports_spec p id)].
  - simpl. rewrite map_map. apply map_ext_in. intros f Hf%list_elem_of_In. simpl. unfold renamed. rewrite Hv, decide_True; [done|].
    apply elem_of_app. left. apply list_elem_of_fmap. by exists f.
  - simpl. rewrite map_map. apply map_ext_in. intros f Hf%list_elem_of_In. simpl. unfold renamed. rewrite Hv, decide_True; [done|].
    apply elem_of_app. right. apply elem_of_app. left. apply list_elem_of_fmap. by exists f.
  - simpl. rewrite map_map. apply map_ext_in. intros t Ht%list_elem_of_In. simpl. unfold renamed. rewrite rename_to_lookup, decide_True; [done|].
    apply list_elem_of_fmap. by exists t.
  - simpl. rewrite map_map. apply map_ext_in. intros c Hc%list_elem_of_In. simpl. unfold renamed. rewrite rename_to_lookup, decide_True; [done|].
    apply list_elem_of_fmap. by exists c.
  - rewrite bodies_renamed, map_map. apply map_ext_in. intros [bound e] Hb%list_elem_of_In. rewrite Forall_forall in H.
    destruct (H _ Hb) as [Hh Hs]. simpl in *. rewrite rename_expr_free by done. simpl.
    assert (forall x y, values !! x = Some y -> source_name y = false) as Ht.
    { intros x y. rewrite Hv. destruct (decide _); [|done]. intros [= <-]. apply qualified_target. }
    rewrite uses_renamed by done.
    erewrite uses_ext; [apply map_ext|]; intros x; [|unfold declared]; cbn beta.
    + unfold renamed_use, qualified_use, renamed. rewrite Hv. destruct x as [[] x]; simpl; [done|]. by destruct (decide _).
    + apply bool_decide_ext. rewrite Hv. destruct (decide _); [by split|by split; [intros [? ?]|]].
Qed.

(** [fn double(x : i32) -> i32 = helper x], [fn helper(y : i32) -> i32 = let x = y in x], and
    the body [double 2]. *)
Definition demo_package : CompilationPackage :=
  let sp := Span_default in
  let v := mkVar sp in
  let x s := XVar (v s) in
  let int := TyName sp (Unqualified "i32") in
  let f name param body := mkFnDecl sp true (v name) [] [(v param, int)] int [] body None in
  mkPackage
    (mkDeclarations []
       [f "double" "x" (XApp sp (x "helper") (x "x")); f "helper" "y" (XLet sp (v "x") [] None (x "y") (x "x"))] [] [] [] [])
    (Some (XApp sp (x "double") (XUint sp 2))) None.

Lemma qualify_package_spec_witness :
  Forall hygienic_body (package_bodies demo_package) /\
  let prefix := prefix_for_module (mkModuleId ["demo"]) in
  map (fun b => uses (fun _ => false) b.1 b.2) (package_bodies (qualify_package demo_package prefix))
    = [[(false, qualify prefix "helper"); (true, "x")]; [(true, "y"); (true, "x")]; [(false, qualify prefix "double")]].
Proof.
  assert (Forall hygienic_body (package_bodies demo_package)) as H.
  { repeat (apply Forall_cons_2; [split; [by vm_compute|]|]); [..|apply Forall_nil_2]; cbn; intros n Hn;
      repeat (apply elem_of_union in Hn as [->%elem_of_singleton|Hn]; [done|]); by apply not_elem_of_empty in Hn. }
  split; [exact H|]. cbv zeta.
  destruct (qualify_package_spec demo_package (mkModuleId ["demo"]) H) as (_ & _ & _ & _ & -> & _). by vm_compute.
Defined.

(** A binder that shadows another one ends the other one's scope: in
    [fn g(x : i32) -> (i32, i32) = (let x = 1 in x, x)] of a package that declares [x], the
    last [x] becomes the declared one. *)
Lemma shadowing_ends_outer_scope :
  let sp := Span_default in
  let x := XVar (mkVar sp "x") in
  let one := XUint sp 1 in
  rename_expr {[ "x" := "@m.x" ]} ∅ ∅ (XTuple sp [XLet sp (mkVar sp "x") [] None one x; x]) {[ "x" ]}
    = (XTuple sp [XLet sp (mkVar sp "x") [] None one x; XVar (mkVar sp "@m.x")], ∅).
Proof. by vm_compute. Qed.
