(* ===== verification/Rewrite.v ===== *)
(** The use of imports: the check that every name used through an alias is exported, and
    the rewriting of imported names to canonical symbols
    ([rex-engine/src/builder/rewrite.rs]).

    As in [Qualify], [bound] is one set that the code changes on its way. After an error
    it is not used again. *)

From S2P Require Import Prelude Span Types BTree Syntax Ast Modules Qualify.

(** The error is always a missing export. *)
Record ImportUseError : Type := mkImportUseError { use_span : Span; use_module : Symbol; use_export : Symbol }.

Definition use_error (e : ImportUseError) : ModuleError := MissingExport (use_module e) (use_export e).

Section Aliases.
Variable aliases : gmap Symbol ModuleExports.
Variable shadowed_values : option (gset Symbol).

(** The exports of an alias that is visible. *)
Definition visible_alias (bound : gset Symbol) (name : Symbol) : option ModuleExports :=
  if alias_is_visible name bound shadowed_values then aliases !! name else None.

(** * Validation *)

(** A name [alias.member] must be exported in one of the given name spaces. *)
Definition validate_member (exported : ModuleExports -> Symbol -> bool) (name : NameRef) (span : Span) (bound : gset Symbol)
    : result ImportUseError unit :=
  match qualified_alias_member name with
  | None => Ok tt
  | Some (alias, member) =>
      match visible_alias bound alias with
      | None => Ok tt
      | Some exports => if exported exports member then Ok tt else Err (mkImportUseError span alias member)
      end
  end.

Definition exports_class (exports : ModuleExports) (member : Symbol) : bool := bool_decide (is_Some (export_class exports member)).
Definition exports_type_or_class (exports : ModuleExports) (member : Symbol) : bool :=
  bool_decide (is_Some (export_typ exports member)) || bool_decide (is_Some (export_class exports member)).

Definition validate_import_uses_class_name := validate_member exports_class.

(** [for x in l { f(x)?; }] *)
Section Each.
Context {A : Type}.
Variable f : A -> result ImportUseError unit.
Fixpoint validate_each (l : list A) : result ImportUseError unit :=
  match l with
  | [] => Ok tt
  | x :: l => let? _ := f x in validate_each l
  end.
End Each.

Fixpoint validate_import_uses_type_expr (t : TypeExpr) (bound : gset Symbol) : result ImportUseError unit :=
  match t with
  | TyName span name => validate_member exports_type_or_class name span bound
  | TyApp _ f x => let? _ := validate_import_uses_type_expr f bound in validate_import_uses_type_expr x bound
  | TyFun _ a b => let? _ := validate_import_uses_type_expr a bound in validate_import_uses_type_expr b bound
  | TyTuple _ elems => validate_each (fun e => validate_import_uses_type_expr e bound) elems
  | TyRecord _ fields => validate_each (fun f => validate_import_uses_type_expr f.1.2 bound) fields
  end.

Definition validate_ann (ann : option TypeExpr) (bound : gset Symbol) : result ImportUseError unit :=
  match ann with Some t => validate_import_uses_type_expr t bound | None => Ok tt end.

Definition validate_constraints (cs : list TypeConstraint) (bound : gset Symbol) : result ImportUseError unit :=
  validate_each (fun c =>
    let? _ := validate_import_uses_class_name (constraint_class c) (TypeExpr_span (constraint_typ c)) bound in
    validate_import_uses_type_expr (constraint_typ c) bound) cs.

(** The same on a state. *)
Section EachState.
Context {A S : Type}.
Variable f : A -> S -> result ImportUseError S.
Fixpoint validate_all (l : list A) (s : S) : result ImportUseError S :=
  match l with
  | [] => Ok s
  | x :: l => let? s := f x s in validate_all l s
  end.
End EachState.

(** [alias.Type.Variant], left to the type checker. *)
Definition selects_constructor (bound : gset Symbol) (base : Expr) : bool :=
  match base with
  | XProject _ (XVar alias) type_name =>
      match visible_alias bound (var_name alias) with
      | Some exports => bool_decide (is_Some (export_typ exports type_name))
      | None => false
      end
  | _ => false
  end.

(** [alias.field] where [field] is not exported. *)
Definition missing_value (bound : gset Symbol) (span : Span) (base : Expr) (field : Symbol) : option ImportUseError :=
  match base with
  | XVar v =>
      match visible_alias bound (var_name v) with
      | Some exports =>
          match export_value exports field with
          | None => Some (mkImportUseError span (var_name v) field)
          | Some _ => None
          end
      | None => None
      end
  | _ => None
  end.

Fixpoint validate_import_uses_expr (expr : Expr) (bound : gset Symbol) : result ImportUseError (gset Symbol) :=
  match expr with
  | XProject span base field =>
      if selects_constructor bound base then Ok bound
      else match missing_value bound span base field with
           | Some e => Err e
           | None => validate_import_uses_expr base bound
           end
  | XLam _ _ param ann constraints body =>
      let? _ := validate_ann ann bound in
      let? _ := validate_constraints constraints bound in
      let? bound := validate_import_uses_expr body ({[ var_name param ]} ∪ bound) in
      Ok (bound ∖ {[ var_name param ]})
  | XLet _ v _ ann val body =>
      let? _ := validate_ann ann bound in
      let? bound := validate_import_uses_expr val bound in
      let? bound := validate_import_uses_expr body ({[ var_name v ]} ∪ bound) in
      Ok (bound ∖ {[ var_name v ]})
  | XLetRec _ bindings body =>
      let? _ := validate_each (fun b : Var * list Symbol * option TypeExpr * Expr => validate_ann b.1.2 bound) bindings in
      let names := map (fun b => var_name b.1.1.1) bindings in
      let? bound := validate_all (fun (b : Var * list Symbol * option TypeExpr * Expr) => validate_import_uses_expr b.2) bindings
                      (bind_all names bound) in
      let? bound := validate_import_uses_expr body bound in
      Ok (unbind_all names bound)
  | XMatch _ scrutinee arms =>
      let? bound := validate_import_uses_expr scrutinee bound in
      validate_all (fun arm bound =>
        let binds := collect_pattern_bindings arm.1 in
        let? bound := validate_import_uses_expr arm.2 (bind_all binds bound) in
        Ok (unbind_all binds bound)) arms bound
  | XTuple _ elems | XList _ elems => validate_all validate_import_uses_expr elems bound
  | XDict _ kvs => validate_all (fun kv => validate_import_uses_expr kv.2) kvs bound
  | XRecordUpdate _ base updates =>
      let? bound := validate_import_uses_expr base bound in
      validate_all (fun kv => validate_import_uses_expr kv.2) updates bound
  | XApp _ f x =>
      let? bound := validate_import_uses_expr f bound in
      validate_import_uses_expr x bound
  | XIte _ c t e =>
      let? bound := validate_import_uses_expr c bound in
      let? bound := validate_import_uses_expr t bound in
      validate_import_uses_expr e bound
  | XAnn _ e t =>
      let? bound := validate_import_uses_expr e bound in
      let? _ := validate_import_uses_type_expr t bound in
      Ok bound
  | _ => Ok bound
  end.

Definition validate_expr (expr : Expr) (bound : gset Symbol) : result ImportUseError unit :=
  let? _ := validate_import_uses_expr expr bound in Ok tt.

(** The types of declarations are checked with nothing bound. *)
Definition validate_type (t : TypeExpr) : result ImportUseError unit := validate_import_uses_type_expr t ∅.

Definition validate_fn_decl (fd : FnDecl) : result ImportUseError unit :=
  let? _ := validate_each (fun p => validate_type p.2) (fn_params_ fd) in
  let? _ := validate_type (fn_ret fd) in
  let? _ := validate_constraints (fn_constraints fd) ∅ in
  validate_expr (fn_body fd) (fn_scope fd).

Definition validate_declare_fn_decl (df : DeclareFnDecl) : result ImportUseError unit :=
  let? _ := validate_each (fun p => validate_type p.2) (declare_params df) in
  let? _ := validate_type (declare_ret df) in
  validate_constraints (declare_constraints df) ∅.

Definition validate_type_decl (td : TypeDecl) : result ImportUseError unit :=
  match type_decl_kind td with
  | Alias alias => validate_type alias
  | Adt variants => validate_each (fun v => validate_each (fun a => validate_type (arg_typ a)) (variant_args v)) variants
  end.

Definition validate_class_decl (cd : ClassDecl) : result ImportUseError unit :=
  let? _ := validate_constraints (class_supers cd) ∅ in
  validate_each (fun m => validate_type (method_typ m)) (class_methods cd).

(** [NameRef::from_dotted] *)
Definition from_dotted (name : Symbol) : NameRef := from_segments (split_dot name).

(** The annotations of methods are not checked. *)
Definition validate_instance_decl (inst : InstanceDecl) : result ImportUseError unit :=
  let? _ := validate_import_uses_class_name (from_dotted (instance_class inst)) (instance_span inst) ∅ in
  let? _ := validate_type (instance_head inst) in
  let? _ := validate_constraints (instance_context inst) ∅ in
  validate_each (fun m => validate_expr (impl_body m) ∅) (instance_methods inst).

Definition validate_body (body : option Expr) : result ImportUseError unit :=
  match body with Some e => validate_expr e ∅ | None => Ok tt end.

Definition validate_decl (d : Decl) : result ImportUseError unit :=
  match d with
  | DFn fd => validate_fn_decl fd
  | DDeclareFn df => validate_declare_fn_decl df
  | DType td => validate_type_decl td
  | DClass cd => validate_class_decl cd
  | DInstance inst => validate_instance_decl inst
  | DImport _ => Ok tt
  end.

Definition validate_import_uses_decls_and_body (decls : list Decl) (body : option Expr) : result ImportUseError unit :=
  let? _ := validate_each validate_decl decls in
  validate_body body.

Definition validate_import_uses_declarations_and_body (d : Declarations) (body : option Expr) : result ImportUseError unit :=
  let? _ := validate_each validate_fn_decl (d_fns d) in
  let? _ := validate_each validate_declare_fn_decl (d_declare_fns d) in
  let? _ := validate_each validate_type_decl (d_types d) in
  let? _ := validate_each validate_class_decl (d_classes d) in
  let? _ := validate_each validate_instance_decl (d_instances d) in
  validate_body body.
End Aliases.

Definition module_error {A} (r : result ImportUseError A) : result ModuleError A :=
  match r with Ok a => Ok a | Err e => Err (use_error e) end.

Definition validate_import_uses (u : CompilationUnit) (aliases : gmap Symbol ModuleExports) (shadowed_values : option (gset Symbol))
    : result ModuleError unit :=
  module_error (validate_import_uses_decls_and_body aliases shadowed_values (Ast.decls u) (Ast.body u)).

Definition validate_import_uses_package (p : CompilationPackage) (aliases : gmap Symbol ModuleExports)
    (shadowed_values : option (gset Symbol)) : result ModuleError unit :=
  module_error (validate_import_uses_declarations_and_body aliases shadowed_values (package_decls p) (package_body p)).

(** * Rewriting *)

Record RewriteScope : Type := mkScope {
  scope_aliases : gmap Symbol ModuleExports;
  scope_values : gmap Symbol CanonicalSymbol;
  scope_types : gmap Symbol CanonicalSymbol;
  scope_classes : gmap Symbol CanonicalSymbol;
  scope_shadowed_types : option (gset Symbol);
  scope_shadowed_values : option (gset Symbol)
}.

Section Rewrite.
Variable scope : RewriteScope.

Definition scope_alias (bound : gset Symbol) (name : Symbol) : option ModuleExports :=
  visible_alias (scope_aliases scope) (scope_shadowed_values scope) bound name.

Definition is_shadowed_type (name : Symbol) : bool :=
  match scope_shadowed_types scope with Some s => bool_decide (name ∈ s) | None => false end.

(** A type or class name: a local one stays, an imported one or the member of an alias
    becomes its canonical symbol. *)
Definition rewrite_name (imported : gmap Symbol CanonicalSymbol) (member : ModuleExports -> Symbol -> option CanonicalSymbol)
    (name : NameRef) (bound : gset Symbol) : NameRef :=
  match name with
  | Unqualified n =>
      if is_shadowed_type n then name
      else match imported !! n with Some new => Unqualified (symbol new) | None => name end
  | _ =>
      match qualified_alias_member name with
      | None => name
      | Some (alias, m) =>
          match scope_alias bound alias with
          | None => name
          | Some exports => match member exports m with Some new => Unqualified (symbol new) | None => name end
          end
      end
  end.

Definition type_or_class (exports : ModuleExports) (member : Symbol) : option CanonicalSymbol :=
  match export_typ exports member with Some s => Some s | None => export_class exports member end.

Definition rewrite_import_uses_class_name := rewrite_name (scope_classes scope) export_class.

Fixpoint rewrite_import_uses_type_expr (t : TypeExpr) (bound : gset Symbol) : TypeExpr :=
  match t with
  | TyName span name => TyName span (rewrite_name (scope_types scope) type_or_class name bound)
  | TyApp span f x => TyApp span (rewrite_import_uses_type_expr f bound) (rewrite_import_uses_type_expr x bound)
  | TyFun span a b => TyFun span (rewrite_import_uses_type_expr a bound) (rewrite_import_uses_type_expr b bound)
  | TyTuple span elems => TyTuple span (map (fun e => rewrite_import_uses_type_expr e bound) elems)
  | TyRecord span fields => TyRecord span (map (fun f => (f.1.1, rewrite_import_uses_type_expr f.1.2 bound, f.2)) fields)
  end.

Definition rewrite_constraints (cs : list TypeConstraint) (bound : gset Symbol) : list TypeConstraint :=
  map (fun c => mkTypeConstraint (rewrite_import_uses_class_name (constraint_class c) bound)
                  (rewrite_import_uses_type_expr (constraint_typ c) bound)) cs.

Definition qualified_constructor_symbol (typ variant : Symbol) : Symbol := typ +:+ "." +:+ variant.

Definition rewrite_constructor_name (name : NameRef) : NameRef :=
  match as_segments name with
  | [typ; variant] =>
      match scope_types scope !! typ with
      | Some t => Unqualified (qualified_constructor_symbol (symbol t) variant)
      | None => name
      end
  | [alias; typ; variant] =>
      match (exports ← scope_aliases scope !! alias; export_typ exports typ) with
      | Some t => Unqualified (qualified_constructor_symbol (symbol t) variant)
      | None => name
      end
  | _ =>
      match scope_values scope !! to_dotted_symbol name with
      | Some c => Unqualified (symbol c)
      | None => name
      end
  end.

Fixpoint rewrite_import_uses_pattern (pat : Pattern) : Pattern :=
  match pat with
  | PWildcard span => PWildcard span
  | PVar v => PVar v
  | PNamed span name args => PNamed span (rewrite_constructor_name name) (map rewrite_import_uses_pattern args)
  | PTuple span elems => PTuple span (map rewrite_import_uses_pattern elems)
  | PList span elems => PList span (map rewrite_import_uses_pattern elems)
  | PCons span head tail => PCons span (rewrite_import_uses_pattern head) (rewrite_import_uses_pattern tail)
  | PDict span fields => PDict span (map (fun f => (f.1, rewrite_import_uses_pattern f.2)) fields)
  end.

(** The canonical symbol of a projection: [Type.Variant] of an imported type,
    [alias.Type.Variant], [alias.value]. *)
Definition rewritten_projection (bound : gset Symbol) (base : Expr) (field : Symbol) : option Symbol :=
  match base with
  | XVar v =>
      match (if decide (var_name v ∈ bound) then None else scope_types scope !! var_name v) with
      | Some t => Some (qualified_constructor_symbol (symbol t) field)
      | None => exports ← scope_alias bound (var_name v); symbol <$> export_value exports field
      end
  | XProject _ (XVar alias) type_name =>
      exports ← scope_alias bound (var_name alias);
      t ← export_typ exports type_name;
      Some (qualified_constructor_symbol (symbol t) field)
  | _ => None
  end.

Definition rewritten_var (bound : gset Symbol) (v : Var) : Var :=
  if alias_is_visible (var_name v) bound (scope_shadowed_values scope)
  then match scope_values scope !! var_name v with
       | Some internal => mkVar (var_span v) (symbol internal)
       | None => v
       end
  else v.

Fixpoint rewrite_import_uses_expr (expr : Expr) (bound : gset Symbol) : Expr * gset Symbol :=
  match expr with
  | XBool _ _ | XUint _ _ | XInt _ _ | XFloat _ _ | XChar _ _ | XString _ _ | XUuid _ _ | XDateTime _ _ | XHole _ => (expr, bound)
  | XProject span base field =>
      match rewritten_projection bound base field with
      | Some new => (XVar (mkVar span new), bound)
      | None => let '(base, bound) := rewrite_import_uses_expr base bound in (XProject span base field, bound)
      end
  | XVar v => (XVar (rewritten_var bound v), bound)
  | XLam span lam_scope param ann constraints body =>
      let ann := (fun t => rewrite_import_uses_type_expr t bound) <$> ann in
      let constraints := rewrite_constraints constraints bound in
      let '(body, bound) := rewrite_import_uses_expr body ({[ var_name param ]} ∪ bound) in
      (XLam span lam_scope param ann constraints body, bound ∖ {[ var_name param ]})
  | XLet span v type_params ann val body =>
      let '(val, bound) := rewrite_import_uses_expr val bound in
      let '(body, bound) := rewrite_import_uses_expr body ({[ var_name v ]} ∪ bound) in
      let bound := bound ∖ {[ var_name v ]} in
      (XLet span v type_params ((fun t => rewrite_import_uses_type_expr t bound) <$> ann) val body, bound)
  | XLetRec span bindings body =>
      let rewrite_ann := fun ann => (fun t => rewrite_import_uses_type_expr t bound) <$> ann in
      let names := map (fun b => var_name b.1.1.1) bindings in
      let '(bindings, bound) :=
        thread (fun (b : Var * list Symbol * option TypeExpr * Expr) bound =>
          let '(def, bound) := rewrite_import_uses_expr b.2 bound in
          ((b.1.1.1, b.1.1.2, rewrite_ann b.1.2, def), bound)) bindings (bind_all names bound) in
      let '(body, bound) := rewrite_import_uses_expr body bound in
      (XLetRec span bindings body, unbind_all names bound)
  | XMatch span scrutinee arms =>
      let '(scrutinee, bound) := rewrite_import_uses_expr scrutinee bound in
      let '(arms, bound) :=
        thread (fun arm bound =>
          let pat := rewrite_import_uses_pattern arm.1 in
          let binds := collect_pattern_bindings pat in
          let '(e, bound) := rewrite_import_uses_expr arm.2 (bind_all binds bound) in
          ((pat, e), unbind_all binds bound)) arms bound in
      (XMatch span scrutinee arms, bound)
  | XTuple span elems => let '(elems, bound) := thread rewrite_import_uses_expr elems bound in (XTuple span elems, bound)
  | XList span elems => let '(elems, bound) := thread rewrite_import_uses_expr elems bound in (XList span elems, bound)
  | XDict span kvs =>
      let '(kvs, bound) := thread (fun kv b => let '(v, b) := rewrite_import_uses_expr kv.2 b in ((kv.1, v), b)) kvs bound in
      (XDict span kvs, bound)
  | XRecordUpdate span base updates =>
      let '(base, bound) := rewrite_import_uses_expr base bound in
      let '(updates, bound) := thread (fun kv b => let '(v, b) := rewrite_import_uses_expr kv.2 b in ((kv.1, v), b)) updates bound in
      (XRecordUpdate span base updates, bound)
  | XApp span f x =>
      let '(f, bound) := rewrite_import_uses_expr f bound in
      let '(x, bound) := rewrite_import_uses_expr x bound in
      (XApp span f x, bound)
  | XIte span c t e =>
      let '(c, bound) := rewrite_import_uses_expr c bound in
      let '(t, bound) := rewrite_import_uses_expr t bound in
      let '(e, bound) := rewrite_import_uses_expr e bound in
      (XIte span c t e, bound)
  | XAnn span e t =>
      let '(e, bound) := rewrite_import_uses_expr e bound in
      (XAnn span e (rewrite_import_uses_type_expr t bound), bound)
  end.

Definition rewrite_type (t : TypeExpr) : TypeExpr := rewrite_import_uses_type_expr t ∅.
Definition rewrite_params (params : list (Var * TypeExpr)) : list (Var * TypeExpr) := map (fun p => (p.1, rewrite_type p.2)) params.

Definition rewrite_fn_decl (fd : FnDecl) : FnDecl :=
  mkFnDecl (fn_span fd) (fn_is_pub fd) (fn_name fd) (fn_type_params fd) (rewrite_params (fn_params_ fd)) (rewrite_type (fn_ret fd))
    (rewrite_constraints (fn_constraints fd) ∅) (rewrite_import_uses_expr (fn_body fd) (fn_scope fd)).1 (fn_docs fd).

Definition rewrite_declare_fn_decl (df : DeclareFnDecl) : DeclareFnDecl :=
  mkDeclareFnDecl (declare_span df) (declare_is_pub df) (declare_name df) (declare_type_params df)
    (rewrite_params (declare_params df)) (rewrite_type (declare_ret df)) (rewrite_constraints (declare_constraints df) ∅)
    (declare_docs df).

Definition rewrite_type_decl (td : TypeDecl) : TypeDecl :=
  mkTypeDecl (type_decl_span td) (type_is_pub td) (type_decl_name td) (type_decl_params td)
    match type_decl_kind td with
    | Alias alias => Alias (rewrite_type alias)
    | Adt variants =>
        Adt (map (fun v => mkTypeVariant (variant_name v)
                             (map (fun a => mkTypeVariantArg (rewrite_type (arg_typ a)) (arg_docs a)) (variant_args v))
                             (variant_docs v)) variants)
    end
    (type_decl_docs td).

Definition rewrite_class_decl (cd : ClassDecl) : ClassDecl :=
  mkClassDecl (class_span cd) (class_is_pub cd) (class_name cd) (class_params cd) (rewrite_constraints (class_supers cd) ∅)
    (map (fun m => mkClassMethodSig (method_name m) (method_type_params m) (rewrite_type (method_typ m)) (method_docs m)) (class_methods cd))
    (class_docs cd).

Definition rewrite_instance_decl (inst : InstanceDecl) : InstanceDecl :=
  mkInstanceDecl (instance_span inst) (instance_is_pub inst) (instance_type_params inst)
    (to_dotted_symbol (rewrite_import_uses_class_name (from_dotted (instance_class inst)) ∅)) (rewrite_type (instance_head inst))
    (rewrite_constraints (instance_context inst) ∅)
    (map (fun m => mkInstanceMethodImpl (impl_name m) (impl_type_params m) (rewrite_type <$> impl_ann m)
                     (rewrite_import_uses_expr (impl_body m) ∅).1) (instance_methods inst))
    (instance_docs inst).

Definition rewrite_decl (d : Decl) : Decl :=
  match d with
  | DFn fd => DFn (rewrite_fn_decl fd)
  | DDeclareFn df => DDeclareFn (rewrite_declare_fn_decl df)
  | DType td => DType (rewrite_type_decl td)
  | DClass cd => DClass (rewrite_class_decl cd)
  | DInstance inst => DInstance (rewrite_instance_decl inst)
  | DImport i => DImport i
  end.

Definition rewrite_body (body : option Expr) : option Expr := (fun e => (rewrite_import_uses_expr e ∅).1) <$> body.

Definition rewrite_import_uses_decls_and_body (decls : list Decl) (body : option Expr) : list Decl * option Expr :=
  (map rewrite_decl decls, rewrite_body body).

(** Each declaration is rewritten alone, as a declaration of its kind. *)
Definition rewrite_import_uses_declarations_and_body (d : Declarations) (body : option Expr) : Declarations * option Expr :=
  (mkDeclarations (map rewrite_type_decl (d_types d)) (map rewrite_fn_decl (d_fns d)) (map rewrite_declare_fn_decl (d_declare_fns d))
     (d_imports d) (map rewrite_class_decl (d_classes d)) (map rewrite_instance_decl (d_instances d)), rewrite_body body).
End Rewrite.

Definition rewrite_import_uses (u : CompilationUnit) (scope : RewriteScope) : CompilationUnit :=
  let '(decls, body) := rewrite_import_uses_decls_and_body scope (Ast.decls u) (Ast.body u) in
  mkCompilationUnit decls body.

Definition rewrite_import_uses_package (p : CompilationPackage) (scope : RewriteScope) : CompilationPackage :=
  let '(decls, body) := rewrite_import_uses_declarations_and_body scope (package_decls p) (package_body p) in
  mkPackage decls body (package_docs p).

(** * What validation and rewriting give *)

Lemma to_dotted_from_dotted class : to_dotted_symbol (from_dotted class) = class.
Proof.
  unfold from_dotted, from_segments. destruct (split_dot_cons class) as (x & l & E). pose proof (join_split_dot class) as J. rewrite E in *.
  by destruct l.
Qed.

Section Resolved.
Variable scope : RewriteScope.

(** The aliases with nothing exported: against them, every use of a visible alias is an
    error. *)
Definition no_exports : gmap Symbol ModuleExports := (fun _ => []) <$> scope_aliases scope.

Notation valid_type := (validate_import_uses_type_expr (scope_aliases scope) (scope_shadowed_values scope)).
Notation no_alias_type := (validate_import_uses_type_expr no_exports (scope_shadowed_values scope)).
Notation valid_expr := (validate_import_uses_expr (scope_aliases scope) (scope_shadowed_values scope)).
Notation no_alias_expr := (validate_import_uses_expr no_exports (scope_shadowed_values scope)).
Notation rexpr := (rewrite_import_uses_expr scope).
Notation rtype := (rewrite_import_uses_type_expr scope).

(** Aliases are names of the source, and canonical symbols are not. *)
Definition scope_ok : Prop :=
  (forall a exports, scope_aliases scope !! a = Some exports ->
     source_name a = true /\
     (forall n s, export_value exports n = Some s -> source_name (symbol s) = false) /\
     (forall n s, export_typ exports n = Some s -> source_name (symbol s) = false) /\
     (forall n s, export_class exports n = Some s -> source_name (symbol s) = false)) /\
  (forall n s, scope_values scope !! n = Some s -> source_name (symbol s) = false) /\
  (forall n s, scope_types scope !! n = Some s -> source_name (symbol s) = false) /\
  (forall n s, scope_classes scope !! n = Some s -> source_name (symbol s) = false).

Lemma constructor_not_source t v : source_name t = false -> source_name (qualified_constructor_symbol t v) = false.
Proof. unfold source_name, qualified_constructor_symbol. destruct t as [|c t]; [done|]. change (String c t +:+ "." +:+ v) with (String c (t +:+ "." +:+ v)).
  cbn [String.prefix]. by destruct (Ascii.ascii_dec _ c), t. Qed.

Lemma no_exports_visible bound a :
  visible_alias no_exports (scope_shadowed_values scope) bound a
    = (fun _ => []) <$> visible_alias (scope_aliases scope) (scope_shadowed_values scope) bound a.
Proof. unfold visible_alias. destruct (alias_is_visible _ _ _); [|done]. unfold no_exports. by rewrite lookup_fmap. Qed.

(** ** Names *)

Lemma member_resolved imported exported (member : ModuleExports -> Symbol -> option CanonicalSymbol) ok name span bound :
  (forall e m, exported e m = true -> is_Some (member e m)) ->
  validate_member (scope_aliases scope) (scope_shadowed_values scope) exported name span bound = Ok tt ->
  validate_member no_exports (scope_shadowed_values scope) ok (rewrite_name scope imported member name bound) span bound = Ok tt.
Proof.
  intros He Hv. destruct name as [n|dotted segments]; cbn [rewrite_name].
  - destruct (is_shadowed_type scope n); [done|]. by destruct (imported !! n).
  - unfold validate_member in Hv. destruct (qualified_alias_member (Qualified dotted segments)) as [[alias m]|] eqn:Eq.
    2:{ unfold validate_member. by rewrite Eq. }
    unfold scope_alias. destruct (visible_alias _ _ bound alias) as [exports|] eqn:Ea.
    + destruct (exported exports m) eqn:Ex; [|done]. destruct (He _ _ Ex) as [s ->]. done.
    + unfold validate_member. rewrite Eq, no_exports_visible, Ea. done.
Qed.

Lemma type_or_class_exported e m : exports_type_or_class e m = true -> is_Some (type_or_class e m).
Proof.
  unfold exports_type_or_class, type_or_class. destruct (export_typ e m) as [s|]; [by eexists|]. simpl.
  intros H. by apply bool_decide_eq_true in H.
Qed.

Lemma class_exported e m : exports_class e m = true -> is_Some (export_class e m).
Proof. intros H. by apply bool_decide_eq_true in H. Qed.

(** ** Types *)

Lemma validate_each_Ok {A} (f : A -> result ImportUseError unit) l : validate_each f l = Ok tt <-> Forall (fun x => f x = Ok tt) l.
Proof.
  induction l as [|x l IH]; simpl; [by split; [constructor|]|]. rewrite Forall_cons, <- IH.
  destruct (f x) as [[]|]; simpl; [|by split; [|intros [? ?]]]. split; [by intros ->|by intros [_ ?]].
Qed.

Lemma rbind_unit {B} (m : result ImportUseError unit) (k : unit -> result ImportUseError B) b :
  (let? x := m in k x) = Ok b <-> m = Ok tt /\ k tt = Ok b.
Proof. destruct m as [[]|]; simpl; naive_solver. Qed.

Lemma type_resolved t bound : valid_type t bound = Ok tt -> no_alias_type (rtype t bound) bound = Ok tt.
Proof.
  induction t as [sp n|sp f a IHf IHa|sp a r IHa IHr|sp es IH|sp fs IH] using TypeExpr_ind'; simpl.
  - apply member_resolved, type_or_class_exported.
  - rewrite !rbind_unit. intros [? ?]. split; [by apply IHf|by apply IHa].
  - rewrite !rbind_unit. intros [? ?]. split; [by apply IHa|by apply IHr].
  - rewrite !validate_each_Ok, Forall_map. intros H. rewrite Forall_forall in *. intros x Hx. apply IH; [done|]. by apply H.
  - rewrite !validate_each_Ok, Forall_map. intros H. rewrite Forall_forall in *. intros x Hx. simpl. apply IH; [done|]. by apply H.
Qed.

Lemma ann_resolved ann bound :
  validate_ann (scope_aliases scope) (scope_shadowed_values scope) ann bound = Ok tt ->
  validate_ann no_exports (scope_shadowed_values scope) ((fun t => rtype t bound) <$> ann) bound = Ok tt.
Proof. destruct ann as [t|]; simpl; [apply type_resolved|done]. Qed.

Lemma TypeExpr_span_rewritten t bound : TypeExpr_span (rtype t bound) = TypeExpr_span t.
Proof. by destruct t. Qed.

Lemma constraints_resolved cs bound :
  validate_constraints (scope_aliases scope) (scope_shadowed_values scope) cs bound = Ok tt ->
  validate_constraints no_exports (scope_shadowed_values scope) (rewrite_constraints scope cs bound) bound = Ok tt.
Proof.
  unfold validate_constraints, rewrite_constraints. rewrite !validate_each_Ok, Forall_map. intros H. rewrite Forall_forall in *.
  intros c Hc. specialize (H c Hc). simpl in *. rewrite rbind_unit in *. destruct H as [H1 H2]. rewrite TypeExpr_span_rewritten. split.
  - unfold validate_import_uses_class_name, rewrite_import_uses_class_name in *. by eapply member_resolved, H1; apply class_exported.
  - by apply type_resolved.
Qed.

(** ** Expressions *)

(** An expression, rewritten and free of aliases, with the set of bound names as it was. *)
Definition resolved {A B} (v : A -> gset Symbol -> result ImportUseError (gset Symbol)) (r : A -> gset Symbol -> B * gset Symbol)
    (v0 : B -> gset Symbol -> result ImportUseError (gset Symbol)) (K : A -> B -> Prop) (bound : gset Symbol) (x : A) : Prop :=
  forall b, v x bound = Ok b -> b = bound /\ exists y, r x bound = (y, bound) /\ v0 y bound = Ok bound /\ K x y.

Lemma all_resolved {A B} (v : A -> gset Symbol -> result ImportUseError (gset Symbol)) (r : A -> gset Symbol -> B * gset Symbol) v0
    (K : A -> B -> Prop) bound l :
  (forall x, x ∈ l -> resolved v r v0 K bound x) ->
  resolved (validate_all v) (thread r) (validate_all v0) (Forall2 K) bound l.
Proof.
  induction l as [|x l IH]; intros H b; simpl; [intros [= <-]; split; [done|]; exists []; by split_and!|].
  intros (b1 & H1 & H2)%rbind_Ok. destruct (H x ltac:(set_solver) _ H1) as (-> & y & Hr & Hv & Hk).
  destruct (IH ltac:(set_solver) _ H2) as (-> & ys & Hrs & Hvs & Hks). split; [done|]. exists (y :: ys).
  rewrite Hr, Hrs. simpl. rewrite Hv. simpl. split_and!; [done|done|by constructor].
Qed.

Lemma bindings_rewritten p : collect_pattern_bindings (rewrite_import_uses_pattern scope p) = collect_pattern_bindings p.
Proof.
  induction p as [s|v|s n ps IH|s ps IH|s ps IH|s p q IHp IHq|s fs IH] using Pattern_ind'; simpl; try done; try congruence;
    rewrite map_map; apply concat_map_ext; intros x Hx; rewrite Forall_forall in IH; by apply IH.
Qed.

Hypothesis Hscope : scope_ok.

Lemma canonical_not_alias bound a : source_name a = false -> visible_alias no_exports (scope_shadowed_values scope) bound a = None.
Proof using Hscope.
  intros Ha. rewrite no_exports_visible. unfold visible_alias. destruct (alias_is_visible _ _ _); [|done].
  destruct (scope_aliases scope !! a) eqn:E; [|done]. destruct (proj1 Hscope _ _ E) as [? _]. congruence.
Qed.

Lemma selects_no_exports bound e : selects_constructor no_exports (scope_shadowed_values scope) bound e = false.
Proof.
  destruct e as [| | | | | | | | | | | | | | |sp e f| | | | | |]; try done. destruct e; try done. simpl. rewrite no_exports_visible.
  by destruct (visible_alias _ _ _ _).
Qed.

Lemma missing_no_alias bound span v field :
  visible_alias no_exports (scope_shadowed_values scope) bound (var_name v) = None ->
  missing_value no_exports (scope_shadowed_values scope) bound span (XVar v) field = None.
Proof. intros H. simpl. by rewrite H. Qed.

(** What is rewritten to a variable was one, or is a canonical symbol. *)
Definition var_kept (bound : gset Symbol) (e e' : Expr) : Prop :=
  match e' with
  | XVar v' => source_name (var_name v') = false \/ exists v, e = XVar v /\ v' = rewritten_var scope bound v
  | _ => True
  end.

Lemma projection_canonical bound base field new : rewritten_projection scope bound base field = Some new -> source_name new = false.
Proof using Hscope.
  destruct Hscope as (Ha & _ & Ht & _). assert (forall a e, scope_alias scope bound a = Some e -> scope_aliases scope !! a = Some e) as Hal.
  { intros a e. unfold scope_alias, visible_alias. by destruct (alias_is_visible _ _ _). }
  destruct base as [| | | | | | | | | | | | |v| |sp base f| | | | | |]; try done; simpl.
  - destruct (if decide _ then None else _) as [t|] eqn:E.
    + intros [= <-]. apply constructor_not_source. destruct (decide _); [done|]. by eapply Ht.
    + destruct (scope_alias _ _ _) as [e|] eqn:Ee; [|done]. simpl. destruct (export_value e field) as [s|] eqn:Es; [|done].
      intros [= <-]. destruct (Ha _ _ (Hal _ _ Ee)) as (_ & Hv & _). by eapply Hv.
  - destruct base; try done. destruct (scope_alias _ _ _) as [e|] eqn:Ee; [|done]. simpl.
    destruct (export_typ e f) as [t|] eqn:Et; [|done]. intros [= <-]. apply constructor_not_source.
    destruct (Ha _ _ (Hal _ _ Ee)) as (_ & _ & Hty & _). by eapply Hty.
Qed.

Lemma project_resolved bound span base field :
  resolved valid_expr rexpr no_alias_expr (var_kept bound) bound base ->
  resolved valid_expr rexpr no_alias_expr (var_kept bound) bound (XProject span base field).
Proof using Hscope.
  intros IH b Hv. cbn [validate_import_uses_expr rewrite_import_uses_expr] in *.
  destruct (rewritten_projection scope bound base field) as [new|] eqn:Ep.
  { assert (b = bound) as ->.
    { destruct (selects_constructor _ _ _ _); [by injection Hv|]. destruct (missing_value _ _ _ _ _ _); [done|]. by destruct (IH _ Hv). }
    split; [done|]. exists (XVar (mkVar span new)). split_and!; [done|done|]. left. by eapply projection_canonical. }
  destruct (selects_constructor _ _ bound base) eqn:Es.
  { exfalso. destruct base as [| | | | | | | | | | | | | | |sp base f| | | | | |]; try done. destruct base; try done. simpl in *.
    unfold scope_alias in Ep. destruct (visible_alias _ _ _ _) as [e|]; [|done]. simpl in Ep. apply bool_decide_eq_true in Es as [t Et]. by rewrite Et in Ep. }
  destruct (missing_value _ _ bound span base field) eqn:Em; [done|]. destruct (IH _ Hv) as (-> & y & Hr & Hn & Hk).
  split; [done|]. exists (XProject span y field). rewrite Hr. split_and!; [done| |done]. cbn [validate_import_uses_expr].
  rewrite selects_no_exports.
  assert (missing_value no_exports (scope_shadowed_values scope) bound span y field = None) as ->; [|exact Hn].
  destruct y as [| | | | | | | | | | | | |v'| | | | | | | |]; try done. apply missing_no_alias.
  destruct Hk as [Hk|(v & -> & ->)]; [by apply canonical_not_alias|]. unfold rewritten_var.
  assert (visible_alias no_exports (scope_shadowed_values scope) bound (var_name v) = None) as Hnone.
  { rewrite no_exports_visible. simpl in Em, Ep. destruct (if decide _ then None else _); [done|]. unfold scope_alias in Ep.
    destruct (visible_alias _ _ bound _) as [e|]; [|done]. simpl in Ep. by destruct (export_value e field). }
  destruct (alias_is_visible _ _ _); [|done]. destruct (scope_values scope !! var_name v) as [s|] eqn:Ev; [|done].
  apply canonical_not_alias. simpl. destruct Hscope as (_ & Hvals & _). by eapply Hvals.
Qed.

Lemma kvs_resolved {A} bound (l : list (A * Expr)) (K : Expr -> Expr -> Prop) :
  (forall x, x ∈ l -> resolved valid_expr rexpr no_alias_expr K bound x.2) ->
  resolved (validate_all (fun kv => valid_expr kv.2))
    (thread (fun kv b => let '(v, b) := rexpr kv.2 b in ((kv.1, v), b))) (validate_all (fun kv => no_alias_expr kv.2))
    (Forall2 (fun _ _ => True)) bound l.
Proof using Type.
  intros H. apply all_resolved. intros x Hx b Hv. destruct (H x Hx b Hv) as (-> & y & Hr & Hn & Hk). split; [done|].
  exists (x.1, y). by rewrite Hr.
Qed.

Lemma bindings_resolved bound bound0 (l : list (Var * list Symbol * option TypeExpr * Expr)) (K : Expr -> Expr -> Prop) :
  (forall x, x ∈ l -> resolved valid_expr rexpr no_alias_expr K bound x.2) ->
  resolved (validate_all (fun b => valid_expr b.2))
    (thread (fun b bound => let '(def, bound) := rexpr b.2 bound in
       ((b.1.1.1, b.1.1.2, (fun t => rtype t bound0) <$> b.1.2, def), bound))) (validate_all (fun b => no_alias_expr b.2))
    (Forall2 (fun x y => y.1 = (x.1.1, (fun t => rtype t bound0) <$> x.1.2))) bound l.
Proof using Type.
  intros H. apply all_resolved. intros x Hx b Hv. destruct (H x Hx b Hv) as (-> & y & Hr & Hn & Hk). split; [done|].
  exists (x.1.1.1, x.1.1.2, (fun t => rtype t bound0) <$> x.1.2, y). rewrite Hr. by destruct x as [[[]]].
Qed.

Lemma arms_resolved bound (l : list (Pattern * Expr)) :
  (forall x, x ∈ l -> forallb (fresh_binder bound) (collect_pattern_bindings x.1) = true /\
     resolved valid_expr rexpr no_alias_expr (fun _ _ => True) (bind_all (collect_pattern_bindings x.1) bound) x.2) ->
  resolved
    (validate_all (fun arm bound =>
       let? bound := valid_expr arm.2 (bind_all (collect_pattern_bindings arm.1) bound) in
       Ok (unbind_all (collect_pattern_bindings arm.1) bound)))
    (thread (fun arm bound =>
       let '(e, bound) := rexpr arm.2 (bind_all (collect_pattern_bindings (rewrite_import_uses_pattern scope arm.1)) bound) in
       ((rewrite_import_uses_pattern scope arm.1, e), unbind_all (collect_pattern_bindings (rewrite_import_uses_pattern scope arm.1)) bound)))
    (validate_all (fun arm bound =>
       let? bound := no_alias_expr arm.2 (bind_all (collect_pattern_bindings arm.1) bound) in
       Ok (unbind_all (collect_pattern_bindings arm.1) bound)))
    (Forall2 (fun _ _ => True)) bound l.
Proof using Type.
  intros H. apply all_resolved. intros x Hx b (b1 & Hv & [= <-])%rbind_Ok. destruct (H x Hx) as [Hf Hr].
  destruct (Hr _ Hv) as (-> & y & Hy & Hn & _). rewrite unbind_bind by done. split; [done|].
  exists (rewrite_import_uses_pattern scope x.1, y). rewrite bindings_rewritten, Hy, unbind_bind by done. split_and!; [done| |done].
  cbn [fst snd]. rewrite bindings_rewritten, Hn. simpl. by rewrite unbind_bind.
Qed.

Lemma resolved_weaken {A B} (v : A -> gset Symbol -> result ImportUseError (gset Symbol)) (r : A -> gset Symbol -> B * gset Symbol) v0
    (K K' : A -> B -> Prop) bound x : (forall y, K x y -> K' x y) -> resolved v r v0 K bound x -> resolved v r v0 K' bound x.
Proof using Type. intros HK H b Hv. destruct (H b Hv) as (-> & y & ? & ? & ?). split; [done|]. exists y. by split_and!; [..|apply HK]. Qed.

Lemma expr_resolved e : forall bound, hygienic bound e = true -> resolved valid_expr rexpr no_alias_expr (var_kept bound) bound e.
Proof using Hscope.
  induction e as [e IH] using Expr_children_ind. rewrite Forall_forall in IH. intros bound H.
  assert (forall x bound, x ∈ children e -> hygienic bound x = true -> resolved valid_expr rexpr no_alias_expr (fun _ _ => True) bound x) as IH'.
  { intros x b Hx Hb. eapply resolved_weaken; [|by apply IH]. done. }
  destruct e; try (intros ? [= <-]; split; [done|]; eexists; by split_and!); cbn [hygienic children] in *;
    repeat rewrite andb_true_iff in H.
  - intros b Hv. cbn [validate_import_uses_expr rewrite_import_uses_expr] in *. rewrite forallb_forall in H.
    destruct (all_resolved valid_expr rexpr no_alias_expr (fun _ _ => True) bound elems) with (b := b) as (-> & ys & -> & Hn & _); [|done|].
    { intros x Hx. apply IH'; [done|]. by apply H, list_elem_of_In. }
    split; [done|]. eexists. by split_and!.
  - intros b Hv. cbn [validate_import_uses_expr rewrite_import_uses_expr] in *. rewrite forallb_forall in H.
    destruct (all_resolved valid_expr rexpr no_alias_expr (fun _ _ => True) bound elems) with (b := b) as (-> & ys & -> & Hn & _); [|done|].
    { intros x Hx. apply IH'; [done|]. by apply H, list_elem_of_In. }
    split; [done|]. eexists. by split_and!.
  - intros b Hv. cbn [validate_import_uses_expr rewrite_import_uses_expr] in *. rewrite forallb_forall in H.
    destruct (kvs_resolved bound entries (fun _ _ => True)) with (b := b) as (-> & ys & -> & Hn & _); [|done|].
    { intros x Hx. apply IH'; [by apply list_elem_of_fmap_2|]. by apply H, list_elem_of_In. }
    split; [done|]. eexists. by split_and!.
  - destruct H as [Hb H]. rewrite forallb_forall in H.
    intros b (b1 & Hv & Hvs)%rbind_Ok. cbn [rewrite_import_uses_expr].
    destruct (IH' e bound ltac:(set_solver) Hb _ Hv) as (-> & y & -> & Hn & _).
    destruct (kvs_resolved bound updates (fun _ _ => True)) with (b := b) as (-> & ys & -> & Hns & _); [|done|].
    { intros x Hx. apply IH'; [apply elem_of_cons; right; by apply list_elem_of_fmap_2|]. by apply H, list_elem_of_In. }
    split; [done|]. eexists. split_and!; [done| |done]. cbn [validate_import_uses_expr]. by rewrite Hn.
  - intros b [= <-]. split; [done|]. eexists. split_and!; [done|done|]. right. by eexists.
  - destruct H as [H1 H2]. intros b (b1 & Hv1 & Hv2)%rbind_Ok. cbn [rewrite_import_uses_expr].
    destruct (IH' e1 bound ltac:(set_solver) H1 _ Hv1) as (-> & y1 & -> & Hn1 & _).
    destruct (IH' e2 bound ltac:(set_solver) H2 _ Hv2) as (-> & y2 & -> & Hn2 & _).
    split; [done|]. eexists. split_and!; [done| |done]. cbn [validate_import_uses_expr]. by rewrite Hn1.
  - apply project_resolved, IH; [set_solver|done].
  - destruct H as [Hf H]. intros b Hv. cbn [validate_import_uses_expr rewrite_import_uses_expr] in *.
    apply rbind_unit in Hv as [Ha Hv]. apply rbind_unit in Hv as [Hc Hv]. apply rbind_Ok in Hv as (b1 & Hv & [= <-]).
    destruct (IH' e _ ltac:(set_solver) H _ Hv) as (-> & y & -> & Hn & _). rewrite unbind_bind_one by done.
    split; [done|]. eexists. split_and!; [done| |done]. cbn [validate_import_uses_expr].
    rewrite ann_resolved by done. cbn [rbind]. rewrite constraints_resolved by done. cbn [rbind]. rewrite Hn. cbn [rbind].
    by rewrite unbind_bind_one.
  - destruct H as [[H1 Hf] H2]. intros b Hv. cbn [validate_import_uses_expr rewrite_import_uses_expr] in *.
    apply rbind_unit in Hv as [Ha Hv]. apply rbind_Ok in Hv as (b1 & Hv1 & Hv). apply rbind_Ok in Hv as (b2 & Hv2 & [= <-]).
    destruct (IH' e1 _ ltac:(set_solver) H1 _ Hv1) as (-> & y1 & -> & Hn1 & _).
    destruct (IH' e2 _ ltac:(set_solver) H2 _ Hv2) as (-> & y2 & -> & Hn2 & _). rewrite unbind_bind_one by done.
    split; [done|]. eexists. split_and!; [done| |done]. cbn [validate_import_uses_expr].
    rewrite ann_resolved by done. cbn [rbind]. rewrite Hn1. cbn [rbind]. rewrite Hn2. cbn [rbind]. by rewrite unbind_bind_one.
  - destruct H as [[Hf H1] H2]. rewrite forallb_forall in H1. intros b Hv. cbn [validate_import_uses_expr rewrite_import_uses_expr] in *.
    apply rbind_unit in Hv as [Ha Hv]. apply rbind_Ok in Hv as (b1 & Hv1 & Hv). apply rbind_Ok in Hv as (b2 & Hv2 & [= <-]).
    set (names := map (fun b => var_name b.1.1.1) bindings) in *.
    destruct (bindings_resolved (bind_all names bound) bound bindings (fun _ _ => True)) with (b := b1) as (-> & ys & -> & Hns & Hk); [|done|].
    { intros x Hx. apply IH'; [apply elem_of_cons; right; by apply list_elem_of_fmap_2|]. by apply H1, list_elem_of_In. }
    destruct (IH' e _ ltac:(set_solver) H2 _ Hv2) as (-> & y & -> & Hn & _). rewrite unbind_bind by done.
    split; [done|]. eexists. split_and!; [done| |done]. cbn [validate_import_uses_expr].
    assert (map (fun b : Var * list Symbol * option TypeExpr * Expr => var_name b.1.1.1) ys = names) as ->.
    { unfold names. clear -Hk. induction Hk as [|x y l ys Hxy Hk IH]; [done|]. simpl. by rewrite Hxy, IH. }
    assert (validate_each (fun b : Var * list Symbol * option TypeExpr * Expr => validate_ann no_exports (scope_shadowed_values scope) b.1.2 bound) ys = Ok tt) as ->.
    { apply validate_each_Ok. apply validate_each_Ok in Ha. clear -Hk Ha. induction Hk as [|x y l ys Hxy Hk IH]; [done|].
      apply Forall_cons in Ha as [Hx Ha]. constructor; [|by apply IH]. rewrite Hxy. by apply ann_resolved. }
    cbn [rbind]. rewrite Hns. cbn [rbind]. rewrite Hn. cbn [rbind]. by rewrite unbind_bind.
  - destruct H as [[H1 H2] H3]. intros b (b1 & Hv1 & Hv)%rbind_Ok. apply rbind_Ok in Hv as (b2 & Hv2 & Hv3). cbn [rewrite_import_uses_expr].
    destruct (IH' e1 bound ltac:(set_solver) H1 _ Hv1) as (-> & y1 & -> & Hn1 & _).
    destruct (IH' e2 bound ltac:(set_solver) H2 _ Hv2) as (-> & y2 & -> & Hn2 & _).
    destruct (IH' e3 bound ltac:(set_solver) H3 _ Hv3) as (-> & y3 & -> & Hn3 & _).
    split; [done|]. eexists. split_and!; [done| |done]. cbn [validate_import_uses_expr]. rewrite Hn1. cbn [rbind]. by rewrite Hn2.
  - destruct H as [Hs H]. rewrite forallb_forall in H. intros b (b1 & Hv & Hvs)%rbind_Ok. cbn [rewrite_import_uses_expr].
    destruct (IH' e bound ltac:(set_solver) Hs _ Hv) as (-> & y & -> & Hn & _).
    destruct (arms_resolved bound arms) with (b := b) as (-> & ys & -> & Hns & _); [|done|].
    { intros x Hx. pose proof (H x ltac:(by apply list_elem_of_In)) as [Hf He]%andb_true_iff. split; [done|].
      apply IH'; [|done]. apply elem_of_cons; right; by apply list_elem_of_fmap_2. }
    split; [done|]. eexists. split_and!; [done| |done]. cbn [validate_import_uses_expr]. by rewrite Hn.
  - intros b (b1 & Hv & Ht)%rbind_Ok. apply rbind_unit in Ht as [Ht [= <-]]. cbn [rewrite_import_uses_expr].
    destruct (IH' e bound ltac:(set_solver) H _ Hv) as (-> & y & -> & Hn & _).
    split; [done|]. eexists. split_and!; [done| |done]. cbn [validate_import_uses_expr]. rewrite Hn. cbn [rbind]. by rewrite type_resolved.
Qed.
End Resolved.

(** * Packages *)

Section Packages.
Variable scope : RewriteScope.
Hypothesis Hscope : scope_ok scope.

Notation aliases := (scope_aliases scope).
Notation shadowed := (scope_shadowed_values scope).
Notation none := (no_exports scope).

Lemma split_dot_source s : source_name s = false -> exists x l, split_dot s = x :: l /\ source_name x = false.
Proof using Type.
  clear Hscope. unfold source_name. destruct s as [|c s]; [done|]. cbn [String.prefix]. destruct (Ascii.ascii_dec _ c) as [<-|]; [|done].
  intros _. cbn [split_dot]. rewrite decide_False by done. destruct (split_dot_cons s) as (x & l & ->). eexists _, _. split; [done|].
  cbn [String.prefix]. destruct (Ascii.ascii_dec _ _); [by destruct x|done].
Qed.

(** The class of an instance is written as one symbol. *)
Lemma instance_class_resolved class span :
  validate_import_uses_class_name aliases shadowed (from_dotted class) span ∅ = Ok tt ->
  validate_import_uses_class_name none shadowed
    (from_dotted (to_dotted_symbol (rewrite_import_uses_class_name scope (from_dotted class) ∅))) span ∅ = Ok tt.
Proof using Hscope.
  intros Hv. pose proof (member_resolved scope (scope_classes scope) exports_class export_class exports_class _ span ∅ class_exported Hv) as Hr.
  assert (forall s, source_name (symbol s) = false ->
    validate_import_uses_class_name none shadowed (from_dotted (symbol s)) span ∅ = Ok tt) as Hs.
  { intros s Hsrc. destruct (split_dot_source _ Hsrc) as (x & l & E & Hx). unfold validate_import_uses_class_name, validate_member, from_dotted.
    rewrite E. destruct l as [|m [|? ?]]; simpl; [done| |done]. by rewrite canonical_not_alias. }
  unfold rewrite_import_uses_class_name in *.
  assert (rewrite_name scope (scope_classes scope) export_class (from_dotted class) ∅ = from_dotted class \/
          exists s, rewrite_name scope (scope_classes scope) export_class (from_dotted class) ∅ = Unqualified (symbol s) /\ source_name (symbol s) = false)
    as [E|(s & -> & Hsrc)]; [|rewrite E in *; by rewrite to_dotted_from_dotted|by apply Hs].
  destruct Hscope as (Ha & _ & _ & Hc). unfold rewrite_name. destruct (from_dotted class) as [n|dotted segs].
  - destruct (is_shadowed_type scope n); [by left|]. destruct (scope_classes scope !! n) as [s|] eqn:E; [|by left]. right. exists s. split; [done|]. by eapply Hc.
  - destruct (qualified_alias_member _) as [[a m]|]; [|by left]. unfold scope_alias, visible_alias. destruct (alias_is_visible _ _ _); [|by left].
    destruct (aliases !! a) as [e|] eqn:E; [|by left]. destruct (export_class e m) as [s|] eqn:Es; [|by left]. right. exists s. split; [done|].
    destruct (Ha _ _ E) as (_ & _ & _ & Hcl). by eapply Hcl.
Qed.

Lemma body_resolved b : hygienic_body b -> validate_expr aliases shadowed b.2 b.1 = Ok tt ->
  validate_expr none shadowed (rewrite_import_uses_expr scope b.2 b.1).1 b.1 = Ok tt.
Proof using Hscope.
  intros [Hh _]. unfold validate_expr. intros (b1 & Hv & _)%rbind_Ok. destruct (expr_resolved scope Hscope _ _ Hh _ Hv) as (-> & y & Hr & Hn & _).
  rewrite Hr. simpl. by rewrite Hn.
Qed.

Lemma each_resolved {A} (v v0 : A -> result ImportUseError unit) (r : A -> A) l :
  (forall x, x ∈ l -> v x = Ok tt -> v0 (r x) = Ok tt) -> validate_each v l = Ok tt -> validate_each v0 (map r l) = Ok tt.
Proof using Type. clear Hscope. rewrite !validate_each_Ok, Forall_map, !Forall_forall. intros H Hv x Hx. by apply H, Hv. Qed.

Lemma params_resolved ps :
  validate_each (fun p : Var * TypeExpr => validate_type aliases shadowed p.2) ps = Ok tt ->
  validate_each (fun p => validate_type none shadowed p.2) (rewrite_params scope ps) = Ok tt.
Proof using Type. clear Hscope. apply each_resolved. intros p _. apply type_resolved. Qed.

Lemma fn_resolved fd : hygienic_body (fn_scope fd, fn_body fd) ->
  validate_fn_decl aliases shadowed fd = Ok tt -> validate_fn_decl none shadowed (rewrite_fn_decl scope fd) = Ok tt.
Proof using Hscope.
  intros Hb. unfold validate_fn_decl. rewrite !rbind_unit. intros (Hp & Hr & Hc & He). simpl. split_and!.
  - by apply params_resolved.
  - by apply type_resolved.
  - by apply constraints_resolved.
  - assert (fn_scope (rewrite_fn_decl scope fd) = fn_scope fd) as ->.
    { unfold fn_scope. simpl. unfold rewrite_params. by rewrite map_map. }
    by apply (body_resolved (fn_scope fd, fn_body fd)).
Qed.

Lemma declare_resolved df : validate_declare_fn_decl aliases shadowed df = Ok tt ->
  validate_declare_fn_decl none shadowed (rewrite_declare_fn_decl scope df) = Ok tt.
Proof using Type.
  clear Hscope. unfold validate_declare_fn_decl. rewrite !rbind_unit. intros (Hp & Hr & Hc). simpl.
  split_and!; [by apply params_resolved|by apply type_resolved|by apply constraints_resolved].
Qed.

Lemma type_decl_resolved td : validate_type_decl aliases shadowed td = Ok tt ->
  validate_type_decl none shadowed (rewrite_type_decl scope td) = Ok tt.
Proof using Type.
  clear Hscope. unfold validate_type_decl. simpl. destruct (type_decl_kind td) as [t|vs]; [apply type_resolved|].
  apply (each_resolved (A := TypeVariant)). intros v _. simpl. apply (each_resolved (A := TypeVariantArg)). intros a _. apply type_resolved.
Qed.

Lemma class_resolved cd : validate_class_decl aliases shadowed cd = Ok tt ->
  validate_class_decl none shadowed (rewrite_class_decl scope cd) = Ok tt.
Proof using Type.
  clear Hscope. unfold validate_class_decl. rewrite !rbind_unit. intros [Hc Hm]. simpl. split; [by apply constraints_resolved|].
  revert Hm. apply (each_resolved (A := ClassMethodSig)). intros m _. apply type_resolved.
Qed.

Lemma instance_resolved inst : (forall m, m ∈ instance_methods inst -> hygienic_body (∅, impl_body m)) ->
  validate_instance_decl aliases shadowed inst = Ok tt -> validate_instance_decl none shadowed (rewrite_instance_decl scope inst) = Ok tt.
Proof using Hscope.
  intros Hb. unfold validate_instance_decl. rewrite !rbind_unit. intros (Hc & Hh & Hx & Hm). simpl. split_and!.
  - by apply instance_class_resolved.
  - by apply type_resolved.
  - by apply constraints_resolved.
  - revert Hm. apply (each_resolved (A := InstanceMethodImpl)). intros m Hin. apply (body_resolved (∅, impl_body m)). by apply Hb.
Qed.

End Packages.

(** * Uses and what they resolve to

    The resolution of names, stated by itself: of a path [x.f.g], of a type, a class and
    the constructor of a pattern, each with the names that are bound around it. *)

Inductive reference : Type :=
  | RPath (x : Symbol) (fields : list Symbol)
  | RType (n : NameRef)
  | RClass (n : NameRef)
  | RConstructor (n : NameRef)
  | RInstance (class : Symbol).

Section Resolution.
Variable scope : RewriteScope.

Definition visible (bound : gset Symbol) (x : Symbol) : bool :=
  negb (bool_decide (x ∈ bound)) &&
  match scope_shadowed_values scope with Some s => negb (bool_decide (x ∈ s)) | None => true end.

(** The exports of the module that [a] stands for. *)
Definition module_of (bound : gset Symbol) (a : Symbol) : option ModuleExports :=
  if visible bound a then scope_aliases scope !! a else None.

Definition member_symbol (typ : CanonicalSymbol) (constructor : Symbol) : Symbol := symbol typ +:+ "." +:+ constructor.

(** [a.T.C], a constructor of a type of a module. *)
Definition as_variant (bound : gset Symbol) (x : Symbol) (fields : list Symbol) : option (Symbol * list Symbol) :=
  match fields with
  | t :: c :: rest => e ← module_of bound x; typ ← export_typ e t; Some (member_symbol typ c, rest)
  | _ => None
  end.

(** [T.C], a constructor of an imported type. *)
Definition as_constructor (bound : gset Symbol) (x : Symbol) (fields : list Symbol) : option (Symbol * list Symbol) :=
  match fields with
  | c :: rest => if bool_decide (x ∈ bound) then None else typ ← scope_types scope !! x; Some (member_symbol typ c, rest)
  | _ => None
  end.

(** [a.f], a value of a module. *)
Definition as_member (bound : gset Symbol) (x : Symbol) (fields : list Symbol) : option (Symbol * list Symbol) :=
  match fields with
  | f :: rest => e ← module_of bound x; value ← export_value e f; Some (symbol value, rest)
  | _ => None
  end.

(** An imported value. *)
Definition as_value (bound : gset Symbol) (x : Symbol) (fields : list Symbol) : option (Symbol * list Symbol) :=
  if visible bound x then value ← scope_values scope !! x; Some (symbol value, fields) else None.

(** The first of these that there is; otherwise the path stays. *)
Definition resolve_path (bound : gset Symbol) (x : Symbol) (fields : list Symbol) : Symbol * list Symbol :=
  match as_variant bound x fields with
  | Some p => p
  | None => match as_constructor bound x fields with
            | Some p => p
            | None => match as_member bound x fields with
                      | Some p => p
                      | None => default (x, fields) (as_value bound x fields)
                      end
            end
  end.

(** A type, or a class in the place of a type. *)
Definition resolve_type (bound : gset Symbol) (n : NameRef) : option Symbol :=
  match n with
  | Unqualified x =>
      if match scope_shadowed_types scope with Some s => bool_decide (x ∈ s) | None => false end then None
      else symbol <$> scope_types scope !! x
  | Qualified _ [a; m] =>
      e ← module_of bound a;
      match export_typ e m with Some t => Some (symbol t) | None => symbol <$> export_class e m end
  | Qualified _ _ => None
  end.

Definition resolve_class (bound : gset Symbol) (n : NameRef) : option Symbol :=
  match n with
  | Unqualified x =>
      if match scope_shadowed_types scope with Some s => bool_decide (x ∈ s) | None => false end then None
      else symbol <$> scope_classes scope !! x
  | Qualified _ [a; m] => e ← module_of bound a; symbol <$> export_class e m
  | Qualified _ _ => None
  end.

(** The constructors of patterns are looked up whatever is bound. *)
Definition resolve_constructor (n : NameRef) : option Symbol :=
  match as_segments n with
  | [t; c] => typ ← scope_types scope !! t; Some (member_symbol typ c)
  | [a; t; c] => e ← scope_aliases scope !! a; typ ← export_typ e t; Some (member_symbol typ c)
  | _ => symbol <$> scope_values scope !! to_dotted_symbol n
  end.

Definition resolve (bound : gset Symbol) (r : reference) : reference :=
  match r with
  | RPath x fields => RPath (resolve_path bound x fields).1 (resolve_path bound x fields).2
  | RType n => RType (from_option Unqualified n (resolve_type bound n))
  | RClass n => RClass (from_option Unqualified n (resolve_class bound n))
  | RConstructor n => RConstructor (from_option Unqualified n (resolve_constructor n))
  | RInstance class => RInstance (default class (resolve_class bound (from_dotted class)))
  end.

Definition resolve_use (u : gset Symbol * reference) : gset Symbol * reference := (u.1, resolve u.1 u.2).
End Resolution.

(** ** The uses of names, from left to right, with the names bound around them *)

Fixpoint type_uses (bound : gset Symbol) (t : TypeExpr) : list (gset Symbol * reference) :=
  match t with
  | TyName _ n => [(bound, RType n)]
  | TyApp _ f x => type_uses bound f ++ type_uses bound x
  | TyFun _ a r => type_uses bound a ++ type_uses bound r
  | TyTuple _ elems => concat (map (type_uses bound) elems)
  | TyRecord _ fields => concat (map (fun f => type_uses bound f.1.2) fields)
  end.

Definition ann_uses (bound : gset Symbol) (ann : option TypeExpr) : list (gset Symbol * reference) :=
  match ann with Some t => type_uses bound t | None => [] end.

Definition constraint_uses (bound : gset Symbol) (cs : list TypeConstraint) : list (gset Symbol * reference) :=
  concat (map (fun c => (bound, RClass (constraint_class c)) :: type_uses bound (constraint_typ c)) cs).

Fixpoint pattern_uses (bound : gset Symbol) (pat : Pattern) : list (gset Symbol * reference) :=
  match pat with
  | PWildcard _ | PVar _ => []
  | PNamed _ n args => (bound, RConstructor n) :: concat (map (pattern_uses bound) args)
  | PTuple _ elems | PList _ elems => concat (map (pattern_uses bound) elems)
  | PCons _ head tail => pattern_uses bound head ++ pattern_uses bound tail
  | PDict _ fields => concat (map (fun f => pattern_uses bound f.2) fields)
  end.

(** The variables that a pattern binds. *)
Fixpoint pattern_vars (pat : Pattern) : gset Symbol :=
  match pat with
  | PWildcard _ => ∅
  | PVar v => {[ var_name v ]}
  | PNamed _ _ args => ⋃ map pattern_vars args
  | PTuple _ elems | PList _ elems => ⋃ map pattern_vars elems
  | PCons _ head tail => pattern_vars head ∪ pattern_vars tail
  | PDict _ fields => ⋃ map (fun f => pattern_vars f.2) fields
  end.

(** A variable and the fields that are selected from it. *)
Fixpoint path_of (e : Expr) : option (Symbol * list Symbol) :=
  match e with
  | XVar v => Some (var_name v, [])
  | XProject _ base field => p ← path_of base; Some (p.1, p.2 ++ [field])
  | _ => None
  end.

Fixpoint expr_uses (bound : gset Symbol) (e : Expr) : list (gset Symbol * reference) :=
  match e with
  | XVar v => [(bound, RPath (var_name v) [])]
  | XProject _ base field =>
      match path_of base with
      | Some (x, fields) => [(bound, RPath x (fields ++ [field]))]
      | None => expr_uses bound base
      end
  | XTuple _ es | XList _ es => concat (map (expr_uses bound) es)
  | XDict _ kvs => concat (map (fun kv => expr_uses bound kv.2) kvs)
  | XRecordUpdate _ base updates => expr_uses bound base ++ concat (map (fun kv => expr_uses bound kv.2) updates)
  | XApp _ f x => expr_uses bound f ++ expr_uses bound x
  | XLam _ _ param ann constraints body =>
      ann_uses bound ann ++ constraint_uses bound constraints ++ expr_uses ({[ var_name param ]} ∪ bound) body
  | XLet _ v _ ann val body => ann_uses bound ann ++ expr_uses bound val ++ expr_uses ({[ var_name v ]} ∪ bound) body
  | XLetRec _ bindings body =>
      let inner := list_to_set (map (fun b => var_name b.1.1.1) bindings) ∪ bound in
      concat (map (fun b => ann_uses bound b.1.2 ++ expr_uses inner b.2) bindings) ++ expr_uses inner body
  | XIte _ c t e => expr_uses bound c ++ expr_uses bound t ++ expr_uses bound e
  | XMatch _ s arms =>
      expr_uses bound s ++
      concat (map (fun arm => pattern_uses bound arm.1 ++ expr_uses (pattern_vars arm.1 ∪ bound) arm.2) arms)
  | XAnn _ e t => expr_uses bound e ++ type_uses bound t
  | _ => []
  end.

Definition params_uses (params : list (Var * TypeExpr)) : list (gset Symbol * reference) :=
  concat (map (fun p => type_uses ∅ p.2) params).

Definition type_decl_uses (td : TypeDecl) : list (gset Symbol * reference) :=
  match type_decl_kind td with
  | Alias t => type_uses ∅ t
  | Adt variants => concat (map (fun v => concat (map (fun a => type_uses ∅ (arg_typ a)) (variant_args v))) variants)
  end.

Definition fn_uses (fd : FnDecl) : list (gset Symbol * reference) :=
  params_uses (fn_params_ fd) ++ type_uses ∅ (fn_ret fd) ++ constraint_uses ∅ (fn_constraints fd) ++
  expr_uses (list_to_set (map (fun p => var_name p.1) (fn_params_ fd))) (fn_body fd).

Definition declare_uses (df : DeclareFnDecl) : list (gset Symbol * reference) :=
  params_uses (declare_params df) ++ type_uses ∅ (declare_ret df) ++ constraint_uses ∅ (declare_constraints df).

Definition class_uses (cd : ClassDecl) : list (gset Symbol * reference) :=
  constraint_uses ∅ (class_supers cd) ++ concat (map (fun m => type_uses ∅ (method_typ m)) (class_methods cd)).

Definition instance_uses (inst : InstanceDecl) : list (gset Symbol * reference) :=
  (∅, RInstance (instance_class inst)) :: type_uses ∅ (instance_head inst) ++ constraint_uses ∅ (instance_context inst) ++
  concat (map (fun m => ann_uses ∅ (impl_ann m) ++ expr_uses ∅ (impl_body m)) (instance_methods inst)).

(** Every use of a name in a package. *)
Definition package_uses (p : CompilationPackage) : list (gset Symbol * reference) :=
  let d := package_decls p in
  concat (map type_decl_uses (d_types d)) ++ concat (map fn_uses (d_fns d)) ++ concat (map declare_uses (d_declare_fns d)) ++
  concat (map class_uses (d_classes d)) ++ concat (map instance_uses (d_instances d)) ++
  match package_body p with Some e => expr_uses ∅ e | None => [] end.

(** ** The bodies of a package *)

Lemma fn_in_bodies p fd : fd ∈ d_fns (package_decls p) -> (fn_scope fd, fn_body fd) ∈ package_bodies p.
Proof. intros H. unfold package_bodies. apply elem_of_app. left. apply list_elem_of_fmap. by exists fd. Qed.

Lemma method_in_bodies p inst m : inst ∈ d_instances (package_decls p) -> m ∈ instance_methods inst -> (∅, impl_body m) ∈ package_bodies p.
Proof.
  intros Hi Hm. unfold package_bodies. apply elem_of_app. right. apply elem_of_app. left. apply list_elem_of_In, in_concat.
  eexists. split; [apply in_map_iff; exists inst; split; [done|by apply list_elem_of_In]|].
  apply in_map_iff. exists m. split; [done|by apply list_elem_of_In].
Qed.

Lemma body_in_bodies p e : package_body p = Some e -> (∅, e) ∈ package_bodies p.
Proof.
  intros H. unfold package_bodies. apply elem_of_app. right. apply elem_of_app. right. rewrite H. by apply list_elem_of_singleton.
Qed.

(** ** Rewriting resolves every use *)

Section UsesResolved.
Variable scope : RewriteScope.
Notation rtype := (rewrite_import_uses_type_expr scope).
Notation rpat := (rewrite_import_uses_pattern scope).
Notation rexpr := (rewrite_import_uses_expr scope).
Notation resolve_all := (map (resolve_use scope)).

Lemma union_bindings {A} (f : A -> list Symbol) (g : A -> gset Symbol) l : (forall x, x ∈ l -> g x = list_to_set (f x)) ->
  ⋃ map g l = list_to_set (concat (map f l)).
Proof.
  induction l as [|x l IH]; intros H; [done|]. simpl. rewrite list_to_set_app_L. rewrite (H x) by set_solver.
  rewrite <- IH; [done|]. intros y Hy. apply H. set_solver.
Qed.

Lemma pattern_vars_spec p : pattern_vars p = list_to_set (collect_pattern_bindings p).
Proof.
  induction p as [s|v|s n ps IH|s ps IH|s ps IH|s p q IHp IHq|s fs IH] using Pattern_ind'; simpl.
  1: done. 1: set_solver. 4: by rewrite IHp, IHq, list_to_set_app_L.
  all: rewrite Forall_forall in IH; by apply union_bindings.
Qed.

Lemma pattern_vars_rewritten p : pattern_vars (rpat p) = pattern_vars p.
Proof. by rewrite !pattern_vars_spec, bindings_rewritten. Qed.

Lemma visible_spec bound x : visible scope bound x = alias_is_visible x bound (scope_shadowed_values scope).
Proof. unfold visible, alias_is_visible. case_bool_decide; case_decide; try done; by destruct (scope_shadowed_values scope). Qed.

Lemma module_of_spec bound a : module_of scope bound a = scope_alias scope bound a.
Proof. unfold module_of, scope_alias, visible_alias. by rewrite visible_spec. Qed.

Lemma type_name_resolved n bound :
  rewrite_name scope (scope_types scope) type_or_class n bound = from_option Unqualified n (resolve_type scope bound n).
Proof.
  unfold rewrite_name, resolve_type. destruct n as [x|d [|a [|m [|? ?]]]]; try done.
  - fold (is_shadowed_type scope x). destruct (is_shadowed_type scope x); [done|]. by destruct (scope_types scope !! x).
  - simpl. rewrite module_of_spec. destruct (scope_alias scope bound a) as [e|]; [|done]. simpl. unfold type_or_class.
    destruct (export_typ e m); [done|]. by destruct (export_class e m).
Qed.

Lemma class_name_resolved n bound :
  rewrite_import_uses_class_name scope n bound = from_option Unqualified n (resolve_class scope bound n).
Proof.
  unfold rewrite_import_uses_class_name, rewrite_name, resolve_class. destruct n as [x|d [|a [|m [|? ?]]]]; try done.
  - fold (is_shadowed_type scope x). destruct (is_shadowed_type scope x); [done|]. by destruct (scope_classes scope !! x).
  - simpl. rewrite module_of_spec. destruct (scope_alias scope bound a) as [e|]; [|done]. simpl. by destruct (export_class e m).
Qed.

Lemma constructor_name_resolved n :
  rewrite_constructor_name scope n = from_option Unqualified n (resolve_constructor scope n).
Proof.
  unfold rewrite_constructor_name, resolve_constructor. destruct (as_segments n) as [|a [|b [|c [|? ?]]]];
    try (by destruct (scope_values scope !! to_dotted_symbol n)).
  - by destruct (scope_types scope !! a).
  - destruct (scope_aliases scope !! a) as [e|]; [|done]. simpl. by destruct (export_typ e b).
Qed.

Lemma map_concat {A B C} (f : B -> C) (g : A -> list B) l : map f (concat (map g l)) = concat (map (fun x => map f (g x)) l).
Proof. by rewrite concat_map, map_map. Qed.

Lemma type_uses_resolved bound t : type_uses bound (rtype t bound) = resolve_all (type_uses bound t).
Proof.
  induction t as [sp n|sp f a IHf IHa|sp a r IHa IHr|sp es IH|sp fs IH] using TypeExpr_ind'; simpl;
    rewrite ?map_app, ?map_concat, ?map_map; try congruence.
  - by rewrite type_name_resolved.
  - rewrite Forall_forall in IH. apply concat_map_ext. by apply IH.
  - rewrite Forall_forall in IH. apply concat_map_ext. by apply IH.
Qed.

Lemma ann_uses_resolved bound ann : ann_uses bound ((fun t => rtype t bound) <$> ann) = resolve_all (ann_uses bound ann).
Proof. destruct ann as [t|]; simpl; [apply type_uses_resolved|done]. Qed.

Lemma constraint_uses_resolved bound cs :
  constraint_uses bound (rewrite_constraints scope cs bound) = resolve_all (constraint_uses bound cs).
Proof.
  unfold constraint_uses, rewrite_constraints. rewrite map_concat, map_map. apply concat_map_ext. intros c _. simpl.
  rewrite type_uses_resolved, class_name_resolved. done.
Qed.

Lemma pattern_uses_resolved bound p : pattern_uses bound (rpat p) = resolve_all (pattern_uses bound p).
Proof.
  induction p as [s|v|s n ps IH|s ps IH|s ps IH|s p q IHp IHq|s fs IH] using Pattern_ind'; simpl;
    rewrite ?map_app, ?map_concat, ?map_map; try done; try congruence.
  - rewrite constructor_name_resolved. f_equal. rewrite Forall_forall in IH. apply concat_map_ext. by apply IH.
  - rewrite Forall_forall in IH. apply concat_map_ext. by apply IH.
  - rewrite Forall_forall in IH. apply concat_map_ext. by apply IH.
  - rewrite Forall_forall in IH. apply concat_map_ext. by apply IH.
Qed.

(** Rewriting with a set of bound names that goes down only. *)
Fixpoint rewrite_free (bound : gset Symbol) (e : Expr) : Expr :=
  match e with
  | XTuple span es => XTuple span (map (rewrite_free bound) es)
  | XList span es => XList span (map (rewrite_free bound) es)
  | XDict span kvs => XDict span (map (fun kv => (kv.1, rewrite_free bound kv.2)) kvs)
  | XRecordUpdate span base updates =>
      XRecordUpdate span (rewrite_free bound base) (map (fun kv => (kv.1, rewrite_free bound kv.2)) updates)
  | XVar v => XVar (rewritten_var scope bound v)
  | XApp span f x => XApp span (rewrite_free bound f) (rewrite_free bound x)
  | XProject span base field =>
      match rewritten_projection scope bound base field with
      | Some new => XVar (mkVar span new)
      | None => XProject span (rewrite_free bound base) field
      end
  | XLam span lam_scope param ann constraints body =>
      XLam span lam_scope param ((fun t => rtype t bound) <$> ann) (rewrite_constraints scope constraints bound)
        (rewrite_free ({[ var_name param ]} ∪ bound) body)
  | XLet span v type_params ann val body =>
      XLet span v type_params ((fun t => rtype t bound) <$> ann) (rewrite_free bound val)
        (rewrite_free ({[ var_name v ]} ∪ bound) body)
  | XLetRec span bindings body =>
      let inner := bind_all (map (fun b => var_name b.1.1.1) bindings) bound in
      XLetRec span (map (fun b => (b.1.1.1, b.1.1.2, (fun t => rtype t bound) <$> b.1.2, rewrite_free inner b.2)) bindings)
        (rewrite_free inner body)
  | XIte span c t e => XIte span (rewrite_free bound c) (rewrite_free bound t) (rewrite_free bound e)
  | XMatch span s arms =>
      XMatch span (rewrite_free bound s)
        (map (fun arm => (rpat arm.1, rewrite_free (bind_all (collect_pattern_bindings arm.1) bound) arm.2)) arms)
  | XAnn span e t => XAnn span (rewrite_free bound e) (rtype t bound)
  | _ => e
  end.

Lemma thread_fields {A} bound (l : list (A * Expr)) :
  (forall x, x ∈ l -> rexpr x.2 bound = (rewrite_free bound x.2, bound)) ->
  thread (fun kv b => let '(v, b) := rexpr kv.2 b in ((kv.1, v), b)) l bound
    = (map (fun kv => (kv.1, rewrite_free bound kv.2)) l, bound).
Proof. intros H. apply (thread_steady _ (fun kv => (kv.1, rewrite_free bound kv.2))). intros x Hx. by rewrite H. Qed.

Lemma rewrite_expr_free e : forall bound, hygienic bound e = true -> rexpr e bound = (rewrite_free bound e, bound).
Proof.
  induction e as [e IH] using Expr_children_ind. intros bound H. destruct e; cbn [rewrite_import_uses_expr rewrite_free]; try done;
    cbn [hygienic] in H; cbn [children] in IH; repeat rewrite andb_true_iff in H; rewrite Forall_forall in IH.
  - rewrite forallb_forall in H. rewrite (thread_steady _ (rewrite_free bound)); [done|]. intros x Hx. apply IH; [done|]. by apply H, list_elem_of_In.
  - rewrite forallb_forall in H. rewrite (thread_steady _ (rewrite_free bound)); [done|]. intros x Hx. apply IH; [done|]. by apply H, list_elem_of_In.
  - rewrite forallb_forall in H. rewrite thread_fields; [done|]. intros x Hx. apply IH; [by apply list_elem_of_fmap_2|by apply H, list_elem_of_In].
  - destruct H as [Hb H]. rewrite forallb_forall in H. rewrite (IH e) by set_solver. rewrite thread_fields; [done|].
    intros x Hx. apply IH; [|by apply H, list_elem_of_In]. apply elem_of_cons. right. by apply list_elem_of_fmap_2.
  - destruct H as [H1 H2]. by rewrite (IH e1), (IH e2) by set_solver.
  - destruct (rewritten_projection _ _ _ _); [done|]. by rewrite (IH e) by set_solver.
  - destruct H as [Hf H]. rewrite (IH e) by set_solver. by rewrite unbind_bind_one.
  - destruct H as [[H1 Hf] H2]. rewrite (IH e1) by set_solver. rewrite (IH e2) by set_solver. by rewrite unbind_bind_one.
  - destruct H as [[Hf H1] H2]. rewrite forallb_forall in H1. set (inner := bind_all _ bound) in *.
    rewrite (thread_steady _ (fun x => (x.1.1.1, x.1.1.2, (fun t => rtype t bound) <$> x.1.2, rewrite_free inner x.2))).
    2:{ intros x Hx. rewrite (IH x.2); [done| |by apply H1, list_elem_of_In]. apply elem_of_cons. right. by apply list_elem_of_fmap_2. }
    rewrite (IH e) by set_solver. unfold inner. by rewrite unbind_bind.
  - destruct H as [[H1 H2] H3]. by rewrite (IH e1), (IH e2), (IH e3) by set_solver.
  - destruct H as [Hs H]. rewrite forallb_forall in H. rewrite (IH e) by set_solver.
    rewrite (thread_steady _ (fun arm => (rpat arm.1, rewrite_free (bind_all (collect_pattern_bindings arm.1) bound) arm.2))); [done|].
    intros x Hx. rewrite bindings_rewritten. pose proof (H x ltac:(by apply list_elem_of_In)) as [Hb He]%andb_true_iff.
    rewrite (IH x.2); [|apply elem_of_cons; right; by apply list_elem_of_fmap_2|done]. by rewrite unbind_bind.
  - by rewrite (IH e) by set_solver.
Qed.

(** ** Paths *)

Definition extended (p : Symbol * list Symbol) (field : Symbol) : Symbol * list Symbol := (p.1, p.2 ++ [field]).

(** One more field is a field of what the path resolves to, unless it completes a path to a constructor or value. *)
Lemma resolve_path_extended bound x fields field :
  match fields with
  | [] => as_constructor scope bound x [field] = None /\ as_member scope bound x [field] = None
  | [t] => as_variant scope bound x [t; field] = None
  | _ => True
  end ->
  resolve_path scope bound x (fields ++ [field]) = extended (resolve_path scope bound x fields) field.
Proof.
  intros H. unfold resolve_path, extended. destruct fields as [|t [|c rest]]; simpl app.
  - destruct H as [-> ->]. simpl. unfold as_value. destruct (visible scope bound x); [|done]. by destruct (scope_values scope !! x).
  - rewrite H. simpl. destruct (bool_decide _); [|destruct (scope_types scope !! x); [done|]]; simpl;
      (destruct (module_of scope bound x) as [e|]; simpl; [destruct (export_value e t); [done|]|]); simpl;
      unfold as_value; (destruct (visible scope bound x); [|done]); by destruct (scope_values scope !! x).
  - simpl. destruct (module_of scope bound x) as [e|]; simpl; [destruct (export_typ e t); [done|]|]; simpl;
      (destruct (bool_decide _); [|destruct (scope_types scope !! x); [done|]]); simpl;
      try (destruct (export_value e t); [done|]); simpl; unfold as_value;
      (destruct (visible scope bound x); [|done]); by destruct (scope_values scope !! x).
Qed.

(** A projection that is rewritten is a path that is resolved as a whole. *)
Lemma projection_resolved bound base field :
  match rewritten_projection scope bound base field with
  | Some new => exists x fields, path_of base = Some (x, fields) /\ resolve_path scope bound x (fields ++ [field]) = (new, [])
  | None => forall x fields, path_of base = Some (x, fields) ->
      resolve_path scope bound x (fields ++ [field]) = extended (resolve_path scope bound x fields) field
  end.
Proof.
  destruct base as [| | | | | | | | | | | | |v| |sp base f| | | | | |]; try done; cbn [rewritten_projection path_of].
  - assert (Hc : as_constructor scope bound (var_name v) [field]
      = (fun t => (member_symbol t field, [])) <$> (if decide (var_name v ∈ bound) then None else scope_types scope !! var_name v)).
    { simpl. case_bool_decide; case_decide; try done; by destruct (scope_types scope !! var_name v). }
    assert (Hm : as_member scope bound (var_name v) [field]
      = (fun s => (symbol s, [])) <$> (e ← scope_alias scope bound (var_name v); export_value e field)).
    { simpl. rewrite module_of_spec. destruct (scope_alias _ _ _) as [e|]; [|done]. simpl. by destruct (export_value e field). }
    destruct (if decide _ then None else _) as [t|].
    { exists (var_name v), []. split; [done|]. unfold resolve_path. cbn [app]. rewrite Hc. done. }
    destruct (scope_alias _ _ _) as [e|]; simpl in Hm |- *; [destruct (export_value e field) as [s|]|]; simpl in Hm |- *.
    + exists (var_name v), []. split; [done|]. unfold resolve_path. cbn [app]. rewrite Hc. simpl fmap.
      change (as_variant scope bound (var_name v) [field]) with (None : option (Symbol * list Symbol)). cbn iota. simpl. by rewrite Hm.
    + intros x fields [= <- <-]. apply resolve_path_extended. by rewrite Hc, <- Hm.
    + intros x fields [= <- <-]. apply resolve_path_extended. by rewrite Hc, <- Hm.
  - assert (Hdeep : match base with XVar _ => False | _ => True end -> forall x fields,
      (p ← path_of base; Some (p.1, p.2 ++ [f])) = Some (x, fields) ->
      resolve_path scope bound x (fields ++ [field]) = extended (resolve_path scope bound x fields) field).
    { intros Hb x fields. destruct base; try done. simpl. destruct (path_of base) as [[y gs]|]; [|done]. simpl.
      intros [= <- <-]. apply resolve_path_extended. by destruct gs as [|g [|? ?]]. }
    destruct base as [| | | | | | | | | | | | |v| | | | | | | |]; try (by apply Hdeep). clear Hdeep.
    assert (Hv : as_variant scope bound (var_name v) [f; field]
      = (fun t => (member_symbol t field, [])) <$> (e ← scope_alias scope bound (var_name v); export_typ e f)).
    { simpl. rewrite module_of_spec. destruct (scope_alias _ _ _) as [e|]; [|done]. simpl. by destruct (export_typ e f). }
    destruct (scope_alias _ _ _) as [e|]; simpl in Hv |- *; [destruct (export_typ e f) as [t|]|]; simpl in Hv |- *.
    + exists (var_name v), [f]. split; [done|]. unfold resolve_path. cbn [app]. simpl. by rewrite Hv.
    + intros x fields [= <- <-]. by apply resolve_path_extended.
    + intros x fields [= <- <-]. by apply resolve_path_extended.
Qed.

Lemma path_rewritten e bound : path_of (rewrite_free bound e) = (fun p => resolve_path scope bound p.1 p.2) <$> path_of e.
Proof.
  induction e as [e IH] using Expr_children_ind. rewrite Forall_forall in IH. destruct e; try done.
  - cbn [rewrite_free path_of]. unfold rewritten_var. rewrite <- visible_spec. simpl. unfold resolve_path. simpl. unfold as_value.
    destruct (visible scope bound _); [|done]. by destruct (scope_values scope !! _).
  - cbn [rewrite_free path_of]. pose proof (projection_resolved bound e field) as Hp. destruct (rewritten_projection _ _ _ _) as [new|].
    + destruct Hp as (x & fields & -> & Hr). simpl. by rewrite Hr.
    + cbn [path_of]. rewrite IH by (cbn [children]; by apply list_elem_of_singleton).
      destruct (path_of e) as [[x fields]|]; [|done]. simpl. by rewrite (Hp x fields eq_refl).
Qed.

Lemma fields_resolved {A} bound (l : list (A * Expr)) :
  (forall x, x ∈ map snd l -> expr_uses bound (rewrite_free bound x) = resolve_all (expr_uses bound x)) ->
  concat (map (fun kv => expr_uses bound kv.2) (map (fun kv => (kv.1, rewrite_free bound kv.2)) l))
    = resolve_all (concat (map (fun kv => expr_uses bound kv.2) l)).
Proof. intros H. rewrite map_concat, map_map. apply concat_map_ext. intros x Hx. apply H. by apply list_elem_of_fmap_2. Qed.

Lemma expr_uses_resolved e : forall bound, expr_uses bound (rewrite_free bound e) = resolve_all (expr_uses bound e).
Proof.
  induction e as [e IH] using Expr_children_ind. intros bound. rewrite Forall_forall in IH. destruct e; try done; cbn [children] in IH.
  - cbn [rewrite_free expr_uses]. rewrite map_concat, map_map. apply concat_map_ext. intros x Hx. by apply IH.
  - cbn [rewrite_free expr_uses]. rewrite map_concat, map_map. apply concat_map_ext. intros x Hx. by apply IH.
  - cbn [rewrite_free expr_uses]. apply fields_resolved. intros x Hx. by apply IH.
  - cbn [rewrite_free expr_uses]. rewrite map_app, (IH e), fields_resolved; [done| |set_solver].
    intros x Hx. apply IH. set_solver.
  - assert (resolve_path scope bound (var_name v) [] = (var_name (rewritten_var scope bound v), [])) as Hr.
    { pose proof (path_rewritten (XVar v) bound) as Hp. by injection Hp as Hp. }
    cbn [rewrite_free expr_uses map]. unfold resolve_use, resolve. cbn [fst snd]. by rewrite Hr.
  - cbn [rewrite_free expr_uses]. by rewrite map_app, (IH e1), (IH e2) by set_solver.
  - cbn [rewrite_free expr_uses]. pose proof (projection_resolved bound e field) as Hp. destruct (rewritten_projection _ _ _ _) as [new|].
    + destruct Hp as (x & fields & -> & Hr). unfold resolve_use. simpl. by rewrite Hr.
    + cbn [expr_uses]. rewrite path_rewritten, (IH e) by set_solver. destruct (path_of e) as [[x fields]|]; [|done].
      cbn [fmap option_fmap option_map map fst snd]. unfold resolve_use, resolve. cbn [fst snd]. rewrite (Hp x fields eq_refl). by destruct (resolve_path scope bound x fields).
  - cbn [rewrite_free expr_uses]. by rewrite !map_app, ann_uses_resolved, constraint_uses_resolved, (IH e) by set_solver.
  - cbn [rewrite_free expr_uses]. by rewrite !map_app, ann_uses_resolved, (IH e1), (IH e2) by set_solver.
  - cbn [rewrite_free expr_uses]. rewrite !map_map. cbn. rewrite bind_all_union. set (inner := _ ∪ bound). rewrite map_app, map_concat, (IH e) by set_solver. f_equal.
    apply concat_map_ext. intros x Hx. simpl. rewrite map_app, ann_uses_resolved, IH; [done|]. apply elem_of_cons. right. by apply list_elem_of_fmap_2.
  - cbn [rewrite_free expr_uses]. by rewrite !map_app, (IH e1), (IH e2), (IH e3) by set_solver.
  - cbn [rewrite_free expr_uses]. rewrite map_app, map_concat, map_map, (IH e) by set_solver. f_equal.
    apply concat_map_ext. intros x Hx. simpl. rewrite pattern_vars_rewritten, bind_all_union, <- pattern_vars_spec.
    rewrite map_app, pattern_uses_resolved, IH; [done|].
    apply elem_of_cons. right. by apply list_elem_of_fmap_2.
  - cbn [rewrite_free expr_uses]. by rewrite map_app, type_uses_resolved, (IH e) by set_solver.
Qed.

Lemma body_uses_resolved b : hygienic_body b -> expr_uses b.1 (rexpr b.2 b.1).1 = resolve_all (expr_uses b.1 b.2).
Proof. intros [H _]. rewrite rewrite_expr_free by done. apply expr_uses_resolved. Qed.

(** ** Declarations *)

Lemma params_uses_resolved params : params_uses (rewrite_params scope params) = resolve_all (params_uses params).
Proof. unfold params_uses, rewrite_params. rewrite map_concat, map_map. apply concat_map_ext. intros x _. apply type_uses_resolved. Qed.

Lemma type_decl_uses_resolved td : type_decl_uses (rewrite_type_decl scope td) = resolve_all (type_decl_uses td).
Proof.
  unfold type_decl_uses. destruct (type_decl_kind td) as [t|variants] eqn:E; simpl; rewrite E; [apply type_uses_resolved|].
  rewrite map_concat, map_map. apply concat_map_ext. intros v _. simpl. rewrite map_concat, map_map. apply concat_map_ext.
  intros a _. apply type_uses_resolved.
Qed.

Lemma fn_uses_resolved fd : hygienic_body (fn_scope fd, fn_body fd) -> fn_uses (rewrite_fn_decl scope fd) = resolve_all (fn_uses fd).
Proof.
  intros H%body_uses_resolved. unfold fn_uses. rewrite !map_app. simpl.
  rewrite params_uses_resolved, constraint_uses_resolved. unfold rewrite_type. rewrite type_uses_resolved. do 3 f_equal.
  simpl in H. unfold fn_scope in H. rewrite bind_all_union, union_empty_r_L in H. rewrite <- H. unfold rewrite_params. rewrite map_map.
  unfold fn_scope. by rewrite bind_all_union, union_empty_r_L.
Qed.

Lemma declare_uses_resolved df : declare_uses (rewrite_declare_fn_decl scope df) = resolve_all (declare_uses df).
Proof.
  unfold declare_uses. rewrite !map_app. simpl. unfold rewrite_type.
  by rewrite params_uses_resolved, constraint_uses_resolved, type_uses_resolved.
Qed.

Lemma class_uses_resolved cd : class_uses (rewrite_class_decl scope cd) = resolve_all (class_uses cd).
Proof.
  unfold class_uses. rewrite map_app, map_concat. simpl. rewrite constraint_uses_resolved, map_map. f_equal.
  apply concat_map_ext. intros m _. apply type_uses_resolved.
Qed.

Lemma instance_uses_resolved inst : (forall m, m ∈ instance_methods inst -> hygienic_body (∅, impl_body m)) ->
  instance_uses (rewrite_instance_decl scope inst) = resolve_all (instance_uses inst).
Proof.
  intros Hb. unfold instance_uses. simpl. rewrite !map_app, map_concat, map_map, constraint_uses_resolved. unfold rewrite_type at 1.
  rewrite type_uses_resolved. f_equal; [|do 2 f_equal].
  - rewrite class_name_resolved. unfold resolve_use, resolve. cbn [fst snd]. do 2 f_equal. destruct (resolve_class _ _ _); [done|]. apply to_dotted_from_dotted.
  - apply concat_map_ext. intros m Hm. simpl. rewrite map_app. f_equal; [apply ann_uses_resolved|].
    apply (body_uses_resolved (∅, impl_body m)). by apply Hb.
Qed.

Lemma package_uses_resolved p : Forall hygienic_body (package_bodies p) ->
  package_uses (rewrite_import_uses_package p scope) = resolve_all (package_uses p).
Proof.
  intros Hb. rewrite Forall_forall in Hb. unfold package_uses. simpl. rewrite !map_app, !map_concat, !map_map.
  f_equal; [|f_equal; [|f_equal; [|f_equal; [|f_equal]]]]; try (apply concat_map_ext; intros d Hd).
  - apply type_decl_uses_resolved.
  - apply fn_uses_resolved, Hb. by apply fn_in_bodies.
  - apply declare_uses_resolved.
  - apply class_uses_resolved.
  - apply instance_uses_resolved. intros m Hm. apply Hb. by apply (method_in_bodies _ d).
  - unfold rewrite_body. destruct (package_body p) as [e|] eqn:E; [|done]. apply (body_uses_resolved (∅, e)), Hb. by apply body_in_bodies.
Qed.

End UsesResolved.
Lemma validation_resolved p scope :
  scope_ok scope -> Forall hygienic_body (package_bodies p) ->
  validate_import_uses_package p (scope_aliases scope) (scope_shadowed_values scope) = Ok tt ->
  validate_import_uses_package (rewrite_import_uses_package p scope) (no_exports scope) (scope_shadowed_values scope) = Ok tt.
Proof.
  intros Hscope Hb. rewrite Forall_forall in Hb. unfold validate_import_uses_package, module_error.
  destruct (validate_import_uses_declarations_and_body _ _ (package_decls p) _) as [[]|] eqn:Hv; [|done]. intros _.
  assert (validate_import_uses_declarations_and_body (no_exports scope) (scope_shadowed_values scope)
            (package_decls (rewrite_import_uses_package p scope)) (package_body (rewrite_import_uses_package p scope)) = Ok tt) as ->; [|done].
  unfold validate_import_uses_declarations_and_body in *. rewrite !rbind_unit in *. destruct Hv as (Hf & Hd & Ht & Hc & Hi & He).
  simpl. split_and!.
  - revert Hf. apply each_resolved. intros fd Hfd. apply fn_resolved; [done|]. apply Hb. by apply fn_in_bodies.
  - revert Hd. apply each_resolved. intros df _. by apply declare_resolved.
  - revert Ht. apply each_resolved. intros td _. by apply type_decl_resolved.
  - revert Hc. apply each_resolved. intros cd _. by apply class_resolved.
  - revert Hi. apply each_resolved. intros i Hin. apply instance_resolved; [done|]. intros m Hm. apply Hb. by apply (method_in_bodies _ i).
  - unfold validate_body, rewrite_body in *. destruct (package_body p) as [e|] eqn:E; [|done]. simpl.
    apply (body_resolved scope Hscope (∅, e)); [|done]. apply Hb. by apply body_in_bodies.
Qed.

(** C7. Rewriting resolves the uses of imports. In a package whose binders do not shadow one
    another (and are names of the source), every use of a name is rewritten to what it
    refers to, and to nothing else: the types, classes, values and constructors that
    declarations, bodies, annotations and patterns name, each with the names that are bound
    around it. An imported name becomes its canonical symbol; [a.T.C], [T.C], [a.f] and an
    imported value are tried in this order on the longest path; what is shadowed, bound or
    not exported stays as it is. Hence, when the aliases are names of the source,
    the canonical symbols are not, and the validation of the package succeeds, the
    validation of the rewritten package succeeds even against modules that export nothing.
    (Validation checks neither the annotations of methods nor the constructors of
    patterns: those that do not resolve stay.) *)
Theorem import_uses_resolved p scope : Forall hygienic_body (package_bodies p) ->
  package_uses (rewrite_import_uses_package p scope) = map (resolve_use scope) (package_uses p) /\
  (scope_ok scope ->
   validate_import_uses_package p (scope_aliases scope) (scope_shadowed_values scope) = Ok tt ->
   validate_import_uses_package (rewrite_import_uses_package p scope) (no_exports scope) (scope_shadowed_values scope) = Ok tt).
Proof.
  intros Hb. split; [by apply package_uses_resolved|]. intros Hscope Hv. by apply validation_resolved.
Qed.

(** [(m.f 1 is m.T)], and [let f = m.f in f 2], where the module [m] exports [f] and [T]. *)
Definition demo_exports : ModuleExports :=
  let key := module_key_for_module (mkModuleId ["m"]) in
  insert_type "T" (CanonicalSymbol_new key KType "T") (insert_value "f" (CanonicalSymbol_new key KValue "f") []).
Definition demo_scope : RewriteScope := mkScope {[ "m" := demo_exports ]} ∅ ∅ ∅ None None.

Definition demo_symbol (kind : SymbolKind) (name : Symbol) : Symbol :=
  symbol (CanonicalSymbol_new (module_key_for_module (mkModuleId ["m"])) kind name).

Definition demo_user : CompilationPackage :=
  let sp := Span_default in
  let f := XProject sp (XVar (mkVar sp "m")) "f" in
  let body := XTuple sp
    [XAnn sp (XApp sp f (XUint sp 1)) (TyName sp (Qualified "m.T" ["m"; "T"]));
     XLet sp (mkVar sp "f") [] None f (XApp sp (XVar (mkVar sp "f")) (XUint sp 2))] in
  mkPackage no_declarations (Some body) None.

Lemma demo_rewrite_scope_ok : scope_ok demo_scope.
Proof.
  split; [|by split_and!]. intros a e. unfold demo_scope. simpl. rewrite lookup_singleton_Some. intros [<- <-]. split; [done|].
  assert (forall (get : ExportEntry -> option CanonicalSymbol) n s, btree_get demo_exports n ≫= get = Some s ->
    exists ne, ne ∈ demo_exports /\ get ne.2 = Some s) as Hget.
  { intros get n s H. destruct (btree_get demo_exports n) as [x|] eqn:E; [|done]. apply btree_get_snd in E.
    apply list_elem_of_fmap in E as (ne & -> & Hin). by exists ne. }
  split_and!; intros n s (ne & Hin & Hs)%Hget; unfold demo_exports in Hin; simpl in Hin;
    repeat (apply elem_of_cons in Hin as [->|Hin]; [simpl in Hs; (done || by injection Hs as <-)|]); by apply not_elem_of_nil in Hin.
Qed.

Lemma import_uses_resolved_witness :
  Forall hygienic_body (package_bodies demo_user) /\
  map snd (package_uses demo_user)
    = [RPath "m" ["f"]; RType (Qualified "m.T" ["m"; "T"]); RPath "m" ["f"]; RPath "f" []] /\
  map snd (package_uses (rewrite_import_uses_package demo_user demo_scope))
    = [RPath (demo_symbol KValue "f") []; RType (Unqualified (demo_symbol KType "T")); RPath (demo_symbol KValue "f") []; RPath "f" []] /\
  validate_import_uses_package (rewrite_import_uses_package demo_user demo_scope) (no_exports demo_scope)
    (scope_shadowed_values demo_scope) = Ok tt /\
  validate_import_uses_package demo_user (no_exports demo_scope) None = Err (MissingExport "m" "f").
Proof.
  assert (Forall hygienic_body (package_bodies demo_user)) as H.
  { apply Forall_cons_2; [|apply Forall_nil_2]. split; [by vm_compute|]. cbn. intros n Hn. by apply not_elem_of_empty in Hn. }
  destruct (import_uses_resolved demo_user demo_scope H) as [Hu Hv].
  split; [exact H|]. split; [by vm_compute|]. rewrite Hu. split; [by vm_compute|]. split; [|by vm_compute].
  apply Hv; [apply demo_rewrite_scope_ok|by vm_compute].
Defined.
