(* ===== verification/Tarjan.v ===== *)
(** The groups of modules that import one another: [tarjan_scc_module_ids] of
    [rex-engine/src/builder/rewrite.rs], and the proof that they are the strongly
    connected components of the import graph, in the order in which they must be
    loaded. *)

From Stdlib Require Import Sorted.
From S2P Require Import Prelude Modules.

#[export] Instance ModuleId_countable : Countable ModuleId.
Proof. apply (inj_countable' id_segments mkModuleId). by intros []. Defined.

(** [stack] with its top first. *)
Record TarjanState : Type := mkTarjan {
  index : nat;
  index_of : gmap ModuleId nat;
  lowlink : gmap ModuleId nat;
  stack : list ModuleId;
  on_stack : gset ModuleId;
  components : list (list ModuleId)
}.

Definition TarjanState_default : TarjanState := mkTarjan 0 ∅ ∅ [] ∅ [].

(** The [lowlink] of [v] is lowered to [l], where both are there. *)
Definition lower (v : ModuleId) (l : option nat) (st : TarjanState) : TarjanState :=
  match l, lowlink st !! v with
  | Some l, Some lv =>
      mkTarjan (index st) (index_of st) (<[v := lv `min` l]> (lowlink st)) (stack st) (on_stack st) (components st)
  | _, _ => st
  end.

(** The number of a vertex that is met, and the vertex on the stack. *)
Definition enter (v : ModuleId) (st : TarjanState) : TarjanState :=
  mkTarjan (S (index st)) (<[v := index st]> (index_of st)) (<[v := index st]> (lowlink st)) (v :: stack st)
    ({[ v ]} ∪ on_stack st) (components st).

(** [while let Some(w) = stack.pop()], up to [v]. *)
Fixpoint pop_component (v : ModuleId) (stack : list ModuleId) (on_stack : gset ModuleId)
    : list ModuleId * list ModuleId * gset ModuleId :=
  match stack with
  | [] => ([], [], on_stack)
  | w :: stack =>
      let on_stack := on_stack ∖ {[ w ]} in
      if decide (w = v) then ([w], stack, on_stack)
      else let '(component, stack, on_stack) := pop_component v stack on_stack in (w :: component, stack, on_stack)
  end.

(** A root is a vertex whose [lowlink] is its number. *)
Definition leave (v : ModuleId) (st : TarjanState) : TarjanState :=
  if decide (lowlink st !! v = index_of st !! v) then
    let '(component, stack, on_stack) := pop_component v (stack st) (on_stack st) in
    mkTarjan (index st) (index_of st) (lowlink st) stack on_stack (components st ++ [component])
  else st.

Section Graph.
Variable node_set : gset ModuleId.
Variable edges : gmap ModuleId (list ModuleId).

(** The loop over the neighbours of [v]; [connect] is the recursive call. *)
Fixpoint visit_neighbors (connect : ModuleId -> TarjanState -> option TarjanState) (v : ModuleId) (ws : list ModuleId)
    (st : TarjanState) : option TarjanState :=
  match ws with
  | [] => Some st
  | w :: ws =>
      if decide (w ∈ node_set) then
        match index_of st !! w with
        | None =>
            match connect w st with
            | None => None
            | Some st => visit_neighbors connect v ws (lower v (lowlink st !! w) st)
            end
        | Some iw =>
            if decide (w ∈ on_stack st) then visit_neighbors connect v ws (lower v (Some iw) st)
            else visit_neighbors connect v ws st
        end
      else visit_neighbors connect v ws st
  end.

Fixpoint strong_connect (fuel : nat) (v : ModuleId) (st : TarjanState) : option TarjanState :=
  match fuel with
  | O => None
  | S fuel => leave v <$> visit_neighbors (strong_connect fuel) v (default [] (edges !! v)) (enter v st)
  end.

Fixpoint connect_all (fuel : nat) (nodes : list ModuleId) (st : TarjanState) : option TarjanState :=
  match nodes with
  | [] => Some st
  | v :: nodes =>
      match index_of st !! v with
      | Some _ => connect_all fuel nodes st
      | None =>
          match strong_connect fuel v st with
          | None => None
          | Some st => connect_all fuel nodes st
          end
      end
  end.
End Graph.

Definition tarjan_scc_module_ids (fuel : nat) (nodes : list ModuleId) (edges : gmap ModuleId (list ModuleId))
    : option (list (list ModuleId)) :=
  components <$> connect_all (list_to_set nodes) edges fuel nodes TarjanState_default.

(** * The components are right *)

Section Correct.
Variable nodes : gset ModuleId.
Variable edges : gmap ModuleId (list ModuleId).

(** An edge of the graph between two nodes. *)
Definition edge (u w : ModuleId) : Prop := w ∈ default [] (edges !! u) /\ w ∈ nodes.
Notation reach := (rtc edge).

Definition num (st : TarjanState) (x : ModuleId) : nat := default 0 (index_of st !! x).
Definition visited (st : TarjanState) (x : ModuleId) : Prop := is_Some (index_of st !! x).

(** What is popped is a component, after all that it leads to. *)
Definition component_ok (comps : list (list ModuleId)) (i : nat) (C : list ModuleId) : Prop :=
  (forall x, x ∈ C -> forall y, edge x y -> exists j D, j <= i /\ comps !! j = Some D /\ y ∈ D) /\
  (forall x y, x ∈ C -> y ∈ C -> reach x y).

(** [gray] are the vertices whose call is not over. *)
Record wf (gray : gset ModuleId) (st : TarjanState) : Prop := {
  wf_on_stack : on_stack st = list_to_set (stack st);
  wf_nodup : NoDup (stack st ++ concat (components st));
  wf_visited : forall x, visited st x <-> x ∈ stack st \/ x ∈ concat (components st);
  wf_nodes : forall x, visited st x -> x ∈ nodes;
  wf_index : forall x, visited st x -> num st x < index st;
  wf_gray : forall x, x ∈ gray -> x ∈ stack st;
  wf_black : forall x y, visited st x -> x ∉ gray -> edge x y -> visited st y;
  wf_order : forall x y, x ∈ stack st -> y ∈ stack st -> num st x <= num st y -> reach x y;
  wf_gray_reach : forall y, y ∈ stack st -> exists x, x ∈ gray /\ num st x <= num st y /\ reach y x;
  wf_components : forall i C, components st !! i = Some C -> component_ok (components st) i C
}.

(** A later state: what was visited keeps its number and its [lowlink], the stack has
    grown by [s], the components by [cs]. *)
Definition grows (s : list ModuleId) (cs : list (list ModuleId)) (st st' : TarjanState) : Prop :=
  index st <= index st' /\
  (forall x, visited st x -> index_of st' !! x = index_of st !! x) /\
  stack st' = s ++ stack st /\ components st' = components st ++ cs /\
  (forall x, x ∈ s ++ concat cs -> ~ visited st x /\ visited st' x /\ index st <= num st' x).

Definition low_kept (st st' : TarjanState) : Prop := forall x, visited st x -> lowlink st' !! x = lowlink st !! x.

Lemma grows_visited s cs st st' x : grows s cs st st' -> visited st x -> visited st' x /\ num st' x = num st x.
Proof using Type. intros (_ & H & _) Hx. unfold visited, num. by rewrite H. Qed.

Lemma grows_trans s cs s' cs' st st1 st2 : grows s cs st st1 -> grows s' cs' st1 st2 -> grows (s' ++ s) (cs ++ cs') st st2.
Proof using Type.
  intros H1 H2. pose proof H1 as (Hi1 & Ho1 & Hs1 & Hc1 & Hn1). pose proof H2 as (Hi2 & Ho2 & Hs2 & Hc2 & Hn2). split_and!.
  - lia.
  - intros x Hx. rewrite Ho2; [by apply Ho1|]. by apply (grows_visited _ _ _ _ _ H1).
  - by rewrite Hs2, Hs1, app_assoc.
  - by rewrite Hc2, Hc1, app_assoc.
  - intros x Hx. rewrite concat_app in Hx.
    assert (x ∈ s' ++ concat cs' \/ x ∈ s ++ concat cs) as [Hx2|Hx1] by set_solver.
    + destruct (Hn2 x Hx2) as (Hv & Hv2 & Hlt). split_and!; [|done|lia]. intros Hv'. apply Hv. by apply (grows_visited _ _ _ _ _ H1).
    + destruct (Hn1 x Hx1) as (Hv & Hv1 & Hlt). destruct (grows_visited _ _ _ _ _ H2 Hv1) as [Hv2 ->]. by split_and!.
Qed.

Lemma grows_refl st : grows [] [] st st.
Proof using Type. split_and!; [done|done|done|by rewrite app_nil_r|]. by intros x ?%not_elem_of_nil. Qed.

(** Only [lowlink] changes in [lower]. *)
Lemma lower_fields v l st :
  index (lower v l st) = index st /\ index_of (lower v l st) = index_of st /\ stack (lower v l st) = stack st /\
  on_stack (lower v l st) = on_stack st /\ components (lower v l st) = components st /\
  (forall x, x <> v -> lowlink (lower v l st) !! x = lowlink st !! x).
Proof using Type.
  unfold lower. destruct l as [l|]; [|done]. destruct (lowlink st !! v) as [lv|]; [|done]. simpl. split_and!; try done.
  intros x Hx. by apply lookup_insert_ne.
Qed.

Lemma visited_lower v l st x : visited (lower v l st) x <-> visited st x.
Proof using Type. unfold visited. destruct (lower_fields v l st) as (_ & -> & _). done. Qed.

Lemma num_lower v l st x : num (lower v l st) x = num st x.
Proof using Type. unfold num at 1. destruct (lower_fields v l st) as (_ & -> & _). done. Qed.

Lemma lower_wf gray v l st : wf gray st -> wf gray (lower v l st).
Proof using Type.
  destruct (lower_fields v l st) as (Hi & Ho & Hs & Hon & Hc & _). intros [].
  constructor; unfold visited, num in *; rewrite ?Hi, ?Ho, ?Hs, ?Hon, ?Hc; done.
Qed.

Lemma lower_grows v l s cs st st' : grows s cs st st' -> grows s cs st (lower v l st').
Proof using Type.
  destruct (lower_fields v l st') as (Hi & Ho & Hs & _ & Hc & _). unfold grows, visited, num. by rewrite Hi, Ho, Hs, Hc.
Qed.

Lemma num_enter v st x : num (enter v st) x = if decide (x = v) then index st else num st x.
Proof using Type.
  unfold num, enter. simpl. destruct (decide (x = v)) as [->|Hx]; [by rewrite lookup_insert_eq|]. by rewrite lookup_insert_ne.
Qed.

Lemma visited_enter v st x : visited (enter v st) x <-> x = v \/ visited st x.
Proof using Type.
  unfold visited, enter. simpl. destruct (decide (x = v)) as [->|Hx]; [rewrite lookup_insert_eq; naive_solver|].
  rewrite lookup_insert_ne by done. naive_solver.
Qed.

Lemma enter_wf gray v st :
  wf gray st -> v ∈ nodes -> ~ visited st v -> (forall x, x ∈ gray -> reach x v) -> wf ({[ v ]} ∪ gray) (enter v st).
Proof using Type.
  intros Hwf Hv Hnew Hreach.
  assert (forall x, x ∈ stack st -> x <> v /\ num st x < index st) as Hold.
  { intros x Hx. assert (visited st x) as Hvx by (apply (wf_visited _ _ Hwf); by left).
    split; [by intros ->|by apply (wf_index _ _ Hwf)]. }
  constructor.
  - simpl. by rewrite (wf_on_stack _ _ Hwf).
  - simpl. constructor; [|apply Hwf]. rewrite elem_of_app. by rewrite <- (wf_visited _ _ Hwf).
  - intros x. rewrite visited_enter, (wf_visited _ _ Hwf). simpl. set_solver.
  - intros x [->|Hx]%visited_enter; [done|by apply Hwf].
  - intros x [->|Hx]%visited_enter; rewrite num_enter; simpl; case_decide; [lia|done|lia|]. pose proof (wf_index _ _ Hwf x Hx). lia.
  - simpl. intros x [->%elem_of_singleton|Hx]%elem_of_union; [set_solver|]. apply (wf_gray _ _ Hwf) in Hx. set_solver.
  - intros x y [->|Hx]%visited_enter Hg Hxy; [set_solver|]. apply visited_enter. right. apply (wf_black _ _ Hwf x); [done|set_solver|done].
  - simpl. intros x y Hx Hy. rewrite !num_enter. apply elem_of_cons in Hx as [->|Hx], Hy as [->|Hy].
    + done.
    + destruct (Hold y Hy). rewrite decide_True, decide_False by done. lia.
    + intros _. destruct (wf_gray_reach _ _ Hwf x Hx) as (g & Hg & _ & Hr). etrans; [done|]. by apply Hreach.
    + destruct (Hold x Hx), (Hold y Hy). rewrite !decide_False by done. by apply Hwf.
  - simpl. intros y [->|Hy]%elem_of_cons.
    + exists v. split_and!; [set_solver|done|done].
    + destruct (wf_gray_reach _ _ Hwf y Hy) as (g & Hg & Hle & Hr). exists g. split_and!; [set_solver| |done].
      destruct (Hold y Hy), (Hold g (wf_gray _ _ Hwf g Hg)). by rewrite !num_enter, !decide_False.
  - apply Hwf.
Qed.

(** ** What a call gives *)

(** The [lowlink] [n] of [v], in a state whose stack has grown by [s] over that of
    [st0]: a number that [v] reaches below, and the least one that an edge from [s]
    leads to. *)
Definition low_below (st0 : TarjanState) (s : list ModuleId) (n : nat) : Prop :=
  forall x y, x ∈ s -> y ∈ stack st0 -> edge x y -> n <= num st0 y.

Definition reaches_below (st0 : TarjanState) (v : ModuleId) (n : nat) : Prop :=
  exists y, y ∈ stack st0 /\ num st0 y = n /\ reach v y.

Definition connected (gray : gset ModuleId) (v : ModuleId) (st0 st : TarjanState) : Prop :=
  wf gray st /\ visited st v /\ low_kept st0 st /\
  exists s cs n, grows s cs st0 st /\ lowlink st !! v = Some n /\
    (s = [] /\ n = num st v \/ v ∈ s /\ n < num st v /\ reaches_below st0 v n) /\ low_below st0 s n.

Definition looping (gray : gset ModuleId) (v : ModuleId) (st0 : TarjanState) (done : list ModuleId) (st : TarjanState) : Prop :=
  wf ({[ v ]} ∪ gray) st /\ low_kept st0 st /\
  exists s cs n, grows s cs (enter v st0) st /\ lowlink st !! v = Some n /\ n <= num st v /\
    (n = num st v \/ reaches_below st0 v n) /\ low_below st0 s n /\
    forall w, w ∈ done -> w ∈ nodes -> visited st w /\ (w ∈ stack st0 -> n <= num st0 w).

Lemma enter_grows v st : ~ visited st v -> grows [v] [] st (enter v st).
Proof using Type.
  intros Hv. split_and!; simpl; [lia| |done|by rewrite app_nil_r|].
  - intros x Hx. apply lookup_insert_ne. by intros ->.
  - intros x ->%list_elem_of_singleton. split_and!; [done|by apply visited_enter; left|]. rewrite num_enter. by rewrite decide_True.
Qed.

Lemma enter_looping gray v st :
  wf gray st -> v ∈ nodes -> ~ visited st v -> (forall x, x ∈ gray -> reach x v) -> looping gray v st [] (enter v st).
Proof using Type.
  intros Hwf Hv Hnew Hreach. split_and!; [by apply enter_wf| |].
  - intros x Hx. simpl. apply lookup_insert_ne. by intros ->.
  - exists [], [], (index st). simpl. rewrite num_enter, decide_True by done. split_and!; [apply grows_refl|by rewrite lookup_insert_eq|done|by left| |].
    + by intros x y ?%not_elem_of_nil.
    + by intros w ?%not_elem_of_nil.
Qed.

(** ** The loop *)

Section Loop.
Context (gray : gset ModuleId) (v : ModuleId) (st0 : TarjanState).
Hypothesis Hwf0 : wf gray st0.
Hypothesis Hnew : ~ visited st0 v.

Lemma stack_visited x : x ∈ stack st0 -> visited st0 x.
Proof using Hwf0. clear Hnew. intros Hx. apply (wf_visited _ _ Hwf0). by left. Qed.

Lemma from_entry s cs st : grows s cs (enter v st0) st -> grows (s ++ [v]) cs st0 st.
Proof using Hnew. intros H. apply (grows_trans [v] [] s cs _ (enter v st0)); [by apply enter_grows|done]. Qed.

Lemma entry_num s cs st : grows s cs (enter v st0) st ->
  visited st v /\ num st v = index st0 /\ (forall x, x ∈ stack st0 -> visited st x /\ num st x = num st0 x /\ num st x < num st v) /\
  (forall x, x ∈ s -> num st v < num st x).
Proof using Hwf0 Hnew.
  intros H. assert (visited (enter v st0) v) as Hv by (apply visited_enter; by left).
  destruct (grows_visited _ _ _ _ _ H Hv) as [Hv' Hn]. rewrite num_enter, decide_True in Hn by done. split_and!; [done|done| |].
  - intros x Hx. pose proof (stack_visited x Hx) as Hx0. destruct (grows_visited _ _ _ _ _ (from_entry _ _ _ H) Hx0) as [Hx' Hnx].
    split_and!; [done|done|]. rewrite Hnx, Hn. by apply (wf_index _ _ Hwf0).
  - intros x Hx. destruct H as (_ & _ & _ & _ & Hs). destruct (Hs x) as (_ & _ & Hle); [set_solver|]. simpl in Hle. lia.
Qed.

Lemma lowlink_lower l st n : lowlink st !! v = Some n -> lowlink (lower v (Some l) st) !! v = Some (n `min` l).
Proof using Type. intros Hn. unfold lower. rewrite Hn. simpl. by rewrite lookup_insert_eq. Qed.

Lemma low_kept_lower l st : low_kept st0 st -> low_kept st0 (lower v l st).
Proof using Hnew.
  intros H x Hx. destruct (lower_fields v l st) as (_ & _ & _ & _ & _ & Hl). rewrite Hl; [by apply H|]. by intros ->.
Qed.

Lemma done_more done w n st :
  (forall w, w ∈ done -> w ∈ nodes -> visited st w /\ (w ∈ stack st0 -> n <= num st0 w)) ->
  (w ∈ nodes -> visited st w /\ (w ∈ stack st0 -> n <= num st0 w)) ->
  forall w', w' ∈ w :: done -> w' ∈ nodes -> visited st w' /\ (w' ∈ stack st0 -> n <= num st0 w').
Proof using Type. clear Hwf0 Hnew. intros H Hw w' [->|Hw']%elem_of_cons; [done|by apply H]. Qed.

Lemma skip_step done st w : (w ∈ nodes -> visited st w /\ w ∉ stack st0) -> looping gray v st0 done st -> looping gray v st0 (w :: done) st.
Proof using Type.
  intros Hw (Hwf & Hk & s & cs & n & Hg & Hl & Hle & Hr & Hb & Hd). split_and!; [done|done|]. exists s, cs, n. split_and!; try done.
  apply done_more; [done|]. intros Hn. destruct (Hw Hn). by split.
Qed.

Lemma on_stack_step done st w : edge v w -> visited st w -> w ∈ stack st ->
  looping gray v st0 done st -> looping gray v st0 (w :: done) (lower v (Some (num st w)) st).
Proof using Hwf0 Hnew.
  intros Hvw Hw Hst (Hwf & Hk & s & cs & n & Hg & Hl & Hle & Hr & Hb & Hd). destruct (entry_num _ _ _ Hg) as (Hv & Hnv & Hold & Hs).
  pose proof (fun x => visited_lower v (Some (num st w)) st x) as Hvis. pose proof (num_lower v (Some (num st w)) st v) as Hnum.
  split_and!; [by apply lower_wf|by apply low_kept_lower|]. exists s, cs, (n `min` num st w).
  split_and!; [by apply lower_grows|by apply lowlink_lower|lia| | |].
  - destruct (decide (n <= num st w)) as [Hn|Hn]; [by rewrite Nat.min_l, Hnum by lia|]. right. exists w. rewrite Nat.min_r by lia.
    assert (w ∈ stack st0) as Hw0.
    { destruct Hg as (_ & _ & Hstk & _). rewrite Hstk in Hst. simpl in Hst. apply elem_of_app in Hst as [Hws|[->|?]%elem_of_cons]; [|lia|done].
      apply Hs in Hws. lia. }
    destruct (Hold w Hw0) as (_ & -> & _). split_and!; [done|done|]. by apply rtc_once.
  - intros x y Hx Hy Hxy. pose proof (Hb x y Hx Hy Hxy). lia.
  - apply done_more.
    + intros w' Hw' Hn'. rewrite Hvis. destruct (Hd w' Hw' Hn') as [? Hlew]. split; [done|]. intros Hin. specialize (Hlew Hin). lia.
    + intros _. rewrite Hvis. split; [done|]. intros Hin. destruct (Hold w Hin) as (_ & -> & _). lia.
Qed.

Lemma child_step done st w st' : edge v w -> ~ visited st w -> connected ({[ v ]} ∪ gray) w st st' ->
  looping gray v st0 done st -> looping gray v st0 (w :: done) (lower v (lowlink st' !! w) st').
Proof using Hwf0 Hnew.
  intros Hvw Hw (Hwf' & Hvis' & Hk' & s' & cs' & nw & Hg' & Hlw & Hcase & Hb') (Hwf & Hk & s & cs & n & Hg & Hl & Hle & Hr & Hb & Hd).
  destruct (entry_num _ _ _ Hg) as (Hv & Hnv & Hold & Hs). pose proof (grows_trans _ _ _ _ _ _ _ Hg Hg') as Hgg.
  destruct (entry_num _ _ _ Hgg) as (Hv2 & Hnv2 & Hold2 & Hs2).
  rewrite Hlw. pose proof (fun x => visited_lower v (Some nw) st' x) as Hvis. pose proof (num_lower v (Some nw) st' v) as Hnum.
  assert (lowlink st' !! v = Some n) as Hl' by (by rewrite Hk').
  assert (forall x, visited st x -> visited st' x) as Hmono by (intros x Hx; by apply (grows_visited _ _ _ _ _ Hg')).
  split_and!; [by apply lower_wf| |].
  { apply low_kept_lower. intros x Hx. rewrite Hk', Hk; [done|done|]. by apply (grows_visited _ _ _ _ _ (from_entry _ _ _ Hg)). }
  exists (s' ++ s), (cs ++ cs'), (n `min` nw). split_and!; [by apply lower_grows|by apply lowlink_lower|lia| | |].
  - destruct (decide (n <= nw)) as [Hn|Hn]; [rewrite Nat.min_l by lia; destruct Hr; [left; congruence|by right]|]. rewrite Nat.min_r by lia.
    right. destruct Hcase as [[-> ->]|(Hin & Hlt & y & Hy & Hny & Hry)].
    + exfalso. assert (num st' v < num st' w); [|lia]. destruct Hg' as (_ & _ & _ & _ & Hnew').
      destruct (decide (w ∈ concat cs')) as [Hc|Hc].
      { destruct (Hnew' w Hc) as (_ & _ & Hi). pose proof (wf_index _ _ Hwf v Hv). rewrite Hnv2. lia. }
      exfalso. apply Hw. apply (wf_visited _ _ Hwf') in Hvis'. destruct Hvis' as [Hx|Hx].
      * apply (wf_visited _ _ Hwf). left. destruct Hgg as (_ & _ & Hstk & _). destruct Hg as (_ & _ & Hstk0 & _). rewrite Hstk in Hx. rewrite Hstk0.
        set_solver.
      * apply (wf_visited _ _ Hwf). right. destruct Hgg as (_ & _ & _ & Hcs & _). destruct Hg as (_ & _ & _ & Hcs0 & _).
        rewrite Hcs, !concat_app in Hx. rewrite Hcs0, concat_app. set_solver.
    + exists y. assert (y ∈ stack st0) as Hy0.
      { destruct Hg as (_ & _ & Hstk & _). rewrite Hstk in Hy. simpl in Hy. apply elem_of_app in Hy as [Hys|[->|?]%elem_of_cons]; [|lia|done].
        apply Hs in Hys. lia. }
      destruct (Hold y Hy0) as (_ & Hny0 & _). split_and!; [done|congruence|]. by eapply rtc_l.
  - intros x y [Hx|Hx]%elem_of_app Hy Hxy; [|pose proof (Hb x y Hx Hy Hxy); lia]. destruct (Hold y Hy) as (_ & Hny & _).
    assert (y ∈ stack st) as Hys by (destruct Hg as (_ & _ & Hstk & _); rewrite Hstk; simpl; set_solver).
    pose proof (Hb' x y Hx Hys Hxy). lia.
  - apply done_more.
    + intros w' Hw' Hn'. rewrite Hvis. destruct (Hd w' Hw' Hn') as [? Hlew]. split; [by apply Hmono|]. intros Hin. specialize (Hlew Hin). lia.
    + intros _. rewrite Hvis. split; [done|]. intros Hin. exfalso. apply Hw. by destruct (Hold w Hin).
Qed.

(** ** The end of a call *)

Lemma pop_component_spec s rest on : v ∉ s ->
  pop_component v (s ++ v :: rest) on = (s ++ [v], rest, on ∖ list_to_set (s ++ [v])).
Proof using Type.
  clear Hwf0 Hnew. revert on. induction s as [|x s IH]; intros on Hv; simpl.
  - rewrite decide_True by done. f_equal. set_solver.
  - rewrite decide_False by set_solver. rewrite IH by set_solver. f_equal. set_solver.
Qed.

Lemma component_ok_more comps C i D : component_ok comps i D -> component_ok (comps ++ [C]) i D.
Proof using Type.
  clear Hwf0 Hnew. intros [H1 H2]. split; [|done]. intros x Hx y Hxy. destruct (H1 x Hx y Hxy) as (j & E & Hj & HE & Hy).
  exists j, E. split_and!; [done| |done]. by apply lookup_app_l_Some.
Qed.

(** The call of [v] is over when every neighbour is done. *)
Context (ns : list ModuleId) (st : TarjanState).
Hypothesis Hns : forall w, edge v w -> w ∈ ns.
Hypothesis Hloop : looping gray v st0 ns st.

Lemma neighbours_visited y : edge v y -> visited st y.
Proof using Hns Hloop.
  clear Hnew Hwf0. intros Hy. destruct Hloop as (_ & _ & s & cs & n & _ & _ & _ & _ & _ & Hd). apply Hd; [by apply Hns|apply Hy].
Qed.

(** What is above [v] on the stack and what is below. *)
Lemma stack_split s cs : grows s cs (enter v st0) st ->
  stack st = s ++ v :: stack st0 /\ v ∉ s /\ (forall x, x ∈ s -> x ∉ stack st0 /\ x ∉ {[ v ]} ∪ gray).
Proof using Hwf0 Hloop.
  clear Hnew Hns. intros Hg. destruct Hloop as (Hwf & _). destruct Hg as (_ & _ & Hs & _). simpl in Hs.
  pose proof (wf_nodup _ _ Hwf) as Hnd. rewrite Hs in Hnd. apply NoDup_app in Hnd as (Hnd & _).
  apply NoDup_app in Hnd as (_ & Hdis & _). split_and!; [done|set_solver|].
  intros x Hx. pose proof (wf_gray _ _ Hwf0 x). set_solver.
Qed.

(** [v] is the root of a component: what is above [v] and [v]. *)
Lemma members_connected s cs : grows s cs (enter v st0) st -> forall x, x ∈ s ++ [v] -> reach v x /\ reach x v.
Proof using Hwf0 Hnew Hloop.
  clear Hns. intros Hg x [Hx| ->%list_elem_of_singleton]%elem_of_app; [|done].
  destruct (stack_split _ _ Hg) as (Hstk & _ & _). destruct (entry_num _ _ _ Hg) as (_ & _ & Hold & Hs).
  destruct Hloop as (Hwf & _). pose proof (Hs x Hx) as Hlt.
  assert (v ∈ stack st /\ x ∈ stack st) as [Hv Hx'] by (rewrite Hstk; set_solver).
  split; [apply (wf_order _ _ Hwf); [done|done|lia]|].
  destruct (wf_gray_reach _ _ Hwf x Hx') as (g & Hg' & _ & Hr). etrans; [done|].
  apply elem_of_union in Hg' as [->%elem_of_singleton|Hgr]; [done|]. pose proof (wf_gray _ _ Hwf0 g Hgr) as Hg0.
  destruct (Hold g Hg0) as (_ & _ & Hlg). apply (wf_order _ _ Hwf); [rewrite Hstk; set_solver|done|lia].
Qed.

Lemma root_component s cs n :
  grows s cs (enter v st0) st -> n = num st v -> low_below st0 s n ->
  (forall w, w ∈ ns -> w ∈ nodes -> visited st w /\ (w ∈ stack st0 -> n <= num st0 w)) ->
  component_ok (components st ++ [s ++ [v]]) (length (components st)) (s ++ [v]).
Proof using Hwf0 Hnew Hns Hloop.
  intros Hg -> Hb Hd. destruct (stack_split _ _ Hg) as (Hstk & _ & Hdis). destruct (entry_num _ _ _ Hg) as (_ & _ & Hold & _).
  pose proof Hloop as (Hwf & _). split.
  - intros x Hx y Hxy.
    assert (visited st y) as Hy.
    { apply elem_of_app in Hx as [Hx| ->%list_elem_of_singleton]; [|by apply neighbours_visited].
      destruct (Hdis x Hx) as [_ Hx']. apply (wf_black _ _ Hwf x); [|done|done]. apply (wf_visited _ _ Hwf). left. rewrite Hstk. set_solver. }
    apply (wf_visited _ _ Hwf) in Hy as [Hy|Hy].
    + rewrite Hstk in Hy. assert (y ∈ s ++ [v] \/ y ∈ stack st0) as [Hy'|Hy'] by set_solver.
      { exists (length (components st)), (s ++ [v]). split_and!; [done|by rewrite lookup_app_r, Nat.sub_diag by lia|done]. }
      exfalso. destruct (Hold y Hy') as (_ & Hny & Hlt). rewrite Hny in Hlt.
      apply elem_of_app in Hx as [Hx| ->%list_elem_of_singleton].
      * pose proof (Hb x y Hx Hy' Hxy). lia.
      * destruct (Hd y) as [_ Hle]; [by apply Hns|apply Hxy|]. specialize (Hle Hy'). lia.
    + apply list_elem_of_In, in_concat in Hy as (D & HD & Hy). apply list_elem_of_In in HD, Hy. apply list_elem_of_lookup in HD as [j HD].
      exists j, D. pose proof (lookup_lt_Some _ _ _ HD). split_and!; [lia|by apply lookup_app_l_Some|done].
  - intros x y Hx Hy. destruct (members_connected _ _ Hg x Hx), (members_connected _ _ Hg y Hy). by trans v.
Qed.

Lemma is_root_iff n : lowlink st !! v = Some n -> visited st v -> (lowlink st !! v = index_of st !! v <-> n = num st v).
Proof using Type. clear Hwf0 Hnew Hns Hloop. intros -> [i Hi]. unfold num. rewrite Hi. simpl. naive_solver. Qed.

Lemma leave_inner : lowlink st !! v <> index_of st !! v -> connected gray v st0 (leave v st).
Proof using Hwf0 Hnew Hns Hloop.
  intros Hne. unfold leave. rewrite decide_False by done.
  pose proof Hloop as (Hwf & Hk & s & cs & n & Hg & Hl & Hle & Hr & Hb & Hd).
  destruct (entry_num _ _ _ Hg) as (Hv & Hnv & Hold & Hs). destruct (stack_split _ _ Hg) as (Hstk & _ & _).
  rewrite (is_root_iff n) in Hne by done. destruct Hr as [?|Hr]; [done|].
  split_and!; [|done|done|].
  - destruct Hwf. constructor; try done.
    + intros x Hx. apply wf_gray0. set_solver.
    + intros x y Hx Hxg Hxy. destruct (decide (x = v)) as [->|Hxv]; [by apply neighbours_visited|]. apply (wf_black0 x); [done|set_solver|done].
    + intros y Hy. destruct (wf_gray_reach0 y Hy) as (g & [->%elem_of_singleton|Hgr]%elem_of_union & Hle' & Hrg); [|by exists g].
      destruct Hr as (z & Hz & Hnz & Hrz). destruct (wf_gray_reach _ _ Hwf0 z Hz) as (g & Hgr & Hle2 & Hrg2).
      exists g. split_and!; [done| |by trans v; [done|trans z]]. destruct (Hold g (wf_gray _ _ Hwf0 g Hgr)) as (_ & Hng & _). lia.
  - exists (s ++ [v]), cs, n. split_and!; [by apply from_entry|done| |].
    + right. split_and!; [set_solver|lia|done].
    + intros x y [Hx| ->%list_elem_of_singleton]%elem_of_app Hy Hxy; [by eapply Hb|].
      destruct (Hd y) as [_ Hley]; [by apply Hns|apply Hxy|by apply Hley].
Qed.

Lemma leave_root : lowlink st !! v = index_of st !! v -> connected gray v st0 (leave v st).
Proof using Hwf0 Hnew Hns Hloop.
  intros Heq. unfold leave. rewrite decide_True by done.
  pose proof Hloop as (Hwf & Hk & s & cs & n & Hg & Hl & Hle & Hr & Hb & Hd).
  destruct (entry_num _ _ _ Hg) as (Hv & Hnv & Hold & Hs). destruct (stack_split _ _ Hg) as (Hstk & Hvs & Hdis).
  rewrite (is_root_iff n) in Heq by done. rewrite Hstk, pop_component_spec by done.
  pose proof (root_component s cs n Hg Heq Hb Hd) as Hroot. pose proof (wf_nodup _ _ Hwf) as Hnd. rewrite Hstk in Hnd.
  change (v :: stack st0) with ([v] ++ stack st0) in Hnd. rewrite (assoc_L (++) s [v] (stack st0)) in Hnd.
  assert (forall x, x ∈ s ++ v :: stack st0 \/ x ∈ concat (components st) <-> x ∈ stack st0 \/ x ∈ concat (components st ++ [s ++ [v]])) as Hmem.
  { intros x. rewrite concat_app. simpl. rewrite app_nil_r. set_solver. }
  split_and!; [|done|done|].
  - constructor; simpl; unfold visited, num; simpl.
    + rewrite (wf_on_stack _ _ Hwf), Hstk. apply NoDup_app in Hnd as (Hnd & _). apply NoDup_app in Hnd as (_ & Hnd & _). set_solver.
    + rewrite concat_app. simpl. rewrite app_nil_r.
      assert (stack st0 ++ concat (components st) ++ s ++ [v] ≡ₚ ((s ++ [v]) ++ stack st0) ++ concat (components st)) as ->; [|done].
      rewrite (Permutation_app_comm (concat _) (s ++ [v])), (assoc_L (++) (stack st0)). by rewrite (Permutation_app_comm (stack st0)).
    + intros x. rewrite <- Hmem, <- Hstk. apply (wf_visited _ _ Hwf).
    + apply (wf_nodes _ _ Hwf).
    + apply (wf_index _ _ Hwf).
    + apply (wf_gray _ _ Hwf0).
    + intros x y Hx Hxg Hxy. destruct (decide (x = v)) as [->|Hxv]; [by apply neighbours_visited|].
      apply (wf_black _ _ Hwf x); [done|set_solver|done].
    + intros x y Hx Hy. apply (wf_order _ _ Hwf); rewrite Hstk; set_solver.
    + intros y Hy. destruct (wf_gray_reach _ _ Hwf0 y Hy) as (g & Hgr & Hleg & Hrg). exists g. split_and!; [done| |done].
      destruct (Hold y Hy) as (_ & Hny & _), (Hold g (wf_gray _ _ Hwf0 g Hgr)) as (_ & Hng & _). unfold num in *. lia.
    + intros i C [HC|[Hi [Hi0 <-]%list_lookup_singleton_Some]]%lookup_app_Some.
      * apply component_ok_more. by apply (wf_components _ _ Hwf).
      * by replace i with (length (components st)) by lia.
  - exists [], (cs ++ [s ++ [v]]), n. pose proof (from_entry _ _ _ Hg) as (Hi & Ho & Hst & Hc & Hnew'). split_and!; try done.
    + split_and!; simpl; [done|done|done|by rewrite Hc, app_assoc|]. intros x Hx. apply Hnew'. rewrite concat_app in Hx. set_solver.
    + by left.
    + by intros x y ?%not_elem_of_nil.
Qed.

Lemma leave_connected : connected gray v st0 (leave v st).
Proof using Hwf0 Hnew Hns Hloop.
  destruct (decide (lowlink st !! v = index_of st !! v)); [by apply leave_root|by apply leave_inner].
Qed.
End Loop.

(** ** The calls *)

Lemma looping_visited gray v st0 done st : wf gray st0 -> looping gray v st0 done st -> ~ visited st0 v ->
  dom (index_of st0) ∪ {[ v ]} ⊆ dom (index_of st).
Proof using Type.
  intros Hwf0 (Hwf & _ & s & cs & n & Hg & _) Hnew x Hx. apply elem_of_dom.
  apply (grows_visited _ _ _ _ x Hg), visited_enter. apply elem_of_union in Hx as [Hx%elem_of_dom|Hx%elem_of_singleton]; [by right|by left].
Qed.

Definition unvisited (st : TarjanState) : nat := size (nodes ∖ dom (index_of st)).

Lemma fewer_unvisited v st0 st : v ∈ nodes -> ~ visited st0 v -> dom (index_of st0) ∪ {[ v ]} ⊆ dom (index_of st) ->
  unvisited st < unvisited st0.
Proof using Type.
  intros Hv Hnew Hdom. unfold unvisited. apply subset_size. assert (v ∉ dom (index_of st0)) by (by rewrite elem_of_dom). set_solver.
Qed.

(** What the recursive call does with the fuel that is left. *)
Definition connects (fuel : nat) (gray : gset ModuleId) (connect : ModuleId -> TarjanState -> option TarjanState) : Prop :=
  forall v st, wf gray st -> v ∈ nodes -> ~ visited st v -> (forall x, x ∈ gray -> reach x v) -> unvisited st <= fuel ->
  exists st', connect v st = Some st' /\ connected gray v st st'.

Lemma visit_neighbors_ok fuel gray v st0 connect :
  wf gray st0 -> v ∈ nodes -> ~ visited st0 v -> (forall x, x ∈ gray -> reach x v) -> unvisited st0 <= S fuel ->
  connects fuel ({[ v ]} ∪ gray) connect ->
  forall ws done st, looping gray v st0 done st -> (forall w, w ∈ ws -> w ∈ default [] (edges !! v)) ->
  exists st', visit_neighbors nodes connect v ws st = Some st' /\ looping gray v st0 (rev ws ++ done) st'.
Proof using Type.
  intros Hwf0 Hv Hnew Hreach Hfuel IH. induction ws as [|w ws IHws]; intros done st Hloop Hws; simpl; [by exists st|].
  assert (w ∈ default [] (edges !! v)) as Hw by (apply Hws; by left).
  assert (forall st, looping gray v st0 (w :: done) st -> exists st', visit_neighbors nodes connect v ws st = Some st' /\
    looping gray v st0 ((rev ws ++ [w]) ++ done) st') as Hrest.
  { intros st1 H1. rewrite <- app_assoc. apply IHws; [done|]. intros w' Hw'. apply Hws. by right. }
  pose proof Hloop as (Hwf & _ & s & cs & n & Hg & _).
  destruct (decide (w ∈ nodes)) as [Hwn|Hwn]; [|by apply Hrest, skip_step].
  assert (edge v w) as Hvw by done.
  destruct (index_of st !! w) as [iw|] eqn:Hiw.
  - assert (visited st w) as Hwv by (by exists iw).
    assert (w ∈ on_stack st <-> w ∈ stack st) as Hon by (by rewrite (wf_on_stack _ _ Hwf), elem_of_list_to_set).
    destruct (decide (w ∈ on_stack st)) as [Hs|Hs]; rewrite Hon in Hs.
    + apply Hrest. assert (num st w = iw) as <- by (unfold num; by rewrite Hiw). by apply on_stack_step.
    + apply Hrest, skip_step; [|done]. intros _. split; [done|]. destruct Hg as (_ & _ & Hstk & _).
      intros Hw0. apply Hs. rewrite Hstk. apply elem_of_app. right. by right.
  - assert (~ visited st w) as Hwv by (unfold visited; rewrite Hiw; by intros [? ?]).
    destruct (IH w st) as (st1 & -> & Hc); [done|done|done| | |].
    + intros x [->%elem_of_singleton|Hx]%elem_of_union; [by apply rtc_once|]. trans v; [by apply Hreach|by apply rtc_once].
    + pose proof (fewer_unvisited v st0 st Hv Hnew (looping_visited _ _ _ _ _ Hwf0 Hloop Hnew)). lia.
    + apply Hrest. by apply (child_step gray v st0 Hwf0 Hnew done st).
Qed.

Lemma strong_connect_ok fuel gray : connects fuel gray (strong_connect nodes edges fuel).
Proof using Type.
  revert gray. induction fuel as [|fuel IH]; intros gray v st Hwf Hv Hnew Hreach Hfuel.
  { exfalso. apply Hnew. apply elem_of_dom. unfold unvisited in Hfuel.
    assert (nodes ∖ dom (index_of st) ≡ ∅) as He by (apply size_empty_iff; lia).
    destruct (decide (v ∈ dom (index_of st))); [done|set_solver]. }
  simpl. destruct (visit_neighbors_ok fuel gray v st (strong_connect nodes edges fuel) Hwf Hv Hnew Hreach Hfuel (IH _)
    (default [] (edges !! v)) [] (enter v st)) as (st' & -> & Hloop); [by apply enter_looping|done|].
  rewrite app_nil_r in Hloop. exists (leave v st'). split; [done|].
  eapply leave_connected; [done|done| |exact Hloop]. intros w [Hw _]. by rewrite list_elem_of_In, <- in_rev, <- list_elem_of_In.
Qed.

Lemma connect_all_ok fuel : size nodes <= fuel -> forall vs st, wf ∅ st -> (forall v, v ∈ vs -> v ∈ nodes) ->
  exists st', connect_all nodes edges fuel vs st = Some st' /\ wf ∅ st' /\ (forall v, v ∈ vs \/ visited st v -> visited st' v).
Proof using Type.
  intros Hfuel. induction vs as [|v vs IH]; intros st Hwf Hvs; simpl.
  { exists st. split_and!; [done|done|]. intros v [?%not_elem_of_nil|Hv]; done. }
  assert (forall st1, wf ∅ st1 -> visited st1 v -> (forall x, visited st x -> visited st1 x) ->
    exists st', connect_all nodes edges fuel vs st1 = Some st' /\ wf ∅ st' /\ (forall x, x ∈ v :: vs \/ visited st x -> visited st' x)) as Hrest.
  { intros st1 H1 Hv1 Hm. destruct (IH st1 H1) as (st' & He & Hwf' & Hall); [intros x Hx; apply Hvs; by right|].
    exists st'. split_and!; [done|done|]. intros x [[->|Hx]%elem_of_cons|Hx]; apply Hall; [by right|by left|right; by apply Hm]. }
  destruct (index_of st !! v) as [i|] eqn:Hi; [apply Hrest; [done|by exists i|done]|].
  assert (~ visited st v) as Hnew by (unfold visited; rewrite Hi; by intros [? ?]).
  destruct (strong_connect_ok fuel ∅ v st) as (st1 & -> & Hc); [done|apply Hvs; by left|done|set_solver| |].
  { unfold unvisited. etrans; [|exact Hfuel]. apply subseteq_size. set_solver. }
  destruct Hc as (Hwf1 & Hv1 & _ & s & cs & n & Hg & _). apply Hrest; [done|done|]. intros x Hx. by apply (grows_visited _ _ _ _ _ Hg).
Qed.
End Correct.

(** An element has one place in lists without duplicates. *)
Lemma concat_position {A} (ls : list (list A)) i j l l' x :
  NoDup (concat ls) -> ls !! i = Some l -> ls !! j = Some l' -> x ∈ l -> x ∈ l' -> i = j.
Proof.
  revert i j. induction ls as [|l0 ls IH]; intros i j Hnd Hi Hj Hx Hx'; [done|].
  simpl in Hnd. apply NoDup_app in Hnd as (_ & Hdis & Hnd).
  assert (forall k l, ls !! k = Some l -> x ∈ l -> x ∈ concat ls) as Hin.
  { intros k m Hk Hm. apply list_elem_of_In, in_concat. exists m. rewrite <- !list_elem_of_In. split; [by eapply list_elem_of_lookup_2|done]. }
  destruct i as [|i], j as [|j]; simplify_eq/=; [done| | |].
  - exfalso. by eapply Hdis, Hin.
  - exfalso. by eapply Hdis, Hin.
  - f_equal. by eapply IH.
Qed.

Lemma initial_wf nodes edges : wf nodes edges ∅ TarjanState_default.
Proof.
  assert (forall x, ~ visited TarjanState_default x) as Hno by (by intros x [i [=]]).
  constructor; simpl.
  - done.
  - constructor.
  - intros x. split; [by intros ?%Hno|]. intros [?%not_elem_of_nil|?%not_elem_of_nil]; done.
  - by intros x ?%Hno.
  - by intros x ?%Hno.
  - set_solver.
  - by intros x y ?%Hno.
  - by intros x y ?%not_elem_of_nil.
  - by intros y ?%not_elem_of_nil.
  - by intros i C [=].
Qed.

Lemma size_of_list (l : list ModuleId) : size (list_to_set (C := gset ModuleId) l) <= length l.
Proof.
  induction l as [|x l IH]; simpl; [done|]. rewrite size_union_alt, size_singleton.
  assert (size (list_to_set l ∖ {[ x ]} : gset ModuleId) <= size (list_to_set l : gset ModuleId)); [|lia].
  apply subseteq_size. set_solver.
Qed.

Lemma tarjan_wf (nodes : list ModuleId) edges fuel : length nodes <= fuel ->
  exists st, connect_all (list_to_set nodes) edges fuel nodes TarjanState_default = Some st /\
    wf (list_to_set nodes) edges ∅ st /\ stack st = [] /\ (forall v, v ∈ nodes -> v ∈ concat (components st)).
Proof.
  intros Hfuel. destruct (connect_all_ok (list_to_set nodes) edges fuel) with nodes TarjanState_default as (st & Hrun & Hwf & Hall).
  - etrans; [apply size_of_list|done].
  - apply initial_wf.
  - intros v Hv. by apply elem_of_list_to_set.
  - assert (stack st = []) as Hs.
    { destruct (stack st) as [|y l] eqn:Hs; [done|]. destruct (wf_gray_reach _ _ _ _ Hwf y) as (g & Hg & _); [rewrite Hs; by left|]. set_solver. }
    exists st. split_and!; [done|done|done|]. intros v Hv. assert (visited st v) as Hvis by (apply Hall; by left).
    apply (wf_visited _ _ _ _ Hwf) in Hvis. rewrite Hs in Hvis. by destruct Hvis as [?%not_elem_of_nil|?].
Qed.

Lemma closed_reach nodes edges comps :
  (forall i C, comps !! i = Some C -> component_ok nodes edges comps i C) ->
  forall x y, rtc (edge nodes edges) x y -> forall i C, comps !! i = Some C -> x ∈ C ->
  exists j D, j <= i /\ comps !! j = Some D /\ y ∈ D.
Proof.
  intros Hok x y H. induction H as [x|x y z Hxy _ IH]; intros i C HC Hx; [by exists i, C|].
  destruct (Hok i C HC) as [H1 _]. destruct (H1 x Hx y Hxy) as (j & D & Hj & HD & Hy).
  destruct (IH j D HD Hy) as (k & E & Hk & HE & Hz). exists k, E. split_and!; [lia|done|done].
Qed.

(** The groups, as they are popped: every module is in one, and each is after those that it
    leads to. *)
Lemma groups_popped (nodes : list ModuleId) edges fuel : length nodes <= fuel ->
  exists groups, tarjan_scc_module_ids fuel nodes edges = Some groups /\ NoDup (concat groups) /\
    (forall x, x ∈ concat groups <-> x ∈ nodes) /\
    forall i C, groups !! i = Some C -> component_ok (list_to_set nodes) edges groups i C.
Proof.
  intros Hfuel. destruct (tarjan_wf nodes edges fuel Hfuel) as (st & Hrun & Hwf & Hstack & Hall).
  exists (components st). unfold tarjan_scc_module_ids. rewrite Hrun. pose proof (wf_nodup _ _ _ _ Hwf) as Hnd.
  rewrite Hstack in Hnd. split_and!; [done|done| |exact (wf_components _ _ _ _ Hwf)].
  intros x. split; intros Hx; [|by apply Hall]. apply (elem_of_list_to_set (C := gset ModuleId)), (wf_nodes _ _ _ _ Hwf), (wf_visited _ _ _ _ Hwf). by right.
Qed.

(** C8. The groups in which modules that import one another are loaded: [tarjan_scc_module_ids]
    answers whatever the graph is, every module is in exactly one group, two modules are in
    the same group when and only when each imports the other through some chain of imports,
    and what a module imports is in its own group or in an earlier one. *)
Theorem import_groups_in_order nodes edges fuel :
  length nodes <= fuel ->
  exists groups, tarjan_scc_module_ids fuel nodes edges = Some groups /\
    NoDup (concat groups) /\ (forall x, x ∈ concat groups <-> x ∈ nodes) /\
    (forall C x y, C ∈ groups -> x ∈ C ->
      (y ∈ C <-> rtc (edge (list_to_set nodes) edges) x y /\ rtc (edge (list_to_set nodes) edges) y x)) /\
    (forall i C x y, groups !! i = Some C -> x ∈ C -> edge (list_to_set nodes) edges x y ->
      exists j D, j <= i /\ groups !! j = Some D /\ y ∈ D).
Proof.
  intros Hfuel. destruct (groups_popped nodes edges fuel Hfuel) as (groups & Hrun & Hnd & Hmem & Hok).
  exists groups. split_and!; [done|done|done| |].
  - intros C x y [i HC]%list_elem_of_lookup Hx. split.
    + intros Hy. destruct (Hok i C HC) as [_ H2]. split; by apply H2.
    + intros [Hxy Hyx]. destruct (closed_reach _ _ _ Hok x y Hxy i C HC Hx) as (j & D & Hj & HD & Hy).
      destruct (closed_reach _ _ _ Hok y x Hyx j D HD Hy) as (k & E & Hk & HE & Hx').
      assert (k = i) as -> by (eapply concat_position; eauto). assert (j = i) as -> by lia. congruence.
  - intros i C x y HC Hx Hxy. destruct (Hok i C HC) as [H1 _]. by apply (H1 x Hx y Hxy).
Qed.

(** [a] and [b] import one another, [c] imports [a] and [d], [d] nothing. *)
Definition demo_module (s : string) : ModuleId := mkModuleId [s].
Definition demo_imports : gmap ModuleId (list ModuleId) :=
  list_to_map [(demo_module "a", [demo_module "b"]); (demo_module "b", [demo_module "a"]);
    (demo_module "c", [demo_module "d"; demo_module "a"; demo_module "absent"])].
Definition demo_modules : list ModuleId := demo_module <$> ["a"; "b"; "c"; "d"].

Example demo_groups :
  tarjan_scc_module_ids 4 demo_modules demo_imports =
  Some [[demo_module "b"; demo_module "a"]; [demo_module "d"]; [demo_module "c"]].
Proof. vm_compute. reflexivity. Qed.

Example import_groups_in_order_witness :
  length demo_modules <= 4 /\
  exists groups, tarjan_scc_module_ids 4 demo_modules demo_imports = Some groups /\
    NoDup (concat groups) /\ (forall x, x ∈ concat groups <-> x ∈ demo_modules).
Proof.
  split; [vm_compute; lia|].
  destruct (import_groups_in_order demo_modules demo_imports 4) as (groups & H1 & H2 & H3 & _); [vm_compute; lia|].
  exists groups. by split_and!.
Defined.
