(* ===== verification/Operators.v ===== *)
(** Binary operators: the precedences of [rex-parser/src/lexer.rs], the operator
    names of [op.rs], and the folding of an operator sequence into nested
    applications, [fold_binary_expr] of [rex-parser/src/ast_builder.rs]. *)

From S2P Require Import Prelude Span Types Syntax Token Ast.

(** * Precedence *)

(** [Precedence(u8)], compared as numbers. *)
Definition precedence (t : Token) : nat :=
  match t with
  | TokOr _ => 1
  | TokAnd _ => 2
  | TokEq _ | TokNe _ | TokLt _ | TokLe _ | TokGt _ | TokGe _ => 3
  | TokAdd _ | TokSub _ => 4
  | TokMul _ | TokDiv _ | TokMod _ => 5
  | TokIdent _ _ => 255
  | _ => 0
  end.

Definition is_left_associative_binary (t : Token) : bool :=
  match t with
  | TokAdd _ | TokAnd _ | TokDiv _ | TokMul _ | TokMod _ | TokOr _ | TokSub _ => true
  | _ => false
  end.

(** [Operator] and its [Display]. *)
Inductive Operator : Type :=
  | OpAdd | OpAnd | OpDiv | OpEq | OpNe | OpGe | OpGt | OpLe | OpLt | OpMod | OpMul | OpOr | OpSub.

Definition Operator_show (op : Operator) : string :=
  match op with
  | OpAdd => "+" | OpAnd => "&&" | OpDiv => "/" | OpEq => "==" | OpNe => "!=" | OpGe => ">="
  | OpGt => ">" | OpLe => "<=" | OpLt => "<" | OpMod => "%" | OpMul => "*" | OpOr => "||"
  | OpSub => "-"
  end.

(** * Folding *)

Section fold.
(** [Display for Token], the name of a token that is no operator; the parser passes
    operators only. *)
Context (token_display : Token -> string).

Definition operator_name (operator : Token) : string :=
  match operator with
  | TokAdd _ => Operator_show OpAdd
  | TokAnd _ => Operator_show OpAnd
  | TokDiv _ => Operator_show OpDiv
  | TokEq _ => Operator_show OpEq
  | TokNe _ => Operator_show OpNe
  | TokGe _ => Operator_show OpGe
  | TokGt _ => Operator_show OpGt
  | TokLe _ => Operator_show OpLe
  | TokLt _ => Operator_show OpLt
  | TokMod _ => Operator_show OpMod
  | TokMul _ => Operator_show OpMul
  | TokOr _ => Operator_show OpOr
  | TokSub _ => Operator_show OpSub
  | _ => token_display operator
  end.

Definition make_binary_expr (lhs : Expr) (operator : Token) (rhs : Expr) : Expr :=
  let lhs_span := Expr_span lhs in
  let rhs_end := end_ (Expr_span rhs) in
  let op_span := token_span operator in
  let inner_span := from_begin_end (begin lhs_span) (end_ op_span) in
  let outer_span := from_begin_end (begin lhs_span) rhs_end in
  let name := match operator with TokColonColon _ => "List.Cons" | _ => operator_name operator end in
  XApp outer_span (XApp inner_span (XVar (mkVar op_span name)) lhs) rhs.

(** Whether the operator after [operator] is folded first. *)
Definition takes_precedence (operator next : Token) : bool :=
  if precedence next <? precedence operator then false
  else if precedence operator =? precedence next then negb (is_left_associative_binary operator)
  else true.

(** [index] is the [&mut usize] of the code; [fuel] bounds the recursion, which moves
    the index each time. *)
Fixpoint fold_binary_from (fuel : nat) (lhs : Expr) (parts : list (Token * Expr)) (index : nat)
  : option (Expr * nat) :=
  match fuel with
  | 0 => None
  | S fuel =>
      match parts !! index with
      | None => Some (lhs, index)
      | Some (operator, rhs) =>
          let index := index + 1 in
          let next_binary_expr_takes_precedence :=
            match parts !! index with
            | Some (next, _) => takes_precedence operator next
            | None => false
            end in
          let folded :=
            if next_binary_expr_takes_precedence then fold_binary_from fuel rhs parts index
            else Some (rhs, index) in
          match folded with
          | None => None
          | Some (rhs, index) => fold_binary_from fuel (make_binary_expr lhs operator rhs) parts index
          end
      end
  end.

(** [None] for no operand: [operands.remove(0)] panics. *)
Definition fold_binary_expr (operands : list Expr) (operators : list Token) : option Expr :=
  match operands with
  | [] => None
  | lhs :: operands =>
      let parts := zip operators operands in
      option_map fst (fold_binary_from (S (length parts)) lhs parts 0)
  end.

(** * Operator trees *)

Inductive optree : Type :=
  | Operand (e : Expr)
  | Binary (l : optree) (operator : Token) (r : optree).

Fixpoint to_expr (t : optree) : Expr :=
  match t with
  | Operand e => e
  | Binary l op r => make_binary_expr (to_expr l) op (to_expr r)
  end.

Fixpoint operands_of (t : optree) : list Expr :=
  match t with Operand e => [e] | Binary l _ r => operands_of l ++ operands_of r end.

Fixpoint operators_of (t : optree) : list Token :=
  match t with Operand _ => [] | Binary l op r => operators_of l ++ op :: operators_of r end.

Definition top (t : optree) : option Token := match t with Operand _ => None | Binary _ op _ => Some op end.

(** No operator under a left operand gives way to its parent, every operator that
    heads a right operand takes precedence: the local form of the grammar below. *)
Fixpoint respects (t : optree) : Prop :=
  match t with
  | Operand _ => True
  | Binary l op r =>
      respects l /\ respects r /\
      (forall p, top l = Some p -> takes_precedence p op = false) /\
      (forall q, top r = Some q -> takes_precedence op q = true)
  end.

(** Once the operator after [o] takes precedence over [o], all later ones do. *)
Fixpoint never_drops (operators : list Token) : Prop :=
  match operators with
  | o :: ((n :: _) as rest) =>
      (takes_precedence o n = true -> Forall (fun p => takes_precedence o p = true) rest) /\
      never_drops rest
  | _ => True
  end.

(** What the recursion does, on trees: once an operator gives way to the next, the
    whole rest of the sequence is its right operand. *)
Fixpoint fold_tree (lhs : optree) (parts : list (Token * Expr)) : optree :=
  match parts with
  | [] => lhs
  | (op, rhs) :: rest =>
      match rest with
      | (next, _) :: _ =>
          if takes_precedence op next then Binary lhs op (fold_tree (Operand rhs) rest)
          else fold_tree (Binary lhs op (Operand rhs)) rest
      | [] => Binary lhs op (Operand rhs)
      end
  end.
End fold.

(** * The grammar of operators *)

(** The language by itself, without reference to the functions above: the level of an
    operator, from the loosest to the tightest, and the name that it stands for. *)
Definition op_level (t : Token) : option nat :=
  match t with
  | TokColonColon _ => Some 0
  | TokOr _ => Some 1
  | TokAnd _ => Some 2
  | TokEq _ | TokNe _ | TokLt _ | TokLe _ | TokGt _ | TokGe _ => Some 3
  | TokAdd _ | TokSub _ => Some 4
  | TokMul _ | TokDiv _ | TokMod _ => Some 5
  | _ => None
  end.

Definition op_text (t : Token) : option string :=
  match t with
  | TokColonColon _ => Some "List.Cons"
  | TokOr _ => Some "||"
  | TokAnd _ => Some "&&"
  | TokEq _ => Some "=="
  | TokNe _ => Some "!="
  | TokLt _ => Some "<"
  | TokLe _ => Some "<="
  | TokGt _ => Some ">"
  | TokGe _ => Some ">="
  | TokAdd _ => Some "+"
  | TokSub _ => Some "-"
  | TokMul _ => Some "*"
  | TokDiv _ => Some "/"
  | TokMod _ => Some "%"
  | _ => None
  end.

(** [parses n t]: [t] is a parse of level [n] of the stratified grammar
    [level 0 ::= level 1 "::" level 0 | level 1], ...: cons and the comparisons
    associate to the right, the other operators to the left. *)
Inductive parses : nat -> optree -> Prop :=
  | parses_operand n e : parses n (Operand e)
  | parses_tighter n t : parses (S n) t -> parses n t
  | parses_cons l s r : parses 1 l -> parses 0 r -> parses 0 (Binary l (TokColonColon s) r)
  | parses_or l s r : parses 1 l -> parses 2 r -> parses 1 (Binary l (TokOr s) r)
  | parses_and l s r : parses 2 l -> parses 3 r -> parses 2 (Binary l (TokAnd s) r)
  | parses_comparison l op r :
      op_level op = Some 3 -> parses 4 l -> parses 3 r -> parses 3 (Binary l op r)
  | parses_sum l op r : op_level op = Some 4 -> parses 4 l -> parses 5 r -> parses 4 (Binary l op r)
  | parses_product l op r :
      op_level op = Some 5 -> parses 5 l -> parses 6 r -> parses 5 (Binary l op r).

(** Between [o] and [n] the grammar gives the operand to [n]. *)
Definition gives_way (o n : Token) : Prop :=
  exists a b, op_level o = Some a /\ op_level n = Some b /\ (a < b \/ (a = b /\ (a = 0 \/ a = 3))).

(** [spells t e]: [e] applies the names of the operators of [t], each at the span of its
    token, to the expressions of its operands. *)
Inductive spells : optree -> Expr -> Prop :=
  | spells_operand e : spells (Operand e) e
  | spells_binary l op r el er name :
      spells l el -> spells r er -> op_text op = Some name ->
      spells (Binary l op r)
        (XApp (from_begin_end (begin (Expr_span el)) (end_ (Expr_span er)))
           (XApp (from_begin_end (begin (Expr_span el)) (end_ (token_span op)))
              (XVar (mkVar (token_span op) name)) el) er).

(** * Lemmas *)

Section lemmas.
Context (token_display : Token -> string).
Local Abbreviation to_expr := (to_expr token_display).
Local Abbreviation fold_from := (fold_binary_from token_display).

Lemma fold_from_end fuel e (parts : list (Token * Expr)) index :
  length parts <= index -> fold_from (S fuel) e parts index = Some (e, index).
Proof using. intros Hi. simpl. by rewrite lookup_ge_None_2. Qed.

Lemma fold_from_tree rest fuel L parts index :
  drop index parts = rest -> length rest < fuel ->
  fold_from fuel (to_expr L) parts index = Some (to_expr (fold_tree L rest), index + length rest).
Proof using.
  revert fuel L index. induction rest as [|[op rhs] rest IH]; intros fuel L index Hd Hf;
    (destruct fuel as [|fuel]; [lia|]).
  { rewrite fold_from_end; [by rewrite Nat.add_0_r|].
    apply (f_equal length) in Hd. rewrite length_drop in Hd. simpl in Hd. lia. }
  assert (Hop : parts !! index = Some (op, rhs)).
  { rewrite <- (Nat.add_0_r index), <- lookup_drop. by rewrite Hd. }
  assert (Hd' : drop (index + 1) parts = rest).
  { rewrite (drop_S _ _ _ Hop) in Hd. rewrite Nat.add_1_r. by injection Hd. }
  assert (Hlen : length parts = index + S (length rest)).
  { apply lookup_lt_Some in Hop as Hlt. apply (f_equal length) in Hd. rewrite length_drop in Hd. simpl in Hd.
    lia. }
  simpl in Hf. cbn [fold_binary_from]. rewrite Hop. destruct rest as [|[next e] rest].
  - rewrite (lookup_ge_None_2 parts (index + 1)) by (simpl in Hlen; lia).
    destruct fuel as [|fuel]; [simpl in Hf; lia|].
    rewrite fold_from_end by (simpl in Hlen; lia). done.
  - assert (Hnext : parts !! (index + 1) = Some (next, e)).
    { rewrite <- (Nat.add_0_r (index + 1)), <- lookup_drop. by rewrite Hd'. }
    rewrite Hnext. cbn [fold_tree]. destruct (takes_precedence op next).
    + pose proof (IH fuel (Operand rhs) (index + 1) Hd' ltac:(lia)) as IHr. simpl Operators.to_expr in IHr at 1.
      rewrite IHr.
      destruct fuel as [|fuel]; [simpl in Hf; lia|]. rewrite fold_from_end by lia. simpl. do 2 f_equal. lia.
    + pose proof (IH fuel (Binary L op (Operand rhs)) (index + 1) Hd' ltac:(lia)) as IHr. simpl in IHr |- *.
      rewrite IHr. do 2 f_equal. lia.
Qed.
End lemmas.

Lemma fold_tree_inorder L rest :
  operands_of (fold_tree L rest) = operands_of L ++ rest.*2 /\
  operators_of (fold_tree L rest) = operators_of L ++ rest.*1.
Proof.
  revert L. induction rest as [|[op rhs] rest IH]; intros L; [by rewrite !app_nil_r|].
  destruct rest as [|[next e] rest]; [done|]. simpl fold_tree. destruct (takes_precedence op next).
  - destruct (IH (Operand rhs)) as [H1 H2]. simpl in *. by rewrite H1, H2.
  - destruct (IH (Binary L op (Operand rhs))) as [H1 H2]. simpl in *. rewrite H1, H2.
    by rewrite <- !app_assoc.
Qed.

(** The precedences of the two sides of a node that respects them. *)
Lemma takes_precedence_spec o p :
  takes_precedence o p = true <->
  precedence o < precedence p \/ (precedence o = precedence p /\ is_left_associative_binary o = false).
Proof.
  unfold takes_precedence. destruct (Nat.ltb_spec (precedence p) (precedence o)) as [?|?]; [split; [done|lia]|].
  destruct (Nat.eqb_spec (precedence o) (precedence p)) as [He|?]; [|split; [lia|done]].
  rewrite negb_true_iff. split; [by right|]. intros [?|[_ ?]]; [lia|done].
Qed.

Lemma not_takes_precedence o p : takes_precedence o p = false -> precedence p <= precedence o.
Proof.
  intros H. destruct (decide (precedence o < precedence p)); [|lia].
  assert (takes_precedence o p = true) by (apply takes_precedence_spec; lia). congruence.
Qed.

Lemma takes_precedence_le o p : takes_precedence o p = true -> precedence o <= precedence p.
Proof. rewrite takes_precedence_spec. lia. Qed.

Lemma takes_precedence_mono o p q :
  takes_precedence o p = true -> precedence p <= precedence q -> takes_precedence o q = true.
Proof.
  rewrite !takes_precedence_spec. intros [?|[? ?]] ?; [left; lia|].
  destruct (decide (precedence o = precedence q)); [by right|left; lia].
Qed.

(** The head of a tree that respects precedence binds loosest. *)
Lemma respects_top t op : respects t -> top t = Some op ->
  Forall (fun p => precedence op <= precedence p) (operators_of t).
Proof.
  revert op. induction t as [e|l IHl o r IHr]; intros op; simpl; [done|].
  intros (Hl & Hr & Hlo & Hro) [= <-]. apply Forall_app. split; [|apply Forall_cons; split; [done|]].
  - destruct l as [|l1 p l2]; [apply Forall_nil_2|]. specialize (Hlo p eq_refl).
    apply not_takes_precedence in Hlo. eapply Forall_impl; [by apply (IHl p)|]. intros ?; cbv beta; lia.
  - destruct r as [|r1 q r2]; [apply Forall_nil_2|]. specialize (Hro q eq_refl).
    apply takes_precedence_le in Hro. eapply Forall_impl; [by apply (IHr q)|]. intros ?; cbv beta; lia.
Qed.

Lemma fold_tree_top L rest p :
  top (fold_tree L rest) = Some p -> (rest = [] /\ top L = Some p) \/ p ∈ rest.*1.
Proof.
  revert L. induction rest as [|[op rhs] rest IH]; intros L; [by left|].
  destruct rest as [|[next e] rest]; [simpl; intros [= ->]; right; by left|].
  cbn [fold_tree]. destruct (takes_precedence op next).
  - intros [= ->]. right. by left.
  - intros Ht. apply IH in Ht as [[? _]|Ht]; [done|]. right. by right.
Qed.

Lemma fold_tree_respects L rest :
  respects L ->
  (forall p o e rest', top L = Some p -> rest = (o, e) :: rest' -> takes_precedence p o = false) ->
  never_drops rest.*1 -> respects (fold_tree L rest).
Proof.
  revert L. induction rest as [|[op rhs] rest IH]; intros L HL Htop Hnd; [done|].
  assert (HB : respects (Binary L op (Operand rhs))).
  { split_and!; [done|done|intros p Hp; by eapply Htop|done]. }
  destruct rest as [|[next e] rest]; [done|]. destruct Hnd as [Hdrop Hnd].
  cbn [fold_tree]. destruct (takes_precedence op next) eqn:Ht.
  - split_and!; [done|by apply IH|intros p Hp; by eapply Htop|].
    intros q Hq. destruct (fold_tree_top (Operand rhs) ((next, e) :: rest) q Hq) as [[? _]|Hin]; [done|].
    specialize (Hdrop Ht). rewrite Forall_forall in Hdrop. by apply Hdrop.
  - apply IH; [done| |done]. intros p o e' rest' [= <-] [= -> -> ->]. done.
Qed.

Lemma respects_fold_tree L rest : respects (fold_tree L rest) -> never_drops rest.*1.
Proof.
  revert L. induction rest as [|[op rhs] rest IH]; intros L HL; [done|].
  destruct rest as [|[next e] rest]; [done|]. cbn [fold_tree] in HL. split.
  - intros Ht. cbn in Ht. rewrite Ht in HL. destruct HL as (_ & Hr & _ & Hro).
    destruct (fold_tree_inorder (Operand rhs) ((next, e) :: rest)) as [_ Hops]. simpl operators_of in Hops at 2.
    destruct (top (fold_tree (Operand rhs) ((next, e) :: rest))) as [q|] eqn:Hq.
    + pose proof (respects_top (fold_tree (Operand rhs) ((next, e) :: rest)) q Hr Hq) as Hall. rewrite Hops in Hall. specialize (Hro q Hq).
      eapply Forall_impl; [exact Hall|]. intros p. by apply takes_precedence_mono.
    + destruct (fold_tree (Operand rhs) ((next, e) :: rest)); [done|done].
  - destruct (takes_precedence op next); [destruct HL as (_ & Hr & _)|]; by eapply IH.
Qed.

Lemma fold_binary_expr_answers display operands operators :
  operands <> [] -> exists e, fold_binary_expr display operands operators = Some e.
Proof.
  destruct operands as [|lhs operands]; [done|]. intros _. unfold fold_binary_expr.
  set (parts := zip operators operands). eexists.
  pose proof (fold_from_tree display parts (S (length parts)) (Operand lhs) parts 0 eq_refl ltac:(lia)) as Hf.
  simpl to_expr in Hf. by rewrite Hf.
Qed.

(** ** The grammar and the precedence table *)

Definition level_of (op : Token) : nat := default 0 (op_level op).

Lemma precedence_level op : is_Some (op_level op) -> precedence op = level_of op.
Proof. intros [n Hn]. unfold level_of. by destruct op. Qed.

Lemma associativity_level op : is_Some (op_level op) ->
  is_left_associative_binary op = false <-> level_of op = 0 \/ level_of op = 3.
Proof. intros [n Hn]. unfold level_of. destruct op; simpl in *; simplify_eq; split; (done || lia || tauto). Qed.

Lemma takes_precedence_gives_way o p : is_Some (op_level o) -> is_Some (op_level p) ->
  takes_precedence o p = true <-> gives_way o p.
Proof.
  intros Ho Hp. rewrite takes_precedence_spec, !precedence_level, associativity_level by done.
  unfold gives_way, level_of. destruct Ho as [a ->], Hp as [b ->]. simpl. split.
  - intros Hab. exists a, b. split_and!; [done|done|tauto].
  - intros (? & ? & [= <-] & [= <-] & ?). tauto.
Qed.

Lemma parses_le n m t : n <= m -> parses m t -> parses n t.
Proof. intros Hle. induction Hle; [done|]. intros Ht. by apply IHHle, parses_tighter. Qed.

(** One rule for all operators. *)
Definition left_level (op : Token) : nat :=
  if is_left_associative_binary op then level_of op else S (level_of op).
Definition right_level (op : Token) : nat :=
  if is_left_associative_binary op then S (level_of op) else level_of op.

Lemma parses_binary l op r : is_Some (op_level op) ->
  parses (left_level op) l -> parses (right_level op) r -> parses (level_of op) (Binary l op r).
Proof. intros [n Hn]. destruct op; try done; by constructor. Qed.

Lemma parses_binary_inv n l op r : parses n (Binary l op r) ->
  is_Some (op_level op) /\ n <= level_of op /\ parses (left_level op) l /\ parses (right_level op) r.
Proof.
  remember (Binary l op r) as t eqn:Ht. intros H. revert l op r Ht.
  induction H as [|n t Ht IH| | | |l op r Ho Hl _ Hr _|l op r Ho Hl _ Hr _|l op r Ho Hl _ Hr _]; intros l' op' r' [=];
    subst; try (by split_and!; [eexists|apply Nat.le_refl|..]).
  - destruct (IH _ _ _ eq_refl) as (?&?&?&?). split_and!; [done|lia|done|done].
  - destruct op'; try done; by split_and!; [eexists|apply Nat.le_refl|..].
  - destruct op'; try done; by split_and!; [eexists|apply Nat.le_refl|..].
  - destruct op'; try done; by split_and!; [eexists|apply Nat.le_refl|..].
Qed.

Lemma gives_way_right_level o p : is_Some (op_level o) -> is_Some (op_level p) ->
  takes_precedence o p = true <-> right_level o <= level_of p.
Proof.
  intros Ho Hp. rewrite takes_precedence_spec, !precedence_level by done. unfold right_level.
  destruct (is_left_associative_binary o); [split; [intros [?|[??]]; [lia|done]|lia]|].
  split; [lia|]. intros Hle. apply Nat.lt_eq_cases in Hle as [|]; tauto.
Qed.

Lemma keeps_left_level p o : is_Some (op_level p) -> is_Some (op_level o) ->
  takes_precedence p o = false <-> left_level o <= level_of p.
Proof.
  intros Hp Ho. rewrite <- not_true_iff_false, takes_precedence_gives_way by done.
  unfold gives_way, left_level, level_of. destruct Hp as [a Ha], Ho as [b Hb]. rewrite Ha, Hb. simpl.
  pose proof (associativity_level o (ex_intro _ b Hb)) as Hb'. unfold level_of in Hb'. rewrite Hb in Hb'.
  simpl in Hb'. split.
  - intros Hn. destruct (decide (a < b)); [destruct Hn; exists a, b; tauto|].
    destruct (is_left_associative_binary o); [lia|]. destruct (decide (a = b)) as [->|]; [|lia].
    destruct Hn. exists b, b. tauto.
  - intros Hle (a' & b' & [= <-] & [= <-] & [Hlt|[-> Hr]]); [destruct (is_left_associative_binary o); lia|].
    rewrite (proj2 Hb' Hr) in Hle. lia.
Qed.

Lemma parses_iff n t : Forall (fun op => is_Some (op_level op)) (operators_of t) ->
  parses n t <-> respects t /\ (forall op, top t = Some op -> n <= level_of op).
Proof.
  revert n. induction t as [e|l IHl op r IHr]; intros n Hops; [split; [done|constructor]|].
  simpl in Hops. apply Forall_app in Hops as [Hopl Hops]. apply Forall_cons in Hops as [Hop Hopr].
  specialize (IHl (left_level op) Hopl). specialize (IHr (right_level op) Hopr).
  assert (Htop : forall t p, Forall (fun op => is_Some (op_level op)) (operators_of t) -> top t = Some p ->
    is_Some (op_level p)).
  { intros t p Ht. destruct t as [|l' q r']; [done|]. intros [= <-]. simpl in Ht. decompose_Forall. done. }
  assert (Hl : parses (left_level op) l <->
    respects l /\ (forall p, top l = Some p -> takes_precedence p op = false)).
  { rewrite IHl. split; intros [Hr Ht]; (split; [done|]); intros p Hp; specialize (Ht p Hp);
      apply keeps_left_level; eauto. }
  assert (Hr : parses (right_level op) r <->
    respects r /\ (forall q, top r = Some q -> takes_precedence op q = true)).
  { rewrite IHr. split; intros [Hr Ht]; (split; [done|]); intros p Hp; specialize (Ht p Hp);
      apply gives_way_right_level; eauto. }
  simpl. split.
  - intros Hp. apply parses_binary_inv in Hp as (_ & Hn & H1 & H2). apply Hl in H1. apply Hr in H2.
    split; [tauto|]. by intros ? [= <-].
  - intros [Hresp Hn]. apply (parses_le _ _ _ (Hn op eq_refl)). apply parses_binary; tauto.
Qed.

Lemma never_drops_spec operators : Forall (fun op => is_Some (op_level op)) operators ->
  never_drops operators <->
  (forall i j o n p, operators !! i = Some o -> operators !! S i = Some n -> i < j -> operators !! j = Some p ->
     gives_way o n -> gives_way o p).
Proof.
  induction operators as [|o ops IH]; intros Hops; [split; [intros _ i j o n p Hi; by rewrite lookup_nil in Hi|done]|].
  apply Forall_cons in Hops as [Ho Hops]. destruct ops as [|n ops].
  { split; [|done]. intros _ i j a b c _ Hi. by destruct i. }
  cbn [never_drops]. rewrite IH by done. assert (Hn : is_Some (op_level n)) by (by inversion Hops).
  rewrite (takes_precedence_gives_way o n) by done. split.
  - intros [Hd Hrest] [|i] [|j] a b c Ha Hb Hij Hc; [lia| |lia|].
    + injection Ha as <-. injection Hb as <-. intros Hw. specialize (Hd Hw). change ((n :: ops) !! j = Some c) in Hc.
      rewrite Forall_lookup in Hd, Hops.
      apply takes_precedence_gives_way; eauto.
    + apply (Hrest i j); try done. lia.
  - intros H. split.
    + intros Hw. apply Forall_lookup. intros j p Hp. rewrite Forall_lookup in Hops.
      apply takes_precedence_gives_way; [done|eauto|]. apply (H 0 (S j) o n p); try done. lia.
    + intros i j a b c Ha Hb Hij Hc. apply (H (S i) (S j)); try done. lia.
Qed.

Lemma spells_to_expr display t : Forall (fun op => is_Some (op_level op)) (operators_of t) ->
  spells t (to_expr display t).
Proof.
  induction t as [e|l IHl op r IHr]; intros Hops; simpl in *; [constructor|].
  apply Forall_app in Hops as [? Hops]. apply Forall_cons in Hops as [[n Hn] ?].
  destruct op; try done; (apply spells_binary; [by apply IHl|by apply IHr|reflexivity]).
Qed.

(** * Properties *)

(** C35. [fold_binary_expr] answers on every sequence of binary operators between
    operands: its answer spells out a tree with the same operands and operators in the same
    order, and this tree is the parse of the stratified grammar ([parses], which is
    stated by itself: [::] loosest, then [||], [&&], the comparisons, sums and
    products, with [::] and the comparisons associating to the right) if and only if
    an operator that gives way to the next one gives way to all later ones. Without
    that condition it is another tree, see [fold_binary_expr_misparses]. *)
Theorem fold_binary_expr_spec display operands operators
    (Hlen : length operands = S (length operators))
    (Hops : Forall (fun op => is_Some (op_level op)) operators) :
  exists t e, fold_binary_expr display operands operators = Some e /\ spells t e /\
    operands_of t = operands /\ operators_of t = operators /\
    (parses 0 t <->
     forall i j o n p, operators !! i = Some o -> operators !! S i = Some n -> i < j -> operators !! j = Some p ->
       gives_way o n -> gives_way o p).
Proof.
  destruct operands as [|lhs operands]; [done|]. simpl in Hlen. injection Hlen as Hlen.
  set (parts := zip operators operands).
  assert (Hfst : parts.*1 = operators) by (apply fst_zip; lia).
  assert (Hrands : parts.*2 = operands) by (apply snd_zip; lia).
  destruct (fold_tree_inorder (Operand lhs) parts) as [H1 H2]. rewrite Hrands in H1. rewrite Hfst in H2.
  simpl in H1, H2. exists (fold_tree (Operand lhs) parts), (to_expr display (fold_tree (Operand lhs) parts)).
  split_and!; [|apply spells_to_expr; by rewrite H2|done|done|].
  - unfold fold_binary_expr. fold parts.
    pose proof (fold_from_tree display parts (S (length parts)) (Operand lhs) parts 0 eq_refl ltac:(lia)) as Hf.
    simpl to_expr in Hf. by rewrite Hf.
  - rewrite <- never_drops_spec by done. rewrite parses_iff by (by rewrite H2). rewrite <- Hfst. split.
    + intros [Hr _]. by eapply respects_fold_tree.
    + intros Hnd. split; [by apply fold_tree_respects|lia].
Qed.

Definition demo_operand (n : Z) : Expr := XUint Span_default n.

Lemma fold_binary_expr_spec_witness :
  exists t e, fold_binary_expr (fun _ => "") [demo_operand 1; demo_operand 2; demo_operand 3]
              [TokAdd Span_default; TokMul Span_default] = Some e /\ spells t e /\
    operands_of t = [demo_operand 1; demo_operand 2; demo_operand 3] /\
    operators_of t = [TokAdd Span_default; TokMul Span_default] /\
    (parses 0 t <->
     forall i j o n p, [TokAdd Span_default; TokMul Span_default] !! i = Some o ->
       [TokAdd Span_default; TokMul Span_default] !! S i = Some n -> i < j ->
       [TokAdd Span_default; TokMul Span_default] !! j = Some p -> gives_way o n -> gives_way o p).
Proof.
  refine (fold_binary_expr_spec (fun _ => "") [demo_operand 1; demo_operand 2; demo_operand 3]
           [TokAdd Span_default; TokMul Span_default] eq_refl _).
  repeat constructor; by eexists.
Defined.

(** After a rise and a drop the tree is the wrong one: [1 - 2 * 3 - 4] is read
    as [1 - ((2 * 3) - 4)], although [-] associates to the left, so that the tree
    of the precedence table is [(1 - (2 * 3)) - 4], a different expression; and
    [1 == 2 + 3 && 4] is read as [1 == ((2 + 3) && 4)]. *)
Theorem fold_binary_expr_misparses (display : Token -> string) :
  let leaf n := Operand (demo_operand n) in
  let sub := TokSub Span_default in
  let mul := TokMul Span_default in
  let wrong := Binary (leaf 1%Z) sub (Binary (Binary (leaf 2%Z) mul (leaf 3%Z)) sub (leaf 4%Z)) in
  let right := Binary (Binary (leaf 1%Z) sub (Binary (leaf 2%Z) mul (leaf 3%Z))) sub (leaf 4%Z) in
  fold_binary_expr display (map demo_operand [1; 2; 3; 4]%Z) [sub; mul; sub] = Some (to_expr display wrong) /\
  operands_of wrong = operands_of right /\ operators_of wrong = operators_of right /\
  parses 0 right /\ ~ parses 0 wrong /\ to_expr display wrong <> to_expr display right /\
  let eq := TokEq Span_default in
  let add := TokAdd Span_default in
  let conj := TokAnd Span_default in
  fold_binary_expr display (map demo_operand [1; 2; 3; 4]%Z) [eq; add; conj] =
    Some (to_expr display (Binary (leaf 1%Z) eq (Binary (Binary (leaf 2%Z) add (leaf 3%Z)) conj (leaf 4%Z)))) /\
  ~ gives_way eq conj.
Proof.
  intros leaf sub mul wrong right. split_and!; try reflexivity.
  - apply parses_iff; [subst right; repeat (apply Forall_cons_2; [by eexists|]); apply Forall_nil_2|].
    simpl. split_and!; try done; intros ? [= <-]; (reflexivity || apply Nat.le_0_l).
  - intros Hp. apply parses_iff in Hp as [(_ & _ & _ & H) _];
      [|subst wrong; repeat (apply Forall_cons_2; [by eexists|]); apply Forall_nil_2].
    specialize (H sub eq_refl). discriminate.
  - discriminate.
  - split; [reflexivity|]. intros (a & b & [= <-] & [= <-] & [?|[? _]]); lia.
Qed.
