(* ===== verification/AstBuilder.v ===== *)
(** From parse trees to syntax trees: [rex-parser/src/ast_builder.rs]. The methods
    that call each other in a circle go through [type_fun], [pattern] and [expr];
    their bodies take these as parameters, and the loops are tied with fuel, one
    unit per nested type, pattern or expression. *)

From S2P Require Import Prelude Span Types Syntax Token Peg Grammar GrammarTerm RexGrammar.
From S2P Require Import Ast Operators BTree.

(** * The builder's state and its errors *)

Record ParseError : Type := mkParseError { error_span : Span; message : string }.

Record AstBuilder : Type := mkAstBuilder {
  expr_depth : nat;
  type_depth : nat;
  pattern_depth : nat;
  errors : list ParseError }.

Definition AstBuilder_new : AstBuilder := mkAstBuilder 0 0 0 [].

Definition MAX_AST_DEPTH : nat := 256.

(** How a method ends without a value: an error, or no answer of the model (the
    fuel is used up, or a [remove] on an empty vector, which panics). *)
Inductive stop : Type :=
  | Stop (e : ParseError)
  | NoAnswer.

Definition Build A : Type := AstBuilder -> result stop A * AstBuilder.

Definition bret {A} (a : A) : Build A := fun b => (Ok a, b).
Definition bfail {A} (span : Span) (message : string) : Build A := fun b =>
  (Err (Stop (mkParseError span message)), b).
Definition blift {A} (r : result ParseError A) : Build A := fun b =>
  (match r with Ok a => Ok a | Err e => Err (Stop e) end, b).
Definition bthen {A B} (m : Build A) (k : A -> Build B) : Build B := fun b =>
  match m b with
  | (Ok a, b) => k a b
  | (Err e, b) => (Err e, b)
  end.
Definition no_answer {A} : Build A := fun b => (Err NoAnswer, b).
Definition update (f : AstBuilder -> AstBuilder) : Build unit := fun b => (Ok tt, f b).

Notation "'let^' x ':=' m 'in' k" := (bthen m (fun x => k))
  (at level 200, x pattern, m at level 100, k at level 200, right associativity).

Fixpoint mapM_build {A B} (f : A -> Build B) (l : list A) : Build (list B) :=
  match l with
  | [] => bret []
  | x :: l => let^ y := f x in let^ ys := mapM_build f l in bret (y :: ys)
  end.

(** [Option::map] of a method, then [transpose]. *)
Definition opt_build {A B} (f : A -> Build B) (o : option A) : Build (option B) :=
  match o with
  | None => bret None
  | Some x => let^ y := f x in bret (Some y)
  end.

Definition internal_err {A} (span : Span) (message : string) : Build A :=
  bfail span ("internal parser error: " +:+ message).

(** * Looking into a node *)

(** [CstNode] as a record; [children_nodes] are the children that are nodes. *)
Record TreeNode : Type := mkTreeNode {
  node_rule : RexRule; node_span_ : Span; node_children : list (Cst RexRule Token) }.

Definition as_node (rule : RexRule) (c : Cst RexRule Token) : option TreeNode :=
  match c with
  | CstNode r span children => if decide (r = rule) then Some (mkTreeNode r span children) else None
  | CstToken _ => None
  end.

Definition child_rules (node : TreeNode) (rule : RexRule) : list TreeNode :=
  omap (as_node rule) (node_children node).

Definition first_rule (node : TreeNode) (rule : RexRule) : option TreeNode := head (child_rules node rule).

Definition only_rule (node : TreeNode) (rule : RexRule) : option TreeNode :=
  match child_rules node rule with [first] => Some first | _ => None end.

Definition expect_rule (node : TreeNode) (rule : RexRule) : Build TreeNode :=
  match first_rule node rule with
  | Some n => bret n
  | None => internal_err (node_span_ node) "expected grammar node"
  end.

Definition as_token (c : Cst RexRule Token) : option Token :=
  match c with CstToken t => Some t | CstNode _ _ _ => None end.

Definition direct_tokens (node : TreeNode) (kind : TokenKind) : list Token :=
  filter (fun t => matches kind t = true) (omap as_token (node_children node)).

Definition first_token (node : TreeNode) : option Token := head (omap as_token (node_children node)).

Definition expect_token (node : TreeNode) (kind : TokenKind) : Build Token :=
  match head (direct_tokens node kind) with
  | Some t => bret t
  | None => internal_err (node_span_ node) "expected token"
  end.

Definition next_token_after (node : TreeNode) (index : nat) : option Token :=
  head (omap as_token (drop (index + 1) (node_children node))).

Definition ident_text (t : Token) : Build string :=
  match t with
  | TokIdent name _ => bret name
  | _ => bfail (token_span t) "expected identifier"
  end.

Definition expect_binary_operator (node : TreeNode) : Build Token :=
  match first_token node with
  | Some t =>
      if matches KBinaryOperator t then bret t else bfail (node_span_ node) "expected binary operator"
  | None => bfail (node_span_ node) "expected binary operator"
  end.

(** [expect_token] of an identifier, then its [ident_text]. *)
Definition expect_ident (node : TreeNode) : Build string :=
  let^ t := expect_token node KIdent in ident_text t.

(** The same, as a variable at the identifier. *)
Definition expect_var (node : TreeNode) : Build Var :=
  let^ t := expect_token node KIdent in
  let^ name := ident_text t in
  bret (mkVar (token_span t) name).

(** * Depth *)

Definition depth_error {A} (span : Span) : Build A :=
  bfail span ("maximum AST depth exceeded (max " +:+ pretty MAX_AST_DEPTH +:+ ")").

Definition check_expr_depth (span : Span) : Build unit := fun b =>
  if MAX_AST_DEPTH <=? expr_depth b then depth_error span b else bret tt b.
Definition check_type_depth (span : Span) : Build unit := fun b =>
  if MAX_AST_DEPTH <=? type_depth b then depth_error span b else bret tt b.
Definition check_pattern_depth (span : Span) : Build unit := fun b =>
  if MAX_AST_DEPTH <=? pattern_depth b then depth_error span b else bret tt b.

Definition with_expr_depth (f : nat -> nat) : Build unit :=
  update (fun b => mkAstBuilder (f (expr_depth b)) (type_depth b) (pattern_depth b) (errors b)).
Definition with_type_depth (f : nat -> nat) : Build unit :=
  update (fun b => mkAstBuilder (expr_depth b) (f (type_depth b)) (pattern_depth b) (errors b)).
Definition with_pattern_depth (f : nat -> nat) : Build unit :=
  update (fun b => mkAstBuilder (expr_depth b) (type_depth b) (f (pattern_depth b)) (errors b)).
Definition push_error (e : ParseError) : Build unit :=
  update (fun b => mkAstBuilder (expr_depth b) (type_depth b) (pattern_depth b) (errors b ++ [e])).

(** * Names *)

Definition name_ref (node : TreeNode) : Build NameRef :=
  let^ names := mapM_build ident_text (direct_tokens node KIdent) in
  match names with
  | [] => bfail (node_span_ node) "expected identifier"
  | _ => bret (from_segments names)
  end.

Definition value_name (node : TreeNode) : Build Symbol :=
  match first_token node with
  | None => bfail (node_span_ node) "expected name"
  | Some t =>
      match t with
      | TokIdent name _ => bret name
      | _ =>
          match operator_token_name t with
          | Some name => bret name
          | None => bfail (token_span t) "expected name"
          end
      end
  end.

Definition generic_params_opt (node : TreeNode) : Build (list Symbol) :=
  match first_rule node R.GenericParams with
  | None => bret []
  | Some params => mapM_build ident_text (direct_tokens params KIdent)
  end.

(** * Types *)

Section types.
Context (type_fun : TreeNode -> Build TypeExpr).

Definition type_expr (node : TreeNode) : Build TypeExpr :=
  let^ n := expect_rule node R.TypeFun in type_fun n.

Definition type_field (field : TreeNode) : Build (Symbol * TypeExpr * option string) :=
  let^ name := expect_ident field in
  let^ n := expect_rule field R.TypeExpr in
  let^ typ := type_expr n in
  bret (name, typ, None).

Definition type_record (node : TreeNode) : Build TypeExpr :=
  let^ fields := mapM_build type_field (child_rules node R.TypeField) in
  bret (TyRecord (node_span_ node) fields).

Definition type_paren (node : TreeNode) : Build TypeExpr :=
  match first_rule node R.UnitType with
  | Some _ => bret (TyTuple (node_span_ node) [])
  | None =>
      match first_rule node R.TupleType with
      | Some tuple =>
          let^ elems := mapM_build type_expr (child_rules tuple R.TypeExpr) in
          bret (TyTuple (node_span_ tuple) elems)
      | None =>
          let^ grouped := expect_rule node R.GroupedType in
          let^ n := expect_rule grouped R.TypeExpr in
          type_expr n
      end
  end.

Definition type_atom (node : TreeNode) : Build TypeExpr :=
  match first_rule node R.NameRef with
  | Some name => let^ r := name_ref name in bret (TyName (node_span_ name) r)
  | None =>
      match first_rule node R.TypeParen with
      | Some paren => type_paren paren
      | None => let^ n := expect_rule node R.TypeRecord in type_record n
      end
  end.

Fixpoint type_apps (lhs : TypeExpr) (atoms : list TreeNode) : Build TypeExpr :=
  match atoms with
  | [] => bret lhs
  | atom :: atoms =>
      let^ rhs := type_atom atom in
      let span := from_begin_end (begin (TypeExpr_span lhs)) (end_ (TypeExpr_span rhs)) in
      type_apps (TyApp span lhs rhs) atoms
  end.

Definition type_app (node : TreeNode) : Build TypeExpr :=
  match child_rules node R.TypeAtom with
  | [] => bfail (node_span_ node) "expected type"
  | first :: atoms => let^ lhs := type_atom first in type_apps lhs atoms
  end.

Definition type_fun_body (node : TreeNode) : Build TypeExpr :=
  let^ _ := check_type_depth (node_span_ node) in
  let^ _ := with_type_depth S in
  let^ n := expect_rule node R.TypeApp in
  let^ lhs := type_app n in
  let^ result :=
    match first_rule node R.TypeFun with
    | Some rhs =>
        let^ rhs := type_fun rhs in
        bret (TyFun (from_begin_end (begin (TypeExpr_span lhs)) (end_ (TypeExpr_span rhs))) lhs rhs)
    | None => bret lhs
    end in
  let^ _ := with_type_depth pred in
  bret result.

Definition type_constraint (constraint : TreeNode) : Build TypeConstraint :=
  let^ n := expect_rule constraint R.NameRef in
  let^ class := name_ref n in
  let^ n := expect_rule constraint R.TypeApp in
  let^ typ := type_app n in
  bret (mkTypeConstraint class typ).

Definition type_constraints (node : TreeNode) : Build (list TypeConstraint) :=
  mapM_build type_constraint (child_rules node R.TypeConstraint).

Definition where_constraints (node : TreeNode) : Build (list TypeConstraint) :=
  let^ n := expect_rule node R.TypeConstraints in type_constraints n.

(** [first_rule(node, WhereConstraints).map(..).transpose()?.unwrap_or_default()]. *)
Definition where_constraints_opt (node : TreeNode) : Build (list TypeConstraint) :=
  let^ o := opt_build where_constraints (first_rule node R.WhereConstraints) in
  bret (default [] o).

(** [first_rule(node, TypeExpr).map(..).transpose()?]. *)
Definition type_annotation (node : TreeNode) : Build (option TypeExpr) :=
  opt_build type_expr (first_rule node R.TypeExpr).

Definition named_param (node : TreeNode) : Build (Var * TypeExpr) :=
  let^ v := expect_var node in
  let^ n := expect_rule node R.TypeApp in
  let^ ann := type_app n in
  bret (v, ann).

(** [paren_param] and [legacy_param], which have the same body. *)
Definition paren_param (node : TreeNode) : Build (Var * TypeExpr) :=
  let^ v := expect_var node in
  let^ n := expect_rule node R.TypeExpr in
  let^ ann := type_expr n in
  bret (v, ann).
Definition legacy_param (node : TreeNode) : Build (Var * TypeExpr) := paren_param node.

Definition arrow_param (param : TreeNode) : Build (Var * TypeExpr) :=
  match first_rule param R.ParenParam with
  | Some paren => paren_param paren
  | None => let^ n := expect_rule param R.NamedParam in named_param n
  end.

Definition fn_params (node : TreeNode) : Build (list (Var * TypeExpr)) :=
  match first_rule node R.LegacyParamGroup with
  | Some group => mapM_build legacy_param (child_rules group R.LegacyParam)
  | None => mapM_build arrow_param (child_rules node R.ArrowParam)
  end.

Definition type_variant (node : TreeNode) : Build TypeVariant :=
  let^ name := expect_ident node in
  let^ args := mapM_build (fun atom => let^ typ := type_atom atom in bret (mkTypeVariantArg typ None))
                 (child_rules node R.TypeAtom) in
  bret (mkTypeVariant name args None).

Definition type_decl (node : TreeNode) (is_pub : bool) : Build TypeDecl :=
  let^ name := expect_ident node in
  let^ params := mapM_build (fun param => let^ name := expect_ident param in bret (mkTypeParam name None))
                   (child_rules node R.TypeParam) in
  let^ kind :=
    match first_rule node R.TypeRecord with
    | Some record => let^ t := type_record record in bret (Alias t)
    | None =>
        let^ variants := mapM_build type_variant (child_rules node R.TypeVariant) in
        bret (Adt variants)
    end in
  bret (mkTypeDecl (node_span_ node) is_pub name params kind None).
End types.

Fixpoint type_fun (fuel : nat) (node : TreeNode) : Build TypeExpr :=
  match fuel with
  | 0 => no_answer
  | S fuel => type_fun_body (type_fun fuel) node
  end.

(** * Patterns *)

Section patterns.
(** [char::is_uppercase] of the first character of a name outside ASCII. *)
Context (wide_uppercase : string -> bool).

Definition is_uppercase_symbol (symbol : Symbol) : bool :=
  match symbol with
  | EmptyString => false
  | String c _ =>
      let code := Ascii.N_of_ascii c in
      if (128 <=? code)%N then wide_uppercase symbol else ((65 <=? code) && (code <=? 90))%N
  end.

Definition named_or_var_pattern (span : Span) (name : NameRef) (args : list Pattern) : Build Pattern :=
  if decide (to_dotted_symbol name = "_") then
    match args with
    | [] => bret (PWildcard span)
    | arg :: _ => bfail (Pattern_span arg) "constructor patterns must start with an identifier"
    end
  else
    let is_var :=
      match args, name with
      | [], Unqualified sym => negb (is_uppercase_symbol sym)
      | _, _ => false
      end in
    if (is_var : bool) then bret (PVar (mkVar span (to_dotted_symbol name)))
    else
      let end_position := match last args with Some arg => end_ (Pattern_span arg) | None => end_ span end in
      bret (PNamed (from_begin_end (begin span) end_position) name args).

Section rec.
Context (pattern : TreeNode -> Build Pattern).

Definition dict_pattern_field (node : TreeNode) : Build (Symbol * Pattern) :=
  let^ t := expect_token node KIdent in
  let^ name := ident_text t in
  let^ pat := opt_build pattern (first_rule node R.Pattern) in
  bret (name, default (PVar (mkVar (token_span t) name)) pat).

Definition paren_pattern (node : TreeNode) : Build Pattern :=
  match child_rules node R.Pattern with
  | [] => bret (PTuple (node_span_ node) [])
  | [only] => let^ p := pattern only in bret (Pattern_with_span p (node_span_ node))
  | many => let^ items := mapM_build pattern many in bret (PTuple (node_span_ node) items)
  end.

Definition pattern_atom (node : TreeNode) : Build Pattern :=
  let compound :=
    match first_rule node R.ListPattern with
    | Some l =>
        let^ elems := mapM_build pattern (child_rules l R.Pattern) in
        bret (PList (node_span_ l) elems)
    | None =>
        match first_rule node R.DictPattern with
        | Some dict =>
            let^ fields := mapM_build dict_pattern_field (child_rules dict R.DictPatternField) in
            bret (PDict (node_span_ dict) fields)
        | None => let^ n := expect_rule node R.ParenPattern in paren_pattern n
        end
    end in
  match first_token node with
  | Some (TokIdent name span) => named_or_var_pattern span (Unqualified name) []
  | _ => compound
  end.

Definition app_pattern (node : TreeNode) : Build Pattern :=
  match first_rule node R.NameRef with
  | Some name_node =>
      let^ name := name_ref name_node in
      let^ args := mapM_build pattern_atom (child_rules node R.PatternAtom) in
      named_or_var_pattern (node_span_ name_node) name args
  | None => let^ n := expect_rule node R.PatternAtom in pattern_atom n
  end.

Definition pattern_body (node : TreeNode) : Build Pattern :=
  let^ _ := check_pattern_depth (node_span_ node) in
  let^ _ := with_pattern_depth S in
  let^ n := expect_rule node R.AppPattern in
  let^ lhs := (fun b => match app_pattern n b with
                        | (Err NoAnswer, b) => (Err NoAnswer, b)
                        | (Err (Stop e), b) => (Ok (Err e), b)
                        | (Ok p, b) => (Ok (Ok p), b)
                        end : result stop (result ParseError Pattern) * AstBuilder) in
  let^ result :=
    match lhs with
    | Ok lhs =>
        match first_rule node R.Pattern with
        | Some rhs =>
            let^ rhs := pattern rhs in
            bret (Ok (PCons (from_begin_end (begin (Pattern_span lhs)) (end_ (Pattern_span rhs))) lhs rhs))
        | None => bret (Ok lhs)
        end
    | Err err => bret (Err err)
    end in
  let^ _ := with_pattern_depth pred in
  blift result.
End rec.

Fixpoint pattern (fuel : nat) (node : TreeNode) : Build Pattern :=
  match fuel with
  | 0 => no_answer
  | S fuel => pattern_body (pattern fuel) node
  end.
End patterns.

Definition pattern_binding_var (pat : Pattern) : option Var :=
  match pat with
  | PVar v => Some v
  | PNamed span (Unqualified name) [] => Some (mkVar span name)
  | _ => None
  end.

(** * Expressions *)

(** ** A group in tail position

    [f a (g b (..))] is walked down without recursion. *)

Inductive GroupedApplicationStep : Type :=
  | StepSpan (span : Span)
  | StepApply (terms : list TreeNode) (span : Span).

Definition grouped_expr_tail (node : TreeNode) : option TreeNode :=
  match first_rule node R.FieldName with
  | Some _ => None
  | None =>
      match only_rule node R.AtomExpr with
      | None => None
      | Some atom =>
          match only_rule atom R.ParenExpr with
          | None => None
          | Some paren =>
              match only_rule paren R.GroupedExpr with
              | None => None
              | Some grouped => only_rule grouped R.Expr
              end
          end
      end
  end.

Definition grouped_tail_application (node : TreeNode) : option (list TreeNode * TreeNode) :=
  match first_rule node R.BinaryOp with
  | Some _ => None
  | None =>
      match only_rule node R.UnaryExpr with
      | None => None
      | Some unary =>
          match first_rule unary R.TypeExpr with
          | Some _ => None
          | None =>
              match only_rule unary R.ApplicationExpr with
              | None => None
              | Some application =>
                  let terms := child_rules application R.PostfixExpr in
                  match last terms with
                  | None => None
                  | Some t =>
                      match grouped_expr_tail t with
                      | None => None
                      | Some tail => Some (take (length terms - 1) terms, tail)
                      end
                  end
              end
          end
      end
  end.

(** The loop of [try_grouped_tail_application_expr]: the depth check bounds it. The
    steps come innermost first, the order in which they are applied. *)
Fixpoint peel_grouped (fuel : nat) (current : TreeNode) (peeled : nat) (steps : list GroupedApplicationStep)
  : Build (TreeNode * nat * list GroupedApplicationStep) := fun b =>
  match fuel with
  | 0 => no_answer b
  | S fuel =>
      match grouped_tail_application current with
      | None => bret (current, peeled, steps) b
      | Some (prefix, tail) =>
          let peeled := peeled + 1 in
          if MAX_AST_DEPTH <? expr_depth b + peeled then depth_error (node_span_ current) b
          else
            let step := match prefix with
                        | [] => StepSpan (node_span_ current)
                        | _ => StepApply prefix (node_span_ current)
                        end in
            peel_grouped fuel tail peeled (step :: steps) b
      end
  end.

(** ** Signatures *)

(** [flatten_signature_fn], first loop: parameter types and result. *)
Fixpoint split_arrows (sig : TypeExpr) : list TypeExpr * TypeExpr :=
  match sig with
  | TyFun _ arg ret => let '(args, ret) := split_arrows ret in (arg :: args, ret)
  | other => ([], other)
  end.

(** Its second loop, down the lambdas of the body. *)
Fixpoint split_lambdas (e : Expr) : list Var * list TypeConstraint * Expr :=
  match e with
  | XLam _ _ param _ constraints next =>
      let '(params, cs, body) := split_lambdas next in (param :: params, constraints ++ cs, body)
  | other => ([], [], other)
  end.

Definition arg_name (i : nat) : string := "_arg" +:+ pretty i.

Record SignatureFnParts : Type := mkSignatureFnParts {
  sig_params : list (Var * TypeExpr); sig_ret : TypeExpr; sig_body : Expr;
  sig_constraints : list TypeConstraint }.

Fixpoint apply_vars (applied : Expr) (vars : list Var) : Expr :=
  match vars with
  | [] => applied
  | v :: vars =>
      apply_vars (XApp (from_begin_end (begin (Expr_span applied)) (end_ (Expr_span applied))) applied (XVar v))
        vars
  end.

Definition flatten_signature_fn (sig : TypeExpr) (body : Expr) : result ParseError SignatureFnParts :=
  let '(param_tys, ret) := split_arrows sig in
  match param_tys with
  | [] =>
      Err (mkParseError (TypeExpr_span ret) "expected function type after `:`; use `let` for values")
  | _ =>
      let arity := length param_tys in
      match body with
      | XLam _ _ _ _ _ _ =>
          let '(lam_params, body_constraints, cur) := split_lambdas body in
          if decide (length lam_params = arity) then
            Ok (mkSignatureFnParts (zip lam_params param_tys) ret cur body_constraints)
          else
            Err (mkParseError (Expr_span body)
                   ("lambda has " +:+ pretty (length lam_params) +:+
                    " parameter(s) but signature expects " +:+ pretty arity))
      | _ =>
          let vars := map (fun i => mkVar (Expr_span body) (arg_name i)) (seq 0 arity) in
          Ok (mkSignatureFnParts (zip vars param_tys) ret (apply_vars body vars) [])
      end
  end.

Definition flatten_decl_signature (sig : TypeExpr) : list (Var * TypeExpr) * TypeExpr :=
  let '(param_tys, ret) := split_arrows sig in
  (imap (fun i ann => (mkVar (TypeExpr_span ann) (arg_name i), ann)) param_tys, ret).

(** ** The methods *)

Section exprs.
Context (token_display : Token -> string) (wide_uppercase : string -> bool).
Context (type_fun : TreeNode -> Build TypeExpr) (pattern : TreeNode -> Build Pattern).

Definition is_constructor_reference (e : Expr) : bool :=
  match e with
  | XVar v => is_uppercase_symbol wide_uppercase (var_name v)
  | XProject _ _ field => is_uppercase_symbol wide_uppercase field
  | _ => false
  end.

(** [application_expr], first loop: a constructor takes the record after it. *)
Fixpoint group_records (terms : list Expr) : list Expr :=
  match terms with
  | term :: ((XDict _ _ as fields) :: terms') as rest =>
      if is_constructor_reference term then
        XApp (from_begin_end (begin (Expr_span term)) (end_ (Expr_span fields))) term fields
          :: group_records terms'
      else term :: group_records rest
  | term :: terms => term :: group_records terms
  | [] => []
  end.

(** Its second loop, also that of [apply_application_group]. *)
Fixpoint apply_terms (b : Position) (base : Expr) (terms : list Expr) : Expr :=
  match terms with
  | [] => base
  | term :: terms =>
      apply_terms b (XApp (from_begin_end b (end_ (Expr_span term))) base term) terms
  end.

Fixpoint wrap_lambdas (params_rev : list (Span * Var * option TypeExpr)) (constraints : list TypeConstraint)
    (body : Expr) : Expr :=
  match params_rev with
  | [] => body
  | (param_span, param, ann) :: params_rev =>
      let lam_constraints := match params_rev with [] => constraints | _ => [] end in
      wrap_lambdas params_rev constraints
        (XLam (from_begin_end (begin param_span) (end_ (Expr_span body))) [] param ann lam_constraints body)
  end.

(** [let_expr], the loop over the bindings from the last to the first. *)
Fixpoint wrap_lets (decls_rev : list (Pattern * list Symbol * option TypeExpr * Expr)) (body : Expr)
  : Build Expr :=
  match decls_rev with
  | [] => bret body
  | (pat, type_params, ann, def) :: decls_rev =>
      let body_span_end := end_ (Expr_span body) in
      match pat with
      | PVar v =>
          wrap_lets decls_rev
            (XLet (from_begin_end (begin (var_span v)) body_span_end) v type_params ann def body)
      | _ =>
          match type_params with
          | _ :: _ => bfail (Pattern_span pat) "type parameters require a named let binding"
          | [] =>
              let def_expr :=
                match ann with
                | Some ann =>
                    XAnn (from_begin_end (begin (Expr_span def)) (end_ (TypeExpr_span ann))) def ann
                | None => def
                end in
              wrap_lets decls_rev
                (XMatch (from_begin_end (begin (Pattern_span pat)) body_span_end) def_expr [(pat, body)])
          end
      end
  end.

Definition field_name (node : TreeNode) : Build (Symbol * Position) :=
  match first_token node with
  | None => internal_err (node_span_ node) "expected field"
  | Some t =>
      match t with
      | TokIdent name span => bret (name, end_ span)
      | TokInt value span => bret (pretty value, end_ span)
      | _ => bfail (token_span t) "expected field name after `.`"
      end
  end.

Definition lambda_param (node : TreeNode) : Build (Span * Var * option TypeExpr) :=
  let^ v := expect_var node in
  let^ ann := type_annotation type_fun node in
  bret (node_span_ node, v, ann).

Section rec.
Context (expr : TreeNode -> Build Expr).

(** [self.expr(expect_rule(node, Expr)?)?]. *)
Definition expect_expr (node : TreeNode) : Build Expr :=
  let^ n := expect_rule node R.Expr in expr n.

Definition list_expr (node : TreeNode) : Build Expr :=
  let^ items := mapM_build expr (child_rules node R.Expr) in
  bret (XList (node_span_ node) items).

Definition paren_expr (node : TreeNode) : Build Expr :=
  match first_rule node R.UnitExpr with
  | Some _ => bret (XTuple (node_span_ node) [])
  | None =>
      match first_rule node R.OperatorNameExpr with
      | Some operator =>
          match head (direct_tokens operator KValueOperator) with
          | None => internal_err (node_span_ operator) "expected parenthesized operator"
          | Some t =>
              match operator_token_name t with
              | None => internal_err (token_span t) "expected operator"
              | Some name => bret (XVar (mkVar (node_span_ operator) name))
              end
          end
      | None =>
          match first_rule node R.TupleExpr with
          | Some tuple =>
              let^ items := mapM_build expr (child_rules tuple R.Expr) in
              bret (XTuple (node_span_ tuple) items)
          | None =>
              let^ grouped := expect_rule node R.GroupedExpr in
              let^ e := expect_expr grouped in
              bret (Expr_with_span e (node_span_ grouped))
          end
      end
  end.

Fixpoint dict_items (node : TreeNode) (idx : nat) (children : list (Cst RexRule Token))
    (items : list (Symbol * Expr)) : Build (list (Symbol * Expr)) :=
  match children with
  | [] => bret items
  | child :: children =>
      match child with
      | CstNode R.DictItem span ch =>
          let item := mkTreeNode R.DictItem span ch in
          let^ key := expect_ident item in
          let^ value := expect_expr item in
          dict_items node (idx + 1) children (btree_insert key value items)
      | CstNode R.BadDictItem span _ =>
          let at_token := match next_token_after node idx with Some t => token_span t | None => span end in
          let^ _ := push_error (mkParseError at_token "expected `=`") in
          dict_items node (idx + 1) children items
      | _ => dict_items node (idx + 1) children items
      end
  end.

(** The entries of the [Expr::Dict] that [dict_expr] returns. *)
Definition dict_entries (node : TreeNode) : Build (list (Symbol * Expr)) :=
  dict_items node 0 (node_children node) [].
Definition dict_expr (node : TreeNode) : Build Expr :=
  let^ items := dict_entries node in bret (XDict (node_span_ node) items).

Definition record_update_expr (node : TreeNode) : Build Expr :=
  let^ base := expect_expr node in
  let^ n := expect_rule node R.DictExpr in
  let^ dict := dict_expr n in
  let updates := match dict with XDict _ updates => updates | _ => [] end in
  bret (XRecordUpdate (node_span_ node) base updates).

Definition brace_expr (node : TreeNode) : Build Expr :=
  match first_rule node R.DictExpr with
  | Some dict => dict_expr dict
  | None => let^ n := expect_rule node R.RecordUpdateExpr in record_update_expr n
  end.

Definition neg_expr (node : TreeNode) : Build Expr :=
  let^ op := expect_token node KSub in
  let^ e := expect_expr node in
  bret (XApp (node_span_ node) (XVar (mkVar (token_span op) "negate")) e).

Definition lambda_expr (node : TreeNode) : Build Expr :=
  let^ params := mapM_build lambda_param (child_rules node R.LambdaParam) in
  let^ constraints := where_constraints_opt type_fun node in
  match last (child_rules node R.Expr) with
  | None => internal_err (node_span_ node) "expected lambda body"
  | Some body_node =>
      let^ body := expr body_node in
      bret (Expr_with_span_begin (wrap_lambdas (rev params) constraints body) (begin (node_span_ node)))
  end.

Definition let_binding (node : TreeNode) : Build (Pattern * list Symbol * option TypeExpr * Expr) :=
  let^ n := expect_rule node R.Pattern in
  let^ pat := pattern n in
  let^ type_params := generic_params_opt node in
  let^ ann := type_annotation type_fun node in
  let pat := match ann, pattern_binding_var pat with Some _, Some v => PVar v | _, _ => pat end in
  let^ e := expect_expr node in
  bret (pat, type_params, ann, e).

Definition let_rec_binding (node : TreeNode) : Build (Var * list Symbol * option TypeExpr * Expr) :=
  let^ n := expect_rule node R.Pattern in
  let^ pat := pattern n in
  match pattern_binding_var pat with
  | None => bfail (Pattern_span pat) "let rec only supports variable bindings"
  | Some v =>
      let^ type_params := generic_params_opt node in
      let^ ann := type_annotation type_fun node in
      let^ e := expect_expr node in
      bret (v, type_params, ann, e)
  end.

Definition let_expr (node : TreeNode) : Build Expr :=
  match last (child_rules node R.Expr) with
  | None => internal_err (node_span_ node) "expected let body"
  | Some body_node =>
      let^ body := expr body_node in
      match direct_tokens node KRec with
      | _ :: _ =>
          let^ bindings := mapM_build let_rec_binding (child_rules node R.LetRecBinding) in
          bret (XLetRec (node_span_ node) bindings body)
      | [] =>
          let^ decls := mapM_build let_binding (child_rules node R.LetBinding) in
          let^ body := wrap_lets (rev decls) body in
          bret (Expr_with_span_begin body (begin (node_span_ node)))
      end
  end.

Definition if_expr (node : TreeNode) : Build Expr :=
  match child_rules node R.Expr with
  | [c; t; e] =>
      let^ cond := expr c in
      let^ then_expr := expr t in
      let^ else_expr := expr e in
      bret (XIte (node_span_ node) cond then_expr else_expr)
  | _ => internal_err (node_span_ node) "expected if expression parts"
  end.

Definition match_arm (arm : TreeNode) : Build (Pattern * Expr) :=
  let^ n := expect_rule arm R.Pattern in
  let^ pat := pattern n in
  let^ e := expect_expr arm in
  bret (pat, e).

Definition match_expr (node : TreeNode) : Build Expr :=
  let^ scrutinee := expect_expr node in
  let^ arms := mapM_build match_arm (child_rules node R.MatchArm) in
  bret (XMatch (node_span_ node) scrutinee arms).

(** The literal that is the atom's token, if it is one. *)
Definition literal_token (t : Token) : option Expr :=
  match t with
  | TokBool val span => Some (XBool span val)
  | TokChar val span => Some (XChar span val)
  | TokFloat val span => Some (XFloat span val)
  | TokInt val span => Some (XUint span val)
  | TokString val span => Some (XString span val)
  | _ => None
  end.

(** The chain of [if let Some(..) = first_rule(..)] of [atom_expr]. *)
Fixpoint first_of (node : TreeNode) (arms : list (RexRule * (TreeNode -> Build Expr)))
    (otherwise : Build Expr) : Build Expr :=
  match arms with
  | [] => otherwise
  | (rule, f) :: arms =>
      match first_rule node rule with
      | Some n => f n
      | None => first_of node arms otherwise
      end
  end.

Definition ident_expr (ident : TreeNode) : Build Expr :=
  let^ v := expect_var ident in bret (XVar v).

Definition atom_expr (node : TreeNode) : Build Expr :=
  match first_token node ≫= literal_token with
  | Some e => bret e
  | None =>
      first_of node
        [(R.ParenExpr, paren_expr); (R.ListExpr, list_expr); (R.BraceExpr, brace_expr);
         (R.HoleExpr, fun hole => bret (XHole (node_span_ hole))); (R.IdentExpr, ident_expr);
         (R.LambdaExpr, lambda_expr); (R.LetExpr, let_expr); (R.IfExpr, if_expr);
         (R.MatchExpr, match_expr)]
        (let^ n := expect_rule node R.NegExpr in neg_expr n)
  end.

Fixpoint projections (base : Expr) (fields : list TreeNode) : Build Expr :=
  match fields with
  | [] => bret base
  | field :: fields =>
      let^ (name, end_position) := field_name field in
      let span := from_begin_end (begin (Expr_span base)) end_position in
      projections (XProject span base name) fields
  end.

Definition postfix_expr (node : TreeNode) : Build Expr :=
  let^ n := expect_rule node R.AtomExpr in
  let^ base := atom_expr n in
  projections base (child_rules node R.FieldName).

Definition application_expr (node : TreeNode) : Build Expr :=
  let^ terms := mapM_build postfix_expr (child_rules node R.PostfixExpr) in
  match group_records terms with
  | [] => bfail (node_span_ node) "expected expression"
  | base :: terms => bret (apply_terms (begin (Expr_span base)) base terms)
  end.

Fixpoint annotations (e : Expr) (anns : list TreeNode) : Build Expr :=
  match anns with
  | [] => bret e
  | ann :: anns =>
      let^ ann := type_expr type_fun ann in
      let span := from_begin_end (begin (Expr_span e)) (end_ (TypeExpr_span ann)) in
      annotations (XAnn span e ann) anns
  end.

Definition unary_expr (node : TreeNode) : Build Expr :=
  let^ n := expect_rule node R.ApplicationExpr in
  let^ e := application_expr n in
  annotations e (child_rules node R.TypeExpr).

(** The terms are built one at a time, each before the next. *)
Definition apply_application_group (terms : list TreeNode) (tail : Expr) : Build Expr :=
  match terms with
  | [] => bret tail
  | first :: terms =>
      let^ base := postfix_expr first in
      let^ args := mapM_build postfix_expr terms in
      let b := begin (Expr_span base) in
      let base := apply_terms b base args in
      bret (XApp (from_begin_end b (end_ (Expr_span tail))) base tail)
  end.

Fixpoint apply_steps (steps : list GroupedApplicationStep) (e : Expr) : Build Expr :=
  match steps with
  | [] => bret e
  | StepSpan span :: steps => apply_steps steps (Expr_with_span e span)
  | StepApply terms span :: steps =>
      let^ e := apply_application_group terms e in
      apply_steps steps (Expr_with_span e span)
  end.

Definition try_grouped_tail_application_expr (node : TreeNode) : Build (option Expr) :=
  let^ (current, peeled, steps) := peel_grouped (MAX_AST_DEPTH + 2) node 0 [] in
  match peeled with
  | 0 => bret None
  | _ =>
      let^ e := expr current in
      let^ e := apply_steps steps e in
      bret (Some e)
  end.

(** The loop over the children of an expression. *)
Fixpoint expr_children (children : list (Cst RexRule Token)) (operands : list Expr) (operators : list Token)
  : Build (list Expr * list Token) :=
  match children with
  | [] => bret (operands, operators)
  | CstNode R.UnaryExpr span ch :: children =>
      let^ e := unary_expr (mkTreeNode R.UnaryExpr span ch) in
      expr_children children (operands ++ [e]) operators
  | CstNode R.BinaryOp span ch :: children =>
      let^ op := expect_binary_operator (mkTreeNode R.BinaryOp span ch) in
      expr_children children operands (operators ++ [op])
  | _ :: children => expr_children children operands operators
  end.

Definition expr_body (node : TreeNode) : Build Expr :=
  let^ _ := check_expr_depth (node_span_ node) in
  let^ _ := with_expr_depth S in
  let^ grouped := try_grouped_tail_application_expr node in
  match grouped with
  | Some e => let^ _ := with_expr_depth pred in bret e
  | None =>
      let^ (operands, operators) := expr_children (node_children node) [] [] in
      let result : Build Expr :=
        match operands with
        | [] => bfail (node_span_ node) "expected expression"
        | _ =>
            if MAX_AST_DEPTH <=? length operators then depth_error (node_span_ node)
            else match fold_binary_expr token_display operands operators with
                 | Some e => bret e
                 | None => no_answer
                 end
        end in
      let^ _ := with_expr_depth pred in
      result
  end.
End rec.
End exprs.

Section builder.
Context (token_display : Token -> string) (wide_uppercase : string -> bool).

(** Types and patterns are given their own fuel, as much as the node's tree is high;
    see [height]. *)
Fixpoint expr (depth fuel : nat) (node : TreeNode) : Build Expr :=
  match fuel with
  | 0 => no_answer
  | S fuel =>
      expr_body token_display wide_uppercase (type_fun depth) (pattern wide_uppercase depth)
        (expr depth fuel) node
  end.
End builder.

(** * Declarations *)

Section decls.
Context (type_fun : TreeNode -> Build TypeExpr) (expr : TreeNode -> Build Expr).

Definition import_path (node : TreeNode) : Build (ImportPath * option Symbol) :=
  match first_rule node R.DottedImportPath with
  | Some dotted =>
      let^ segments := mapM_build ident_text (direct_tokens dotted KIdent) in
      bret (mkImportPath segments, last segments)
  | None =>
      let^ relative := expect_rule node R.RelativeImportPath in
      let^ prefix := expect_rule relative R.RelativePrefix in
      let supers := omap (fun c => match c with CstToken (TokDotDot _) => Some "super" | _ => None end)
                      (node_children prefix) in
      let^ rest := mapM_build (fun c =>
          match c with
          | CstToken t =>
              if matches KIdent t then let^ name := ident_text t in bret (Some name) else bret None
          | CstNode R.ImportPathSegment span ch =>
              let^ name := expect_ident (mkTreeNode R.ImportPathSegment span ch) in bret (Some name)
          | _ => bret None
          end) (node_children relative) in
      let segments := supers ++ omap id rest in
      bret (mkImportPath segments, last segments)
  end.

Fixpoint import_items (item_nodes : list TreeNode) (local_names : gset Symbol) (items : list ImportItem)
  : Build (list ImportItem) :=
  match item_nodes with
  | [] => bret items
  | item_node :: item_nodes =>
      let^ n := expect_rule item_node R.ValueName in
      let^ name := value_name n in
      let^ alias := opt_build ident_text (last (direct_tokens item_node KIdent)) in
      let local_name := default name alias in
      if decide (local_name ∈ local_names) then
        bfail (node_span_ item_node) ("duplicate imported name `" +:+ local_name +:+ "`")
      else import_items item_nodes ({[local_name]} ∪ local_names) (items ++ [mkImportItem name alias])
  end.

Definition import_clause (node : TreeNode) : Build ImportClause :=
  match direct_tokens node KMul with
  | _ :: _ => bret ImportAll
  | [] =>
      let^ items := import_items (child_rules node R.ImportItem) ∅ [] in
      bret (ImportItems items)
  end.

Definition import_decl (node : TreeNode) (is_pub : bool) : Build ImportDecl :=
  let^ path_node := expect_rule node R.ImportPath in
  let^ (path, default_alias) := import_path path_node in
  let^ clause := opt_build import_clause (first_rule node R.ImportClause) in
  let^ alias :=
    match first_rule node R.ImportAlias with
    | Some alias_node =>
        match clause with
        | Some _ =>
            bfail (node_span_ alias_node) "cannot combine `as <alias>` with import clause `(...)`"
        | None => expect_ident alias_node
        end
    | None =>
        match default_alias, clause with
        | Some alias, _ => bret alias
        | None, Some _ => bret "_"
        | None, None => bfail (node_span_ node) "import requires `as <alias>`"
        end
    end in
  bret (mkImportDecl (node_span_ node) is_pub path alias clause).

Definition fn_decl (node : TreeNode) (is_pub : bool) : Build FnDecl :=
  let^ name := expect_var node in
  let^ type_params := generic_params_opt node in
  match first_rule node R.FnSignatureDecl with
  | Some sig =>
      let^ n := expect_rule sig R.TypeExpr in
      let^ typ := type_expr type_fun n in
      let^ constraints := where_constraints_opt type_fun sig in
      let^ n := expect_rule sig R.Expr in
      let^ body := expr n in
      let^ parts := blift (flatten_signature_fn typ body) in
      bret (mkFnDecl (node_span_ node) is_pub name type_params (sig_params parts) (sig_ret parts)
              (constraints ++ sig_constraints parts) (sig_body parts) None)
  | None =>
      let^ param_decl := expect_rule node R.FnParamDecl in
      let^ n := expect_rule param_decl R.FnParams in
      let^ params := fn_params type_fun n in
      let^ n := expect_rule param_decl R.TypeExpr in
      let^ ret := type_expr type_fun n in
      let^ constraints := where_constraints_opt type_fun param_decl in
      let^ n := expect_rule param_decl R.Expr in
      let^ body := expr n in
      bret (mkFnDecl (node_span_ node) is_pub name type_params params ret constraints body None)
  end.

Definition declare_fn_decl (node : TreeNode) (is_pub : bool) : Build DeclareFnDecl :=
  let^ name := expect_var node in
  let^ type_params := generic_params_opt node in
  let^ (params, ret, constraints) :=
    match first_rule node R.DeclareParamSig with
    | Some param_sig =>
        let^ n := expect_rule param_sig R.FnParams in
        let^ params := fn_params type_fun n in
        let^ n := expect_rule param_sig R.TypeExpr in
        let^ ret := type_expr type_fun n in
        let^ constraints := where_constraints_opt type_fun param_sig in
        bret (params, ret, constraints)
    | None =>
        let^ bare := expect_rule node R.BareFnSig in
        let^ n := expect_rule bare R.TypeExpr in
        let^ sig := type_expr type_fun n in
        let^ constraints := where_constraints_opt type_fun bare in
        let '(params, ret) := flatten_decl_signature sig in
        bret (params, ret, constraints)
    end in
  bret (mkDeclareFnDecl (node_span_ node) is_pub name type_params params ret constraints None).

Definition class_method (method : TreeNode) : Build ClassMethodSig :=
  let^ n := expect_rule method R.ValueName in
  let^ name := value_name n in
  let^ type_params := generic_params_opt method in
  let^ n := expect_rule method R.TypeExpr in
  let^ typ := type_expr type_fun n in
  bret (mkClassMethodSig name type_params typ None).

Definition class_decl (node : TreeNode) (is_pub : bool) : Build ClassDecl :=
  let^ name := expect_ident node in
  let^ params := mapM_build expect_ident (child_rules node R.TypeParam) in
  let^ supers := opt_build (fun clause =>
      let^ n := expect_rule clause R.TypeConstraints in type_constraints type_fun n)
    (first_rule node R.SuperClause) in
  let^ methods := opt_build (fun block => mapM_build class_method (child_rules block R.ClassMethod))
    (first_rule node R.ClassBlock) in
  bret (mkClassDecl (node_span_ node) is_pub name params (default [] supers) (default [] methods) None).

Definition instance_method (method : TreeNode) : Build InstanceMethodImpl :=
  let^ n := expect_rule method R.ValueName in
  let^ name := value_name n in
  let^ type_params := generic_params_opt method in
  let^ ann := type_annotation type_fun method in
  let^ n := expect_rule method R.Expr in
  let^ body := expr n in
  bret (mkInstanceMethodImpl name type_params ann body).

Definition instance_decl (node : TreeNode) (is_pub : bool) : Build InstanceDecl :=
  let^ n := expect_rule node R.NameRef in
  let^ class := name_ref n in
  let^ type_params := generic_params_opt node in
  let^ n := expect_rule node R.TypeApp in
  let^ head := type_app type_fun n in
  let^ context := opt_build (fun clause =>
      let^ n := expect_rule clause R.TypeConstraints in type_constraints type_fun n)
    (first_rule node R.InstanceContext) in
  let^ methods := opt_build (fun block => mapM_build instance_method (child_rules block R.InstanceMethod))
    (first_rule node R.InstanceBlock) in
  bret (mkInstanceDecl (node_span_ node) is_pub type_params (to_dotted_symbol class) head
          (default [] context) (default [] methods) None).

(** The chain of [if let Some(..) = first_rule(..)] of [decl]. *)
Fixpoint decl_of (body : TreeNode) (arms : list (RexRule * (TreeNode -> Build Decl))) : Build Decl :=
  match arms with
  | [] => bfail (node_span_ body) "expected declaration"
  | (rule, f) :: arms =>
      match first_rule body rule with
      | Some n => f n
      | None => decl_of body arms
      end
  end.

Definition decl (node : TreeNode) : Build Decl :=
  let^ (is_pub, body) :=
    match first_rule node R.PublicDecl with
    | Some public => let^ body := expect_rule public R.DeclBody in bret (true, body)
    | None =>
        let^ private := expect_rule node R.PrivateDecl in
        let^ body := expect_rule private R.DeclBody in
        bret (false, body)
    end in
  decl_of body
    [(R.ImportDecl, fun n => let^ d := import_decl n is_pub in bret (DImport d));
     (R.TypeDecl, fun n => let^ d := type_decl type_fun n is_pub in bret (DType d));
     (R.FnDecl, fun n => let^ d := fn_decl n is_pub in bret (DFn d));
     (R.DeclareFnDecl, fun n => let^ d := declare_fn_decl n is_pub in bret (DDeclareFn d));
     (R.ClassDecl, fun n => let^ d := class_decl n is_pub in bret (DClass d));
     (R.InstanceDecl, fun n => let^ d := instance_decl n is_pub in bret (DInstance d))].

(** [program]: the declarations, then the expression, up to the first error. *)
Definition program_body (node : TreeNode) : Build CompilationUnit :=
  let^ decls := mapM_build decl (child_rules node R.Decl) in
  let^ body := opt_build expr (first_rule node R.Expr) in
  bret (mkCompilationUnit decls body).
End decls.

(** * Parsing *)

Section program.
Context (token_display : Token -> string) (wide_uppercase : string -> bool).

(** [None]: no answer within the fuel. *)
Definition program (depth : nat) (node : TreeNode) : option (result (list ParseError) CompilationUnit) :=
  match program_body (type_fun depth) (expr token_display wide_uppercase depth depth) node AstBuilder_new with
  | (Err NoAnswer, _) => None
  | (Err (Stop err), b) => Some (Err (errors b ++ [err]))
  | (Ok u, b) => Some (match errors b with [] => Ok u | errs => Err errs end)
  end.

Definition parser_error_from_failure (failure : Failure) (tokens : list Token) (eof : Span) : ParseError :=
  let t := match tokens !! fail_pos failure with Some t => t | None => TokEof eof end in
  let unexpected :=
    match t with TokEof _ => "unexpected EOF" | _ => "unexpected " +:+ token_display t end in
  mkParseError (fail_span failure)
    (match elements (fail_expected failure) with
     | [expected] => if String.prefix "expected" expected then expected else unexpected
     | _ => unexpected
     end).

(** [PegParser::parse_program] on the tokens of a source. *)
Definition parse_program (fuel depth : nat) (ts : Tokens)
  : option (result (list ParseError) CompilationUnit) :=
  let en := input_engine ts in
  match parse_start rex_grammar fuel en with
  | None => None
  | Some (Err failure, _) => Some (Err [parser_error_from_failure failure (tokens en) (eof_span en)])
  | Some (Ok (CstNode r span children), _) => program depth (mkTreeNode r span children)
  | Some (Ok (CstToken _), _) => None
  end.
End program.

(** The height of a tree, the fuel that its builder needs. *)
Fixpoint height (c : Cst RexRule Token) : nat :=
  match c with
  | CstToken _ => 0
  | CstNode _ _ children => S (foldr Nat.max 0 (map height children))
  end.

Definition node_height (n : TreeNode) : nat := S (foldr Nat.max 0 (map height (node_children n))).
