(* ===== verification/Derives.v ===== *)
(** The trees of a grammar: which lists of children an expression can produce, and
    what can be read off an expression about the children of its nodes. This is the
    contract between the parser ([grammar.rs], [rex.rs]) and the builder of syntax
    trees ([ast_builder.rs]). *)

From S2P Require Import Prelude Span Token Peg Grammar GrammarSem.

Section derives.
Context {R K T : Type} `{RC : Countable R, TE : EngineToken T, KT : Terminal K T}.
Context (g : Grammar R K).

(** [gen e children]: [e] can produce [children]. *)
Inductive gen : Peg R K -> list (Cst R T) -> Prop :=
  | gen_token k t : terminal_matches k t = true -> gen (PToken k) [CstToken t]
  | gen_rule r e span children :
      expression g r = Some e -> gen e children -> gen (PRule r) [CstNode r span children]
  | gen_seq_nil : gen (PSeq []) []
  | gen_seq_cons e items a b : gen e a -> gen (PSeq items) b -> gen (PSeq (e :: items)) (a ++ b)
  | gen_choice e items children : e ∈ items -> gen e children -> gen (PChoice items) children
  | gen_optional_none e : gen (POptional e) []
  | gen_optional e children : gen e children -> gen (POptional e) children
  | gen_repeat_nil e : gen (PRepeat e) []
  | gen_repeat_cons e a b : gen e a -> gen (PRepeat e) b -> gen (PRepeat e) (a ++ b)
  | gen_repeat1 e a b : gen e a -> gen (PRepeat e) b -> gen (PRepeat1 e) (a ++ b)
  | gen_and e : gen (PAnd e) []
  | gen_not e : gen (PNot e) []
  | gen_label l e children : gen e children -> gen (PLabel l e) children
  | gen_cut e children : gen e children -> gen (PCut e) children.

(** ** Successful parses produce such trees *)

Context (ts : list T) (end_token : T).

Definition produces (e : Peg R K) (acc : list (Cst R T)) (o : outcome (R := R) (T := T)) : Prop :=
  match o with
  | Succeeds children _ => exists rest, children = acc ++ rest /\ gen e rest
  | Fails _ => True
  end.

Lemma sem_produces :
  (forall e pos o, sem g ts end_token e pos o -> produces e [] o) /\
  (forall items pos acc o, sem_seq g ts end_token items pos acc o -> produces (PSeq items) acc o) /\
  (forall items pos acc o, sem_choice g ts end_token items pos acc o -> produces (PChoice items) [] o) /\
  (forall e pos acc o, sem_repeat g ts end_token e pos acc o -> produces (PRepeat e) acc o).
Proof.
  apply (sem_all g ts end_token (fun e pos o _ => produces e [] o)
           (fun items pos acc o _ => produces (PSeq items) acc o)
           (fun items pos acc o _ => produces (PChoice items) [] o)
           (fun e pos acc o _ => produces (PRepeat e) acc o)); intros; try done;
    repeat match goal with
    | H : produces _ _ (Succeeds _ _) |- _ => destruct H as (? & ? & ?); simplify_eq/=
    | o : outcome |- _ => destruct o; [|done]
    end; simpl in *;
    try (eexists; split; [reflexivity|]; econstructor; by eauto);
    try (eexists; split; [symmetry; apply app_nil_r|]; by econstructor).
  - exists (x ++ x0). split; [by rewrite app_assoc|]. by constructor.
  - exists x. split; [done|]. eapply gen_choice; [by left|done].
  - exists x. split; [done|].
    match goal with H : gen (PChoice _) _ |- _ => inversion H; subst end.
    eapply gen_choice; [by right|done].
  - exists x. split; [done|]. rewrite <- (app_nil_r x). apply gen_repeat_cons; [done|constructor].
  - exists (x ++ x0). split; [by rewrite app_assoc|]. by constructor.
Qed.

Lemma sem_gen e pos children next : sem g ts end_token e pos (Succeeds children next) -> gen e children.
Proof. intros H. apply (proj1 sem_produces) in H as (rest & -> & ?). done. Qed.
End derives.

(** The nodes among the children are trees of their rules. *)
Lemma gen_child {R K T} `{RC : Countable R, TE : EngineToken T, KT : Terminal K T} (g : Grammar R K)
    e (children : list (Cst R T)) r span ch :
  gen g e children -> CstNode r span ch ∈ children -> exists e', expression g r = Some e' /\ gen g e' ch.
Proof.
  induction 1; intros Hin; rewrite ?elem_of_app, ?elem_of_cons in Hin;
    repeat match goal with H : _ \/ _ |- _ => destruct H end; simplify_eq; eauto;
    try (by exfalso; eapply not_elem_of_nil).
Qed.

(** * Reading an expression

    [kinds] and [rules] select leaves of an expression, the terminals and the rule
    calls. *)

Section reading.
Context {R K T : Type} `{RC : Countable R, TE : EngineToken T, KT : Terminal K T}.
Context (g : Grammar R K).
Context (kinds : K -> bool) (rules : R -> bool).

(** Every production has a selected child. *)
Fixpoint must (e : Peg R K) : bool :=
  match e with
  | PToken k => kinds k
  | PRule r => rules r
  | PSeq items => existsb must items
  | PChoice items => forallb must items
  | POptional _ | PRepeat _ | PAnd _ | PNot _ => false
  | PRepeat1 e | PLabel _ e | PCut e => must e
  end.

(** Every child of a production is selected. *)
Fixpoint only (e : Peg R K) : bool :=
  match e with
  | PToken k => kinds k
  | PRule r => rules r
  | PSeq items | PChoice items => forallb only items
  | PAnd _ | PNot _ => true
  | POptional e | PRepeat e | PRepeat1 e | PLabel _ e | PCut e => only e
  end.

(** How many selected rule calls every production has. *)
Fixpoint exactly (e : Peg R K) : option nat :=
  match e with
  | PToken _ | PAnd _ | PNot _ => Some 0
  | PRule r => Some (if rules r then 1 else 0)
  | PSeq items =>
      foldr (fun e n => match exactly e, n with Some a, Some b => Some (a + b) | _, _ => None end)
        (Some 0) items
  | PChoice items =>
      match items with
      | [] => Some 0
      | e :: items => if forallb (fun e' => bool_decide (exactly e' = exactly e)) items then exactly e else None
      end
  | POptional e | PRepeat e | PRepeat1 e =>
      match exactly e with Some 0 => Some 0 | _ => None end
  | PLabel _ e | PCut e => exactly e
  end.

Definition selected (c : Cst R T) : Prop :=
  match c with
  | CstToken t => exists k, kinds k = true /\ terminal_matches k t = true
  | CstNode r _ _ => rules r = true
  end.

Lemma must_selected e children : gen g e children -> must e = true -> exists c, c ∈ children /\ selected c.
Proof.
  induction 1 as [k t Hm|r e sp ch He Hg IH| |e items a b Ha IHa Hb IHb|e items ch Hin Hg IH|e|e ch Hg IH
    |e|e a b Ha IHa Hb IHb|e a b Ha IHa Hb IHb|e|e|l e ch Hg IH|e ch Hg IH]; simpl; intros Hmust; try done; auto.
  - exists (CstToken t). split; [by left|]. by exists k.
  - eexists. split; [by left|done].
  - apply orb_true_iff in Hmust as [Hm|Hm].
    + destruct (IHa Hm) as (c & Hc & ?). exists c. split; [|done]. apply elem_of_app. by left.
    + destruct (IHb Hm) as (c & Hc & ?). exists c. split; [|done]. apply elem_of_app. by right.
  - apply IH. rewrite forallb_forall in Hmust. apply Hmust. by apply list_elem_of_In.
  - destruct (IHa Hmust) as (c & Hc & ?). exists c. split; [|done]. apply elem_of_app. by left.
Qed.

Lemma only_selected e children : gen g e children -> only e = true -> Forall selected children.
Proof.
  induction 1 as [k t Hm|r e sp ch He Hg IH| |e items a b Ha IHa Hb IHb|e items ch Hin Hg IH|e|e ch Hg IH
    |e|e a b Ha IHa Hb IHb|e a b Ha IHa Hb IHb|e|e|l e ch Hg IH|e ch Hg IH]; simpl; intros Ho; try done; auto.
  - apply Forall_singleton. by exists k.
  - apply andb_true_iff in Ho as [H1 H2]. apply Forall_app. auto.
  - apply IH. rewrite forallb_forall in Ho. apply Ho. by apply list_elem_of_In.
  - apply Forall_app. auto.
  - apply Forall_app. auto.
Qed.

(** The children that are nodes of a selected rule. *)
Definition node_of (c : Cst R T) : bool :=
  match c with CstNode r _ _ => rules r | CstToken _ => false end.

Definition occurrences (children : list (Cst R T)) : nat := length (List.filter node_of children).

Lemma occurrences_app a b : occurrences (a ++ b) = occurrences a + occurrences b.
Proof using. unfold occurrences. by rewrite List.filter_app, length_app. Qed.

Lemma exactly_occurrences e children n :
  gen g e children -> exactly e = Some n -> occurrences children = n.
Proof.
  intros Hg. revert n. induction Hg as [k t Hm|r e sp ch He Hg IH| |e items a b Ha IHa Hb IHb|e items ch Hin Hg IH
    |e|e ch Hg IH|e|e a b Ha IHa Hb IHb|e a b Ha IHa Hb IHb|e|e|l e ch Hg IH|e ch Hg IH]; intros n Hn; simpl in Hn;
    simplify_eq; try done; auto.
  - unfold occurrences. simpl. by destruct (rules r).
  - rewrite occurrences_app. destruct (exactly e) as [x|]; [|done].
    destruct (foldr _ (Some 0) items) as [y|] eqn:Hy; [|done]. simplify_eq. by rewrite (IHa x), (IHb y).
  - destruct items as [|e' items]; [by apply not_elem_of_nil in Hin|].
    destruct (forallb _ items) eqn:Hall; [|done]. apply IH. rewrite elem_of_cons in Hin.
    destruct Hin as [->|Hin]; [done|]. rewrite forallb_forall in Hall.
    specialize (Hall e (proj1 (list_elem_of_In _ _) Hin)). apply bool_decide_eq_true in Hall. congruence.
  - destruct (exactly e) as [[|x]|]; by simplify_eq.
  - destruct (exactly e) as [[|x]|]; simplify_eq. by apply IH.
  - destruct (exactly e) as [[|x]|]; by simplify_eq.
  - destruct (exactly e) as [[|x]|] eqn:He; simplify_eq. rewrite occurrences_app.
    rewrite (IHa 0), (IHb 0); [done| |done]. simpl. by rewrite He.
  - destruct (exactly e) as [[|x]|] eqn:He; simplify_eq. rewrite occurrences_app.
    rewrite (IHa 0), (IHb 0); [done| |done]. simpl. by rewrite He.
Qed.
End reading.
