(* ===== verification/BuilderSafety.v ===== *)
(** The builder of syntax trees answers on every tree of the Rex grammar, and its
    errors are the user's: no error of the kind "internal parser error" or
    "expected grammar node" can come out of a parsed program. *)

From S2P Require Import Prelude Span Types Syntax Token Peg Grammar GrammarSem GrammarTerm RexGrammar.
From S2P Require Import Ast Operators AstBuilder Derives.

(** * The errors that are left *)

Inductive user_error : ParseError -> Prop :=
  | too_deep span :
      user_error (mkParseError span ("maximum AST depth exceeded (max " +:+ pretty MAX_AST_DEPTH +:+ ")"))
  | wildcard_applied span :
      user_error (mkParseError span "constructor patterns must start with an identifier")
  | params_without_name span :
      user_error (mkParseError span "type parameters require a named let binding")
  | let_rec_pattern span : user_error (mkParseError span "let rec only supports variable bindings")
  | alias_and_clause span :
      user_error (mkParseError span "cannot combine `as <alias>` with import clause `(...)`")
  | duplicate_import span name :
      user_error (mkParseError span ("duplicate imported name `" +:+ name +:+ "`"))
  | signature_of_value span :
      user_error (mkParseError span "expected function type after `:`; use `let` for values")
  | lambda_arity span got expected :
      user_error (mkParseError span ("lambda has " +:+ pretty (got : nat) +:+
        " parameter(s) but signature expects " +:+ pretty (expected : nat)))
  | missing_assign span : user_error (mkParseError span "expected `=`").

(** * A logic for builders *)

(** [safe m Q]: from recorded user errors [m] comes to a value in [Q] or to a user
    error, and records only user errors. *)
Definition safe {A} (m : Build A) (Q : A -> Prop) : Prop := forall b,
  Forall user_error (errors b) ->
  match m b with
  | (Ok a, b') => Forall user_error (errors b') /\ Q a
  | (Err (Stop e), b') => Forall user_error (errors b') /\ user_error e
  | (Err NoAnswer, _) => False
  end.

Local Abbreviation any := (fun _ => True).

Lemma safe_ret {A} (a : A) (Q : A -> Prop) : Q a -> safe (bret a) Q.
Proof. by intros H b Hb. Qed.

Lemma safe_fail {A} span message (Q : A -> Prop) :
  user_error (mkParseError span message) -> safe (bfail span message) Q.
Proof. by intros H b Hb. Qed.

Lemma safe_then {A B} (m : Build A) (k : A -> Build B) P Q :
  safe m P -> (forall a, P a -> safe (k a) Q) -> safe (bthen m k) Q.
Proof.
  intros Hm Hk b Hb. unfold bthen. specialize (Hm b Hb). destruct (m b) as [[a|[e|]] b']; [|done|done].
  destruct Hm as [Hb' Ha]. by apply Hk.
Qed.

Lemma safe_impl {A} (m : Build A) (P Q : A -> Prop) : safe m P -> (forall a, P a -> Q a) -> safe m Q.
Proof.
  intros Hm H b Hb. specialize (Hm b Hb). destruct (m b) as [[a|[e|]] b']; naive_solver.
Qed.

Lemma safe_mapM {A B} (f : A -> Build B) l Q :
  (forall x, x ∈ l -> safe (f x) Q) -> safe (mapM_build f l) (Forall Q).
Proof.
  induction l as [|x l IH]; intros H; [by apply safe_ret|]. simpl.
  eapply safe_then; [apply H; by left|]. intros y Hy.
  eapply safe_then; [apply IH; intros z Hz; apply H; by right|]. intros ys Hys. apply safe_ret. by constructor.
Qed.

Lemma safe_mapM_any {A B} (f : A -> Build B) l :
  (forall x, x ∈ l -> safe (f x) any) -> safe (mapM_build f l) any.
Proof. intros H. eapply safe_impl; [by apply (safe_mapM f l any)|done]. Qed.

Lemma safe_opt {A B} (f : A -> Build B) o : (forall x, o = Some x -> safe (f x) any) -> safe (opt_build f o) any.
Proof.
  intros H. destruct o as [x|]; simpl; [|by apply safe_ret]. eapply safe_then; [by apply H|].
  intros y _. by apply safe_ret.
Qed.

Lemma safe_update f : (forall b, errors (f b) = errors b) -> safe (update f) any.
Proof. intros H b Hb. simpl. by rewrite H. Qed.

Lemma safe_push span : safe (push_error (mkParseError span "expected `=`")) any.
Proof. intros b Hb. simpl. split; [|done]. apply Forall_app. split; [done|]. repeat constructor. Qed.

Lemma safe_depth {A} span (Q : A -> Prop) : safe (depth_error span) Q.
Proof. apply safe_fail. constructor. Qed.

Lemma safe_check_expr span : safe (check_expr_depth span) any.
Proof. intros b Hb. unfold check_expr_depth. destruct (_ <=? _); [by apply safe_depth|done]. Qed.
Lemma safe_check_type span : safe (check_type_depth span) any.
Proof. intros b Hb. unfold check_type_depth. destruct (_ <=? _); [by apply safe_depth|done]. Qed.
Lemma safe_check_pattern span : safe (check_pattern_depth span) any.
Proof. intros b Hb. unfold check_pattern_depth. destruct (_ <=? _); [by apply safe_depth|done]. Qed.

(** * Nodes of the grammar *)

(** [fits r h n]: a node of rule [r] that the grammar produces, lower than [h]. *)
Record fits (r : RexRule) (h : nat) (n : TreeNode) : Prop := {
  fits_rule : node_rule n = r;
  fits_height : node_height n < h;
  fits_gen : exists e, expression rex_grammar r = Some e /\ gen rex_grammar e (node_children n) }.

Lemma fits_weaken r h h' n : fits r h n -> h <= h' -> fits r h' n.
Proof. intros [H1 H2 H3] Hle. split; [done|lia|done]. Qed.

Lemma foldr_max_in (l : list nat) x : x ∈ l -> x <= foldr Nat.max 0 l.
Proof. induction l as [|y l IH]; intros H; [by apply not_elem_of_nil in H|]. rewrite elem_of_cons in H.
  simpl. destruct H as [->|H]; [lia|]. specialize (IH H). lia. Qed.

Lemma child_fits r h n r' m : fits r (S h) n -> m ∈ child_rules n r' -> fits r' h m.
Proof.
  intros [H1 H2 (e & He & Hg)] Hm. unfold child_rules in Hm. apply list_elem_of_omap in Hm as (c & Hc & Hn).
  destruct c as [r2 sp ch|t]; simpl in Hn; [|done]. case_decide as Hr; [|done]. injection Hn as <-. subst r2.
  split; simpl; [done| |by eapply gen_child].
  assert (Hle : height (CstNode r' sp ch) <= foldr Nat.max 0 (map height (node_children n))).
  { by apply foldr_max_in, list_elem_of_In, in_map, list_elem_of_In. }
  unfold node_height in *. simpl in Hle |- *. lia.
Qed.

Lemma child_fits_same r h n r' m : fits r h n -> m ∈ child_rules n r' -> fits r' h m.
Proof.
  intros Hf Hm. destruct h as [|h]; [destruct Hf; lia|]. eapply fits_weaken; [by eapply child_fits|lia].
Qed.

Lemma first_rule_in n r m : first_rule n r = Some m -> m ∈ child_rules n r.
Proof. unfold first_rule. destruct (child_rules n r); [done|]. intros [= ->]. by left. Qed.

(** ** What a rule guarantees of its children *)

Definition no_kinds (k : TokenKind) : bool := false.
Definition kinds_in (ks : list TokenKind) (k : TokenKind) : bool := bool_decide (k ∈ ks).
Definition rules_in (rs : list RexRule) (r : RexRule) : bool := bool_decide (r ∈ rs).

Definition on_rule {A} (r : RexRule) (f : Peg RexRule TokenKind -> A) (otherwise : A) : A :=
  match expression rex_grammar r with Some e => f e | None => otherwise end.

(** Every node of [r] has a child among [ks] and [rs]. *)
Definition rule_must (r : RexRule) (ks : list TokenKind) (rs : list RexRule) : bool :=
  on_rule r (must (kinds_in ks) (rules_in rs)) false.
(** Every token child of a node of [r] is among [ks]. *)
Definition rule_tokens (r : RexRule) (ks : list TokenKind) : bool :=
  on_rule r (only (kinds_in ks) (fun _ => true)) false.
(** Every node of [r] has [n] children of rule [r']. *)
Definition rule_count (r r' : RexRule) (n : nat) : bool :=
  on_rule r (fun e => bool_decide (exactly (rules_in [r']) e = Some n)) false.

(** A node has a child of one of the rules. *)
Definition has_one (n : TreeNode) (rs : list RexRule) : Prop := exists r, r ∈ rs /\ first_rule n r <> None.

Lemma has_one_cons n r rs : has_one n (r :: rs) -> first_rule n r = None -> has_one n rs.
Proof.
  intros (r' & Hr & Hf) Hn. rewrite elem_of_cons in Hr. destruct Hr as [->|Hr]; [done|]. by exists r'.
Qed.

Lemma token_in n t : t ∈ omap as_token (node_children n) <-> CstToken t ∈ node_children n.
Proof.
  rewrite list_elem_of_omap. split; [|intros H; by exists (CstToken t)].
  intros (c & Hc & Ht). destruct c; simplify_eq/=. done.
Qed.

Lemma must_children r h n ks rs : fits r h n -> rule_must r ks rs = true ->
  has_one n rs \/ exists t k, t ∈ omap as_token (node_children n) /\ k ∈ ks /\ matches k t = true.
Proof.
  intros [_ _ (e & He & Hg)] Hm. unfold rule_must, on_rule in Hm. rewrite He in Hm.
  destruct (must_selected _ _ _ _ _ Hg Hm) as (c & Hc & Hs). destruct c as [r' sp ch|t]; simpl in Hs.
  - left. apply bool_decide_eq_true in Hs. exists r'. split; [done|]. unfold first_rule, child_rules.
    intros Hnone. assert (Hin : mkTreeNode r' sp ch ∈ omap (as_node r') (node_children n)).
    { apply list_elem_of_omap. exists (CstNode r' sp ch). split; [done|]. simpl. by rewrite decide_True. }
    destruct (omap (as_node r') (node_children n)); [by apply not_elem_of_nil in Hin|done].
  - right. destruct Hs as (k & Hk & Hmt). apply bool_decide_eq_true in Hk. exists t, k.
    split_and!; [by apply token_in|done|done].
Qed.

Lemma must_rules r h n rs : fits r h n -> rule_must r [] rs = true -> has_one n rs.
Proof.
  intros Hf Hm. destruct (must_children r h n [] rs Hf Hm) as [?|(t & k & _ & Hk & _)]; [assumption|].
  inversion Hk.
Qed.

Lemma tokens_only r h n ks t : fits r h n -> rule_tokens r ks = true ->
  t ∈ omap as_token (node_children n) -> exists k, k ∈ ks /\ matches k t = true.
Proof.
  intros [_ _ (e & He & Hg)] Hm Ht. unfold rule_tokens, on_rule in Hm. rewrite He in Hm.
  pose proof (only_selected _ _ _ _ _ Hg Hm) as Hall. rewrite Forall_forall in Hall.
  apply token_in in Ht. specialize (Hall _ Ht). simpl in Hall. destruct Hall as (k & Hk & Hmt).
  apply bool_decide_eq_true in Hk. exists k. split; assumption.
Qed.

Lemma count_children r h n r' k : fits r h n -> rule_count r r' k = true -> length (child_rules n r') = k.
Proof.
  intros [_ _ (e & He & Hg)] Hc. unfold rule_count, on_rule in Hc. rewrite He in Hc.
  apply bool_decide_eq_true in Hc. rewrite <- (exactly_occurrences _ _ _ _ _ Hg Hc).
  unfold child_rules, occurrences. clear. induction (node_children n) as [|c l IH]; [done|].
  destruct c as [r2 sp ch|t]; simpl; [|done]. unfold rules_in. destruct (decide (r2 = r')) as [->|Hne].
  - rewrite bool_decide_eq_true_2 by (by left). simpl. f_equal. exact IH.
  - rewrite bool_decide_eq_false_2; [exact IH|]. by rewrite list_elem_of_singleton.
Qed.

(** ** Safe reading *)

Lemma expect_rule_has r h n r' : fits r (S h) n -> has_one n [r'] -> safe (expect_rule n r') (fits r' h).
Proof.
  intros Hf (r2 & Hr & Hfirst). apply list_elem_of_singleton in Hr as ->. unfold expect_rule.
  destruct (first_rule n r') as [m|] eqn:Hm; [|done]. apply safe_ret.
  eapply child_fits; [done|]. by apply first_rule_in.
Qed.

Lemma expect_rule_safe r h n r' :
  fits r (S h) n -> rule_must r [] [r'] = true -> safe (expect_rule n r') (fits r' h).
Proof. intros Hf Hm. eapply expect_rule_has; [done|]. by eapply must_rules. Qed.

Lemma expect_token_safe r h n k :
  fits r h n -> rule_must r [k] [] = true -> safe (expect_token n k) (fun t => matches k t = true).
Proof.
  intros Hf Hm. destruct (must_children r h n [k] [] Hf Hm) as [(r' & Hr & _)|(t & k' & Ht & Hk & Hmt)];
    [inversion Hr|]. apply list_elem_of_singleton in Hk as ->.
  clear Hm. unfold expect_token. destruct (head (direct_tokens n k)) as [u|] eqn:Hu.
  - apply safe_ret. unfold direct_tokens in Hu. apply head_Some_elem_of in Hu.
    by apply list_elem_of_filter in Hu as [? _].
  - apply head_None in Hu. unfold direct_tokens in Hu. exfalso.
    by apply (filter_nil_not_elem_of _ _ t Hu Hmt).
Qed.

Lemma ident_text_safe t : matches KIdent t = true -> safe (ident_text t) any.
Proof. intros Hm. by destruct t. Qed.

Lemma idents_safe n : safe (mapM_build ident_text (direct_tokens n KIdent)) any.
Proof.
  apply safe_mapM_any. intros t Ht. apply list_elem_of_filter in Ht as [Hm _]. by apply ident_text_safe.
Qed.

Lemma expect_ident_safe r h n : fits r h n -> rule_must r [KIdent] [] = true -> safe (expect_ident n) any.
Proof. intros Hf Hm. eapply safe_then; [by eapply expect_token_safe|]. apply ident_text_safe. Qed.

Lemma expect_var_safe r h n : fits r h n -> rule_must r [KIdent] [] = true -> safe (expect_var n) any.
Proof.
  intros Hf Hm. eapply safe_then; [by eapply expect_token_safe|]. intros t Ht.
  eapply safe_then; [by apply ident_text_safe|]. intros name _. by apply safe_ret.
Qed.

(** ** Proof automation

    [step] takes the next method of a sequence with the lemma for it; a call of a
    method on a node is closed by the node's [fits] and a computed check of the
    grammar. *)

Create HintDb build.

Lemma child_fits_weak r h n r' m : fits r h n -> first_rule n r' = Some m -> fits r' h m.
Proof. intros Hf Hm. eapply child_fits_same; [done|]. by apply first_rule_in. Qed.

Lemma child_fits_first r h n r' m : fits r (S h) n -> first_rule n r' = Some m -> fits r' h m.
Proof. intros Hf Hm. eapply child_fits; [done|]. by apply first_rule_in. Qed.

Lemma fits_le r h n : fits r h n -> fits r (S h) n.
Proof. intros Hf. eapply fits_weaken; [done|lia]. Qed.

Ltac check := vm_compute; reflexivity.

(** [fits] of a node that was read from another. *)
Ltac fit_steps n :=
  first
  [ eassumption
  | lazymatch n with
    | S ?m =>
        first [ eapply child_fits_weak; [|eassumption]; fit_steps m
              | eapply child_fits_same; [|eassumption]; fit_steps m ]
    end ].
Ltac fit := solve [fit_steps 3 | apply fits_le; fit_steps 3].

(** The last rule of a chain of [if let Some(..) = first_rule(..)]: the node has a
    child of one of the rules, and of none of the others. *)
Ltac last_rule rs :=
  eapply expect_rule_has;
  [ fit | assert (Hone : has_one _ rs) by (eapply must_rules; [eassumption|check]);
          repeat (eapply has_one_cons in Hone; [|eassumption]); exact Hone ].

Ltac step :=
  lazymatch goal with
  | |- safe (match first_rule ?n ?r with _ => _ end) _ =>
      let m := fresh "m" in let Hm := fresh "Hm" in destruct (first_rule n r) as [m|] eqn:Hm
  | |- safe (bthen (expect_rule _ _) _) _ =>
      eapply safe_then; [eapply expect_rule_safe; [fit|check]|intros ? ?]
  | |- safe (bthen (expect_ident _) _) _ =>
      eapply safe_then; [eapply expect_ident_safe; [fit|check]|intros ? _]
  | |- safe (bthen (expect_var _) _) _ =>
      eapply safe_then; [eapply expect_var_safe; [fit|check]|intros ? _]
  | |- safe (bthen (expect_token _ _) _) _ =>
      eapply safe_then; [eapply expect_token_safe; [fit|check]|intros ? ?]
  | |- safe (bthen _ _) _ => eapply (safe_then _ _ any); [|intros ? _]
  | |- safe (bret _) _ => apply safe_ret; done
  | |- safe (mapM_build _ _) _ => apply safe_mapM_any; intros ? ?
  | |- safe (opt_build _ _) _ => apply safe_opt; intros ? ?
  | |- safe (check_expr_depth _) _ => apply safe_check_expr
  | |- safe (check_type_depth _) _ => apply safe_check_type
  | |- safe (check_pattern_depth _) _ => apply safe_check_pattern
  | |- safe (update _) _ => by apply safe_update
  | |- safe (with_expr_depth _) _ => by apply safe_update
  | |- safe (with_type_depth _) _ => by apply safe_update
  | |- safe (with_pattern_depth _) _ => by apply safe_update
  end.

(** ** Names *)

Lemma name_ref_safe h n : fits R.NameRef h n -> safe (name_ref n) any.
Proof.
  intros Hf. unfold name_ref.
  eapply (safe_then _ _ (fun names => names <> [])).
  - assert (Hne : direct_tokens n KIdent <> []).
    { destruct (must_children R.NameRef h n [KIdent] [] Hf) as [(r' & Hr & _)|(t & k & Ht & Hk & Hm)];
        [check|by apply not_elem_of_nil in Hr|]. apply list_elem_of_singleton in Hk as ->.
      intros Hnil. by apply (filter_nil_not_elem_of _ _ t Hnil Hm). }
    pose proof (idents_safe n) as Hs. intros b Hb. specialize (Hs b Hb).
    destruct (direct_tokens n KIdent) as [|t ts]; [done|]. simpl in *. unfold bthen in *.
    destruct (ident_text t b) as [[x|[e|]] b1]; [|done|done].
    destruct (mapM_build ident_text ts b1) as [[xs|[e|]] b2]; [|done|done]. simpl in *. by destruct Hs.
  - intros names Hne. destruct names; [done|]. by apply safe_ret.
Qed.

Lemma first_token_in n t : first_token n = Some t -> t ∈ omap as_token (node_children n).
Proof. unfold first_token. apply head_Some_elem_of. Qed.

Lemma first_token_some n t : t ∈ omap as_token (node_children n) -> exists t', first_token n = Some t'.
Proof.
  unfold first_token. destruct (omap as_token (node_children n)) as [|t' l]; [by intros ?%not_elem_of_nil|].
  intros _. by exists t'.
Qed.

(** A rule that starts with, and has only, tokens of some kinds. *)
Lemma first_token_kind r h n ks : fits r h n -> rule_must r ks [] = true -> rule_tokens r ks = true ->
  exists t k, first_token n = Some t /\ k ∈ ks /\ matches k t = true.
Proof.
  intros Hf Hm Ho. destruct (must_children r h n ks [] Hf Hm) as [(r' & Hr & _)|(t & k & Ht & Hk & Hmt)];
    [by inversion Hr|]. apply first_token_some in Ht as [t' Ht'].
  destruct (tokens_only r h n ks t' Hf Ho) as (k' & Hk' & Hm'); [by apply first_token_in|]. exists t', k'. split_and!; assumption.
Qed.

Lemma value_name_safe h n : fits R.ValueName h n -> safe (value_name n) any.
Proof.
  intros Hf. destruct (first_token_kind _ _ _ [KIdent; KValueOperator] Hf) as (t & k & Ht & Hk & Hm);
    [check|check|]. unfold value_name. rewrite Ht. rewrite elem_of_cons, list_elem_of_singleton in Hk.
  destruct Hk as [-> | ->]; by destruct t.
Qed.

Lemma generic_params_safe n : safe (generic_params_opt n) any.
Proof. unfold generic_params_opt. destruct (first_rule n _); [apply idents_safe|by apply safe_ret]. Qed.

(** * Types *)

Section types.
Context (rec : TreeNode -> Build TypeExpr) (h : nat).
Context (Hrec : forall n, fits R.TypeFun h n -> safe (rec n) any).

Lemma type_expr_safe n : fits R.TypeExpr (S h) n -> safe (type_expr rec n) any.
Proof using Hrec. intros Hf. unfold type_expr. step. by apply Hrec. Qed.

Lemma type_record_safe n : fits R.TypeRecord (S h) n -> safe (type_record rec n) any.
Proof using Hrec.
  intros Hf. unfold type_record. step; [|by step]. step.
  unfold type_field. step. step. step; [|by step]. apply type_expr_safe. fit.
Qed.

Lemma type_paren_safe n : fits R.TypeParen (S h) n -> safe (type_paren rec n) any.
Proof using Hrec.
  intros Hf. unfold type_paren. step; [by step|]. step.
  - step; [|by step]. step. apply type_expr_safe. fit.
  - eapply safe_then; [last_rule [R.UnitType; R.TupleType; R.GroupedType]|]. intros g Hg.
    step. apply type_expr_safe. fit.
Qed.

Lemma type_atom_safe n : fits R.TypeAtom (S h) n -> safe (type_atom rec n) any.
Proof using Hrec.
  intros Hf. unfold type_atom. step.
  - step; [|by step]. eapply name_ref_safe. fit.
  - step; [apply type_paren_safe; fit|].
    eapply safe_then; [last_rule [R.NameRef; R.TypeParen; R.TypeRecord]|]. intros r Hr.
    apply type_record_safe. fit.
Qed.

Lemma type_apps_safe lhs atoms :
  (forall n, n ∈ atoms -> fits R.TypeAtom (S h) n) -> safe (type_apps rec lhs atoms) any.
Proof using Hrec.
  revert lhs. induction atoms as [|n atoms IH]; intros lhs Hall; simpl; [by step|].
  step; [apply type_atom_safe; apply Hall; by left|]. apply IH. intros m Hm. apply Hall. by right.
Qed.

Lemma must_child r h' n r' : fits r h' n -> rule_must r [] [r'] = true -> child_rules n r' <> [].
Proof using.
  intros Hf Hm. destruct (must_rules _ _ _ _ Hf Hm) as (r2 & Hr & Hone). clear Hm.
  apply list_elem_of_singleton in Hr as ->. unfold first_rule in Hone. by destruct (child_rules n r').
Qed.

Lemma type_app_safe n : fits R.TypeApp (S h) n -> safe (type_app rec n) any.
Proof using Hrec.
  intros Hf. unfold type_app. pose proof (must_child _ _ _ R.TypeAtom Hf ltac:(check)) as Hne.
  assert (Hall : forall m, m ∈ child_rules n R.TypeAtom -> fits R.TypeAtom (S h) m) by (intros; fit).
  destruct (child_rules n R.TypeAtom) as [|first atoms]; [done|].
  step; [apply type_atom_safe; apply Hall; by left|]. apply type_apps_safe. intros m Hm. apply Hall. by right.
Qed.

Lemma type_fun_body_safe n : fits R.TypeFun (S h) n -> safe (type_fun_body rec n) any.
Proof using Hrec.
  intros Hf. unfold type_fun_body. step; [step|]. step; [step|]. step. step; [apply type_app_safe; fit|].
  step; [|step; [step|by step]]. step; [|by step]. step; [|by step]. apply Hrec.
  by eapply child_fits_first.
Qed.

Lemma type_constraints_safe n : fits R.TypeConstraints (S h) n -> safe (type_constraints rec n) any.
Proof using Hrec.
  intros Hf. unfold type_constraints. step. unfold type_constraint. step.
  step; [eapply name_ref_safe; fit|]. step. step; [apply type_app_safe; fit|by step].
Qed.

Lemma where_constraints_safe n : fits R.WhereConstraints (S h) n -> safe (where_constraints rec n) any.
Proof using Hrec. intros Hf. unfold where_constraints. step. apply type_constraints_safe. fit. Qed.

Lemma where_constraints_opt_safe r n : fits r (S h) n -> safe (where_constraints_opt rec n) any.
Proof using Hrec.
  intros Hf. unfold where_constraints_opt. step; [|by step]. step. apply where_constraints_safe. fit.
Qed.

Lemma type_annotation_safe r n : fits r (S h) n -> safe (type_annotation rec n) any.
Proof using Hrec. intros Hf. unfold type_annotation. step. apply type_expr_safe. fit. Qed.

Lemma paren_param_safe r n : fits r (S h) n -> rule_must r [KIdent] [] = true ->
  rule_must r [] [R.TypeExpr] = true -> safe (paren_param rec n) any.
Proof using Hrec.
  intros Hf Hi Ht. unfold paren_param. eapply safe_then; [by eapply expect_var_safe|]. intros v _.
  eapply safe_then; [by eapply expect_rule_safe|]. intros t Hft. step; [|by step].
  apply type_expr_safe. fit.
Qed.

Lemma arrow_param_safe n : fits R.ArrowParam (S h) n -> safe (arrow_param rec n) any.
Proof using Hrec.
  intros Hf. unfold arrow_param. step.
  - eapply paren_param_safe; [fit|check|check].
  - eapply safe_then; [last_rule [R.ParenParam; R.NamedParam]|]. intros p Hp. unfold named_param.
    step. step. step; [apply type_app_safe; fit|by step].
Qed.

Lemma fn_params_safe n : fits R.FnParams (S h) n -> safe (fn_params rec n) any.
Proof using Hrec.
  intros Hf. unfold fn_params. step; step.
  - eapply paren_param_safe; [fit|check|check].
  - apply arrow_param_safe. fit.
Qed.

Lemma type_decl_safe n b : fits R.TypeDecl (S h) n -> safe (type_decl rec n b) any.
Proof using Hrec.
  intros Hf. unfold type_decl. step. step; [step; step; by step|]. step; [|by step]. step.
  - step; [apply type_record_safe; fit|by step].
  - step; [|by step]. step. unfold type_variant. step. step; [|by step]. step.
    step; [apply type_atom_safe; fit|by step].
Qed.
End types.

Lemma type_fun_safe fuel n : fits R.TypeFun fuel n -> safe (type_fun fuel n) any.
Proof.
  revert n. induction fuel as [|fuel IH]; intros n Hf; [destruct Hf; lia|]. simpl.
  by apply (type_fun_body_safe (type_fun fuel) fuel).
Qed.

(** * Patterns *)

Section patterns.
Context (wide_uppercase : string -> bool).

Lemma named_or_var_pattern_safe span name args :
  safe (named_or_var_pattern wide_uppercase span name args) any.
Proof.
  unfold named_or_var_pattern. case_decide.
  - destruct args; [by apply safe_ret|apply safe_fail; constructor].
  - destruct (match args with [] => _ | _ => _ end); by apply safe_ret.
Qed.

Context (rec : TreeNode -> Build Pattern) (h : nat).
Context (Hrec : forall n, fits R.Pattern h n -> safe (rec n) any).

Lemma dict_pattern_field_safe n : fits R.DictPatternField h n -> safe (dict_pattern_field rec n) any.
Proof using Hrec.
  intros Hf. unfold dict_pattern_field. step. step; [by apply ident_text_safe|].
  step; [step; apply Hrec; fit|by step].
Qed.

Lemma paren_pattern_safe n : fits R.ParenPattern h n -> safe (paren_pattern rec n) any.
Proof using Hrec.
  intros Hf. unfold paren_pattern.
  assert (Hall : forall m, m ∈ child_rules n R.Pattern -> fits R.Pattern h m) by (intros; fit).
  destruct (child_rules n R.Pattern) as [|p [|q ps]]; [by step|..].
  - step; [|by step]. apply Hrec, Hall. by left.
  - step; [|by step]. step. by apply Hrec, Hall.
Qed.

Lemma pattern_atom_safe n : fits R.PatternAtom (S h) n -> safe (pattern_atom wide_uppercase rec n) any.
Proof using Hrec.
  intros Hf. unfold pattern_atom.
  destruct (first_token n) as [t|] eqn:Ht.
  - destruct (tokens_only _ _ _ [KIdent] t Hf) as (k & Hk & Hm); [check|by apply first_token_in|].
    apply list_elem_of_singleton in Hk as ->. destruct t; try discriminate Hm.
    apply named_or_var_pattern_safe.
  - assert (Hone : has_one n [R.ListPattern; R.DictPattern; R.ParenPattern]).
    { destruct (must_children _ _ _ [KIdent] [R.ListPattern; R.DictPattern; R.ParenPattern] Hf)
        as [?|(t & k & Hin & _)]; [check|assumption|].
      apply first_token_some in Hin as [t' Ht']. congruence. }
    step; [step; [|by step]; step; apply Hrec; eapply child_fits_same; [|eassumption]; by eapply child_fits_first|].
    step; [step; [|by step]; step; apply dict_pattern_field_safe; eapply child_fits_same; [|eassumption];
           by eapply child_fits_first|].
    eapply has_one_cons in Hone; [|eassumption]. eapply has_one_cons in Hone; [|eassumption].
    eapply safe_then; [by eapply expect_rule_has|]. intros p Hp. by apply paren_pattern_safe.
Qed.

Lemma app_pattern_safe n : fits R.AppPattern (S h) n -> safe (app_pattern wide_uppercase rec n) any.
Proof using Hrec.
  intros Hf. unfold app_pattern. step.
  - step; [eapply name_ref_safe; fit|]. step; [|apply named_or_var_pattern_safe]. step.
    apply pattern_atom_safe. fit.
  - eapply safe_then; [last_rule [R.NameRef; R.PatternAtom]|]. intros a Ha. apply pattern_atom_safe. fit.
Qed.

Lemma pattern_body_safe n : fits R.Pattern (S h) n -> safe (pattern_body wide_uppercase rec n) any.
Proof using Hrec.
  intros Hf. unfold pattern_body. step; [step|]. step; [step|].
  eapply safe_then; [eapply expect_rule_safe; [fit|check]|intros ap Hfa].
  eapply (safe_then _ _ (fun lhs => match lhs with Ok _ => True | Err e => user_error e end)).
  { pose proof (app_pattern_safe ap) as Ha. intros b Hb. specialize (Ha ltac:(fit) b Hb).
    destruct (app_pattern wide_uppercase rec ap b) as [[p|[e|]] b']; [|assumption|assumption].
    by destruct Ha. }
  intros lhs Hlhs.
  eapply (safe_then _ _ (fun result => match result with Ok _ => True | Err e => user_error e end)).
  { destruct lhs as [lhs|e]; [|by apply safe_ret].
    step; [|by apply safe_ret]. step; [|by apply safe_ret]. apply Hrec. by eapply child_fits_first. }
  intros result Hr. step; [step|]. intros b Hb. destruct result; by split.
Qed.
End patterns.

Lemma pattern_safe wide fuel n : fits R.Pattern fuel n -> safe (pattern wide fuel n) any.
Proof.
  revert n. induction fuel as [|fuel IH]; intros n Hf; [destruct Hf; lia|]. simpl.
  by apply (pattern_body_safe wide (pattern wide fuel) fuel).
Qed.

(** * Expressions *)

Lemma only_rule_in n r m : only_rule n r = Some m -> m ∈ child_rules n r.
Proof. unfold only_rule. destruct (child_rules n r) as [|x [|]]; try done. intros [= ->]. by left. Qed.

Lemma only_fits r h n r' m : fits r h n -> only_rule n r' = Some m -> fits r' h m.
Proof. intros Hf Hm. eapply child_fits_same; [done|]. by apply only_rule_in. Qed.

Lemma take_in {A} (l : list A) k x : x ∈ take k l -> x ∈ l.
Proof. intros Hx. rewrite <- (take_drop k l), elem_of_app. by left. Qed.

Lemma grouped_tail_fits h n prefix tail : fits R.Expr (S h) n -> grouped_tail_application n = Some (prefix, tail) ->
  (forall m, m ∈ prefix -> fits R.PostfixExpr (S h) m) /\ fits R.Expr h tail.
Proof.
  intros Hf. unfold grouped_tail_application. destruct (first_rule n R.BinaryOp); [done|].
  destruct (only_rule n R.UnaryExpr) as [unary|] eqn:Hu; [|done]. destruct (first_rule unary R.TypeExpr); [done|].
  destruct (only_rule unary R.ApplicationExpr) as [app|] eqn:Ha; [|done].
  destruct (last (child_rules app R.PostfixExpr)) as [t|] eqn:Hl; [|done].
  destruct (grouped_expr_tail t) as [tl|] eqn:Ht; [|done]. intros [= <- <-].
  apply only_rule_in in Hu. assert (Hfu : fits R.UnaryExpr h unary) by (by eapply child_fits).
  apply (only_fits _ _ _ _ _ Hfu) in Ha. apply last_Some_elem_of in Hl. split.
  - intros m Hm. apply take_in in Hm. apply fits_le. exact (child_fits_same _ _ _ _ _ Ha Hm).
  - assert (Hft : fits R.PostfixExpr h t) by exact (child_fits_same _ _ _ _ _ Ha Hl). revert Ht. unfold grouped_expr_tail.
    destruct (first_rule t R.FieldName); [done|].
    destruct (only_rule t R.AtomExpr) as [atom|] eqn:H1; [|done]. apply (only_fits _ _ _ _ _ Hft) in H1.
    destruct (only_rule atom R.ParenExpr) as [paren|] eqn:H2; [|done]. apply (only_fits _ _ _ _ _ H1) in H2.
    destruct (only_rule paren R.GroupedExpr) as [g|] eqn:H3; [|done]. apply (only_fits _ _ _ _ _ H2) in H3.
    intros H4. by apply (only_fits _ _ _ _ _ H3) in H4.
Qed.

Definition step_fits (h : nat) (s : GroupedApplicationStep) : Prop :=
  match s with
  | StepSpan _ => True
  | StepApply terms _ => forall m, m ∈ terms -> fits R.PostfixExpr (S h) m
  end.

Lemma peel_grouped_safe h fuel current peeled steps :
  fits R.Expr (S h) current -> (peeled <> 0 -> fits R.Expr h current) -> Forall (step_fits h) steps ->
  MAX_AST_DEPTH + 2 <= fuel + peeled -> peeled <= MAX_AST_DEPTH ->
  safe (peel_grouped fuel current peeled steps)
    (fun '(c, p, s) => (p <> 0 -> fits R.Expr h c) /\ Forall (step_fits h) s).
Proof.
  revert current peeled steps. induction fuel as [|fuel IH]; intros current peeled steps Hf Hp Hs Hle Hmax; [lia|].
  intros b Hb. cbn [peel_grouped].
  destruct (grouped_tail_application current) as [[prefix tail]|] eqn:Hg; [|by split].
  destruct (grouped_tail_fits _ _ _ _ Hf Hg) as [Hprefix Htail].
  destruct (MAX_AST_DEPTH <? expr_depth b + (peeled + 1)) eqn:Hd; [by apply safe_depth|].
  apply Nat.ltb_ge in Hd. apply IH; [by apply fits_le|done| |lia|lia|done].
  constructor; [|done]. by destruct prefix.
Qed.

Lemma wrap_lets_safe decls body : safe (wrap_lets decls body) any.
Proof.
  revert body. induction decls as [|[[[pat tps] ann] def] decls IH]; intros body; simpl; [by apply safe_ret|].
  destruct pat; try apply IH; (destruct tps; [apply IH|apply safe_fail; constructor]).
Qed.

Lemma field_name_safe h n : fits R.FieldName h n -> safe (field_name n) any.
Proof.
  intros Hf. destruct (first_token_kind _ _ _ [KIdent; KInt] Hf) as (t & k & Ht & Hk & Hm); [check|check|].
  unfold field_name. rewrite Ht. rewrite elem_of_cons, list_elem_of_singleton in Hk.
  destruct Hk as [-> | ->]; by destruct t.
Qed.

Lemma binary_operator_safe h n : fits R.BinaryOp h n -> safe (expect_binary_operator n) any.
Proof.
  intros Hf. destruct (first_token_kind _ _ _ [KBinaryOperator] Hf) as (t & k & Ht & Hk & Hm); [check|check|].
  unfold expect_binary_operator. rewrite Ht. apply list_elem_of_singleton in Hk as ->. rewrite Hm.
  by apply safe_ret.
Qed.

Lemma group_records_nil wide terms : group_records wide terms = [] -> terms = [].
Proof.
  destruct terms as [|t terms]; [done|]. simpl. destruct terms as [|u terms]; [done|].
  destruct u; try done. by destruct (is_constructor_reference wide t).
Qed.

Section exprs.
Context (display : Token -> string) (wide : string -> bool) (tf : TreeNode -> Build TypeExpr)
  (pat : TreeNode -> Build Pattern) (rec : TreeNode -> Build Expr) (h : nat).
Context (Htf : forall n, fits R.TypeFun h n -> safe (tf n) any).
Context (Hpat : forall n, fits R.Pattern h n -> safe (pat n) any).
Context (Hrec : forall n, fits R.Expr h n -> safe (rec n) any).

Lemma expect_expr_safe r n : fits r (S h) n -> rule_must r [] [R.Expr] = true -> safe (expect_expr rec n) any.
Proof using Hrec.
  intros Hf Hm. unfold expect_expr. eapply safe_then; [by eapply expect_rule_safe|]. intros e He. by apply Hrec.
Qed.

(** The expressions directly below a node. *)
Lemma child_exprs_safe r n : fits r (S h) n -> safe (mapM_build rec (child_rules n R.Expr)) any.
Proof using Hrec. intros Hf. step. apply Hrec. by eapply child_fits. Qed.

Lemma paren_expr_safe n : fits R.ParenExpr (S h) n -> safe (paren_expr rec n) any.
Proof using Hrec.
  intros Hf. unfold paren_expr. step; [by step|]. step.
  { assert (Hfm : fits R.OperatorNameExpr h m) by (by eapply child_fits_first).
    pose proof (expect_token_safe _ _ _ KValueOperator Hfm ltac:(check)) as Ht. unfold expect_token in Ht.
    destruct (head (direct_tokens m KValueOperator)) as [t|].
    - destruct (Ht AstBuilder_new (Forall_nil_2 _)) as [_ Hm']. by destruct t.
    - destruct (Ht AstBuilder_new (Forall_nil_2 _)) as [_ He]. inversion He. }
  step; [step; [|by step]; eapply child_exprs_safe; fit|].
  eapply safe_then; [last_rule [R.UnitExpr; R.OperatorNameExpr; R.TupleExpr; R.GroupedExpr]|]. intros g Hg.
  step; [|by step]. eapply expect_expr_safe; [fit|check].
Qed.

Lemma dict_items_safe n idx children items :
  (forall r sp ch, CstNode r sp ch ∈ children -> CstNode r sp ch ∈ node_children n) ->
  fits R.DictExpr (S h) n -> safe (dict_items rec n idx children items) any.
Proof using Hrec.
  intros Hsub Hf. revert idx items. induction children as [|c children IH]; intros idx items; [by apply safe_ret|].
  assert (IH' : forall idx items, safe (dict_items rec n idx children items) any).
  { apply IH. intros r sp ch Hin. apply Hsub. by right. }
  assert (Hitem : forall r sp ch, c = CstNode r sp ch -> fits r h (mkTreeNode r sp ch)).
  { intros r sp ch ->. eapply child_fits; [exact Hf|]. unfold child_rules. apply list_elem_of_omap.
    exists (CstNode r sp ch). split; [apply Hsub; by left|]. simpl. by rewrite decide_True. }
  destruct c as [r sp ch|t]; [|apply IH'].
  destruct r; cbn [dict_items]; try apply IH'.
  - specialize (Hitem _ _ _ eq_refl). step. step; [|apply IH']. eapply expect_expr_safe; [fit|check].
  - step; [apply safe_push|apply IH'].
Qed.

Lemma dict_expr_safe n : fits R.DictExpr (S h) n -> safe (dict_expr rec n) any.
Proof using Hrec. intros Hf. unfold dict_expr. step; [|by step]. by apply dict_items_safe. Qed.

Lemma brace_expr_safe n : fits R.BraceExpr (S h) n -> safe (brace_expr rec n) any.
Proof using Hrec.
  intros Hf. unfold brace_expr. step; [apply dict_expr_safe; fit|].
  eapply safe_then; [last_rule [R.DictExpr; R.RecordUpdateExpr]|]. intros u Hu. unfold record_update_expr.
  step; [eapply expect_expr_safe; [fit|check]|]. step. step; [apply dict_expr_safe; fit|by step].
Qed.

Lemma neg_expr_safe n : fits R.NegExpr (S h) n -> safe (neg_expr rec n) any.
Proof using Hrec.
  intros Hf. unfold neg_expr. step. step; [eapply expect_expr_safe; [fit|check]|by step].
Qed.

(** The last expression below a node that has one. *)
Lemma last_expr_safe {A} r n (k : TreeNode -> Build A) otherwise :
  fits r (S h) n -> rule_must r [] [R.Expr] = true -> (forall e, fits R.Expr h e -> safe (k e) any) ->
  safe (match last (child_rules n R.Expr) with Some e => k e | None => otherwise end) any.
Proof using.
  intros Hf Hm Hk. destruct (last (child_rules n R.Expr)) as [e|] eqn:Hl.
  - apply last_Some_elem_of in Hl. apply Hk. by eapply child_fits.
  - apply last_None in Hl. by apply (must_child _ _ _ _ Hf) in Hm.
Qed.

Lemma lambda_expr_safe n : fits R.LambdaExpr (S h) n -> safe (lambda_expr tf rec n) any.
Proof using Htf Hrec.
  intros Hf. unfold lambda_expr. step.
  { step. unfold lambda_param. step. step; [|by step]. eapply (type_annotation_safe tf h); [exact Htf|fit]. }
  step; [by eapply (where_constraints_opt_safe tf h)|].
  eapply last_expr_safe; [exact Hf|check|]. intros e He. step; [by apply Hrec|by step].
Qed.

(** The parts of a binding after its pattern, in [let] and in [let rec]. *)
Lemma binding_rest_safe {A} r n (k : list Symbol -> option TypeExpr -> Expr -> A) :
  fits r (S h) n -> rule_must r [] [R.Expr] = true ->
  safe (let^ type_params := generic_params_opt n in let^ ann := type_annotation tf n in
        let^ e := expect_expr rec n in bret (k type_params ann e)) any.
Proof using Htf Hrec.
  intros Hf Hm. eapply (safe_then _ _ any); [apply generic_params_safe|intros tps _].
  eapply (safe_then _ _ any); [by eapply (type_annotation_safe tf h)|intros ann _].
  eapply (safe_then _ _ any); [by eapply expect_expr_safe|]. intros e _. by apply safe_ret.
Qed.

Lemma let_binding_safe n : fits R.LetBinding (S h) n -> safe (let_binding tf pat rec n) any.
Proof using Htf Hpat Hrec.
  intros Hf. unfold let_binding. step. step; [apply Hpat; fit|].
  eapply (binding_rest_safe R.LetBinding n (fun tps ann e => (_, tps, ann, e))); [exact Hf|check].
Qed.

Lemma let_rec_binding_safe n : fits R.LetRecBinding (S h) n -> safe (let_rec_binding tf pat rec n) any.
Proof using Htf Hpat Hrec.
  intros Hf. unfold let_rec_binding. step. step; [apply Hpat; fit|].
  destruct (pattern_binding_var _) as [v|]; [|apply safe_fail; constructor].
  eapply (binding_rest_safe R.LetRecBinding n (fun tps ann e => (v, tps, ann, e))); [exact Hf|check].
Qed.

Lemma let_expr_safe n : fits R.LetExpr (S h) n -> safe (let_expr tf pat rec n) any.
Proof using Htf Hpat Hrec.
  intros Hf. unfold let_expr. eapply last_expr_safe; [exact Hf|check|]. intros e He.
  step; [by apply Hrec|]. destruct (direct_tokens n KRec).
  - step; [step; apply let_binding_safe; fit|]. step; [apply wrap_lets_safe|by step].
  - step; [step; apply let_rec_binding_safe; fit|by step].
Qed.

Lemma if_expr_safe n : fits R.IfExpr (S h) n -> safe (if_expr rec n) any.
Proof using Htf Hpat Hrec.
  intros Hf. unfold if_expr. pose proof (count_children R.IfExpr (S h) n R.Expr 3 Hf ltac:(check)) as Hl.
  assert (Hall : forall m, m ∈ child_rules n R.Expr -> fits R.Expr h m) by (intros; by eapply child_fits).
  destruct (child_rules n R.Expr) as [|c [|t [|e [|]]]]; simplify_eq/=.
  do 3 (step; [apply Hrec, Hall; set_solver|]). by step.
Qed.

Lemma match_expr_safe n : fits R.MatchExpr (S h) n -> safe (match_expr pat rec n) any.
Proof using Hpat Hrec.
  intros Hf. unfold match_expr. step; [eapply expect_expr_safe; [fit|check]|]. step; [|by step].
  step. unfold match_arm. step. step; [apply Hpat; fit|].
  step; [eapply expect_expr_safe; [fit|check]|by step].
Qed.

(** ** Atoms *)

Lemma first_of_safe n arms last otherwise :
  has_one n (arms.*1 ++ last) ->
  Forall (fun '(r, f) => forall m, first_rule n r = Some m -> safe (f m) any) arms ->
  (has_one n last -> safe otherwise any) -> safe (first_of n arms otherwise) any.
Proof using.
  induction arms as [|[r f] arms IH]; simpl; intros Hone Harms Hlast; [by apply Hlast|].
  apply Forall_cons in Harms as [Hf Harms]. destruct (first_rule n r) as [m|] eqn:Hm; [by apply Hf|].
  apply IH; [|done|done]. by eapply has_one_cons.
Qed.

Lemma literal_kinds k t : k ∈ [KBool; KChar; KFloat; KInt; KString] -> matches k t = true ->
  literal_token t <> None.
Proof using. intros Hk. repeat (apply elem_of_cons in Hk as [->|Hk]; [by destruct t|]). inversion Hk. Qed.

Lemma atom_expr_safe n : fits R.AtomExpr (S h) n -> safe (atom_expr tf pat rec n) any.
Proof using Htf Hpat Hrec.
  intros Hf. unfold atom_expr. destruct (first_token n ≫= literal_token) as [e|] eqn:He; [by step|].
  eapply (first_of_safe _ _ [R.NegExpr]).
  - destruct (must_children _ _ _ [KBool; KChar; KFloat; KInt; KString]
      [R.ParenExpr; R.ListExpr; R.BraceExpr; R.HoleExpr; R.IdentExpr; R.LambdaExpr; R.LetExpr; R.IfExpr;
       R.MatchExpr; R.NegExpr] Hf) as [Hone|(t & k & Ht & _)]; [check|exact Hone|].
    apply first_token_some in Ht as [t' Ht']. exfalso.
    destruct (tokens_only _ _ _ [KBool; KChar; KFloat; KInt; KString] t' Hf) as (k' & Hk & Hm);
      [check|by apply first_token_in|]. rewrite Ht' in He. simpl in He.
    exact (literal_kinds _ _ Hk Hm He).
  - rewrite !Forall_cons. split_and!; [intros m Hm..|by apply Forall_nil].
    + apply paren_expr_safe. fit.
    + unfold list_expr. step; [|by step]. eapply child_exprs_safe. fit.
    + apply brace_expr_safe. fit.
    + by step.
    + unfold ident_expr. eapply (safe_then _ _ any); [|intros; by step].
      eapply expect_var_safe; [by eapply child_fits_first|check].
    + apply lambda_expr_safe. fit.
    + apply let_expr_safe. fit.
    + apply if_expr_safe. fit.
    + apply match_expr_safe. fit.
  - intros Hone. eapply safe_then; [by eapply expect_rule_has|]. intros m Hm. apply neg_expr_safe. fit.
Qed.

(** ** Applications *)

Lemma projections_safe base fields :
  (forall m, m ∈ fields -> fits R.FieldName (S h) m) -> safe (projections base fields) any.
Proof using.
  revert base. induction fields as [|f fields IH]; intros base Hall; simpl; [by step|].
  eapply (safe_then _ _ any); [eapply field_name_safe, Hall; by left|]. intros [name e] _.
  apply IH. intros m Hm. apply Hall. by right.
Qed.

Lemma postfix_expr_safe n : fits R.PostfixExpr (S h) n -> safe (postfix_expr tf pat rec n) any.
Proof using Htf Hpat Hrec.
  intros Hf. unfold postfix_expr. step. step; [apply atom_expr_safe; fit|].
  apply projections_safe. intros m Hm. fit.
Qed.

Lemma mapM_build_length {A B} (f : A -> Build B) l :
  (forall x, x ∈ l -> safe (f x) any) -> safe (mapM_build f l) (fun ys => length ys = length l).
Proof using.
  induction l as [|x l IH]; intros Hall; simpl; [by apply safe_ret|].
  eapply (safe_then _ _ any); [apply Hall; by left|]. intros y _.
  eapply safe_then; [apply IH; intros z Hz; apply Hall; by right|]. intros ys Hys.
  apply safe_ret. simpl. by f_equal.
Qed.

Lemma application_expr_safe n : fits R.ApplicationExpr (S h) n -> safe (application_expr wide tf pat rec n) any.
Proof using Htf Hpat Hrec.
  intros Hf. unfold application_expr. pose proof (must_child _ _ _ R.PostfixExpr Hf ltac:(check)) as Hne.
  eapply safe_then; [apply mapM_build_length; intros m Hm; apply postfix_expr_safe; fit|].
  intros terms Hlen. destruct (group_records wide terms) as [|base rest] eqn:Hg; [|by step].
  apply group_records_nil in Hg as ->. symmetry in Hlen. by apply nil_length_inv in Hlen.
Qed.

Lemma annotations_safe e anns :
  (forall m, m ∈ anns -> fits R.TypeExpr (S h) m) -> safe (annotations tf e anns) any.
Proof using Htf.
  revert e. induction anns as [|a anns IH]; intros e Hall; simpl; [by step|].
  step; [eapply (type_expr_safe tf h); [exact Htf|apply Hall; by left]|].
  apply IH. intros m Hm. apply Hall. by right.
Qed.

Lemma unary_expr_safe n : fits R.UnaryExpr (S h) n -> safe (unary_expr wide tf pat rec n) any.
Proof using Htf Hpat Hrec.
  intros Hf. unfold unary_expr. step. step; [apply application_expr_safe; fit|].
  apply annotations_safe. intros m Hm. fit.
Qed.

Lemma apply_application_group_safe terms tail :
  (forall m, m ∈ terms -> fits R.PostfixExpr (S h) m) ->
  safe (apply_application_group tf pat rec terms tail) any.
Proof using Htf Hpat Hrec.
  intros Hall. destruct terms as [|t terms]; simpl; [by step|].
  step; [apply postfix_expr_safe, Hall; by left|].
  step; [step; apply postfix_expr_safe, Hall; by right|by step].
Qed.

Lemma apply_steps_safe steps e : Forall (step_fits h) steps -> safe (apply_steps tf pat rec steps e) any.
Proof using Htf Hpat Hrec.
  revert e. induction steps as [|s steps IH]; intros e Hs; simpl; [by step|].
  apply Forall_cons in Hs as [Hs Hrest]. destruct s as [span|terms span]; [by apply IH|].
  step; [by apply apply_application_group_safe|by apply IH].
Qed.

Lemma try_grouped_safe n :
  fits R.Expr (S h) n -> safe (try_grouped_tail_application_expr tf pat rec n) any.
Proof using Htf Hpat Hrec.
  intros Hf. unfold try_grouped_tail_application_expr.
  eapply safe_then; [apply (peel_grouped_safe h); [exact Hf|done|constructor|lia|unfold MAX_AST_DEPTH; lia]|].
  intros [[current peeled] steps] [Hc Hs]. destruct peeled as [|peeled]; [by step|].
  step; [apply Hrec; by apply Hc|]. step; [by apply apply_steps_safe|by step].
Qed.

(** ** The loop over operands and operators *)

Definition is_unary (c : Cst RexRule Token) : bool := match c with CstNode R.UnaryExpr _ _ => true | _ => false end.

Lemma expr_children_safe n children operands operators :
  fits R.Expr (S h) n -> (forall c, c ∈ children -> c ∈ node_children n) ->
  safe (expr_children wide tf pat rec children operands operators)
    (fun '(operands', _) => operands' <> [] \/ (operands' = operands /\ existsb is_unary children = false)).
Proof using Htf Hpat Hrec.
  intros Hf. revert operands operators.
  induction children as [|c children IH]; intros operands operators Hin; [by apply safe_ret; right|].
  assert (Hrest : forall c', c' ∈ children -> c' ∈ node_children n) by (intros; apply Hin; by right).
  assert (Hitem : forall r sp ch, c = CstNode r sp ch -> fits r (S h) (mkTreeNode r sp ch)).
  { intros r sp ch ->. eapply child_fits_same; [exact Hf|]. unfold child_rules. apply list_elem_of_omap.
    exists (CstNode r sp ch). split; [apply Hin; by left|]. simpl. by rewrite decide_True. }
  destruct c as [r sp ch|t]; [destruct r; try by apply IH|by apply IH]; cbn [expr_children].
  - eapply (safe_then _ _ any); [eapply binary_operator_safe; by apply Hitem|]. intros op _. by apply IH.
  - eapply (safe_then _ _ any); [apply unary_expr_safe; by apply Hitem|]. intros e _.
    eapply safe_impl; [by apply IH|]. intros [ops' rest] [Hne|[-> _]]; left; [done|by destruct operands].
Qed.

Lemma expr_has_operand n : fits R.Expr (S h) n -> existsb is_unary (node_children n) = true.
Proof using.
  intros Hf. pose proof (must_child _ _ _ R.UnaryExpr Hf ltac:(check)) as Hne. unfold child_rules in Hne.
  clear Hf. induction (node_children n) as [|c l IH]; [done|]. simpl in *.
  destruct c as [r sp ch|t]; simpl in *; [|by apply IH].
  destruct r; try done; apply IH; intros Heq; apply Hne; by case_decide.
Qed.

Lemma expr_body_safe n : fits R.Expr (S h) n -> safe (expr_body display wide tf pat rec n) any.
Proof using Htf Hpat Hrec.
  intros Hf. unfold expr_body. step; [by step|]. step; [by step|].
  eapply (safe_then _ _ any); [by apply try_grouped_safe|]. intros [e|] _; [step; by step|].
  eapply safe_then; [by apply (expr_children_safe n)|]. intros [operands operators] Hops.
  assert (Hne : operands <> []).
  { destruct Hops as [Hops|[_ Hno]]; [exact Hops|]. by rewrite expr_has_operand in Hno. }
  step; [by step|]. destruct operands as [|o operands]; [done|].
  destruct (MAX_AST_DEPTH <=? length operators); [apply safe_depth|].
  destruct (fold_binary_expr_answers display (o :: operands) operators Hne) as [e ->]. by step.
Qed.
End exprs.

Lemma expr_safe display wide depth fuel n :
  fits R.Expr fuel n -> fuel <= depth -> safe (expr display wide depth fuel n) any.
Proof.
  revert n. induction fuel as [|fuel IH]; intros n Hf Hle; [destruct Hf; lia|]. simpl.
  apply (expr_body_safe display wide _ _ _ fuel); [..|exact Hf].
  - intros m Hm. apply type_fun_safe. eapply fits_weaken; [exact Hm|lia].
  - intros m Hm. apply pattern_safe. eapply fits_weaken; [exact Hm|lia].
  - intros m Hm. apply IH; [exact Hm|lia].
Qed.
