(* ===== verification/DeclSafety.v ===== *)
(** Declarations and whole programs: the builder answers on every tree of the Rex
    grammar, and the composition with the parser on every sequence of tokens. *)

From S2P Require Import Prelude Span Types Syntax Token Peg Grammar GrammarSem GrammarTerm RexGrammar.
From S2P Require Import Ast Operators AstBuilder Derives BuilderSafety.

Local Abbreviation any := (fun _ => True).

Lemma safe_mapM2 {A B} (f : A -> Build B) l (Q : A -> B -> Prop) :
  (forall x, x ∈ l -> safe (f x) (Q x)) -> safe (mapM_build f l) (Forall2 Q l).
Proof.
  induction l as [|x l IH]; intros Hall; simpl; [by apply safe_ret|].
  eapply safe_then; [apply Hall; by left|]. intros y Hy.
  eapply safe_then; [apply IH; intros z Hz; apply Hall; by right|]. intros ys Hys.
  apply safe_ret. by constructor.
Qed.

(** * Declarations *)

Section decls.
Context (tf : TreeNode -> Build TypeExpr) (rec : TreeNode -> Build Expr) (h : nat).
Context (Htf : forall n, fits R.TypeFun h n -> safe (tf n) any).
Context (Hrec : forall n, fits R.Expr h n -> safe (rec n) any).

(** ** Imports *)

Lemma ident_in n t : t ∈ direct_tokens n KIdent -> matches KIdent t = true.
Proof using. intros Hin. by apply list_elem_of_filter in Hin as [? _]. Qed.

(** The path has a last segment, so that an import needs no alias. *)
Lemma import_path_safe n : fits R.ImportPath (S h) n ->
  safe (import_path n) (fun '(_, alias) => is_Some alias).
Proof using.
  intros Hf. unfold import_path. destruct (first_rule n R.DottedImportPath) as [d|] eqn:Hd.
  - assert (Hfd : fits R.DottedImportPath h d) by exact (child_fits_first _ _ _ _ _ Hf Hd).
    eapply safe_then; [apply (safe_mapM2 _ _ (fun _ _ => True)); intros t Ht; by apply ident_text_safe, (ident_in d)|].
    intros names Hlen%Forall2_length. apply safe_ret, last_is_Some. intros ->.
    destruct (must_children R.DottedImportPath h d [KIdent] [] Hfd) as [(r' & Hr & _)|(t & k & Ht & Hk & Hmt)];
      [check|inversion Hr|]. apply list_elem_of_singleton in Hk as ->.
    apply (nil_length_inv (direct_tokens d KIdent)) in Hlen.
    exact (filter_nil_not_elem_of _ _ t Hlen Hmt Ht).
  - eapply safe_then; [last_rule [R.DottedImportPath; R.RelativeImportPath]|]. intros r Hr. step.
    eapply safe_then.
    { eapply (safe_mapM2 _ _ (fun c o => forall t, c = CstToken t -> matches KIdent t = true -> is_Some o)).
      intros c Hc. destruct c as [q sp ch|t].
      - destruct q; try (apply safe_ret; intros ? [=]).
        eapply (safe_then _ _ any); [eapply (expect_ident_safe R.ImportPathSegment h); [|check]|].
        + eapply child_fits_same; [exact Hr|]. apply list_elem_of_omap. eexists. split; [exact Hc|done].
        + intros name _. by apply safe_ret.
      - destruct (matches KIdent t) eqn:Hm.
        + eapply (safe_then _ _ any); [by apply ident_text_safe|]. intros name _. apply safe_ret. intros. by eexists.
        + apply safe_ret. intros t' [= ->]. congruence. }
    intros rest Hrest. apply safe_ret, last_is_Some. intros Hnil. apply app_nil in Hnil as [_ Hnil].
    destruct (must_children R.RelativeImportPath h r [KIdent] [] Hr) as [(r' & Hr' & _)|(t & k & Ht & Hk & Hmt)];
      [check|inversion Hr'|]. apply list_elem_of_singleton in Hk as ->.
    apply token_in in Ht. apply list_elem_of_lookup in Ht as [i Hi].
    destruct (Forall2_lookup_l _ _ _ _ _ Hrest Hi) as (o & Ho & Hsome). destruct (Hsome t eq_refl Hmt) as [name ->].
    assert (Hin : name ∈ omap id rest).
    { apply list_elem_of_omap. exists (Some name). split; [by eapply list_elem_of_lookup_2|done]. }
    rewrite Hnil in Hin. inversion Hin.
Qed.

Lemma import_items_safe nodes names items :
  (forall m, m ∈ nodes -> fits R.ImportItem (S h) m) -> safe (import_items nodes names items) any.
Proof using.
  revert names items. induction nodes as [|m nodes IH]; intros names items Hall; simpl; [by step|].
  assert (Hm : fits R.ImportItem (S h) m) by (apply Hall; by left).
  step. step; [eapply value_name_safe; fit|].
  step; [step; apply ident_text_safe, (ident_in m); by apply last_Some_elem_of|].
  case_decide; [apply safe_fail; constructor|]. apply IH. intros m' Hm'. apply Hall. by right.
Qed.

Lemma import_clause_safe n : fits R.ImportClause (S h) n -> safe (import_clause n) any.
Proof using.
  intros Hf. unfold import_clause. destruct (direct_tokens n KMul); [|by step].
  step; [apply import_items_safe; intros; fit|by step].
Qed.

Lemma import_decl_safe n b : fits R.ImportDecl (S h) n -> safe (import_decl n b) any.
Proof using.
  intros Hf. unfold import_decl. step.
  eapply safe_then; [apply import_path_safe; fit|]. intros [path alias] [dflt Ha].
  eapply (safe_then _ _ any); [step; apply import_clause_safe; fit|intros clause _].
  step; [|by step]. step.
  - destruct clause; [apply safe_fail; constructor|]. eapply expect_ident_safe; [by eapply child_fits_first|check].
  - rewrite Ha. by step.
Qed.

(** ** Functions *)

Lemma flatten_signature_safe sig body (Q : SignatureFnParts -> Prop) :
  (forall parts, Q parts) -> safe (blift (flatten_signature_fn sig body)) Q.
Proof using.
  intros HQ b Hb. unfold blift, flatten_signature_fn. destruct (split_arrows sig) as [[|ty tys] ret];
    [by repeat constructor|].
  destruct body; try (split; [exact Hb|apply HQ]).
  destruct (split_lambdas _) as [[params cs] cur]. case_decide; (split; [exact Hb|]); [apply HQ|constructor].
Qed.

(** The parts that follow the parameters: [-> type where constraints]. *)
Lemma signature_safe {A} r n (k : TypeExpr -> list TypeConstraint -> Build A) Q :
  fits r (S h) n -> rule_must r [] [R.TypeExpr] = true ->
  (forall t cs, safe (k t cs) Q) ->
  safe (let^ m := expect_rule n R.TypeExpr in let^ t := type_expr tf m in
        let^ cs := where_constraints_opt tf n in k t cs) Q.
Proof using Htf.
  intros Hf Hm Hk. eapply safe_then; [by eapply expect_rule_safe|]. intros m Hfm.
  eapply (safe_then _ _ any); [eapply (type_expr_safe tf h); [exact Htf|by apply fits_le]|]. intros t _.
  eapply (safe_then _ _ any); [by eapply (where_constraints_opt_safe tf h)|]. intros cs _. apply Hk.
Qed.

Lemma expr_of_safe r n : fits r (S h) n -> rule_must r [] [R.Expr] = true ->
  safe (let^ m := expect_rule n R.Expr in rec m) any.
Proof using Hrec. intros Hf Hm. eapply safe_then; [by eapply expect_rule_safe|]. exact Hrec. Qed.

Lemma fn_decl_safe n b : fits R.FnDecl (S h) n -> safe (fn_decl tf rec n b) any.
Proof using Htf Hrec.
  intros Hf. unfold fn_decl. step. step; [apply generic_params_safe|]. step.
  - assert (Hfm : fits R.FnSignatureDecl (S h) m) by (apply fits_le; by eapply child_fits_first).
    apply (signature_safe R.FnSignatureDecl); [exact Hfm|check|]. intros t cs. step. step; [by apply Hrec|].
    eapply (safe_then _ _ any); [by apply flatten_signature_safe|]. intros parts _. by step.
  - eapply safe_then; [last_rule [R.FnSignatureDecl; R.FnParamDecl]|]. intros d Hd. step.
    step; [eapply (fn_params_safe tf h); [exact Htf|fit]|].
    apply (signature_safe R.FnParamDecl); [by apply fits_le|check|]. intros t cs. step.
    step; [apply Hrec; eapply fits_weaken; [eassumption|lia]|by step].
Qed.

Lemma declare_fn_decl_safe n b : fits R.DeclareFnDecl (S h) n -> safe (declare_fn_decl tf n b) any.
Proof using Htf.
  intros Hf. unfold declare_fn_decl. step. step; [apply generic_params_safe|].
  eapply (safe_then _ _ any); [|intros [[params ret] cs] _; by step]. step.
  - assert (Hfm : fits R.DeclareParamSig (S h) m) by (apply fits_le; by eapply child_fits_first).
    step. step; [eapply (fn_params_safe tf h); [exact Htf|fit]|].
    apply (signature_safe R.DeclareParamSig); [exact Hfm|check|]. intros t cs. by step.
  - eapply safe_then; [last_rule [R.DeclareParamSig; R.BareFnSig]|]. intros d Hd.
    apply (signature_safe R.BareFnSig); [by apply fits_le|check|]. intros t cs.
    destruct (flatten_decl_signature t). by step.
Qed.

(** ** Classes and instances *)

Lemma class_method_safe n : fits R.ClassMethod (S h) n -> safe (class_method tf n) any.
Proof using Htf.
  intros Hf. unfold class_method. step. step; [eapply value_name_safe; fit|].
  step; [apply generic_params_safe|]. step.
  step; [eapply (type_expr_safe tf h); [exact Htf|fit]|by step].
Qed.

(** [<= constraints] of a class or an instance. *)
Lemma context_safe r n : fits r (S h) n -> rule_must r [] [R.TypeConstraints] = true ->
  safe (let^ m := expect_rule n R.TypeConstraints in type_constraints tf m) any.
Proof using Htf.
  intros Hf Hm. eapply safe_then; [by eapply expect_rule_safe|]. intros m Hfm.
  eapply (type_constraints_safe tf h); [exact Htf|by apply fits_le].
Qed.

Lemma class_decl_safe n b : fits R.ClassDecl (S h) n -> safe (class_decl tf n b) any.
Proof using Htf.
  intros Hf. unfold class_decl. step.
  step; [step; eapply expect_ident_safe; [fit|check]|].
  step; [step; eapply (context_safe R.SuperClause); [fit|check]|].
  step; [step; step; apply class_method_safe; fit|by step].
Qed.

Lemma instance_method_safe n : fits R.InstanceMethod (S h) n -> safe (instance_method tf rec n) any.
Proof using Htf Hrec.
  intros Hf. unfold instance_method. step. step; [eapply value_name_safe; fit|].
  step; [apply generic_params_safe|]. step; [by eapply (type_annotation_safe tf h)|].
  step. step; [by apply Hrec|by step].
Qed.

Lemma instance_decl_safe n b : fits R.InstanceDecl (S h) n -> safe (instance_decl tf rec n b) any.
Proof using Htf Hrec.
  intros Hf. unfold instance_decl. step. step; [eapply name_ref_safe; fit|].
  step; [apply generic_params_safe|]. step. step; [eapply (type_app_safe tf h); [exact Htf|fit]|].
  step; [step; eapply (context_safe R.InstanceContext); [fit|check]|].
  step; [step; step; apply instance_method_safe; fit|by step].
Qed.

(** ** The unit *)

Lemma decl_of_safe n arms : has_one n (arms.*1) ->
  Forall (fun '(r, f) => forall m, first_rule n r = Some m -> safe (f m) any) arms -> safe (decl_of n arms) any.
Proof using.
  induction arms as [|[r f] arms IH]; simpl; intros Hone Harms; [by destruct Hone as (r & Hr & _); inversion Hr|].
  apply Forall_cons in Harms as [Hf Harms]. destruct (first_rule n r) as [m|] eqn:Hm; [by apply Hf|].
  apply IH; [|done]. by eapply has_one_cons.
Qed.

Lemma safe_wrap {A B} (m : Build A) (f : A -> B) : safe m any -> safe (let^ a := m in bret (f a)) any.
Proof using. intros Hm. eapply (safe_then _ _ any); [exact Hm|]. intros a _. by apply safe_ret. Qed.

Lemma decl_body_safe n b : fits R.DeclBody (S h) n ->
  safe (decl_of n
    [(R.ImportDecl, fun n => let^ d := import_decl n b in bret (DImport d));
     (R.TypeDecl, fun n => let^ d := type_decl tf n b in bret (DType d));
     (R.FnDecl, fun n => let^ d := fn_decl tf rec n b in bret (DFn d));
     (R.DeclareFnDecl, fun n => let^ d := declare_fn_decl tf n b in bret (DDeclareFn d));
     (R.ClassDecl, fun n => let^ d := class_decl tf n b in bret (DClass d));
     (R.InstanceDecl, fun n => let^ d := instance_decl tf rec n b in bret (DInstance d))]) any.
Proof using Htf Hrec.
  intros Hf. apply decl_of_safe; [by eapply must_rules; [exact Hf|check]|].
  rewrite !Forall_cons. split_and!; [intros m Hm; apply safe_wrap..|by apply Forall_nil].
  - apply import_decl_safe. fit.
  - apply (type_decl_safe tf h); [exact Htf|fit].
  - apply fn_decl_safe. fit.
  - apply declare_fn_decl_safe. fit.
  - apply class_decl_safe. fit.
  - apply instance_decl_safe. fit.
Qed.

Lemma decl_safe n : fits R.Decl (S h) n -> safe (decl tf rec n) any.
Proof using Htf Hrec.
  intros Hf. unfold decl.
  eapply (safe_then _ _ (fun '(_, body) => fits R.DeclBody (S h) body)).
  - step.
    + eapply safe_then; [eapply expect_rule_safe; [fit|check]|]. intros body Hb. apply safe_ret.
      eapply fits_weaken; [exact Hb|lia].
    + eapply safe_then; [last_rule [R.PublicDecl; R.PrivateDecl]|]. intros p Hp.
      eapply safe_then; [eapply expect_rule_safe; [by apply fits_le|check]|]. intros body Hb. apply safe_ret.
      by apply fits_le.
  - intros [b body] Hb. by apply decl_body_safe.
Qed.

Lemma program_body_safe n : fits R.CompilationUnit (S h) n -> safe (program_body tf rec n) any.
Proof using Htf Hrec.
  intros Hf. unfold program_body. step; [step; apply decl_safe; fit|].
  step; [step; apply Hrec; by eapply child_fits_first|by step].
Qed.
End decls.

(** * Programs *)

Lemma parse_start_mono fuel fuel' en x :
  parse_start rex_grammar fuel en = Some x -> fuel <= fuel' -> parse_start rex_grammar fuel' en = Some x.
Proof.
  unfold parse_start, parse_rule. intros Hp Hle.
  destruct (run rex_grammar fuel _ [] _) as [[r s]|] eqn:Hr; [|done].
  apply (run_mono _ _ fuel') in Hr; [|exact Hle]. by rewrite Hr.
Qed.

Lemma program_parse_halts ts : exists fuel x, parse_start rex_grammar fuel (input_engine ts) = Some x.
Proof.
  unfold input_engine, rex_grammar.
  exact (parse_start_halts _ (TokEof (tokens_eof ts)) eq_refl _ _ _ _ _ token_eof_kind rex_grammar_checked).
Qed.

(** What the parser hands to the builder. *)
Lemma parsed_fits (ts : Tokens) fuel c s' h :
  parse_start rex_grammar fuel (input_engine ts) = Some (Ok c, s') -> height c <= h ->
  exists r sp ch, c = CstNode r sp ch /\ fits R.CompilationUnit (S h) (mkTreeNode r sp ch).
Proof.
  intros Hp Hh. unfold input_engine in Hp.
  apply (parse_rule_ok (strip_comments (items ts)) (TokEof (tokens_eof ts))) in Hp as [Ho (sp & ch & ->)];
    [|apply good_initial].
  eexists _, _, _. split; [reflexivity|]. apply sem_gen in Ho. inversion Ho; subst.
  split; [reflexivity| |eexists; split; eassumption]. unfold node_height. simpl in Hh |- *. lia.
Qed.

(** What a program may be answered with: a unit, or errors, all the user's. *)
Definition user_answer (r : result (list ParseError) CompilationUnit) : Prop :=
  match r with
  | Ok _ => True
  | Err errs => errs <> [] /\ Forall user_error errs
  end.

Section programs.
Context (display : Token -> string) (wide : string -> bool).

Lemma program_answer depth n :
  fits R.CompilationUnit (S depth) n -> exists r, program display wide depth n = Some r /\ user_answer r.
Proof using.
  intros Hf. pose proof (program_body_safe (type_fun depth) (expr display wide depth depth) depth
    (type_fun_safe depth) (fun m Hm => expr_safe display wide depth depth m Hm (le_n depth)) n Hf
    AstBuilder_new (Forall_nil_2 _)) as Hs.
  unfold program. destruct (program_body _ _ n AstBuilder_new) as [[u|[e|]] b]; [..|done].
  - eexists. split; [reflexivity|]. destruct Hs as [Hb _]. by destruct (errors b).
  - eexists. split; [reflexivity|]. destruct Hs as [Hb He]. split; [by destruct (errors b)|].
    apply Forall_app. split; [exact Hb|]. by apply Forall_singleton.
Qed.
End programs.

(** * Properties *)

(** C24. The builder trusts the grammar, and may: on every tree that the Rex grammar
    can produce for a compilation unit, with fuel for its height, [program] answers,
    and every error it answers with or records is one of [user_error], so that no
    "internal parser error", "expected grammar node" or other complaint about the
    shape of the tree is ever reported, and no [remove] from an empty vector panics. *)
Theorem builder_answers display wide depth n (Hf : fits R.CompilationUnit (S depth) n) :
  exists r, program display wide depth n = Some r /\ user_answer r.
Proof. by apply program_answer. Qed.

(** C25. Parsing a program is total: whatever the tokens, with enough fuel
    [parse_program] answers with a unit, with the one syntax error of the parser's
    furthest failure, or with errors of the user's making. *)
Theorem parse_program_total display wide (ts : Tokens) :
  exists fuel0 depth0, forall fuel depth, fuel0 <= fuel -> depth0 <= depth ->
  exists r, parse_program display wide fuel depth ts = Some r /\
    (user_answer r \/
     exists failure, r = Err [parser_error_from_failure display failure (strip_comments (items ts))
                               (eof_span (input_engine ts))]).
Proof.
  destruct (program_parse_halts ts) as (fuel0 & [[c|failure] s'] & Hp).
  - exists fuel0, (height c). intros fuel depth Hfuel Hdepth.
    destruct (parsed_fits ts fuel0 c s' depth Hp Hdepth) as (r & sp & ch & -> & Hf).
    apply (parse_start_mono _ fuel) in Hp; [|exact Hfuel]. unfold parse_program. rewrite Hp.
    destruct (program_answer display wide depth _ Hf) as (x & Hx & Hu). exists x. split; [exact Hx|by left].
  - exists fuel0, 0. intros fuel depth Hfuel _. apply (parse_start_mono _ fuel) in Hp; [|exact Hfuel].
    unfold parse_program. rewrite Hp. eexists. split; [reflexivity|right]. by exists failure.
Qed.

Definition demo_tokens (l : list (Span -> Token)) : Tokens := mkTokens (map (fun t => t Span_default) l) Span_default.

Definition demo_program (l : list (Span -> Token)) : option (result (list ParseError) CompilationUnit) :=
  parse_program (fun _ => "") (fun _ => false) 4000 60 (demo_tokens l).

Lemma builder_answers_witness :
  exists n r, fits R.CompilationUnit 41 n /\ program (fun _ => "") (fun _ => false) 40 n = Some r /\ user_answer r.
Proof.
  assert (Hok : match parse_start rex_grammar 600 (input_engine demo_source) with
                | Some (Ok c, _) => height c <=? 40 | _ => false end = true) by (vm_compute; reflexivity).
  destruct (parse_start rex_grammar 600 (input_engine demo_source)) as [[[c|f] s']|] eqn:Hp; [|discriminate|discriminate].
  apply Nat.leb_le in Hok. destruct (parsed_fits demo_source 600 c s' 40 Hp Hok) as (r & sp & ch & _ & Hf).
  destruct (builder_answers (fun _ => "") (fun _ => false) 40 _ Hf) as (x & Hx & Hu).
  exists (mkTreeNode r sp ch), x. split; [exact Hf|]. split; assumption.
Defined.

(** Parentheses around the last argument change the other arguments:
    [g F { a = 1 } x] gives [g] the record [F { a = 1 }], but [g F { a = 1 } (x)]
    gives it [F] and [{ a = 1 }] as two arguments, because the loop for groups in
    tail position applies the terms without joining a constructor and its record. *)
Theorem grouped_tail_splits_record :
  let var x := XVar (mkVar Span_default x) in
  let app := XApp Span_default in
  let dict := XDict Span_default [("a", XUint Span_default 1)] in
  let prefix := [TokIdent "g"; TokIdent "F"; TokBraceL; TokIdent "a"; TokAssign; TokInt 1; TokBraceR] in
  demo_program (prefix ++ [TokIdent "x"]) =
    Some (Ok (mkCompilationUnit [] (Some (app (app (var "g") (app (var "F") dict)) (var "x"))))) /\
  demo_program (prefix ++ [TokParenL; TokIdent "x"; TokParenR]) =
    Some (Ok (mkCompilationUnit [] (Some (app (app (app (var "g") (var "F")) dict) (var "x"))))).
Proof. split; vm_compute; reflexivity. Qed.

(** Unary minus takes the whole expression after it: [- 1 + 2] is read as
    [negate (1 + 2)], not as [(negate 1) + 2]. *)
Theorem negation_takes_the_rest :
  let var x := XVar (mkVar Span_default x) in
  let app := XApp Span_default in
  let num n := XUint Span_default n in
  demo_program [TokSub; TokInt 1; TokAdd; TokInt 2] =
    Some (Ok (mkCompilationUnit [] (Some (app (var "negate") (app (app (var "+") (num 1%Z)) (num 2%Z)))))).
Proof. vm_compute. reflexivity. Qed.
