(* ===== verification/EvalScheduler.v ===== *)
(** The evaluator's ready queues: [EvalScheduler] of
    [rex-engine/src/evaluator/scheduler.rs], as a refinement of a stack. *)

From S2P Require Import Prelude.

(** * Work items *)

(** [stack.rs]: [FrameId(usize)]. *)
Abbreviation FrameId := nat.

Section items.
Context {P : Type}.

Record EvalReturned : Type := mkEvalReturned { ret_child : FrameId; ret_value : P }.
Record EvalWorkItem : Type := mkEvalWorkItem { item_frame : FrameId; item_returned : option EvalReturned }.

Definition enter (frame : FrameId) : EvalWorkItem := mkEvalWorkItem frame None.
Definition receive (frame child : FrameId) (value : P) : EvalWorkItem :=
  mkEvalWorkItem frame (Some (mkEvalReturned child value)).
End items.
Arguments EvalReturned : clear implicits.
Arguments EvalWorkItem : clear implicits.

(** * The scheduler

    A [VecDeque] is a list, front first; [usize] limits are [N]. *)

Record EvalScheduler (P : Type) : Type := mkEvalScheduler {
  ready : list (EvalWorkItem P);
  deferred_ready : list (EvalWorkItem P);
  ready_work_limit : N }.
Arguments mkEvalScheduler {P}.
Arguments ready {P}.
Arguments deferred_ready {P}.
Arguments ready_work_limit {P}.

(** [VecDeque::pop_back]. *)
Definition pop_back {A} (l : list A) : option (list A * A) :=
  match rev l with
  | [] => None
  | x :: l => Some (rev l, x)
  end.

Section scheduler.
Context {P : Type}.
Implicit Types (s : EvalScheduler P) (item : EvalWorkItem P).

Definition EvalScheduler_new (root : FrameId) (limit : N) : EvalScheduler P :=
  mkEvalScheduler [enter root] [] (N.max limit 1).

(** The loop of [enforce_ready_limit]; each turn shortens [ready]. *)
Fixpoint enforce_loop (fuel : nat) (limit : N) (ready deferred : list (EvalWorkItem P))
  : list (EvalWorkItem P) * list (EvalWorkItem P) :=
  match fuel with
  | 0 => (ready, deferred)
  | S fuel =>
      if (limit <? N.of_nat (length ready))%N then
        match pop_back ready with
        | Some (ready, item) => enforce_loop fuel limit ready (item :: deferred)
        | None => enforce_loop fuel limit ready deferred
        end
      else (ready, deferred)
  end.

Definition enforce_ready_limit s : EvalScheduler P :=
  let '(r, d) := enforce_loop (length (ready s)) (ready_work_limit s) (ready s) (deferred_ready s) in
  mkEvalScheduler r d (ready_work_limit s).

(** The loop of [admit_deferred_ready]. *)
Fixpoint admit_loop (limit : N) (ready deferred : list (EvalWorkItem P))
  : list (EvalWorkItem P) * list (EvalWorkItem P) :=
  if (N.of_nat (length ready) <? limit)%N then
    match deferred with
    | [] => (ready, [])
    | item :: deferred => admit_loop limit (ready ++ [item]) deferred
    end
  else (ready, deferred).

Definition admit_deferred_ready s : EvalScheduler P :=
  let '(r, d) := admit_loop (ready_work_limit s) (ready s) (deferred_ready s) in
  mkEvalScheduler r d (ready_work_limit s).

Definition set_ready_work_limit (limit : N) s : EvalScheduler P :=
  enforce_ready_limit (mkEvalScheduler (ready s) (deferred_ready s) (N.max limit 1)).

Definition schedule_next item s : EvalScheduler P :=
  enforce_ready_limit (mkEvalScheduler (item :: ready s) (deferred_ready s) (ready_work_limit s)).

Definition pop_next s : option (EvalWorkItem P) * EvalScheduler P :=
  let s := admit_deferred_ready s in
  let '(item, r) := match ready s with [] => (None, []) | item :: r => (Some item, r) end in
  (item, admit_deferred_ready (mkEvalScheduler r (deferred_ready s) (ready_work_limit s))).

Definition has_ready_work s : bool :=
  match ready s, deferred_ready s with [], [] => false | _, _ => true end.

(** [visit_values], as the list of values it visits. *)
Definition scheduled_values s : list P :=
  omap (fun item => option_map ret_value (item_returned item)) (ready s ++ deferred_ready s).

(** * The contract: a stack *)

(** The work in the order in which it will be popped. *)
Definition work s : list (EvalWorkItem P) := ready s ++ deferred_ready s.

(** The active queue keeps to its limit, which is positive. *)
Definition within_limit s : Prop :=
  (1 <= ready_work_limit s)%N /\ (N.of_nat (length (ready s)) <= ready_work_limit s)%N.

Lemma pop_back_spec {A} (l l' : list A) x : pop_back l = Some (l', x) -> l = l' ++ [x].
Proof using.
  unfold pop_back. destruct (rev l) as [|y r] eqn:Hr; [done|]. intros [= <- <-].
  rewrite <- (rev_involutive l), Hr. done.
Qed.

Lemma pop_back_None {A} (l : list A) : pop_back l = None -> l = [].
Proof using. unfold pop_back. destruct (rev l) eqn:Hr; [|done]. intros _. by rewrite <- (rev_involutive l), Hr. Qed.

Lemma enforce_loop_spec fuel limit r d r' d' :
  length r <= fuel -> enforce_loop fuel limit r d = (r', d') ->
  r' ++ d' = r ++ d /\ (N.of_nat (length r') <= limit)%N.
Proof using.
  revert r d. induction fuel as [|fuel IH]; intros r d Hle; simpl.
  - destruct r; [|simpl in Hle; lia]. intros [= <- <-]. simpl. split; [done|lia].
  - destruct (limit <? N.of_nat (length r))%N eqn:Hlim.
    + destruct (pop_back r) as [[r0 x]|] eqn:Hp.
      * apply pop_back_spec in Hp as ->. intros He. apply IH in He; [|rewrite length_app in Hle; simpl in Hle; lia].
        by rewrite <- app_assoc.
      * apply pop_back_None in Hp as ->. apply N.ltb_lt in Hlim. simpl in Hlim. lia.
    + intros [= <- <-]. apply N.ltb_ge in Hlim. by split.
Qed.

Lemma enforce_work s : work (enforce_ready_limit s) = work s.
Proof using.
  unfold enforce_ready_limit, work. destruct (enforce_loop _ _ _ _) as [r d] eqn:He. simpl.
  by apply enforce_loop_spec in He as [? _].
Qed.

Lemma enforce_within s : (1 <= ready_work_limit s)%N -> within_limit (enforce_ready_limit s).
Proof using.
  intros H1. unfold enforce_ready_limit, within_limit. destruct (enforce_loop _ _ _ _) as [r d] eqn:He. simpl.
  apply enforce_loop_spec in He as [_ ?]; [|done]. by split.
Qed.

Lemma admit_loop_spec limit r d r' d' : (N.of_nat (length r) <= limit)%N ->
  admit_loop limit r d = (r', d') ->
  r' ++ d' = r ++ d /\ (N.of_nat (length r') <= limit)%N /\ (d' = [] \/ N.of_nat (length r') = limit).
Proof using.
  revert r. induction d as [|x d IH]; intros r Hle; simpl;
    (destruct (N.of_nat (length r) <? limit)%N eqn:Hlim; [apply N.ltb_lt in Hlim|apply N.ltb_ge in Hlim]).
  - intros [= <- <-]. by split_and!; [| |left].
  - intros [= <- <-]. split_and!; [done|done|by left].
  - intros He. apply IH in He as (H1 & H2 & H3); [|rewrite length_app; simpl; lia]. by rewrite H1, <- app_assoc.
  - intros [= <- <-]. split_and!; [done|done|right; lia].
Qed.

Lemma admit_spec s : within_limit s ->
  let s' := admit_deferred_ready s in
  work s' = work s /\ within_limit s' /\ ready_work_limit s' = ready_work_limit s /\
  (ready s' = [] -> work s = []).
Proof using.
  intros [H1 H2]. unfold admit_deferred_ready. destruct (admit_loop _ _ _) as [r d] eqn:He.
  apply admit_loop_spec in He as (Happ & Hle & Hfull); [|done]. simpl. split_and!; [done|by split|done|].
  intros ->. unfold work. rewrite <- Happ. destruct Hfull as [->|Hfull]; [done|simpl in Hfull; lia].
Qed.

Lemma has_ready_work_spec s : has_ready_work s = true <-> work s <> [].
Proof using. unfold has_ready_work, work. by destruct (ready s), (deferred_ready s). Qed.

Lemma pop_next_spec s : within_limit s ->
  (pop_next s).1 = head (work s) /\ work (pop_next s).2 = tail (work s) /\ within_limit (pop_next s).2 /\
  ready_work_limit (pop_next s).2 = ready_work_limit s.
Proof using.
  intros Hs. destruct (admit_spec s Hs) as (Hw & Hs' & Hl & Hempty). unfold pop_next.
  set (s1 := admit_deferred_ready s) in *.
  set (s2 := mkEvalScheduler (tail (ready s1)) (deferred_ready s1) (ready_work_limit s1)).
  assert (Hs2 : within_limit s2).
  { destruct Hs' as [H1 H2]. split; [done|]. simpl. destruct (ready s1); simpl in *; lia. }
  destruct (admit_spec s2 Hs2) as (Hw2 & Hs2' & Hl2 & _).
  assert (Hr : (match ready s1 with [] => (None, []) | item :: r => (Some item, r) end)
               = (head (ready s1), tail (ready s1))) by (by destruct (ready s1)).
  rewrite Hr. simpl. fold s2. rewrite Hw2, Hl2. change (work s2) with (tail (ready s1) ++ deferred_ready s1).
  change (work s1) with (ready s1 ++ deferred_ready s1) in Hw.
  destruct (ready s1) as [|x r]; simpl in *; [rewrite Hempty in Hw |- * by done|rewrite <- Hw]; by split_and!.
Qed.

(** ** Operations, on the queues and on the stack *)

Inductive operation : Type :=
  | SetLimit (limit : N)
  | Schedule item
  | Pop.

Definition perform (op : operation) s : option (EvalWorkItem P) * EvalScheduler P :=
  match op with
  | SetLimit limit => (None, set_ready_work_limit limit s)
  | Schedule item => (None, schedule_next item s)
  | Pop => pop_next s
  end.

Definition perform_stack (op : operation) (stack : list (EvalWorkItem P))
  : option (EvalWorkItem P) * list (EvalWorkItem P) :=
  match op with
  | SetLimit _ => (None, stack)
  | Schedule item => (None, item :: stack)
  | Pop => (head stack, tail stack)
  end.

Fixpoint run_scheduler (ops : list operation) s : list (option (EvalWorkItem P)) * EvalScheduler P :=
  match ops with
  | [] => ([], s)
  | op :: ops =>
      let '(out, s) := perform op s in
      let '(outs, s) := run_scheduler ops s in (out :: outs, s)
  end.

Fixpoint run_stack (ops : list operation) (stack : list (EvalWorkItem P))
  : list (option (EvalWorkItem P)) * list (EvalWorkItem P) :=
  match ops with
  | [] => ([], stack)
  | op :: ops =>
      let '(out, stack) := perform_stack op stack in
      let '(outs, stack) := run_stack ops stack in (out :: outs, stack)
  end.

Lemma perform_spec op s : within_limit s ->
  (perform op s).1 = (perform_stack op (work s)).1 /\ work (perform op s).2 = (perform_stack op (work s)).2 /\
  within_limit (perform op s).2.
Proof using.
  intros Hs. destruct op as [limit|item|]; simpl.
  - unfold set_ready_work_limit. rewrite enforce_work. split_and!; [done|done|apply enforce_within; simpl; lia].
  - unfold schedule_next. rewrite enforce_work. split_and!; [done|done|apply enforce_within; apply Hs].
  - destruct (pop_next_spec s Hs) as (? & ? & ? & _). by split_and!.
Qed.

Lemma run_scheduler_spec ops s : within_limit s ->
  (run_scheduler ops s).1 = (run_stack ops (work s)).1 /\
  work (run_scheduler ops s).2 = (run_stack ops (work s)).2 /\ within_limit (run_scheduler ops s).2.
Proof using.
  revert s. induction ops as [|op ops IH]; intros s Hs; simpl; [done|].
  destruct (perform_spec op s Hs) as (H1 & H2 & H3).
  destruct (perform op s) as [out s1], (perform_stack op (work s)) as [out' k]. simpl in *. subst out' k.
  specialize (IH s1 H3). destruct (run_scheduler ops s1) as [outs s2], (run_stack ops (work s1)) as [outs' k].
  simpl in *. destruct IH as (-> & <- & ?). done.
Qed.

Lemma new_within root limit : within_limit (EvalScheduler_new root limit).
Proof using. unfold within_limit. simpl. lia. Qed.
End scheduler.
Arguments operation : clear implicits.

(** * Properties *)

(** C26. The two queues are a stack: whatever the limits set in between, the
    operations of a scheduler that starts with the root frame pop exactly the items
    that a stack would, newest first, so that the limit never reorders, loses or
    repeats work; and the active queue never holds more items than its limit, which
    is at least one even when the embedder asks for zero. *)
Theorem scheduler_refines_stack {P} (root : FrameId) (limit : N) (ops : list (operation P)) :
  let '(pops, s) := run_scheduler ops (EvalScheduler_new root limit) in
  let '(stack_pops, stack) := run_stack ops [enter root] in
  pops = stack_pops /\ work s = stack /\ has_ready_work s = negb (bool_decide (length stack = 0)) /\
  (1 <= ready_work_limit s)%N /\ (N.of_nat (length (ready s)) <= ready_work_limit s)%N.
Proof.
  pose proof (run_scheduler_spec ops _ (new_within root limit)) as (H1 & H2 & H3 & H4).
  change (work (EvalScheduler_new (P := P) root limit)) with [enter (P := P) root] in *.
  destruct (run_scheduler ops _) as [pops s], (run_stack ops _) as [pops' stack]. simpl in *. subst.
  split_and!; try done. destruct (has_ready_work s) eqn:Hh.
  - apply has_ready_work_spec in Hh. destruct (work s); [done|]. by rewrite bool_decide_eq_false_2.
  - destruct (work s) eqn:Hw; [done|]. exfalso.
    assert (Ht : has_ready_work s = true) by (apply has_ready_work_spec; by rewrite Hw). congruence.
Qed.
