(* ===== verification/Calls.v ===== *)
(** The helpers of function application: [rex-engine/src/evaluator/mod.rs],
    [util.rs], the synthetic applications of [eval.rs] and [native_functions.rs], and
    the rounding of [as f32] and [as f64]. *)

From S2P Require Import Prelude Span Types Unify UnifyComplete BTree Adts Syntax TypedExprs Errors Heap.
From S2P Require Import HeapTrace HeapStress HeapCollect HeapSafety Env Scope Lists Values.
From Stdlib Require Import SpecFloat.

(** * Types of calls *)

Definition is_function_type (typ : ty) : bool := match typ with TFun _ _ => true | _ => false end.

Definition split_fun (typ : ty) : option (ty * ty) := match typ with TFun a b => Some (a, b) | _ => None end.

(** [unify(a, b).map_err(|_| EngineError::NativeType { .. })] *)
Definition unify_native (expected got : ty) : exec Subst :=
  match unify_types expected got with
  | Ok s => Ok s
  | Err _ => raise (NativeType (show_ty expected) (show_ty got))
  end.

Definition not_callable {A} (typ : ty) : exec A := raise (NotCallable (show_ty typ)).

Definition closed_type (t : ty) : bool := bool_decide (ftv t = ∅).

Section calls.
Context (debug_assertions : bool).

(** An inferred type counts when it is closed; otherwise the hint stands. *)
Definition resolve_arg_type (arg_type : option ty) (arg : RootedPtr) : SM ty :=
  match arg_type with
  | Some t =>
      if closed_type t then mret t
      else or_else (let* val_ty := infer_type debug_assertions arg in
                    mret (if closed_type val_ty then val_ty else t)) (mret t)
  | None => infer_type debug_assertions arg
  end.
End calls.

Definition application_result_type (func_type arg_type : ty) : exec ty :=
  match split_fun func_type with
  | None => not_callable func_type
  | Some (expected_arg, result) =>
      let? s := unify_native expected_arg arg_type in Ok (apply s result)
  end.

(** * Synthetic applications *)

Definition arg_name (idx : nat) : Symbol := "__rex_apply_arg_" +:+ pretty idx.

(** The loop that both functions run over the arguments. *)
Fixpoint apply_synthetic (idx : nat) (env : ScopedEnvironment) (expr : TypedExpr) (cur_type : ty)
    (args : list (RootedPtr * ty)) : exec (ScopedEnvironment * TypedExpr) :=
  match args with
  | [] => Ok (env, expr)
  | (arg, arg_type) :: args =>
      let env := Scoped_extend env (arg_name idx) arg in
      let arg_expr := mkTypedExpr arg_type (EVar (arg_name idx) []) in
      let? result_type := application_result_type cur_type arg_type in
      apply_synthetic (S idx) env (mkTypedExpr result_type (EApp expr arg_expr)) result_type args
  end.

Definition synthetic_rooted_application_expr_from_head (env : ScopedEnvironment) (head : TypedExpr)
    (args : list (RootedPtr * ty)) : exec (ScopedEnvironment * TypedExpr) :=
  apply_synthetic 0 env head (te_typ head) args.

Definition synthetic_application_expr (func : RootedPtr) (func_type : ty) (args : list (RootedPtr * ty))
  : exec (ScopedEnvironment * TypedExpr) :=
  let func_name : Symbol := "__rex_apply_func" in
  apply_synthetic 0 (Scoped_extend Scoped_new func_name func) (mkTypedExpr func_type (EVar func_name [])) func_type args.

(** * Numbers as floats

    A float is its bits; [as f32] and [as f64] round to nearest, ties to even. *)

(** The bits of a float of precision [prec] (with the hidden bit) and exponents
    below [emax]. *)
Definition float_bits (prec emax : Z) (f : spec_float) : N :=
  let mantissa := (prec - 1)%Z in
  let exponent := (Z.log2 emax + 1)%Z in
  let sign (s : bool) : Z := if s then Z.shiftl 1 (mantissa + exponent) else 0%Z in
  Z.to_N match f with
    | S754_zero s => sign s
    | S754_infinity s => (sign s + Z.shiftl (2 * emax - 1) mantissa)%Z
    | S754_nan => (Z.shiftl (2 * emax - 1) mantissa + Z.shiftl 1 (mantissa - 1))%Z
    | S754_finite s m e =>
        if (Z.pos m <? Z.shiftl 1 mantissa)%Z then (sign s + Z.pos m)%Z
        else (sign s + Z.shiftl (e + emax + prec - 2) mantissa + (Z.pos m - Z.shiftl 1 mantissa))%Z
    end.

(** The float that bits stand for. *)
Definition float_of_bits (prec emax : Z) (bits : N) : spec_float :=
  let mantissa := (prec - 1)%Z in
  let exponent := (Z.log2 emax + 1)%Z in
  let b := Z.of_N bits in
  let s := Z.testbit b (mantissa + exponent) in
  let m := Z.land b (Z.shiftl 1 mantissa - 1) in
  let e := Z.land (Z.shiftr b mantissa) (Z.shiftl 1 exponent - 1) in
  if (e =? 2 * emax - 1)%Z then if (m =? 0)%Z then S754_infinity s else S754_nan
  else if (e =? 0)%Z then match m with Z.pos p => S754_finite s p (3 - emax - prec) | _ => S754_zero s end
  else match (m + Z.shiftl 1 mantissa)%Z with
       | Z.pos p => S754_finite s p (e - emax - prec + 2)
       | _ => S754_nan
       end.

(** [x as f32] of an [f64]; a NaN becomes the quiet NaN without payload. *)
Definition f64_as_f32 (bits : N) : N :=
  float_bits 24 128
    match float_of_bits 53 1024 bits with
    | S754_finite s m e => binary_round 24 128 s m e
    | f => f
    end.

Definition nat_as_f32 (n : nat) : N := float_bits 24 128 (binary_normalize 24 128 (Z.of_nat n) 0 false).
Definition nat_as_f64 (n : nat) : N := float_bits 53 1024 (binary_normalize 53 1024 (Z.of_nat n) 0 false).

Example float_examples :
  nat_as_f32 3 = 0x40400000%N /\ nat_as_f64 3 = 0x4008000000000000%N /\ f64_as_f32 0x3ff8000000000000%N = 0x3fc00000%N /\
  f64_as_f32 0x3ff0000010000001%N = 0x3f800001%N /\ f64_as_f32 0x3ff0000010000000%N = 0x3f800000%N /\
  f64_as_f32 0x7fefffffffffffff%N = 0x7f800000%N /\ f64_as_f32 0xb7f0000000000000%N = 0x80200000%N /\
  f64_as_f32 0%N = 0%N.
Proof. repeat split. Qed.
