(* ===== verification/NativeTask.v ===== *)
(** Native tasks: [rex-engine/src/evaluator/native_functions.rs]. A task is a native
    function that calls back: it is entered once, asks the evaluator to apply functions
    for it, and receives their results. *)

From S2P Require Import Prelude Span Types Unify UnifyComplete BTree Adts Syntax TypedExprs Errors Heap.
From S2P Require Import HeapTrace HeapStress HeapCollect HeapSafety Env Scope Lists Values EvalScheduler Calls.

(** * Data *)

Inductive NativeSequenceShape : Type := ShapeList.
Inductive NativeUnaryShape : Type := ShapeOption | ShapeResult.
Inductive NativeSequencePredicateMode : Type := ModeCount | ModePartition.
Inductive NativeListSearchMode : Type := SearchAny | SearchAll | SearchFind | SearchFindIndex.
Inductive NativeFoldOrder : Type := FoldLeft | FoldRight.
Inductive NativeFoldState : Type := FoldEnter | FoldApplyFirst | FoldApplySecond.
Inductive NativeArrayEqState : Type := EqEnter | EqApplyFirst | EqApplySecond.
Inductive NativeMeanState : Type :=
  | MeanEnter | MeanApplyPlusFirst | MeanApplyPlusSecond | MeanApplyDivFirst | MeanApplyDivSecond.

Record NativeApplyUnary (P : Type) : Type := mkApplyUnary {
  au_func : P; au_func_type : ty; au_arg : P; au_arg_type : ty }.

(** The five tasks that apply a function to every element of a list have the same
    fields: [sq_results] is their [output], [keep] or [matches], and [sq_shape] the shape
    of the result, or the mode of a predicate. *)
Record NativeSequence (S X P : Type) : Type := mkSequence {
  sq_func : P; sq_func_type : ty; sq_elem_type : ty; sq_values : ListItems P; sq_shape : S;
  sq_children : list FrameId; sq_results : list (option X); sq_remaining : nat }.
Definition NativeSequenceMap P := NativeSequence NativeSequenceShape P P.
Definition NativeSequenceFilter := NativeSequence NativeSequenceShape bool.
Definition NativeSequencePredicate := NativeSequence NativeSequencePredicateMode bool.
Definition NativeSequenceFilterMap P := NativeSequence NativeSequenceShape (option P) P.
Definition NativeSequenceFlatMap P := NativeSequence NativeSequenceShape (list P) P.

Record NativeListSearch (P : Type) : Type := mkListSearch {
  ls_func : P; ls_func_type : ty; ls_elem_type : ty; ls_values : ListItems P;
  ls_mode : NativeListSearchMode; ls_next_index : nat }.

(** [NativeUnaryMap], [NativeUnaryFlatMap]: [un_extra] is the shape; in
    [NativeUnaryFilter] the original option, in [NativeUnaryFilterMap] nothing. *)
Record NativeUnary (X P : Type) : Type := mkUnary {
  un_func : P; un_func_type : ty; un_elem_type : ty; un_value : P; un_extra : X }.
Definition NativeUnaryMap := NativeUnary NativeUnaryShape.
Definition NativeUnaryFilter P := NativeUnary P P.
Definition NativeUnaryFilterMap := NativeUnary unit.
Definition NativeUnaryFlatMap := NativeUnary NativeUnaryShape.

Record NativeFold (P : Type) : Type := mkFold {
  fo_func : P; fo_func_type : ty; fo_acc_type : ty; fo_elem_type : ty; fo_values : ListItems P; fo_acc : P;
  fo_order : NativeFoldOrder; fo_state : NativeFoldState; fo_next_index : nat; fo_step : option P }.

Record NativeDictMap (P : Type) : Type := mkDictMap {
  dm_func : P; dm_func_type : ty; dm_elem_type : ty; dm_entries : list (string * P);
  dm_children : list FrameId; dm_output : list (string * P); dm_remaining : nat }.
Record NativeDictEntryMap (P : Type) : Type := mkDictEntryMap {
  de_func : P; de_func_type : ty; de_entry_type : ty; de_args : list P;
  de_children : list FrameId; de_output : list (option P); de_remaining : nat }.
Record NativeDictFilter (P : Type) : Type := mkDictFilter {
  df_func : P; df_func_type : ty; df_arg_type : ty; df_entries : list (string * P); df_args : list P;
  df_children : list FrameId; df_keep : list (option bool); df_remaining : nat }.
Record NativeDictFilterMap (P : Type) : Type := mkDictFilterMap {
  dfm_func : P; dfm_func_type : ty; dfm_elem_type : ty; dfm_entries : list (string * P);
  dfm_children : list FrameId; dfm_output : list (option (option P)); dfm_remaining : nat }.
Record NativeDictUpdate (P : Type) : Type := mkDictUpdate {
  du_func : P; du_func_type : ty; du_option_type : ty; du_key : string; du_entries : list (string * P); du_arg : P;
  du_children : list FrameId }.

Record NativeArrayEq (P : Type) : Type := mkArrayEq {
  ae_elem_type : ty; ae_xs : ListItems P; ae_ys : ListItems P; ae_state : NativeArrayEqState;
  ae_next_index : nat; ae_step : option P; ae_negate : bool }.
Record NativeSum (P : Type) : Type := mkSum {
  su_elem_type : ty; su_values : ListItems P; su_acc : option P; su_plus : option P; su_state : NativeFoldState;
  su_next_index : nat; su_step : option P }.
Record NativeMean (P : Type) : Type := mkMean {
  me_elem_type : ty; me_values : ListItems P; me_len : nat; me_acc : option P; me_state : NativeMeanState;
  me_next_index : nat; me_step : option P; me_len_value : option P }.

Arguments mkApplyUnary {P}. Arguments au_func {P}. Arguments au_func_type {P}. Arguments au_arg {P}.
Arguments au_arg_type {P}.
Arguments mkSequence {S X P}. Arguments sq_func {S X P}. Arguments sq_func_type {S X P}.
Arguments sq_elem_type {S X P}. Arguments sq_values {S X P}. Arguments sq_shape {S X P}.
Arguments sq_children {S X P}. Arguments sq_results {S X P}. Arguments sq_remaining {S X P}.
Arguments mkListSearch {P}. Arguments ls_func {P}. Arguments ls_func_type {P}. Arguments ls_elem_type {P}.
Arguments ls_values {P}. Arguments ls_mode {P}. Arguments ls_next_index {P}.
Arguments mkUnary {X P}. Arguments un_func {X P}. Arguments un_func_type {X P}. Arguments un_elem_type {X P}.
Arguments un_value {X P}. Arguments un_extra {X P}.
Arguments mkFold {P}. Arguments fo_func {P}. Arguments fo_func_type {P}. Arguments fo_acc_type {P}.
Arguments fo_elem_type {P}. Arguments fo_values {P}. Arguments fo_acc {P}. Arguments fo_order {P}.
Arguments fo_state {P}. Arguments fo_next_index {P}. Arguments fo_step {P}.
Arguments mkDictMap {P}. Arguments dm_func {P}. Arguments dm_func_type {P}. Arguments dm_elem_type {P}.
Arguments dm_entries {P}. Arguments dm_children {P}. Arguments dm_output {P}. Arguments dm_remaining {P}.
Arguments mkDictEntryMap {P}. Arguments de_func {P}. Arguments de_func_type {P}. Arguments de_entry_type {P}.
Arguments de_args {P}. Arguments de_children {P}. Arguments de_output {P}. Arguments de_remaining {P}.
Arguments mkDictFilter {P}. Arguments df_func {P}. Arguments df_func_type {P}. Arguments df_arg_type {P}.
Arguments df_entries {P}. Arguments df_args {P}. Arguments df_children {P}. Arguments df_keep {P}.
Arguments df_remaining {P}.
Arguments mkDictFilterMap {P}. Arguments dfm_func {P}. Arguments dfm_func_type {P}. Arguments dfm_elem_type {P}.
Arguments dfm_entries {P}. Arguments dfm_children {P}. Arguments dfm_output {P}. Arguments dfm_remaining {P}.
Arguments mkDictUpdate {P}. Arguments du_func {P}. Arguments du_func_type {P}. Arguments du_option_type {P}.
Arguments du_key {P}. Arguments du_entries {P}. Arguments du_arg {P}. Arguments du_children {P}.
Arguments mkArrayEq {P}. Arguments ae_elem_type {P}. Arguments ae_xs {P}. Arguments ae_ys {P}. Arguments ae_state {P}.
Arguments ae_next_index {P}. Arguments ae_step {P}. Arguments ae_negate {P}.
Arguments mkSum {P}. Arguments su_elem_type {P}. Arguments su_values {P}. Arguments su_acc {P}. Arguments su_plus {P}.
Arguments su_state {P}. Arguments su_next_index {P}. Arguments su_step {P}.
Arguments mkMean {P}. Arguments me_elem_type {P}. Arguments me_values {P}. Arguments me_len {P}. Arguments me_acc {P}.
Arguments me_state {P}. Arguments me_next_index {P}. Arguments me_step {P}. Arguments me_len_value {P}.

Inductive NativeTask (P : Type) : Type :=
  | ApplyUnary (task : NativeApplyUnary P)
  | SequenceMap (task : NativeSequenceMap P)
  | SequenceFilter (task : NativeSequenceFilter P)
  | SequencePredicate (task : NativeSequencePredicate P)
  | SequenceFilterMap (task : NativeSequenceFilterMap P)
  | SequenceFlatMap (task : NativeSequenceFlatMap P)
  | ListSearch (task : NativeListSearch P)
  | UnaryMap (task : NativeUnaryMap P)
  | UnaryFilter (task : NativeUnaryFilter P)
  | UnaryFilterMap (task : NativeUnaryFilterMap P)
  | UnaryFlatMap (task : NativeUnaryFlatMap P)
  | Fold (task : NativeFold P)
  | DictMap (task : NativeDictMap P)
  | DictEntryMap (task : NativeDictEntryMap P)
  | DictFilter (task : NativeDictFilter P)
  | DictFilterMap (task : NativeDictFilterMap P)
  | DictUpdate (task : NativeDictUpdate P)
  | ArrayEq (task : NativeArrayEq P)
  | Sum (task : NativeSum P)
  | Mean (task : NativeMean P).
Arguments ApplyUnary {P}. Arguments SequenceMap {P}. Arguments SequenceFilter {P}. Arguments SequencePredicate {P}.
Arguments SequenceFilterMap {P}. Arguments SequenceFlatMap {P}. Arguments ListSearch {P}. Arguments UnaryMap {P}.
Arguments UnaryFilter {P}. Arguments UnaryFilterMap {P}. Arguments UnaryFlatMap {P}. Arguments Fold {P}.
Arguments DictMap {P}. Arguments DictEntryMap {P}. Arguments DictFilter {P}. Arguments DictFilterMap {P}.
Arguments DictUpdate {P}. Arguments ArrayEq {P}. Arguments Sum {P}. Arguments Mean {P}.

Inductive NativeStep : Type :=
  | StepWait
  | StepPush (expr : TypedExpr) (env : ScopedEnvironment)
  | StepSchedule (count : nat)
  | StepReturn (value : RootedPtr).

Record NativeChildSpec : Type := mkChildSpec { spec_expr : TypedExpr; spec_env : ScopedEnvironment }.

(** * Mapping the values of a task *)

Section map.
Context {S P Q : Type} (f : P -> ST S Q).

Definition map_option_st {A B} (g : A -> ST S B) (v : option A) : ST S (option B) :=
  match v with Some x => let* y := g x in mret (Some y) | None => mret None end.
Definition map_entries_into {K} (entries : list (K * P)) : ST S (list (K * Q)) :=
  mapM_st (fun e => let* y := f e.2 in mret (e.1, y)) entries.
Definition items_map_values (items : ListItems P) : ST S (ListItems Q) :=
  match items with
  | Slice elements start end_ => let* e := f elements in mret (Slice e start end_)
  | BinarySlice elements start end_ bytes => let* e := f elements in mret (BinarySlice e start end_ bytes)
  | Pointers values => let* vs := mapM_st f values in mret (Pointers vs)
  end.

Definition sequence_map_values {Sh X Y} (g : X -> ST S Y) (t : NativeSequence Sh X P) : ST S (NativeSequence Sh Y Q) :=
  let* func := f (sq_func t) in
  let* values := items_map_values (sq_values t) in
  let* results := mapM_st (map_option_st g) (sq_results t) in
  mret (mkSequence func (sq_func_type t) (sq_elem_type t) values (sq_shape t) (sq_children t) results (sq_remaining t)).

Definition unary_map_values {X Y} (g : X -> ST S Y) (t : NativeUnary X P) : ST S (NativeUnary Y Q) :=
  let* func := f (un_func t) in
  let* value := f (un_value t) in
  let* extra := g (un_extra t) in
  mret (mkUnary func (un_func_type t) (un_elem_type t) value extra).

(** [NativeTask::map_values]. *)
Definition NativeTask_map_values (task : NativeTask P) : ST S (NativeTask Q) :=
  match task with
  | ApplyUnary t =>
      let* func := f (au_func t) in
      let* arg := f (au_arg t) in
      mret (ApplyUnary (mkApplyUnary func (au_func_type t) arg (au_arg_type t)))
  | SequenceMap t => let* t := sequence_map_values f t in mret (SequenceMap t)
  | SequenceFilter t => let* t := sequence_map_values mret t in mret (SequenceFilter t)
  | SequencePredicate t => let* t := sequence_map_values mret t in mret (SequencePredicate t)
  | SequenceFilterMap t => let* t := sequence_map_values (map_option_st f) t in mret (SequenceFilterMap t)
  | SequenceFlatMap t => let* t := sequence_map_values (mapM_st f) t in mret (SequenceFlatMap t)
  | ListSearch t =>
      let* func := f (ls_func t) in
      let* values := items_map_values (ls_values t) in
      mret (ListSearch (mkListSearch func (ls_func_type t) (ls_elem_type t) values (ls_mode t) (ls_next_index t)))
  | UnaryMap t => let* t := unary_map_values mret t in mret (UnaryMap t)
  | UnaryFilter t => let* t := unary_map_values f t in mret (UnaryFilter t)
  | UnaryFilterMap t => let* t := unary_map_values mret t in mret (UnaryFilterMap t)
  | UnaryFlatMap t => let* t := unary_map_values mret t in mret (UnaryFlatMap t)
  | Fold t =>
      let* func := f (fo_func t) in
      let* values := items_map_values (fo_values t) in
      let* acc := f (fo_acc t) in
      let* step := map_option_st f (fo_step t) in
      mret (Fold (mkFold func (fo_func_type t) (fo_acc_type t) (fo_elem_type t) values acc (fo_order t) (fo_state t)
                    (fo_next_index t) step))
  | DictMap t =>
      let* func := f (dm_func t) in
      let* entries := map_entries_into (dm_entries t) in
      let* output := map_entries_into (dm_output t) in
      mret (DictMap (mkDictMap func (dm_func_type t) (dm_elem_type t) entries (dm_children t) output (dm_remaining t)))
  | DictEntryMap t =>
      let* func := f (de_func t) in
      let* args := mapM_st f (de_args t) in
      let* output := mapM_st (map_option_st f) (de_output t) in
      mret (DictEntryMap (mkDictEntryMap func (de_func_type t) (de_entry_type t) args (de_children t) output
                            (de_remaining t)))
  | DictFilter t =>
      let* func := f (df_func t) in
      let* entries := map_entries_into (df_entries t) in
      let* args := mapM_st f (df_args t) in
      mret (DictFilter (mkDictFilter func (df_func_type t) (df_arg_type t) entries args (df_children t) (df_keep t)
                          (df_remaining t)))
  | DictFilterMap t =>
      let* func := f (dfm_func t) in
      let* entries := map_entries_into (dfm_entries t) in
      let* output := mapM_st (map_option_st (map_option_st f)) (dfm_output t) in
      mret (DictFilterMap (mkDictFilterMap func (dfm_func_type t) (dfm_elem_type t) entries (dfm_children t) output
                             (dfm_remaining t)))
  | DictUpdate t =>
      let* func := f (du_func t) in
      let* entries := map_entries_into (du_entries t) in
      let* arg := f (du_arg t) in
      mret (DictUpdate (mkDictUpdate func (du_func_type t) (du_option_type t) (du_key t) entries arg (du_children t)))
  | ArrayEq t =>
      let* xs := items_map_values (ae_xs t) in
      let* ys := items_map_values (ae_ys t) in
      let* step := map_option_st f (ae_step t) in
      mret (ArrayEq (mkArrayEq (ae_elem_type t) xs ys (ae_state t) (ae_next_index t) step (ae_negate t)))
  | Sum t =>
      let* values := items_map_values (su_values t) in
      let* acc := map_option_st f (su_acc t) in
      let* plus := map_option_st f (su_plus t) in
      let* step := map_option_st f (su_step t) in
      mret (Sum (mkSum (su_elem_type t) values acc plus (su_state t) (su_next_index t) step))
  | Mean t =>
      let* values := items_map_values (me_values t) in
      let* acc := map_option_st f (me_acc t) in
      let* step := map_option_st f (me_step t) in
      let* len_value := map_option_st f (me_len_value t) in
      mret (Mean (mkMean (me_elem_type t) values (me_len t) acc (me_state t) (me_next_index t) step len_value))
  end.
End map.

(** * Scheduled children *)

Definition sequence_push {S X P} (child : FrameId) (t : NativeSequence S X P) : NativeSequence S X P :=
  mkSequence (sq_func t) (sq_func_type t) (sq_elem_type t) (sq_values t) (sq_shape t) (sq_children t ++ [child])
    (sq_results t) (sq_remaining t).

Definition push_scheduled_child {P} (child : FrameId) (task : NativeTask P) : exec (NativeTask P) :=
  match task with
  | SequenceMap t => Ok (SequenceMap (sequence_push child t))
  | SequenceFilter t => Ok (SequenceFilter (sequence_push child t))
  | SequencePredicate t => Ok (SequencePredicate (sequence_push child t))
  | SequenceFilterMap t => Ok (SequenceFilterMap (sequence_push child t))
  | SequenceFlatMap t => Ok (SequenceFlatMap (sequence_push child t))
  | DictMap t =>
      Ok (DictMap (mkDictMap (dm_func t) (dm_func_type t) (dm_elem_type t) (dm_entries t) (dm_children t ++ [child])
                     (dm_output t) (dm_remaining t)))
  | DictEntryMap t =>
      Ok (DictEntryMap (mkDictEntryMap (de_func t) (de_func_type t) (de_entry_type t) (de_args t)
                          (de_children t ++ [child]) (de_output t) (de_remaining t)))
  | DictFilter t =>
      Ok (DictFilter (mkDictFilter (df_func t) (df_func_type t) (df_arg_type t) (df_entries t) (df_args t)
                        (df_children t ++ [child]) (df_keep t) (df_remaining t)))
  | DictFilterMap t =>
      Ok (DictFilterMap (mkDictFilterMap (dfm_func t) (dfm_func_type t) (dfm_elem_type t) (dfm_entries t)
                           (dfm_children t ++ [child]) (dfm_output t) (dfm_remaining t)))
  | DictUpdate t =>
      Ok (DictUpdate (mkDictUpdate (du_func t) (du_func_type t) (du_option_type t) (du_key t) (du_entries t) (du_arg t)
                        (du_children t ++ [child])))
  | _ => raise (Internal "native task does not accept scheduled children")
  end.

Definition scheduled_children {P} (task : NativeTask P) : exec (list FrameId) :=
  match task with
  | SequenceMap t => Ok (sq_children t)
  | SequenceFilter t => Ok (sq_children t)
  | SequencePredicate t => Ok (sq_children t)
  | SequenceFilterMap t => Ok (sq_children t)
  | SequenceFlatMap t => Ok (sq_children t)
  | DictMap t => Ok (dm_children t)
  | DictEntryMap t => Ok (de_children t)
  | DictFilter t => Ok (df_children t)
  | DictFilterMap t => Ok (dfm_children t)
  | DictUpdate t => Ok (du_children t)
  | _ => raise (Internal "native task does not have scheduled children")
  end.

(** * Steps *)

Definition internal {A} (message : string) : exec A := raise (Internal message).
Definition unexpected_child_result {A} (frame : string) : exec A :=
  internal (frame +:+ " frame received an unexpected child result").

(** [option.ok_or_else(|| EngineError::Internal(..))] *)
Definition ok_or {A} (o : option A) (message : string) : exec A :=
  match o with Some x => Ok x | None => internal message end.

(** [children.iter().position(|candidate| *candidate == child)] *)
Fixpoint position (child : FrameId) (children : list FrameId) : option nat :=
  match children with
  | [] => None
  | c :: children => if decide (c = child) then Some 0 else option_map S (position child children)
  end.

Definition checked_pred (n : nat) (message : string) : exec nat :=
  match n with 0 => internal message | S n => Ok n end.

(** [vec.iter().copied().collect::<Option<Vec<_>>>()] *)
Fixpoint all_some {A} (l : list (option A)) : option (list A) :=
  match l with
  | [] => Some []
  | None :: _ => None
  | Some x :: l => match all_some l with Some xs => Some (x :: xs) | None => None end
  end.

Section receive.
Context {X : Type} (name unknown : string) (children : list FrameId) (slots : list (option X)) (remaining : nat).

(** How the sequence tasks take a result: an occupied slot is an error before the
    value is read. *)
Definition receive_into_empty (child : FrameId) (read : SM X) : SM (list (option X) * nat) :=
  let* index := mlift (fun _ => ok_or (position child children) (name +:+ unknown)) in
  let* slot := mlift (fun _ => ok_or (slots !! index) (name +:+ " result slot out of bounds")) in
  match slot with
  | Some _ => mlift (fun _ => internal (name +:+ " received duplicate child result"))
  | None =>
      let* x := read in
      let* remaining := mlift (fun _ => checked_pred remaining (name +:+ " received too many results")) in
      mret (<[index := Some x]> slots, remaining)
  end.

(** How the dictionary tasks do: the value is read first ([slot.replace(..)]). *)
Definition receive_replacing (child : FrameId) (read : SM X) : SM (list (option X) * nat) :=
  let* index := mlift (fun _ => ok_or (position child children) (name +:+ unknown)) in
  let* slot := mlift (fun _ => ok_or (slots !! index) (name +:+ " result slot out of bounds")) in
  let* x := read in
  match slot with
  | Some _ => mlift (fun _ => internal (name +:+ " received duplicate child result"))
  | None =>
      let* remaining := mlift (fun _ => checked_pred remaining (name +:+ " received too many results")) in
      mret (<[index := Some x]> slots, remaining)
  end.
End receive.

Section steps.
Context (debug_assertions : bool).

Definition alloc_native_sequence (shape : NativeSequenceShape) (values : list RootedPtr) : SM RootedPtr :=
  match shape with ShapeList => alloc_root_list debug_assertions values end.

Definition native_flatten_sequence (shape : NativeSequenceShape) (root : RootedPtr) : SM (list RootedPtr) :=
  match shape with ShapeList => root_as_list debug_assertions root end.

Definition wrong_type {A} (expected : string) (pointer : RootedPtr) : SM A :=
  let* got := type_name debug_assertions pointer in mlift (fun _ => raise (NativeType expected got)).

Definition option_value_ptr (pointer : RootedPtr) : SM (option RootedPtr) :=
  let* adt := root_as_adt debug_assertions pointer in
  match adt with
  | (tag, [arg]) => if decide (tag = "Some") then mret (Some arg) else wrong_type "Option" pointer
  | (tag, []) => if decide (tag = "None") then mret None else wrong_type "Option" pointer
  | _ => wrong_type "Option" pointer
  end.

Definition option_from_native_pointer (value : option RootedPtr) : SM RootedPtr :=
  match value with
  | Some value => alloc_root_adt debug_assertions "Some" [value]
  | None => alloc_root_adt debug_assertions "None" []
  end.

Definition result_from_native_pointer (value : RootedPtr + RootedPtr) : SM RootedPtr :=
  match value with
  | inl value => alloc_root_adt debug_assertions "Ok" [value]
  | inr value => alloc_root_adt debug_assertions "Err" [value]
  end.

Definition result_value_ptr (pointer : RootedPtr) : SM (RootedPtr + RootedPtr) :=
  let* adt := root_as_adt debug_assertions pointer in
  match adt with
  | (tag, [arg]) =>
      if decide (tag = "Ok") then mret (inl arg)
      else if decide (tag = "Err") then mret (inr arg)
      else wrong_type "Result" pointer
  | _ => wrong_type "Result" pointer
  end.

Definition overloaded_root (name : string) (typ : ty) : SM RootedPtr :=
  alloc_root_overloaded debug_assertions name typ [] [].

Definition native_eval_var_step (name : Symbol) (typ : ty) : NativeStep :=
  StepPush (mkTypedExpr typ (EVar name [])) Scoped_new.

Definition binary_same_type (typ : ty) : ty := TFun typ (TFun typ typ).

Definition len_value_for_native_type (elem_ty : ty) (len : nat) : SM RootedPtr :=
  match elem_ty with
  | TCon c =>
      if is_builtin c F32 then alloc_root_f32 debug_assertions (nat_as_f32 len)
      else if is_builtin c F64 then alloc_root_f64 debug_assertions (nat_as_f64 len)
      else mlift (fun _ => raise (NativeType "f32 or f64" (show_ty elem_ty)))
  | _ => mlift (fun _ => raise (NativeType "f32 or f64" (show_ty elem_ty)))
  end.

Definition native_apply_spec (func : RootedPtr) (func_type : ty) (arg : RootedPtr) (arg_type : ty)
  : exec NativeChildSpec :=
  let? r := synthetic_application_expr func func_type [(arg, arg_type)] in
  Ok (mkChildSpec r.2 r.1).

Definition native_apply_step (func : RootedPtr) (func_type : ty) (arg : RootedPtr) (arg_type : ty) : SM NativeStep :=
  mlift (fun _ =>
    let? spec := native_apply_spec func func_type arg arg_type in
    Ok (StepPush (spec_expr spec) (spec_env spec))).

Abbreviation count_items items := (mlift (fun _ => items_len items)).
Abbreviation get_item := (items_get debug_assertions).
Abbreviation Task := (NativeTask RootedPtr).

Definition return_root (m : SM RootedPtr) : SM NativeStep := let* r := m in mret (StepReturn r).

(** [SchedulerTask::child_spec] of the sequence tasks. *)
Definition sequence_child_spec {S X} (t : NativeSequence S X RootedPtr) (index : nat) : SM NativeChildSpec :=
  let* value := get_item (sq_values t) index in
  mlift (fun _ => native_apply_spec (sq_func t) (sq_func_type t) value (sq_elem_type t)).

Definition sequence_with {S X P} (t : NativeSequence S X P) (results : list (option X)) (remaining : nat)
  : NativeSequence S X P :=
  mkSequence (sq_func t) (sq_func_type t) (sq_elem_type t) (sq_values t) (sq_shape t) (sq_children t) results remaining.

(** [enter] of the sequence tasks: [empty] is what they do without elements. *)
Definition sequence_enter {S X} (t : NativeSequence S X RootedPtr) (empty : SM NativeStep)
  : SM (NativeStep * NativeSequence S X RootedPtr) :=
  let* is_empty := mlift (fun _ => items_is_empty (sq_values t)) in
  if is_empty then let* step := empty in mret (step, t)
  else
    let* len := count_items (sq_values t) in
    mret (StepSchedule len,
          mkSequence (sq_func t) (sq_func_type t) (sq_elem_type t) (sq_values t) (sq_shape t) []
            (replicate len None) len).

(** [receive] of the sequence tasks: [read] takes a result apart, [finish] is run when
    all are there. *)
Definition sequence_receive {S X} (name : string) (read : RootedPtr -> SM X) (finish : list (option X) -> SM RootedPtr)
    (t : NativeSequence S X RootedPtr) (child : FrameId) (value : RootedPtr)
  : SM (NativeStep * NativeSequence S X RootedPtr) :=
  let* r := receive_into_empty name " received unknown child" (sq_children t) (sq_results t) (sq_remaining t) child
              (read value) in
  let t := sequence_with t r.1 r.2 in
  if decide (r.2 = 0) then let* step := return_root (finish r.1) in mret (step, t)
  else mret (StepWait, t).

Definition missing {A} (name : string) : SM A := mlift (fun _ => internal (name +:+ " completed with missing result")).

Definition map_finish (shape : NativeSequenceShape) (output : list (option RootedPtr)) : SM RootedPtr :=
  match all_some output with
  | Some output => alloc_native_sequence shape output
  | None => missing "native sequence map"
  end.

(** The loop over [keep]. *)
Fixpoint filter_kept (values : ListItems RootedPtr) (index : nat) (keep : list (option bool)) : SM (list RootedPtr) :=
  match keep with
  | [] => mret []
  | Some true :: keep =>
      let* value := get_item values index in
      let* output := filter_kept values (S index) keep in
      mret (value :: output)
  | Some false :: keep => filter_kept values (S index) keep
  | None :: _ => missing "native sequence filter"
  end.

Fixpoint keep_present {A} (name : string) (output : list (option (option A))) : SM (list A) :=
  match output with
  | [] => mret []
  | Some (Some value) :: output => let* rest := keep_present name output in mret (value :: rest)
  | Some None :: output => keep_present name output
  | None :: _ => missing name
  end.

(** [NativeSequencePredicate::finish]. *)
Fixpoint partition_loop (values : ListItems RootedPtr) (indices : list nat) (matches : list (option bool))
  : SM (list RootedPtr * list RootedPtr) :=
  match indices with
  | [] => mret ([], [])
  | index :: indices =>
      let* value := get_item values index in
      match matches !! index with
      | Some (Some true) =>
          let* r := partition_loop values indices matches in mret (value :: r.1, r.2)
      | Some (Some false) =>
          let* r := partition_loop values indices matches in mret (r.1, value :: r.2)
      | _ => missing "native list partition"
      end
  end.

Definition u64_of_usize (n : nat) (message : string) : exec Z :=
  if (Z.of_nat n <=? u64_max)%Z then Ok (Z.of_nat n) else internal message.

Definition predicate_finish (mode : NativeSequencePredicateMode) (values : ListItems RootedPtr)
    (matches : list (option bool)) : SM RootedPtr :=
  match mode with
  | ModeCount =>
      let count := length (List.filter (fun m => bool_decide (m = Some true)) matches) in
      let* count := mlift (fun _ => u64_of_usize count "list count overflow") in
      alloc_root_u64 debug_assertions count
  | ModePartition =>
      let* len := count_items values in
      let* r := partition_loop values (seq 0 len) matches in
      let* matching := alloc_root_list debug_assertions r.1 in
      let* rejected := alloc_root_list debug_assertions r.2 in
      alloc_root_tuple debug_assertions [matching; rejected]
  end.

Definition map_receive := sequence_receive (S := NativeSequenceShape) "native sequence map" mret.
Definition filter_receive := sequence_receive (S := NativeSequenceShape) "native sequence filter" (root_as_bool debug_assertions).
Definition predicate_receive :=
  sequence_receive (S := NativeSequencePredicateMode) "native sequence predicate" (root_as_bool debug_assertions).
Definition filter_map_receive := sequence_receive (S := NativeSequenceShape) "native sequence filter_map" option_value_ptr.

Definition flat_map_finish (shape : NativeSequenceShape) (output : list (option (list RootedPtr))) : SM RootedPtr :=
  match all_some output with
  | Some output => alloc_native_sequence shape (concat output)
  | None => missing "native sequence flat_map"
  end.
Definition flat_map_receive (t : NativeSequenceFlatMap RootedPtr) :=
  sequence_receive "native sequence flat_map" (native_flatten_sequence (sq_shape t)) (flat_map_finish (sq_shape t)) t.

(** ** Searching *)

Definition search_next (t : NativeListSearch RootedPtr) (next_index : nat) : NativeListSearch RootedPtr :=
  mkListSearch (ls_func t) (ls_func_type t) (ls_elem_type t) (ls_values t) (ls_mode t) next_index.

Definition search_apply_next (t : NativeListSearch RootedPtr) : SM NativeStep :=
  let* value := get_item (ls_values t) (ls_next_index t) in
  native_apply_step (ls_func t) (ls_func_type t) value (ls_elem_type t).

Definition search_exhausted (t : NativeListSearch RootedPtr) : SM NativeStep :=
  return_root match ls_mode t with
              | SearchAny => alloc_root_bool debug_assertions false
              | SearchAll => alloc_root_bool debug_assertions true
              | SearchFind | SearchFindIndex => option_from_native_pointer None
              end.

Definition search_enter (t : NativeListSearch RootedPtr) : SM (NativeStep * NativeListSearch RootedPtr) :=
  let t := search_next t 0 in
  let* is_empty := mlift (fun _ => items_is_empty (ls_values t)) in
  let* step := if is_empty then search_exhausted t else search_apply_next t in
  mret (step, t).

Definition search_receive (t : NativeListSearch RootedPtr) (value : RootedPtr)
  : SM (NativeStep * NativeListSearch RootedPtr) :=
  let* matched := root_as_bool debug_assertions value in
  match ls_mode t, matched with
  | SearchAny, true => let* step := return_root (alloc_root_bool debug_assertions true) in mret (step, t)
  | SearchAll, false => let* step := return_root (alloc_root_bool debug_assertions false) in mret (step, t)
  | SearchFind, true =>
      let* value := get_item (ls_values t) (ls_next_index t) in
      let* step := return_root (option_from_native_pointer (Some value)) in mret (step, t)
  | SearchFindIndex, true =>
      let* index := mlift (fun _ => u64_of_usize (ls_next_index t) "list index overflow") in
      let* index := alloc_root_u64 debug_assertions index in
      let* step := return_root (option_from_native_pointer (Some index)) in mret (step, t)
  | _, _ =>
      let t := search_next t (S (ls_next_index t)) in
      let* len := count_items (ls_values t) in
      let* step := if decide (ls_next_index t = len) then search_exhausted t else search_apply_next t in
      mret (step, t)
  end.

(** ** Options and results *)

Definition unary_enter {X} (t : NativeUnary X RootedPtr) : SM NativeStep :=
  native_apply_step (un_func t) (un_func_type t) (un_value t) (un_elem_type t).

Definition unary_map_receive (t : NativeUnaryMap RootedPtr) (value : RootedPtr) : SM NativeStep :=
  return_root match un_extra t with
              | ShapeOption => option_from_native_pointer (Some value)
              | ShapeResult => result_from_native_pointer (inl value)
              end.

Definition unary_filter_receive (t : NativeUnaryFilter RootedPtr) (value : RootedPtr) : SM NativeStep :=
  let* keep := root_as_bool debug_assertions value in
  return_root (if keep then mret (un_extra t) else option_from_native_pointer None).

Definition unary_flat_map_receive (t : NativeUnaryFlatMap RootedPtr) (value : RootedPtr) : SM NativeStep :=
  match un_extra t with
  | ShapeResult => let* _ := result_value_ptr value in mret (StepReturn value)
  | ShapeOption => mret (StepReturn value)
  end.

(** ** Folds *)

Definition fold_with (t : NativeFold RootedPtr) (acc : RootedPtr) (state : NativeFoldState) (next_index : nat)
    (step : option RootedPtr) : NativeFold RootedPtr :=
  mkFold (fo_func t) (fo_func_type t) (fo_acc_type t) (fo_elem_type t) (fo_values t) acc (fo_order t) state next_index
    step.

Definition fold_value_at (t : NativeFold RootedPtr) (index : nat) : SM RootedPtr :=
  match fo_order t with
  | FoldLeft => get_item (fo_values t) index
  | FoldRight =>
      let* len := count_items (fo_values t) in
      if decide (len < index + 1) then mlift (fun _ => internal "native fold index out of bounds")
      else get_item (fo_values t) (len - (index + 1))
  end.

Definition fold_apply_first (t : NativeFold RootedPtr) : SM NativeStep :=
  let* arg := match fo_order t with FoldLeft => mret (fo_acc t) | FoldRight => fold_value_at t (fo_next_index t) end in
  let arg_type := match fo_order t with FoldLeft => fo_acc_type t | FoldRight => fo_elem_type t end in
  native_apply_step (fo_func t) (fo_func_type t) arg arg_type.

Definition fold_apply_second (t : NativeFold RootedPtr) : SM NativeStep :=
  let* step := mlift (fun _ => ok_or (fo_step t) "native fold missing step function") in
  let* arg := match fo_order t with FoldLeft => fold_value_at t (fo_next_index t) | FoldRight => mret (fo_acc t) end in
  let arg_type := match fo_order t with FoldLeft => fo_elem_type t | FoldRight => fo_acc_type t end in
  native_apply_step step (TFun arg_type (fo_acc_type t)) arg arg_type.

Definition fold_enter (t : NativeFold RootedPtr) : SM (NativeStep * NativeFold RootedPtr) :=
  let* is_empty := mlift (fun _ => items_is_empty (fo_values t)) in
  if is_empty then mret (StepReturn (fo_acc t), t)
  else
    let t := fold_with t (fo_acc t) FoldApplyFirst 0 (fo_step t) in
    let* step := fold_apply_first t in mret (step, t).

Definition fold_receive (t : NativeFold RootedPtr) (value : RootedPtr) : SM (NativeStep * NativeFold RootedPtr) :=
  match fo_state t with
  | FoldApplyFirst =>
      let t := fold_with t (fo_acc t) FoldApplySecond (fo_next_index t) (Some value) in
      let* step := fold_apply_second t in mret (step, t)
  | FoldApplySecond =>
      let next_index := S (fo_next_index t) in
      let* len := count_items (fo_values t) in
      if decide (next_index = len) then mret (StepReturn value, fold_with t value FoldApplySecond next_index None)
      else
        let t := fold_with t value FoldApplyFirst next_index None in
        let* step := fold_apply_first t in mret (step, t)
  | FoldEnter => mlift (fun _ => unexpected_child_result "native fold")
  end.

(** ** Dictionaries *)

Definition return_dict (entries : list (string * RootedPtr)) : SM NativeStep :=
  return_root (alloc_root_dict debug_assertions entries).

Definition dict_map_enter (t : NativeDictMap RootedPtr) : SM (NativeStep * NativeDictMap RootedPtr) :=
  if decide (dm_entries t = []) then let* step := return_dict [] in mret (step, t)
  else
    let len := length (dm_entries t) in
    mret (StepSchedule len, mkDictMap (dm_func t) (dm_func_type t) (dm_elem_type t) (dm_entries t) [] [] len).

Definition dict_map_receive (t : NativeDictMap RootedPtr) (child : FrameId) (value : RootedPtr)
  : SM (NativeStep * NativeDictMap RootedPtr) :=
  let name := "native dict map" in
  let* index := mlift (fun _ => ok_or (position child (dm_children t)) (name +:+ " received unknown child")) in
  let* entry := mlift (fun _ => ok_or (dm_entries t !! index) (name +:+ " result slot out of bounds")) in
  match btree_get (dm_output t) entry.1 with
  | Some _ => mlift (fun _ => internal (name +:+ " received duplicate child result"))
  | None =>
      let output := btree_insert entry.1 value (dm_output t) in
      let* remaining := mlift (fun _ => checked_pred (dm_remaining t) (name +:+ " received too many results")) in
      let t := mkDictMap (dm_func t) (dm_func_type t) (dm_elem_type t) (dm_entries t) (dm_children t) output remaining in
      if decide (remaining = 0) then let* step := return_dict output in mret (step, t) else mret (StepWait, t)
  end.

Definition dict_map_child_spec (t : NativeDictMap RootedPtr) (index : nat) : exec NativeChildSpec :=
  let? entry := ok_or (dm_entries t !! index) "native dict map child index out of bounds" in
  native_apply_spec (dm_func t) (dm_func_type t) entry.2 (dm_elem_type t).

Definition dict_entry_map_enter (t : NativeDictEntryMap RootedPtr) : SM (NativeStep * NativeDictEntryMap RootedPtr) :=
  if decide (de_args t = []) then let* step := return_dict [] in mret (step, t)
  else
    let len := length (de_args t) in
    mret (StepSchedule len,
          mkDictEntryMap (de_func t) (de_func_type t) (de_entry_type t) (de_args t) [] (replicate len None) len).

(** The loop over the results: pairs of a key and a value; later duplicates win. *)
Fixpoint collect_pairs (results : list RootedPtr) (output : list (string * RootedPtr))
  : SM (list (string * RootedPtr)) :=
  match results with
  | [] => mret output
  | result :: results =>
      let* items := root_as_tuple debug_assertions result in
      match items with
      | [first; second] =>
          let* key := root_as_string debug_assertions first in
          collect_pairs results (btree_insert key second output)
      | _ => wrong_type "(String, a)" result
      end
  end.

Definition dict_entry_map_receive (t : NativeDictEntryMap RootedPtr) (child : FrameId) (value : RootedPtr)
  : SM (NativeStep * NativeDictEntryMap RootedPtr) :=
  let name := "native dict entry map" in
  let* r := receive_replacing name " received unknown child" (de_children t) (de_output t) (de_remaining t) child
              (mret value) in
  let t := mkDictEntryMap (de_func t) (de_func_type t) (de_entry_type t) (de_args t) (de_children t) r.1 r.2 in
  if decide (r.2 = 0) then
    match all_some r.1 with
    | None => missing name
    | Some results =>
        let* output := collect_pairs results [] in
        let* step := return_dict output in mret (step, t)
    end
  else mret (StepWait, t).

Definition dict_entry_map_child_spec (t : NativeDictEntryMap RootedPtr) (index : nat) : exec NativeChildSpec :=
  let? arg := ok_or (de_args t !! index) "native dict entry map child index out of bounds" in
  native_apply_spec (de_func t) (de_func_type t) arg (de_entry_type t).

Definition dict_filter_enter (t : NativeDictFilter RootedPtr) : SM (NativeStep * NativeDictFilter RootedPtr) :=
  let len := length (df_entries t) in
  if decide (df_entries t = []) then let* step := return_dict [] in mret (step, t)
  else if decide (len <> length (df_args t)) then
    mlift (fun _ => internal "native dict filter has mismatched entries and arguments")
  else
    mret (StepSchedule len,
          mkDictFilter (df_func t) (df_func_type t) (df_arg_type t) (df_entries t) (df_args t) [] (replicate len None) len).

(** The loops over the entries and what was received for each. *)
Fixpoint keep_entries (entries : list (string * RootedPtr * option bool)) (output : list (string * RootedPtr))
  : SM (list (string * RootedPtr)) :=
  match entries with
  | [] => mret output
  | (key, entry, Some true) :: entries => keep_entries entries (btree_insert key entry output)
  | (_, _, Some false) :: entries => keep_entries entries output
  | (_, _, None) :: _ => missing "native dict filter"
  end.
Fixpoint replace_entries (entries : list (string * RootedPtr * option (option RootedPtr)))
    (output : list (string * RootedPtr)) : SM (list (string * RootedPtr)) :=
  match entries with
  | [] => mret output
  | (key, _, Some (Some value)) :: entries => replace_entries entries (btree_insert key value output)
  | (_, _, Some None) :: entries => replace_entries entries output
  | (_, _, None) :: _ => missing "native dict filter_map"
  end.

Definition dict_filter_receive (t : NativeDictFilter RootedPtr) (child : FrameId) (value : RootedPtr)
  : SM (NativeStep * NativeDictFilter RootedPtr) :=
  let* r := receive_replacing "native dict filter" " unknown child" (df_children t) (df_keep t) (df_remaining t) child
              (root_as_bool debug_assertions value) in
  let t := mkDictFilter (df_func t) (df_func_type t) (df_arg_type t) (df_entries t) (df_args t) (df_children t) r.1 r.2 in
  if decide (r.2 = 0) then
    let* output := keep_entries (zip (df_entries t) r.1) [] in
    let* step := return_dict output in mret (step, t)
  else mret (StepWait, t).

Definition dict_filter_child_spec (t : NativeDictFilter RootedPtr) (index : nat) : exec NativeChildSpec :=
  let? arg := ok_or (df_args t !! index) "native dict filter child index out of bounds" in
  native_apply_spec (df_func t) (df_func_type t) arg (df_arg_type t).

Definition dict_filter_map_enter (t : NativeDictFilterMap RootedPtr) : SM (NativeStep * NativeDictFilterMap RootedPtr) :=
  if decide (dfm_entries t = []) then let* step := return_dict [] in mret (step, t)
  else
    let len := length (dfm_entries t) in
    mret (StepSchedule len,
          mkDictFilterMap (dfm_func t) (dfm_func_type t) (dfm_elem_type t) (dfm_entries t) [] (replicate len None) len).

Definition dict_filter_map_receive (t : NativeDictFilterMap RootedPtr) (child : FrameId) (value : RootedPtr)
  : SM (NativeStep * NativeDictFilterMap RootedPtr) :=
  let* r := receive_replacing "native dict filter_map" " unknown child" (dfm_children t) (dfm_output t) (dfm_remaining t)
              child (option_value_ptr value) in
  let t := mkDictFilterMap (dfm_func t) (dfm_func_type t) (dfm_elem_type t) (dfm_entries t) (dfm_children t) r.1 r.2 in
  if decide (r.2 = 0) then
    let* output := replace_entries (zip (dfm_entries t) r.1) [] in
    let* step := return_dict output in mret (step, t)
  else mret (StepWait, t).

Definition dict_filter_map_child_spec (t : NativeDictFilterMap RootedPtr) (index : nat) : exec NativeChildSpec :=
  let? entry := ok_or (dfm_entries t !! index) "native dict filter_map child index out of bounds" in
  native_apply_spec (dfm_func t) (dfm_func_type t) entry.2 (dfm_elem_type t).

Definition dict_update_with (t : NativeDictUpdate RootedPtr) (entries : list (string * RootedPtr))
    (children : list FrameId) : NativeDictUpdate RootedPtr :=
  mkDictUpdate (du_func t) (du_func_type t) (du_option_type t) (du_key t) entries (du_arg t) children.

Definition dict_update_enter (t : NativeDictUpdate RootedPtr) : NativeStep * NativeDictUpdate RootedPtr :=
  (StepSchedule 1, dict_update_with t (du_entries t) []).

Definition dict_update_receive (t : NativeDictUpdate RootedPtr) (child : FrameId) (value : RootedPtr)
  : SM (NativeStep * NativeDictUpdate RootedPtr) :=
  if decide (du_children t = [child]) then
    let* new := option_value_ptr value in
    let entries :=
      match new with
      | Some value => btree_insert (du_key t) value (du_entries t)
      | None => match btree_remove (du_key t) (du_entries t) with Some (_, rest) => rest | None => du_entries t end
      end in
    let* step := return_dict entries in
    mret (step, dict_update_with t entries (du_children t))
  else mlift (fun _ => internal "native dict update received unexpected child").

Definition dict_update_child_spec (t : NativeDictUpdate RootedPtr) (index : nat) : exec NativeChildSpec :=
  if decide (index <> 0) then internal "native dict update child index out of bounds"
  else native_apply_spec (du_func t) (du_func_type t) (du_arg t) (du_option_type t).

(** ** Equality, sum and mean of lists *)

Definition eq_with (t : NativeArrayEq RootedPtr) (state : NativeArrayEqState) (next_index : nat) (step : option RootedPtr)
  : NativeArrayEq RootedPtr :=
  mkArrayEq (ae_elem_type t) (ae_xs t) (ae_ys t) state next_index step (ae_negate t).

Definition eq_result (t : NativeArrayEq RootedPtr) (equal : bool) : SM NativeStep :=
  return_root (alloc_root_bool debug_assertions (if ae_negate t then negb equal else equal)).

Definition eq_apply_first (t : NativeArrayEq RootedPtr) : SM NativeStep :=
  let eq_ty := TFun (ae_elem_type t) (TFun (ae_elem_type t) (ty_builtin Bool)) in
  let* lhs := get_item (ae_xs t) (ae_next_index t) in
  let* eq := overloaded_root "==" eq_ty in
  native_apply_step eq eq_ty lhs (ae_elem_type t).

Definition eq_apply_second (t : NativeArrayEq RootedPtr) : SM NativeStep :=
  let* step := mlift (fun _ => ok_or (ae_step t) "native list equality missing step") in
  let* y := get_item (ae_ys t) (ae_next_index t) in
  native_apply_step step (TFun (ae_elem_type t) (ty_builtin Bool)) y (ae_elem_type t).

Definition eq_enter (t : NativeArrayEq RootedPtr) : SM (NativeStep * NativeArrayEq RootedPtr) :=
  let* xs_len := count_items (ae_xs t) in
  let* ys_len := count_items (ae_ys t) in
  if decide (xs_len <> ys_len) then let* step := eq_result t false in mret (step, t)
  else if decide (xs_len = 0) then let* step := eq_result t true in mret (step, t)
  else
    let t := eq_with t EqApplyFirst 0 (ae_step t) in
    let* step := eq_apply_first t in mret (step, t).

Definition eq_receive (t : NativeArrayEq RootedPtr) (value : RootedPtr) : SM (NativeStep * NativeArrayEq RootedPtr) :=
  match ae_state t with
  | EqApplyFirst =>
      let t := eq_with t EqApplySecond (ae_next_index t) (Some value) in
      let* step := eq_apply_second t in mret (step, t)
  | EqApplySecond =>
      let* equal := root_as_bool debug_assertions value in
      if equal then
        let next_index := S (ae_next_index t) in
        let* len := count_items (ae_xs t) in
        if decide (next_index = len) then
          let* step := eq_result t true in mret (step, eq_with t EqApplySecond next_index None)
        else
          let t := eq_with t EqApplyFirst next_index None in
          let* step := eq_apply_first t in mret (step, t)
      else let* step := eq_result t false in mret (step, t)
  | EqEnter => mlift (fun _ => unexpected_child_result "native list equality")
  end.

Definition sum_with (t : NativeSum RootedPtr) (acc plus : option RootedPtr) (state : NativeFoldState) (next_index : nat)
    (step : option RootedPtr) : NativeSum RootedPtr :=
  mkSum (su_elem_type t) (su_values t) acc plus state next_index step.

Definition sum_apply_first (t : NativeSum RootedPtr) : SM NativeStep :=
  let* plus := mlift (fun _ => ok_or (su_plus t) "native sum missing plus function") in
  let* acc := mlift (fun _ => ok_or (su_acc t) "native sum missing accumulator") in
  native_apply_step plus (binary_same_type (su_elem_type t)) acc (su_elem_type t).

Definition sum_apply_first_may_allocate (t : NativeSum RootedPtr) : SM (NativeStep * NativeSum RootedPtr) :=
  let* plus := match su_plus t with
               | Some plus => mret plus
               | None => overloaded_root "+" (binary_same_type (su_elem_type t))
               end in
  let t := sum_with t (su_acc t) (Some plus) (su_state t) (su_next_index t) (su_step t) in
  let* step := sum_apply_first t in mret (step, t).

Definition sum_apply_second (t : NativeSum RootedPtr) : SM NativeStep :=
  let* step := mlift (fun _ => ok_or (su_step t) "native sum missing step") in
  let* arg := get_item (su_values t) (su_next_index t) in
  native_apply_step step (TFun (su_elem_type t) (su_elem_type t)) arg (su_elem_type t).

Definition sum_enter (t : NativeSum RootedPtr) : SM (NativeStep * NativeSum RootedPtr) :=
  let* is_empty := mlift (fun _ => items_is_empty (su_values t)) in
  if is_empty then mret (native_eval_var_step "zero" (su_elem_type t), t)
  else
    let* first := get_item (su_values t) 0 in
    let t := sum_with t (Some first) (su_plus t) (su_state t) 1 (su_step t) in
    let* len := count_items (su_values t) in
    if decide (len = 1) then mret (StepReturn first, t)
    else sum_apply_first_may_allocate (sum_with t (Some first) (su_plus t) FoldApplyFirst 1 (su_step t)).

Definition sum_receive (t : NativeSum RootedPtr) (value : RootedPtr) : SM (NativeStep * NativeSum RootedPtr) :=
  match su_state t with
  | FoldEnter => mret (StepReturn value, t)
  | FoldApplyFirst =>
      let t := sum_with t (su_acc t) (su_plus t) FoldApplySecond (su_next_index t) (Some value) in
      let* step := sum_apply_second t in mret (step, t)
  | FoldApplySecond =>
      let next_index := S (su_next_index t) in
      let* len := count_items (su_values t) in
      if decide (next_index = len) then
        mret (StepReturn value, sum_with t (Some value) (su_plus t) FoldApplySecond next_index None)
      else
        let t := sum_with t (Some value) (su_plus t) FoldApplyFirst next_index None in
        let* step := sum_apply_first t in mret (step, t)
  end.

Definition mean_with (t : NativeMean RootedPtr) (acc : option RootedPtr) (state : NativeMeanState) (next_index : nat)
    (step len_value : option RootedPtr) : NativeMean RootedPtr :=
  mkMean (me_elem_type t) (me_values t) (me_len t) acc state next_index step len_value.

Definition mean_apply_plus_first (t : NativeMean RootedPtr) : SM NativeStep :=
  let plus_ty := binary_same_type (me_elem_type t) in
  let* acc := mlift (fun _ => ok_or (me_acc t) "native mean missing accumulator") in
  let* plus := overloaded_root "+" plus_ty in
  native_apply_step plus plus_ty acc (me_elem_type t).

Definition mean_apply_plus_second (t : NativeMean RootedPtr) : SM NativeStep :=
  let* step := mlift (fun _ => ok_or (me_step t) "native mean missing addition step") in
  let* arg := get_item (me_values t) (me_next_index t) in
  native_apply_step step (TFun (me_elem_type t) (me_elem_type t)) arg (me_elem_type t).

Definition mean_apply_div_first (t : NativeMean RootedPtr) : SM (NativeStep * NativeMean RootedPtr) :=
  let div_ty := binary_same_type (me_elem_type t) in
  let* acc := mlift (fun _ => ok_or (me_acc t) "native mean missing accumulator") in
  let* div := overloaded_root "/" div_ty in
  let* len_value := match me_len_value t with
                    | Some v => mret v
                    | None => len_value_for_native_type (me_elem_type t) (me_len t)
                    end in
  let t := mean_with t (me_acc t) (me_state t) (me_next_index t) (me_step t) (Some len_value) in
  let* step := native_apply_step div div_ty acc (me_elem_type t) in mret (step, t).

Definition mean_apply_div_second (t : NativeMean RootedPtr) : SM NativeStep :=
  let* step := mlift (fun _ => ok_or (me_step t) "native mean missing division step") in
  let* len_value := mlift (fun _ => ok_or (me_len_value t) "native mean missing length value") in
  native_apply_step step (TFun (me_elem_type t) (me_elem_type t)) len_value (me_elem_type t).

Definition mean_enter (t : NativeMean RootedPtr) : SM (NativeStep * NativeMean RootedPtr) :=
  let* is_empty := mlift (fun _ => items_is_empty (me_values t)) in
  if is_empty then mlift (fun _ => raise EmptySequence)
  else
    let* first := get_item (me_values t) 0 in
    let* len := count_items (me_values t) in
    if decide (len = 1) then
      mean_apply_div_first (mean_with t (Some first) MeanApplyDivFirst 1 (me_step t) (me_len_value t))
    else
      let t := mean_with t (Some first) MeanApplyPlusFirst 1 (me_step t) (me_len_value t) in
      let* step := mean_apply_plus_first t in mret (step, t).

Definition mean_receive (t : NativeMean RootedPtr) (value : RootedPtr) : SM (NativeStep * NativeMean RootedPtr) :=
  match me_state t with
  | MeanApplyPlusFirst =>
      let t := mean_with t (me_acc t) MeanApplyPlusSecond (me_next_index t) (Some value) (me_len_value t) in
      let* step := mean_apply_plus_second t in mret (step, t)
  | MeanApplyPlusSecond =>
      let next_index := S (me_next_index t) in
      let* len := count_items (me_values t) in
      if decide (next_index = len) then
        mean_apply_div_first (mean_with t (Some value) MeanApplyDivFirst next_index None (me_len_value t))
      else
        let t := mean_with t (Some value) MeanApplyPlusFirst next_index None (me_len_value t) in
        let* step := mean_apply_plus_first t in mret (step, t)
  | MeanApplyDivFirst =>
      let t := mean_with t (me_acc t) MeanApplyDivSecond (me_next_index t) (Some value) (me_len_value t) in
      let* step := mean_apply_div_second t in mret (step, t)
  | MeanApplyDivSecond => mret (StepReturn value, t)
  | MeanEnter => mlift (fun _ => unexpected_child_result "native mean")
  end.

(** * Tasks: [enter], [receive] and the children they ask for *)

Definition wrapped {T} (wrap : T -> Task) (m : SM (NativeStep * T)) : SM (NativeStep * Task) :=
  let* r := m in mret (r.1, wrap r.2).
Definition unchanged (task : Task) (m : SM NativeStep) : SM (NativeStep * Task) :=
  let* step := m in mret (step, task).

Definition task_enter (task : Task) : SM (NativeStep * Task) :=
  let empty shape := return_root (alloc_native_sequence shape []) in
  match task with
  | ApplyUnary t => unchanged task (native_apply_step (au_func t) (au_func_type t) (au_arg t) (au_arg_type t))
  | SequenceMap t => wrapped SequenceMap (sequence_enter t (empty (sq_shape t)))
  | SequenceFilter t => wrapped SequenceFilter (sequence_enter t (empty (sq_shape t)))
  | SequencePredicate t =>
      wrapped SequencePredicate
        (sequence_enter t (return_root (predicate_finish (sq_shape t) (sq_values t) (sq_results t))))
  | SequenceFilterMap t => wrapped SequenceFilterMap (sequence_enter t (empty (sq_shape t)))
  | SequenceFlatMap t => wrapped SequenceFlatMap (sequence_enter t (empty (sq_shape t)))
  | ListSearch t => wrapped ListSearch (search_enter t)
  | UnaryMap t => unchanged task (unary_enter t)
  | UnaryFilter t => unchanged task (unary_enter t)
  | UnaryFilterMap t => unchanged task (unary_enter t)
  | UnaryFlatMap t => unchanged task (unary_enter t)
  | Fold t => wrapped Fold (fold_enter t)
  | DictMap t => wrapped DictMap (dict_map_enter t)
  | DictEntryMap t => wrapped DictEntryMap (dict_entry_map_enter t)
  | DictFilter t => wrapped DictFilter (dict_filter_enter t)
  | DictFilterMap t => wrapped DictFilterMap (dict_filter_map_enter t)
  | DictUpdate t => wrapped DictUpdate (mret (dict_update_enter t))
  | ArrayEq t => wrapped ArrayEq (eq_enter t)
  | Sum t => wrapped Sum (sum_enter t)
  | Mean t => wrapped Mean (mean_enter t)
  end.

Definition task_receive (task : Task) (child : FrameId) (value : RootedPtr) : SM (NativeStep * Task) :=
  match task with
  | ApplyUnary _ => mret (StepReturn value, task)
  | SequenceMap t => wrapped SequenceMap (map_receive (map_finish (sq_shape t)) t child value)
  | SequenceFilter t =>
      wrapped SequenceFilter
        (filter_receive (fun keep => let* output := filter_kept (sq_values t) 0 keep in
                                     alloc_native_sequence (sq_shape t) output) t child value)
  | SequencePredicate t =>
      wrapped SequencePredicate (predicate_receive (predicate_finish (sq_shape t) (sq_values t)) t child value)
  | SequenceFilterMap t =>
      wrapped SequenceFilterMap
        (filter_map_receive (fun output => let* output := keep_present "native sequence filter_map" output in
                                           alloc_native_sequence (sq_shape t) output) t child value)
  | SequenceFlatMap t => wrapped SequenceFlatMap (flat_map_receive t child value)
  | ListSearch t => wrapped ListSearch (search_receive t value)
  | UnaryMap t => unchanged task (unary_map_receive t value)
  | UnaryFilter t => unchanged task (unary_filter_receive t value)
  | UnaryFilterMap _ => mret (StepReturn value, task)
  | UnaryFlatMap t => unchanged task (unary_flat_map_receive t value)
  | Fold t => wrapped Fold (fold_receive t value)
  | DictMap t => wrapped DictMap (dict_map_receive t child value)
  | DictEntryMap t => wrapped DictEntryMap (dict_entry_map_receive t child value)
  | DictFilter t => wrapped DictFilter (dict_filter_receive t child value)
  | DictFilterMap t => wrapped DictFilterMap (dict_filter_map_receive t child value)
  | DictUpdate t => wrapped DictUpdate (dict_update_receive t child value)
  | ArrayEq t => wrapped ArrayEq (eq_receive t value)
  | Sum t => wrapped Sum (sum_receive t value)
  | Mean t => wrapped Mean (mean_receive t value)
  end.

Definition scheduled_child_spec (task : Task) (index : nat) : SM NativeChildSpec :=
  match task with
  | SequenceMap t => sequence_child_spec t index
  | SequenceFilter t => sequence_child_spec t index
  | SequencePredicate t => sequence_child_spec t index
  | SequenceFilterMap t => sequence_child_spec t index
  | SequenceFlatMap t => sequence_child_spec t index
  | DictMap t => mlift (fun _ => dict_map_child_spec t index)
  | DictEntryMap t => mlift (fun _ => dict_entry_map_child_spec t index)
  | DictFilter t => mlift (fun _ => dict_filter_child_spec t index)
  | DictFilterMap t => mlift (fun _ => dict_filter_map_child_spec t index)
  | DictUpdate t => mlift (fun _ => dict_update_child_spec t index)
  | _ => mlift (fun _ => internal "native task does not have scheduled child specs")
  end.
End steps.
