(* ===== verification/HostScheduler.v ===== *)
(** Scheduling of host calls: [HostScheduler] and [poll_pending_native] of
    [rex-engine/src/evaluator/scheduler.rs], with the admission control of
    [rex-engine/src/config.rs]. Host futures and native calls are parameters. A
    future is what it will answer when it is polled; waiting is polling again. *)

From S2P Require Import Prelude Span Types Errors EvalScheduler.

Inductive Poll (A : Type) : Type :=
  | PollReady (a : A)
  | PollPending.
Arguments PollReady {A} a.
Arguments PollPending {A}.

(** * Admission *)

Definition usize_max : N := 18446744073709551615.

Record ExecutionBounds : Type := mkExecutionBounds {
  max_ready_work : N; max_pending_async_calls : N }.

Definition ExecutionBounds_new (max_ready_work max_pending_async_calls : N) : ExecutionBounds :=
  mkExecutionBounds
    (if decide (max_ready_work = 0%N) then 1 else max_ready_work)%N
    (if decide (max_pending_async_calls = 0%N) then 1 else max_pending_async_calls)%N.

Definition ExecutionBounds_unbounded : ExecutionBounds := mkExecutionBounds usize_max usize_max.

(** The trait [ParallelismController], over the controller's interior state; [release]
    is the closure that a permit runs when it is dropped. *)
Class ParallelismController (C Permit : Type) := {
  ready_work_limit_of : C -> N;
  poll_acquire_native_async : C -> Poll (result EngineError Permit) * C;
  release : Permit -> C -> C }.

(** The counter; [waiting] says that a waker is registered. The compare-and-exchange
    loop is one atomic step. *)
Record FixedParallelismController : Type := mkFixed {
  bounds : ExecutionBounds;
  active_native_async : N;
  waiting : bool }.

Definition FixedParallelismController_new (b : ExecutionBounds) : FixedParallelismController := mkFixed b 0 false.

#[export] Instance fixed_controller : ParallelismController FixedParallelismController unit := {
  ready_work_limit_of c := max_ready_work (bounds c);
  poll_acquire_native_async c :=
    if (max_pending_async_calls (bounds c) <=? active_native_async c)%N then
      (PollPending, mkFixed (bounds c) (active_native_async c) true)
    else (PollReady (Ok tt), mkFixed (bounds c) (active_native_async c + 1) (waiting c));
  release _ c :=
    mkFixed (bounds c)
      (if decide (active_native_async c = 0%N) then usize_max else active_native_async c - 1)%N false }.

(** * The scheduler *)

Inductive NativeCallScheduling : Type := Immediate | Deferred.

Section host.
Context {Call F Completion C Permit : Type} `{PC : ParallelismController C Permit}.
Context (scheduling : Call -> NativeCallScheduling) (invoke : Call -> result EngineError F)
  (poll_future : F -> Poll (result EngineError Completion) * F).

Inductive PendingNativeState : Type :=
  | Polling (future : F)
  | StateReady (r : result EngineError Completion).

Record PendingNative : Type := mkPendingNative {
  pn_frame : FrameId; pn_state : PendingNativeState; pn_permit : option Permit }.

Record QueuedNative : Type := mkQueuedNative {
  qn_frame : FrameId; qn_call : Call; qn_permit : option Permit }.

Record HostScheduler : Type := mkHostScheduler {
  pending_native : list PendingNative;
  immediate_native : list QueuedNative;
  deferred_native : list QueuedNative;
  parallelism_controller : C }.

Implicit Types (s : HostScheduler).

Definition HostScheduler_new (c : C) : HostScheduler := mkHostScheduler [] [] [] c.

Definition PendingNative_new (frame : FrameId) (future : F) (permit : option Permit) : PendingNative :=
  mkPendingNative frame (Polling future) permit.
Definition PendingNative_ready (frame : FrameId) (r : result EngineError Completion) : PendingNative :=
  mkPendingNative frame (StateReady r) None.
Definition QueuedNative_new (frame : FrameId) (call : Call) : QueuedNative := mkQueuedNative frame call None.

Definition PendingNative_poll (p : PendingNative) : bool * PendingNative :=
  match pn_state p with
  | Polling future =>
      match poll_future future with
      | (PollReady r, _) => (true, mkPendingNative (pn_frame p) (StateReady r) (pn_permit p))
      | (PollPending, future) => (false, mkPendingNative (pn_frame p) (Polling future) (pn_permit p))
      end
  | StateReady _ => (true, p)
  end.

Definition into_completion (p : PendingNative) : result EngineError (FrameId * Completion) :=
  match pn_state p with
  | StateReady r => let? completion := r in Ok (pn_frame p, completion)
  | Polling _ => Err (Internal "pending native future completed without a ready result")
  end.

Definition activate_immediate (q : QueuedNative) : PendingNative :=
  match invoke (qn_call q) with
  | Ok future => PendingNative_new (qn_frame q) future None
  | Err error => PendingNative_ready (qn_frame q) (Err error)
  end.

(** A permit that is not kept is dropped, which releases it. *)
Definition activate_deferred (q : QueuedNative) (c : C) : PendingNative * C :=
  match qn_permit q with
  | None =>
      (PendingNative_ready (qn_frame q)
         (Err (Internal "deferred native activated without an admission permit")), c)
  | Some permit =>
      match invoke (qn_call q) with
      | Ok future => (PendingNative_new (qn_frame q) future (Some permit), c)
      | Err error => (PendingNative_ready (qn_frame q) (Err error), release permit c)
      end
  end.

Definition schedule_native (frame : FrameId) (call : Call) s : HostScheduler :=
  let queued := QueuedNative_new frame call in
  match scheduling call with
  | Immediate =>
      mkHostScheduler (pending_native s) (immediate_native s ++ [queued]) (deferred_native s)
        (parallelism_controller s)
  | Deferred =>
      mkHostScheduler (pending_native s) (immediate_native s) (deferred_native s ++ [queued])
        (parallelism_controller s)
  end.

Definition has_pending_native s : bool := match pending_native s with [] => false | _ => true end.
Definition has_immediate_native s : bool := match immediate_native s with [] => false | _ => true end.
Definition has_deferred_native s : bool := match deferred_native s with [] => false | _ => true end.
Definition has_queued_native_work s : bool := has_immediate_native s || has_deferred_native s.
Definition has_pending_native_work s : bool := has_pending_native s.

Definition try_acquire_next_native_permit s : Poll (result EngineError bool) * HostScheduler :=
  match deferred_native s with
  | [] => (PollReady (Ok false), s)
  | q :: rest =>
      match qn_permit q with
      | Some _ => (PollReady (Ok true), s)
      | None =>
          match poll_acquire_native_async (parallelism_controller s) with
          | (PollReady (Ok permit), c) =>
              (PollReady (Ok true),
               mkHostScheduler (pending_native s) (immediate_native s)
                 (mkQueuedNative (qn_frame q) (qn_call q) (Some permit) :: rest) c)
          | (PollReady (Err err), c) =>
              (PollReady (Err err),
               mkHostScheduler (pending_native s) (immediate_native s) (deferred_native s) c)
          | (PollPending, c) =>
              (PollPending, mkHostScheduler (pending_native s) (immediate_native s) (deferred_native s) c)
          end
      end
  end.

Definition activate_next_immediate_native s : bool * HostScheduler :=
  match immediate_native s with
  | [] => (false, s)
  | q :: rest =>
      (true, mkHostScheduler (pending_native s ++ [activate_immediate q]) rest (deferred_native s)
               (parallelism_controller s))
  end.

Definition activate_next_permitted_deferred_native s : bool * HostScheduler :=
  match deferred_native s with
  | [] => (false, s)
  | q :: rest =>
      match qn_permit q with
      | None => (false, s)
      | Some _ =>
          let '(p, c) := activate_deferred q (parallelism_controller s) in
          (true, mkHostScheduler (pending_native s ++ [p]) (immediate_native s) rest c)
      end
  end.

Definition admit_available_deferred_native s : result EngineError bool * HostScheduler :=
  match try_acquire_next_native_permit s with
  | (PollReady (Ok true), s) =>
      let '(activated, s) := activate_next_permitted_deferred_native s in (Ok activated, s)
  | (PollReady (Ok false), s) | (PollPending, s) => (Ok false, s)
  | (PollReady (Err err), s) => (Err err, s)
  end.

(** The futures before the first that is ready are polled, those after it are not. *)
Fixpoint poll_natives (index : nat) (ps : list PendingNative) : option nat * list PendingNative :=
  match ps with
  | [] => (None, [])
  | p :: ps =>
      match PendingNative_poll p with
      | (true, p) => (Some index, p :: ps)
      | (false, p) => let '(found, ps) := poll_natives (index + 1) ps in (found, p :: ps)
      end
  end.

Definition poll_pending_native_once s : option nat * HostScheduler :=
  let '(found, ps) := poll_natives 0 (pending_native s) in
  (found, mkHostScheduler ps (immediate_native s) (deferred_native s) (parallelism_controller s)).

(** The removed call's permit is dropped with it. *)
Definition take_pending_native_completion (index : nat) s
  : result EngineError (FrameId * Completion) * HostScheduler :=
  match pending_native s !! index with
  | None => (Err (Internal "pending native completion index out of bounds"), s)
  | Some p =>
      let c := match pn_permit p with
               | Some permit => release permit (parallelism_controller s)
               | None => parallelism_controller s
               end in
      (into_completion p,
       mkHostScheduler (delete index (pending_native s)) (immediate_native s) (deferred_native s) c)
  end.

(** * One turn of host work *)

Inductive NativePoll : Type :=
  | Idle
  | Progress
  | Completed (frame : FrameId) (completion : Completion).

Inductive NativeWaitEvent : Type :=
  | EventCompletion (index : nat)
  | EventPermit
  | EventIdle.

(** [poll_fn(f).await]: [f] is polled until it is ready; [None] within the fuel. *)
Fixpoint await {A} (fuel : nat) (f : HostScheduler -> Poll A * HostScheduler) s : option (A * HostScheduler) :=
  match fuel with
  | 0 => None
  | S fuel =>
      match f s with
      | (PollReady a, s) => Some (a, s)
      | (PollPending, s) => await fuel f s
      end
  end.

Definition progress_or_idle (progressed : bool) : NativePoll := if progressed then Progress else Idle.

(** The poll function while calls are pending and [wait] is set. *)
Definition poll_event s : Poll (result EngineError NativeWaitEvent) * HostScheduler :=
  match poll_pending_native_once s with
  | (Some index, s) => (PollReady (Ok (EventCompletion index)), s)
  | (None, s) =>
      match try_acquire_next_native_permit s with
      | (PollReady (Ok true), s) => (PollReady (Ok EventPermit), s)
      | (PollReady (Ok false), s) | (PollPending, s) =>
          if has_pending_native s then (PollPending, s) else (PollReady (Ok EventIdle), s)
      | (PollReady (Err err), s) => (PollReady (Err err), s)
      end
  end.

Definition finish_event (event : NativeWaitEvent) s : result EngineError NativePoll * HostScheduler :=
  match event with
  | EventCompletion index =>
      match take_pending_native_completion index s with
      | (Ok (frame, completion), s) => (Ok (Completed frame completion), s)
      | (Err err, s) => (Err err, s)
      end
  | _ =>
      let '(activated, s) := activate_next_permitted_deferred_native s in
      (Ok (progress_or_idle activated), s)
  end.

Definition poll_pending_native (fuel : nat) (wait : bool) s : option (result EngineError NativePoll * HostScheduler) :=
  if negb (has_pending_native s) && negb (has_immediate_native s) && negb (has_deferred_native s) then
    Some (Ok Idle, s)
  else
    let '(progressed, s) := activate_next_immediate_native s in
    match admit_available_deferred_native s with
    | (Err err, s) => Some (Err err, s)
    | (Ok admitted, s) =>
        let progressed := progressed || admitted in
        if negb (has_pending_native s) then
          if negb wait || (negb (has_immediate_native s) && negb (has_deferred_native s)) then
            Some (Ok (progress_or_idle progressed), s)
          else
            match await fuel try_acquire_next_native_permit s with
            | None => None
            | Some (Err err, s) => Some (Err err, s)
            | Some (Ok _, s) =>
                let '(activated, s) := activate_next_permitted_deferred_native s in
                Some (Ok (progress_or_idle activated), s)
            end
        else if wait then
          match await fuel poll_event s with
          | None => None
          | Some (Err err, s) => Some (Err err, s)
          | Some (Ok event, s) => Some (finish_event event s)
          end
        else
          match poll_pending_native_once s with
          | (None, s) => Some (Ok (progress_or_idle progressed), s)
          | (Some index, s) => Some (finish_event (EventCompletion index) s)
          end
    end.
End host.
