(* ===== verification/HostSafety.v ===== *)
(** What the scheduling of host calls guarantees: every call is answered exactly
    once with its own answer, running asynchronous calls keep to the bound, and the
    work drains. *)

From S2P Require Import Prelude Span Types Errors EvalScheduler HostScheduler.

(** * Exactly once *)

Section safety.
Context {Call F Completion C Permit : Type} `{PC : ParallelismController C Permit}.
Context (scheduling : Call -> NativeCallScheduling) (invoke : Call -> result EngineError F)
  (poll_future : F -> Poll (result EngineError Completion) * F).

Abbreviation HostScheduler := (@HostScheduler Call F Completion C Permit).
Abbreviation PendingNative := (@PendingNative F Completion Permit).
Abbreviation QueuedNative := (@QueuedNative Call Permit).
Implicit Types (s : HostScheduler).

(** What a future answers, when it is polled long enough. *)
Inductive eventually : F -> result EngineError Completion -> Prop :=
  | eventually_now f f' r : poll_future f = (PollReady r, f') -> eventually f r
  | eventually_later f f' r : poll_future f = (PollPending, f') -> eventually f' r -> eventually f r.

(** The answer of a call. *)
Definition answer (call : Call) (r : result EngineError Completion) : Prop :=
  match invoke call with
  | Ok f => eventually f r
  | Err e => r = Err e
  end.

(** A pending entry stands for a call of a frame. *)
Definition stands_for (p : PendingNative) (fc : FrameId * Call) : Prop :=
  pn_frame p = fc.1 /\
  match pn_state p with
  | Polling f => forall r, eventually f r <-> answer fc.2 r
  | StateReady r => answer fc.2 r
  end.

Definition queued_call (q : QueuedNative) : FrameId * Call := (qn_frame q, qn_call q).

(** The outstanding calls of a scheduler. *)
Definition outstanding s (calls : list (FrameId * Call)) : Prop :=
  exists running, Forall2 stands_for (pending_native s) running /\
    calls ≡ₚ running ++ map queued_call (immediate_native s) ++ map queued_call (deferred_native s).

Definition controller_error (e : EngineError) : Prop :=
  exists c c', poll_acquire_native_async (C := C) (Permit := Permit) c = (PollReady (Err e), c').

(** The errors that a turn may end with. *)
Definition call_error (calls : list (FrameId * Call)) (e : EngineError) : Prop :=
  controller_error e \/ exists fc, fc ∈ calls /\ answer fc.2 (Err e).

Lemma activate_immediate_stands q : stands_for (activate_immediate invoke q) (queued_call q).
Proof using.
  unfold activate_immediate, stands_for, queued_call, answer. destruct (invoke (qn_call q)) eqn:Hi; simpl;
    rewrite Hi; by split.
Qed.

Lemma activate_deferred_stands q permit c : qn_permit q = Some permit ->
  stands_for (activate_deferred invoke q c).1 (queued_call q).
Proof using.
  intros Hq. unfold activate_deferred, stands_for, queued_call, answer. rewrite Hq.
  destruct (invoke (qn_call q)) eqn:Hi; simpl; rewrite Hi; by split.
Qed.

Lemma outstanding_same s s' calls :
  pending_native s' = pending_native s -> map queued_call (immediate_native s') = map queued_call (immediate_native s) ->
  map queued_call (deferred_native s') = map queued_call (deferred_native s) ->
  outstanding s calls -> outstanding s' calls.
Proof using. intros Hp Hi Hd (run & Hr & Hc). exists run. by rewrite Hp, Hi, Hd. Qed.

Lemma activate_next_immediate_outstanding s calls : outstanding s calls ->
  outstanding (activate_next_immediate_native invoke s).2 calls.
Proof using.
  intros (run & Hr & Hc). unfold activate_next_immediate_native.
  destruct (immediate_native s) as [|q rest] eqn:Hi; [exists run; simpl; by rewrite ?Hi|].
  exists (run ++ [queued_call q]). simpl. split.
  - apply Forall2_app; [done|]. repeat constructor; apply activate_immediate_stands.
  - rewrite Hc. simpl. by rewrite <- app_assoc.
Qed.

Lemma activate_next_deferred_outstanding s calls : outstanding s calls ->
  outstanding (activate_next_permitted_deferred_native invoke s).2 calls.
Proof using.
  intros (run & Hr & Hc). unfold activate_next_permitted_deferred_native.
  destruct (deferred_native s) as [|q rest] eqn:Hd; [exists run; simpl; by rewrite Hd|].
  destruct (qn_permit q) as [permit|] eqn:Hq; [|exists run; simpl; by rewrite Hd].
  pose proof (activate_deferred_stands q permit (parallelism_controller s) Hq) as Hs.
  destruct (activate_deferred invoke q _) as [p c]. exists (run ++ [queued_call q]). simpl in *. split.
  - apply Forall2_app; [done|]. constructor; [exact Hs|constructor].
  - rewrite Hc. simpl. rewrite <- app_assoc. by rewrite <- Permutation_middle.
Qed.

Lemma try_acquire_outstanding s calls x s' : outstanding s calls ->
  try_acquire_next_native_permit s = (x, s') ->
  outstanding s' calls /\ pending_native s' = pending_native s /\
  length (immediate_native s') = length (immediate_native s) /\
  length (deferred_native s') = length (deferred_native s) /\
  match x with
  | PollReady (Ok true) => exists q rest permit, deferred_native s' = q :: rest /\ qn_permit q = Some permit
  | PollReady (Ok false) => deferred_native s' = []
  | PollReady (Err e) => controller_error e
  | PollPending => True
  end.
Proof using.
  intros Ho. unfold try_acquire_next_native_permit. destruct (deferred_native s) as [|q rest] eqn:Hd.
  { intros [= <- <-]. split_and!; try done. by rewrite Hd. }
  destruct (qn_permit q) as [permit|] eqn:Hq.
  { intros [= <- <-]. split_and!; try done; [by rewrite Hd|by exists q, rest, permit]. }
  destruct (poll_acquire_native_async (parallelism_controller s)) as [[[permit|e]|] c] eqn:Hp; intros [= <- <-];
    (split_and!; [eapply outstanding_same, Ho; simpl; rewrite ?Hd; done|done|done|simpl; rewrite ?Hd; done|]).
  - by eexists _, rest, permit.
  - by exists (parallelism_controller s), c.
  - done.
Qed.

Lemma poll_stands p fc : stands_for p fc -> stands_for (PendingNative_poll poll_future p).2 fc.
Proof using.
  intros [Hf Hs]. unfold PendingNative_poll. destruct (pn_state p) as [f|r] eqn:Hp; [|split; [done|simpl; by rewrite Hp]].
  destruct (poll_future f) as [[r|] f'] eqn:Hpoll; (split; [done|]); simpl.
  - apply Hs. by eapply eventually_now.
  - intros r. rewrite <- Hs. split; [by apply eventually_later|]. intros He. inversion He; congruence.
Qed.

Lemma poll_natives_stands ps run index found ps' : Forall2 stands_for ps run ->
  poll_natives poll_future index ps = (found, ps') ->
  Forall2 stands_for ps' run /\
  match found with
  | Some i => exists j p r, i = index + j /\ ps' !! j = Some p /\ pn_state p = StateReady r
  | None => True
  end.
Proof using.
  intros Hf. revert index found ps'. induction Hf as [|p fc ps run Hp Hf IH]; intros index found ps'; simpl.
  { intros [= <- <-]. by split. }
  pose proof (poll_stands p fc Hp) as Hp'.
  destruct (PendingNative_poll poll_future p) as [[] p'] eqn:Hpoll; simpl in Hp'.
  - intros [= <- <-]. split; [by constructor|]. unfold PendingNative_poll in Hpoll. exists 0, p'.
    destruct (pn_state p) as [f|r] eqn:Hs; [destruct (poll_future f) as [[r|] f']|]; simplify_eq;
      eexists; (split; [lia|done]).
  - destruct (poll_natives poll_future (index + 1) ps) as [found0 ps0] eqn:Hrest. intros [= <- <-].
    destruct (IH _ _ _ Hrest) as [H1 H2]. split; [by constructor|]. destruct found0 as [i|]; [|done].
    destruct H2 as (j & p0 & r & -> & Hj & Hr). exists (S j), p0, r. split_and!; [lia|done|done].
Qed.

Lemma poll_once_outstanding s calls found s' : outstanding s calls ->
  poll_pending_native_once poll_future s = (found, s') ->
  outstanding s' calls /\ length (pending_native s') = length (pending_native s) /\
  immediate_native s' = immediate_native s /\ deferred_native s' = deferred_native s /\
  match found with
  | Some i => exists p r, pending_native s' !! i = Some p /\ pn_state p = StateReady r
  | None => True
  end.
Proof using.
  intros (run & Hr & Hc). unfold poll_pending_native_once.
  destruct (poll_natives poll_future 0 (pending_native s)) as [found0 ps] eqn:Hp. intros [= <- <-].
  destruct (poll_natives_stands _ _ _ _ _ Hr Hp) as [H1 H2]. simpl. split_and!; try done.
  - by exists run.
  - apply Forall2_length in H1, Hr. lia.
  - destruct found0 as [i|]; [|done]. destruct H2 as (j & p & r & -> & Hj & Hs). by exists p, r.
Qed.

Lemma take_completion_outstanding s calls i p r x s' : outstanding s calls ->
  pending_native s !! i = Some p -> pn_state p = StateReady r ->
  take_pending_native_completion i s = (x, s') ->
  exists call rest, calls ≡ₚ (pn_frame p, call) :: rest /\ answer call r /\ outstanding s' rest /\
    x = (let? c := r in Ok (pn_frame p, c)).
Proof using.
  intros (run & Hr & Hc) Hp Hs. unfold take_pending_native_completion. rewrite Hp. intros [= <- <-].
  destruct (Forall2_lookup_l _ _ _ _ _ Hr Hp) as ([fr call] & Hrun & [Hfr Ha]). rewrite Hs in Ha. simpl in *. subst fr.
  exists call, (delete i run ++ map queued_call (immediate_native s) ++ map queued_call (deferred_native s)).
  split_and!.
  - rewrite Hc. rewrite (delete_Permutation _ _ _ Hrun) at 1. done.
  - done.
  - exists (delete i run). simpl. split; [|done]. by apply Forall2_delete.
  - unfold into_completion. by rewrite Hs.
Qed.

(** ** A whole turn *)

(** What a turn makes of the outstanding calls. *)
Definition turn_ok (calls : list (FrameId * Call)) (x : result EngineError NativePoll) s' : Prop :=
  match x with
  | Ok (Completed frame completion) =>
      exists call rest, calls ≡ₚ (frame, call) :: rest /\ answer call (Ok completion) /\ outstanding s' rest
  | Ok _ => outstanding s' calls
  | Err e => call_error calls e
  end.

Lemma finish_completion_ok s calls i p r x s' : outstanding s calls ->
  pending_native s !! i = Some p -> pn_state p = StateReady r ->
  finish_event invoke (EventCompletion i) s = (x, s') -> turn_ok calls x s'.
Proof using.
  intros Ho Hp Hs. unfold finish_event. destruct (take_pending_native_completion i s) as [y s1] eqn:Ht.
  destruct (take_completion_outstanding _ _ _ _ _ _ _ Ho Hp Hs Ht) as (call & rest & Hc & Ha & Ho' & ->).
  destruct r as [c|e]; simpl; intros [= <- <-]; simpl; [by exists call, rest|].
  right. exists (pn_frame p, call). split; [rewrite Hc; by left|done].
Qed.

Lemma finish_permit_ok s calls event x s' : outstanding s calls ->
  match event with EventCompletion _ => False | _ => True end ->
  finish_event invoke event s = (x, s') -> turn_ok calls x s'.
Proof using.
  intros Ho He. unfold finish_event. pose proof (activate_next_deferred_outstanding s calls Ho) as Hn.
  destruct (activate_next_permitted_deferred_native invoke s) as [activated s1]. destruct event; [done|..];
    intros [= <- <-]; by destruct activated.
Qed.

(** Turns that a scheduler may still need: two per queued call, one per pending. *)
Definition turns_left s : nat :=
  2 * (length (immediate_native s) + length (deferred_native s)) + length (pending_native s).

Definition event_ok (calls : list (FrameId * Call)) (x : result EngineError NativeWaitEvent) s : Prop :=
  match x with
  | Ok (EventCompletion i) =>
      outstanding s calls /\ exists p r, pending_native s !! i = Some p /\ pn_state p = StateReady r
  | Ok EventPermit =>
      outstanding s calls /\ exists q rest permit, deferred_native s = q :: rest /\ qn_permit q = Some permit
  | Ok EventIdle => pending_native s = []
  | Err e => call_error calls e
  end.

Lemma poll_event_ok s calls x s' : outstanding s calls -> poll_event poll_future s = (x, s') ->
  length (pending_native s') = length (pending_native s) /\
  length (immediate_native s') = length (immediate_native s) /\
  length (deferred_native s') = length (deferred_native s) /\
  match x with PollReady y => event_ok calls y s' | PollPending => outstanding s' calls end.
Proof using.
  intros Ho. unfold poll_event. destruct (poll_pending_native_once poll_future s) as [found s1] eqn:Hp.
  destruct (poll_once_outstanding _ _ _ _ Ho Hp) as (Ho1 & Hl1 & Hi1 & Hd1 & Hfound). rewrite <- Hl1, <- Hi1, <- Hd1.
  clear Hl1 Hi1 Hd1 Hp.
  destruct found as [i|]; [intros [= <- <-]; by split_and!|].
  destruct (try_acquire_next_native_permit s1) as [y s2] eqn:Ht.
  destruct (try_acquire_outstanding _ _ _ _ Ho1 Ht) as (Ho2 & Hp2 & Hi2 & Hd2 & Hy).
  rewrite <- Hp2, <- Hi2, <- Hd2.
  destruct y as [[[]|e]|]; [..|].
  - intros [= <- <-]. by split_and!.
  - unfold has_pending_native. destruct (pending_native s2) eqn:Hn; intros [= <- <-]; by split_and!; rewrite ?Hn.
  - intros [= <- <-]. split_and!; try done. by left.
  - unfold has_pending_native. destruct (pending_native s2) eqn:Hn; intros [= <- <-]; by split_and!; rewrite ?Hn.
Qed.

Lemma await_event_ok fuel s calls x s' : outstanding s calls -> pending_native s <> [] ->
  await fuel (poll_event poll_future) s = Some (x, s') ->
  event_ok calls x s' /\ pending_native s' <> [] /\ turns_left s' = turns_left s.
Proof using.
  revert s. induction fuel as [|fuel IH]; intros s Ho Hne; simpl; [done|].
  destruct (poll_event poll_future s) as [[y|] s1] eqn:Hp;
    destruct (poll_event_ok _ _ _ _ Ho Hp) as (Hl & Hi & Hd & Hy);
    assert (Hne1 : pending_native s1 <> []) by (by destruct (pending_native s), (pending_native s1));
    assert (Hturns : turns_left s1 = turns_left s) by (unfold turns_left; rewrite Hl, Hi, Hd; done).
  - intros [= <- <-]. by split_and!.
  - intros Ha. destruct (IH s1 Hy Hne1 Ha) as (? & ? & ->). by split_and!.
Qed.

Lemma await_permit_ok fuel s calls x s' : outstanding s calls -> deferred_native s <> [] ->
  await fuel try_acquire_next_native_permit s = Some (x, s') ->
  outstanding s' calls /\ turns_left s' = turns_left s /\
  match x with
  | Ok _ => exists q rest permit, deferred_native s' = q :: rest /\ qn_permit q = Some permit
  | Err e => controller_error e
  end.
Proof using.
  revert s. induction fuel as [|fuel IH]; intros s Ho Hne; simpl; [done|].
  destruct (try_acquire_next_native_permit s) as [[y|] s1] eqn:Ht;
    destruct (try_acquire_outstanding _ _ _ _ Ho Ht) as (Ho1 & Hp & Hi & Hd & Hy).
  - intros [= <- <-]. split_and!; [done|unfold turns_left; by rewrite Hp, Hi, Hd|]. destruct y as [[]|]; try done.
    exfalso. rewrite Hy in Hd. by destruct (deferred_native s).
  - intros Ha. assert (Hne1 : deferred_native s1 <> []) by (by destruct (deferred_native s), (deferred_native s1)).
    destruct (IH s1 Ho1 Hne1 Ha) as (? & -> & ?). split_and!; [done|unfold turns_left; by rewrite Hp, Hi, Hd|done].
Qed.

(** ** Counting *)

Lemma activate_next_immediate_turns s b s' : activate_next_immediate_native invoke s = (b, s') ->
  if b then turns_left s' < turns_left s /\ pending_native s' <> [] else immediate_native s = [] /\ s' = s.
Proof using.
  unfold activate_next_immediate_native, turns_left. destruct (immediate_native s) as [|q rest] eqn:Hi;
    intros [= <- <-]; [done|]. simpl. rewrite length_app. simpl. split; [lia|]. by destruct (pending_native s).
Qed.

Lemma activate_next_deferred_turns s b s' : activate_next_permitted_deferred_native invoke s = (b, s') ->
  if b then turns_left s' < turns_left s /\ pending_native s' <> []
  else s' = s /\ forall q rest permit, deferred_native s = q :: rest -> qn_permit q = Some permit -> False.
Proof using.
  unfold activate_next_permitted_deferred_native, turns_left. destruct (deferred_native s) as [|q rest] eqn:Hd.
  { intros [= <- <-]. by split. }
  destruct (qn_permit q) as [permit|] eqn:Hq.
  - destruct (activate_deferred invoke q _) as [p c]. intros [= <- <-]. simpl. rewrite length_app. simpl.
    split; [lia|]. by destruct (pending_native s).
  - intros [= <- <-]. split; [done|]. intros q' rest' permit [= <- <-]. congruence.
Qed.

Lemma admit_outstanding s calls x s' : outstanding s calls ->
  admit_available_deferred_native invoke s = (x, s') ->
  match x with
  | Ok b =>
      outstanding s' calls /\ turns_left s' <= turns_left s /\ (pending_native s <> [] -> pending_native s' <> []) /\
      length (immediate_native s') = length (immediate_native s) /\
      if b then turns_left s' < turns_left s /\ pending_native s' <> []
      else pending_native s' = pending_native s /\ length (deferred_native s') = length (deferred_native s)
  | Err e => controller_error e
  end.
Proof using.
  intros Ho. unfold admit_available_deferred_native. destruct (try_acquire_next_native_permit s) as [y s1] eqn:Ht.
  destruct (try_acquire_outstanding _ _ _ _ Ho Ht) as (Ho1 & Hp & Hi & Hd & Hy).
  assert (Hturns : turns_left s1 = turns_left s) by (unfold turns_left; rewrite Hp, Hi, Hd; done).
  destruct y as [[[]|e]|]; [|intros [= <- <-]; by rewrite Hturns, Hp..|by intros [= <- <-]|].
  - pose proof (activate_next_deferred_outstanding s1 calls Ho1) as Ho2.
    destruct (activate_next_permitted_deferred_native invoke s1) as [b s2] eqn:Ha. intros [= <- <-].
    pose proof (activate_next_deferred_turns _ _ _ Ha) as Hb. rewrite <- Hturns.
    assert (Hi2 : length (immediate_native s2) = length (immediate_native s1)).
    { unfold activate_next_permitted_deferred_native in Ha. destruct (deferred_native s1); [by simplify_eq|].
      destruct (qn_permit _); [|by simplify_eq]. destruct (activate_deferred _ _ _). by simplify_eq. }
    simpl in *. rewrite Hi2, Hi. destruct b.
    + destruct Hb as [Hlt Hne]. split_and!; try done; lia.
    + destruct Hb as [-> _]. rewrite Hp. split_and!; try done; lia.
  - intros [= <- <-]. rewrite Hturns, Hp. by split_and!.
Qed.

Lemma finish_completion_turns s i p r x s' :
  pending_native s !! i = Some p -> pn_state p = StateReady r ->
  finish_event invoke (EventCompletion i) s = (x, s') -> turns_left s' < turns_left s.
Proof using.
  intros Hp Hs. unfold finish_event, take_pending_native_completion, turns_left. rewrite Hp.
  unfold into_completion. rewrite Hs. apply lookup_lt_Some in Hp as Hlt.
  destruct r as [c|e]; simpl; intros [= <- <-]; simpl; rewrite length_delete by eauto; lia.
Qed.

Lemma finish_permit_turns s x s' event :
  (exists q rest permit, deferred_native s = q :: rest /\ qn_permit q = Some permit) ->
  match event with EventCompletion _ => False | _ => True end ->
  finish_event invoke event s = (x, s') -> x = Ok Progress /\ turns_left s' < turns_left s.
Proof using.
  intros (q & rest & permit & Hd & Hq) He. unfold finish_event. destruct event; [done|..];
    (destruct (activate_next_permitted_deferred_native invoke s) as [b s1] eqn:Ha; intros [= <- <-];
     apply activate_next_deferred_turns in Ha; destruct b; [by destruct Ha|];
     destruct Ha as [_ Hno]; by destruct (Hno _ _ _ Hd Hq)).
Qed.

Lemma nothing_outstanding s calls : outstanding s calls ->
  pending_native s = [] -> immediate_native s = [] -> deferred_native s = [] -> calls = [].
Proof using.
  intros (run & Hr & Hc) Hp Hi Hd. rewrite Hp in Hr. rewrite Hi, Hd in Hc. inversion Hr; subst.
  by apply Permutation_nil_r in Hc.
Qed.

(** What a turn does, and when it ends with [Idle]. *)
Definition turn_result (wait : bool) s calls (x : result EngineError NativePoll) s' : Prop :=
  turn_ok calls x s' /\
  match x with
  | Ok Idle => wait = true -> calls = []
  | Ok _ => turns_left s' < turns_left s
  | Err _ => True
  end.

Lemma turn_with_pending fuel (wait progressed : bool) s0 s calls x s' : outstanding s calls -> pending_native s <> [] ->
  turns_left s <= turns_left s0 -> (progressed = true -> turns_left s < turns_left s0) ->
  (if wait then
     match await fuel (poll_event poll_future) s with
     | None => None
     | Some (Err err, s) => Some (Err err, s)
     | Some (Ok event, s) => Some (finish_event invoke event s)
     end
   else match poll_pending_native_once poll_future s with
        | (None, s) => Some (Ok (progress_or_idle progressed), s)
        | (Some index, s) => Some (finish_event invoke (EventCompletion index) s)
        end) = Some (x, s') -> turn_result wait s0 calls x s'.
Proof using.
  intros Ho Hne Hle Hlt. destruct wait.
  - destruct (await fuel _ s) as [[[event|e] s1]|] eqn:Ha; [..|done];
      destruct (await_event_ok _ _ _ _ _ Ho Hne Ha) as (He & Hne1 & Hturns).
    + intros [= Hfin]. destruct event as [i| |]; simpl in He; [..|by destruct (Hne1 He)]; destruct He as [Ho1 He].
      * destruct He as (p & r & Hi & Hs). split; [by eapply finish_completion_ok|].
        pose proof (finish_completion_turns _ _ _ _ _ _ Hi Hs Hfin). destruct x as [[]|]; try done; try lia.
        unfold finish_event in Hfin. destruct (take_pending_native_completion i s1) as [[[]|] ?]; simplify_eq.
      * split; [exact (finish_permit_ok _ _ EventPermit _ _ Ho1 I Hfin)|]. destruct (finish_permit_turns _ _ _ EventPermit He I Hfin) as [-> ?]. lia.
    + intros [= <- <-]. by split.
  - destruct (poll_pending_native_once poll_future s) as [[i|] s1] eqn:Hp;
      destruct (poll_once_outstanding _ _ _ _ Ho Hp) as (Ho1 & Hl1 & Hi1 & Hd1 & Hfound);
      assert (Hturns : turns_left s1 = turns_left s) by (unfold turns_left; by rewrite Hl1, Hi1, Hd1).
    + intros [= Hfin]. destruct Hfound as (p & r & Hi & Hs). split; [by eapply finish_completion_ok|].
      pose proof (finish_completion_turns _ _ _ _ _ _ Hi Hs Hfin). destruct x as [[]|]; try done; lia.
    + intros [= <- <-]. destruct progressed; (split; [done|]); [|done]. simpl. specialize (Hlt eq_refl). lia.
Qed.

Lemma turn_spec fuel wait s calls x s' : outstanding s calls ->
  poll_pending_native invoke poll_future fuel wait s = Some (x, s') -> turn_result wait s calls x s'.
Proof using.
  intros Ho. unfold poll_pending_native.
  destruct (negb (has_pending_native s) && _ && _) eqn:Hnone.
  { intros [= <- <-]. split; [done|]. intros _. apply (nothing_outstanding s); [done|..];
    unfold has_pending_native, has_immediate_native, has_deferred_native in Hnone;
    by destruct (pending_native s), (immediate_native s), (deferred_native s). }
  clear Hnone. pose proof (activate_next_immediate_outstanding s calls Ho) as Ho1.
  destruct (activate_next_immediate_native invoke s) as [b1 s1] eqn:Ha1. simpl in Ho1.
  pose proof (activate_next_immediate_turns _ _ _ Ha1) as Hb1.
  assert (Hle1 : turns_left s1 <= turns_left s) by (destruct b1; destruct Hb1; subst; lia).
  destruct (admit_available_deferred_native invoke s1) as [[b2|e] s2] eqn:Ha2;
    pose proof (admit_outstanding _ _ _ _ Ho1 Ha2) as Hadm; [|intros [= <- <-]; by split; [left|]].
  destruct Hadm as (Ho2 & Hle2 & Hpend & Hi2 & Hb2).
  assert (Hlt : (b1 || b2) = true -> turns_left s2 < turns_left s /\ pending_native s2 <> []).
  { destruct b1; simpl; [intros _; destruct Hb1; split; [lia|auto]|]. intros ->. destruct Hb2. split; [lia|done]. }
  destruct (negb (has_pending_native s2)) eqn:Hnp.
  - assert (Hp2 : pending_native s2 = []) by (unfold has_pending_native in Hnp; by destruct (pending_native s2)).
    assert (Hno : (b1 || b2) = false) by (destruct (b1 || b2); [by destruct (Hlt eq_refl)|done]). rewrite Hno.
    apply orb_false_iff in Hno as [-> ->]. destruct Hb1 as [Hi ->].
    assert (Himm : immediate_native s2 = []) by (rewrite Hi in Hi2; by destruct (immediate_native s2)).
    destruct (negb wait || _) eqn:Hw.
    + intros [= <- <-]. split; [done|]. intros ->. simpl in Hw. apply andb_true_iff in Hw as [_ Hd].
      apply (nothing_outstanding s2); [done..|]. unfold has_deferred_native in Hd. by destruct (deferred_native s2).
    + apply orb_false_iff in Hw as [_ Hd]. unfold has_immediate_native in Hd. rewrite Himm in Hd. simpl in Hd.
      assert (Hdn : deferred_native s2 <> []) by (unfold has_deferred_native in Hd; by destruct (deferred_native s2)).
      destruct (await fuel _ s2) as [[y s3]|] eqn:Haw; [|done].
      destruct (await_permit_ok _ _ _ _ _ Ho2 Hdn Haw) as (Ho3 & Hturns & Hy).
      destruct y as [b|e]; [|intros [= <- <-]; by split; [left|]].
      destruct (activate_next_permitted_deferred_native invoke s3) as [b3 s4] eqn:Ha3. intros [= <- <-].
      assert (Hfin : finish_event invoke EventPermit s3 = (Ok (progress_or_idle b3), s4)) by (simpl; by rewrite Ha3).
      split; [exact (finish_permit_ok _ _ EventPermit _ _ Ho3 I Hfin)|]. destruct (finish_permit_turns _ _ _ EventPermit Hy I Hfin) as [Hx ?].
      destruct b3; [simpl; lia|discriminate].
  - apply turn_with_pending; [done| |lia|intros Hpr; destruct (Hlt Hpr); lia].
    unfold has_pending_native in Hnp. by destruct (pending_native s2).
Qed.

(** ** Runs *)

(** What the evaluator sees of a scheduler: it schedules calls, and a turn delivers a
    completion or not. *)
Inductive host_event : Type :=
  | Scheduled (frame : FrameId) (call : Call)
  | Delivered (frame : FrameId) (completion : Completion)
  | Quiet.

Inductive host_step : HostScheduler -> host_event -> HostScheduler -> Prop :=
  | step_schedule s frame call : host_step s (Scheduled frame call) (schedule_native scheduling frame call s)
  | step_deliver s fuel wait frame completion s' :
      poll_pending_native invoke poll_future fuel wait s = Some (Ok (Completed frame completion), s') ->
      host_step s (Delivered frame completion) s'
  | step_quiet s fuel wait x s' :
      poll_pending_native invoke poll_future fuel wait s = Some (Ok x, s') -> x = Idle \/ x = Progress ->
      host_step s Quiet s'.

Inductive host_run : HostScheduler -> list host_event -> HostScheduler -> Prop :=
  | run_nil s : host_run s [] s
  | run_snoc s evs s1 ev s2 : host_run s evs s1 -> host_step s1 ev s2 -> host_run s (evs ++ [ev]) s2.

Definition scheduled (evs : list host_event) : list (FrameId * Call) :=
  omap (fun ev => match ev with Scheduled frame call => Some (frame, call) | _ => None end) evs.
Definition delivered (evs : list host_event) : list (FrameId * Completion) :=
  omap (fun ev => match ev with Delivered frame completion => Some (frame, completion) | _ => None end) evs.

(** A completion that a call is answered with. *)
Definition answered (fc : FrameId * Call) (d : FrameId * Completion) : Prop := d.1 = fc.1 /\ answer fc.2 (Ok d.2).

Lemma schedule_outstanding s calls frame call : outstanding s calls ->
  outstanding (schedule_native scheduling frame call s) ((frame, call) :: calls).
Proof using.
  intros (run & Hr & Hc). exists run. unfold schedule_native. destruct (scheduling call); simpl;
    (split; [done|]); rewrite map_app, Hc; simpl; change (queued_call (QueuedNative_new frame call)) with (frame, call).
  - rewrite (Permutation_app_comm (map _ (immediate_native s)) [_]). simpl. by rewrite <- Permutation_middle.
  - rewrite !app_assoc. apply Permutation_cons_append.
Qed.

Lemma new_outstanding c : outstanding (HostScheduler_new c) [].
Proof using. exists []. split; [constructor|done]. Qed.

Lemma run_outstanding c evs s : host_run (HostScheduler_new c) evs s ->
  exists done_calls rest, scheduled evs ≡ₚ done_calls ++ rest /\ outstanding s rest /\
    Forall2 answered done_calls (delivered evs).
Proof using.
  intros Hrun. remember (HostScheduler_new c) as s0 eqn:Hs0.
  induction Hrun as [s|s evs s1 ev s2 Hrun IH Hstep]; subst.
  { exists [], []. split_and!; [done|apply new_outstanding|constructor]. }
  destruct (IH eq_refl) as (dn & rest & Hperm & Ho & Hall). unfold scheduled, delivered in *.
  rewrite !omap_app. inversion Hstep; subst; simpl; rewrite ?app_nil_r.
  - exists dn, ((frame, call) :: rest). split_and!; [|by apply schedule_outstanding|done].
    rewrite Hperm, <- app_assoc. by rewrite <- (Permutation_cons_append rest).
  - match goal with H : poll_pending_native _ _ _ _ _ = _ |- _ => apply (turn_spec _ _ _ rest) in H as [Hok _]; [|done] end.
    destruct Hok as (call & rest' & Hc & Ha & Ho'). exists (dn ++ [(frame, call)]), rest'. split_and!; [|done|].
    + rewrite Hperm, Hc. by rewrite <- app_assoc.
    + apply Forall2_app; [done|]. constructor; [by split|constructor].
  - match goal with H : poll_pending_native _ _ _ _ _ = _ |- _ => apply (turn_spec _ _ _ rest) in H as [Hok _]; [|done] end.
    exists dn, rest. split_and!; [done| |done]. by destruct H0 as [-> | ->].
Qed.
End safety.

(** * The fixed controller *)

Section fixed.
Context {Call F Completion : Type}.
Context (scheduling : Call -> NativeCallScheduling) (invoke : Call -> result EngineError F)
  (poll_future : F -> Poll (result EngineError Completion) * F).

Abbreviation HostScheduler := (@HostScheduler Call F Completion FixedParallelismController unit).
Implicit Types (s : HostScheduler).

(** How many entries hold a permit. *)
Definition permits {A} (permit : A -> option unit) (l : list A) : nat := length (omap permit l).

Lemma permits_cons {A} (permit : A -> option unit) x l :
  permits permit (x :: l) = (if permit x then 1 else 0) + permits permit l.
Proof using. unfold permits. simpl. by destruct (permit x). Qed.
Lemma permits_nil {A} (permit : A -> option unit) : permits permit [] = 0.
Proof using. done. Qed.
Lemma permits_app {A} (permit : A -> option unit) l l' :
  permits permit (l ++ l') = permits permit l + permits permit l'.
Proof using. unfold permits. by rewrite omap_app, length_app. Qed.
Lemma permits_none {A} (permit : A -> option unit) l : Forall (fun x => permit x = None) l -> permits permit l = 0.
Proof using. induction 1 as [|x l Hx _ IH]; [done|]. by rewrite permits_cons, Hx, IH. Qed.

(** The calls that run with a permit, and the queued ones that hold one. *)
Definition running_async s : nat := permits pn_permit (pending_native s).
Definition queued_permits s : nat := permits qn_permit (deferred_native s).

(** The controller counts the permits that are held; only the front of the deferred
    queue may hold one. *)
Record accounted (b : ExecutionBounds) s : Prop := {
  acc_bounds : bounds (parallelism_controller s) = b;
  acc_active : active_native_async (parallelism_controller s) = N.of_nat (running_async s + queued_permits s);
  acc_limit : (active_native_async (parallelism_controller s) <= max_pending_async_calls b)%N;
  acc_front : Forall (fun q => qn_permit q = None) (tail (deferred_native s)) }.

Lemma schedule_accounted b s frame call : accounted b s -> accounted b (schedule_native scheduling frame call s).
Proof using.
  intros [H1 H2 H3 H4]. unfold schedule_native. destruct (scheduling call); split; try done.
  - simpl. rewrite H2. unfold running_async, queued_permits. simpl. rewrite permits_app, permits_cons, permits_nil. simpl. lia.
  - simpl. destruct (deferred_native s); [constructor|]. simpl in *. apply Forall_app. split; [done|].
    by repeat constructor.
Qed.

Lemma activate_immediate_accounted b s : accounted b s ->
  accounted b (activate_next_immediate_native invoke s).2.
Proof using.
  intros [H1 H2 H3 H4]. unfold activate_next_immediate_native. destruct (immediate_native s) as [|q rest]; [by split|].
  split; try done. simpl. rewrite H2. unfold running_async, queued_permits. simpl.
  rewrite permits_app, permits_cons, permits_nil. unfold activate_immediate. destruct (invoke (qn_call q)); simpl; lia.
Qed.

Lemma activate_deferred_accounted b s : accounted b s ->
  accounted b (activate_next_permitted_deferred_native invoke s).2.
Proof using.
  intros [H1 H2 H3 H4]. unfold activate_next_permitted_deferred_native.
  destruct (deferred_native s) as [|q rest] eqn:Hd; [by split; simpl; rewrite ?Hd|].
  destruct (qn_permit q) as [[]|] eqn:Hq; [|by split; simpl; rewrite ?Hd].
  unfold activate_deferred. rewrite Hq. simpl in H4. unfold running_async, queued_permits in *.
  rewrite Hd, permits_cons, Hq, (permits_none _ rest H4) in H2. simpl in H2.
  assert (Htl : Forall (fun q => qn_permit q = None) (tail rest)) by (destruct rest; [done|by inversion H4]).
  destruct (invoke (qn_call q)); split; simpl; try done; unfold running_async, queued_permits; simpl;
    rewrite ?permits_app, ?permits_cons, ?permits_nil, ?(permits_none _ rest H4); simpl; try case_decide; lia.
Qed.

Lemma try_acquire_accounted b s x s' : accounted b s -> try_acquire_next_native_permit s = (x, s') ->
  accounted b s' /\ (pending_native s = [] -> (1 <= max_pending_async_calls b)%N -> x <> PollPending) /\
  (forall e, x <> PollReady (Err e)).
Proof using.
  intros Hacc. pose proof Hacc as [H1 H2 H3 H4]. unfold try_acquire_next_native_permit.
  destruct (deferred_native s) as [|q rest] eqn:Hd; [by intros [= <- <-]|].
  destruct (qn_permit q) as [[]|] eqn:Hq; [by intros [= <- <-]|].
  simpl in H4. simpl. rewrite H1.
  assert (Hqp : queued_permits s = 0).
  { unfold queued_permits. by rewrite Hd, permits_cons, Hq, permits_none. }
  destruct (max_pending_async_calls b <=? active_native_async (parallelism_controller s))%N eqn:Hlim;
    intros [= <- <-]; (split; [|split; [|by intros e]]).
  - split; simpl; try done. unfold running_async, queued_permits in *. simpl. by rewrite H2, Hd.
  - intros Hp Hone. apply N.leb_le in Hlim. unfold running_async in H2. rewrite Hp, Hqp in H2. simpl in H2. lia.
  - apply N.leb_gt in Hlim. split; simpl; try done; [|lia].
    unfold running_async, queued_permits in *. simpl. rewrite permits_cons, (permits_none _ rest H4). simpl.
    rewrite H2, Hqp. lia.
  - done.
Qed.

Lemma poll_natives_permits index (ps : list (PendingNative (Permit := unit))) found ps' : poll_natives poll_future index ps = (found, ps') ->
  map pn_permit ps' = map pn_permit ps.
Proof using.
  revert index found ps'. induction ps as [|p ps IH]; intros index found ps'; simpl; [by intros [= <- <-]|].
  assert (Hp : pn_permit (PendingNative_poll poll_future p).2 = pn_permit p).
  { unfold PendingNative_poll. destruct (pn_state p) as [f|]; [|done]. by destruct (poll_future f) as [[] ?]. }
  destruct (PendingNative_poll poll_future p) as [[] p']; simpl in Hp.
  - intros [= <- <-]. simpl. by rewrite Hp.
  - destruct (poll_natives poll_future (index + 1) ps) as [f0 ps0] eqn:Hr. intros [= <- <-]. simpl.
    rewrite Hp. f_equal. by eapply IH.
Qed.

Lemma permits_map {A} (permit : A -> option unit) l l' :
  map permit l' = map permit l -> permits permit l' = permits permit l.
Proof using.
  revert l'. induction l as [|x l IH]; intros [|x' l']; simpl; try done. intros [= Hx Hl].
  by rewrite !permits_cons, Hx, (IH l' Hl).
Qed.

Lemma poll_once_accounted b s : accounted b s -> accounted b (poll_pending_native_once poll_future s).2.
Proof using.
  intros [H1 H2 H3 H4]. unfold poll_pending_native_once.
  destruct (poll_natives poll_future 0 (pending_native s)) as [found ps] eqn:Hp.
  apply poll_natives_permits, permits_map in Hp. split; simpl; try done.
  rewrite H2. unfold running_async, queued_permits. simpl. by rewrite Hp.
Qed.

Lemma take_accounted b s i : accounted b s -> accounted b (take_pending_native_completion i s).2.
Proof using.
  intros [H1 H2 H3 H4]. unfold take_pending_native_completion.
  destruct (pending_native s !! i) as [p|] eqn:Hp; [|by split]. unfold running_async, queued_permits in *.
  assert (Hlen : permits pn_permit (pending_native s) =
    permits pn_permit (delete i (pending_native s)) + (if pn_permit p then 1 else 0)).
  { rewrite <- (take_drop_middle _ _ _ Hp) at 1. rewrite delete_take_drop, !permits_app, permits_cons. lia. }
  destruct (pn_permit p) as [[]|]; split; unfold running_async, queued_permits; simpl; try done;
    rewrite ?H2, ?Hlen; try case_decide; lia.
Qed.

(** ** Turns *)

Lemma await_accounted {A} b fuel (f : HostScheduler -> Poll A * HostScheduler) s x s' :
  (forall s, accounted b s -> accounted b (f s).2) -> accounted b s -> await fuel f s = Some (x, s') -> accounted b s'.
Proof using.
  intros Hf. revert s. induction fuel as [|fuel IH]; intros s Hs; simpl; [done|].
  specialize (Hf s Hs). destruct (f s) as [[a|] s1]; simpl in Hf; [by intros [= <- <-]|by apply IH].
Qed.

Lemma poll_event_accounted b s : accounted b s -> accounted b (poll_event poll_future s).2.
Proof using.
  intros Hs. unfold poll_event. pose proof (poll_once_accounted b s Hs) as Hp.
  destruct (poll_pending_native_once poll_future s) as [[i|] s1]; [done|]. simpl in Hp.
  destruct (try_acquire_next_native_permit s1) as [x s2] eqn:Ht.
  destruct (try_acquire_accounted b _ _ _ Hp Ht) as [Hs2 _].
  destruct x as [[[]|e]|]; try done; by destruct (has_pending_native s2).
Qed.

Lemma finish_accounted b event s : accounted b s -> accounted b (finish_event invoke event s).2.
Proof using.
  intros Hs. pose proof (activate_deferred_accounted b s Hs) as Hd. unfold finish_event. destruct event as [i| |].
  - pose proof (take_accounted b s i Hs) as Ht. by destruct (take_pending_native_completion i s) as [[[]|] s1].
  - by destruct (activate_next_permitted_deferred_native invoke s).
  - by destruct (activate_next_permitted_deferred_native invoke s).
Qed.

Lemma admit_accounted b s : accounted b s -> accounted b (admit_available_deferred_native invoke s).2 /\
  forall e, (admit_available_deferred_native invoke s).1 <> Err e.
Proof using.
  intros Hs. unfold admit_available_deferred_native.
  destruct (try_acquire_next_native_permit s) as [x s1] eqn:Ht.
  destruct (try_acquire_accounted b _ _ _ Hs Ht) as (Hs1 & _ & He).
  destruct x as [[[]|e]|]; [|by split|by destruct (He e)|by split].
  pose proof (activate_deferred_accounted b s1 Hs1). by destruct (activate_next_permitted_deferred_native invoke s1).
Qed.

Lemma turn_accounted b fuel wait s x s' : accounted b s ->
  poll_pending_native invoke poll_future fuel wait s = Some (x, s') -> accounted b s'.
Proof using.
  intros Hs. unfold poll_pending_native. destruct (_ && _ && _); [by intros [= <- <-]|].
  pose proof (activate_immediate_accounted b s Hs) as Hs1.
  destruct (activate_next_immediate_native invoke s) as [b1 s1]. simpl in Hs1.
  destruct (admit_accounted b s1 Hs1) as [Hs2 _].
  destruct (admit_available_deferred_native invoke s1) as [[b2|e] s2]; simpl in Hs2; [|by intros [= <- <-]].
  destruct (negb (has_pending_native s2)); [destruct (_ || _); [by intros [= <- <-]|]|destruct wait].
  - destruct (await fuel _ s2) as [[y s3]|] eqn:Ha; [|done].
    assert (Hs3 : accounted b s3).
    { eapply await_accounted; [|exact Hs2|exact Ha]. intros s0 H0.
      destruct (try_acquire_next_native_permit s0) as [x0 s0'] eqn:Ht.
      by destruct (try_acquire_accounted b _ _ _ H0 Ht). }
    destruct y as [y|e]; [|by intros [= <- <-]].
    pose proof (activate_deferred_accounted b s3 Hs3) as Hs4.
    destruct (activate_next_permitted_deferred_native invoke s3). by intros [= <- <-].
  - destruct (await fuel _ s2) as [[y s3]|] eqn:Ha; [|done].
    assert (Hs3 : accounted b s3) by (eapply await_accounted; [apply poll_event_accounted|exact Hs2|exact Ha]).
    destruct y as [y|e]; [|by intros [= <- <-]]. intros Hfin%(inj Some).
    pose proof (finish_accounted b y s3 Hs3) as Hs4. by rewrite Hfin in Hs4.
  - pose proof (poll_once_accounted b s2 Hs2) as Hs3.
    destruct (poll_pending_native_once poll_future s2) as [[i|] s3]; [|by intros [= <- <-]]. intros Hfin%(inj Some).
    pose proof (finish_accounted b (EventCompletion i) s3 Hs3) as Hs4. by rewrite Hfin in Hs4.
Qed.

Lemma new_accounted b : accounted b (HostScheduler_new (FixedParallelismController_new b)).
Proof using. split; simpl; try done. lia. Qed.

Lemma run_accounted b evs s :
  host_run scheduling invoke poll_future (HostScheduler_new (FixedParallelismController_new b)) evs s -> accounted b s.
Proof using.
  intros Hrun. remember (HostScheduler_new (FixedParallelismController_new b)) as s0 eqn:Hs0.
  induction Hrun as [s|s evs s1 ev s2 Hrun IH Hstep]; subst; [apply new_accounted|]. specialize (IH eq_refl).
  inversion Hstep; subst; [by apply schedule_accounted|by eapply turn_accounted..].
Qed.

(** ** Waiting ends *)

Lemma await_event_answers s p rest f r : pending_native s = p :: rest -> pn_state p = Polling f ->
  eventually poll_future f r -> exists fuel x, await fuel (poll_event poll_future) s = Some x.
Proof using.
  intros Hp Hf He. revert s p rest Hp Hf.
  assert (Hstep : forall s x s1, poll_event poll_future s = (PollReady x, s1) ->
    exists fuel y, await fuel (poll_event poll_future) s = Some y).
  { intros s x s1 Hx. exists 1, (x, s1). simpl. by rewrite Hx. }
  induction He as [f f' r Hpoll|f f' r Hpoll He IH]; intros s p rest Hp Hf.
  - destruct (poll_event poll_future s) as [[x|] s1] eqn:Hx; [by eapply Hstep|]. exfalso. revert Hx.
    unfold poll_event, poll_pending_native_once. rewrite Hp. simpl.
    unfold PendingNative_poll. by rewrite Hf, Hpoll.
  - destruct (poll_event poll_future s) as [[x|] s1] eqn:Hx; [by eapply Hstep|].
    assert (Hhead : exists p1 rest1, pending_native s1 = p1 :: rest1 /\ pn_state p1 = Polling f').
    { revert Hx. unfold poll_event, poll_pending_native_once. rewrite Hp. simpl.
      unfold PendingNative_poll at 1. rewrite Hf, Hpoll.
      destruct (poll_natives poll_future 1 rest) as [[i|] ps]; [done|].
      unfold try_acquire_next_native_permit. simpl.
      destruct (deferred_native s) as [|q qs]; [intros [= <-]; eauto|].
      destruct (qn_permit q); [done|]. destruct (_ <=? _)%N; [|done]. simpl. intros [= <-]. simpl. eauto. }
    destruct Hhead as (p1 & rest1 & Hp1 & Hf1). destruct (IH s1 p1 rest1 Hp1 Hf1) as (fuel & y & Hy).
    exists (S fuel), y. simpl. by rewrite Hx.
Qed.

Lemma waiting_turn_answers b s calls : accounted b s -> (1 <= max_pending_async_calls b)%N ->
  outstanding invoke poll_future s calls -> (forall fc, fc ∈ calls -> exists r, answer invoke poll_future fc.2 r) ->
  exists fuel x s', poll_pending_native invoke poll_future fuel true s = Some (x, s').
Proof using.
  intros Hs Hb Ho Hans. unfold poll_pending_native. destruct (_ && _ && _); [by eexists 0, _, _|].
  pose proof (activate_immediate_accounted b s Hs) as Hs1.
  pose proof (activate_next_immediate_outstanding invoke poll_future s calls Ho) as Ho1.
  destruct (activate_next_immediate_native invoke s) as [b1 s1]. simpl in Hs1, Ho1.
  destruct (admit_accounted b s1 Hs1) as [Hs2 Hne].
  destruct (admit_available_deferred_native invoke s1) as [[b2|e] s2] eqn:Ha; simpl in *; [|by eexists 0, _, _].
  pose proof (admit_outstanding invoke poll_future _ _ _ _ Ho1 Ha) as (Ho2 & _).
  destruct (negb (has_pending_native s2)) eqn:Hp2.
  - destruct (_ && _); [by eexists 0, _, _|].
    destruct (try_acquire_next_native_permit s2) as [x s3] eqn:Ht.
    destruct (try_acquire_accounted b _ _ _ Hs2 Ht) as (_ & Hready & _).
    assert (Hnil : pending_native s2 = []) by (unfold has_pending_native in Hp2; by destruct (pending_native s2)).
    destruct x as [x|]; [|by destruct (Hready Hnil Hb)]. exists 1. simpl. rewrite Ht.
    destruct x as [x|e]; [|by eexists _, _].
    destruct (activate_next_permitted_deferred_native invoke s3). by eexists _, _.
  - assert (Haw : exists fuel x, await fuel (poll_event poll_future) s2 = Some x).
    { destruct Ho2 as (run & Hr & Hc). destruct (pending_native s2) as [|p rest] eqn:Hp;
        [by unfold has_pending_native in Hp2; rewrite Hp in Hp2|].
      inversion Hr as [|? fc ? ? [_ Hst]]; subst.
      destruct (pn_state p) as [f|r] eqn:Hf.
      - destruct (Hans fc) as [r Hr']; [rewrite Hc; by left|]. apply Hst in Hr'. by eapply await_event_answers.
      - exists 1. simpl. unfold poll_event, poll_pending_native_once. rewrite Hp. simpl.
        unfold PendingNative_poll. rewrite Hf. by eexists. }
    destruct Haw as (fuel & [x s3] & Haw). exists fuel. rewrite Haw.
    destruct x as [event|e]; [|by eexists _, _]. destruct (finish_event invoke event s3) as [y s4]. by eexists _, _.
Qed.

(** ** Draining *)

(** Waiting turns until there is no work left, or a call fails. *)
Inductive drains : HostScheduler -> result EngineError (list (FrameId * Completion)) -> Prop :=
  | drains_idle s fuel s' : poll_pending_native invoke poll_future fuel true s = Some (Ok Idle, s') -> drains s (Ok [])
  | drains_error s fuel e s' : poll_pending_native invoke poll_future fuel true s = Some (Err e, s') -> drains s (Err e)
  | drains_progress s fuel s' r :
      poll_pending_native invoke poll_future fuel true s = Some (Ok Progress, s') -> drains s' r -> drains s r
  | drains_completed s fuel frame completion s' r :
      poll_pending_native invoke poll_future fuel true s = Some (Ok (Completed frame completion), s') ->
      drains s' r -> drains s (let? out := r in Ok ((frame, completion) :: out)).

Lemma drains_spec b s calls : accounted b s -> (1 <= max_pending_async_calls b)%N ->
  outstanding invoke poll_future s calls -> (forall fc, fc ∈ calls -> exists r, answer invoke poll_future fc.2 r) ->
  exists r, drains s r /\
    match r with
    | Ok out => exists calls', calls ≡ₚ calls' /\ Forall2 (answered invoke poll_future) calls' out
    | Err e => exists fc, fc ∈ calls /\ answer invoke poll_future fc.2 (Err e)
    end.
Proof using.
  remember (turns_left s) as n eqn:Hn. revert s calls Hn.
  induction (lt_wf n) as [n _ IH]; intros s calls -> Hs Hb Ho Hans.
  destruct (waiting_turn_answers b s calls Hs Hb Ho Hans) as (fuel & x & s' & Hturn).
  pose proof (turn_accounted b _ _ _ _ _ Hs Hturn) as Hs'.
  destruct (turn_spec invoke poll_future _ _ _ _ _ _ Ho Hturn) as [Hok Hm].
  destruct x as [[| |frame completion]|e]; simpl in Hok.
  - exists (Ok []). split; [by eapply drains_idle|]. rewrite (Hm eq_refl) in *. exists []. by split.
  - destruct (IH _ Hm s' calls eq_refl Hs' Hb Hok Hans) as (r & Hd & Hr). exists r. split; [|done].
    by eapply drains_progress.
  - destruct Hok as (call & rest & Hc & Ha & Ho').
    assert (Hans' : forall fc, fc ∈ rest -> exists r, answer invoke poll_future fc.2 r).
    { intros fc Hfc. apply Hans. rewrite Hc. by right. }
    destruct (IH _ Hm s' rest eq_refl Hs' Hb Ho' Hans') as (r & Hd & Hr).
    exists (let? out := r in Ok ((frame, completion) :: out)). split; [by eapply drains_completed|].
    destruct r as [out|e]; simpl.
    + destruct Hr as (calls' & Hp & Hf). exists ((frame, call) :: calls'). split; [by rewrite Hc, Hp|].
      by constructor.
    + destruct Hr as (fc & Hfc & He). exists fc. split; [rewrite Hc; by right|done].
  - exists (Err e). split; [by eapply drains_error|]. destruct Hok as [(c & c' & Hctl)|Hok]; [|done].
    simpl in Hctl. by destruct (_ <=? _)%N.
Qed.
End fixed.

(** * Properties *)

(** C27. Host calls are answered exactly once: in every run of a scheduler, with any
    controller, the scheduled calls are those already delivered, each to its own frame
    and with a completion that its own future or callable gives, and those still
    outstanding in the queues, nothing else; and a turn that fails does so with an
    error of the controller or of an outstanding call, never with one of the
    scheduler's internal errors. *)
Theorem host_calls_answered_once {Call F Completion C Permit} `{PC : ParallelismController C Permit}
    scheduling (invoke : Call -> result EngineError F) (poll_future : F -> Poll (result EngineError Completion) * F)
    (c : C) evs s (Hrun : host_run scheduling invoke poll_future (HostScheduler_new c) evs s) :
  exists dn rest, scheduled evs ≡ₚ dn ++ rest /\ Forall2 (answered invoke poll_future) dn (delivered evs) /\
    length rest = length (pending_native s) + length (immediate_native s) + length (deferred_native s) /\
    forall fuel wait e s', poll_pending_native invoke poll_future fuel wait s = Some (Err e, s') ->
      controller_error (C := C) (Permit := Permit) e \/
      exists fc, fc ∈ rest /\ answer invoke poll_future fc.2 (Err e).
Proof.
  destruct (run_outstanding _ _ _ _ _ _ Hrun) as (dn & rest & Hperm & Ho & Hall). exists dn, rest.
  split_and!; [done|done| |].
  - destruct Ho as (run & Hr & Hc). rewrite Hc, !length_app, !length_map. apply Forall2_length in Hr. lia.
  - intros fuel wait e s' Ht. by destruct (turn_spec _ _ _ _ _ _ _ _ Ho Ht) as [Hok _].
Qed.

(** C28. The bound on asynchronous calls holds: with the fixed controller, at every
    moment of every run, no more deferred calls run than [max_pending_async_calls], or
    than one when it is zero, and the controller's counter is exactly the number of
    permits held, so that its decrement never wraps around. *)
Theorem async_calls_bounded {Call F Completion} scheduling
    (invoke : Call -> result EngineError F) (poll_future : F -> Poll (result EngineError Completion) * F)
    (max_ready max_pending : N) evs s
    (Hrun : host_run scheduling invoke poll_future
              (HostScheduler_new (FixedParallelismController_new (ExecutionBounds_new max_ready max_pending))) evs s) :
  let active := active_native_async (parallelism_controller s) in
  (N.of_nat (running_async s) <= N.max 1 max_pending)%N /\ (active <= N.max 1 max_pending)%N /\
  active = N.of_nat (running_async s + queued_permits s) /\ (queued_permits s <= 1).
Proof.
  destruct (run_accounted _ _ _ _ _ _ Hrun) as [_ Ha Hl Hf]. intros active.
  assert (Hmax : max_pending_async_calls (ExecutionBounds_new max_ready max_pending) = N.max 1 max_pending)
    by (simpl; case_decide; lia). rewrite Hmax in Hl. split_and!; [|exact Hl|exact Ha|].
  - unfold active in *. rewrite Ha in Hl. lia.
  - unfold queued_permits. destruct (deferred_native s) as [|q rest]; [unfold permits; simpl; lia|].
    rewrite permits_cons, permits_none by exact Hf. destruct (qn_permit q); lia.
Qed.

(** C29. Host work drains: from every state that a run with the fixed controller can
    reach, when every scheduled call has an answer, waiting turns come to an end:
    either every outstanding call has been delivered its own completion, or a call
    failed with its own error. No wait blocks forever, the permits cannot deadlock,
    and no call starves. *)
Theorem host_work_drains {Call F Completion} scheduling
    (invoke : Call -> result EngineError F) (poll_future : F -> Poll (result EngineError Completion) * F)
    (max_ready max_pending : N) evs s
    (Hrun : host_run scheduling invoke poll_future
              (HostScheduler_new (FixedParallelismController_new (ExecutionBounds_new max_ready max_pending))) evs s)
    (Hans : forall fc, fc ∈ scheduled evs -> exists r, answer invoke poll_future fc.2 r) :
  exists r dn rest, drains invoke poll_future s r /\ scheduled evs ≡ₚ dn ++ rest /\
    Forall2 (answered invoke poll_future) dn (delivered evs) /\
    match r with
    | Ok out => exists rest', rest ≡ₚ rest' /\ Forall2 (answered invoke poll_future) rest' out
    | Err e => exists fc, fc ∈ rest /\ answer invoke poll_future fc.2 (Err e)
    end.
Proof.
  pose proof (run_accounted _ _ _ _ _ _ Hrun) as Hacc.
  destruct (run_outstanding _ _ _ _ _ _ Hrun) as (dn & rest & Hperm & Ho & Hall).
  assert (Hb : (1 <= max_pending_async_calls (ExecutionBounds_new max_ready max_pending))%N)
    by (simpl; case_decide; lia).
  assert (Hans' : forall fc, fc ∈ rest -> exists r, answer invoke poll_future fc.2 r).
  { intros fc Hfc. apply Hans. rewrite Hperm. apply elem_of_app. by right. }
  destruct (drains_spec _ _ _ _ _ Hacc Hb Ho Hans') as (r & Hd & Hr). by exists r, dn, rest.
Qed.

(** ** Witnesses: calls that count down *)

Definition demo_scheduling (call : bool * nat) : NativeCallScheduling := if call.1 then Deferred else Immediate.
Definition demo_invoke (call : bool * nat) : result EngineError nat := Ok call.2.
Definition demo_poll (n : nat) : Poll (result EngineError string) * nat :=
  match n with
  | 0 => (PollReady (Ok "done"), 0)
  | S n => (PollPending, n)
  end.

Abbreviation DemoScheduler := (@HostScheduler (bool * nat) nat string FixedParallelismController unit).

Definition demo_host (max_pending : N) : DemoScheduler :=
  HostScheduler_new (Call := bool * nat) (F := nat) (Completion := string)
    (FixedParallelismController_new (ExecutionBounds_new 0 max_pending)).

Definition demo_queued : DemoScheduler :=
  schedule_native demo_scheduling 5 (true, 3) (schedule_native demo_scheduling 4 (true, 2) (demo_host 0)).

Definition demo_events : list host_event :=
  [Scheduled (Completion := string) 4 (true, 2); Scheduled 5 (true, 3)].

Lemma demo_run : host_run demo_scheduling demo_invoke demo_poll (demo_host 0) demo_events demo_queued.
Proof.
  apply (run_snoc _ _ _ _ [Scheduled 4 (true, 2)] (schedule_native demo_scheduling 4 (true, 2) (demo_host 0)));
    [|constructor]. apply (run_snoc _ _ _ _ [] (demo_host 0)); constructor.
Qed.

Lemma demo_eventually n : eventually demo_poll n (Ok "done").
Proof. induction n as [|n IH]; [by eapply eventually_now|by eapply eventually_later]. Qed.

Lemma host_calls_answered_once_witness :
  exists dn rest, scheduled demo_events ≡ₚ dn ++ rest /\ Forall2 (answered demo_invoke demo_poll) dn [] /\
    length rest = 2.
Proof.
  destruct (host_calls_answered_once demo_scheduling demo_invoke demo_poll _ demo_events demo_queued demo_run)
    as (dn & rest & H1 & H2 & H3 & _). exists dn, rest. split; [exact H1|]. split; [exact H2|exact H3].
Defined.

(** A first turn runs one call; the second call has to wait, since the bound is one. *)
Definition demo_running : option (result EngineError NativePoll * DemoScheduler) :=
  poll_pending_native demo_invoke demo_poll 10 false demo_queued.

Lemma async_calls_bounded_witness :
  exists s, demo_running = Some (Ok Progress, s) /\ running_async s = 1 /\ length (deferred_native s) = 1 /\
    (N.of_nat (running_async s) <= 1)%N.
Proof.
  assert (Hok : match demo_running with
    | Some (Ok Progress, s) => (running_async s =? 1) && (length (deferred_native s) =? 1)
    | _ => false end = true) by (vm_compute; reflexivity).
  destruct demo_running as [[[[| |]|] s]|] eqn:Hd; try discriminate Hok.
  apply andb_true_iff in Hok as [H1 H2]. apply Nat.eqb_eq in H1, H2. exists s.
  split; [reflexivity|]. split; [exact H1|]. split; [exact H2|].
  apply (async_calls_bounded demo_scheduling demo_invoke demo_poll 0 0 (demo_events ++ [Quiet]) s).
  apply (run_snoc _ _ _ _ _ demo_queued); [exact demo_run|].
  apply (step_quiet _ _ _ demo_queued 10 false Progress s); [exact Hd|right; reflexivity].
Defined.

Lemma host_work_drains_witness :
  exists r dn rest, drains demo_invoke demo_poll demo_queued r /\ scheduled demo_events ≡ₚ dn ++ rest /\
    Forall2 (answered demo_invoke demo_poll) dn [] /\
    match r with
    | Ok out => exists rest', rest ≡ₚ rest' /\ Forall2 (answered demo_invoke demo_poll) rest' out
    | Err e => exists fc, fc ∈ rest /\ answer demo_invoke demo_poll fc.2 (Err e)
    end.
Proof.
  apply (host_work_drains demo_scheduling demo_invoke demo_poll 0 0 demo_events demo_queued demo_run).
  intros fc _. exists (Ok "done"). exact (demo_eventually fc.2.2).
Defined.
