(* ===== verification/Frames.v ===== *)
(** The evaluator's control frames and their store: [rex-engine/src/stack.rs]. *)

From S2P Require Import Prelude Span Types Unify UnifyComplete BTree Adts Syntax TypedExprs Errors Heap.
From S2P Require Import HeapTrace HeapStress HeapCollect HeapSafety Env Scope Lists Values EvalScheduler Calls NativeTask.
From S2P Require Import HostScheduler.

(** * States and frames *)

Inductive FrValueState : Type := ValueEnter.
Inductive FrSequenceState : Type := SequenceEnter | EvalItem.
Inductive FrRecordUpdateState : Type := UpdateEnter | EvalBase | EvalUpdate.
Inductive FrAppState : Type := AppEnter | EvalChildren | ApplyArg.
Inductive FrLetState : Type := LetEnter | EvalDef | EvalBody.
Inductive FrLetRecState : Type := LetRecEnter | EvalBinding | EvalRecBody.
Inductive FrBranchState : Type := BranchEnter | EvalCondition | EvalSelected.
Inductive FrMatchState : Type := MatchEnter | EvalScrutinee | EvalArm.
Inductive FrNativeCallState : Type := NativeEnter | NativeWaiting.

Record FrAppArg : Type := mkAppArg { aa_func_type : ty; aa_expr : TypedExpr }.
Record FrMatchArm : Type := mkMatchArm { ma_pattern : Pattern; ma_expr : TypedExpr }.

Record FrLiteral : Type := mkFrLiteral { fl_parent : option FrameId; fl_expr : TypedExpr }.

Section frames.
Context (P E : Type).

(** The four frames that the macro [value_frame!] declares. *)
Record FrValue : Type := mkFrValue {
  fv_parent : option FrameId; fv_expr : TypedExpr; fv_env : E; fv_state : FrValueState; fv_value : option P }.

Record FrSequence : Type := mkFrSequence {
  fs_parent : option FrameId; fs_expr : TypedExpr; fs_env : E; fs_state : FrSequenceState;
  fs_children : list FrameId; fs_values : list (option P); fs_remaining : nat }.

Record FrRecordUpdate : Type := mkFrRecordUpdate {
  fu_parent : option FrameId; fu_expr : TypedExpr; fu_env : E; fu_state : FrRecordUpdateState;
  fu_base_value : option P; fu_update_keys : list Symbol; fu_update_children : list FrameId;
  fu_update_values : list (option P); fu_remaining_updates : nat }.

Record FrApp : Type := mkFrApp {
  fa_parent : option FrameId; fa_expr : TypedExpr; fa_env : E; fa_state : FrAppState;
  fa_head : option TypedExpr; fa_spine : list FrAppArg; fa_head_child : option FrameId;
  fa_arg_children : list FrameId; fa_arg_values : list (option P); fa_remaining : nat; fa_next_arg_index : nat;
  fa_func : option P; fa_arg : option P }.

Record FrLet : Type := mkFrLet {
  ft_parent : option FrameId; ft_expr : TypedExpr; ft_env : E; ft_state : FrLetState; ft_def_value : option P }.

Record FrLetRec : Type := mkFrLetRec {
  fr_parent : option FrameId; fr_expr : TypedExpr; fr_env : E; fr_state : FrLetRecState;
  fr_recursive_env : option E; fr_slots : list P; fr_next_binding_index : nat; fr_binding_value : option P }.

Record FrIte : Type := mkFrIte {
  fi_parent : option FrameId; fi_expr : TypedExpr; fi_env : E; fi_state : FrBranchState;
  fi_cond_value : option P; fi_selected : option TypedExpr }.

Record FrMatch : Type := mkFrMatch {
  fm_parent : option FrameId; fm_expr : TypedExpr; fm_env : E; fm_state : FrMatchState;
  fm_scrutinee_value : option P; fm_arms : list FrMatchArm; fm_next_arm_index : nat; fm_matched_env : option E }.

Record FrNativeCall : Type := mkFrNativeCall {
  fn_parent : option FrameId; fn_state : FrNativeCallState; fn_task : NativeTask P }.

Inductive Frame : Type :=
  | FrameLiteral (frame : FrLiteral)
  | FrameHole (frame : FrValue)
  | FrameSequence (frame : FrSequence)
  | FrameRecordUpdate (frame : FrRecordUpdate)
  | FrameVar (frame : FrValue)
  | FrameApp (frame : FrApp)
  | FrameProject (frame : FrValue)
  | FrameLam (frame : FrValue)
  | FrameLet (frame : FrLet)
  | FrameLetRec (frame : FrLetRec)
  | FrameIte (frame : FrIte)
  | FrameMatch (frame : FrMatch)
  | FrameNativeCall (frame : FrNativeCall)
  | FrameNativeHost (parent : option FrameId).

Definition frame_parent (f : Frame) : option FrameId :=
  match f with
  | FrameLiteral frame => fl_parent frame
  | FrameHole frame | FrameVar frame | FrameProject frame | FrameLam frame => fv_parent frame
  | FrameSequence frame => fs_parent frame
  | FrameRecordUpdate frame => fu_parent frame
  | FrameApp frame => fa_parent frame
  | FrameLet frame => ft_parent frame
  | FrameLetRec frame => fr_parent frame
  | FrameIte frame => fi_parent frame
  | FrameMatch frame => fm_parent frame
  | FrameNativeCall frame => fn_parent frame
  | FrameNativeHost parent => parent
  end.
End frames.

Arguments mkFrValue {P E}. Arguments fv_parent {P E}. Arguments fv_expr {P E}. Arguments fv_env {P E}.
Arguments fv_state {P E}. Arguments fv_value {P E}.
Arguments mkFrSequence {P E}. Arguments fs_parent {P E}. Arguments fs_expr {P E}. Arguments fs_env {P E}.
Arguments fs_state {P E}. Arguments fs_children {P E}. Arguments fs_values {P E}. Arguments fs_remaining {P E}.
Arguments mkFrRecordUpdate {P E}. Arguments fu_parent {P E}. Arguments fu_expr {P E}. Arguments fu_env {P E}.
Arguments fu_state {P E}. Arguments fu_base_value {P E}. Arguments fu_update_keys {P E}.
Arguments fu_update_children {P E}. Arguments fu_update_values {P E}. Arguments fu_remaining_updates {P E}.
Arguments mkFrApp {P E}. Arguments fa_parent {P E}. Arguments fa_expr {P E}. Arguments fa_env {P E}.
Arguments fa_state {P E}. Arguments fa_head {P E}. Arguments fa_spine {P E}. Arguments fa_head_child {P E}.
Arguments fa_arg_children {P E}. Arguments fa_arg_values {P E}. Arguments fa_remaining {P E}.
Arguments fa_next_arg_index {P E}. Arguments fa_func {P E}. Arguments fa_arg {P E}.
Arguments mkFrLet {P E}. Arguments ft_parent {P E}. Arguments ft_expr {P E}. Arguments ft_env {P E}.
Arguments ft_state {P E}. Arguments ft_def_value {P E}.
Arguments mkFrLetRec {P E}. Arguments fr_parent {P E}. Arguments fr_expr {P E}. Arguments fr_env {P E}.
Arguments fr_state {P E}. Arguments fr_recursive_env {P E}. Arguments fr_slots {P E}.
Arguments fr_next_binding_index {P E}. Arguments fr_binding_value {P E}.
Arguments mkFrIte {P E}. Arguments fi_parent {P E}. Arguments fi_expr {P E}. Arguments fi_env {P E}.
Arguments fi_state {P E}. Arguments fi_cond_value {P E}. Arguments fi_selected {P E}.
Arguments mkFrMatch {P E}. Arguments fm_parent {P E}. Arguments fm_expr {P E}. Arguments fm_env {P E}.
Arguments fm_state {P E}. Arguments fm_scrutinee_value {P E}. Arguments fm_arms {P E}.
Arguments fm_next_arm_index {P E}. Arguments fm_matched_env {P E}.
Arguments mkFrNativeCall {P}. Arguments fn_parent {P}. Arguments fn_state {P}. Arguments fn_task {P}.
Arguments FrameLiteral {P E}. Arguments FrameHole {P E}. Arguments FrameSequence {P E}.
Arguments FrameRecordUpdate {P E}. Arguments FrameVar {P E}. Arguments FrameApp {P E}. Arguments FrameProject {P E}.
Arguments FrameLam {P E}. Arguments FrameLet {P E}. Arguments FrameLetRec {P E}. Arguments FrameIte {P E}.
Arguments FrameMatch {P E}. Arguments FrameNativeCall {P E}. Arguments FrameNativeHost {P E}.
Arguments frame_parent {P E}.

(** * Mapping the values and environments of a frame *)

(** The trait [FrameValueMapper]: [&mut self] is the state. *)
Class FrameValueMapper (S P E Q E' : Type) := {
  map_value : P -> ST S Q;
  map_environment : E -> ST S E' }.

Section map_values.
Context {S P E Q E' : Type} `{M : FrameValueMapper S P E Q E'}.

Definition value_map_values (f : FrValue P E) : ST S (FrValue Q E') :=
  let* env := map_environment (fv_env f) in
  let* value := map_option_st map_value (fv_value f) in
  mret (mkFrValue (fv_parent f) (fv_expr f) env (fv_state f) value).

Definition Frame_map_values (frame : Frame P E) : ST S (Frame Q E') :=
  match frame with
  | FrameLiteral f => mret (FrameLiteral f)
  | FrameHole f => let* f := value_map_values f in mret (FrameHole f)
  | FrameVar f => let* f := value_map_values f in mret (FrameVar f)
  | FrameProject f => let* f := value_map_values f in mret (FrameProject f)
  | FrameLam f => let* f := value_map_values f in mret (FrameLam f)
  | FrameSequence f =>
      let* env := map_environment (fs_env f) in
      let* values := mapM_st (map_option_st map_value) (fs_values f) in
      mret (FrameSequence (mkFrSequence (fs_parent f) (fs_expr f) env (fs_state f) (fs_children f) values (fs_remaining f)))
  | FrameRecordUpdate f =>
      let* env := map_environment (fu_env f) in
      let* base_value := map_option_st map_value (fu_base_value f) in
      let* update_values := mapM_st (map_option_st map_value) (fu_update_values f) in
      mret (FrameRecordUpdate (mkFrRecordUpdate (fu_parent f) (fu_expr f) env (fu_state f) base_value
                                 (fu_update_keys f) (fu_update_children f) update_values (fu_remaining_updates f)))
  | FrameApp f =>
      let* env := map_environment (fa_env f) in
      let* arg_values := mapM_st (map_option_st map_value) (fa_arg_values f) in
      let* func := map_option_st map_value (fa_func f) in
      let* arg := map_option_st map_value (fa_arg f) in
      mret (FrameApp (mkFrApp (fa_parent f) (fa_expr f) env (fa_state f) (fa_head f) (fa_spine f) (fa_head_child f)
                        (fa_arg_children f) arg_values (fa_remaining f) (fa_next_arg_index f) func arg))
  | FrameLet f =>
      let* env := map_environment (ft_env f) in
      let* def_value := map_option_st map_value (ft_def_value f) in
      mret (FrameLet (mkFrLet (ft_parent f) (ft_expr f) env (ft_state f) def_value))
  | FrameLetRec f =>
      let* env := map_environment (fr_env f) in
      let* recursive_env := map_option_st map_environment (fr_recursive_env f) in
      let* slots := mapM_st map_value (fr_slots f) in
      let* binding_value := map_option_st map_value (fr_binding_value f) in
      mret (FrameLetRec (mkFrLetRec (fr_parent f) (fr_expr f) env (fr_state f) recursive_env slots
                           (fr_next_binding_index f) binding_value))
  | FrameIte f =>
      let* env := map_environment (fi_env f) in
      let* cond_value := map_option_st map_value (fi_cond_value f) in
      mret (FrameIte (mkFrIte (fi_parent f) (fi_expr f) env (fi_state f) cond_value (fi_selected f)))
  | FrameMatch f =>
      let* env := map_environment (fm_env f) in
      let* scrutinee_value := map_option_st map_value (fm_scrutinee_value f) in
      let* matched_env := map_option_st map_environment (fm_matched_env f) in
      mret (FrameMatch (mkFrMatch (fm_parent f) (fm_expr f) env (fm_state f) scrutinee_value (fm_arms f)
                          (fm_next_arm_index f) matched_env))
  | FrameNativeCall f =>
      let* task := NativeTask_map_values map_value (fn_task f) in
      mret (FrameNativeCall (mkFrNativeCall (fn_parent f) (fn_state f) task))
  | FrameNativeHost parent => mret (FrameNativeHost parent)
  end.
End map_values.

(** * The store

    [frames] is a [BTreeMap]: its entries in the order of their identifiers. *)

Record FrameStore (F : Type) : Type := mkFrameStore { next_frame_id : nat; frames : list (FrameId * F) }.
Arguments mkFrameStore {F}.
Arguments next_frame_id {F}.
Arguments frames {F}.

Definition FrameStore_default {F} : FrameStore F := mkFrameStore 0 [].

(** [format!("unknown evaluator frame {id:?}")] *)
Definition unknown_frame {A} (id : FrameId) : exec A :=
  internal ("unknown evaluator frame FrameId(" +:+ pretty id +:+ ")").

Section store.
Context {F : Type}.
Implicit Types (s : FrameStore F) (l : list (FrameId * F)).

Fixpoint frame_lookup (id : FrameId) l : option F :=
  match l with
  | [] => None
  | (i, f) :: l => if decide (i = id) then Some f else frame_lookup id l
  end.

(** [BTreeMap::insert]; a present key is overwritten. *)
Fixpoint frame_insert (id : FrameId) (frame : F) l : list (FrameId * F) :=
  match l with
  | [] => [(id, frame)]
  | (i, f) :: l =>
      if decide (id = i) then (id, frame) :: l
      else if decide (id < i) then (id, frame) :: (i, f) :: l
      else (i, f) :: frame_insert id frame l
  end.

Fixpoint frame_remove (id : FrameId) l : list (FrameId * F) :=
  match l with
  | [] => []
  | (i, f) :: l => if decide (i = id) then l else (i, f) :: frame_remove id l
  end.

(** [insert]: the identifiers stop before [usize::MAX]. *)
Definition store_insert (frame : F) : ST (FrameStore F) FrameId := fun s =>
  if decide (N.of_nat (next_frame_id s) = usize_max) then (panic, s)
  else (Ok (next_frame_id s), mkFrameStore (S (next_frame_id s)) (frame_insert (next_frame_id s) frame (frames s))).

Definition store_get (id : FrameId) : ST (FrameStore F) F := mlift (fun s =>
  match frame_lookup id (frames s) with Some f => Ok f | None => unknown_frame id end).

Definition store_replace (id : FrameId) (frame : F) : ST (FrameStore F) unit := fun s =>
  match frame_lookup id (frames s) with
  | Some _ => (Ok tt, mkFrameStore (next_frame_id s) (frame_insert id frame (frames s)))
  | None => (unknown_frame id, s)
  end.

Definition store_remove (id : FrameId) : ST (FrameStore F) F := fun s =>
  match frame_lookup id (frames s) with
  | Some f => (Ok f, mkFrameStore (next_frame_id s) (frame_remove id (frames s)))
  | None => (unknown_frame id, s)
  end.

(** [map_frames], in the order of the identifiers. *)
Definition map_frames {S G} (g : F -> ST S G) s : ST S (FrameStore G) :=
  let* fs := mapM_st (fun e => let* f := g e.2 in mret (e.1, f)) (frames s) in
  mret (mkFrameStore (next_frame_id s) fs).
End store.
