(* ===== verification/Registry.v ===== *)
(** What the evaluator knows at run time: native functions and type class instances
    ([rex-engine/src/builder/registry.rs]), the resolution of names
    ([evaluator/context.rs], [runtime_core.rs]), native calls ([native_fn.rs],
    [native_callable.rs]) and host call requests ([handlers.rs]). *)

From S2P Require Import Prelude Span Types Unify UnifyComplete BTree Adts Syntax TypedExprs Errors Heap.
From S2P Require Import HeapTrace HeapStress HeapCollect HeapSafety Env Scope Lists Values EvalScheduler Calls NativeTask.
From S2P Require Import HostScheduler.

(** * Native functions *)

Inductive SchedulerNativeResult : Type :=
  | NativeReady (value : RootedPtr)
  | NativeStarted (task : NativeTask RootedPtr).

Section registry.
(** [F] is the type of the futures that host functions answer. *)
Context {F : Type}.

(** The closures a registry holds are values of the model: a host function from the call's
    type and its arguments to a future, a scheduler native on the scope. *)
Inductive NativeCallable : Type :=
  | HostCallable (callable : ty -> list Value -> F) (scheduling : NativeCallScheduling)
  | ConstantCallable (value : RootedPtr)
  | SchedulerCallable (callable : ty -> list RootedPtr -> SM SchedulerNativeResult).

Record NativeImpl : Type := mkNativeImpl {
  imp_id : Z; imp_arity : nat; imp_scheme : Scheme; imp_func : NativeCallable }.

Inductive NativeResolution : Type :=
  | Unique (native_id : Z) (arity : nat)
  | Ambiguous.

Record NativeRegistry : Type := mkNativeRegistry {
  next_id : Z; reg_entries : gmap Symbol (list NativeImpl); by_id : gmap Z NativeImpl }.

Definition NativeRegistry_default : NativeRegistry := mkNativeRegistry 0 ∅ ∅.

(** [u64::saturating_add(1)]. *)
Definition saturating_succ (n : Z) : Z := if decide (n = u64_max) then n else (n + 1)%Z.

Definition native_insert (name : Symbol) (arity : nat) (scheme : Scheme) (func : NativeCallable)
    (r : NativeRegistry) : exec NativeRegistry :=
  let impls := default [] (reg_entries r !! name) in
  if existsb (fun existing => bool_decide (imp_scheme existing = scheme)) impls then
    raise (DuplicateImpl name (show_ty (scheme_typ scheme)))
  else
    let imp := mkNativeImpl (next_id r) arity scheme func in
    Ok (mkNativeRegistry (saturating_succ (next_id r)) (<[name := impls ++ [imp]]> (reg_entries r))
          (<[next_id r := imp]> (by_id r))).

Definition has_name (name : Symbol) (r : NativeRegistry) : bool := bool_decide (is_Some (reg_entries r !! name)).

Definition contains_scheme (name : Symbol) (scheme : Scheme) (r : NativeRegistry) : bool :=
  match reg_entries r !! name with
  | Some impls => existsb (fun imp => bool_decide (imp_scheme imp = scheme)) impls
  | None => false
  end.

Definition impl_matches_type (imp : NativeImpl) (typ : ty) : bool :=
  let '(_, scheme_ty, _) := instantiate (imp_scheme imp) TypeVarSupply_new in
  match unify_types scheme_ty typ with Ok _ => true | Err _ => false end.

Definition native_resolve (name : Symbol) (typ : ty) (r : NativeRegistry) : exec NativeResolution :=
  match reg_entries r !! name with
  | None => raise (UnknownVar name)
  | Some impls =>
      match List.filter (fun imp => impl_matches_type imp typ) impls with
      | [] => raise (MissingImpl name (show_ty typ))
      | [imp] => Ok (Unique (imp_id imp) (imp_arity imp))
      | _ => Ok Ambiguous
      end
  end.

Definition resolve_unique (name : Symbol) (typ : ty) (r : NativeRegistry) : exec (Z * nat) :=
  let? resolution := native_resolve name typ r in
  match resolution with
  | Unique native_id arity => Ok (native_id, arity)
  | Ambiguous => raise (AmbiguousImpl name (show_ty typ))
  end.

Definition callable_by_id (id : Z) (r : NativeRegistry) : option NativeCallable := option_map imp_func (by_id r !! id).

(** [visit_values] as the list of its visits. *)
Definition registry_values (r : NativeRegistry) : list RootedPtr :=
  omap (fun e => match imp_func e.2 with ConstantCallable value => Some value | _ => None end) (map_to_list (by_id r)).

(** * Type class instances *)

Record TypeclassInstance : Type := mkInstance {
  inst_head : ty; inst_env : RootedEnvironment; inst_methods : gmap Symbol TypedExpr }.

Definition TypeclassRegistry : Type := gmap Symbol (list TypeclassInstance).

Definition heads_unify (a b : ty) : bool := match unify_types a b with Ok _ => true | Err _ => false end.

Definition typeclass_insert (class : Symbol) (head : ty) (def_env : RootedEnvironment)
    (methods : gmap Symbol TypedExpr) (r : TypeclassRegistry) : exec TypeclassRegistry :=
  let instances := default [] (r !! class) in
  if existsb (fun existing => heads_unify (inst_head existing) head) instances then
    raise (DuplicateTypeclassImpl class (show_ty head))
  else Ok (<[class := instances ++ [mkInstance head def_env methods]]> r).

(** The instances whose heads unify with the parameter, with their unifiers. *)
Definition matching_instances (instances : list TypeclassInstance) (param_type : ty) : list (TypeclassInstance * Subst) :=
  omap (fun inst => match unify_types (inst_head inst) param_type with Ok s => Some (inst, s) | Err _ => None end) instances.

Definition typeclass_resolve (class method : Symbol) (param_type : ty) (r : TypeclassRegistry)
  : exec (RootedEnvironment * TypedExpr * Subst) :=
  let missing {A} : exec A := raise (MissingTypeclassImpl class (show_ty param_type)) in
  match r !! class with
  | None => missing
  | Some instances =>
      match matching_instances instances param_type with
      | [] => missing
      | [(inst, s)] =>
          match inst_methods inst !! method with
          | Some typed => Ok (inst_env inst, typed, s)
          | None => missing
          end
      | _ => raise (AmbiguousTypeclassImpl class (show_ty param_type))
      end
  end.

Definition typeclass_values (r : TypeclassRegistry) : list RootedPtr :=
  concat (map (fun e => concat (map (fun inst => Rooted_visit_values (inst_env inst)) e.2)) (map_to_list r)).

(** * The runtime *)

Record RuntimeCore : Type := mkRuntime {
  natives : NativeRegistry; typeclasses : TypeclassRegistry; type_system : TypeSystem }.

Definition native_callable (runtime : RuntimeCore) (id : Z) : exec NativeCallable :=
  ok_or (callable_by_id id (natives runtime)) ("unknown native id: " +:+ pretty id).

(** [type_head_is_var]: the loop goes down the heads of the applications. *)
Fixpoint type_head_is_var (typ : ty) : bool :=
  match typ with
  | TApp head _ => type_head_is_var head
  | TVar _ => true
  | _ => false
  end.

Definition resolve_typeclass_method_impl (runtime : RuntimeCore) (name : Symbol) (call_type : ty)
  : exec (RootedEnvironment * TypedExpr * Subst) :=
  match class_methods (type_system runtime) !! name with
  | None => raise (UnknownVar name)
  | Some info =>
      match unify_types (scheme_typ (method_scheme info)) call_type with
      | Err e => raise (Type_ e)
      | Ok s_method =>
          match find (fun p => bool_decide (pred_class p = method_class info)) (scheme_preds (method_scheme info)) with
          | None => raise (Type_ (Types.UnsupportedExpr "method scheme missing class predicate"))
          | Some class_pred =>
              let param_type := apply s_method (pred_typ class_pred) in
              if type_head_is_var param_type then raise (AmbiguousOverload name)
              else typeclass_resolve (method_class info) name param_type (typeclasses runtime)
          end
      end
  end.

Inductive ClassMethodPlan : Type :=
  | PlanEvaluate (env : ScopedEnvironment) (expr : TypedExpr)
  | PlanDeferred (value : RootedPtr).

Inductive NativeCallRequest : Type :=
  mkRequest (native_id : Z) (scheduling : NativeCallScheduling) (typ : ty) (args : list RootedPtr).

Definition callable_call (c : NativeCallable) (native_id : Z) (typ : ty) (args : list RootedPtr)
  : exec NativeCallRequest :=
  match c with
  | HostCallable _ scheduling => Ok (mkRequest native_id scheduling typ args)
  | ConstantCallable _ => internal "constant called through host native ABI"
  | SchedulerCallable _ => internal "scheduler native called through host native ABI"
  end.

Inductive NativeApplyResult : Type :=
  | ApplyValue (value : RootedPtr)
  | ApplyTask (task : NativeTask RootedPtr)
  | ApplyPending (call : NativeCallRequest).

Definition from_scheduler (r : SchedulerNativeResult) : NativeApplyResult :=
  match r with NativeReady value => ApplyValue value | NativeStarted task => ApplyTask task end.

(** [for arg_ty in applied_types.iter().rev() { full_ty = Type::fun(arg_ty, full_ty) }] *)
Definition full_type (applied_types : list ty) (result : ty) : ty := foldr TFun result applied_types.

Section scope.
Context (debug_assertions : bool).

Definition resolve_class_method_plan (runtime : RuntimeCore) (name : Symbol) (typ : ty) : SM ClassMethodPlan :=
  match resolve_typeclass_method_impl runtime name typ with
  | Ok (def_env, typed, s) => mret (PlanEvaluate (to_scoped_environment def_env) (TypedExpr_apply s typed))
  | Err (Raised (AmbiguousOverload n)) =>
      if is_function_type typ then
        let* root := alloc_root_overloaded debug_assertions name typ [] [] in mret (PlanDeferred root)
      else mlift (fun _ => raise (AmbiguousOverload n))
  | Err e => mlift (fun _ => Err e)
  end.

Definition resolve_native_parts (runtime : RuntimeCore) (name : Symbol) (typ : ty) : exec (Z * Symbol * nat) :=
  let? found := resolve_unique name typ (natives runtime) in Ok (found.1, name, found.2).

Definition resolve_native (runtime : RuntimeCore) (name : Symbol) (typ : ty) : SM RootedPtr :=
  let* resolution := mlift (fun _ => native_resolve name typ (natives runtime)) in
  match resolution with
  | Unique native_id arity => alloc_root_native debug_assertions native_id name arity typ [] []
  | Ambiguous =>
      if closed_type typ then mlift (fun _ => raise (AmbiguousImpl name (show_ty typ)))
      else if is_function_type typ then alloc_root_overloaded debug_assertions name typ [] []
      else mlift (fun _ => raise (AmbiguousOverload name))
  end.

(** * Native calls *)

Definition native_call_zero (runtime : RuntimeCore) (n : NativeFn RootedPtr) : SM NativeApplyResult :=
  if decide (nat_arity n <> 0) then mlift (fun _ => raise (NativeArity (nat_name n) (nat_arity n) 0))
  else
    let* callable := mlift (fun _ => native_callable runtime (nat_id n)) in
    match callable with
    | ConstantCallable value => mret (ApplyValue value)
    | SchedulerCallable f => let* r := f (nat_typ n) [] in mret (from_scheduler r)
    | HostCallable _ _ =>
        let* call := mlift (fun _ => callable_call callable (nat_id n) (nat_typ n) []) in mret (ApplyPending call)
    end.

(** The call of a native whose arguments are all there. *)
Definition native_run (runtime : RuntimeCore) (n : NativeFn RootedPtr) : SM NativeApplyResult :=
  let full_ty := full_type (nat_applied_types n) (nat_typ n) in
  let* callable := mlift (fun _ => native_callable runtime (nat_id n)) in
  match callable with
  | ConstantCallable _ => mlift (fun _ => raise (NativeArity (nat_name n) 0 (length (nat_applied n))))
  | SchedulerCallable f => let* r := f full_ty (nat_applied n) in mret (from_scheduler r)
  | HostCallable _ _ =>
      let* call := mlift (fun _ => callable_call callable (nat_id n) full_ty (nat_applied n)) in mret (ApplyPending call)
  end.

Definition native_apply (runtime : RuntimeCore) (n : NativeFn RootedPtr) (arg : RootedPtr) (arg_type : option ty)
  : SM NativeApplyResult :=
  if decide (nat_arity n = 0) then mlift (fun _ => raise (NativeArity (nat_name n) 0 1))
  else
    match split_fun (nat_typ n) with
    | None => mlift (fun _ => not_callable (nat_typ n))
    | Some (arg_ty, rest_ty) =>
        let* actual_ty := resolve_arg_type debug_assertions arg_type arg in
        let* subst := mlift (fun _ => unify_native arg_ty actual_ty) in
        let n := mkNativeFn (nat_id n) (nat_name n) (nat_arity n) (apply subst rest_ty) (nat_applied n ++ [arg])
                   (nat_applied_types n ++ [actual_ty]) in
        if is_function_type (nat_typ n) then
          let* root := alloc_root_native debug_assertions (nat_id n) (nat_name n) (nat_arity n) (nat_typ n)
                         (nat_applied n) (nat_applied_types n) in
          mret (ApplyValue root)
        else native_run runtime n
    end.

(** * Host call requests *)

Fixpoint decompose_call_type (typ : ty) (arity : nat) : exec (list ty * ty) :=
  match arity with
  | 0 => Ok ([], typ)
  | S arity =>
      match split_fun typ with
      | None => not_callable typ
      | Some (argument, rest) =>
          let? found := decompose_call_type rest arity in Ok (argument :: found.1, found.2)
      end
  end.

(** The loop of [resolve_call_type] from argument [index] on. *)
Fixpoint resolve_call_types (arity index : nat) (resolved : ty) (args : list RootedPtr) : SM ty :=
  match args with
  | [] => mret resolved
  | arg :: args =>
      let* found := mlift (fun _ => decompose_call_type resolved arity) in
      let* expected := mlift (fun _ => index_vec found.1 index) in
      if closed_type expected then resolve_call_types arity (S index) resolved args
      else
        let* actual := infer_type debug_assertions arg in
        let* subst := mlift (fun _ => unify_native expected actual) in
        resolve_call_types arity (S index) (apply subst resolved) args
  end.

Definition resolve_call_type (typ : ty) (args : list RootedPtr) : SM ty := resolve_call_types (length args) 0 typ args.

Record NativeCall : Type := mkNativeCall {
  call_native_id : Z; call_scheduling : NativeCallScheduling; call_typ : ty; call_args : list Value;
  call_result_type : ty }.

Record NativeCompletion : Type := mkCompletion { completion_value : Value; completion_expected : ty }.

(** The export of the arguments, in order; [None] when the fuel ends. *)
Fixpoint export_arguments (types : TypeSystem) (fuel : nat) (args : list (RootedPtr * ty)) (sc : RootScope)
  : option (exec (list Value) * RootScope) :=
  match args with
  | [] => Some (Ok [], sc)
  | (root, expected) :: args =>
      match export_value debug_assertions types fuel root expected sc with
      | None => None
      | Some (Err e, sc) => Some (Err e, sc)
      | Some (Ok v, sc) =>
          match export_arguments types fuel args sc with
          | Some (Ok vs, sc) => Some (Ok (v :: vs), sc)
          | r => r
          end
      end
  end.

Definition prepare (types : TypeSystem) (fuel : nat) (request : NativeCallRequest) (sc : RootScope)
  : option (exec NativeCall * RootScope) :=
  let 'mkRequest native_id scheduling typ args := request in
  match resolve_call_type typ args sc with
  | (Err e, sc) => Some (Err e, sc)
  | (Ok typ, sc) =>
      match decompose_call_type typ (length args) with
      | Err e => Some (Err e, sc)
      | Ok (argument_types, result_type) =>
          match export_arguments types fuel (combine args argument_types) sc with
          | None => None
          | Some (Err e, sc) => Some (Err e, sc)
          | Some (Ok values, sc) => Some (Ok (mkNativeCall native_id scheduling typ values result_type), sc)
          end
      end
  end.

(** [NativeCall::invoke]: the future of the host function; a deferred one passes through
    the embedder's policy. *)
Definition call_invoke (runtime : RuntimeCore) (policy : F -> F) (call : NativeCall) : result EngineError F :=
  match callable_by_id (call_native_id call) (natives runtime) with
  | None => Err (Internal ("unknown native id: " +:+ pretty (call_native_id call)))
  | Some (HostCallable callable _) =>
      let future := callable (call_typ call) (call_args call) in
      Ok match call_scheduling call with Immediate => future | Deferred => policy future end
  | Some (ConstantCallable _) => Err (Internal "constant queued through host native ABI")
  | Some (SchedulerCallable _) => Err (Internal "scheduler native queued through host native ABI")
  end.
End scope.
End registry.
Arguments NativeCallable : clear implicits.
Arguments NativeImpl : clear implicits.
Arguments NativeRegistry : clear implicits.
Arguments RuntimeCore : clear implicits.
