(* ===== verification/TypeCheck.v ===== *)
(** The check of an expression before it runs: holes, inference, defaulting of ambiguous
    types, the ground predicates, and the names that the runtime must know
    ([rex-engine/src/compiler/type_check.rs]).

    The loops of this file walk over a stack of expressions; they get as many rounds as
    the expressions have nodes, or three times as many, which is enough ([first_hole],
    [collect_candidates], [walk_uses]). Defaulting and entailment share the fuel of
    inference. *)

From S2P Require Import Prelude Span Types Unify UnifyComplete BTree Adts Syntax Ast TypedExprs Errors Heap Env Calls Registry.
From S2P Require Import TypeEnv TypeClasses LetRec Infer InferExpr UnifierSound Typing InferRuns InferAnswers InferSound Modules Keeps TypeDecls ClassDecls FnDecls DeclStates DeclsSound.

(** * Holes *)

(** The expressions that are pushed, the first one on top. *)
Definition hole_children (e : Expr) : list Expr :=
  match e with
  | XLetRec _ bindings body => map snd bindings ++ [body]
  | _ => children e
  end.

Fixpoint first_hole_loop (fuel : nat) (stack : list Expr) : option Span :=
  match fuel, stack with
  | S _, XHole span :: _ => Some span
  | S fuel, e :: stack => first_hole_loop fuel (hole_children e ++ stack)
  | _, _ => None
  end.

Definition first_hole_span (expr : Expr) : option Span := first_hole_loop (expr_size expr) [expr].

(** * Defaulting *)

Definition push_unique_type (out : list ty) (typ : ty) : list ty :=
  if existsb (fun t => bool_decide (t = typ)) out then out else out ++ [typ].

(** The type of an expression, when it is a constant without parameters. *)
Definition push_candidate (e : TypedExpr) (out : list ty) : list ty :=
  if closed_type (te_typ e) then
    match te_typ e with
    | TCon tc => if decide (const_arity tc = 0) then push_unique_type out (te_typ e) else out
    | _ => out
    end
  else out.

Fixpoint collect_loop (fuel : nat) (stack : list TypedExpr) (out : list ty) : list ty :=
  match fuel, stack with
  | S fuel, e :: stack => collect_loop fuel (te_children e ++ stack) (push_candidate e out)
  | _, _ => out
  end.

Definition collect_default_candidates (expr : TypedExpr) (out : list ty) : list ty := collect_loop (te_size expr) [expr] out.

Definition numeric_defaultable_class (class : Symbol) : bool :=
  bool_decide (class ∈ ["AdditiveMonoid"; "MultiplicativeMonoid"; "Subtractive"; "AdditiveGroup"; "Ring"; "Divisive"; "Field"; "Integral"]).
Definition defaultable_companion_class (class : Symbol) : bool := bool_decide (class ∈ ["Eq"; "Ord"]).

Definition predicates_are_defaultable (preds : list Predicate) : bool :=
  existsb (fun p => numeric_defaultable_class (pred_class p)) preds &&
  forallb (fun p => numeric_defaultable_class (pred_class p) || defaultable_companion_class (pred_class p)) preds.

(** The [?] on a [TypeError]. *)
Definition type_error {A} (m : fueled TypeError A) : fueled fault A :=
  match m with
  | None => None
  | Some (Err e) => Some (raise (Type_ e))
  | Some (Ok a) => Some (Ok a)
  end.

Section Fuel.
Variable fuel : nat.

Section Defaults.
Variable classes : ClassEnv.

Fixpoint accepts_all (subst : Subst) (preds : list Predicate) : fueled fault bool :=
  match preds with
  | [] => fret true
  | pred :: preds =>
      let test := Predicate_apply subst pred in
      if closed_type (pred_typ test) then
        let! ok := type_error (entails fuel classes [] test) in
        if ok : bool then accepts_all subst preds else fret false
      else fret false
  end.

Fixpoint choose_default_type (variable : TypeVarId) (preds : list Predicate) (candidates : list ty) : fueled fault (option ty) :=
  match candidates with
  | [] => fret None
  | candidate :: candidates =>
      let! ok := accepts_all {[ variable := candidate ]} preds in
      if ok : bool then fret (Some candidate) else choose_default_type variable preds candidates
  end.

Definition mentions (tv : TypeVarId) (p : Predicate) : bool := bool_decide (tv ∈ ftv (pred_typ p)).
Definition is_variable (tv : TypeVarId) (t : ty) : bool :=
  match t with TVar v => bool_decide (tv_id v = tv) | _ => false end.

(** A variable of the round; [progress] is whether a variable has got a type. *)
Definition default_variable (candidates : list ty) (tv : TypeVarId) (st : list Predicate * Subst * bool)
    : fueled fault (list Predicate * Subst * bool) :=
  let '(preds, subst, progress) := st in
  match subst !! tv with
  | Some _ => fret st
  | None =>
      let relevant := List.filter (mentions tv) preds in
      if predicates_are_defaultable (List.filter (fun p => is_variable tv (pred_typ p)) relevant) then
        let! choice := choose_default_type tv relevant candidates in
        match choice with
        | Some choice =>
            let next := {[ tv := choice ]} in
            fret (map (Predicate_apply next) preds, compose_subst next subst, true)
        | None => fret st
        end
      else fret st
  end.

Fixpoint default_round (candidates : list ty) (vars : list TypeVarId) (st : list Predicate * Subst * bool)
    : fueled fault (list Predicate * Subst * bool) :=
  match vars with
  | [] => fret st
  | tv :: vars => let! st := default_variable candidates tv st in default_round candidates vars st
  end.

Fixpoint default_loop (rounds : nat) (candidates : list ty) (preds : list Predicate) (subst : Subst)
    : fueled fault (list Predicate * Subst) :=
  match rounds with
  | O => None
  | S rounds =>
      let! (preds, subst, progress) := default_round candidates (sorted_ids (preds_ftv preds)) (preds, subst, false) in
      if progress : bool then default_loop rounds candidates preds subst else fret (preds, subst)
  end.

Definition default_candidates (typed : TypedExpr) : list ty :=
  foldl push_unique_type (collect_default_candidates typed []) [ty_builtin F32; ty_builtin I32; ty_builtin String_].

Definition default_ambiguous_types (typed : TypedExpr) (preds : list Predicate) : fueled fault (TypedExpr * list Predicate) :=
  let! (preds, subst) := default_loop fuel (default_candidates typed) preds ∅ in
  fret (TypedExpr_apply subst typed, preds).

(** * Predicates *)

Fixpoint check_predicates (preds : list Predicate) : fueled fault unit :=
  match preds with
  | [] => fret tt
  | pred :: preds =>
      if closed_type (pred_typ pred) then
        let! ok := type_error (entails fuel classes [] pred) in
        if ok : bool then check_predicates preds
        else Some (raise (Type_ (NoInstance (pred_class pred) (show_ty (pred_typ pred)))))
      else check_predicates preds
  end.
End Defaults.

(** * Names *)

Inductive ScopeWalkStep : Type :=
  | WExpr (e : TypedExpr)
  | WPush (sym : Symbol)
  | WPushMany (syms : list Symbol)
  | WPop (count : nat).

(** An arm, with the names of its pattern, if it has some. *)
Definition arm_steps (arm : Pattern * TypedExpr) : list ScopeWalkStep :=
  let bindings := collect_pattern_bindings arm.1 in
  if decide (length bindings = 0) then [WExpr arm.2] else [WPushMany bindings; WExpr arm.2; WPop (length bindings)].

Section Names.
Context {F : Type}.
Variable class_methods : gmap Symbol ClassMethodInfo.
Variable env : RootedEnvironment.
Variable natives : NativeRegistry F.

(** A name that is not bound in the expression. *)
Definition check_free_var (name : Symbol) (overloads : list ty) (typ : ty) : exec unit :=
  if has_name name natives then
    if negb (bool_decide (overloads = [])) && closed_type typ && negb (existsb (fun t => heads_unify t typ) overloads)
    then raise (MissingImpl name (show_ty typ))
    else if closed_type typ then let? _ := native_resolve name typ natives in Ok tt
    else Ok tt
  else if Rooted_contains env name then Ok tt
  else if bool_decide (is_Some (class_methods !! name)) then Ok tt
  else raise (UnknownVar name).

Definition check_class_method (name : Symbol) : exec unit :=
  if bool_decide (is_Some (class_methods !! name)) then Ok tt else raise (UnknownVar name).

(** What an expression pushes, the top of the stack first. *)
Definition scope_steps (e : TypedExpr) (bound : list Symbol) : exec (list ScopeWalkStep) :=
  match te_kind e with
  | EClassMethod name => let? _ := check_class_method name in Ok []
  | EVar name overloads =>
      if bool_decide (name ∈ bound) then Ok [] else let? _ := check_free_var name overloads (te_typ e) in Ok []
  | ETuple elems | EList elems => Ok (map WExpr elems)
  | EDict kvs => Ok (map (fun kv => WExpr kv.2) kvs)
  | ERecordUpdate base updates => Ok (WExpr base :: map (fun kv => WExpr kv.2) updates)
  | EApp f x => Ok [WExpr f; WExpr x]
  | EProject e _ => Ok [WExpr e]
  | ELam param body => Ok [WPush param; WExpr body; WPop 1]
  | ELet name def body => Ok [WExpr def; WPush name; WExpr body; WPop 1]
  | ELetRec bindings body =>
      if bool_decide (bindings = []) then Ok [WExpr body]
      else Ok (WPushMany (map fst bindings) :: map (fun b => WExpr b.2) bindings ++ [WExpr body; WPop (length bindings)])
  | EIte cond then_expr else_expr => Ok [WExpr cond; WExpr then_expr; WExpr else_expr]
  | EMatch scrutinee arms =>
      Ok (WExpr scrutinee :: concat (map arm_steps arms))
  | EHole => raise UnsupportedExpr
  | _ => Ok []
  end.

Fixpoint scope_walk (rounds : nat) (stack : list ScopeWalkStep) (bound : list Symbol) : exec unit :=
  match stack with
  | [] => Ok tt
  | step :: stack =>
      match rounds with
      | O => Err Diverges
      | S rounds =>
          match step with
          | WExpr e => let? pushed := scope_steps e bound in scope_walk rounds (pushed ++ stack) bound
          | WPush sym => scope_walk rounds stack (bound ++ [sym])
          | WPushMany syms => scope_walk rounds stack (bound ++ syms)
          | WPop count => scope_walk rounds stack (take (length bound - count) bound)
          end
      end
  end.

Definition check_natives (expr : TypedExpr) : exec unit := scope_walk (3 * te_size expr) [WExpr expr] [].
End Names.

(** * The check *)

Definition hole_error (span : Span) : EngineError :=
  Type_ (Spanned span (Types.UnsupportedExpr "typed hole `?` must be filled before evaluation")).

(** After inference. *)
Definition finish_check {F} (env : RootedEnvironment) (natives : NativeRegistry F) (s : TypeSystem) (typed : TypedExpr)
    (preds : list Predicate) : fueled fault TypedExpr :=
  let! (typed, preds) := default_ambiguous_types (ts_classes s) typed preds in
  let! _ := check_predicates (ts_classes s) preds in
  let! _ := Some (check_natives (ts_class_methods s) env natives typed) in
  fret typed.

Definition type_check_engine {F} (env : RootedEnvironment) (natives : NativeRegistry F) (expr : Expr) (s : TypeSystem)
    : option (exec TypedExpr * TypeSystem) :=
  match first_hole_span expr with
  | Some span => Some (raise (hole_error span), s)
  | None =>
      match infer_typed fuel expr s with
      | None => None
      | Some (Err e, s) => Some (raise (Type_ e), s)
      | Some (Ok (typed, preds, _), s) => (fun r => (r, s)) <$> finish_check env natives s typed preds
      end
  end.
End Fuel.

(** * The walks *)

(** All holes, in the order of the text. *)
Fixpoint holes (e : Expr) : list Span :=
  match e with
  | XHole span => [span]
  | XTuple _ es | XList _ es => concat (map holes es)
  | XDict _ kvs => concat (map (fun kv => holes kv.2) kvs)
  | XRecordUpdate _ base updates => holes base ++ concat (map (fun kv => holes kv.2) updates)
  | XApp _ f x => holes f ++ holes x
  | XProject _ base _ | XAnn _ base _ => holes base
  | XLam _ _ _ _ _ body => holes body
  | XLet _ _ _ _ def body => holes def ++ holes body
  | XLetRec _ bindings body => concat (map (fun b => holes b.2) bindings) ++ holes body
  | XIte _ c t e => holes c ++ holes t ++ holes e
  | XMatch _ s arms => holes s ++ concat (map (fun a => holes a.2) arms)
  | _ => []
  end.

Definition hole_of (e : Expr) : list Span := match e with XHole span => [span] | _ => [] end.

Lemma holes_children e : holes e = hole_of e ++ concat (map holes (hole_children e)).
Proof. destruct e; simpl; rewrite ?map_app, ?concat_app, ?map_map; simpl; by rewrite ?app_nil_r. Qed.

Lemma sum_map {A B} (f : A -> B) (n : B -> nat) l : sum_list_with n (map f l) = sum_list_with (fun x => n (f x)) l.
Proof. induction l; simpl; congruence. Qed.

Lemma hole_children_size e : sum_list_with expr_size (hole_children e) < expr_size e.
Proof. destruct e; simpl; rewrite ?sum_list_with_app, ?sum_map; simpl; lia. Qed.

Lemma first_hole_loop_spec fuel : forall stack, sum_list_with expr_size stack <= fuel ->
  first_hole_loop fuel stack = head (concat (map holes stack)).
Proof.
  induction fuel as [|fuel IH]; intros [|e stack] Hf; simpl in Hf; [done| |done|].
  - pose proof (hole_children_size e). lia.
  - pose proof (hole_children_size e) as Hs. simpl. rewrite holes_children.
    assert (first_hole_loop fuel (hole_children e ++ stack) = head (concat (map holes (hole_children e)) ++ concat (map holes stack))) as Hrec.
    { rewrite IH by (rewrite sum_list_with_app; lia). by rewrite map_app, concat_app. }
    destruct e; exact Hrec || reflexivity.
Qed.

Lemma first_hole e : first_hole_span e = head (holes e).
Proof. unfold first_hole_span. rewrite first_hole_loop_spec by (simpl; lia). simpl. by rewrite app_nil_r. Qed.

Lemma te_children_size e : sum_list_with te_size (te_children e) < te_size e.
Proof. destruct e as [t k]. destruct k; simpl; unfold te_children; simpl; rewrite ?sum_list_with_app, ?sum_map; simpl; lia. Qed.

(** The rounds are enough to visit every expression. *)
Lemma collect_candidates fuel : forall fuel' stack out,
  sum_list_with te_size stack <= fuel -> sum_list_with te_size stack <= fuel' -> collect_loop fuel stack out = collect_loop fuel' stack out.
Proof.
  induction fuel as [|fuel IH]; intros [|fuel'] [|e stack] out H H'; simpl in H, H'; try done; pose proof (te_size_pos e); [lia..|].
  pose proof (te_children_size e). simpl. apply IH; rewrite sum_list_with_app; lia.
Qed.

(** The occurrences of names that are not bound in the expression, of class methods and
    of holes, in the order of the walk. *)
Fixpoint uses (bound : list Symbol) (e : TypedExpr) : list TypedExpr :=
  let 'mkTypedExpr _ k := e in
  match k with
  | EVar name _ => if bool_decide (name ∈ bound) then [] else [e]
  | EClassMethod _ | EHole => [e]
  | ETuple es | EList es => concat (map (uses bound) es)
  | EDict kvs => concat (map (fun kv => uses bound kv.2) kvs)
  | ERecordUpdate base updates => uses bound base ++ concat (map (fun kv => uses bound kv.2) updates)
  | EApp f x => uses bound f ++ uses bound x
  | EProject e _ => uses bound e
  | ELam param body => uses (bound ++ [param]) body
  | ELet name def body => uses bound def ++ uses (bound ++ [name]) body
  | ELetRec bindings body =>
      let bound := bound ++ map fst bindings in concat (map (fun b => uses bound b.2) bindings) ++ uses bound body
  | EIte c t e => uses bound c ++ uses bound t ++ uses bound e
  | EMatch s arms => uses bound s ++ concat (map (fun arm => uses (bound ++ collect_pattern_bindings arm.1) arm.2) arms)
  | _ => []
  end.

Section Walk.
Context {F : Type} (class_methods : gmap Symbol ClassMethodInfo) (env : RootedEnvironment) (natives : NativeRegistry F).
Notation steps_of := (scope_steps class_methods env natives).
Notation walk := (scope_walk class_methods env natives).

Definition check_use (e : TypedExpr) : exec unit :=
  match te_kind e with
  | EClassMethod name => check_class_method class_methods name
  | EVar name overloads => check_free_var class_methods env natives name overloads (te_typ e)
  | EHole => raise UnsupportedExpr
  | _ => Ok tt
  end.

Fixpoint check_uses (es : list TypedExpr) : exec unit :=
  match es with
  | [] => Ok tt
  | e :: es => let? _ := check_use e in check_uses es
  end.

Lemma check_uses_app es es' : check_uses (es ++ es') = let? _ := check_uses es in check_uses es'.
Proof. induction es as [|e es IH]; simpl; [done|]. destruct (check_use e); [exact IH|done]. Qed.

(** What a stack of steps uses. *)
Fixpoint stack_uses (stack : list ScopeWalkStep) (bound : list Symbol) : list TypedExpr :=
  match stack with
  | [] => []
  | WExpr e :: stack => uses bound e ++ stack_uses stack bound
  | WPush sym :: stack => stack_uses stack (bound ++ [sym])
  | WPushMany syms :: stack => stack_uses stack (bound ++ syms)
  | WPop count :: stack => stack_uses stack (take (length bound - count) bound)
  end.

Definition step_weight (step : ScopeWalkStep) : nat := match step with WExpr e => 3 * te_size e - 2 | _ => 1 end.
Notation weight := (sum_list_with step_weight).

Lemma take_pop {A} (l k : list A) n : length k = n -> take (length (l ++ k) - n) (l ++ k) = l.
Proof using Type. intros <-. rewrite length_app. replace (length l + length k - length k) with (length l) by lia. apply take_app_length. Qed.

Lemma stack_uses_exprs {A} (f : A -> TypedExpr) l stack bound :
  stack_uses (map (fun x => WExpr (f x)) l ++ stack) bound = concat (map (fun x => uses bound (f x)) l) ++ stack_uses stack bound.
Proof using Type. induction l as [|x l IH]; simpl; [done|]. by rewrite IH, app_assoc. Qed.

Lemma stack_uses_arms (arms : list (Pattern * TypedExpr)) stack bound :
  stack_uses (concat (map arm_steps arms) ++ stack) bound
  = concat (map (fun arm => uses (bound ++ collect_pattern_bindings arm.1) arm.2) arms) ++ stack_uses stack bound.
Proof using Type.
  induction arms as [|[p e] arms IH]; simpl; [done|]. unfold arm_steps at 1. simpl. destruct (decide (length (collect_pattern_bindings p) = 0)) as [H|H]; simpl.
  - apply nil_length_inv in H. by rewrite H, app_nil_r, IH, app_assoc.
  - by rewrite take_pop, IH, app_assoc.
Qed.

(** A step of the walk uses what it pushes. *)
Lemma scope_steps_spec e bound stack :
  match steps_of e bound with
  | Err err => check_uses (uses bound e) = Err err
  | Ok pushed =>
      check_uses (uses bound e ++ stack_uses stack bound) = check_uses (stack_uses (pushed ++ stack) bound)
  end.
Proof.
  destruct e as [t k]. unfold scope_steps. simpl te_kind. simpl te_typ. destruct k; simpl; try done.
  all: try by rewrite (stack_uses_exprs (fun x => x)).
  all: try by rewrite stack_uses_exprs, ?app_assoc.
  all: try by rewrite ?app_assoc.
  all: try by rewrite take_pop, ?app_assoc.
  - simpl check_uses. unfold check_use. cbn [te_kind te_typ]. by destruct (check_class_method _ _) as [[]|err].
  - case_bool_decide; [done|]. simpl check_uses. unfold check_use. cbn [te_kind te_typ]. by destruct (check_free_var _ _ _ _ _ _) as [[]|err].
  - case_bool_decide as H; [subst; simpl; by rewrite app_nil_r|]. simpl. rewrite <- !app_assoc, stack_uses_exprs. simpl.
    by rewrite take_pop, !app_assoc by apply length_map.
  - by rewrite stack_uses_arms, app_assoc.
Qed.
End Walk.

Section Names.
Context {F : Type} (class_methods : gmap Symbol ClassMethodInfo) (env : RootedEnvironment) (natives : NativeRegistry F).
Notation weight := (sum_list_with step_weight).

Lemma weight_exprs {A} (f : A -> TypedExpr) l : weight (map (fun x => WExpr (f x)) l) <= 3 * sum_list_with (fun x => te_size (f x)) l.
Proof. induction l as [|x l IH]; cbn [map sum_list_with step_weight]; [done|]. lia. Qed.

Lemma weight_plain l : weight (map WExpr l) <= 3 * sum_list_with te_size l.
Proof. exact (weight_exprs (fun x => x) l). Qed.

Lemma weight_arms arms : weight (concat (map arm_steps arms)) <= 3 * sum_list_with (fun a => te_size a.2) arms.
Proof.
  induction arms as [|[p e] arms IH]; simpl; [done|]. rewrite sum_list_with_app. unfold arm_steps at 1. simpl.
  pose proof (te_size_pos e). destruct (decide _); simpl; lia.
Qed.

Lemma scope_steps_weight e bound pushed : scope_steps class_methods env natives e bound = Ok pushed -> weight pushed < 3 * te_size e - 2.
Proof.
  destruct e as [t k]. unfold scope_steps. cbn [te_kind te_typ]. destruct k; simpl.
  all: try (intros [= <-]; simpl; lia).
  all: try (intros [= <-]; simpl; pose proof (te_size_pos body); lia).
  - intros [= <-]. pose proof (weight_plain elems). simpl. lia.
  - intros [= <-]. pose proof (weight_plain elems). simpl. lia.
  - intros [= <-]. simpl. pose proof (weight_exprs (fun kv : Symbol * TypedExpr => kv.2) entries). lia.
  - intros [= <-]. simpl. pose proof (weight_exprs (fun kv : Symbol * TypedExpr => kv.2) updates). pose proof (te_size_pos base). lia.
  - destruct (check_class_method _ _); simpl; [|done]. intros [= <-]. simpl. lia.
  - case_bool_decide; [intros [= <-]; simpl; lia|]. destruct (check_free_var _ _ _ _ _ _); simpl; [|done]. intros [= <-]. simpl. lia.
  - pose proof (weight_exprs (fun kv : Symbol * TypedExpr => kv.2) bindings). pose proof (te_size_pos body).
    case_bool_decide; intros [= <-]; simpl; [lia|]. rewrite sum_list_with_app. simpl. lia.
  - intros [= <-]. simpl. pose proof (weight_arms arms). pose proof (te_size_pos scrutinee). lia.
Qed.

Lemma scope_walk_spec rounds : forall stack bound, weight stack <= rounds ->
  scope_walk class_methods env natives rounds stack bound = check_uses class_methods env natives (stack_uses stack bound).
Proof.
  induction rounds as [|rounds IH]; intros [|step stack] bound Hw; simpl in Hw; try done.
  - destruct step as [e| | |]; simpl in Hw; [pose proof (te_size_pos e)|..]; lia.
  - simpl. destruct step as [e|sym|syms|count]; simpl in Hw; [|by apply IH; lia..].
    pose proof (scope_steps_spec class_methods env natives e bound stack) as Hs.
    destruct (scope_steps class_methods env natives e bound) as [pushed|err] eqn:E; simpl.
    + apply scope_steps_weight in E. rewrite IH; [done|]. rewrite sum_list_with_app. lia.
    + by rewrite check_uses_app, Hs.
Qed.

(** The walk checks the free occurrences of the expression, in their order. *)
Lemma walk_uses e : check_natives class_methods env natives e = check_uses class_methods env natives (uses [] e).
Proof.
  unfold check_natives. rewrite scope_walk_spec by (simpl; lia). simpl. by rewrite app_nil_r.
Qed.

Lemma check_uses_Ok es : check_uses class_methods env natives es = Ok tt <-> forall e, e ∈ es -> check_use class_methods env natives e = Ok tt.
Proof.
  induction es as [|e es IH]; simpl; [split; [intros _ e ?%not_elem_of_nil|]; done|]. rewrite rbind_Ok. split.
  - intros ([] & H1 & H2) e' [->|H]%elem_of_cons; [done|]. by apply IH.
  - intros H. exists tt. split; [apply H; by left|]. apply IH. intros e' He. apply H. by right.
Qed.
End Names.

(** * Defaulting *)

(** A substitution of closed types. *)
Definition closes (δ : Subst) : Prop := forall x u, δ !! x = Some u -> vars u = ∅.

Lemma closed_type_vars t : closed_type t = true <-> vars t = ∅.
Proof. unfold closed_type. rewrite bool_decide_eq_true, ftv_vars. done. Qed.

Lemma closes_vars δ t : closes δ -> vars (subst δ t) = vars t ∖ dom δ.
Proof.
  intros Hc. apply set_eq. intros y. rewrite vars_of_instance, elem_of_difference, not_elem_of_dom. split.
  - intros (x & Hx & Hy). simpl in Hy. destruct (δ !! x) as [u|] eqn:E; simpl in Hy.
    + rewrite (Hc x u E) in Hy. set_solver.
    + apply elem_of_singleton in Hy as ->. done.
  - intros [Hy E]. exists y. split; [done|]. simpl. rewrite E. simpl. set_solver.
Qed.

Lemma compose_singleton x u δ : closes δ -> vars u = ∅ -> δ !! x = None ->
  closes (compose_subst {[ x := u ]} δ) /\ dom (compose_subst {[ x := u ]} δ) = {[ x ]} ∪ dom δ /\
  (forall t, subst (compose_subst {[ x := u ]} δ) t = subst {[ x := u ]} (subst δ t)).
Proof.
  intros Hc Hu Hx. split_and!.
  - intros y v. rewrite lookup_compose. destruct (decide (y = x)) as [->|Hy].
    + rewrite lookup_singleton_eq. by intros [= <-].
    + rewrite lookup_singleton_ne by done. intros (w & Hw & ->)%fmap_Some. rewrite subst_disjoint; [by eapply Hc|].
      rewrite (Hc y w Hw). set_solver.
  - apply set_eq. intros y. rewrite elem_of_union, elem_of_singleton, !elem_of_dom, lookup_compose.
    destruct (decide (y = x)) as [->|Hy].
    + rewrite lookup_singleton_eq. split; [by left|by eexists].
    + rewrite lookup_singleton_ne by done. rewrite fmap_is_Some. split; [by right|by intros [?|?]].
  - intros t. apply compose_subst_disjoint. rewrite dom_singleton_L. intros y ->%elem_of_singleton [? ?]%elem_of_dom. congruence.
Qed.

(** Where defaulting is after [δ]: the predicates are those of the start under [δ]. *)
Definition defaulted (preds0 : list Predicate) (preds : list Predicate) (δ : Subst) : Prop :=
  closes δ /\ dom δ ⊆ preds_ftv preds0 /\ preds = map (Predicate_apply δ) preds0.

Lemma defaulted_ftv preds0 preds δ : defaulted preds0 preds δ -> preds_ftv preds = preds_ftv preds0 ∖ dom δ.
Proof.
  intros (Hc & _ & ->). apply set_eq. intros y. rewrite elem_of_difference, !elem_of_preds_ftv. split.
  - intros (p & (q & -> & Hq)%list_elem_of_fmap & Hy). simpl in Hy. rewrite apply_subst, closes_vars in Hy by done. set_solver.
  - intros [(p & Hp & Hy) Hd]. exists (Predicate_apply δ p). split; [by apply list_elem_of_fmap_2|].
    simpl. rewrite apply_subst, closes_vars by done. set_solver.
Qed.
Section Defaults.
Context (classes : ClassEnv).

(** Entailment of closed predicates ends. *)
Definition entailment_ends : Prop := forall p, closed_type (pred_typ p) = true ->
  exists N r, forall n, N <= n -> entails n classes [] p = Some r.

(** What a computation accepts, with any fuel, satisfies [Q]; and where the entailment
    of closed predicates ends, it gives one answer from some fuel on. *)
Definition ends {A} (m : nat -> fueled fault A) (Q : A -> Prop) : Prop :=
  (forall n a, m n = Some (Ok a) -> Q a) /\
  (entailment_ends -> exists N r, forall n, N <= n -> m n = Some r).

Lemma ends_ret {A} (a : A) (Q : A -> Prop) : Q a -> ends (fun _ => fret a) Q.
Proof. intros H. split; [by intros n b [= <-]|]. intros _. by exists 0, (Ok a). Qed.

Lemma ends_err {A} e (Q : A -> Prop) : ends (fun _ => ferr e) Q.
Proof. split; [done|]. intros _. by exists 0, (Err e). Qed.

Lemma ends_mono {A} m (Q Q' : A -> Prop) : (forall a, Q a -> Q' a) -> ends m Q -> ends m Q'.
Proof. intros HQ [Hs He]. split; [|done]. intros n a Ha. by eapply HQ, Hs. Qed.

Lemma ends_bind {A B} (m : nat -> fueled fault A) (k : nat -> A -> fueled fault B) (Q : A -> Prop) (Q' : B -> Prop) :
  ends m Q -> (forall a, Q a -> ends (fun n => k n a) Q') -> ends (fun n => fbind (m n) (k n)) Q'.
Proof.
  intros [Hs He] Hk. split.
  - intros n b (a & Ha & Hb)%fbind_Ok. by eapply (Hk a (Hs n a Ha)).
  - intros H. destruct (He H) as (N & r & Hm). destruct r as [a|e].
    + destruct (proj2 (Hk a (Hs N a (Hm N (le_n _)))) H) as (N' & r' & Hm'). exists (N `max` N'), r'.
      intros n Hn. rewrite Hm by lia. apply Hm'. lia.
    + exists N, (Err e). intros n Hn. by rewrite Hm.
Qed.

Lemma entails_ends p : closed_type (pred_typ p) = true ->
  ends (fun n => type_error (entails n classes [] p)) (fun b => b = true -> exists N, forall n, N <= n -> entails n classes [] p = Some (Ok true)).
Proof.
  intros Hp. split.
  - intros n b Hb ->. destruct (entails n classes [] p) as [[[|]|]|] eqn:E; try done. exists n. intros m Hm.
    by apply (entails_mono classes n).
  - intros He. destruct (He p Hp) as (N & r & HN). exists N, (match r with Ok b => Ok b | Err e => raise (Type_ e) end).
    intros n Hn. rewrite HN by done. by destruct r.
Qed.

Lemma accepts_all_ends s preds :
  ends (fun n => accepts_all n classes s preds) (fun b => b = true -> forall p, p ∈ preds -> vars (subst s (pred_typ p)) = ∅).
Proof.
  induction preds as [|p preds IH]; simpl; [apply ends_ret; intros _ p ?%not_elem_of_nil; done|].
  destruct (closed_type (apply s (pred_typ p))) eqn:Hc; [|by apply ends_ret].
  eapply ends_bind; [by apply (entails_ends (Predicate_apply s p))|]. intros [|] _; [|by apply ends_ret].
  eapply ends_mono; [|exact IH]. intros b Hb Ht q [->|Hq]%elem_of_cons; [|by apply Hb].
  apply closed_type_vars in Hc. by rewrite apply_subst in Hc.
Qed.

Lemma choose_ends tv preds candidates :
  ends (fun n => choose_default_type n classes tv preds candidates)
    (fun c => forall u, c = Some u -> forall p, p ∈ preds -> vars (subst {[ tv := u ]} (pred_typ p)) = ∅).
Proof.
  induction candidates as [|c candidates IH]; simpl; [by apply ends_ret|].
  eapply ends_bind; [apply accepts_all_ends|]. intros [|] Hb; [|exact IH].
  apply ends_ret. intros u [= <-]. by apply Hb.
Qed.


Lemma defaultable_variable tv preds :
  predicates_are_defaultable (List.filter (fun p => is_variable tv (pred_typ p)) (List.filter (mentions tv) preds)) = true ->
  exists p v, p ∈ List.filter (mentions tv) preds /\ pred_typ p = TVar v /\ tv_id v = tv.
Proof.
  intros H. apply andb_true_iff in H as [H _]. apply existsb_exists in H as (p & Hp & _).
  apply filter_In in Hp as [Hp Hv]. exists p. apply list_elem_of_In in Hp. destruct (pred_typ p) as [v| | | | |]; try done.
  exists v. split_and!; [done|done|]. by apply bool_decide_eq_true in Hv.
Qed.

(** What a round has done since [δ]. *)
Definition advanced (preds0 : list Predicate) (δ : Subst) (progress : bool) (st : list Predicate * Subst * bool) : Prop :=
  defaulted preds0 st.1.1 st.1.2 /\ dom δ ⊆ dom st.1.2 /\ (st.2 = true -> progress = true \/ dom δ ⊂ dom st.1.2).

Lemma default_variable_ends preds0 candidates tv preds δ progress :
  defaulted preds0 preds δ ->
  ends (fun n => default_variable n classes candidates tv (preds, δ, progress)) (advanced preds0 δ progress).
Proof.
  intros Hd. assert (advanced preds0 δ progress (preds, δ, progress)) as Hsame by (split_and!; [done|done|by left]).
  unfold default_variable. destruct (δ !! tv) as [u|] eqn:Htv; [by apply ends_ret|].
  destruct (predicates_are_defaultable _) eqn:Hdef; [|by apply ends_ret].
  apply defaultable_variable in Hdef as (p & v & Hp & Hv & Hid).
  eapply ends_bind; [apply choose_ends|]. intros [u|] Hc; [|by apply ends_ret]. apply ends_ret.
  assert (vars u = ∅) as Hu.
  { specialize (Hc u eq_refl p Hp). rewrite Hv in Hc. simpl in Hc. by rewrite Hid, lookup_singleton_eq in Hc. }
  assert (tv ∈ preds_ftv preds) as Hin.
  { apply elem_of_preds_ftv. exists p. apply list_elem_of_In, filter_In in Hp as [Hp%list_elem_of_In _].
    split; [done|]. rewrite Hv. simpl. set_solver. }
  pose proof Hd as (Hcl & Hdom & ->). destruct (compose_singleton tv u δ Hcl Hu Htv) as (Hc1 & Hc2 & Hc3).
  rewrite (defaulted_ftv _ _ _ Hd) in Hin. split_and!; simpl; [split_and!| |].
  - done.
  - rewrite Hc2. set_solver.
  - rewrite map_map. apply map_ext. intros q. unfold Predicate_apply. simpl. by rewrite !apply_subst, Hc3.
  - rewrite Hc2. set_solver.
  - intros _. right. rewrite Hc2. set_solver.
Qed.

Lemma default_round_ends preds0 candidates vars : forall preds δ progress, defaulted preds0 preds δ ->
  ends (fun n => default_round n classes candidates vars (preds, δ, progress)) (advanced preds0 δ progress).
Proof.
  induction vars as [|tv vars IH]; intros preds δ progress Hd; [apply ends_ret; split_and!; [done|done|by left]|].
  cbn [default_round]. eapply ends_bind; [by apply default_variable_ends|]. intros [[preds1 δ1] progress1] (Hd1 & Hs1 & Hp1).
  simpl in Hd1, Hs1, Hp1. eapply ends_mono; [|by apply IH]. intros st (Hd2 & Hs2 & Hp2). split_and!; [done|set_solver|].
  intros Ht. destruct (Hp2 Ht) as [H|H]; [destruct (Hp1 H) as [?|?]; [by left|right; set_solver]|right; set_solver].
Qed.

Lemma fewer_left (X Y Z : gset TypeVarId) : Z ⊆ X -> Y ⊂ Z -> size (X ∖ Z) < size (X ∖ Y).
Proof.
  intros HZ [HY HYZ]. apply subset_size. split; [set_solver|]. intros H. apply HYZ. intros y Hy.
  destruct (decide (y ∈ Y)) as [|Hn]; [done|]. exfalso. assert (y ∈ X ∖ Z) by (apply H; set_solver). set_solver.
Qed.

Lemma default_loop_sound preds0 candidates n : forall rounds preds δ preds' δ', defaulted preds0 preds δ ->
  default_loop n classes rounds candidates preds δ = Some (Ok (preds', δ')) -> defaulted preds0 preds' δ'.
Proof.
  induction rounds as [|rounds IH]; intros preds δ preds' δ' Hd; [done|]. cbn [default_loop].
  destruct (default_round_ends preds0 candidates (sorted_ids (preds_ftv preds)) preds δ false Hd) as [Hs _].
  intros ([[preds1 δ1] [|]] & Hr & Hk)%fbind_Ok; destruct (Hs n _ Hr) as (Hd1 & _ & _); [by eapply IH|].
  by injection Hk as <- <-.
Qed.

Lemma default_loop_halts preds0 candidates k : entailment_ends ->
  forall preds δ, defaulted preds0 preds δ -> size (preds_ftv preds0 ∖ dom δ) <= k ->
  exists N r, forall n rounds, N <= n -> k < rounds -> default_loop n classes rounds candidates preds δ = Some r.
Proof.
  intros He. induction k as [|k IH]; intros preds δ Hd Hk;
    destruct (default_round_ends preds0 candidates (sorted_ids (preds_ftv preds)) preds δ false Hd) as [Hs Hh];
    destruct (Hh He) as (N & r & HN).
  all: destruct r as [[[preds1 δ1] [|]]|e];
    [|by exists N, (Ok (preds1, δ1)); intros n [|rounds] Hn Hlt; [lia|]; cbn [default_loop]; rewrite HN
     |by exists N, (Err e); intros n [|rounds] Hn Hlt; [lia|]; cbn [default_loop]; rewrite HN].
  all: destruct (Hs N _ (HN N (le_n _))) as (Hd1 & _ & Hp); simpl in Hd1, Hp; destruct (Hp eq_refl) as [?|Hlt]; [done|].
  all: assert (size (preds_ftv preds0 ∖ dom δ1) < size (preds_ftv preds0 ∖ dom δ)) as Hsz
    by (apply fewer_left; [apply Hd1|done]).
  - lia.
  - destruct (IH preds1 δ1 Hd1) as (N' & r' & HN'); [lia|]. exists (N `max` N'), r'.
    intros n [|rounds] Hn Hlt'; [lia|]. cbn [default_loop]. rewrite HN by lia. simpl. apply HN'; lia.
Qed.

Lemma default_ambiguous_ends typed preds :
  ends (fun n => default_ambiguous_types n classes typed preds)
    (fun r => exists δ, defaulted preds r.2 δ /\ r.1 = TypedExpr_apply δ typed).
Proof.
  assert (defaulted preds preds ∅) as H0.
  { split_and!; [by intros x u|set_solver|]. rewrite <- (map_id preds) at 1. apply map_ext. intros [c t]. unfold Predicate_apply. simpl.
    by rewrite apply_subst, subst_empty. }
  unfold default_ambiguous_types. split.
  - intros n r ([preds' δ] & Hl & [= <-])%fbind_Ok. exists δ. split; [by eapply default_loop_sound|done].
  - intros He. destruct (default_loop_halts preds (default_candidates typed) _ He preds ∅ H0 (le_n _)) as (N & r & HN).
    set (k := size (preds_ftv preds ∖ dom (∅ : Subst))) in *.
    exists (N `max` S k), (match r with Ok (preds', δ) => Ok (TypedExpr_apply δ typed, preds') | Err e => Err e end).
    intros n Hn. rewrite HN by lia. by destruct r as [[? ?]|].
Qed.

Lemma check_predicates_ends preds :
  ends (fun n => check_predicates n classes preds)
    (fun _ => forall p, p ∈ preds -> vars (pred_typ p) = ∅ -> exists N, forall n, N <= n -> entails n classes [] p = Some (Ok true)).
Proof.
  induction preds as [|p preds IH]; simpl; [apply ends_ret; by intros p ?%not_elem_of_nil|].
  destruct (closed_type (pred_typ p)) eqn:Hc.
  - eapply ends_bind; [by apply entails_ends|]. intros [|] Hb; [|apply ends_err].
    eapply ends_mono; [|exact IH]. intros [] Hall q [->|Hq]%elem_of_cons Hv; [by apply Hb|by apply Hall].
  - eapply ends_mono; [|exact IH]. intros [] Hall q [->|Hq]%elem_of_cons Hv; [|by apply Hall].
    apply closed_type_vars in Hv. congruence.
Qed.
End Defaults.

(** * What an accepted expression is *)

(** Substituting in typed expressions composes. *)
Lemma subst_expr_compose (s1 s2 s3 : Subst) :
  (forall t, subst s3 t = subst s2 (subst s1 t)) -> forall n e, te_size e <= n -> subst_expr s2 (subst_expr s1 e) = subst_expr s3 e.
Proof.
  intros H. induction n as [|n IH]; intros [t k] Hn; [pose proof (te_size_pos (mkTypedExpr t k)); lia|]. cbn [subst_expr].
  rewrite !apply_subst, <- H. f_equal.
  assert (forall l, sum_list_with te_size l <= n -> map (subst_expr s2) (map (subst_expr s1) l) = map (subst_expr s3) l) as Hl.
  { intros l. induction l as [|x l IHl]; simpl; intros Hl; [done|]. rewrite IH, IHl by lia. done. }
  assert (forall (l : list (Symbol * TypedExpr)), sum_list_with (fun f => te_size f.2) l <= n ->
    map (fun f => (f.1, subst_expr s2 f.2)) (map (fun f => (f.1, subst_expr s1 f.2)) l) = map (fun f => (f.1, subst_expr s3 f.2)) l) as Hv.
  { intros l. induction l as [|x l IHl]; simpl; intros Hl'; [done|]. rewrite IH, IHl by lia. done. }
  assert (forall (l : list (Pattern * TypedExpr)), sum_list_with (fun f => te_size f.2) l <= n ->
    map (fun f => (f.1, subst_expr s2 f.2)) (map (fun f => (f.1, subst_expr s1 f.2)) l) = map (fun f => (f.1, subst_expr s3 f.2)) l) as Ha.
  { intros l. induction l as [|x l IHl]; simpl; intros Hl'; [done|]. rewrite IH, IHl by lia. done. }
  simpl in Hn. destruct k; cbn [apply_kind]; rewrite ?Hl, ?Hv, ?Ha, ?IH by lia; try done.
  f_equal. rewrite map_map. apply map_ext. intros u. by rewrite !apply_subst, H.
Qed.

Section Composed.
Context (U : gset TypeVarId) (σ δ : Subst) (n : nat) (preds0 : list Predicate).
Hypothesis Hr : ready U σ n.
Hypothesis Hp : preds_within U σ preds0.
Hypothesis Hc : closes δ.
Hypothesis Hd : dom δ ⊆ preds_ftv (dedup_preds (map (Predicate_apply σ) preds0)).

Lemma defaulted_open x : x ∈ dom δ -> x ∈ U /\ σ !! x = None.
Proof using Hr Hp Hd.
  clear Hc. intros (p & (q & -> & Hq)%elem_of_dedup_preds%list_elem_of_fmap & Hx)%Hd%elem_of_preds_ftv. simpl in Hx.
  rewrite apply_subst in Hx. split; [by apply (Hp q Hq)|]. eapply settled_open; [apply Hr|done].
Qed.

Lemma composed_apply t : subst (compose_subst δ σ) t = subst δ (subst σ t).
Proof using Hr Hp Hd. clear Hc. apply compose_subst_disjoint. intros x [_ Hx]%defaulted_open [? ?]%elem_of_dom. congruence. Qed.

Lemma composed_lookup x : compose_subst δ σ !! x = None <-> x ∉ dom δ /\ σ !! x = None.
Proof using Type.
  clear Hr Hp Hc Hd. rewrite lookup_compose, not_elem_of_dom. destruct (δ !! x); [naive_solver|].
  destruct (σ !! x); simpl; naive_solver.
Qed.

Lemma composed_touch : touch U σ n (compose_subst δ σ) n U.
Proof using Hr Hp Hc Hd.
  split.
  - intros t. rewrite !composed_apply. by rewrite settled_idem by apply Hr.
  - intros t x Hx. rewrite composed_apply, closes_vars in Hx by done. apply elem_of_difference in Hx as [Hx Hn].
    apply composed_lookup. split; [done|]. eapply settled_open; [apply Hr|done].
  - done.
  - intros x _ HU Hx. apply composed_lookup. split; [|done]. by intros [? _]%defaulted_open.
  - intros x y HU Hx. rewrite composed_apply, closes_vars, vars_open by done. set_solver.
  - intros x Hx. by left.
  - apply Hr.
  - intros x Hx. apply composed_lookup. split; [|by apply (ready_new _ _ _ Hr)].
    intros [HU _]%defaulted_open. pose proof (ready_lt _ _ _ Hr x HU). lia.
Qed.
End Composed.

(** What is left of the check after inference, on the predicates that it answers. *)
Lemma finish_check_ends {F} env (natives : NativeRegistry F) s typed preds :
  ends (ts_classes s) (fun n => finish_check n env natives s typed preds)
    (fun te => check_natives (ts_class_methods s) env natives te = Ok tt /\
      exists δ, closes δ /\ dom δ ⊆ preds_ftv preds /\ te = TypedExpr_apply δ typed /\
        forall p, p ∈ preds -> vars (subst δ (pred_typ p)) = ∅ ->
          exists N, forall n, N <= n -> entails n (ts_classes s) [] (Predicate_apply δ p) = Some (Ok true)).
Proof.
  eapply ends_bind; [by apply default_ambiguous_ends|].
  intros [te preds'] (δ & (Hcl & Hdom & Hpreds) & Hte). simpl in Hpreds, Hte. subst.
  eapply ends_bind; [by apply check_predicates_ends|]. intros [] Hall.
  destruct (check_natives _ _ _ _) as [[]|err] eqn:Hn; [|apply ends_err].
  apply ends_ret. split; [done|]. exists δ. split_and!; [done..|]. intros p Hin Hv.
  apply Hall; [by apply list_elem_of_fmap_2|]. simpl. by rewrite apply_subst.
Qed.

(** C1. The check of an expression is sound after any declarations whose classes repeat
    no parameter, on every expression whose [let]s declare no type parameters. Whatever
    [type_check_engine] answers with enough fuel: a hole of the text is an error at the
    first one; and what is accepted has no holes, is well typed under a substitution [σ]
    that the answer applies, every predicate that is closed under [σ] is entailed by the
    instances, and every name that is not bound in it is known to the runtime: a class
    method, a native function that has an implementation at a closed type, or a value of
    the environment. And the check answers, with one answer for all large fuels,
    wherever the search for instances ends on closed predicates ([entailment_ends]): of
    the steps of the check, only that search may run for ever. *)
Theorem type_check_sound {F} fuel decls s0 r0 s (env : RootedEnvironment) (natives : NativeRegistry F) e :
  well_formed s0 -> distinct_params decls -> register_decls fuel decls s0 = Some (r0, s) -> unscoped e = true ->
  (exists N, forall n r s', N <= n -> type_check_engine n env natives e s = Some (r, s') ->
    (forall span, head (holes e) = Some span -> r = raise (hole_error span)) /\
    forall te, r = Ok te ->
      holes e = [] /\
      (forall u, u ∈ uses [] te -> check_use (ts_class_methods s) env natives u = Ok tt) /\
      exists σ U typed0 preds0,
        te = TypedExpr_apply σ typed0 /\
        typed (ts_adts s) (next s') (made (next s) U (next s') σ) σ (env_values (ts_env s)) preds0 typed0 /\
        forall p, p ∈ preds0 -> vars (subst σ (pred_typ p)) = ∅ ->
          exists N, forall n, N <= n -> entails n (ts_classes s) [] (Predicate_apply σ p) = Some (Ok true)) /\
  (entailment_ends (ts_classes s) ->
   exists N r s', forall n, N <= n -> type_check_engine n env natives e s = Some (r, s')).
Proof.
  intros Hw Hdp E Hu. assert (well_formed s) as Hws by (by destruct (gives_decls fuel decls Hdp s0 r0 s I Hw E) as (? & _)).
  clear E Hw Hdp. unfold type_check_engine. rewrite first_hole. destruct (holes e) as [|span rest]; cbn [head].
  2: { split; [|intros _; by exists 0, (raise (hole_error span)), s]. exists 0. intros n r s' _ [= <- <-].
       split; [by intros ? [= ->]|done]. }
  destruct (infer_typed_answers s e Hws Hu) as (r & s' & [N HN] & [u ->] & Hans).
  destruct r as [[[te0 preds] t]|err].
  2: { split; [|intros _; exists N, (raise (Type_ err)), (with_supply (fun _ => u) s); intros n Hn; by rewrite HN].
       exists N. intros n r s' Hn. rewrite HN by done. by intros [= <- <-]. }
  destruct Hans as (σ & U & typed0 & preds0 & t0 & -> & -> & -> & _ & Hp & _ & Hr & Hdead & Hty).
  set (s' := with_supply (fun _ => u) s) in *. set (preds := dedup_preds _) in *.
  destruct (finish_check_ends env natives s (TypedExpr_apply σ typed0) preds) as [Hsound Hends]. split.
  2: { intros He. destruct (Hends He) as (M & r & HM). exists (N `max` M), r, s'. intros n Hn. rewrite HN by lia.
       change (finish_check n env natives s') with (finish_check n env natives s). by rewrite HM by lia. }
  exists N. intros n r s'' Hn. rewrite HN by done. change (finish_check n env natives s') with (finish_check n env natives s).
  destruct (finish_check n env natives s _ _) as [r'|] eqn:Hfin; [|done]. intros [= <- <-]. split; [done|]. intros te ->.
  destruct (Hsound n te Hfin) as (Hnat & δ & Hcl & Hdom & -> & Hent). split_and!; [done| |].
  { rewrite walk_uses in Hnat. by apply check_uses_Ok. }
  pose proof (composed_touch U σ δ (next s') preds0 Hr Hp Hcl Hdom) as Ht.
  pose proof (composed_apply U σ δ (next s') preds0 Hr Hp Hdom) as Happ.
  exists (compose_subst δ σ), U, typed0, preds0. split_and!.
  - rewrite !TypedExpr_apply_eq. by apply (subst_expr_compose _ _ _ Happ (te_size typed0)).
  - eapply typed_carry; [exact Ht|exact Hr| |exact Hty|exact Hdead|apply entailed_refl].
    intros b [Hb Hdb]. split; [done|]. split; [done|]. by apply (dead_carry Ht).
  - intros p Hin Hv. rewrite Happ in Hv.
    assert (Predicate_apply σ p ∈ preds) as Hin' by (by apply elem_of_dedup_preds, list_elem_of_fmap_2).
    destruct (Hent _ Hin') as [K HK]; [simpl; by rewrite apply_subst|]. exists K. intros m Hm.
    rewrite <- (HK m Hm). f_equal. unfold Predicate_apply. simpl. by rewrite !apply_subst, Happ.
Qed.

(** Where types hold no records the search ends when the contexts of instances speak of
    smaller types than their heads. *)
Lemma shrinking_entailment_ends classes p :
  instances_ok classes -> shrinking classes -> record_free (pred_typ p) = true -> closed_type (pred_typ p) = true ->
  exists N r, forall n, N <= n -> entails n classes [] p = Some r.
Proof.
  intros Hok Hsh Hr Hc. assert (Hg : ground (pred_typ p)) by (split; [done|by apply closed_type_vars]).
  apply (entails_settles classes ground); [|by intros q c ?%not_elem_of_nil|done].
  intros class inst t s q Hi Ht Hu Hq. pose proof (unify_ground _ _ (proj1 (Hok _ _ Hi)) Ht) as H. rewrite Hu in H.
  destruct H as [<- Hs]. split; [by apply (instance_ground classes class inst s q)|]. rewrite <- apply_subst. by eapply Hsh.
Qed.

(** * An example *)

(** Instances without contexts. *)
Definition flat (classes : ClassEnv) : bool :=
  forallb (fun e => forallb (fun i => bool_decide (inst_context i = [])) e.2) (map_to_list (class_instances classes)).

Lemma flat_entailment_ends classes : flat classes = true -> entailment_ends classes.
Proof.
  intros Hall p _. apply (entails_settles classes (fun _ => True)); [|by intros q c ?%not_elem_of_nil|done].
  intros class inst t s q Hi _ _ Hq. exfalso.
  destruct (class_instances classes !! class) as [insts|] eqn:E; [|by apply not_elem_of_nil in Hi].
  apply elem_of_map_to_list in E. unfold flat in Hall. rewrite forallb_Forall, Forall_forall in Hall. specialize (Hall _ E).
  simpl in Hall. rewrite forallb_Forall, Forall_forall in Hall. specialize (Hall _ Hi). apply bool_decide_eq_true in Hall.
  rewrite Hall in Hq. by apply not_elem_of_nil in Hq.
Qed.

(** [wrap default is Maybe Bool], after the declarations of [DeclsSound]; [wrap] is in the
    environment. *)
Definition demo_checked : Expr :=
  let sp := Span_default in
  let v s := XVar (mkVar sp s) in
  XAnn sp (XApp sp (v "wrap") (v "default")) (TyApp sp (TyName sp (Unqualified "Maybe")) (TyName sp (Unqualified "Bool"))).
Definition demo_runtime_env : RootedEnvironment := Rooted_extend Rooted_new "wrap" (mkRoot 0 0 0).
Definition demo_no_natives : NativeRegistry unit := NativeRegistry_default.

Example hole_found :
  type_check_engine 0 demo_runtime_env demo_no_natives (XTuple Span_default [XBool Span_default true; XHole Span_default]) TypeSystem_new
  = Some (raise (hole_error Span_default), TypeSystem_new).
Proof. reflexivity. Qed.

Lemma type_check_sound_witness :
  exists s, register_decls 30 demo_decls TypeSystem_new = Some (Ok tt, s) /\ flat (ts_classes s) = true /\
    (match type_check_engine 30 demo_runtime_env demo_no_natives demo_checked s with
     | Some (Ok (mkTypedExpr t _), _) => t = TApp (TCon (User "Maybe" 1)) (ty_builtin Bool)
     | _ => False
     end) /\
    (exists N, forall n te s', N <= n ->
       type_check_engine n demo_runtime_env demo_no_natives demo_checked s = Some (Ok te, s') ->
       forall u, u ∈ uses [] te -> check_use (ts_class_methods s) demo_runtime_env demo_no_natives u = Ok tt) /\
    exists N r s', forall n, N <= n -> type_check_engine n demo_runtime_env demo_no_natives demo_checked s = Some (r, s').
Proof.
  destruct (register_decls 30 demo_decls TypeSystem_new) as [[r s]|] eqn:E; [|by vm_compute in E].
  assert (r = Ok tt) as -> by (vm_compute in E; by injection E as <-).
  assert (s = match register_decls 30 demo_decls TypeSystem_new with Some (_, s) => s | None => TypeSystem_new end) as Hs by (by rewrite E).
  assert (flat (ts_classes s) = true) as Hf by (rewrite Hs; vm_compute; reflexivity).
  exists s. split_and!; [done|done|rewrite Hs; vm_compute; reflexivity| |];
    destruct (type_check_sound 30 demo_decls TypeSystem_new (Ok tt) s demo_runtime_env demo_no_natives demo_checked
                well_formed_new demo_distinct E eq_refl) as [(N & Hok) Hends].
  - exists N. intros n te s' Hn Hte. by destruct (proj2 (Hok n (Ok te) s' Hn Hte) te eq_refl) as (_ & Hu & _).
  - exact (Hends (flat_entailment_ends _ Hf)).
Defined.
