(* ===== verification/ModuleLoad.v ===== *)
(** The loader of modules: importers, the cache of what they answered
    ([rex-engine/src/modules/system.rs], [modules/types.rs]), modules written in Rust
    ([install_named_rust_module] of [builder/builder.rs]), the loading of the modules that
    a package imports, in groups that import one another ([builder/rewrite.rs]), and the
    entry points of the compiler ([compiler/mod.rs]).

    The engine that declarations are injected into is an interface ([LoadEngine], with its
    laws [LoadEngineLaws]); importers are functions on a state of their own; the parser of a
    module's text is an argument, since the lexer's regular expressions are. *)

From stdpp Require Import sorting.
From S2P Require Import Prelude Span Types BTree Syntax Ast Errors Adts Values AstBuilder Modules Qualify Rewrite Tarjan.

(** * Errors *)

(** The errors of loading: [EngineError], with the errors of modules. *)
Inductive LoadError : Type :=
  | InvalidModuleId (e : ModuleIdError)
  | NotFound (module_name : string)
  | ImportsDisabled (module_name : string)
  | Parse (errors : list ParseError)
  | ParseInModule (module : ModuleId) (errors : list ParseError)
  | ModuleFailed (e : ModuleError)
  | Engine_ (e : EngineError).

Definition internal (message : string) : LoadError := Engine_ (Internal message).

(** * Modules and requests *)

Record ImportRequest : Type := mkImportRequest { request_module_id : ModuleId; request_importer : option ModuleId }.

Inductive ExportPayload (I : Type) : Type :=
  | Injector (injector : I)
  | PayloadValue (value : Value) (typ : ty).
Arguments Injector {I} injector.
Arguments PayloadValue {I} value typ.

(** [Export], without the fields that only the building of a module reads. *)
Record Export (I : Type) : Type := mkExport {
  export_name : string;
  export_interface : DeclareFnDecl;
  export_payload : ExportPayload I
}.
Arguments mkExport {I} export_name export_interface export_payload.
Arguments export_name {I} e.
Arguments export_interface {I} e.
Arguments export_payload {I} e.

Definition export_is_value {I} (e : Export I) : bool :=
  match export_payload e with PayloadValue _ _ => true | Injector _ => false end.

Record StagedAdtDecl : Type := mkStagedAdtDecl { staged_adt : AdtDecl; staged_type_decl : TypeDecl }.

(** [Module]: a module written in Rust. *)
Record RustModule (I : Type) : Type := mkRustModule {
  rust_name : string;
  rust_docs : option string;
  rust_adts : list StagedAdtDecl;
  rust_instances : list InstanceDecl;
  rust_exports : list (Export I);
  rust_internals : list (Export I)
}.
Arguments mkRustModule {I} rust_name rust_docs rust_adts rust_instances rust_exports rust_internals.
Arguments rust_name {I} r.
Arguments rust_docs {I} r.
Arguments rust_adts {I} r.
Arguments rust_instances {I} r.
Arguments rust_exports {I} r.
Arguments rust_internals {I} r.

(** [Module::declarations] *)
Definition module_declarations {I} (m : RustModule I) : Declarations :=
  mkDeclarations (map staged_type_decl (rust_adts m)) [] [] [] [] (rust_instances m).

(** A [ResolvedRustModule] is shared by its copies: it is a place in a store. *)
Inductive ResolvedModuleContent : Type :=
  | Source (source : string)
  | Package (package : CompilationPackage)
  | RustBacked (cell : nat).

Record ResolvedModule : Type := mkResolved { resolved_id : ModuleId; resolved_content : ResolvedModuleContent }.

Definition is_rust (c : ResolvedModuleContent) : bool := match c with RustBacked _ => true | _ => false end.

(** What is outside the engine: the importers' own state, and the store of modules
    written in Rust, each to be taken once. *)
Record Outside (I X : Type) : Type := mkOutside { importers_state : X; rust_modules : list (option (RustModule I)) }.
Arguments mkOutside {I X} importers_state rust_modules.
Arguments importers_state {I X} o.
Arguments rust_modules {I X} o.

(** [ResolvedRustModule::take]; the lock is never poisoned, nothing panics under it. *)
Definition take_rust_module {I X} (cell : nat) (o : Outside I X) : result LoadError (RustModule I) * Outside I X :=
  match rust_modules o !! cell with
  | Some (Some m) => (Ok m, mkOutside (importers_state o) (<[cell := None]> (rust_modules o)))
  | _ => (Err (internal "lazy Rust module was already installed"), o)
  end.

(** * Importers *)

Section Importers.
Context {I X : Type}.

(** [Importer::import] *)
Definition Importer : Type := ImportRequest -> Outside I X -> result LoadError (option ResolvedModule) * Outside I X.

Definition with_importer (entries : list Importer) (importer : Importer) : list Importer := entries ++ [importer].
Definition append_importer := with_importer.
Definition prepend_importer (entries : list Importer) (importer : Importer) : list Importer := importer :: entries.

(** [ImportChain::import] *)
Fixpoint chain_import (entries : list Importer) (req : ImportRequest) (o : Outside I X)
    : result LoadError ResolvedModule * Outside I X :=
  match entries with
  | [] => (Err (NotFound (ModuleId_show (request_module_id req))), o)
  | importer :: entries =>
      match importer req o with
      | (Err e, o) => (Err e, o)
      | (Ok (Some resolved), o) => (Ok resolved, o)
      | (Ok None, o) => chain_import entries req o
      end
  end.

Definition DenyImporter : Importer := fun request o =>
  (Err (ImportsDisabled (ModuleId_show (request_module_id request))), o).

Definition StaticModuleImporter (module_id : ModuleId) (resolved : ResolvedModule) : Importer := fun req o =>
  (if decide (request_module_id req <> module_id) then Ok None else Ok (Some resolved), o).

Record ResolvedModuleCache : Type := mkCache {
  requests : gmap (ModuleId * option ModuleId) ModuleId;
  modules : gmap ModuleId ResolvedModule
}.
Definition ResolvedModuleCache_default : ResolvedModuleCache := mkCache ∅ ∅.

Definition request_key (r : ImportRequest) : ModuleId * option ModuleId := (request_module_id r, request_importer r).

Definition missing_cached (id : ModuleId) : LoadError :=
  internal ("resolved module cache request pointed at missing module `" +:+ ModuleId_show id +:+ "`").

(** The importers are asked; of a module that is known already, the known one is taken. *)
Definition ask_importers (chain : list Importer) (request : ImportRequest) (c : ResolvedModuleCache) (o : Outside I X)
    : result LoadError ResolvedModule * ResolvedModuleCache * Outside I X :=
  let key := request_key request in
  match chain_import chain request o with
  | (Err e, o) => (Err e, c, o)
  | (Ok resolved, o) =>
      match modules c !! resolved_id resolved with
      | Some cached => (Ok cached, mkCache (<[key := resolved_id cached]> (requests c)) (modules c), o)
      | None => (Ok resolved, mkCache (<[key := resolved_id resolved]> (requests c))
                                      (<[resolved_id resolved := resolved]> (modules c)), o)
      end
  end.

(** [ResolvedModuleCache::import] *)
Definition cache_import (chain : list Importer) (request : ImportRequest) (c : ResolvedModuleCache) (o : Outside I X)
    : result LoadError ResolvedModule * ResolvedModuleCache * Outside I X :=
  let key := request_key request in
  match requests c !! key with
  | Some module_id =>
      (match modules c !! module_id with Some resolved => Ok resolved | None => Err (missing_cached module_id) end, c, o)
  | None =>
      match request_importer request, modules c !! request_module_id request with
      | None, Some resolved => (Ok resolved, mkCache (<[key := resolved_id resolved]> (requests c)) (modules c), o)
      | _, _ => ask_importers chain request c o
      end
  end.
End Importers.
Arguments Importer : clear implicits.

(** * The engine that loads *)

(** [ModuleLoaderState], without the chain of importers, which loading is given a copy of,
    and the context that [inject_module_export] sets and resets. *)
Record ModuleLoaderState : Type := mkLoader {
  injected_modules : gset string;
  module_exports_cache : gmap ModuleId ModuleExports;
  module_interface_cache : gmap ModuleId Declarations;
  module_sources : gmap ModuleId string;
  published_cycle_interfaces : gset ModuleId;
  default_imports : list string;
  virtual_modules : gmap string CompilationPackage;
  module_local_type_names : gmap string (gset Symbol)
}.
Definition ModuleLoaderState_new (imports : list string) : ModuleLoaderState := mkLoader ∅ ∅ ∅ ∅ ∅ imports ∅ ∅.

Definition add_injected_module (name : string) (l : ModuleLoaderState) : ModuleLoaderState :=
  mkLoader ({[ name ]} ∪ injected_modules l) (module_exports_cache l) (module_interface_cache l) (module_sources l)
    (published_cycle_interfaces l) (default_imports l) (virtual_modules l) (module_local_type_names l).
Definition add_module_exports (id : ModuleId) (e : ModuleExports) (l : ModuleLoaderState) : ModuleLoaderState :=
  mkLoader (injected_modules l) (<[id := e]> (module_exports_cache l)) (module_interface_cache l) (module_sources l)
    (published_cycle_interfaces l) (default_imports l) (virtual_modules l) (module_local_type_names l).
Definition add_module_interface (id : ModuleId) (d : Declarations) (l : ModuleLoaderState) : ModuleLoaderState :=
  mkLoader (injected_modules l) (module_exports_cache l) (<[id := d]> (module_interface_cache l)) (module_sources l)
    (published_cycle_interfaces l) (default_imports l) (virtual_modules l) (module_local_type_names l).
Definition add_module_source (id : ModuleId) (s : string) (l : ModuleLoaderState) : ModuleLoaderState :=
  mkLoader (injected_modules l) (module_exports_cache l) (module_interface_cache l) (<[id := s]> (module_sources l))
    (published_cycle_interfaces l) (default_imports l) (virtual_modules l) (module_local_type_names l).
Definition add_published (id : ModuleId) (l : ModuleLoaderState) : ModuleLoaderState :=
  mkLoader (injected_modules l) (module_exports_cache l) (module_interface_cache l) (module_sources l)
    ({[ id ]} ∪ published_cycle_interfaces l) (default_imports l) (virtual_modules l) (module_local_type_names l).
Definition add_virtual_module (name : string) (p : CompilationPackage) (l : ModuleLoaderState) : ModuleLoaderState :=
  mkLoader (injected_modules l) (module_exports_cache l) (module_interface_cache l) (module_sources l)
    (published_cycle_interfaces l) (default_imports l) (<[name := p]> (virtual_modules l)) (module_local_type_names l).
Definition add_local_type_names (name : string) (ns : gset Symbol) (l : ModuleLoaderState) : ModuleLoaderState :=
  mkLoader (injected_modules l) (module_exports_cache l) (module_interface_cache l) (module_sources l)
    (published_cycle_interfaces l) (default_imports l) (virtual_modules l) (<[name := ns]> (module_local_type_names l)).

(** [RustModuleInstallContext], and [Builder::inject_adt]: what loading and injection ask of
    a [Builder] or a [Compiler]. An operation that fails leaves the engine as it was then. *)
Class LoadEngine (E I : Type) : Type := {
  module_loader : E -> ModuleLoaderState;
  set_module_loader : ModuleLoaderState -> E -> E;
  engine_inject_decls : Declarations -> E -> result LoadError unit * E;
  engine_publish_runtime_interfaces : Declarations -> E -> result LoadError unit * E;
  engine_inject_module_export : string -> Export I -> E -> result LoadError unit * E;
  engine_inject_adt : AdtDecl -> E -> result LoadError unit * E
}.

Record ModuleLoadState : Type := mkLoadState {
  resolved_modules : ResolvedModuleCache;
  loaded : gmap ModuleId ModuleExports;
  loading : gset ModuleId
}.
Definition ModuleLoadState_default : ModuleLoadState := mkLoadState ResolvedModuleCache_default ∅ ∅.

(** * The entry of a program *)

Record MainInputSpec : Type := mkMainInput { input_name : string; input_type : ty }.
Record MainSignature : Type := mkMainSignature { signature_inputs : list MainInputSpec; signature_result : ty }.

Definition get_fn_decl (u : CompilationUnit) (name : string) : option FnDecl :=
  head (omap (fun d => match d with
                       | DFn fd => if bool_decide (var_name (fn_name fd) = name) then Some fd else None
                       | _ => None
                       end) (Ast.decls u)).

Definition typ_of (t : TypedExpr) : ty := match t with mkTypedExpr typ _ => typ end.

Fixpoint collect_param_names (params : list (Var * TypeExpr)) (seen : gset string) (names : list string)
    : result LoadError (list string) :=
  match params with
  | [] => Ok names
  | (var, _) :: params =>
      let name := var_name var in
      if decide (name ∈ seen) then Err (Engine_ (DuplicateMainInput name))
      else collect_param_names params ({[ name ]} ∪ seen) (names ++ [name])
  end.
Definition main_param_names (main_decl : FnDecl) : result LoadError (list string) :=
  collect_param_names (fn_params_ main_decl) ∅ [].

Record MainEntryProgram : Type := mkMainEntry { entry_program : CompilationUnit; entry_param_names : list string }.

Definition main_entry_program (program : CompilationUnit) : result LoadError MainEntryProgram :=
  match get_fn_decl program "main", Ast.body program with
  | Some _, Some _ => Err (Engine_ MainWithFinalExpression)
  | Some main_decl, None =>
      let? names := main_param_names main_decl in
      Ok (mkMainEntry (mkCompilationUnit (Ast.decls program) (Some (XVar (mkVar Span_default "main")))) names)
  | None, Some body => Ok (mkMainEntry (mkCompilationUnit (Ast.decls program) (Some body)) [])
  | None, None => Err (Engine_ MissingMain)
  end.

(** The loop of [main_signature_for_type], with the inputs so far. *)
Fixpoint take_main_inputs (declared : nat) (param_names : list string) (inputs : list MainInputSpec) (cur : ty)
    : result LoadError MainSignature :=
  match param_names with
  | [] => Ok (mkMainSignature inputs cur)
  | name :: param_names =>
      match cur with
      | TFun param ret => take_main_inputs declared param_names (inputs ++ [mkMainInput name param]) ret
      | _ => Err (Engine_ (MainArityMismatch declared (length inputs)))
      end
  end.
Definition main_signature_for_type (param_names : list string) (typ : ty) : result LoadError MainSignature :=
  take_main_inputs (length param_names) param_names [] typ.

(** * Loading, as a computation on the world *)

Section Loading.
Context {E I X : Type} {engine_ops : LoadEngine E I}.

Record World : Type := mkWorld { engine : E; load_state : ModuleLoadState; outside : Outside I X }.

(** [None] is "no answer yet", of too little fuel. *)
Definition Loading (A : Type) : Type := World -> option (result LoadError A * World).

Definition lret {A} (a : A) : Loading A := fun w => Some (Ok a, w).
Definition lerr {A} (e : LoadError) : Loading A := fun w => Some (Err e, w).
Definition lbind {A B} (m : Loading A) (k : A -> Loading B) : Loading B := fun w =>
  match m w with
  | None => None
  | Some (Err e, w) => Some (Err e, w)
  | Some (Ok a, w) => k a w
  end.
Notation "'let*' x ':=' m 'in' k" := (lbind m (fun x => k)) (at level 10, x pattern, m at level 100, k at level 200).

Definition llift {A} (r : result LoadError A) : Loading A := fun w => Some (r, w).
Definition out_of_fuel {A} : Loading A := fun _ => None.

Definition on_engine {A} (f : E -> result LoadError A * E) : Loading A := fun w =>
  let '(r, e) := f (engine w) in Some (r, mkWorld e (load_state w) (outside w)).
Definition on_load_state (f : ModuleLoadState -> ModuleLoadState) : Loading unit := fun w =>
  Some (Ok tt, mkWorld (engine w) (f (load_state w)) (outside w)).
Definition on_outside {A} (f : Outside I X -> result LoadError A * Outside I X) : Loading A := fun w =>
  let '(r, o) := f (outside w) in Some (r, mkWorld (engine w) (load_state w) o).

Definition get_loader : Loading ModuleLoaderState := fun w => Some (Ok (module_loader (engine w)), w).
Definition on_loader (f : ModuleLoaderState -> ModuleLoaderState) : Loading unit :=
  on_engine (fun e => (Ok tt, set_module_loader (f (module_loader e)) e)).
Definition get_load_state : Loading ModuleLoadState := fun w => Some (Ok (load_state w), w).

Definition inject_decls (d : Declarations) : Loading unit := on_engine (engine_inject_decls d).
Definition publish_runtime_interfaces (d : Declarations) : Loading unit := on_engine (engine_publish_runtime_interfaces d).
Definition inject_module_export (module_name : string) (e : Export I) : Loading unit :=
  on_engine (engine_inject_module_export module_name e).

(** [for x in l { f(x)?; }] *)
Fixpoint each {A} (f : A -> Loading unit) (l : list A) : Loading unit :=
  match l with
  | [] => lret tt
  | x :: l => let* _ := f x in each f l
  end.

Definition insert_loaded (id : ModuleId) (exports : ModuleExports) (ls : ModuleLoadState) : ModuleLoadState :=
  mkLoadState (resolved_modules ls) (<[id := exports]> (loaded ls)) (loading ls).
Definition insert_loading (id : ModuleId) (ls : ModuleLoadState) : ModuleLoadState :=
  mkLoadState (resolved_modules ls) (loaded ls) ({[ id ]} ∪ loading ls).
Definition remove_loading (id : ModuleId) (ls : ModuleLoadState) : ModuleLoadState :=
  mkLoadState (resolved_modules ls) (loaded ls) (loading ls ∖ {[ id ]}).

(** * Modules written in Rust *)

(** [str::trim_start], by the encodings of the characters that it removes. *)
Fixpoint trim_prefixes (chars : list string) (n : nat) (s : string) : string :=
  match n with
  | O => s
  | S n =>
      match List.find (fun w => String.prefix w s) chars with
      | Some w => trim_prefixes chars n (String.substring (String.length w) (String.length s - String.length w) s)
      | None => s
      end
  end.
Definition trim (s : string) : string :=
  let t := trim_prefixes whitespace_chars (String.length s) s in
  String.rev (trim_prefixes (map String.rev whitespace_chars) (String.length t) (String.rev t)).

Definition ROOT_MODULE_NAME : string := "__root__".

Definition module_local_type_names_from_declarations (d : Declarations) : gset Symbol :=
  list_to_set (map type_decl_name (d_types d)).

Record InstalledRustModule : Type := mkInstalled {
  installed_id : ModuleId;
  installed_exports : ModuleExports;
  installed_package : CompilationPackage
}.

Definition lift_id {A} (r : result ModuleIdError A) : Loading A :=
  llift (match r with Ok a => Ok a | Err e => Err (InvalidModuleId e) end).

(** The package that stands for a module: its declarations, and the interfaces of its
    functions. *)
Definition rust_package (m : RustModule I) : CompilationPackage :=
  let d := module_declarations m in
  mkPackage (mkDeclarations (d_types d) (d_fns d)
               (d_declare_fns d ++ map export_interface (rust_internals m ++ rust_exports m))
               (d_imports d) (d_classes d) (d_instances d))
    None (rust_docs m).

(** [install_named_rust_module] *)
Definition install_named_rust_module (expected_id : ModuleId) (m : RustModule I) : Loading InstalledRustModule :=
  let module_name := trim (rust_name m) in
  if bool_decide (module_name = "") then lerr (internal "module name cannot be empty")
  else if bool_decide (module_name = ROOT_MODULE_NAME) then lerr (internal "importers cannot return the root module")
  else
    let* module_id := lift_id (ModuleId_parse module_name) in
    if bool_decide (module_id <> expected_id)
    then lerr (internal ("importer returned Rust module `" +:+ ModuleId_show module_id +:+ "` for requested module `"
                         +:+ ModuleId_show expected_id +:+ "`"))
    else
      let package := rust_package m in
      let* _ := on_loader (add_local_type_names module_name (module_local_type_names_from_declarations (package_decls package))) in
      let prefix := prefix_for_module module_id in
      let exports := exports_from_package package prefix module_id in
      let qualified := qualify_package package prefix in
      let interfaces := interface_decls_from_package qualified in
      let* _ := on_loader (add_module_exports module_id exports) in
      let* _ := on_loader (add_module_interface module_id interfaces) in
      let* _ := on_loader (add_virtual_module module_name package) in
      let* _ := each (inject_module_export module_name) (rust_internals m) in
      let* _ := each (inject_module_export module_name) (filter (fun e => export_is_value e = false) (rust_exports m)) in
      let* _ := inject_decls (package_decls qualified) in
      let* _ := each (inject_module_export module_name) (filter (fun e => export_is_value e = true) (rust_exports m)) in
      let* _ := on_loader (add_injected_module module_name) in
      lret (mkInstalled module_id exports package).

Definition inject_adt (adt : AdtDecl) : Loading unit := on_engine (engine_inject_adt adt).

(** [Builder::inject_module], given the importers of the builder, and giving them with the
    one for the module. *)
Definition inject_module (system : list (Importer I X)) (m : RustModule I) : Loading (list (Importer I X)) :=
  let module_name := trim (rust_name m) in
  if bool_decide (module_name = "") then lerr (internal "module name cannot be empty")
  else
    let is_global := bool_decide (module_name = ROOT_MODULE_NAME) in
    let* l := get_loader in
    if negb is_global && bool_decide (module_name ∈ injected_modules l)
    then lerr (internal ("module `" +:+ module_name +:+ "` already injected"))
    else if is_global then
      let* _ := each inject_adt (map staged_adt (rust_adts m)) in
      let d := module_declarations m in
      let* _ := each (inject_module_export ROOT_MODULE_NAME) (rust_internals m) in
      let* _ := each (inject_module_export ROOT_MODULE_NAME) (filter (fun e => export_is_value e = false) (rust_exports m)) in
      let* _ := inject_decls (mkDeclarations [] (d_fns d) (d_declare_fns d) (d_imports d) (d_classes d) (d_instances d)) in
      let* _ := each (inject_module_export ROOT_MODULE_NAME) (filter (fun e => export_is_value e = true) (rust_exports m)) in
      lret system
    else
      let* module_id := lift_id (ModuleId_parse module_name) in
      let* installed := install_named_rust_module module_id m in
      let resolved := mkResolved (installed_id installed) (Package (installed_package installed)) in
      lret (prepend_importer system (StaticModuleImporter (installed_id installed) resolved)).

(** * Packages *)

Section Load.
(** [rex_parser::parse], and the importers. *)
Context (parse_rex : string -> result (list ParseError) CompilationUnit) (chain : list (Importer I X)).

Definition parse_program_from_source (source : string) (context : option ModuleId) : result LoadError CompilationUnit :=
  match parse_rex source with
  | Err errs => Err (match context with Some id => ParseInModule id errs | None => Parse errs end)
  | Ok program =>
      match context, Ast.body program with
      | Some module, Some _ => Err (ModuleFailed (TopLevelExprInModule module))
      | _, _ => Ok program
      end
  end.

Definition package_from_resolved (resolved : ResolvedModule) : result LoadError CompilationPackage :=
  match resolved_content resolved with
  | Source source =>
      let? program := parse_program_from_source source (Some (resolved_id resolved)) in
      Ok (from_compilation_unit program)
  | Package package =>
      match package_body package with
      | Some _ => Err (ModuleFailed (TopLevelExprInModule (resolved_id resolved)))
      | None => Ok package
      end
  | RustBacked _ =>
      Err (internal ("Rust module `" +:+ ModuleId_show (resolved_id resolved)
                     +:+ "` must be installed before extracting a program"))
  end.

(** [ModuleLoadState::import] *)
Definition import (request : ImportRequest) : Loading ResolvedModule := fun w =>
  let ls := load_state w in
  let '(r, c, o) := cache_import chain request (resolved_modules ls) (outside w) in
  Some (r, mkWorld (engine w) (mkLoadState c (loaded ls) (loading ls)) o).

(** [ensure_cycle_interfaces_published_parts] *)
Definition ensure_cycle_interfaces_published (module_id : ModuleId) : Loading unit :=
  let* l := get_loader in
  if decide (module_id ∈ published_cycle_interfaces l) then lret tt
  else match module_interface_cache l !! module_id with
       | None => lret tt
       | Some decls =>
           let* _ := inject_decls decls in
           let* _ := publish_runtime_interfaces decls in
           on_loader (add_published module_id)
       end.

(** [module_name.rsplit('.').next()] *)
Definition default_import_alias (module_name : string) : string := default module_name (last (split_dot module_name)).

(** The default imports that a package does not have an alias for. *)
Definition missing_defaults (package : CompilationPackage) (default_imports : list string) : list string :=
  filter (fun m => contains_import_alias_in_declarations (package_decls package) (default_import_alias m) = false) default_imports.

Definition graph_imports_for_package (package : CompilationPackage) (default_imports : list string) : list ImportDecl :=
  d_imports (package_decls package) ++ map default_import_decl (missing_defaults package default_imports).

(** A default import binds the names that nothing else does. *)
Definition bind_default (forbidden : gset Symbol) (exports : list (Symbol * CanonicalSymbol)) (bound : gmap Symbol CanonicalSymbol)
    : gmap Symbol CanonicalSymbol :=
  foldl (fun bound e =>
           if decide (e.1 ∉ forbidden /\ bound !! e.1 = None) then <[e.1 := e.2]> bound else bound) bound exports.

Definition add_default_bindings (local_values local_types : gset Symbol) (exports : ModuleExports) (b : ImportBindings) : ImportBindings :=
  mkBindings (alias_exports b)
    (bind_default local_values (export_values exports) (imported_values b))
    (bind_default local_types (export_types exports) (imported_types b))
    (bind_default local_types (export_classes exports) (imported_classes b)).

Definition lift_module {A} (r : result ModuleError A) : Loading A :=
  llift (match r with Ok a => Ok a | Err e => Err (ModuleFailed e) end).

(** * Loading *)

Section Recursive.
(** [load_module_types_via_scc], which the rest calls again. *)
Variable via_scc : ResolvedModule -> Loading ModuleExports.

Definition load_from_resolved (resolved : ResolvedModule) : Loading ModuleExports :=
  let id := resolved_id resolved in
  let* ls := get_load_state in
  match loaded ls !! id with
  | Some exports => lret exports
  | None =>
      match (if decide (id ∈ loading ls) then loaded ls !! id else None) with
      | Some exports => lret exports
      | None =>
          match resolved_content resolved with
          | RustBacked cell =>
              let* m := on_outside (take_rust_module cell) in
              let* installed := install_named_rust_module id m in
              let* _ := on_load_state (insert_loaded (installed_id installed) (installed_exports installed)) in
              lret (installed_exports installed)
          | _ => via_scc resolved
          end
      end
  end.

Definition resolve_module_exports_for_rewrite (import_decl : ImportDecl) (importer : option ModuleId) : Loading ModuleExports :=
  let* module_id := lift_id (import_specifier (import_path_ import_decl)) in
  let* imported := import (mkImportRequest module_id importer) in
  let* l := get_loader in
  match module_exports_cache l !! resolved_id imported with
  | Some exports =>
      let* _ := ensure_cycle_interfaces_published (resolved_id imported) in
      lret exports
  | None => load_from_resolved imported
  end.

Fixpoint bind_imports (local_values local_types : gset Symbol) (importer : option ModuleId) (imports : list ImportDecl)
    (b : ImportBindings) : Loading ImportBindings :=
  match imports with
  | [] => lret b
  | import_decl :: imports =>
      let* exports := resolve_module_exports_for_rewrite import_decl importer in
      let* b := lift_module (add_import_bindings local_values local_types import_decl exports b) in
      bind_imports local_values local_types importer imports b
  end.

Fixpoint bind_default_imports (local_values local_types : gset Symbol) (importer : option ModuleId) (names : list string)
    (b : ImportBindings) : Loading ImportBindings :=
  match names with
  | [] => lret b
  | module_name :: names =>
      let* exports := resolve_module_exports_for_rewrite (default_import_decl module_name) importer in
      bind_default_imports local_values local_types importer names (add_default_bindings local_values local_types exports b)
  end.

(** [rewrite_package_with_imports] *)
Definition rewrite_package_with_imports (package : CompilationPackage) (importer : option ModuleId) (prefix : string)
    : Loading CompilationPackage :=
  let local_values := decl_value_names_from_declarations (package_decls package) in
  let local_types := decl_type_names_from_declarations (package_decls package) in
  let* b := bind_imports local_values local_types importer (d_imports (package_decls package)) no_bindings in
  let* l := get_loader in
  let* b := bind_default_imports local_values local_types importer (missing_defaults package (default_imports l)) b in
  let qualified := qualify_package package prefix in
  let* _ := lift_module (validate_import_uses_package qualified (alias_exports b) None) in
  lret (rewrite_import_uses_package qualified
          (mkScope (alias_exports b) (imported_values b) (imported_types b) (imported_classes b) (Some local_types) None)).

(** * Modules that wait for their group *)

Record PendingModule : Type := mkPending {
  pending_resolved : ResolvedModule;
  pending_package : CompilationPackage;
  pending_prefix : string
}.

(** What is pending, the imports between modules, and the stack, its top first. *)
Fixpoint visit_imports (id : ModuleId) (pending : gmap ModuleId PendingModule) (imports : list ImportDecl)
    (edges : gmap ModuleId (list ModuleId)) (stack : list ResolvedModule)
    : Loading (gmap ModuleId (list ModuleId) * list ResolvedModule) :=
  match imports with
  | [] => lret (edges, stack)
  | import_decl :: imports =>
      let* module_id := lift_id (import_specifier (import_path_ import_decl)) in
      let* imported := import (mkImportRequest module_id (Some id)) in
      if is_rust (resolved_content imported)
      then
        let* _ := load_from_resolved imported in
        visit_imports id pending imports edges stack
      else
        let edges := <[id := default [] (edges !! id) ++ [resolved_id imported]]> edges in
        let* ls := get_load_state in
        let wanted := (bool_decide (resolved_id imported ∈ loading ls) || bool_decide (loaded ls !! resolved_id imported = None))
                      && bool_decide (pending !! resolved_id imported = None) in
        visit_imports id pending imports edges (if wanted then imported :: stack else stack)
  end.

(** A module is parsed, its exports and its interface are known, and it is pending. *)
Definition open_module (resolved : ResolvedModule) : Loading PendingModule :=
  let id := resolved_id resolved in
  let prefix := prefix_for_module id in
  let* package := llift (package_from_resolved resolved) in
  let exports := exports_from_package package prefix id in
  let* _ := on_load_state (insert_loaded id exports) in
  let* _ := on_load_state (insert_loading id) in
  let* _ := match resolved_content resolved with
            | Source source => on_loader (add_module_source id source)
            | _ => lret tt
            end in
  let qualified := qualify_package package prefix in
  let* _ := on_loader (add_module_interface id (interface_decls_from_package qualified)) in
  lret (mkPending resolved package prefix).

(** [while let Some(resolved) = stack.pop()] *)
Fixpoint discover (fuel : nat) (pending : gmap ModuleId PendingModule) (edges : gmap ModuleId (list ModuleId))
    (stack : list ResolvedModule) : Loading (gmap ModuleId PendingModule * gmap ModuleId (list ModuleId)) :=
  match stack, fuel with
  | [], _ => lret (pending, edges)
  | _, O => out_of_fuel
  | resolved :: stack, S fuel =>
      let id := resolved_id resolved in
      let* ls := get_load_state in
      if bool_decide (is_Some (pending !! id)) then discover fuel pending edges stack
      else if bool_decide (is_Some (loaded ls !! id) /\ id ∉ loading ls) then discover fuel pending edges stack
      else
        let* node := open_module resolved in
        let* l := get_loader in
        let* (edges, stack) := visit_imports id pending (graph_imports_for_package (pending_package node) (default_imports l)) edges stack in
        discover fuel (<[id := node]> pending) edges stack
  end.

(** One module of a group. *)
Definition link_module (pending : gmap ModuleId PendingModule) (module_id : ModuleId) : Loading unit :=
  match pending !! module_id with
  | None => lerr (internal "missing pending module node")
  | Some node =>
      let* rewritten := rewrite_package_with_imports (pending_package node) (Some (resolved_id (pending_resolved node))) (pending_prefix node) in
      inject_decls (package_decls rewritten)
  end.

(** The modules of a group that import one another see each other's interfaces first. *)
Definition link_group (pending : gmap ModuleId PendingModule) (component : list ModuleId) : Loading unit :=
  let* _ := if 1 <? length component then each ensure_cycle_interfaces_published component else lret tt in
  let* _ := each (link_module pending) component in
  each (fun id => on_load_state (remove_loading id)) component.

(** The order of the keys of a [BTreeMap]. *)
Fixpoint segments_leb (s t : list string) : bool :=
  match s, t with
  | [], _ => true
  | _ :: _, [] => false
  | x :: s, y :: t =>
      match String.compare x y with
      | Lt => true
      | Gt => false
      | Eq => segments_leb s t
      end
  end.
Definition module_le (a b : ModuleId) : Prop := segments_leb (id_segments a) (id_segments b) = true.
#[global] Instance module_le_dec : RelDecision module_le := fun a b => decide (segments_leb (id_segments a) (id_segments b) = true).

Definition pending_keys (pending : gmap ModuleId PendingModule) : list ModuleId :=
  merge_sort module_le (elements (dom pending)).

Definition loaded_exports (message : string) (id : ModuleId) : Loading ModuleExports :=
  let* ls := get_load_state in
  match loaded ls !! id with Some exports => lret exports | None => lerr (internal message) end.

Definition load_via_scc (fuel : nat) (root : ResolvedModule) : Loading ModuleExports :=
  let* ls := get_load_state in
  match (if decide (resolved_id root ∉ loading ls) then loaded ls !! resolved_id root else None) with
  | Some exports => lret exports
  | None =>
      let* (pending, edges) := discover fuel ∅ ∅ [root] in
      if bool_decide (pending = ∅) then loaded_exports "missing module exports after SCC load" (resolved_id root)
      else
        let pending_ids := pending_keys pending in
        match tarjan_scc_module_ids (length pending_ids) pending_ids edges with
        | None => out_of_fuel
        | Some sccs =>
            let* _ := each (link_group pending) sccs in
            loaded_exports "missing root exports after SCC load" (resolved_id root)
        end
  end.
End Recursive.

(** The fuel bounds the calls that are open and the modules that one of them visits. *)
Fixpoint load_module_types_via_scc (fuel : nat) (root : ResolvedModule) : Loading ModuleExports :=
  match fuel with
  | O => out_of_fuel
  | S fuel => load_via_scc (load_module_types_via_scc fuel) (S fuel) root
  end.

Definition load_module_types_from_resolved (fuel : nat) (resolved : ResolvedModule) : Loading ModuleExports :=
  load_from_resolved (load_module_types_via_scc fuel) resolved.

(** [Compiler::rewrite_and_inject_package] *)
Definition rewrite_and_inject_package (fuel : nat) (package : CompilationPackage) (importer : option ModuleId) (prefix : string)
    : Loading CompilationPackage :=
  let* rewritten := rewrite_package_with_imports (load_module_types_via_scc fuel) package importer prefix in
  let* _ := inject_decls (package_decls rewritten) in
  lret rewritten.

(** [Compiler::compile_program], with the inference of types as an argument. *)
Definition compile_program (type_check : Expr -> Loading TypedExpr) (fuel : nat) (program : CompilationUnit) (module_id : ModuleId)
    : Loading (MainSignature * TypedExpr) :=
  let* entry := llift (main_entry_program program) in
  let* _ := on_load_state (fun _ => ModuleLoadState_default) in
  let package := from_compilation_unit (entry_program entry) in
  let* rewritten := rewrite_and_inject_package fuel package (Some module_id) (prefix_for_module module_id) in
  let* body := llift (match package_body rewritten with Some body => Ok body | None => Err (Engine_ (MissingBody "program")) end) in
  let* typed := type_check body in
  let* signature := llift (main_signature_for_type (entry_param_names entry) (typ_of typed)) in
  lret (signature, typed).

(** [Compiler::infer_snippet] *)
Definition infer_snippet {T} (infer_type : Expr -> Loading T) (fuel : nat) (source : string) (module_id : ModuleId) : Loading T :=
  let* program := llift (parse_program_from_source source None) in
  let* _ := on_load_state (fun _ => ModuleLoadState_default) in
  let package := from_compilation_unit program in
  let* rewritten := rewrite_and_inject_package fuel package (Some module_id) (prefix_for_module module_id) in
  let* body := llift (match package_body rewritten with Some body => Ok body | None => Err (Engine_ (MissingBody "snippet")) end) in
  infer_type body.

(** [Compiler::infer_module_with_importer], on the chain that ends with the importer; the
    type of a module written in Rust is the empty tuple, [unit_type]. *)
Definition infer_module {T} (infer_type : Expr -> Loading T) (unit_type : T) (fuel : nat) (request : ImportRequest) : Loading T :=
  let* _ := on_load_state (fun _ => ModuleLoadState_default) in
  let* resolved := import request in
  if is_rust (resolved_content resolved)
  then
    let* _ := load_module_types_from_resolved fuel resolved in
    lret unit_type
  else
    let id := resolved_id resolved in
    let* _ := on_load_state (insert_loading id) in
    let prefix := prefix_for_module id in
    let* package := llift (package_from_resolved resolved) in
    let* rewritten := rewrite_and_inject_package fuel package (Some id) prefix in
    let* result := infer_type (default (XTuple Span_default []) (package_body rewritten)) in
    let* _ := on_load_state (insert_loaded id (exports_from_package package prefix id)) in
    let* _ := on_load_state (remove_loading id) in
    lret result.

(** * Tooling *)

Record ToolingLoadedImport : Type := mkToolingImport {
  tooling_module_id : ModuleId;
  tooling_exports : ModuleExports;
  tooling_package : CompilationPackage;
  tooling_source : option string
}.

(** [load_import_for_tooling], on the chain that ends with the extra importer. *)
Definition load_import_for_tooling (fuel : nat) (import_decl : ImportDecl) (importer : option ModuleId) : Loading ToolingLoadedImport :=
  let* module_id := lift_id (import_specifier (import_path_ import_decl)) in
  let* resolved := import (mkImportRequest module_id importer) in
  let id := resolved_id resolved in
  let source := match resolved_content resolved with Source source => Some source | _ => None end in
  let* l := get_loader in
  let* exports := match module_exports_cache l !! id with
                  | Some exports => let* _ := ensure_cycle_interfaces_published id in lret exports
                  | None => load_module_types_from_resolved fuel resolved
                  end in
  let* l := get_loader in
  let* package := if is_rust (resolved_content resolved)
                  then match virtual_modules l !! ModuleId_show id with
                       | Some package => lret package
                       | None => lerr (internal ("missing virtual module metadata for Rust module `" +:+ ModuleId_show id +:+ "`"))
                       end
                  else llift (package_from_resolved resolved) in
  lret (mkToolingImport id exports package source).

End Load.

(** * Total correctness

    [wp m w Q]: from [w], [m] answers, and what it answers satisfies [Q]. *)

Definition wp {A} (m : Loading A) (w : World) (Q : result LoadError A -> World -> Prop) : Prop :=
  match m w with Some (r, w') => Q r w' | None => False end.

Lemma wp_mono {A} (m : Loading A) w (Q Q' : result LoadError A -> World -> Prop) :
  wp m w Q -> (forall r w', Q r w' -> Q' r w') -> wp m w Q'.
Proof using. unfold wp. destruct (m w) as [[r w']|]; eauto. Qed.

Lemma wp_and {A} (m : Loading A) w (Q Q' : result LoadError A -> World -> Prop) :
  wp m w Q -> wp m w Q' -> wp m w (fun r w' => Q r w' /\ Q' r w').
Proof using. unfold wp. destruct (m w) as [[r w']|]; eauto. Qed.

Lemma wp_ret {A} (a : A) w Q : Q (Ok a) w -> wp (lret a) w Q.
Proof using. done. Qed.

(** What follows starts from the state and the answer of what is before it; an error is
    the answer of the whole. *)
Lemma wp_bind {A B} (m : Loading A) (k : A -> Loading B) w Q :
  wp m w (fun r w' => match r with Ok a => wp (k a) w' Q | Err e => Q (Err e) w' end) -> wp (lbind m k) w Q.
Proof using. unfold wp, lbind. destruct (m w) as [[[a|e] w']|]; done. Qed.

(** The errors of the loader about itself. *)
Definition loader_error (e : LoadError) : Prop :=
  (exists id, e = missing_cached id) \/ e = internal "missing pending module node" \/
  e = internal "missing module exports after SCC load" \/ e = internal "missing root exports after SCC load".

Definition sound {A} (r : result LoadError A) : Prop := match r with Ok _ => True | Err e => ~ loader_error e end.

(** An operation of the engine keeps the state of the loader, and has errors of its own. *)
Definition keeps_loader (f : E -> result LoadError unit * E) : Prop :=
  forall e, module_loader (f e).2 = module_loader e /\ sound (f e).1.

Class LoadEngineLaws : Prop := {
  loader_of_set : forall l e, module_loader (set_module_loader l e) = l;
  inject_decls_keeps : forall d, keeps_loader (engine_inject_decls d);
  publish_keeps : forall d, keeps_loader (engine_publish_runtime_interfaces d);
  inject_export_keeps : forall n x, keeps_loader (engine_inject_module_export n x)
}.
Context {engine_laws : LoadEngineLaws}.

Definition imports_by_default (w : World) : list string := default_imports (module_loader (engine w)).

(** What the engine does is not seen in the tables of the loading. *)
Definition quiet (w w' : World) : Prop :=
  load_state w' = load_state w /\ outside w' = outside w /\ imports_by_default w' = imports_by_default w.

#[local] Instance quiet_po : PreOrder quiet.
Proof using. split; [done|]. intros w1 w2 w3 (? & ? & ?) (? & ? & ?). unfold quiet. intuition congruence. Qed.

Definition quietly {A} (m : Loading A) : Prop := forall w, wp m w (fun r w' => quiet w w' /\ sound r).

Lemma quietly_ret {A} (a : A) : quietly (lret a).
Proof using. done. Qed.
Lemma quietly_lift {A} (r : result LoadError A) : sound r -> quietly (llift r).
Proof using. done. Qed.
Lemma quietly_err {A} e : ~ loader_error e -> quietly (lerr (A := A) e).
Proof using. done. Qed.
Lemma quietly_get {A} (k : ModuleLoaderState -> Loading A) : (forall l, quietly (k l)) -> quietly (lbind get_loader k).
Proof using. intros Hk w. apply wp_bind, Hk. Qed.

Lemma wp_quiet {A B} (m : Loading A) (k : A -> Loading B) w Q :
  quietly m -> (forall e w', quiet w w' -> ~ loader_error e -> Q (Err e) w') ->
  (forall a w', quiet w w' -> wp (k a) w' Q) -> wp (lbind m k) w Q.
Proof using. intros Hm He Hk. apply wp_bind. eapply wp_mono; [apply Hm|]. intros [a|e] w' [? ?]; eauto. Qed.

Lemma quietly_bind {A B} (m : Loading A) (k : A -> Loading B) : quietly m -> (forall a, quietly (k a)) -> quietly (lbind m k).
Proof using.
  intros Hm Hk w. apply wp_quiet; [done|done|]. intros a w' Hq. eapply wp_mono; [apply Hk|]. intros r w2 [? ?].
  split; [by etrans|done].
Qed.

Lemma quietly_each {A} (f : A -> Loading unit) l : (forall x, quietly (f x)) -> quietly (each f l).
Proof using. intros Hf. induction l as [|x l IH]; [apply quietly_ret|]. by apply quietly_bind. Qed.

Lemma quietly_engine f : keeps_loader f -> quietly (on_engine f).
Proof using.
  intros Hf w. unfold wp, on_engine. destruct (f (engine w)) as [r e] eqn:Ef. destruct (Hf (engine w)) as [Hl Hs].
  rewrite Ef in Hl, Hs. simpl in Hl, Hs. split; [|done]. unfold quiet, imports_by_default. simpl. by rewrite Hl.
Qed.

Lemma quietly_loader f : (forall l, default_imports (f l) = default_imports l) -> quietly (on_loader f).
Proof using engine_laws.
  intros Hf w. unfold wp, on_loader, on_engine. simpl. split; [|done]. unfold quiet, imports_by_default. simpl.
  by rewrite loader_of_set, Hf.
Qed.

Create HintDb quiet.
#[local] Hint Resolve quietly_ret quietly_engine quietly_loader inject_decls_keeps publish_keeps inject_export_keeps quietly_each : quiet.
#[local] Hint Extern 1 (quietly (lbind _ _)) => apply quietly_bind : quiet.

Ltac other_error := intros [[? [=]]|[[=]|[[=]|[=]]]].

Lemma quietly_ensure id : quietly (ensure_cycle_interfaces_published id).
Proof using engine_laws.
  apply quietly_get. intros l. destruct (decide _); [auto with quiet|]. destruct (_ !! _) as [d|]; [|auto with quiet].
  unfold inject_decls, publish_runtime_interfaces. auto 8 with quiet.
Qed.

Lemma quietly_id {A} (r : result ModuleIdError A) : quietly (lift_id r).
Proof using. destruct r; [apply quietly_ret|]. apply quietly_err. other_error. Qed.
Lemma quietly_module {A} (r : result ModuleError A) : quietly (lift_module r).
Proof using. destruct r; [apply quietly_ret|]. apply quietly_err. other_error. Qed.

Lemma quietly_install id m : quietly (install_named_rust_module id m).
Proof using engine_laws.
  unfold install_named_rust_module. destruct (bool_decide _); [apply quietly_err; other_error|].
  destruct (bool_decide _); [apply quietly_err; other_error|]. apply quietly_bind; [apply quietly_id|]. intros mid.
  destruct (bool_decide _); [apply quietly_err; other_error|]. unfold inject_decls, inject_module_export. auto 20 with quiet.
Qed.

(** What was installed is what was asked for. *)
Lemma install_expected id m w : wp (install_named_rust_module id m) w
  (fun r _ => match r with Ok i => installed_id i = id | Err _ => True end).
Proof using engine_laws.
  unfold install_named_rust_module. destruct (bool_decide _); [done|]. destruct (bool_decide _); [done|].
  apply wp_quiet; [apply quietly_id|done|]. intros mid w1 _.
  destruct (bool_decide (mid <> id)) eqn:E1; [done|]. apply bool_decide_eq_false, dec_stable in E1 as ->.
  unfold inject_decls, inject_module_export. repeat (apply wp_quiet; [auto with quiet|done|intros ? ? _]). done.
Qed.

(** * The cache *)

Definition cache_ok (c : ResolvedModuleCache) : Prop :=
  (forall key id, requests c !! key = Some id -> is_Some (modules c !! id)) /\
  (forall id r, modules c !! id = Some r -> resolved_id r = id).

(** The later cache has what the earlier one has. *)
Definition cache_extends (c c' : ResolvedModuleCache) : Prop := requests c ⊆ requests c' /\ modules c ⊆ modules c'.

#[local] Instance cache_extends_po : PreOrder cache_extends.
Proof using. split; [done|]. intros c1 c2 c3 [? ?] [? ?]. split; by etrans. Qed.

(** The answer of a request is known. *)
Definition cached (c : ResolvedModuleCache) (request : ImportRequest) (r : ResolvedModule) : Prop :=
  requests c !! request_key request = Some (resolved_id r) /\ modules c !! resolved_id r = Some r.

Lemma cached_extends c c' request r : cache_extends c c' -> cached c request r -> cached c' request r.
Proof using. intros [Hr Hm] [? ?]. split; by eapply lookup_weaken. Qed.

Lemma cached_import chain c o request r : cached c request r -> cache_import (I := I) (X := X) chain request c o = (Ok r, c, o).
Proof using. intros [Hk Hm]. unfold cache_import. by rewrite Hk, Hm. Qed.

(** Answers come from a set of modules, and errors are the importers' own. *)
Definition answers (U : gset ModuleId) (i : Importer I X) : Prop :=
  forall req o, match (i req o).1 with
                | Ok (Some r) => resolved_id r ∈ U
                | Ok None => True
                | Err e => ~ loader_error e
                end.

Lemma chain_answers U chain : Forall (answers U) chain -> forall req o,
  match (chain_import chain req o).1 with Ok r => resolved_id r ∈ U | Err e => ~ loader_error e end.
Proof using.
  induction 1 as [|i chain Hi Hc IH]; intros req o; simpl; [other_error|]. specialize (Hi req o).
  destruct (i req o) as [[[r|]|e] o']; simpl in *; [done|apply IH|done].
Qed.

Definition modules_in (U : gset ModuleId) (c : ResolvedModuleCache) : Prop := forall id r, modules c !! id = Some r -> id ∈ U.

(** What an import gives: a sound cache that extends the old one, and knows the answer. *)
Definition import_ok (U : gset ModuleId) (request : ImportRequest) (c : ResolvedModuleCache)
    (x : result LoadError ResolvedModule * ResolvedModuleCache * Outside I X) : Prop :=
  cache_ok x.1.2 /\ modules_in U x.1.2 /\ cache_extends c x.1.2 /\
  match x.1.1 with Ok r => cached x.1.2 request r | Err e => ~ loader_error e end.

Lemma known_import_ok U request c r (o : Outside I X) : cache_ok c -> modules_in U c -> requests c !! request_key request = None ->
  modules c !! resolved_id r = Some r ->
  import_ok U request c (Ok r, mkCache (<[request_key request := resolved_id r]> (requests c)) (modules c), o).
Proof using.
  intros [Hc1 Hc2] HM Hk Hr. unfold import_ok. simpl. split_and!; [split; [|done]|done|split; [|done]|split; [|done]]; simpl.
  - intros key id [[_ <-]|[_ ?]]%lookup_insert_Some; eauto.
  - by apply insert_subseteq.
  - apply lookup_insert_eq.
Qed.

Lemma ask_importers_ok U chain request c o : Forall (answers U) chain -> cache_ok c -> modules_in U c ->
  requests c !! request_key request = None -> import_ok U request c (ask_importers chain request c o).
Proof using.
  intros HU Hc HM Hk. unfold ask_importers. pose proof (chain_answers U chain HU request o) as Ha.
  destruct (chain_import chain request o) as [[r|e] o']; simpl in Ha; [|by split_and!].
  pose proof Hc as [Hc1 Hc2]. destruct (modules c !! resolved_id r) as [r'|] eqn:Em.
  - pose proof (Hc2 _ _ Em) as Hid. apply known_import_ok; [done..|]. by rewrite Hid.
  - unfold import_ok. simpl. split_and!; [split| |split|split]; simpl.
    + intros key id Hid. destruct (decide (id = resolved_id r)) as [->|]; [rewrite lookup_insert_eq; by eexists|].
      rewrite lookup_insert_ne by done. apply lookup_insert_Some in Hid as [[_ <-]|[_ ?]]; [done|eauto].
    + intros id r' Hid. simpl in Hid. apply lookup_insert_Some in Hid as [[<- <-]|[_ ?]]; eauto.
    + intros id r' Hid. simpl in Hid. apply lookup_insert_Some in Hid as [[<- <-]|[_ ?]]; eauto.
    + by apply insert_subseteq.
    + by apply insert_subseteq.
    + apply lookup_insert_eq.
    + apply lookup_insert_eq.
Qed.

Lemma cache_import_ok U chain request c o : Forall (answers U) chain -> cache_ok c -> modules_in U c ->
  import_ok U request c (cache_import chain request c o).
Proof using.
  intros HU Hc HM. unfold cache_import. destruct (requests c !! request_key request) as [id|] eqn:Ek.
  - destruct Hc as [Hc1 Hc2]. destruct (Hc1 _ _ Ek) as [r Hr]. rewrite Hr. pose proof (Hc2 _ _ Hr) as <-. by split_and!.
  - destruct (request_importer request) eqn:Ei; [by apply ask_importers_ok|].
    destruct (modules c !! request_module_id request) as [r|] eqn:Em; [|by apply ask_importers_ok].
    apply known_import_ok; [done..|]. pose proof Hc as [_ Hc2]. by rewrite (Hc2 _ _ Em).
Qed.

(** * Finding modules *)

Section Finding.
Context (parse_rex : string -> result (list ParseError) CompilationUnit) (chain : list (Importer I X)) (U : gset ModuleId).

Lemma wp_get_state {A} (k : ModuleLoadState -> Loading A) w Q : wp (k (load_state w)) w Q -> wp (lbind get_load_state k) w Q.
Proof using. done. Qed.

Lemma wp_get_loader {A} (k : ModuleLoaderState -> Loading A) w Q :
  wp (k (module_loader (engine w))) w Q -> wp (lbind get_loader k) w Q.
Proof using. done. Qed.

Definition cache (w : World) : ResolvedModuleCache := resolved_modules (load_state w).
Definition tables (w : World) : gmap ModuleId ModuleExports := loaded (load_state w).

Definition known (w : World) : Prop := cache_ok (cache w) /\ modules_in U (cache w).

(** More is known, the same modules are being loaded. *)
Definition advances (w w' : World) : Prop :=
  known w' /\ cache_extends (cache w) (cache w') /\ tables w ⊆ tables w' /\
  loading (load_state w') = loading (load_state w) /\ imports_by_default w' = imports_by_default w.

Lemma advances_refl w : known w -> advances w w.
Proof using. by intros ?. Qed.
Lemma advances_trans w1 w2 w3 : advances w1 w2 -> advances w2 w3 -> advances w1 w3.
Proof using.
  intros (? & ? & ? & ? & ?) (? & ? & ? & ? & ?). split; [done|]. split; [by etrans|]. split; [by etrans|]. split; congruence.
Qed.
Lemma quiet_advances w w' : known w -> quiet w w' -> advances w w'.
Proof using. intros Hk (Hs & _ & Hi). unfold advances, known, cache, tables. by rewrite Hs. Qed.

(** An import of module [id]: the module that it names is known. A module in Rust has been
    installed; another one is an edge, and has been opened or waits. *)
Definition found (w : World) (edges : gmap ModuleId (list ModuleId)) (waiting : list ModuleId) (id : ModuleId) (d : ImportDecl) : Prop :=
  exists mid r, import_specifier (import_path_ d) = Ok mid /\ cached (cache w) (mkImportRequest mid (Some id)) r /\
    ((is_rust (resolved_content r) = true /\ is_Some (tables w !! resolved_id r)) \/
     (is_rust (resolved_content r) = false /\ resolved_id r ∈ default [] (edges !! id) /\
      (is_Some (tables w !! resolved_id r) \/ resolved_id r ∈ waiting))).

(** Edges are only added. *)
Definition more_edges (edges edges' : gmap ModuleId (list ModuleId)) : Prop :=
  forall id, default [] (edges !! id) ⊆ default [] (edges' !! id).

Lemma more_edges_trans a b c : more_edges a b -> more_edges b c -> more_edges a c.
Proof using. intros Ha Hb id x ?. by apply Hb, Ha. Qed.

Lemma found_more w w' edges edges' waiting waiting' id d :
  cache_extends (cache w) (cache w') -> (forall q, is_Some (tables w !! q) -> is_Some (tables w' !! q)) ->
  more_edges edges edges' -> (forall q, q ∈ waiting -> q ∈ waiting' \/ is_Some (tables w' !! q)) ->
  found w edges waiting id d -> found w' edges' waiting' id d.
Proof using.
  intros Hc Ht He Hw (mid & r & Hm & Hr & Hq). exists mid, r. split; [done|]. split; [by eapply cached_extends|].
  destruct Hq as [[? ?]|(? & ? & [?|Hwait])]; [left; auto|right..]; (split; [done|split; [by apply He|auto]]).
  destruct (Hw _ Hwait); auto.
Qed.

Section Answering.
Hypothesis HU : Forall (answers U) chain.

Lemma wp_import request w : known w ->
  wp (import chain request) w (fun r w' => advances w w' /\ tables w' = tables w /\
    match r with Ok m => cached (cache w') request m | Err e => ~ loader_error e end).
Proof using HU.
  intros [Hc HM]. unfold wp, import. pose proof (cache_import_ok U chain request _ (outside w) HU Hc HM) as H1.
  change (resolved_modules (load_state w)) with (cache w). destruct (cache_import chain request (cache w) (outside w)) as [[r c] o].
  destruct H1 as (? & ? & ? & Hr). split; [|split; [done|exact Hr]]. split; [by split|]. by split.
Qed.

(** A module in Rust is loaded by being installed. *)
Lemma wp_load_rust via m w : known w -> is_rust (resolved_content m) = true ->
  wp (load_from_resolved via m) w (fun r w' => advances w w' /\ sound r /\
    match r with Ok e => tables w' !! resolved_id m = Some e | Err _ => True end).
Proof using engine_laws.
  intros Hk Hr. unfold load_from_resolved. apply wp_get_state. cbv beta. change (loaded (load_state w)) with (tables w).
  destruct (tables w !! resolved_id m) as [e|] eqn:Et; [by split|]. replace (if decide _ then None else None) with (@None ModuleExports) by (by destruct (decide _)).
  destruct (resolved_content m) as [| |cell]; [done..|]. apply wp_bind. unfold wp at 1, on_outside.
  destruct (take_rust_module cell (outside w)) as [[rm|e] o] eqn:Ek; [|].
  2:{ split; [done|]. split; [|done]. unfold take_rust_module in Ek. destruct (rust_modules (outside w) !! cell) as [[?|]|]; simplify_eq; other_error. }
  set (w1 := mkWorld (engine w) (load_state w) o). apply wp_bind. eapply wp_mono; [apply wp_and; [apply quietly_install|apply install_expected]|].
  intros [i|e] w2 [[Hq Hs] Hi].
  - rewrite Hi. pose proof (quiet_advances w1 w2 Hk Hq) as (Hk2 & Hc2 & Ht2 & Hl2 & Hd2). destruct Hq as (Hs2 & _ & _).
    unfold wp, lbind, on_load_state, lret. simpl. unfold advances, known, cache, tables in *. simpl. rewrite Hs2 in *. simpl in *.
    split; [|split; [done|apply lookup_insert_eq]]. split; [done|]. split; [done|]. split; [by apply insert_subseteq|done].
  - split; [|done]. by apply (quiet_advances w1 w2).
Qed.

Lemma load_rust_via via via' m w : is_rust (resolved_content m) = true -> load_from_resolved via m w = load_from_resolved via' m w.
Proof using. intros Hr. unfold load_from_resolved. by destruct (resolved_content m). Qed.

Lemma lbind_ext {A B} (m m' : Loading A) (k k' : A -> Loading B) w :
  m w = m' w -> (forall a w, k a w = k' a w) -> lbind m k w = lbind m' k' w.
Proof using. intros Hm Hk. unfold lbind. rewrite Hm. destruct (m' w) as [[[a|e] w']|]; [apply Hk|done..]. Qed.

Lemma visit_imports_via via via' id pending imports edges stack w :
  visit_imports chain via id pending imports edges stack w = visit_imports chain via' id pending imports edges stack w.
Proof using.
  revert edges stack w. induction imports as [|d imports IH]; intros edges stack w; [done|]. cbn [visit_imports].
  apply lbind_ext; [done|]. intros mid w1. apply lbind_ext; [done|]. intros m w2. destruct (is_rust (resolved_content m)) eqn:Er.
  - apply lbind_ext; [by apply load_rust_via|done].
  - apply lbind_ext; [done|]. intros ls w3. apply IH.
Qed.

(** The imports of [id] are found. *)
Lemma wp_visit_imports via id pending imports : forall edges stack w, known w ->
  (forall q, is_Some (pending !! q) -> is_Some (tables w !! q)) ->
  wp (visit_imports chain via id pending imports edges stack) w (fun r w' => advances w w' /\
    match r with
    | Ok (edges', stack') =>
        more_edges edges edges' /\ (exists new, stack' = new ++ stack /\ Forall (fun m => resolved_id m ∈ U) new) /\
        forall d, d ∈ imports -> found w' edges' (map resolved_id stack') id d
    | Err e => ~ loader_error e
    end).
Proof using HU engine_laws.
  induction imports as [|d imports IH]; intros edges stack w Hk Hp.
  { split; [by apply advances_refl|]. split; [by intros ? ?|]. split; [by exists []|by intros d ?%elem_of_nil]. }
  cbn [visit_imports]. apply wp_bind. unfold wp at 1, lift_id, llift. destruct (import_specifier _) as [mid|e] eqn:Eid.
  2:{ split; [by apply advances_refl|other_error]. }
  apply wp_bind. eapply wp_mono; [by apply wp_import|]. intros [m|e] w1 (Hadv & Ht1 & Hm); [|done].
  pose proof Hadv as (Hk1 & _). destruct (is_rust (resolved_content m)) eqn:Er.
  - apply wp_bind. eapply wp_mono; [by apply (wp_load_rust via)|]. intros [e|e] w2 (Hadv2 & Hs & Hl); [|by split; [eapply advances_trans|]].
    pose proof Hadv2 as (Hk2 & _ & Ht2 & _). eapply wp_mono; [apply IH; [done|]|].
    { intros q Hq. rewrite <- Ht1 in Hp. destruct (Hp q Hq) as [x Hx]. exists x. by eapply lookup_weaken. }
    intros r w3 [Hadv3 Hr]. split; [by eapply advances_trans; [eapply advances_trans|]|]. destruct r as [[edges' stack']|e']; [|done].
    destruct Hr as (He & Hn & Hf). split; [done|]. split; [done|]. intros d' [->|Hd]%elem_of_cons; [|by apply Hf].
    pose proof Hadv3 as (_ & Hc3 & Ht3 & _). pose proof Hadv2 as (_ & Hc2 & _). exists mid, m. split; [done|].
    split; [eapply cached_extends, cached_extends; eassumption|]. left. split; [done|]. exists e. by eapply lookup_weaken.
  - apply wp_get_state. cbv beta. set (edges1 := <[id := _]> edges).
    set (stack1 := if (_ && _)%bool then m :: stack else stack). eapply wp_mono; [apply IH; [done|by rewrite Ht1]|].
    intros r w3 [Hadv3 Hr]. split; [by eapply advances_trans|]. destruct r as [[edges' stack']|e']; [|done].
    destruct Hr as (He & (new & -> & Hn) & Hf). pose proof Hadv3 as (_ & Hc3 & Ht3 & _).
    assert (more_edges edges edges1 /\ resolved_id m ∈ default [] (edges1 !! id)) as [He1 Hin].
    { split; [|by (unfold edges1; rewrite lookup_insert_eq; simpl; apply elem_of_app; right; apply list_elem_of_singleton)].
      intros p x Hx. unfold edges1. destruct (decide (p = id)) as [->|]; [|by rewrite lookup_insert_ne].
      rewrite lookup_insert_eq. simpl. apply elem_of_app. by left. }
    assert (exists new1, stack1 = new1 ++ stack /\ Forall (fun m => resolved_id m ∈ U) new1 /\
              (is_Some (tables w1 !! resolved_id m) \/ resolved_id m ∈ map resolved_id stack1)) as (new1 & Hs1 & Hn1 & Hw).
    { pose proof Hm as [_ Hm2]. pose proof Hk1 as [_ HU1]. unfold stack1. destruct (_ && _)%bool eqn:Eb.
      - exists [m]. split; [done|]. split; [constructor; [by eapply HU1|done]|]. right. by left.
      - exists []. split; [done|]. split; [done|]. left. apply andb_false_iff in Eb as [[_ Eb]%orb_false_iff|Eb].
        + apply bool_decide_eq_false in Eb. by destruct (tables w1 !! resolved_id m) eqn:E1; [|done].
        + apply bool_decide_eq_false in Eb. rewrite Ht1. apply Hp. by destruct (pending !! resolved_id m). }
    split; [by eapply more_edges_trans|]. split; [exists (new ++ new1); rewrite Hs1, <- app_assoc; split; [done|by apply Forall_app]|].
    intros d' [->|Hd]%elem_of_cons; [|by apply Hf]. exists mid, m. split; [done|]. split; [by eapply cached_extends|].
    right. split; [done|]. split; [by apply He|]. destruct Hw as [[x Hx]|Hw]; [left; exists x; by eapply lookup_weaken|].
    right. rewrite map_app. apply elem_of_app. by right.
Qed.
(** What is pending was opened from a module, and its exports are known. *)
Record node_ok (w : World) (p : ModuleId) (node : PendingModule) : Prop := {
  node_id : resolved_id (pending_resolved node) = p;
  node_package : package_from_resolved parse_rex (pending_resolved node) = Ok (pending_package node);
  node_prefix : pending_prefix node = prefix_for_module p;
  node_exports : tables w !! p = Some (exports_from_package (pending_package node) (pending_prefix node) p)
}.

Lemma package_error r e : package_from_resolved parse_rex r = Err e -> ~ loader_error e.
Proof using.
  unfold package_from_resolved, parse_program_from_source. destruct (resolved_content r) as [s|p|c].
  - destruct (parse_rex s) as [u|errs]; simpl; [destruct (Ast.body u); simpl; [|done]|]; intros [= <-]; other_error.
  - destruct (package_body p); [|done]. intros [= <-]. other_error.
  - intros [= <-]. other_error.
Qed.

Lemma wp_open_module r w : known w -> wp (open_module parse_rex r) w (fun res w' =>
  match res with
  | Ok node => known w' /\ cache w' = cache w /\ imports_by_default w' = imports_by_default w /\
      loading (load_state w') = {[ resolved_id r ]} ∪ loading (load_state w) /\ pending_resolved node = r /\
      node_ok w' (resolved_id r) node /\ (forall q, q <> resolved_id r -> tables w' !! q = tables w !! q)
  | Err e => ~ loader_error e
  end).
Proof using engine_laws.
  intros Hk. unfold open_module. apply wp_bind. unfold wp at 1, llift. destruct (package_from_resolved parse_rex r) as [p|e] eqn:Ep.
  2:{ by eapply package_error. }
  set (prefix := prefix_for_module (resolved_id r)). set (exports := exports_from_package p prefix (resolved_id r)).
  apply wp_bind. unfold wp at 1, on_load_state. apply wp_bind. unfold wp at 1.
  match goal with |- wp _ ?w1 _ => set (w2 := w1) end.
  assert (forall w', quiet w2 w' ->
    known w' /\ cache w' = cache w /\ imports_by_default w' = imports_by_default w /\
      loading (load_state w') = {[ resolved_id r ]} ∪ loading (load_state w) /\ pending_resolved (mkPending r p prefix) = r /\
      node_ok w' (resolved_id r) (mkPending r p prefix) /\ (forall q, q <> resolved_id r -> tables w' !! q = tables w !! q)) as Hend.
  { intros w' (Hs & _ & Hi). unfold known, cache, tables. rewrite Hs. simpl. split; [done|]. split; [done|]. split; [done|]. split; [done|].
    split; [done|]. split; [|intros q Hq; by rewrite lookup_insert_ne]. split; [done|done|done|]. unfold tables. rewrite Hs. simpl. apply lookup_insert_eq. }
  apply wp_quiet; [destruct (resolved_content r); auto with quiet|done|]. intros _ w3 Hq3.
  apply wp_quiet; [auto with quiet|done|]. intros _ w4 Hq4. apply wp_ret, Hend. by etrans.
Qed.

(** The search from [root], begun at [w0]. *)
Record searching (w0 w : World) (pending : gmap ModuleId PendingModule) (edges : gmap ModuleId (list ModuleId))
    (stack : list ResolvedModule) (root : ResolvedModule) : Prop := {
  searching_known : known w;
  searching_loading : loading (load_state w) = loading (load_state w0) ∪ dom pending;
  searching_defaults : imports_by_default w = imports_by_default w0;
  searching_stack : Forall (fun m => resolved_id m ∈ U) stack;
  searching_pending : dom pending ⊆ U;
  searching_nodes : forall p node, pending !! p = Some node -> node_ok w p node /\
    forall d, d ∈ graph_imports_for_package (pending_package node) (imports_by_default w0) -> found w edges (map resolved_id stack) p d;
  searching_root : (exists node, pending !! resolved_id root = Some node /\ pending_resolved node = root) \/
                   (pending = ∅ /\ stack = [root] /\ w = w0)
}.

(** What is open already is passed over. *)
Lemma searching_skip w0 w pending edges r stack root : searching w0 w pending edges (r :: stack) root ->
  is_Some (tables w !! resolved_id r) -> (pending <> ∅ \/ w <> w0 \/ r <> root) -> searching w0 w pending edges stack root.
Proof using.
  intros [? ? ? Hs ? Hn Hr] Ht Hnot. split; [done..|by inversion Hs|done| |].
  - intros p node Hp. destruct (Hn p node Hp) as [? Hf]. split; [done|]. intros d Hd. eapply found_more; [done|done|by intros ? ?| |by apply Hf].
    intros q. simpl. intros [->|?]%elem_of_cons; auto.
  - destruct Hr as [?|(? & ? & ?)]; [by left|]. simplify_eq. tauto.
Qed.

(** What was known is, and what is pending. *)
Lemma opened_known w0 w pending edges r stack root node w1 :
  searching w0 w pending edges (r :: stack) root -> node_ok w1 (resolved_id r) node ->
  (forall q, q <> resolved_id r -> tables w1 !! q = tables w !! q) ->
  (forall q, is_Some (tables w !! q) -> is_Some (tables w1 !! q)) /\ (forall p, is_Some (pending !! p) -> is_Some (tables w1 !! p)).
Proof using.
  intros Hs Hok Ht. assert (forall q, is_Some (tables w !! q) -> is_Some (tables w1 !! q)) as Hdom.
  { intros q Hq. destruct (decide (q = resolved_id r)) as [->|]; [rewrite (node_exports _ _ _ Hok); by eexists|by rewrite Ht]. }
  split; [done|]. intros p [n Hp]. apply Hdom. destruct (searching_nodes _ _ _ _ _ _ Hs p n Hp) as [Hnok _].
  rewrite (node_exports _ _ _ Hnok). by eexists.
Qed.

Lemma searching_step w0 w pending edges r stack root via node w1 edges' stack' w2 :
  searching w0 w pending edges (r :: stack) root -> pending !! resolved_id r = None ->
  open_module parse_rex r w = Some (Ok node, w1) ->
  visit_imports chain via (resolved_id r) pending (graph_imports_for_package (pending_package node) (imports_by_default w1)) edges stack w1
    = Some (Ok (edges', stack'), w2) ->
  searching w0 w2 (<[resolved_id r := node]> pending) edges' stack' root.
Proof using HU engine_laws.
  intros [Hk Hl Hd Hs Hpu Hn Hr] Hnone Ho Hv. pose proof (wp_open_module r w Hk) as H1. unfold wp in H1. rewrite Ho in H1.
  destruct H1 as (Hk1 & Hc1 & Hd1 & Hl1 & Hres & Hok & Ht1).
  destruct (opened_known w0 w pending edges r stack root node w1) as [Hdom Hp1]; [by split|done..|].
  pose proof (wp_visit_imports via (resolved_id r) pending (graph_imports_for_package (pending_package node) (imports_by_default w1))
    edges stack w1 Hk1 Hp1) as H2. unfold wp in H2. rewrite Hv in H2. destruct H2 as [(Hk2 & Hc2 & Ht2 & Hl2 & Hd2) (He & (new & -> & Hnew) & Hf)].
  assert (forall q, is_Some (tables w1 !! q) -> is_Some (tables w2 !! q)) as Hdom2.
  { intros q [x Hx]. exists x. by eapply lookup_weaken. }
  split; [done| |congruence| | | |].
  - rewrite Hl2, Hl1, Hl, dom_insert_L. set_solver.
  - inversion Hs; subst. by apply Forall_app.
  - rewrite dom_insert_L. inversion Hs; subst. set_solver.
  - intros p n Hp. apply lookup_insert_Some in Hp as [[<- <-]|[Hne Hp]].
    + rewrite <- Hd, <- Hd1. split; [|exact Hf]. destruct Hok. split; [done..|]. by eapply lookup_weaken.
    + destruct (Hn p n Hp) as [Hnok Hfn]. split.
      * destruct Hnok. split; [done..|]. eapply lookup_weaken; [|done]. by rewrite Ht1.
      * intros d Hdd. eapply found_more; [by rewrite <- Hc1| |exact He| |by apply Hfn]; [auto|].
        intros q. simpl. intros [->|Hq]%elem_of_cons; [right; apply Hdom2; rewrite (node_exports _ _ _ Hok); by eexists|].
        left. rewrite map_app. apply elem_of_app. by right.
  - left. destruct Hr as [(n & Hp & Hn2)|(-> & [= -> ->] & _)].
    + exists n. split; [|done]. rewrite lookup_insert_ne; [done|]. intros Heq. rewrite Heq in Hnone. congruence.
    + exists node. by rewrite lookup_insert_eq.
Qed.

(** The search ends, once fuel is enough for it: what is pending grows in [U], and
    otherwise the stack gets shorter. *)
Definition search_ends (w0 : World) (root : ResolvedModule) (pending : gmap ModuleId PendingModule)
    (edges : gmap ModuleId (list ModuleId)) (stack : list ResolvedModule) (w : World) : Prop :=
  exists f0, forall via f, f0 <= f -> wp (discover parse_rex chain via f pending edges stack) w (fun r w' =>
    match r with
    | Ok (pending', edges') => searching w0 w' pending' edges' [] root
    | Err e => ~ loader_error e
    end).

Lemma search_ends_step w0 root pending edges r stack w :
  ~ (is_Some (tables w0 !! resolved_id root) /\ resolved_id root ∉ loading (load_state w0)) ->
  searching w0 w pending edges (r :: stack) root ->
  (searching w0 w pending edges stack root -> search_ends w0 root pending edges stack w) ->
  (forall node edges' stack' w', pending !! resolved_id r = None -> searching w0 w' (<[resolved_id r := node]> pending) edges' stack' root ->
     search_ends w0 root (<[resolved_id r := node]> pending) edges' stack' w') ->
  search_ends w0 root pending edges (r :: stack) w.
Proof using HU engine_laws.
  intros Hroot Hs Hskip Hstep. pose proof (searching_known _ _ _ _ _ _ Hs) as Hk.
  destruct (bool_decide (is_Some (pending !! resolved_id r))) eqn:E1.
  { apply bool_decide_eq_true in E1 as [n Hn].
    destruct Hskip as [f0 Hf].
    { eapply searching_skip; [exact Hs| |left; intros ->; by rewrite lookup_empty in Hn].
      destruct (searching_nodes _ _ _ _ _ _ Hs _ _ Hn) as [Hok _]. rewrite (node_exports _ _ _ Hok). by eexists. }
    exists (S f0). intros via [|f] Hle; [lia|]. cbn [discover]. apply wp_get_state. cbv beta. rewrite bool_decide_eq_true_2 by (by eexists).
    apply Hf. lia. }
  destruct (bool_decide (is_Some (loaded (load_state w) !! resolved_id r) /\ resolved_id r ∉ loading (load_state w))) eqn:E2.
  { pose proof E2 as [Hl Hnl]%bool_decide_eq_true. destruct Hskip as [f0 Hf].
    { eapply searching_skip; [exact Hs|done|]. destruct (searching_root _ _ _ _ _ _ Hs) as [(n & Hn & _)|(_ & [= -> _] & ->)];
        [left; intros ->; by rewrite lookup_empty in Hn|by destruct Hroot]. }
    exists (S f0). intros via [|f] Hle; [lia|]. cbn [discover]. apply wp_get_state. cbv beta. rewrite E1, E2. apply Hf. lia. }
  pose proof (wp_open_module r w Hk) as Ho. unfold wp in Ho. destruct (open_module parse_rex r w) as [[[node|e] w1]|] eqn:Eo; [| |done].
  2:{ exists 1. intros via [|f] Hle; [lia|]. cbn [discover]. apply wp_get_state. cbv beta. rewrite E1, E2. unfold wp, lbind. by rewrite Eo. }
  set (via0 := fun _ : ResolvedModule => out_of_fuel (A := ModuleExports)).
  destruct Ho as (Hk1 & Hc1 & Hd1 & Hl1 & Hres & Hok & Ht1). apply bool_decide_eq_false in E1 as Hnone. apply eq_None_not_Some in Hnone.
  destruct (opened_known _ _ _ _ _ _ _ _ w1 Hs Hok Ht1) as [_ Hp1].
  pose proof (wp_visit_imports via0 (resolved_id r) pending (graph_imports_for_package (pending_package node) (imports_by_default w1))
    edges stack w1 Hk1 Hp1) as Hvis. unfold wp in Hvis.
  destruct (visit_imports chain via0 (resolved_id r) pending (graph_imports_for_package (pending_package node) (imports_by_default w1)) edges stack w1)
    as [[[[edges' stack']|e] w2]|] eqn:Ev.
  - destruct (Hstep node edges' stack' w2 Hnone) as [f0 Hf]; [by eapply searching_step|].
    exists (S f0). intros via [|f] Hle; [lia|]. cbn [discover]. apply wp_get_state. cbv beta. rewrite E1, E2.
    unfold wp, lbind, get_loader. rewrite Eo. fold (imports_by_default w1). rewrite (visit_imports_via via via0), Ev. apply Hf. lia.
  - exists 1. intros via [|f] Hle; [lia|]. cbn [discover]. apply wp_get_state. cbv beta. rewrite E1, E2.
    unfold wp, lbind, get_loader. rewrite Eo. fold (imports_by_default w1). rewrite (visit_imports_via via via0), Ev.
    by destruct Hvis.
  - done.
Qed.

Lemma search_terminates w0 root :
  ~ (is_Some (tables w0 !! resolved_id root) /\ resolved_id root ∉ loading (load_state w0)) ->
  forall n pending, size (U ∖ dom pending) <= n -> forall stack edges w, searching w0 w pending edges stack root ->
  search_ends w0 root pending edges stack w.
Proof using HU engine_laws.
  intros Hroot. induction n as [n IHn] using lt_wf_ind. intros pending Hn stack. induction stack as [|r stack IHs]; intros edges w Hs.
  { exists 0. intros via f _. by destruct f. }
  apply search_ends_step; [done..|intros; by apply IHs|]. intros node edges' stack' w' Hnone Hs'.
  pose proof (searching_pending _ _ _ _ _ _ Hs') as Hp. rewrite dom_insert_L in Hp.
  assert (size (U ∖ dom (<[resolved_id r := node]> pending)) < size (U ∖ dom pending)) as Hlt.
  { apply subset_size. rewrite dom_insert_L. apply not_elem_of_dom in Hnone. set_solver. }
  eapply (IHn (size (U ∖ dom (<[resolved_id r := node]> pending)))); [lia|done|done].
Qed.

(** * Linking: no importer is asked again *)

(** The tables stay as they are, and so does what is outside. *)
Definition settled (w w' : World) : Prop :=
  cache w' = cache w /\ tables w' = tables w /\ outside w' = outside w /\ imports_by_default w' = imports_by_default w.

#[local] Instance settled_po : PreOrder settled.
Proof using. split; [done|]. intros w1 w2 w3 (? & ? & ? & ?) (? & ? & ? & ?). unfold settled. intuition congruence. Qed.

Lemma quiet_settled w w' : quiet w w' -> settled w w'.
Proof using. intros (Hs & Ho & Hi). unfold settled, cache, tables. by rewrite Hs. Qed.

Lemma found_settled w w' edges p d : settled w w' -> found w edges [] p d -> found w' edges [] p d.
Proof using. intros (Hc & Ht & _). eapply found_more; [by rewrite Hc|by rewrite Ht|by intros ? ?|auto]. Qed.

Lemma found_resolves via w edges p d : found w edges [] p d ->
  wp (resolve_module_exports_for_rewrite chain via d (Some p)) w (fun r w' => quiet w w' /\ sound r).
Proof using engine_laws.
  intros (mid & r & Hid & Hr & Hq). unfold resolve_module_exports_for_rewrite. apply wp_bind. unfold wp at 1, lift_id, llift. rewrite Hid.
  apply wp_bind. unfold wp at 1, import. change (resolved_modules (load_state w)) with (cache w).
  rewrite (cached_import chain (cache w) (outside w) _ r Hr). set (w1 := mkWorld _ _ _).
  assert (quiet w w1) as Hw1 by (split; [by destruct w as [? [] ?]|done]).
  assert (is_Some (tables w1 !! resolved_id r)) as [x Hx].
  { destruct Hq as [[_ ?]|(_ & _ & [?|Hin])]; [done..|]. by apply elem_of_nil in Hin. }
  apply wp_get_loader. destruct (module_exports_cache (module_loader (engine w1)) !! resolved_id r) as [exports|].
  - apply wp_quiet; [apply quietly_ensure|intros e w2 ? ?; split; [by etrans|done]|]. intros _ w2 Hw2. split; [by etrans|done].
  - unfold load_from_resolved. apply wp_get_state. cbv beta. change (loaded (load_state w1)) with (tables w1). by rewrite Hx.
Qed.

Lemma wp_bind_imports via lv lt p edges imports : forall b w, (forall d, d ∈ imports -> found w edges [] p d) ->
  wp (bind_imports chain via lv lt (Some p) imports b) w (fun r w' => quiet w w' /\ sound r).
Proof using engine_laws.
  induction imports as [|d imports IH]; intros b w Hf; [done|]. cbn [bind_imports]. apply wp_bind.
  eapply wp_mono; [eapply found_resolves, Hf; left|]. intros [e|e] w1 [Hq Hs]; [|done].
  apply wp_quiet; [apply quietly_module|intros; split; [by etrans|done]|]. intros b' w2 Hq2.
  eapply wp_mono; [apply IH|intros r w3 [? ?]; split; [by etrans; [|etrans]|done]].
  intros d' Hd. apply (found_settled w); [by apply quiet_settled; etrans|]. apply Hf. by right.
Qed.

Lemma wp_bind_default_imports via lv lt p edges names : forall b w, (forall n, n ∈ names -> found w edges [] p (default_import_decl n)) ->
  wp (bind_default_imports chain via lv lt (Some p) names b) w (fun r w' => quiet w w' /\ sound r).
Proof using engine_laws.
  induction names as [|n names IH]; intros b w Hf; [done|]. cbn [bind_default_imports]. apply wp_bind.
  eapply wp_mono; [eapply found_resolves, Hf; left|]. intros [e|e] w1 [Hq Hs]; [|done].
  eapply wp_mono; [apply IH|intros r w3 [? ?]; split; [by etrans|done]].
  intros n' Hn. apply (found_settled w); [by apply quiet_settled|]. apply Hf. by right.
Qed.

Lemma wp_rewrite_package via package p prefix edges w :
  (forall d, d ∈ graph_imports_for_package package (imports_by_default w) -> found w edges [] p d) ->
  wp (rewrite_package_with_imports chain via package (Some p) prefix) w (fun r w' => quiet w w' /\ sound r).
Proof using engine_laws.
  intros Hf. unfold rewrite_package_with_imports. apply wp_bind.
  eapply wp_mono; [eapply wp_bind_imports; intros d Hd; apply Hf, elem_of_app; by left|]. intros [b|e] w1 [Hq Hs]; [|done].
  apply wp_get_loader. apply wp_bind. pose proof Hq as (_ & _ & Hdef). unfold imports_by_default in Hdef at 1. rewrite Hdef.
  eapply wp_mono; [eapply wp_bind_default_imports|].
  { intros n Hn. apply (found_settled w); [by apply quiet_settled|]. apply Hf, elem_of_app. right. apply list_elem_of_fmap. by exists n. }
  intros [b2|e] w2 [Hq2 Hs2]; [|split; [by etrans|done]].
  apply wp_quiet; [apply quietly_module|intros; split; [by etrans; [|etrans]|done]|]. intros _ w3 Hq3. split; [by etrans; [|etrans]|done].
Qed.

(** Everything pending may be linked. *)
Definition ready (w : World) (pending : gmap ModuleId PendingModule) (edges : gmap ModuleId (list ModuleId)) : Prop :=
  forall p node, pending !! p = Some node -> resolved_id (pending_resolved node) = p /\
    forall d, d ∈ graph_imports_for_package (pending_package node) (imports_by_default w) -> found w edges [] p d.

Lemma ready_settled w w' pending edges : settled w w' -> ready w pending edges -> ready w' pending edges.
Proof using.
  intros Hw Hr p node Hp. destruct (Hr p node Hp) as [? Hf]. split; [done|]. intros d. pose proof Hw as (_ & _ & _ & ->). intros Hd.
  apply (found_settled w); [done|]. by apply Hf.
Qed.

Lemma wp_link_module via pending edges p w : ready w pending edges -> is_Some (pending !! p) ->
  wp (link_module chain via pending p) w (fun r w' => quiet w w' /\ sound r).
Proof using engine_laws.
  intros Hr [node Hp]. unfold link_module. rewrite Hp. destruct (Hr p node Hp) as [-> Hf]. apply wp_bind.
  eapply wp_mono; [by eapply wp_rewrite_package|]. intros [pkg|e] w1 [Hq Hs]; [|done].
  eapply wp_mono; [apply quietly_engine, inject_decls_keeps|]. intros r w2 [? ?]. split; [by etrans|done].
Qed.

Lemma wp_each_link via pending edges ids : forall w, ready w pending edges -> (forall p, p ∈ ids -> is_Some (pending !! p)) ->
  wp (each (link_module chain via pending) ids) w (fun r w' => quiet w w' /\ sound r).
Proof using engine_laws.
  induction ids as [|p ids IH]; intros w Hr Hp; [done|]. cbn [each]. apply wp_bind.
  eapply wp_mono; [eapply wp_link_module; [done|apply Hp; left]|]. intros [[]|e] w1 [Hq Hs]; [|done].
  eapply wp_mono; [apply IH; [by apply (ready_settled w); [apply quiet_settled|]|intros q Hq2; apply Hp; by right]|].
  intros r w2 [? ?]. split; [by etrans|done].
Qed.

Lemma wp_each_remove ids : forall w,
  wp (each (fun id => on_load_state (remove_loading id)) ids) w (fun r w' => r = Ok tt /\ settled w w' /\
    loading (load_state w') = loading (load_state w) ∖ list_to_set ids).
Proof using.
  clear -engine_ops. induction ids as [|p ids IH]; intros w; [split; [done|split; [done|]]; simpl; set_solver|]. cbn [each]. apply wp_bind. unfold wp at 1, on_load_state.
  eapply wp_mono; [apply IH|]. intros r w2 (-> & Hs & Hl). split; [done|]. split; [etrans; [|exact Hs]; by destruct w as [? [] ?]|].
  rewrite Hl. simpl. set_solver.
Qed.

Lemma wp_link_group via pending edges component w : ready w pending edges -> (forall p, p ∈ component -> is_Some (pending !! p)) ->
  wp (link_group chain via pending component) w (fun r w' => settled w w' /\
    match r with Ok _ => loading (load_state w') = loading (load_state w) ∖ list_to_set component | Err e => ~ loader_error e end).
Proof using engine_laws.
  intros Hr Hp. unfold link_group. apply wp_quiet.
  { destruct (1 <? length component); [|apply quietly_ret]. apply quietly_each. intros. apply quietly_ensure. }
  { intros e w1 Hq He. by split; [apply quiet_settled|]. }
  intros _ w1 Hq1. apply wp_bind. eapply wp_mono; [eapply wp_each_link; [by apply (ready_settled w); [apply quiet_settled|]|done]|].
  intros [[]|e] w2 [Hq2 Hs2]; [|split; [by apply quiet_settled; etrans|done]].
  eapply wp_mono; [apply wp_each_remove|]. intros r w3 (-> & Hs3 & Hl3). split; [etrans; [apply quiet_settled; by etrans|done]|].
  rewrite Hl3. destruct Hq2 as (-> & _), Hq1 as (-> & _). done.
Qed.

Lemma wp_each_group via pending edges groups : forall w, ready w pending edges -> (forall p, p ∈ concat groups -> is_Some (pending !! p)) ->
  wp (each (link_group chain via pending) groups) w (fun r w' => settled w w' /\
    match r with Ok _ => loading (load_state w') = loading (load_state w) ∖ list_to_set (concat groups) | Err e => ~ loader_error e end).
Proof using engine_laws.
  clear HU U. induction groups as [|C groups IH]; intros w Hr Hp; [split; [done|]; simpl; set_solver|]. cbn [each]. apply wp_bind.
  eapply wp_mono; [eapply wp_link_group; [done|]; intros p Hc; apply Hp; simpl; apply elem_of_app; by left|]. intros [[]|e] w1 [Hs Hl]; [|done].
  eapply wp_mono; [apply IH; [by apply (ready_settled w)|]; intros p Hc; apply Hp; simpl; apply elem_of_app; by right|].
  intros r w2 [Hs2 Hl2]. split; [by etrans|]. destruct r; [|done]. rewrite Hl2, Hl. simpl. set_solver.
Qed.

(** * Groups *)

Lemma pending_keys_spec pending : forall p, p ∈ pending_keys pending <-> is_Some (pending !! p).
Proof using.
  intros p. unfold pending_keys. rewrite (merge_sort_Permutation module_le (elements (dom pending))). rewrite elem_of_elements. apply elem_of_dom.
Qed.

Lemma searching_start w root : known w -> resolved_id root ∈ U -> searching w w ∅ ∅ [root] root.
Proof using.
  intros Hk Hu. split; [done| |done|by constructor| | |by right].
  - by rewrite dom_empty_L, (right_id_L ∅ (∪)).
  - rewrite dom_empty_L. apply empty_subseteq.
  - intros p node Hp. by rewrite lookup_empty in Hp.
Qed.

Lemma searching_ready w0 w pending edges root : searching w0 w pending edges [] root -> ready w pending edges.
Proof using.
  intros Hs p node Hp. destruct (searching_nodes _ _ _ _ _ _ Hs p node Hp) as [Hok Hf]. split; [apply Hok|].
  by rewrite (searching_defaults _ _ _ _ _ _ Hs).
Qed.

Lemma pending_groups pending edges :
  exists groups, tarjan_scc_module_ids (length (pending_keys pending)) (pending_keys pending) edges = Some groups /\
    NoDup (concat groups) /\ (forall p, p ∈ concat groups <-> is_Some (pending !! p)) /\
    forall i C, groups !! i = Some C -> component_ok (list_to_set (pending_keys pending)) edges groups i C.
Proof using.
  destruct (groups_popped (pending_keys pending) edges _ (le_n _)) as (groups & Hrun & Hnd & Hmem & Hok).
  exists groups. split; [done|]. split; [done|]. split; [|done]. intros p. by rewrite Hmem, pending_keys_spec.
Qed.

(** An import is of a module of the same group, or of an earlier one, or of one that was
    loaded before. *)
Lemma found_linked w pending edges groups i C p d :
  (forall i C, groups !! i = Some C -> component_ok (list_to_set (pending_keys pending)) edges groups i C) ->
  groups !! i = Some C -> p ∈ C -> found w edges [] p d ->
  exists mid m, import_specifier (import_path_ d) = Ok mid /\ cached (cache w) (mkImportRequest mid (Some p)) m /\
    is_Some (tables w !! resolved_id m) /\
    (is_rust (resolved_content m) = false -> is_Some (pending !! resolved_id m) ->
     exists j D, j <= i /\ groups !! j = Some D /\ resolved_id m ∈ D).
Proof using.
  intros Hok HC Hp (mid & m & Hid & Hm & Hq). exists mid, m. split; [done|]. split; [done|].
  destruct Hq as [[Hr ?]|(Hr & He & [?|Hn%elem_of_nil])]; [|split; [done|]|done].
  - split; [done|]. rewrite Hr. done.
  - intros _ Hpend. destruct (Hok i C HC) as [Horder _]. apply (Horder p Hp). split; [done|].
    apply elem_of_list_to_set. by apply pending_keys_spec.
Qed.

(** * Loading ends *)

(** What loading [root] gives. *)
Definition loads (w : World) (root : ResolvedModule) (r : result LoadError ModuleExports) (w' : World) : Prop :=
  match r with
  | Err e => ~ loader_error e
  | Ok exports => known w' /\ tables w' !! resolved_id root = Some exports /\
      loading (load_state w') ⊆ loading (load_state w) /\ imports_by_default w' = imports_by_default w /\
      (tables w !! resolved_id root = Some exports \/
       exists package, package_from_resolved parse_rex root = Ok package /\
         exports = exports_from_package package (prefix_for_module (resolved_id root)) (resolved_id root))
  end.

Lemma search_loads via w w1 pending edges root : searching w w1 pending edges [] root ->
  wp (if bool_decide (pending = ∅) then loaded_exports "missing module exports after SCC load" (resolved_id root)
      else match tarjan_scc_module_ids (length (pending_keys pending)) (pending_keys pending) edges with
           | None => out_of_fuel
           | Some sccs =>
               let* _ := each (link_group chain via pending) sccs in
               loaded_exports "missing root exports after SCC load" (resolved_id root)
           end) w1 (loads w root).
Proof using engine_laws.
  intros Hs. destruct (searching_root _ _ _ _ _ _ Hs) as [(node & Hp & Hnode)|(_ & [=] & _)].
  rewrite bool_decide_eq_false_2 by (intros ->; by rewrite lookup_empty in Hp).
  destruct (pending_groups pending edges) as (groups & -> & _ & Hmem & _). apply wp_bind.
  eapply wp_mono; [eapply wp_each_group; [by eapply searching_ready|apply Hmem]|]. intros [u|e] w2 [(Hc & Ht & _ & Hd) Hl]; [|done].
  unfold loaded_exports. apply wp_get_state. cbv beta. change (loaded (load_state w2)) with (tables w2). rewrite Ht.
  destruct (searching_nodes _ _ _ _ _ _ Hs _ _ Hp) as [[Hid Hpkg Hpre Hexp] _]. rewrite Hexp. apply wp_ret. split.
  { unfold known. rewrite Hc. apply (searching_known _ _ _ _ _ _ Hs). }
  split; [by rewrite Ht|]. split.
  { rewrite Hl, (searching_loading _ _ _ _ _ _ Hs). intros q Hq. apply elem_of_difference in Hq as [[Hq|Hq]%elem_of_union Hn]; [done|].
    destruct Hn. apply elem_of_list_to_set, Hmem. by apply elem_of_dom. }
  split; [by rewrite Hd, (searching_defaults _ _ _ _ _ _ Hs)|]. right. exists (pending_package node).
  rewrite <- Hnode, Hid, <- Hpre. by rewrite Hpkg.
Qed.

Lemma load_via_scc_ends w root : known w -> resolved_id root ∈ U ->
  exists f0, forall via f, f0 <= f -> wp (load_via_scc parse_rex chain via f root) w (loads w root).
Proof using HU engine_laws.
  intros Hk Hu. destruct (if decide (resolved_id root ∉ loading (load_state w)) then tables w !! resolved_id root else None) as [exports|] eqn:E1.
  - exists 0. intros via f _. unfold load_via_scc. apply wp_get_state. cbv beta. change (loaded (load_state w)) with (tables w). rewrite E1.
    apply wp_ret. destruct (decide _) in E1; [|done]. split; [done|]. split; [done|]. split; [done|]. split; [done|]. by left.
  - destruct (search_terminates w root) with (size (U ∖ dom (∅ : gmap ModuleId PendingModule))) (∅ : gmap ModuleId PendingModule) [root]
      (∅ : gmap ModuleId (list ModuleId)) w as [f0 Hf]; [|done|by apply searching_start|].
    { intros [[x Hx] Hn]. rewrite decide_True in E1 by done. congruence. }
    exists f0. intros via f Hle. unfold load_via_scc. apply wp_get_state. cbv beta. change (loaded (load_state w)) with (tables w). rewrite E1.
    apply wp_bind. eapply wp_mono; [by apply Hf|]. intros [[pending edges]|e] w1 Hs; [|done]. cbv beta iota. by apply search_loads.
Qed.

(** * Enough fuel is enough *)

(** What answers answers the same with more fuel. *)
Definition extends {A} (m m' : Loading A) : Prop := forall w x, m w = Some x -> m' w = Some x.

Lemma extends_same {A} (m : Loading A) : extends m m.
Proof using. by intros w x. Qed.

Lemma extends_bind {A B} (m m' : Loading A) (k k' : A -> Loading B) :
  extends m m' -> (forall a, extends (k a) (k' a)) -> extends (lbind m k) (lbind m' k').
Proof using.
  intros Hm Hk w x. unfold lbind. destruct (m w) as [[[a|e] w1]|] eqn:E1; [|rewrite (Hm _ _ E1); done|done].
  rewrite (Hm _ _ E1). apply Hk.
Qed.

Create HintDb extends.
#[local] Hint Resolve extends_same : extends.
#[local] Hint Extern 1 (extends (lbind _ _) (lbind _ _)) => apply extends_bind; [|intros] : extends.

Lemma each_extends {A} (f f' : A -> Loading unit) l : (forall x, extends (f x) (f' x)) -> extends (each f l) (each f' l).
Proof using. intros Hf. induction l as [|x l IH]; simpl; [apply extends_same|]. by apply extends_bind. Qed.

Section Via.
Context (via via' : ResolvedModule -> Loading ModuleExports) (Hvia : forall r, extends (via r) (via' r)).

Lemma load_from_extends r : extends (load_from_resolved via r) (load_from_resolved via' r).
Proof using Hvia.
  unfold load_from_resolved. apply extends_bind; [apply extends_same|]. intros ls.
  destruct (loaded ls !! _) as [?|]; [apply extends_same|]. destruct (if decide _ then _ else _); [apply extends_same|].
  destruct (resolved_content r); [apply Hvia..|apply extends_same].
Qed.
#[local] Hint Resolve load_from_extends : extends.

Lemma resolve_extends d importer :
  extends (resolve_module_exports_for_rewrite chain via d importer) (resolve_module_exports_for_rewrite chain via' d importer).
Proof using Hvia.
  unfold resolve_module_exports_for_rewrite. apply extends_bind; [apply extends_same|intros mid]. apply extends_bind; [apply extends_same|intros m].
  apply extends_bind; [apply extends_same|intros l]. destruct (module_exports_cache l !! _); auto with extends.
Qed.
#[local] Hint Resolve resolve_extends : extends.

Lemma bind_imports_extends lv lt importer imports : forall b,
  extends (bind_imports chain via lv lt importer imports b) (bind_imports chain via' lv lt importer imports b).
Proof using Hvia. induction imports as [|d imports IH]; intros b; cbn [bind_imports]; auto 6 with extends. Qed.

Lemma bind_defaults_extends lv lt importer names : forall b,
  extends (bind_default_imports chain via lv lt importer names b) (bind_default_imports chain via' lv lt importer names b).
Proof using Hvia. induction names as [|n names IH]; intros b; cbn [bind_default_imports]; auto 6 with extends. Qed.
#[local] Hint Resolve bind_imports_extends bind_defaults_extends : extends.

Lemma rewrite_extends p importer prefix :
  extends (rewrite_package_with_imports chain via p importer prefix) (rewrite_package_with_imports chain via' p importer prefix).
Proof using Hvia. unfold rewrite_package_with_imports. auto 8 with extends. Qed.
#[local] Hint Resolve rewrite_extends : extends.

Lemma link_module_extends pending p : extends (link_module chain via pending p) (link_module chain via' pending p).
Proof using Hvia. unfold link_module. destruct (pending !! p); auto with extends. Qed.

Lemma link_group_extends pending C : extends (link_group chain via pending C) (link_group chain via' pending C).
Proof using Hvia.
  unfold link_group. apply extends_bind; [apply extends_same|intros _]. apply extends_bind; [apply each_extends, link_module_extends|auto with extends].
Qed.

Lemma visit_extends id pending imports : forall edges stack,
  extends (visit_imports chain via id pending imports edges stack) (visit_imports chain via' id pending imports edges stack).
Proof using Hvia.
  induction imports as [|d imports IH]; intros edges stack; cbn [visit_imports]; [apply extends_same|].
  apply extends_bind; [apply extends_same|intros mid]. apply extends_bind; [apply extends_same|intros m]. destruct (is_rust _); auto with extends.
Qed.

Lemma discover_extends f : forall f' pending edges stack, f <= f' ->
  extends (discover parse_rex chain via f pending edges stack) (discover parse_rex chain via' f' pending edges stack).
Proof using Hvia.
  induction f as [|f IH]; intros f' pending edges [|r stack] Hle; [destruct f'; apply extends_same|by intros w x [=]|destruct f'; apply extends_same|].
  destruct f' as [|f']; [lia|]. cbn [discover]. apply extends_bind; [apply extends_same|intros ls].
  destruct (bool_decide _); [apply IH; lia|]. destruct (bool_decide _); [apply IH; lia|].
  apply extends_bind; [apply extends_same|intros node]. apply extends_bind; [apply extends_same|intros l].
  apply extends_bind; [apply visit_extends|intros [edges' stack']]. apply IH. lia.
Qed.

Lemma load_via_scc_extends f f' root : f <= f' -> extends (load_via_scc parse_rex chain via f root) (load_via_scc parse_rex chain via' f' root).
Proof using Hvia.
  intros Hle. unfold load_via_scc. apply extends_bind; [apply extends_same|intros ls]. destruct (if decide _ then _ else _); [apply extends_same|].
  apply extends_bind; [by apply discover_extends|intros [pending edges]]. destruct (bool_decide _); [apply extends_same|].
  destruct (tarjan_scc_module_ids _ _ _); [|apply extends_same]. apply extends_bind; [apply each_extends, link_group_extends|auto with extends].
Qed.
End Via.

Lemma load_extends f : forall f' root, f <= f' ->
  extends (load_module_types_via_scc parse_rex chain f root) (load_module_types_via_scc parse_rex chain f' root).
Proof using.
  induction f as [|f IH]; intros f' root Hle; [by intros w x [=]|]. destruct f' as [|f']; [lia|]. cbn [load_module_types_via_scc].
  apply load_via_scc_extends; [intros r; apply IH|]; lia.
Qed.

(** [m], given fuel, comes to one answer. *)
Definition settles {A} (m : nat -> Loading A) (w : World) (Q : result LoadError A -> World -> Prop) : Prop :=
  exists f0 r w', (forall fuel, f0 <= fuel -> m fuel w = Some (r, w')) /\ Q r w'.

Lemma settles_then {A B} (m : nat -> Loading A) (k : nat -> A -> Loading B) w Q :
  settles m w (fun r w' => match r with Ok a => settles (fun fuel => k fuel a) w' Q | Err e => Q (Err e) w' end) ->
  settles (fun fuel => lbind (m fuel) (k fuel)) w Q.
Proof using.
  intros (f0 & [a|e] & w1 & Hm & Hk).
  - destruct Hk as (f1 & r & w2 & Hk & HQ). exists (max f0 f1), r, w2. split; [|done]. intros fuel Hle. unfold lbind.
    rewrite Hm by lia. apply Hk. lia.
  - exists f0, (Err e), w1. split; [|done]. intros fuel Hle. unfold lbind. by rewrite Hm.
Qed.

Lemma settles_wp {A} (m : Loading A) w Q : wp m w Q -> settles (fun _ => m) w Q.
Proof using. unfold wp. destruct (m w) as [[r w']|] eqn:E1; [|done]. intros HQ. by exists 0, r, w'. Qed.

Lemma load_settles w root : known w -> resolved_id root ∈ U ->
  settles (fun fuel => load_module_types_via_scc parse_rex chain fuel root) w (loads w root).
Proof using HU engine_laws.
  intros Hk Hu. destruct (load_via_scc_ends w root Hk Hu) as [f0 Hf].
  pose proof (Hf (load_module_types_via_scc parse_rex chain f0) (S f0) ltac:(lia)) as H1. unfold wp in H1.
  destruct (load_via_scc parse_rex chain (load_module_types_via_scc parse_rex chain f0) (S f0) root w) as [[r w']|] eqn:E1; [|done].
  exists (S f0), r, w'. split; [|done]. intros fuel Hle. by apply (load_extends (S f0)).
Qed.

(** * Compiling ends *)

(** A step that keeps the cache sound, or fails with an error that is not the loader's. *)
Definition prepared {A} (r : result LoadError A) (w : World) : Prop :=
  match r with Ok _ => known w | Err e => ~ loader_error e end.

Lemma quiet_known w w' : known w -> quiet w w' -> known w'.
Proof using. intros Hk Hq. by destruct (quiet_advances w w' Hk Hq). Qed.

Lemma quietly_prepared {A} (m : Loading A) w : known w -> quietly m -> settles (fun _ => m) w prepared.
Proof using.
  intros Hk Hm. apply settles_wp. eapply wp_mono; [apply Hm|]. intros [a|e] w' [Hq Hs]; [|done]. by eapply quiet_known.
Qed.

Lemma settles_mono {A} (m : nat -> Loading A) w (Q Q' : result LoadError A -> World -> Prop) :
  settles m w Q -> (forall r w', Q r w' -> Q' r w') -> settles m w Q'.
Proof using. intros (f0 & r & w' & Hm & HQ) Hi. exists f0, r, w'. auto. Qed.

Lemma prepared_bind {A B} (m : nat -> Loading A) (k : nat -> A -> Loading B) w :
  settles m w prepared -> (forall a w', known w' -> settles (fun fuel => k fuel a) w' prepared) ->
  settles (fun fuel => lbind (m fuel) (k fuel)) w prepared.
Proof using. intros Hm Hk. apply settles_then. eapply settles_mono; [exact Hm|]. intros [a|e] w'; [apply Hk|done]. Qed.

Notation load fuel := (load_module_types_via_scc parse_rex chain fuel).

Lemma load_from_source via r w : is_rust (resolved_content r) = false ->
  load_from_resolved via r w = match tables w !! resolved_id r with Some e => Some (Ok e, w) | None => via r w end.
Proof using.
  intros Hr. unfold load_from_resolved, lbind, get_load_state. change (loaded (load_state w)) with (tables w).
  destruct (tables w !! resolved_id r); [done|]. destruct (decide _); by destruct (resolved_content r).
Qed.

Lemma load_from_settles r w : known w -> resolved_id r ∈ U -> settles (fun fuel => load_from_resolved (load fuel) r) w prepared.
Proof using HU engine_laws.
  intros Hk Hu. destruct (is_rust (resolved_content r)) eqn:Er.
  - pose proof (wp_load_rust (load 0) r w Hk Er) as Hw. unfold wp in Hw.
    destruct (load_from_resolved (load 0) r w) as [[res w']|] eqn:E1; [|done]. exists 0, res, w'. split.
    + intros fuel _. by rewrite <- E1, (load_rust_via (load fuel) (load 0) r w Er).
    + destruct Hw as (Hadv & Hs & _). destruct res; [apply Hadv|done].
  - destruct (tables w !! resolved_id r) as [exports|] eqn:Et.
    + exists 0, (Ok exports), w. split; [|done]. intros fuel _. by rewrite load_from_source, Et.
    + apply (settles_mono _ _ (loads w r)); [|intros [e|e] w' Hl; [by destruct Hl|exact Hl]]. destruct (load_settles w r Hk Hu) as (f0 & res & w' & Hf & Hl).
      exists f0, res, w'. split; [|exact Hl]. intros fuel Hle. rewrite load_from_source, Et by done. by apply Hf.
Qed.

Lemma resolve_settles d importer w : known w ->
  settles (fun fuel => resolve_module_exports_for_rewrite chain (load fuel) d importer) w prepared.
Proof using HU engine_laws.
  intros Hk. unfold resolve_module_exports_for_rewrite. apply prepared_bind; [by apply quietly_prepared, quietly_id|]. intros mid w1 Hk1.
  apply (settles_then (fun _ => import chain _)), settles_wp. eapply wp_mono; [by apply wp_import|].
  intros [m|e] w2 (Hadv & _ & Hm); [|done]. pose proof Hadv as (Hk2 & _). apply (settles_then (fun _ => get_loader)), settles_wp. cbv beta.
  unfold wp, get_loader. destruct (module_exports_cache _ !! _) as [exports|].
  - apply quietly_prepared; [done|]. apply quietly_bind; [apply quietly_ensure|intros; apply quietly_ret].
  - apply load_from_settles; [done|]. destruct Hk2 as [_ HM], Hm as [_ Hm]. by eapply HM.
Qed.

Lemma bind_imports_settle lv lt importer imports : forall b w, known w ->
  settles (fun fuel => bind_imports chain (load fuel) lv lt importer imports b) w prepared.
Proof using HU engine_laws.
  induction imports as [|d imports IH]; intros b w Hk; cbn [bind_imports]; [by apply quietly_prepared, quietly_ret|].
  apply prepared_bind; [by apply resolve_settles|]. intros e w1 Hk1. apply prepared_bind; [by apply quietly_prepared, quietly_module|].
  intros b' w2 Hk2. by apply IH.
Qed.

Lemma bind_defaults_settle lv lt importer names : forall b w, known w ->
  settles (fun fuel => bind_default_imports chain (load fuel) lv lt importer names b) w prepared.
Proof using HU engine_laws.
  induction names as [|n names IH]; intros b w Hk; cbn [bind_default_imports]; [by apply quietly_prepared, quietly_ret|].
  apply prepared_bind; [by apply resolve_settles|]. intros e w1 Hk1. by apply IH.
Qed.

Lemma rewrite_and_inject_settles p importer prefix w : known w ->
  settles (fun fuel => rewrite_and_inject_package parse_rex chain fuel p importer prefix) w prepared.
Proof using HU engine_laws.
  intros Hk. unfold rewrite_and_inject_package. apply prepared_bind.
  - unfold rewrite_package_with_imports. apply prepared_bind; [by apply bind_imports_settle|]. intros b w1 Hk1.
    apply (prepared_bind (fun _ => get_loader)); [by apply settles_wp|]. intros l w2 Hk2. apply prepared_bind; [by apply bind_defaults_settle|].
    intros b' w3 Hk3. apply quietly_prepared; [done|]. apply quietly_bind; [apply quietly_module|intros; apply quietly_ret].
  - intros rewritten w1 Hk1. apply quietly_prepared; [done|]. apply quietly_bind; [apply quietly_engine, inject_decls_keeps|intros; apply quietly_ret].
Qed.

(** * Programs *)

Lemma collect_param_names_spec params : forall seen names names', collect_param_names params seen names = Ok names' ->
  names' = names ++ map (fun p => var_name p.1) params /\ NoDup (map (fun p => var_name p.1) params) /\
  forall n, n ∈ map (fun p => var_name p.1) params -> n ∉ seen.
Proof using.
  clear -engine_ops. induction params as [|[v t] params IH]; intros seen names names'; simpl.
  - intros [= <-]. rewrite app_nil_r. split; [done|]. split; [constructor|]. by intros n ?%elem_of_nil.
  - destruct (decide (var_name v ∈ seen)) as [|Hv]; [done|]. intros Hc. destruct (IH _ _ _ Hc) as (-> & Hnd & Hs).
    rewrite <- app_assoc. split; [done|]. split.
    + constructor; [|done]. intros Hin. apply (Hs _ Hin). set_solver.
    + intros n [->|Hn]%elem_of_cons; [done|]. intros Hns. apply (Hs _ Hn). set_solver.
Qed.

Lemma take_main_inputs_spec declared names : forall inputs cur s, take_main_inputs declared names inputs cur = Ok s ->
  exists rest, signature_inputs s = inputs ++ rest /\ map input_name rest = names /\
    cur = foldr (fun i t => TFun (input_type i) t) (signature_result s) rest.
Proof using.
  clear -engine_ops. induction names as [|n names IH]; intros inputs cur s; simpl.
  - intros [= <-]. exists []. by rewrite app_nil_r.
  - destruct cur; try done. intros Ht. destruct (IH _ _ _ Ht) as (rest & Hin & Hn & ->). exists (mkMainInput n cur1 :: rest).
    rewrite Hin, <- app_assoc. simpl. by rewrite Hn.
Qed.

(** The parameters of [main], where it is declared. *)
Definition main_params (program : CompilationUnit) : list string :=
  match get_fn_decl program "main" with Some d => map (fun p => var_name p.1) (fn_params_ d) | None => [] end.

Lemma main_entry_params program entry : main_entry_program program = Ok entry ->
  entry_param_names entry = main_params program /\ NoDup (main_params program).
Proof using.
  unfold main_entry_program, main_params. destruct (get_fn_decl program "main") as [d|].
  - destruct (Ast.body program); [done|]. destruct (main_param_names d) as [names|] eqn:Ed; [|done]. intros [= <-].
    apply collect_param_names_spec in Ed as (-> & ? & _). done.
  - destruct (Ast.body program); [|done]. intros [= <-]. split; [done|constructor].
Qed.

Lemma main_entry_error program e : main_entry_program program = Err e -> ~ loader_error e.
Proof using.
  assert (forall params seen names e, collect_param_names params seen names = Err e -> ~ loader_error e) as Hparams.
  { clear -engine_ops. induction params as [|[v t] params IH]; intros seen names e'; simpl; [done|].
    destruct (decide _); [intros [= <-]; other_error|apply IH]. }
  unfold main_entry_program. destruct (get_fn_decl program "main") as [d|], (Ast.body program).
  - intros [= <-]. other_error.
  - unfold main_param_names. destruct (collect_param_names _ _ _) eqn:Ed; simpl; [done|]. intros [= <-]. by eapply Hparams.
  - done.
  - intros [= <-]. other_error.
Qed.

Lemma take_main_inputs_error declared names : forall inputs cur e, take_main_inputs declared names inputs cur = Err e -> ~ loader_error e.
Proof using.
  clear -engine_ops. induction names as [|n names IH]; intros inputs cur e; simpl; [done|].
  destruct cur; try (intros [= <-]; other_error). apply IH.
Qed.

(** What a compilation may answer, where the one computation that may not end is the type
    check of the body. *)
Definition compiles (type_check : Expr -> Loading TypedExpr) (program : CompilationUnit)
    (answer : option (result LoadError (MainSignature * TypedExpr) * World)) : Prop :=
  match answer with
  | None => exists body w1, type_check body w1 = None
  | Some (Err e, w') => ~ loader_error e \/ exists body w1, type_check body w1 = Some (Err e, w')
  | Some (Ok (s, typed), w') =>
      (exists body w1, type_check body w1 = Some (Ok typed, w')) /\
      map input_name (signature_inputs s) = main_params program /\ NoDup (main_params program) /\
      typ_of typed = foldr (fun i t => TFun (input_type i) t) (signature_result s) (signature_inputs s)
  end.

Lemma compile_program_answers (type_check : Expr -> Loading TypedExpr) program module_id w :
  exists f0 answer, (forall fuel, f0 <= fuel -> compile_program parse_rex chain type_check fuel program module_id w = answer) /\
    compiles type_check program answer.
Proof using HU engine_laws.
  unfold compile_program. destruct (main_entry_program program) as [entry|e] eqn:Ee.
  2: { exists 0, (Some (Err e, w)). split; [done|]. left. by eapply main_entry_error. }
  destruct (main_entry_params _ _ Ee) as [Hnames Hnd].
  set (w1 := mkWorld (engine w) ModuleLoadState_default (outside w)).
  destruct (rewrite_and_inject_settles (from_compilation_unit (entry_program entry)) (Some module_id) (prefix_for_module module_id) w1)
    as (f0 & r & w2 & Hr & Hw2).
  { split; [split|]; intros ? ? Hn; cbn in Hn; by rewrite lookup_empty in Hn. }
  set (k := fun rewritten : CompilationPackage =>
    let* body := llift (match package_body rewritten with Some body => Ok body | None => Err (Engine_ (MissingBody "program")) end) in
    let* typed := type_check body in
    let* signature := llift (main_signature_for_type (entry_param_names entry) (typ_of typed)) in
    lret (signature, typed)).
  exists f0, (match r with Ok rewritten => k rewritten w2 | Err e => Some (Err e, w2) end). split.
  { intros fuel Hf. unfold lbind at 1, llift at 1. unfold lbind at 1, on_load_state at 1. cbn beta iota zeta.
    fold w1. unfold lbind at 1. rewrite (Hr fuel Hf). destruct r; done. }
  destruct r as [rewritten|e]; [|by left]. unfold k. clear k Hr.
  destruct (package_body rewritten) as [body|]; [|left; other_error].
  unfold lbind at 1, llift at 1. cbn beta iota. unfold lbind at 1.
  destruct (type_check body w2) as [[[typed|e] w3]|] eqn:Ec; [|by right; exists body, w2|by exists body, w2].
  unfold lbind, llift. destruct (main_signature_for_type _ _) as [s|e] eqn:Es.
  - cbn beta iota. apply take_main_inputs_spec in Es as (rest & Hin & Hn & Hty). simpl in Hin.
    split; [by exists body, w2|]. rewrite Hin, Hn, Hnames. done.
  - cbn beta iota. left. by eapply take_main_inputs_error.
Qed.

Lemma discover_searching via fuel w root pending edges w1 : known w -> resolved_id root ∈ U ->
  ~ (is_Some (tables w !! resolved_id root) /\ resolved_id root ∉ loading (load_state w)) ->
  discover parse_rex chain via fuel ∅ ∅ [root] w = Some (Ok (pending, edges), w1) -> searching w w1 pending edges [] root.
Proof using HU engine_laws.
  intros Hk Hu Hroot Hd. destruct (search_terminates w root Hroot (size (U ∖ dom (∅ : gmap ModuleId PendingModule)))
    (∅ : gmap ModuleId PendingModule) (le_n _) [root] (∅ : gmap ModuleId (list ModuleId)) w (searching_start w root Hk Hu)) as [f0 Hf].
  pose proof (Hf via (max f0 fuel) ltac:(lia)) as H1. unfold wp in H1.
  by rewrite (discover_extends via via (fun r => extends_same _) fuel (max f0 fuel) _ _ _ ltac:(lia) _ _ Hd) in H1.
Qed.
End Answering.
End Finding.
End Loading.
Arguments World : clear implicits.
Arguments LoadEngineLaws E I {engine_ops}.

(** C4. A program compiles or fails, whatever the modules import, cycles included. Let the
    importers name only finitely many modules, those of [U], and fail with errors of
    their own ([answers]), as the operations of the engine do. Then from some fuel on [compile_program] has one
    answer. It answers nothing only if the type check of a body does, on which nothing is
    assumed. An error is none of those that the loader reports about itself (a request of
    the cache that points at nothing, a missing node, missing exports), unless the type
    check answered it. A compiled program is one that the type check accepted, and its
    inputs are the parameters of its [main], which are distinct, with the types that they
    have in the type of the body. *)
Theorem compile_program_ends {E I X : Type} {engine_ops : LoadEngine E I} {engine_laws : LoadEngineLaws E I} parse_rex
    (chain : list (Importer I X)) U (type_check : Expr -> Loading (E := E) (I := I) (X := X) TypedExpr) program module_id (w : World E I X) :
  Forall (answers U) chain ->
  exists f0 answer, (forall fuel, f0 <= fuel -> compile_program parse_rex chain type_check fuel program module_id w = answer) /\
    match answer with
    | None => exists body w1, type_check body w1 = None
    | Some (Err e, w') => ~ loader_error e \/ exists body w1, type_check body w1 = Some (Err e, w')
    | Some (Ok (s, typed), w') =>
        (exists body w1, type_check body w1 = Some (Ok typed, w')) /\
        map input_name (signature_inputs s) = main_params program /\ NoDup (main_params program) /\
        typ_of typed = foldr (fun i t => TFun (input_type i) t) (signature_result s) (signature_inputs s)
    end.
Proof. intros HU. exact (compile_program_answers parse_rex chain U HU type_check program module_id w). Qed.

(** C5. Modules are found first and linked then. Of what the search found, every module is in one group;
    each of its imports has a known module, installed if it is written in Rust, and otherwise
    opened, in the same group or an earlier one if it is of this search. Linking the groups
    answers, asks no importer, and changes no table. *)
Theorem modules_linked_after_imports {E I X : Type} {engine_ops : LoadEngine E I} {engine_laws : LoadEngineLaws E I} parse_rex
    (chain : list (Importer I X)) U via fuel (w : World E I X) root pending edges w1 :
  Forall (answers U) chain -> known U w -> resolved_id root ∈ U ->
  ~ (is_Some (tables w !! resolved_id root) /\ resolved_id root ∉ loading (load_state w)) ->
  discover parse_rex chain via fuel ∅ ∅ [root] w = Some (Ok (pending, edges), w1) ->
  exists groups, tarjan_scc_module_ids (length (pending_keys pending)) (pending_keys pending) edges = Some groups /\
    NoDup (concat groups) /\ (forall p, p ∈ concat groups <-> is_Some (pending !! p)) /\ resolved_id root ∈ concat groups /\
    (forall i C p node d, groups !! i = Some C -> p ∈ C -> pending !! p = Some node ->
      d ∈ graph_imports_for_package (pending_package node) (imports_by_default w) ->
      exists mid m, import_specifier (import_path_ d) = Ok mid /\ cached (cache w1) (mkImportRequest mid (Some p)) m /\
        is_Some (tables w1 !! resolved_id m) /\
        (is_rust (resolved_content m) = false -> is_Some (pending !! resolved_id m) ->
         exists j D, j <= i /\ groups !! j = Some D /\ resolved_id m ∈ D)) /\
    wp (each (link_group chain via pending) groups) w1 (fun _ w2 =>
      outside w2 = outside w1 /\ cache w2 = cache w1 /\ tables w2 = tables w1).
Proof.
  intros HU Hk Hu Hroot Hd. pose proof (discover_searching parse_rex chain U HU via fuel w root pending edges w1 Hk Hu Hroot Hd) as Hs.
  destruct (pending_groups pending edges) as (groups & Hg & Hnd & Hmem & Hok). exists groups. split; [done|]. split; [done|]. split; [done|].
  pose proof (searching_ready parse_rex U w w1 pending edges root Hs) as Hr. split; [|split].
  - apply Hmem. destruct (searching_root parse_rex U w w1 pending edges [] root Hs) as [(n & Hn & _)|(_ & [=] & _)]. by eexists.
  - intros i C p node d HC Hp Hnode Hdd. eapply found_linked; [done..|]. destruct (Hr p node Hnode) as [_ Hf]. apply Hf.
    by rewrite (searching_defaults parse_rex U w w1 pending edges [] root Hs).
  - eapply wp_mono; [eapply wp_each_group; [done|apply Hmem]|]. intros r w2 [(? & ? & ? & _) _]. done.
Qed.

(** An answered import is answered the same ever after, and no importer is asked. *)
Lemma imports_answered_once {I X : Type} U (chain chain' : list (Importer I X)) request c o r c1 o1 c2 o2 :
  Forall (answers U) chain -> cache_ok c -> modules_in U c ->
  cache_import chain request c o = (Ok r, c1, o1) -> cache_extends c1 c2 ->
  cache_import chain' request c2 o2 = (Ok r, c2, o2).
Proof.
  intros HU Hc HM Hi He. pose proof (cache_import_ok U chain request c o HU Hc HM) as H1. rewrite Hi in H1.
  destruct H1 as (_ & _ & _ & Hr). apply cached_import. by eapply cached_extends.
Qed.

Example trimmed : trim (" a.b " +:+ bytes [194; 160]%N) = "a.b".
Proof. vm_compute. reflexivity. Qed.

(** * A small engine

    It keeps what was injected, in order: the types and the functions that are defined, and
    those that are declared. *)

Record DemoEngine : Type := mkDemoEngine { demo_loader : ModuleLoaderState; injected : list (list Symbol * list Symbol) }.

Definition last_name (n : Symbol) : Symbol := default n (last (split_dot n)).
Definition injected_names (d : Declarations) : list Symbol * list Symbol :=
  (map last_name (map type_decl_name (d_types d) ++ map (fun f => var_name (fn_name f)) (d_fns d)),
   map (fun f => last_name (var_name (declare_name f))) (d_declare_fns d)).

#[export] Instance demo_engine : LoadEngine DemoEngine unit := {
  module_loader := demo_loader;
  set_module_loader l e := mkDemoEngine l (injected e);
  engine_inject_decls d e := (Ok tt, mkDemoEngine (demo_loader e) (injected e ++ [injected_names d]));
  engine_publish_runtime_interfaces _ e := (Ok tt, e);
  engine_inject_module_export _ _ e := (Ok tt, e);
  engine_inject_adt _ e := (Ok tt, e)
}.

#[export] Instance demo_engine_laws : LoadEngineLaws DemoEngine unit.
Proof. by split. Qed.

Definition demo_import (name : string) : Decl :=
  DImport (mkImportDecl Span_default false (mkImportPath [name]) name (Some ImportAll)).
Definition demo_function (name : string) (body : Expr) : Decl :=
  DFn (mkFnDecl Span_default true (mkVar Span_default name) [] [] (TyName Span_default (Unqualified "Bool")) [] body None).
Definition demo_use (name : string) : Expr := XVar (mkVar Span_default name).

(** [a] and [b] import one another, and [b] imports [r], which is written in Rust. The
    importer's state is what it was asked. *)
Definition demo_module_a : ResolvedModule :=
  mkResolved (mkModuleId ["a"]) (Package (mkPackage (Declarations_from [demo_import "b"; demo_function "f" (demo_use "g")]) None None)).
Definition demo_module_b : ResolvedModule :=
  mkResolved (mkModuleId ["b"]) (Package (mkPackage (Declarations_from [demo_import "a"; demo_import "r"; demo_function "g" (demo_use "f")]) None None)).
Definition demo_module_r : ResolvedModule := mkResolved (mkModuleId ["r"]) (RustBacked 0).

Definition demo_importer : Importer unit (list ImportRequest) := fun req o =>
  (Ok (List.find (fun m => bool_decide (resolved_id m = request_module_id req)) [demo_module_a; demo_module_b; demo_module_r]),
   mkOutside (importers_state o ++ [req]) (rust_modules o)).

Definition demo_world : World DemoEngine unit (list ImportRequest) :=
  mkWorld (mkDemoEngine (ModuleLoaderState_new []) []) ModuleLoadState_default
    (mkOutside [] [Some (mkRustModule "r" None [] [] [] [])]).

Definition demo_universe : gset ModuleId := {[ mkModuleId ["a"]; mkModuleId ["b"]; mkModuleId ["r"] ]}.

Lemma demo_answers : Forall (answers demo_universe) [demo_importer].
Proof.
  constructor; [|constructor]. intros req o. simpl.
  destruct (bool_decide (mkModuleId ["a"] = request_module_id req)); [by apply (bool_decide_unpack _); vm_compute|].
  destruct (bool_decide (mkModuleId ["b"] = request_module_id req)); [by apply (bool_decide_unpack _); vm_compute|].
  destruct (bool_decide (mkModuleId ["r"] = request_module_id req)); [by apply (bool_decide_unpack _); vm_compute|done].
Qed.

Definition demo_parse (source : string) : result (list ParseError) CompilationUnit := Err [].
Definition demo_check (e : Expr) : Loading (E := DemoEngine) (I := unit) (X := list ImportRequest) TypedExpr :=
  lret (mkTypedExpr (TFun (ty_builtin Bool) (ty_builtin I32)) (EBool true)).

(** A program that imports all of [a], with [fn main (x: Bool) -> I32]. *)
Definition demo_main : CompilationUnit :=
  mkCompilationUnit [demo_import "a";
    DFn (mkFnDecl Span_default false (mkVar Span_default "main") [] [(mkVar Span_default "x", TyName Span_default (Unqualified "Bool"))]
           (TyName Span_default (Unqualified "I32")) [] (demo_use "f") None)] None.

(** The Rust module is injected first, then the interfaces of the cycle, that of [r], the
    modules of the cycle, and the program; each module was asked for once by each of its
    importers. *)
Example demo_compiles :
  match compile_program demo_parse [demo_importer] demo_check 5 demo_main (mkModuleId ["p"]) demo_world with
  | Some (Ok (s, _), w) =>
      s = mkMainSignature [mkMainInput "x" (ty_builtin Bool)] (ty_builtin I32) /\
      injected (engine w) = [([], []); ([], ["g"]); ([], ["f"]); ([], []); (["g"], []); (["f"], []); (["main"], [])] /\
      map (fun r => (ModuleId_show (request_module_id r), ModuleId_show <$> request_importer r)) (importers_state (outside w)) =
        [("a", Some "p"); ("b", Some "a"); ("a", Some "b"); ("r", Some "b")]
  | _ => False
  end.
Proof. vm_compute. repeat split. Qed.

Lemma compile_program_ends_witness :
  Forall (answers demo_universe) [demo_importer] /\
  exists f0 answer, (forall fuel, f0 <= fuel ->
      compile_program demo_parse [demo_importer] demo_check fuel demo_main (mkModuleId ["p"]) demo_world = answer) /\
    match answer with
    | None => False
    | Some (Err e, _) => ~ loader_error e
    | Some (Ok (s, _), _) => map input_name (signature_inputs s) = ["x"]
    end.
Proof.
  split; [exact demo_answers|].
  destruct (compile_program_ends demo_parse [demo_importer] demo_universe demo_check demo_main (mkModuleId ["p"]) demo_world
              demo_answers) as (f0 & answer & Hf & Ha).
  exists f0, answer. split; [exact Hf|]. destruct answer as [[[[s typed]|e] w']|].
  - destruct Ha as (_ & Hi & _). exact Hi.
  - destruct Ha as [Ha|(body & w1 & [=])]. exact Ha.
  - destruct Ha as (body & w1 & [=]).
Defined.

Definition demo_search := discover demo_parse [demo_importer] (fun _ => out_of_fuel) 9 ∅ ∅ [demo_module_a] demo_world.

Lemma demo_found : exists pending edges w1, demo_search = Some (Ok (pending, edges), w1) /\
  pending_keys pending = [mkModuleId ["a"]; mkModuleId ["b"]].
Proof.
  assert (match demo_search with
          | Some (Ok (pending, _), _) => bool_decide (pending_keys pending = [mkModuleId ["a"]; mkModuleId ["b"]])
          | _ => false
          end = true) as Hb by (vm_compute; reflexivity).
  destruct demo_search as [[[[pending edges]|e] w1]|]; [|discriminate Hb..]. exists pending, edges, w1. split; [reflexivity|].
  by apply bool_decide_eq_true in Hb.
Qed.

Lemma modules_linked_after_imports_witness :
  exists pending edges w1 groups, demo_search = Some (Ok (pending, edges), w1) /\
    tarjan_scc_module_ids (length (pending_keys pending)) (pending_keys pending) edges = Some groups /\
    mkModuleId ["a"] ∈ concat groups /\
    wp (each (link_group [demo_importer] (fun _ => out_of_fuel) pending) groups) w1 (fun _ w2 => outside w2 = outside w1).
Proof.
  destruct demo_found as (pending & edges & w1 & E & _).
  destruct (modules_linked_after_imports demo_parse [demo_importer] demo_universe (fun _ => out_of_fuel) 9 demo_world demo_module_a
              pending edges w1 demo_answers) as (groups & Hg & _ & _ & Hroot & _ & Hw).
  - split; [split|]; intros ? ? Hn; cbn in Hn; by rewrite lookup_empty in Hn.
  - by apply (bool_decide_unpack _); vm_compute.
  - intros [[x Hx] _]. by vm_compute in Hx.
  - exact E.
  - exists pending, edges, w1, groups. split; [exact E|]. split; [exact Hg|]. split; [exact Hroot|].
    eapply wp_mono; [exact Hw|]. by intros r w2 (? & _).
Defined.

(** Declared twice: a module with a type that the host injects is a package to the modules
    that import it, so that linking it injects its declarations again, and the type is a
    duplicate; a program may import it, since the exports of what is installed are
    known. *)
Definition demo_host : RustModule unit :=
  mkRustModule "host" None
    [mkStagedAdtDecl (mkAdtDecl "T" [] [] None) (mkTypeDecl Span_default true "T" [] (Adt []) None)] [] [] [].
Definition demo_client : ResolvedModule :=
  mkResolved (mkModuleId ["client"]) (Package (mkPackage (Declarations_from [demo_import "host"]) None None)).
Definition demo_client_importer : Importer unit (list ImportRequest) := StaticModuleImporter (mkModuleId ["client"]) demo_client.

Definition demo_imports_of (name : string) : Loading (E := DemoEngine) (I := unit) (X := list ImportRequest) (MainSignature * TypedExpr) := fun w =>
  match inject_module [demo_client_importer] demo_host w with
  | Some (Ok system, w) =>
      compile_program demo_parse system (fun _ => lret (mkTypedExpr (ty_builtin Bool) (EBool true))) 5
        (mkCompilationUnit [demo_import name] (Some (XBool Span_default true))) (mkModuleId ["p"]) w
  | _ => None
  end.

Lemma injected_module_linked_again :
  (fun x => injected (engine x.2)) <$> demo_imports_of "host" demo_world = Some [(["T"], []); ([], []); ([], [])] /\
  (fun x => injected (engine x.2)) <$> demo_imports_of "client" demo_world = Some [(["T"], []); (["T"], []); ([], []); ([], []); ([], [])].
Proof. split; vm_compute; reflexivity. Qed.

(** Inferring a module that is in a cycle injects its functions twice: the module is not
    among those that are loaded, so that what imports it loads it once more. *)
Lemma inferred_module_linked_again :
  (fun x => injected (engine x.2)) <$>
    infer_module demo_parse [demo_importer] (fun _ => lret tt) tt 5 (mkImportRequest (mkModuleId ["a"]) None) demo_world =
  Some [([], []); ([], ["g"]); ([], ["f"]); ([], []); (["g"], []); (["f"], []); (["f"], [])].
Proof. vm_compute; reflexivity. Qed.

