(* ===== verification/EvalOps.v ===== *)
(** The operations of the evaluator on values: literals, patterns, projections, record
    updates, applications and names ([rex-engine/src/evaluator/eval.rs]). *)

From S2P Require Import Prelude Span Types Unify UnifyComplete BTree Adts Syntax TypedExprs Errors Heap.
From S2P Require Import HeapTrace HeapStress HeapCollect HeapSafety Env Scope Lists Values EvalScheduler Calls NativeTask.
From S2P Require Import HostScheduler Registry.

Section ops.
Context (debug_assertions : bool).

Abbreviation kind_of := (type_name debug_assertions).
Abbreviation tuple_of := (root_as_tuple debug_assertions).
Abbreviation dict_of := (root_as_dict debug_assertions).
Abbreviation adt_of := (root_as_adt debug_assertions).

Definition eraise {A} (e : EngineError) : SM A := mlift (fun _ => raise e).

(** * Literals *)

(** [T::try_from(value)] for a [T] of the range [lo..hi], with the literal's error. *)
Definition try_literal (lo hi value : Z) (expected : string) : SM Z :=
  if ((lo <=? value) && (value <? hi))%Z then mret value else eraise (NativeType expected (pretty value)).

Definition try_u8 (v : Z) : SM Z := try_literal 0 256 v "u8".
Definition try_u16 (v : Z) : SM Z := try_literal 0 65536 v "u16".
Definition try_u32 (v : Z) : SM Z := try_literal 0 4294967296 v "u32".
Definition try_u64 (v : Z) : SM Z := try_literal 0 u64_modulus v "u64".
Definition try_i8 (v : Z) : SM Z := try_literal (-128) 128 v "i8".
Definition try_i16 (v : Z) : SM Z := try_literal (-32768) 32768 v "i16".
Definition try_i32 (v : Z) : SM Z := try_literal (-2147483648) 2147483648 v "i32".
Definition try_i64 (v : Z) : SM Z := try_literal (-9223372036854775808) 9223372036854775808 v "i64".

Definition alloc_uint_literal_as (value : N) (typ : ty) : SM RootedPtr :=
  let v := Z.of_N value in
  let not_integral := eraise (NativeType "integral" (show_ty typ)) in
  match typ with
  | TVar _ => let* v := try_i32 v in alloc_root_i32 debug_assertions v
  | TCon tc =>
      match builtin_id tc with
      | Some U8 => let* v := try_u8 v in alloc_root_u8 debug_assertions v
      | Some U16 => let* v := try_u16 v in alloc_root_u16 debug_assertions v
      | Some U32 => let* v := try_u32 v in alloc_root_u32 debug_assertions v
      | Some U64 => alloc_root_u64 debug_assertions v
      | Some I8 => let* v := try_i8 v in alloc_root_i8 debug_assertions v
      | Some I16 => let* v := try_i16 v in alloc_root_i16 debug_assertions v
      | Some I32 => let* v := try_i32 v in alloc_root_i32 debug_assertions v
      | Some I64 => let* v := try_i64 v in alloc_root_i64 debug_assertions v
      | _ => not_integral
      end
  | _ => not_integral
  end.

Definition alloc_int_literal_as (value : Z) (typ : ty) : SM RootedPtr :=
  let not_integral := eraise (NativeType "integral" (show_ty typ)) in
  match typ with
  | TVar _ => let* v := try_i32 value in alloc_root_i32 debug_assertions v
  | TCon tc =>
      match builtin_id tc with
      | Some I8 => let* v := try_i8 value in alloc_root_i8 debug_assertions v
      | Some I16 => let* v := try_i16 value in alloc_root_i16 debug_assertions v
      | Some I32 => let* v := try_i32 value in alloc_root_i32 debug_assertions v
      | Some I64 => alloc_root_i64 debug_assertions value
      | Some U8 => let* v := try_u8 value in alloc_root_u8 debug_assertions v
      | Some U16 => let* v := try_u16 value in alloc_root_u16 debug_assertions v
      | Some U32 => let* v := try_u32 value in alloc_root_u32 debug_assertions v
      | Some U64 => let* v := try_u64 value in alloc_root_u64 debug_assertions v
      | _ => not_integral
      end
  | _ => not_integral
  end.

Definition alloc_float_literal_as (value : N) (typ : ty) : SM RootedPtr :=
  let not_float := eraise (NativeType "f32 or f64" (show_ty typ)) in
  match typ with
  | TVar _ => alloc_root_f32 debug_assertions (f64_as_f32 value)
  | TCon tc =>
      match builtin_id tc with
      | Some F32 => alloc_root_f32 debug_assertions (f64_as_f32 value)
      | Some F64 => alloc_root_f64 debug_assertions value
      | _ => not_float
      end
  | _ => not_float
  end.

(** * Patterns *)

Definition runtime_ctor_matches (actual expected : Symbol) : bool := bool_decide (local_name actual = local_name expected).

Definition is_wildcard (p : Pattern) : bool := match p with PWildcard _ => true | _ => false end.

Section match_loops.
Context (match_pattern : Pattern -> RootedPtr -> SM (option bindings)).

(** [match_patterns]: [values[index]] panics out of range. *)
Fixpoint match_patterns (index : nat) (patterns : list Pattern) (values : list RootedPtr) (b : bindings)
  : SM (option bindings) :=
  match patterns with
  | [] => mret (Some b)
  | p :: patterns =>
      let* value := mlift (fun _ => index_vec values index) in
      let* sub := match_pattern p value in
      match sub with
      | None => mret None
      | Some sub => match_patterns (S index) patterns values (btree_extend b sub)
      end
  end.

(** The same on the patterns of a dictionary pattern. *)
Fixpoint match_field_patterns (index : nat) (fields : list (Symbol * Pattern)) (values : list RootedPtr) (b : bindings)
  : SM (option bindings) :=
  match fields with
  | [] => mret (Some b)
  | (_, p) :: fields =>
      let* value := mlift (fun _ => index_vec values index) in
      let* sub := match_pattern p value in
      match sub with
      | None => mret None
      | Some sub => match_field_patterns (S index) fields values (btree_extend b sub)
      end
  end.

(** The loop of [match_list_patterns]: wildcards read no element. *)
Fixpoint match_list_loop (index : nat) (patterns : list Pattern) (values : ListItems RootedPtr) (b : bindings)
  : SM (option bindings) :=
  match patterns with
  | [] => mret (Some b)
  | p :: patterns =>
      if is_wildcard p then match_list_loop (S index) patterns values b
      else
        let* value := items_get debug_assertions values index in
        let* sub := match_pattern p value in
        match sub with
        | None => mret None
        | Some sub => match_list_loop (S index) patterns values (btree_extend b sub)
        end
  end.

Definition match_list_patterns (patterns : list Pattern) (values : ListItems RootedPtr) : SM (option bindings) :=
  let* len := mlift (fun _ => items_len values) in
  if decide (length patterns <> len) then mret None else match_list_loop 0 patterns values [].
End match_loops.

Fixpoint match_pattern_ptr (pat : Pattern) (value : RootedPtr) : SM (option bindings) :=
  match pat with
  | PWildcard _ => mret (Some [])
  | PVar v => mret (Some [(var_name v, value)])
  | PNamed _ name ps =>
      let expected := to_dotted_symbol name in
      let* kind := kind_of value in
      if decide (kind = "adt") then
        let* adt := adt_of value in
        if runtime_ctor_matches adt.1 expected && bool_decide (length adt.2 = length ps) then
          match_patterns match_pattern_ptr 0 ps adt.2 []
        else mret None
      else if decide (kind = "list") then
        if decide (local_name expected = "Empty") then
          match ps with
          | [] => let* len := list_len debug_assertions value in mret (if decide (len = 0) then Some [] else None)
          | _ => mret None
          end
        else if decide (local_name expected = "Cons" /\ length ps = 2) then
          let* parts := list_head_tail debug_assertions value in
          match parts with
          | None => mret None
          | Some (head, tail) => match_patterns match_pattern_ptr 0 ps [head; tail] []
          end
        else mret None
      else mret None
  | PTuple _ ps =>
      let* kind := kind_of value in
      if decide (kind <> "tuple") then mret None
      else
        let* xs := tuple_of value in
        if decide (length xs = length ps) then match_patterns match_pattern_ptr 0 ps xs [] else mret None
  | PList _ ps =>
      let* len := list_len debug_assertions value in
      if decide (len <> length ps) then mret None
      else if forallb is_wildcard ps then mret (Some [])
      else
        let* values := list_items debug_assertions value in
        match_list_patterns match_pattern_ptr ps values
  | PCons _ head tail =>
      let* parts := list_head_tail debug_assertions value in
      match parts with
      | None => mret None
      | Some (head_value, tail_value) =>
          let* sub := match_pattern_ptr head head_value in
          match sub with
          | None => mret None
          | Some b =>
              let* sub := match_pattern_ptr tail tail_value in
              match sub with
              | None => mret None
              | Some sub => mret (Some (btree_extend (btree_extend [] b) sub))
              end
          end
      end
  | PDict _ fields =>
      let* kind := kind_of value in
      if decide (kind <> "dict") then mret None
      else
        let* map := dict_of value in
        match all_some (List.map (fun f => btree_get map f.1) fields) with
        | None => mret None
        | Some values => match_field_patterns match_pattern_ptr 0 fields values []
        end
  end.

(** * Projections *)

Definition project_pointer (field : Symbol) (pointer : RootedPtr) : SM RootedPtr :=
  let* kind := kind_of pointer in
  match parse_usize field with
  | Some index =>
      if decide (kind <> "tuple") then eraise (UnknownField field kind)
      else
        let* xs := tuple_of pointer in
        match (if (index <? N.of_nat (length xs))%N then xs !! N.to_nat index else None) with
        | Some x => mret x
        | None => eraise (UnknownField field "tuple")
        end
  | None =>
      if decide (kind = "dict") then
        let* map := dict_of pointer in
        match btree_get map field with Some x => mret x | None => eraise (UnknownField field "record") end
      else if decide (kind <> "adt") then eraise (UnknownField field kind)
      else
        let* adt := adt_of pointer in
        match adt.2 with
        | [record] =>
            let* kind := kind_of record in
            if decide (kind <> "dict") then eraise (UnknownField field kind)
            else
              let* map := dict_of record in
              match btree_get map field with Some x => mret x | None => eraise (UnknownField field "record") end
        | _ => eraise (UnknownField field "adt")
        end
  end.

(** * Record updates *)

Definition apply_record_update_values (base_ptr : RootedPtr) (update_vals : list (string * RootedPtr)) : SM RootedPtr :=
  let* kind := kind_of base_ptr in
  if decide (kind = "dict") then
    let* map := dict_of base_ptr in
    alloc_root_dict debug_assertions (btree_extend map update_vals)
  else if decide (kind = "adt") then
    let* adt := adt_of base_ptr in
    match adt.2 with
    | [arg] =>
        let* arg_kind := kind_of arg in
        if decide (arg_kind <> "dict") then eraise UnsupportedExpr
        else
          let* map := dict_of arg in
          let* root := alloc_root_dict debug_assertions (btree_extend map update_vals) in
          alloc_root_adt debug_assertions adt.1 [root]
    | _ => eraise UnsupportedExpr
    end
  else eraise UnsupportedExpr.

(** * Applications and names *)

Section runtime.
Context {F : Type} (runtime : RuntimeCore F).

(** [EvalApplyResult] and [EvalVarResult] have the same constructors. *)
Inductive EvalResult : Type :=
  | ResultValue (value : RootedPtr)
  | ResultPush (expr : TypedExpr) (env : ScopedEnvironment)
  | ResultPushNative (task : NativeTask RootedPtr)
  | ResultAwaitNative (call : NativeCallRequest).

Definition of_native (r : NativeApplyResult) : EvalResult :=
  match r with
  | ApplyValue value => ResultValue value
  | ApplyTask task => ResultPushNative task
  | ApplyPending call => ResultAwaitNative call
  end.

Definition is_class_method (name : Symbol) : bool := bool_decide (is_Some (class_methods (type_system runtime) !! name)).

Definition eval_apply_overloaded_arg (over : OverloadedFn RootedPtr) (arg : RootedPtr) (func_type arg_type : option ty)
  : SM EvalResult :=
  let* typ := mlift (fun _ => match func_type with
    | Some expected => let? s := unify_native (ov_typ over) expected in Ok (apply s (ov_typ over))
    | None => Ok (ov_typ over)
    end) in
  match split_fun typ with
  | None => mlift (fun _ => not_callable typ)
  | Some (arg_ty, rest_ty) =>
      let* actual_ty := resolve_arg_type debug_assertions arg_type arg in
      let* subst := mlift (fun _ => unify_native arg_ty actual_ty) in
      let rest_ty := apply subst rest_ty in
      let applied := ov_applied over ++ [arg] in
      let applied_types := ov_applied_types over ++ [actual_ty] in
      if is_function_type rest_ty then
        let* root := alloc_root_overloaded debug_assertions (ov_name over) rest_ty applied applied_types in
        mret (ResultValue root)
      else
        let full_ty := full_type applied_types rest_ty in
        if is_class_method (ov_name over) then
          let* plan := resolve_class_method_plan debug_assertions runtime (ov_name over) full_ty in
          match plan with
          | PlanEvaluate env method =>
              let* r := mlift (fun _ => synthetic_rooted_application_expr_from_head env method (combine applied applied_types)) in
              mret (ResultPush r.2 r.1)
          | PlanDeferred value => mret (ResultValue value)
          end
        else
          mlift (fun _ =>
            let? parts := resolve_native_parts runtime (ov_name over) full_ty in
            let? callable := native_callable runtime parts.1.1 in
            let? call := callable_call callable parts.1.1 full_ty applied in
            Ok (ResultAwaitNative call))
  end.

Definition eval_apply_arg (func arg : RootedPtr) (func_type arg_type : option ty) : SM EvalResult :=
  let* callable := root_as_callable debug_assertions func in
  match callable with
  | Some (RClosure c) =>
      let* subst := mlift (fun _ => match func_type with
        | Some expected => let? s_fun := unify_native (rc_typ c) expected in Ok (compose_subst s_fun ∅)
        | None => Ok ∅
        end) in
      let* actual_ty := resolve_arg_type debug_assertions arg_type arg in
      let* s_arg := mlift (fun _ => unify_native (apply subst (rc_param_ty c)) actual_ty) in
      let subst := compose_subst s_arg subst in
      mret (ResultPush (TypedExpr_apply subst (rc_body c)) (Scoped_extend (rc_env c) (rc_param c) arg))
  | Some (RNative native) =>
      let* r := native_apply debug_assertions runtime native arg arg_type in mret (of_native r)
  | Some (ROverloaded over) => eval_apply_overloaded_arg over arg func_type arg_type
  | None => let* kind := kind_of func in eraise (NotCallable kind)
  end.

(** A native constant or function without parameters runs where it is named. *)
Definition run_if_nullary (ptr : RootedPtr) : SM EvalResult :=
  let* native := root_as_native debug_assertions ptr in
  match native with
  | Some n =>
      if decide (nat_arity n = 0 /\ nat_applied n = []) then
        let* r := native_call_zero runtime n in mret (of_native r)
      else mret (ResultValue ptr)
  | None => mret (ResultValue ptr)
  end.

Definition of_plan (plan : ClassMethodPlan) : EvalResult :=
  match plan with PlanEvaluate env expr => ResultPush expr env | PlanDeferred value => ResultValue value end.

Definition eval_resolve_class_method (name : Symbol) (typ : ty) : SM EvalResult :=
  let* plan := resolve_class_method_plan debug_assertions runtime name typ in mret (of_plan plan).

Definition eval_resolve_var (env : ScopedEnvironment) (name : Symbol) (typ : ty) : SM EvalResult :=
  match Scoped_get env name with
  | Some ptr => run_if_nullary ptr
  | None =>
      if is_class_method name then eval_resolve_class_method name typ
      else let* ctx_root := resolve_native debug_assertions runtime name typ in run_if_nullary ctx_root
  end.
End runtime.
End ops.
