(* ===== verification/Eval.v ===== *)
(** The evaluator: frames are entered, receive the results of their children and answer
    what the machine does next ([rex-engine/src/evaluator/eval.rs], and the native frames of
    [native_functions.rs]). *)

From S2P Require Import Prelude Span Types Unify UnifyComplete BTree Adts Syntax TypedExprs Errors Heap.
From S2P Require Import HeapTrace HeapStress HeapCollect HeapSafety Env Scope Lists Values EvalScheduler Calls NativeTask.
From S2P Require Import HostScheduler Frames Registry EvalOps.

Abbreviation EFrame := (Frame RootedPtr ScopedEnvironment).
Abbreviation EFrames := (FrameStore EFrame).

Inductive EvalControl : Type :=
  | Push (expr : TypedExpr) (env : ScopedEnvironment)
  | PushFrame (frame : EFrame)
  | Schedule (children : list FrameId)
  | Wait
  | AwaitNative (call : NativeCallRequest)
  | Return (value : RootedPtr).

(** The handlers work on the scope and on the frames. *)
Abbreviation EM A := (ST (RootScope * EFrames) A).

Definition in_scope {A} (m : SM A) : EM A := fun s => let '(r, sc) := m s.1 in (r, (sc, s.2)).
Definition in_frames {A} (m : ST EFrames A) : EM A := fun s => let '(r, fs) := m s.2 in (r, (s.1, fs)).
Definition ethrow {A} (e : exec A) : EM A := mlift (fun _ => e).

Definition frame_kind_error {A} (expected : string) : exec A :=
  internal ("frame does not match typed expression kind `" +:+ expected +:+ "`").

(** * A frame for an expression *)

Definition frame_for_expr (parent : option FrameId) (expr : TypedExpr) (env : ScopedEnvironment) : EFrame :=
  match te_kind expr with
  | EBool _ | EUint _ | EInt _ | EFloat _ | EChar _ | EString _ | EUuid _ | EDateTime _ =>
      FrameLiteral (mkFrLiteral parent expr)
  | EHole => FrameHole (mkFrValue parent expr env ValueEnter None)
  | ETuple _ | EList _ | EDict _ => FrameSequence (mkFrSequence parent expr env SequenceEnter [] [] 0)
  | ERecordUpdate _ updates =>
      FrameRecordUpdate (mkFrRecordUpdate parent expr env UpdateEnter None (map fst updates) [] [] 0)
  | EClassMethod _ | EVar _ _ => FrameVar (mkFrValue parent expr env ValueEnter None)
  | EApp _ _ => FrameApp (mkFrApp parent expr env AppEnter None [] None [] [] 0 0 None None)
  | EProject _ _ => FrameProject (mkFrValue parent expr env ValueEnter None)
  | ELam _ _ => FrameLam (mkFrValue parent expr env ValueEnter None)
  | ELet _ _ _ => FrameLet (mkFrLet parent expr env LetEnter None)
  | ELetRec _ _ => FrameLetRec (mkFrLetRec parent expr env LetRecEnter None [] 0 None)
  | EIte _ _ _ => FrameIte (mkFrIte parent expr env BranchEnter None None)
  | EMatch _ arms =>
      FrameMatch (mkFrMatch parent expr env MatchEnter None (map (fun a => mkMatchArm a.1 a.2) arms) 0 None)
  end.

(** [for expr in exprs { frames.insert(frame_for_expr(Some(frame_id), expr, env)) }] *)
Definition insert_children (frame_id : FrameId) (env : ScopedEnvironment) (exprs : list TypedExpr) : EM (list FrameId) :=
  mapM_st (fun expr => in_frames (store_insert (frame_for_expr (Some frame_id) expr env))) exprs.

Definition replace_frame (frame_id : FrameId) (frame : EFrame) : EM unit := in_frames (store_replace frame_id frame).

(** * Results of children *)

(** [receive_sequence_value]: the values and the number that remain. *)
Definition receive_sequence_value (kind : string) (children : list FrameId) (values : list (option RootedPtr))
    (remaining : nat) (child : FrameId) (value : RootedPtr) : exec (list (option RootedPtr) * nat) :=
  let? index := ok_or (position child children) (kind +:+ " received result from unknown child") in
  match values !! index with
  | Some (Some _) => internal (kind +:+ " received duplicate result from child")
  | Some None =>
      let? remaining := checked_pred remaining (kind +:+ " received more results than expected") in
      Ok (<[index := Some value]> values, remaining)
  | None => internal (kind +:+ " result slot index out of bounds")
  end.

Abbreviation App := (FrApp RootedPtr ScopedEnvironment).

Definition app_with (f : App) (state : FrAppState) (arg_values : list (option RootedPtr)) (remaining next : nat)
    (func arg : option RootedPtr) : App :=
  mkFrApp (fa_parent f) (fa_expr f) (fa_env f) state (fa_head f) (fa_spine f) (fa_head_child f) (fa_arg_children f)
    arg_values remaining next func arg.

Definition receive_app_child_value (f : App) (child : FrameId) (value : RootedPtr) : exec App :=
  let more := "application received more results than expected" in
  if decide (fa_head_child f = Some child) then
    match fa_func f with
    | Some _ => internal "application received duplicate result from head child"
    | None =>
        let? remaining := checked_pred (fa_remaining f) more in
        Ok (app_with f (fa_state f) (fa_arg_values f) remaining (fa_next_arg_index f) (Some value) (fa_arg f))
    end
  else
    let? index := ok_or (position child (fa_arg_children f)) "application received result from unknown child" in
    match fa_arg_values f !! index with
    | Some (Some _) => internal "application received duplicate result from argument child"
    | Some None =>
        let? remaining := checked_pred (fa_remaining f) more in
        Ok (app_with f (fa_state f) (<[index := Some value]> (fa_arg_values f)) remaining (fa_next_arg_index f)
              (fa_func f) (fa_arg f))
    | None => internal "application argument result slot index out of bounds"
    end.

Definition completed_values (kind : string) (values : list (option RootedPtr)) : exec (list RootedPtr) :=
  ok_or (all_some values) (kind +:+ " completed with missing result").

(** [keys.zip(values).collect::<BTreeMap<_, _>>()] *)
Definition map_keys_to_values (kind : string) (keys : list Symbol) (values : list RootedPtr)
  : exec (list (string * RootedPtr)) :=
  if decide (length keys <> length values) then internal (kind +:+ " completed with mismatched keys and values")
  else Ok (btree_collect (combine keys values)).

Definition sequence_exprs (expr : TypedExpr) : exec (list TypedExpr) :=
  match te_kind expr with
  | ETuple elems | EList elems => Ok elems
  | EDict kvs => Ok (map snd kvs)
  | _ => frame_kind_error "sequence"
  end.

Definition sequence_kind (expr : TypedExpr) : exec string :=
  match te_kind expr with
  | ETuple _ => Ok "tuple"
  | EList _ => Ok "list"
  | EDict _ => Ok "dict"
  | _ => frame_kind_error "sequence"
  end.

Definition record_update_exprs_for_keys (expr : TypedExpr) (keys : list Symbol) : exec (list TypedExpr) :=
  match te_kind expr with
  | ERecordUpdate _ updates =>
      map_result (fun key => ok_or (btree_get updates key) "record update frame key missing") keys
  | _ => frame_kind_error "record update"
  end.

Section eval.
Context (debug_assertions : bool) {F : Type} (runtime : RuntimeCore F).

Definition alloc_sequence_values (expr : TypedExpr) (values : list RootedPtr) : SM RootedPtr :=
  match te_kind expr with
  | ETuple _ => alloc_root_tuple debug_assertions values
  | EList _ => alloc_root_list debug_assertions values
  | EDict kvs =>
      let* values := mlift (fun _ => map_keys_to_values "dict" (map fst kvs) values) in
      alloc_root_dict debug_assertions values
  | _ => mlift (fun _ => frame_kind_error "sequence")
  end.

(** * Entering frames *)

Definition eval_literal_enter (f : FrLiteral) : SM EvalControl :=
  let* root := match te_kind (fl_expr f) with
    | EBool value => alloc_root_bool debug_assertions value
    | EUint value => alloc_uint_literal_as debug_assertions value (te_typ (fl_expr f))
    | EInt value => alloc_int_literal_as debug_assertions value (te_typ (fl_expr f))
    | EFloat value => alloc_float_literal_as debug_assertions value (te_typ (fl_expr f))
    | EChar value => alloc_root_char debug_assertions value
    | EString value => alloc_root_string debug_assertions value
    | EUuid value => alloc_root_uuid debug_assertions value
    | EDateTime value => alloc_root_datetime debug_assertions value
    | _ => mlift (fun _ => frame_kind_error "literal")
    end in
  mret (Return root).

Definition eval_sequence_enter (frame_id : FrameId) (f : FrSequence RootedPtr ScopedEnvironment) : EM EvalControl :=
  let* exprs := ethrow (sequence_exprs (fs_expr f)) in
  if decide (exprs = []) then
    let* root := in_scope (alloc_sequence_values (fs_expr f) []) in mret (Return root)
  else
    let* children := insert_children frame_id (fs_env f) exprs in
    let* _ := replace_frame frame_id (FrameSequence
                (mkFrSequence (fs_parent f) (fs_expr f) (fs_env f) EvalItem children
                   (replicate (length exprs) None) (length exprs))) in
    mret (Schedule children).

Abbreviation Update := (FrRecordUpdate RootedPtr ScopedEnvironment).

Definition update_with (f : Update) (state : FrRecordUpdateState) (base : option RootedPtr) (children : list FrameId)
    (values : list (option RootedPtr)) (remaining : nat) : Update :=
  mkFrRecordUpdate (fu_parent f) (fu_expr f) (fu_env f) state base (fu_update_keys f) children values remaining.

Definition eval_record_update_updates_enter (frame_id : FrameId) (f : Update) : EM EvalControl :=
  let* exprs := ethrow (record_update_exprs_for_keys (fu_expr f) (fu_update_keys f)) in
  let* children := insert_children frame_id (fu_env f) exprs in
  let* _ := replace_frame frame_id (FrameRecordUpdate
              (update_with f EvalUpdate (fu_base_value f) children (replicate (length exprs) None) (length exprs))) in
  mret (Schedule children).

(** The loop that goes down the spine of an application; the arguments come out reversed. *)
Fixpoint app_spine (head : TypedExpr) (spine : list FrAppArg) : TypedExpr * list FrAppArg :=
  match head with
  | mkTypedExpr _ (EApp func arg) => app_spine func (mkAppArg (te_typ func) arg :: spine)
  | _ => (head, spine)
  end.

Definition eval_app_enter (frame_id : FrameId) (f : App) : EM EvalControl :=
  let '(head, spine) := app_spine (fa_expr f) [] in
  let env := fa_env f in
  let* head_child := in_frames (store_insert (frame_for_expr (Some frame_id) head env)) in
  let* arg_children := insert_children frame_id env (map aa_expr spine) in
  let* _ := replace_frame frame_id (FrameApp
              (mkFrApp (fa_parent f) (fa_expr f) env EvalChildren (Some head) spine (Some head_child) arg_children
                 (replicate (length spine) None) (length spine + 1) 0 None None)) in
  mret (Schedule (head_child :: arg_children)).

(** ** Native frames *)

Definition as_native_call (frame : EFrame) : exec (FrNativeCall RootedPtr) :=
  match frame with FrameNativeCall f => Ok f | _ => frame_kind_error "native call" end.

Definition get_native_call (frame_id : FrameId) : EM (FrNativeCall RootedPtr) :=
  let* frame := in_frames (store_get frame_id) in ethrow (as_native_call frame).

(** The loop [for index in 0..child_count]. *)
Fixpoint schedule_native_children (frame_id : FrameId) (index count : nat) : EM unit :=
  match count with
  | 0 => mret tt
  | S count =>
      let* current := get_native_call frame_id in
      let* spec := in_scope (scheduled_child_spec debug_assertions (fn_task current) index) in
      let* child := in_frames (store_insert (frame_for_expr (Some frame_id) (spec_expr spec) (spec_env spec))) in
      let* current := get_native_call frame_id in
      let* task := ethrow (push_scheduled_child child (fn_task current)) in
      let* _ := replace_frame frame_id (FrameNativeCall (mkFrNativeCall (fn_parent current) (fn_state current) task)) in
      schedule_native_children frame_id (S index) count
  end.

Definition native_step_to_control (frame_id : FrameId) (f : FrNativeCall RootedPtr) (step : NativeStep) : EM EvalControl :=
  match step with
  | StepWait => let* _ := replace_frame frame_id (FrameNativeCall f) in mret Wait
  | StepReturn value => mret (Return value)
  | StepPush expr env =>
      let* _ := replace_frame frame_id (FrameNativeCall (mkFrNativeCall (fn_parent f) NativeWaiting (fn_task f))) in
      mret (Push expr env)
  | StepSchedule child_count =>
      let* _ := replace_frame frame_id (FrameNativeCall (mkFrNativeCall (fn_parent f) NativeWaiting (fn_task f))) in
      let* _ := schedule_native_children frame_id 0 child_count in
      let* current := get_native_call frame_id in
      let* children := ethrow (scheduled_children (fn_task current)) in
      mret (Schedule children)
  end.

Definition eval_native_enter (frame_id : FrameId) (f : FrNativeCall RootedPtr) : EM EvalControl :=
  match fn_state f with
  | NativeWaiting => ethrow (unexpected_child_result "native call")
  | NativeEnter =>
      let* r := in_scope (task_enter debug_assertions (fn_task f)) in
      native_step_to_control frame_id (mkFrNativeCall (fn_parent f) (fn_state f) r.2) r.1
  end.

Definition eval_native_receive (frame_id : FrameId) (f : FrNativeCall RootedPtr) (child : FrameId) (value : RootedPtr)
  : EM EvalControl :=
  match fn_state f with
  | NativeEnter => ethrow (unexpected_child_result "native call")
  | NativeWaiting =>
      let* r := in_scope (task_receive debug_assertions (fn_task f) child value) in
      native_step_to_control frame_id (mkFrNativeCall (fn_parent f) (fn_state f) r.2) r.1
  end.

Definition native_frame (parent : FrameId) (task : NativeTask RootedPtr) : EFrame :=
  FrameNativeCall (mkFrNativeCall (Some parent) NativeEnter task).

(** ** All frames *)

Definition value_entered (f : FrValue RootedPtr ScopedEnvironment) : FrValue RootedPtr ScopedEnvironment :=
  mkFrValue (fv_parent f) (fv_expr f) (fv_env f) ValueEnter (fv_value f).

Definition eval_var_enter (frame_id : FrameId) (f : FrValue RootedPtr ScopedEnvironment) : EM EvalControl :=
  let* resolved := match te_kind (fv_expr f) with
    | EClassMethod name => in_scope (eval_resolve_class_method debug_assertions runtime name (te_typ (fv_expr f)))
    | EVar name _ => in_scope (eval_resolve_var debug_assertions runtime (fv_env f) name (te_typ (fv_expr f)))
    | _ => ethrow (frame_kind_error "var")
    end in
  match resolved with
  | ResultValue value => mret (Return value)
  | ResultPush expr env =>
      let* _ := replace_frame frame_id (FrameVar (value_entered f)) in mret (Push expr env)
  | ResultPushNative task => mret (PushFrame (native_frame frame_id task))
  | ResultAwaitNative call =>
      let* _ := replace_frame frame_id (FrameVar (value_entered f)) in mret (AwaitNative call)
  end.

Abbreviation LetRec := (FrLetRec RootedPtr ScopedEnvironment).

Definition letrec_with (f : LetRec) (state : FrLetRecState) (recursive_env : option ScopedEnvironment)
    (slots : list RootedPtr) (next : nat) (binding : option RootedPtr) : LetRec :=
  mkFrLetRec (fr_parent f) (fr_expr f) (fr_env f) state recursive_env slots next binding.

Definition extend_slots (env : ScopedEnvironment) (names : list Symbol) (slots : list RootedPtr) : ScopedEnvironment :=
  foldl (fun env e => Scoped_extend env e.1 e.2) env (combine names slots).

Definition eval_letrec_enter (frame_id : FrameId) (f : LetRec) : EM EvalControl :=
  match te_kind (fr_expr f) with
  | ELetRec bindings body =>
      let* slot_roots := in_scope (mapM_st (fun b => alloc_root_uninitialized debug_assertions b.1) bindings) in
      let recursive_env := extend_slots (fr_env f) (map fst bindings) slot_roots in
      match bindings with
      | [] =>
          let* _ := replace_frame frame_id (FrameLetRec
                      (letrec_with f EvalRecBody (Some recursive_env) slot_roots (fr_next_binding_index f) (fr_binding_value f))) in
          mret (Push body recursive_env)
      | (_, def) :: _ =>
          let* _ := replace_frame frame_id (FrameLetRec
                      (letrec_with f EvalBinding (Some recursive_env) slot_roots (fr_next_binding_index f) (fr_binding_value f))) in
          mret (Push def recursive_env)
      end
  | _ => ethrow (frame_kind_error "let rec")
  end.

Definition eval_enter (frame_id : FrameId) (frame : EFrame) : EM EvalControl :=
  match frame with
  | FrameLiteral f => in_scope (eval_literal_enter f)
  | FrameHole _ => ethrow (raise UnsupportedExpr)
  | FrameSequence f => eval_sequence_enter frame_id f
  | FrameRecordUpdate f =>
      match te_kind (fu_expr f) with
      | ERecordUpdate base _ =>
          let* _ := replace_frame frame_id (FrameRecordUpdate
                      (update_with f EvalBase (fu_base_value f) (fu_update_children f) (fu_update_values f)
                         (fu_remaining_updates f))) in
          mret (Push base (fu_env f))
      | _ => ethrow (frame_kind_error "record update")
      end
  | FrameVar f => eval_var_enter frame_id f
  | FrameApp f => eval_app_enter frame_id f
  | FrameProject f =>
      match te_kind (fv_expr f) with
      | EProject expr _ =>
          let* _ := replace_frame frame_id (FrameProject (value_entered f)) in mret (Push expr (fv_env f))
      | _ => ethrow (frame_kind_error "project")
      end
  | FrameLam f =>
      match te_kind (fv_expr f) with
      | ELam param body =>
          match split_fun (te_typ (fv_expr f)) with
          | None => ethrow (not_callable (te_typ (fv_expr f)))
          | Some (param_ty, _) =>
              let* root := in_scope (alloc_root_closure debug_assertions (fv_env f) param param_ty (te_typ (fv_expr f)) body) in
              mret (Return root)
          end
      | _ => ethrow (frame_kind_error "lambda")
      end
  | FrameLet f =>
      match te_kind (ft_expr f) with
      | ELet _ def _ =>
          let* _ := replace_frame frame_id (FrameLet (mkFrLet (ft_parent f) (ft_expr f) (ft_env f) EvalDef (ft_def_value f))) in
          mret (Push def (ft_env f))
      | _ => ethrow (frame_kind_error "let")
      end
  | FrameLetRec f => eval_letrec_enter frame_id f
  | FrameIte f =>
      match te_kind (fi_expr f) with
      | EIte cond _ _ =>
          let* _ := replace_frame frame_id (FrameIte
                      (mkFrIte (fi_parent f) (fi_expr f) (fi_env f) EvalCondition (fi_cond_value f) (fi_selected f))) in
          mret (Push cond (fi_env f))
      | _ => ethrow (frame_kind_error "if")
      end
  | FrameMatch f =>
      match te_kind (fm_expr f) with
      | EMatch scrutinee _ =>
          let* _ := replace_frame frame_id (FrameMatch
                      (mkFrMatch (fm_parent f) (fm_expr f) (fm_env f) EvalScrutinee (fm_scrutinee_value f) (fm_arms f)
                         (fm_next_arm_index f) (fm_matched_env f))) in
          mret (Push scrutinee (fm_env f))
      | _ => ethrow (frame_kind_error "match")
      end
  | FrameNativeCall f => eval_native_enter frame_id f
  | FrameNativeHost _ => ethrow (unexpected_child_result "host native")
  end.

(** * Receiving results *)

(** The loop of [continue_app_after_apply]; its fuel is the number of arguments left,
    plus one. *)
Fixpoint app_loop (fuel : nat) (frame_id : FrameId) (f : App) : EM EvalControl :=
  match fuel with
  | 0 => ethrow (Err Diverges)
  | S fuel =>
      if decide (length (fa_spine f) < fa_next_arg_index f) then
        ethrow (internal "application frame advanced past final argument")
      else
        let* func := ethrow (ok_or (fa_func f) "application frame missing function") in
        if decide (fa_next_arg_index f = length (fa_spine f)) then mret (Return func)
        else
          let idx := fa_next_arg_index f in
          let* arg_info := ethrow (ok_or (fa_spine f !! idx) "application frame index out of bounds") in
          let* arg := ethrow (ok_or (mjoin (fa_arg_values f !! idx)) "application frame missing argument value") in
          let f := app_with f ApplyArg (fa_arg_values f) (fa_remaining f) idx (Some func) (Some arg) in
          let* _ := replace_frame frame_id (FrameApp f) in
          let* applied := in_scope (eval_apply_arg debug_assertions runtime func arg (Some (aa_func_type arg_info))
                                      (Some (te_typ (aa_expr arg_info)))) in
          match applied with
          | ResultValue applied =>
              let f := app_with f ApplyArg (fa_arg_values f) (fa_remaining f) (S idx) (Some applied) None in
              let* _ := replace_frame frame_id (FrameApp f) in
              app_loop fuel frame_id f
          | ResultPush expr env => mret (Push expr env)
          | ResultPushNative task => mret (PushFrame (native_frame frame_id task))
          | ResultAwaitNative call => mret (AwaitNative call)
          end
  end.

Definition app_rounds (f : App) : nat := S (length (fa_spine f) - fa_next_arg_index f).

Definition continue_app_after_apply (frame_id : FrameId) (f : App) (applied : option RootedPtr) : EM EvalControl :=
  match applied with
  | Some applied =>
      let f := app_with f (fa_state f) (fa_arg_values f) (fa_remaining f) (S (fa_next_arg_index f)) (Some applied) None in
      let* _ := replace_frame frame_id (FrameApp f) in
      app_loop (app_rounds f) frame_id f
  | None => app_loop (app_rounds f) frame_id f
  end.

(** The loop over the arms from arm [idx] on. *)
Fixpoint match_arms (value : RootedPtr) (idx : nat) (arms : list FrMatchArm) : SM (nat * TypedExpr * bindings) :=
  match arms with
  | [] => eraise MatchFailure
  | arm :: arms =>
      let* b := match_pattern_ptr debug_assertions (ma_pattern arm) value in
      match b with
      | Some b => mret (idx, ma_expr arm, b)
      | None => match_arms value (S idx) arms
      end
  end.

(** [root_as_bool] with the error of a condition. *)
Definition condition (value : RootedPtr) : SM bool := fun sc =>
  match root_as_bool debug_assertions value sc with
  | (Err (Raised (NativeType _ got)), sc) => (raise (ExpectedBool got), sc)
  | r => r
  end.

Definition eval_sequence_receive (frame_id : FrameId) (f : FrSequence RootedPtr ScopedEnvironment) (child : FrameId)
    (value : RootedPtr) : EM EvalControl :=
  let* kind := ethrow (sequence_kind (fs_expr f)) in
  match fs_state f with
  | SequenceEnter => ethrow (unexpected_child_result kind)
  | EvalItem =>
      let* r := ethrow (receive_sequence_value kind (fs_children f) (fs_values f) (fs_remaining f) child value) in
      if decide (r.2 = 0) then
        let* values := ethrow (completed_values kind r.1) in
        let* root := in_scope (alloc_sequence_values (fs_expr f) values) in
        mret (Return root)
      else
        let* _ := replace_frame frame_id (FrameSequence
                    (mkFrSequence (fs_parent f) (fs_expr f) (fs_env f) (fs_state f) (fs_children f) r.1 r.2)) in
        mret Wait
  end.

Definition eval_record_update_receive (frame_id : FrameId) (f : Update) (child : FrameId) (value : RootedPtr)
  : EM EvalControl :=
  match fu_state f with
  | UpdateEnter => ethrow (unexpected_child_result "record update")
  | EvalBase =>
      match fu_update_keys f with
      | [] =>
          let* root := in_scope (apply_record_update_values debug_assertions value []) in mret (Return root)
      | _ =>
          eval_record_update_updates_enter frame_id
            (update_with f EvalBase (Some value) (fu_update_children f) (fu_update_values f) (fu_remaining_updates f))
      end
  | EvalUpdate =>
      let* r := ethrow (receive_sequence_value "record update" (fu_update_children f) (fu_update_values f)
                          (fu_remaining_updates f) child value) in
      if decide (r.2 = 0) then
        let* base := ethrow (ok_or (fu_base_value f) "record update frame missing base") in
        let* values := ethrow (completed_values "record update" r.1) in
        let* update_values := ethrow (map_keys_to_values "record update" (fu_update_keys f) values) in
        let* root := in_scope (apply_record_update_values debug_assertions base update_values) in
        mret (Return root)
      else
        let* _ := replace_frame frame_id (FrameRecordUpdate
                    (update_with f EvalUpdate (fu_base_value f) (fu_update_children f) r.1 r.2)) in
        mret Wait
  end.

Definition eval_app_receive (frame_id : FrameId) (f : App) (child : FrameId) (value : RootedPtr) : EM EvalControl :=
  match fa_state f with
  | AppEnter => ethrow (unexpected_child_result "application")
  | EvalChildren =>
      let* f := ethrow (receive_app_child_value f child value) in
      if decide (fa_remaining f = 0) then
        continue_app_after_apply frame_id
          (app_with f (fa_state f) (fa_arg_values f) (fa_remaining f) 0 (fa_func f) (fa_arg f)) None
      else let* _ := replace_frame frame_id (FrameApp f) in mret Wait
  | ApplyArg => continue_app_after_apply frame_id f (Some value)
  end.

Definition eval_letrec_receive (frame_id : FrameId) (f : LetRec) (value : RootedPtr) : EM EvalControl :=
  match fr_state f with
  | LetRecEnter => ethrow (unexpected_child_result "let rec")
  | EvalRecBody => mret (Return value)
  | EvalBinding =>
      match te_kind (fr_expr f) with
      | ELetRec bindings body =>
          let idx := fr_next_binding_index f in
          let* slot := ethrow (ok_or (fr_slots f !! idx) "let rec frame slot index out of bounds") in
          let* _ := in_scope (overwrite_root debug_assertions slot value) in
          let* recursive_env := ethrow (ok_or (fr_recursive_env f) "let rec frame missing recursive environment") in
          if decide (S idx = length bindings) then
            let* _ := replace_frame frame_id (FrameLetRec
                        (letrec_with f EvalRecBody (fr_recursive_env f) (fr_slots f) (S idx) (Some value))) in
            mret (Push body recursive_env)
          else
            let* next := ethrow (index_vec bindings (S idx)) in
            let* _ := replace_frame frame_id (FrameLetRec
                        (letrec_with f EvalBinding (fr_recursive_env f) (fr_slots f) (S idx) (Some value))) in
            mret (Push next.2 recursive_env)
      | _ => ethrow (frame_kind_error "let rec")
      end
  end.

Definition eval_match_receive (frame_id : FrameId) (f : FrMatch RootedPtr ScopedEnvironment) (value : RootedPtr)
  : EM EvalControl :=
  match fm_state f with
  | MatchEnter => ethrow (unexpected_child_result "match")
  | EvalArm => mret (Return value)
  | EvalScrutinee =>
      let* found := in_scope (match_arms value (fm_next_arm_index f) (skipn (fm_next_arm_index f) (fm_arms f))) in
      let '(idx, expr, b) := found in
      let env := Scoped_extend_many (fm_env f) b in
      let* _ := replace_frame frame_id (FrameMatch
                  (mkFrMatch (fm_parent f) (fm_expr f) (fm_env f) EvalArm (Some value) (fm_arms f) idx (Some env))) in
      mret (Push expr env)
  end.

Definition eval_receive (frame_id : FrameId) (frame : EFrame) (child : FrameId) (value : RootedPtr) : EM EvalControl :=
  match frame with
  | FrameSequence f => eval_sequence_receive frame_id f child value
  | FrameRecordUpdate f => eval_record_update_receive frame_id f child value
  | FrameVar _ => mret (Return value)
  | FrameApp f => eval_app_receive frame_id f child value
  | FrameProject f =>
      match te_kind (fv_expr f) with
      | EProject _ field =>
          let* res := in_scope (project_pointer debug_assertions field value) in mret (Return res)
      | _ => ethrow (frame_kind_error "project")
      end
  | FrameLet f =>
      match ft_state f with
      | EvalDef =>
          match te_kind (ft_expr f) with
          | ELet name _ body =>
              let* _ := replace_frame frame_id (FrameLet (mkFrLet (ft_parent f) (ft_expr f) (ft_env f) EvalBody (Some value))) in
              mret (Push body (Scoped_extend (ft_env f) name value))
          | _ => ethrow (frame_kind_error "let")
          end
      | EvalBody => mret (Return value)
      | LetEnter => ethrow (unexpected_child_result "let")
      end
  | FrameLetRec f => eval_letrec_receive frame_id f value
  | FrameIte f =>
      match fi_state f with
      | EvalCondition =>
          match te_kind (fi_expr f) with
          | EIte _ then_expr else_expr =>
              let* b := in_scope (condition value) in
              let selected := if b : bool then then_expr else else_expr in
              let* _ := replace_frame frame_id (FrameIte
                          (mkFrIte (fi_parent f) (fi_expr f) (fi_env f) EvalSelected (Some value) (Some selected))) in
              mret (Push selected (fi_env f))
          | _ => ethrow (frame_kind_error "if")
          end
      | EvalSelected => mret (Return value)
      | BranchEnter => ethrow (unexpected_child_result "if")
      end
  | FrameMatch f => eval_match_receive frame_id f value
  | FrameNativeCall f => eval_native_receive frame_id f child value
  | FrameNativeHost _ => mret (Return value)
  | FrameLiteral _ | FrameHole _ | FrameLam _ => ethrow (unexpected_child_result "value")
  end.
End eval.
