(* ===== verification/Machine.v ===== *)
(** The evaluation loop: work items are popped, frames run, and host calls are queued and
    awaited ([rex-engine/src/evaluator/eval.rs] and [evaluator/mod.rs]). *)

From S2P Require Import Prelude Span Types Unify UnifyComplete BTree Adts Syntax TypedExprs Errors Heap.
From S2P Require Import HeapTrace HeapStress HeapCollect HeapSafety Env Scope Lists Values EvalScheduler Calls NativeTask.
From S2P Require Import HostScheduler Frames Registry EvalOps Eval.

(** * The machine *)

Record ScopedState : Type := mkScopedState { st_frames : EFrames; st_scheduler : EvalScheduler RootedPtr }.

Abbreviation CM A := (ST (RootScope * ScopedState) A).

Definition on_scope {A} (m : SM A) : CM A := fun s => let '(r, sc) := m s.1 in (r, (sc, s.2)).
Definition on_frames {A} (m : EM A) : CM A := fun s =>
  let '(r, (sc, fs)) := m (s.1, st_frames s.2) in (r, (sc, mkScopedState fs (st_scheduler s.2))).
Definition schedule (item : EvalWorkItem RootedPtr) : CM unit := fun s =>
  (Ok tt, (s.1, mkScopedState (st_frames s.2) (schedule_next item (st_scheduler s.2)))).

(** * Collecting *)

(** [LiveRootMapper]: it changes nothing and records every token it sees. *)
#[export] Instance live_root_mapper
  : FrameValueMapper (gset RootedPtr) RootedPtr ScopedEnvironment RootedPtr ScopedEnvironment := {
  map_value value := fun live => (Ok value, {[value]} ∪ live);
  map_environment env := fun live => (Ok env, list_to_set (Scoped_visit_values env) ∪ live) }.

Section machine.
Context (debug_assertions : bool) {F : Type} (runtime : RuntimeCore F).

Definition collect_machine_if_needed : CM unit := fun s =>
  let '(sc, state) := s in
  if negb (collect_needed (rs_heap sc)) then (Ok tt, s)
  else
    match map_frames Frame_map_values (st_frames state) (∅ : gset RootedPtr) with
    | (Err e, _) => (Err e, (sc, mkScopedState FrameStore_default (st_scheduler state)))
    | (Ok fs, live) =>
        let live := live ∪ list_to_set (scheduled_values (st_scheduler state)) ∪
                    list_to_set (typeclass_values (typeclasses runtime)) ∪
                    list_to_set (registry_values (natives runtime)) in
        let '(r, sc) := collect_if_needed debug_assertions live sc in
        (r, (sc, mkScopedState fs (st_scheduler state)))
    end.

(** * One cycle *)

Inductive ScopedCycleOutcome : Type :=
  | CycleContinue (native_request : option (FrameId * NativeCallRequest))
  | CycleCompleted (value : RootedPtr).

Definition pop_item : CM (EvalWorkItem RootedPtr) := fun s =>
  match pop_next (st_scheduler s.2) with
  | (Some item, scheduler) => (Ok item, (s.1, mkScopedState (st_frames s.2) scheduler))
  | (None, scheduler) => (internal "eval scheduler ran out of ready work", (s.1, mkScopedState (st_frames s.2) scheduler))
  end.

(** [for child in children.into_iter().rev() { scheduler.schedule_next(enter(child)) }] *)
Definition schedule_children (children : list FrameId) : CM unit :=
  let* _ := mapM_st (fun child => schedule (enter child)) (rev children) in mret tt.

(** What the machine does for a control. *)
Definition apply_control (frame_id : FrameId) (control : EvalControl) : CM ScopedCycleOutcome :=
  match control with
  | Push expr env =>
      let* child := on_frames (in_frames (store_insert (frame_for_expr (Some frame_id) expr env))) in
      let* _ := schedule (enter child) in
      mret (CycleContinue None)
  | PushFrame frame =>
      let* child := on_frames (in_frames (store_insert frame)) in
      let* _ := schedule (enter child) in
      mret (CycleContinue None)
  | Schedule children => let* _ := schedule_children children in mret (CycleContinue None)
  | Wait => mret (CycleContinue None)
  | AwaitNative call =>
      let* child := on_frames (in_frames (store_insert (FrameNativeHost (Some frame_id)))) in
      mret (CycleContinue (Some (child, call)))
  | Return value =>
      let* frame := on_frames (in_frames (store_remove frame_id)) in
      match frame_parent frame with
      | None => mret (CycleCompleted value)
      | Some parent =>
          let* _ := schedule (receive parent frame_id value) in
          mret (CycleContinue None)
      end
  end.

(** A completion of a host call becomes a value for its frame. *)
Definition deliver_completion (completed_native : option (FrameId * NativeCompletion)) : CM unit :=
  match completed_native with
  | None => mret tt
  | Some (frame, completion) =>
      let* value := on_scope (alloc_value debug_assertions (type_system runtime) (completion_value completion)
                                (completion_expected completion)) in
      schedule (receive frame frame value)
  end.

Definition run_scoped_eval_cycle (completed_native : option (FrameId * NativeCompletion)) : CM ScopedCycleOutcome :=
  let* _ := deliver_completion completed_native in
  let* item := pop_item in
  let* frame := on_frames (in_frames (store_get (item_frame item))) in
  let* control := on_frames
    match item_returned item with
    | Some returned =>
        eval_receive debug_assertions runtime (item_frame item) frame (ret_child returned) (ret_value returned)
    | None => eval_enter debug_assertions runtime (item_frame item) frame
    end in
  apply_control (item_frame item) control.

Inductive RuntimeCycleOutcome : Type :=
  | RuntimeContinue (queued_native : option (FrameId * NativeCall))
  | RuntimeCompleted (value : RootedPtr).

(** The call of a request is prepared inside the scope; [None]: the fuel for its exports
    ran out. *)
Definition run_runtime_cycle (fuel : nat) (completed_native : option (FrameId * NativeCompletion))
  : CM (option RuntimeCycleOutcome) :=
  let* outcome := run_scoped_eval_cycle completed_native in
  match outcome with
  | CycleCompleted value => mret (Some (RuntimeCompleted value))
  | CycleContinue None => mret (Some (RuntimeContinue None))
  | CycleContinue (Some (frame, request)) => fun s =>
      match prepare debug_assertions (type_system runtime) fuel request s.1 with
      | None => (Ok None, s)
      | Some (Err e, sc) => (Err e, (sc, s.2))
      | Some (Ok call, sc) => (Ok (Some (RuntimeContinue (Some (frame, call)))), (sc, s.2))
      end
  end.

(** * The loop

    A host future answers a value; the completion adds the type of the call. *)
Context {C Permit : Type} `{PC : ParallelismController C Permit}.
Context (policy : F -> F) (poll_host : F -> Poll (result EngineError Value) * F).

Definition HostFuture : Type := F * ty.

Definition invoke_call (call : NativeCall) : result EngineError HostFuture :=
  let? future := call_invoke runtime policy call in Ok (future, call_result_type call).

Definition poll_call (future : HostFuture) : Poll (result EngineError NativeCompletion) * HostFuture :=
  match poll_host future.1 with
  | (PollReady (Ok value), f) => (PollReady (Ok (mkCompletion value future.2)), (f, future.2))
  | (PollReady (Err e), f) => (PollReady (Err e), (f, future.2))
  | (PollPending, f) => (PollPending, (f, future.2))
  end.

Abbreviation Host := (@HostScheduler.HostScheduler NativeCall HostFuture NativeCompletion C Permit).

Inductive EvalBoundary : Type := MoreInternalWork | HostWork | WaitingForHost.

Definition wait_for_host (b : EvalBoundary) : bool :=
  match b with HostWork | WaitingForHost => true | MoreInternalWork => false end.

Definition boundary_from_state (state : ScopedState) (host : Host) : exec EvalBoundary :=
  if has_ready_work (st_scheduler state) then Ok MoreInternalWork
  else if has_queued_native_work host then Ok HostWork
  else if has_pending_native_work host then Ok WaitingForHost
  else internal "eval scheduler has no internal or host work".

Record EvalLoop : Type := mkEvalLoop {
  lp_heap : Heap; lp_state : ScopedState; lp_host : Host; lp_boundary : EvalBoundary }.

(** How the loop ends: with a value, or a fault. *)
Abbreviation LoopStep := (exec RootedPtr * Heap + EvalLoop)%type.

Definition next_boundary (h : Heap) (state : ScopedState) (host : Host) : LoopStep :=
  match boundary_from_state state host with
  | Ok b => inr (mkEvalLoop h state host b)
  | Err e => inl (Err e, h)
  end.

(** The cycle inside [machine_root_scope]. *)
Definition scoped_cycle (fuel : nat) (completed : option (FrameId * NativeCompletion)) (h : Heap) (state : ScopedState)
  : exec (option RuntimeCycleOutcome) * (Heap * ScopedState) :=
  let '(r, (sc, state)) :=
    (let* _ := collect_machine_if_needed in run_runtime_cycle fuel completed)
      (mkScope (set_defer_collection true h) [] true, state) in
  (r, (set_defer_collection false (rs_heap sc), state)).

Definition run_cycle (fuel : nat) (completed : option (FrameId * NativeCompletion)) (h : Heap) (state : ScopedState)
    (host : Host) : option LoopStep :=
  match scoped_cycle fuel completed h state with
  | (Err e, (h, _)) => Some (inl (Err e, h))
  | (Ok None, _) => None
  | (Ok (Some (RuntimeCompleted result)), (h, _)) => Some (inl (Ok result, h))
  | (Ok (Some (RuntimeContinue queued_native)), (h, state)) =>
      let host := match queued_native with
        | Some (frame, call) => schedule_native call_scheduling frame call host
        | None => host
        end in
      Some (next_boundary h state host)
  end.

(** One round of the loop; [None]: the fuel for the host or for an export ran out. *)
Definition eval_round (fuel : nat) (l : EvalLoop) : option LoopStep :=
  let wait := wait_for_host (lp_boundary l) in
  let limit := ready_work_limit_of (parallelism_controller (lp_host l)) in
  let state := mkScopedState (st_frames (lp_state l)) (set_ready_work_limit limit (st_scheduler (lp_state l))) in
  match poll_pending_native invoke_call poll_call fuel wait (lp_host l) with
  | None => None
  | Some (Err e, _) => Some (inl (raise e, lp_heap l))
  | Some (Ok Progress, host) => Some (next_boundary (lp_heap l) state host)
  | Some (Ok (Completed frame completion), host) => run_cycle fuel (Some (frame, completion)) (lp_heap l) state host
  | Some (Ok Idle, host) =>
      if wait then Some (inl (internal "eval scheduler ran out of host work", lp_heap l))
      else run_cycle fuel None (lp_heap l) state host
  end.

Fixpoint eval_loop (fuel : nat) (l : EvalLoop) : option (exec RootedPtr * Heap) :=
  match fuel with
  | 0 => None
  | S fuel' =>
      match eval_round fuel l with
      | None => None
      | Some (inl r) => Some r
      | Some (inr l) => eval_loop fuel' l
      end
  end.

(** ** Starting *)

Definition alloc_inputs (input_args : list (Value * ty)) : SM (list (RootedPtr * ty)) :=
  mapM_st (fun a => let* v := alloc_value debug_assertions (type_system runtime) a.1 a.2 in mret (v, a.2)) input_args.

Definition start_machine (limit : N) (rooted_env : RootedEnvironment) (expr : TypedExpr) (input_args : list (Value * ty))
  : SM ScopedState :=
  let env := to_scoped_environment rooted_env in
  let* start := match input_args with
    | [] => mret (env, expr)
    | _ =>
        let* args := alloc_inputs input_args in
        mlift (fun _ => synthetic_rooted_application_expr_from_head env expr args)
    end in
  mlift (fun _ =>
    match store_insert (frame_for_expr None start.2 start.1) FrameStore_default with
    | (Ok root_frame, frames) => Ok (mkScopedState frames (EvalScheduler_new root_frame limit))
    | (Err e, _) => Err e
    end).

Definition eval_typed_expr (fuel : nat) (controller : C) (rooted_env : RootedEnvironment) (expr : TypedExpr)
    (input_args : list (Value * ty)) (h : Heap) : option (exec RootedPtr * Heap) :=
  match machine_root_scope (start_machine (ready_work_limit_of controller) rooted_env expr input_args) h with
  | (Err e, h) => Some (Err e, h)
  | (Ok state, h) => eval_loop fuel (mkEvalLoop h state (HostScheduler_new controller) MoreInternalWork)
  end.

(** * [Evaluator::run] *)

Record MainInput : Type := mkMainInput { input_name : string; input_typ : ty }.
Record CompiledProgram : Type := mkProgram {
  prog_inputs : list MainInput; prog_result_type : ty; prog_env : RootedEnvironment; prog_expr : TypedExpr }.

(** A [BTreeSet] of names: their sorted list. *)
Definition name_set (names : list string) : list string := map fst (foldl (fun s n => btree_insert n tt s) [] names).
Definition set_difference (a b : list string) : list string := List.filter (fun n => negb (bool_decide (n ∈ b))) a.

Fixpoint take_inputs (signature : list MainInput) (inputs : list (string * Value)) : exec (list (Value * ty)) :=
  match signature with
  | [] => Ok []
  | input :: signature =>
      let? found := ok_or (btree_remove (input_name input) inputs) "validated input map was incomplete" in
      let? rest := take_inputs signature found.2 in
      Ok ((found.1, input_typ input) :: rest)
  end.

Definition main_input_args (signature : list MainInput) (inputs : list (string * Value)) : exec (list (Value * ty)) :=
  let expected := name_set (map input_name signature) in
  let actual := map fst inputs in
  if decide (expected <> actual) then
    raise (MainInputMismatch (set_difference expected actual) (set_difference actual expected))
  else take_inputs signature inputs.

(** The result's type, from the value when the signature leaves it open. *)
Definition resolve_result_type (result_type : ty) (result : RootedPtr) (h : Heap) : exec ty * Heap :=
  if closed_type result_type then (Ok result_type, h)
  else
    match machine_root_scope (infer_type debug_assertions result) h with
    | (Err e, h) => (Err e, h)
    | (Ok actual, h) => ((let? s := unify_native result_type actual in Ok (apply s result_type)), h)
    end.

(** The export runs in a machine scope of its own. *)
Definition export_result (fuel : nat) (result : RootedPtr) (result_type : ty) (h : Heap) : option (exec Value * Heap) :=
  match export_value debug_assertions (type_system runtime) fuel result result_type
          (mkScope (set_defer_collection true h) [] true) with
  | None => None
  | Some (r, sc) => Some (r, set_defer_collection false (rs_heap sc))
  end.

Definition evaluator_run (fuel : nat) (controller : C) (program : CompiledProgram) (inputs : list (string * Value))
    (h : Heap) : option (exec Value * Heap) :=
  match main_input_args (prog_inputs program) inputs with
  | Err e => Some (Err e, h)
  | Ok args =>
      match eval_typed_expr fuel controller (prog_env program) (prog_expr program) args h with
      | None => None
      | Some (Err e, h) => Some (Err e, h)
      | Some (Ok result, h) =>
          match resolve_result_type (prog_result_type program) result h with
          | (Err e, h) => Some (Err e, h)
          | (Ok result_type, h) => export_result fuel result result_type h
          end
      end
  end.
End machine.
