(* ===== verification/MachineGC.v ===== *)
(** Collections of the evaluation loop: every token that the machine holds survives. *)

From S2P Require Import Prelude Span Types Unify UnifyComplete BTree Adts Syntax TypedExprs Errors Heap.
From S2P Require Import HeapTrace HeapStress HeapCollect HeapSafety Env Scope Lists Values EvalScheduler Calls NativeTask.
From S2P Require Import HostScheduler Frames Registry EvalOps Eval Machine.

(** * The tokens of tasks and frames *)

Section tokens.
Context {P : Type}.

Definition items_tokens (items : ListItems P) : list P :=
  match items with Slice elements _ _ | BinarySlice elements _ _ _ => [elements] | Pointers values => values end.
Definition option_tokens {X} (tokens : X -> list P) (o : option X) : list P :=
  match o with Some x => tokens x | None => [] end.
Abbreviation optional := (option_tokens (fun x : P => [x])).
Abbreviation optionals l := (concat (map optional l)).

Definition sequence_tokens {S X} (tokens : X -> list P) (t : NativeSequence S X P) : list P :=
  sq_func t :: items_tokens (sq_values t) ++ concat (map (option_tokens tokens) (sq_results t)).
Definition unary_tokens {X} (tokens : X -> list P) (t : NativeUnary X P) : list P :=
  un_func t :: un_value t :: tokens (un_extra t).

Definition task_tokens (task : NativeTask P) : list P :=
  match task with
  | ApplyUnary t => [au_func t; au_arg t]
  | SequenceMap t => sequence_tokens (fun x => [x]) t
  | SequenceFilter t => sequence_tokens (fun _ => []) t
  | SequencePredicate t => sequence_tokens (fun _ => []) t
  | SequenceFilterMap t => sequence_tokens optional t
  | SequenceFlatMap t => sequence_tokens (fun l => l) t
  | ListSearch t => ls_func t :: items_tokens (ls_values t)
  | UnaryMap t => unary_tokens (fun _ => []) t
  | UnaryFilter t => unary_tokens (fun x => [x]) t
  | UnaryFilterMap t => unary_tokens (fun _ => []) t
  | UnaryFlatMap t => unary_tokens (fun _ => []) t
  | Fold t => fo_func t :: items_tokens (fo_values t) ++ fo_acc t :: optional (fo_step t)
  | DictMap t => dm_func t :: map snd (dm_entries t) ++ map snd (dm_output t)
  | DictEntryMap t => de_func t :: de_args t ++ optionals (de_output t)
  | DictFilter t => df_func t :: map snd (df_entries t) ++ df_args t
  | DictFilterMap t =>
      dfm_func t :: map snd (dfm_entries t) ++ concat (map (option_tokens optional) (dfm_output t))
  | DictUpdate t => du_func t :: map snd (du_entries t) ++ [du_arg t]
  | ArrayEq t => items_tokens (ae_xs t) ++ items_tokens (ae_ys t) ++ optional (ae_step t)
  | Sum t => items_tokens (su_values t) ++ optional (su_acc t) ++ optional (su_plus t) ++ optional (su_step t)
  | Mean t => items_tokens (me_values t) ++ optional (me_acc t) ++ optional (me_step t) ++ optional (me_len_value t)
  end.

Context {E : Type} (env_tokens : E -> list P).

Definition value_tokens (f : FrValue P E) : list P := env_tokens (fv_env f) ++ optional (fv_value f).

Definition frame_tokens (frame : Frame P E) : list P :=
  match frame with
  | FrameLiteral _ | FrameNativeHost _ => []
  | FrameHole f | FrameVar f | FrameProject f | FrameLam f => value_tokens f
  | FrameSequence f => env_tokens (fs_env f) ++ optionals (fs_values f)
  | FrameRecordUpdate f => env_tokens (fu_env f) ++ optional (fu_base_value f) ++ optionals (fu_update_values f)
  | FrameApp f => env_tokens (fa_env f) ++ optionals (fa_arg_values f) ++ optional (fa_func f) ++ optional (fa_arg f)
  | FrameLet f => env_tokens (ft_env f) ++ optional (ft_def_value f)
  | FrameLetRec f =>
      env_tokens (fr_env f) ++ option_tokens env_tokens (fr_recursive_env f) ++ fr_slots f ++ optional (fr_binding_value f)
  | FrameIte f => env_tokens (fi_env f) ++ optional (fi_cond_value f)
  | FrameMatch f => env_tokens (fm_env f) ++ optional (fm_scrutinee_value f) ++ option_tokens env_tokens (fm_matched_env f)
  | FrameNativeCall f => task_tokens (fn_task f)
  end.
End tokens.

(** The tokens of the machine: what it can still use. *)
Definition machine_tokens {F} (runtime : RuntimeCore F) (state : ScopedState) : list RootedPtr :=
  concat (map (fun e => frame_tokens Scoped_visit_values e.2) (frames (st_frames state))) ++
  scheduled_values (st_scheduler state) ++ typeclass_values (typeclasses runtime) ++ registry_values (natives runtime).

(** * What the mapper visits *)

Definition visits {A} (m : ST (gset RootedPtr) A) (a : A) (l : list RootedPtr) : Prop :=
  forall live, m live = (Ok a, list_to_set l ∪ live).

Lemma visits_ret {A} (a : A) : visits (mret a) a [].
Proof. intros live. unfold mret. f_equal. set_solver. Qed.

Lemma visits_bind {A B} (m : ST (gset RootedPtr) A) (k : A -> ST (gset RootedPtr) B) a b l l' :
  visits m a l -> visits (k a) b l' -> visits (mthen m k) b (l ++ l').
Proof.
  intros Hm Hk live. unfold mthen. rewrite Hm, Hk. f_equal. rewrite list_to_set_app_L. set_solver.
Qed.

(** The last operation of a chain. *)
Lemma visits_last {A B} (m : ST (gset RootedPtr) A) (k : A -> ST (gset RootedPtr) B) a b l :
  visits m a l -> k a = mret b -> visits (mthen m k) b l.
Proof. intros Hm Hk. rewrite <- (app_nil_r l). eapply visits_bind; [done|]. rewrite Hk. apply visits_ret. Qed.

Lemma visits_value (r : RootedPtr) : visits (map_value r) r [r].
Proof. intros live. simpl. f_equal. set_solver. Qed.

Lemma visits_env (env : ScopedEnvironment) : visits (map_environment env) env (Scoped_visit_values env).
Proof. done. Qed.

Lemma visits_option {A} (g : A -> ST (gset RootedPtr) A) (tokens : A -> list RootedPtr) o :
  (forall x, visits (g x) x (tokens x)) -> visits (map_option_st g o) o (option_tokens tokens o).
Proof. intros Hg. destruct o as [x|]; [|apply visits_ret]. eapply visits_last; [apply Hg|done]. Qed.

Lemma visits_mapM {A} (g : A -> ST (gset RootedPtr) A) (tokens : A -> list RootedPtr) l :
  (forall x, visits (g x) x (tokens x)) -> visits (mapM_st g l) l (concat (map tokens l)).
Proof.
  intros Hg. induction l as [|x l IH]; simpl; [apply visits_ret|].
  eapply visits_bind; [apply Hg|]. eapply visits_last; [apply IH|done].
Qed.

Lemma visits_values l : visits (mapM_st map_value l) l l.
Proof.
  pose proof (visits_mapM map_value (fun x => [x]) l visits_value) as H.
  replace (concat (map (fun x => [x]) l)) with l in H; [done|]. clear H; induction l; simpl; congruence.
Qed.

Lemma visits_entries {K} (l : list (K * RootedPtr)) : visits (map_entries_into map_value l) l (map snd l).
Proof.
  pose proof (visits_mapM (fun e : K * RootedPtr => let* y := map_value e.2 in mret (e.1, y)) (fun e => [e.2]) l) as H.
  replace (concat (map (fun e => [e.2]) l)) with (map snd l) in H.
  - apply H. intros [k r]. eapply visits_last; [apply visits_value|done].
  - clear H. induction l; simpl; congruence.
Qed.

Lemma visits_items items : visits (items_map_values map_value items) items (items_tokens items).
Proof. destruct items; (eapply visits_last; [first [apply visits_value | apply visits_values]|done]). Qed.

#[local] Hint Resolve visits_value visits_env visits_option visits_mapM visits_values visits_entries visits_items
  visits_ret : visits.

(** Each visit of a chain takes the tokens that follow; [t] is the record that the chain
    rebuilds. *)
Ltac visit_chain t :=
  lazymatch goal with
  | |- visits (mthen _ (fun _ => mret _)) _ _ => eapply visits_last; [solve [eauto with visits]|by destruct t]
  | |- visits (mthen _ _) _ _ => eapply visits_bind; [solve [eauto with visits]|visit_chain t]
  end.

(** Where the mapped value is the first of the list. *)
Ltac visit_first := eapply (visits_bind _ _ _ _ [_]); [apply visits_value|].

Lemma visits_sequence {Sh X} (g : X -> ST (gset RootedPtr) X) (tokens : X -> list RootedPtr)
    (t : NativeSequence Sh X RootedPtr) :
  (forall x, visits (g x) x (tokens x)) -> visits (sequence_map_values map_value g t) t (sequence_tokens tokens t).
Proof. intros Hg. unfold sequence_map_values, sequence_tokens. visit_first. visit_chain t. Qed.

Lemma visits_unary {X} (g : X -> ST (gset RootedPtr) X) (tokens : X -> list RootedPtr) (t : NativeUnary X RootedPtr) :
  (forall x, visits (g x) x (tokens x)) -> visits (unary_map_values map_value g t) t (unary_tokens tokens t).
Proof. intros Hg. unfold unary_map_values, unary_tokens. visit_first. visit_first. visit_chain t. Qed.

Lemma visits_task (task : NativeTask RootedPtr) :
  visits (NativeTask_map_values map_value task) task (task_tokens task).
Proof.
  destruct task as [t|t|t|t|t|t|t|t|t|t|t|t|t|t|t|t|t|t|t|t]; cbn [NativeTask_map_values task_tokens];
    try (eapply visits_last; [first [apply visits_sequence | apply visits_unary]; intros ?; solve [eauto with visits]|done]);
    try solve [try visit_first; visit_chain t].
  - visit_first. eapply visits_bind; [apply visits_items|]. visit_first. visit_chain t.
Qed.

Lemma visits_value_frame (f : FrValue RootedPtr ScopedEnvironment) :
  visits (value_map_values f) f (value_tokens Scoped_visit_values f).
Proof. unfold value_map_values, value_tokens. visit_chain f. Qed.

Lemma visits_frame (frame : EFrame) :
  visits (Frame_map_values frame) frame (frame_tokens Scoped_visit_values frame).
Proof.
  destruct frame as [f|f|f|f|f|f|f|f|f|f|f|f|f|f]; cbn [Frame_map_values frame_tokens];
    try (eapply visits_last; [apply visits_value_frame|done]); try solve [eauto with visits | visit_chain f].
  eapply visits_last; [apply visits_task|by destruct f].
Qed.

Lemma visits_frames (fs : EFrames) :
  visits (map_frames Frame_map_values fs) fs (concat (map (fun e => frame_tokens Scoped_visit_values e.2) (frames fs))).
Proof.
  destruct fs as [n fs]. eapply visits_last; [|done]. cbn [frames].
  apply (visits_mapM _ (fun e => frame_tokens Scoped_visit_values e.2)). intros [id f].
  eapply visits_last; [apply visits_frame|done].
Qed.

(** * The collection point of the loop *)

Section collect.
Context (debug : bool) {F : Type} (runtime : RuntimeCore F).

Lemma machine_live_tokens state :
  list_to_set (concat (map (fun e => frame_tokens Scoped_visit_values e.2) (frames (st_frames state)))) ∪ ∅ ∪
  list_to_set (scheduled_values (st_scheduler state)) ∪ list_to_set (typeclass_values (typeclasses runtime)) ∪
  list_to_set (registry_values (natives runtime)) =@{gset RootedPtr} list_to_set (machine_tokens runtime state).
Proof using. unfold machine_tokens. rewrite !list_to_set_app_L. set_solver. Qed.

(** C23. The collection point of the evaluation loop: it changes neither the frames nor the
    queued work, and every token that a frame, a queued result, a type class environment or
    a native constant holds stands afterwards for the same object, at its new place, with
    everything that can be reached from it. A collection leaves no other token behind. *)
Theorem machine_collection_keeps_tokens sc state (Hok : scope_ok sc)
    (Hep : (collection_epoch (rs_heap sc) < u64_max)%Z) :
  exists sc' g, collect_machine_if_needed debug runtime (sc, state) = (Ok tt, (sc', state)) /\ scope_ok sc' /\
    (forall r p, r ∈ machine_tokens runtime state -> live_root (rs_heap sc) r p ->
      live_root (rs_heap sc') r (g p) /\
      forall q c, reach_from (rs_heap sc) p q -> cell_at (rs_heap sc) q = Some c ->
                  cell_at (rs_heap sc') (g q) = Some (rename g c)) /\
    (collect_needed (rs_heap sc) = true ->
     forall r p, live_root (rs_heap sc') r p -> r ∈ machine_tokens runtime state).
Proof.
  unfold collect_machine_if_needed. destruct (collect_needed (rs_heap sc)) eqn:Hneed; simpl.
  - rewrite visits_frames, machine_live_tokens.
    destruct (collect_if_needed_spec debug sc (list_to_set (machine_tokens runtime state)) (so_inv _ Hok) Hneed Hep)
      as (sc' & g & -> & I' & Hd & Hr & Hcells).
    exists sc', g. destruct state as [fs s]. split_and!; [done|split; [done|by rewrite Hd; destruct Hok]| |].
    + setoid_rewrite elem_of_list_to_set in Hr. setoid_rewrite elem_of_list_to_set in Hcells.
      intros r p Hin Hp. split; [apply Hr; eauto|eauto].
    + intros _ r q (Hin & _)%Hr. by rewrite elem_of_list_to_set in Hin.
  - exists sc, (fun p => p). split_and!; [done|done| |done]. intros r p _ Hp. split; [done|].
    intros q c _ Hc. by rewrite rename_id.
Qed.
End collect.

(** A machine that waits for the second of a tuple's elements, with the result of the first
    in its frame and another result in the queue. *)
Definition demo_runtime : RuntimeCore unit := mkRuntime NativeRegistry_default ∅ (mkTypeSystem ∅ ∅).
Definition demo_state : ScopedState :=
  mkScopedState
    (mkFrameStore 3 [(0, FrameSequence (mkFrSequence None (mkTypedExpr (TTuple []) (ETuple [])) Scoped_new EvalItem [1; 2]
                                          [Some demo_a; None] 1))])
    (mkEvalScheduler [receive 0 2 demo_b] [] 4).

Lemma machine_collection_keeps_tokens_witness :
  exists sc' g,
    collect_machine_if_needed true demo_runtime (demo_scope, demo_state) = (Ok tt, (sc', demo_state)) /\ scope_ok sc' /\
    (forall r p, r ∈ machine_tokens demo_runtime demo_state -> live_root (rs_heap demo_scope) r p ->
      live_root (rs_heap sc') r (g p) /\
      forall q c, reach_from (rs_heap demo_scope) p q -> cell_at (rs_heap demo_scope) q = Some c ->
                  cell_at (rs_heap sc') (g q) = Some (rename g c)) /\
    (collect_needed (rs_heap demo_scope) = true ->
     forall r p, live_root (rs_heap sc') r p -> r ∈ machine_tokens demo_runtime demo_state).
Proof. apply (machine_collection_keeps_tokens true demo_runtime demo_scope demo_state demo_scope_ok). reflexivity. Defined.
