(* ===== verification/ValueFaults.v ===== *)
(** Faults of operations on values, and the operations of the evaluator that have no
    others: the errors that the machine's own bookkeeping raises are not among them. *)

From S2P Require Import Prelude Span Types Unify UnifyComplete BTree Adts Syntax TypedExprs Errors Heap.
From S2P Require Import HeapTrace HeapStress HeapCollect HeapSafety Env Scope Lists Values EvalScheduler Calls NativeTask.
From S2P Require Import HostScheduler Frames Registry EvalOps.

(** The errors of a program: of its types, its names and its data. *)
Definition user_error (e : EngineError) : bool :=
  match e with
  | UnknownVar _ | NotCallable _ | NativeArity _ _ _ | NativeType _ _ | ValueConversion _ _ _ | MatchFailure
  | ExpectedBool _ | Type_ _ | AmbiguousOverload _ | MissingImpl _ _ | AmbiguousImpl _ _ | MissingTypeclassImpl _ _
  | AmbiguousTypeclassImpl _ _ | UnknownField _ _ | UnsupportedExpr | EmptySequence => true
  | _ => false
  end.

Section faults.
Context (debug : bool) {F : Type} (runtime : RuntimeCore F).

(** The operations on the heap that the evaluator calls: tokens, cells, lists, types of
    values and the import of owned values. *)
Inductive value_op : forall A, SM A -> Prop :=
  | op_pointer r : value_op _ (pointer debug r)
  | op_root p : value_op _ (root debug p)
  | op_cell r : value_op _ (get_cell_from_rooted_ptr debug r)
  | op_alloc c : value_op _ (scope_alloc debug c)
  | op_overwrite target v : value_op _ (overwrite_root debug target v)
  | op_infer r : value_op _ (infer_type debug r)
  | op_import v T : value_op _ (alloc_value debug (type_system runtime) v T)
  | op_list_alloc vs : value_op _ (alloc_root_list debug vs)
  | op_list_read r : value_op _ (root_as_list debug r)
  | op_list_len r : value_op _ (list_len debug r)
  | op_list_head_tail r : value_op _ (list_head_tail debug r)
  | op_list_items r : value_op _ (list_items debug r)
  | op_item items i : value_op _ (items_get debug items i)
  | op_items_len (items : ListItems RootedPtr) : value_op _ (mlift (fun _ => items_len items)).

(** A native function of the registry that works on the scope. *)
Definition scheduler_native (f : ty -> list RootedPtr -> SM SchedulerNativeResult) : Prop :=
  exists id imp, by_id (natives runtime) !! id = Some imp /\ imp_func imp = SchedulerCallable f.

(** The faults that are not the machine's: errors of the program, faults of heap
    operations and of native functions, natives that are not registered or are called in
    the wrong way, and lists longer than [u64::MAX]. *)
Inductive value_fault : fault -> Prop :=
  | vf_user e : user_error e = true -> value_fault (Raised e)
  | vf_op A (m : SM A) sc e : value_op A m -> (m sc).1 = Err e -> value_fault e
  | vf_native f T args sc e : scheduler_native f -> (f T args sc).1 = Err e -> value_fault e
  | vf_id id e : native_callable runtime id = Err e -> value_fault e
  | vf_abi c id T args e : callable_call (F := F) c id T args = Err e -> value_fault e
  | vf_count n m e : u64_of_usize n m = Err e -> value_fault e.

(** * Operations that fail with such faults only *)

(** [yields m Q]: every answer of [m] satisfies [Q] and every fault is one of values. *)
Definition yields {A} (m : SM A) (Q : A -> Prop) : Prop :=
  forall sc, match (m sc).1 with Ok a => Q a | Err e => value_fault e end.

(** The same without a state. *)
Definition gives {A} (r : exec A) (Q : A -> Prop) : Prop :=
  match r with Ok a => Q a | Err e => value_fault e end.

Lemma yields_ret {A} (a : A) (Q : A -> Prop) : Q a -> yields (mret a) Q.
Proof. by intros H sc. Qed.

Lemma yields_lift {A} (r : exec A) (Q : A -> Prop) : gives r Q -> yields (mlift (fun _ => r)) Q.
Proof. by intros H sc. Qed.

Lemma yields_raise {A} e (Q : A -> Prop) : user_error e = true -> yields (mlift (fun _ => raise e)) Q.
Proof. intros H sc. by apply vf_user. Qed.

Lemma yields_bind {A B} (m : SM A) (k : A -> SM B) (P : A -> Prop) (Q : B -> Prop) :
  yields m P -> (forall a, P a -> yields (k a) Q) -> yields (mthen m k) Q.
Proof.
  intros Hm Hk sc. unfold mthen. specialize (Hm sc). destruct (m sc) as [[a|e] sc']; [|done]. by apply Hk.
Qed.

Lemma yields_mono {A} (m : SM A) (P Q : A -> Prop) : yields m P -> (forall a, P a -> Q a) -> yields m Q.
Proof. intros Hm H sc. specialize (Hm sc). destruct (m sc) as [[]]; simpl in *; auto. Qed.

Lemma yields_op {A} (m : SM A) : value_op A m -> yields m (fun _ => True).
Proof. intros H sc. destruct (m sc) as [[|e] sc'] eqn:Hm; [done|]. eapply vf_op; [done|]. by rewrite Hm. Qed.

Lemma yields_mapM {A B} (f : A -> SM B) l :
  (forall x, yields (f x) (fun _ => True)) -> yields (mapM_st f l) (fun ys => length ys = length l).
Proof.
  intros Hf. induction l as [|x l IH]; [by apply yields_ret|].
  eapply yields_bind; [apply Hf|]. intros y _. eapply yields_bind; [apply IH|]. intros ys Hys.
  apply yields_ret. simpl. congruence.
Qed.

Lemma gives_bind {A B} (r : exec A) (k : A -> exec B) (P : A -> Prop) (Q : B -> Prop) :
  gives r P -> (forall a, P a -> gives (k a) Q) -> gives (rbind r k) Q.
Proof. destruct r; simpl; auto. Qed.

Lemma gives_raise {A} e (Q : A -> Prop) : user_error e = true -> gives (raise e) Q.
Proof. intros H. by apply vf_user. Qed.

Lemma gives_ok {A} (a : A) (Q : A -> Prop) : Q a -> gives (Ok a) Q.
Proof. done. Qed.
End faults.

#[export] Hint Constructors value_op : values.
#[export] Hint Resolve yields_op : values.

(** What is tried at a leaf; extended below. *)
Ltac yield_leaf := fail.

(** Steps through a computation whose answers need no more than [True]. *)
Ltac yield :=
  cbn beta iota zeta;
  lazymatch goal with
  | |- forall _, _ => intros ?; yield
  | |- yields _ _ (mthen _ _) _ => apply (yields_bind _ _ _ _ (fun _ => True)); [yield|intros ? ?; yield]
  | |- yields _ _ (mret _) _ => apply yields_ret; try done
  | |- yields _ _ (mlift (fun _ => raise _)) _ => apply yields_raise; reflexivity
  | |- yields _ _ (eraise _) _ => apply yields_raise; reflexivity
  | |- yields _ _ (mapM_st _ _) _ => eapply yields_mono; [apply yields_mapM; intros ?; yield|done]
  | |- yields _ _ (match ?x with _ => _ end) _ => destruct x; yield
  | |- gives _ _ (rbind _ _) _ => apply (gives_bind _ _ _ _ (fun _ => True)); [yield|intros ? ?; yield]
  | |- gives _ _ (Ok _) _ => apply gives_ok; try done
  | |- gives _ _ (raise _) _ => apply gives_raise; reflexivity
  | |- gives _ _ (match ?x with _ => _ end) _ => destruct x; yield
  | |- yields _ _ (mlift (fun _ => ?r)) _ =>
      first [solve [eauto with values] | apply yields_lift; yield]
  | |- _ => first [solve [eauto with values] | yield_leaf | idtac]
  end.

Section ops.
Context (debug : bool) {F : Type} (runtime : RuntimeCore F).

Abbreviation yields := (yields debug runtime).
Abbreviation gives := (gives debug runtime).
Abbreviation any := (fun _ => True).

Lemma root_as_yields {A} (as_ : Cell -> exec A) r : (forall c, gives (as_ c) any) -> yields (root_as debug as_ r) any.
Proof using. intros H. unfold root_as. yield. Qed.

Lemma root_as_bool_yields r : yields (root_as_bool debug r) any.
Proof using. apply root_as_yields. by intros []; hnf; try apply vf_user. Qed.

Lemma root_as_string_yields r : yields (root_as_string debug r) any.
Proof using. apply root_as_yields. by intros []; hnf; try apply vf_user. Qed.

Lemma root_as_tuple_yields r : yields (root_as_tuple debug r) any.
Proof using. unfold root_as_tuple. eapply yields_bind; [apply root_as_yields; by intros []; hnf; try apply vf_user|]. yield. Qed.

Lemma root_as_dict_yields r : yields (root_as_dict debug r) any.
Proof using.
  unfold root_as_dict, root_fields. eapply yields_bind; [apply root_as_yields; by intros []; hnf; try apply vf_user|]. yield.
Qed.

Lemma root_as_adt_yields r : yields (root_as_adt debug r) any.
Proof using. unfold root_as_adt. eapply yields_bind; [apply root_as_yields; by intros []; hnf; try apply vf_user|]. yield. Qed.

Lemma type_name_yields r : yields (type_name debug r) any.
Proof using. unfold type_name. yield. Qed.

Lemma alloc_scalar_yields c : yields (scope_alloc debug c) any.
Proof using. yield. Qed.

Lemma alloc_tuple_yields vs : yields (alloc_root_tuple debug vs) any.
Proof using. unfold alloc_root_tuple, pointers_of. yield. Qed.

Lemma alloc_dict_yields vs : yields (alloc_root_dict debug vs) any.
Proof using. unfold alloc_root_dict, field_pointers. yield. Qed.

Lemma alloc_adt_yields tag vs : yields (alloc_root_adt debug tag vs) any.
Proof using. unfold alloc_root_adt, pointers_of. yield. Qed.

Lemma alloc_closure_yields env x T T' e : yields (alloc_root_closure debug env x T T' e) any.
Proof using. unfold alloc_root_closure, from_scoped, field_pointers. yield. Qed.

Lemma alloc_native_yields id name arity T vs Ts : yields (alloc_root_native debug id name arity T vs Ts) any.
Proof using. unfold alloc_root_native, pointers_of. yield. Qed.

Lemma alloc_overloaded_yields name T vs Ts : yields (alloc_root_overloaded debug name T vs Ts) any.
Proof using. unfold alloc_root_overloaded, pointers_of. yield. Qed.

Lemma root_as_native_yields r : yields (root_as_native debug r) any.
Proof using. unfold root_as_native, root_native. yield. Qed.

Lemma root_as_callable_yields r : yields (root_as_callable debug r) any.
Proof using. unfold root_as_callable, root_native, to_scoped, root_fields. yield. Qed.

Lemma unify_native_gives T T' : gives (unify_native T T') any.
Proof using. unfold unify_native. yield. Qed.

#[local] Hint Resolve unify_native_gives : values.

Lemma resolve_arg_type_yields T r : yields (resolve_arg_type debug T r) any.
Proof using.
  unfold resolve_arg_type. destruct T as [t|]; [|yield]. destruct (closed_type t); [by apply yields_ret|].
  intros sc. unfold or_else.
  match goal with |- context [match ?m sc with _ => _ end] => assert (Hm : yields m any) by yield; specialize (Hm sc) end.
  by destruct (mthen _ _ sc) as [[|[]] ?].
Qed.

Lemma application_result_type_gives T T' : gives (application_result_type T T') any.
Proof using. unfold application_result_type, not_callable. yield. Qed.

Lemma apply_synthetic_gives args : forall i env e T, gives (apply_synthetic i env e T args) any.
Proof using.
  induction args as [|[arg T'] args IH]; intros i env e T; [done|]. simpl.
  eapply gives_bind; [apply application_result_type_gives|]. intros ? _. apply IH.
Qed.

Lemma native_apply_spec_gives f T arg T' : gives (native_apply_spec f T arg T') any.
Proof using. eapply gives_bind; [apply apply_synthetic_gives|done]. Qed.
End ops.

#[export] Hint Resolve root_as_bool_yields root_as_string_yields root_as_tuple_yields root_as_dict_yields root_as_adt_yields type_name_yields alloc_scalar_yields alloc_tuple_yields alloc_dict_yields alloc_adt_yields alloc_closure_yields alloc_native_yields alloc_overloaded_yields root_as_native_yields root_as_callable_yields unify_native_gives resolve_arg_type_yields application_result_type_gives apply_synthetic_gives native_apply_spec_gives : values.

(** * Literals, patterns, projections and record updates *)

Section eval_ops.
Context (debug : bool) {F : Type} (runtime : RuntimeCore F).

Abbreviation yields := (yields debug runtime).
Abbreviation gives := (gives debug runtime).
Abbreviation any := (fun _ => True).

Lemma try_literal_yields lo hi v name : yields (try_literal lo hi v name) any.
Proof using. unfold try_literal. yield. Qed.
#[local] Hint Resolve try_literal_yields : values.

(** The typed allocations and literals are those of a cell. *)
#[local] Ltac yield_leaf ::= first [apply alloc_scalar_yields | apply try_literal_yields].

Lemma alloc_uint_literal_yields n T : yields (alloc_uint_literal_as debug n T) any.
Proof using. unfold alloc_uint_literal_as. yield. Qed.

Lemma alloc_int_literal_yields z T : yields (alloc_int_literal_as debug z T) any.
Proof using. unfold alloc_int_literal_as. yield. Qed.

Lemma alloc_float_literal_yields x T : yields (alloc_float_literal_as debug x T) any.
Proof using. unfold alloc_float_literal_as. yield. Qed.

Lemma project_pointer_yields field r : yields (project_pointer debug field r) any.
Proof using. unfold project_pointer. yield. Qed.

Lemma record_update_yields r updates : yields (apply_record_update_values debug r updates) any.
Proof using. unfold apply_record_update_values. yield. Qed.

(** Patterns never index out of range: the lengths are compared first. *)
Lemma index_vec_yields {A} (l : list A) i : i < length l -> yields (mlift (fun _ => index_vec l i)) any.
Proof using. intros [x Hx]%lookup_lt_is_Some_2 sc. simpl. unfold index_vec. by rewrite Hx. Qed.

Lemma match_patterns_yields f ps : Forall (fun p => forall v, yields (f p v) any) ps ->
  forall i values b, i + length ps <= length values -> yields (match_patterns f i ps values b) any.
Proof using.
  induction 1 as [|p ps Hp _ IH]; intros i values b Hlen; simpl in *; [by apply yields_ret|].
  eapply yields_bind; [apply index_vec_yields; lia|]. intros v _.
  eapply yields_bind; [apply Hp|]. intros [sub|] _; [apply IH; lia|by apply yields_ret].
Qed.

Lemma match_field_patterns_yields f fs : Forall (fun e : Symbol * Pattern => forall v, yields (f e.2 v) any) fs ->
  forall i values b, i + length fs <= length values -> yields (match_field_patterns f i fs values b) any.
Proof using.
  induction 1 as [|[k p] fs Hp _ IH]; intros i values b Hlen; simpl in *; [by apply yields_ret|].
  eapply yields_bind; [apply index_vec_yields; lia|]. intros v _.
  eapply yields_bind; [apply Hp|]. intros [sub|] _; [apply IH; lia|by apply yields_ret].
Qed.

Lemma match_list_loop_yields f ps : Forall (fun p => forall v, yields (f p v) any) ps ->
  forall i values b, yields (match_list_loop debug f i ps values b) any.
Proof using.
  induction 1 as [|p ps Hp _ IH]; intros i values b; simpl in *; [by apply yields_ret|].
  destruct (is_wildcard p); [apply IH|]. eapply yields_bind; [by yield|]. intros v _.
  eapply yields_bind; [apply Hp|]. intros [sub|] _; [apply IH|by apply yields_ret].
Qed.

Lemma all_some_length {A} (l : list (option A)) l' : all_some l = Some l' -> length l' = length l.
Proof using.
  revert l'. induction l as [|[x|] l IH]; intros l' H; simplify_eq/=; [done|].
  destruct (all_some l) as [l0|] eqn:Hl; simplify_eq/=. f_equal. by apply IH.
Qed.

Lemma match_pattern_yields p : forall v, yields (match_pattern_ptr debug p v) any.
Proof using.
  induction p as [s|v|s n ps IH|s ps IH|s ps IH|s p q IHp IHq|s fs IH] using Pattern_ind'; intros r;
    cbn [match_pattern_ptr]; try by apply yields_ret.
  - apply (yields_bind _ _ _ _ any); [yield|]. intros kind _. case_decide.
    { apply (yields_bind _ _ _ _ any); [yield|]. intros [tag args] _. simpl.
      destruct (runtime_ctor_matches _ _); simpl; [|by apply yields_ret].
      destruct (bool_decide_reflect (length args = length ps)) as [Hl|]; [|by apply yields_ret].
      apply match_patterns_yields; [done|lia]. }
    case_decide; [|by apply yields_ret]. case_decide; [yield|].
    case_decide as Hcons; [|by apply yields_ret].
    apply (yields_bind _ _ _ _ any); [yield|]. intros [[hd tl]|] _; [|by apply yields_ret].
    apply match_patterns_yields; [done|]. simpl. lia.
  - apply (yields_bind _ _ _ _ any); [yield|]. intros kind _. case_decide; [by apply yields_ret|].
    apply (yields_bind _ _ _ _ any); [yield|]. intros xs _. case_decide; [|by apply yields_ret].
    apply match_patterns_yields; [done|lia].
  - apply (yields_bind _ _ _ _ any); [yield|]. intros len _. case_decide; [by apply yields_ret|].
    destruct (forallb is_wildcard ps); [by apply yields_ret|].
    apply (yields_bind _ _ _ _ any); [yield|]. intros items _. unfold match_list_patterns.
    apply (yields_bind _ _ _ _ any); [yield|]. intros n _. case_decide; [by apply yields_ret|].
    by apply match_list_loop_yields.
  - apply (yields_bind _ _ _ _ any); [yield|]. intros [[hd tl]|] _; [|by apply yields_ret].
    apply (yields_bind _ _ _ _ any); [apply IHp|]. intros [b|] _; [|by apply yields_ret].
    apply (yields_bind _ _ _ _ any); [apply IHq|]. intros [b'|] _; by apply yields_ret.
  - apply (yields_bind _ _ _ _ any); [yield|]. intros kind _. case_decide; [by apply yields_ret|].
    apply (yields_bind _ _ _ _ any); [yield|]. intros m _.
    destruct (all_some _) as [values|] eqn:Hall; [|by apply yields_ret].
    apply all_some_length in Hall. rewrite length_map in Hall.
    apply match_field_patterns_yields; [done|lia].
Qed.
End eval_ops.

#[export] Hint Resolve alloc_uint_literal_yields alloc_int_literal_yields alloc_float_literal_yields
  project_pointer_yields record_update_yields match_pattern_yields : values.
