(* ===== verification/TaskSafety.v ===== *)
(** Native tasks never raise an error of their own bookkeeping: what a task waits for, and
    what each of its steps does to that. *)

From S2P Require Import Prelude Span Types Unify UnifyComplete BTree Adts Syntax TypedExprs Errors Heap.
From S2P Require Import HeapTrace HeapStress HeapCollect HeapSafety Env Scope Lists Values EvalScheduler Calls NativeTask.
From S2P Require Import HostScheduler Frames Registry EvalOps ValueFaults.

(** * Children and their results

    [children] and [slots] go together; a child whose slot is empty is awaited. *)

Fixpoint unanswered {X} (children : list FrameId) (slots : list (option X)) : list FrameId :=
  match children, slots with
  | child :: children, slot :: slots =>
      match slot with None => child :: unanswered children slots | Some _ => unanswered children slots end
  | _, _ => []
  end.

Record slots_wf {X} (children : list FrameId) (slots : list (option X)) (remaining : nat) (cs : list FrameId) : Prop := {
  sw_nodup : NoDup children;
  sw_length : length slots = length children;
  sw_missing : cs ≡ₚ unanswered children slots;
  sw_remaining : remaining = length cs }.

Lemma unanswered_subset {X} children (slots : list (option X)) c : c ∈ unanswered children slots -> c ∈ children.
Proof.
  revert slots. induction children as [|d children IH]; intros [|[x|] slots]; simpl; try set_solver.
Qed.

Lemma position_spec child children i : position child children = Some i -> children !! i = Some child.
Proof.
  revert i. induction children as [|c children IH]; intros i; simpl; [done|]. case_decide as Hc.
  - intros [= <-]. by subst.
  - destruct (position child children) as [j|]; intros [= <-]. by apply IH.
Qed.

Lemma unanswered_position {X} children (slots : list (option X)) c : NoDup children -> c ∈ unanswered children slots ->
  exists i, position c children = Some i /\ slots !! i = Some None /\
    forall x, unanswered children slots ≡ₚ c :: unanswered children (<[i := Some x]> slots).
Proof.
  revert slots. induction children as [|d children IH]; intros slots Hnd Hc; [by inversion Hc|].
  apply NoDup_cons in Hnd as [Hd Hnd]. destruct slots as [|s slots]; [by inversion Hc|]. simpl in *.
  destruct s as [y|].
  - assert (d <> c) by (intros ->; apply Hd; by eapply unanswered_subset).
    destruct (IH slots Hnd Hc) as (i & Hi & Hs & Hm). exists (S i). rewrite decide_False, Hi by done. simpl.
    split_and!; [done|done|done].
  - apply elem_of_cons in Hc as [->|Hc].
    + exists 0. rewrite decide_True by done. simpl. done.
    + assert (d <> c) by (intros ->; apply Hd; by eapply unanswered_subset).
      destruct (IH slots Hnd Hc) as (i & Hi & Hs & Hm). exists (S i). rewrite decide_False, Hi by done. simpl.
      split_and!; [done|done|]. intros x. by rewrite (Hm x), Permutation_swap.
Qed.

Lemma unanswered_none {X} children : unanswered children (replicate (length children) (@None X)) = children.
Proof. induction children; simpl; congruence. Qed.

Lemma no_missing {X} children (slots : list (option X)) : length slots = length children ->
  unanswered children slots = [] -> exists xs, all_some slots = Some xs /\ slots = map Some xs.
Proof.
  revert slots. induction children as [|c children IH]; intros [|[x|] slots] Hl; simplify_eq/=; intros Hm.
  - by exists [].
  - destruct (IH slots Hl Hm) as (xs & -> & ->). by exists (x :: xs).
  - done.
Qed.

(** All children awaited, at the beginning. *)
Lemma slots_wf_start {X} children n r : NoDup children -> length children = n -> r = n ->
  slots_wf children (replicate n (@None X)) r children.
Proof. intros Hnd <- ->. split; [done|by rewrite length_replicate|by rewrite unanswered_none|done]. Qed.

(** A result of an awaited child fits, and leaves the others awaited. *)
Lemma slots_wf_receive {X} children (slots : list (option X)) remaining cs c : slots_wf children slots remaining cs -> c ∈ cs ->
  exists i r cs', position c children = Some i /\ slots !! i = Some None /\ remaining = S r /\ cs ≡ₚ c :: cs' /\
    forall x, slots_wf children (<[i := Some x]> slots) r cs'.
Proof.
  intros [Hnd Hlen Hm Hr] Hc. rewrite Hm in Hc.
  destruct (unanswered_position _ _ _ Hnd Hc) as (i & Hi & Hs & Hp).
  assert (Hc' : c ∈ cs) by by rewrite Hm. apply elem_of_Permutation in Hc' as [cs' Hcs].
  exists i, (length cs'), cs'. split_and!; [done|done| |done|].
  - rewrite Hr, Hcs. done.
  - intros x. split; [done|by rewrite length_insert| |done].
    apply (Permutation_cons_inv (a := c)). by rewrite <- Hcs, Hm, (Hp x).
Qed.

(** When none remains, every slot is full. *)
Lemma slots_wf_complete {X} children (slots : list (option X)) cs : slots_wf children slots 0 cs ->
  exists xs, all_some slots = Some xs /\ slots = map Some xs.
Proof.
  intros [_ Hlen Hm Hr]. apply (no_missing children); [done|].
  destruct cs; [|done]. by apply Permutation_nil in Hm.
Qed.

(** * What tasks wait for *)

(** A task as the primitives make it. *)
Definition task_initial (task : NativeTask RootedPtr) : Prop :=
  match task with
  | Sum t => su_state t = FoldEnter
  | DictMap t => NoDup (map fst (dm_entries t))
  | DictFilter t => length (df_args t) = length (df_entries t)
  | _ => True
  end.

(** A task that waits for one result. *)
Definition task_one (task : NativeTask RootedPtr) : Prop :=
  match task with
  | ApplyUnary _ | ListSearch _ | UnaryMap _ | UnaryFilter _ | UnaryFilterMap _ | UnaryFlatMap _ => True
  | Fold t => fo_state t <> FoldEnter /\ forall n, items_len (fo_values t) = Ok n -> fo_next_index t < n
  | ArrayEq t => ae_state t <> EqEnter
  | Sum t => match su_state t with FoldEnter => True | _ => is_Some (su_plus t) end
  | Mean t =>
      match me_state t with MeanEnter => False | MeanApplyDivFirst => is_Some (me_len_value t) | _ => True end
  | _ => False
  end.

Definition dict_map_slots (t : NativeDictMap RootedPtr) : list (option RootedPtr) :=
  map (fun e => btree_get (dm_output t) e.1) (dm_entries t).

(** A task that waits for the results of [cs]. *)
Definition task_many (task : NativeTask RootedPtr) (cs : list FrameId) : Prop :=
  match task with
  | SequenceMap t => slots_wf (sq_children t) (sq_results t) (sq_remaining t) cs
  | SequenceFilter t => slots_wf (sq_children t) (sq_results t) (sq_remaining t) cs
  | SequencePredicate t =>
      slots_wf (sq_children t) (sq_results t) (sq_remaining t) cs /\
      forall n, items_len (sq_values t) = Ok n -> n <= length (sq_results t)
  | SequenceFilterMap t => slots_wf (sq_children t) (sq_results t) (sq_remaining t) cs
  | SequenceFlatMap t => slots_wf (sq_children t) (sq_results t) (sq_remaining t) cs
  | DictMap t => NoDup (map fst (dm_entries t)) /\ slots_wf (dm_children t) (dict_map_slots t) (dm_remaining t) cs
  | DictEntryMap t => slots_wf (de_children t) (de_output t) (de_remaining t) cs
  | DictFilter t => slots_wf (df_children t) (df_keep t) (df_remaining t) cs
  | DictFilterMap t => slots_wf (dfm_children t) (dfm_output t) (dfm_remaining t) cs
  | DictUpdate t => exists c, du_children t = [c] /\ cs = [c]
  | _ => False
  end.

(** A task that has asked for [n] children, of which it has [children] so far. *)
Definition sequence_filling {S X} (t : NativeSequence S X RootedPtr) (n : nat) (children : list FrameId) : Prop :=
  sq_children t = children /\ sq_results t = replicate n None /\ sq_remaining t = n.

Definition task_filling (task : NativeTask RootedPtr) (n : nat) (children : list FrameId) : Prop :=
  match task with
  | SequenceMap t => sequence_filling t n children
  | SequenceFilter t => sequence_filling t n children
  | SequencePredicate t => sequence_filling t n children /\ items_len (sq_values t) = Ok n
  | SequenceFilterMap t => sequence_filling t n children
  | SequenceFlatMap t => sequence_filling t n children
  | DictMap t =>
      NoDup (map fst (dm_entries t)) /\ dm_children t = children /\ dm_output t = [] /\ dm_remaining t = n /\
      length (dm_entries t) = n
  | DictEntryMap t =>
      de_children t = children /\ de_output t = replicate n None /\ de_remaining t = n /\ length (de_args t) = n
  | DictFilter t =>
      df_children t = children /\ df_keep t = replicate n None /\ df_remaining t = n /\ length (df_args t) = n
  | DictFilterMap t =>
      dfm_children t = children /\ dfm_output t = replicate n None /\ dfm_remaining t = n /\ length (dfm_entries t) = n
  | DictUpdate t => du_children t = children /\ n = 1
  | _ => False
  end.

(** What a task may ask for when it is entered. *)
Definition enter_result (r : NativeStep * NativeTask RootedPtr) : Prop :=
  match r.1 with
  | StepWait => False
  | StepPush _ _ => task_one r.2
  | StepSchedule n => 0 < n /\ task_filling r.2 n []
  | StepReturn _ => True
  end.

(** And when it receives the one result it waits for, or that of [c], of [cs]. *)
Definition receive_one_result (r : NativeStep * NativeTask RootedPtr) : Prop :=
  match r.1 with
  | StepWait | StepSchedule _ => False
  | StepPush _ _ => task_one r.2
  | StepReturn _ => True
  end.

Definition receive_many_result (c : FrameId) (cs : list FrameId) (r : NativeStep * NativeTask RootedPtr) : Prop :=
  match r.1 with
  | StepWait => exists cs', cs ≡ₚ c :: cs' /\ cs' <> [] /\ task_many r.2 cs'
  | StepReturn _ => cs = [c]
  | StepPush _ _ | StepSchedule _ => False
  end.

(** * Children *)

Lemma push_child task n children child : task_filling task n children ->
  exists task', push_scheduled_child child task = Ok task' /\ task_filling task' n (children ++ [child]).
Proof.
  destruct task; simpl; unfold sequence_filling; try done; intros H; eexists; (split; [reflexivity|]); simpl;
    unfold sequence_filling; simpl; intuition congruence.
Qed.

Lemma filling_children task n children : task_filling task n children -> scheduled_children task = Ok children.
Proof. destruct task; simpl; unfold sequence_filling; try done; intuition congruence. Qed.

Lemma filling_full task n children : task_filling task n children -> NoDup children -> length children = n ->
  task_many task children.
Proof.
  intros H Hnd Hlen. destruct task; simpl in *; try done; unfold sequence_filling in *; destruct_and!; subst children;
    repeat match goal with H : _ = replicate _ _ |- _ => rewrite H end;
    try (apply slots_wf_start; [done|congruence..]).
  - split; [apply slots_wf_start; [done|congruence..]|]. intros m Hm. rewrite length_replicate. assert (m = n) by congruence. lia.
  - split; [done|]. unfold dict_map_slots.
    replace (map _ _) with (replicate n (@None RootedPtr)); [apply slots_wf_start; [done|congruence..]|].
    match goal with H : dm_output _ = [] |- _ => rewrite H end. subst n.
    match goal with H : length (dm_entries _) = _ |- _ => rewrite <- H end. clear -task.
    induction (dm_entries task) as [|e l IH]; [done|]. simpl. by rewrite IH.
  - subst n. destruct (du_children task) as [|c [|]]; simplify_eq/=. eauto.
Qed.

Section tasks.
Context (debug : bool) {F : Type} (runtime : RuntimeCore F).

Abbreviation yields := (yields debug runtime).
Abbreviation gives := (gives debug runtime).
Abbreviation any := (fun _ => True).

#[local] Ltac yield_leaf ::= first [apply alloc_scalar_yields | apply vf_count].

Lemma child_spec_yields task n children i : task_filling task n children -> i < n ->
  yields (scheduled_child_spec debug task i) any.
Proof using.
  assert (Hnth : forall {A} (l : list A) m, i < length l -> gives (ok_or (l !! i) m) any).
  { intros A l m Hi. apply lookup_lt_is_Some_2 in Hi as [x ->]. done. }
  destruct task; simpl; unfold sequence_filling, sequence_child_spec; try done; intros H Hi; destruct_and!; subst;
    first [solve [yield]|apply yields_lift]; unfold dict_map_child_spec, dict_entry_map_child_spec, dict_filter_child_spec,
      dict_filter_map_child_spec, dict_update_child_spec.
  1-4: eapply gives_bind; [apply Hnth; congruence|intros ? _; apply native_apply_spec_gives].
  rewrite decide_False by lia. apply native_apply_spec_gives.
Qed.
(** ** Entering *)

Lemma yields_answer {A} (r : exec A) : gives r any -> yields (mlift (fun _ => r)) (fun a => r = Ok a).
Proof using. intros H sc. simpl. destruct r; [done|]. apply H. Qed.

Lemma items_len_gives (items : ListItems RootedPtr) : gives (items_len items) any.
Proof using.
  assert (H : yields (mlift (fun _ => items_len items)) any) by yield.
  by specialize (H (mkScope (Heap_new 0) [] true)).
Qed.

Lemma items_is_empty_gives (items : ListItems RootedPtr) : gives (items_is_empty items) any.
Proof using. eapply gives_bind; [apply items_len_gives|]. done. Qed.

Lemma nonempty_len (items : ListItems RootedPtr) n : items_is_empty items = Ok false -> items_len items = Ok n -> 0 < n.
Proof using. unfold items_is_empty. intros H Hn. rewrite Hn in H. destruct n; [done|lia]. Qed.

Lemma empty_len (items : ListItems RootedPtr) n : items_is_empty items = Ok true -> items_len items = Ok n -> n = 0.
Proof using. unfold items_is_empty. intros H Hn. rewrite Hn in H. by destruct n. Qed.

(** One computation after the other; the counts of items are remembered. *)
Ltac steps :=
  cbn beta iota zeta delta [ok_or checked_pred];
  lazymatch goal with
  | |- forall _, _ => intros ?; steps
  | |- ValueFaults.yields _ _ (mthen (mlift (fun _ => items_len ?i)) _) _ =>
      eapply yields_bind; [apply yields_answer, items_len_gives|let H := fresh "Hlen" in intros ? H; cbn beta in H; steps]
  | |- ValueFaults.yields _ _ (mthen (mlift (fun _ => items_is_empty ?i)) _) _ =>
      eapply yields_bind; [apply yields_answer, items_is_empty_gives|let H := fresh "Hempty" in intros ? H; cbn beta in H; steps]
  | |- ValueFaults.yields _ _ (mthen (if ?b then _ else _) _) _ => destruct b eqn:?; steps
  | |- ValueFaults.yields _ _ (mthen (mlift (fun _ => Ok ?x)) _) _ =>
      apply (yields_bind _ _ _ _ (eq x)); [by apply yields_lift|intros ? <-; steps]
  | |- ValueFaults.yields _ _ (mthen (mret _) _) _ => apply (yields_bind _ _ _ _ _ _ (yields_ret _ _ _ _ eq_refl)); intros ? <-; steps
  | |- ValueFaults.yields _ _ (mthen _ _) _ => tryif (apply (yields_bind _ _ _ _ any); [solve [yield]|intros ? _]) then steps else idtac
  | |- ValueFaults.yields _ _ (mret _) _ => apply yields_ret
  | |- ValueFaults.yields _ _ (mlift (fun _ => raise _)) _ => apply yields_raise; reflexivity
  | |- ValueFaults.yields _ _ (if ?b then _ else _) _ => destruct b eqn:?; steps
  | |- _ => idtac
  end.

Lemma native_apply_step_yields f T arg T' :
  yields (native_apply_step f T arg T') (fun step => match step with StepPush _ _ => True | _ => False end).
Proof using.
  apply yields_lift. eapply gives_bind; [apply native_apply_spec_gives|]. by intros spec _.
Qed.

Lemma sequence_enter_yields {S X} (t : NativeSequence S X RootedPtr) empty :
  yields empty (fun step => match step with StepReturn _ => True | _ => False end) ->
  yields (sequence_enter t empty) (fun r =>
    match r.1 with
    | StepReturn _ => True
    | StepSchedule n => 0 < n /\ sequence_filling r.2 n [] /\ items_len (sq_values r.2) = Ok n
    | _ => False
    end).
Proof using.
  intros He. unfold sequence_enter. steps.
  - eapply yields_bind; [apply He|]. intros step Hs. apply yields_ret. simpl. by destruct step.
  - subst. simpl. split; [by eapply nonempty_len|done].
Qed.

Lemma wrapped_yields {T} (wrap : T -> NativeTask RootedPtr) m (P : NativeStep * T -> Prop) Q :
  yields m P -> (forall r, P r -> Q (r.1, wrap r.2)) -> yields (wrapped wrap m) Q.
Proof using. intros Hm H. eapply yields_bind; [apply Hm|]. intros r Hr. by apply yields_ret, H. Qed.

Lemma unchanged_yields task m (P : NativeStep -> Prop) Q :
  yields m P -> (forall step, P step -> Q (step, task)) -> yields (unchanged task m) Q.
Proof using. intros Hm H. eapply yields_bind; [apply Hm|]. intros r Hr. by apply yields_ret, H. Qed.

Definition returns (step : NativeStep) : Prop := match step with StepReturn _ => True | _ => False end.
Definition pushes (step : NativeStep) : Prop := match step with StepPush _ _ => True | _ => False end.
Definition returns_or_pushes (step : NativeStep) : Prop := match step with StepReturn _ | StepPush _ _ => True | _ => False end.

Lemma return_root_yields m : yields m any -> yields (return_root m) returns.
Proof using. intros H. eapply yields_bind; [apply H|]. intros r _. by apply yields_ret. Qed.

Lemma returns_both m : yields m returns -> yields m returns_or_pushes.
Proof using. intros H. eapply yields_mono; [apply H|]. by intros []. Qed.
Lemma pushes_both m : yields m pushes -> yields m returns_or_pushes.
Proof using. intros H. eapply yields_mono; [apply H|]. by intros []. Qed.

Lemma native_sequence_yields shape vs : yields (alloc_native_sequence debug shape vs) any.
Proof using. destruct shape. simpl. yield. Qed.

Lemma u64_of_usize_gives n message : gives (u64_of_usize n message) any.
Proof using. destruct (u64_of_usize n message) eqn:H; [done|]. by eapply vf_count. Qed.

#[local] Ltac yield_leaf ::=
  first [apply alloc_scalar_yields | apply u64_of_usize_gives | apply items_len_gives | apply native_sequence_yields].

Lemma partition_loop_yields values matches indices :
  Forall (fun i => exists b : bool, matches !! i = Some (Some b)) indices ->
  yields (partition_loop debug values indices matches) any.
Proof using.
  induction 1 as [|i indices [b Hb] _ IH]; [by apply yields_ret|]. simpl. steps. rewrite Hb.
  destruct b; (eapply yields_bind; [apply IH|]; intros; by apply yields_ret).
Qed.

Lemma predicate_finish_yields mode values matches :
  (forall n i, items_len values = Ok n -> i < n -> exists b : bool, matches !! i = Some (Some b)) ->
  yields (predicate_finish debug mode values matches) any.
Proof using.
  intros H. destruct mode; simpl; [yield|]. steps.
  eapply yields_bind; [apply partition_loop_yields|intros ? _; yield].
  apply Forall_forall. intros i Hi%elem_of_seq. eapply H; [eassumption|lia].
Qed.

Lemma search_step_yields (t : NativeListSearch RootedPtr) : yields (search_apply_next debug t) returns_or_pushes.
Proof using. unfold search_apply_next. steps. apply pushes_both, native_apply_step_yields. Qed.

Lemma search_exhausted_yields (t : NativeListSearch RootedPtr) : yields (search_exhausted debug t) returns_or_pushes.
Proof using. apply returns_both, return_root_yields. unfold option_from_native_pointer. destruct (ls_mode t); yield. Qed.

Lemma search_enter_yields t : yields (search_enter debug t) (fun r => returns_or_pushes r.1).
Proof using.
  unfold search_enter. steps; (eapply yields_bind; [first [apply search_exhausted_yields | apply search_step_yields]|];
    intros step Hs; by apply yields_ret).
Qed.

Definition fold_bound (t : NativeFold RootedPtr) : Prop := forall n, items_len (fo_values t) = Ok n -> fo_next_index t < n.

Lemma fold_value_at_yields t : fold_bound t -> yields (fold_value_at debug t (fo_next_index t)) any.
Proof using.
  intros Hb. unfold fold_value_at. destruct (fo_order t); [yield|]. steps.
  - apply Hb in Hlen. lia.
  - yield.
Qed.

Lemma fold_first_yields t : fold_bound t -> yields (fold_apply_first debug t) pushes.
Proof using.
  intros Hb. unfold fold_apply_first. apply (yields_bind _ _ _ _ any).
  - destruct (fo_order t); [by apply yields_ret|by apply fold_value_at_yields].
  - intros arg _. apply native_apply_step_yields.
Qed.


Lemma fold_enter_yields t : yields (fold_enter debug t) (fun r => enter_result (r.1, Fold r.2)).
Proof using.
  unfold fold_enter. steps; [done|].
  eapply yields_bind; [apply fold_first_yields|].
  - intros n Hn. simpl in *. by eapply nonempty_len.
  - intros step Hs. apply yields_ret. destruct step; simpl in *; try done. split; [done|].
    intros n Hn. by eapply nonempty_len.
Qed.

Lemma eq_result_yields t b : yields (eq_result debug t b) returns.
Proof using. apply return_root_yields. yield. Qed.

Lemma eq_first_yields t : yields (eq_apply_first debug t) pushes.
Proof using. unfold eq_apply_first, overloaded_root. steps. apply native_apply_step_yields. Qed.

(** The task is kept beside the step. *)
Lemma beside_yields {T} (m : SM NativeStep) (t : T) P :
  yields m P -> yields (let* step := m in mret (step, t)) (fun r => r.2 = t /\ P r.1).
Proof using. intros H. eapply yields_bind; [apply H|]. intros step Hs. by apply yields_ret. Qed.

Lemma eq_enter_yields t : yields (eq_enter debug t) (fun r => enter_result (r.1, ArrayEq r.2)).
Proof using.
  unfold eq_enter. steps.
  1,2: eapply yields_mono; [apply beside_yields, eq_result_yields|]; intros [[] ?] [? Hr]; simpl in *; by subst.
  eapply yields_mono; [apply beside_yields, eq_first_yields|]; intros [[] ?] [? Hr]; simpl in *; by subst.
Qed.

Lemma sum_first_yields t : is_Some (su_plus t) -> is_Some (su_acc t) -> yields (sum_apply_first t) pushes.
Proof using. intros [p Hp] [a Ha]. unfold sum_apply_first. rewrite Hp, Ha. steps. apply native_apply_step_yields. Qed.

Lemma sum_enter_yields t : su_state t = FoldEnter -> yields (sum_enter debug t) (fun r => enter_result (r.1, Sum r.2)).
Proof using.
  intros Hs. unfold sum_enter. steps; [unfold enter_result; simpl; by rewrite Hs|done|]. unfold sum_apply_first_may_allocate.
  apply (yields_bind _ _ _ _ any); [unfold overloaded_root; yield|]. intros plus _. cbn zeta.
  eapply yields_mono; [apply beside_yields, sum_first_yields; simpl; eauto|].
  intros [[] t1] [? Hr]; simpl in *; subst; try done. hnf. simpl. eauto.
Qed.

Lemma mean_div_first_yields t : me_state t = MeanApplyDivFirst -> is_Some (me_acc t) ->
  yields (mean_apply_div_first debug t) (fun r => pushes r.1 /\ task_one (Mean r.2)).
Proof using.
  intros Hs [a Ha]. unfold mean_apply_div_first. rewrite Ha. unfold overloaded_root, len_value_for_native_type. steps.
  eapply yields_mono; [apply beside_yields, native_apply_step_yields|].
  intros [step t'] [? Hr]. simpl in *. subst. simpl. rewrite Hs. split; [done|simpl; eauto].
Qed.

Lemma mean_plus_first_yields t : is_Some (me_acc t) -> yields (mean_apply_plus_first debug t) pushes.
Proof using.
  intros [a Ha]. unfold mean_apply_plus_first. rewrite Ha. unfold overloaded_root. steps. apply native_apply_step_yields.
Qed.

Lemma mean_enter_yields t : yields (mean_enter debug t) (fun r => enter_result (r.1, Mean r.2)).
Proof using.
  unfold mean_enter. steps.
  - eapply yields_mono; [apply mean_div_first_yields; [done|simpl; eauto]|].
    intros [[] t'] [Hp Ht]; done.
  - eapply yields_mono; [apply beside_yields, mean_plus_first_yields; simpl; eauto|].
    intros [[] ?] [? Hr]; simpl in *; by subst.
Qed.

Lemma nonempty_length {A} (l : list A) : l <> [] -> 0 < length l.
Proof using. destruct l; simpl; [done|lia]. Qed.

Lemma return_dict_yields entries : yields (return_dict debug entries) returns.
Proof using. apply return_root_yields. yield. Qed.

(** A task that returns at once, whatever it is then. *)
Lemma beside_returns (m : SM NativeStep) (t : NativeTask RootedPtr) :
  yields m returns -> yields (unchanged t m) enter_result.
Proof using. intros H. eapply unchanged_yields; [apply H|]. by intros []. Qed.

Lemma task_enter_yields task : task_initial task -> yields (task_enter debug task) enter_result.
Proof using.
  intros H. assert (Hempty : forall shape, yields (return_root (alloc_native_sequence debug shape [])) returns)
    by (intros; apply return_root_yields, native_sequence_yields).
  destruct task as [t|t|t|t|t|t|t|t|t|t|t|t|t|t|t|t|t|t|t|t]; simpl in *;
    try solve [eapply unchanged_yields; [apply native_apply_step_yields|by intros []]];
    try solve [eapply wrapped_yields; [apply sequence_enter_yields, Hempty|]; intros [[] t'] Hr; simpl in *; hnf; simpl; intuition].
  - apply wrapped_yields with (P := fun r => match r.1 with StepReturn _ => True
      | StepSchedule n => 0 < n /\ sequence_filling r.2 n [] /\ items_len (sq_values r.2) = Ok n | _ => False end).
      2: { by intros [[] ?] Hr. } unfold sequence_enter. steps.
    + eapply yields_mono; [apply beside_yields, return_root_yields, predicate_finish_yields|].
      * intros n i Hn Hi. pose proof (empty_len _ _ Hempty0 Hn). lia.
      * by intros [[] ?] [].
    + simpl. subst. split; [by eapply nonempty_len|done].
  - eapply wrapped_yields; [apply search_enter_yields|]. by intros [[] ?] Hr.
  - eapply wrapped_yields; [apply fold_enter_yields|done].
  - eapply wrapped_yields with (P := fun r => enter_result (r.1, DictMap r.2)); [|done]. unfold dict_map_enter. steps.
    + eapply yields_mono; [apply beside_yields, return_dict_yields|]. by intros [[] ?] [].
    + hnf. simpl. split; [by apply nonempty_length|done].
  - eapply wrapped_yields with (P := fun r => enter_result (r.1, DictEntryMap r.2)); [|done]. unfold dict_entry_map_enter. steps.
    + eapply yields_mono; [apply beside_yields, return_dict_yields|]. by intros [[] ?] [].
    + hnf. simpl. split; [by apply nonempty_length|done].
  - eapply wrapped_yields with (P := fun r => enter_result (r.1, DictFilter r.2)); [|done]. unfold dict_filter_enter. steps.
    + eapply yields_mono; [apply beside_yields, return_dict_yields|]. by intros [[] ?] [].
    + congruence.
    + hnf. simpl. split; [by apply nonempty_length|done].
  - eapply wrapped_yields with (P := fun r => enter_result (r.1, DictFilterMap r.2)); [|done]. unfold dict_filter_map_enter. steps.
    + eapply yields_mono; [apply beside_yields, return_dict_yields|]. by intros [[] ?] [].
    + hnf. simpl. split; [by apply nonempty_length|done].
  - eapply wrapped_yields with (P := eq (dict_update_enter t)); [by apply yields_ret|]. intros r <-. by split; [lia|].
  - eapply wrapped_yields; [apply eq_enter_yields|done].
  - eapply wrapped_yields; [by apply sum_enter_yields|done].
  - eapply wrapped_yields; [apply mean_enter_yields|done].
Qed.

(** ** The one result that is awaited *)

Lemma search_receive_yields t value : yields (search_receive debug t value) (fun r => returns_or_pushes r.1).
Proof using.
  unfold search_receive. steps. 
  assert (Hgo : forall t', yields (let* len := mlift (fun _ => items_len (ls_values t')) in
      let* step := if decide (ls_next_index t' = len) then search_exhausted debug t' else search_apply_next debug t' in
      mret (step, t')) (fun r => returns_or_pushes r.1)).
  { intros t'. steps; (eapply yields_mono; [apply beside_yields; first [apply search_exhausted_yields | apply search_step_yields]|]);
      by intros r []. }
  assert (Hret : forall m, yields m any -> yields (let* step := return_root m in mret (step, t)) (fun r => returns_or_pushes r.1)).
  { intros m Hm. eapply yields_mono; [apply beside_yields, returns_both, return_root_yields, Hm|]. by intros r []. }
  destruct (ls_mode t), a; try apply Hgo; steps; apply Hret; unfold option_from_native_pointer; yield.
Qed.

(** The second half of an application needs the function that the first half answered. *)
Lemma eq_second_yields t : is_Some (ae_step t) -> yields (eq_apply_second debug t) pushes.
Proof using. intros [s Hs]. unfold eq_apply_second. rewrite Hs. steps. apply native_apply_step_yields. Qed.
Lemma sum_second_yields t : is_Some (su_step t) -> yields (sum_apply_second debug t) pushes.
Proof using. intros [s Hs]. unfold sum_apply_second. rewrite Hs. steps. apply native_apply_step_yields. Qed.
Lemma mean_plus_second_yields t : is_Some (me_step t) -> yields (mean_apply_plus_second debug t) pushes.
Proof using. intros [s Hs]. unfold mean_apply_plus_second. rewrite Hs. steps. apply native_apply_step_yields. Qed.
Lemma mean_div_second_yields t : is_Some (me_step t) -> is_Some (me_len_value t) -> yields (mean_apply_div_second t) pushes.
Proof using.
  intros [s Hs] [l Hl]. unfold mean_apply_div_second. rewrite Hs, Hl. steps. apply native_apply_step_yields.
Qed.

Lemma fold_receive_yields t value : task_one (Fold t) ->
  yields (fold_receive debug t value) (fun r => receive_one_result (r.1, Fold r.2)).
Proof using.
  intros [Hs Hb]. unfold fold_receive. destruct (fo_state t); [done|..].
  - unfold fold_apply_second. cbn [fo_step fold_with ok_or].
    eapply yields_mono; [apply beside_yields, (yields_bind _ _ _ _ (eq value)); [by apply yields_lift|intros ? <-]|].
    + apply (yields_bind _ _ _ _ any); [|intros; apply native_apply_step_yields].
      destruct (fo_order _); [by apply (fold_value_at_yields (fold_with t (fo_acc t) FoldApplySecond (fo_next_index t) (Some value)))|by apply yields_ret].
    + intros [[] ?] [? Hr]; simpl in *; subst; try done.
  - steps; [done|].
    assert (Hb' : fold_bound (fold_with t value FoldApplyFirst (S (fo_next_index t)) None)).
    { intros m Hm. simpl in *. pose proof (Hb _ Hm). assert (m = a) by congruence. lia. }
    eapply yields_mono; [by apply beside_yields, fold_first_yields|].
    intros [[] ?] [? Hr]; simpl in *; subst; try done.
Qed.

Lemma eq_receive_yields t value : ae_state t <> EqEnter ->
  yields (eq_receive debug t value) (fun r => receive_one_result (r.1, ArrayEq r.2)).
Proof using.
  intros Hs. unfold eq_receive. destruct (ae_state t); [done|..].
  - eapply yields_mono; [apply beside_yields, eq_second_yields; simpl; eauto|].
    intros [[] ?] [? Hr]; simpl in *; subst; try done.
  - steps.
    + eapply yields_bind; [apply eq_result_yields|]. intros [] Hr; by apply yields_ret.
    + eapply yields_mono; [apply beside_yields, eq_first_yields|].
      intros [[] ?] [? Hr]; simpl in *; subst; try done.
    + eapply yields_bind; [apply eq_result_yields|]. intros [] Hr; by apply yields_ret.
Qed.

Lemma sum_receive_yields t value : task_one (Sum t) ->
  yields (sum_receive debug t value) (fun r => receive_one_result (r.1, Sum r.2)).
Proof using.
  intros Hs. unfold sum_receive. simpl in Hs. destruct (su_state t); [by apply yields_ret|..].
  - eapply yields_mono; [apply beside_yields, sum_second_yields; simpl; eauto|].
    intros [[] ?] [? Hr]; simpl in *; subst; try done.
  - steps; [done|]. eapply yields_mono; [apply beside_yields, sum_first_yields; simpl; eauto|].
    intros [[] ?] [? Hr]; simpl in *; subst; try done.
Qed.

Lemma mean_receive_yields t value : task_one (Mean t) ->
  yields (mean_receive debug t value) (fun r => receive_one_result (r.1, Mean r.2)).
Proof using.
  intros Hs. unfold mean_receive. simpl in Hs. destruct (me_state t); [done|..].
  - eapply yields_mono; [apply beside_yields, mean_plus_second_yields; simpl; eauto|].
    intros [[] ?] [? Hr]; simpl in *; subst; try done.
  - steps.
    + eapply yields_mono; [apply mean_div_first_yields; simpl; eauto|]. by intros [[] ?] [].
    + eapply yields_mono; [apply beside_yields, mean_plus_first_yields; simpl; eauto|].
      intros [[] ?] [? Hr]; simpl in *; subst; try done.
  - eapply yields_mono; [apply beside_yields, mean_div_second_yields; simpl; eauto|].
    intros [[] ?] [? Hr]; simpl in *; subst; try done.
  - by apply yields_ret.
Qed.

Lemma task_receive_one_yields task c value : task_one task ->
  yields (task_receive debug task c value) receive_one_result.
Proof using.
  intros H.
  destruct task as [t|t|t|t|t|t|t|t|t|t|t|t|t|t|t|t|t|t|t|t]; try done; cbn [task_receive];
    try by apply yields_ret.
  - eapply wrapped_yields; [apply search_receive_yields|]. by intros [[] ?].
  - eapply unchanged_yields; [apply return_root_yields|by intros []].
    unfold option_from_native_pointer, result_from_native_pointer. destruct (un_extra t); yield.
  - eapply unchanged_yields; [|intros step Hs; exact Hs]. unfold unary_filter_receive. steps.
    eapply yields_mono; [apply return_root_yields; unfold option_from_native_pointer; destruct a; yield|by intros []].
  - eapply unchanged_yields; [|intros step Hs; exact Hs]. unfold unary_flat_map_receive, result_value_ptr, wrong_type.
    destruct (un_extra t); steps; done.
  - eapply wrapped_yields; [by apply fold_receive_yields|done].
  - eapply wrapped_yields; [by apply eq_receive_yields|done].
  - eapply wrapped_yields; [by apply sum_receive_yields|done].
  - eapply wrapped_yields; [by apply mean_receive_yields|done].
Qed.

(** ** One of many results *)

Definition filled_slots {X} (n : nat) (slots : list (option X)) : Prop := exists xs, slots = map Some xs /\ length slots = n.

(** What taking the result of [c] leaves. *)
Definition took {X} (children : list FrameId) (n : nat) (c : FrameId) (cs : list FrameId)
    (r : list (option X) * nat) : Prop :=
  exists cs', cs ≡ₚ c :: cs' /\ slots_wf children r.1 r.2 cs' /\ length r.1 = n.

Lemma took_last {X} children n c cs (r : list (option X) * nat) : took children n c cs r -> r.2 = 0 ->
  cs = [c] /\ filled_slots n r.1.
Proof using.
  intros (cs' & Hcs & Hwf & Hlen) H0. rewrite H0 in Hwf.
  destruct (slots_wf_complete _ _ _ Hwf) as (xs & _ & Hxs). pose proof (sw_remaining _ _ _ _ Hwf) as Hrem.
  destruct cs'; [|done]. split; [|by exists xs]. by apply Permutation_singleton_r in Hcs.
Qed.

Lemma took_more {X} children n c cs (r : list (option X) * nat) : took children n c cs r -> r.2 <> 0 ->
  exists cs', cs ≡ₚ c :: cs' /\ cs' <> [] /\ slots_wf children r.1 r.2 cs' /\ length r.1 = n.
Proof using.
  intros (cs' & Hcs & Hwf & Hlen) H0. exists cs'. split_and!; try done.
  intros ->. by pose proof (sw_remaining _ _ _ _ Hwf).
Qed.

Lemma receive_into_empty_yields {X} name unknown children (slots : list (option X)) remaining cs c read :
  slots_wf children slots remaining cs -> c ∈ cs -> yields read any ->
  yields (receive_into_empty name unknown children slots remaining c read) (took children (length slots) c cs).
Proof using.
  intros Hwf Hc Hread. destruct (slots_wf_receive _ _ _ _ _ Hwf Hc) as (i & r & cs' & Hi & Hs & -> & Hcs & Hwf').
  unfold receive_into_empty. rewrite Hi. steps. rewrite Hs. steps.
  exists cs'. simpl. by rewrite length_insert.
Qed.

Lemma receive_replacing_yields {X} name unknown children (slots : list (option X)) remaining cs c read :
  slots_wf children slots remaining cs -> c ∈ cs -> yields read any ->
  yields (receive_replacing name unknown children slots remaining c read) (took children (length slots) c cs).
Proof using.
  intros Hwf Hc Hread. destruct (slots_wf_receive _ _ _ _ _ Hwf Hc) as (i & r & cs' & Hi & Hs & -> & Hcs & Hwf').
  unfold receive_replacing. rewrite Hi. steps. rewrite Hs. steps.
  exists cs'. simpl. by rewrite length_insert.
Qed.

Lemma sequence_receive_yields {S X} name read finish (t : NativeSequence S X RootedPtr) c cs value :
  slots_wf (sq_children t) (sq_results t) (sq_remaining t) cs -> c ∈ cs -> yields (read value) any ->
  (forall slots, filled_slots (length (sq_results t)) slots -> yields (finish slots) any) ->
  yields (sequence_receive name read finish t c value) (fun r =>
    match r.1 with
    | StepWait => exists cs', cs ≡ₚ c :: cs' /\ cs' <> [] /\ slots_wf (sq_children r.2) (sq_results r.2) (sq_remaining r.2) cs' /\
                    length (sq_results r.2) = length (sq_results t) /\ sq_values r.2 = sq_values t
    | StepReturn _ => cs = [c]
    | _ => False
    end).
Proof using.
  intros Hwf Hc Hread Hfinish. unfold sequence_receive.
  eapply yields_bind; [by apply receive_into_empty_yields|]. intros [slots remaining] Ht. cbn zeta. simpl.
  destruct (decide (remaining = 0)) as [H0|H0].
  - destruct (took_last _ _ _ _ _ Ht H0) as [-> Hfull].
    eapply yields_mono; [apply beside_yields, return_root_yields, Hfinish, Hfull|]. by intros [[] ?] [].
  - destruct (took_more _ _ _ _ _ Ht H0) as (cs' & ? & ? & ? & ?). steps. simpl. eauto 10.
Qed.

Lemma all_some_filled {X} (xs : list X) : all_some (map Some xs) = Some xs.
Proof using. induction xs as [|x xs IH]; simpl; [done|by rewrite IH]. Qed.

Lemma filter_kept_yields values keep : forall index, yields (filter_kept debug values index (map Some keep)) any.
Proof using.
  induction keep as [|[] keep IH]; intros index; [by apply yields_ret| |apply IH]. simpl. by steps.
Qed.

Lemma keep_present_yields {A} name (output : list (option A)) : yields (keep_present name (map Some output)) any.
Proof using.
  induction output as [|[x|] output IH]; [by apply yields_ret| |apply IH]. simpl.
  eapply yields_bind; [apply IH|]. intros; by apply yields_ret.
Qed.

Lemma keep_entries_yields entries keep : forall output, yields (keep_entries (zip entries (map Some keep)) output) any.
Proof using.
  revert keep. induction entries as [|[k v] entries IH]; intros [|[] keep] output; simpl; first [by apply yields_ret | apply IH].
Qed.

Lemma replace_entries_yields entries values : forall output,
  yields (replace_entries (zip entries (map Some values)) output) any.
Proof using.
  revert values. induction entries as [|[k v] entries IH]; intros [|[] values] output; simpl;
    first [by apply yields_ret | apply IH].
Qed.

Lemma collect_pairs_yields results : forall output, yields (collect_pairs debug results output) any.
Proof using.
  unfold wrong_type in *. induction results as [|r results IH]; intros output; simpl; [by apply yields_ret|].
  apply (yields_bind _ _ _ _ any); [yield|]. intros items _. unfold wrong_type.
  destruct items as [|x [|y [|]]]; yield.
Qed.

Lemma option_value_yields r : yields (option_value_ptr debug r) any.
Proof using. unfold option_value_ptr, wrong_type. yield. Qed.

Lemma dict_map_slots_insert entries output i k value : NoDup (map fst entries) -> entries !! i = Some (k, value) ->
  forall new : RootedPtr,
    map (fun e : string * RootedPtr => btree_get (btree_insert k new output) e.1) entries
    = <[i := Some new]> (map (fun e => btree_get output e.1) entries).
Proof using.
  intros Hnd Hi new. revert i Hi. induction entries as [|[k' v'] entries IH]; intros i Hi; [done|].
  simpl in Hnd. apply NoDup_cons in Hnd as [Hk Hnd]. simpl. rewrite btree_get_insert. destruct i as [|i]; simplify_eq/=.
  - rewrite decide_True by done. f_equal. apply map_ext_in. intros e He%list_elem_of_In. rewrite btree_get_insert.
    rewrite decide_False; [done|]. intros ->. apply Hk, list_elem_of_fmap. by exists e.
  - rewrite decide_False; [by rewrite (IH Hnd i Hi)|]. intros ->. apply Hk, list_elem_of_fmap.
    exists (k', value). split; [done|]. by eapply list_elem_of_lookup_2.
Qed.

Lemma dict_map_receive_yields t c cs value : task_many (DictMap t) cs -> c ∈ cs ->
  yields (dict_map_receive debug t c value) (fun r => receive_many_result c cs (r.1, DictMap r.2)).
Proof using.
  intros [Hnd Hwf] Hc. destruct (slots_wf_receive _ _ _ _ _ Hwf Hc) as (i & r & cs' & Hi & Hs & Hr & Hcs & Hwf').
  unfold dict_map_slots in Hs. rewrite list_lookup_fmap in Hs.
  destruct (dm_entries t !! i) as [[k v]|] eqn:He; simplify_eq/=.
  unfold dict_map_receive. rewrite Hi. cbn [ok_or].
  apply (yields_bind _ _ _ _ (eq i)); [by apply yields_lift|intros ? <-]. rewrite He.
  apply (yields_bind _ _ _ _ (eq (k, v))); [by apply yields_lift|intros ? <-]. cbn [fst]. rewrite Hs, Hr. steps.
  - subst r. unfold return_dict. eapply yields_mono; [apply beside_yields, return_dict_yields|].
    intros [[] ?] [? Hret]; simpl in *; try done. destruct (slots_wf_complete _ _ _ (Hwf' value)) as (xs & _ & _).
    pose proof (sw_remaining _ _ _ _ (Hwf' value)). destruct cs'; [|done]. by apply Permutation_singleton_r in Hcs.
  - exists cs'. split_and!; [done| |].
    + intros ->. by pose proof (sw_remaining _ _ _ _ (Hwf' value)).
    + split; [done|]. unfold dict_map_slots. simpl. erewrite dict_map_slots_insert by eauto. apply Hwf'.
Qed.

Lemma taken_yields {X T} (wrap : T -> NativeTask RootedPtr) children n c cs (r : list (option X) * nat)
    (m : SM (NativeStep * T)) (t : T) :
  took children n c cs r -> (filled_slots n r.1 -> yields m (fun x => returns x.1)) ->
  (forall cs', slots_wf children r.1 r.2 cs' -> task_many (wrap t) cs') ->
  yields (if decide (r.2 = 0) then m else mret (StepWait, t)) (fun x => receive_many_result c cs (x.1, wrap x.2)).
Proof using.
  intros Ht Hm Hw. destruct (decide (r.2 = 0)) as [H0|H0].
  - destruct (took_last _ _ _ _ _ Ht H0) as [-> Hfull]. eapply yields_mono; [apply Hm, Hfull|]. by intros [[] ?].
  - destruct (took_more _ _ _ _ _ Ht H0) as (cs' & ? & ? & ? & ?). apply yields_ret. exists cs'. simpl. eauto.
Qed.

Lemma dict_entry_map_receive_yields t c cs value : task_many (DictEntryMap t) cs -> c ∈ cs ->
  yields (dict_entry_map_receive debug t c value) (fun r => receive_many_result c cs (r.1, DictEntryMap r.2)).
Proof using.
  intros Hwf Hc. eapply yields_bind; [apply receive_replacing_yields; [apply Hwf|done|yield]|]. intros r Ht.
  eapply (taken_yields DictEntryMap); [done| |done]. intros (xs & -> & _). rewrite all_some_filled.
  eapply yields_bind; [apply collect_pairs_yields|]. intros entries _.
  eapply yields_mono; [apply beside_yields, return_dict_yields|]. by intros [] [].
Qed.

Lemma dict_filter_receive_yields t c cs value : task_many (DictFilter t) cs -> c ∈ cs ->
  yields (dict_filter_receive debug t c value) (fun r => receive_many_result c cs (r.1, DictFilter r.2)).
Proof using.
  intros Hwf Hc. eapply yields_bind; [apply receive_replacing_yields; [apply Hwf|done|yield]|]. intros r Ht.
  eapply (taken_yields DictFilter); [done| |done]. intros (xs & -> & _).
  eapply yields_bind; [apply keep_entries_yields|]. intros entries _.
  eapply yields_mono; [apply beside_yields, return_dict_yields|]. by intros [] [].
Qed.

Lemma dict_filter_map_receive_yields t c cs value : task_many (DictFilterMap t) cs -> c ∈ cs ->
  yields (dict_filter_map_receive debug t c value) (fun r => receive_many_result c cs (r.1, DictFilterMap r.2)).
Proof using.
  intros Hwf Hc. eapply yields_bind; [apply receive_replacing_yields; [apply Hwf|done|apply option_value_yields]|].
  intros r Ht. eapply (taken_yields DictFilterMap); [done| |done]. intros (xs & -> & _).
  eapply yields_bind; [apply replace_entries_yields|]. intros entries _.
  eapply yields_mono; [apply beside_yields, return_dict_yields|]. by intros [] [].
Qed.

Lemma dict_update_receive_yields t c cs value : task_many (DictUpdate t) cs -> c ∈ cs ->
  yields (dict_update_receive debug t c value) (fun r => receive_many_result c cs (r.1, DictUpdate r.2)).
Proof using.
  intros (c' & Hch & ->) ->%list_elem_of_singleton. unfold dict_update_receive. rewrite decide_True by done.
  eapply yields_bind; [apply option_value_yields|]. intros new _. cbn zeta.
  eapply yields_mono; [apply beside_yields, return_dict_yields|]. by intros [[] ?] [].
Qed.

Lemma task_receive_many_yields task c cs value : task_many task cs -> c ∈ cs ->
  yields (task_receive debug task c value) (receive_many_result c cs).
Proof using.
  intros H Hc.
  destruct task as [t|t|t|t|t|t|t|t|t|t|t|t|t|t|t|t|t|t|t|t]; try done; cbn [task_receive];
    try (eapply wrapped_yields; [eapply sequence_receive_yields; [apply H|done|..]|]);
    try (intros [[] ?] Hr; simpl in *; try done; destruct Hr as (cs' & ? & ? & ? & ? & ?); by exists cs').
  - yield.
  - intros slots (xs & -> & _). unfold map_finish. rewrite all_some_filled. yield.
  - yield.
  - intros slots (xs & -> & _). eapply yields_bind; [apply filter_kept_yields|intros ? _; yield].
  - yield.
  - intros slots (xs & -> & Hlen). destruct H as [_ Hb]. apply predicate_finish_yields. intros n i Hn Hi.
    rewrite length_map in Hlen. destruct (lookup_lt_is_Some_2 xs i) as [b Hx]; [specialize (Hb _ Hn); lia|].
    exists b. by rewrite list_lookup_fmap, Hx.
  - intros [[] ?] Hr; simpl in *; try done. destruct Hr as (cs' & ? & ? & ? & Hl & Hv). exists cs'.
    split_and!; [done..|]. split; [done|]. rewrite Hv, Hl. apply H.
  - apply option_value_yields.
  - intros slots (xs & -> & _). eapply yields_bind; [apply keep_present_yields|intros ? _; yield].
  - destruct (sq_shape t). simpl. yield.
  - intros slots (xs & -> & _). unfold flat_map_finish. rewrite all_some_filled. yield.
  - eapply wrapped_yields; [by apply dict_map_receive_yields|done].
  - eapply wrapped_yields; [by apply dict_entry_map_receive_yields|done].
  - eapply wrapped_yields; [by apply dict_filter_receive_yields|done].
  - eapply wrapped_yields; [by apply dict_filter_map_receive_yields|done].
  - eapply wrapped_yields; [by apply dict_update_receive_yields|done].
Qed.

End tasks.
