(* ===== verification/FrameSafety.v ===== *)
(** Frames never raise an error of their own bookkeeping: what a frame waits for, and what
    each handler does to it and to the store of frames. *)

From Stdlib Require Import Sorting.Sorted.
From S2P Require Import Prelude Span Types Unify UnifyComplete BTree Adts Syntax TypedExprs Errors Heap.
From S2P Require Import HeapTrace HeapStress HeapCollect HeapSafety Env Scope Lists Values EvalScheduler Calls NativeTask.
From S2P Require Import HostScheduler Frames Registry EvalOps Eval ValueFaults TaskSafety.

(** * Applications and names *)

(** The scheduler natives of a runtime start tasks in their initial states. *)
Definition natives_start_initial {F} (runtime : RuntimeCore F) : Prop :=
  forall f T args sc task, scheduler_native runtime f -> (f T args sc).1 = Ok (NativeStarted task) -> task_initial task.

Definition task_result (r : EvalResult) : Prop := match r with ResultPushNative task => task_initial task | _ => True end.

Section apply.
Context (debug : bool) {F : Type} (runtime : RuntimeCore F) (Hnatives : natives_start_initial runtime).

Abbreviation yields := (yields debug runtime).
Abbreviation gives := (gives debug runtime).
Abbreviation any := (fun _ => True).
Abbreviation native_result := (fun r => task_result (of_native r)).

Lemma native_callable_yields id :
  yields (mlift (fun _ => native_callable runtime id)) (fun c => forall f, c = SchedulerCallable f -> scheduler_native runtime f).
Proof using.
  intros sc. simpl. unfold native_callable, callable_by_id. destruct (by_id (natives runtime) !! id) as [imp|] eqn:Hi; simpl.
  - intros f Hf. by exists id, imp.
  - apply (vf_id _ _ id). unfold native_callable, callable_by_id. by rewrite Hi.
Qed.

Lemma callable_call_gives (c : @NativeCallable F) id T args : gives (callable_call c id T args) any.
Proof using. destruct (callable_call c id T args) eqn:Hc; [done|]. by eapply vf_abi. Qed.

Lemma scheduler_yields f T args : scheduler_native runtime f ->
  yields (let* r := f T args in mret (from_scheduler r)) native_result.
Proof using Hnatives.
  intros Hf. apply (yields_bind _ _ _ _ (fun r => native_result (from_scheduler r))); [|intros; by apply yields_ret].
  intros sc. destruct (f T args sc) as [[[v|task]|e] sc'] eqn:Hr; simpl; [done| |].
  - eapply Hnatives; [done|]. by rewrite Hr.
  - eapply vf_native; [done|]. by rewrite Hr.
Qed.

Lemma pending_yields (c : @NativeCallable F) id T args :
  yields (let* call := mlift (fun _ => callable_call c id T args) in mret (ApplyPending call)) native_result.
Proof using. eapply yields_bind; [apply yields_lift, callable_call_gives|]. intros. by apply yields_ret. Qed.

Lemma native_call_zero_yields n : yields (native_call_zero runtime n) native_result.
Proof using Hnatives.
  unfold native_call_zero. case_decide; [by apply yields_raise|].
  eapply yields_bind; [apply native_callable_yields|]. intros [] Hf; cbn beta in Hf;
    [apply pending_yields|by apply yields_ret|by apply scheduler_yields, Hf].
Qed.

Lemma native_run_yields n : yields (native_run runtime n) native_result.
Proof using Hnatives.
  unfold native_run. cbn zeta.
  eapply yields_bind; [apply native_callable_yields|]. intros [] Hf; cbn beta in Hf;
    [apply pending_yields|by apply yields_raise|by apply scheduler_yields, Hf].
Qed.

Lemma native_apply_yields n arg T : yields (native_apply debug runtime n arg T) native_result.
Proof using Hnatives.
  unfold native_apply, not_callable. case_decide; [by apply yields_raise|].
  destruct (split_fun _) as [[arg_ty rest_ty]|]; [|by apply yields_raise].
  apply (yields_bind _ _ _ _ any); [yield|]. intros actual_ty _.
  apply (yields_bind _ _ _ _ any); [yield|]. intros subst _. cbn zeta.
  destruct (is_function_type _); [|apply native_run_yields].
  apply (yields_bind _ _ _ _ any); [yield|]. intros. by apply yields_ret.
Qed.

Lemma typeclass_method_gives name T : gives (resolve_typeclass_method_impl runtime name T) any.
Proof using.
  unfold resolve_typeclass_method_impl, typeclass_resolve. repeat (case_match; try done; try by apply gives_raise).
Qed.

Lemma class_method_plan_yields name T : yields (resolve_class_method_plan debug runtime name T) any.
Proof using.
  unfold resolve_class_method_plan. pose proof (typeclass_method_gives name T) as Hg.
  destruct (resolve_typeclass_method_impl runtime name T) as [[[e x] s]|e]; [by apply yields_ret|].
  simpl in Hg. assert (Herr : yields (mlift (fun _ => Err e : exec ClassMethodPlan)) any) by (by intros sc).
  destruct e as [[]| |]; try exact Herr. destruct (is_function_type T); [|by apply yields_raise].
  apply (yields_bind _ _ _ _ any); [yield|]. intros. by apply yields_ret.
Qed.
Lemma native_resolve_gives name T : gives (native_resolve name T (natives runtime)) any.
Proof using. unfold native_resolve. repeat (case_match; try done; try by apply gives_raise). Qed.

Lemma native_parts_gives name T : gives (resolve_native_parts runtime name T) any.
Proof using.
  unfold resolve_native_parts, resolve_unique. apply (gives_bind _ _ _ _ any); [|done].
  apply (gives_bind _ _ _ _ any); [apply native_resolve_gives|]. intros [] _; [done|by apply gives_raise].
Qed.

Lemma resolve_native_yields name T : yields (resolve_native debug runtime name T) any.
Proof using.
  unfold resolve_native. apply (yields_bind _ _ _ _ any); [apply yields_lift, native_resolve_gives|].
  intros [] _; yield.
Qed.

Lemma rooted_application_gives env e args : gives (synthetic_rooted_application_expr_from_head env e args) any.
Proof using. apply apply_synthetic_gives. Qed.

Lemma apply_overloaded_yields over arg T T' : yields (eval_apply_overloaded_arg debug runtime over arg T T') task_result.
Proof using.
  unfold eval_apply_overloaded_arg, not_callable. apply (yields_bind _ _ _ _ any); [yield|]. intros typ _.
  destruct (split_fun typ) as [[arg_ty rest_ty]|]; [|by apply yields_raise].
  apply (yields_bind _ _ _ _ any); [yield|]. intros actual_ty _.
  apply (yields_bind _ _ _ _ any); [yield|]. intros subst _. cbn zeta.
  destruct (is_function_type _).
  { apply (yields_bind _ _ _ _ any); [yield|]. intros. by apply yields_ret. }
  destruct (is_class_method _ _).
  - apply (yields_bind _ _ _ _ any); [apply class_method_plan_yields|]. intros [env method|value] _; [|by apply yields_ret].
    apply (yields_bind _ _ _ _ any); [apply yields_lift, rooted_application_gives|]. intros. by apply yields_ret.
  - apply yields_lift. apply (gives_bind _ _ _ _ any); [apply native_parts_gives|]. intros parts _.
    apply (gives_bind _ _ _ _ any); [|intros callable _].
    { destruct (native_callable runtime _) eqn:Hc; [done|]. by eapply vf_id. }
    apply (gives_bind _ _ _ _ any); [apply callable_call_gives|]. done.
Qed.

Lemma apply_arg_yields func arg T T' : yields (eval_apply_arg debug runtime func arg T T') task_result.
Proof using Hnatives.
  unfold eval_apply_arg. apply (yields_bind _ _ _ _ any); [yield|]. intros [[c|native|over]|] _.
  - apply (yields_bind _ _ _ _ any); [yield|]. intros subst _.
    apply (yields_bind _ _ _ _ any); [yield|]. intros actual_ty _.
    apply (yields_bind _ _ _ _ any); [yield|]. intros s_arg _. by apply yields_ret.
  - eapply yields_bind; [apply native_apply_yields|]. intros r Hr. by apply yields_ret.
  - apply apply_overloaded_yields.
  - apply (yields_bind _ _ _ _ any); [|intros; by apply yields_raise]. yield.
Qed.

Lemma run_if_nullary_yields r : yields (run_if_nullary debug runtime r) task_result.
Proof using Hnatives.
  unfold run_if_nullary. apply (yields_bind _ _ _ _ any); [yield|]. intros [n|] _; [|by apply yields_ret].
  case_decide; [|by apply yields_ret].
  eapply yields_bind; [apply native_call_zero_yields|]. intros r' Hr. by apply yields_ret.
Qed.

Lemma resolve_class_method_yields name T : yields (eval_resolve_class_method debug runtime name T) task_result.
Proof using.
  unfold eval_resolve_class_method. apply (yields_bind _ _ _ _ any); [apply class_method_plan_yields|].
  intros [] _; by apply yields_ret.
Qed.

Lemma resolve_var_yields env name T : yields (eval_resolve_var debug runtime env name T) task_result.
Proof using Hnatives.
  unfold eval_resolve_var. destruct (Scoped_get env name); [apply run_if_nullary_yields|].
  destruct (is_class_method _ _); [apply resolve_class_method_yields|].
  apply (yields_bind _ _ _ _ any); [apply resolve_native_yields|]. intros. apply run_if_nullary_yields.
Qed.

End apply.

(** * The store of frames *)

Section stores.
Implicit Types (l : list (FrameId * EFrame)) (fs : EFrames).

(** The identifiers ascend. *)
Abbreviation ascending l := (StronglySorted lt (map fst l)).

Record store_wf fs : Prop := {
  st_ascending : ascending (frames fs);
  st_below : Forall (fun id => id < next_frame_id fs) (map fst (frames fs)) }.

Definition kids (id : FrameId) l : list FrameId :=
  omap (fun e => if decide (frame_parent e.2 = Some id) then Some e.1 else None) l.

Lemma kids_app id l l' : kids id (l ++ l') = kids id l ++ kids id l'.
Proof. apply omap_app. Qed.

Lemma frame_lookup_elem id l f : frame_lookup id l = Some f -> (id, f) ∈ l.
Proof.
  induction l as [|[i g] l IH]; simpl; [done|]. case_decide as Hi; [intros [= ->]; subst; by left|]. right. auto.
Qed.

Lemma frame_lookup_ids id l : is_Some (frame_lookup id l) <-> id ∈ map fst l.
Proof.
  induction l as [|[i g] l IH]; simpl; [split; [by intros []|by intros ?%elem_of_nil]|].
  rewrite elem_of_cons. case_decide as Hi; [subst; split; eauto|]. rewrite IH. naive_solver.
Qed.

Lemma frame_lookup_app id l l' :
  frame_lookup id (l ++ l') = match frame_lookup id l with Some f => Some f | None => frame_lookup id l' end.
Proof. induction l as [|[i g] l IH]; simpl; [done|]. by case_decide. Qed.

(** A new frame goes to the end. *)
Lemma frame_insert_last id f l : Forall (fun i => i < id) (map fst l) -> frame_insert id f l = l ++ [(id, f)].
Proof.
  induction l as [|[i g] l IH]; simpl; [done|]. intros [Hi Hl]%Forall_cons. simpl in Hi.
  rewrite !decide_False by lia. by rewrite IH.
Qed.

(** A present frame is overwritten. *)
Lemma frame_insert_present id f g l : ascending l -> frame_lookup id l = Some g ->
  map fst (frame_insert id f l) = map fst l /\
  (forall k, frame_lookup k (frame_insert id f l) = if decide (k = id) then Some f else frame_lookup k l) /\
  (frame_parent f = frame_parent g -> forall k, kids k (frame_insert id f l) = kids k l).
Proof.
  induction l as [|[i h] l IH]; simpl; [done|]. intros [Hs Hall]%StronglySorted_inv.
  case_decide as Hi; [intros [= ->]; subst i; rewrite decide_True by done; simpl|intros Hl].
  - split_and!; [done| |].
    + intros k. case_decide; [by rewrite decide_True|]. rewrite decide_False by done. done.
    + intros Hp k. unfold kids. simpl. by rewrite Hp.
  - destruct (IH Hs Hl) as (H1 & H2 & H3).
    assert (i < id).
    { rewrite Forall_forall in Hall. apply Hall, frame_lookup_ids. by eexists. }
    rewrite !decide_False by lia. simpl. split_and!; [by f_equal| |].
    + intros k. rewrite H2. repeat case_decide; subst; done || lia.
    + intros Hp k. unfold kids in *. simpl. by rewrite (H3 Hp).
Qed.

Lemma frame_remove_present id l g : ascending l -> frame_lookup id l = Some g ->
  ascending (frame_remove id l) /\ map fst l ≡ₚ id :: map fst (frame_remove id l) /\
  (forall k, frame_lookup k (frame_remove id l) = if decide (k = id) then None else frame_lookup k l) /\
  (forall k, kids k l ≡ₚ (if decide (frame_parent g = Some k) then [id] else []) ++ kids k (frame_remove id l)).
Proof.
  induction l as [|[i h] l IH]; simpl; [done|]. intros [Hs Hall]%StronglySorted_inv.
  case_decide as Hi; [intros [= ->]; subst i|intros Hl].
  - split_and!; [done|done| |].
    + intros k. case_decide; [subst k|by rewrite decide_False].
      destruct (frame_lookup id l) eqn:Hl; [|done]. rewrite Forall_forall in Hall.
      assert (id < id); [|lia]. apply Hall, frame_lookup_ids. by eexists.
    + intros k. unfold kids. simpl. by case_decide.
  - destruct (IH Hs Hl) as (H0 & H1 & H2 & H3). split_and!.
    + simpl. constructor; [done|]. rewrite H1 in Hall. by apply Forall_cons in Hall as [_ ?].
    + simpl. by rewrite H1, Permutation_swap.
    + intros k. simpl. rewrite H2. repeat case_decide; subst; done.
    + intros k. unfold kids in *. simpl. specialize (H3 k).
      destruct (decide (frame_parent h = Some k)); [|done]. rewrite H3. case_decide; simpl; [|done].
      apply Permutation_swap.
Qed.
End stores.

(** * What frames wait for *)

Definition literal_kind (e : TypedExpr) : Prop :=
  match te_kind e with
  | EBool _ | EUint _ | EInt _ | EFloat _ | EChar _ | EString _ | EUuid _ | EDateTime _ => True
  | _ => False
  end.
Definition sequence_length (e : TypedExpr) : option nat :=
  match te_kind e with
  | ETuple elems | EList elems => Some (length elems)
  | EDict kvs => Some (length kvs)
  | _ => None
  end.
Definition update_kind (e : TypedExpr) (keys : list Symbol) : Prop :=
  match te_kind e with ERecordUpdate _ updates => keys = map fst updates | _ => False end.
Definition var_kind (e : TypedExpr) : Prop := match te_kind e with EClassMethod _ | EVar _ _ => True | _ => False end.
Definition project_kind (e : TypedExpr) : Prop := match te_kind e with EProject _ _ => True | _ => False end.
Definition lambda_kind (e : TypedExpr) : Prop := match te_kind e with ELam _ _ => True | _ => False end.
Definition let_kind (e : TypedExpr) : Prop := match te_kind e with ELet _ _ _ => True | _ => False end.
Definition ite_kind (e : TypedExpr) : Prop := match te_kind e with EIte _ _ _ => True | _ => False end.
Definition match_kind (e : TypedExpr) : Prop := match te_kind e with EMatch _ _ => True | _ => False end.
Definition letrec_length (e : TypedExpr) : option nat :=
  match te_kind e with ELetRec bindings _ => Some (length bindings) | _ => None end.

(** A frame as it is made, still to be entered. *)
Definition frame_fresh (frame : EFrame) : Prop :=
  match frame with
  | FrameLiteral f => literal_kind (fl_expr f)
  | FrameHole _ => True
  | FrameSequence f => fs_state f = SequenceEnter /\ is_Some (sequence_length (fs_expr f))
  | FrameRecordUpdate f => fu_state f = UpdateEnter /\ update_kind (fu_expr f) (fu_update_keys f)
  | FrameVar f => var_kind (fv_expr f)
  | FrameApp f => fa_state f = AppEnter
  | FrameProject f => project_kind (fv_expr f)
  | FrameLam f => lambda_kind (fv_expr f)
  | FrameLet f => ft_state f = LetEnter /\ let_kind (ft_expr f)
  | FrameLetRec f => fr_state f = LetRecEnter /\ is_Some (letrec_length (fr_expr f)) /\ fr_next_binding_index f = 0
  | FrameIte f => fi_state f = BranchEnter /\ ite_kind (fi_expr f)
  | FrameMatch f => fm_state f = MatchEnter /\ match_kind (fm_expr f)
  | FrameNativeCall f => fn_state f = NativeEnter /\ task_initial (fn_task f)
  | FrameNativeHost _ => False
  end.

(** An application whose function and arguments are values. *)
Definition app_ready (f : App) : Prop :=
  is_Some (fa_func f) /\ exists args, fa_arg_values f = map Some args /\ length args = length (fa_spine f).

(** A frame that waits for the result of one child. *)
Definition frame_one (frame : EFrame) : Prop :=
  match frame with
  | FrameVar _ => True
  | FrameRecordUpdate f => fu_state f = EvalBase /\ update_kind (fu_expr f) (fu_update_keys f)
  | FrameApp f => fa_state f = ApplyArg /\ app_ready f /\ fa_next_arg_index f < length (fa_spine f)
  | FrameProject f => project_kind (fv_expr f)
  | FrameLet f => match ft_state f with LetEnter => False | EvalDef => let_kind (ft_expr f) | EvalBody => True end
  | FrameLetRec f =>
      match fr_state f with
      | LetRecEnter => False
      | EvalBinding =>
          exists n, letrec_length (fr_expr f) = Some n /\ length (fr_slots f) = n /\ fr_next_binding_index f < n /\
            is_Some (fr_recursive_env f)
      | EvalRecBody => True
      end
  | FrameIte f => match fi_state f with BranchEnter => False | EvalCondition => ite_kind (fi_expr f) | EvalSelected => True end
  | FrameMatch f => fm_state f <> MatchEnter
  | FrameNativeCall f => fn_state f = NativeWaiting /\ task_one (fn_task f)
  | FrameLiteral _ | FrameHole _ | FrameLam _ | FrameSequence _ | FrameNativeHost _ => False
  end.

(** A frame that waits for the results of the children [cs]. *)
Definition frame_many (frame : EFrame) (cs : list FrameId) : Prop :=
  match frame with
  | FrameSequence f =>
      fs_state f = EvalItem /\ slots_wf (fs_children f) (fs_values f) (fs_remaining f) cs /\
      sequence_length (fs_expr f) = Some (length (fs_values f))
  | FrameRecordUpdate f =>
      fu_state f = EvalUpdate /\ is_Some (fu_base_value f) /\
      slots_wf (fu_update_children f) (fu_update_values f) (fu_remaining_updates f) cs /\
      length (fu_update_keys f) = length (fu_update_values f)
  | FrameApp f =>
      fa_state f = EvalChildren /\
      (exists head, fa_head_child f = Some head /\
        slots_wf (head :: fa_arg_children f) (fa_func f :: fa_arg_values f) (fa_remaining f) cs) /\
      length (fa_arg_values f) = length (fa_spine f)
  | FrameNativeCall f => fn_state f = NativeWaiting /\ task_many (fn_task f) cs
  | _ => False
  end.

Lemma frame_for_expr_fresh parent e env : frame_fresh (frame_for_expr parent e env).
Proof. unfold frame_for_expr. destruct e as [T []]; simpl; try done; split_and!; try done; by eexists. Qed.

Lemma frame_for_expr_parent parent e env : frame_parent (frame_for_expr parent e env) = parent.
Proof. unfold frame_for_expr. by destruct e as [T []]. Qed.

(** * Handlers *)

(** The identifiers of the store are used up. *)
Definition exhausted (fs : EFrames) (e : fault) : Prop := e = Panic /\ N.of_nat (next_frame_id fs) = usize_max.

Section handlers.
Context (debug : bool) {F : Type} (runtime : RuntimeCore F) (Hnatives : natives_start_initial runtime).

Abbreviation yields := (yields debug runtime).
Abbreviation gives := (gives debug runtime).
Abbreviation any := (fun _ => True).

(** [runs m fs Q]: started with the frames [fs], [m] answers as [Q] says, or fails with a
    fault of values or for want of identifiers. *)
Definition runs {A} (m : EM A) (fs : EFrames) (Q : A -> EFrames -> Prop) : Prop :=
  forall sc, let '(r, (_, fs')) := m (sc, fs) in
    match r with Ok a => Q a fs' | Err e => value_fault debug runtime e \/ exhausted fs' e end.

Lemma runs_ret {A} (a : A) fs (Q : A -> EFrames -> Prop) : Q a fs -> runs (mret a) fs Q.
Proof using. by intros H sc. Qed.

Lemma runs_bind {A B} (m : EM A) (k : A -> EM B) fs (P : A -> EFrames -> Prop) (Q : B -> EFrames -> Prop) :
  runs m fs P -> (forall a fs', P a fs' -> runs (k a) fs' Q) -> runs (mthen m k) fs Q.
Proof using.
  intros Hm Hk sc. unfold mthen. specialize (Hm sc). destruct (m (sc, fs)) as [[a|e] [sc' fs']]; [|done].
  by apply Hk.
Qed.

Lemma runs_mono {A} (m : EM A) fs (P Q : A -> EFrames -> Prop) :
  runs m fs P -> (forall a fs', P a fs' -> Q a fs') -> runs m fs Q.
Proof using. intros Hm H sc. specialize (Hm sc). destruct (m (sc, fs)) as [[a|e] [sc' fs']]; [by apply H|done]. Qed.

(** An operation on the scope leaves the frames. *)
Lemma runs_scope {A} (m : SM A) fs (P : A -> Prop) : yields m P -> runs (in_scope m) fs (fun a fs' => P a /\ fs' = fs).
Proof using.
  intros H sc. unfold in_scope. simpl. specialize (H sc). destruct (m sc) as [[a|e] sc']; simpl in *; [done|by left].
Qed.

Lemma runs_throw {A} (r : exec A) fs (P : A -> Prop) : gives r P -> runs (ethrow r) fs (fun a fs' => P a /\ fs' = fs).
Proof using. intros H sc. simpl. destruct r; [done|by left]. Qed.

Lemma runs_replace id f fs (Q : unit -> EFrames -> Prop) : is_Some (frame_lookup id (frames fs)) ->
  Q tt (mkFrameStore (next_frame_id fs) (frame_insert id f (frames fs))) -> runs (replace_frame id f) fs Q.
Proof using. intros [g Hg] HQ sc. unfold replace_frame, in_frames, store_replace. simpl. by rewrite Hg. Qed.

Lemma runs_get id f fs (Q : EFrame -> EFrames -> Prop) : frame_lookup id (frames fs) = Some f -> Q f fs ->
  runs (in_frames (store_get id)) fs Q.
Proof using. intros Hf HQ sc. unfold in_frames, store_get, mlift. simpl. by rewrite Hf. Qed.

Lemma runs_insert f fs (Q : FrameId -> EFrames -> Prop) :
  Q (next_frame_id fs) (mkFrameStore (S (next_frame_id fs)) (frame_insert (next_frame_id fs) f (frames fs))) ->
  runs (in_frames (store_insert f)) fs Q.
Proof using.
  intros HQ sc. unfold in_frames, store_insert. simpl. by destruct (decide _); [right|].
Qed.
(** What a handler of frame [id] does to the store: it may replace the frame and add fresh
    children of it. *)
Record evolves (id : FrameId) (fs fs' : EFrames) (f : EFrame) (new : list (FrameId * EFrame)) : Prop := {
  ev_frames : frames fs' = frame_insert id f (frames fs) ++ new;
  ev_next : next_frame_id fs' = next_frame_id fs + length new;
  ev_ids : map fst new = seq (next_frame_id fs) (length new);
  ev_new : Forall (fun e => frame_fresh e.2 /\ frame_parent e.2 = Some id) new }.

Lemma frame_insert_same id f (l : list (FrameId * EFrame)) : StronglySorted lt (map fst l) -> frame_lookup id l = Some f -> frame_insert id f l = l.
Proof using.
  induction l as [|[i g] l IH]; simpl; [done|]. intros [Hs Hall]%StronglySorted_inv.
  case_decide as Hi; [intros [= ->]; by rewrite decide_True by done; subst|]. intros Hl.
  assert (i < id) by (rewrite Forall_forall in Hall; apply Hall, frame_lookup_ids; by eexists).
  rewrite !decide_False by lia. by rewrite IH.
Qed.

Lemma frame_insert_app id f (l l' : list (FrameId * EFrame)) : is_Some (frame_lookup id l) -> StronglySorted lt (map fst l) ->
  frame_insert id f (l ++ l') = frame_insert id f l ++ l'.
Proof using.
  induction l as [|[i g] l IH]; simpl; [by intros []|]. intros Hl [Hs Hall]%StronglySorted_inv.
  destruct (decide (i = id)) as [->|Hne]; [by rewrite !decide_True by done|].
  assert (i < id) by (rewrite Forall_forall in Hall; apply Hall, frame_lookup_ids, Hl).
  rewrite !decide_False by lia. by rewrite IH.
Qed.

Lemma frame_insert_twice id f f' (l : list (FrameId * EFrame)) : is_Some (frame_lookup id l) -> StronglySorted lt (map fst l) ->
  frame_insert id f' (frame_insert id f l) = frame_insert id f' l.
Proof using.
  induction l as [|[i g] l IH]; simpl; [by intros []|]. intros Hl [Hs Hall]%StronglySorted_inv.
  destruct (decide (i = id)) as [->|Hne]; [rewrite !decide_True by done; simpl; by rewrite decide_True|].
  assert (i < id) by (rewrite Forall_forall in Hall; apply Hall, frame_lookup_ids, Hl).
  rewrite !decide_False by lia. simpl. rewrite !decide_False by lia. by rewrite IH.
Qed.

Section store.
Context (id : FrameId) (fs : EFrames) (f0 : EFrame) (Hwf : store_wf fs) (Hf0 : frame_lookup id (frames fs) = Some f0).

Lemma evolves_refl : evolves id fs fs f0 [].
Proof using Hwf Hf0.
  split; simpl; [|lia|done|done]. rewrite app_nil_r, frame_insert_same; [done|apply Hwf|done].
Qed.

Lemma evolves_lookup fs1 f new : evolves id fs fs1 f new -> frame_lookup id (frames fs1) = Some f.
Proof using Hwf Hf0.
  intros [H _ _ _]. rewrite H, frame_lookup_app.
  destruct (frame_insert_present id f f0 _ (st_ascending _ Hwf) Hf0) as (_ & Hl & _). by rewrite Hl, decide_True.
Qed.

Lemma evolves_replace fs1 f f' new : evolves id fs fs1 f new ->
  evolves id fs (mkFrameStore (next_frame_id fs1) (frame_insert id f' (frames fs1))) f' new.
Proof using Hwf Hf0.
  intros [H1 H2 H3 H4]. split; simpl; [|done..].
  destruct (frame_insert_present id f f0 _ (st_ascending _ Hwf) Hf0) as (Hids & Hl & _).
  rewrite H1, frame_insert_app, frame_insert_twice; [done|by eexists|apply Hwf|rewrite Hl, decide_True by done; by eexists|].
  rewrite Hids. apply Hwf.
Qed.

Lemma evolves_below fs1 f new : evolves id fs fs1 f new -> Forall (fun i => i < next_frame_id fs1) (map fst (frames fs1)).
Proof using Hwf Hf0.
  intros [H1 H2 H3 H4]. destruct (frame_insert_present id f f0 _ (st_ascending _ Hwf) Hf0) as (Hids & _ & _).
  rewrite H1, H2, map_app, Hids, H3. apply Forall_app. split.
  - eapply Forall_impl; [apply Hwf|]. simpl. lia.
  - apply Forall_forall. intros i Hi%elem_of_seq. lia.
Qed.

Lemma evolves_insert fs1 f new g : evolves id fs fs1 f new -> frame_fresh g -> frame_parent g = Some id ->
  evolves id fs (mkFrameStore (S (next_frame_id fs1)) (frame_insert (next_frame_id fs1) g (frames fs1))) f
    (new ++ [(next_frame_id fs1, g)]).
Proof using Hwf Hf0.
  intros He Hg Hp. pose proof (evolves_below _ _ _ He) as Hb. destruct He as [H1 H2 H3 H4]. split; simpl.
  - by rewrite frame_insert_last, H1, <- app_assoc.
  - rewrite length_app, H2. simpl. lia.
  - by rewrite map_app, length_app, H3, seq_app, H2.
  - apply Forall_app. split; [done|]. by constructor.
Qed.

Lemma insert_children_runs fs1 f new env exprs : evolves id fs fs1 f new ->
  runs (insert_children id env exprs) fs1 (fun cs fs2 =>
    exists more, evolves id fs fs2 f (new ++ more) /\ cs = map fst more /\ length cs = length exprs).
Proof using Hwf Hf0.
  unfold insert_children. revert fs1 new. induction exprs as [|e exprs IH]; intros fs1 new He; simpl.
  { apply runs_ret. exists []. by rewrite app_nil_r. }
  eapply runs_bind.
  { apply runs_insert with (Q := fun c fs2 => exists g, c = next_frame_id fs1 /\ evolves id fs fs2 f (new ++ [(c, g)])).
    eexists. split; [done|].
    apply evolves_insert; [done|apply frame_for_expr_fresh|apply frame_for_expr_parent]. }
  intros c fs2 (g & -> & He2). eapply runs_bind; [by apply IH|]. intros cs fs3 (more & He3 & -> & Hlen).
  apply runs_ret. exists ((next_frame_id fs1, g) :: more). rewrite <- app_assoc in He3. simpl. by rewrite Hlen.
Qed.
End store.

#[local] Ltac yield_leaf ::= apply alloc_scalar_yields.

Section steps.
Context (id : FrameId) (fs : EFrames) (f0 : EFrame) (Hwf : store_wf fs) (Hf0 : frame_lookup id (frames fs) = Some f0).

(** Which of the results that are awaited a handler takes: none, the only one, or [c] of
    [cs]. *)
Definition last_taken (taken : option (FrameId * list FrameId)) : Prop :=
  match taken with None => True | Some (c, cs) => cs = [c] end.

(** What the frame waits for when its handler answers [control]. *)
Definition control_ok (taken : option (FrameId * list FrameId)) (control : EvalControl) (fs' : EFrames) : Prop :=
  exists f new, evolves id fs fs' f new /\ frame_parent f = frame_parent f0 /\
    match control with
    | Push _ _ | AwaitNative _ => frame_one f /\ new = [] /\ last_taken taken
    | PushFrame g => frame_one f /\ new = [] /\ last_taken taken /\ frame_fresh g /\ frame_parent g = Some id
    | Schedule cs => frame_many f cs /\ cs = map fst new /\ cs <> [] /\ last_taken taken
    | Wait =>
        match taken with
        | None => False
        | Some (c, cs) => exists cs', cs ≡ₚ c :: cs' /\ cs' <> [] /\ frame_many f cs' /\ new = []
        end
    | Return _ => new = [] /\ last_taken taken
    end.

Abbreviation handles m fs1 taken := (runs m fs1 (control_ok taken)).

Lemma handles_return m fs1 f taken : evolves id fs fs1 f [] -> frame_parent f = frame_parent f0 ->
  last_taken taken -> yields m any -> handles (let* root := in_scope m in mret (Return root)) fs1 taken.
Proof using.
  intros He Hp Hl Hm. eapply runs_bind; [by apply runs_scope|]. intros root fs' [_ ->]. apply runs_ret.
  by exists f, [].
Qed.

Lemma handles_mret v fs1 f taken : evolves id fs fs1 f [] -> frame_parent f = frame_parent f0 ->
  last_taken taken -> handles (mret (Return v)) fs1 taken.
Proof using. intros He Hp Hl. apply runs_ret. by exists f, []. Qed.

(** The frame is replaced before the answer. *)
Lemma handles_replace f f' new fs1 (m : EM EvalControl) taken : evolves id fs fs1 f new ->
  (forall fs2, evolves id fs fs2 f' new -> handles m fs2 taken) ->
  handles (let* _ := replace_frame id f' in m) fs1 taken.
Proof using Hwf Hf0.
  intros He Hm. eapply runs_bind; [apply runs_replace with (Q := fun _ fs2 => evolves id fs fs2 f' new)|intros ? fs2; apply Hm].
  - eexists. by eapply evolves_lookup.
  - by eapply evolves_replace.
Qed.

Lemma handles_push expr env f f' fs1 taken : evolves id fs fs1 f [] -> frame_parent f' = frame_parent f0 ->
  frame_one f' -> last_taken taken -> handles (let* _ := replace_frame id f' in mret (Push expr env)) fs1 taken.
Proof using Hwf Hf0.
  intros He Hp Ho Hl. eapply handles_replace; [done|]. intros fs2 He2. apply runs_ret. by exists f', [].
Qed.

(** ** Entering *)

Lemma literal_enter_handles f taken : f0 = FrameLiteral f -> literal_kind (fl_expr f) -> last_taken taken ->
  handles (in_scope (eval_literal_enter debug f)) fs taken.
Proof using Hwf Hf0.
  intros Hf Hk Hl.
  assert (Hy : yields (eval_literal_enter debug f) (fun c => exists v, c = Return v)).
  { unfold eval_literal_enter. unfold literal_kind in Hk.
    apply (yields_bind _ _ _ _ any); [|intros v _; apply yields_ret; by exists v].
    destruct (te_kind (fl_expr f)); try done; yield. }
  eapply runs_mono; [by apply runs_scope|]. intros c fs' [[v ->] ->]. exists f0, [].
  split_and!; [by apply evolves_refl|done|done|done].
Qed.

Lemma map_keys_gives kind keys (values : list RootedPtr) : length keys = length values ->
  gives (map_keys_to_values kind keys values) any.
Proof using. intros H. unfold map_keys_to_values. by rewrite decide_False by (intros ?; congruence). Qed.

Lemma sequence_values_yields e values : sequence_length e = Some (length values) ->
  yields (alloc_sequence_values debug e values) any.
Proof using.
  unfold sequence_length, alloc_sequence_values. destruct (te_kind e); try done; intros H; simplify_eq; [yield..|].
  apply (yields_bind _ _ _ _ any); [apply yields_lift, map_keys_gives; by rewrite length_map|]. intros. yield.
Qed.

Lemma sequence_exprs_gives e n : sequence_length e = Some n -> exists exprs, sequence_exprs e = Ok exprs /\ length exprs = n.
Proof using.
  unfold sequence_length, sequence_exprs. destruct (te_kind e); try done; intros [= <-]; eexists; (split; [done|]); try done.
  by rewrite length_map.
Qed.

(** Scheduling fresh children and storing the frame that awaits them. *)
Lemma handles_children env exprs (frame : list FrameId -> EFrame) taken : exprs <> [] -> last_taken taken ->
  (forall children, NoDup children -> length children = length exprs ->
     frame_many (frame children) children /\ frame_parent (frame children) = frame_parent f0) ->
  forall fs1 f, evolves id fs fs1 f [] ->
  handles (let* children := insert_children id env exprs in
           let* _ := replace_frame id (frame children) in mret (Schedule children)) fs1 taken.
Proof using Hwf Hf0.
  intros Hne Hl Hframe fs1 f He. eapply runs_bind; [by eapply insert_children_runs|]. intros children fs2 (new & He2 & -> & Hlen).
  simpl in He2. eapply handles_replace; [done|]. intros fs3 He3. apply runs_ret.
  assert (Hnd : NoDup (map fst new)) by (rewrite (ev_ids _ _ _ _ _ He3); apply NoDup_seq).
  destruct (Hframe _ Hnd Hlen) as [Hm Hp]. exists (frame (map fst new)), new.
  split_and!; try done. intros Hnil. rewrite Hnil in Hlen. by destruct exprs.
Qed.

Lemma sequence_enter_handles f taken : f0 = FrameSequence f -> frame_fresh f0 -> last_taken taken ->
  handles (eval_sequence_enter debug id f) fs taken.
Proof using Hwf Hf0.
  intros Hf Hfresh Hl. rewrite Hf in Hfresh. destruct Hfresh as [Hs [n Hn]]. unfold eval_sequence_enter.
  destruct (sequence_exprs_gives _ _ Hn) as (exprs & -> & Hlen). 
  eapply runs_bind; [apply (runs_throw _ _ (eq exprs)); done|]. intros ? fs' [<- ->]. case_decide as Hnil.
  - eapply handles_return; [by apply evolves_refl|done|done|]. apply sequence_values_yields. by subst.
  - eapply handles_children; [done|done| |by apply evolves_refl]. intros children Hnd Hc. simpl. rewrite Hf. split; [|done].
    split_and!; [done|by apply slots_wf_start|]. by rewrite length_replicate, Hn, Hlen.
Qed.
Lemma app_enter_handles f taken : f0 = FrameApp f -> last_taken taken -> handles (eval_app_enter id f) fs taken.
Proof using Hwf Hf0.
  intros Hf Hl. unfold eval_app_enter. destruct (app_spine (fa_expr f) []) as [head spine].
  eapply runs_bind.
  { apply runs_insert with (Q := fun c fs2 => exists g, evolves id fs fs2 f0 [(c, g)]). eexists.
    apply (evolves_insert id fs f0 Hwf Hf0 fs f0 []); [by apply evolves_refl|apply frame_for_expr_fresh|apply frame_for_expr_parent]. }
  intros head_child fs1 (g & He1). eapply runs_bind; [by eapply insert_children_runs|].
  intros args fs2 (more & He2 & -> & Hlen). rewrite !length_map in Hlen. simpl in He2.
  eapply handles_replace; [done|]. intros fs3 He3. apply runs_ret.
  eexists _, ((head_child, g) :: more). split_and!; [done|by subst| |done|done|done].
  pose proof (ev_ids _ _ _ _ _ He3) as Hids. simpl in Hids.
  assert (Hnd : NoDup (head_child :: map fst more)) by (simpl; rewrite Hids; apply (NoDup_seq _ (S _))).
  split_and!; [done| |simpl; by rewrite length_replicate]. exists head_child. split; [done|]. simpl.
  apply (slots_wf_start _ (S (length spine))); [done|simpl; by rewrite length_map, Hlen|lia].
Qed.

(** ** Native tasks *)

Lemma native_children_runs p n count index : forall task fs1 new,
  evolves id fs fs1 (FrameNativeCall (mkFrNativeCall p NativeWaiting task)) new ->
  task_filling task n (map fst new) -> length new = index -> index + count = n ->
  runs (schedule_native_children debug id index count) fs1 (fun _ fs2 =>
    exists task' new', evolves id fs fs2 (FrameNativeCall (mkFrNativeCall p NativeWaiting task')) new' /\
      task_filling task' n (map fst new') /\ length new' = n).
Proof using Hwf Hf0.
  revert index. induction count as [|count IH]; intros index task fs1 new He Hfill Hlen Hn; simpl.
  { apply runs_ret. exists task, new. split_and!; [done|done|lia]. }
  assert (Hget : forall fs2 task2 new2,
    evolves id fs fs2 (FrameNativeCall (mkFrNativeCall p NativeWaiting task2)) new2 ->
    runs (get_native_call id) fs2 (fun f fs3 => f = mkFrNativeCall p NativeWaiting task2 /\ fs3 = fs2)).
  { intros fs2 task2 new2 He2. unfold get_native_call. eapply runs_bind.
    - eapply runs_get with (Q := fun f fs3 => f = FrameNativeCall (mkFrNativeCall p NativeWaiting task2) /\ fs3 = fs2);
        [by eapply evolves_lookup|done].
    - intros ? ? [-> ->]. simpl. by apply (runs_throw _ _ (fun f => f = _)). }
  eapply runs_bind; [by eapply Hget|]. intros ? ? [-> ->]. simpl.
  eapply runs_bind; [apply runs_scope, (child_spec_yields _ _ _ n (map fst new)); [done|lia]|]. intros spec ? [_ ->].
  eapply runs_bind.
  { apply runs_insert with (Q := fun c fs2 => exists g,
      evolves id fs fs2 (FrameNativeCall (mkFrNativeCall p NativeWaiting task)) (new ++ [(c, g)])).
    eexists. eapply (evolves_insert id fs f0 Hwf Hf0); [done|apply frame_for_expr_fresh|apply frame_for_expr_parent]. }
  intros child fs2 (g & He2). eapply runs_bind; [by eapply Hget|]. intros ? ? [-> ->]. simpl.
  destruct (push_child _ _ _ child Hfill) as (task' & -> & Hfill').
  eapply runs_bind; [apply (runs_throw _ _ (eq task')); done|]. intros ? ? [<- ->].
  eapply runs_bind.
  { apply runs_replace with (Q := fun _ fs3 =>
      evolves id fs fs3 (FrameNativeCall (mkFrNativeCall p NativeWaiting task')) (new ++ [(child, g)])).
    - eexists. by eapply evolves_lookup.
    - by eapply evolves_replace. }
  intros ? fs3 He3. apply (IH (S index) task' fs3 (new ++ [(child, g)])); [done| | |lia].
  - by rewrite map_app.
  - rewrite length_app. simpl. lia.
Qed.

(** A step that does not wait for more of the results that are awaited already. *)
Lemma native_control_handles f step fs1 g taken : evolves id fs fs1 g [] -> fn_parent f = frame_parent f0 ->
  enter_result (step, fn_task f) -> last_taken taken -> frame_parent g = frame_parent f0 ->
  handles (native_step_to_control debug id f step) fs1 taken.
Proof using Hwf Hf0.
  intros He Hp Hr Hl Hg. destruct step as [| |count|]; simpl in *; [done| |..].
  - eapply handles_push; [done|done|done|done].
  - destruct Hr as [Hpos Hfill]. eapply handles_replace; [done|]. intros fs2 He2.
    eapply runs_bind; [eapply (native_children_runs _ count count 0); [done|done|done|lia]|].
    intros ? fs3 (task' & new & He3 & Hfill' & Hlen).
    eapply runs_bind.
    { eapply runs_bind with (P := fun g fs4 => g = FrameNativeCall (mkFrNativeCall (fn_parent f) NativeWaiting task') /\ fs4 = fs3).
      - by eapply runs_get; [eapply evolves_lookup|].
      - intros ? ? [-> ->]. simpl. by apply (runs_throw _ _ (fun f' => f' = mkFrNativeCall (fn_parent f) NativeWaiting task')). }
    intros ? ? [-> ->]. simpl. rewrite (filling_children _ _ _ Hfill').
    eapply runs_bind; [by apply (runs_throw _ _ (fun cs => cs = map fst new))|]. intros ? ? [-> ->].
    apply runs_ret. eexists _, new. split_and!; try done.
    + split; [done|]. eapply filling_full; [done| |by rewrite length_map].
      rewrite (ev_ids _ _ _ _ _ He3). apply NoDup_seq.
    + intros Hnil. apply (f_equal length) in Hnil. rewrite length_map in Hnil. simpl in Hnil. lia.
  - by eapply handles_mret.
Qed.

Lemma native_enter_handles f taken : f0 = FrameNativeCall f -> frame_fresh f0 -> last_taken taken ->
  handles (eval_native_enter debug id f) fs taken.
Proof using Hwf Hf0.
  intros Hf Hfresh Hl. rewrite Hf in Hfresh. destruct Hfresh as [Hs Ht]. unfold eval_native_enter. rewrite Hs.
  eapply runs_bind; [by apply runs_scope, task_enter_yields|]. intros [step task] ? [Hr ->]. simpl.
  eapply native_control_handles; [by apply evolves_refl|simpl; by rewrite Hf|done|done|done].
Qed.

Lemma native_receive_one_handles f c value taken : f0 = FrameNativeCall f -> frame_one f0 -> last_taken taken ->
  handles (eval_native_receive debug id f c value) fs taken.
Proof using Hwf Hf0.
  intros Hf Hone Hl. rewrite Hf in Hone. destruct Hone as [Hs Ht]. unfold eval_native_receive. rewrite Hs.
  eapply runs_bind; [by apply runs_scope, task_receive_one_yields|]. intros [step task] ? [Hr ->]. simpl.
  eapply native_control_handles; [by apply evolves_refl|simpl; by rewrite Hf| |done|done].
  by destruct step.
Qed.

Lemma native_receive_many_handles f c cs value : f0 = FrameNativeCall f -> frame_many f0 cs -> c ∈ cs ->
  handles (eval_native_receive debug id f c value) fs (Some (c, cs)).
Proof using Hwf Hf0.
  intros Hf Hmany Hc. rewrite Hf in Hmany. destruct Hmany as [Hs Ht]. unfold eval_native_receive. rewrite Hs.
  eapply runs_bind; [by eapply runs_scope, task_receive_many_yields|]. intros [step task] ? [Hr ->].
  destruct step; simpl in *; try done.
  - destruct Hr as (cs' & Hcs & Hne & Hm). eapply handles_replace; [by apply evolves_refl|]. intros fs2 He2.
    apply runs_ret. eexists _, []. split_and!; [done|by rewrite Hf|]. by exists cs'.
  - eapply handles_mret; [by apply evolves_refl|done|done].
Qed.

(** ** Names *)

Lemma var_enter_handles f taken : f0 = FrameVar f -> frame_fresh f0 -> last_taken taken ->
  handles (eval_var_enter debug runtime id f) fs taken.
Proof using Hwf Hf0 Hnatives.
  intros Hf Hfresh Hl. rewrite Hf in Hfresh. simpl in Hfresh. unfold eval_var_enter.
  eapply runs_bind with (P := fun r fs1 => task_result r /\ fs1 = fs).
  { unfold var_kind in Hfresh. destruct (te_kind (fv_expr f)); try done;
      [apply runs_scope, resolve_class_method_yields|by apply runs_scope, resolve_var_yields]. }
  intros [v|e env|task|call] ? [Hr ->].
  - eapply handles_mret; [by apply evolves_refl|done|done].
  - eapply handles_push; [by apply evolves_refl|by rewrite Hf|done|done].
  - apply runs_ret. exists f0, []. split_and!; try done; [by apply evolves_refl|by rewrite Hf].
  - eapply handles_replace; [by apply evolves_refl|]. intros fs2 He2. apply runs_ret.
    eexists _, []. split_and!; try done. by rewrite Hf.
Qed.

Lemma letrec_enter_handles f taken : f0 = FrameLetRec f -> frame_fresh f0 -> last_taken taken ->
  handles (eval_letrec_enter debug id f) fs taken.
Proof using Hwf Hf0.
  intros Hf Hfresh Hl. rewrite Hf in Hfresh. destruct Hfresh as (Hs & [n Hn] & H0). unfold eval_letrec_enter.
  unfold letrec_length in Hn. destruct (te_kind (fr_expr f)) as [| | | | | | | | | | | | | | | | | | |bindings body| |] eqn:Hk; try done.
  injection Hn as Hn.
  eapply runs_bind; [eapply runs_scope, yields_mapM; intros ?; unfold alloc_root_uninitialized; yield|].
  intros slots ? [Hlen ->]. cbn zeta. destruct bindings as [|[x def] bindings].
  - eapply handles_push; [by apply evolves_refl|by rewrite Hf|done|done].
  - eapply handles_push; [by apply evolves_refl|by rewrite Hf| |done].
    simpl. exists n. unfold letrec_length. rewrite Hk, H0. subst n. simpl in *. split_and!; [done|done|lia|by eexists].
Qed.

Lemma enter_handles frame taken : f0 = frame -> frame_fresh frame -> last_taken taken ->
  handles (eval_enter debug runtime id frame) fs taken.
Proof using Hwf Hf0 Hnatives.
  intros Hf Hfresh Hl. pose proof (evolves_refl _ _ _ Hwf Hf0) as Hrefl.
  assert (Hfresh0 : frame_fresh f0) by by rewrite Hf.
  destruct frame as [f|f|f|f|f|f|f|f|f|f|f|f|f|f]; cbn [eval_enter].
  all: try solve [
    first [apply literal_enter_handles | apply sequence_enter_handles | apply var_enter_handles | apply app_enter_handles
          | apply letrec_enter_handles | apply native_enter_handles]; done].
  - eapply runs_mono; [by apply (runs_throw _ _ (fun _ => False)), gives_raise|]. by intros ? ? [].
  - destruct Hfresh as [Hs Hk]. pose proof Hk as Hk'. unfold update_kind in Hk. destruct (te_kind (fu_expr f)); try done.
    eapply handles_push; [done|by rewrite Hf|done|done].
  - simpl in Hfresh. pose proof Hfresh as Hk. unfold project_kind in Hk. destruct (te_kind (fv_expr f)); try done.
    eapply handles_push; [done|by rewrite Hf|done|done].
  - simpl in Hfresh. pose proof Hfresh as Hk. unfold lambda_kind in Hk. destruct (te_kind (fv_expr f)); try done.
    destruct (split_fun _) as [[param_ty ?]|].
    + eapply handles_return; [done|done|done|yield].
    + eapply runs_mono; [by apply (runs_throw _ _ (fun _ => False)), gives_raise|]. by intros ? ? [].
  - destruct Hfresh as [Hs Hk]. pose proof Hk as Hk'. unfold let_kind in Hk. destruct (te_kind (ft_expr f)); try done.
    eapply handles_push; [done|by rewrite Hf|done|done].
  - destruct Hfresh as [Hs Hk]. pose proof Hk as Hk'. unfold ite_kind in Hk. destruct (te_kind (fi_expr f)); try done.
    eapply handles_push; [done|by rewrite Hf|done|done].
  - destruct Hfresh as [Hs Hk]. pose proof Hk as Hk'. unfold match_kind in Hk. destruct (te_kind (fm_expr f)); try done.
    eapply handles_push; [done|by rewrite Hf|done|done].
  - done.
Qed.

(** ** Receiving *)

Lemma receive_sequence_runs kind children values remaining cs c value fs1 :
  slots_wf children values remaining cs -> c ∈ cs ->
  runs (ethrow (receive_sequence_value kind children values remaining c value)) fs1
    (fun r fs2 => took children (length values) c cs r /\ fs2 = fs1).
Proof using.
  intros Hw Hc. apply runs_throw. destruct (slots_wf_receive _ _ _ _ _ Hw Hc) as (i & r & cs' & Hi & Hs & -> & Hcs & Hw').
  unfold receive_sequence_value. rewrite Hi. simpl. rewrite Hs. simpl. exists cs'. simpl. by rewrite length_insert.
Qed.

Lemma completed_runs kind n values fs1 : filled_slots n values ->
  runs (ethrow (completed_values kind values)) fs1 (fun vs fs2 => length vs = n /\ fs2 = fs1).
Proof using.
  intros (xs & -> & Hlen). apply runs_throw. unfold completed_values. rewrite all_some_filled. simpl.
  by rewrite length_map in Hlen.
Qed.

Lemma sequence_receive_handles f c cs value : f0 = FrameSequence f -> frame_many f0 cs -> c ∈ cs ->
  handles (eval_sequence_receive debug id f c value) fs (Some (c, cs)).
Proof using Hwf Hf0.
  intros Hf Hmany Hc. rewrite Hf in Hmany. destruct Hmany as (Hs & Hw & Hlen). unfold eval_sequence_receive.
  assert (Hkind : exists k, sequence_kind (fs_expr f) = Ok k).
  { unfold sequence_length in Hlen. unfold sequence_kind. destruct (te_kind (fs_expr f)); try done; by eexists. }
  destruct Hkind as [kind ->]. eapply runs_bind; [by apply (runs_throw _ _ (eq kind))|]. intros ? ? [<- ->]. rewrite Hs.
  eapply runs_bind; [by eapply receive_sequence_runs|]. intros r ? [Ht ->]. case_decide as H0.
  - destruct (took_last _ _ _ _ _ Ht H0) as [-> Hfull]. eapply runs_bind; [by apply completed_runs|].
    intros values ? [Hvs ->]. eapply handles_return; [by apply evolves_refl|done|done|].
    apply sequence_values_yields. by rewrite Hvs.
  - destruct (took_more _ _ _ _ _ Ht H0) as (cs' & Hcs & Hne & Hw' & Hl').
    eapply handles_replace; [by apply evolves_refl|]. intros fs2 He2. apply runs_ret.
    eexists _, []. split_and!; [done|by rewrite Hf|]. exists cs'. split_and!; [done|done| |done]. split_and!; [done|done|]. simpl. by rewrite Hl'.
Qed.

Lemma update_keys_exprs e keys : update_kind e keys ->
  exists exprs, record_update_exprs_for_keys e keys = Ok exprs /\ length exprs = length keys.
Proof using.
  unfold update_kind, record_update_exprs_for_keys. destruct (te_kind e); try done.
  intros ->. assert (Hsub : forall k, k ∈ map fst updates -> is_Some (btree_get updates k)).
  { intros k Hk. destruct (btree_get updates k) eqn:Hg; [by eexists|]. by apply btree_get_None in Hg. }
  induction (map fst updates) as [|k keys IH]; [by exists []|]. simpl.
  destruct (Hsub k) as [x ->]; [by left|]. simpl. destruct IH as (exprs & -> & Hlen); [intros; apply Hsub; by right|].
  simpl. exists (x :: exprs). simpl. by rewrite Hlen.
Qed.

Lemma updates_enter_handles f0' f taken : f0 = FrameRecordUpdate f0' -> fu_parent f = fu_parent f0' ->
  update_kind (fu_expr f) (fu_update_keys f) ->
  fu_update_keys f <> [] -> is_Some (fu_base_value f) -> last_taken taken ->
  handles (eval_record_update_updates_enter id f) fs taken.
Proof using Hwf Hf0.
  intros Hf Hp Hk Hne Hb Hl. unfold eval_record_update_updates_enter.
  destruct (update_keys_exprs _ _ Hk) as (exprs & -> & Hlen).
  eapply runs_bind; [by apply (runs_throw _ _ (eq exprs))|]. intros ? ? [<- ->].
  eapply handles_children; [|done| |by apply evolves_refl].
  - intros ->. by destruct (fu_update_keys f).
  - intros children Hnd Hc. simpl. rewrite Hf, Hp. split; [|done].
    split_and!; [done|done|by apply slots_wf_start|by rewrite length_replicate].
Qed.

Lemma record_update_receive_handles f c cs value taken : f0 = FrameRecordUpdate f ->
  (frame_one f0 /\ last_taken taken) \/ (frame_many f0 cs /\ c ∈ cs /\ taken = Some (c, cs)) ->
  handles (eval_record_update_receive debug id f c value) fs taken.
Proof using Hwf Hf0.
  intros Hf H. rewrite Hf in H. unfold eval_record_update_receive.
  destruct H as [[[Hs Hk] Hl]|[(Hs & [base Hb] & Hw & Hlen) [Hc ->]]]; rewrite Hs.
  - destruct (fu_update_keys f) as [|k keys] eqn:Hkeys.
    + eapply handles_return; [by apply evolves_refl|done|done|yield].
    + eapply updates_enter_handles; [done|done| | |by eexists|done]; simpl; by rewrite ?Hkeys.
  - eapply runs_bind; [by eapply receive_sequence_runs|]. intros r ? [Ht ->]. case_decide as H0.
    + destruct (took_last _ _ _ _ _ Ht H0) as [-> Hfull]. rewrite Hb. simpl.
      eapply runs_bind; [by apply (runs_throw _ _ (eq base))|]. intros ? ? [<- ->].
      eapply runs_bind; [by apply completed_runs|]. intros values ? [Hvs ->].
      eapply runs_bind; [by apply runs_throw, map_keys_gives; rewrite Hvs|]. intros update_values ? [_ ->].
      eapply handles_return; [by apply evolves_refl|done|done|yield].
    + destruct (took_more _ _ _ _ _ Ht H0) as (cs' & Hcs & Hne & Hw' & Hl').
      eapply handles_replace; [by apply evolves_refl|]. intros fs2 He2. apply runs_ret.
      eexists _, []. split_and!; [done|by rewrite Hf|]. exists cs'. split_and!; [done|done| |done]. split_and!; [done| |done|].
      * by eexists.
      * simpl. by rewrite Hl'.
Qed.

(** ** Applications *)

Lemma app_ready_arg f i : app_ready f -> i < length (fa_spine f) ->
  exists info arg, fa_spine f !! i = Some info /\ mjoin (fa_arg_values f !! i) = Some arg.
Proof using.
  intros [_ (args & Ha & Hlen)] Hi. destruct (lookup_lt_is_Some_2 (fa_spine f) i Hi) as [info Hinfo].
  destruct (lookup_lt_is_Some_2 args i) as [arg Harg]; [lia|]. exists info, arg. split; [done|].
  by rewrite Ha, list_lookup_fmap, Harg.
Qed.

Lemma app_loop_handles fuel : forall f g fs1 taken, evolves id fs fs1 g [] -> fa_parent f = frame_parent f0 ->
  frame_parent g = frame_parent f0 -> app_ready f ->
  length (fa_spine f) < fuel + fa_next_arg_index f -> fa_next_arg_index f <= length (fa_spine f) -> last_taken taken ->
  handles (app_loop debug runtime fuel id f) fs1 taken.
Proof using Hwf Hf0 Hnatives.
  induction fuel as [|fuel IH]; intros f g fs1 taken He Hp Hg Hready Hfuel Hle Hl; simpl; [lia|].
  rewrite decide_False by lia. pose proof Hready as [[func Hfunc] _]. rewrite Hfunc. simpl.
  eapply runs_bind; [by apply (runs_throw _ _ (eq func))|]. intros ? ? [<- ->]. case_decide as Hend.
  { by eapply handles_mret. }
  destruct (app_ready_arg f (fa_next_arg_index f) Hready) as (info & arg & Hinfo & Harg); [lia|]. rewrite Hinfo, Harg. simpl.
  eapply runs_bind; [by apply (runs_throw _ _ (eq info))|]. intros ? ? [<- ->].
  eapply runs_bind; [by apply (runs_throw _ _ (eq arg))|]. intros ? ? [<- ->].
  assert (Hready' : forall st next func' arg', is_Some func' ->
    app_ready (app_with f st (fa_arg_values f) (fa_remaining f) next func' arg')).
  { intros st next func' arg' Hf'. destruct Hready as [_ Ha]. by split. }
  eapply handles_replace; [done|]. intros fs2 He2.
  eapply runs_bind; [by apply runs_scope, apply_arg_yields|].
  assert (Hone : frame_one (FrameApp (app_with f ApplyArg (fa_arg_values f) (fa_remaining f) (fa_next_arg_index f)
      (Some func) (Some arg)))).
  { split_and!; [done|by apply Hready'; eexists|simpl; lia]. }
  intros [applied|expr env|task|call] ? [Hr ->].
  - eapply handles_replace; [done|]. intros fs3 He3.
    eapply IH; [done|done|done| |simpl; lia|simpl; lia|done].
    apply (Hready' ApplyArg (S (fa_next_arg_index f)) (Some applied) None). by eexists.
  - apply runs_ret. eexists _, []. by split_and!.
  - apply runs_ret. eexists _, []. by split_and!.
  - apply runs_ret. eexists _, []. by split_and!.
Qed.

Lemma app_continue_handles f applied g fs1 taken : evolves id fs fs1 g [] -> fa_parent f = frame_parent f0 ->
  frame_parent g = frame_parent f0 -> app_ready f -> last_taken taken ->
  (if applied : option RootedPtr then fa_next_arg_index f < length (fa_spine f)
   else fa_next_arg_index f <= length (fa_spine f)) ->
  handles (continue_app_after_apply debug runtime id f applied) fs1 taken.
Proof using Hwf Hf0 Hnatives.
  intros He Hp Hg Hready Hl Hi. unfold continue_app_after_apply, app_rounds. destruct applied as [v|].
  - eapply handles_replace; [done|]. intros fs2 He2. eapply app_loop_handles; [done|done|done| |simpl; lia|simpl; lia|done].
    destruct Hready as [_ Ha]. split; [by eexists|done].
  - eapply app_loop_handles; [done|done|done|done|lia|lia|done].
Qed.

(** A result among those of the head and of the arguments. *)
Lemma app_child_runs f head c cs value fs1 : fa_head_child f = Some head ->
  slots_wf (head :: fa_arg_children f) (fa_func f :: fa_arg_values f) (fa_remaining f) cs -> c ∈ cs ->
  runs (ethrow (receive_app_child_value f c value)) fs1 (fun f' fs2 => fs2 = fs1 /\
    exists func args remaining cs', f' = app_with f (fa_state f) args remaining (fa_next_arg_index f) func (fa_arg f) /\
      cs ≡ₚ c :: cs' /\ slots_wf (head :: fa_arg_children f) (func :: args) remaining cs').
Proof using.
  intros Hhead Hw Hc. eapply runs_mono.
  - apply runs_throw with (P := fun f' =>
      exists func args remaining cs', f' = app_with f (fa_state f) args remaining (fa_next_arg_index f) func (fa_arg f) /\
      cs ≡ₚ c :: cs' /\ slots_wf (head :: fa_arg_children f) (func :: args) remaining cs').
    destruct (slots_wf_receive _ _ _ _ _ Hw Hc) as (i & r & cs' & Hi & Hs & Hr & Hcs & Hw').
    specialize (Hw' value). unfold receive_app_child_value. rewrite Hr. simpl in Hi. case_decide as Hd.
    + subst c. injection Hi as <-. simpl in *. injection Hs as Hs. rewrite decide_True by done. rewrite Hs. simpl. eauto 10.
    + rewrite decide_False by (rewrite Hhead; congruence).
      destruct (position c (fa_arg_children f)) as [j|]; simplify_eq/=. rewrite Hs. simpl. eauto 10.
  - intros f' fs' [H ->]. done.
Qed.

Lemma app_receive_handles f c cs value taken : f0 = FrameApp f ->
  (frame_one f0 /\ last_taken taken) \/ (frame_many f0 cs /\ c ∈ cs /\ taken = Some (c, cs)) ->
  handles (eval_app_receive debug runtime id f c value) fs taken.
Proof using Hwf Hf0 Hnatives.
  intros Hf H. rewrite Hf in H. unfold eval_app_receive. assert (Hp : fa_parent f = frame_parent f0) by by rewrite Hf.
  destruct H as [[(Hs & Hready & Hi) Hl]|[(Hs & (head & Hhead & Hw) & Hlen) [Hc ->]]]; rewrite Hs.
  { eapply app_continue_handles; [by apply evolves_refl|done|done|done|done|done]. }
  eapply runs_bind; [by eapply app_child_runs|]. intros f' ? (-> & func & args & remaining & cs' & -> & Hcs & Hw').
  assert (Hargs : length args = length (fa_spine f)).
  { pose proof (sw_length _ _ _ _ Hw). pose proof (sw_length _ _ _ _ Hw'). simpl in *. congruence. }
  case_decide as H0; simpl in H0.
  - subst remaining. destruct (slots_wf_complete _ _ _ Hw') as (xs & _ & Hxs).
    pose proof (sw_remaining _ _ _ _ Hw') as Hrem. destruct cs'; [|done].
    destruct xs as [|x xs]; [done|]. simpl in Hxs. injection Hxs as -> ->. rewrite length_map in Hargs.
    eapply app_continue_handles; [by apply evolves_refl|done|done| | |simpl; lia].
    + split; [by eexists|]. by exists xs.
    + by apply Permutation_singleton_r in Hcs.
  - eapply handles_replace; [by apply evolves_refl|]. intros fs2 He2. apply runs_ret.
    eexists _, []. split_and!; [done|by rewrite Hf|]. exists cs'. split_and!; [done| | |done].
    + intros ->. by pose proof (sw_remaining _ _ _ _ Hw').
    + split_and!; [done|by exists head|done].
Qed.

(** ** The other frames *)

Lemma match_arms_yields value arms : forall idx, yields (match_arms debug value idx arms) any.
Proof using.
  induction arms as [|arm arms IH]; intros idx; simpl; [by apply yields_raise|].
  apply (yields_bind _ _ _ _ any); [yield|]. intros [b|] _; [by apply yields_ret|apply IH].
Qed.

Lemma condition_yields value : yields (condition debug value) any.
Proof using.
  intros sc. unfold condition. pose proof (root_as_bool_yields debug runtime value sc) as H.
  destruct (root_as_bool debug value sc) as [[b|[[]| |]] sc']; simpl in *; try done. by apply vf_user.
Qed.

Lemma letrec_receive_handles f value taken : f0 = FrameLetRec f -> frame_one f0 -> last_taken taken ->
  handles (eval_letrec_receive debug id f value) fs taken.
Proof using Hwf Hf0.
  intros Hf Hone Hl. rewrite Hf in Hone. simpl in Hone. unfold eval_letrec_receive. destruct (fr_state f); [done| |].
  - destruct Hone as (n & Hn & Hslots & Hi & [env Henv]). pose proof Hn as Hn'. unfold letrec_length in Hn.
    destruct (te_kind (fr_expr f)); try done. injection Hn as Hn.
    destruct (lookup_lt_is_Some_2 (fr_slots f) (fr_next_binding_index f)) as [slot Hslot]; [lia|]. rewrite Hslot, Henv. simpl.
    eapply runs_bind; [by apply (runs_throw _ _ (eq slot))|]. intros ? ? [<- ->].
    eapply runs_bind; [eapply (runs_scope _ _ any); yield|]. intros ? ? [_ ->].
    eapply runs_bind; [by apply (runs_throw _ _ (eq env))|]. intros ? ? [<- ->]. case_decide as Hlast.
    + eapply handles_push; [by apply evolves_refl|by rewrite Hf|done|done].
    + destruct (lookup_lt_is_Some_2 bindings (S (fr_next_binding_index f))) as [next Hnext]; [lia|].
      unfold index_vec. rewrite Hnext.
      eapply runs_bind; [by apply (runs_throw _ _ (eq next))|]. intros ? ? [<- ->].
      eapply handles_push; [by apply evolves_refl|by rewrite Hf| |done].
      exists n. simpl. split_and!; [done|done|lia|by eexists].
  - eapply handles_mret; [by apply evolves_refl|done|done].
Qed.

Lemma receive_one_handles frame c value taken : f0 = frame -> frame_one frame -> last_taken taken ->
  handles (eval_receive debug runtime id frame c value) fs taken.
Proof using Hwf Hf0 Hnatives.
  intros Hf Hone Hl. pose proof (evolves_refl _ _ _ Hwf Hf0) as Hrefl.
  assert (Hone0 : frame_one f0) by by rewrite Hf.
  destruct frame as [f|f|f|f|f|f|f|f|f|f|f|f|f|f]; cbn [eval_receive]; try done.
  all: try solve [apply letrec_receive_handles; done | apply native_receive_one_handles; done
                 | eapply handles_mret; done | apply (record_update_receive_handles _ _ []); eauto
                 | apply (app_receive_handles _ _ []); eauto].
  - simpl in Hone. unfold project_kind in Hone. destruct (te_kind (fv_expr f)); try done.
    eapply handles_return with (m := project_pointer debug _ value); [done|done|done|yield].
  - simpl in Hone. destruct (ft_state f); [done| |by eapply handles_mret].
    pose proof Hone as Hk. unfold let_kind in Hk. destruct (te_kind (ft_expr f)); try done.
    eapply handles_push; [done|by rewrite Hf|done|done].
  - simpl in Hone. destruct (fi_state f); [done| |by eapply handles_mret].
    unfold ite_kind in Hone. destruct (te_kind (fi_expr f)); try done.
    eapply runs_bind; [apply (runs_scope _ _ any), condition_yields|]. intros b ? [_ ->].
    eapply handles_push; [done|by rewrite Hf|done|done].
  - unfold eval_match_receive. simpl in Hone. destruct (fm_state f); [done| |by eapply handles_mret].
    eapply runs_bind; [apply (runs_scope _ _ any), match_arms_yields|]. intros [[idx e] b] ? [_ ->].
    eapply handles_push; [done|by rewrite Hf|done|done].
Qed.

Lemma receive_many_handles frame c cs value : f0 = frame -> frame_many frame cs -> c ∈ cs ->
  handles (eval_receive debug runtime id frame c value) fs (Some (c, cs)).
Proof using Hwf Hf0 Hnatives.
  intros Hf Hmany Hc. assert (Hmany0 : frame_many f0 cs) by by rewrite Hf.
  destruct frame as [f|f|f|f|f|f|f|f|f|f|f|f|f|f]; cbn [eval_receive]; try done.
  - by apply sequence_receive_handles.
  - eapply record_update_receive_handles; eauto.
  - eapply app_receive_handles; eauto.
  - by apply native_receive_many_handles.
Qed.

End steps.

End handlers.
