(* ===== verification/MachineSafety.v ===== *)
(** The evaluation machine never raises an error of its own bookkeeping, and never runs
    out of work before it has an answer. *)

From Stdlib Require Import Sorting.Sorted.
From S2P Require Import Prelude Span Types Unify UnifyComplete BTree Adts Syntax TypedExprs Errors Heap.
From S2P Require Import HeapTrace HeapStress HeapCollect HeapSafety Env Scope Lists Values EvalScheduler Calls NativeTask.
From S2P Require Import HostScheduler HostSafety Frames Registry EvalOps Eval Machine MachineGC ValueFaults TaskSafety FrameSafety.

(** * The invariant *)

Abbreviation WorkItems := (list (EvalWorkItem RootedPtr)).

(** What the work queue holds for a frame: that it is to be entered, and results by their child. *)
Definition entered (id : FrameId) (w : WorkItems) : list unit :=
  omap (fun item => match item_returned item with
                    | None => if decide (item_frame item = id) then Some tt else None
                    | Some _ => None
                    end) w.
Definition results (id : FrameId) (w : WorkItems) : list FrameId :=
  omap (fun item => match item_returned item with
                    | Some r => if decide (item_frame item = id) then Some (ret_child r) else None
                    | None => None
                    end) w.
(** The host calls that are outstanding for a frame. *)
Definition host_calls (id : FrameId) (hosts : list FrameId) : list FrameId := List.filter (fun h => bool_decide (h = id)) hosts.

(** Every frame gets what it waits for exactly once: a new frame its entry, a waiting one
    the results of its children, which are frames or queued, and a host frame its answer. *)
Inductive settled (frame : EFrame) (kids results : list FrameId) (entered hosts : nat) : Prop :=
  | settled_fresh : frame_fresh frame -> kids = [] -> results = [] -> entered = 1 -> hosts = 0 ->
      settled frame kids results entered hosts
  | settled_one c : frame_one frame -> kids ++ results ≡ₚ [c] -> entered = 0 -> hosts = 0 ->
      settled frame kids results entered hosts
  | settled_many cs : frame_many frame cs -> kids ++ results ≡ₚ cs -> cs <> [] -> entered = 0 -> hosts = 0 ->
      settled frame kids results entered hosts
  | settled_host parent : frame = FrameNativeHost parent -> kids = [] -> entered = 0 -> length results + hosts = 1 ->
      settled frame kids results entered hosts.

Definition frame_settled (fs : EFrames) (w : WorkItems) (hosts : list FrameId) (id : FrameId) (f : EFrame) : Prop :=
  settled f (kids id (frames fs)) (results id w) (length (entered id w)) (length (host_calls id hosts)).

(** The invariant, but for the frames of which [except] holds. *)
Record machine_wf (except : FrameId -> Prop) (fs : EFrames) (w : WorkItems) (hosts : list FrameId) : Prop := {
  mw_store : store_wf fs;
  mw_settled : forall id f, frame_lookup id (frames fs) = Some f -> ~ except id -> frame_settled fs w hosts id f;
  mw_parents : forall id f p, frame_lookup id (frames fs) = Some f -> frame_parent f = Some p ->
    p < id /\ is_Some (frame_lookup p (frames fs));
  mw_items : forall item, item ∈ w -> is_Some (frame_lookup (item_frame item) (frames fs));
  mw_hosts : forall h, h ∈ hosts -> is_Some (frame_lookup h (frames fs)) }.

Definition all_frames : FrameId -> Prop := fun _ => False.
Abbreviation machine_ok := (machine_wf all_frames).

Lemma settled_perm f ks rs ks' rs' e h : settled f ks rs e h -> ks <> [] -> ks ++ rs ≡ₚ ks' ++ rs' -> settled f ks' rs' e h.
Proof.
  intros [] Hne Hp; try done; [eapply settled_one|eapply settled_many]; try done; by rewrite <- Hp.
Qed.

(** A frame that has a child or takes a result is not a new one. *)
Lemma results_app id w w' : results id (w ++ w') = results id w ++ results id w'.
Proof. apply omap_app. Qed.
Lemma entries_app id w w' : entered id (w ++ w') = entered id w ++ entered id w'.
Proof. apply omap_app. Qed.
Lemma results_cons id item w : results id (item :: w) =
  match item_returned item with
  | Some r => if decide (item_frame item = id) then [ret_child r] else []
  | None => []
  end ++ results id w.
Proof. unfold results. simpl. destruct (item_returned item); [by case_decide|done]. Qed.
Lemma entries_cons id item w : entered id (item :: w) =
  match item_returned item with
  | Some _ => []
  | None => if decide (item_frame item = id) then [tt] else []
  end ++ entered id w.
Proof. unfold entered. simpl. destruct (item_returned item); [done|by case_decide]. Qed.
Lemma host_calls_app id l l' : host_calls id (l ++ l') = host_calls id l ++ host_calls id l'.
Proof. apply List.filter_app. Qed.

(** The store and its kids. *)
Lemma elem_frame_lookup id f (l : list (FrameId * EFrame)) : StronglySorted lt (map fst l) -> (id, f) ∈ l ->
  frame_lookup id l = Some f.
Proof.
  induction l as [|[i g] l IH]; simpl; intros Ha Hin; [by inversion Hin|].
  apply StronglySorted_inv in Ha as [Ha Hall]. apply elem_of_cons in Hin as [[= <- <-]|Hin]; [by rewrite decide_True|].
  rewrite decide_False; [by apply IH|]. rewrite Forall_forall in Hall. intros ->.
  assert (id < id); [|lia]. apply Hall, list_elem_of_fmap. by exists (id, f).
Qed.

Lemma last_greatest l k : StronglySorted lt (l ++ [k]) -> Forall (fun i => i < k) l.
Proof.
  induction l as [|i l IH]; simpl; intros Ha; constructor; apply StronglySorted_inv in Ha as [Ha Hall]; [|by apply IH].
  apply Forall_app in Hall as [_ Hall]. by apply Forall_cons in Hall as [? _].
Qed.

Lemma kids_elem k g p l : frame_lookup k l = Some g -> frame_parent g = Some p -> k ∈ kids p l.
Proof.
  intros Hg%frame_lookup_elem Hp. apply list_elem_of_omap. exists (k, g). split; [done|]. simpl. by rewrite decide_True.
Qed.

Lemma elem_kids k p fs : store_wf fs -> k ∈ kids p (frames fs) ->
  exists g, frame_lookup k (frames fs) = Some g /\ frame_parent g = Some p.
Proof.
  intros [Ha _] Hin. apply list_elem_of_omap in Hin as ([i f] & Hin & Hf). simpl in Hf. case_decide as Hp; simplify_eq.
  exists f. split; [by apply elem_frame_lookup|done].
Qed.

Lemma no_elements {A} (l : list A) : (forall x, x ∉ l) -> l = [].
Proof. destruct l as [|x l]; [done|]. intros H. exfalso. apply (H x). by left. Qed.

(** Children of a frame that is not there. *)
Lemma kids_none k fs : (forall id f p, frame_lookup id (frames fs) = Some f -> frame_parent f = Some p ->
    p < id /\ is_Some (frame_lookup p (frames fs))) -> store_wf fs ->
  frame_lookup k (frames fs) = None -> kids k (frames fs) = [].
Proof.
  intros Hpar Hwf Hk. apply no_elements. intros i Hi. destruct (elem_kids _ _ _ Hwf Hi) as (g & Hg & Hp).
  destruct (Hpar _ _ _ Hg Hp) as [_ [? ?]]. congruence.
Qed.

(** * Growing *)

(** A frame is replaced, and children of it are added. *)
Record grows (id : FrameId) (fs fs' : EFrames) (f : EFrame) (new : list (FrameId * EFrame)) : Prop := {
  gr_frames : frames fs' = frame_insert id f (frames fs) ++ new;
  gr_next : next_frame_id fs' = next_frame_id fs + length new;
  gr_ids : map fst new = seq (next_frame_id fs) (length new);
  gr_new : Forall (fun e => frame_parent e.2 = Some id) new }.

Lemma evolves_grows id fs fs' f new : evolves id fs fs' f new -> grows id fs fs' f new.
Proof. intros [H1 H2 H3 H4]. split; try done. eapply Forall_impl; [done|]. by intros e []. Qed.

Lemma strongly_sorted_seq l n m : StronglySorted lt l -> Forall (fun i => i < n) l -> StronglySorted lt (l ++ seq n m).
Proof.
  induction l as [|i l IH]; simpl; intros Hs Hb.
  - clear Hs Hb. revert n. induction m as [|m IH]; intros n; simpl; constructor; [done|].
    apply Forall_forall. intros i Hi%elem_of_seq. lia.
  - apply StronglySorted_inv in Hs as [Hs Hall]. apply Forall_cons in Hb as [Hi Hb]. constructor; [by apply IH|].
    apply Forall_app. split; [done|]. apply Forall_forall. intros j Hj%elem_of_seq. lia.
Qed.

Section grow.
Context (id : FrameId) (fs fs' : EFrames) (f0 f : EFrame) (new : list (FrameId * EFrame)).
Context (Hwf : store_wf fs) (Hf0 : frame_lookup id (frames fs) = Some f0) (Hparent : frame_parent f = frame_parent f0)
  (Hgrow : grows id fs fs' f new).

#[local] Ltac present H := pose proof (frame_insert_present id f f0 _ (st_ascending _ Hwf) Hf0) as H.

Lemma grow_wf : store_wf fs'.
Proof using Hwf Hf0 Hparent Hgrow.
  present Hpresent. destruct Hgrow as [H1 H2 H3 _], Hpresent as (Hids & _ & _), Hwf as [Ha Hb]. split.
  - rewrite H1, map_app, Hids, H3. by apply strongly_sorted_seq.
  - rewrite H1, map_app, Hids, H2, H3. apply Forall_app. split.
    + eapply Forall_impl; [apply Hb|]. simpl. lia.
    + apply Forall_forall. intros i Hi%elem_of_seq. lia.
Qed.

Lemma grow_lookup k : frame_lookup k (frames fs') =
  if decide (k = id) then Some f
  else match frame_lookup k (frames fs) with Some g => Some g | None => frame_lookup k new end.
Proof using Hwf Hf0 Hgrow.
  present Hpresent. destruct Hgrow as [H1 _ _ _], Hpresent as (_ & Hl & _). rewrite H1, frame_lookup_app, Hl. by case_decide.
Qed.

Lemma grow_present k : is_Some (frame_lookup k (frames fs)) -> is_Some (frame_lookup k (frames fs')).
Proof using Hwf Hf0 Hgrow. intros [g Hg]. rewrite grow_lookup, Hg. case_decide; by eexists. Qed.

Lemma grow_new_lookup k g : frame_lookup k new = Some g -> next_frame_id fs <= k /\ frame_parent g = Some id.
Proof using Hgrow.
  intros Hg. destruct Hgrow as [_ _ H3 H4]. apply frame_lookup_elem in Hg. split.
  - assert (Hk : k ∈ map fst new) by (apply list_elem_of_fmap; by exists (k, g)). rewrite H3 in Hk. apply elem_of_seq in Hk. lia.
  - rewrite Forall_forall in H4. by specialize (H4 _ Hg).
Qed.

Lemma below_next k : is_Some (frame_lookup k (frames fs)) -> k < next_frame_id fs.
Proof using Hwf. intros Hk%frame_lookup_ids. destruct Hwf as [_ Hb]. rewrite Forall_forall in Hb. by apply Hb. Qed.

Lemma grow_kids k : kids k (frames fs') = kids k (frames fs) ++ (if decide (k = id) then map fst new else []).
Proof using Hwf Hf0 Hparent Hgrow.
  present Hpresent. destruct Hgrow as [H1 _ _ H4], Hpresent as (_ & _ & Hk). rewrite H1, kids_app, (Hk Hparent). f_equal.
  clear - H4. unfold kids. case_decide as Hk.
  - subst k. induction H4 as [|[i g] l Hg _ IH]; [done|]. simpl in *. rewrite Hg, decide_True by done. f_equal. apply IH.
  - induction H4 as [|[i g] l Hg _ IH]; [done|]. simpl in *. rewrite Hg, decide_False by congruence. apply IH.
Qed.

(** The invariant after a step of frame [id], which leaves it waiting for its children and
    queues only work for the new frames. *)
Lemma grow_ok w w' hosts hosts' : machine_wf (fun k => k = id) fs w hosts ->
  (forall k, results k w' = []) ->
  (forall k, is_Some (frame_lookup k (frames fs)) -> entered k w' = [] /\ host_calls k hosts' = []) ->
  (forall item, item ∈ w' -> is_Some (frame_lookup (item_frame item) new)) ->
  (forall h, h ∈ hosts' -> is_Some (frame_lookup h new)) ->
  (forall k g, frame_lookup k new = Some g -> settled g [] [] (length (entered k w')) (length (host_calls k hosts'))) ->
  settled f (kids id (frames fs) ++ map fst new) (results id w) (length (entered id w)) (length (host_calls id hosts)) ->
  machine_ok fs' (w' ++ w) (hosts' ++ hosts).
Proof using Hwf Hf0 Hparent Hgrow.
  intros [_ Hs Hp Hi Hh] Hr' Hold Hi' Hh' Hnew Hid. split.
  - apply grow_wf.
  - intros k g Hg _. unfold frame_settled. rewrite grow_kids, results_app, entries_app, host_calls_app, Hr'.
    rewrite grow_lookup in Hg. case_decide as Hk.
    + subst k. injection Hg as <-. destruct (Hold id) as [-> ->]; [by eexists|]. done.
    + rewrite app_nil_r. destruct (frame_lookup k (frames fs)) as [g'|] eqn:Hl.
      * injection Hg as <-. destruct (Hold k) as [-> ->]; [by eexists|]. by apply Hs.
      * assert (Hno : forall item, item ∈ w -> item_frame item <> k).
        { intros item Hin <-. destruct (Hi _ Hin) as [? ?]. congruence. }
        assert (Hres : results k w = [] /\ entered k w = []).
        { clear - Hno. induction w as [|item w IH]; [done|].
          destruct IH as [IH1 IH2]; [intros; apply Hno; by right|].
          assert (Hne : item_frame item <> k) by (apply Hno; by left).
          rewrite results_cons, entries_cons, IH1, IH2, !app_nil_r.
          destruct (item_returned item); by rewrite decide_False. }
        destruct Hres as [-> ->].
        assert (Hhs : host_calls k hosts = []).
        { assert (Hno' : forall h, h ∈ hosts -> h <> k) by (intros h Hin <-; destruct (Hh _ Hin); congruence).
          clear - Hno'. unfold host_calls. induction hosts as [|h l IH]; [done|]. simpl.
          rewrite bool_decide_eq_false_2 by (apply Hno'; by left). apply IH. intros; apply Hno'. by right. }
        rewrite Hhs, !app_nil_r. rewrite kids_none; [by apply Hnew|done..].
  - intros k g p Hg Hgp. rewrite grow_lookup in Hg. case_decide as Hk.
    + subst k. injection Hg as <-. rewrite Hparent in Hgp. destruct (Hp _ _ _ Hf0 Hgp). split; [done|by apply grow_present].
    + destruct (frame_lookup k (frames fs)) as [g'|] eqn:Hl.
      * injection Hg as <-. destruct (Hp _ _ _ Hl Hgp). split; [done|by apply grow_present].
      * destruct (grow_new_lookup _ _ Hg) as [Hle Hgp']. rewrite Hgp' in Hgp. injection Hgp as <-.
        assert (id < next_frame_id fs) by (apply below_next; by eexists).
        split; [lia|]. apply grow_present. by eexists.
  - intros item [Hin|Hin]%elem_of_app; [|by apply grow_present, Hi].
    rewrite grow_lookup. destruct (Hi' _ Hin) as [g Hg]. rewrite Hg. repeat case_match; by eexists.
  - intros h [Hin|Hin]%elem_of_app; [|by apply grow_present, Hh].
    rewrite grow_lookup. destruct (Hh' _ Hin) as [g Hg]. rewrite Hg. repeat case_match; by eexists.
Qed.
End grow.

(** A frame that is only replaced. *)
Lemma replaced_ok id fs fs' f0 f w hosts : machine_wf (fun k => k = id) fs w hosts ->
  frame_lookup id (frames fs) = Some f0 -> frame_parent f = frame_parent f0 -> grows id fs fs' f [] ->
  machine_wf (fun k => k = id) fs' w hosts /\ frame_lookup id (frames fs') = Some f /\
  forall k, kids k (frames fs') = kids k (frames fs).
Proof.
  intros [Hwf Hs Hp Hi Hh] Hf0 Hpar Hg.
  assert (Hlook : forall k, frame_lookup k (frames fs') = if decide (k = id) then Some f else frame_lookup k (frames fs)).
  { intros k. rewrite (grow_lookup _ _ _ _ _ _ Hwf Hf0 Hg). case_decide; [done|]. by destruct (frame_lookup k _). }
  assert (Hkids : forall k, kids k (frames fs') = kids k (frames fs)).
  { intros k. rewrite (grow_kids _ _ _ _ _ _ Hwf Hf0 Hpar Hg). simpl. case_decide; by rewrite app_nil_r. }
  assert (Hpres : forall k, is_Some (frame_lookup k (frames fs)) -> is_Some (frame_lookup k (frames fs'))).
  { intros k Hk. rewrite Hlook. case_decide; [by eexists|done]. }
  split_and!; [|by rewrite Hlook, decide_True|done]. split.
  - by eapply grow_wf.
  - intros k g Hk Hne. rewrite Hlook, decide_False in Hk by done. unfold frame_settled. rewrite Hkids. by apply Hs.
  - intros k g p Hk Hgp. rewrite Hlook in Hk. case_decide as Hd.
    + subst k. injection Hk as <-. rewrite Hpar in Hgp. destruct (Hp _ _ _ Hf0 Hgp). auto.
    + destruct (Hp _ _ _ Hk Hgp). auto.
  - auto.
  - auto.
Qed.

(** A frame that returns gives its result to its parent. *)
Lemma returned_ok id fs f p v w hosts : machine_wf (fun k => k = id) fs w hosts ->
  frame_lookup id (frames fs) = Some f -> frame_parent f = Some p -> kids id (frames fs) = [] ->
  results id w = [] -> entered id w = [] -> host_calls id hosts = [] ->
  machine_ok (mkFrameStore (next_frame_id fs) (frame_remove id (frames fs))) (receive p id v :: w) hosts.
Proof.
  intros [Hwf Hs Hp Hi Hh] Hf Hfp Hk Hr He Hc.
  destruct (frame_remove_present id _ f (st_ascending _ Hwf) Hf) as (Ha & Hids & Hl & Hkids).
  destruct (Hp _ _ _ Hf Hfp) as [Hlt Hpar].
  assert (Hpres : forall k, k <> id -> is_Some (frame_lookup k (frames fs)) -> is_Some (frame_lookup k (frame_remove id (frames fs)))).
  { intros k Hne Hsome. by rewrite Hl, decide_False. }
  split; simpl.
  - split; simpl; [done|]. destruct Hwf as [_ Hb]. rewrite Hids in Hb. by apply Forall_cons in Hb as [_ ?].
  - intros k g Hg _. rewrite Hl in Hg. case_decide as Hne; [done|]. pose proof (Hs _ _ Hg Hne) as Hset.
    unfold frame_settled in *. rewrite results_cons, entries_cons.
    cbn [item_returned item_frame receive ret_child frames]. specialize (Hkids k). rewrite Hfp in Hkids.
    destruct (decide (Some p = Some k)) as [[= <-]|Hd].
    + rewrite decide_True by done. eapply settled_perm; [done| |].
      * intros Hnil. rewrite Hnil in Hkids. by apply Permutation_nil_l in Hkids.
      * rewrite Hkids. simpl. by rewrite <- Permutation_middle.
    + rewrite decide_False by congruence. cbn [app] in *.
      destruct Hset; [eapply settled_fresh|eapply settled_one|eapply settled_many|eapply settled_host]; try done;
        try (by rewrite <- Hkids); subst; rewrite H0 in Hkids; by apply Permutation_nil_l in Hkids.
  - intros k g q Hg Hgq. rewrite Hl in Hg. case_decide as Hne; [done|]. destruct (Hp _ _ _ Hg Hgq) as [? ?].
    split; [done|]. apply Hpres; [|done]. intros ->. pose proof (kids_elem _ _ _ _ Hg Hgq) as Hin. rewrite Hk in Hin. by inversion Hin.
  - intros item [->|Hin]%elem_of_cons; simpl; [apply Hpres; [lia|done]|]. apply Hpres; [|by apply Hi]. intros Hid.
    clear - Hr He Hin Hid. apply list_elem_of_split in Hin as (w1 & w2 & ->).
    rewrite results_app, results_cons in Hr. rewrite entries_app, entries_cons in He.
    apply app_eq_nil in Hr as [_ Hr], He as [_ He]. apply app_eq_nil in Hr as [Hr _], He as [He _].
    destruct (item_returned item); by rewrite decide_True in * by done.
  - intros h Hin. apply Hpres; [|by apply Hh]. intros ->. clear - Hc Hin. unfold host_calls in Hc.
    assert (Hin' : id ∈ List.filter (fun h => bool_decide (h = id)) hosts).
    { apply list_elem_of_In, filter_In. split; [by apply list_elem_of_In|by rewrite bool_decide_eq_true_2]. }
    rewrite Hc in Hin'. by inversion Hin'.
Qed.

Lemma popped_ok fs item w hosts : machine_ok fs (item :: w) hosts ->
  machine_wf (fun k => k = item_frame item) fs w hosts.
Proof.
  intros [Hwf Hs Hp Hi Hh]. split; try done.
  - intros k g Hg Hne. specialize (Hs k g Hg (fun H => H)). unfold frame_settled in *.
    rewrite results_cons, entries_cons in Hs.
    destruct (item_returned item); by rewrite decide_False in Hs by congruence.
  - intros i Hin. apply Hi. by right.
Qed.

(** The answer of a host call is queued for its frame. *)
Lemma delivered_ok fs h v w hosts : machine_ok fs w (h :: hosts) -> machine_ok fs (receive h h v :: w) hosts.
Proof.
  intros [Hwf Hs Hp Hi Hh]. split; try done.
  - intros k g Hg Hne. specialize (Hs k g Hg Hne). unfold frame_settled in *. rewrite results_cons, entries_cons.
    cbn [item_returned item_frame receive ret_child]. change (h :: hosts) with ([h] ++ hosts) in Hs.
    rewrite host_calls_app in Hs. unfold host_calls at 1 in Hs. simpl in Hs. destruct (decide (h = k)) as [<-|Hd].
    + rewrite bool_decide_eq_true_2 in Hs by done. simpl in Hs. inversion Hs; try lia; try done.
      eapply settled_host; try done. simpl in *. lia.
    + by rewrite bool_decide_eq_false_2 in Hs by done.
  - intros item [->|Hin]%elem_of_cons; [|by apply Hi]. simpl. apply Hh. by left.
  - intros k Hk. apply Hh. by right.
Qed.

Lemma hosts_perm fs w hosts hosts' : hosts ≡ₚ hosts' -> machine_ok fs w hosts -> machine_ok fs w hosts'.
Proof.
  intros Hp [Hwf Hs Hpar Hi Hh]. split; try done.
  - intros k g Hg Hne. specialize (Hs k g Hg Hne). unfold frame_settled in *.
    assert (Hl : length (host_calls k hosts') = length (host_calls k hosts)).
    { unfold host_calls. clear - Hp. induction Hp; simpl; repeat case_match; simpl in *; congruence. }
    by rewrite Hl.
  - intros h Hin. apply Hh. by rewrite Hp.
Qed.

(** While there are frames, there is work, in the queue or at the host: the youngest frame
    has no children. *)
Lemma work_left fs w hosts : machine_ok fs w hosts -> frames fs <> [] -> w <> [] \/ hosts <> [].
Proof.
  intros [Hwf Hs Hp Hi Hh] Hne. destruct (exists_last Hne) as (l & [k g] & Hl).
  assert (Hin : (k, g) ∈ frames fs) by (rewrite Hl; apply elem_of_app; right; by left).
  pose proof (elem_frame_lookup _ _ _ (st_ascending _ Hwf) Hin) as Hg.
  assert (Hkids : kids k (frames fs) = []).
  { apply no_elements. intros i Hki. destruct (elem_kids _ _ _ Hwf Hki) as (f & Hf & Hfk).
    destruct (Hp _ _ _ Hf Hfk) as [Hlt _]. destruct Hwf as [Ha _]. rewrite Hl, map_app in Ha. simpl in Ha.
    apply last_greatest in Ha. assert (Hids : i ∈ map fst (frames fs)) by (apply frame_lookup_ids; by eexists).
    rewrite Hl, map_app in Hids. apply elem_of_app in Hids as [Hids|Hids].
    - rewrite Forall_forall in Ha. specialize (Ha _ Hids). lia.
    - apply list_elem_of_singleton in Hids. simpl in Hids. lia. }
  specialize (Hs k g Hg (fun H => H)). unfold frame_settled in Hs. rewrite Hkids in Hs.
  destruct w as [|item w]; [right|by left]. intros ->. 
  destruct Hs as [| |? ? Hperm|]; try done; simpl in *.
  - by apply Permutation_nil_l in H0.
  - by apply Permutation_nil_l in Hperm.
Qed.

(** * Cycles *)

Definition state_ok (s : ScopedState) (hosts : list FrameId) : Prop :=
  within_limit (st_scheduler s) /\ frames (st_frames s) <> [] /\
  machine_ok (st_frames s) (work (st_scheduler s)) hosts.

Section cycle.
Context (debug : bool) {F : Type} (runtime : RuntimeCore F) (Hnatives : natives_start_initial runtime).

(** [cycles m s Q]: from the state [s], [m] answers as [Q] says, or fails with a fault of
    values or for want of identifiers. *)
Definition cycles {A} (m : CM A) (s : ScopedState) (Q : A -> ScopedState -> Prop) : Prop :=
  forall sc, let '(r, (_, s')) := m (sc, s) in
    match r with Ok a => Q a s' | Err e => value_fault debug runtime e \/ exhausted (st_frames s') e end.

Lemma cycles_ret {A} (a : A) s (Q : A -> ScopedState -> Prop) : Q a s -> cycles (mret a) s Q.
Proof using. by intros H sc. Qed.

Lemma cycles_bind {A B} (m : CM A) (k : A -> CM B) s (P : A -> ScopedState -> Prop) (Q : B -> ScopedState -> Prop) :
  cycles m s P -> (forall a s', P a s' -> cycles (k a) s' Q) -> cycles (mthen m k) s Q.
Proof using.
  intros Hm Hk sc. unfold mthen. specialize (Hm sc). destruct (m (sc, s)) as [[a|e] [sc' s']]; [|done]. by apply Hk.
Qed.

Lemma cycles_frames {A} (m : EM A) s (P : A -> EFrames -> Prop) : runs debug runtime m (st_frames s) P ->
  cycles (on_frames m) s (fun a s' => exists fs', s' = mkScopedState fs' (st_scheduler s) /\ P a fs').
Proof using.
  intros H sc. unfold on_frames. simpl. specialize (H sc). destruct (m (sc, st_frames s)) as [[a|e] [sc' fs']]; [|done].
  by eexists.
Qed.

Lemma cycles_scope {A} (m : SM A) s (P : A -> Prop) : yields debug runtime m P ->
  cycles (on_scope m) s (fun a s' => P a /\ s' = s).
Proof using. intros H sc. unfold on_scope. simpl. specialize (H sc). destruct (m sc) as [[a|e] sc']; [done|by left]. Qed.

Lemma cycles_schedule item s : within_limit (st_scheduler s) ->
  cycles (schedule item) s (fun _ s' => st_frames s' = st_frames s /\ within_limit (st_scheduler s') /\
    work (st_scheduler s') = item :: work (st_scheduler s)).
Proof using.
  intros Hw sc. simpl. destruct (perform_spec (EvalScheduler.Schedule item) _ Hw) as (_ & H & Hl). by split_and!.
Qed.

Lemma cycles_schedule_children children s : within_limit (st_scheduler s) ->
  cycles (schedule_children children) s (fun _ s' => st_frames s' = st_frames s /\ within_limit (st_scheduler s') /\
    work (st_scheduler s') = map enter children ++ work (st_scheduler s)).
Proof using.
  intros Hw. unfold schedule_children.
  eapply cycles_bind with (P := fun _ s' => st_frames s' = st_frames s /\ within_limit (st_scheduler s') /\
    work (st_scheduler s') = map enter children ++ work (st_scheduler s)); [|intros ? s' H; by apply cycles_ret].
  assert (H : forall l s, within_limit (st_scheduler s) ->
    cycles (mapM_st (fun child => schedule (enter child)) l) s (fun _ s' => st_frames s' = st_frames s /\
      within_limit (st_scheduler s') /\ work (st_scheduler s') = map enter (rev l) ++ work (st_scheduler s)));
    [|specialize (H (rev children) s Hw); by rewrite rev_involutive in H].
  clear. induction l as [|c l IH]; intros s Hw; simpl; [by apply cycles_ret|].
  eapply cycles_bind; [by apply cycles_schedule|]. intros ? s1 (Hf & Hw1 & Hwork).
  eapply cycles_bind; [by apply IH|]. intros ? s2 (Hf2 & Hw2 & Hwork2). apply cycles_ret.
  split_and!; [congruence|done|]. rewrite Hwork2, Hwork, map_app, <- app_assoc. done.
Qed.

Definition outcome_ok (hosts : list FrameId) (out : ScopedCycleOutcome) (s : ScopedState) : Prop :=
  match out with
  | CycleCompleted _ => True
  | CycleContinue None => state_ok s hosts
  | CycleContinue (Some (child, _)) => state_ok s (child :: hosts)
  end.

Section control.
Context (id : FrameId) (fs : EFrames) (f0 : EFrame) (hosts : list FrameId) (sched : EvalScheduler RootedPtr).
Context (Hmw : machine_wf (fun k => k = id) fs (work sched) hosts) (Hf0 : frame_lookup id (frames fs) = Some f0)
  (Hlimit : within_limit sched) (Hentries : entered id (work sched) = []) (Hhosts : host_calls id hosts = []).

Abbreviation waits := (kids id (frames fs)).
Abbreviation queued := (results id (work sched)).

(** What is left to wait for, after the handler took what it did. *)
Definition awaits (taken : option (FrameId * list FrameId)) : Prop :=
  match taken with
  | None => waits = [] /\ queued = []
  | Some (c, cs) => waits ++ c :: queued ≡ₚ cs
  end.

Lemma awaits_last taken : awaits taken -> last_taken taken -> waits = [] /\ queued = [].
Proof using.
  destruct taken as [[c cs]|]; simpl; [|done]. intros Hp ->. apply Permutation_length in Hp as Hlen.
  rewrite length_app in Hlen. simpl in Hlen. split; apply length_zero_iff_nil; lia.
Qed.

(** A frame that grew, and was left waiting for its new children. *)
Lemma grown_state f fs' new w' hosts' sched' taken : grows id fs fs' f new -> frame_parent f = frame_parent f0 ->
  awaits taken -> last_taken taken -> within_limit sched' -> work sched' = w' ++ work sched ->
  (forall k, results k w' = []) -> Forall (fun item => is_Some (frame_lookup (item_frame item) new)) w' ->
  Forall (fun h => is_Some (frame_lookup h new)) hosts' ->
  (forall k g, frame_lookup k new = Some g -> settled g [] [] (length (entered k w')) (length (host_calls k hosts'))) ->
  settled f (map fst new) [] 0 0 ->
  state_ok (mkScopedState fs' sched') (hosts' ++ hosts).
Proof using Hmw Hf0 Hlimit Hentries Hhosts.
  intros Hg Hp Ha Hl Hw' Hwork Hr Hi Hh Hnew Hset. destruct (awaits_last _ Ha Hl) as [Hk Hq].
  pose proof (mw_store _ _ _ _ Hmw) as Hwf.
  split_and!; [done| |].
  - simpl. rewrite (gr_frames _ _ _ _ _ Hg). intros Hnil. apply app_eq_nil in Hnil as [Hnil _].
    by destruct (frames fs) as [|[i g] l]; simpl in Hnil; [|repeat case_decide].
  - simpl. rewrite Hwork. rewrite Forall_forall in Hi. rewrite Forall_forall in Hh.
    eapply (grow_ok id fs fs' f0 f new Hwf Hf0 Hp Hg); try done.
    + intros k Hsome. apply (below_next _ Hwf) in Hsome.
      assert (Hno : frame_lookup k new = None).
      { destruct (frame_lookup k new) eqn:Hk'; [|done]. apply (grow_new_lookup _ _ _ _ _ Hg) in Hk' as [? _]. lia. }
      split; apply no_elements.
      * intros u Hu. apply list_elem_of_omap in Hu as (item & Hin & Hu).
        destruct (item_returned item); [done|]. case_decide; [|done]. subst k. destruct (Hi _ Hin). congruence.
      * intros h Hin%list_elem_of_In. apply filter_In in Hin as [Hin%list_elem_of_In Hd].
        apply bool_decide_eq_true_1 in Hd as ->. destruct (Hh _ Hin). congruence.
    + by rewrite Hk, Hq, Hentries, Hhosts.
Qed.
(** A fresh child that is added last. *)
Lemma cycles_fresh_child g taken f fs' : evolves id fs fs' f [] -> frame_parent f = frame_parent f0 ->
  frame_fresh g -> frame_parent g = Some id -> frame_one f -> awaits taken -> last_taken taken ->
  cycles (let* child := on_frames (in_frames (store_insert g)) in let* _ := schedule (enter child) in mret (CycleContinue None))
    (mkScopedState fs' sched) (outcome_ok hosts).
Proof using Hmw Hf0 Hlimit Hentries Hhosts.
  intros He Hp Hg Hgp Ho Ha Hl. pose proof (mw_store _ _ _ _ Hmw) as Hwf.
  eapply cycles_bind.
  { apply cycles_frames with (P := fun c fs2 => evolves id fs fs2 f [(c, g)]), runs_insert.
    by apply (evolves_insert id fs f0 Hwf Hf0 fs' f []). }
  intros c ? (fs2 & -> & He2). eapply cycles_bind; [by apply cycles_schedule|].
  intros ? [fs3 sched3] (Hfs & Hw3 & Hwork). simpl in *. subst fs3. apply cycles_ret.
  eapply (grown_state f fs2 [(c, g)] [enter c] []); try done.
  - by apply evolves_grows.
  - constructor; [|done]. simpl. rewrite decide_True by done. by eexists.
  - intros k h Hk. simpl in Hk. case_decide; simplify_eq. rewrite entries_cons. simpl. rewrite decide_True by done.
    by apply settled_fresh.
  - by apply (settled_one _ _ _ _ _ c).
Qed.

Lemma frame_lookup_elem_ids (new : list (FrameId * EFrame)) n k g : map fst new = seq n (length new) ->
  frame_lookup k new = Some g -> entered k (map enter (map fst new)) = [tt].
Proof using.
  intros Hids Hg. assert (Hk : k ∈ seq n (length new)) by (rewrite <- Hids; apply frame_lookup_ids; by eexists).
  rewrite Hids. apply list_elem_of_split in Hk as (l1 & l2 & Hs). rewrite Hs, map_app. simpl.
  assert (Hnd : NoDup (seq n (length new))) by apply NoDup_seq. rewrite Hs in Hnd.
  apply NoDup_app in Hnd as (_ & Hd & Hnd). apply NoDup_cons in Hnd as [Hk2 _].
  assert (Hno : forall l, k ∉ l -> entered k (map enter l) = []).
  { clear. induction l as [|i l IH]; [done|]. intros [Hne Hl]%not_elem_of_cons. cbn [map]. rewrite entries_cons. cbn [item_returned enter item_frame].
    rewrite decide_False by done. by apply IH. }
  rewrite entries_app, entries_cons, !Hno; simpl; [by rewrite decide_True|done|].
  intros Hk1. apply (Hd _ Hk1). by left.
Qed.

Lemma control_cycles taken control fs' : control_ok id fs f0 taken control fs' -> awaits taken ->
  cycles (apply_control id control) (mkScopedState fs' sched) (outcome_ok hosts).
Proof using Hmw Hf0 Hlimit Hentries Hhosts.
  intros (f & new & He & Hp & Hc) Ha. pose proof (mw_store _ _ _ _ Hmw) as Hwf.
  pose proof (evolves_grows _ _ _ _ _ He) as Hg. destruct control as [e env|g|cs| |call|v]; simpl.
  - destruct Hc as (Ho & -> & Hl). eapply cycles_fresh_child; try done; [apply frame_for_expr_fresh|apply frame_for_expr_parent].
  - destruct Hc as (Ho & -> & Hl & Hfr & Hgp). by eapply cycles_fresh_child.
  - destruct Hc as (Hm & -> & Hne & Hl). eapply cycles_bind; [by apply cycles_schedule_children|].
    intros ? [fs3 sched3] (Hfs & Hw3 & Hwork). simpl in *. subst fs3. apply cycles_ret.
    eapply (grown_state f fs' new (map enter (map fst new)) []); try done.
    + intros k. clear. by induction (map fst new).
    + apply Forall_map, Forall_map, Forall_forall. intros [i g] Hin. simpl. apply frame_lookup_ids, list_elem_of_fmap.
      by exists (i, g).
    + intros k g Hk. erewrite frame_lookup_elem_ids by (done || apply Hg). apply frame_lookup_elem in Hk.
      pose proof (ev_new _ _ _ _ _ He) as Hnew. rewrite Forall_forall in Hnew. destruct (Hnew _ Hk) as [Hfr _].
      by apply settled_fresh.
    + by apply (settled_many _ _ _ _ _ (map fst new)); rewrite ?app_nil_r.
  - destruct taken as [[c cs]|]; [|done]. destruct Hc as (cs' & Hcs & Hne & Hm & ->). simpl in Ha.
    apply cycles_ret. destruct (replaced_ok _ _ _ _ _ _ _ Hmw Hf0 Hp Hg) as (Hmw' & Hf & Hkids).
    split_and!; [done|intros Hnil; simpl in Hnil; by rewrite Hnil in Hf|]. simpl.
    destruct Hmw' as [H1 H2 H3 H4 H5]. split; try done. intros k g Hk _.
    destruct (decide (k = id)) as [->|Hd]; [|by apply H2]. simplify_eq. unfold frame_settled.
    rewrite Hentries, Hhosts, Hkids. apply (settled_many _ _ _ _ _ cs'); try done.
    apply (Permutation_cons_inv (a := c)). by rewrite <- Hcs, <- Ha, <- Permutation_middle.
  - destruct Hc as (Ho & -> & Hl). eapply cycles_bind.
    { apply cycles_frames with (P := fun c fs2 => grows id fs fs2 f [(c, FrameNativeHost (Some id))]), runs_insert.
      destruct Hg as [H1 H2 H3 H4]. simpl in *. rewrite app_nil_r in H1.
      pose proof (evolves_below id fs f0 Hwf Hf0 _ _ _ He) as Hb. split; simpl.
      - by rewrite frame_insert_last, H1.
      - rewrite H2. lia.
      - f_equal. lia.
      - by constructor. }
    intros c ? (fs2 & -> & Hg2). apply cycles_ret. simpl.
    eapply (grown_state f fs2 [(c, FrameNativeHost (Some id))] [] [c]); try done.
    + constructor; [|done]. simpl. rewrite decide_True by done. by eexists.
    + intros k h Hk. simpl in Hk. case_decide; simplify_eq. unfold host_calls. simpl.
      rewrite bool_decide_eq_true_2 by done. by eapply settled_host.
    + by apply (settled_one _ _ _ _ _ c).
  - destruct Hc as (-> & Hl). destruct (replaced_ok _ _ _ _ _ _ _ Hmw Hf0 Hp Hg) as (Hmw' & Hf & Hkids).
    destruct (awaits_last _ Ha Hl) as [Hk Hq].
    eapply cycles_bind.
    { apply cycles_frames with (P := fun g fs2 => g = f /\ fs2 = mkFrameStore (next_frame_id fs') (frame_remove id (frames fs'))).
      intros sc. unfold in_frames, store_remove. simpl. by rewrite Hf. }
    intros g ? (fs2 & -> & -> & ->). destruct (frame_parent f) as [p|] eqn:Hpar; [|by apply cycles_ret].
    eapply cycles_bind; [by apply cycles_schedule|]. intros ? [fs3 sched3] (Hfs & Hw3 & Hwork). simpl in *. subst fs3.
    apply cycles_ret. simpl. assert (Hok : machine_ok (mkFrameStore (next_frame_id fs') (frame_remove id (frames fs')))
      (receive p id v :: work sched) hosts) by (eapply returned_ok; try done; by rewrite Hkids).
    split_and!; [done| |by rewrite <- Hwork in Hok]. simpl. intros Hnil.
    destruct (mw_items _ _ _ _ Hok (receive p id v)) as [h Hh]; [by left|]. simpl in Hh. by rewrite Hnil in Hh.
Qed.
End control.
(** ** The whole cycle *)

Lemma cycles_pop s : within_limit (st_scheduler s) -> work (st_scheduler s) <> [] ->
  cycles pop_item s (fun item s' => st_frames s' = st_frames s /\ within_limit (st_scheduler s') /\
    work (st_scheduler s) = item :: work (st_scheduler s')).
Proof using.
  intros Hw Hne sc. destruct (pop_next_spec _ Hw) as (H1 & H2 & H3 & _). unfold pop_item. cbn [snd].
  destruct (pop_next (st_scheduler s)) as [o sched]. simpl in H1, H2, H3.
  destruct (work (st_scheduler s)) as [|item w] eqn:Hwork; [done|]. subst o. simpl. split_and!; [done|done|]. by rewrite H2.
Qed.

Lemma deliver_cycles completed s hosts :
  match completed with
  | None => state_ok s hosts /\ work (st_scheduler s) <> []
  | Some (frame, _) => state_ok s (frame :: hosts)
  end ->
  cycles (deliver_completion debug runtime completed) s (fun _ s' => state_ok s' hosts /\ work (st_scheduler s') <> []).
Proof using.
  destruct completed as [[frame completion]|]; [|intros H; by apply cycles_ret]. intros (Hw & Hne & Hok). simpl.
  eapply cycles_bind; [apply (cycles_scope _ _ (fun _ => True)); eauto with values|]. intros value ? [_ ->].
  intros sc. pose proof (cycles_schedule (receive frame frame value) s Hw sc) as H.
  destruct (schedule _ _) as [[[]|e] [sc' s']]; [|done]. destruct H as (Hf & Hw' & Hwork). split; [|by rewrite Hwork].
  split_and!; [done|by rewrite Hf|]. rewrite Hf, Hwork. by apply delivered_ok.
Qed.

(** What a popped item says of its frame. *)
Lemma popped_frame fs item w hosts f : machine_ok fs (item :: w) hosts ->
  frame_lookup (item_frame item) (frames fs) = Some f ->
  let id := item_frame item in
  entered id w = [] /\ host_calls id hosts = [] /\
  match item_returned item with
  | None => frame_fresh f /\ kids id (frames fs) = [] /\ results id w = []
  | Some r =>
      (kids id (frames fs) = [] /\ results id w = [] /\ (frame_one f \/ exists p, f = FrameNativeHost p)) \/
      exists cs, frame_many f cs /\ ret_child r ∈ cs /\ kids id (frames fs) ++ ret_child r :: results id w ≡ₚ cs
  end.
Proof using.
  intros Hok Hf. pose proof (mw_settled _ _ _ _ Hok _ _ Hf (fun H => H)) as Hs. unfold frame_settled in Hs. cbn zeta.
  rewrite results_cons, entries_cons in Hs. rewrite !decide_True in Hs by done.
  assert (Hnil : forall {A} (l : list A), length l = 0 -> l = []) by (intros A l; apply length_zero_iff_nil).
  destruct (item_returned item) as [r|]; simpl in Hs.
  - rewrite decide_True in Hs by done. simpl in Hs.
    destruct Hs as [? ? Hr|c Ho Hp He Hh|cs Hm Hp ? He Hh|p Hfr Hk He Hl]; [done|..].
    + split_and!; [by apply Hnil|by apply Hnil|]. left. apply Permutation_length in Hp. rewrite length_app in Hp. simpl in Hp.
      split_and!; [apply Hnil; lia|apply Hnil; lia|by left].
    + split_and!; [by apply Hnil|by apply Hnil|]. right. exists cs. split_and!; [done| |done].
      rewrite <- Hp. apply elem_of_app. right. by left.
    + simpl in Hl. split_and!; [by apply Hnil|apply Hnil; lia|]. left. split_and!; [done|apply Hnil; lia|right; by eexists].
  - destruct Hs as [? ? Hr He Hh| | |]; try done. simpl in He. split_and!; try done; apply Hnil; lia.
Qed.

Lemma cycle_ok completed s hosts :
  match completed with
  | None => state_ok s hosts /\ work (st_scheduler s) <> []
  | Some (frame, _) => state_ok s (frame :: hosts)
  end ->
  cycles (run_scoped_eval_cycle debug runtime completed) s (outcome_ok hosts).
Proof using Hnatives.
  intros H. unfold run_scoped_eval_cycle. eapply cycles_bind; [by apply deliver_cycles|].
  intros ? s1 ((Hw & Hne & Hok) & Hwork). eapply cycles_bind; [by apply cycles_pop|].
  intros item [fs sched] (Hfs & Hw2 & Hpop). simpl in Hfs, Hw2, Hpop. subst fs. rewrite Hpop in Hok.
  destruct (mw_items _ _ _ _ Hok item) as [f Hf]; [by left|].
  pose proof (popped_frame _ _ _ _ _ Hok Hf) as (He & Hh & Hcase). pose proof (popped_ok _ _ _ _ Hok) as Hmw.
  pose proof (mw_store _ _ _ _ Hok) as Hwf.
  eapply cycles_bind.
  { apply cycles_frames with (P := fun g fs2 => g = f /\ fs2 = st_frames s1). by eapply runs_get. }
  intros ? ? (fs2 & -> & -> & ->). simpl.
  assert (Hgo : forall taken m, awaits (item_frame item) (st_frames s1) sched taken ->
    runs debug runtime m (st_frames s1) (control_ok (item_frame item) (st_frames s1) f taken) ->
    cycles (let* control := on_frames m in apply_control (item_frame item) control) (mkScopedState (st_frames s1) sched)
      (outcome_ok hosts)).
  { intros taken m Ha Hm. eapply cycles_bind; [by apply cycles_frames|]. intros control ? (fs2 & -> & Hc).
    by eapply control_cycles. }
  destruct (item_returned item) as [r|].
  - destruct Hcase as [(Hk & Hr & [Ho|[p ->]])|(cs & Hm & Hc & Hp)].
    + apply (Hgo None); [done|]. by eapply receive_one_handles.
    + apply (Hgo None); [done|]. simpl. eapply handles_mret; [by apply evolves_refl|done|done].
    + apply (Hgo (Some (ret_child r, cs))); [done|]. by eapply receive_many_handles.
  - destruct Hcase as (Hfr & Hk & Hr). apply (Hgo None); [done|]. by eapply enter_handles.
Qed.
End cycle.

(** * Rounds of the loop *)

Section loop.
Context (debug : bool) {F : Type} (runtime : RuntimeCore F) (Hnatives : natives_start_initial runtime).
Context {C Permit : Type} `{PC : ParallelismController C Permit}.
Context (policy : F -> F) (poll_host : F -> Poll (result EngineError Value) * F).

Abbreviation invoke := (invoke_call runtime policy).
Abbreviation poll_future := (poll_call poll_host).
Abbreviation Loop := (@EvalLoop F C Permit).
Abbreviation round := (eval_round debug runtime policy poll_host).

(** Why a cycle fails: a fault of values, no identifiers left, a collection that fails, or
    a host call whose arguments cannot be exported. *)
Inductive cycle_fault (fuel : nat) (s : ScopedState) : fault -> Prop :=
  | cf_value e : value_fault debug runtime e -> cycle_fault fuel s e
  | cf_identifiers e : exhausted (st_frames s) e -> cycle_fault fuel s e
  | cf_collect live sc e : (collect_if_needed debug live sc).1 = Err e -> cycle_fault fuel s e
  | cf_prepare request sc sc' e : prepare debug (type_system runtime) fuel request sc = Some (Err e, sc') ->
      cycle_fault fuel s e.

Definition queued_for (queued : option (FrameId * NativeCall)) : list FrameId :=
  match queued with Some (frame, _) => [frame] | None => [] end.

Definition before_cycle (completed : option (FrameId * NativeCompletion)) (s : ScopedState) (hosts : list FrameId) : Prop :=
  match completed with
  | None => state_ok s hosts /\ work (st_scheduler s) <> []
  | Some (frame, _) => state_ok s (frame :: hosts)
  end.

Lemma collect_machine_keeps_state sc s :
  exists r sc', collect_machine_if_needed debug runtime (sc, s) = (r, (sc', s)) /\
    match r with Ok _ => True | Err e => exists live, (collect_if_needed debug live sc).1 = Err e end.
Proof using.
  unfold collect_machine_if_needed. destruct (collect_needed (rs_heap sc)); simpl; [|by eexists _, _].
  rewrite visits_frames. destruct s as [fs sched]. 
  match goal with |- context [collect_if_needed debug ?l sc] => destruct (collect_if_needed debug l sc) as [r sc'] eqn:Hc;
    exists r, sc'; split; [done|]; destruct r; [done|]; exists l end.
  by rewrite Hc.
Qed.

Lemma runtime_cycle_ok fuel completed s hosts sc : before_cycle completed s hosts ->
  match run_runtime_cycle debug runtime fuel completed (sc, s) with
  | (Err e, (_, s')) => cycle_fault fuel s' e
  | (Ok (Some (RuntimeContinue queued)), (_, s')) => state_ok s' (queued_for queued ++ hosts)
  | _ => True
  end.
Proof using Hnatives.
  intros Hb. pose proof (cycle_ok debug runtime Hnatives completed s hosts Hb sc) as H. unfold run_runtime_cycle, mthen.
  destruct (run_scoped_eval_cycle debug runtime completed (sc, s)) as [[out|e] [sc' s']].
  - destruct out as [[[frame request]|]|v]; simpl in *; [|done|done].
    destruct (prepare _ _ _ _ _) as [[[call|e] sc'']|] eqn:Hp; [done| |done]. by eapply cf_prepare.
  - destruct H; [by apply cf_value|by apply cf_identifiers].
Qed.

Lemma scoped_cycle_ok fuel completed s hosts h : before_cycle completed s hosts ->
  match scoped_cycle debug runtime fuel completed h s with
  | (Err e, (_, s')) => cycle_fault fuel s' e
  | (Ok (Some (RuntimeContinue queued)), (_, s')) => state_ok s' (queued_for queued ++ hosts)
  | _ => True
  end.
Proof using Hnatives.
  intros Hb. unfold scoped_cycle, mthen.
  destruct (collect_machine_keeps_state (mkScope (set_defer_collection true h) [] true) s) as (r & sc & -> & Hr).
  destruct r as [u|e]; [|by destruct Hr as [live Hl]; eapply cf_collect].
  pose proof (runtime_cycle_ok fuel completed s hosts sc Hb) as H.
  by destruct (run_runtime_cycle _ _ _ _ _) as [[[[queued|v]|]|e] [sc' s']].
Qed.

(** Between rounds: the machine waits for the host exactly when it has no work of its own. *)
Definition loop_ok (l : Loop) : Prop :=
  exists calls, outstanding invoke poll_future (lp_host l) calls /\ state_ok (lp_state l) (map fst calls) /\
    wait_for_host (lp_boundary l) = negb (has_ready_work (st_scheduler (lp_state l))).

Definition limited (l : Loop) : ScopedState :=
  mkScopedState (st_frames (lp_state l))
    (set_ready_work_limit (ready_work_limit_of (parallelism_controller (lp_host l))) (st_scheduler (lp_state l))).

(** Why a round fails: its cycle does, or a host call or the admission of one. *)
Inductive round_fault (fuel : nat) (l : Loop) : fault -> Prop :=
  | rf_cycle completed h s e : scoped_cycle debug runtime fuel completed (lp_heap l) (limited l) = (Err e, (h, s)) ->
      cycle_fault fuel s e -> round_fault fuel l e
  | rf_host calls e : outstanding invoke poll_future (lp_host l) calls -> call_error invoke poll_future calls e ->
      round_fault fuel l (Raised e).

Definition step_ok (fuel : nat) (l : Loop) (r : option (exec RootedPtr * Heap + Loop)) : Prop :=
  match r with
  | Some (inl (Err e, _)) => round_fault fuel l e
  | Some (inr l') => loop_ok l'
  | _ => True
  end.

Lemma limited_ok l hosts : state_ok (lp_state l) hosts -> state_ok (limited l) hosts /\
  work (st_scheduler (limited l)) = work (st_scheduler (lp_state l)).
Proof using.
  intros (Hw & Hne & Hok). destruct (perform_spec (SetLimit (ready_work_limit_of (parallelism_controller (lp_host l)))) _ Hw)
    as (_ & Hwork & Hl). simpl in Hwork, Hl. split; [|done]. split_and!; [done|done|]. simpl. by rewrite Hwork.
Qed.

(** There is always something to do next. *)
Lemma next_boundary_ok h s host calls : outstanding invoke poll_future host calls -> state_ok s (map fst calls) ->
  exists l, next_boundary (F := F) (C := C) (Permit := Permit) h s host = inr l /\ loop_ok l.
Proof using.
  intros Ho Hs. unfold next_boundary, boundary_from_state. destruct (has_ready_work (st_scheduler s)) eqn:Hr.
  { eexists. split; [done|]. exists calls. split_and!; [done|done|]. simpl. by rewrite Hr. }
  destruct (has_queued_native_work host) eqn:Hq.
  { eexists. split; [done|]. exists calls. split_and!; [done|done|]. simpl. by rewrite Hr. }
  destruct (has_pending_native_work host) eqn:Hp.
  { eexists. split; [done|]. exists calls. split_and!; [done|done|]. simpl. by rewrite Hr. }
  exfalso. destruct Hs as (Hw & Hne & Hok).
  assert (Hwork : work (st_scheduler s) = []).
  { destruct (work (st_scheduler s)) eqn:Hwork; [done|]. assert (has_ready_work (st_scheduler s) = true); [|congruence].
    apply has_ready_work_spec. by rewrite Hwork. }
  rewrite Hwork in Hok. destruct (work_left _ _ _ Hok Hne) as [|Hhosts]; [done|]. apply Hhosts.
  assert (calls = []) as ->; [|done]. apply (nothing_outstanding invoke poll_future host); [done|..];
    unfold has_queued_native_work, has_immediate_native, has_deferred_native, has_pending_native_work, has_pending_native in *;
    apply orb_false_iff in Hq as [Hq1 Hq2];
    by destruct (pending_native host), (immediate_native host), (deferred_native host).
Qed.

Lemma run_cycle_ok fuel l completed host calls :
  before_cycle completed (limited l) (map fst calls) -> outstanding invoke poll_future host calls ->
  step_ok fuel l (run_cycle debug runtime fuel completed (lp_heap l) (limited l) host).
Proof using Hnatives.
  intros Hb Ho. unfold run_cycle. pose proof (scoped_cycle_ok fuel completed (limited l) (map fst calls) (lp_heap l) Hb) as H.
  destruct (scoped_cycle _ _ _ _ _ _) as [[[[queued|v]|]|e] [h s]] eqn:Hc; simpl; try done; [|by eapply rf_cycle].
  destruct queued as [[frame call]|]; simpl in *.
  - destruct (next_boundary_ok h s (schedule_native call_scheduling frame call host) ((frame, call) :: calls))
      as (l' & -> & Hl'); [by apply schedule_outstanding|done|done].
  - by destruct (next_boundary_ok h s host calls) as (l' & -> & Hl').
Qed.

Lemma round_ok fuel l : loop_ok l -> step_ok fuel l (round fuel l).
Proof using Hnatives.
  intros (calls & Ho & Hs & Hwait). unfold eval_round. destruct (limited_ok l _ Hs) as [Hs' Hwork].
  change (mkScopedState (st_frames (lp_state l)) _) with (limited l).
  destruct (poll_pending_native invoke poll_future fuel _ (lp_host l)) as [[x host]|] eqn:Hpoll; [|done].
  destruct (turn_spec _ _ _ _ _ _ _ _ Ho Hpoll) as [Hturn Hidle].
  destruct x as [[| |frame completion]|e]; simpl in Hturn.
  - destruct (wait_for_host (lp_boundary l)) eqn:Hw.
    + exfalso. rewrite (Hidle eq_refl) in Hs. destruct Hs as (Hlim & Hne & Hok).
      destruct (work_left _ _ _ Hok Hne) as [Hwk|]; [|done]. apply has_ready_work_spec in Hwk. by rewrite Hwk in Hwait.
    + apply (run_cycle_ok fuel l None host calls); [|done]. split; [done|]. rewrite Hwork.
      apply has_ready_work_spec. by destruct (has_ready_work _).
  - by destruct (next_boundary_ok (lp_heap l) (limited l) host calls) as (l' & -> & Hl').
  - destruct Hturn as (call & rest & Hcalls & _ & Hrest).
    apply (run_cycle_ok fuel l (Some (frame, completion)) host rest); [|done]. simpl.
    destruct Hs' as (Hlim & Hne & Hok). split_and!; [done|done|]. eapply hosts_perm; [|done]. by rewrite Hcalls.
  - by eapply rf_host.
Qed.

(** ** Starting *)

Lemma start_yields limit env expr inputs :
  yields debug runtime (start_machine debug runtime limit env expr inputs) (fun s => state_ok s []).
Proof using.
  unfold start_machine. cbn zeta. eapply (yields_bind _ _ _ _ (fun _ => True)).
  - destruct inputs as [|i inputs]; [by apply yields_ret|].
    eapply (yields_bind _ _ _ _ (fun _ => True)); [|intros; apply yields_lift, rooted_application_gives].
    unfold alloc_inputs. eapply yields_mono; [apply yields_mapM|done]. intros a. yield.
  - intros [env' e] _. apply yields_lift.
    set (f := frame_for_expr None e env'). assert (Hf : frame_fresh f) by apply frame_for_expr_fresh.
    assert (Hp : frame_parent f = None) by apply frame_for_expr_parent.
    cbn [fst snd]. fold f. unfold store_insert, FrameStore_default. cbn [next_frame_id frames frame_insert].
    rewrite decide_False by done. simpl. split_and!; [apply new_within|done|]. split; simpl.
    + split; simpl; [constructor; constructor|constructor; [lia|constructor]].
    + intros id g. case_decide as Hd; [|done]. intros [= <-] _. subst id. unfold frame_settled. simpl.
      unfold kids. simpl. rewrite Hp. simpl. by apply settled_fresh.
    + intros id g p. case_decide; [|done]. intros [= <-]. by rewrite Hp.
    + intros item ->%list_elem_of_singleton. simpl. by eexists.
    + intros h Hh. by inversion Hh.
Qed.

(** The states of the loop between its rounds. *)
Inductive reached (l : Loop) : Loop -> Prop :=
  | reached_start : reached l l
  | reached_round fuel l1 l2 : reached l l1 -> round fuel l1 = Some (inr l2) -> reached l l2.

Lemma reached_ok l l' : loop_ok l -> reached l l' -> loop_ok l'.
Proof using Hnatives.
  intros Hl Hr. induction Hr as [|fuel l1 l2 _ IH Hround]; [done|]. pose proof (round_ok fuel l1 IH) as H.
  by rewrite Hround in H.
Qed.

Lemma reached_trans l1 l2 l3 : reached l1 l2 -> reached l2 l3 -> reached l1 l3.
Proof using. intros H1 H2. induction H2; [done|by eapply reached_round]. Qed.

Lemma loop_faults fuel : forall l e h, loop_ok l ->
  eval_loop debug runtime policy poll_host fuel l = Some (Err e, h) ->
  exists fuel' l', reached l l' /\ round_fault fuel' l' e.
Proof using Hnatives.
  induction fuel as [|fuel IH]; intros l e h Hl; [done|]. cbn [eval_loop]. pose proof (round_ok (S fuel) l Hl) as Hr.
  destruct (round (S fuel) l) as [[[[v|e'] h']|l']|] eqn:Hround; [done| | |done].
  - intros [= -> ->]. exists (S fuel), l. split; [constructor|done].
  - intros He. destruct (IH l' e h Hr He) as (fuel' & l2 & Hreach & Hf). exists fuel', l2. split; [|done].
    eapply reached_trans; [|done]. eapply reached_round; [constructor|done].
Qed.
End loop.

Lemma start_ok {F C Permit} `{PC : ParallelismController C Permit} debug (runtime : RuntimeCore F)
    policy poll_host (controller : C) limit env expr inputs h s h' :
  machine_root_scope (start_machine debug runtime limit env expr inputs) h = (Ok s, h') ->
  loop_ok runtime policy poll_host (@mkEvalLoop F C Permit h' s (HostScheduler_new controller) MoreInternalWork).
Proof.
  unfold machine_root_scope. destruct (start_machine _ _ _ _ _ _ _) as [r sc] eqn:Hstart. intros Hs. simplify_eq.
  pose proof (start_yields debug runtime limit env expr inputs (mkScope (set_defer_collection true h) [] true)) as Hok.
  rewrite Hstart in Hok. simpl in Hok. exists []. split_and!; [apply new_outstanding|done|]. simpl.
  destruct Hok as (Hw & Hne & Hok). destruct (work_left _ _ _ Hok Hne) as [Hwork|]; [|done].
  apply has_ready_work_spec in Hwork. by rewrite Hwork.
Qed.

(** * Properties *)

(** C20. The evaluation machine always knows what it waits for: in every state of the loop
    that an evaluation reaches, each frame is either new, with its one entry in the work
    queue; or waits for one result, or for exactly its unanswered children, each of which
    is a younger frame or has its result in the queue, once; or stands for one host call
    that is outstanding. Every queued item and every outstanding call belongs to a frame,
    and the loop waits for the host exactly when the work queue is empty. *)
Theorem machine_invariant {F C Permit} `{PC : ParallelismController C Permit} debug (runtime : RuntimeCore F)
    policy poll_host (controller : C) limit env expr inputs h s h' l :
  natives_start_initial runtime ->
  machine_root_scope (start_machine debug runtime limit env expr inputs) h = (Ok s, h') ->
  reached debug runtime policy poll_host (@mkEvalLoop F C Permit h' s (HostScheduler_new controller) MoreInternalWork) l ->
  exists calls, outstanding (invoke_call runtime policy) (poll_call poll_host) (lp_host l) calls /\
    state_ok (lp_state l) (map fst calls) /\
    wait_for_host (lp_boundary l) = negb (has_ready_work (st_scheduler (lp_state l))).
Proof.
  intros Hn Hs Hr. eapply reached_ok; [done| |exact Hr]. by eapply start_ok.
Qed.

(** C21. Evaluation only fails for a reason: when the loop ends with a fault, then making the
    first frame failed, or the loop reached a state whose next round fails because of a
    fault of values (an ill-typed program, a heap operation, a native function, a list of
    more than [u64::MAX] elements), because the identifiers of frames are used up, because
    a collection failed, because the arguments of a host call could not be exported, or
    because of the answer of a host call. No round fails for want of a frame, of a child's
    result, of a function or an argument that the machine should have kept, or of work. *)
Theorem evaluation_fails_for_a_reason {F C Permit} `{PC : ParallelismController C Permit} debug (runtime : RuntimeCore F)
    policy poll_host fuel (controller : C) env expr inputs h e h' :
  natives_start_initial runtime ->
  eval_typed_expr debug runtime policy poll_host fuel controller env expr inputs h = Some (Err e, h') ->
  value_fault debug runtime e \/
  exists h0 s fuel' l,
    machine_root_scope (start_machine debug runtime (ready_work_limit_of controller) env expr inputs) h = (Ok s, h0) /\
    reached debug runtime policy poll_host (@mkEvalLoop F C Permit h0 s (HostScheduler_new controller) MoreInternalWork) l /\
    round_fault debug runtime policy poll_host fuel' l e.
Proof.
  intros Hn. unfold eval_typed_expr.
  destruct (machine_root_scope _ h) as [[s|e0] h0] eqn:Hs.
  - intros He. right. eapply loop_faults in He as (fuel' & l & Hr & Hf); [|done|by eapply start_ok]. eauto 10.
  - intros [= -> ->]. left. unfold machine_root_scope in Hs.
    destruct (start_machine _ _ _ _ _ _ _) as [r sc] eqn:Hstart. simplify_eq.
    pose proof (start_yields debug runtime (ready_work_limit_of controller) env expr inputs
      (mkScope (set_defer_collection true h) [] true)) as H. by rewrite Hstart in H.
Qed.

(** A pair of a literal and a hole, evaluated without host functions. *)
Definition demo_controller : FixedParallelismController := FixedParallelismController_new (ExecutionBounds_new 1 1).
Definition demo_expr : TypedExpr :=
  let bool_ e := mkTypedExpr (ty_builtin Bool) e in
  mkTypedExpr (TTuple [ty_builtin Bool; ty_builtin Bool]) (ETuple [bool_ (EBool true); bool_ EHole]).
Definition never (f : unit) : Poll (result EngineError Value) * unit := (PollPending, f).
Definition demo_start : Heap * ScopedState :=
  match machine_root_scope (start_machine true demo_runtime 1 Rooted_new demo_expr []) (Heap_new 7) with
  | (Ok s, h) => (h, s)
  | (_, h) => (h, mkScopedState FrameStore_default (EvalScheduler_new 0 1))
  end.
Definition demo_loop : @EvalLoop unit FixedParallelismController unit :=
  mkEvalLoop demo_start.1 demo_start.2 (HostScheduler_new demo_controller) MoreInternalWork.
Definition demo_round (l : @EvalLoop unit FixedParallelismController unit) : @EvalLoop unit FixedParallelismController unit :=
  match eval_round true demo_runtime id never 5 l with Some (inr l') => l' | _ => l end.

Lemma demo_natives : natives_start_initial demo_runtime.
Proof. intros f T args sc task (id & imp & Hid & _). done. Qed.

(** After two rounds, the pair has received the literal and waits for the hole. *)
Lemma machine_invariant_witness :
  exists calls, outstanding (invoke_call demo_runtime id) (poll_call never) (lp_host (demo_round (demo_round demo_loop))) calls /\
    state_ok (lp_state (demo_round (demo_round demo_loop))) (map fst calls) /\
    wait_for_host (lp_boundary (demo_round (demo_round demo_loop))) =
      negb (has_ready_work (st_scheduler (lp_state (demo_round (demo_round demo_loop))))).
Proof.
  apply (machine_invariant true demo_runtime id never demo_controller 1 Rooted_new demo_expr [] (Heap_new 7)
           demo_start.2 demo_start.1 _ demo_natives); [by vm_compute|].
  apply (reached_round _ _ _ _ _ 5 (demo_round demo_loop)); [|by vm_compute].
  apply (reached_round _ _ _ _ _ 5 demo_loop); [constructor|by vm_compute].
Defined.

Lemma evaluation_fails_for_a_reason_witness :
  exists h',
    eval_typed_expr true demo_runtime id never 9 demo_controller Rooted_new demo_expr [] (Heap_new 7)
      = Some (Err (Raised UnsupportedExpr), h') /\
    (value_fault true demo_runtime (Raised UnsupportedExpr) \/
     exists h0 s fuel' l,
       machine_root_scope (start_machine true demo_runtime 1 Rooted_new demo_expr []) (Heap_new 7) = (Ok s, h0) /\
       reached true demo_runtime id never (mkEvalLoop h0 s (HostScheduler_new demo_controller) MoreInternalWork) l /\
       round_fault true demo_runtime id never fuel' l (Raised UnsupportedExpr)).
Proof.
  destruct (eval_typed_expr true demo_runtime id never 9 demo_controller Rooted_new demo_expr [] (Heap_new 7)) as [[r h']|] eqn:He;
    [|by vm_compute in He].
  exists h'. assert (Hr : r = Err (Raised UnsupportedExpr)) by (vm_compute in He; congruence). rewrite Hr in He |- *.
  split; [done|]. apply (evaluation_fails_for_a_reason true demo_runtime id never 9 demo_controller Rooted_new demo_expr []
    (Heap_new 7) (Raised UnsupportedExpr) h' demo_natives He).
Defined.
