(* ===== verification/Arrivals.v ===== *)
(** What frames and natives answer: results that arrive in any order are put in their
    places, and when a native function is called. *)

From S2P Require Import Prelude Span Types Unify UnifyComplete BTree Adts Syntax TypedExprs Errors Heap.
From S2P Require Import HeapTrace HeapStress HeapCollect HeapSafety Env Scope Lists Values EvalScheduler Calls NativeTask.
From S2P Require Import HostScheduler Frames Registry EvalOps Eval ValueFaults TaskSafety FrameSafety.

(** * Slots that are filled in any order *)

(** The slots of [children] after the results in [answers]. *)
Fixpoint slots_of {X} (children : list FrameId) (answers : list (FrameId * X)) : list (option X) :=
  match children with
  | [] => []
  | c :: children => frame_lookup c answers :: slots_of children answers
  end.

Lemma slots_of_nil {X} children : slots_of children ([] : list (FrameId * X)) = replicate (length children) None.
Proof. induction children as [|c l IH]; simpl; [done|by rewrite IH]. Qed.

Lemma slots_of_absent {X} children c (x : X) answers : c ∉ children ->
  slots_of children ((c, x) :: answers) = slots_of children answers.
Proof.
  induction children as [|d l IH]; [done|]. intros [Hne Hl]%not_elem_of_cons. cbn [slots_of frame_lookup].
  by rewrite decide_False, IH.
Qed.

(** One more result fills the slot at the position of its child. *)
Lemma slots_of_insert {X} children c (x : X) answers i : NoDup children -> position c children = Some i ->
  slots_of children ((c, x) :: answers) = <[i := Some x]> (slots_of children answers).
Proof.
  revert i. induction children as [|d l IH]; [done|]. intros i [Hd Hnd]%NoDup_cons Hi. cbn [slots_of frame_lookup position] in *.
  destruct (decide (d = c)) as [->|Hne].
  - injection Hi as <-. rewrite decide_True by done. cbn. f_equal. by apply slots_of_absent.
  - destruct (position c l) as [j|]; simplify_eq/=. rewrite decide_False by done. by rewrite (IH j).
Qed.

Lemma position_elem c children : c ∈ children -> exists i, position c children = Some i.
Proof.
  induction children as [|d l IH]; [by intros ?%elem_of_nil|]. simpl. intros Hc. case_decide as Hd; [by eexists|].
  apply elem_of_cons in Hc as [->|Hc]; [done|]. destruct (IH Hc) as [i ->]. by eexists.
Qed.

Lemma slots_of_lookup {X} children (answers : list (FrameId * X)) c i : position c children = Some i ->
  slots_of children answers !! i = Some (frame_lookup c answers).
Proof.
  revert i. induction children as [|d l IH]; [done|]. intros i. cbn [position slots_of].
  destruct (decide (d = c)) as [->|Hne]; [by intros [= <-]|].
  destruct (position c l) as [j|]; intros [= <-]. simpl. by apply IH.
Qed.

Lemma slots_of_length {X} children (answers : list (FrameId * X)) : length (slots_of children answers) = length children.
Proof. induction children; simpl; congruence. Qed.

(** When every child has answered, the slots hold the answers, in the order of the
    children, whatever the order in which they came. *)
Lemma slots_of_all {X} children (values : list X) answers : length values = length children -> NoDup children ->
  answers ≡ₚ zip children values -> slots_of children answers = map Some values.
Proof.
  intros Hlen Hnd Hp.
  assert (Hl : forall c v, (c, v) ∈ answers -> frame_lookup c answers = Some v).
  { assert (Hnd' : NoDup (map fst answers)).
    { assert (Hf : map fst (zip children values) = children) by (apply fst_zip; lia). rewrite Hp. by rewrite Hf. }
    clear - Hnd'. induction answers as [|[d w] l IH]; [by intros ? ? ?%elem_of_nil|]. simpl in Hnd'.
    apply NoDup_cons in Hnd' as [Hd Hnd']. intros c v [[= -> ->]|Hin]%elem_of_cons; simpl; [by rewrite decide_True|].
    rewrite decide_False; [by apply IH|]. intros ->. apply Hd, list_elem_of_fmap. by exists (c, v). }
  assert (Hl' : forall c v, (c, v) ∈ zip children values -> frame_lookup c answers = Some v).
  { intros c v Hin. apply Hl. by rewrite Hp. }
  clear Hl Hp Hnd. revert values Hlen Hl'. induction children as [|c l IH]; intros [|v values]; simpl; try done.
  intros [= Hlen] Hl'. rewrite (Hl' c v) by by left. f_equal. apply IH; [done|]. intros d w Hin. apply Hl'. by right.
Qed.

Lemma lookup_in {X} c (l : list (FrameId * X)) x : frame_lookup c l = Some x -> c ∈ map fst l.
Proof.
  induction l as [|[d y] l IH]; simpl; [done|]. case_decide as Hd; [subst; by left|]. intros H. right. auto.
Qed.

(** * Tuples, lists and dictionaries *)

Section deliver.
Context (debug : bool) {F : Type} (runtime : RuntimeCore F) (id : FrameId).

(** One child answers: its frame's state is read and the result is received. *)
Definition deliver (answer : FrameId * RootedPtr) : EM EvalControl :=
  let* frame := in_frames (store_get id) in eval_receive debug runtime id frame answer.1 answer.2.

(** The results [answers] are received one after the other, with what the frame says to
    each. *)
Fixpoint deliver_all (answers : list (FrameId * RootedPtr)) : EM (list EvalControl) :=
  match answers with
  | [] => mret []
  | answer :: answers =>
      let* control := deliver answer in
      let* controls := deliver_all answers in
      mret (control :: controls)
  end.

Context (parent : option FrameId) (e : TypedExpr) (env : ScopedEnvironment) (children : list FrameId).
Context (Hkind : sequence_length e = Some (length children)) (Hnd : NoDup children).

Definition waiting_sequence (received : list (FrameId * RootedPtr)) (remaining : nat) : EFrame :=
  FrameSequence (mkFrSequence parent e env EvalItem children (slots_of children received) remaining).

Lemma receive_one_answer c v received remaining :
  c ∈ children -> c ∉ map fst received ->
  receive_sequence_value "" children (slots_of children received) (S remaining) c v
  = Ok (slots_of children ((c, v) :: received), remaining).
Proof using Hnd.
  intros Hc Hr. destruct (position_elem c children Hc) as [i Hi]. unfold receive_sequence_value. rewrite Hi. simpl.
  assert (Hnone : frame_lookup c received = None).
  { destruct (frame_lookup c received) eqn:Hl; [|done]. exfalso. by apply Hr, (lookup_in _ _ _ Hl). }
  rewrite (slots_of_lookup _ _ _ _ Hi), Hnone. simpl. by erewrite slots_of_insert.
Qed.

Lemma sequence_kind_known : exists kind, sequence_kind e = Ok kind.
Proof using Hkind.
  unfold sequence_length in Hkind. unfold sequence_kind. destruct (te_kind e); try done; by eexists.
Qed.

(** What a waiting frame does with the answer of a child that has not answered. *)
Lemma deliver_eq c v received remaining fs sc :
  frame_lookup id (frames fs) = Some (waiting_sequence received (S remaining)) ->
  c ∈ children -> c ∉ map fst received ->
  exists kind, deliver (c, v) (sc, fs)
    = (if decide (remaining = 0) then
         let* values := ethrow (completed_values kind (slots_of children ((c, v) :: received))) in
         let* root := in_scope (alloc_sequence_values debug e values) in
         mret (Return root)
       else
         let* _ := replace_frame id (waiting_sequence ((c, v) :: received) remaining) in
         mret Wait) (sc, fs).
Proof using Hkind Hnd.
  intros Hf Hc Hr. destruct sequence_kind_known as [kind Hk]. exists kind.
  assert (Hrecv : receive_sequence_value kind children (slots_of children received) (S remaining) c v
                  = Ok (slots_of children ((c, v) :: received), remaining)).
  { pose proof (receive_one_answer c v received remaining Hc Hr) as H. unfold receive_sequence_value in *.
    destruct (position c children); [|done]. simpl in *. repeat case_match; done. }
  unfold deliver, mthen at 1, in_frames, store_get, mlift. simpl. rewrite Hf. cbn [waiting_sequence eval_receive].
  unfold eval_sequence_receive. cbn [fs_expr fs_state fs_children fs_values fs_remaining]. rewrite Hk.
  unfold mthen at 1, ethrow, mlift. cbn beta iota. unfold mthen at 1. rewrite Hrecv. reflexivity.
Qed.

Lemma deliver_early c v received n fs sc :
  store_wf fs -> frame_lookup id (frames fs) = Some (waiting_sequence received (S (S n))) ->
  c ∈ children -> c ∉ map fst received ->
  exists fs', store_wf fs' /\ frame_lookup id (frames fs') = Some (waiting_sequence ((c, v) :: received) (S n)) /\
    (forall other, other <> id -> frame_lookup other (frames fs') = frame_lookup other (frames fs)) /\
    deliver (c, v) (sc, fs) = (Ok Wait, (sc, fs')).
Proof using Hkind Hnd.
  intros Hwf Hf Hc Hr. destruct (deliver_eq c v received (S n) fs sc Hf Hc Hr) as [kind ->].
  rewrite decide_False by done.
  exists (mkFrameStore (next_frame_id fs) (frame_insert id (waiting_sequence ((c, v) :: received) (S n)) (frames fs))).
  destruct (frame_insert_present id (waiting_sequence ((c, v) :: received) (S n)) _ _ (st_ascending _ Hwf) Hf)
    as (Hids & Hl & _).
  split_and!.
  - destruct Hwf as [Ha Hb]. split; simpl; by rewrite Hids.
  - simpl. by rewrite Hl, decide_True.
  - intros other Hne. simpl. by rewrite Hl, decide_False by congruence.
  - unfold mthen, replace_frame, in_frames, store_replace. simpl. by rewrite Hf.
Qed.

Lemma deliver_last c v received values fs sc :
  frame_lookup id (frames fs) = Some (waiting_sequence received 1) ->
  c ∈ children -> c ∉ map fst received -> slots_of children ((c, v) :: received) = map Some values ->
  deliver (c, v) (sc, fs) = (let* r := in_scope (alloc_sequence_values debug e values) in mret (Return r)) (sc, fs).
Proof using Hkind Hnd.
  intros Hf Hc Hr Hv. destruct (deliver_eq c v received 0 fs sc Hf Hc Hr) as [kind ->]. rewrite decide_True by done.
  unfold completed_values. rewrite Hv, all_some_filled. reflexivity.
Qed.

Lemma deliver_sequence values : length values = length children ->
  forall early last received fs sc, store_wf fs ->
  early ++ last :: received ≡ₚ zip children values ->
  frame_lookup id (frames fs) = Some (waiting_sequence received (S (length early))) ->
  exists fs', deliver_all early (sc, fs) = (Ok (replicate (length early) Wait), (sc, fs')) /\
    (forall other, other <> id -> frame_lookup other (frames fs') = frame_lookup other (frames fs)) /\
    deliver last (sc, fs')
    = (let* r := in_scope (alloc_sequence_values debug e values) in mret (Return r)) (sc, fs').
Proof using Hkind Hnd.
  intros Hlen. assert (Hids : map fst (zip children values) = children) by (apply fst_zip; lia).
  assert (Hnew : forall c v rest received, (c, v) :: rest ++ received ≡ₚ zip children values ->
    c ∈ children /\ c ∉ map fst received).
  { intros c v rest received Hp. pose proof (Permutation_map fst Hp) as Hp'. rewrite Hids in Hp'. simpl in Hp'.
    rewrite map_app in Hp'. split; [rewrite <- Hp'; by left|]. rewrite <- Hp' in Hnd.
    apply NoDup_cons in Hnd as [Hc _]. intros H. apply Hc, elem_of_app. by right. }
  induction early as [|[c v] early IH]; intros [c' v'] received fs sc Hwf Hp Hf.
  - exists fs. destruct (Hnew c' v' [] received Hp) as [Hc Hr]. split_and!; [done|done|].
    apply (deliver_last c' v' received values); try done. by apply slots_of_all.
  - destruct (Hnew c v (early ++ [(c', v')]) received) as [Hc Hr].
    { rewrite <- Hp. simpl. by rewrite <- app_assoc. }
    destruct (deliver_early c v received (length early) fs sc Hwf Hf Hc Hr) as (fs1 & Hwf1 & Hf1 & Ho1 & Hd).
    destruct (IH (c', v') ((c, v) :: received) fs1 sc Hwf1) as (fs' & Hd' & Ho' & Hlast); [|done|].
    { rewrite <- Hp. rewrite (Permutation_swap (c, v) (c', v') received). by rewrite <- Permutation_middle. }
    exists fs'. split_and!; [|intros other Hne; by rewrite Ho', Ho1|done].
    cbn [deliver_all]. unfold mthen at 1. rewrite Hd. unfold mthen. by rewrite Hd'.
Qed.
End deliver.

(** C37. The children of a tuple, list or dictionary may answer in any order. A frame that
    awaits [children] receives the results [values] of theirs in any order, the results
    [early] and then [last]: to each early one it says that it waits and only its own
    state changes; the last one makes it build the value from [values], in the order of
    the expression, and return it. *)
Theorem sequence_results_in_order debug {F} (runtime : RuntimeCore F) id parent e env children values early last fs sc :
  sequence_length e = Some (length children) -> NoDup children -> length values = length children ->
  early ++ [last] ≡ₚ zip children values -> store_wf fs ->
  frame_lookup id (frames fs)
    = Some (FrameSequence (mkFrSequence parent e env EvalItem children (replicate (length children) None)
                             (length children))) ->
  exists fs',
    deliver_all debug runtime id early (sc, fs) = (Ok (replicate (length early) Wait), (sc, fs')) /\
    (forall other, other <> id -> frame_lookup other (frames fs') = frame_lookup other (frames fs)) /\
    deliver debug runtime id last (sc, fs')
      = (let* r := in_scope (alloc_sequence_values debug e values) in mret (Return r)) (sc, fs').
Proof.
  intros Hk Hnd Hlen Hp Hwf Hf.
  assert (Hn : length children = S (length early)).
  { apply Permutation_length in Hp. rewrite length_app, length_zip in Hp. simpl in Hp. lia. }
  apply (deliver_sequence debug runtime id parent e env children Hk Hnd values Hlen early last []); try done.
  unfold waiting_sequence. by rewrite slots_of_nil, <- Hn.
Qed.

(** The second of a pair answers first. *)
Definition pair_expr : TypedExpr :=
  mkTypedExpr (TTuple [ty_builtin Bool; ty_builtin Bool])
    (ETuple [mkTypedExpr (ty_builtin Bool) (EBool true); mkTypedExpr (ty_builtin Bool) EHole]).
Definition pair_frames : EFrames :=
  mkFrameStore 3 [(0, FrameSequence (mkFrSequence None pair_expr Scoped_new EvalItem [1; 2] [None; None] 2))].

Lemma sequence_results_in_order_witness :
  let runtime := mkRuntime (F := unit) NativeRegistry_default ∅ (mkTypeSystem ∅ ∅) in
  exists fs', deliver_all true runtime 0 [(2, demo_b)] (demo_scope, pair_frames) = (Ok [Wait], (demo_scope, fs')) /\
    (forall other, other <> 0 -> frame_lookup other (frames fs') = frame_lookup other (frames pair_frames)) /\
    deliver true runtime 0 (1, demo_a) (demo_scope, fs')
    = (let* r := in_scope (alloc_sequence_values true pair_expr [demo_a; demo_b]) in mret (Return r)) (demo_scope, fs').
Proof.
  apply (sequence_results_in_order true _ 0 None pair_expr Scoped_new [1; 2] [demo_a; demo_b] [(2, demo_b)] (1, demo_a));
    try done.
  - apply NoDup_ListNoDup. repeat constructor; simpl; lia.
  - apply perm_swap.
  - by split; repeat constructor.
Defined.

(** * Native functions and their arity *)

Section arity.
Context (debug : bool) {F : Type} (runtime : RuntimeCore F).

(** The argument, with its type given, unifies with the parameter. *)
Definition accepts (parameter T : ty) (s : Subst) : Prop := closed_type T = true /\ unify_native parameter T = Ok s.

Lemma native_apply_eq n arg arg_ty rest_ty T s sc : nat_arity n <> 0 -> nat_typ n = TFun arg_ty rest_ty -> accepts arg_ty T s ->
  native_apply debug runtime n arg (Some T) sc =
  (let n := mkNativeFn (nat_id n) (nat_name n) (nat_arity n) (apply s rest_ty) (nat_applied n ++ [arg]) (nat_applied_types n ++ [T]) in
   if is_function_type (nat_typ n) then
     let* root := alloc_root_native debug (nat_id n) (nat_name n) (nat_arity n) (nat_typ n) (nat_applied n) (nat_applied_types n) in
     mret (ApplyValue root)
   else native_run runtime n) sc.
Proof using.
  intros Ha Ht [Hc Hu]. unfold native_apply. rewrite decide_False, Ht by done. cbn [split_fun].
  unfold resolve_arg_type. rewrite Hc. unfold mthen at 1. cbn beta iota delta [mret]. unfold mthen at 1, mlift at 1. by rewrite Hu.
Qed.
End arity.

(** The arity of a native function is not what decides whether it is called: when its
    result type is a function type, an application that supplies the last of its arguments
    only makes another partial application of [nat_arity n] arguments, without calling it;
    and the next application calls it with one argument more than its arity. *)
Theorem native_arity_ignored debug {F} (runtime : RuntimeCore F) n p q result arg T s sc :
  nat_arity n = S (length (nat_applied n)) -> nat_typ n = TFun p (TFun q result) -> accepts p T s ->
  let saturated := mkNativeFn (nat_id n) (nat_name n) (nat_arity n) (TFun (apply s q) (apply s result))
                     (nat_applied n ++ [arg]) (nat_applied_types n ++ [T]) in
  native_apply debug runtime n arg (Some T) sc =
    (let* root := alloc_root_native debug (nat_id n) (nat_name n) (nat_arity n) (nat_typ saturated) (nat_applied saturated)
                    (nat_applied_types saturated) in
     mret (ApplyValue root)) sc /\
  length (nat_applied saturated) = nat_arity n /\
  forall f arg' T' s' sc', native_callable runtime (nat_id n) = Ok (SchedulerCallable f) ->
    accepts (apply s q) T' s' -> is_function_type (apply s' (apply s result)) = false ->
    native_apply debug runtime saturated arg' (Some T') sc' =
      (let* r := f (full_type (nat_applied_types n ++ [T] ++ [T']) (apply s' (apply s result))) (nat_applied n ++ [arg] ++ [arg']) in
       mret (from_scheduler r)) sc' /\
    length (nat_applied n ++ [arg] ++ [arg']) = S (nat_arity n).
Proof.
  intros Ha Ht Hacc saturated. split_and!.
  - rewrite (native_apply_eq _ _ _ _ p (TFun q result) T s) by (done || lia). cbn zeta.
    by replace (apply s (TFun q result)) with (TFun (apply s q) (apply s result)) by (rewrite !apply_subst; done).
  - simpl. rewrite length_app, Ha. simpl. lia.
  - intros f arg' T' s' sc' Hf Hacc' Hr. split.
    + rewrite (native_apply_eq _ _ _ _ (apply s q) (apply s result) T' s') by (done || (simpl; lia)). cbn zeta. simpl.
      rewrite Hr. unfold native_run. simpl. rewrite Hf, <- !app_assoc. done.
    + rewrite !length_app, Ha. simpl. lia.
Qed.

(** A native function of one argument, which answers a function. *)
Definition i32_ : ty := ty_builtin I32.
Definition demo_function : ty -> list RootedPtr -> SM SchedulerNativeResult := fun _ args => mret (NativeReady (hd demo_a args)).
Definition demo_native_runtime : RuntimeCore unit :=
  mkRuntime (mkNativeRegistry 6 ∅ {[5%Z := mkNativeImpl 5 1 (mkScheme [] [] (TFun i32_ (TFun i32_ i32_))) (SchedulerCallable demo_function)]})
    ∅ (mkTypeSystem ∅ ∅).
Definition demo_native : NativeFn RootedPtr := mkNativeFn 5 "f" 1 (TFun i32_ (TFun i32_ i32_)) [] [].

Lemma native_arity_ignored_witness :
  native_apply true demo_native_runtime demo_native demo_a (Some i32_) demo_scope =
    (let* root := alloc_root_native true 5 "f" 1 (TFun i32_ i32_) [demo_a] [i32_] in mret (ApplyValue root)) demo_scope /\
  native_apply true demo_native_runtime (mkNativeFn 5 "f" 1 (TFun i32_ i32_) [demo_a] [i32_]) demo_b (Some i32_) demo_scope =
    (let* r := demo_function (TFun i32_ (TFun i32_ i32_)) [demo_a; demo_b] in mret (from_scheduler r)) demo_scope.
Proof.
  destruct (native_arity_ignored true demo_native_runtime demo_native i32_ i32_ i32_ demo_a i32_ ∅ demo_scope)
    as (H1 & _ & H2); [done|done|by split|].
  split; [exact H1|]. by apply (H2 demo_function demo_b i32_ ∅ demo_scope).
Defined.
